(* ===== verification/_CoqProject ===== *)
-Q . S2P
Prelude.v
Bytes.v
Keycode.v
KeycodeTheory.v
Btree.v
Engine.v
Memory.v
Bitcask.v
BitcaskTheory.v
Bincode.v
Mvcc.v
MvccKeys.v
MvccAbs.v
MvccScan.v
MvccSpec.v
MvccClaims.v
RaftLog.v
RaftLogTheory.v
RaftLogClaims.v
RaftNode.v
RaftNodeTheory.v
RaftSteps.v
RaftDisk.v
RaftElection.v
RaftReplication.v
RaftProtocol.v
RaftRefinement.v
RaftSafety.v
RaftLiveness.v
Float64.v
SqlValue.v
SqlValueTheory.v
SqlExpr.v
SqlExprTheory.v
SqlPlan.v
SqlExec.v
SqlJoinTheory.v
SqlOrderTheory.v
SqlAggTheory.v
SqlOptimizer.v
SqlOptTheory.v
SqlPushdown.v
SqlSchema.v
SqlLocal.v
SqlLocalRep.v
SqlLocalTheory.v
SqlLocalOps.v
SqlIndexLookup.v
SqlLocalTables.v
SqlStatements.v
SqlMvcc.v
SqlSession.v
SqlLocalClaims.v
SqlAst.v
SqlPlanner.v
SqlWf.v
SqlOptWf.v
SqlPlannerTheory.v
SqlPlanSafety.v
SqlMeaning.v
SqlPlannerClaims.v
SqlLexer.v
SqlParser.v
SqlParserTheory.v
SqlPrinter.v
SqlRoundtrip.v
SqlStmtParser.v
SqlStmtRoundtrip.v
SqlLexTheory.v
SqlParserSafety.v
SqlNesting.v
SqlExecute.v
SqlParserClaims.v
SqlRaft.v
SqlRaftTheory.v
SqlRaftTxn.v
SqlReplicas.v
SqlRaftClaims.v
