(* ===== verification/Prelude.v ===== *)
(** * A verification of toyDB

    toyDB is a distributed SQL database.  A session takes the text of a client's
    statement through the lexer, the parser, the planner, the optimizer and the
    executor to a SQL engine, which keeps schemas, rows and indexes as keys of an
    MVCC transaction; MVCC keeps versions in a key/value storage engine (in
    memory or BitCask); a Raft cluster replicates the writes, with its log in a
    storage engine too.  This library models these layers from the Rust sources
    and proves what each promises to the layer above, and the composition from
    the text of a statement down to storage.

    ** How Rust is modelled

    A fallible function returns an [outcome]: a value, an [Error] or a panic, so
    that "does not panic" is a statement.  Code with a mutable state is a
    function of the monad [stM]; it returns the state after an error as well,
    since Rust keeps it.  A [u64], [i64] or [u8] is a [Z] with its wrap-around or
    overflow check written out; an [f64] is its bit pattern ([Float64]); bytes
    and strings are lists of bytes; [BTreeMap] and [BTreeSet] are ordered lists;
    a trait is a class, and what its users rely on is a second class of laws
    ([Engine], [EngineReads] and [EngineWrites], [KvTransaction] and [KvSpec], [Transaction] and
    [TransactionSpec], [State] and [StateLaws]).  Third-party crates ([bincode],
    [regex], floating-point powers, random numbers) and the tables of the
    standard library (Unicode classes, decimal text of floats) are parameters
    with their documented laws.  The release build is modelled: [debug_assert!] is not
    evaluated, and unchecked arithmetic wraps.  Error messages are the literal
    part of their format string.

    ** Files, by layer (sources under src/)

    - Shared: [Prelude] (errors, the monad, machine integers, generic lemmas,
      the tactics and hint databases), [Bytes] (byte strings and their order),
      [Btree] (ordered maps).
    - Keycode, src/encoding/keycode.rs: [Keycode] is the serializer and
      deserializer over the shapes that occur, [KeycodeTheory] proves that it is
      a bijection that preserves order and that prefix ranges are exact.
      [Bincode], src/encoding/bincode.rs, is the parameter for values.
    - Storage, src/storage/engine.rs, memory.rs, bitcask.rs: [Engine] is the
      trait and its contract, [Memory] and [Bitcask] the two engines.
      [BitcaskTheory] proves the contract, recovery from every truncated log,
      and compaction.
    - MVCC, src/storage/mvcc.rs: [Mvcc] is the code; [MvccKeys] and [MvccAbs]
      relate the key space to a typed database, [MvccScan] proves buffered scans
      correct, [MvccSpec] relates the code to snapshot isolation without
      versions, [MvccClaims] states the properties.
    - Raft, src/raft/log.rs, node.rs, message.rs, state.rs: [RaftLog] with
      [RaftLogTheory] and [RaftLogClaims] is the log and its abstract
      specification; [RaftNode] has the handlers of the three roles;
      [RaftNodeTheory] and [RaftSteps] say what a step does to term, vote and
      messages; [RaftDisk] is a storage engine on a disk whose process may stop at
      any write and lose what is not flushed; [RaftElection] is a cluster of nodes
      on such disks with restarts and an unreliable network, and its election
      safety; [RaftReplication] has the
      replication progress, commitment, reads and application.  [RaftProtocol] is
      the protocol without code: nodes that move by small steps over a network,
      with the history that makes the invariant inductive; [RaftRefinement]
      proves that every method of a node, failures included, is a walk of such
      steps; [RaftSafety] concludes for the cluster; [RaftLiveness] shows that
      elections make progress.
    - SQL values and expressions, src/sql/types/value.rs, expression.rs:
      [Float64], [SqlValue], [SqlValueTheory], [SqlExpr], [SqlExprTheory].
    - SQL plans, execution and optimizer, src/sql/planner/plan.rs, optimizer.rs,
      src/sql/execution/: [SqlPlan], [SqlExec] (executor, joins, aggregation),
      [SqlJoinTheory] (the join iterators compute the relational joins),
      [SqlOrderTheory] (ORDER BY), [SqlAggTheory] (GROUP BY and aggregates),
      [SqlOptimizer], [SqlOptTheory], [SqlPushdown] (the optimizers preserve the
      rows of a plan), [SqlOptWf] (and its well-formedness).
    - SQL engine, src/sql/types/schema.rs, src/sql/engine/local.rs: [SqlSchema]
      validates schemas and rows, [SqlLocal] is the engine over [KvTransaction].
      [SqlLocalRep] relates the key space to a logical database; [SqlLocalTheory]
      defines its consistency ([db_ok]); [SqlLocalOps], [SqlLocalTables] and
      [SqlStatements] prove every write against it; [SqlIndexLookup] proves the
      optimizer's index lookups on it; [SqlMvcc] discharges [KvSpec] with the
      theory of MVCC.
    - Planner, src/sql/parser/ast.rs, src/sql/planner/planner.rs: [SqlAst] is the
      syntax tree, [SqlPlanner] the scopes and every statement.  [SqlWf] defines
      well-formed plans and proves that they read without panics,
      [SqlPlannerTheory] that the planner builds them, [SqlPlanSafety] that
      optimized plans on the local engine make at most one write, with arguments
      the engine can handle; [SqlMeaning] gives the meaning of syntax, and
      [SqlPlannerClaims] states the guarantees.
    - Parser, src/sql/parser/: [SqlLexer] (lexer.rs), [SqlParser]
      (verified_precedence.rs and the executable parts of verified_roundtrip.rs,
      verified_integer.rs, verified_expression.rs), [SqlStmtParser]
      (verified_control.rs, and [Parser::parse] with its nesting guard of
      parser.rs), [SqlPrinter] (the printers of verified_minparen.rs and
      verified_minparen_stmt.rs).  [SqlParserTheory] proves that parsing consumes
      tokens and that its fuel suffices; [SqlRoundtrip], [SqlStmtRoundtrip] and
      [SqlLexTheory] prove the round trip for expressions, statements and text;
      [SqlParserSafety] that only transaction control and plannable statements
      come out; [SqlNesting] that
      the nesting guard bounds the recursion.
    - Sessions, src/sql/execution/session.rs: [SqlSession] has the transaction
      control and [with_txn], [SqlExecute] the execution of a statement's text.
      [SqlLocalClaims] states the guarantees of the engine and of implicit
      transactions, [SqlParserClaims] those of the parser and of sessions, with
      runs on the memory engine.
    - The SQL engine on Raft, src/sql/engine/raft.rs: [SqlRaft] has the commands,
      the state machine and the client; the cluster in between is a parameter
      with an assumed interface ([RaftServiceSpec]): it may leave commands
      outstanding and apply them late.  [SqlRaftTheory]
      relates requests to the state machine, [SqlRaftTxn] follows a transaction
      through its phases, [SqlReplicas] proves that the layers below cannot tell
      engines of the same content apart, [SqlRaftClaims] states the guarantees.

    ** What the theorems show

    Encodings: round trip, order, exact prefix ranges.  Storage: both engines
    implement a finite map, and BitCask recovers what was wholly written.  MVCC:
    any interleaving of commands has the responses of snapshot isolation; scans
    are stable under concurrent commands; time travel, conflicts, errors.  Raft:
    the log refines an abstract log and never loses what it promised to keep; in
    every run of a cluster there is at most one leader per term, and, with fsync
    on and stops that do not tear the writes of one splice apart, logs match,
    leaders have what was committed before them, and no two nodes ever apply
    different entries of an index; the commit, read and apply rules; the
    invariants of a node; a follower that hears nothing stands for election, and
    a quorum of votes makes it a leader.  SQL: arithmetic is exact or
    fails; ORDER BY is a stable sort by the keys, GROUP BY yields the groups with
    their aggregates; normal forms, constant folding, joins and all five optimizers preserve
    results (with the conditions they need, and counterexamples where the code
    lacks them); the engine's writes keep types, keys, unique columns, indexes
    and foreign keys consistent and never panic; its reads are exact; implicit
    transactions are atomic over MVCC and any storage engine.  Planner: on a
    consistent local database statements are planned, optimized and executed
    without panics (integer division overflow and joins over a RIGHT JOIN apart),
    writes have their effect and keep it consistent, names resolve to the columns
    they name, expressions mean what the syntax says.
    Parser: printing and parsing are inverse, any text is parsed or rejected with
    an input error, with a bounded depth of recursion, and a statement's text
    takes effect as a whole or not at all and is committed if it succeeds.
    On Raft, a transaction is atomic also when requests are lost, and replicas
    on different storage engines agree.

    ** Fuel

    Recursion that is not structural takes fuel, and running out is a panic, so
    that a theorem without panics shows that the fuel suffices: expression and
    plan rewrites use the size of the term, the expression parser twice the
    tokens left (as in the source), loops of the lexer and parser the input left, BitCask's log reader the length of
    the file, joins the number of rows, factorials the operand, a drained scan
    one step per raw item of its range, DROP TABLE one step per key it deletes.
    The safety theorems of the cluster are for runs of fewer than 2^63 steps: a
    step appends at most one entry, so that log indexes do not overflow.

    ** What is assumed of stops

    A node may stop at any write of its log or between steps.  Writes of the
    commit index may be lost until a flush, the other writes of one call of the
    log up to the flush that ends it; a call's writes are not torn apart.  For
    [splice] the code does not ensure this (it sets and deletes entries one by
    one), and [splice_torn] in [RaftDisk] shows the log that results; the safety
    theorems exclude it, and state it.

    ** Not modelled

    Text formatting of values,
    plans and keys; the server, client and command-line programs (threads,
    sockets, terminals); operating-system failures, locks and mutex poisoning;
    the Verus proof functions and differential tests next to the parser, which
    are not executed. *)
From Stdlib.Strings Require Export Byte.
From stdpp Require Export base list gmap strings sorting.
From Stdlib Require Export ZArith Lia.

#[global] Set Default Goal Selector "!".
Open Scope Z_scope.

(** ** Errors ([src/error.rs])

    [Error] has the source's variants.  A message payload is the literal part
    of the format string, without the interpolated operands. *)
Inductive Error : Type :=
  | Abort
  | InvalidData (msg : string)
  | InvalidInput (msg : string)
  | IO (msg : string)
  | ReadOnly
  | Serialization.

#[export] Instance Error_eq_dec : EqDecision Error.
Proof. solve_decision. Defined.

(** The Raft state machine may only report deterministic errors to clients. *)
Definition is_deterministic (e : Error) : bool :=
  match e with
  | Abort => false
  | InvalidData _ => false
  | InvalidInput _ => true
  | IO _ => false
  | ReadOnly => true
  | Serialization => true
  end.

(** ** Outcomes

    A fallible Rust call returns [Ok] or [Err]; a failed [assert!], [expect]
    or [panic!] is the third outcome [Panic]. *)
Inductive outcome (A : Type) : Type :=
  | Ok (a : A)
  | Err (e : Error)
  | Panic (msg : string).
Arguments Ok {A} _.
Arguments Err {A} _.
Arguments Panic {A} _.

Definition errdata {A} (msg : string) : outcome A := Err (InvalidData msg).
Definition errinput {A} (msg : string) : outcome A := Err (InvalidInput msg).

Definition outcome_bind {A B} (m : outcome A) (k : A -> outcome B) : outcome B :=
  match m with
  | Ok a => k a
  | Err e => Err e
  | Panic s => Panic s
  end.

Definition outcome_map {A B} (f : A -> B) (m : outcome A) : outcome B :=
  outcome_bind m (fun a => Ok (f a)).

(** [try_collect]: the first failure of a sequence of outcomes, or all the
    values. *)
Fixpoint try_collect {A} (l : list (outcome A)) : outcome (list A) :=
  match l with
  | [] => Ok []
  | x :: xs => outcome_bind x (fun a => outcome_bind (try_collect xs) (fun r => Ok (a :: r)))
  end.

(** ** State passing

    A method with [&mut self] is a function of the state before it to its
    outcome and the state after it.  A failing call keeps the writes it has
    already made, as the Rust code does. *)
Definition stM (S A : Type) : Type := S -> outcome A * S.

Definition st_ret {S A} (a : A) : stM S A := fun s => (Ok a, s).
Definition st_bind {S A B} (m : stM S A) (k : A -> stM S B) : stM S B :=
  fun s => match m s with
           | (Ok a, s') => k a s'
           | (Err e, s') => (Err e, s')
           | (Panic p, s') => (Panic p, s')
           end.
Definition st_err {S A} (e : Error) : stM S A := fun s => (Err e, s).
Definition st_panic {S A} (msg : string) : stM S A := fun s => (Panic msg, s).
(** A step that only reads the state. *)
Definition st_read {S A} (f : S -> outcome A) : stM S A := fun s => (f s, s).
Definition st_lift {S A} (o : outcome A) : stM S A := fun s => (o, s).
Definition st_modify {S} (f : S -> S) : stM S unit := fun s => (Ok tt, f s).
(** [assert!(b, msg)] *)
Definition st_assert {S} (b : bool) (msg : string) : stM S unit :=
  fun s => if b then (Ok tt, s) else (Panic msg, s).
(** [for x in l { f(x)? }] and [l.map(f).try_collect()] *)
Section Loops.
Context {S A B : Type} (f : A -> stM S unit) (g : A -> stM S B).
Fixpoint st_iter (l : list A) : stM S unit :=
  match l with
  | [] => st_ret tt
  | x :: xs => st_bind (f x) (fun _ => st_iter xs)
  end.
Fixpoint st_map (l : list A) : stM S (list B) :=
  match l with
  | [] => st_ret []
  | x :: xs => st_bind (g x) (fun b => st_bind (st_map xs) (fun bs => st_ret (b :: bs)))
  end.
End Loops.

(** Lexicographic composition of comparisons. *)
Definition then_cmp (c d : comparison) : comparison :=
  match c with Eq => d | Lt => Lt | Gt => Gt end.

(** [std::ops::Bound] *)
Inductive Bound (A : Type) : Type :=
  | Included (a : A)
  | Excluded (a : A)
  | Unbounded.
Arguments Included {A} _.
Arguments Excluded {A} _.
Arguments Unbounded {A}.

Declare Scope toydb_scope.
Delimit Scope toydb_scope with toydb.
Notation "'let?' x := m 'in' k" := (outcome_bind m (fun x => k))
  (at level 10, x binder, m at level 100, k at level 200) : toydb_scope.
Notation "'let!' x := m 'in' k" := (st_bind m (fun x => k))
  (at level 10, x binder, m at level 100, k at level 200) : toydb_scope.
Notation "m ;;; k" := (st_bind m (fun _ => k))
  (at level 199, right associativity) : toydb_scope.
Open Scope toydb_scope.

(** ** Bytes and machine integers *)
Abbreviation byte := Byte.byte.
Abbreviation bytes := (list Byte.byte).

Definition u8_max : Z := 255.
Definition u64_max : Z := 18446744073709551615.
Definition i64_min : Z := -9223372036854775808.
Definition i64_max : Z := 9223372036854775807.

Definition wrap_u (w z : Z) : Z := z mod 2 ^ w.
Definition wrap_s (w z : Z) : Z := (z + 2 ^ (w - 1)) mod 2 ^ w - 2 ^ (w - 1).
Definition u64 (z : Z) : Z := wrap_u 64 z.
Definition u32 (z : Z) : Z := wrap_u 32 z.
Definition i32 (z : Z) : Z := wrap_s 32 z.
Definition i64 (z : Z) : Z := wrap_s 64 z.

Definition is_u64 (z : Z) : Prop := 0 <= z <= u64_max.
Definition is_i64 (z : Z) : Prop := i64_min <= z <= i64_max.

(** [a + b] on [u64] in a release build: wraps around. *)
Definition u64_add (a b : Z) : Z := u64 (a + b).

(** ** Automation *)
Create HintDb toydb.

Tactic Notation "simp_st" :=
  unfold st_bind, st_ret, st_err, st_panic, st_read, st_lift, st_modify, st_assert in *; cbn in *.

(** Destruct every [match] scrutinee of the goal or a hypothesis once. *)
Ltac case_goal :=
  match goal with
  | |- context [match ?x with _ => _ end] => destruct x eqn:?
  end.
Ltac case_hyp H :=
  match type of H with
  | context [match ?x with _ => _ end] => destruct x eqn:?
  end.

Ltac zify_bools :=
  repeat match goal with
  | H : (_ && _)%bool = true |- _ => apply andb_true_iff in H; destruct H
  | H : (_ <? _) = true |- _ => apply Z.ltb_lt in H
  | H : (_ <? _) = false |- _ => apply Z.ltb_ge in H
  | H : (_ <=? _) = true |- _ => apply Z.leb_le in H
  | H : (_ <=? _) = false |- _ => apply Z.leb_gt in H
  | H : (_ =? _) = true |- _ => apply Z.eqb_eq in H
  | H : (_ =? _) = false |- _ => apply Z.eqb_neq in H
  end.

(** ** Generic lemmas *)
Lemma outcome_bind_ok {A B} (m : outcome A) (k : A -> outcome B) b :
  outcome_bind m k = Ok b <-> exists a, m = Ok a /\ k a = Ok b.
Proof.
  destruct m as [a|e|p]; cbn; split.
  - eauto.
  - intros (a' & [= ->] & H). exact H.
  - discriminate.
  - intros (a' & [=] & _).
  - discriminate.
  - intros (a' & [=] & _).
Qed.

Lemma st_bind_ok {S A B} (m : stM S A) (k : A -> stM S B) s b s' :
  st_bind m k s = (Ok b, s') <-> exists a s1, m s = (Ok a, s1) /\ k a s1 = (Ok b, s').
Proof.
  unfold st_bind. destruct (m s) as [[a|e|p] s1]; split.
  - eauto.
  - intros (a' & s2 & [= -> ->] & H). exact H.
  - discriminate.
  - intros (a' & s2 & [=] & _).
  - discriminate.
  - intros (a' & s2 & [=] & _).
Qed.

Lemma st_iter_app {S A} (f : A -> stM S unit) l1 l2 s :
  st_iter f (l1 ++ l2) s = st_bind (st_iter f l1) (fun _ => st_iter f l2) s.
Proof.
  revert s; induction l1 as [|x l1 IH]; intros s; cbn; [reflexivity|].
  unfold st_bind in *. destruct (f x s) as [[]]; cbn; try reflexivity. apply IH.
Qed.

Lemma try_collect_map_ok {A} (l : list A) : try_collect (map Ok l) = Ok l.
Proof. induction l as [|x l IH]; cbn; [reflexivity|]. now rewrite IH. Qed.

Lemma try_collect_ok_inv {A} (l : list (outcome A)) r :
  try_collect l = Ok r -> l = map Ok r.
Proof.
  revert r; induction l as [|x l IH]; intros r; cbn; [intros [= <-]; reflexivity|].
  destruct x; cbn; try discriminate.
  destruct (try_collect l); cbn; try discriminate.
  intros [= <-]. cbn. f_equal. now apply IH.
Qed.

Lemma if_bool_decide_ext (P Q : Prop) `{Decision P, Decision Q} {A} (x y : A) :
  (P <-> Q) -> (if bool_decide P then x else y) = (if bool_decide Q then x else y).
Proof. intros HPQ. now rewrite (bool_decide_ext P Q HPQ). Qed.

Lemma u64_small z : is_u64 z -> u64 z = z.
Proof. unfold is_u64, u64, wrap_u, u64_max. intros. apply Z.mod_small. lia. Qed.

Lemma u64_range z : is_u64 (u64 z).
Proof.
  unfold is_u64, u64, wrap_u, u64_max.
  pose proof (Z.mod_pos_bound z (2 ^ 64) ltac:(lia)). lia.
Qed.

Lemma u64_add_small a b : is_u64 (a + b) -> u64_add a b = a + b.
Proof. apply u64_small. Qed.

#[export] Hint Resolve u64_range : toydb.

Lemma StronglySorted_app_inv {A} (R : A -> A -> Prop) l1 l2 :
  StronglySorted R (l1 ++ l2) ->
  StronglySorted R l1 /\ StronglySorted R l2 /\ (forall x y, In x l1 -> In y l2 -> R x y).
Proof.
  induction l1 as [|a l1 IH]; cbn; intros H; [repeat split; auto using SSorted_nil; tauto|].
  inv H. apply IH in H2 as (H1 & H2 & H4). rewrite Forall_app in H3. destruct H3 as [F1 F2].
  repeat split; auto; [now constructor|].
  intros x y [<-|Hx] Hy; [|now apply H4]. rewrite List.Forall_forall in F2. now apply F2.
Qed.

(** A strictly sorted list is determined by its elements. *)
Lemma StronglySorted_ext {A} (R : A -> A -> Prop) l1 l2 :
  (forall x, ~ R x x) -> (forall x y z, R x y -> R y z -> R x z) ->
  StronglySorted R l1 -> StronglySorted R l2 -> (forall x, In x l1 <-> In x l2) -> l1 = l2.
Proof.
  intros Hirr Htr. revert l2; induction l1 as [|a l1 IH]; intros [|b l2] H1 H2 Hin.
  - reflexivity.
  - destruct (proj2 (Hin b) (or_introl eq_refl)).
  - destruct (proj1 (Hin a) (or_introl eq_refl)).
  - apply StronglySorted_inv in H1 as [S1 F1], H2 as [S2 F2]. rewrite List.Forall_forall in F1, F2.
    assert (a = b) as ->.
    { destruct (proj1 (Hin a) (or_introl eq_refl)) as [E|Ha]; [congruence|].
      destruct (proj2 (Hin b) (or_introl eq_refl)) as [E|Hb]; [congruence|].
      destruct (Hirr a). eauto. }
    f_equal. apply IH; [exact S1|exact S2|]. intros x. split; intros Hx.
    + destruct (proj1 (Hin x) (or_intror Hx)) as [<-|]; [|assumption]. destruct (Hirr b). auto.
    + destruct (proj2 (Hin x) (or_intror Hx)) as [<-|]; [|assumption]. destruct (Hirr b). auto.
Qed.

Lemma forallb_Forall {A} (f : A -> bool) l : forallb f l = true <-> Forall (fun x => f x = true) l.
Proof. rewrite forallb_forall, List.Forall_forall. reflexivity. Qed.

(** ** Outcomes without panics *)

(** The outcome is not a panic, and its value satisfies [P]. *)
Definition safe {A} (o : outcome A) (P : A -> Prop) : Prop :=
  match o with Ok a => P a | Err e => is_deterministic e = true | Panic _ => False end.

Lemma safe_bind {A B} (o : outcome A) (k : A -> outcome B) P Q :
  safe o P -> (forall a, P a -> safe (k a) Q) -> safe (outcome_bind o k) Q.
Proof. destruct o; cbn; auto. Qed.
Lemma safe_mono {A} (o : outcome A) (P Q : A -> Prop) : safe o P -> (forall a, P a -> Q a) -> safe o Q.
Proof. destruct o; cbn; auto. Qed.
Lemma safe_and {A} (o : outcome A) (P Q : A -> Prop) : safe o P -> safe o Q -> safe o (fun a => P a /\ Q a).
Proof. destruct o; cbn; auto. Qed.
Lemma safe_map {A B} (o : outcome A) (f : A -> B) (P : A -> Prop) (Q : B -> Prop) :
  safe o P -> (forall a, P a -> Q (f a)) -> safe (outcome_map f o) Q.
Proof. destruct o; cbn; auto. Qed.

(** ** Computations that respect a relation

    [respects Rel m]: whatever its outcome, [m] takes a state to a related one.
    For a preorder this is closed under sequencing and loops. *)
Definition respects {S A} (Rel : S -> S -> Prop) (m : stM S A) : Prop := forall s, Rel s (m s).2.

Section Respects.
Context {S : Type} (Rel : S -> S -> Prop) `{!PreOrder Rel}.

Lemma respects_same {A} (m : stM S A) : (forall s, (m s).2 = s) -> respects Rel m.
Proof. intros F s. now rewrite F. Qed.
Lemma respects_ret {A} (a : A) : respects Rel (st_ret a).
Proof. now apply respects_same. Qed.
Lemma respects_err {A} e : respects Rel (st_err (A := A) e).
Proof. now apply respects_same. Qed.
Lemma respects_panic {A} p : respects Rel (st_panic (A := A) p).
Proof. now apply respects_same. Qed.
Lemma respects_read {A} (f : S -> outcome A) : respects Rel (st_read f).
Proof. now apply respects_same. Qed.
Lemma respects_lift {A} (o : outcome A) : respects Rel (st_lift o).
Proof. now apply respects_same. Qed.
Lemma respects_assert b p : respects Rel (st_assert b p).
Proof. apply respects_same. intros s. unfold st_assert. now destruct b. Qed.
Lemma respects_bind {A B} (m : stM S A) (k : A -> stM S B) :
  respects Rel m -> (forall a, respects Rel (k a)) -> respects Rel (st_bind m k).
Proof.
  intros Hm Hk s. unfold st_bind. specialize (Hm s). destruct (m s) as [[a|e|p] s1]; cbn in *; [|assumption..].
  etransitivity; [exact Hm|apply Hk].
Qed.
Lemma respects_iter {A} (f : A -> stM S unit) l : (forall x, respects Rel (f x)) -> respects Rel (st_iter f l).
Proof. intros Hf. induction l as [|x l IH]; cbn [st_iter]; [apply respects_ret|now apply respects_bind]. Qed.
Lemma respects_if {A} (b : bool) (m k : stM S A) :
  respects Rel m -> respects Rel k -> respects Rel (if b then m else k).
Proof. now destruct b. Qed.
End Respects.

Create HintDb respects.
#[export] Hint Resolve respects_ret respects_err respects_panic respects_read respects_lift respects_assert
  respects_bind respects_iter respects_if : respects.

(** A computation that first looks at the state. *)
Ltac respects_at s :=
  intros s; cbv beta;
  match goal with |- ?Rel s (snd (?m s)) => cut (respects Rel m); [let F := fresh in intros F; exact (F s)|] end.

(** Move from a run to the computation. *)
Ltac by_respects :=
  match goal with |- ?Rel ?n (snd (?f ?n)) => let Hf := fresh in assert (respects Rel f) as Hf; [|exact (Hf n)] end.

Ltac solve_respects :=
  repeat match goal with
  | |- respects _ (st_bind _ _) => apply respects_bind; [typeclasses eauto| |intros ?]
  | |- respects _ (st_iter _ _) => apply respects_iter; [typeclasses eauto|intros ?]
  | |- respects _ (if _ then _ else _) => apply respects_if
  | |- respects _ (match ?x with _ => _ end) => destruct x
  | |- respects _ _ => solve [auto with respects typeclass_instances]
  end.
