(* ===== verification/Bytes.v ===== *)
(** * Bytes, big-endian integers and the lexicographic key order

    The order [lex_lt] is the one [Vec<u8>] has in Rust and the one the Verus
    specification of [src/encoding/keycode.rs] states; [to_be_bytes] and
    [from_be_bytes] are the standard library's integer conversions. *)
From S2P Require Import Prelude.

(** ** Definitions *)
Definition byte_to_Z (b : byte) : Z := Z.of_N (Byte.to_N b).
Definition byte_of_Z (z : Z) : byte :=
  match Byte.of_N (Z.to_N (z mod 256)) with Some b => b | None => x00 end.

Fixpoint to_be_bytes (n : nat) (z : Z) : bytes :=
  match n with
  | O => []
  | S n' => byte_of_Z (Z.shiftr z (8 * Z.of_nat n')) :: to_be_bytes n' z
  end.

Fixpoint from_be_bytes_acc (acc : Z) (l : bytes) : Z :=
  match l with
  | [] => acc
  | b :: l' => from_be_bytes_acc (acc * 256 + byte_to_Z b) l'
  end.
Definition from_be_bytes (l : bytes) : Z := from_be_bytes_acc 0 l.

#[export] Instance byte_eq_dec : EqDecision byte := Byte.byte_eq_dec.
#[export] Instance byte_countable : Countable byte.
Proof. refine (inj_countable Byte.to_N Byte.of_N Byte.of_to_N). Defined.

Definition byte_lt (a b : byte) : bool := byte_to_Z a <? byte_to_Z b.

Fixpoint lex_lt (a b : bytes) : bool :=
  match a, b with
  | [], [] => false
  | [], _ :: _ => true
  | _ :: _, [] => false
  | x :: a', y :: b' =>
      if bool_decide (x = y) then lex_lt a' b' else byte_lt x y
  end.

Fixpoint lex_cmp (a b : bytes) : comparison :=
  match a, b with
  | [], [] => Eq
  | [], _ :: _ => Lt
  | _ :: _, [] => Gt
  | x :: a', y :: b' => then_cmp (byte_to_Z x ?= byte_to_Z y) (lex_cmp a' b')
  end.

Definition lex_le (a b : bytes) : bool := bool_decide (a = b) || lex_lt a b.

Fixpoint is_prefix (p k : bytes) : bool :=
  match p, k with
  | [], _ => true
  | _ :: _, [] => false
  | x :: p', y :: k' => bool_decide (x = y) && is_prefix p' k'
  end.

(** Key ranges, as passed to [Engine::scan]. *)
Definition key_range : Type := Bound bytes * Bound bytes.

Definition above_start (b : Bound bytes) (k : bytes) : bool :=
  match b with
  | Included a => lex_le a k
  | Excluded a => lex_lt a k
  | Unbounded => true
  end.
Definition below_end (b : Bound bytes) (k : bytes) : bool :=
  match b with
  | Included a => lex_le k a
  | Excluded a => lex_lt k a
  | Unbounded => true
  end.
Definition in_range (r : key_range) (k : bytes) : bool :=
  above_start r.1 k && below_end r.2 k.

(** [BTreeMap::range] panics if the start is after the end, or if both bounds
    exclude the same key. *)
Definition range_ok (r : key_range) : bool :=
  match r with
  | (Excluded a, Excluded b) => lex_lt a b
  | (Included a, Included b) | (Included a, Excluded b) | (Excluded a, Included b) => lex_le a b
  | (Unbounded, _) | (_, Unbounded) => true
  end.

(** ** Bytes as integers *)
Lemma byte_to_Z_range b : 0 <= byte_to_Z b < 256.
Proof.
  unfold byte_to_Z. pose proof (Byte.to_N_bounded b). lia.
Qed.

Lemma byte_to_Z_inj a b : byte_to_Z a = byte_to_Z b -> a = b.
Proof.
  unfold byte_to_Z. intros H%N2Z.inj.
  pose proof (Byte.of_to_N a). pose proof (Byte.of_to_N b). congruence.
Qed.

Lemma byte_to_of_Z z : byte_to_Z (byte_of_Z z) = z mod 256.
Proof.
  unfold byte_of_Z, byte_to_Z. pose proof (Z.mod_pos_bound z 256 ltac:(lia)).
  destruct (Byte.of_N (Z.to_N (z mod 256))) eqn:E.
  - apply Byte.to_of_N in E. rewrite E. lia.
  - apply Byte.of_N_None_iff in E. lia.
Qed.

Lemma byte_of_to_Z b : byte_of_Z (byte_to_Z b) = b.
Proof.
  apply byte_to_Z_inj. rewrite byte_to_of_Z.
  apply Z.mod_small, byte_to_Z_range.
Qed.

Lemma byte_of_Z_eq a b : a mod 256 = b mod 256 -> byte_of_Z a = byte_of_Z b.
Proof. unfold byte_of_Z. now intros ->. Qed.

(** ** Big-endian conversions *)
Lemma length_to_be_bytes n z : length (to_be_bytes n z) = n.
Proof. induction n; cbn; congruence. Qed.

Lemma from_be_bytes_acc_eq acc l :
  from_be_bytes_acc acc l = acc * 256 ^ Z.of_nat (length l) + from_be_bytes l.
Proof.
  unfold from_be_bytes. revert acc.
  induction l as [|b l IH]; intros acc; cbn -[Z.of_nat Z.mul Z.pow Z.add]; [cbn; lia|].
  rewrite (IH (acc * 256 + byte_to_Z b)), (IH (0 * 256 + byte_to_Z b)).
  rewrite Nat2Z.inj_succ, Z.pow_succ_r by lia. lia.
Qed.

Lemma from_be_bytes_cons b l :
  from_be_bytes (b :: l) = byte_to_Z b * 256 ^ Z.of_nat (length l) + from_be_bytes l.
Proof. unfold from_be_bytes at 1. cbn. now rewrite from_be_bytes_acc_eq. Qed.

Lemma from_be_bytes_range l : 0 <= from_be_bytes l < 256 ^ Z.of_nat (length l).
Proof.
  induction l as [|b l IH]; [cbn; lia|].
  rewrite from_be_bytes_cons. cbn [length]. rewrite Nat2Z.inj_succ, Z.pow_succ_r by lia.
  pose proof (byte_to_Z_range b). nia.
Qed.

Lemma pow256 n : 256 ^ Z.of_nat n = 2 ^ (8 * Z.of_nat n).
Proof. rewrite Z.pow_mul_r by lia. reflexivity. Qed.

Lemma from_to_be_bytes n z : from_be_bytes (to_be_bytes n z) = z mod 256 ^ Z.of_nat n.
Proof.
  induction n as [|n IH]; cbn [to_be_bytes]; [cbn; now rewrite Z.mod_1_r|].
  rewrite from_be_bytes_cons, length_to_be_bytes, IH, byte_to_of_Z.
  rewrite Z.shiftr_div_pow2 by lia. rewrite <- pow256.
  rewrite Nat2Z.inj_succ, Z.pow_succ_r, (Z.mul_comm 256) by lia.
  rewrite Z.rem_mul_r by lia. lia.
Qed.

Lemma to_from_be_bytes l : to_be_bytes (length l) (from_be_bytes l) = l.
Proof.
  assert (forall n a b, a mod 256 ^ Z.of_nat n = b mod 256 ^ Z.of_nat n ->
            to_be_bytes n a = to_be_bytes n b) as Hmod.
  { induction n as [|n IH]; cbn [to_be_bytes]; [reflexivity|]. intros a b H.
    rewrite Nat2Z.inj_succ, Z.pow_succ_r, Z.mul_comm in H by lia.
    rewrite 2!Z.rem_mul_r in H by lia.
    pose proof (Z.mod_pos_bound a (256 ^ Z.of_nat n) ltac:(lia)).
    pose proof (Z.mod_pos_bound b (256 ^ Z.of_nat n) ltac:(lia)).
    assert ((a / 256 ^ Z.of_nat n) mod 256 = (b / 256 ^ Z.of_nat n) mod 256 /\
            a mod 256 ^ Z.of_nat n = b mod 256 ^ Z.of_nat n) as [H2 H3].
    { apply (Z.div_mod_unique (256 ^ Z.of_nat n)); [now left|now left|lia]. }
    f_equal; [|now apply IH]. apply byte_of_Z_eq.
    now rewrite !Z.shiftr_div_pow2, <- pow256 by lia. }
  induction l as [|b l IH]; [reflexivity|]. cbn [to_be_bytes length].
  rewrite from_be_bytes_cons. f_equal.
  - rewrite <- (byte_of_to_Z b) at 2. apply byte_of_Z_eq.
    rewrite Z.shiftr_div_pow2, <- pow256 by lia.
    rewrite Z.div_add_l by lia. pose proof (from_be_bytes_range l).
    rewrite (Z.div_small (from_be_bytes l)) by lia. now rewrite Z.add_0_r.
  - transitivity (to_be_bytes (length l) (from_be_bytes l)); [|exact IH]. apply Hmod. rewrite Z.add_comm, Z.mod_add by lia. reflexivity.
Qed.

(** ** The lexicographic order *)
Lemma byte_lt_spec a b : byte_lt a b = true <-> byte_to_Z a < byte_to_Z b.
Proof. apply Z.ltb_lt. Qed.

Lemma byte_lt_irrefl a : byte_lt a a = false.
Proof. apply Z.ltb_irrefl. Qed.

Ltac lex_cases :=
  repeat match goal with
  | H : context [bool_decide (?x = ?y)] |- _ => destruct (bool_decide_reflect (x = y)); subst
  | |- context [bool_decide (?x = ?y)] => destruct (bool_decide_reflect (x = y)); subst
  end.

Lemma lex_lt_irrefl a : lex_lt a a = false.
Proof. induction a as [|x a IH]; cbn; [reflexivity|]. now rewrite bool_decide_true. Qed.

Lemma lex_lt_trans a b c : lex_lt a b = true -> lex_lt b c = true -> lex_lt a c = true.
Proof.
  revert b c; induction a as [|x a IH]; intros [|y b] [|z c]; cbn; try discriminate; auto.
  lex_cases; eauto; try congruence; rewrite ?byte_lt_spec in *; intros; try lia.
Qed.

Lemma lex_lt_total a b : lex_lt a b = false -> lex_lt b a = false -> a = b.
Proof.
  revert b; induction a as [|x a IH]; intros [|y b]; cbn; try discriminate; auto.
  lex_cases; try congruence; [intros; f_equal; auto|].
  unfold byte_lt. intros H1%Z.ltb_ge H2%Z.ltb_ge. exfalso. apply n, byte_to_Z_inj. lia.
Qed.

Lemma lex_lt_asym a b : lex_lt a b = true -> lex_lt b a = false.
Proof.
  intros H. destruct (lex_lt b a) eqn:E; [|reflexivity].
  pose proof (lex_lt_trans _ _ _ H E) as F. now rewrite lex_lt_irrefl in F.
Qed.

Lemma lex_lt_not_eq a b : lex_lt a b = true -> a <> b.
Proof. intros H ->. now rewrite lex_lt_irrefl in H. Qed.

Lemma lex_trichotomy a b : lex_lt a b = true \/ a = b \/ lex_lt b a = true.
Proof.
  destruct (lex_lt a b) eqn:E1; [tauto|]. destruct (lex_lt b a) eqn:E2; [tauto|].
  right; left; now apply lex_lt_total.
Qed.

Lemma lex_le_spec a b : lex_le a b = true <-> a = b \/ lex_lt a b = true.
Proof. unfold lex_le. rewrite orb_true_iff, bool_decide_eq_true. tauto. Qed.

Lemma lex_le_refl a : lex_le a a = true.
Proof. apply lex_le_spec. now left. Qed.

Lemma lex_le_not_lt a b : lex_le a b = negb (lex_lt b a).
Proof.
  destruct (lex_le a b) eqn:E.
  - apply lex_le_spec in E as [->|E]; [now rewrite lex_lt_irrefl|]. now rewrite lex_lt_asym.
  - destruct (lex_trichotomy a b) as [H|[->|H]]; [| |now rewrite H].
    + rewrite (proj2 (lex_le_spec a b)) in E; [discriminate|tauto].
    + now rewrite lex_le_refl in E.
Qed.

Lemma lex_le_trans a b c : lex_le a b = true -> lex_le b c = true -> lex_le a c = true.
Proof.
  rewrite !lex_le_spec. intros [->|H1] [->|H2]; auto. right; eauto using lex_lt_trans.
Qed.

Lemma lex_le_lt_trans a b c : lex_le a b = true -> lex_lt b c = true -> lex_lt a c = true.
Proof. rewrite lex_le_spec. intros [->|H1] H2; eauto using lex_lt_trans. Qed.

Lemma lex_lt_le_trans a b c : lex_lt a b = true -> lex_le b c = true -> lex_lt a c = true.
Proof. rewrite lex_le_spec. intros H1 [->|H2]; eauto using lex_lt_trans. Qed.

Lemma lex_lt_cons b s t : lex_lt (b :: s) (b :: t) = lex_lt s t.
Proof. cbn. now rewrite bool_decide_true. Qed.

Lemma lex_lt_app_same p s t : lex_lt (p ++ s) (p ++ t) = lex_lt s t.
Proof. induction p as [|x p IH]; cbn; [reflexivity|]. now rewrite bool_decide_true. Qed.

(** Two strings of equal length are compared before their continuations. *)
Lemma lex_lt_app_len a b s t :
  length a = length b -> a <> b -> lex_lt (a ++ s) (b ++ t) = lex_lt a b.
Proof.
  revert b; induction a as [|x a IH]; intros [|y b]; cbn; try discriminate; [congruence|].
  intros [= H] Hne. lex_cases; [|reflexivity]. apply IH; [assumption|congruence].
Qed.

Lemma is_prefix_spec p k : is_prefix p k = true <-> exists s, k = p ++ s.
Proof.
  revert k; induction p as [|x p IH]; intros k; cbn; [split; eauto|].
  destruct k as [|y k]; [split; [discriminate|intros [s [=]]]|].
  rewrite andb_true_iff, bool_decide_eq_true, IH. split.
  - intros [-> [s ->]]. now exists s.
  - intros [s [= -> ->]]. eauto.
Qed.

Lemma lex_cmp_refl a : lex_cmp a a = Eq.
Proof. induction a as [|x a IH]; cbn; [reflexivity|]. now rewrite Z.compare_refl. Qed.

Lemma lex_cmp_eq a b : lex_cmp a b = Eq <-> a = b.
Proof.
  split; [|intros ->; apply lex_cmp_refl].
  revert b; induction a as [|x a IH]; intros [|y b]; cbn; try discriminate; auto.
  destruct (Z.compare_spec (byte_to_Z x) (byte_to_Z y)) as [E|E|E]; cbn; try discriminate.
  intros H. f_equal; [now apply byte_to_Z_inj|auto].
Qed.

Lemma lex_lt_cmp a b : lex_lt a b = true <-> lex_cmp a b = Lt.
Proof.
  revert b; induction a as [|x a IH]; intros [|y b]; cbn; try (split; congruence).
  lex_cases.
  - rewrite Z.compare_refl. cbn. apply IH.
  - rewrite byte_lt_spec.
    destruct (Z.compare_spec (byte_to_Z x) (byte_to_Z y)) as [E|E|E]; cbn.
    + now apply byte_to_Z_inj in E.
    + tauto.
    + split; [lia|discriminate].
Qed.

Lemma lex_cmp_antisym a b : lex_cmp b a = CompOpp (lex_cmp a b).
Proof.
  revert b; induction a as [|x a IH]; intros [|y b]; cbn; auto.
  rewrite (Z.compare_antisym (byte_to_Z x)), (IH b).
  destruct (byte_to_Z x ?= byte_to_Z y); reflexivity.
Qed.

Lemma lex_cmp_app_same p s t : lex_cmp (p ++ s) (p ++ t) = lex_cmp s t.
Proof. induction p as [|x p IH]; cbn; [reflexivity|]. now rewrite Z.compare_refl. Qed.

Lemma lex_le_cmp a b : lex_le a b = true <-> lex_cmp a b <> Gt.
Proof.
  rewrite lex_le_spec, lex_lt_cmp, <- lex_cmp_eq.
  destruct (lex_cmp a b); split; intuition congruence.
Qed.

(** Fixed-width big-endian integers are ordered like the numbers. *)
Lemma lex_lt_be_bytes n a b :
  0 <= a < 256 ^ Z.of_nat n -> 0 <= b < 256 ^ Z.of_nat n ->
  lex_lt (to_be_bytes n a) (to_be_bytes n b) = (a <? b).
Proof.
  assert (forall l1 l2, length l1 = length l2 ->
            lex_lt l1 l2 = (from_be_bytes l1 <? from_be_bytes l2)) as H.
  { induction l1 as [|x l1 IH]; intros [|y l2]; try discriminate; [reflexivity|].
    intros [= Hl]. cbn [lex_lt]. rewrite !from_be_bytes_cons.
    pose proof (from_be_bytes_range l1) as B1. pose proof (from_be_bytes_range l2) as B2.
    rewrite Hl in B1 |- *. lex_cases.
    - rewrite IH by assumption. apply eq_iff_eq_true. rewrite !Z.ltb_lt. lia.
    - apply eq_iff_eq_true. rewrite byte_lt_spec, Z.ltb_lt.
      assert (byte_to_Z x <> byte_to_Z y) by (intros ?%byte_to_Z_inj; auto). nia. }
  intros Ha Hb. rewrite H by now rewrite !length_to_be_bytes.
  now rewrite !from_to_be_bytes, !Z.mod_small.
Qed.

Lemma lex_cmp_be_bytes n a b s t :
  0 <= a < 256 ^ Z.of_nat n -> 0 <= b < 256 ^ Z.of_nat n ->
  lex_cmp (to_be_bytes n a ++ s) (to_be_bytes n b ++ t) = then_cmp (a ?= b) (lex_cmp s t).
Proof.
  assert (forall l1 l2, length l1 = length l2 ->
            lex_cmp (l1 ++ s) (l2 ++ t) =
            then_cmp (from_be_bytes l1 ?= from_be_bytes l2) (lex_cmp s t)) as H.
  { induction l1 as [|x l1 IH]; intros [|y l2]; try discriminate; [reflexivity|].
    intros [= Hl]. cbn [lex_cmp app]. rewrite !from_be_bytes_cons, IH by assumption.
    pose proof (from_be_bytes_range l1) as B1. pose proof (from_be_bytes_range l2) as B2.
    rewrite Hl in B1 |- *. set (p := 256 ^ _) in *.
    destruct (Z.compare_spec (byte_to_Z x) (byte_to_Z y)) as [->|E|E]; cbn.
    - f_equal. symmetry. apply Z.add_compare_mono_l.
    - rewrite (proj2 (Z.compare_lt_iff _ _)); [reflexivity|nia].
    - rewrite (proj2 (Z.compare_gt_iff _ _)); [reflexivity|nia]. }
  intros Ha Hb. rewrite H by now rewrite !length_to_be_bytes.
  now rewrite !from_to_be_bytes, !Z.mod_small.
Qed.

Lemma to_be_bytes_inj n a b :
  0 <= a < 256 ^ Z.of_nat n -> 0 <= b < 256 ^ Z.of_nat n ->
  to_be_bytes n a = to_be_bytes n b -> a = b.
Proof.
  intros Ha Hb H%(f_equal from_be_bytes). rewrite !from_to_be_bytes, !Z.mod_small in H; auto.
Qed.

#[export] Hint Resolve lex_le_refl lex_lt_trans lex_le_trans lex_le_lt_trans lex_lt_le_trans
  byte_to_Z_range : toydb.
