(* ===== verification/Keycode.v ===== *)
(** * The Keycode order-preserving key encoding ([src/encoding/keycode.rs])

    The integer, float and byte-string transforms are translated one by one,
    both the executable functions and the specification functions the source
    states beside them.  The [Serializer] and [Deserializer] are modelled over
    a universe [keytype]/[keyval] of the data shapes they support: what a
    derived [Serialize] or [Deserialize] instance does is to walk such a shape
    and call the methods below.  The state of the serializer is its output, the
    state of the deserializer the remaining input. *)
From S2P Require Import Prelude Bytes.

(** ** i64 and f64 keys *)
Definition i64_key (v : Z) : Z := Z.lxor (u64 v) (Z.shiftl 1 63).
Definition encode_i64_key (v : Z) : Z := Z.lxor (u64 v) (Z.shiftl 1 63).
Definition decode_i64_key (k : Z) : Z := i64 (Z.lxor k (Z.shiftl 1 63)).

(** Bitwise complement of a [u64]. *)
Definition u64_not (z : Z) : Z := Z.lxor z u64_max.

(** An f64 is its IEEE-754 bit pattern, as [f64::to_bits] gives it. *)
Definition f64_key (bits : Z) : Z :=
  if Z.land bits (Z.shiftl 1 63) =? 0 then Z.lxor bits (Z.shiftl 1 63) else u64_not bits.
Definition f64_unkey (key : Z) : Z :=
  if negb (Z.land key (Z.shiftl 1 63) =? 0) then Z.lxor key (Z.shiftl 1 63) else u64_not key.
Definition encode_f64_key (bits : Z) : Z :=
  if Z.land bits (Z.shiftl 1 63) =? 0 then Z.lxor bits (Z.shiftl 1 63) else u64_not bits.
Definition decode_f64_key (key : Z) : Z :=
  if negb (Z.land key (Z.shiftl 1 63) =? 0) then Z.lxor key (Z.shiftl 1 63) else u64_not key.

(** [f64::total_cmp] of the standard library, on bit patterns. *)
Definition f64_total_key (bits : Z) : Z :=
  Z.lxor (i64 bits) (Z.shiftr (u64 (Z.shiftr (i64 bits) 63)) 1).
Definition f64_total_cmp (a b : Z) : comparison := f64_total_key a ?= f64_total_key b.

(** ** Byte strings *)
Fixpoint esc_all (v : bytes) : bytes :=
  match v with
  | [] => []
  | b :: v' => (if bool_decide (b = x00) then [x00; xff] else [b]) ++ esc_all v'
  end.

Definition bytes_enc (v : bytes) : bytes := esc_all v ++ [x00; x00].

Fixpoint bytes_dec (s : bytes) : bytes * bytes :=
  match s with
  | [] => ([], [])
  | b0 :: s1 =>
      match s1 with
      | [] => ([], [])
      | b1 :: s2 =>
          if bool_decide (b0 = x00) then
            if bool_decide (b1 = x00) then ([], s2)
            else if bool_decide (b1 = xff) then
              let rest := bytes_dec s2 in (x00 :: rest.1, rest.2)
            else ([], [])
          else let rest := bytes_dec s1 in (b0 :: rest.1, rest.2)
      end
  end.

Fixpoint encode_bytes_loop (v out : bytes) : bytes :=
  match v with
  | [] => out
  | b :: v' =>
      encode_bytes_loop v' (if bool_decide (b = x00) then (out ++ [x00]) ++ [xff] else out ++ [b])
  end.
Definition encode_bytes (v : bytes) : bytes := (encode_bytes_loop v [] ++ [x00]) ++ [x00].

Inductive DecodeBytes : Type :=
  | Decoded (decoded : bytes) (taken : nat)
  | InvalidEscape
  | UnexpectedEnd.

(** The loop of [decode_bytes]: [s] is the input from [pos] on. *)
Fixpoint decode_bytes_loop (s : bytes) (decoded : bytes) (pos : nat) : DecodeBytes :=
  match s with
  | [] => UnexpectedEnd
  | b0 :: s1 =>
      match s1 with
      | [] => if bool_decide (b0 = x00) then InvalidEscape else UnexpectedEnd
      | b1 :: s2 =>
          if bool_decide (b0 = x00) then
            if bool_decide (b1 = x00) then Decoded decoded (pos + 2)
            else if bool_decide (b1 = xff) then decode_bytes_loop s2 (decoded ++ [x00]) (pos + 2)
            else InvalidEscape
          else decode_bytes_loop s1 (decoded ++ [b0]) (pos + 1)
      end
  end.
Definition decode_bytes (s : bytes) : DecodeBytes := decode_bytes_loop s [] 0.

(** ** Prefix ranges *)
Fixpoint prefix_end_loop (prefix : bytes) (i : nat) : option bytes :=
  match i with
  | O => None
  | S i' =>
      match prefix !! i' with
      | Some b =>
          if bool_decide (b = xff) then prefix_end_loop prefix i'
          else Some (take i' prefix ++ [byte_of_Z (byte_to_Z b + 1)])
      | None => None
      end
  end.
Definition prefix_end (prefix : bytes) : option bytes :=
  prefix_end_loop prefix (length prefix).

Definition prefix_range (prefix : bytes) : key_range :=
  (Included prefix,
   match prefix_end prefix with Some e => Excluded e | None => Unbounded end).

(** ** UTF-8 validity, as [String::from_utf8] checks it *)
Definition utf8_cont (b : byte) : bool := (128 <=? byte_to_Z b) && (byte_to_Z b <=? 191).
Definition byte_in (lo hi : Z) (b : byte) : bool := (lo <=? byte_to_Z b) && (byte_to_Z b <=? hi).

Fixpoint utf8_valid (s : bytes) : bool :=
  match s with
  | [] => true
  | b0 :: s1 =>
      if byte_in 0 127 b0 then utf8_valid s1
      else match s1 with
      | [] => false
      | b1 :: s2 =>
          if byte_in 194 223 b0 then utf8_cont b1 && utf8_valid s2
          else match s2 with
          | [] => false
          | b2 :: s3 =>
              if byte_in 224 239 b0 then
                (if byte_in 224 224 b0 then byte_in 160 191 b1
                 else if byte_in 237 237 b0 then byte_in 128 159 b1
                 else utf8_cont b1) && utf8_cont b2 && utf8_valid s3
              else match s3 with
              | [] => false
              | b3 :: s4 =>
                  byte_in 240 244 b0 &&
                  (if byte_in 240 240 b0 then byte_in 144 191 b1
                   else if byte_in 244 244 b0 then byte_in 128 143 b1
                   else utf8_cont b1) && utf8_cont b2 && utf8_cont b3 && utf8_valid s4
              end
          end
      end
  end.

(** ** The shapes of key types and values

    [KEnum] lists the field types of each variant in declaration order; a unit
    variant has no fields, a newtype variant one. *)
Inductive keytype : Type :=
  | KBool
  | KI64
  | KU64
  | KF64
  | KStr
  | KBytes
  | KSeq (t : keytype)
  | KTuple (ts : list keytype)
  | KEnum (variants : list (list keytype)).

Inductive keyval : Type :=
  | VBool (b : bool)
  | VI64 (z : Z)
  | VU64 (z : Z)
  | VF64 (bits : Z)
  | VStr (s : bytes)
  | VBytes (s : bytes)
  | VSeq (vs : list keyval)
  | VTuple (vs : list keyval)
  | VEnum (index : nat) (vs : list keyval).

(** ** The serializer *)
Definition Serializer : Type := bytes.

Definition serialize_bool (v : bool) : stM Serializer unit :=
  st_modify (fun out => out ++ [if v then x01 else x00]).
Definition serialize_i64 (v : Z) : stM Serializer unit :=
  st_modify (fun out => out ++ to_be_bytes 8 (encode_i64_key v)).
Definition serialize_u64 (v : Z) : stM Serializer unit :=
  st_modify (fun out => out ++ to_be_bytes 8 v).
Definition serialize_f64 (bits : Z) : stM Serializer unit :=
  st_modify (fun out => out ++ to_be_bytes 8 (encode_f64_key bits)).
Definition serialize_bytes (v : bytes) : stM Serializer unit :=
  st_modify (fun out => out ++ encode_bytes v).
Definition serialize_str (v : bytes) : stM Serializer unit := serialize_bytes v.

(** [index.try_into()?] to a [u8]. *)
Definition serialize_unit_variant (index : nat) : stM Serializer unit :=
  if (Z.of_nat index <=? u8_max)
  then st_modify (fun out => out ++ [byte_of_Z (Z.of_nat index)])
  else st_err (InvalidData "out of range integral type conversion attempted").

(** The methods a shape's [Serialize] instance calls.  Newtype and tuple
    variants write the index and then their fields; tuples and sequences just
    concatenate their elements. *)
Fixpoint serialize_value (v : keyval) : stM Serializer unit :=
  match v with
  | VBool b => serialize_bool b
  | VI64 z => serialize_i64 z
  | VU64 z => serialize_u64 z
  | VF64 bits => serialize_f64 bits
  | VStr s => serialize_str s
  | VBytes s => serialize_bytes s
  | VSeq vs | VTuple vs => st_iter serialize_value vs
  | VEnum index vs => serialize_unit_variant index ;;; st_iter serialize_value vs
  end.

(** [keycode::serialize]: panics if the shape cannot be serialized. *)
Definition serialize (v : keyval) : outcome bytes :=
  match serialize_value v [] with
  | (Ok _, out) => Ok out
  | (Err _, _) => Panic "key must be serializable"
  | (Panic p, _) => Panic p
  end.

(** ** The deserializer *)
Definition Deserializer : Type := bytes.

Definition take_bytes (len : nat) : stM Deserializer bytes :=
  fun input =>
    if (length input <? len)%nat then (errdata "insufficient bytes", input)
    else (Ok (take len input), drop len input).

Definition decode_next_bytes : stM Deserializer bytes :=
  fun input =>
    match decode_bytes input with
    | Decoded decoded taken => (Ok decoded, drop taken input)
    | InvalidEscape => (errdata "invalid escape sequence", input)
    | UnexpectedEnd => (errdata "unexpected end of input", input)
    end.

Definition take_byte : stM Deserializer byte :=
  let! bs := take_bytes 1 in
  match bs with b :: _ => st_ret b | [] => st_panic "index out of bounds" end.

Definition deserialize_bool : stM Deserializer bool :=
  let! b := take_byte in
  if bool_decide (b = x00) then st_ret false
  else if bool_decide (b = x01) then st_ret true
  else st_err (InvalidData "invalid boolean value").
Definition deserialize_i64 : stM Deserializer Z :=
  let! bs := take_bytes 8 in st_ret (decode_i64_key (from_be_bytes bs)).
Definition deserialize_u64 : stM Deserializer Z :=
  let! bs := take_bytes 8 in st_ret (from_be_bytes bs).
Definition deserialize_f64 : stM Deserializer Z :=
  let! bs := take_bytes 8 in st_ret (decode_f64_key (from_be_bytes bs)).
Definition deserialize_bytes : stM Deserializer bytes := decode_next_bytes.
Definition deserialize_str : stM Deserializer bytes :=
  let! bs := decode_next_bytes in
  if utf8_valid bs then st_ret bs else st_err (InvalidData "invalid utf-8 sequence").

(** [SeqAccess::next_element_seed]: no element once the input is exhausted. *)
Definition next_element {A} (d : stM Deserializer A) : stM Deserializer (option A) :=
  fun input => match input with
               | [] => (Ok None, input)
               | _ => (let! a := d in st_ret (Some a)) input
               end.

(** A derived visitor takes exactly its fields from the sequence. *)
Definition next_field {A} (d : stM Deserializer A) : stM Deserializer A :=
  let! o := next_element d in
  match o with Some a => st_ret a | None => st_err (InvalidData "invalid length") end.

(** A [Vec] visitor takes elements until the sequence ends; [fuel] bounds the
    number of elements, and every element takes at least one byte. *)
Section Seq.
Context {A : Type} (d : stM Deserializer A).
Fixpoint visit_seq_all (fuel : nat) : stM Deserializer (list A) :=
  match fuel with
  | O => st_panic "fuel exhausted"
  | S fuel' =>
      let! o := next_element d in
      match o with
      | None => st_ret []
      | Some a => let! r := visit_seq_all fuel' in st_ret (a :: r)
      end
  end.
End Seq.

(** [EnumAccess::variant_seed] with the derived variant identifier, which
    rejects an index that is not a variant. *)
Definition variant_index (n : nat) : stM Deserializer nat :=
  let! b := take_byte in
  let index := Z.to_nat (byte_to_Z b) in
  if (index <? n)%nat then st_ret index
  else st_err (InvalidData "invalid value: integer, expected variant index").

Fixpoint deserialize_value (t : keytype) : stM Deserializer keyval :=
  match t with
  | KBool => let! b := deserialize_bool in st_ret (VBool b)
  | KI64 => let! z := deserialize_i64 in st_ret (VI64 z)
  | KU64 => let! z := deserialize_u64 in st_ret (VU64 z)
  | KF64 => let! z := deserialize_f64 in st_ret (VF64 z)
  | KStr => let! s := deserialize_str in st_ret (VStr s)
  | KBytes => let! s := deserialize_bytes in st_ret (VBytes s)
  | KSeq t' =>
      fun input =>
        (let! vs := visit_seq_all (deserialize_value t') (S (length input)) in
         st_ret (VSeq vs)) input
  | KTuple ts =>
      let! vs := st_map (fun t' => next_field (deserialize_value t')) ts in st_ret (VTuple vs)
  | KEnum variants =>
      let fields ts :=
        match ts with
        | [] => st_ret []
        | [t'] => let! v := deserialize_value t' in st_ret [v]
        | _ => st_map (fun t' => next_field (deserialize_value t')) ts
        end in
      let variant_fields := map fields variants in
      let! index := variant_index (length variants) in
      match nth_error variant_fields index with
      | Some d => let! vs := d in st_ret (VEnum index vs)
      | None => st_panic "unreachable variant"
      end
  end.

(** [keycode::deserialize] *)
Definition deserialize (t : keytype) (input : bytes) : outcome keyval :=
  match deserialize_value t input with
  | (Ok v, []) => Ok v
  | (Ok _, _ :: _) => errdata "unexpected trailing bytes at end of key"
  | (Err e, _) => Err e
  | (Panic p, _) => Panic p
  end.
