(* ===== verification/KeycodeTheory.v ===== *)
(** * Theorems on the Keycode encoding

    Round trip and order preservation of the whole serializer over the
    universe of key shapes, exactness of prefix ranges, and agreement of the
    executable loops with the specification functions. *)
From S2P Require Import Prelude Bytes Keycode.

(** ** Typing of values, the pure encoding and the value order *)
Section AllTwo.
Context {A B : Type} (f : A -> B -> bool).
Fixpoint all2 (l : list A) (m : list B) : bool :=
  match l, m with
  | [], [] => true
  | x :: l', y :: m' => f x y && all2 l' m'
  | _, _ => false
  end.
End AllTwo.

Definition in_u64 (z : Z) : bool := (0 <=? z) && (z <=? u64_max).
Definition in_i64 (z : Z) : bool := (i64_min <=? z) && (z <=? i64_max).

(** [v] is a value of the shape [t]. *)
Fixpoint well_typed (t : keytype) (v : keyval) : bool :=
  match t, v with
  | KBool, VBool _ => true
  | KI64, VI64 z => in_i64 z
  | KU64, VU64 z => in_u64 z
  | KF64, VF64 bits => in_u64 bits
  | KStr, VStr s => utf8_valid s
  | KBytes, VBytes _ => true
  | KSeq t', VSeq vs => forallb (well_typed t') vs
  | KTuple ts, VTuple vs => all2 well_typed ts vs
  | KEnum variants, VEnum index vs =>
      match nth_error (map (fun ts => all2 well_typed ts) variants) index with
      | Some f => f vs
      | None => false
      end
  | _, _ => false
  end.

(** Shapes whose encoding carries its own end: no sequences, no empty tuples,
    and at most 256 variants in an enum. *)
Fixpoint delimited (t : keytype) : bool :=
  match t with
  | KSeq _ => false
  | KTuple ts => match ts with [] => false | _ => forallb delimited ts end
  | KEnum variants => (length variants <=? 256)%nat && forallb (forallb delimited) variants
  | _ => true
  end.

Fixpoint enc (v : keyval) : bytes :=
  match v with
  | VBool b => [if b then x01 else x00]
  | VI64 z => to_be_bytes 8 (encode_i64_key z)
  | VU64 z => to_be_bytes 8 z
  | VF64 bits => to_be_bytes 8 (encode_f64_key bits)
  | VStr s | VBytes s => bytes_enc s
  | VSeq vs | VTuple vs => concat (map enc vs)
  | VEnum index vs => byte_of_Z (Z.of_nat index) :: concat (map enc vs)
  end.

Section ListCmp.
Context {A : Type} (f : A -> A -> comparison).
Fixpoint list_cmp (l m : list A) : comparison :=
  match l, m with
  | [], [] => Eq
  | [], _ :: _ => Lt
  | _ :: _, [] => Gt
  | x :: l', y :: m' => then_cmp (f x y) (list_cmp l' m')
  end.
End ListCmp.

Definition bool_cmp (a b : bool) : comparison :=
  match a, b with true, false => Gt | false, true => Lt | _, _ => Eq end.

(** The natural order of the values of one shape. *)
Fixpoint kv_cmp (u v : keyval) : comparison :=
  match u, v with
  | VBool a, VBool b => bool_cmp a b
  | VI64 a, VI64 b => a ?= b
  | VU64 a, VU64 b => a ?= b
  | VF64 a, VF64 b => f64_total_cmp a b
  | VStr a, VStr b => lex_cmp a b
  | VBytes a, VBytes b => lex_cmp a b
  | VSeq l, VSeq m | VTuple l, VTuple m => list_cmp kv_cmp l m
  | VEnum i l, VEnum j m => then_cmp (Z.of_nat i ?= Z.of_nat j) (list_cmp kv_cmp l m)
  | _, _ => Eq
  end.

Lemma keytype_nested_ind (P : keytype -> Prop) :
  P KBool -> P KI64 -> P KU64 -> P KF64 -> P KStr -> P KBytes ->
  (forall t, P t -> P (KSeq t)) ->
  (forall ts, Forall P ts -> P (KTuple ts)) ->
  (forall vs, Forall (Forall P) vs -> P (KEnum vs)) ->
  forall t, P t.
Proof.
  intros Hb Hi Hu Hf Hs Hy Hq Ht He. fix IH 1. intros [| | | | | |t|ts|vs];
    [exact Hb|exact Hi|exact Hu|exact Hf|exact Hs|exact Hy|apply Hq, IH| |].
  - apply Ht. induction ts; constructor; auto.
  - apply He. induction vs as [|ts vs IHvs]; constructor; auto.
    induction ts; constructor; auto.
Qed.

(** ** Bit-level facts *)
Lemma lxor_ones k z : 0 <= k -> 0 <= z < 2 ^ k -> Z.lxor z (Z.ones k) = 2 ^ k - 1 - z.
Proof.
  intros Hk Hz. rewrite Z.ones_equiv in *.
  assert (Z.land z (Z.lxor z (Z.pred (2 ^ k))) = 0) as H.
  { apply Z.bits_inj'. intros n Hn. rewrite Z.land_spec, Z.lxor_spec, Z.bits_0.
    rewrite <- Z.ones_equiv. destruct (Z.lt_ge_cases n k).
    - rewrite Z.ones_spec_low by lia. now destruct (Z.testbit z n).
    - rewrite <- (Z.mod_small z (2 ^ k)) by lia.
      now rewrite Z.mod_pow2_bits_high by lia. }
  pose proof (Z.add_nocarry_lxor _ _ H) as E.
  rewrite <- Z.lxor_assoc, Z.lxor_nilpotent, Z.lxor_0_l in E. lia.
Qed.

Lemma land_top u : 0 <= u < 2 ^ 63 -> Z.land u (2 ^ 63) = 0.
Proof.
  intros H. apply Z.bits_inj'. intros n Hn. rewrite Z.land_spec, Z.bits_0, Z.pow2_bits_eqb by lia.
  destruct (Z.eqb_spec 63 n) as [<-|]; [|apply andb_false_r].
  rewrite <- (Z.mod_small u (2 ^ 63)) by lia. now rewrite Z.mod_pow2_bits_high by lia.
Qed.

Lemma lxor_top_low u : 0 <= u < 2 ^ 63 -> Z.lxor u (2 ^ 63) = u + 2 ^ 63.
Proof. intros H. now rewrite <- Z.add_nocarry_lxor by now apply land_top. Qed.

Lemma lxor_top_high u : 2 ^ 63 <= u < 2 ^ 64 -> Z.lxor u (2 ^ 63) = u - 2 ^ 63.
Proof.
  intros H. replace u with (Z.lxor (u - 2 ^ 63) (2 ^ 63)) at 1.
  - now rewrite Z.lxor_assoc, Z.lxor_nilpotent, Z.lxor_0_r.
  - rewrite lxor_top_low by lia. lia.
Qed.

Lemma land_top_high u : 2 ^ 63 <= u < 2 ^ 64 -> Z.land u (2 ^ 63) <> 0.
Proof.
  intros H E. pose proof (Z.add_nocarry_lxor _ _ E). rewrite lxor_top_high in * by lia. lia.
Qed.

Ltac unwrap := unfold is_i64, is_u64, i64_min, i64_max, u64_max, u64, i64, wrap_u, wrap_s in *.

Lemma encode_i64_key_eq v : is_i64 v -> encode_i64_key v = v + 2 ^ 63.
Proof.
  intros H. unfold encode_i64_key. change (Z.shiftl 1 63) with (2 ^ 63). unwrap.
  destruct (Z.lt_ge_cases v 0).
  - rewrite <- (Z.mod_add v 1 (2 ^ 64)), Z.mod_small by lia. rewrite lxor_top_high; lia.
  - rewrite Z.mod_small by lia. apply lxor_top_low. lia.
Qed.

Lemma decode_i64_key_eq k : is_u64 k -> decode_i64_key k = k - 2 ^ 63.
Proof.
  intros H. unfold decode_i64_key. change (Z.shiftl 1 63) with (2 ^ 63). unwrap.
  destruct (Z.lt_ge_cases k (2 ^ 63)).
  - rewrite lxor_top_low by lia. rewrite <- (Z.mod_add _ (-1) (2 ^ 64)), Z.mod_small; lia.
  - rewrite lxor_top_high by lia. rewrite Z.mod_small; lia.
Qed.

Lemma encode_f64_key_eq bits :
  is_u64 bits -> encode_f64_key bits = if bits <? 2 ^ 63 then bits + 2 ^ 63 else 2 ^ 64 - 1 - bits.
Proof.
  intros H. unfold encode_f64_key, u64_not. change (Z.shiftl 1 63) with (2 ^ 63).
  change u64_max with (Z.ones 64). unwrap. destruct (Z.ltb_spec bits (2 ^ 63)).
  - rewrite land_top, lxor_top_low by lia. reflexivity.
  - rewrite (proj2 (Z.eqb_neq _ _)) by (apply land_top_high; lia). apply lxor_ones; lia.
Qed.

Lemma encode_f64_key_range bits : is_u64 bits -> is_u64 (encode_f64_key bits).
Proof.
  intros H. rewrite encode_f64_key_eq by assumption. unwrap. destruct (Z.ltb_spec bits (2 ^ 63)); lia.
Qed.

Lemma f64_total_key_eq bits : is_u64 bits -> f64_total_key bits = encode_f64_key bits - 2 ^ 63.
Proof.
  intros H. rewrite encode_f64_key_eq by assumption. unfold f64_total_key. unwrap.
  destruct (Z.ltb_spec bits (2 ^ 63)).
  - rewrite (Z.mod_small (bits + _)) by lia. rewrite Z.add_simpl_r.
    rewrite (Z.shiftr_div_pow2 bits), (Z.div_small bits) by lia.
    change (Z.shiftr (0 mod 2 ^ 64) 1) with 0. rewrite Z.lxor_0_r. lia.
  - rewrite <- (Z.mod_add _ (-1) (2 ^ 64)), Z.mod_small by lia.
    set (n := bits + 2 ^ (64 - 1) + -1 * 2 ^ 64 - 2 ^ (64 - 1)).
    assert (- 2 ^ 63 <= n < 0) by lia.
    rewrite (Z.shiftr_div_pow2 n), <- (Z.div_unique n (2 ^ 63) (-1) (n + 2 ^ 63)) by lia.
    change (Z.shiftr (-1 mod 2 ^ 64) 1) with (Z.ones 63).
    replace n with (Z.lnot (- n - 1)) by (unfold Z.lnot; lia).
    rewrite <- Z.lnot_lxor_l, lxor_ones by lia. unfold Z.lnot. lia.
Qed.

(** ** Byte strings *)
Lemma encode_bytes_loop_eq v out : encode_bytes_loop v out = out ++ esc_all v.
Proof.
  revert out; induction v as [|b v IH]; intros out; cbn; [now rewrite app_nil_r|].
  rewrite IH. case_bool_decide; now rewrite <- !app_assoc.
Qed.

Lemma encode_bytes_enc v : encode_bytes v = bytes_enc v.
Proof. unfold encode_bytes, bytes_enc. now rewrite encode_bytes_loop_eq, <- !app_assoc. Qed.

Lemma decode_bytes_loop_step b0 b1 s d p :
  decode_bytes_loop (b0 :: b1 :: s) d p =
  if bool_decide (b0 = x00) then
    if bool_decide (b1 = x00) then Decoded d (p + 2)
    else if bool_decide (b1 = xff) then decode_bytes_loop s (d ++ [x00]) (p + 2)
    else InvalidEscape
  else decode_bytes_loop (b1 :: s) (d ++ [b0]) (p + 1).
Proof. reflexivity. Qed.

Lemma bytes_dec_step b0 b1 s :
  bytes_dec (b0 :: b1 :: s) =
  if bool_decide (b0 = x00) then
    if bool_decide (b1 = x00) then ([], s)
    else if bool_decide (b1 = xff) then (x00 :: (bytes_dec s).1, (bytes_dec s).2)
    else ([], [])
  else (b0 :: (bytes_dec (b1 :: s)).1, (bytes_dec (b1 :: s)).2).
Proof. reflexivity. Qed.

(** The executable decoder computes the specification decoder on success, and
    reports how much of the input it took. *)
Lemma decode_bytes_loop_dec s d0 p0 d n :
  decode_bytes_loop s d0 p0 = Decoded d n ->
  d = d0 ++ (bytes_dec s).1 /\ (p0 <= n)%nat /\ drop (n - p0) s = (bytes_dec s).2.
Proof.
  remember (length s) as len eqn:Hlen. assert (length s <= len)%nat as Hle by lia. clear Hlen.
  revert s d0 p0 Hle. induction len as [|len IH]; intros s d0 p0 Hle; destruct s as [|b0 [|b1 s]];
    cbn in Hle; try lia; try (cbn; case_bool_decide; discriminate); try discriminate.
  rewrite decode_bytes_loop_step, bytes_dec_step.
  repeat case_bool_decide; try discriminate.
  - intros [= <- <-]. cbn. rewrite app_nil_r. repeat split; [lia|].
    now replace (p0 + 2 - p0)%nat with 2%nat by lia.
  - intros H'%IH; [|lia]. destruct H' as (-> & Hp & <-). cbn [fst snd].
    rewrite <- app_assoc. repeat split; [lia|].
    replace (n - p0)%nat with (S (S (n - (p0 + 2))))%nat by lia. reflexivity.
  - intros H'%IH; [|cbn; lia]. destruct H' as (-> & Hp & <-). cbn [fst snd].
    rewrite <- app_assoc. repeat split; [lia|].
    replace (n - p0)%nat with (S (n - (p0 + 1)))%nat by lia. reflexivity.
Qed.

Lemma decode_bytes_loop_enc v d0 p0 s :
  decode_bytes_loop (bytes_enc v ++ s) d0 p0 = Decoded (d0 ++ v) (p0 + length (bytes_enc v)).
Proof.
  unfold bytes_enc. revert d0 p0; induction v as [|b v IH]; intros d0 p0.
  - cbn. now rewrite app_nil_r.
  - cbn [esc_all]. case_bool_decide as E.
    + subst b. change (([x00; xff] ++ esc_all v) ++ [x00; x00]) with
        (x00 :: xff :: (esc_all v ++ [x00; x00])).
      rewrite <- !app_comm_cons, decode_bytes_loop_step. cbn [length].
      rewrite !bool_decide_true by reflexivity.
      rewrite bool_decide_false by discriminate. rewrite IH, <- app_assoc. f_equal. lia.
    + change (([b] ++ esc_all v) ++ [x00; x00]) with (b :: (esc_all v ++ [x00; x00])).
      cbn [length]. rewrite <- app_comm_cons.
      destruct ((esc_all v ++ [x00; x00]) ++ s) as [|b1 s2] eqn:E2.
      { destruct (esc_all v); discriminate. }
      rewrite decode_bytes_loop_step.
      rewrite (bool_decide_false _ E), IH, <- app_assoc. f_equal. lia.
Qed.

Lemma length_bytes_enc_ge v : (2 <= length (bytes_enc v))%nat.
Proof. unfold bytes_enc. rewrite length_app. cbn. lia. Qed.

Lemma byte_nonzero b : b <> x00 -> 0 < byte_to_Z b.
Proof.
  intros E. pose proof (byte_to_Z_range b). assert (byte_to_Z b <> 0); [|lia].
  intros F. apply E, byte_to_Z_inj, F.
Qed.

Lemma byte_cmp_00_l b : b <> x00 -> (byte_to_Z x00 ?= byte_to_Z b) = Lt.
Proof. intros H. apply Z.compare_lt_iff, byte_nonzero, H. Qed.

Lemma byte_cmp_00_r b : b <> x00 -> (byte_to_Z b ?= byte_to_Z x00) = Gt.
Proof. intros H. apply Z.compare_gt_iff, byte_nonzero, H. Qed.

(** Escaping keeps the order, whatever follows the terminator. *)
Lemma lex_cmp_bytes_enc a b s t :
  lex_cmp (bytes_enc a ++ s) (bytes_enc b ++ t) = then_cmp (lex_cmp a b) (lex_cmp s t).
Proof.
  unfold bytes_enc. revert b; induction a as [|x a IH]; intros [|y b]; cbn [esc_all lex_cmp].
  - reflexivity.
  - case_bool_decide as E; [subst y; reflexivity|].
    cbn -[Z.compare byte_to_Z]. now rewrite byte_cmp_00_l.
  - case_bool_decide as E; [subst x; reflexivity|].
    cbn -[Z.compare byte_to_Z]. now rewrite byte_cmp_00_r.
  - specialize (IH b).
    case_bool_decide as E1; case_bool_decide as E2; subst; cbn -[Z.compare byte_to_Z];
      rewrite ?Z.compare_refl, ?byte_cmp_00_l, ?byte_cmp_00_r by assumption; cbn [then_cmp]; auto.
    rewrite IH. now destruct (byte_to_Z x ?= byte_to_Z y).
Qed.

(** ** The serializer on typed values *)
Lemma in_u64_spec z : in_u64 z = true <-> is_u64 z.
Proof. unfold in_u64, is_u64. rewrite andb_true_iff, !Z.leb_le. reflexivity. Qed.
Lemma in_i64_spec z : in_i64 z = true <-> is_i64 z.
Proof. unfold in_i64, is_i64. rewrite andb_true_iff, !Z.leb_le. reflexivity. Qed.

Lemma u64_bytes z : is_u64 z -> 0 <= z < 256 ^ Z.of_nat 8.
Proof. unfold is_u64, u64_max. lia. Qed.

Lemma all2_spec {A B} (f : A -> B -> bool) l m :
  all2 f l m = true <-> Forall2 (fun x y => f x y = true) l m.
Proof.
  revert m; induction l as [|x l IH]; intros [|y m]; cbn.
  - split; auto.
  - split; [discriminate|inversion 1].
  - split; [discriminate|inversion 1].
  - rewrite andb_true_iff, IH. split; [intros []; auto|inversion 1; auto].
Qed.

Lemma well_typed_enum variants i vs :
  well_typed (KEnum variants) (VEnum i vs) = true <->
  exists ts, nth_error variants i = Some ts /\
             Forall2 (fun t v => well_typed t v = true) ts vs.
Proof.
  cbn [well_typed]. rewrite nth_error_map. destruct (nth_error variants i) as [ts|]; cbn.
  - rewrite all2_spec. split; [eauto|intros (ts' & [= ->] & H); exact H].
  - split; [discriminate|intros (ts' & [=] & _)].
Qed.

Lemma delimited_tuple ts :
  delimited (KTuple ts) = true <-> ts <> [] /\ Forall (fun t => delimited t = true) ts.
Proof.
  destruct ts as [|t ts].
  - cbn. split; [discriminate|intros [[] _]; reflexivity].
  - change (delimited (KTuple (t :: ts))) with (forallb delimited (t :: ts)).
    rewrite forallb_forall, List.Forall_forall. split; [intros H; split; [discriminate|exact H]|].
    intros [_ H]; exact H.
Qed.

Lemma delimited_enum vss :
  delimited (KEnum vss) = true <->
  (length vss <= 256)%nat /\ Forall (Forall (fun t => delimited t = true)) vss.
Proof.
  cbn. rewrite andb_true_iff, Nat.leb_le, forallb_forall, List.Forall_forall.
  setoid_rewrite forallb_forall. setoid_rewrite List.Forall_forall. reflexivity.
Qed.

(** What the round trip and the order theorem need of one value. *)
Definition ser_ok (v : keyval) : Prop :=
  enc v <> [] /\ forall out, serialize_value v out = (Ok tt, out ++ enc v).
Definition deser_ok (t : keytype) (v : keyval) : Prop :=
  forall s, deserialize_value t (enc v ++ s) = (Ok v, s).

Lemma st_iter_ser_ok vs out :
  Forall ser_ok vs -> st_iter serialize_value vs out = (Ok tt, out ++ concat (map enc vs)).
Proof.
  intros H. revert out. induction H as [|v vs [_ Hv] _ IH]; intros out; cbn.
  - now rewrite app_nil_r.
  - unfold st_bind. now rewrite Hv, IH, <- app_assoc.
Qed.

Lemma variant_byte i : (i < 256)%nat -> byte_to_Z (byte_of_Z (Z.of_nat i)) = Z.of_nat i.
Proof. intros H. rewrite byte_to_of_Z. apply Z.mod_small. lia. Qed.

Lemma Forall_Forall2_impl {A B} (P : A -> Prop) (Q : A -> Prop) (R : A -> B -> Prop)
    (S : A -> B -> Prop) l m :
  Forall (fun x => Q x -> forall y, R x y -> S x y) l -> Forall Q l -> Forall2 R l m ->
  Forall2 S l m.
Proof.
  intros H HQ HR. induction HR as [|x y l m Hxy _ IH]; constructor; inv H; inv HQ; auto.
Qed.

Lemma enum_fields vss i ts vs (S : keytype -> keyval -> Prop) :
  Forall (Forall (fun t => delimited t = true -> forall v, well_typed t v = true -> S t v)) vss ->
  Forall (Forall (fun t => delimited t = true)) vss ->
  nth_error vss i = Some ts ->
  Forall2 (fun t v => well_typed t v = true) ts vs -> Forall2 S ts vs.
Proof.
  intros HS Hd Hi Hv. apply nth_error_In in Hi. rewrite List.Forall_forall in HS, Hd.
  eapply (Forall_Forall2_impl (fun _ => True)); [exact (HS _ Hi)|exact (Hd _ Hi)|exact Hv].
Qed.

Lemma Forall2_r {A B} (P : B -> Prop) (l : list A) m : Forall2 (fun _ y => P y) l m -> Forall P m.
Proof. induction 1; auto. Qed.

Lemma be8_nonnil z s : to_be_bytes 8 z ++ s <> [].
Proof. discriminate. Qed.

Lemma ser_ok_bytes s : ser_ok (VBytes s).
Proof.
  split; [cbn [enc]; unfold bytes_enc; now destruct (esc_all s)|]. intros out. cbn [serialize_value enc].
  unfold serialize_bytes, st_modify. now rewrite encode_bytes_enc.
Qed.
Lemma ser_ok_str s : ser_ok (VStr s).
Proof. exact (ser_ok_bytes s). Qed.
Lemma ser_ok_enum i vs : (i < 256)%nat -> Forall ser_ok vs -> ser_ok (VEnum i vs).
Proof.
  intros Hi Hvs. split; [discriminate|]. intros out. cbn [serialize_value enc]. unfold st_bind, serialize_unit_variant, u8_max.
  rewrite (proj2 (Z.leb_le _ _)) by lia. cbn. rewrite st_iter_ser_ok by assumption. now rewrite <- app_assoc.
Qed.

Lemma ser_ok_typed t : delimited t = true -> forall v, well_typed t v = true -> ser_ok v.
Proof.
  induction t as [| | | | | |t IH|ts IH|vss IH] using keytype_nested_ind; intros Hd v Hv;
    destruct v; try discriminate Hv; try discriminate Hd.
  - split; [discriminate|reflexivity].
  - split; [discriminate|reflexivity].
  - split; [discriminate|reflexivity].
  - split; [discriminate|reflexivity].
  - apply ser_ok_str.
  - apply ser_ok_bytes.
  - apply delimited_tuple in Hd as [Hne Hd]. cbn in Hv. rewrite all2_spec in Hv.
    assert (Forall2 (fun _ v => ser_ok v) ts vs) as Hs.
    { eapply (Forall_Forall2_impl (fun _ => True)); [exact IH|exact Hd|exact Hv]. }
    apply Forall2_r in Hs. split; [|intros; now apply st_iter_ser_ok].
    destruct vs as [|v vs]; [inv Hv; congruence|]. inv Hs. destruct H1 as [H1 _]. cbn.
    destruct (enc v) eqn:E; [congruence|discriminate].
  - apply delimited_enum in Hd as [Hlen Hd]. apply well_typed_enum in Hv as (ts & Hi & Hv).
    pose proof (enum_fields _ _ _ _ (fun _ v => ser_ok v) IH Hd Hi Hv) as Hs%Forall2_r.
    assert (index < length vss)%nat by (apply nth_error_Some; congruence). apply ser_ok_enum; [lia | exact Hs].
Qed.

(** ** The deserializer on encodings of typed values *)
Lemma take_bytes_app bs s : take_bytes (length bs) (bs ++ s) = (Ok bs, s).
Proof.
  unfold take_bytes. rewrite length_app.
  rewrite (proj2 (Nat.ltb_ge _ _)) by lia. now rewrite take_app_length, drop_app_length.
Qed.

Lemma take_8 z s : take_bytes 8 (to_be_bytes 8 z ++ s) = (Ok (to_be_bytes 8 z), s).
Proof. exact (take_bytes_app (to_be_bytes 8 z) s). Qed.

Lemma take_byte_cons b s : take_byte (b :: s) = (Ok b, s).
Proof. reflexivity. Qed.

Lemma decode_next_bytes_enc v s : decode_next_bytes (bytes_enc v ++ s) = (Ok v, s).
Proof.
  unfold decode_next_bytes, decode_bytes. rewrite decode_bytes_loop_enc. cbn.
  now rewrite drop_app_length.
Qed.

Lemma next_field_ok t v s :
  enc v <> [] -> deser_ok t v -> next_field (deserialize_value t) (enc v ++ s) = (Ok v, s).
Proof.
  intros Hne Hd. unfold next_field, next_element, st_bind.
  destruct (enc v ++ s) as [|b l] eqn:E; [apply app_eq_nil in E as [E _]; congruence|].
  now rewrite <- E, Hd.
Qed.

Lemma st_map_fields ts vs s :
  Forall2 (fun t v => enc v <> [] /\ deser_ok t v) ts vs ->
  st_map (fun t => next_field (deserialize_value t)) ts (concat (map enc vs) ++ s) = (Ok vs, s).
Proof.
  induction 1 as [|t v ts vs [Hne Hd] _ IH]; [reflexivity|].
  cbn. unfold st_bind at 1. rewrite <- app_assoc, next_field_ok by assumption.
  unfold st_bind. now rewrite IH.
Qed.

Lemma Forall2_both {A B} (R S : A -> B -> Prop) l m :
  Forall2 R l m -> Forall2 S l m -> Forall2 (fun x y => R x y /\ S x y) l m.
Proof. intros H. induction H; inversion 1; auto. Qed.

Lemma ser_ok_nonnil ts vs :
  Forall (fun t => delimited t = true) ts -> Forall2 (fun t v => well_typed t v = true) ts vs ->
  Forall2 (fun _ v => enc v <> []) ts vs.
Proof.
  intros Hd Hv. induction Hv; constructor; inv Hd; auto. now apply (ser_ok_typed x).
Qed.

Lemma deserialize_u64_be z s :
  is_u64 z -> deserialize_u64 (to_be_bytes 8 z ++ s) = (Ok z, s).
Proof.
  intros H. unfold deserialize_u64, st_bind. rewrite take_8. unfold st_ret.
  rewrite from_to_be_bytes, Z.mod_small; [reflexivity|now apply u64_bytes].
Qed.

Lemma encode_i64_key_range v : is_i64 v -> is_u64 (encode_i64_key v).
Proof. intros H. rewrite encode_i64_key_eq by assumption. unwrap. lia. Qed.

Lemma decode_f64_key_encode bits : is_u64 bits -> decode_f64_key (encode_f64_key bits) = bits.
Proof.
  intros H. rewrite encode_f64_key_eq by assumption. unfold decode_f64_key, u64_not.
  change (Z.shiftl 1 63) with (2 ^ 63). change u64_max with (Z.ones 64). unwrap.
  destruct (Z.ltb_spec bits (2 ^ 63)).
  - rewrite (proj2 (Z.eqb_neq _ _)) by (apply land_top_high; lia). cbn [negb].
    rewrite lxor_top_high; lia.
  - rewrite land_top by lia. cbn [negb Z.eqb]. rewrite lxor_ones; lia.
Qed.

Lemma deser_ok_typed t :
  delimited t = true -> forall v, well_typed t v = true -> deser_ok t v.
Proof.
  induction t as [| | | | | |t IH|ts IH|vss IH] using keytype_nested_ind; intros Hd v Hv;
    destruct v; try discriminate Hv; try discriminate Hd; intros rest.
  - now destruct b.
  - apply in_i64_spec in Hv. cbn [deserialize_value enc]. unfold deserialize_i64, st_bind.
    rewrite take_8. unfold st_ret. pose proof (encode_i64_key_range _ Hv) as Hr.
    rewrite from_to_be_bytes, Z.mod_small by now apply u64_bytes.
    rewrite decode_i64_key_eq, encode_i64_key_eq by assumption. do 3 f_equal. lia.
  - apply in_u64_spec in Hv. cbn [deserialize_value enc]. unfold st_bind.
    now rewrite deserialize_u64_be.
  - apply in_u64_spec in Hv. cbn [deserialize_value enc]. unfold deserialize_f64, st_bind.
    rewrite take_8. unfold st_ret. pose proof (encode_f64_key_range _ Hv) as Hr.
    rewrite from_to_be_bytes, Z.mod_small by now apply u64_bytes.
    now rewrite decode_f64_key_encode.
  - cbn [deserialize_value enc]. unfold deserialize_str, st_bind.
    rewrite decode_next_bytes_enc. cbn in Hv. now rewrite Hv.
  - cbn [deserialize_value enc]. unfold deserialize_bytes, st_bind.
    now rewrite decode_next_bytes_enc.
  - apply delimited_tuple in Hd as [Hne Hd]. cbn in Hv. rewrite all2_spec in Hv.
    cbn [deserialize_value enc]. unfold st_bind. rewrite st_map_fields; [reflexivity|].
    apply Forall2_both; [now apply ser_ok_nonnil|].
    eapply (Forall_Forall2_impl (fun _ => True)); [exact IH|exact Hd|exact Hv].
  - apply delimited_enum in Hd as [Hlen Hd]. apply well_typed_enum in Hv as (ts & Hi & Hv).
    pose proof (enum_fields _ _ _ _ deser_ok IH Hd Hi Hv) as Hs.
    assert (index < length vss)%nat as Hlt.
    { apply nth_error_Some. now rewrite Hi. }
    cbn [deserialize_value enc]. unfold st_bind at 1. unfold variant_index, st_bind at 1.
    rewrite <- app_comm_cons, take_byte_cons, variant_byte, Nat2Z.id by lia.
    rewrite (proj2 (Nat.ltb_lt _ _)) by assumption. unfold st_ret at 1.
    rewrite nth_error_map, Hi. cbn [option_map].
    assert (Forall2 (fun t v => enc v <> [] /\ deser_ok t v) ts vs) as Hb.
    { apply Forall2_both; [|exact Hs]. apply ser_ok_nonnil; [|exact Hv].
      rewrite List.Forall_forall in Hd. eapply Hd, nth_error_In, Hi. }
    unfold st_bind at 1. destruct ts as [|t0 [|t1 ts]].
    + inv Hv. reflexivity.
    + inv Hs. inv H3. cbn [map concat]. rewrite app_nil_r. unfold st_bind. now rewrite H1.
    + now rewrite st_map_fields.
Qed.

(** ** Order *)
Lemma then_cmp_assoc a b c : then_cmp (then_cmp a b) c = then_cmp a (then_cmp b c).
Proof. now destruct a. Qed.

Definition order_ok (u v : keyval) : Prop :=
  (forall s t, lex_cmp (enc u ++ s) (enc v ++ t) = then_cmp (kv_cmp u v) (lex_cmp s t)) /\
  (kv_cmp u v = Eq -> u = v).

Lemma list_order_ok us vs s t :
  Forall2 order_ok us vs ->
  lex_cmp (concat (map enc us) ++ s) (concat (map enc vs) ++ t) =
    then_cmp (list_cmp kv_cmp us vs) (lex_cmp s t) /\
  (list_cmp kv_cmp us vs = Eq -> us = vs).
Proof.
  induction 1 as [|u v us vs [H1 H2] _ [IH1 IH2]]; [now split|]. cbn [map concat list_cmp]. split.
  - now rewrite <- !app_assoc, H1, then_cmp_assoc, IH1.
  - destruct (kv_cmp u v); cbn; try discriminate. intros E. f_equal; auto.
Qed.

Lemma fields_order ts us vs :
  Forall (fun t => delimited t = true -> forall u v, well_typed t u = true ->
            well_typed t v = true -> order_ok u v) ts ->
  Forall (fun t => delimited t = true) ts ->
  Forall2 (fun t v => well_typed t v = true) ts us ->
  Forall2 (fun t v => well_typed t v = true) ts vs -> Forall2 order_ok us vs.
Proof.
  intros H Hd Hu. revert vs. induction Hu; intros vs Hv; inv Hv; constructor;
    inv H; inv Hd; eauto.
Qed.

Lemma cmp_eq_spec (a b : Z) : (a ?= b) = Eq -> a = b.
Proof. apply Z.compare_eq. Qed.

Lemma order_ok_typed t :
  delimited t = true -> forall u v, well_typed t u = true -> well_typed t v = true -> order_ok u v.
Proof.
  induction t as [| | | | | |t IH|ts IH|vss IH] using keytype_nested_ind; intros Hd u v Hu Hv;
    destruct u; try discriminate Hu; destruct v; try discriminate Hv; try discriminate Hd.
  - split; [now destruct b, b0|now destruct b, b0].
  - apply in_i64_spec in Hu, Hv. split; cbn [enc kv_cmp].
    + intros s t. rewrite lex_cmp_be_bytes by now apply u64_bytes, encode_i64_key_range.
      rewrite !encode_i64_key_eq by assumption. f_equal.
      rewrite !(Z.add_comm _ (2 ^ 63)). apply Z.add_compare_mono_l.
    + intros ->%cmp_eq_spec. reflexivity.
  - apply in_u64_spec in Hu, Hv. split; cbn [enc kv_cmp].
    + intros s t. now rewrite lex_cmp_be_bytes by now apply u64_bytes.
    + intros ->%cmp_eq_spec. reflexivity.
  - apply in_u64_spec in Hu, Hv. unfold order_ok. cbn [enc kv_cmp]. unfold f64_total_cmp.
    rewrite !f64_total_key_eq by assumption. split.
    + intros s t. rewrite lex_cmp_be_bytes by now apply u64_bytes, encode_f64_key_range.
      f_equal. rewrite <- !Z.add_opp_r, !(Z.add_comm _ (- _)). symmetry. apply Z.add_compare_mono_l.
    + intros E%cmp_eq_spec. f_equal.
      rewrite <- (decode_f64_key_encode bits), <- (decode_f64_key_encode bits0) by assumption.
      f_equal. lia.
  - split; cbn [enc kv_cmp]; [intros; apply lex_cmp_bytes_enc|].
    intros ->%lex_cmp_eq. reflexivity.
  - split; cbn [enc kv_cmp]; [intros; apply lex_cmp_bytes_enc|].
    intros ->%lex_cmp_eq. reflexivity.
  - apply delimited_tuple in Hd as [_ Hd]. cbn in Hu, Hv. rewrite all2_spec in Hu, Hv.
    pose proof (fields_order _ _ _ IH Hd Hu Hv) as Hf. split; cbn [enc kv_cmp].
    + intros s t. now apply list_order_ok.
    + intros E. f_equal. now apply (list_order_ok _ _ [] [] Hf).
  - apply delimited_enum in Hd as [Hlen Hd].
    apply well_typed_enum in Hu as (ts & Hi & Hu). apply well_typed_enum in Hv as (us & Hj & Hv).
    assert (index < length vss /\ index0 < length vss)%nat as [L1 L2].
    { split; apply nth_error_Some; congruence. }
    unfold order_ok. cbn [enc kv_cmp].
    destruct (Nat.eq_dec index index0) as [<-|Hne].
    + assert (us = ts) as -> by congruence. rewrite Z.compare_refl. cbn [then_cmp].
      rewrite List.Forall_forall in IH, Hd. apply nth_error_In in Hi.
      pose proof (fields_order _ _ _ (IH _ Hi) (Hd _ Hi) Hu Hv) as Hf. split.
      * intros s t. rewrite <- !app_comm_cons. cbn [lex_cmp]. rewrite Z.compare_refl.
        now apply list_order_ok.
      * intros E. f_equal. now apply (list_order_ok _ _ [] [] Hf).
    + assert ((Z.of_nat index ?= Z.of_nat index0) <> Eq) as Hc by (intros ?%cmp_eq_spec; lia).
      split.
      * intros s t. rewrite <- !app_comm_cons. cbn [lex_cmp]. rewrite !variant_byte by lia.
        now destruct (Z.of_nat index ?= Z.of_nat index0).
      * now destruct (Z.of_nat index ?= Z.of_nat index0).
Qed.

(** ** The deserializer accepts only encodings *)
Lemma decode_bytes_loop_sound s d0 p0 d n :
  decode_bytes_loop s d0 p0 = Decoded d n ->
  exists v, d = d0 ++ v /\ s = bytes_enc v ++ drop (n - p0) s /\ (p0 <= n)%nat.
Proof.
  remember (length s) as len eqn:Hlen. assert (length s <= len)%nat as Hle by lia. clear Hlen.
  revert s d0 p0 Hle. induction len as [|len IH]; intros s d0 p0 Hle; destruct s as [|b0 [|b1 s]];
    cbn in Hle; try lia; try (cbn; case_bool_decide; discriminate); try discriminate.
  rewrite decode_bytes_loop_step. repeat case_bool_decide; subst; try discriminate.
  - intros [= <- <-]. exists []. rewrite app_nil_r. repeat split; [|lia].
    now replace (p0 + 2 - p0)%nat with 2%nat by lia.
  - intros H'%IH; [|lia]. destruct H' as (v & -> & Hs & Hp). exists (x00 :: v).
    rewrite <- app_assoc. repeat split; [|lia].
    replace (n - p0)%nat with (S (S (n - (p0 + 2))))%nat by lia.
    change (x00 :: xff :: s = x00 :: xff :: (bytes_enc v ++ drop (n - (p0 + 2)) s)).
    now rewrite <- Hs.
  - intros H'%IH; [|cbn; lia]. destruct H' as (v & -> & Hs & Hp). exists (b0 :: v).
    rewrite <- app_assoc. repeat split; [|lia].
    replace (n - p0)%nat with (S (n - (p0 + 1)))%nat by lia.
    unfold bytes_enc. cbn [esc_all]. rewrite bool_decide_false by assumption.
    change (b0 :: b1 :: s = b0 :: (bytes_enc v ++ drop (n - (p0 + 1)) (b1 :: s))).
    now rewrite <- Hs.
Qed.

Lemma decode_next_bytes_sound input v rest :
  decode_next_bytes input = (Ok v, rest) -> input = bytes_enc v ++ rest.
Proof.
  unfold decode_next_bytes, decode_bytes.
  destruct (decode_bytes_loop input [] 0) eqn:E; try discriminate.
  apply decode_bytes_loop_sound in E as (v' & -> & Hs & _). intros [= <- <-].
  now rewrite Nat.sub_0_r in Hs.
Qed.

Lemma take_bytes_sound n input bs rest :
  take_bytes n input = (Ok bs, rest) -> input = bs ++ rest /\ length bs = n.
Proof.
  unfold take_bytes. destruct (Nat.ltb_spec (length input) n); [discriminate|].
  intros [= <- <-]. split; [now rewrite take_drop|]. rewrite length_take. lia.
Qed.

Lemma take_byte_sound input b rest : take_byte input = (Ok b, rest) -> input = b :: rest.
Proof.
  unfold take_byte. rewrite st_bind_ok. intros (bs & s1 & H1 & H2).
  apply take_bytes_sound in H1 as [-> H1]. destruct bs as [|b' [|]]; try discriminate.
  now injection H2 as -> ->.
Qed.

Lemma from_be_bytes_u64 bs : length bs = 8%nat -> is_u64 (from_be_bytes bs).
Proof.
  intros H. pose proof (from_be_bytes_range bs) as R. rewrite H in R.
  unfold is_u64, u64_max. lia.
Qed.

Lemma take_8_sound input bs rest :
  take_bytes 8 input = (Ok bs, rest) ->
  is_u64 (from_be_bytes bs) /\ input = to_be_bytes 8 (from_be_bytes bs) ++ rest.
Proof.
  intros (-> & Hl)%take_bytes_sound. split; [now apply from_be_bytes_u64|].
  rewrite <- Hl at 1. now rewrite to_from_be_bytes.
Qed.

Lemma encode_f64_key_decode k :
  is_u64 k -> is_u64 (decode_f64_key k) /\ encode_f64_key (decode_f64_key k) = k.
Proof.
  intros H. assert (decode_f64_key k = if k <? 2 ^ 63 then 2 ^ 64 - 1 - k else k - 2 ^ 63) as E.
  { unfold decode_f64_key, u64_not. change (Z.shiftl 1 63) with (2 ^ 63).
    change u64_max with (Z.ones 64). unwrap. destruct (Z.ltb_spec k (2 ^ 63)).
    - rewrite land_top by lia. apply lxor_ones; lia.
    - rewrite (proj2 (Z.eqb_neq _ _)) by (apply land_top_high; lia). apply lxor_top_high. lia. }
  assert (is_u64 (decode_f64_key k)) as Hr.
  { rewrite E. unwrap. destruct (Z.ltb_spec k (2 ^ 63)); lia. }
  split; [exact Hr|]. rewrite encode_f64_key_eq by exact Hr. rewrite E. unwrap.
  destruct (Z.ltb_spec k (2 ^ 63)).
  - destruct (Z.ltb_spec (2 ^ 64 - 1 - k) (2 ^ 63)); lia.
  - destruct (Z.ltb_spec (k - 2 ^ 63) (2 ^ 63)); lia.
Qed.

Definition deser_sound (t : keytype) : Prop :=
  forall input v rest, deserialize_value t input = (Ok v, rest) ->
    well_typed t v = true /\ input = enc v ++ rest.

Lemma next_field_sound t input v rest :
  deser_sound t -> next_field (deserialize_value t) input = (Ok v, rest) ->
  well_typed t v = true /\ input = enc v ++ rest.
Proof.
  intros Ht. unfold next_field, next_element. rewrite st_bind_ok.
  intros (o & s1 & H1 & H2). destruct input as [|b input].
  - injection H1 as <- <-. discriminate H2.
  - apply st_bind_ok in H1 as (a & s2 & H1 & H3). injection H3 as <- <-.
    injection H2 as -> ->. now apply Ht.
Qed.

Lemma st_map_sound ts input vs rest :
  Forall deser_sound ts ->
  st_map (fun t => next_field (deserialize_value t)) ts input = (Ok vs, rest) ->
  Forall2 (fun t v => well_typed t v = true) ts vs /\ input = concat (map enc vs) ++ rest.
Proof.
  intros H. revert input vs. induction H as [|t ts Ht _ IH]; intros input vs; cbn.
  - intros [= <- ->]. auto.
  - rewrite st_bind_ok. intros (v & s1 & H1 & H2).
    apply st_bind_ok in H2 as (vs' & s2 & H2 & H3). injection H3 as <- <-.
    apply next_field_sound in H1 as [Hv ->]; [|exact Ht]. apply IH in H2 as [Hvs ->].
    split; [now constructor|]. cbn. now rewrite <- app_assoc.
Qed.

Lemma deser_sound_typed t : delimited t = true -> deser_sound t.
Proof.
  induction t as [| | | | | |t IH|ts IH|vss IH] using keytype_nested_ind; intros Hd input v rest;
    try discriminate Hd; cbn [deserialize_value]; rewrite st_bind_ok; intros (x & s1 & H1 & H2).
  - injection H2 as <- <-. unfold deserialize_bool in H1.
    apply st_bind_ok in H1 as (b & s2 & H1 & H2). apply take_byte_sound in H1 as ->.
    repeat case_bool_decide; subst; try discriminate; injection H2 as <- <-; auto.
  - injection H2 as <- <-. unfold deserialize_i64 in H1.
    apply st_bind_ok in H1 as (bs & s2 & H1 & H2). injection H2 as <- <-.
    apply take_8_sound in H1 as [Hr ->]. cbn [well_typed enc]. rewrite in_i64_spec.
    pose proof (decode_i64_key_eq _ Hr) as E.
    assert (is_i64 (decode_i64_key (from_be_bytes bs))) as Hi by (rewrite E; unwrap; lia).
    split; [exact Hi|]. rewrite encode_i64_key_eq, E by exact Hi.
    now rewrite Z.sub_add.
  - injection H2 as <- <-. unfold deserialize_u64 in H1.
    apply st_bind_ok in H1 as (bs & s2 & H1 & H2). injection H2 as <- <-.
    apply take_8_sound in H1 as [Hr ->]. cbn [well_typed enc]. now rewrite in_u64_spec.
  - injection H2 as <- <-. unfold deserialize_f64 in H1.
    apply st_bind_ok in H1 as (bs & s2 & H1 & H2). injection H2 as <- <-.
    apply take_8_sound in H1 as [Hr ->]. cbn [well_typed enc]. rewrite in_u64_spec.
    destruct (encode_f64_key_decode _ Hr) as [? ->]. auto.
  - injection H2 as <- <-. unfold deserialize_str in H1.
    apply st_bind_ok in H1 as (bs & s2 & H1 & H2). apply decode_next_bytes_sound in H1 as ->.
    destruct (utf8_valid bs) eqn:E; [|discriminate]. injection H2 as <- <-. auto.
  - injection H2 as <- <-. apply decode_next_bytes_sound in H1 as ->. auto.
  - injection H2 as <- <-. apply delimited_tuple in Hd as [_ Hd].
    apply st_map_sound in H1 as [Hvs ->].
    + cbn. now rewrite all2_spec.
    + clear -IH Hd. induction IH; constructor; inv Hd; auto.
  - apply delimited_enum in Hd as [Hlen Hd]. unfold variant_index in H1.
    apply st_bind_ok in H1 as (b & s2 & H1 & H3). apply take_byte_sound in H1 as ->.
    destruct (Nat.ltb_spec (Z.to_nat (byte_to_Z b)) (length vss)); [|discriminate].
    injection H3 as <- <-. rewrite nth_error_map in H2.
    destruct (nth_error vss (Z.to_nat (byte_to_Z b))) as [ts|] eqn:Hi; [|discriminate].
    cbn [option_map] in H2. apply st_bind_ok in H2 as (vs & s3 & H2 & H3). injection H3 as <- <-.
    assert (Forall deser_sound ts) as Hts.
    { apply nth_error_In in Hi. rewrite List.Forall_forall in IH, Hd.
      specialize (IH _ Hi). specialize (Hd _ Hi). clear -IH Hd.
      induction IH; constructor; inv Hd; auto. }
    assert (Forall2 (fun t v => well_typed t v = true) ts vs /\ s2 = concat (map enc vs) ++ s3)
      as [Hvs ->].
    { destruct ts as [|t0 [|t1 ts]].
      - injection H2 as <- <-. auto.
      - apply st_bind_ok in H2 as (v & s4 & H2 & H3). injection H3 as <- <-. apply Forall_inv in Hts.
        apply Hts in H2 as [? ->]. split; [auto|]. cbn. now rewrite app_nil_r.
      - now apply st_map_sound. }
    split; [apply well_typed_enum; eauto|]. cbn [enc].
    rewrite Z2Nat.id, byte_of_to_Z by apply byte_to_Z_range. reflexivity.
Qed.

Lemma serialize_enc t v :
  delimited t = true -> well_typed t v = true -> serialize v = Ok (enc v).
Proof.
  intros Hd Hv. unfold serialize. now rewrite (proj2 (ser_ok_typed t Hd v Hv)).
Qed.

Lemma visit_seq_all_ok t vs fuel :
  Forall (fun v => enc v <> [] /\ deser_ok t v) vs -> (length (concat (map enc vs)) < fuel)%nat ->
  visit_seq_all (deserialize_value t) fuel (concat (map enc vs)) = (Ok vs, []).
Proof.
  intros H. revert fuel. induction H as [|v vs [Hne Hd] _ IH]; intros [|fuel]; cbn; try lia;
    intros Hf; [reflexivity|].
  rewrite length_app in Hf. assert (length (enc v) <> 0)%nat by (destruct (enc v); cbn; congruence).
  unfold next_element, st_bind.
  destruct (enc v ++ concat (map enc vs)) as [|b l] eqn:E;
    [apply app_eq_nil in E as [E _]; congruence|].
  rewrite <- E, Hd. cbn. rewrite IH by lia. reflexivity.
Qed.

Lemma prefix_end_loop_S p i :
  prefix_end_loop p (S i) =
  match p !! i with
  | Some b => if bool_decide (b = xff) then prefix_end_loop p i
              else Some (take i p ++ [byte_of_Z (byte_to_Z b + 1)])
  | None => None
  end.
Proof. reflexivity. Qed.

Lemma prefix_end_cons x p :
  prefix_end (x :: p) =
  match prefix_end p with
  | Some e => Some (x :: e)
  | None => if bool_decide (x = xff) then None else Some [byte_of_Z (byte_to_Z x + 1)]
  end.
Proof.
  unfold prefix_end. cbn [length].
  assert (forall i, (i <= length p)%nat ->
    prefix_end_loop (x :: p) (S i) =
    match prefix_end_loop p i with
    | Some e => Some (x :: e)
    | None => if bool_decide (x = xff) then None else Some [byte_of_Z (byte_to_Z x + 1)]
    end) as H; [|now apply H].
  induction i as [|i IH]; intros Hi; [reflexivity|].
  specialize (IH ltac:(lia)).
  rewrite (prefix_end_loop_S (x :: p) (S i)), (prefix_end_loop_S p i).
  cbn [lookup list_lookup]. destruct (p !! i) as [b|] eqn:E.
  - destruct (bool_decide (b = xff)); [exact IH|reflexivity].
  - apply lookup_ge_None in E. lia.
Qed.

Lemma byte_succ x : x <> xff -> byte_to_Z (byte_of_Z (byte_to_Z x + 1)) = byte_to_Z x + 1.
Proof.
  intros H. rewrite byte_to_of_Z. pose proof (byte_to_Z_range x).
  assert (byte_to_Z x <> 255) by (intros E; apply H, byte_to_Z_inj, E).
  apply Z.mod_small. lia.
Qed.

Lemma in_prefix_range_cmp p k :
  (above_start (prefix_range p).1 k && below_end (prefix_range p).2 k)%bool = is_prefix p k.
Proof.
  revert k; induction p as [|x p IH]; intros k.
  - cbn. rewrite andb_true_r. now destruct k.
  - unfold prefix_range in *. cbn [fst snd above_start] in *. rewrite prefix_end_cons.
    destruct k as [|y k]; [now destruct (prefix_end p)|]. specialize (IH k). cbn [is_prefix].
    rewrite !lex_le_not_lt in *. destruct (bool_decide_reflect (x = y)) as [->|Hne].
    + rewrite lex_lt_cons. cbn [andb]. rewrite <- IH. f_equal.
      destruct (prefix_end p) as [e|]; cbn [below_end]; [apply lex_lt_cons|].
      case_bool_decide; [reflexivity|]. cbn. pose proof (byte_succ y H) as E.
      rewrite bool_decide_false by (intros F; rewrite <- F in E; lia).
      unfold byte_lt. rewrite E. apply Z.ltb_lt. lia.
    + cbn [andb]. cbn [lex_lt]. rewrite bool_decide_false by congruence.
      destruct (byte_lt y x) eqn:Hlt; [reflexivity|]. cbn [negb andb].
      assert (byte_to_Z x < byte_to_Z y) as Hxy.
      { apply Z.ltb_ge in Hlt. assert (byte_to_Z x <> byte_to_Z y) by
          (intros F; apply Hne, byte_to_Z_inj, F). lia. }
      assert (byte_lt y x = false) as Hyx by exact Hlt.
      destruct (prefix_end p) as [e|]; cbn [below_end].
      * cbn. rewrite bool_decide_false by congruence. exact Hyx.
      * case_bool_decide as F.
        { subst x. pose proof (byte_to_Z_range y). change (byte_to_Z xff) with 255 in Hxy. lia. }
        cbn. pose proof (byte_succ x F) as E. case_bool_decide as G.
        { subst y. now destruct k. }
        unfold byte_lt. rewrite E. apply Z.ltb_ge. lia.
Qed.

(** ** The properties *)

(** C37: Keycode is a bijection between the values of a delimited key shape
    and their encodings: [deserialize] yields a value exactly when the input
    is the [serialize] output of that (well-typed) value, so nothing is lost,
    no other byte string (trailing garbage, bad escape, unknown variant) is
    accepted, and serialization of a well-typed value never panics. *)
Theorem keycode_bijection (t : keytype) :
  delimited t = true ->
  (forall v, well_typed t v = true -> exists bs, serialize v = Ok bs) /\
  (forall v bs, deserialize t bs = Ok v <-> well_typed t v = true /\ serialize v = Ok bs).
Proof.
  intros Hd. split; [intros v Hv; exists (enc v); now apply (serialize_enc t)|].
  intros v bs. unfold deserialize. split.
  - destruct (deserialize_value t bs) as [[v'|e|p] rest] eqn:E; try discriminate.
    destruct rest; [|discriminate]. intros [= ->].
    apply deser_sound_typed in E as [Hv ->]; [|exact Hd]. split; [exact Hv|].
    rewrite app_nil_r. now apply (serialize_enc t).
  - intros [Hv Hs]. rewrite (serialize_enc t) in Hs by assumption. injection Hs as <-.
    rewrite <- (app_nil_r (enc v)). now rewrite (deser_ok_typed t Hd v Hv).
Qed.

(** The shape of an enum with a unit variant and a [(bool, u64, bytes)] one. *)
Definition example_shape : keytype := KEnum [[]; [KBool; KI64; KBytes]; [KStr; KF64]].

Lemma keycode_bijection_witness :
  delimited example_shape = true /\
  deserialize example_shape
    ([x01; x01] ++ [x7f; xff; xff; xff; xff; xff; xff; xfe] ++ [x61; x00; xff; x00; x00])
  = Ok (VEnum 1 [VBool true; VI64 (-2); VBytes [x61; x00]]).
Proof.
  split; [reflexivity|].
  apply (proj2 (keycode_bijection example_shape ltac:(reflexivity))). split; reflexivity.
Defined.

(** C36: Keycode preserves order: the lexicographic byte order of two encoded
    keys of one delimited shape is the natural order of the values ([false]
    before [true], signed and unsigned integers, the total order of floats on
    their bits, byte strings, then tuples and enum variants
    lexicographically), and two keys collide only if the values are equal.  In
    the total order the NaNs with the sign bit set come first and the others
    last, while the encoder's comment puts every NaN last
    ([keycode_nan_order]). *)
Theorem keycode_order (t : keytype) (u v : keyval) (a b : bytes) :
  delimited t = true -> well_typed t u = true -> well_typed t v = true ->
  serialize u = Ok a -> serialize v = Ok b ->
  lex_cmp a b = kv_cmp u v /\ (a = b <-> u = v).
Proof.
  intros Hd Hu Hv Ha Hb. rewrite (serialize_enc t) in Ha, Hb by assumption.
  injection Ha as <-. injection Hb as <-.
  destruct (order_ok_typed t Hd u v Hu Hv) as [H1 H2]. specialize (H1 [] []).
  rewrite !app_nil_r in H1. assert (lex_cmp (enc u) (enc v) = kv_cmp u v) as E.
  { rewrite H1. now destruct (kv_cmp u v). }
  split; [exact E|]. split; [|now intros ->]. intros F%lex_cmp_eq. apply H2. congruence.
Qed.

Lemma keycode_order_witness :
  exists a b, serialize (VEnum 1 [VBool true; VI64 (-2); VBytes [x61]]) = Ok a /\
    serialize (VEnum 1 [VBool true; VI64 3; VBytes []]) = Ok b /\ lex_cmp a b = Lt.
Proof.
  eexists _, _. split; [reflexivity|]. split; [reflexivity|].
  refine (proj1 (keycode_order example_shape (VEnum 1 [VBool true; VI64 (-2); VBytes [x61]])
    (VEnum 1 [VBool true; VI64 3; VBytes []]) _ _ _ _ _ _ _)); reflexivity.
Defined.

(** The keys of the NaNs: those with the sign bit set are before the key of
    minus infinity, the others after the key of infinity. *)
Lemma keycode_nan_order (bits : Z) :
  is_u64 bits ->
  (0xfff0000000000000 < bits -> encode_f64_key bits < encode_f64_key 0xfff0000000000000) /\
  (0x7ff0000000000000 < bits < 2 ^ 63 -> encode_f64_key 0x7ff0000000000000 < encode_f64_key bits).
Proof.
  intros Hb. rewrite !encode_f64_key_eq by (assumption || (split; vm_compute; discriminate)).
  change (0xfff0000000000000 <? 2 ^ 63) with false. change (0x7ff0000000000000 <? 2 ^ 63) with true. cbv iota.
  destruct (Z.ltb_spec bits (2 ^ 63)); split; lia.
Qed.

(** The executable byte-string codec: [encode_bytes] is the specified
    escaping, and [decode_bytes] returns a string and the number of bytes it
    took exactly when the input starts with the encoding of that string, in
    agreement with the specification parser; otherwise it reports one of the
    two errors. *)
Theorem decode_bytes_correct (s : bytes) :
  (forall v, encode_bytes v = bytes_enc v) /\
  match decode_bytes s with
  | Decoded d n => s = encode_bytes d ++ drop n s /\ n = length (encode_bytes d) /\
                   bytes_dec s = (d, drop n s)
  | InvalidEscape | UnexpectedEnd => forall v rest, s <> encode_bytes v ++ rest
  end.
Proof.
  split; [apply encode_bytes_enc|]. unfold decode_bytes.
  destruct (decode_bytes_loop s [] 0) as [d n| |] eqn:E.
  - pose proof (decode_bytes_loop_dec _ _ _ _ _ E) as (D & _ & R).
    apply decode_bytes_loop_sound in E as E2. destruct E2 as (v & Hv & Hs & _).
    cbn in D, Hv. subst v. rewrite Nat.sub_0_r in R, Hs. rewrite encode_bytes_enc.
    split; [exact Hs|]. split.
    + rewrite Hs, decode_bytes_loop_enc in E. now injection E as <-.
    + rewrite D at 1. rewrite R. now destruct (bytes_dec s).
  - intros v rest ->. rewrite encode_bytes_enc, decode_bytes_loop_enc in E. discriminate.
  - intros v rest ->. rewrite encode_bytes_enc, decode_bytes_loop_enc in E. discriminate.
Qed.

(** Sequences, which have no terminator, are still recovered when they are
    the last part of a key: deserializing reads elements until the input ends,
    and terminates. *)
Theorem keycode_seq_roundtrip (t : keytype) (vs : list keyval) :
  delimited t = true -> forallb (well_typed t) vs = true ->
  exists bs, serialize (VSeq vs) = Ok bs /\ deserialize (KSeq t) bs = Ok (VSeq vs).
Proof.
  intros Hd Hvs. exists (concat (map enc vs)).
  assert (Forall (fun v => well_typed t v = true) vs) as Hf.
  { rewrite forallb_forall in Hvs. now apply List.Forall_forall. }
  split.
  - unfold serialize. cbn [serialize_value]. rewrite st_iter_ser_ok; [reflexivity|].
    eapply Forall_impl; [exact Hf|]. intros v Hv. now apply (ser_ok_typed t).
  - unfold deserialize. cbn [deserialize_value]. unfold st_bind.
    rewrite visit_seq_all_ok; [reflexivity| |lia].
    eapply Forall_impl; [exact Hf|]. intros v Hv.
    split; [now apply (ser_ok_typed t)|now apply deser_ok_typed].
Qed.

Lemma keycode_seq_roundtrip_witness :
  exists bs, serialize (VSeq [VBytes [x61]; VBytes []]) = Ok bs /\
             deserialize (KSeq KBytes) bs = Ok (VSeq [VBytes [x61]; VBytes []]).
Proof. apply (keycode_seq_roundtrip KBytes); reflexivity. Defined.

(** A prefix scan is exact: the range [prefix_range p] contains a key iff
    the key starts with [p], also when [p] is empty or ends in [0xff] bytes. *)
Theorem prefix_range_exact (p k : bytes) : in_range (prefix_range p) k = is_prefix p k.
Proof. exact (in_prefix_range_cmp p k). Qed.
