(* ===== verification/Btree.v ===== *)
(** * [std::collections::BTreeMap] keyed by byte vectors

    The standard library map behind the memory engine and the BitCask keydir:
    an association list in strictly increasing key order.  Its abstraction is
    the finite map [btree_abs]; [scan_of] states what a range iterator yields
    of such a map. *)
From S2P Require Import Prelude Bytes.

Section Btree.
Context {V : Type}.
Implicit Types (m : list (bytes * V)) (k : bytes) (v : V).

Fixpoint btree_get m k : option V :=
  match m with
  | [] => None
  | (k', v) :: m' => if bool_decide (k = k') then Some v else btree_get m' k
  end.

Fixpoint btree_insert k v m : list (bytes * V) :=
  match m with
  | [] => [(k, v)]
  | (k', v') :: m' =>
      match lex_cmp k k' with
      | Lt => (k, v) :: m
      | Eq => (k, v) :: m'
      | Gt => (k', v') :: btree_insert k v m'
      end
  end.

Fixpoint btree_remove k m : list (bytes * V) :=
  match m with
  | [] => []
  | (k', v') :: m' => if bool_decide (k = k') then m' else (k', v') :: btree_remove k m'
  end.

Definition btree_range (r : key_range) m : outcome (list (bytes * V)) :=
  if range_ok r then Ok (List.filter (fun kv => in_range r kv.1) m)
  else Panic "range start is greater than range end in BTreeMap".

Definition key_lt (a b : bytes * V) : Prop := lex_lt a.1 b.1 = true.
Definition btree_wf m : Prop := StronglySorted key_lt m.
Definition btree_abs m : gmap bytes V := list_to_map m.

(** [l] lists the bindings of [M] in the range [r], in increasing key order. *)
Definition scan_of (r : key_range) (M : gmap bytes V) (l : list (bytes * V)) : Prop :=
  StronglySorted key_lt l /\
  forall k v, In (k, v) l <-> M !! k = Some v /\ in_range r k = true.

(** ** Lemmas *)
Lemma btree_get_abs m k : btree_get m k = btree_abs m !! k.
Proof.
  unfold btree_abs. induction m as [|[k' v] m IH]; [reflexivity|]. cbn [btree_get list_to_map].
  cbn. case_bool_decide as E; [subst; now rewrite lookup_insert_eq|].
  now rewrite lookup_insert_ne.
Qed.

Lemma btree_wf_cons k v m :
  btree_wf ((k, v) :: m) <->
  btree_wf m /\ (forall k' v', In (k', v') m -> lex_lt k k' = true).
Proof.
  split.
  - intros H. apply StronglySorted_inv in H as [H1 H2]. split; [exact H1|].
    rewrite List.Forall_forall in H2. intros k' v' Hin. apply (H2 _ Hin).
  - intros [H1 H2]. constructor; [exact H1|]. apply List.Forall_forall.
    intros [k' v'] Hin. exact (H2 _ _ Hin).
Qed.

Lemma btree_abs_fresh k v m : btree_wf ((k, v) :: m) -> btree_abs m !! k = None.
Proof.
  intros [_ H]%btree_wf_cons. apply not_elem_of_list_to_map_1. intros Hin.
  apply list_elem_of_fmap in Hin as ([k' v'] & -> & Hin). apply list_elem_of_In in Hin.
  specialize (H _ _ Hin). cbn in H. now rewrite lex_lt_irrefl in H.
Qed.

Lemma btree_abs_below k k' v' m :
  btree_wf ((k', v') :: m) -> lex_lt k k' = true -> btree_abs ((k', v') :: m) !! k = None.
Proof.
  intros [_ H]%btree_wf_cons Hlt. apply not_elem_of_list_to_map_1. intros Hin.
  apply list_elem_of_fmap in Hin as ([k2 v2] & -> & Hin). apply list_elem_of_In in Hin.
  destruct Hin as [[= <- <-]|Hin]; cbn in Hlt.
  - now rewrite lex_lt_irrefl in Hlt.
  - pose proof (lex_lt_trans _ _ _ Hlt (H _ _ Hin)) as F. now rewrite lex_lt_irrefl in F.
Qed.

Lemma In_btree_insert k v m k' v' :
  In (k', v') (btree_insert k v m) -> (k', v') = (k, v) \/ In (k', v') m.
Proof.
  induction m as [|[k2 v2] m IH]; cbn; [intuition|].
  destruct (lex_cmp k k2); cbn; intuition.
Qed.

Lemma btree_insert_wf k v m : btree_wf m -> btree_wf (btree_insert k v m).
Proof.
  induction m as [|[k' v'] m IH]; intros H; cbn; [constructor; auto using SSorted_nil|].
  apply btree_wf_cons in H as H'. destruct H' as [Hm Hlt].
  destruct (lex_cmp k k') eqn:E.
  - apply lex_cmp_eq in E as ->. now apply btree_wf_cons.
  - apply lex_lt_cmp in E. apply btree_wf_cons. split; [exact H|].
    intros k2 v2 [[= <- <-]|Hin]; [exact E|]. eapply lex_lt_trans; eauto.
  - apply btree_wf_cons. split; [now apply IH|]. intros k2 v2 Hin.
    apply In_btree_insert in Hin as [[= -> ->]|Hin]; [|eauto].
    apply lex_lt_cmp. rewrite lex_cmp_antisym, E. reflexivity.
Qed.

Lemma btree_insert_abs k v m : btree_abs (btree_insert k v m) = <[k := v]> (btree_abs m).
Proof.
  unfold btree_abs. induction m as [|[k' v'] m IH]; [reflexivity|]. cbn [btree_insert].
  destruct (lex_cmp k k') eqn:E; cbn.
  - apply lex_cmp_eq in E as ->. now rewrite insert_insert_eq.
  - reflexivity.
  - rewrite IH. rewrite insert_insert_ne; [reflexivity|].
    intros ->. now rewrite lex_cmp_refl in E.
Qed.

Lemma In_btree_remove k m kv : In kv (btree_remove k m) -> In kv m.
Proof.
  induction m as [|[k2 v2] m IH]; cbn; [tauto|]. case_bool_decide; cbn; intuition.
Qed.

Lemma btree_remove_wf k m : btree_wf m -> btree_wf (btree_remove k m).
Proof.
  induction m as [|[k' v'] m IH]; intros H; cbn; [exact H|].
  apply btree_wf_cons in H as [Hm Hlt]. case_bool_decide; [exact Hm|].
  apply btree_wf_cons. split; [auto|]. intros k2 v2 Hin%In_btree_remove. eauto.
Qed.

Lemma btree_remove_abs k m : btree_wf m -> btree_abs (btree_remove k m) = delete k (btree_abs m).
Proof.
  intros H. unfold btree_abs. induction m as [|[k' v'] m IH]; cbn.
  { now rewrite delete_empty. }
  pose proof (btree_abs_fresh _ _ _ H) as Hf.
  apply btree_wf_cons in H as [Hm Hlt]. case_bool_decide as E; cbn.
  - subst k'. rewrite delete_insert_id by exact Hf. reflexivity.
  - rewrite IH by exact Hm. now rewrite delete_insert_ne by congruence.
Qed.

Lemma btree_abs_In m k v : btree_wf m -> In (k, v) m <-> btree_abs m !! k = Some v.
Proof.
  intros H. unfold btree_abs. induction m as [|[k' v'] m IH]; cbn; [split; [tauto|discriminate]|].
  pose proof (btree_abs_fresh _ _ _ H) as Hf. apply btree_wf_cons in H as [Hm Hlt].
  specialize (IH Hm). destruct (decide (k' = k)) as [->|Hne].
  - rewrite lookup_insert_eq. split; [intros [[= ->]|Hin]|intros [= ->]; auto]; [reflexivity|].
    apply IH in Hin. unfold btree_abs in Hf. congruence.
  - rewrite lookup_insert_ne by exact Hne. rewrite <- IH. split; [intros [[=]|]; tauto|tauto].
Qed.

Lemma StronglySorted_filter {A} (R : A -> A -> Prop) f (l : list A) :
  StronglySorted R l -> StronglySorted R (List.filter f l).
Proof.
  induction 1 as [|a l _ IH Hf]; cbn; [constructor|]. destruct (f a); [|exact IH].
  constructor; [exact IH|]. rewrite List.Forall_forall in *. intros x [Hx _]%filter_In. auto.
Qed.

Lemma btree_range_scan r m :
  btree_wf m -> range_ok r = true ->
  exists l, btree_range r m = Ok l /\ scan_of r (btree_abs m) l.
Proof.
  intros H Hr. unfold btree_range. rewrite Hr. eexists. split; [reflexivity|]. split.
  - now apply StronglySorted_filter.
  - intros k v. rewrite filter_In, btree_abs_In by exact H. reflexivity.
Qed.

Lemma scan_of_NoDup r M l : scan_of r M l -> NoDup l.*1.
Proof.
  intros [H _]. induction H as [|a l _ IH Hf]; cbn; [constructor|]. constructor; [|exact IH].
  intros Hin. apply list_elem_of_fmap in Hin as (b & E & Hin). apply list_elem_of_In in Hin.
  rewrite List.Forall_forall in Hf. specialize (Hf _ Hin). unfold key_lt in Hf.
  rewrite E, lex_lt_irrefl in Hf. discriminate.
Qed.

Lemma sorted_ext (l1 l2 : list (bytes * V)) :
  StronglySorted key_lt l1 -> StronglySorted key_lt l2 -> (forall x, In x l1 <-> In x l2) -> l1 = l2.
Proof.
  apply StronglySorted_ext; unfold key_lt.
  - intros x F. now rewrite lex_lt_irrefl in F.
  - intros x y z. apply lex_lt_trans.
Qed.

(** A range of a map has one listing. *)
Lemma scan_of_unique r M l1 l2 : scan_of r M l1 -> scan_of r M l2 -> l1 = l2.
Proof.
  intros [S1 H1] [S2 H2]. apply sorted_ext; [exact S1|exact S2|].
  intros [k v]. now rewrite H1, H2.
Qed.
End Btree.

Lemma btree_abs_map {V W} (f : V -> W) (m : list (bytes * V)) :
  btree_abs (map (fun kv => (kv.1, f kv.2)) m) = f <$> btree_abs m.
Proof.
  unfold btree_abs. induction m as [|[k v] m IH]; cbn; [now rewrite fmap_empty|].
  now rewrite fmap_insert, IH.
Qed.

Lemma btree_wf_map {V W} (f : V -> W) (m : list (bytes * V)) :
  btree_wf m -> btree_wf (map (fun kv => (kv.1, f kv.2)) m).
Proof.
  unfold btree_wf. induction 1 as [|a l _ IH Hf]; cbn; constructor; [exact IH|].
  rewrite List.Forall_forall in *. intros x (y & <- & Hy)%in_map_iff. exact (Hf _ Hy).
Qed.

Lemma btree_range_map {V W} (f : V -> W) r (m : list (bytes * V)) :
  btree_range r (map (fun kv => (kv.1, f kv.2)) m) =
  outcome_map (map (fun kv => (kv.1, f kv.2))) (btree_range r m).
Proof.
  unfold btree_range. destruct (range_ok r); [|reflexivity]. cbn. f_equal.
  induction m as [|[k v] m IH]; cbn; [reflexivity|]. destruct (in_range r k); cbn; now rewrite IH.
Qed.
