(* ===== verification/Engine.v ===== *)
(** * The storage engine interface ([src/storage/engine.rs])

    [Engine] is the trait; [EngineReads] and [EngineWrites] state what an engine
    promises its clients (the MVCC layer and the Raft log): an invariant, and
    that every operation acts on the finite map [engine_abs] as its
    documentation says.  The clients are proved against them; the memory and
    BitCask files give the instances.  (The disk of a node that may stop, in
    [RaftDisk], has the reads of an engine, but its writes can fail.) *)
From S2P Require Import Prelude Bytes Keycode Btree.

(** Engine status. *)
Record Status : Type := mkStatus {
  status_name : string;
  status_keys : Z;
  status_size : Z;
  status_disk_size : Z;
  status_live_disk_size : Z;
}.

Definition garbage_disk_size (s : Status) : Z :=
  u64 (status_disk_size s - status_live_disk_size s).

(** The trait.  [get] and [scan] take [&mut self] only for the position of
    the underlying file, which every access sets first, so they are functions
    of the engine.  A scan is the sequence of items its iterator yields;
    [scan_dyn] is the same operation behind a trait object. *)
Class Engine (E : Type) : Type := {
  engine_delete : bytes -> stM E unit;
  engine_flush : stM E unit;
  engine_get : bytes -> E -> outcome (option bytes);
  engine_scan : key_range -> E -> outcome (list (outcome (bytes * bytes)));
  engine_set : bytes -> bytes -> stM E unit;
  engine_status : E -> outcome Status;
}.

Definition engine_scan_prefix {E} `{Engine E} (prefix : bytes) (e : E) :
    outcome (list (outcome (bytes * bytes))) :=
  engine_scan (prefix_range prefix) e.

(** The logical size of a map: the lengths of its keys and values. *)
Definition map_bytes (M : gmap bytes bytes) : Z :=
  map_fold (fun k v acc => Z.of_nat (length k + length v) + acc) 0 M.

(** What the reads promise. *)
Class EngineReads (E : Type) `{Engine E} : Type := {
  engine_inv : E -> Prop;
  engine_abs : E -> gmap bytes bytes;
  engine_get_spec e k : engine_inv e -> engine_get k e = Ok (engine_abs e !! k);
  engine_scan_spec e r :
    engine_inv e -> range_ok r = true ->
    exists l, engine_scan r e = Ok (map Ok l) /\ scan_of r (engine_abs e) l;
  engine_status_spec e :
    engine_inv e ->
    exists st, engine_status e = Ok st /\ status_keys st = Z.of_nat (size (engine_abs e)) /\
               status_size st = map_bytes (engine_abs e);
}.

(** What the writes promise. *)
Class EngineWrites (E : Type) `{EngineReads E} : Prop := {
  engine_set_spec e k v :
    engine_inv e ->
    exists e', engine_set k v e = (Ok tt, e') /\ engine_inv e' /\
               engine_abs e' = <[k := v]> (engine_abs e);
  engine_delete_spec e k :
    engine_inv e ->
    exists e', engine_delete k e = (Ok tt, e') /\ engine_inv e' /\
               engine_abs e' = delete k (engine_abs e);
  engine_flush_spec e :
    engine_inv e ->
    exists e', engine_flush e = (Ok tt, e') /\ engine_inv e' /\ engine_abs e' = engine_abs e;
}.

(** Sequences of writes, on an engine and on a finite map. *)
Inductive engine_op : Type :=
  | OpSet (k v : bytes)
  | OpDelete (k : bytes)
  | OpFlush.

Definition run_op {E} `{Engine E} (op : engine_op) : stM E unit :=
  match op with
  | OpSet k v => engine_set k v
  | OpDelete k => engine_delete k
  | OpFlush => engine_flush
  end.

Definition map_op (M : gmap bytes bytes) (op : engine_op) : gmap bytes bytes :=
  match op with
  | OpSet k v => <[k := v]> M
  | OpDelete k => delete k M
  | OpFlush => M
  end.

Lemma map_bytes_insert M k v :
  M !! k = None ->
  map_bytes (<[k := v]> M) = Z.of_nat (length k + length v) + map_bytes M.
Proof.
  intros H. unfold map_bytes. rewrite map_fold_insert_L; [reflexivity| |exact H]. intros; lia.
Qed.

(** Counting over a sorted list of bindings is counting over its map. *)
Lemma btree_abs_size {V} (m : list (bytes * V)) : btree_wf m -> size (btree_abs m) = length m.
Proof.
  induction m as [|[k v] m IH]; intros H; [apply map_size_empty|].
  pose proof (btree_abs_fresh _ _ _ H) as Hf. apply btree_wf_cons in H as [Hm _].
  change (btree_abs ((k, v) :: m)) with (<[k := v]> (btree_abs m)).
  rewrite map_size_insert_None by exact Hf. cbn. now rewrite IH.
Qed.

Lemma btree_abs_bytes (m : list (bytes * bytes)) :
  btree_wf m ->
  foldr (fun '(k, v) acc => Z.of_nat (length k + length v) + acc) 0 m = map_bytes (btree_abs m).
Proof.
  induction m as [|[k v] m IH]; intros H; [reflexivity|].
  pose proof (btree_abs_fresh _ _ _ H) as Hf. apply btree_wf_cons in H as [Hm _].
  change (btree_abs ((k, v) :: m)) with (<[k := v]> (btree_abs m)).
  rewrite map_bytes_insert by exact Hf. cbn [foldr]. now rewrite IH.
Qed.

Section EngineLemmas.
Context {E : Type} `{EngineReads E} {EW : EngineWrites E}.

Lemma range_ok_prefix p : range_ok (prefix_range p) = true.
Proof.
  unfold prefix_range. destruct (prefix_end p) as [e|] eqn:Hp; [|reflexivity]. cbn.
  revert e Hp. unfold prefix_end. generalize (length p) as n. induction n as [|n IH]; [discriminate|].
  intros e. cbn [prefix_end_loop]. destruct (p !! n) as [b|] eqn:Hb; [|discriminate].
  case_bool_decide as Hff; [apply IH|]. intros [= <-].
  rewrite <- (take_drop_middle p n b Hb) at 1. rewrite lex_le_spec, lex_lt_app_same. right. cbn.
  assert (byte_to_Z (byte_of_Z (byte_to_Z b + 1)) = byte_to_Z b + 1) as Hs.
  { rewrite byte_to_of_Z. apply Z.mod_small. pose proof (byte_to_Z_range b).
    assert (byte_to_Z b <> 255) by (intros F; apply Hff, byte_to_Z_inj, F). lia. }
  rewrite bool_decide_false by (intros F; rewrite <- F in Hs; lia).
  apply byte_lt_spec. lia.
Qed.

Lemma run_ops_spec ops e :
  engine_inv e ->
  exists e', st_iter run_op ops e = (Ok tt, e') /\ engine_inv e' /\
             engine_abs e' = foldl map_op (engine_abs e) ops.
Proof.
  revert e; induction ops as [|op ops IH]; intros e He; cbn; [eauto|].
  assert (exists e1, run_op op e = (Ok tt, e1) /\ engine_inv e1 /\
                     engine_abs e1 = map_op (engine_abs e) op) as (e1 & E1 & Hi1 & A1).
  { destruct op; [apply engine_set_spec|apply engine_delete_spec|apply engine_flush_spec]; exact He. }
  destruct (IH e1 Hi1) as (e2 & E2 & Hi2 & A2). exists e2. unfold st_bind.
  rewrite E1, E2. split; [reflexivity|]. split; [exact Hi2|]. now rewrite A2, A1.
Qed.

(** Deleting a list of keys one by one. *)
Definition delete_all (ks : list bytes) (M : gmap bytes bytes) : gmap bytes bytes :=
  foldl (fun m k => delete k m) M ks.

Lemma lookup_delete_all ks M k :
  delete_all ks M !! k = if decide (k ∈ ks) then None else M !! k.
Proof.
  unfold delete_all. revert M; induction ks as [|k' ks IH]; intros M; cbn.
  { now rewrite decide_False by apply not_elem_of_nil. }
  rewrite IH. destruct (decide (k ∈ ks)) as [Hin|Hin].
  { now rewrite decide_True by (apply elem_of_cons; auto). }
  destruct (decide (k = k')) as [->|Hne].
  - rewrite lookup_delete_eq. now rewrite decide_True by (apply elem_of_cons; auto).
  - rewrite lookup_delete_ne by congruence.
    rewrite decide_False; [reflexivity|]. rewrite elem_of_cons. tauto.
Qed.

Lemma st_iter_delete ks e :
  engine_inv e ->
  exists e', st_iter engine_delete ks e = (Ok tt, e') /\ engine_inv e' /\
             engine_abs e' = delete_all ks (engine_abs e).
Proof.
  revert e; induction ks as [|k ks IH]; intros e He; cbn; [eauto|].
  destruct (engine_delete_spec e k He) as (e1 & E1 & Hi1 & A1).
  destruct (IH e1 Hi1) as (e2 & E2 & Hi2 & A2).
  exists e2. unfold st_bind. rewrite E1, E2. split; [reflexivity|]. split; [exact Hi2|].
  now rewrite A2, A1.
Qed.
End EngineLemmas.
