(* ===== verification/Memory.v ===== *)
(** * The in-memory storage engine ([src/storage/memory.rs]) *)
From S2P Require Import Prelude Bytes Keycode Btree Engine.

Definition Memory : Type := list (bytes * bytes).

Definition memory_new : Memory := [].
Definition memory_delete (k : bytes) : stM Memory unit := st_modify (btree_remove k).
Definition memory_flush : stM Memory unit := st_ret tt.
Definition memory_get (k : bytes) (m : Memory) : outcome (option bytes) := Ok (btree_get m k).
Definition memory_scan (r : key_range) (m : Memory) : outcome (list (outcome (bytes * bytes))) :=
  outcome_map (map (fun '(k, v) => Ok (k, v))) (btree_range r m).
Definition memory_set (k v : bytes) : stM Memory unit := st_modify (btree_insert k v).
Definition memory_status (m : Memory) : outcome Status :=
  Ok (mkStatus "memory" (Z.of_nat (length m))
        (foldr (fun '(k, v) acc => Z.of_nat (length k + length v) + acc) 0 m) 0 0).

#[export] Instance memory_engine : Engine Memory := {
  engine_delete := memory_delete;
  engine_flush := memory_flush;
  engine_get := memory_get;
  engine_scan := memory_scan;
  engine_set := memory_set;
  engine_status := memory_status;
}.

#[export] Instance memory_reads : EngineReads Memory.
Proof.
  refine {| engine_inv := (btree_wf : Memory -> Prop); engine_abs := (btree_abs : Memory -> _) |}.
  - intros e k _. cbn. unfold memory_get. now rewrite btree_get_abs.
  - intros e r He Hr. destruct (btree_range_scan r e He Hr) as (l & E & Hl).
    exists l. cbn. unfold memory_scan. rewrite E. cbn. split; [|exact Hl].
    f_equal. apply map_ext. now intros [].
  - intros e He. eexists. split; [reflexivity|]. cbn.
    now rewrite btree_abs_size, btree_abs_bytes by exact He.
Defined.
#[export] Instance memory_writes : EngineWrites Memory.
Proof.
  split.
  - intros e k v He. exists (btree_insert k v e). split; [reflexivity|].
    split; [now apply btree_insert_wf|apply btree_insert_abs].
  - intros e k He. exists (btree_remove k e). split; [reflexivity|].
    split; [now apply btree_remove_wf|now apply btree_remove_abs].
  - intros e He. exists e. auto.
Qed.

Lemma memory_new_inv : engine_inv memory_new.
Proof. constructor. Qed.

(** The memory engine implements the storage interface: any sequence of
    [set], [delete] and [flush] from an empty engine succeeds, and afterwards
    [get], [scan] and [status] observe exactly the finite map the operations
    build: scans list the bindings within their bounds in key order, and panic
    on an inverted range. *)
Theorem memory_refines_map (ops : list engine_op) :
  exists m, st_iter run_op ops memory_new = (Ok tt, m) /\
    let M := foldl map_op ∅ ops in
    (forall k, memory_get k m = Ok (M !! k)) /\
    (forall r, if range_ok r
               then exists l, memory_scan r m = Ok (map Ok l) /\ scan_of r M l
               else exists p, memory_scan r m = Panic p) /\
    (exists st, memory_status m = Ok st /\ status_keys st = Z.of_nat (size M) /\
                status_size st = map_bytes M).
Proof.
  destruct (run_ops_spec ops memory_new memory_new_inv) as (m & E & Hi & A).
  exists m. split; [exact E|]. cbv zeta. change (engine_abs memory_new) with (∅ : gmap bytes bytes) in A.
  rewrite <- A. repeat split.
  - intros k. exact (engine_get_spec m k Hi).
  - intros r. destruct (range_ok r) eqn:Hr; [exact (engine_scan_spec m r Hi Hr)|].
    unfold memory_scan, btree_range. rewrite Hr. cbn. eauto.
  - exact (engine_status_spec m Hi).
Qed.
