(* ===== verification/Bitcask.v ===== *)
(** * The BitCask storage engine ([src/storage/bitcask.rs])

    The log file is its byte contents; every access seeks to an absolute
    offset first, so the file position is not part of the state.  Paths, file
    locks and operating-system IO failures are not modelled: a read fails only
    when the file is too short.  Offsets and in-memory lengths are [nat] (a
    file is far smaller than the u64 range); the length fields of an entry are
    the truncating casts [as u32] and [as i32] of the source. *)
From Stdlib.Floats Require Import SpecFloat.
From S2P Require Import Prelude Bytes Keycode Btree Engine.

(** ** Definitions *)
Record ValueLocation : Type := mkLoc { loc_offset : nat; loc_length : nat }.
Definition loc_end (l : ValueLocation) : nat := (loc_offset l + loc_length l)%nat.

Definition KeyDir : Type := list (bytes * ValueLocation).
Record Log : Type := mkLog { log_file : bytes }.
Record BitCask : Type := mkBitCask { bc_log : Log; bc_keydir : KeyDir }.

(** [Read::read_exact] at a position; [None] is [UnexpectedEof]. *)
Definition read_exact (file : bytes) (pos n : nat) : option bytes :=
  if (length file <? pos + n)%nat then None else Some (take n (drop pos file)).

(** The closure of [build_keydir]: the key, the value location ([None] for a
    tombstone) and the offset after the entry; [None] is [UnexpectedEof]. *)
Definition read_entry (file : bytes) (offset : nat) :
    option (bytes * option ValueLocation * nat) :=
  match read_exact file offset 4 with
  | None => None
  | Some kl =>
    let key_len := Z.to_nat (from_be_bytes kl) in
    match read_exact file (offset + 4) 4 with
    | None => None
    | Some vl =>
      let len := i32 (from_be_bytes vl) in
      let value_loc :=
        if len <? 0 then None else Some (mkLoc (offset + 8 + key_len) (Z.to_nat len)) in
      match read_exact file (offset + 8) key_len with
      | None => None
      | Some key =>
        match value_loc with
        | Some loc =>
            if (length file <? loc_end loc)%nat then None
            else Some (key, value_loc, (offset + (8 + key_len + loc_length loc))%nat)
        | None => Some (key, None, (offset + (8 + key_len + 0))%nat)
        end
      end
    end
  end.

(** The [while offset < file_len] loop: the keydir, and the offset to truncate
    the file at if an incomplete entry was found.  Every entry takes at least
    eight bytes, so a fuel of the file length is never exhausted. *)
Fixpoint build_keydir_loop (fuel : nat) (file : bytes) (offset : nat) (keydir : KeyDir) :
    outcome (KeyDir * option nat) :=
  match fuel with
  | O => Panic "fuel exhausted"
  | S fuel' =>
      if (offset <? length file)%nat then
        match read_entry file offset with
        | Some (key, Some loc, offset') =>
            build_keydir_loop fuel' file offset' (btree_insert key loc keydir)
        | Some (key, None, offset') =>
            build_keydir_loop fuel' file offset' (btree_remove key keydir)
        | None => Ok (keydir, Some offset)
        end
      else Ok (keydir, None)
  end.

Definition build_keydir : stM Log KeyDir := fun log =>
  match build_keydir_loop (S (length (log_file log))) (log_file log) 0 [] with
  | Ok (keydir, Some offset) => (Ok keydir, mkLog (take offset (log_file log)))
  | Ok (keydir, None) => (Ok keydir, log)
  | Err e => (Err e, log)
  | Panic p => (Panic p, log)
  end.

Definition read_value (location : ValueLocation) (log : Log) : outcome bytes :=
  match read_exact (log_file log) (loc_offset location) (loc_length location) with
  | Some v => Ok v
  | None => Err (IO "failed to fill whole buffer")
  end.

Definition write_entry (key : bytes) (value : option bytes) : stM Log ValueLocation :=
  fun log =>
    let offset := length (log_file log) in
    let value_len := match value with Some v => i32 (Z.of_nat (length v)) | None => -1 end in
    let file' := log_file log
      ++ to_be_bytes 4 (u32 (Z.of_nat (length key)))
      ++ to_be_bytes 4 value_len
      ++ key
      ++ match value with Some v => v | None => [] end in
    (Ok (mkLoc (offset + 8 + length key)
           match value with Some v => length v | None => 0%nat end),
     mkLog file').

(** [BitCask::new] on a file with the given contents. *)
Definition bitcask_new (file : bytes) : outcome BitCask :=
  match build_keydir (mkLog file) with
  | (Ok keydir, log) => Ok (mkBitCask log keydir)
  | (Err e, _) => Err e
  | (Panic p, _) => Panic p
  end.

Definition with_log {A} (f : stM Log A) : stM BitCask A := fun b =>
  match f (bc_log b) with (r, log) => (r, mkBitCask log (bc_keydir b)) end.
Definition set_keydir (f : KeyDir -> KeyDir) : stM BitCask unit :=
  st_modify (fun b => mkBitCask (bc_log b) (f (bc_keydir b))).

Definition bitcask_delete (key : bytes) : stM BitCask unit :=
  with_log (write_entry key None) ;;;
  set_keydir (btree_remove key).

Definition bitcask_flush : stM BitCask unit := st_ret tt.

Definition bitcask_get (key : bytes) (b : BitCask) : outcome (option bytes) :=
  match btree_get (bc_keydir b) key with
  | None => Ok None
  | Some location => outcome_map Some (read_value location (bc_log b))
  end.

Definition scan_item (log : Log) (item : bytes * ValueLocation) : outcome (bytes * bytes) :=
  let '(key, loc) := item in
  let? value := read_value loc log in Ok (key, value).

Definition bitcask_scan (r : key_range) (b : BitCask) : outcome (list (outcome (bytes * bytes))) :=
  outcome_map (map (scan_item (bc_log b))) (btree_range r (bc_keydir b)).

Definition bitcask_set (key value : bytes) : stM BitCask unit :=
  let! loc := with_log (write_entry key (Some value)) in
  set_keydir (btree_insert key loc).

Definition bitcask_status (b : BitCask) : outcome Status :=
  let keys := Z.of_nat (length (bc_keydir b)) in
  let size := foldr (fun '(key, loc) acc => Z.of_nat (length key + loc_length loc) + acc) 0
                (bc_keydir b) in
  let disk_size := Z.of_nat (length (log_file (bc_log b))) in
  Ok (mkStatus "bitcask" keys size disk_size (size + 8 * keys)).

(** The loop of [compact]: reads each live value from the old log and appends
    it to the new one. *)
Fixpoint compact_loop (old : Log) (live : KeyDir) (new_log : Log) (new_keydir : KeyDir) :
    outcome (Log * KeyDir) :=
  match live with
  | [] => Ok (new_log, new_keydir)
  | (key, loc) :: live' =>
      let? value := read_value loc old in
      match write_entry key (Some value) new_log with
      | (Ok loc', new_log') => compact_loop old live' new_log' (btree_insert key loc' new_keydir)
      | (Err e, _) => Err e
      | (Panic p, _) => Panic p
      end
  end.

Definition compact : stM BitCask unit := fun b =>
  match compact_loop (bc_log b) (bc_keydir b) (mkLog []) [] with
  | Ok (new_log, new_keydir) => (Ok tt, mkBitCask new_log new_keydir)
  | Err e => (Err e, b)
  | Panic p => (Panic p, b)
  end.

(** [z as f64] and f64 division and comparison, in IEEE-754 binary64. *)
Definition f64_of_u64 (z : Z) : spec_float := binary_normalize 53 1024 z 0 false.
Definition f64_div (a b : spec_float) : spec_float := SFdiv 53 1024 a b.

Definition new_maybe_compact (file : bytes) (garbage_min_fraction : spec_float)
    (garbage_min_bytes : Z) : outcome BitCask :=
  let? engine := bitcask_new file in
  let? status := bitcask_status engine in
  let total_size := status_disk_size status in
  let garbage_size := garbage_disk_size status in
  let garbage_fraction := f64_div (f64_of_u64 garbage_size) (f64_of_u64 total_size) in
  if (0 <? garbage_size) && (garbage_min_bytes <=? garbage_size)
     && SFleb garbage_min_fraction garbage_fraction then
    match compact engine with
    | (Ok _, engine') => Ok engine'
    | (Err e, _) => Err e
    | (Panic p, _) => Panic p
    end
  else Ok engine.

(** ** The map a BitCask engine represents *)
Definition slice (file : bytes) (l : ValueLocation) : bytes :=
  take (loc_length l) (drop (loc_offset l) file).
Definition in_bounds (file : bytes) (kd : KeyDir) : Prop :=
  forall k l, In (k, l) kd -> (loc_end l <= length file)%nat.
Definition bitcask_inv (b : BitCask) : Prop :=
  btree_wf (bc_keydir b) /\ in_bounds (log_file (bc_log b)) (bc_keydir b).
Definition keydir_abs (file : bytes) (kd : KeyDir) : gmap bytes bytes := slice file <$> btree_abs kd.
Definition bitcask_abs (b : BitCask) : gmap bytes bytes :=
  keydir_abs (log_file (bc_log b)) (bc_keydir b).

(** ** The entries of a log file *)
Definition entry : Type := bytes * option bytes.
Definition enc_entry (e : entry) : bytes :=
  to_be_bytes 4 (u32 (Z.of_nat (length e.1)))
  ++ to_be_bytes 4 match e.2 with Some v => i32 (Z.of_nat (length v)) | None => -1 end
  ++ e.1 ++ match e.2 with Some v => v | None => [] end.
Definition value_of (e : entry) : bytes := match e.2 with Some v => v | None => [] end.
Definition enc_log (es : list entry) : bytes := concat (map enc_entry es).

(** The sizes the format documents: keys below 4 GB, values below 2 GB. *)
Definition fits (e : entry) : Prop :=
  Z.of_nat (length e.1) < 2 ^ 32 /\ Z.of_nat (length (value_of e)) < 2 ^ 31.

Definition apply_entry (M : gmap bytes bytes) (e : entry) : gmap bytes bytes :=
  match e with (k, Some v) => <[k := v]> M | (k, None) => delete k M end.

Fixpoint replay (offset : nat) (es : list entry) (kd : KeyDir) : KeyDir :=
  match es with
  | [] => kd
  | (k, v) :: es' =>
      replay (offset + length (enc_entry (k, v))) es'
        match v with
        | Some v => btree_insert k (mkLoc (offset + 8 + length k) (length v)) kd
        | None => btree_remove k kd
        end
  end.

(** The database whose log holds the entries [es]. *)
Definition db_of (es : list entry) : BitCask := mkBitCask (mkLog (enc_log es)) (replay 0 es []).

(** The entries that are wholly within the first [n] bytes of a log. *)
Fixpoint complete (n : nat) (es : list entry) : list entry :=
  match es with
  | [] => []
  | e :: es' =>
      if (length (enc_entry e) <=? n)%nat then e :: complete (n - length (enc_entry e)) es' else []
  end.

(** The live entries a compaction writes, in key order. *)
Definition live_entries (b : BitCask) : list entry :=
  map (fun kl => (kl.1, Some (slice (log_file (bc_log b)) kl.2))) (bc_keydir b).

(** The write operations as log entries. *)
Definition op_entries (op : engine_op) : list entry :=
  match op with
  | OpSet k v => [(k, Some v)]
  | OpDelete k => [(k, None)]
  | OpFlush => []
  end.

#[export] Instance bitcask_engine : Engine BitCask := {
  engine_delete := bitcask_delete;
  engine_flush := bitcask_flush;
  engine_get := bitcask_get;
  engine_scan := bitcask_scan;
  engine_set := bitcask_set;
  engine_status := bitcask_status;
}.
