(* ===== verification/BitcaskTheory.v ===== *)
(** * Correctness of the BitCask engine

    The engine implements the storage interface, opening a log recovers the
    database that wrote it whatever suffix of the file was lost, and compaction
    changes neither the contents nor the recoverability. *)
From Stdlib.Floats Require Import SpecFloat.
From S2P Require Import Prelude Bytes Keycode Btree Engine Bitcask.

#[local] Arguments enc_entry : simpl never.
#[local] Arguments to_be_bytes : simpl never.
#[local] Arguments btree_abs : simpl never.
#[local] Arguments Nat.leb : simpl never.

(** ** Reading files *)
Lemma read_exact_take file m pos n :
  (m <= length file)%nat ->
  read_exact (take m file) pos n = if (m <? pos + n)%nat then None else read_exact file pos n.
Proof.
  intros Hm. unfold read_exact. rewrite length_take_le by exact Hm.
  destruct (Nat.ltb_spec m (pos + n)); [reflexivity|].
  destruct (Nat.ltb_spec (length file) (pos + n)); [lia|].
  f_equal. rewrite skipn_firstn_comm, firstn_firstn. f_equal. lia.
Qed.

Lemma read_exact_app p x s : read_exact (p ++ x ++ s) (length p) (length x) = Some x.
Proof.
  unfold read_exact. rewrite !length_app.
  destruct (Nat.ltb_spec (length p + (length x + length s)) (length p + length x)); [lia|].
  now rewrite drop_app_length, take_app_length.
Qed.

Lemma cut_short m (x : option (bytes * option ValueLocation * nat)) :
  (forall k l o, x = Some (k, l, o) -> (m < o)%nat) ->
  None = match x with
         | Some (k, l, o) => if (o <=? m)%nat then Some (k, l, o) else None
         | None => None
         end.
Proof.
  intros H. destruct x as [[[k l] o]|]; [|reflexivity].
  specialize (H _ _ _ eq_refl). destruct (Nat.leb_spec o m); [lia|reflexivity].
Qed.

(** Cutting a file loses exactly the entries that end after the cut. *)
Lemma read_entry_take file m off :
  (m <= length file)%nat ->
  read_entry (take m file) off =
  match read_entry file off with
  | Some (k, l, off') => if (off' <=? m)%nat then Some (k, l, off') else None
  | None => None
  end.
Proof.
  intros Hm. unfold read_entry. rewrite !read_exact_take by exact Hm.
  destruct (Nat.ltb_spec m (off + 4)) as [H1|H1].
  { apply cut_short. intros k l o E. repeat (case_hyp E; try discriminate); inv E; lia. }
  destruct (read_exact file off 4) as [kl|]; [|reflexivity].
  destruct (Nat.ltb_spec m (off + 4 + 4)) as [H2|H2].
  { apply cut_short. intros k l o E. repeat (case_hyp E; try discriminate); inv E; lia. }
  destruct (read_exact file (off + 4) 4) as [vl|]; [|reflexivity].
  rewrite read_exact_take by exact Hm. rewrite length_take_le by exact Hm.
  set (kn := Z.to_nat (from_be_bytes kl)). set (len := i32 (from_be_bytes vl)).
  destruct (Nat.ltb_spec m (off + 8 + kn)) as [H3|H3].
  { apply cut_short. intros k l o E. repeat (case_hyp E; try discriminate); inv E; lia. }
  destruct (read_exact file (off + 8) kn) as [key|]; [|reflexivity].
  destruct (len <? 0).
  - destruct (Nat.leb_spec (off + (8 + kn + 0)) m); [reflexivity|lia].
  - unfold loc_end; cbn [loc_offset loc_length].
    destruct (Nat.ltb_spec m (off + 8 + kn + Z.to_nat len)), 
      (Nat.ltb_spec (length file) (off + 8 + kn + Z.to_nat len)); try lia; try reflexivity.
    + destruct (Nat.leb_spec (off + (8 + kn + Z.to_nat len)) m); [lia|reflexivity].
    + destruct (Nat.leb_spec (off + (8 + kn + Z.to_nat len)) m); [reflexivity|lia].
Qed.

Lemma length_enc_entry e :
  length (enc_entry e) = (8 + length e.1 + length (value_of e))%nat.
Proof.
  destruct e as [k [v|]]; unfold enc_entry, value_of; cbn [fst snd];
    rewrite !length_app, !length_to_be_bytes; lia.
Qed.

Definition entry_loc (off : nat) (e : entry) : option ValueLocation :=
  match e.2 with
  | Some v => Some (mkLoc (off + 8 + length e.1) (length v))
  | None => None
  end.

Lemma i32_len_decode z : -1 <= z < 2 ^ 31 -> i32 (from_be_bytes (to_be_bytes 4 (i32 z))) = i32 z.
Proof.
  intros Hz. rewrite from_to_be_bytes.
  change (256 ^ Z.of_nat 4) with (2 ^ 32). unfold i32, wrap_s.
  change (32 - 1) with 31.
  rewrite (Z.mod_small (z + 2 ^ 31)) by lia.
  destruct (decide (z = -1)) as [->|Hne]; [reflexivity|].
  rewrite (Z.mod_small (z + 2 ^ 31 - 2 ^ 31)) by lia. rewrite Z.mod_small; lia.
Qed.

Lemma i32_small z : -1 <= z < 2 ^ 31 -> i32 z = z.
Proof.
  intros Hz. unfold i32, wrap_s. change (32 - 1) with 31. rewrite Z.mod_small; lia.
Qed.

Lemma read_entry_ok p e s :
  fits e ->
  read_entry (p ++ enc_entry e ++ s) (length p) =
  Some (e.1, entry_loc (length p) e, (length p + length (enc_entry e))%nat).
Proof.
  intros [Hk Hv]. destruct e as [k v]. rewrite length_enc_entry.
  unfold enc_entry, entry_loc, value_of in *. cbn [fst snd] in *.
  set (K := to_be_bytes 4 (u32 (Z.of_nat (length k)))).
  set (n := match v with Some v => Z.of_nat (length v) | None => -1 end).
  assert (-1 <= n < 2 ^ 31) as Hn by (unfold n; destruct v; cbn in Hv |- *; lia).
  set (V := to_be_bytes 4 match v with Some v0 => i32 (Z.of_nat (length v0)) | None => -1 end).
  set (W := match v with Some v => v | None => [] end).
  assert (V = to_be_bytes 4 (i32 n)) as HV by (unfold V, n; destruct v; reflexivity).
  assert (length K = 4%nat) as LK by apply length_to_be_bytes.
  assert (length V = 4%nat) as LV by apply length_to_be_bytes.
  assert (Z.to_nat (from_be_bytes K) = length k) as EK.
  { unfold K. rewrite from_to_be_bytes. unfold u32, wrap_u. change (256 ^ Z.of_nat 4) with (2 ^ 32).
    rewrite Zmod_mod, Z.mod_small by lia. lia. }
  assert (i32 (from_be_bytes V) = n) as EV.
  { rewrite HV, i32_len_decode by exact Hn. now apply i32_small. }
  unfold read_entry. rewrite <- !app_assoc.
  pose proof (read_exact_app p K (V ++ k ++ W ++ s)) as R1. rewrite LK in R1. rewrite R1.
  pose proof (read_exact_app (p ++ K) V (k ++ W ++ s)) as R2.
  rewrite length_app, LK, LV, <- app_assoc in R2. rewrite R2.
  pose proof (read_exact_app (p ++ K ++ V) k (W ++ s)) as R3.
  rewrite !length_app, LK, LV, <- !app_assoc in R3. rewrite EK, EV.
  replace (length p + (4 + 4))%nat with (length p + 8)%nat in R3 by lia. rewrite R3.
  unfold n, W. destruct v as [v|]; [|cbn; do 2 f_equal; lia].
  destruct (Z.ltb_spec (Z.of_nat (length v)) 0); [lia|].
  unfold loc_end; cbn [loc_offset loc_length]. rewrite Nat2Z.id.
  destruct (Nat.ltb_spec (length (p ++ K ++ V ++ k ++ v ++ s)) (length p + 8 + length k + length v))
    as [F|_]; [rewrite !length_app, LK, LV in F; lia|].
  reflexivity.
Qed.

(** ** The log as a sequence of entries *)
Lemma enc_log_app es1 es2 : enc_log (es1 ++ es2) = enc_log es1 ++ enc_log es2.
Proof. unfold enc_log. now rewrite map_app, concat_app. Qed.

Lemma enc_log_cons e es : enc_log (e :: es) = enc_entry e ++ enc_log es.
Proof. reflexivity. Qed.

Lemma enc_log_one e : enc_log [e] = enc_entry e.
Proof. apply app_nil_r. Qed.

Lemma replay_app off es1 es2 kd :
  replay off (es1 ++ es2) kd = replay (off + length (enc_log es1)) es2 (replay off es1 kd).
Proof.
  revert off kd; induction es1 as [|[k v] es1 IH]; intros off kd.
  { cbn. f_equal. lia. }
  cbn [app replay]. rewrite IH. rewrite enc_log_cons, length_app. f_equal. lia.
Qed.

Lemma replay_wf off es kd : btree_wf kd -> btree_wf (replay off es kd).
Proof.
  revert off kd; induction es as [|[k [v|]] es IH]; intros off kd H; cbn; [exact H| |].
  - now apply IH, btree_insert_wf.
  - now apply IH, btree_remove_wf.
Qed.

Lemma keydir_abs_ext file s kd :
  in_bounds file kd -> keydir_abs (file ++ s) kd = keydir_abs file kd.
Proof.
  intros Hb. unfold keydir_abs. apply map_eq. intros k. rewrite !lookup_fmap.
  destruct (btree_abs kd !! k) as [l|] eqn:E; [|reflexivity]. cbn. f_equal.
  apply elem_of_list_to_map_2, list_elem_of_In in E. specialize (Hb _ _ E). unfold loc_end in Hb.
  unfold slice. rewrite drop_app_le, take_app_le; [reflexivity| |lia].
  rewrite length_drop. lia.
Qed.

Lemma in_bounds_app file s kd : in_bounds file kd -> in_bounds (file ++ s) kd.
Proof. intros H k l Hin. rewrite length_app. specialize (H _ _ Hin). lia. Qed.

Lemma slice_entry p k v s :
  slice (p ++ enc_entry (k, Some v) ++ s) (mkLoc (length p + 8 + length k) (length v)) = v.
Proof.
  unfold slice, enc_entry. cbn [fst snd loc_offset loc_length].
  set (A := to_be_bytes 4 _). set (B := to_be_bytes 4 _).
  replace (p ++ (A ++ B ++ k ++ v) ++ s) with ((p ++ A ++ B ++ k) ++ v ++ s)
    by (rewrite <- !app_assoc; reflexivity).
  replace (length p + 8 + length k)%nat with (length (p ++ A ++ B ++ k))
    by (rewrite !length_app; unfold A, B; rewrite !length_to_be_bytes; lia).
  now rewrite drop_app_length, take_app_length.
Qed.

(** One write extends the log by one entry. *)
Lemma keydir_abs_write file k v kd :
  btree_wf kd -> in_bounds file kd ->
  let kd' := replay (length file) [(k, v)] kd in
  in_bounds (file ++ enc_entry (k, v)) kd' /\
  keydir_abs (file ++ enc_entry (k, v)) kd' = apply_entry (keydir_abs file kd) (k, v).
Proof.
  intros Hw Hb. cbn [replay apply_entry]. pose proof (in_bounds_app _ (enc_entry (k, v)) _ Hb) as Hb'.
  rewrite <- (keydir_abs_ext _ (enc_entry (k, v)) _ Hb). destruct v as [v|].
  - split.
    + intros k' l [[= -> ->]|Hin]%In_btree_insert; [|eauto].
      rewrite length_app, length_enc_entry. unfold loc_end; cbn. lia.
    + unfold keydir_abs. rewrite btree_insert_abs, fmap_insert. f_equal.
      rewrite <- (app_nil_r (enc_entry _)). apply slice_entry.
  - split; [intros k' l Hin%In_btree_remove; eauto|].
    unfold keydir_abs. rewrite btree_remove_abs by exact Hw. now rewrite fmap_delete.
Qed.

Lemma write_entry_eq k v log :
  write_entry k v log =
  (Ok (mkLoc (length (log_file log) + 8 + length k)
         match v with Some v => length v | None => 0%nat end),
   mkLog (log_file log ++ enc_entry (k, v))).
Proof. reflexivity. Qed.

Lemma bitcask_set_eq k v b :
  bitcask_set k v b =
  (Ok tt, mkBitCask (mkLog (log_file (bc_log b) ++ enc_entry (k, Some v)))
            (replay (length (log_file (bc_log b))) [(k, Some v)] (bc_keydir b))).
Proof. reflexivity. Qed.

Lemma bitcask_delete_eq k b :
  bitcask_delete k b =
  (Ok tt, mkBitCask (mkLog (log_file (bc_log b) ++ enc_entry (k, None)))
            (replay (length (log_file (bc_log b))) [(k, None)] (bc_keydir b))).
Proof. reflexivity. Qed.

(** ** The storage interface *)
Lemma read_value_slice file l :
  (loc_end l <= length file)%nat -> read_value l (mkLog file) = Ok (slice file l).
Proof.
  unfold loc_end, read_value, read_exact, slice. intros H. cbn [log_file].
  destruct (Nat.ltb_spec (length file) (loc_offset l + loc_length l)); [lia|reflexivity].
Qed.

Lemma keydir_status_size file kd :
  in_bounds file kd ->
  foldr (fun '(key, loc) acc => Z.of_nat (length key + loc_length loc) + acc) 0 kd =
  foldr (fun '(k, v) acc => Z.of_nat (length k + length v) + acc) 0
    (map (fun kl => (kl.1, slice file kl.2)) kd).
Proof.
  intros Hb. induction kd as [|[k l] kd IH]; cbn; [reflexivity|].
  rewrite IH by (intros k' l' Hin; apply (Hb k' l'); now right).
  specialize (Hb k l (or_introl eq_refl)). unfold loc_end in Hb.
  unfold slice. rewrite length_take, length_drop. f_equal. lia.
Qed.

Lemma keydir_abs_map file kd :
  keydir_abs file kd = btree_abs (map (fun kl => (kl.1, slice file kl.2)) kd).
Proof. unfold keydir_abs. now rewrite btree_abs_map. Qed.

#[export] Instance bitcask_reads : EngineReads BitCask.
Proof.
  refine {| engine_inv := bitcask_inv; engine_abs := bitcask_abs |}.
  - intros [[file] kd] k [Hw Hb]. cbn in *. unfold bitcask_get, bitcask_abs, keydir_abs. cbn.
    rewrite btree_get_abs, lookup_fmap. destruct (btree_abs kd !! k) as [l|] eqn:E; [|reflexivity].
    apply btree_abs_In in E; [|exact Hw]. now rewrite read_value_slice by eauto.
  - intros [[file] kd] r [Hw Hb] Hr. cbn in *.
    destruct (btree_range_scan r (map (fun kl => (kl.1, slice file kl.2)) kd)) as (l & El & Hl);
      [now apply btree_wf_map|exact Hr|].
    exists l. unfold bitcask_abs. cbn. rewrite keydir_abs_map. split; [|exact Hl].
    unfold bitcask_scan. cbn. rewrite btree_range_map in El.
    unfold btree_range in *. rewrite Hr in *. cbn in *. inv El. f_equal.
    rewrite map_map. apply map_ext_in. intros [k loc] [Hin _]%filter_In. cbn.
    now rewrite read_value_slice by eauto.
  - intros [[file] kd] [Hw Hb]. eexists. split; [reflexivity|]. cbn in *.
    unfold bitcask_abs. cbn. rewrite keydir_abs_map. 
    rewrite btree_abs_size, length_map by now apply btree_wf_map.
    rewrite <- btree_abs_bytes by now apply btree_wf_map. split; [reflexivity|].
    now apply keydir_status_size.
Defined.
#[export] Instance bitcask_writes : EngineWrites BitCask.
Proof.
  split.
  - intros [[file] kd] k v [Hw Hb]. eexists. split; [apply bitcask_set_eq|]. cbn in *.
    destruct (keydir_abs_write file k (Some v) kd Hw Hb) as [H1 H2].
    split; [split; [exact (replay_wf (length file) [(k, Some v)] kd Hw)|exact H1]|exact H2].
  - intros [[file] kd] k [Hw Hb]. eexists. split; [apply bitcask_delete_eq|]. cbn in *.
    destruct (keydir_abs_write file k None kd Hw Hb) as [H1 H2].
    split; [split; [exact (replay_wf (length file) [(k, None)] kd Hw)|exact H1]|exact H2].
  - intros b Hb. exists b. auto.
Qed.

(** ** Databases and their logs *)
Lemma db_of_spec es :
  bitcask_inv (db_of es) /\ bitcask_abs (db_of es) = foldl apply_entry ∅ es.
Proof.
  induction es as [|[k v] es [[Hw Hb] Ha]] using rev_ind.
  { split; [|apply fmap_empty]. split; [constructor|]. intros k l []. }
  unfold bitcask_inv, bitcask_abs, db_of in *. cbn [bc_log bc_keydir log_file] in *.
  rewrite enc_log_app, replay_app, enc_log_one.
  destruct (keydir_abs_write _ k v _ Hw Hb) as [H1 H2]. rewrite Nat.add_0_l.
  split; [split; [now apply replay_wf|exact H1]|]. etrans; [exact H2|]. rewrite Ha, foldl_app. reflexivity.
Qed.

Lemma db_of_snoc es k v :
  mkBitCask (mkLog (enc_log es ++ enc_entry (k, v)))
    (replay (length (enc_log es)) [(k, v)] (replay 0 es [])) = db_of (es ++ [(k, v)]).
Proof.
  unfold db_of. now rewrite enc_log_app, replay_app, enc_log_one.
Qed.

Lemma run_ops_db ops es :
  st_iter run_op ops (db_of es) = (Ok tt, db_of (es ++ flat_map op_entries ops)).
Proof.
  revert es; induction ops as [|op ops IH]; intros es; [cbn; now rewrite app_nil_r|].
  cbn [st_iter flat_map]. unfold st_bind.
  assert (run_op op (db_of es) = (Ok tt, db_of (es ++ op_entries op))) as ->.
  { destruct op as [k v|k|]; cbn [run_op op_entries engine_set engine_delete engine_flush bitcask_engine].
    - rewrite bitcask_set_eq. cbn [db_of bc_log bc_keydir log_file]. now rewrite db_of_snoc.
    - rewrite bitcask_delete_eq. cbn [db_of bc_log bc_keydir log_file]. now rewrite db_of_snoc.
    - now rewrite app_nil_r. }
  rewrite IH, app_assoc. reflexivity.
Qed.

Lemma apply_entries_ops ops M :
  foldl apply_entry M (flat_map op_entries ops) = foldl map_op M ops.
Proof.
  revert M; induction ops as [|op ops IH]; intros M; [reflexivity|].
  cbn [flat_map]. rewrite foldl_app, IH. now destruct op.
Qed.

(** ** Recovery *)
Lemma build_keydir_loop_log n es0 es kd fuel :
  let file := take n (enc_log (es0 ++ es)) in
  let off := length (enc_log es0) in
  Forall fits es -> (off <= n)%nat -> (length file - off < fuel)%nat ->
  exists r, build_keydir_loop fuel file off kd = Ok (replay off (complete (n - off) es) kd, r) /\
    match r with Some o => take o file | None => file end = enc_log (es0 ++ complete (n - off) es).
Proof.
  revert es0 kd fuel; induction es as [|e es IH]; intros es0 kd fuel file off Hf Hn Hfuel;
    (destruct fuel as [|fuel]; [lia|]); cbn [build_keydir_loop].
  - assert (file = enc_log es0) as Ef by (unfold file; rewrite app_nil_r; apply take_ge; lia).
    destruct (Nat.ltb_spec off (length file)) as [H|_]; [rewrite Ef in H; unfold off in H; lia|].
    exists None. split; [reflexivity|]. cbn [complete]. now rewrite app_nil_r.
  - apply Forall_cons in Hf as [Hfe Hfs].
    pose proof (length_enc_entry e) as Le.
    assert (enc_log (es0 ++ e :: es) = enc_log es0 ++ enc_entry e ++ enc_log es) as EL
      by now rewrite enc_log_app, enc_log_cons.
    assert (take off (take n (enc_log (es0 ++ e :: es))) = enc_log es0) as Etr.
    { rewrite take_take, Nat.min_l, EL by lia. apply take_app_length. }
    cbn [complete]. destruct (Nat.leb_spec (length (enc_entry e)) (n - off)) as [Hle|Hgt].
    + destruct (IH (es0 ++ [e]) (replay off [e] kd) fuel) as (r & Er & Hr);
        [exact Hfs|rewrite enc_log_app, enc_log_one, length_app; unfold off in *; lia| |].
      { rewrite <- app_assoc. cbn [app]. fold file. rewrite enc_log_app, enc_log_one, length_app.
        assert (off + length (enc_entry e) <= length file)%nat; [|unfold off in *; lia].
        unfold file. rewrite EL, length_take, !length_app. unfold off in *; lia. }
      exists r. rewrite <- app_assoc in Er, Hr. cbn [app] in Er, Hr. fold file in Er, Hr.
      rewrite enc_log_app, enc_log_one, length_app in Er.
      rewrite (enc_log_app es0), enc_log_one, length_app in Hr. fold off in Er, Hr.
      rewrite Nat.sub_add_distr in Er, Hr. rewrite <- app_assoc in Hr. split; [|exact Hr].
      destruct (Nat.ltb_spec off (length file)) as [_|F];
        [|unfold file in F; rewrite EL, length_take, !length_app in F; unfold off in *; lia].
      assert (read_entry file off = Some (e.1, entry_loc off e, (off + length (enc_entry e))%nat)) as ->.
      { unfold file. destruct (Nat.le_gt_cases n (length (enc_log (es0 ++ e :: es)))) as [Hn'|Hn'].
        - rewrite read_entry_take, EL by exact Hn'. unfold off. rewrite read_entry_ok by exact Hfe.
          destruct (Nat.leb_spec (length (enc_log es0) + length (enc_entry e)) n); [reflexivity|].
          unfold off in *; lia.
        - rewrite take_ge, EL by lia. now apply read_entry_ok. }
      destruct e as [k [v|]]; exact Er.
    + destruct (Nat.ltb_spec off (length file)) as [Hlt|Hge].
      * assert (read_entry file off = None) as ->.
        { unfold file. rewrite read_entry_take, EL
            by (rewrite EL, !length_app; unfold off in *; lia).
          unfold off. rewrite read_entry_ok by exact Hfe.
          destruct (Nat.leb_spec (length (enc_log es0) + length (enc_entry e)) n); [|reflexivity].
          unfold off in *; lia. }
        exists (Some off). split; [reflexivity|]. now rewrite app_nil_r.
      * exists None. split; [reflexivity|]. rewrite app_nil_r, <- Etr. fold file.
        symmetry. apply take_ge. exact Hge.
Qed.

Lemma bitcask_new_take n es :
  Forall fits es -> bitcask_new (take n (enc_log es)) = Ok (db_of (complete n es)).
Proof.
  intros Hf. unfold bitcask_new, build_keydir. cbn [log_file].
  destruct (build_keydir_loop_log n [] es [] (S (length (take n (enc_log es))))) as (r & Er & Hr);
    [exact Hf|cbn; lia|cbn [app]; lia|].
  change (length (enc_log [])) with 0%nat in *. rewrite Nat.sub_0_r in *. cbn [app] in *.
  rewrite Er. destruct r as [o|]; unfold db_of; now rewrite <- Hr.
Qed.

Lemma complete_all n es : (length (enc_log es) <= n)%nat -> complete n es = es.
Proof.
  revert n; induction es as [|e es IH]; intros n H; [reflexivity|].
  rewrite enc_log_cons, length_app in H. cbn [complete].
  destruct (Nat.leb_spec (length (enc_entry e)) n); [|lia]. f_equal. apply IH. lia.
Qed.

Lemma bitcask_reopen es : Forall fits es -> bitcask_new (enc_log es) = Ok (db_of es).
Proof.
  intros Hf. rewrite <- (complete_all (length (enc_log es)) es) at 2 by lia.
  rewrite <- bitcask_new_take by exact Hf. now rewrite take_ge.
Qed.

(** The operations whose log entries are wholly within the first [n] bytes. *)
Fixpoint ops_complete (n : nat) (ops : list engine_op) : list engine_op :=
  match ops with
  | [] => []
  | op :: ops' =>
      let len := length (enc_log (op_entries op)) in
      if (len <=? n)%nat then op :: ops_complete (n - len) ops' else []
  end.

Lemma complete_ops n ops :
  complete n (flat_map op_entries ops) = flat_map op_entries (ops_complete n ops).
Proof.
  revert n; induction ops as [|op ops IH]; intros n; [reflexivity|]. cbn [ops_complete flat_map].
  destruct op as [k v|k|]; cbn [op_entries app].
  - rewrite enc_log_one. cbn [complete]. destruct (_ <=? n)%nat; [|reflexivity].
    cbn [flat_map op_entries app]. f_equal. apply IH.
  - rewrite enc_log_one. cbn [complete]. destruct (_ <=? n)%nat; [|reflexivity].
    cbn [flat_map op_entries app]. f_equal. apply IH.
  - change (length (enc_log [])) with 0%nat. change (0 <=? n)%nat with true. cbn [flat_map op_entries app].
    rewrite Nat.sub_0_r. apply IH.
Qed.

Lemma ops_complete_prefix n ops : ops_complete n ops `prefix_of` ops.
Proof.
  revert n; induction ops as [|op ops IH]; intros n; cbn; [apply prefix_nil|].
  destruct (_ <=? n)%nat; [now apply prefix_cons|apply prefix_nil].
Qed.

Lemma ops_complete_max n ops ops' :
  ops' `prefix_of` ops -> (length (enc_log (flat_map op_entries ops')) <= n)%nat ->
  ops' `prefix_of` ops_complete n ops.
Proof.
  revert n ops'; induction ops as [|op ops IH]; intros n [|op' ops'] Hp Hn;
    [apply prefix_nil|now apply prefix_nil_not in Hp|apply prefix_nil|].
  assert (op' = op) as -> by (eapply prefix_cons_inv_1; eauto). apply prefix_cons_inv_2 in Hp.
  cbn [flat_map ops_complete] in *. rewrite enc_log_app, length_app in Hn.
  destruct (Nat.leb_spec (length (enc_log (op_entries op))) n); [|lia].
  apply prefix_cons, IH; [exact Hp|lia].
Qed.

Lemma ops_complete_len n ops : (length (enc_log (flat_map op_entries (ops_complete n ops))) <= n)%nat.
Proof.
  revert n; induction ops as [|op ops IH]; intros n; [cbn; lia|]. cbn [ops_complete].
  destruct (Nat.leb_spec (length (enc_log (op_entries op))) n); [|cbn; lia].
  cbn [flat_map]. rewrite enc_log_app, length_app. specialize (IH (n - length (enc_log (op_entries op)))%nat). lia.
Qed.

Definition op_fits (op : engine_op) : Prop := Forall fits (op_entries op).

Lemma ops_fit ops : Forall op_fits ops -> Forall fits (flat_map op_entries ops).
Proof.
  induction 1 as [|op ops H _ IH]; [constructor|]. cbn. apply Forall_app. auto.
Qed.

(** C9: opening BitCask after a crash.  Run any sequence of writes on a new
    database and cut the log file anywhere, at [n] bytes.  Opening what is left
    succeeds and gives the very database (file and keydir) that a prefix of the
    writes produces: every write whose entry was wholly on disk, and no other.
    In particular reopening the whole file gives the database back. *)
Theorem bitcask_crash_recovery (ops : list engine_op) (n : nat) :
  Forall op_fits ops ->
  exists b0 b ops1 b1,
    bitcask_new [] = Ok b0 /\ st_iter run_op ops b0 = (Ok tt, b) /\
    bitcask_new (take n (log_file (bc_log b))) = Ok b1 /\
    ops1 `prefix_of` ops /\ st_iter run_op ops1 b0 = (Ok tt, b1) /\
    bitcask_abs b1 = foldl map_op ∅ ops1 /\
    (length (log_file (bc_log b1)) <= n)%nat /\
    (forall ops' b', ops' `prefix_of` ops -> st_iter run_op ops' b0 = (Ok tt, b') ->
       (length (log_file (bc_log b')) <= n)%nat -> ops' `prefix_of` ops1) /\
    ((length (log_file (bc_log b)) <= n)%nat -> b1 = b).
Proof.
  intros Hf%ops_fit. set (ops1 := ops_complete n ops).
  exists (db_of []), (db_of (flat_map op_entries ops)), ops1, (db_of (flat_map op_entries ops1)).
  rewrite !run_ops_db. cbn [app]. cbn [bc_log log_file db_of].
  rewrite bitcask_new_take by exact Hf. rewrite complete_ops. fold ops1.
  repeat split.
  - apply ops_complete_prefix.
  - destruct (db_of_spec (flat_map op_entries ops1)) as [_ ->]. apply apply_entries_ops.
  - apply ops_complete_len.
  - intros ops' b' Hp E Hn. rewrite run_ops_db in E. inv E. now apply ops_complete_max.
  - intros Hn. unfold ops1. now rewrite <- complete_ops, complete_all.
Qed.

Lemma bitcask_crash_recovery_witness :
  let ops := [OpSet [x01] [x02; x03]; OpDelete [x01]] in
  Forall op_fits ops /\
  exists b0 b ops1 b1,
    bitcask_new [] = Ok b0 /\ st_iter run_op ops b0 = (Ok tt, b) /\
    bitcask_new (take 15 (log_file (bc_log b))) = Ok b1 /\
    ops1 `prefix_of` ops /\ st_iter run_op ops1 b0 = (Ok tt, b1).
Proof.
  cbv zeta. set (ops := [OpSet [x01] [x02; x03]; OpDelete [x01]]).
  assert (Forall op_fits ops) as H.
  { repeat constructor; cbn; lia. }
  split; [exact H|].
  destruct (bitcask_crash_recovery ops 15 H) as (b0 & b & ops1 & b1 & H1 & H2 & H3 & H4 & H5 & _).
  exists b0, b, ops1, b1. auto.
Defined.

(** ** Sizes and compaction *)
Definition disk_weight (M : gmap bytes bytes) : Z := map_bytes M + 8 * Z.of_nat (size M).

Lemma disk_weight_delete M k : disk_weight (delete k M) <= disk_weight M.
Proof.
  unfold disk_weight. destruct (M !! k) as [v|] eqn:E; [|now rewrite delete_id].
  assert (map_bytes M = Z.of_nat (length k + length v) + map_bytes (delete k M)) as ->.
  { rewrite <- map_bytes_insert by apply lookup_delete_eq. now rewrite insert_delete_id. }
  rewrite map_size_delete_Some by eauto. lia.
Qed.

Lemma disk_weight_insert M k v :
  disk_weight (<[k := v]> M) <= Z.of_nat (8 + length k + length v) + disk_weight M.
Proof.
  rewrite <- insert_delete_eq. pose proof (disk_weight_delete M k) as H. unfold disk_weight in *.
  rewrite map_bytes_insert, map_size_insert_None by apply lookup_delete_eq. lia.
Qed.

(** The live data fits within the log. *)
Lemma db_of_live es :
  disk_weight (foldl apply_entry ∅ es) <= Z.of_nat (length (enc_log es)).
Proof.
  induction es as [|[k v] es IH] using rev_ind; [reflexivity|].
  rewrite foldl_app, enc_log_app, length_app, enc_log_one, length_enc_entry. cbn [foldl apply_entry].
  destruct v as [v|]; cbn [value_of fst snd].
  - pose proof (disk_weight_insert (foldl apply_entry ∅ es) k v). lia.
  - pose proof (disk_weight_delete (foldl apply_entry ∅ es) k). lia.
Qed.

Lemma bitcask_status_eq b :
  bitcask_inv b ->
  exists st, bitcask_status b = Ok st /\
    status_disk_size st = Z.of_nat (length (log_file (bc_log b))) /\
    status_live_disk_size st = disk_weight (bitcask_abs b).
Proof.
  intros Hb. destruct (@engine_status_spec _ _ bitcask_reads b Hb) as (st & E & K & S). exists st.
  split; [exact E|]. unfold disk_weight. cbn in E, K, S. unfold bitcask_status in E.
  rewrite <- K, <- S. inv E. cbn. lia.
Qed.

Lemma compact_loop_eq old live es kd :
  in_bounds old live -> replay 0 es [] = kd ->
  compact_loop (mkLog old) live (mkLog (enc_log es)) kd =
  let b' := db_of (es ++ map (fun kl => (kl.1, Some (slice old kl.2))) live) in
  Ok (bc_log b', bc_keydir b').
Proof.
  revert es kd; induction live as [|[k l] live IH]; intros es kd Hb Hkd; cbn [compact_loop map].
  { rewrite app_nil_r. cbn. now rewrite Hkd. }
  rewrite read_value_slice by (apply (Hb k); now left). cbn [outcome_bind].
  rewrite write_entry_eq. cbn [log_file fst snd].
  rewrite <- (enc_log_one (k, Some (slice old l))), <- enc_log_app.
  rewrite (IH (es ++ [(k, Some (slice old l))])).
  - now rewrite <- app_assoc.
  - intros k' l' Hin. apply (Hb k'). now right.
  - rewrite replay_app, Hkd. reflexivity.
Qed.

Lemma compact_eq b : bitcask_inv b -> compact b = (Ok tt, db_of (live_entries b)).
Proof.
  destruct b as [[file] kd]. intros [_ Hb]. unfold compact, live_entries. cbn in *.
  change (mkLog []) with (mkLog (enc_log [])). now rewrite (compact_loop_eq _ _ []).
Qed.

Lemma apply_live kd M :
  btree_wf kd ->
  foldl apply_entry M (map (fun kv : bytes * bytes => (kv.1, Some kv.2)) kd) = btree_abs kd ∪ M.
Proof.
  revert M; induction kd as [|[k v] kd IH]; intros M H; [exact (eq_sym (left_id_L ∅ (∪) M))|].
  pose proof (btree_abs_fresh _ _ _ H) as Hf. apply btree_wf_cons in H as [H _].
  cbn [map foldl apply_entry fst snd]. rewrite IH by exact H.
  change (btree_abs ((k, v) :: kd)) with (<[k := v]> (btree_abs kd)).
  rewrite <- insert_union_r by exact Hf. now rewrite insert_union_l.
Qed.

Lemma compact_abs b : bitcask_inv b -> bitcask_abs (db_of (live_entries b)) = bitcask_abs b.
Proof.
  destruct b as [[file] kd]. intros [Hw _]. cbn in Hw.
  destruct (db_of_spec (live_entries (mkBitCask (mkLog file) kd))) as [_ ->].
  unfold bitcask_abs, live_entries. cbn [bc_log bc_keydir log_file]. rewrite keydir_abs_map.
  rewrite <- (map_union_empty (btree_abs _)), <- apply_live by now apply btree_wf_map.
  now rewrite map_map.
Qed.

Lemma enc_live_length (l : list (bytes * bytes)) :
  btree_wf l ->
  Z.of_nat (length (enc_log (map (fun kv => (kv.1, Some kv.2)) l))) = disk_weight (btree_abs l).
Proof.
  intros Hw. unfold disk_weight. rewrite btree_abs_size, <- btree_abs_bytes by exact Hw.
  clear Hw. induction l as [|[k v] l IH]; [reflexivity|].
  cbn [map foldr fst snd length]. rewrite enc_log_cons, length_app, length_enc_entry.
  unfold value_of. cbn [fst snd]. lia.
Qed.

Lemma compact_size b :
  bitcask_inv b ->
  Z.of_nat (length (log_file (bc_log (db_of (live_entries b))))) = disk_weight (bitcask_abs b).
Proof.
  destruct b as [[file] kd]. intros [Hw _]. cbn in Hw. unfold live_entries, bitcask_abs, db_of.
  cbn [bc_log bc_keydir log_file]. rewrite keydir_abs_map, <- enc_live_length, map_map
    by now apply btree_wf_map. reflexivity.
Qed.

Lemma live_entries_fit es : Forall fits es -> Forall fits (live_entries (db_of es)).
Proof.
  intros Hf. destruct (db_of_spec es) as [[Hw Hb] Ha]. apply List.Forall_forall.
  intros e ([k l] & <- & Hin)%in_map_iff. cbn [fst snd].
  apply btree_abs_In in Hin; [|exact Hw].
  assert (bitcask_abs (db_of es) !! k = Some (slice (log_file (bc_log (db_of es))) l)) as Hl
    by (unfold bitcask_abs, keydir_abs; now rewrite lookup_fmap, Hin).
  rewrite Ha in Hl. revert Hl. generalize (slice (log_file (bc_log (db_of es))) l) as v. clear -Hf.
  induction es as [|[k' v'] es IH] using rev_ind; [discriminate|]. intros v.
  apply Forall_app in Hf as [Hf1 Hf2]. apply Forall_inv in Hf2. rewrite foldl_app. cbn.
  destruct v' as [v'|]; intros Hl.
  - apply lookup_insert_Some in Hl as [[<- <-]|[_ Hl]]; [exact Hf2|now apply IH].
  - apply lookup_delete_Some in Hl as [_ Hl]. now apply IH.
Qed.

(** C40: the BitCask engine implements the storage interface: any sequence of
    writes on a new database succeeds, and afterwards [get], [scan] and
    [status] observe exactly the finite map the writes build; the reported live
    size never exceeds the file size, so the garbage size does not wrap. *)
Theorem bitcask_refines_map (ops : list engine_op) :
  exists b0 b, bitcask_new [] = Ok b0 /\ st_iter run_op ops b0 = (Ok tt, b) /\
    let M := foldl map_op ∅ ops in
    (forall k, bitcask_get k b = Ok (M !! k)) /\
    (forall r, if range_ok r
               then exists l, bitcask_scan r b = Ok (map Ok l) /\ scan_of r M l
               else exists p, bitcask_scan r b = Panic p) /\
    (exists st, bitcask_status b = Ok st /\ status_keys st = Z.of_nat (size M) /\
                status_size st = map_bytes M /\
                status_live_disk_size st <= status_disk_size st).
Proof.
  exists (db_of []), (db_of (flat_map op_entries ops)). split; [reflexivity|].
  rewrite run_ops_db. split; [reflexivity|]. cbv zeta.
  destruct (db_of_spec (flat_map op_entries ops)) as [Hi Ha].
  pose proof (db_of_live (flat_map op_entries ops)) as Hlive.
  rewrite apply_entries_ops in Ha, Hlive. set (b := db_of _) in *. rewrite <- Ha in *. repeat split.
  - intros k. exact (@engine_get_spec _ _ bitcask_reads b k Hi).
  - intros r. destruct (range_ok r) eqn:Hr; [exact (@engine_scan_spec _ _ bitcask_reads b r Hi Hr)|].
    unfold bitcask_scan, btree_range. rewrite Hr. cbn. eauto.
  - destruct (@engine_status_spec _ _ bitcask_reads b Hi) as (st & E & K & S). exists st. cbn in E, K, S.
    destruct (bitcask_status_eq b Hi) as (st' & E' & D & L). rewrite E in E'. inv E'.
    rewrite D, L. auto.
Qed.

(** Compaction.  For a database built by any writes, [compact] succeeds,
    keeps the contents, leaves a file of exactly the live size (which is no
    larger than before) with no garbage, and the compacted file reopens to the
    compacted database. *)
Theorem bitcask_compact_correct (ops : list engine_op) :
  Forall op_fits ops ->
  exists b0 b b' st st',
    bitcask_new [] = Ok b0 /\ st_iter run_op ops b0 = (Ok tt, b) /\
    compact b = (Ok tt, b') /\ bitcask_status b = Ok st /\ bitcask_status b' = Ok st' /\
    bitcask_inv b' /\ bitcask_abs b' = bitcask_abs b /\
    status_disk_size st' = status_live_disk_size st /\
    status_live_disk_size st <= status_disk_size st /\
    garbage_disk_size st' = 0 /\
    bitcask_new (log_file (bc_log b')) = Ok b'.
Proof.
  intros Hf%ops_fit. set (es := flat_map op_entries ops) in *.
  destruct (db_of_spec es) as [Hi Ha]. destruct (db_of_spec (live_entries (db_of es))) as [Hi' Ha'].
  destruct (bitcask_status_eq _ Hi) as (st & E & D & L).
  destruct (bitcask_status_eq _ Hi') as (st' & E' & D' & L').
  pose proof (compact_abs _ Hi) as Hc. pose proof (compact_size _ Hi) as Hs.
  exists (db_of []), (db_of es), (db_of (live_entries (db_of es))), st, st'.
  rewrite run_ops_db, compact_eq, E, E' by exact Hi. cbn [app].
  assert (status_disk_size st' = status_live_disk_size st') as Heq by (rewrite D', L', Hs; congruence).
  repeat split; auto; try apply Hi'.
  - congruence.
  - rewrite D, L, Ha. apply db_of_live.
  - unfold garbage_disk_size. now rewrite Heq, Z.sub_diag.
  - apply bitcask_reopen. now apply live_entries_fit.
Qed.

Lemma bitcask_compact_correct_witness :
  let ops := [OpSet [x01] [x02]; OpSet [x01] [x03]; OpDelete [x04]] in
  Forall op_fits ops /\
  exists b0 b b', bitcask_new [] = Ok b0 /\ st_iter run_op ops b0 = (Ok tt, b) /\
    compact b = (Ok tt, b') /\ bitcask_abs b' = bitcask_abs b.
Proof.
  cbv zeta. set (ops := [OpSet [x01] [x02]; OpSet [x01] [x03]; OpDelete [x04]]).
  assert (Forall op_fits ops) as H by (repeat constructor; cbn; lia). split; [exact H|].
  destruct (bitcask_compact_correct ops H) as (b0 & b & b' & st & st' & H1 & H2 & H3 & _ & _ & _ & H4 & _).
  exists b0, b, b'. auto.
Defined.

(** ** Opening arbitrary files *)
Lemma read_entry_bounds file off k l off' :
  read_entry file off = Some (k, l, off') ->
  (off + 8 <= off' <= length file)%nat /\
  match l with Some l => loc_end l = off' | None => True end.
Proof.
  unfold read_entry, read_exact, loc_end.
  destruct (Nat.ltb_spec (length file) (off + 4)); [discriminate|].
  destruct (Nat.ltb_spec (length file) (off + 4 + 4)); [discriminate|].
  set (kn := Z.to_nat _). set (len := i32 _).
  destruct (Nat.ltb_spec (length file) (off + 8 + kn)); [discriminate|].
  destruct (len <? 0); cbn [loc_offset loc_length].
  - intros [= <- <- <-]. lia.
  - destruct (Nat.ltb_spec (length file) (off + 8 + kn + Z.to_nat len)); [discriminate|].
    intros [= <- <- <-]. cbn [loc_offset loc_length]. lia.
Qed.

Lemma build_keydir_loop_fuel fuel fuel' file off kd r :
  build_keydir_loop fuel file off kd = Ok r -> (fuel <= fuel')%nat ->
  build_keydir_loop fuel' file off kd = Ok r.
Proof.
  revert fuel' off kd; induction fuel as [|fuel IH]; intros fuel' off kd E Hle; [discriminate|].
  destruct fuel' as [|fuel']; [lia|]. cbn in *.
  destruct (off <? length file)%nat; [|exact E].
  destruct (read_entry file off) as [[[k [l|]] o]|]; [| |exact E]; apply IH; auto; lia.
Qed.

Definition ends_by (o : nat) (kd : KeyDir) : Prop :=
  forall k l, In (k, l) kd -> (loc_end l <= o)%nat.

Lemma build_keydir_loop_total fuel file off kd :
  btree_wf kd -> ends_by off kd -> (off <= length file)%nat -> (length file - off < fuel)%nat ->
  exists kd' r, build_keydir_loop fuel file off kd = Ok (kd', r) /\
    let o := default (length file) r in
    btree_wf kd' /\ ends_by o kd' /\ (off <= o <= length file)%nat /\
    build_keydir_loop fuel (take o file) off kd = Ok (kd', None).
Proof.
  revert off kd; induction fuel as [|fuel IH]; intros off kd Hw He Hoff Hfuel; [lia|].
  cbn [build_keydir_loop]. destruct (Nat.ltb_spec off (length file)) as [Hlt|Hge].
  2: { exists kd, None. cbn. split; [reflexivity|]. replace (length file) with off by lia.
       repeat split; auto. rewrite length_take. destruct (Nat.ltb_spec off (min off (length file))); [lia|].
       reflexivity. }
  destruct (read_entry file off) as [[[k l] off']|] eqn:E.
  2: { exists kd, (Some off). cbn. split; [reflexivity|]. repeat split; auto.
       rewrite length_take. destruct (Nat.ltb_spec off (min off (length file))); [lia|reflexivity]. }
  pose proof (read_entry_bounds _ _ _ _ _ E) as [Hb Hl].
  set (kd1 := match l with Some l => btree_insert k l kd | None => btree_remove k kd end).
  destruct (IH off' kd1) as (kd' & r & Er & Hw' & He' & Ho & Er').
  - unfold kd1. destruct l; [now apply btree_insert_wf|now apply btree_remove_wf].
  - unfold kd1. destruct l as [l|]; [intros k' l' [[= -> ->]|Hin]%In_btree_insert|
      intros k' l' Hin%In_btree_remove]; [lia| |]; specialize (He _ _ Hin); lia.
  - lia.
  - lia.
  - exists kd', r. split; [destruct l; exact Er|]. cbv zeta. set (o := default _ r) in *.
    repeat split; auto; [lia|lia|]. rewrite length_take.
    destruct (Nat.ltb_spec off (min o (length file))); [|lia].
    rewrite read_entry_take, E by lia. destruct (Nat.leb_spec off' o); [|lia].
    destruct l; exact Er'.
Qed.

(** Opening succeeds on every file, keeps a prefix of it, and is idempotent. *)
Lemma bitcask_new_total file :
  exists b n, bitcask_new file = Ok b /\ log_file (bc_log b) = take n file /\ bitcask_inv b /\
              bitcask_new (log_file (bc_log b)) = Ok b.
Proof.
  destruct (build_keydir_loop_total (S (length file)) file 0 [])
    as (kd & r & Er & Hw & He & Ho & Er'); [constructor|intros ? ? []|lia|lia|].
  set (o := default (length file) r) in *.
  exists (mkBitCask (mkLog (take o file)) kd), o.
  unfold bitcask_new, build_keydir. cbn [log_file bc_log]. rewrite Er.
  assert (build_keydir_loop (S (length (take o file))) (take o file) 0 [] = Ok (kd, None)) as ->.
  { destruct (build_keydir_loop_total (S (length (take o file))) (take o file) 0 [])
      as (kd2 & r2 & Er2 & _ & _ & Ho2 & Er2'); [constructor|intros ? ? []|lia|lia|].
    rewrite Er2. rewrite (build_keydir_loop_fuel _ (S (length file)) _ _ _ _ Er2) in Er'; [exact Er'|].
    rewrite length_take. lia. }
  repeat split; auto.
  - destruct r; cbn in o; [reflexivity|]. unfold o. now rewrite take_ge.
  - intros k l Hin. cbn. rewrite length_take_le by lia. exact (He _ _ Hin).
Qed.

(** Opening with automatic compaction, on any file contents whatsoever and
    for any thresholds, succeeds; the result holds the same data as a plain
    open, and its file is compacted to the
    live size exactly when the garbage reaches both thresholds. *)
Theorem new_maybe_compact_correct file (fraction : spec_float) (min_bytes : Z) :
  exists b st b',
    bitcask_new file = Ok b /\ bitcask_status b = Ok st /\
    new_maybe_compact file fraction min_bytes = Ok b' /\
    bitcask_inv b' /\ bitcask_abs b' = bitcask_abs b /\
    let garbage := garbage_disk_size st in
    let compacts := (0 <? garbage) && (min_bytes <=? garbage)
        && SFleb fraction (f64_div (f64_of_u64 garbage) (f64_of_u64 (status_disk_size st))) in
    b' = (if compacts then db_of (live_entries b) else b) /\
    Z.of_nat (length (log_file (bc_log b'))) =
      (if compacts then status_live_disk_size st else status_disk_size st).
Proof.
  destruct (bitcask_new_total file) as (b & n & E & _ & Hi & _).
  destruct (bitcask_status_eq b Hi) as (st & S & D & L). cbv zeta.
  unfold new_maybe_compact. rewrite E. cbn [outcome_bind]. rewrite S. cbn [outcome_bind].
  rewrite compact_eq by exact Hi. exists b, st.
  set (c := (0 <? garbage_disk_size st) && (min_bytes <=? garbage_disk_size st) && _).
  exists (if c then db_of (live_entries b) else b).
  destruct c; repeat split; auto; try apply (db_of_spec (live_entries b)); try apply Hi.
  - now apply compact_abs.
  - rewrite L. now apply compact_size.
Qed.
