(* ===== verification/Bincode.v ===== *)
(** * Value encoding ([src/encoding/bincode.rs], [src/encoding/mod.rs])

    [bincode::serialize] and [deserialize] wrap the third-party [bincode]
    crate, which is a parameter here: one instance of [Bincode] per encoded
    type.  Its only law is the documented one, that decoding returns the value
    that was encoded, for the values of the Rust type ([valid] says which
    elements of the Rocq type those are, e.g. the 64-bit integers of [Z]). *)
From S2P Require Import Prelude Bytes.

Class Bincode {T : Type} (valid : T -> Prop) : Type := {
  bincode_serialize : T -> bytes;
  bincode_deserialize : bytes -> outcome T;
  bincode_roundtrip x : valid x -> bincode_deserialize (bincode_serialize x) = Ok x;
}.

Definition any {T : Type} (_ : T) : Prop := True.
Definition all_u64 (s : gset Z) : Prop := forall v, v ∈ s -> is_u64 v.
Definition is_u64_pair (p : Z * Z) : Prop := is_u64 p.1 /\ is_u64 p.2.

(** ** Sample codecs

    Simple fixed-width encodings that satisfy the law, used to evaluate the
    model on concrete inputs. *)
Module Sample.

Definition u64_ser (z : Z) : bytes := to_be_bytes 8 z.
Definition u64_de (b : bytes) : outcome Z :=
  if (length b =? 8)%nat then Ok (from_be_bytes b) else errdata "invalid u64".

Lemma u64_de_ser z : is_u64 z -> u64_de (u64_ser z) = Ok z.
Proof.
  intros Hz. unfold u64_de, u64_ser. rewrite length_to_be_bytes, from_to_be_bytes.
  cbn -[Z.pow]. f_equal. unfold is_u64, u64_max in Hz. apply Z.mod_small.
  change (256 ^ Z.of_nat 8) with 18446744073709551616. lia.
Qed.

#[export] Instance u64_bincode : Bincode is_u64 :=
  {| bincode_serialize := u64_ser; bincode_deserialize := u64_de; bincode_roundtrip := u64_de_ser |}.

Definition opt_ser (o : option bytes) : bytes :=
  match o with None => [x00] | Some v => x01 :: v end.
Definition opt_de (b : bytes) : outcome (option bytes) :=
  match b with
  | x00 :: _ => Ok None
  | x01 :: v => Ok (Some v)
  | _ => errdata "invalid option"
  end.

Lemma opt_de_ser o : any o -> opt_de (opt_ser o) = Ok o.
Proof. intros _. now destruct o. Qed.

#[export] Instance opt_bincode : Bincode (@any (option bytes)) :=
  {| bincode_serialize := opt_ser; bincode_deserialize := opt_de; bincode_roundtrip := opt_de_ser |}.

Fixpoint list_de (fuel : nat) (b : bytes) : list Z :=
  match fuel, b with
  | S fuel', _ :: _ => from_be_bytes (take 8 b) :: list_de fuel' (drop 8 b)
  | _, _ => []
  end.
Definition set_ser (s : gset Z) : bytes := concat (map u64_ser (elements s)).
Definition set_de (b : bytes) : outcome (gset Z) := Ok (list_to_set (list_de (length b) b)).

Lemma list_de_ser l fuel :
  Forall is_u64 l -> (length l <= fuel)%nat -> list_de fuel (concat (map u64_ser l)) = l.
Proof.
  revert fuel; induction l as [|z l IH]; intros fuel H Hf; [now destruct fuel|].
  apply Forall_cons in H as [Hz Hl]. destruct fuel as [|fuel]; [cbn in Hf; lia|].
  cbn [map concat]. assert (length (u64_ser z) = 8%nat) as L by apply length_to_be_bytes.
  assert (take 8 (u64_ser z ++ concat (map u64_ser l)) = u64_ser z) as T
    by (rewrite <- L; apply take_app_length).
  assert (drop 8 (u64_ser z ++ concat (map u64_ser l)) = concat (map u64_ser l)) as D
    by (rewrite <- L; apply drop_app_length).
  destruct (u64_ser z ++ concat (map u64_ser l)) as [|b bs] eqn:E.
  { apply (f_equal length) in E. rewrite length_app, L in E. discriminate. }
  cbn [list_de]. rewrite T, D, IH by (auto; cbn in Hf; lia). f_equal.
  pose proof (u64_de_ser z Hz) as R. unfold u64_de in R. rewrite L in R. cbn [Nat.eqb] in R. congruence.
Qed.

Lemma set_de_ser s : all_u64 s -> set_de (set_ser s) = Ok s.
Proof.
  intros H. unfold set_de, set_ser. f_equal. rewrite list_de_ser.
  - apply list_to_set_elements_L.
  - apply Forall_forall. intros v Hv. now apply H, elem_of_elements.
  - induction (elements s) as [|z l IH]; [cbn; lia|]. cbn [map concat].
    rewrite length_app. unfold u64_ser at 1. rewrite length_to_be_bytes. cbn. lia.
Qed.

#[export] Instance set_bincode : Bincode all_u64 :=
  {| bincode_serialize := set_ser; bincode_deserialize := set_de; bincode_roundtrip := set_de_ser |}.

End Sample.
