(* ===== verification/Mvcc.v ===== *)
(** * The MVCC transaction engine ([src/storage/mvcc.rs])

    All operations work on a storage engine [E] through its trait.  The
    engine is shared by all transactions behind a mutex which every operation
    holds from start to end, so an operation is a state transformer of [E] and
    concurrent execution is a sequence of operations; only a scan releases the
    mutex, between two fills of its buffer, and its iterator is a state of its
    own.  Mutex poisoning is not modelled.  [BTreeSet<Version>] is a [gset Z];
    a [Transaction] is its [TransactionState], since its engine is the shared
    one. *)
From S2P Require Import Prelude Bytes Keycode Btree Engine Bincode.

(** ** Keys *)
Inductive Key : Type :=
  | NextVersion
  | TxnActive (version : Z)
  | TxnActiveSnapshot (version : Z)
  | TxnWrite (version : Z) (key : bytes)
  | Version (key : bytes) (version : Z)
  | Unversioned (key : bytes).

Definition key_shape : keytype :=
  KEnum [[]; [KU64]; [KU64]; [KU64; KBytes]; [KBytes; KU64]; [KBytes]].

Definition key_val (k : Key) : keyval :=
  match k with
  | NextVersion => VEnum 0 []
  | TxnActive v => VEnum 1 [VU64 v]
  | TxnActiveSnapshot v => VEnum 2 [VU64 v]
  | TxnWrite v k => VEnum 3 [VU64 v; VBytes k]
  | Version k v => VEnum 4 [VBytes k; VU64 v]
  | Unversioned k => VEnum 5 [VBytes k]
  end.

Definition key_of_val (v : keyval) : outcome Key :=
  match v with
  | VEnum 0 [] => Ok NextVersion
  | VEnum 1 [VU64 v] => Ok (TxnActive v)
  | VEnum 2 [VU64 v] => Ok (TxnActiveSnapshot v)
  | VEnum 3 [VU64 v; VBytes k] => Ok (TxnWrite v k)
  | VEnum 4 [VBytes k; VU64 v] => Ok (Version k v)
  | VEnum 5 [VBytes k] => Ok (Unversioned k)
  | _ => Panic "not a key"
  end.

Definition encode (k : Key) : outcome bytes := serialize (key_val k).
Definition decode (b : bytes) : outcome Key := let? v := deserialize key_shape b in key_of_val v.

Inductive KeyPrefix : Type :=
  | PrefixNextVersion
  | PrefixTxnActive
  | PrefixTxnActiveSnapshot
  | PrefixTxnWrite (version : Z)
  | PrefixVersion (key : bytes)
  | PrefixUnversioned.

Definition prefix_val (p : KeyPrefix) : keyval :=
  match p with
  | PrefixNextVersion => VEnum 0 []
  | PrefixTxnActive => VEnum 1 []
  | PrefixTxnActiveSnapshot => VEnum 2 []
  | PrefixTxnWrite v => VEnum 3 [VU64 v]
  | PrefixVersion k => VEnum 4 [VBytes k]
  | PrefixUnversioned => VEnum 5 []
  end.

Definition encode_prefix (p : KeyPrefix) : outcome bytes := serialize (prefix_val p).

(** ** Transaction state *)
Record TransactionState : Type := mkTxn {
  version : Z;
  read_only : bool;
  active : gset Z;
}.

Definition is_visible (t : TransactionState) (v : Z) : bool :=
  if bool_decide (v ∈ active t) then false
  else if read_only t then v <? version t
  else v <=? version t.

(** [BTreeSet::first] *)
Definition set_first (s : gset Z) : option Z :=
  foldr (fun v acc => Some (match acc with Some m => Z.min v m | None => v end)) None (elements s).

Record MvccStatus : Type := mkMvccStatus {
  status_versions : Z;
  status_active_txns : Z;
  status_storage : Status;
}.

Section Mvcc.
Context {E : Type} `{Engine E}.
Context {BV : Bincode is_u64} {BS : Bincode all_u64} {BO : Bincode (@any (option bytes))}.
(** [cfg!(test)]: selects the scan buffer size. *)
Context (test : bool).

(** The engine calls with an encoded key. *)
Definition get_key (k : Key) : stM E (option bytes) :=
  let! raw := st_lift (encode k) in st_read (engine_get raw).
Definition set_key (k : Key) (value : bytes) : stM E unit :=
  let! raw := st_lift (encode k) in engine_set raw value.
Definition delete_key (k : Key) : stM E unit :=
  let! raw := st_lift (encode k) in engine_delete raw.
Definition scan_key_prefix (p : KeyPrefix) : stM E (list (outcome (bytes * bytes))) :=
  let! raw := st_lift (encode_prefix p) in st_read (engine_scan_prefix raw).

(** [engine.get(&Key::NextVersion.encode())?], decoded. *)
Definition next_version : stM E Z :=
  let! o := get_key NextVersion in
  match o with
  | Some v => st_lift (bincode_deserialize v)
  | None => st_ret 1
  end.

Fixpoint scan_active_loop (items : list (outcome (bytes * bytes))) (acc : gset Z) :
    outcome (gset Z) :=
  match items with
  | [] => Ok acc
  | item :: items' =>
      let? kv := item in
      let? key := decode kv.1 in
      match key with
      | TxnActive v => scan_active_loop items' ({[v]} ∪ acc)
      | _ => errdata "expected TxnActive key"
      end
  end.

Definition scan_active : stM E (gset Z) :=
  let! items := scan_key_prefix PrefixTxnActive in
  st_lift (scan_active_loop items ∅).

Definition begin : stM E TransactionState :=
  let! version := next_version in
  set_key NextVersion (bincode_serialize (u64_add version 1)) ;;;
  let! active := scan_active in
  (if bool_decide (active = ∅) then st_ret tt
   else set_key (TxnActiveSnapshot version) (bincode_serialize active)) ;;;
  set_key (TxnActive version) [] ;;;
  st_ret (mkTxn version false active).

Definition begin_read_only (as_of : option Z) : stM E TransactionState :=
  let! version := next_version in
  match as_of with
  | Some as_of =>
      if version <=? as_of then st_err (InvalidInput "version does not exist")
      else
        let! o := get_key (TxnActiveSnapshot as_of) in
        match o with
        | Some value =>
            let! active := st_lift (bincode_deserialize value) in
            st_ret (mkTxn as_of true active)
        | None => st_ret (mkTxn as_of true ∅)
        end
  | None =>
      let! active := scan_active in
      st_ret (mkTxn version true active)
  end.

Definition resume (s : TransactionState) : stM E TransactionState :=
  if read_only s then st_ret s
  else
    let! o := get_key (TxnActive (version s)) in
    match o with
    | None => st_err (InvalidInput "no active transaction at version")
    | Some _ => st_ret s
    end.

Definition commit (t : TransactionState) : stM E unit :=
  if read_only t then st_ret tt
  else
    let! items := scan_key_prefix (PrefixTxnWrite (version t)) in
    let! remove := st_lift (try_collect (map (outcome_map fst) items)) in
    st_iter engine_delete remove ;;;
    delete_key (TxnActive (version t)).

(** The keys to delete: the version and the [TxnWrite] record of each write. *)
Fixpoint rollback_loop (v : Z) (items : list (outcome (bytes * bytes))) (acc : list bytes) :
    outcome (list bytes) :=
  match items with
  | [] => Ok acc
  | item :: items' =>
      let? kv := item in
      let? key := decode kv.1 in
      match key with
      | TxnWrite _ k =>
          let? raw := encode (Version k v) in
          rollback_loop v items' (acc ++ [raw; kv.1])
      | _ => errdata "expected TxnWrite"
      end
  end.

Definition rollback (t : TransactionState) : stM E unit :=
  if read_only t then st_ret tt
  else
    let! items := scan_key_prefix (PrefixTxnWrite (version t)) in
    let! keys := st_lift (rollback_loop (version t) items []) in
    st_iter engine_delete keys ;;;
    delete_key (TxnActive (version t)).

Definition write_version (t : TransactionState) (key : bytes) (value : option bytes) : stM E unit :=
  if read_only t then st_err ReadOnly
  else
    let first := match set_first (active t) with
                 | Some v => v
                 | None => u64_add (version t) 1
                 end in
    let! from := st_lift (encode (Version key first)) in
    let! to := st_lift (encode (Version key u64_max)) in
    let! items := st_read (engine_scan (Included from, Included to)) in
    match last items with
    | None => st_ret tt
    | Some item =>
        let! kv := st_lift item in
        let! k := st_lift (decode kv.1) in
        match k with
        | Version _ v => if is_visible t v then st_ret tt else st_err Serialization
        | _ => st_err (InvalidData "expected Key::Version")
        end
    end ;;;
    set_key (TxnWrite (version t) key) [] ;;;
    set_key (Version key (version t)) (bincode_serialize value).

Definition txn_delete (t : TransactionState) (key : bytes) : stM E unit :=
  write_version t key None.
Definition txn_set (t : TransactionState) (key value : bytes) : stM E unit :=
  write_version t key (Some value).

(** The [while] loop of [get], over the reversed scan. *)
Fixpoint get_loop (t : TransactionState) (items : list (outcome (bytes * bytes))) :
    outcome (option bytes) :=
  match items with
  | [] => Ok None
  | item :: items' =>
      let? kv := item in
      let? key := decode kv.1 in
      match key with
      | Version _ v => if is_visible t v then bincode_deserialize kv.2 else get_loop t items'
      | _ => errdata "expected Key::Version"
      end
  end.

Definition get (t : TransactionState) (key : bytes) : stM E (option bytes) :=
  let! from := st_lift (encode (Version key 0)) in
  let! to := st_lift (encode (Version key (version t))) in
  let! items := st_read (engine_scan (Included from, Included to)) in
  st_lift (get_loop t (rev items)).

(** ** Scans *)

(** [VersionIterator]: the items it yields of an engine scan. *)
Fixpoint version_iterator (t : TransactionState) (items : list (outcome (bytes * bytes))) :
    list (outcome (bytes * Z * bytes)) :=
  match items with
  | [] => []
  | Err e :: items' => Err e :: version_iterator t items'
  | Panic p :: items' => Panic p :: version_iterator t items'
  | Ok (key, value) :: items' =>
      match decode key with
      | Err e => Err e :: version_iterator t items'
      | Panic p => Panic p :: version_iterator t items'
      | Ok (Version key v) =>
          if is_visible t v then Ok (key, v, value) :: version_iterator t items'
          else version_iterator t items'
      | Ok _ => errdata "expected Key::Version" :: version_iterator t items'
      end
  end.

Record ScanIterator : Type := mkScan {
  scan_txn : TransactionState;
  buffer : list (bytes * bytes);
  remainder : option key_range;
}.

Definition BUFFER_SIZE : nat := if test then 2 else 32.

(** The [while] loop of [fill_buffer], over the peekable version iterator.
    [range_end] is the end of the range being scanned. *)
Fixpoint fill_loop (range_end : Bound bytes) (items : list (outcome (bytes * Z * bytes))) :
    stM ScanIterator unit :=
  match items with
  | [] => st_ret tt
  | item :: rest =>
      let! kvv := st_lift item in
      let '(key, _, value) := kvv in
      let emit : stM ScanIterator unit :=
        let! value := st_lift (bincode_deserialize value) in
        match value with
        | None => fill_loop range_end rest
        | Some value =>
            st_modify (fun s => mkScan (scan_txn s) (buffer s ++ [(key, value)]) (remainder s)) ;;;
            let! full := st_read (fun s => Ok (length (buffer s) =? BUFFER_SIZE)%nat) in
            if (full : bool) then
              match rest with
              | [] => st_ret tt
              | next :: _ =>
                  let! kvv' := st_lift next in
                  let '(next, v, _) := kvv' in
                  let! raw := st_lift (encode (Version next v)) in
                  st_modify (fun s =>
                    mkScan (scan_txn s) (buffer s) (Some (Included raw, range_end)))
              end
            else fill_loop range_end rest
        end in
      match rest with
      | Ok (next, _, _) :: _ => if bool_decide (next = key) then fill_loop range_end rest else emit
      | Err e :: _ => st_err e
      | Panic p :: _ => st_panic p
      | [] => emit
      end
  end.

Definition fill_buffer (e : E) : stM ScanIterator unit := fun s =>
  if (BUFFER_SIZE <=? length (buffer s))%nat then (Ok tt, s)
  else
    match remainder s with
    | None => (Ok tt, s)
    | Some range =>
        let s' := mkScan (scan_txn s) (buffer s) None in
        (let! items := st_lift (engine_scan range e) in
         fill_loop range.2 (version_iterator (scan_txn s) items)) s'
    end.

(** [Iterator::next] of the scan, on the engine as it is at that moment. *)
Definition scan_next (e : E) (s : ScanIterator) :
    option (outcome (bytes * bytes)) * ScanIterator :=
  let pop s := match buffer s with
               | [] => (None, s)
               | kv :: buf => (Some (Ok kv), mkScan (scan_txn s) buf (remainder s))
               end in
  match buffer s with
  | [] => match fill_buffer e s with
          | (Ok _, s') => pop s'
          | (Err err, s') => (Some (Err err), s')
          | (Panic p, s') => (Some (Panic p), s')
          end
  | _ :: _ => pop s
  end.

Definition scan (t : TransactionState) (range : key_range) : outcome ScanIterator :=
  let? start :=
    match range.1 with
    | Excluded k => outcome_map Excluded (encode (Version k u64_max))
    | Included k => outcome_map Included (encode (Version k 0))
    | Unbounded => outcome_map Included (encode (Version [] 0))
    end in
  let? end_ :=
    match range.2 with
    | Excluded k => outcome_map Excluded (encode (Version k 0))
    | Included k => outcome_map Included (encode (Version k u64_max))
    | Unbounded => outcome_map Excluded (encode_prefix PrefixUnversioned)
    end in
  Ok (mkScan t [] (Some (start, end_))).

Definition scan_prefix (t : TransactionState) (prefix : bytes) : outcome ScanIterator :=
  let? raw := encode_prefix (PrefixVersion prefix) in
  Ok (mkScan t [] (Some (prefix_range (take (length raw - 2) raw)))).

(** A client that drains the iterator while the engine goes through the states
    [es]: its [i]-th call to [next] sees [es i].  The collected items, up to
    and including the first failure. *)
Fixpoint drain (fuel : nat) (es : nat -> E) (s : ScanIterator) : outcome (list (bytes * bytes)) :=
  match fuel with
  | O => Panic "fuel exhausted"
  | S fuel' =>
      match scan_next (es 0%nat) s with
      | (None, _) => Ok []
      | (Some (Ok kv), s') => let? rest := drain fuel' (fun i => es (S i)) s' in Ok (kv :: rest)
      | (Some (Err e), _) => Err e
      | (Some (Panic p), _) => Panic p
      end
  end.

(** ** The [MVCC] front end *)
Definition get_unversioned (key : bytes) : stM E (option bytes) := get_key (Unversioned key).
Definition set_unversioned (key value : bytes) : stM E unit := set_key (Unversioned key) value.

Definition mvcc_status : stM E MvccStatus :=
  let! o := get_key NextVersion in
  let! versions := match o with
                   | Some v => let! n := st_lift (bincode_deserialize v) in st_ret (u64 (n - 1))
                   | None => st_ret 0
                   end in
  let! items := scan_key_prefix PrefixTxnActive in
  let! storage := st_read engine_status in
  st_ret (mkMvccStatus versions (Z.of_nat (length items)) storage).

End Mvcc.
