(* ===== verification/MvccKeys.v ===== *)
(** * The encoding of MVCC keys

    Every key and prefix encodes without failing; decoding inverts encoding;
    version keys are ordered by user key and then version; and the prefixes
    select exactly the keys of their kind. *)
From S2P Require Import Prelude Bytes Keycode KeycodeTheory Btree Engine Bincode Mvcc.

Definition kenc (k : Key) : bytes := enc (key_val k).

Definition key_valid (k : Key) : Prop :=
  match k with
  | TxnActive v | TxnActiveSnapshot v | TxnWrite v _ | Version _ v => is_u64 v
  | NextVersion | Unversioned _ => True
  end.

#[export] Instance Key_eq_dec : EqDecision Key.
Proof. solve_decision. Defined.

Lemma in_u64_true z : is_u64 z -> in_u64 z = true.
Proof. intros H. now apply in_u64_spec. Qed.

Lemma key_well_typed k : key_valid k -> well_typed key_shape (key_val k) = true.
Proof. destruct k; cbn; intros H; try rewrite in_u64_true by exact H; reflexivity. Qed.

Lemma key_shape_delimited : delimited key_shape = true.
Proof. reflexivity. Qed.

Lemma key_of_key_val k : key_of_val (key_val k) = Ok k.
Proof. now destruct k. Qed.

Lemma key_val_inj a b : key_val a = key_val b -> a = b.
Proof. intros H%(f_equal key_of_val). rewrite !key_of_key_val in H. congruence. Qed.

Ltac ser_eval :=
  unfold serialize; cbn [key_val prefix_val serialize_value st_iter enc map concat];
  unfold serialize_bytes, serialize_u64, st_bind, st_modify, st_ret, serialize_unit_variant;
  cbn -[to_be_bytes encode_bytes bytes_enc];
  rewrite ?encode_bytes_enc, ?app_nil_r, <- ?app_assoc; reflexivity.

Lemma encode_kenc k : encode k = Ok (kenc k).
Proof.
  unfold encode, kenc.
  destruct k; ser_eval.
Qed.

Lemma encode_prefix_enc p : encode_prefix p = Ok (enc (prefix_val p)).
Proof.
  unfold encode_prefix.
  destruct p; ser_eval.
Qed.

Lemma decode_kenc k : key_valid k -> decode (kenc k) = Ok k.
Proof.
  intros H. unfold decode, deserialize, kenc.
  pose proof (deser_ok_typed key_shape key_shape_delimited (key_val k) (key_well_typed k H) []) as E.
  rewrite app_nil_r in E. rewrite E. cbn [outcome_bind]. apply key_of_key_val.
Qed.

Lemma key_of_val_typed v k :
  well_typed key_shape v = true -> key_of_val v = Ok k -> v = key_val k /\ key_valid k.
Proof.
  unfold key_shape. intros Ht E. destruct v as [| | | | | | | |i vs]; try discriminate.
  apply well_typed_enum in Ht as (ts & Hn & Hf).
  do 6 (destruct i as [|i]; [inv Hn; repeat match goal with
      | H : Forall2 _ _ _ |- _ => inv H
      end; cbn in E; repeat case_match; try discriminate; inv E; split; [reflexivity|];
      cbn; try exact I; now apply in_u64_spec|]).
  now destruct i.
Qed.

Lemma decode_ok_inv b k : decode b = Ok k -> b = kenc k /\ key_valid k.
Proof.
  unfold decode. rewrite outcome_bind_ok. intros (v & Hv & Hk). unfold deserialize in Hv.
  destruct (deserialize_value key_shape b) as [[v'|e|p] rest] eqn:E; try discriminate.
  destruct rest; [|discriminate]. inv Hv.
  apply (deser_sound_typed key_shape key_shape_delimited) in E as [Ht ->].
  destruct (key_of_val_typed _ _ Ht Hk) as [-> Hval]. unfold kenc. now rewrite app_nil_r.
Qed.

Lemma kenc_inj a b : key_valid a -> key_valid b -> kenc a = kenc b -> a = b.
Proof.
  intros Ha Hb H%(f_equal decode). rewrite !decode_kenc in H by assumption. congruence.
Qed.

Lemma u64_256 v : is_u64 v -> 0 <= v < 256 ^ Z.of_nat 8.
Proof. unfold is_u64, u64_max. change (256 ^ Z.of_nat 8) with 18446744073709551616. lia. Qed.

Lemma kenc_Version k v : kenc (Version k v) = x04 :: bytes_enc k ++ to_be_bytes 8 v.
Proof. unfold kenc. cbn -[to_be_bytes]. now rewrite app_nil_r. Qed.

(** The order of version keys. *)
Lemma kenc_Version_cmp k1 v1 k2 v2 :
  is_u64 v1 -> is_u64 v2 ->
  lex_cmp (kenc (Version k1 v1)) (kenc (Version k2 v2)) = then_cmp (lex_cmp k1 k2) (v1 ?= v2).
Proof.
  intros H1%u64_256 H2%u64_256. rewrite !kenc_Version.
  change (x04 :: ?l) with ([x04] ++ l). rewrite lex_cmp_app_same, lex_cmp_bytes_enc. f_equal.
  pose proof (lex_cmp_be_bytes 8 v1 v2 [] [] H1 H2) as E. rewrite !app_nil_r in E. rewrite E.
  now destruct (v1 ?= v2).
Qed.

Lemma kenc_Version_lt k1 v1 k2 v2 :
  is_u64 v1 -> is_u64 v2 ->
  lex_lt (kenc (Version k1 v1)) (kenc (Version k2 v2)) = true <->
  lex_lt k1 k2 = true \/ k1 = k2 /\ v1 < v2.
Proof.
  intros H1 H2. rewrite !lex_lt_cmp, kenc_Version_cmp by assumption.
  rewrite <- lex_cmp_eq. destruct (lex_cmp k1 k2) eqn:E; cbn.
  - split; [intros H; right; split; [reflexivity|exact H]|intros [[=]|[_ H]]; exact H].
  - split; [now left|reflexivity].
  - split; [discriminate|intros [[=]|[[=] _]]].
Qed.

Lemma kenc_Version_le k1 v1 k2 v2 :
  is_u64 v1 -> is_u64 v2 ->
  lex_le (kenc (Version k1 v1)) (kenc (Version k2 v2)) = true <->
  lex_lt k1 k2 = true \/ k1 = k2 /\ v1 <= v2.
Proof.
  intros H1 H2. rewrite lex_le_cmp, kenc_Version_cmp, lex_lt_cmp by assumption.
  rewrite <- lex_cmp_eq. destruct (lex_cmp k1 k2) eqn:E; cbn.
  - split; [intros H; right; split; [reflexivity|exact H]|intros [[=]|[_ H]]; exact H].
  - split; [now left|discriminate].
  - split; [tauto|intros [[=]|[[=] _]]].
Qed.

(** The first byte of a key is its variant. *)
Definition key_tag (k : Key) : byte :=
  match k with
  | NextVersion => x00 | TxnActive _ => x01 | TxnActiveSnapshot _ => x02
  | TxnWrite _ _ => x03 | Version _ _ => x04 | Unversioned _ => x05
  end.

Lemma kenc_tag k : exists s, kenc k = key_tag k :: s.
Proof. destruct k; eexists; reflexivity. Qed.

Lemma lex_lt_tag a b s t :
  a <> b -> lex_lt (a :: s) (b :: t) = byte_lt a b.
Proof. intros H. cbn. now rewrite bool_decide_false. Qed.

(** Keys between two version keys are version keys. *)
Lemma between_versions k lo hi k1 v1 :
  lo = kenc (Version k1 v1) ->
  (exists k2 v2, hi = kenc (Version k2 v2)) ->
  lex_le lo (kenc k) = true -> lex_le (kenc k) hi = true ->
  exists uk v, k = Version uk v.
Proof.
  intros -> (k2 & v2 & ->) H1 H2. rewrite !lex_le_not_lt in *. rewrite !kenc_Version in *.
  destruct (kenc_tag k) as [s Hs]. rewrite Hs in *.
  apply negb_true_iff in H1, H2.
  destruct k; cbn [key_tag] in *; try (exists key, version; reflexivity); exfalso;
    rewrite lex_lt_tag in H1, H2 by discriminate; try discriminate H1; discriminate H2.
Qed.

Lemma is_prefix_TxnActive k :
  is_prefix (enc (prefix_val PrefixTxnActive)) (kenc k) = true <-> exists v, k = TxnActive v.
Proof.
  destruct k; cbn -[to_be_bytes]; split; try discriminate; try (intros [v' [=]]); eauto.
Qed.

Lemma to_be_bytes_prefix n a b s :
  0 <= a < 256 ^ Z.of_nat n -> 0 <= b < 256 ^ Z.of_nat n ->
  is_prefix (to_be_bytes n a) (to_be_bytes n b ++ s) = true <-> a = b.
Proof.
  intros Ha Hb. rewrite is_prefix_spec. split.
  - intros [t Ht]. apply (to_be_bytes_inj n); [exact Ha|exact Hb|].
    apply (f_equal (take n)) in Ht.
    rewrite !take_app_le, !take_ge in Ht by (rewrite length_to_be_bytes; lia). congruence.
  - intros ->. eauto.
Qed.

Lemma is_prefix_TxnWrite v k :
  is_u64 v -> key_valid k ->
  is_prefix (enc (prefix_val (PrefixTxnWrite v))) (kenc k) = true <-> exists uk, k = TxnWrite v uk.
Proof.
  intros Hv Hk. unfold kenc.
  destruct k as [|v'|v'|v' uk|uk v'|uk]; cbn -[to_be_bytes bytes_enc]; rewrite ?app_nil_r;
    try (split; [discriminate|intros [uk' [=]]]).
  rewrite bool_decide_true, andb_true_l by reflexivity. rewrite to_be_bytes_prefix by (apply u64_256; assumption).
  split; [intros ->; eauto|]. now intros [uk' [= -> _]].
Qed.

(** The scan prefix: the key prefix without its terminator. *)
Lemma prefix_version_trunc p :
  let raw := enc (prefix_val (PrefixVersion p)) in take (length raw - 2) raw = x04 :: esc_all p.
Proof.
  intros raw. assert (raw = (x04 :: esc_all p) ++ [x00; x00]) as ->.
  { unfold raw. cbn -[bytes_enc]. now rewrite app_nil_r. }
  rewrite length_app. replace (_ + _ - 2)%nat with (length (x04 :: esc_all p)) by (cbn; lia).
  apply take_app_length.
Qed.

Lemma is_prefix_esc p k t : is_prefix (esc_all p) (bytes_enc k ++ t) = is_prefix p k.
Proof.
  unfold bytes_enc. revert k; induction p as [|x p IH]; intros [|y k]; try reflexivity;
    cbn [esc_all]; rewrite <- ?app_assoc; repeat case_bool_decide; subst;
    cbn -[app]; cbn [app is_prefix]; rewrite ?bool_decide_true, ?bool_decide_false by congruence;
    cbn [andb]; auto; rewrite <- ?(IH k), <- ?app_assoc; try reflexivity.
Qed.

Lemma is_prefix_scan p k :
  key_valid k ->
  is_prefix (x04 :: esc_all p) (kenc k) = true <->
  exists uk v, k = Version uk v /\ is_prefix p uk = true.
Proof.
  intros Hk. destruct k as [|v'|v'|v' uk|uk v'|uk];
    try (cbn; split; [discriminate|intros (? & ? & [=] & _)]).
  rewrite kenc_Version. cbn [is_prefix]. rewrite bool_decide_true by reflexivity. cbn [andb].
  rewrite is_prefix_esc. split; [eauto|]. now intros (? & ? & [= -> ->] & H).
Qed.
