(* ===== verification/MvccAbs.v ===== *)
(** * MVCC operations on typed databases

    [mvcc_db] is the logical content of the MVCC keyspace and [rep] relates
    it to the raw key/value pairs.  Each operation of [Mvcc] is shown to act on
    [mvcc_db] as a simple function, for any storage engine and value codec that
    satisfy their interfaces; the isolation properties are proved about these
    functions in [MvccSpec]. *)
From S2P Require Import Prelude Bytes Keycode KeycodeTheory Btree Engine Bincode Mvcc MvccKeys.

(** ** Databases *)
Record mvcc_db : Type := mkDb {
  db_next : Z;
  db_active : gset Z;
  db_snaps : gmap Z (gset Z);
  db_writes : gset (Z * bytes);
  db_vers : gmap (bytes * Z) (option bytes);
  db_unver : gmap bytes bytes;
}.

Definition db_empty : mvcc_db := mkDb 1 ∅ ∅ ∅ ∅ ∅.

(** The active set recorded at the start of a version. *)
Definition snapshot (A : mvcc_db) (v : Z) : gset Z := default ∅ (db_snaps A !! v).

Definition has_version (A : mvcc_db) (k : bytes) (v : Z) : Prop := is_Some (db_vers A !! (k, v)).

(** The invariant.  [inv_active_snap]: a transaction that is still active was
    active when every later one began.  [inv_visible]: a version was only ever
    written on top of versions its writer could see.  [inv_interval]: the
    versions a snapshot sees as active were active throughout. *)
Record db_inv (A : mvcc_db) : Prop := {
  inv_next : 1 <= db_next A <= u64_max;
  inv_active v : v ∈ db_active A -> 1 <= v < db_next A;
  inv_snap v w : v ∈ snapshot A w -> 1 <= v < w /\ w < db_next A;
  inv_snap_key w : is_Some (db_snaps A !! w) -> 1 <= w < db_next A;
  inv_vers k v : has_version A k v -> 1 <= v < db_next A;
  inv_writes v k : (v, k) ∈ db_writes A <-> v ∈ db_active A /\ has_version A k v;
  inv_active_snap v w : v ∈ db_active A -> v < w < db_next A -> v ∈ snapshot A w;
  inv_interval v m w : v ∈ snapshot A w -> v < m < w -> v ∈ snapshot A m;
  inv_visible k v w : has_version A k v -> has_version A k w -> v < w -> v ∉ snapshot A w;
}.

(** ** The effect of each operation *)
Definition db_begin (A : mvcc_db) : mvcc_db :=
  let v := db_next A in
  mkDb (v + 1) ({[v]} ∪ db_active A)
    (if bool_decide (db_active A = ∅) then db_snaps A else <[v := db_active A]> (db_snaps A))
    (db_writes A) (db_vers A) (db_unver A).

Definition db_commit (v : Z) (A : mvcc_db) : mvcc_db :=
  mkDb (db_next A) (db_active A ∖ {[v]}) (db_snaps A)
    (filter (fun w => w.1 <> v) (db_writes A)) (db_vers A) (db_unver A).

Definition db_rollback (v : Z) (A : mvcc_db) : mvcc_db :=
  mkDb (db_next A) (db_active A ∖ {[v]}) (db_snaps A)
    (filter (fun w => w.1 <> v) (db_writes A))
    (filter (fun kv => kv.1.2 <> v) (db_vers A)) (db_unver A).

Definition db_write (v : Z) (k : bytes) (value : option bytes) (A : mvcc_db) : mvcc_db :=
  mkDb (db_next A) (db_active A) (db_snaps A) ({[(v, k)]} ∪ db_writes A)
    (<[(k, v) := value]> (db_vers A)) (db_unver A).

Definition db_set_unversioned (k value : bytes) (A : mvcc_db) : mvcc_db :=
  mkDb (db_next A) (db_active A) (db_snaps A) (db_writes A) (db_vers A) (<[k := value]> (db_unver A)).

(** The value a transaction reads: that of the greatest version it sees. *)
Definition reads (A : mvcc_db) (t : TransactionState) (k : bytes) (r : option bytes) : Prop :=
  (exists v, db_vers A !! (k, v) = Some r /\ is_visible t v = true /\
     forall v', has_version A k v' -> is_visible t v' = true -> v' <= v) \/
  (r = None /\ forall v, is_visible t v = true -> ~ has_version A k v).

Section Refinement.
Context {E : Type} `{EngineReads E} {EW : EngineWrites E}.
Context {BV : Bincode is_u64} {BS : Bincode all_u64} {BO : Bincode (@any (option bytes))}.

(** ** Representation *)
Definition db_lookup (A : mvcc_db) (K : Key) : option bytes :=
  match K with
  | NextVersion => if db_next A =? 1 then None else Some (bincode_serialize (db_next A))
  | TxnActive v => if bool_decide (v ∈ db_active A) then Some [] else None
  | TxnActiveSnapshot v => bincode_serialize <$> db_snaps A !! v
  | TxnWrite v k => if bool_decide ((v, k) ∈ db_writes A) then Some [] else None
  | Version k v => bincode_serialize <$> db_vers A !! (k, v)
  | Unversioned k => db_unver A !! k
  end.

Definition rep (M : gmap bytes bytes) (A : mvcc_db) : Prop :=
  (forall K, key_valid K -> M !! kenc K = db_lookup A K) /\
  (forall raw, is_Some (M !! raw) -> exists K, key_valid K /\ raw = kenc K).

Definition db_rep (e : E) (A : mvcc_db) : Prop := engine_inv e /\ rep (engine_abs e) A.

Lemma rep_empty : rep ∅ db_empty.
Proof.
  split; [|intros raw [v Hv]; discriminate].
  intros K _. rewrite lookup_empty. destruct K; try reflexivity; unfold db_lookup;
    now rewrite bool_decide_false by apply not_elem_of_empty.
Qed.

(** Two raw maps that agree on the keys they changed. *)
Lemma rep_insert M A A' K v :
  rep M A -> key_valid K ->
  (forall K', key_valid K' -> db_lookup A' K' = if decide (K' = K) then Some v else db_lookup A K') ->
  rep (<[kenc K := v]> M) A'.
Proof.
  intros [H1 H2] HK Hl. split.
  - intros K' HK'. rewrite Hl by exact HK'. destruct (decide (K' = K)) as [->|Hne].
    + apply lookup_insert_eq.
    + rewrite lookup_insert_ne by (intros F; apply kenc_inj in F; [congruence|assumption..]). now apply H1.
  - intros raw Hs. destruct (decide (raw = kenc K)) as [->|Hne]; [eauto|].
    rewrite lookup_insert_ne in Hs by congruence. auto.
Qed.

Lemma rep_delete_all M A A' Ks :
  rep M A -> Forall key_valid Ks ->
  (forall K', key_valid K' -> db_lookup A' K' = if decide (K' ∈ Ks) then None else db_lookup A K') ->
  rep (delete_all (map kenc Ks) M) A'.
Proof.
  intros [H1 H2] HK Hl. split.
  - intros K' HK'. rewrite Hl, lookup_delete_all by exact HK'.
    assert (kenc K' ∈ map kenc Ks <-> K' ∈ Ks) as Hin.
    { split; intros F; [|now apply list_elem_of_fmap_2].
      apply list_elem_of_fmap in F as (K & EK & F). rewrite Forall_forall in HK.
      apply kenc_inj in EK as ->; auto. }
    destruct (decide (K' ∈ Ks)) as [Hd|Hd].
    + now rewrite decide_True by now apply Hin.
    + rewrite decide_False by now rewrite Hin. now apply H1.
  - intros raw Hs. rewrite lookup_delete_all in Hs. destruct (decide _); [destruct Hs; discriminate|auto].
Qed.

Lemma rep_unique_lookup M A K : rep M A -> key_valid K -> M !! kenc K = db_lookup A K.
Proof. intros [H1 _]. apply H1. Qed.

Lemma get_key_spec e A K :
  db_rep e A -> key_valid K -> get_key K e = (Ok (db_lookup A K), e).
Proof.
  intros [Hi Hr] HK. unfold get_key, st_bind, st_lift, st_read. rewrite encode_kenc.
  rewrite engine_get_spec by exact Hi. now rewrite (rep_unique_lookup _ A).
Qed.

Lemma set_key_spec e A A' K v :
  db_rep e A -> key_valid K ->
  (forall K', key_valid K' -> db_lookup A' K' = if decide (K' = K) then Some v else db_lookup A K') ->
  exists e', set_key K v e = (Ok tt, e') /\ db_rep e' A'.
Proof.
  intros [Hi Hr] HK Hl. unfold set_key, st_bind, st_lift. rewrite encode_kenc.
  destruct (engine_set_spec e (kenc K) v Hi) as (e' & Ee & Hi' & Ha). exists e'.
  split; [exact Ee|]. split; [exact Hi'|]. rewrite Ha. now apply (rep_insert _ A).
Qed.

Lemma delete_key_spec e A A' K :
  db_rep e A -> key_valid K ->
  (forall K', key_valid K' -> db_lookup A' K' = if decide (K' = K) then None else db_lookup A K') ->
  exists e', delete_key K e = (Ok tt, e') /\ db_rep e' A'.
Proof.
  intros [Hi Hr] HK Hl. unfold delete_key, st_bind, st_lift. rewrite encode_kenc.
  destruct (engine_delete_spec e (kenc K) Hi) as (e' & Ee & Hi' & Ha). exists e'.
  split; [exact Ee|]. split; [exact Hi'|]. rewrite Ha.
  change (delete (kenc K) (engine_abs e)) with (delete_all (map kenc [K]) (engine_abs e)).
  apply (rep_delete_all _ A); [exact Hr|now constructor|]. intros K' HK'. rewrite Hl by exact HK'.
  destruct (decide (K' = K)) as [->|Hne]; [now rewrite decide_True by (apply elem_of_cons; auto)|].
  rewrite decide_False; [reflexivity|]. rewrite elem_of_cons, elem_of_nil. tauto.
Qed.

Lemma delete_all_spec e A A' Ks :
  db_rep e A -> Forall key_valid Ks ->
  (forall K', key_valid K' -> db_lookup A' K' = if decide (K' ∈ Ks) then None else db_lookup A K') ->
  exists e', st_iter engine_delete (map kenc Ks) e = (Ok tt, e') /\ db_rep e' A'.
Proof.
  intros [Hi Hr] HK Hl. destruct (st_iter_delete (map kenc Ks) e Hi) as (e' & Ee & Hi' & Ha).
  exists e'. split; [exact Ee|]. split; [exact Hi'|]. rewrite Ha. now apply (rep_delete_all _ A).
Qed.

(** ** Scans *)
Definition raw_item (kv : Key * bytes) : outcome (bytes * bytes) := Ok (kenc kv.1, kv.2).

Lemma scan_rep e A r :
  db_rep e A -> range_ok r = true ->
  exists l, engine_scan r e = Ok (map raw_item l) /\
    StronglySorted (fun a b => lex_lt (kenc a.1) (kenc b.1) = true) l /\
    (forall K v, In (K, v) l <->
       key_valid K /\ db_lookup A K = Some v /\ in_range r (kenc K) = true).
Proof.
  intros [Hi [Hr1 Hr2]] Hok. destruct (engine_scan_spec e r Hi Hok) as (l & El & Hs & Hin).
  assert (exists kl, l = map (fun kv => (kenc kv.1, kv.2)) kl /\ Forall (fun kv => key_valid kv.1) kl)
    as (kl & -> & Hv).
  { clear El Hs. assert (forall k v, In (k, v) l -> exists K, key_valid K /\ k = kenc K) as Hk.
    { intros k v F. apply Hin in F as [F _]. eapply Hr2. eauto. }
    clear Hin. induction l as [|[k v] l IH]; [now exists []|].
    destruct (Hk k v (or_introl eq_refl)) as (K & HK & ->).
    destruct IH as (kl & -> & Hkl); [intros k' v' F; eapply Hk; right; exact F|].
    exists ((K, v) :: kl). split; [reflexivity|now constructor]. }
  exists kl. split; [|split].
  - rewrite El, map_map. f_equal.
  - clear -Hs. induction kl as [|[K v] kl IH]; [constructor|]. inv Hs. constructor; [auto|].
    rewrite List.Forall_forall in *. intros [K' v'] F. apply (H2 (kenc K', v')).
    apply in_map_iff. now exists (K', v').
  - intros K v. split.
    + intros F. assert (key_valid K) as HK by (rewrite List.Forall_forall in Hv; exact (Hv _ F)).
      assert (In (kenc K, v) (map (fun kv => (kenc kv.1, kv.2)) kl)) as F'
        by (apply in_map_iff; now exists (K, v)).
      apply Hin in F' as [F1 F2]. rewrite Hr1 in F1 by exact HK. auto.
    + intros (HK & F1 & F2). rewrite <- Hr1 in F1 by exact HK.
      pose proof (proj2 (Hin _ _) (conj F1 F2)) as F. apply in_map_iff in F as ([K' v'] & [= E1 <-] & F).
      rewrite List.Forall_forall in Hv. pose proof (Hv _ F) as HK'. apply kenc_inj in E1 as ->; auto.
Qed.

Lemma scan_prefix_rep e A p :
  db_rep e A ->
  exists l, scan_key_prefix p e = (Ok (map raw_item l), e) /\
    StronglySorted (fun a b => lex_lt (kenc a.1) (kenc b.1) = true) l /\
    (forall K v, In (K, v) l <->
       key_valid K /\ db_lookup A K = Some v /\ is_prefix (enc (prefix_val p)) (kenc K) = true).
Proof.
  intros Hr. destruct (scan_rep e A (prefix_range (enc (prefix_val p))) Hr (range_ok_prefix _))
    as (l & El & Hs & Hin).
  exists l. split; [|split; [exact Hs|]].
  - unfold scan_key_prefix, st_bind, st_lift, st_read. rewrite encode_prefix_enc.
    unfold engine_scan_prefix. now rewrite El.
  - intros K v. rewrite Hin. unfold in_range. now rewrite in_prefix_range_cmp.
Qed.

Lemma inv_active_u64 A : db_inv A -> all_u64 (db_active A).
Proof.
  intros Hi v Hv. pose proof (inv_active A Hi v Hv). pose proof (inv_next A Hi). unfold is_u64. lia.
Qed.

(** Deleting the write records of [v], and its entry of the active set. *)
Lemma writes_deleted_iff A v (Ks : list Key) :
  is_u64 v -> (forall K, K ∈ Ks <-> exists uk, K = TxnWrite v uk /\ (v, uk) ∈ db_writes A) ->
  forall K', key_valid K' ->
  db_lookup (mkDb (db_next A) (db_active A) (db_snaps A)
               (filter (fun w => w.1 <> v) (db_writes A)) (db_vers A) (db_unver A)) K' =
  if decide (K' ∈ Ks) then None else db_lookup A K'.
Proof.
  intros Hu HKs K' HK'. destruct (decide (K' ∈ Ks)) as [F|F].
  - apply HKs in F as (uk & -> & F). cbn. rewrite bool_decide_false; [reflexivity|].
    rewrite elem_of_filter. cbn. tauto.
  - destruct K'; try reflexivity. cbn. apply if_bool_decide_ext.
    rewrite elem_of_filter. cbn. split; [tauto|]. intros Hw. split; [|exact Hw].
    intros ->. apply F, HKs. eauto.
Qed.

Lemma active_deleted A v K' :
  key_valid K' ->
  db_lookup (mkDb (db_next A) (db_active A ∖ {[v]}) (db_snaps A) (db_writes A) (db_vers A) (db_unver A)) K' =
  if decide (K' = TxnActive v) then None else db_lookup A K'.
Proof.
  intros _. destruct K' as [|w| | | |]; try reflexivity. cbn.
  destruct (decide (w = v)) as [->|Hne].
  - rewrite decide_True by reflexivity. now rewrite bool_decide_false by set_solver.
  - rewrite decide_False by congruence. apply if_bool_decide_ext. set_solver.
Qed.

(** ** Beginning transactions *)
Lemma next_version_spec e A :
  db_rep e A -> db_inv A -> next_version e = (Ok (db_next A), e).
Proof.
  intros Hr Hi. unfold next_version, st_bind. rewrite (get_key_spec e A) by (auto; exact I).
  pose proof (inv_next A Hi). cbn [db_lookup]. destruct (Z.eqb_spec (db_next A) 1) as [->|Hne]; [reflexivity|].
  unfold st_lift. rewrite bincode_roundtrip; [reflexivity|]. unfold is_u64. lia.
Qed.

Lemma scan_active_loop_spec (l : list (Key * bytes)) acc :
  (forall K x, In (K, x) l -> key_valid K /\ exists v, K = TxnActive v) ->
  exists s, scan_active_loop (map raw_item l) acc = Ok s /\
    forall v, v ∈ s <-> v ∈ acc \/ exists x, In (TxnActive v, x) l.
Proof.
  revert acc; induction l as [|[K x] l IH]; intros acc Hl; cbn [map scan_active_loop].
  { exists acc. split; [reflexivity|]. intros v. split; [auto|]. now intros [Hv|[x []]]. }
  destruct (Hl K x (or_introl eq_refl)) as [HK [v ->]]. cbn [raw_item outcome_bind fst].
  rewrite decode_kenc by exact HK. cbn [outcome_bind].
  destruct (IH ({[v]} ∪ acc)) as (s & Es & Hs); [intros K' x' Hin; eapply Hl; right; exact Hin|].
  exists s. split; [exact Es|]. intros v'. rewrite Hs, elem_of_union, elem_of_singleton. cbn [In].
  split.
  - intros [[->|Ha]|[x' Hin]]; eauto.
  - intros [Ha|[x' [[= ->]|Hin]]]; eauto.
Qed.

Lemma scan_active_spec e A :
  db_rep e A -> all_u64 (db_active A) -> scan_active e = (Ok (db_active A), e).
Proof.
  intros Hr Hi. destruct (scan_prefix_rep e A PrefixTxnActive Hr) as (l & El & _ & Hin).
  unfold scan_active, st_bind. rewrite El. unfold st_lift.
  destruct (scan_active_loop_spec l ∅) as (s & -> & Hs).
  { intros K x F. apply Hin in F as (HK & _ & F). split; [exact HK|]. now apply is_prefix_TxnActive. }
  do 2 f_equal. apply set_eq. intros v. rewrite Hs, elem_of_empty. split.
  - intros [[]|[x F]]. apply Hin in F as (_ & F & _). cbn in F. case_bool_decide; [assumption|discriminate].
  - intros Hv. right. exists []. apply Hin. split; [exact (Hi v Hv)|]. cbn [db_lookup]. rewrite bool_decide_true by exact Hv.
    split; [reflexivity|]. apply is_prefix_TxnActive. eauto.
Qed.

Lemma begin_spec e A :
  db_rep e A -> db_inv A -> db_next A < u64_max ->
  exists e', begin e = (Ok (mkTxn (db_next A) false (db_active A)), e') /\ db_rep e' (db_begin A).
Proof.
  intros Hr Hi Hlt. pose proof (inv_next A Hi) as Hn. unfold begin.
  unfold st_bind at 1. rewrite (next_version_spec e A) by assumption.
  rewrite u64_add_small by (unfold is_u64; lia).
  set (n := db_next A) in *.
  set (A1 := mkDb (n + 1) (db_active A) (db_snaps A) (db_writes A) (db_vers A) (db_unver A)).
  destruct (set_key_spec e A A1 NextVersion (bincode_serialize (n + 1)) Hr I) as (e1 & E1 & Hr1).
  { intros K' _. destruct K'; cbn; try reflexivity. destruct (Z.eqb_spec (n + 1) 1); [lia|reflexivity]. }
  unfold st_bind at 1. rewrite E1.
  unfold st_bind at 1. rewrite (scan_active_spec e1 A1 Hr1) by exact (inv_active_u64 A Hi).
  cbn [A1 db_active].
  set (A2 := mkDb (n + 1) (db_active A) (db_snaps (db_begin A)) (db_writes A) (db_vers A) (db_unver A)).
  assert (exists e2, (if bool_decide (db_active A = ∅) then st_ret tt
            else set_key (TxnActiveSnapshot n) (bincode_serialize (db_active A))) e1 = (Ok tt, e2)
            /\ db_rep e2 A2) as (e2 & E2 & Hr2).
  { unfold A2, db_begin. cbn [db_snaps]. case_bool_decide as Ha; [exists e1; split; [reflexivity|exact Hr1]|].
    apply (set_key_spec e1 A1); [exact Hr1|cbn; unfold is_u64; lia|].
    intros K' _. destruct K'; cbn; try reflexivity. fold n.
    destruct (decide (n = version)) as [<-|Hne].
    - rewrite decide_True by reflexivity. now rewrite lookup_insert_eq.
    - rewrite decide_False by congruence. now rewrite lookup_insert_ne. }
  unfold st_bind at 1. rewrite E2.
  destruct (set_key_spec e2 A2 (db_begin A) (TxnActive n) [] Hr2) as (e3 & E3 & Hr3).
  { cbn. unfold is_u64. lia. }
  { intros K' _. destruct K'; cbn; try reflexivity. fold n.
    destruct (decide (version = n)) as [->|Hne].
    - rewrite decide_True by reflexivity. now rewrite bool_decide_true by set_solver.
    - rewrite decide_False by congruence. apply if_bool_decide_ext. set_solver. }
  unfold st_bind. rewrite E3. exists e3. split; [reflexivity|exact Hr3].
Qed.

Lemma begin_read_only_spec e A as_of :
  db_rep e A -> db_inv A -> (forall v, as_of = Some v -> is_u64 v) ->
  begin_read_only as_of e =
  (match as_of with
   | None => Ok (mkTxn (db_next A) true (db_active A))
   | Some v => if db_next A <=? v then Err (InvalidInput "version does not exist")
               else Ok (mkTxn v true (snapshot A v))
   end, e).
Proof.
  intros Hr Hi Hu. unfold begin_read_only. unfold st_bind at 1.
  rewrite (next_version_spec e A) by assumption. destruct as_of as [v|].
  - specialize (Hu v eq_refl). destruct (db_next A <=? v); [reflexivity|].
    unfold st_bind at 1. rewrite (get_key_spec e A) by assumption. cbn [db_lookup]. unfold snapshot.
    destruct (db_snaps A !! v) as [s|] eqn:Es; [|reflexivity]. cbn. unfold st_bind, st_lift.
    rewrite bincode_roundtrip; [reflexivity|]. intros w Hw.
    pose proof (inv_snap A Hi w v) as F. unfold snapshot in F. rewrite Es in F. specialize (F Hw).
    pose proof (inv_next A Hi). unfold is_u64. lia.
  - unfold st_bind. now rewrite (scan_active_spec e A Hr) by exact (inv_active_u64 A Hi).
Qed.

Lemma resume_spec e A t :
  db_rep e A -> is_u64 (version t) ->
  resume t e = (if read_only t || bool_decide (version t ∈ db_active A) then Ok t
                else Err (InvalidInput "no active transaction at version"), e).
Proof.
  intros Hr Hu. unfold resume. destruct (read_only t); [reflexivity|].
  unfold st_bind. rewrite (get_key_spec e A) by assumption. cbn [db_lookup orb].
  now case_bool_decide.
Qed.

(** ** Ending transactions *)
(** The write records of a version, as the engine lists them. *)
Lemma scan_writes_spec e A v :
  db_rep e A -> is_u64 v ->
  exists uks, scan_key_prefix (PrefixTxnWrite v) e =
      (Ok (map (fun uk => raw_item (TxnWrite v uk, [])) uks), e) /\
    forall uk, uk ∈ uks <-> (v, uk) ∈ db_writes A.
Proof.
  intros Hr Hu. destruct (scan_prefix_rep e A (PrefixTxnWrite v) Hr) as (l & El & _ & Hin).
  assert (forall K x, In (K, x) l -> exists uk, (K, x) = (TxnWrite v uk, []) /\ (v, uk) ∈ db_writes A) as Hl.
  { intros K x F. apply Hin in F as (HK & F1 & F2).
    apply is_prefix_TxnWrite in F2 as [uk ->]; [|assumption..]. cbn in F1.
    case_bool_decide; [inv F1; eauto|discriminate]. }
  assert (exists uks, l = map (fun uk => (TxnWrite v uk, [])) uks) as [uks ->].
  { clear El Hin. induction l as [|[K x] l IH]; [now exists []|].
    destruct (Hl K x (or_introl eq_refl)) as (uk & [= -> ->] & _).
    destruct IH as [uks ->]; [intros K' x' F; apply Hl; now right|]. now exists (uk :: uks). }
  exists uks. split; [now rewrite El, map_map|]. intros uk. rewrite list_elem_of_In. split.
  - intros F. destruct (Hl (TxnWrite v uk) []) as (uk' & [= <-] & F'); [|exact F'].
    apply in_map_iff. eauto.
  - intros F. assert (In (TxnWrite v uk, []) (map (fun uk => (TxnWrite v uk, [] : bytes)) uks)) as F'.
    { apply Hin. split; [exact Hu|]. cbn [db_lookup]. rewrite bool_decide_true by exact F.
      split; [reflexivity|]. apply is_prefix_TxnWrite; eauto. }
    apply in_map_iff in F' as (uk' & [= <-] & F'). exact F'.
Qed.

Lemma commit_spec e A t :
  db_rep e A -> is_u64 (version t) -> read_only t = false ->
  exists e', commit t e = (Ok tt, e') /\ db_rep e' (db_commit (version t) A).
Proof.
  intros Hr Hu Hro. unfold commit. rewrite Hro. set (v := version t) in *.
  destruct (scan_writes_spec e A v Hr Hu) as (uks & El & Hin).
  unfold st_bind at 1. rewrite El. unfold st_bind at 1, st_lift.
  set (Ks := map (TxnWrite v) uks).
  replace (map _ (map _ uks)) with (map Ok (map kenc Ks)) by (unfold Ks; now rewrite !map_map).
  rewrite try_collect_map_ok.
  set (A1 := mkDb (db_next A) (db_active A) (db_snaps A)
               (filter (fun w => w.1 <> v) (db_writes A)) (db_vers A) (db_unver A)).
  destruct (delete_all_spec e A A1 Ks Hr) as (e1 & E1 & Hr1).
  { apply List.Forall_forall. intros K (uk & <- & _)%in_map_iff. exact Hu. }
  { apply writes_deleted_iff; [exact Hu|]. intros K. unfold Ks. rewrite list_elem_of_In, in_map_iff.
    setoid_rewrite <- list_elem_of_In. setoid_rewrite Hin. naive_solver. }
  unfold st_bind. rewrite E1. apply (delete_key_spec e1 A1); [exact Hr1|exact Hu|].
  exact (active_deleted A1 v).
Qed.

Definition rollback_keys (v : Z) (uks : list bytes) : list Key :=
  flat_map (fun uk => [Version uk v; TxnWrite v uk]) uks.

Lemma rollback_loop_spec v uks acc :
  is_u64 v ->
  rollback_loop v (map (fun uk => raw_item (TxnWrite v uk, [])) uks) acc =
  Ok (acc ++ map kenc (rollback_keys v uks)).
Proof.
  intros Hu. revert acc; induction uks as [|uk uks IH]; intros acc; cbn -[kenc encode decode].
  { now rewrite app_nil_r. }
  rewrite decode_kenc by exact Hu. cbn [outcome_bind]. rewrite encode_kenc. cbn [outcome_bind].
  rewrite IH. now rewrite <- app_assoc.
Qed.

Lemma rollback_spec e A t :
  db_rep e A -> db_inv A -> version t ∈ db_active A -> read_only t = false ->
  exists e', rollback t e = (Ok tt, e') /\ db_rep e' (db_rollback (version t) A).
Proof.
  intros Hr Hi Ha Hro. pose proof (inv_active_u64 A Hi _ Ha) as Hu.
  unfold rollback. rewrite Hro. set (v := version t) in *.
  destruct (scan_writes_spec e A v Hr Hu) as (uks & El & Hin).
  unfold st_bind at 1. rewrite El. unfold st_bind at 1, st_lift.
  rewrite rollback_loop_spec by exact Hu. cbn [app].
  set (A1 := mkDb (db_next A) (db_active A) (db_snaps A)
               (filter (fun w => w.1 <> v) (db_writes A))
               (filter (fun kv => kv.1.2 <> v) (db_vers A)) (db_unver A)).
  assert (forall K, K ∈ rollback_keys v uks <->
            exists uk, (v, uk) ∈ db_writes A /\ (K = Version uk v \/ K = TxnWrite v uk)) as HK.
  { intros K. unfold rollback_keys. rewrite list_elem_of_In, in_flat_map.
    setoid_rewrite <- Hin. setoid_rewrite list_elem_of_In. cbn. split.
    - intros (uk & F & [<-|[<-|[]]]); eauto.
    - intros (uk & F & [->| ->]); eauto. }
  destruct (delete_all_spec e A A1 (rollback_keys v uks) Hr) as (e1 & E1 & Hr1).
  { apply Forall_forall. intros K (uk & _ & [->| ->])%HK; exact Hu. }
  { intros K' HK'. destruct (decide (K' ∈ rollback_keys v uks)) as [F|F].
    - apply HK in F as (uk & F & [->| ->]); cbn.
      + rewrite map_lookup_filter. destruct (db_vers A !! (uk, v)); cbn; [|reflexivity].
        rewrite option_guard_False; [reflexivity|]. cbn. tauto.
      + rewrite bool_decide_false; [reflexivity|]. rewrite elem_of_filter. cbn. tauto.
    - destruct K' as [| | |w uk|uk w|]; try reflexivity; cbn.
      + apply if_bool_decide_ext. rewrite elem_of_filter. cbn. split; [tauto|]. intros Hw.
        split; [|exact Hw]. intros ->. apply F, HK. eauto.
      + rewrite map_lookup_filter. destruct (db_vers A !! (uk, w)) eqn:Ev; cbn; [|reflexivity].
        rewrite option_guard_True; [reflexivity|]. cbn. intros ->. apply F, HK. exists uk.
        split; [|now left]. apply (inv_writes A Hi). split; [exact Ha|]. now exists o. }
  unfold st_bind. rewrite E1. apply (delete_key_spec e1 A1); [exact Hr1|exact Hu|].
  exact (active_deleted A1 v).
Qed.

(** ** Versions of a key *)
Definition version_item (k : bytes) (vo : Z * option bytes) : outcome (bytes * bytes) :=
  Ok (kenc (Version k vo.1), bincode_serialize vo.2).

Lemma version_range_spec e A k lo hi :
  db_rep e A -> db_inv A -> is_u64 lo -> is_u64 hi -> lo <= hi ->
  exists vl, engine_scan (Included (kenc (Version k lo)), Included (kenc (Version k hi))) e =
      Ok (map (version_item k) vl) /\
    StronglySorted (fun a b => a.1 < b.1) vl /\
    forall v o, In (v, o) vl <-> db_vers A !! (k, v) = Some o /\ lo <= v <= hi.
Proof.
  intros Hr Hi Hlo Hhi Hle.
  destruct (scan_rep e A (Included (kenc (Version k lo)), Included (kenc (Version k hi))) Hr)
    as (l & El & Hs & Hin).
  { cbn. apply kenc_Version_le; auto. }
  assert (forall K, key_valid K -> in_range (Included (kenc (Version k lo)), Included (kenc (Version k hi))) (kenc K) = true
            <-> exists v, K = Version k v /\ lo <= v <= hi) as Hrange.
  { intros K HK. unfold in_range. cbn [fst snd above_start below_end]. rewrite andb_true_iff. split.
    - intros [F1 F2]. destruct (between_versions K _ _ k lo eq_refl (ex_intro _ k (ex_intro _ hi eq_refl)) F1 F2)
        as (uk & v & ->).
      apply kenc_Version_le in F1, F2; [|assumption..].
      destruct F1 as [F1|[-> F1]], F2 as [F2|[F2' F2]].
      + rewrite (lex_lt_asym _ _ F1) in F2. discriminate.
      + subst. rewrite lex_lt_irrefl in F1. discriminate.
      + rewrite lex_lt_irrefl in F2. discriminate.
      + eauto.
    - intros (v & -> & F). rewrite !kenc_Version_le by assumption. split; right; split; auto; lia. }
  assert (forall K x, In (K, x) l -> exists v o, (K, x) = (Version k v, bincode_serialize o) /\
            db_vers A !! (k, v) = Some o /\ lo <= v <= hi) as Hl.
  { intros K x F. apply Hin in F as (HK & F1 & F2). apply Hrange in F2 as (v & -> & F2); [|exact HK].
    cbn in F1. destruct (db_vers A !! (k, v)) as [o|] eqn:Ev; [|discriminate]. inv F1. eauto. }
  assert (exists vl, l = map (fun vo => (Version k vo.1, bincode_serialize vo.2)) vl /\
            Forall (fun vo => db_vers A !! (k, vo.1) = Some vo.2 /\ lo <= vo.1 <= hi) vl)
    as (vl & -> & Hvl).
  { clear El Hs Hin. induction l as [|[K x] l IH]; [now exists []|].
    destruct (Hl K x (or_introl eq_refl)) as (v & o & [= -> ->] & F).
    destruct IH as (vl & -> & Fs); [intros K' x' F'; apply Hl; now right|].
    exists ((v, o) :: vl). split; [reflexivity|]. now constructor. }
  rewrite List.Forall_forall in Hvl.
  exists vl. split; [now rewrite El, map_map|split].
  - clear -Hs Hvl Hlo Hhi. induction vl as [|[v o] vl IH]; [constructor|]. inv Hs. constructor.
    + apply IH; [assumption|]. intros x F. apply Hvl. now right.
    + rewrite List.Forall_forall in *. intros [v' o'] F.
      assert (lex_lt (kenc (Version k v)) (kenc (Version k v')) = true) as Hlt
        by (apply (H2 (Version k v', bincode_serialize o')), in_map_iff; now exists (v', o')).
      pose proof (Hvl _ (or_introl eq_refl)) as [_ B1]. pose proof (Hvl _ (or_intror F)) as [_ B2].
      cbn in *. apply kenc_Version_lt in Hlt; [|unfold is_u64 in *; lia..].
      destruct Hlt as [Hlt|[_ Hlt]]; [now rewrite lex_lt_irrefl in Hlt|exact Hlt].
  - intros v o. split; [intros F; exact (Hvl _ F)|]. intros [F1 F2].
    assert (In (Version k v, bincode_serialize o) (map (fun vo => (Version k vo.1, bincode_serialize vo.2)) vl)) as F.
    { apply Hin. assert (is_u64 v) by (unfold is_u64 in *; lia). split; [assumption|]. cbn [db_lookup].
      rewrite F1. split; [reflexivity|]. apply Hrange; eauto. }
    apply in_map_iff in F as ([v' o'] & [= -> F'] & F). pose proof (Hvl _ F) as [F3 _]. cbn in F3. congruence.
Qed.

Lemma is_visible_le t v : is_visible t v = true -> v <= version t.
Proof. unfold is_visible. case_bool_decide; [discriminate|]. destruct (read_only t); lia. Qed.

Lemma get_loop_spec t k vl :
  StronglySorted (fun a b : Z * option bytes => a.1 < b.1) vl ->
  (forall v o, In (v, o) vl -> is_u64 v) ->
  exists r, get_loop t (rev (map (version_item k) vl)) = Ok r /\
    ((exists v, In (v, r) vl /\ is_visible t v = true /\
        forall v' o', In (v', o') vl -> is_visible t v' = true -> v' <= v) \/
     (r = None /\ forall v o, In (v, o) vl -> is_visible t v = false)).
Proof.
  induction vl as [|[v o] vl IH] using rev_ind; intros Hs Hu.
  { exists None. split; [reflexivity|]. right. split; [reflexivity|]. intros v o []. }
  apply StronglySorted_app_inv in Hs as (Hs & _ & Hlt).
  rewrite map_app, rev_app_distr. cbn -[kenc decode].
  rewrite decode_kenc by (apply (Hu v o), in_app_iff; right; now left). cbn [outcome_bind].
  destruct (is_visible t v) eqn:Ev.
  - rewrite bincode_roundtrip by exact I. exists o. split; [reflexivity|]. left. exists v.
    split; [apply in_app_iff; right; now left|]. split; [exact Ev|].
    intros v' o' [F|[[= <- <-]|[]]]%in_app_iff _; [|lia]. specialize (Hlt _ _ F (or_introl eq_refl)). cbn in Hlt. lia.
  - destruct IH as (r & Er & HR); [exact Hs|intros v' o' F; eapply Hu, in_app_iff; left; exact F|].
    exists r. split; [exact Er|]. destruct HR as [(w & F1 & F2 & F3)|[-> F]].
    + left. exists w. split; [apply in_app_iff; now left|]. split; [exact F2|].
      intros v' o' [F|[[= <- <-]|[]]]%in_app_iff Hv; [eauto|congruence].
    + right. split; [reflexivity|]. intros v' o' [F'|[[= <- <-]|[]]]%in_app_iff; eauto.
Qed.

Lemma get_spec e A t k :
  db_rep e A -> db_inv A -> is_u64 (version t) ->
  exists r, get t k e = (Ok r, e) /\ reads A t k r.
Proof.
  intros Hr Hi Hu. unfold get, st_bind, st_lift, st_read. rewrite !encode_kenc.
  destruct (version_range_spec e A k 0 (version t) Hr Hi) as (vl & El & Hs & Hin);
    [unfold is_u64 in *; lia..|].
  rewrite El. destruct (get_loop_spec t k vl Hs) as (r & Er & HR).
  { intros v o F. apply Hin in F. unfold is_u64 in *; lia. }
  exists r. split; [now rewrite Er|].
  assert (forall v o, db_vers A !! (k, v) = Some o -> is_visible t v = true -> In (v, o) vl) as Hall.
  { intros v o Hv Hvis. apply Hin. split; [exact Hv|]. apply is_visible_le in Hvis.
    pose proof (inv_vers A Hi k v (ex_intro _ o Hv)). lia. }
  destruct HR as [(v & F1 & F2 & F3)|[-> F]].
  - left. exists v. apply Hin in F1 as [F1 _]. split; [exact F1|]. split; [exact F2|].
    intros v' [o' Hv'] Hvis. eapply F3; eauto.
  - right. split; [reflexivity|]. intros v Hvis [o Hv]. specialize (F v o (Hall _ _ Hv Hvis)). congruence.
Qed.

(** ** Writes *)
Lemma set_first_spec (s : gset Z) :
  match set_first s with
  | Some m => m ∈ s /\ forall v, v ∈ s -> m <= v
  | None => s = ∅
  end.
Proof.
  unfold set_first. set (f := fun v acc => _).
  assert (forall l, match foldr f None l with
                    | Some m => m ∈ l /\ forall v, v ∈ l -> m <= v
                    | None => l = []
                    end) as Hl.
  { induction l as [|x l IH]; [reflexivity|]. cbn. destruct (foldr f None l) as [m|].
    - destruct IH as [Hm Hle]. split; [apply elem_of_cons; destruct (Z.min_spec x m) as [[_ ->]|[_ ->]]; auto|].
      intros v [->|Hv]%elem_of_cons; [lia|]. specialize (Hle _ Hv). lia.
    - subst l. split; [apply elem_of_cons; auto|]. intros v [->|Hv]%elem_of_cons; [lia|].
      now apply not_elem_of_nil in Hv. }
  specialize (Hl (elements s)). destruct (foldr f None (elements s)) as [m|].
  - setoid_rewrite elem_of_elements in Hl. exact Hl.
  - now apply elements_empty_inv, leibniz_equiv in Hl.
Qed.

(** The state of an open read-write transaction. *)
Definition rw_ok (A : mvcc_db) (t : TransactionState) : Prop :=
  read_only t = false /\ version t ∈ db_active A /\ active t = snapshot A (version t).

(** The check of the latest version finds every conflict. *)
Lemma latest_conflict A t k v m :
  db_inv A -> rw_ok A t ->
  has_version A k v -> is_visible t v = false -> has_version A k m -> v <= m ->
  is_visible t m = false.
Proof.
  intros Hi (Hro & Ha & Hact) Hv Hinv Hm Hle.
  destruct (decide (v = m)) as [<-|Hne]; [exact Hinv|].
  destruct (is_visible t m) eqn:Em; [|reflexivity]. exfalso.
  pose proof (is_visible_le _ _ Em). unfold is_visible in Hinv. rewrite Hro in Hinv.
  case_bool_decide as Hsn; [|lia].
  rewrite Hact in Hsn. apply (inv_visible A Hi k v m Hv Hm); [lia|].
  destruct (decide (m = version t)) as [->|Hmt]; [exact Hsn|].
  apply (inv_interval A Hi v m (version t)); [exact Hsn|lia].
Qed.

Lemma write_lookup A v k o K' :
  key_valid K' ->
  db_lookup (db_write v k o A) K' =
  if decide (K' = Version k v) then Some (bincode_serialize o)
  else if decide (K' = TxnWrite v k) then Some [] else db_lookup A K'.
Proof.
  intros _. destruct K' as [| | |w uk|uk w|]; try reflexivity; cbn.
  - destruct (decide ((w, uk) = (v, k))) as [[= -> ->]|Hne].
    + rewrite bool_decide_true by set_solver. now rewrite decide_False, decide_True.
    + rewrite !decide_False by congruence. apply if_bool_decide_ext. set_solver.
  - destruct (decide ((uk, w) = (k, v))) as [[= -> ->]|Hne].
    + rewrite decide_True by reflexivity. now rewrite lookup_insert_eq.
    + rewrite !decide_False by congruence. now rewrite lookup_insert_ne by congruence.
Qed.

(** The lowest version that can conflict, and the check of the latest one. *)
Definition first_conflict (t : TransactionState) : Z :=
  match set_first (active t) with Some v => v | None => u64_add (version t) 1 end.

Lemma write_version_eq e t k o items :
  read_only t = false ->
  engine_scan (Included (kenc (Version k (first_conflict t))), Included (kenc (Version k u64_max))) e
    = Ok items ->
  write_version t k o e =
  (match last items with
   | None => st_ret tt
   | Some item =>
       let! kv := st_lift item in
       let! k := st_lift (decode kv.1) in
       match k with
       | Version _ v => if is_visible t v then st_ret tt else st_err Serialization
       | _ => st_err (InvalidData "expected Key::Version")
       end
   end ;;;
   set_key (TxnWrite (version t) k) [] ;;;
   set_key (Version k (version t)) (bincode_serialize o)) e.
Proof.
  intros Hro El. unfold write_version. rewrite Hro. fold (first_conflict t).
  unfold st_bind at 1, st_lift at 1. rewrite encode_kenc.
  unfold st_bind at 1, st_lift at 1. rewrite encode_kenc.
  unfold st_bind at 1, st_read. now rewrite El.
Qed.

Lemma write_version_spec e A t k o :
  db_rep e A -> db_inv A -> rw_ok A t ->
  (write_version t k o e = (Err Serialization, e) /\
   exists v, has_version A k v /\ is_visible t v = false) \/
  ((exists e', write_version t k o e = (Ok tt, e') /\ db_rep e' (db_write (version t) k o A)) /\
   forall v, has_version A k v -> is_visible t v = true).
Proof.
  intros Hr Hi Hok. pose proof Hok as (Hro & Ha & Hact).
  pose proof (inv_active A Hi _ Ha) as Hv. pose proof (inv_next A Hi) as Hn.
  set (first := first_conflict t).
  assert (is_u64 first /\ first <= u64_max /\
          forall v, is_visible t v = false -> first <= v) as (Hfu & Hfm & Hfirst).
  { pose proof (set_first_spec (active t)) as Hf. unfold first, first_conflict.
    destruct (set_first (active t)) as [m|].
    - destruct Hf as [Hm Hmin]. rewrite Hact in Hm. apply (inv_snap A Hi) in Hm.
      unfold is_u64. split; [lia|]. split; [lia|]. intros v Hvis. unfold is_visible in Hvis.
      rewrite Hro in Hvis. case_bool_decide as Hs; [now apply Hmin|]. lia.
    - rewrite u64_add_small by (unfold is_u64; lia). unfold is_u64. split; [lia|]. split; [lia|].
      intros v Hvis. unfold is_visible in Hvis. rewrite Hro in Hvis.
      rewrite bool_decide_false in Hvis by (rewrite Hf; set_solver). lia. }
  destruct (version_range_spec e A k first u64_max Hr Hi) as (vl & El & Hs & Hin);
    [assumption|unfold is_u64, u64_max; lia|assumption|].
  rewrite (write_version_eq e t k o _ Hro El).
  assert (exists e', (set_key (TxnWrite (version t) k) [] ;;;
            set_key (Version k (version t)) (bincode_serialize o)) e = (Ok tt, e') /\
            db_rep e' (db_write (version t) k o A)) as Hwrite.
  { set (A1 := mkDb (db_next A) (db_active A) (db_snaps A) ({[(version t, k)]} ∪ db_writes A)
                 (db_vers A) (db_unver A)).
    assert (is_u64 (version t)) as Hvu by (unfold is_u64; lia).
    destruct (set_key_spec e A A1 (TxnWrite (version t) k) [] Hr Hvu) as (e1 & E1 & Hr1).
    { intros K' HK'. pose proof (write_lookup A (version t) k o K' HK') as F.
      destruct K' as [|w|w|w uk|uk w|uk]; try reflexivity.
      cbn in F |- *. rewrite F, decide_False by discriminate. reflexivity. }
    unfold st_bind. rewrite E1. apply (set_key_spec e1 A1); [exact Hr1|exact Hvu|].
    intros K' HK'. rewrite write_lookup by exact HK'. destruct (decide (K' = Version k (version t))); [reflexivity|].
    destruct K' as [|w|w|w uk|uk w|uk]; try (rewrite ?decide_False by discriminate; reflexivity).
    pose proof (write_lookup A (version t) k o _ HK') as F. rewrite decide_False in F by discriminate.
    rewrite <- F. reflexivity. }
  destruct (last (map (version_item k) vl)) as [item|] eqn:Elast.
  - rewrite fmap_last in Elast. destruct (last vl) as [[m om]|] eqn:Em; [|discriminate].
    apply last_Some in Em as [vl' ->]. cbn in Elast. inv Elast.
    apply StronglySorted_app_inv in Hs as (_ & _ & Hs).
    assert (In (m, om) (vl' ++ [(m, om)])) as Hm by (apply in_app_iff; right; now left).
    apply Hin in Hm as [Hm1 Hm2].
    set (W := (set_key _ [] ;;; _)) in *. unfold st_bind, st_lift. cbn [version_item fst snd].
    rewrite decode_kenc by (cbn; unfold is_u64 in *; lia).
    destruct (is_visible t m) eqn:Evm.
    + right. split; [exact Hwrite|]. intros v Hhv. destruct (is_visible t v) eqn:Evv; [reflexivity|].
      destruct Hhv as [ov Hov]. pose proof (inv_vers A Hi k v (ex_intro _ ov Hov)).
      assert (v <= m) as Hle.
      { assert (In (v, ov) (vl' ++ [(m, om)])) as [F|[[= <- <-]|[]]]%in_app_iff
          by (apply Hin; split; [exact Hov|]; specialize (Hfirst _ Evv); lia); [|lia].
        specialize (Hs _ _ F (or_introl eq_refl)). cbn in Hs. lia. }
      rewrite (latest_conflict A t k v m) in Evm; [discriminate|eauto..].
      * now exists ov.
      * now exists om.
    + left. split; [reflexivity|]. exists m. split; [now exists om|exact Evm].
  - apply last_None in Elast. destruct vl as [|x vl]; [|discriminate].
    right. split; [exact Hwrite|]. intros v [ov Hov]. destruct (is_visible t v) eqn:Evv; [reflexivity|].
    exfalso. apply (proj2 (Hin v ov)). split; [exact Hov|]. specialize (Hfirst _ Evv).
    pose proof (inv_vers A Hi k v (ex_intro _ ov Hov)). lia.
Qed.

End Refinement.
