(* ===== verification/MvccScan.v ===== *)
(** * MVCC scans

    A scan pulls visible versions from the engine in batches and releases the
    engine in between.  Draining it yields the latest live value of every
    visible key in order, also when other transactions change the engine
    between the batches, as long as the versions visible to the scanning
    transaction stay the same. *)
From S2P Require Import Prelude Bytes Keycode KeycodeTheory Btree Engine Bincode Mvcc MvccKeys MvccAbs.

(** A version record: key, version, value or tombstone. *)
Definition vrec : Type := bytes * Z * option bytes.
Definition rec_lt (a b : vrec) : Prop :=
  lex_lt a.1.1 b.1.1 = true \/ a.1.1 = b.1.1 /\ a.1.2 < b.1.2.

(** The visible records of a raw range, in order. *)
Definition vscan (A : mvcc_db) (t : TransactionState) (r : key_range) (vl : list vrec) : Prop :=
  StronglySorted rec_lt vl /\
  forall k v o, In (k, v, o) vl <->
    db_vers A !! (k, v) = Some o /\ is_visible t v = true /\ in_range r (kenc (Version k v)) = true.

(** The live rows of an ordered list of records: the last record of each key,
    without the deleted ones. *)
Fixpoint live (vl : list vrec) : list (bytes * bytes) :=
  match vl with
  | [] => []
  | (k, _, o) :: rest =>
      let emit := match o with Some v => (k, v) :: live rest | None => live rest end in
      match rest with
      | (k', _, _) :: _ => if bool_decide (k' = k) then live rest else emit
      | [] => emit
      end
  end.

(** A transaction's view of two databases is the same. *)
Definition same_view (t : TransactionState) (A A' : mvcc_db) : Prop :=
  forall k v, is_visible t v = true -> db_vers A !! (k, v) = db_vers A' !! (k, v).

(** Ranges that hold only version keys. *)
Definition version_only (r : key_range) : Prop :=
  range_ok r = true /\
  forall K, key_valid K -> in_range r (kenc K) = true -> exists k v, K = Version k v.

Lemma same_view_vscan t A A' r vl : same_view t A A' -> vscan A t r vl -> vscan A' t r vl.
Proof.
  intros Hv [Hs Hin]. split; [exact Hs|]. intros k v o. rewrite Hin. split; intros (F1 & F2 & F3).
  - now rewrite <- Hv.
  - now rewrite Hv.
Qed.

Lemma rec_lt_irrefl a : ~ rec_lt a a.
Proof. intros [F|[_ F]]; [now rewrite lex_lt_irrefl in F|lia]. Qed.

Lemma rec_lt_trans a b c : rec_lt a b -> rec_lt b c -> rec_lt a c.
Proof.
  intros [H1|[E1 H1]] [H2|[E2 H2]].
  - left. eauto using lex_lt_trans.
  - left. now rewrite <- E2.
  - left. now rewrite E1.
  - right. split; [congruence|lia].
Qed.

Lemma rec_lt_kenc k v o k' v' o' :
  is_u64 v -> is_u64 v' ->
  lex_lt (kenc (Version k v)) (kenc (Version k' v')) = true <-> rec_lt (k, v, o) (k', v', o').
Proof. intros. now rewrite kenc_Version_lt. Qed.

Lemma range_ok_from a hi : below_end hi a = true -> range_ok (Included a, hi) = true.
Proof.
  destruct hi as [b|b|]; cbn; [auto| |auto]. intros H. apply lex_le_spec. now right.
Qed.

(** Restarting a scan at one of its records. *)
Lemma vscan_suffix A t lo hi pre k v o suf :
  db_inv A -> vscan A t (lo, hi) (pre ++ (k, v, o) :: suf) ->
  vscan A t (Included (kenc (Version k v)), hi) ((k, v, o) :: suf).
Proof.
  intros Hi [Hs Hin]. pose proof (inv_next A Hi) as Hn.
  apply StronglySorted_app_inv in Hs as (_ & Hs & Hlt). split; [exact Hs|].
  assert (forall k v o, db_vers A !! (k, v) = Some o -> is_u64 v) as Hu.
  { intros k' v' o' F. pose proof (inv_vers A Hi k' v' (ex_intro _ o' F)). unfold is_u64. lia. }
  assert (In (k, v, o) (pre ++ (k, v, o) :: suf)) as F0 by (apply in_app_iff; right; now left).
  apply Hin in F0 as (F0 & _ & R0). unfold in_range in R0. apply andb_true_iff in R0 as [R0 _].
  intros k' v' o'. unfold in_range in *. cbn [fst snd above_start] in *. split.
  - intros F. assert (In (k', v', o') (pre ++ (k, v, o) :: suf)) as F' by (apply in_app_iff; now right).
    apply Hin in F' as (F1 & F2 & F3). apply andb_true_iff in F3 as [_ F3].
    split; [exact F1|]. split; [exact F2|]. rewrite F3, andb_true_r.
    apply lex_le_spec. destruct F as [[= <- <- <-]|F]; [now left|]. right.
    apply (rec_lt_kenc _ _ o _ _ o'); eauto. apply StronglySorted_inv in Hs as [_ Hs].
    rewrite List.Forall_forall in Hs. auto.
  - intros (F1 & F2 & F3). apply andb_true_iff in F3 as [F3 F4].
    assert (In (k', v', o') (pre ++ (k, v, o) :: suf)) as F.
    { apply Hin. split; [exact F1|]. split; [exact F2|]. rewrite F4, andb_true_r.
      destruct lo as [a|a|]; cbn in *; [eauto using lex_le_trans| |reflexivity].
      apply lex_le_spec in F3 as [<-|F3]; [exact R0|eauto using lex_lt_trans]. }
    apply in_app_iff in F as [F|F]; [|exact F]. exfalso.
    specialize (Hlt _ _ F (or_introl eq_refl)). apply rec_lt_kenc in Hlt; [|eauto..].
    rewrite lex_le_not_lt, Hlt in F3. discriminate.
Qed.

Lemma version_only_suffix lo hi k v :
  is_u64 v -> version_only (lo, hi) -> in_range (lo, hi) (kenc (Version k v)) = true ->
  version_only (Included (kenc (Version k v)), hi).
Proof.
  intros Hu [Hok Hv] Hin. unfold in_range in *. cbn [fst snd above_start] in *.
  apply andb_true_iff in Hin as [H1 H2]. split; [now apply range_ok_from|].
  intros K HK F. apply andb_true_iff in F as [F1 F2]. change (below_end hi (kenc K) = true) in F2. apply Hv; [exact HK|]. rewrite F2, andb_true_r.
  destruct lo as [a|a|]; cbn in *; [eauto using lex_le_trans| |reflexivity].
  apply lex_le_spec in F1 as [<-|F1]; [exact H1|eauto using lex_lt_trans].
Qed.

(** ** What [live] computes *)
Lemma live_cons k v o rest :
  live ((k, v, o) :: rest) =
  match rest with
  | (k', _, _) :: _ => if bool_decide (k' = k) then live rest
                       else match o with Some x => (k, x) :: live rest | None => live rest end
  | [] => match o with Some x => [(k, x)] | None => [] end
  end.
Proof. destruct rest as [|[[k' v'] o'] rest]; reflexivity. Qed.

(** [x] is the last record of [k] in [vl]. *)
Definition is_last (vl : list vrec) (k : bytes) (o : option bytes) : Prop :=
  exists v, In (k, v, o) vl /\ forall v' o', In (k, v', o') vl -> v' <= v.

Lemma sorted_head_key k1 v1 o1 k2 v2 o2 rest k v o :
  StronglySorted rec_lt ((k1, v1, o1) :: (k2, v2, o2) :: rest) -> k2 <> k1 ->
  In (k, v, o) ((k2, v2, o2) :: rest) -> lex_lt k1 k = true.
Proof.
  intros Hs Hne F. apply StronglySorted_inv in Hs as [Hs Hf]. rewrite List.Forall_forall in Hf.
  destruct (Hf _ (or_introl eq_refl)) as [H12|[E _]]; cbn in *; [|congruence].
  destruct F as [[= <- <- <-]|F]; [exact H12|]. apply StronglySorted_inv in Hs as [_ Hs].
  rewrite List.Forall_forall in Hs. destruct (Hs _ F) as [G|[G _]]; cbn in G.
  - eauto using lex_lt_trans.
  - now rewrite <- G.
Qed.

(** The first record is superseded if the next one has its key, and otherwise
    it is the last of its key. *)
Lemma is_last_same k1 v1 o1 v2 o2 rest k o :
  StronglySorted rec_lt ((k1, v1, o1) :: (k1, v2, o2) :: rest) ->
  is_last ((k1, v1, o1) :: (k1, v2, o2) :: rest) k o <-> is_last ((k1, v2, o2) :: rest) k o.
Proof.
  intros Hs. apply StronglySorted_inv in Hs as [_ Hf]. rewrite List.Forall_forall in Hf.
  destruct (Hf _ (or_introl eq_refl)) as [F|[_ H12]]; [cbn in F; now rewrite lex_lt_irrefl in F|]. cbn in H12.
  split; intros (v & F & Hmax).
  - destruct F as [[= -> -> ->]|F].
    + specialize (Hmax v2 o2 (or_intror (or_introl eq_refl))). lia.
    + exists v. split; [exact F|]. intros v' o' F'. apply (Hmax v' o'). now right.
  - exists v. split; [now right|]. intros v' o' [[= -> -> ->]|F']; [|eauto].
    specialize (Hmax v2 o2 (or_introl eq_refl)). lia.
Qed.

Lemma is_last_new k1 v1 o1 rest k o :
  (forall k' v' o', In (k', v', o') rest -> lex_lt k1 k' = true) ->
  is_last ((k1, v1, o1) :: rest) k o <-> (k, o) = (k1, o1) \/ is_last rest k o.
Proof.
  intros Hlt. assert (forall v' o', ~ In (k1, v', o') rest) as Hno.
  { intros v' o' F. specialize (Hlt _ _ _ F). now rewrite lex_lt_irrefl in Hlt. }
  split.
  - intros (v & [[= <- <- <-]|F] & Hmax); [now left|]. right. exists v. split; [exact F|].
    intros v' o' F'. apply (Hmax v' o'). now right.
  - intros [[= -> ->]|(v & F & Hmax)].
    + exists v1. split; [now left|]. intros v' o' [[= <- <-]|F]; [lia|now apply Hno in F].
    + exists v. split; [now right|]. intros v' o' [[= <- <- <-]|F']; [now apply Hno in F|eauto].
Qed.

Lemma live_In vl k x :
  StronglySorted rec_lt vl -> In (k, x) (live vl) <-> is_last vl k (Some x).
Proof.
  induction vl as [|[[k1 v1] o1] rest IH]; intros Hs; [split; [intros []|intros (v & [] & _)]|].
  specialize (IH (proj1 (StronglySorted_inv Hs))). rewrite live_cons.
  destruct rest as [|[[k2 v2] o2] rest].
  { rewrite is_last_new by intros ? ? ? []. rewrite <- IH. destruct o1; cbn; naive_solver. }
  case_bool_decide as Ek; [subst k2; now rewrite is_last_same, IH|].
  rewrite is_last_new by (intros k' v' o' F; exact (sorted_head_key _ _ _ _ _ _ _ _ _ _ Hs Ek F)).
  rewrite <- IH. destruct o1 as [x1|]; cbn [In]; split; try naive_solver.
Qed.

Lemma live_sorted vl : StronglySorted rec_lt vl -> StronglySorted key_lt (live vl).
Proof.
  induction vl as [|[[k1 v1] o1] rest IH]; intros Hs; [constructor|].
  pose proof (StronglySorted_inv Hs) as [Hs' _]. specialize (IH Hs'). rewrite live_cons.
  destruct rest as [|[[k2 v2] o2] rest]; [destruct o1; repeat constructor|].
  case_bool_decide as Ek; [exact IH|]. destruct o1 as [x1|]; [|exact IH].
  constructor; [exact IH|]. apply List.Forall_forall. intros [k x] F.
  apply live_In in F as (v & F & _); [|exact Hs']. exact (sorted_head_key _ _ _ _ _ _ _ _ _ _ Hs Ek F).
Qed.

Section Iterator.
Context {E : Type} `{EngineReads E} {EW : EngineWrites E}.
Context {BV : Bincode is_u64} {BS : Bincode all_u64} {BO : Bincode (@any (option bytes))}.
Context (test : bool).

Definition vitem (x : vrec) : outcome (bytes * Z * bytes) := Ok (x.1, bincode_serialize x.2).

Lemma buffer_size_pos : (0 < BUFFER_SIZE test)%nat.
Proof. unfold BUFFER_SIZE. destruct test; lia. Qed.

(** The visible records, as the version iterator yields them. *)
Lemma version_iterator_spec e A t r :
  db_rep e A -> db_inv A -> version_only r ->
  exists items vl, engine_scan r e = Ok items /\ version_iterator t items = map vitem vl /\
                   vscan A t r vl.
Proof.
  intros Hr Hi [Hok Hv]. destruct (scan_rep e A r Hr Hok) as (l & El & Hs & Hin).
  exists (map raw_item l).
  assert (forall K x, In (K, x) l -> exists k v o, (K, x) = (Version k v, bincode_serialize o) /\ is_u64 v
            /\ db_vers A !! (k, v) = Some o /\ in_range r (kenc (Version k v)) = true) as Hl.
  { intros K x F. apply Hin in F as (HK & F1 & F2). destruct (Hv K HK F2) as (k & v & ->). cbn in F1.
    destruct (db_vers A !! (k, v)) as [o|] eqn:Ev; [|discriminate]. inv F1.
    exists k, v, o. auto. }
  assert (exists vl : list vrec, l = map (fun x => (Version x.1.1 x.1.2, bincode_serialize x.2)) vl
            /\ (forall k v o, In (k, v, o) vl -> is_u64 v)) as (vl & -> & Hu).
  { clear El Hs Hin. induction l as [|[K x] l IH]; [now exists []|].
    destruct (Hl K x (or_introl eq_refl)) as (k & v & o & [= -> ->] & F & _).
    destruct IH as (vl & -> & Fs); [intros K' x' F'; apply Hl; now right|].
    exists ((k, v, o) :: vl). split; [reflexivity|]. intros k' v' o' [[= <- <- <-]|F']; eauto. }
  exists (List.filter (fun x => is_visible t x.1.2) vl). split; [exact El|]. split.
  - clear -Hu. induction vl as [|[[k v] o] vl IH]; [reflexivity|].
    cbn [map raw_item version_iterator fst snd List.filter].
    rewrite decode_kenc by (eapply Hu; now left). rewrite IH by (intros k' v' o' F; eapply Hu; right; exact F).
    now destruct (is_visible t v).
  - split.
    + apply StronglySorted_filter. clear -Hs Hu. induction vl as [|[[k v] o] vl IH]; [constructor|].
      cbn [map] in Hs. apply StronglySorted_inv in Hs as [Hs Hf]. constructor.
      * apply IH; [exact Hs|]. intros k' v' o' F. eapply Hu. right; exact F.
      * rewrite List.Forall_forall in *. intros [[k' v'] o'] F.
        apply rec_lt_kenc; [eapply Hu; now left|eapply Hu; right; exact F|].
        apply (Hf (Version k' v', bincode_serialize o')), in_map_iff. now exists (k', v', o').
    + intros k v o. rewrite filter_In. cbn [fst snd]. split.
      * intros [F Hvis]. assert (In (Version k v, bincode_serialize o)
          (map (fun x : vrec => (Version x.1.1 x.1.2, bincode_serialize x.2)) vl)) as F'
          by (apply in_map_iff; now exists (k, v, o)).
        pose proof (Hl _ _ F') as (k' & v' & o' & [= <- <- Eo] & _ & Ho & Hr').
        apply (f_equal bincode_deserialize) in Eo. rewrite !bincode_roundtrip in Eo by exact I. inv Eo. auto.
      * intros (F1 & F2 & F3). split; [|exact F2].
        pose proof (inv_vers A Hi k v (ex_intro _ o F1)). pose proof (inv_next A Hi).
        assert (In (Version k v, bincode_serialize o)
          (map (fun x : vrec => (Version x.1.1 x.1.2, bincode_serialize x.2)) vl)) as F.
        { apply Hin. cbn. unfold is_u64. rewrite F1. split; [lia|]. auto. }
        apply in_map_iff in F as ([[k' v'] o'] & [= -> -> Eo] & F).
        apply (f_equal bincode_deserialize) in Eo. rewrite !bincode_roundtrip in Eo by exact I. now inv Eo.
Qed.

Definition remainder_of (hi : Bound bytes) (rest : list vrec) : option key_range :=
  match rest with
  | [] => None
  | (k, v, _) :: _ => Some (Included (kenc (Version k v)), hi)
  end.

(** One fill emits some of the live rows and remembers where to go on. *)
Lemma fill_loop_spec hi vl s :
  (length (buffer s) < BUFFER_SIZE test)%nat -> remainder s = None ->
  exists out pre rest,
    fill_loop test hi (map vitem vl) s =
      (Ok tt, mkScan (scan_txn s) (buffer s ++ out) (remainder_of hi rest)) /\
    vl = pre ++ rest /\ live vl = out ++ live rest /\ (out = [] -> rest = []).
Proof.
  revert s; induction vl as [|[[k v] o] vl IH]; intros s Hlen Hrem.
  { exists [], [], []. cbn. rewrite app_nil_r. destruct s; cbn in *; subst. auto. }
  assert (forall s, (length (buffer s) < BUFFER_SIZE test)%nat -> remainder s = None ->
    exists out pre rest,
      fill_loop test hi (map vitem vl) s =
        (Ok tt, mkScan (scan_txn s) (buffer s ++ out) (remainder_of hi rest)) /\
      (k, v, o) :: vl = pre ++ rest /\ live vl = out ++ live rest /\ (out = [] -> rest = [])) as IH'.
  { intros s' H1 H2. destruct (IH s' H1 H2) as (out & pre & rest & E1 & -> & E3 & E4).
    exists out, ((k, v, o) :: pre), rest. auto. }
  rewrite live_cons. cbn [map]. cbn [fill_loop vitem fst snd].
  unfold st_bind at 1, st_lift at 1. unfold vitem at 1. cbv beta iota. cbn [fst snd].
  match goal with
  | |- context [st_bind (st_lift (bincode_deserialize ?b)) ?f] =>
      set (emit := st_bind (st_lift (bincode_deserialize b)) f)
  end.
  set (lrows := match o with Some x => (k, x) :: live vl | None => live vl end).
  assert (exists out pre rest, emit s =
        (Ok tt, mkScan (scan_txn s) (buffer s ++ out) (remainder_of hi rest)) /\
      (k, v, o) :: vl = pre ++ rest /\ lrows = out ++ live rest /\ (out = [] -> rest = [])) as Hemit.
  { unfold emit, lrows. unfold st_bind at 1, st_lift at 1. rewrite bincode_roundtrip by exact I.
    destruct o as [x|]; [|exact (IH' s Hlen Hrem)].
    unfold st_bind at 1, st_modify at 1. unfold st_bind at 1, st_read. cbn [buffer].
    rewrite length_app. cbn [length].
    destruct (Nat.eqb_spec (length (buffer s) + 1) (BUFFER_SIZE test)) as [Heq|Hne].
    - exists [(k, x)], [(k, v, Some x)], vl. split; [|repeat split; discriminate].
      destruct vl as [|[[k' v'] o'] vl]; cbn [map]; [cbn; now rewrite Hrem|].
      unfold vitem at 1, st_bind, st_lift, st_modify. cbn [fst snd]. now rewrite encode_kenc.
    - destruct (IH' (mkScan (scan_txn s) (buffer s ++ [(k, x)]) (remainder s)))
        as (out & pre & rest & E1 & E2 & E3 & E4); [cbn; rewrite length_app; cbn; lia|exact Hrem|].
      exists ((k, x) :: out), pre, rest. rewrite E1. cbn [scan_txn buffer]. rewrite <- app_assoc.
      split; [reflexivity|]. split; [exact E2|]. split; [now rewrite E3|discriminate]. }
  destruct vl as [|[[k' v'] o'] vl]; cbn [map]; [exact Hemit|].
  cbn [vitem fst snd]. case_bool_decide; [|exact Hemit]. exact (IH' s Hlen Hrem).
Qed.

(** The rows an iterator still has to yield. *)
Definition pending (A : mvcc_db) (s : ScanIterator) (rest : list vrec) : Prop :=
  match remainder s with
  | None => rest = []
  | Some r => version_only r /\ vscan A (scan_txn s) r rest
  end.

Lemma fill_buffer_spec e A A' s rest :
  db_inv A -> db_rep e A' -> db_inv A' -> same_view (scan_txn s) A A' -> buffer s = [] ->
  pending A s rest ->
  exists out rest', fill_buffer test e s =
      (Ok tt, mkScan (scan_txn s) out match remainder s with
                                      | Some r => remainder_of r.2 rest'
                                      | None => None
                                      end) /\
    live rest = out ++ live rest' /\ (out = [] -> rest' = []) /\
    pending A (mkScan (scan_txn s) out match remainder s with
                                      | Some r => remainder_of r.2 rest'
                                      | None => None
                                      end) rest'.
Proof.
  intros Hi Hr Hi' Hview Hbuf Hp. unfold fill_buffer. rewrite Hbuf. cbn [length].
  pose proof buffer_size_pos as Hpos. destruct (Nat.leb_spec (BUFFER_SIZE test) 0); [lia|].
  unfold pending in Hp. destruct (remainder s) as [[lo hi]|] eqn:Hrem.
  2: { exists [], []. subst rest. destruct s; cbn in *; subst. auto. }
  destruct Hp as [Hvo Hvs].
  destruct (version_iterator_spec e A' (scan_txn s) (lo, hi) Hr Hi' Hvo) as (items & vl & Ei & Ev & Hvs').
  assert (vl = rest) as ->.
  { apply (same_view_vscan _ A A') in Hvs; [|exact Hview]. destruct Hvs as [S1 I1], Hvs' as [S2 I2].
    apply (StronglySorted_ext rec_lt); auto using rec_lt_irrefl; [exact rec_lt_trans|].
    intros [[k v] o]. now rewrite I1, I2. }
  unfold st_bind, st_lift. rewrite Ei, Ev. cbn [fst snd].
  destruct (fill_loop_spec hi rest (mkScan (scan_txn s) [] None)) as (out & pre & rest' & E1 & E2 & E3 & E4);
    [cbn; lia|reflexivity|].
  exists out, rest'. rewrite E1. cbn [scan_txn buffer app]. repeat split; auto.
  unfold pending. cbn [remainder scan_txn]. destruct rest' as [|[[k v] o] rest']; [reflexivity|].
  cbn [remainder_of]. rewrite E2 in Hvs. split; [|now apply vscan_suffix in Hvs].
  destruct Hvs as [_ Hin]. assert (In (k, v, o) (pre ++ (k, v, o) :: rest')) as F by (apply in_app_iff; right; now left).
  apply Hin in F as (F1 & _ & F2). apply (version_only_suffix lo); [|exact Hvo|exact F2].
  pose proof (inv_vers A Hi k v (ex_intro _ o F1)). pose proof (inv_next A Hi). unfold is_u64. lia.
Qed.

(** Draining an iterator, while the engine changes without the transaction
    seeing it. *)
Lemma drain_spec A t fuel es s rest :
  db_inv A -> scan_txn s = t ->
  (forall i, exists A', db_rep (es i) A' /\ db_inv A' /\ same_view t A A') ->
  pending A s rest -> (length (buffer s ++ live rest) < fuel)%nat ->
  drain test fuel es s = Ok (buffer s ++ live rest).
Proof.
  intros Hi Ht. revert es s rest Ht; induction fuel as [|fuel IH]; intros es s rest Ht Hes Hp Hf; [lia|].
  cbn [drain]. unfold scan_next. destruct (buffer s) as [|kv buf] eqn:Hbuf.
  - destruct (Hes 0%nat) as (A' & Hr & Hi' & Hview). rewrite <- Ht in Hview.
    destruct (fill_buffer_spec (es 0%nat) A A' s rest Hi Hr Hi' Hview Hbuf Hp)
      as (out & rest' & -> & E2 & E3 & Hp').
    cbn [buffer]. cbn [app] in *. rewrite E2 in *. destruct out as [|kv out].
    { rewrite E3 by reflexivity. reflexivity. }
    cbn [app length] in *. erewrite IH; [reflexivity|exact Ht|intros i; apply Hes|exact Hp'|]. cbn [buffer]. lia.
  - cbn [buffer app length] in *. erewrite (IH _ _ rest); [reflexivity|exact Ht|intros i; apply Hes|exact Hp|].
    cbn [buffer]. lia.
Qed.

End Iterator.

(** ** From user ranges to raw ranges *)
Lemma reads_unique A t k r1 r2 : reads A t k r1 -> reads A t k r2 -> r1 = r2.
Proof.
  intros [(v1 & L1 & V1 & M1)|[-> N1]] [(v2 & L2 & V2 & M2)|[-> N2]].
  - assert (v1 = v2) as -> by (pose proof (M1 v2 (ex_intro _ _ L2) V2); pose proof (M2 v1 (ex_intro _ _ L1) V1); lia).
    congruence.
  - destruct (N2 v1 V1). now exists r1.
  - destruct (N1 v2 V2). now exists r2.
  - reflexivity.
Qed.

(** The raw range [raw] stands for the user range [r]. *)
Definition raw_range_of (r raw : key_range) : Prop :=
  version_only raw /\
  forall k v, is_u64 v -> in_range raw (kenc (Version k v)) = in_range r k.

(** The rows of a full scan are the bindings of the map the transaction reads. *)
Lemma live_scan_of A t r raw vl M :
  db_inv A -> raw_range_of r raw -> vscan A t raw vl -> (forall k, reads A t k (M !! k)) ->
  scan_of r M (live vl).
Proof.
  intros Hi [_ Hraw] [Hs Hin] HM. split; [now apply live_sorted|].
  assert (forall k v o, db_vers A !! (k, v) = Some o -> is_u64 v) as Hu.
  { intros k v o F. pose proof (inv_vers A Hi k v (ex_intro _ o F)). pose proof (inv_next A Hi).
    unfold is_u64. lia. }
  intros k x. rewrite live_In by exact Hs. split.
  - intros (v & F & Hmax). apply Hin in F as (F1 & F2 & F3).
    rewrite Hraw in F3 by eauto. split; [|exact F3].
    apply (reads_unique A t k); [apply HM|]. left. exists v. split; [exact F1|]. split; [exact F2|].
    intros v' [o' Ho'] Hv'. apply (Hmax v' o'). apply Hin. rewrite Hraw by eauto. auto.
  - intros [F1 F2]. specialize (HM k). rewrite F1 in HM. destruct HM as [(v & G1 & G2 & G3)|[[=] _]].
    exists v. split; [apply Hin; rewrite Hraw by eauto; auto|].
    intros v' o' F'. apply Hin in F' as (F1' & F2' & _). apply G3; [now exists o'|exact F2'].
Qed.

Definition raw_start (b : Bound bytes) : Bound bytes :=
  match b with
  | Excluded k => Excluded (kenc (Version k u64_max))
  | Included k => Included (kenc (Version k 0))
  | Unbounded => Included (kenc (Version [] 0))
  end.
Definition raw_end (b : Bound bytes) : Bound bytes :=
  match b with
  | Excluded k => Excluded (kenc (Version k 0))
  | Included k => Included (kenc (Version k u64_max))
  | Unbounded => Excluded [x05]
  end.

Lemma scan_eq t r : scan t r = Ok (mkScan t [] (Some (raw_start r.1, raw_end r.2))).
Proof.
  unfold scan. destruct r as [lo hi]. cbn [fst snd]. destruct lo, hi; rewrite ?encode_kenc; reflexivity.
Qed.

Lemma u64_0 : is_u64 0.
Proof. unfold is_u64, u64_max. lia. Qed.
Lemma u64_m : is_u64 u64_max.
Proof. unfold is_u64, u64_max. lia. Qed.
#[local] Hint Resolve u64_0 u64_m : toydb.

Lemma lex_le_nil k : lex_lt [] k = true \/ [] = k.
Proof. destruct k; [now right|now left]. Qed.

Lemma bool_iff (a b : bool) : (a = true <-> b = true) -> a = b.
Proof. destruct a, b; intros [H1 H2]; try reflexivity; [now rewrite H1|now rewrite H2]. Qed.

Lemma above_raw_start b k v :
  is_u64 v -> above_start (raw_start b) (kenc (Version k v)) = above_start b k.
Proof.
  intros Hv. pose proof Hv as Hv'. unfold is_u64 in Hv'. apply bool_iff. destruct b as [a|a|]; cbn [raw_start above_start].
  - rewrite kenc_Version_le, lex_le_spec by auto with toydb. intuition lia.
  - rewrite kenc_Version_lt by auto with toydb. intuition lia.
  - rewrite kenc_Version_le by auto with toydb. destruct (lex_le_nil k); intuition lia.
Qed.

Lemma below_raw_end b k v :
  is_u64 v -> below_end (raw_end b) (kenc (Version k v)) = below_end b k.
Proof.
  intros Hv. pose proof Hv as Hv'. unfold is_u64 in Hv'. apply bool_iff. destruct b as [a|a|]; cbn [raw_end below_end].
  - rewrite kenc_Version_le, lex_le_spec by auto with toydb. intuition lia.
  - rewrite kenc_Version_lt by auto with toydb. intuition lia.
  - rewrite kenc_Version. split; reflexivity.
Qed.

Lemma in_raw_range_Version r K :
  in_range (raw_start r.1, raw_end r.2) (kenc K) = true -> exists k v, K = Version k v.
Proof.
  unfold in_range. cbn [fst snd]. intros [F1 F2]%andb_true_iff.
  assert (forall k v, lex_le (kenc (Version k v)) (kenc K) = true -> byte_lt (key_tag K) x04 = false) as G1.
  { intros k v F. destruct (kenc_tag K) as [s Hs]. rewrite kenc_Version, Hs, lex_le_not_lt in F.
    destruct (decide (key_tag K = x04)) as [->|Hne]; [reflexivity|].
    rewrite lex_lt_tag in F by exact Hne. now apply negb_true_iff in F. }
  assert (byte_lt (key_tag K) x04 = false) as L1.
  { destruct r.1 as [a|a|]; cbn [raw_start above_start] in F1; eapply G1; [exact F1|apply lex_le_spec; right; exact F1|exact F1]. }
  assert (lex_lt (kenc K) [x05] = true) as L2.
  { destruct r.2 as [a|a|]; cbn [raw_end below_end] in F2; [| |exact F2].
    - eapply lex_le_lt_trans; [exact F2|]. now rewrite kenc_Version.
    - eapply lex_lt_trans; [exact F2|]. now rewrite kenc_Version. }
  destruct K; try discriminate L1; [eauto|]. destruct (kenc_tag (Unversioned key)) as [s Hs].
  rewrite Hs in L2. cbn in L2. now destruct s.
Qed.

Lemma kenc_Version_le_intro k1 v1 k2 v2 :
  is_u64 v1 -> is_u64 v2 -> lex_le k1 k2 = true -> v1 <= v2 ->
  lex_le (kenc (Version k1 v1)) (kenc (Version k2 v2)) = true.
Proof.
  intros H1 H2 Hk Hv. apply kenc_Version_le; [assumption..|].
  apply lex_le_spec in Hk as [->|Hk]; auto.
Qed.

Lemma raw_range_ok r : range_ok r = true -> range_ok (raw_start r.1, raw_end r.2) = true.
Proof.
  assert (forall k v, lex_le (kenc (Version k v)) [x05] = true) as H5.
  { intros k v. rewrite kenc_Version. reflexivity. }
  assert (forall k, lex_lt (kenc (Version k u64_max)) [x05] = true) as H5'.
  { intros k. rewrite kenc_Version. reflexivity. }
  assert (forall k, lex_le [] k = true) as Hnil.
  { intros k. apply lex_le_spec. destruct (lex_le_nil k); auto. }
  assert (0 <= u64_max) by (unfold u64_max; lia).
  destruct r as [[a|a|] [b|b|]]; cbn [range_ok raw_start raw_end fst snd]; intros Hok; auto;
    try (apply kenc_Version_le_intro; auto with toydb lia; reflexivity).
  - apply kenc_Version_lt; auto with toydb.
Qed.

Lemma scan_raw_range r : range_ok r = true -> raw_range_of r (raw_start r.1, raw_end r.2).
Proof.
  intros Hok. split; [split; [now apply raw_range_ok|]|].
  - intros K _. apply in_raw_range_Version.
  - intros k v Hv. unfold in_range. cbn [fst snd]. now rewrite above_raw_start, below_raw_end.
Qed.

Lemma scan_prefix_eq t p :
  scan_prefix t p = Ok (mkScan t [] (Some (prefix_range (x04 :: esc_all p)))).
Proof.
  unfold scan_prefix. rewrite encode_prefix_enc. cbn [outcome_bind].
  pose proof (prefix_version_trunc p) as F. cbv zeta in F. now rewrite F.
Qed.

Lemma scan_prefix_raw_range p : raw_range_of (prefix_range p) (prefix_range (x04 :: esc_all p)).
Proof.
  split; [split; [apply range_ok_prefix|]|].
  - intros K HK. unfold in_range. rewrite in_prefix_range_cmp. intros F.
    apply is_prefix_scan in F as (uk & v & -> & _); eauto.
  - intros k v Hv. unfold in_range. rewrite !in_prefix_range_cmp. apply bool_iff.
    rewrite is_prefix_scan by exact Hv. split; [|eauto]. now intros (uk & w & [= -> ->] & F).
Qed.
