(* ===== verification/MvccSpec.v ===== *)
(** * MVCC implements snapshot isolation

    [si_state] and [si_step] specify snapshot isolation without versions: a
    transaction reads a private copy of the committed data taken when it began,
    overlaid with its own writes; a write is refused iff another open
    transaction has written the key or one that committed since has; a commit
    publishes all writes at once; a rollback leaves no trace; a time-travel
    transaction reads the committed data as of the start of a past version.

    The main theorem runs any sequence of client commands on the MVCC code over
    any storage engine and shows that every response is the one of this
    specification. *)
From S2P Require Import Prelude Bytes Keycode KeycodeTheory Btree Engine Bincode Mvcc MvccKeys.
From S2P Require Import MvccAbs MvccScan.

(** ** The invariant is preserved *)
Lemma snapshot_begin A w :
  db_inv A -> snapshot (db_begin A) w = if decide (w = db_next A) then db_active A else snapshot A w.
Proof.
  intros Hi. unfold snapshot, db_begin. cbn [db_snaps].
  destruct (decide (w = db_next A)) as [->|Hne].
  - case_bool_decide as Ha; [|now rewrite lookup_insert_eq].
    destruct (db_snaps A !! db_next A) eqn:Es; cbn; [|congruence].
    pose proof (inv_snap_key A Hi (db_next A) (ex_intro _ _ Es)). lia.
  - case_bool_decide; [reflexivity|]. now rewrite lookup_insert_ne.
Qed.

Lemma db_inv_empty : db_inv db_empty.
Proof.
  assert (forall v w, v ∉ snapshot db_empty w) as Hs.
  { intros v w. unfold snapshot. cbn. rewrite lookup_empty. apply not_elem_of_empty. }
  assert (forall k v, ~ has_version db_empty k v) as Hv.
  { intros k v [x F]. cbn in F. now rewrite lookup_empty in F. }
  assert (forall v, v ∉ db_active db_empty) as Ha by (intros v; apply not_elem_of_empty).
  split; try (intros; exfalso; firstorder; fail).
  - cbn. unfold u64_max. lia.
  - intros w [x F]. cbn in F. now rewrite lookup_empty in F.
  - intros v k. split; [intros F; now apply not_elem_of_empty in F|]. intros [F _]. now destruct (Ha v).
Qed.

Lemma db_inv_begin A : db_inv A -> db_next A < u64_max -> db_inv (db_begin A).
Proof.
  intros Hi Hlt. pose proof (inv_next A Hi) as Hn.
  split; intros *; rewrite ?(snapshot_begin A) by exact Hi; cbn [db_begin db_next db_active db_writes].
  - lia.
  - rewrite elem_of_union, elem_of_singleton. intros [->|Hv]; [lia|]. apply (inv_active A Hi) in Hv. lia.
  - destruct (decide _) as [->|]; intros Hv.
    + apply (inv_active A Hi) in Hv. lia.
    + apply (inv_snap A Hi) in Hv. lia.
  - cbn [db_begin db_snaps]. intros Hs. assert (w = db_next A \/ is_Some (db_snaps A !! w)) as [->|Hw]; [|lia|].
    + case_bool_decide; [auto|]. destruct (decide (w = db_next A)); [auto|]. rewrite lookup_insert_ne in Hs by auto. auto.
    + apply (inv_snap_key A Hi) in Hw. lia.
  - intros Hv. apply (inv_vers A Hi) in Hv. lia.
  - rewrite (inv_writes A Hi), elem_of_union, elem_of_singleton. unfold has_version. cbn.
    split; [tauto|]. intros [[->|Ha] Hv]; [|tauto]. apply (inv_vers A Hi) in Hv. lia.
  - rewrite elem_of_union, elem_of_singleton. intros Hv Hw. destruct (decide (w = db_next A)) as [->|Hne].
    + destruct Hv as [->|Hv]; [lia|exact Hv].
    + destruct Hv as [->|Hv]; [lia|]. apply (inv_active_snap A Hi); [exact Hv|lia].
  - destruct (decide (w = db_next A)) as [->|Hw]; intros Hv Hm; (destruct (decide (m = db_next A)) as [->|Hne]).
    + lia.
    + apply (inv_active_snap A Hi); [exact Hv|lia].
    + apply (inv_snap A Hi) in Hv. lia.
    + now apply (inv_interval A Hi v m w).
  - unfold has_version. cbn. intros Hv Hw Hlt'. pose proof (inv_vers A Hi _ _ Hw).
    destruct (decide (w = db_next A)); [lia|]. now apply (inv_visible A Hi k).
Qed.

Lemma db_inv_commit A v : db_inv A -> db_inv (db_commit v A).
Proof.
  intros Hi. destruct Hi as [I1 I2 I3 I4 I5 I6 I7 I8 I9].
  split; intros *; unfold snapshot, has_version in *;
    cbn [db_commit db_next db_active db_snaps db_writes db_vers]; auto.
  - rewrite elem_of_difference. intros [Hv _]. auto.
  - apply I5.
  - rewrite elem_of_filter, I6, elem_of_difference, elem_of_singleton. cbn. tauto.
  - rewrite elem_of_difference. intros [Hv _]. auto.
  - apply I8.
  - apply I9.
Qed.

Lemma rollback_vers A v k w :
  db_vers (db_rollback v A) !! (k, w) = if decide (w = v) then None else db_vers A !! (k, w).
Proof.
  cbn. rewrite map_lookup_filter. destruct (db_vers A !! (k, w)); cbn; [|now destruct (decide _)].
  destruct (decide (w = v)) as [->|Hne].
  - rewrite option_guard_False; [reflexivity|]. cbn. tauto.
  - now rewrite option_guard_True.
Qed.

Lemma has_version_rollback A v k w :
  has_version (db_rollback v A) k w <-> has_version A k w /\ w <> v.
Proof.
  unfold has_version. rewrite rollback_vers. destruct (decide (w = v)) as [->|Hne].
  - split; [intros [x F]; discriminate|tauto].
  - tauto.
Qed.

Lemma db_inv_rollback A v : db_inv A -> db_inv (db_rollback v A).
Proof.
  intros Hi. destruct Hi as [I1 I2 I3 I4 I5 I6 I7 I8 I9].
  split; intros *; rewrite ?has_version_rollback; unfold snapshot in *;
    cbn [db_rollback db_next db_active db_snaps db_writes]; auto.
  - rewrite elem_of_difference. intros [Hv _]. auto.
  - intros [Hv _]. eauto.
  - rewrite elem_of_filter, I6, elem_of_difference, elem_of_singleton. cbn. tauto.
  - rewrite elem_of_difference. intros [Hv _]. auto.
  - apply I8.
  - intros [Hv _] [Hw _]. now apply (I9 k).
Qed.

Lemma has_version_write A v k o k' w :
  has_version (db_write v k o A) k' w <-> (k', w) = (k, v) \/ has_version A k' w.
Proof.
  unfold has_version. cbn. destruct (decide ((k, v) = (k', w))) as [[= -> ->]|Hne].
  - rewrite lookup_insert_eq. split; [auto|eauto].
  - rewrite lookup_insert_ne by exact Hne. split; [auto|]. intros [[=]|F]; [congruence|exact F].
Qed.

(** A write on top of visible versions only. *)
Lemma db_inv_write A t k o :
  db_inv A -> rw_ok A t -> (forall v, has_version A k v -> is_visible t v = true) ->
  db_inv (db_write (version t) k o A).
Proof.
  intros Hi (Hro & Ha & Hact) Hvis. destruct Hi as [I1 I2 I3 I4 I5 I6 I7 I8 I9].
  split; intros *; rewrite ?has_version_write; unfold snapshot in *;
    cbn [db_write db_next db_active db_snaps db_writes]; auto.
  - intros [[= -> ->]|F]; eauto.
  - rewrite elem_of_union, elem_of_singleton, I6. split.
    + intros [[= -> ->]|F]; [auto|tauto].
    + intros [F1 [[= -> ->]|F2]]; auto.
  - apply I8.
  - intros [E1|F1] [E2|F2] Hlt; [simplify_eq; lia|simplify_eq|simplify_eq|now apply (I9 k0)].
    + specialize (Hvis _ F2). apply is_visible_le in Hvis. lia.
    + specialize (Hvis _ F1). unfold is_visible in Hvis. rewrite Hact in Hvis. unfold snapshot in Hvis.
      case_bool_decide; [discriminate|assumption].
Qed.

(** ** Snapshot isolation *)
Record txn_spec : Type := mkTs {
  ts_version : Z;
  ts_read_only : bool;
  ts_snapshot : gmap bytes bytes;
  ts_writes : gmap bytes (option bytes);
  (** keys committed by others since the transaction began *)
  ts_dirty : gset bytes;
}.

Record si_state : Type := mkSi {
  si_next : Z;
  si_committed : gmap bytes bytes;
  si_history : gmap Z (gmap bytes bytes);
  si_txns : gmap nat txn_spec;
  si_unver : gmap bytes bytes;
}.

Definition si_empty : si_state := mkSi 1 ∅ ∅ ∅ ∅.

(** Writes on top of a map; a [None] write is a deletion. *)
Definition overlay (w : gmap bytes (option bytes)) (m : gmap bytes bytes) : gmap bytes bytes :=
  merge (fun o s => match o with Some x => x | None => s end) w m.

Definition btree_of (M : gmap bytes bytes) : list (bytes * bytes) :=
  map_fold (fun k v l => btree_insert k v l) [] M.
Definition rows_of (r : key_range) (M : gmap bytes bytes) : list (bytes * bytes) :=
  List.filter (fun kv => in_range r kv.1) (btree_of M).

(** Client commands.  A client names its transactions; a command on a name
    that is not open, or a begin on one that is, does nothing. *)
Inductive cmd : Type :=
  | CBegin (c : nat)
  | CBeginReadOnly (c : nat)
  | CBeginAsOf (c : nat) (v : Z)
  | CResume (c : nat)
  | CGet (c : nat) (k : bytes)
  | CScan (c : nat) (r : key_range)
  | CScanPrefix (c : nat) (p : bytes)
  | CSet (c : nat) (k v : bytes)
  | CDelete (c : nat) (k : bytes)
  | CCommit (c : nat)
  | CRollback (c : nat)
  | CGetUnversioned (k : bytes)
  | CSetUnversioned (k v : bytes).

Inductive response : Type :=
  | RUnit
  | RValue (o : option bytes)
  | RRows (l : list (bytes * bytes))
  | RIgnored.

Definition si_open (c : nat) (ts : txn_spec) (S : si_state) : si_state :=
  mkSi (si_next S) (si_committed S) (si_history S) (<[c := ts]> (si_txns S)) (si_unver S).
Definition si_close (c : nat) (S : si_state) : si_state :=
  mkSi (si_next S) (si_committed S) (si_history S) (delete c (si_txns S)) (si_unver S).

Definition ts_data (ts : txn_spec) : gmap bytes bytes := overlay (ts_writes ts) (ts_snapshot ts).

(** Some other open transaction has written the key. *)
Definition written_by_other (S : si_state) (c : nat) (k : bytes) : bool :=
  existsb (fun cts => negb (bool_decide (cts.1 = c)) && bool_decide (is_Some (ts_writes cts.2 !! k)))
    (map_to_list (si_txns S)).

Definition si_write (S : si_state) (c : nat) (ts : txn_spec) (k : bytes) (o : option bytes) :
    outcome response * si_state :=
  if ts_read_only ts then (Err ReadOnly, S)
  else if bool_decide (k ∈ ts_dirty ts) || written_by_other S c k then (Err Serialization, S)
  else (Ok RUnit,
        si_open c (mkTs (ts_version ts) false (ts_snapshot ts) (<[k := o]> (ts_writes ts)) (ts_dirty ts)) S).

(** Publishing a transaction's writes. *)
Definition si_commit (S : si_state) (c : nat) (ts : txn_spec) : si_state :=
  mkSi (si_next S) (overlay (ts_writes ts) (si_committed S)) (si_history S)
    ((fun ts' => mkTs (ts_version ts') (ts_read_only ts') (ts_snapshot ts') (ts_writes ts')
                   (dom (ts_writes ts) ∪ ts_dirty ts')) <$> delete c (si_txns S))
    (si_unver S).

Definition si_step (S : si_state) (cm : cmd) : outcome response * si_state :=
  let if_open c f := match si_txns S !! c with
                     | Some ts => f ts
                     | None => (Ok RIgnored, S)
                     end in
  let if_closed c f := match si_txns S !! c with
                       | Some _ => (Ok RIgnored, S)
                       | None => f
                       end in
  match cm with
  | CBegin c =>
      if_closed c
        (let S' := mkSi (si_next S + 1) (si_committed S)
                     (<[si_next S := si_committed S]> (si_history S)) (si_txns S) (si_unver S) in
         (Ok RUnit, si_open c (mkTs (si_next S) false (si_committed S) ∅ ∅) S'))
  | CBeginReadOnly c =>
      if_closed c (Ok RUnit, si_open c (mkTs (si_next S) true (si_committed S) ∅ ∅) S)
  | CBeginAsOf c v =>
      if_closed c
        (if si_next S <=? v then (Err (InvalidInput "version does not exist"), S)
         else (Ok RUnit, si_open c (mkTs v true (default ∅ (si_history S !! v)) ∅ ∅) S))
  | CResume c => if_open c (fun _ => (Ok RUnit, S))
  | CGet c k => if_open c (fun ts => (Ok (RValue (ts_data ts !! k)), S))
  | CScan c r => if_open c (fun ts => (Ok (RRows (rows_of r (ts_data ts))), S))
  | CScanPrefix c p => if_open c (fun ts => (Ok (RRows (rows_of (prefix_range p) (ts_data ts))), S))
  | CSet c k v => if_open c (fun ts => si_write S c ts k (Some v))
  | CDelete c k => if_open c (fun ts => si_write S c ts k None)
  | CCommit c =>
      if_open c (fun ts => (Ok RUnit, if ts_read_only ts then si_close c S else si_commit S c ts))
  | CRollback c => if_open c (fun _ => (Ok RUnit, si_close c S))
  | CGetUnversioned k => (Ok (RValue (si_unver S !! k)), S)
  | CSetUnversioned k v =>
      (Ok RUnit, mkSi (si_next S) (si_committed S) (si_history S) (si_txns S) (<[k := v]> (si_unver S)))
  end.

Fixpoint si_run (S : si_state) (cms : list cmd) : list (outcome response) * si_state :=
  match cms with
  | [] => ([], S)
  | cm :: cms' =>
      let (r, S1) := si_step S cm in
      let (rs, S2) := si_run S1 cms' in
      (r :: rs, S2)
  end.

(** ** The MVCC engine driven by the same commands *)
Section System.
Context {E : Type} `{EngineReads E} {EW : EngineWrites E}.
Context {BV : Bincode is_u64} {BS : Bincode all_u64} {BO : Bincode (@any (option bytes))}.
Context (test : bool).

Record system : Type := mkSystem { sys_engine : E; sys_txns : gmap nat TransactionState }.

(** All rows of a scan; the engine has at most one row per raw item. *)
Definition collect (s : ScanIterator) (e : E) : outcome (list (bytes * bytes)) :=
  let items := match remainder s with
               | Some r => match engine_scan r e with Ok items => length items | _ => 0%nat end
               | None => 0%nat
               end in
  drain test (S items) (fun _ => e) s.

Definition on_engine {A} (f : stM E A) (k : A -> response)
    (txns : A -> gmap nat TransactionState) (s : system) : outcome response * system :=
  match f (sys_engine s) with
  | (Ok a, e) => (Ok (k a), mkSystem e (txns a))
  | (Err err, e) => (Err err, mkSystem e (sys_txns s))
  | (Panic p, e) => (Panic p, mkSystem e (sys_txns s))
  end.

Definition run_cmd (s : system) (cm : cmd) : outcome response * system :=
  let txns := sys_txns s in
  let if_open c f := match txns !! c with Some t => f t | None => (Ok RIgnored, s) end in
  let if_closed c f := match txns !! c with Some _ => (Ok RIgnored, s) | None => f end in
  let same {A} (_ : A) := txns in
  match cm with
  | CBegin c => if_closed c (on_engine begin (fun _ => RUnit) (fun t => <[c := t]> txns) s)
  | CBeginReadOnly c =>
      if_closed c (on_engine (begin_read_only None) (fun _ => RUnit) (fun t => <[c := t]> txns) s)
  | CBeginAsOf c v =>
      if_closed c (on_engine (begin_read_only (Some v)) (fun _ => RUnit) (fun t => <[c := t]> txns) s)
  | CResume c => if_open c (fun t => on_engine (resume t) (fun _ => RUnit) (fun t' => <[c := t']> txns) s)
  | CGet c k => if_open c (fun t => on_engine (get t k) RValue same s)
  | CScan c r =>
      if_open c (fun t => on_engine (st_read (fun e => let? it := scan t r in collect it e)) RRows same s)
  | CScanPrefix c p =>
      if_open c (fun t => on_engine (st_read (fun e => let? it := scan_prefix t p in collect it e)) RRows same s)
  | CSet c k v => if_open c (fun t => on_engine (txn_set t k v) (fun _ => RUnit) same s)
  | CDelete c k => if_open c (fun t => on_engine (txn_delete t k) (fun _ => RUnit) same s)
  | CCommit c => if_open c (fun t => on_engine (commit t) (fun _ => RUnit) (fun _ => delete c txns) s)
  | CRollback c => if_open c (fun t => on_engine (rollback t) (fun _ => RUnit) (fun _ => delete c txns) s)
  | CGetUnversioned k => on_engine (get_unversioned k) RValue same s
  | CSetUnversioned k v => on_engine (set_unversioned k v) (fun _ => RUnit) same s
  end.

Fixpoint run_cmds (s : system) (cms : list cmd) : list (outcome response) * system :=
  match cms with
  | [] => ([], s)
  | cm :: cms' =>
      let (r, s1) := run_cmd s cm in
      let (rs, s2) := run_cmds s1 cms' in
      (r :: rs, s2)
  end.

(** The commands whose arguments are values of the Rust types; an inverted
    scan range panics in the storage engine. *)
Definition cmd_ok (cm : cmd) : Prop :=
  match cm with
  | CBeginAsOf _ v => is_u64 v
  | CScan _ r => range_ok r = true
  | _ => True
  end.

(** ** The simulation relation *)
Definition ro_view (t : TransactionState) : TransactionState := mkTxn (version t) true (active t).

Record txn_sim (A : mvcc_db) (t : TransactionState) (ts : txn_spec) : Prop := {
  sim_version : ts_version ts = version t;
  sim_read_only : ts_read_only ts = read_only t;
  sim_range : 0 <= version t <= db_next A;
  sim_snapshot k : reads A (ro_view t) k (ts_snapshot ts !! k);
  sim_hidden v : v ∈ db_active A -> v < version t -> v ∈ active t;
  sim_ro : read_only t = true -> ts_writes ts = ∅;
  sim_rw : read_only t = false -> rw_ok A t;
  sim_writes k : read_only t = false -> ts_writes ts !! k = db_vers A !! (k, version t);
  sim_dirty k : read_only t = false ->
    k ∈ ts_dirty ts <-> exists v, has_version A k v /\ v ∉ db_active A /\ is_visible t v = false;
}.

Definition distinct_versions (txns : gmap nat TransactionState) : Prop :=
  forall c c' t t', txns !! c = Some t -> txns !! c' = Some t' ->
    read_only t = false -> read_only t' = false -> version t = version t' -> c = c'.

Record sim (A : mvcc_db) (txns : gmap nat TransactionState) (S : si_state) : Prop := {
  sim_next : si_next S = db_next A;
  sim_unver : si_unver S = db_unver A;
  sim_committed k : reads A (mkTxn (db_next A) true (db_active A)) k (si_committed S !! k);
  sim_history v k : v < db_next A ->
    reads A (mkTxn v true (snapshot A v)) k (default ∅ (si_history S !! v) !! k);
  sim_txns c : option_Forall2 (txn_sim A) (txns !! c) (si_txns S !! c);
  sim_active v : v ∈ db_active A <->
    exists c t, txns !! c = Some t /\ read_only t = false /\ version t = v;
  sim_distinct : distinct_versions txns;
}.

Definition related (s : system) (S : si_state) : Prop :=
  exists A, db_rep (sys_engine s) A /\ db_inv A /\ sim A (sys_txns s) S.

(** ** Reads *)
Lemma reads_ext A t A' t' k r :
  (forall v o, db_vers A !! (k, v) = Some o /\ is_visible t v = true <->
               db_vers A' !! (k, v) = Some o /\ is_visible t' v = true) ->
  reads A t k r -> reads A' t' k r.
Proof.
  intros Hx [(v & L & V & M)|[-> N]].
  - left. exists v. destruct (proj1 (Hx v r) (conj L V)) as [L' V']. split; [exact L'|]. split; [exact V'|].
    intros v' [o Ho] Hv'. destruct (proj2 (Hx v' o) (conj Ho Hv')) as [L2 V2]. apply M; [now exists o|exact V2].
  - right. split; [reflexivity|]. intros v Hv [o Ho]. destruct (proj2 (Hx v o) (conj Ho Hv)) as [L V].
    apply (N v V). now exists o.
Qed.

Lemma reads_same_view A A' t k r : same_view t A A' -> reads A t k r -> reads A' t k r.
Proof.
  intros Hv. apply reads_ext. intros v o. split; intros [F1 F2]; split; auto; [now rewrite <- Hv|now rewrite Hv].
Qed.

Lemma overlay_lookup w m k :
  overlay w m !! k = match w !! k with Some o => o | None => m !! k end.
Proof. unfold overlay. rewrite lookup_merge. destruct (w !! k), (m !! k); reflexivity. Qed.

Lemma own_visible A t : db_inv A -> rw_ok A t -> is_visible t (version t) = true.
Proof.
  intros Hi (Hro & Ha & Hact). unfold is_visible. rewrite Hro, bool_decide_false; [lia|].
  rewrite Hact. intros F. apply (inv_snap A Hi) in F. lia.
Qed.

Lemma visible_rw A t v :
  db_inv A -> rw_ok A t ->
  is_visible t v = true <-> v = version t \/ is_visible (ro_view t) v = true.
Proof.
  intros Hi Hok. pose proof (own_visible A t Hi Hok) as Hown. pose proof Hok as (Hro & _ & _).
  split.
  - intros Hv. unfold is_visible in *. cbn [ro_view read_only active version]. rewrite Hro in Hv.
    case_bool_decide; [discriminate|]. destruct (decide (v = version t)); [auto|right; lia].
  - intros [->|Hv]; [exact Hown|]. unfold is_visible in *. cbn [ro_view read_only active version] in Hv.
    rewrite Hro. case_bool_decide; [discriminate|lia].
Qed.

(** A transaction reads its own writes, and its snapshot elsewhere. *)
Lemma reads_data A t ts k : db_inv A -> txn_sim A t ts -> reads A t k (ts_data ts !! k).
Proof.
  intros Hi [_ _ _ Hsnap _ Hro Hrw Hw _]. unfold ts_data. rewrite overlay_lookup.
  specialize (Hsnap k). destruct (read_only t) eqn:Et.
  - rewrite Hro, lookup_empty by reflexivity. destruct t as [v ro a]; cbn in *. now subst ro.
  - specialize (Hrw eq_refl). rewrite Hw by reflexivity.
    destruct (db_vers A !! (k, version t)) as [o|] eqn:Eo.
    + left. exists (version t). split; [exact Eo|]. split; [now apply (own_visible A)|].
      intros v' _ Hv'. now apply is_visible_le.
    + revert Hsnap. apply reads_ext. intros v o. rewrite (visible_rw A t v Hi Hrw).
      split; [tauto|]. intros [F [->|F2]]; [congruence|auto].
Qed.

(** ** Active versions are hidden from every other view *)
Lemma hidden_ro t (w : Z) :
  (w < version t -> w ∈ active t) -> is_visible (ro_view t) w = false.
Proof.
  intros Hh. unfold is_visible. cbn [ro_view read_only active version].
  case_bool_decide as Ha; [reflexivity|]. destruct (Z.ltb_spec w (version t)); [now destruct Ha; apply Hh|reflexivity].
Qed.

Lemma hidden_txn A t ts (w : Z) :
  txn_sim A t ts -> w ∈ db_active A -> (read_only t = false -> version t <> w) ->
  is_visible t w = false.
Proof.
  intros Hs Hw Hne. pose proof (sim_hidden A t ts Hs w Hw) as Hh. pose proof (hidden_ro t w Hh) as Hr.
  unfold is_visible in *. cbn [ro_view read_only active version] in Hr.
  destruct (bool_decide (w ∈ active t)); [reflexivity|]. destruct (read_only t); [exact Hr|].
  specialize (Hne eq_refl). lia.
Qed.

Lemma same_view_write t A v k o :
  is_visible t v = false -> same_view t A (db_write v k o A).
Proof.
  intros Hv k' w Hw. cbn. rewrite lookup_insert_ne; [reflexivity|]. intros [= -> ->]. congruence.
Qed.

Lemma same_view_rollback t A v : is_visible t v = false -> same_view t A (db_rollback v A).
Proof.
  intros Hv k' w Hw. rewrite rollback_vers. rewrite decide_False; [reflexivity|]. intros ->. congruence.
Qed.

(** ** Other transactions are unaffected *)
Lemma txn_sim_begin A t ts : db_inv A -> txn_sim A t ts -> txn_sim (db_begin A) t ts.
Proof.
  intros Hi [S1 S2 S3 S4 S5 S6 S7 S8 S9]. split; auto.
  - cbn. lia.
  - intros v. cbn. rewrite elem_of_union, elem_of_singleton. intros [->|Hv] Hlt; [lia|auto].
  - intros Hro. destruct (S7 Hro) as (_ & Ha & Hact). split; [exact Hro|]. split; [cbn; set_solver|].
    rewrite snapshot_begin by exact Hi. apply (inv_active A Hi) in Ha.
    rewrite decide_False by lia. exact Hact.
  - intros k Hro. rewrite S9 by exact Hro. cbn. split; intros (v & H1 & H2 & H3); exists v.
    + apply (inv_vers A Hi) in H1 as Hb. split; [exact H1|]. split; [|exact H3].
      rewrite elem_of_union, elem_of_singleton. intros [->|F]; [lia|tauto].
    + split; [exact H1|]. split; [set_solver|exact H3].
Qed.

Lemma txn_sim_commit (A : mvcc_db) (t : TransactionState) (ts : txn_spec) (w : Z) (ws : gset bytes) :
  txn_sim A t ts -> w ∈ db_active A -> (read_only t = false -> version t <> w) ->
  (forall k, k ∈ ws <-> has_version A k w) ->
  txn_sim (db_commit w A) t
    (mkTs (ts_version ts) (ts_read_only ts) (ts_snapshot ts) (ts_writes ts) (ws ∪ ts_dirty ts)).
Proof.
  intros Hs Hw Hne Hws. pose proof (hidden_txn A t ts w Hs Hw Hne) as Hinv.
  destruct Hs as [S1 S2 S3 S4 S5 S6 S7 S8 S9]. split; auto.
  - intros v. cbn. rewrite elem_of_difference. intros [Hv _]. auto.
  - intros Hro. destruct (S7 Hro) as (_ & Ha & Hact). split; [exact Hro|]. split; [|exact Hact].
    cbn. rewrite elem_of_difference, elem_of_singleton. auto.
  - intros k Hro. cbn [ts_dirty]. rewrite elem_of_union, Hws, S9 by exact Hro. cbn [db_commit db_active]. split.
    + intros [Hk|(v & H1 & H2 & H3)]; [exists w|exists v]; (split; [assumption|]); (split; [|assumption]); set_solver.
    + intros (v & H1 & H2 & H3). destruct (decide (v = w)) as [->|Hvw]; [now left|].
      right. exists v. split; [exact H1|]. split; [set_solver|exact H3].
Qed.

Lemma txn_sim_rollback A t ts (w : Z) :
  txn_sim A t ts -> w ∈ db_active A -> (read_only t = false -> version t <> w) ->
  txn_sim (db_rollback w A) t ts.
Proof.
  intros Hs Hw Hne. pose proof (sim_hidden A t ts Hs w Hw) as Hh.
  destruct Hs as [S1 S2 S3 S4 S5 S6 S7 S8 S9]. split; auto.
  - intros k. apply (reads_same_view A); [|apply S4]. apply same_view_rollback. now apply hidden_ro.
  - intros v. cbn. rewrite elem_of_difference. intros [Hv _]. auto.
  - intros Hro. destruct (S7 Hro) as (_ & Ha & Hact). split; [exact Hro|]. split; [|exact Hact].
    cbn. rewrite elem_of_difference, elem_of_singleton. auto.
  - intros k Hro. rewrite rollback_vers, decide_False by auto. auto.
  - intros k Hro. rewrite S9 by exact Hro. setoid_rewrite has_version_rollback. cbn [db_rollback db_active]. split.
    + intros (v & H1 & H2 & H3). exists v. split; [split; [exact H1|congruence]|]. split; [set_solver|exact H3].
    + intros (v & [H1 H1'] & H2 & H3). exists v. split; [exact H1|]. split; [set_solver|exact H3].
Qed.

Lemma txn_sim_write A t ts (w : Z) k o :
  txn_sim A t ts -> w ∈ db_active A -> (read_only t = false -> version t <> w) ->
  txn_sim (db_write w k o A) t ts.
Proof.
  intros Hs Hw Hne. pose proof (sim_hidden A t ts Hs w Hw) as Hh.
  destruct Hs as [S1 S2 S3 S4 S5 S6 S7 S8 S9]. split; auto.
  - intros k'. apply (reads_same_view A); [|apply S4]. apply same_view_write. now apply hidden_ro.
  - intros k' Hro. cbn. rewrite lookup_insert_ne by (intros [= _ F]; now apply Hne). auto.
  - intros k' Hro. rewrite S9 by exact Hro. setoid_rewrite has_version_write. cbn [db_write db_active].
    split; intros (v & H1 & H2 & H3); exists v; [auto|].
    destruct H1 as [[= -> ->]|H1]; [now destruct H2|auto].
Qed.

Lemma txn_sim_unver A t ts k v : txn_sim A t ts -> txn_sim (db_set_unversioned k v A) t ts.
Proof. intros [S1 S2 S3 S4 S5 S6 S7 S8 S9]. split; auto. Qed.

(** The transaction's own write. *)
Lemma txn_sim_own_write A t ts k o :
  db_inv A -> txn_sim A t ts -> read_only t = false ->
  txn_sim (db_write (version t) k o A) t
    (mkTs (ts_version ts) false (ts_snapshot ts) (<[k := o]> (ts_writes ts)) (ts_dirty ts)).
Proof.
  intros Hi [S1 S2 S3 S4 S5 S6 S7 S8 S9] Hro. pose proof (S7 Hro) as Hok.
  pose proof Hok as (_ & Ha & Hact). split; auto.
  - intros k'. cbn [ts_snapshot]. apply (reads_same_view A); [|apply S4]. apply same_view_write.
    apply hidden_ro. lia.
  - congruence.
  - intros k' _. cbn. destruct (decide (k = k')) as [->|Hne].
    + now rewrite !lookup_insert_eq.
    + rewrite !lookup_insert_ne by congruence. auto.
  - intros k' _. cbn [ts_dirty]. rewrite S9 by exact Hro. setoid_rewrite has_version_write.
    cbn [db_write db_active]. split; intros (v & H1 & H2 & H3); exists v; [auto|].
    destruct H1 as [[= -> ->]|H1]; [now destruct H2|auto].
Qed.

(** ** Commands preserve the simulation *)
Lemma sim_lookup A txns S c t :
  sim A txns S -> txns !! c = Some t -> exists ts, si_txns S !! c = Some ts /\ txn_sim A t ts.
Proof. intros Hs Hc. pose proof (sim_txns A txns S Hs c) as F. rewrite Hc in F. inv F. eauto. Qed.

Lemma sim_lookup_None A txns S c :
  sim A txns S -> txns !! c = None -> si_txns S !! c = None.
Proof. intros Hs Hc. pose proof (sim_txns A txns S Hs c) as F. rewrite Hc in F. now inv F. Qed.

Lemma sim_txns_insert A (txns : gmap nat TransactionState) (stxns : gmap nat txn_spec) c t ts :
  (forall c', option_Forall2 (txn_sim A) (txns !! c') (stxns !! c')) -> txn_sim A t ts ->
  forall c', option_Forall2 (txn_sim A) (<[c := t]> txns !! c') (<[c := ts]> stxns !! c').
Proof.
  intros Hall Ht c'. destruct (decide (c = c')) as [->|Hne].
  - rewrite !lookup_insert_eq. now constructor.
  - now rewrite !lookup_insert_ne.
Qed.

Lemma sim_txns_delete A (txns : gmap nat TransactionState) (stxns : gmap nat txn_spec) c :
  (forall c', c' <> c -> option_Forall2 (txn_sim A) (txns !! c') (stxns !! c')) ->
  forall c', option_Forall2 (txn_sim A) (delete c txns !! c') (delete c stxns !! c').
Proof.
  intros Hall c'. destruct (decide (c = c')) as [->|Hne].
  - rewrite !lookup_delete_eq. constructor.
  - rewrite !lookup_delete_ne by exact Hne. auto.
Qed.

Lemma distinct_insert txns c t :
  (forall c' t', txns !! c' = Some t' -> read_only t' = false -> read_only t = false ->
     version t' <> version t) ->
  distinct_versions txns -> distinct_versions (<[c := t]> txns).
Proof.
  intros Hd Hall c1 c2 t1 t2 F1 F2 R1 R2 Ev.
  apply lookup_insert_Some in F1 as [[<- <-]|[N1 F1]], F2 as [[<- <-]|[N2 F2]]; eauto.
  - now destruct (Hd _ _ F2 R2 R1).
  - now destruct (Hd _ _ F1 R1 R2).
Qed.

Lemma distinct_delete txns c : distinct_versions txns -> distinct_versions (delete c txns).
Proof.
  intros Hall c1 c2 t1 t2 F1 F2. apply lookup_delete_Some in F1 as [_ F1], F2 as [_ F2]. eauto.
Qed.

(** The view of the next transaction. *)
Lemma committed_hides A v k :
  db_inv A -> has_version A k v -> is_visible (mkTxn (db_next A) true (db_active A)) v = bool_decide (v ∉ db_active A).
Proof.
  intros Hi Hv. apply (inv_vers A Hi) in Hv. unfold is_visible. cbn [active read_only version].
  repeat case_bool_decide; try tauto. lia.
Qed.

Lemma sim_begin A txns S c :
  db_inv A -> sim A txns S -> txns !! c = None ->
  sim (db_begin A) (<[c := mkTxn (db_next A) false (db_active A)]> txns)
    (si_open c (mkTs (si_next S) false (si_committed S) ∅ ∅)
       (mkSi (si_next S + 1) (si_committed S) (<[si_next S := si_committed S]> (si_history S))
          (si_txns S) (si_unver S))).
Proof.
  intros Hi Hs Hc. pose proof (inv_next A Hi) as Hn. pose proof Hs as [P1 P2 P3 P4 P5 P6 P7].
  set (t := mkTxn (db_next A) false (db_active A)).
  assert (txn_sim (db_begin A) t (mkTs (si_next S) false (si_committed S) ∅ ∅)) as Ht.
  { split; auto; cbn [t version read_only active ts_dirty ts_writes].
    - cbn. lia.
    - intros v. cbn. rewrite elem_of_union, elem_of_singleton. intros [->|Hv] Hlt; [lia|exact Hv].
    - intros _. split; [reflexivity|]. split; [cbn; set_solver|]. rewrite snapshot_begin by exact Hi.
      now rewrite decide_True.
    - intros k _. rewrite lookup_empty. symmetry. apply eq_None_not_Some. intros F.
      apply (inv_vers A Hi) in F. lia.
    - intros k _. split; [set_solver|]. intros (v & H1 & H2 & H3). exfalso.
      apply (inv_vers A Hi) in H1. cbn in H2. unfold is_visible in H3. cbn [active read_only version t] in H3.
      rewrite elem_of_union in H2. rewrite bool_decide_false in H3 by tauto. lia. }
  split; cbn [si_open si_next si_unver si_committed si_history si_txns].
  - cbn. lia.
  - exact P2.
  - intros k. generalize (P3 k). apply reads_ext. intros v o.
    cbn [db_begin db_vers db_next db_active].
    assert (db_vers A !! (k, v) = Some o -> is_visible (mkTxn (db_next A) true (db_active A)) v
            = is_visible (mkTxn (db_next A + 1) true ({[db_next A]} ∪ db_active A)) v) as F.
    { intros Ho. pose proof (inv_vers A Hi k v (ex_intro _ o Ho)). unfold is_visible. cbn [active read_only version].
      repeat case_bool_decide; set_solver by lia. }
    split; intros [F1 F2]; (split; [exact F1|]); [now rewrite <- F|now rewrite F].
  - intros v k Hv. rewrite snapshot_begin, P1 by exact Hi. cbn [db_begin db_next] in Hv.
    destruct (decide (v = db_next A)) as [->|Hne].
    + rewrite lookup_insert_eq. exact (P3 k).
    + rewrite lookup_insert_ne by congruence. apply P4. lia.
  - apply sim_txns_insert; [|exact Ht]. intros c'. specialize (P5 c'). inv P5; constructor.
    now apply txn_sim_begin.
  - intros v. cbn [db_begin db_active]. rewrite elem_of_union, elem_of_singleton, P6. split.
    + intros [->|(c' & t' & F)]; [exists c, t; now rewrite lookup_insert_eq|].
      exists c', t'. rewrite lookup_insert_ne; [exact F|]. intros ->. destruct F. congruence.
    + intros (c' & t' & F & F2 & F3). destruct (decide (c = c')) as [->|Hne].
      * rewrite lookup_insert_eq in F. inv F. now left.
      * rewrite lookup_insert_ne in F by exact Hne. right. eauto.
  - assert (forall c' t', txns !! c' = Some t' -> read_only t' = false -> version t' <> db_next A) as Hd.
    { intros c' t' F F2 F3. assert (db_next A ∈ db_active A) as G by (apply P6; eauto).
      apply (inv_active A Hi) in G. lia. }
    apply distinct_insert; [|exact P7]. intros c' t' F F2 _. exact (Hd _ _ F F2).
Qed.

(** Opening a read-only transaction. *)
Lemma sim_open_ro A txns S c v act snap :
  db_inv A -> sim A txns S -> txns !! c = None -> 0 <= v <= db_next A ->
  (forall w, w ∈ db_active A -> w < v -> w ∈ act) ->
  (forall k, reads A (mkTxn v true act) k (snap !! k)) ->
  sim A (<[c := mkTxn v true act]> txns) (si_open c (mkTs v true snap ∅ ∅) S).
Proof.
  intros Hi Hs Hc Hv Hh Hsnap. destruct Hs as [P1 P2 P3 P4 P5 P6 P7].
  split; cbn [si_open si_next si_unver si_committed si_history si_txns]; auto.
  - apply sim_txns_insert; [exact P5|]. split; auto; discriminate.
  - intros w. rewrite P6. split.
    + intros (c' & t' & F). exists c', t'. rewrite lookup_insert_ne; [exact F|]. intros ->. destruct F; congruence.
    + intros (c' & t' & F & F2 & F3). destruct (decide (c = c')) as [->|Hne].
      * rewrite lookup_insert_eq in F. now inv F.
      * rewrite lookup_insert_ne in F by exact Hne. eauto.
  - apply distinct_insert; [discriminate|exact P7].
Qed.

(** Closing a read-only transaction. *)
Lemma sim_close_ro A txns S c t :
  sim A txns S -> txns !! c = Some t -> read_only t = true ->
  sim A (delete c txns) (si_close c S).
Proof.
  intros Hs Hc Hro. destruct Hs as [P1 P2 P3 P4 P5 P6 P7].
  split; cbn [si_close si_next si_unver si_committed si_history si_txns]; auto.
  - apply sim_txns_delete. auto.
  - intros w. rewrite P6. split.
    + intros (c' & t' & F & F2 & F3). exists c', t'. rewrite lookup_delete_ne; [auto|]. intros ->. congruence.
    + intros (c' & t' & F & F2 & F3). apply lookup_delete_Some in F as [_ F]. eauto.
  - now apply distinct_delete.
Qed.

(** The version of an active writer is the latest of its key. *)
Lemma active_latest A k v w :
  db_inv A -> w ∈ db_active A -> has_version A k w -> has_version A k v -> v <= w.
Proof.
  intros Hi Ha Hw Hv. destruct (Z.le_gt_cases v w) as [|Hlt]; [assumption|exfalso].
  apply (inv_visible A Hi k w v); [assumption..|]. apply (inv_active_snap A Hi); [exact Ha|].
  apply (inv_vers A Hi) in Hv. lia.
Qed.

(** Closing a read-write transaction: what both endings share. *)
Lemma sim_active_delete A txns S c t :
  sim A txns S -> txns !! c = Some t -> read_only t = false ->
  forall v, v ∈ db_active A ∖ {[version t]} <->
    exists c' t', delete c txns !! c' = Some t' /\ read_only t' = false /\ version t' = v.
Proof.
  intros Hs Hc Hro v. rewrite elem_of_difference, elem_of_singleton, (sim_active A txns S Hs). split.
  - intros [(c' & t' & F & F2 & F3) Hne]. exists c', t'. rewrite lookup_delete_ne; [auto|]. congruence.
  - intros (c' & t' & F & F2 & F3). apply lookup_delete_Some in F as [Hne F]. split; [eauto|].
    intros ->. apply Hne. eapply (sim_distinct A txns S Hs); eauto.
Qed.

Lemma sim_others A txns S c t :
  sim A txns S -> txns !! c = Some t -> read_only t = false ->
  version t ∈ db_active A /\
  forall c' t', c' <> c -> txns !! c' = Some t' -> read_only t' = false -> version t' <> version t.
Proof.
  intros Hs Hc Hro. split; [apply (sim_active A txns S Hs); eauto|].
  intros c' t' Hne F F2 F3. apply Hne. eapply (sim_distinct A txns S Hs); eauto.
Qed.

Lemma sim_commit A txns S c t ts :
  db_inv A -> sim A txns S -> txns !! c = Some t -> read_only t = false ->
  si_txns S !! c = Some ts -> txn_sim A t ts ->
  sim (db_commit (version t) A) (delete c txns) (si_commit S c ts).
Proof.
  intros Hi Hs Hc Hro Hcs Hts. pose proof (sim_active_delete _ _ _ _ _ Hs Hc Hro) as Hact.
  destruct (sim_others _ _ _ _ _ Hs Hc Hro) as [Ha Hoth]. set (w := version t) in *.
  pose proof (fun k => sim_writes A t ts Hts k Hro) as Hw. fold w in Hw.
  destruct Hs as [P1 P2 P3 P4 P5 P6 P7].
  split; cbn [si_commit si_next si_unver si_committed si_history si_txns]; auto.
  - intros k. rewrite overlay_lookup, Hw. cbn [db_commit db_next db_active].
    destruct (db_vers A !! (k, w)) as [o|] eqn:Eo.
    + left. exists w. split; [exact Eo|]. split.
      * unfold is_visible. cbn [active read_only version]. rewrite bool_decide_false by set_solver.
        apply (inv_active A Hi) in Ha. lia.
      * intros v' Hv' _. apply (active_latest A k); auto. now exists o.
    + generalize (P3 k). apply reads_ext. intros v o. cbn [db_commit db_vers].
      assert (db_vers A !! (k, v) = Some o -> is_visible (mkTxn (db_next A) true (db_active A)) v
              = is_visible (mkTxn (db_next A) true (db_active A ∖ {[w]})) v) as F.
      { intros Ho. unfold is_visible. cbn [active read_only version].
        rewrite (bool_decide_ext (v ∈ db_active A) (v ∈ db_active A ∖ {[w]})); [reflexivity|].
        rewrite elem_of_difference, elem_of_singleton. split; [|tauto]. intros Hv. split; [exact Hv|]. congruence. }
      split; intros [F1 F2]; (split; [exact F1|]); [now rewrite <- F|now rewrite F].
  - intros c'. rewrite lookup_fmap. destruct (decide (c = c')) as [->|Hne].
    { rewrite !lookup_delete_eq. constructor. }
    rewrite !lookup_delete_ne by exact Hne. pose proof (Hoth c') as Hoth'. specialize (P5 c').
    destruct (txns !! c') as [t'|]; inv P5; constructor.
    apply txn_sim_commit; [assumption|exact Ha|eauto|].
    intros k. rewrite elem_of_dom, Hw. reflexivity.
  - now apply distinct_delete.
Qed.

Lemma sim_rollback A txns S c t :
  db_inv A -> sim A txns S -> txns !! c = Some t -> read_only t = false ->
  sim (db_rollback (version t) A) (delete c txns) (si_close c S).
Proof.
  intros Hi Hs Hc Hro. pose proof (sim_active_delete _ _ _ _ _ Hs Hc Hro) as Hact.
  destruct (sim_others _ _ _ _ _ Hs Hc Hro) as [Ha Hoth]. set (w := version t) in *.
  destruct Hs as [P1 P2 P3 P4 P5 P6 P7].
  split; cbn [si_close si_next si_unver si_committed si_history si_txns]; auto.
  - intros k. generalize (P3 k). apply reads_ext. intros v o. rewrite rollback_vers.
    cbn [db_rollback db_next db_active]. unfold is_visible. cbn [active read_only version].
    destruct (decide (v = w)) as [->|Hne].
    + rewrite (bool_decide_true (w ∈ db_active A)) by exact Ha. split; intros [? ?]; discriminate.
    + rewrite (bool_decide_ext (v ∈ db_active A) (v ∈ db_active A ∖ {[w]})); [reflexivity|]. set_solver.
  - intros v k Hv. generalize (P4 v k Hv). apply reads_same_view, same_view_rollback.
    apply (hidden_ro (mkTxn v true (snapshot A v))). cbn [version active]. intros Hlt.
    apply (inv_active_snap A Hi); [exact Ha|]. cbn in Hv. lia.
  - apply sim_txns_delete. intros c' Hne. specialize (P5 c'). pose proof (Hoth c') as Hoth'.
    destruct (txns !! c') as [t'|]; inv P5; constructor. apply txn_sim_rollback; eauto.
  - now apply distinct_delete.
Qed.

Lemma sim_write A txns S c t ts k o :
  db_inv A -> sim A txns S -> txns !! c = Some t -> read_only t = false -> txn_sim A t ts ->
  sim (db_write (version t) k o A) txns
    (si_open c (mkTs (ts_version ts) false (ts_snapshot ts) (<[k := o]> (ts_writes ts)) (ts_dirty ts)) S).
Proof.
  intros Hi Hs Hc Hro Hts. destruct (sim_others _ _ _ _ _ Hs Hc Hro) as [Ha Hoth].
  destruct Hs as [P1 P2 P3 P4 P5 P6 P7].
  split; cbn [si_open si_next si_unver si_committed si_history si_txns]; auto.
  - intros k'. generalize (P3 k'). apply reads_same_view, same_view_write.
    unfold is_visible. cbn [active]. now rewrite bool_decide_true.
  - intros v k' Hv. generalize (P4 v k' Hv). apply reads_same_view, same_view_write.
    apply (hidden_ro (mkTxn v true (snapshot A v))). cbn [version active]. intros Hlt.
    apply (inv_active_snap A Hi); [exact Ha|]. cbn in Hv. lia.
  - intros c'. destruct (decide (c = c')) as [<-|Hne].
    + rewrite Hc, lookup_insert_eq. constructor. now apply txn_sim_own_write.
    + rewrite lookup_insert_ne by exact Hne. specialize (P5 c'). pose proof (Hoth c') as Hoth'.
      destruct (txns !! c') as [t'|]; inv P5; constructor. apply txn_sim_write; eauto.
Qed.

(** ** Write conflicts *)
Lemma written_by_other_spec S c k :
  written_by_other S c k = true <->
  exists c' ts', si_txns S !! c' = Some ts' /\ c' <> c /\ is_Some (ts_writes ts' !! k).
Proof.
  unfold written_by_other. rewrite existsb_exists. split.
  - intros ([c' ts'] & Hin & F). apply list_elem_of_In, elem_of_map_to_list in Hin. cbn in F.
    apply andb_true_iff in F as [F1 F2]. rewrite negb_true_iff, bool_decide_eq_false in F1.
    apply bool_decide_eq_true in F2. eauto.
  - intros (c' & ts' & F1 & F2 & F3). exists (c', ts'). split; [now apply list_elem_of_In, elem_of_map_to_list|].
    cbn. rewrite bool_decide_false, bool_decide_true by assumption. reflexivity.
Qed.

Lemma conflict_spec A txns S c t ts k :
  db_inv A -> sim A txns S -> txns !! c = Some t -> read_only t = false ->
  si_txns S !! c = Some ts -> txn_sim A t ts ->
  (bool_decide (k ∈ ts_dirty ts) || written_by_other S c k)%bool = true <->
  exists v, has_version A k v /\ is_visible t v = false.
Proof.
  intros Hi Hs Hc Hro Hcs Hts. destruct (sim_others _ _ _ _ _ Hs Hc Hro) as [Ha Hoth].
  rewrite orb_true_iff, bool_decide_eq_true, written_by_other_spec, (sim_dirty A t ts Hts) by exact Hro.
  split.
  - intros [(v & H1 & _ & H3)|(c' & ts' & F1 & F2 & F3)]; [eauto|].
    pose proof (sim_txns A txns S Hs c') as F. rewrite F1 in F. inv F. rename x into t', H3 into Ht'.
    symmetry in H1. destruct (read_only t') eqn:Hro'.
    { rewrite (sim_ro A t' ts' Ht' Hro'), lookup_empty in F3. now destruct F3. }
    rewrite (sim_writes A t' ts' Ht') in F3 by exact Hro'. exists (version t'). split; [exact F3|].
    apply (hidden_txn A t ts); [exact Hts| |].
    + apply (sim_active A txns S Hs). eauto.
    + intros _ E'. apply (Hoth c' t'); auto.
  - intros (v & H1 & H2). destruct (decide (v ∈ db_active A)) as [Hv|Hv]; [right|left; eauto].
    apply (sim_active A txns S Hs) in Hv as (c' & t' & F1 & F2 & F3).
    destruct (sim_lookup A txns S c' t' Hs F1) as (ts' & F4 & F5). exists c', ts'. split; [exact F4|]. split.
    + intros ->. assert (t' = t) as -> by congruence. subst v.
      rewrite (own_visible A t Hi) in H2; [discriminate|]. now apply (sim_rw A t ts).
    + rewrite (sim_writes A t' ts' F5) by exact F2. now subst v.
Qed.

Lemma same_view_refl t A : same_view t A A.
Proof. now intros k v _. Qed.

(** ** Scans of a related transaction *)
Lemma btree_of_spec M : btree_wf (btree_of M) /\ btree_abs (btree_of M) = M.
Proof.
  unfold btree_of. apply (map_fold_weak_ind (fun l M => btree_wf l /\ btree_abs l = M)).
  - split; [constructor|reflexivity].
  - intros k v m l Hk [Hw Ha]. split; [now apply btree_insert_wf|]. rewrite btree_insert_abs. now f_equal.
Qed.

Lemma rows_of_spec r M : scan_of r M (rows_of r M).
Proof.
  destruct (btree_of_spec M) as [Hw Ha]. split; [now apply StronglySorted_filter|].
  intros k v. unfold rows_of. rewrite filter_In, btree_abs_In, Ha by exact Hw. reflexivity.
Qed.

Lemma version_iterator_length t items : (length (version_iterator t items) <= length items)%nat.
Proof.
  induction items as [|[[k v]|e|p] items IH]; cbn; [lia| |lia|lia].
  destruct (decode k) as [[| | | |uk w|]|e|p]; cbn; try lia. destruct (is_visible t w); cbn; lia.
Qed.

Lemma live_length vl : (length (live vl) <= length vl)%nat.
Proof.
  induction vl as [|[[k v] o] vl IH]; [cbn; lia|]. rewrite live_cons.
  destruct vl as [|[[k' v'] o'] vl]; [destruct o; cbn; lia|].
  case_bool_decide; [cbn in *; lia|]. destruct o; cbn [length] in *; lia.
Qed.

(** The rows of an iterator over a raw range, however the engine changes. *)
Lemma drain_rows A t r raw M fuel es :
  db_inv A -> raw_range_of r raw -> (forall k, reads A t k (M !! k)) ->
  (forall i, exists A', db_rep (es i) A' /\ db_inv A' /\ same_view t A A') ->
  (length (rows_of r M) < fuel)%nat ->
  drain test fuel es (mkScan t [] (Some raw)) = Ok (rows_of r M).
Proof.
  intros Hi Hraw HM Hes Hf. destruct (Hes 0%nat) as (A0 & Hr0 & Hi0 & Hv0).
  destruct (version_iterator_spec (es 0%nat) A0 t raw Hr0 Hi0 (proj1 Hraw)) as (items & vl & _ & _ & Hvs).
  apply (same_view_vscan t A0 A) in Hvs; [|intros k v Hv; symmetry; now apply Hv0].
  assert (live vl = rows_of r M) as Erows.
  { eapply scan_of_unique; [eapply (live_scan_of A t); eauto|apply rows_of_spec]. }
  rewrite <- Erows in *.
  rewrite (drain_spec test A t fuel es (mkScan t [] (Some raw)) vl); auto. split; [exact (proj1 Hraw)|exact Hvs].
Qed.

Lemma collect_rows e A t r raw M :
  db_rep e A -> db_inv A -> raw_range_of r raw -> (forall k, reads A t k (M !! k)) ->
  collect (mkScan t [] (Some raw)) e = Ok (rows_of r M).
Proof.
  intros Hr Hi Hraw HM. unfold collect. cbn [remainder].
  destruct (version_iterator_spec e A t raw Hr Hi (proj1 Hraw)) as (items & vl & -> & Ev & Hvs).
  apply (drain_rows A); auto; [intros _; exists A; auto using same_view_refl|].
  assert (live vl = rows_of r M) as <-.
  { eapply scan_of_unique; [eapply (live_scan_of A t); eauto|apply rows_of_spec]. }
  pose proof (version_iterator_length t items) as L. rewrite Ev, length_map in L.
  pose proof (live_length vl). lia.
Qed.

(** ** One command *)
Definition names (cm : cmd) (c : nat) : bool :=
  match cm with
  | CBegin c' | CBeginReadOnly c' | CBeginAsOf c' _ | CResume c' | CGet c' _ | CScan c' _
  | CScanPrefix c' _ | CSet c' _ _ | CDelete c' _ | CCommit c' | CRollback c' => bool_decide (c' = c)
  | CGetUnversioned _ | CSetUnversioned _ _ => false
  end.

(** What a command promises: the response of the specification, a related
    state, and nothing that another client's open transaction can see. *)
Definition step_ok (A : mvcc_db) (s : system) (S : si_state) (cm : cmd) : Prop :=
  exists A', (run_cmd s cm).1 = (si_step S cm).1 /\
    db_rep (sys_engine (run_cmd s cm).2) A' /\ db_inv A' /\
    sim A' (sys_txns (run_cmd s cm).2) (si_step S cm).2 /\
    forall c t, sys_txns s !! c = Some t -> names cm c = false ->
      sys_txns (run_cmd s cm).2 !! c = Some t /\ same_view t A A'.

(** A command that changes nothing. *)
Lemma step_same A s S cm r :
  db_rep (sys_engine s) A -> db_inv A -> sim A (sys_txns s) S ->
  run_cmd s cm = (r, s) -> si_step S cm = (r, S) -> step_ok A s S cm.
Proof.
  intros Hr Hi Hs E1 E2. exists A. rewrite E1, E2. split; [reflexivity|]. split; [exact Hr|].
  split; [exact Hi|]. split; [exact Hs|]. intros c t Hc _. split; [exact Hc|apply same_view_refl].
Qed.

Lemma step_write A s S c t ts k o cm :
  db_rep (sys_engine s) A -> db_inv A -> sim A (sys_txns s) S ->
  sys_txns s !! c = Some t -> si_txns S !! c = Some ts -> txn_sim A t ts ->
  run_cmd s cm = on_engine (write_version t k o) (fun _ => RUnit) (fun _ => sys_txns s) s ->
  si_step S cm = si_write S c ts k o -> names cm c = true ->
  (forall c', names cm c' = true -> c' = c) ->
  step_ok A s S cm.
Proof.
  intros Hr Hi Hs Hc Hcs Hts Erun Espec Hn1 Hn2.
  unfold si_write in Espec. rewrite (sim_read_only A t ts Hts) in Espec. unfold on_engine in Erun.
  destruct (read_only t) eqn:Hro.
  { apply (step_same A s S cm (Err ReadOnly)); auto. rewrite Erun. unfold write_version. rewrite Hro. now destruct s. }
  pose proof (sim_rw A t ts Hts Hro) as Hok.
  pose proof (conflict_spec A (sys_txns s) S c t ts k Hi Hs Hc Hro Hcs Hts) as Hconf.
  destruct (write_version_spec (sys_engine s) A t k o Hr Hi Hok) as [[Ew Hex]|[(e' & Ew & Hr') Hall]];
    rewrite Ew in Erun.
  - rewrite (proj2 Hconf Hex) in Espec. apply (step_same A s S cm (Err Serialization)); auto.
    rewrite Erun. now destruct s.
  - destruct (bool_decide (k ∈ ts_dirty ts) || written_by_other S c k)%bool eqn:Eb.
    { destruct (proj1 Hconf eq_refl) as (v & H1 & H2). rewrite (Hall v H1) in H2. discriminate. }
    exists (db_write (version t) k o A). rewrite Erun, Espec. cbn [fst snd sys_engine sys_txns].
    split; [reflexivity|]. split; [exact Hr'|]. split; [now apply db_inv_write|]. split; [now apply sim_write|].
    intros c' t' Hc' Hn. split; [exact Hc'|]. apply same_view_write.
    destruct (sim_lookup A _ S c' t' Hs Hc') as (ts' & _ & Hts').
    destruct (sim_others _ _ _ _ _ Hs Hc Hro) as [Ha Hoth].
    apply (hidden_txn A t' ts'); [exact Hts'|exact Ha|]. intros Hro'. apply (Hoth c' t'); auto.
    intros ->. congruence.
Qed.

Section Steps.
Context (A : mvcc_db) (s : system) (S : si_state).
Context (Hr : db_rep (sys_engine s) A) (Hi : db_inv A) (Hs : sim A (sys_txns s) S).

Lemma step_begin c : db_next A < u64_max -> step_ok A s S (CBegin c).
Proof.
  intros Hlt. destruct (sys_txns s !! c) as [t|] eqn:Hc.
  { destruct (sim_lookup A _ S c t Hs Hc) as (ts & Hcs & _).
    apply (step_same A s S _ (Ok RIgnored)); auto; cbn; [now rewrite Hc|now rewrite Hcs]. }
  pose proof (sim_lookup_None A _ S c Hs Hc) as Hcs.
  destruct (begin_spec (sys_engine s) A Hr Hi Hlt) as (e' & Eb & Hr').
  exists (db_begin A). cbn [run_cmd si_step]. rewrite Hc, Hcs. unfold on_engine. rewrite Eb.
  cbn [fst snd sys_engine sys_txns]. split; [reflexivity|]. split; [exact Hr'|].
  split; [now apply db_inv_begin|]. split; [now apply sim_begin|].
  intros c' t' Hc' Hn. cbn in Hn. apply bool_decide_eq_false in Hn.
  rewrite lookup_insert_ne by exact Hn. split; [exact Hc'|now intros k v _].
Qed.

(** Opening a read-only transaction changes only the table of transactions. *)
Lemma step_open_ro cm c v act snap :
  sys_txns s !! c = None -> 0 <= v <= db_next A ->
  (forall w, w ∈ db_active A -> w < v -> w ∈ act) ->
  (forall k, reads A (mkTxn v true act) k (snap !! k)) ->
  (forall c', names cm c' = bool_decide (c = c')) ->
  run_cmd s cm = (Ok RUnit, mkSystem (sys_engine s) (<[c := mkTxn v true act]> (sys_txns s))) ->
  si_step S cm = (Ok RUnit, si_open c (mkTs v true snap ∅ ∅) S) ->
  step_ok A s S cm.
Proof.
  intros Hc Hv Hh Hsnap Hn E1 E2. exists A. rewrite E1, E2. cbn [fst snd sys_engine sys_txns].
  split; [reflexivity|]. split; [exact Hr|]. split; [exact Hi|]. split; [now apply sim_open_ro|].
  intros c' t' Hc' Hn'. rewrite Hn in Hn'. apply bool_decide_eq_false in Hn'.
  rewrite lookup_insert_ne by exact Hn'. split; [exact Hc'|apply same_view_refl].
Qed.

Lemma step_begin_read_only c : step_ok A s S (CBeginReadOnly c).
Proof.
  destruct (sys_txns s !! c) as [t|] eqn:Hc.
  { destruct (sim_lookup A _ S c t Hs Hc) as (ts & Hcs & _).
    apply (step_same A s S _ (Ok RIgnored)); auto; cbn; [now rewrite Hc|now rewrite Hcs]. }
  pose proof (sim_lookup_None A _ S c Hs Hc) as Hcs. pose proof (inv_next A Hi).
  apply (step_open_ro _ c (db_next A) (db_active A) (si_committed S)); auto; [lia|apply (sim_committed A _ S Hs)| |];
    cbn [run_cmd si_step].
  - rewrite Hc. unfold on_engine. now rewrite (begin_read_only_spec (sys_engine s) A).
  - now rewrite Hcs, (sim_next A _ S Hs).
Qed.

Lemma step_begin_as_of c v : is_u64 v -> step_ok A s S (CBeginAsOf c v).
Proof.
  intros Hu. destruct (sys_txns s !! c) as [t|] eqn:Hc.
  { destruct (sim_lookup A _ S c t Hs Hc) as (ts & Hcs & _).
    apply (step_same A s S _ (Ok RIgnored)); auto; cbn; [now rewrite Hc|now rewrite Hcs]. }
  pose proof (sim_lookup_None A _ S c Hs Hc) as Hcs. pose proof (inv_next A Hi).
  pose proof (begin_read_only_spec (sys_engine s) A (Some v) Hr Hi) as Eb. cbn beta iota in Eb.
  specialize (Eb ltac:(intros ? [= <-]; exact Hu)).
  destruct (Z.leb_spec (db_next A) v) as [Hle|Hlt].
  - apply (step_same A s S _ (Err (InvalidInput "version does not exist"))); auto; cbn [run_cmd si_step].
    + rewrite Hc. unfold on_engine. rewrite Eb. now destruct s.
    + rewrite Hcs, (sim_next A _ S Hs). destruct (Z.leb_spec (db_next A) v); [reflexivity|lia].
  - apply (step_open_ro _ c v (snapshot A v) (default ∅ (si_history S !! v))); auto.
    + unfold is_u64 in Hu. lia.
    + intros w Hw Hwv. apply (inv_active_snap A Hi); [exact Hw|lia].
    + intros k. now apply (sim_history A _ S Hs).
    + cbn [run_cmd]. rewrite Hc. unfold on_engine. now rewrite Eb.
    + cbn [si_step]. rewrite Hcs, (sim_next A _ S Hs). destruct (Z.leb_spec (db_next A) v); [lia|reflexivity].
Qed.

Lemma txn_u64 t ts : txn_sim A t ts -> is_u64 (version t).
Proof. intros Hts. pose proof (sim_range A t ts Hts). pose proof (inv_next A Hi). unfold is_u64. lia. Qed.

(** The commands on an open transaction. *)
Lemma step_open c (cm : cmd) :
  match cm with
  | CResume c' | CGet c' _ | CScan c' _ | CScanPrefix c' _ | CSet c' _ _ | CDelete c' _
  | CCommit c' | CRollback c' => c' = c
  | _ => False
  end ->
  (forall t ts, sys_txns s !! c = Some t -> si_txns S !! c = Some ts -> txn_sim A t ts -> step_ok A s S cm) ->
  step_ok A s S cm.
Proof.
  intros Hcm Hopen. destruct (sys_txns s !! c) as [t|] eqn:Hc.
  { destruct (sim_lookup A _ S c t Hs Hc) as (ts & Hcs & Hts). eauto. }
  pose proof (sim_lookup_None A _ S c Hs Hc) as Hcs.
  apply (step_same A s S _ (Ok RIgnored)); auto; destruct cm; try destruct Hcm; cbn; subst;
    rewrite ?Hc, ?Hcs; reflexivity.
Qed.

Lemma step_read cm :
  match cm with
  | CResume _ | CGet _ _ | CScanPrefix _ _ => True
  | CScan _ r => range_ok r = true
  | _ => False
  end -> step_ok A s S cm.
Proof.
  destruct cm as [| | |c|c k|c r|c p| | | | | |]; try (now intros []); intros Hok;
    (apply (step_open c); [reflexivity|]; intros t ts Hc Hcs Hts);
    pose proof (fun k => reads_data A t ts k Hi Hts) as Hdata; pose proof (txn_u64 t ts Hts) as Hu.
  - apply (step_same A s S _ (Ok RUnit)); auto; cbn [run_cmd si_step]; [|now rewrite Hcs].
    rewrite Hc. unfold on_engine. rewrite (resume_spec (sys_engine s) A) by assumption.
    destruct (read_only t) eqn:Hro; cbn [orb].
    + rewrite insert_id by exact Hc. now destruct s.
    + destruct (sim_rw A t ts Hts Hro) as (_ & Ha & _). rewrite bool_decide_true by exact Ha.
      rewrite insert_id by exact Hc. now destruct s.
  - apply (step_same A s S _ (Ok (RValue (ts_data ts !! k)))); auto; cbn [run_cmd si_step]; [|now rewrite Hcs].
    rewrite Hc. unfold on_engine. destruct (get_spec (sys_engine s) A t k Hr Hi Hu) as (r & -> & Hread).
    rewrite (reads_unique A t k r (ts_data ts !! k) Hread (Hdata k)). now destruct s.
  - apply (step_same A s S _ (Ok (RRows (rows_of r (ts_data ts))))); auto; cbn [run_cmd si_step]; [|now rewrite Hcs].
    rewrite Hc. unfold on_engine, st_read. rewrite scan_eq. cbn [outcome_bind]. cbv beta.
    rewrite (collect_rows (sys_engine s) A t r _ (ts_data ts) Hr Hi (scan_raw_range r Hok) Hdata
      : collect (mkScan t [] (Some (raw_start r.1, raw_end r.2))) (sys_engine s) = _). now destruct s.
  - apply (step_same A s S _ (Ok (RRows (rows_of (prefix_range p) (ts_data ts))))); auto;
      cbn [run_cmd si_step]; [|now rewrite Hcs].
    rewrite Hc. unfold on_engine, st_read. rewrite scan_prefix_eq. cbn [outcome_bind]. cbv beta.
    rewrite (collect_rows (sys_engine s) A t (prefix_range p) _ (ts_data ts) Hr Hi (scan_prefix_raw_range p) Hdata).
    now destruct s.
Qed.

(** Both endings of a read-only transaction only forget it. *)
Lemma step_close_ro cm c t :
  sys_txns s !! c = Some t -> read_only t = true ->
  (forall c', names cm c' = bool_decide (c = c')) ->
  run_cmd s cm = (Ok RUnit, mkSystem (sys_engine s) (delete c (sys_txns s))) ->
  si_step S cm = (Ok RUnit, si_close c S) ->
  step_ok A s S cm.
Proof.
  intros Hc Hro Hn E1 E2. exists A. rewrite E1, E2. cbn [fst snd sys_engine sys_txns].
  split; [reflexivity|]. split; [exact Hr|]. split; [exact Hi|]. split; [now apply (sim_close_ro _ _ _ _ t)|].
  intros c' t' Hc' Hn'. rewrite Hn in Hn'. apply bool_decide_eq_false in Hn'.
  rewrite lookup_delete_ne by exact Hn'. split; [exact Hc'|apply same_view_refl].
Qed.

Lemma step_commit c : step_ok A s S (CCommit c).
Proof.
  apply (step_open c); [reflexivity|]. intros t ts Hc Hcs Hts.
  destruct (read_only t) eqn:Hro.
  { apply (step_close_ro _ c t); auto; cbn [run_cmd si_step].
    - rewrite Hc. unfold on_engine, commit. now rewrite Hro.
    - now rewrite Hcs, (sim_read_only A t ts Hts), Hro. }
  destruct (commit_spec (sys_engine s) A t Hr (txn_u64 t ts Hts) Hro) as (e' & Ec & Hr').
  exists (db_commit (version t) A). cbn [run_cmd si_step]. rewrite Hc, Hcs. unfold on_engine.
  rewrite Ec, (sim_read_only A t ts Hts), Hro. cbn [fst snd sys_engine sys_txns].
  split; [reflexivity|]. split; [exact Hr'|]. split; [now apply db_inv_commit|]. split; [now apply sim_commit|].
  intros c' t' Hc' Hn. cbn in Hn. apply bool_decide_eq_false in Hn.
  rewrite lookup_delete_ne by exact Hn. split; [exact Hc'|now intros k v _].
Qed.

Lemma step_rollback c : step_ok A s S (CRollback c).
Proof.
  apply (step_open c); [reflexivity|]. intros t ts Hc Hcs Hts.
  destruct (read_only t) eqn:Hro.
  { apply (step_close_ro _ c t); auto; cbn [run_cmd si_step].
    - rewrite Hc. unfold on_engine, rollback. now rewrite Hro.
    - now rewrite Hcs. }
  destruct (sim_others _ _ _ _ _ Hs Hc Hro) as [Ha Hoth].
  destruct (rollback_spec (sys_engine s) A t Hr Hi Ha Hro) as (e' & Ec & Hr').
  exists (db_rollback (version t) A). cbn [run_cmd si_step]. rewrite Hc, Hcs. unfold on_engine.
  rewrite Ec. cbn [fst snd sys_engine sys_txns].
  split; [reflexivity|]. split; [exact Hr'|]. split; [now apply db_inv_rollback|]. split; [now apply sim_rollback|].
  intros c' t' Hc' Hn. cbn in Hn. apply bool_decide_eq_false in Hn.
  rewrite lookup_delete_ne by exact Hn. split; [exact Hc'|]. apply same_view_rollback.
  destruct (sim_lookup A _ S c' t' Hs Hc') as (ts' & _ & Hts').
  apply (hidden_txn A t' ts'); [exact Hts'|exact Ha|]. intros Hro'. apply (Hoth c' t'); auto.
Qed.

Lemma step_unversioned cm :
  match cm with CGetUnversioned _ | CSetUnversioned _ _ => True | _ => False end -> step_ok A s S cm.
Proof.
  destruct cm as [| | | | | | | | | | |k|k v]; try (now intros []); intros _.
  - apply (step_same A s S _ (Ok (RValue (si_unver S !! k)))); auto. cbn [run_cmd]. unfold on_engine, get_unversioned.
    rewrite (get_key_spec (sys_engine s) A) by (auto; exact I). cbn [db_lookup].
    rewrite (sim_unver A _ S Hs). now destruct s.
  - destruct (set_key_spec (sys_engine s) A (db_set_unversioned k v A) (Unversioned k) v Hr I) as (e' & Es & Hr').
    { intros K' _. destruct K' as [| | | | |k']; try reflexivity. cbn.
      destruct (decide (k' = k)) as [->|Hne].
      - rewrite decide_True by reflexivity. now rewrite lookup_insert_eq.
      - rewrite decide_False by congruence. now rewrite lookup_insert_ne. }
    exists (db_set_unversioned k v A). cbn [run_cmd si_step]. unfold on_engine, set_unversioned. rewrite Es.
    cbn [fst snd sys_engine sys_txns]. split; [reflexivity|]. split; [exact Hr'|]. split; [now destruct Hi|].
    split; [|intros c t Hc _; split; [exact Hc|now intros ? ? _]].
    destruct Hs as [P1 P2 P3 P4 P5 P6 P7]. split; auto.
    + cbn. now rewrite P2.
    + intros c. specialize (P5 c). cbn. inv P5; constructor. now apply txn_sim_unver.
Qed.

Lemma step_cmd cm : cmd_ok cm -> db_next A < u64_max -> step_ok A s S cm.
Proof.
  intros Hok Hlt.
  destruct cm as [c|c|c v|c|c k|c r|c p|c k v|c k|c|c|k|k v];
    try (apply step_read; exact Hok || exact I).
  - now apply step_begin.
  - apply step_begin_read_only.
  - now apply step_begin_as_of.
  - apply (step_open c); [reflexivity|]. intros t ts Hc Hcs Hts.
    apply (step_write A s S c t ts k (Some v)); auto; cbn [run_cmd si_step names];
      [now rewrite Hc|now rewrite Hcs|now apply bool_decide_true|]. intros c' E'. now apply bool_decide_eq_true in E'.
  - apply (step_open c); [reflexivity|]. intros t ts Hc Hcs Hts.
    apply (step_write A s S c t ts k None); auto; cbn [run_cmd si_step names];
      [now rewrite Hc|now rewrite Hcs|now apply bool_decide_true|]. intros c' E'. now apply bool_decide_eq_true in E'.
  - apply step_commit.
  - apply step_rollback.
  - now apply step_unversioned.
  - now apply step_unversioned.
Qed.
End Steps.

End System.
