(* ===== verification/MvccClaims.v ===== *)
(** * Isolation properties of the MVCC engine

    For every storage engine that implements [EngineReads] and [EngineWrites], every value codec
    and every sequence of client commands on an empty engine. *)
From S2P Require Import Prelude Bytes Keycode KeycodeTheory Btree Engine Memory Bincode Mvcc MvccKeys.
From S2P Require Import MvccAbs MvccScan MvccSpec.

(** ** The specification *)
Lemma si_next_step S cm : si_next (si_step S cm).2 <= si_next S + 1.
Proof.
  destruct cm; cbn; repeat case_match; cbn; unfold si_write; repeat case_match; cbn; lia.
Qed.

Lemma ts_data_eq ts d : ts_data (mkTs (ts_version ts) (ts_read_only ts) (ts_snapshot ts) (ts_writes ts) d) = ts_data ts.
Proof. reflexivity. Qed.

(** Other clients' commands do not change what a transaction reads. *)
Lemma si_step_other S cm c ts :
  si_txns S !! c = Some ts -> names cm c = false ->
  exists ts', si_txns (si_step S cm).2 !! c = Some ts' /\ ts_data ts' = ts_data ts /\
              ts_version ts' = ts_version ts /\ ts_read_only ts' = ts_read_only ts.
Proof.
  intros Hc Hn.
  assert (forall c' x (m : gmap nat txn_spec), bool_decide (c' = c) = false -> m !! c = Some ts ->
            <[c' := x]> m !! c = Some ts) as Hins.
  { intros c' x m Hne Hm. apply bool_decide_eq_false in Hne. now rewrite lookup_insert_ne. }
  destruct cm; cbn in Hn |- *; repeat case_match; cbn; unfold si_write; repeat case_match; cbn; eauto 6.
  - apply bool_decide_eq_false in Hn. rewrite lookup_delete_ne by exact Hn. eauto.
  - apply bool_decide_eq_false in Hn. rewrite lookup_fmap, lookup_delete_ne, Hc by exact Hn. cbn. eauto.
  - apply bool_decide_eq_false in Hn. rewrite lookup_delete_ne by exact Hn. eauto.
Qed.

Lemma si_run_other S cms c ts :
  si_txns S !! c = Some ts -> Forall (fun cm => names cm c = false) cms ->
  exists ts', si_txns (si_run S cms).2 !! c = Some ts' /\ ts_data ts' = ts_data ts /\
              ts_version ts' = ts_version ts /\ ts_read_only ts' = ts_read_only ts.
Proof.
  revert S ts; induction cms as [|cm cms IH]; intros S ts Hc Hn; [cbn; eauto|].
  apply Forall_cons in Hn as [Hn Hns]. cbn [si_run].
  destruct (si_step_other S cm c ts Hc Hn) as (ts1 & Hc1 & D1 & V1 & R1).
  destruct (si_step S cm) as [r S1]. cbn in Hc1. destruct (IH S1 ts1 Hc1 Hns) as (ts2 & Hc2 & D2 & V2 & R2).
  destruct (si_run S1 cms) as [rs S2]. cbn in *. exists ts2. split; [exact Hc2|]. repeat split; congruence.
Qed.

(** History is never rewritten. *)
Lemma si_history_step S cm v h :
  si_history S !! v = Some h -> v < si_next S ->
  si_history (si_step S cm).2 !! v = Some h.
Proof.
  intros Hv Hlt. destruct cm; cbn; repeat case_match; cbn; unfold si_write; repeat case_match; cbn; auto.
  rewrite lookup_insert_ne by lia. exact Hv.
Qed.

Lemma si_next_mono S cm : si_next S <= si_next (si_step S cm).2.
Proof.
  destruct cm; cbn; repeat case_match; cbn; unfold si_write; repeat case_match; cbn; lia.
Qed.

Lemma si_history_run S cms v h :
  si_history S !! v = Some h -> v < si_next S -> si_history (si_run S cms).2 !! v = Some h /\ v < si_next (si_run S cms).2.
Proof.
  revert S; induction cms as [|cm cms IH]; intros S Hv Hlt; [cbn; auto|]. cbn [si_run].
  pose proof (si_history_step S cm v h Hv Hlt) as H1. pose proof (si_next_mono S cm) as H2.
  destruct (si_step S cm) as [r S1]. cbn in H1, H2. specialize (IH S1 H1 ltac:(lia)).
  now destruct (si_run S1 cms).
Qed.

(** No open read-write transaction has version [v]: stable for past versions. *)
Definition no_rw (v : Z) (S : si_state) : Prop :=
  forall c ts, si_txns S !! c = Some ts -> ts_read_only ts = false -> ts_version ts <> v.

Lemma no_rw_step S cm v : v < si_next S -> no_rw v S -> no_rw v (si_step S cm).2.
Proof.
  intros Hv Hno.
  assert (forall c ts S', no_rw v S' -> (ts_read_only ts = false -> ts_version ts <> v) -> no_rw v (si_open c ts S')) as Hopen.
  { intros c ts S' H1 H2 c' ts' F. cbn in F. apply lookup_insert_Some in F as [[-> <-]|[_ F]]; eauto. }
  assert (forall c, no_rw v (si_close c S)) as Hclose.
  { intros c c' ts' F. cbn in F. apply lookup_delete_Some in F as [_ F]; eauto. }
  assert (forall c ts k o, si_txns S !! c = Some ts -> no_rw v (si_write S c ts k o).2) as Hwrite.
  { intros c ts k o Hc. unfold si_write. destruct (ts_read_only ts) eqn:R; [exact Hno|].
    destruct (_ || _)%bool; [exact Hno|]. apply Hopen; [exact Hno|]. intros _. exact (Hno c ts Hc R). }
  destruct cm as [c|c|c w|c|c k|c r|c p|c k x|c k|c|c|k|k x]; cbn;
    try destruct (si_txns S !! c) as [ts|] eqn:Hc; cbn; auto.
  - apply Hopen; [exact Hno|]. cbn. lia.
  - destruct (_ <=? _); [exact Hno|]. apply Hopen; [exact Hno|discriminate].
  - destruct (ts_read_only ts); [apply Hclose|]. intros c' ts' F.
    cbn in F. rewrite lookup_fmap in F. apply fmap_Some in F as (ts0 & F & ->).
    apply lookup_delete_Some in F as [_ F]. exact (Hno c' ts0 F).
Qed.

Lemma no_rw_run S cms v : v < si_next S -> no_rw v S -> no_rw v (si_run S cms).2.
Proof.
  revert S; induction cms as [|cm cms IH]; intros S Hv Hno; [exact Hno|]. cbn [si_run].
  pose proof (no_rw_step S cm v Hv Hno) as H1. pose proof (si_next_mono S cm) as H2.
  destruct (si_step S cm) as [r S1]. cbn in H1, H2. specialize (IH S1 ltac:(lia) H1). now destruct (si_run S1 cms).
Qed.

Section Claims.
Context {E : Type} `{EngineReads E} {EW : EngineWrites E}.
Context {BV : Bincode is_u64} {BS : Bincode all_u64} {BO : Bincode (@any (option bytes))}.
Context (test : bool).

#[local] Abbreviation run := (run_cmds test).
#[local] Abbreviation run1 := (run_cmd test).

Definition ready (e0 : E) : Prop := engine_inv e0 /\ engine_abs e0 = ∅.
Definition init (e0 : E) : system := mkSystem e0 ∅.
(** Arguments in range, and fewer commands than there are versions. *)
Definition cmds_ok (cms : list cmd) : Prop :=
  Forall cmd_ok cms /\ Z.of_nat (length cms) < u64_max.

(** The state after commands, related to the specification's. *)
Definition linked (A : mvcc_db) (s : system) (S : si_state) : Prop :=
  db_rep (sys_engine s) A /\ db_inv A /\ sim A (sys_txns s) S.

Lemma linked_init e0 : ready e0 -> linked db_empty (init e0) si_empty.
Proof.
  intros [Hi Ha]. split; [split; [exact Hi|]; cbn; rewrite Ha; apply rep_empty|]. split; [apply db_inv_empty|].
  split; cbn; auto.
  - intros k. right. rewrite lookup_empty. split; [reflexivity|]. intros v _ [x F]. cbn in F. now rewrite lookup_empty in F.
  - intros v k Hv. right. rewrite !lookup_empty. split; [reflexivity|]. intros w _ [x F]. cbn in F. now rewrite lookup_empty in F.
  - intros c. rewrite !lookup_empty. constructor.
  - intros v. split; [intros F; now apply not_elem_of_empty in F|]. intros (c & t & F & _). now rewrite lookup_empty in F.
  - intros c c' t t' F. now rewrite lookup_empty in F.
Qed.

Lemma run_linked cms A s S :
  linked A s S -> Forall cmd_ok cms -> si_next S + Z.of_nat (length cms) <= u64_max ->
  exists A', (run s cms).1 = (si_run S cms).1 /\ linked A' (run s cms).2 (si_run S cms).2 /\
    si_next (si_run S cms).2 <= si_next S + Z.of_nat (length cms) /\
    forall c t, sys_txns s !! c = Some t -> Forall (fun cm => names cm c = false) cms ->
      sys_txns (run s cms).2 !! c = Some t /\ same_view t A A'.
Proof.
  revert A s S; induction cms as [|cm cms IH]; intros A s S Hl Hok Hlen.
  { exists A. cbn. split; [reflexivity|]. split; [exact Hl|]. split; [lia|]. intros c t Hc _.
    split; [exact Hc|apply same_view_refl]. }
  apply Forall_cons in Hok as [Hcm Hok]. cbn [length] in Hlen. destruct Hl as (Hr & Hi & Hs).
  assert (db_next A < u64_max) as Hlt by (rewrite <- (sim_next A _ S Hs); lia).
  destruct (step_cmd test A s S Hr Hi Hs cm Hcm Hlt) as (A1 & E1 & Hr1 & Hi1 & Hs1 & Hv1).
  pose proof (si_next_step S cm) as Hn1. cbn [run_cmds si_run].
  destruct (run1 s cm) as [r s1]. destruct (si_step S cm) as [r' S1]. cbn [fst snd] in *. subst r'.
  destruct (IH A1 s1 S1 (conj Hr1 (conj Hi1 Hs1)) Hok ltac:(lia)) as (A2 & E2 & Hl2 & Hn2 & Hv2).
  destruct (run s1 cms) as [rs s2]. destruct (si_run S1 cms) as [rs' S2]. cbn [fst snd] in *. subst rs'.
  exists A2. split; [reflexivity|]. split; [exact Hl2|]. split; [cbn [length]; lia|].
  intros c t Hc [Hn Hns]%Forall_cons. destruct (Hv1 c t Hc Hn) as [Hc1 V1]. destruct (Hv2 c t Hc1 Hns) as [Hc2 V2].
  split; [exact Hc2|]. intros k v Hv. now rewrite V1, V2.
Qed.

Lemma run_app s cms1 cms2 :
  run s (cms1 ++ cms2) = ((run s cms1).1 ++ (run (run s cms1).2 cms2).1, (run (run s cms1).2 cms2).2).
Proof.
  revert s; induction cms1 as [|cm cms1 IH]; intros s; cbn [app run_cmds].
  { cbn. now destruct (run s cms2). }
  destruct (run1 s cm) as [r s1]. rewrite IH. now destruct (run s1 cms1).
Qed.

Lemma si_run_app S cms1 cms2 :
  si_run S (cms1 ++ cms2) =
  ((si_run S cms1).1 ++ (si_run (si_run S cms1).2 cms2).1, (si_run (si_run S cms1).2 cms2).2).
Proof.
  revert S; induction cms1 as [|cm cms1 IH]; intros S; cbn [app si_run].
  { cbn. now destruct (si_run S cms2). }
  destruct (si_step S cm) as [r S1]. rewrite IH. now destruct (si_run S1 cms1).
Qed.

(** C1: MVCC implements snapshot isolation.  Any sequence of client commands
    (begin, time-travel begin, get, scan, prefix scan, set, delete, commit,
    rollback, resume, unversioned access) by any number of interleaved
    transactions, run on the MVCC code over an empty storage engine, gives
    exactly the responses of the version-free specification [si_step]. *)
Theorem mvcc_snapshot_isolation (e0 : E) (cms : list cmd) :
  ready e0 -> cmds_ok cms -> (run (init e0) cms).1 = (si_run si_empty cms).1.
Proof.
  intros He [Hok Hlen]. destruct (run_linked cms db_empty (init e0) si_empty) as (A & E1 & _);
    [now apply linked_init|exact Hok|cbn; lia|exact E1].
Qed.

(** The response to one more command. *)
Lemma run_then e0 cms cm :
  ready e0 -> cmds_ok (cms ++ [cm]) ->
  exists A S, S = (si_run si_empty cms).2 /\ linked A (run (init e0) cms).2 S /\
    (run1 (run (init e0) cms).2 cm).1 = (si_step S cm).1.
Proof.
  intros He [Hok Hlen]. rewrite length_app in Hlen. cbn in Hlen. apply Forall_app in Hok as [Hok Hcm].
  apply Forall_inv in Hcm.
  destruct (run_linked cms db_empty (init e0) si_empty (linked_init e0 He) Hok) as (A & _ & Hl & Hn & _); [cbn; lia|].
  exists A, (si_run si_empty cms).2. split; [reflexivity|]. split; [exact Hl|]. destruct Hl as (Hr & Hi & Hs).
  assert (db_next A < u64_max) as Hlt by (rewrite <- (sim_next A _ _ Hs); cbn in *; lia).
  now destruct (step_cmd test A _ _ Hr Hi Hs cm Hcm Hlt) as (A1 & E1 & _).
Qed.

(** The commands by which a client reads. *)
Definition is_read (c : nat) (cm : cmd) : Prop :=
  match cm with
  | CGet c' _ | CScan c' _ | CScanPrefix c' _ => c' = c
  | _ => False
  end.

Lemma si_read_data S1 S2 c cm ts1 ts2 :
  is_read c cm -> si_txns S1 !! c = Some ts1 -> si_txns S2 !! c = Some ts2 -> ts_data ts1 = ts_data ts2 ->
  (si_step S1 cm).1 = (si_step S2 cm).1.
Proof.
  destruct cm; cbn; try tauto; intros -> H1 H2 Hd; rewrite H1, H2; cbn; now rewrite Hd.
Qed.

(** Repeatable reads.  Whatever other clients do in between (write, commit,
    roll back, begin), a transaction's get, scan or prefix scan returns what
    the same read returned before. *)
Theorem mvcc_repeatable_reads (e0 : E) (cms1 cms2 : list cmd) (c : nat) (t : TransactionState) (cm : cmd) :
  ready e0 -> cmds_ok (cms1 ++ cms2 ++ [cm]) -> is_read c cm ->
  sys_txns (run (init e0) cms1).2 !! c = Some t ->
  Forall (fun cm => names cm c = false) cms2 ->
  (run1 (run (init e0) (cms1 ++ cms2)).2 cm).1 = (run1 (run (init e0) cms1).2 cm).1.
Proof.
  intros He Hok Hread Hc Hn.
  assert (cmds_ok (cms1 ++ [cm])) as Hok1.
  { destruct Hok as [F L]. rewrite !Forall_app in F. rewrite !length_app in L. cbn in L.
    split; [apply Forall_app; tauto|]. rewrite length_app. cbn. lia. }
  rewrite app_assoc in Hok.
  destruct (run_then e0 cms1 cm He Hok1) as (A1 & S1 & ES1 & Hl1 & E1).
  destruct (run_then e0 (cms1 ++ cms2) cm He Hok) as (A2 & S2 & ES2 & Hl2 & E2).
  rewrite E1, E2. destruct Hl1 as (_ & _ & Hs1).
  destruct (sim_lookup A1 _ S1 c t Hs1 Hc) as (ts & Hts & _).
  destruct (si_run_other S1 cms2 c ts Hts Hn) as (ts' & Hts' & Hd & _).
  rewrite si_run_app in ES2. cbn [snd] in ES2. rewrite <- ES1 in ES2. subst S2.
  eapply si_read_data; eauto.
Qed.

(** C27: a scan iterator is stable under concurrency.  A client drains a scan
    while other clients run arbitrary commands between any two calls of
    [next] ([batches i] before the [i]-th): it gets exactly the rows the scan
    would have returned at once, for either buffer size, and terminates. *)
Theorem mvcc_scan_stable (e0 : E) (cms : list cmd) (batches : nat -> list cmd) (c : nat)
    (t : TransactionState) (r : key_range) (fuel : nat) :
  let after i := concat (map batches (seq 0 i)) in
  ready e0 -> (forall i, cmds_ok (cms ++ after i)) -> range_ok r = true ->
  sys_txns (run (init e0) cms).2 !! c = Some t ->
  (forall i, Forall (fun cm => names cm c = false) (batches i)) ->
  exists it rows,
    scan t r = Ok it /\ collect test it (sys_engine (run (init e0) cms).2) = Ok rows /\
    ((length rows < fuel)%nat ->
     drain test fuel (fun i => sys_engine (run (init e0) (cms ++ after i)).2) it = Ok rows).
Proof.
  intros after He Hok Hr Hc Hn.
  assert (cmds_ok cms) as Hok0 by (specialize (Hok 0%nat); cbn in Hok; now rewrite app_nil_r in Hok).
  destruct Hok0 as [Hok0 Hlen0].
  destruct (run_linked cms db_empty (init e0) si_empty (linked_init e0 He) Hok0) as (A & _ & Hl & Hnext & _); [cbn; lia|].
  pose proof Hl as (Hrep & Hi & Hs). destruct (sim_lookup A _ _ c t Hs Hc) as (ts & Hts & Hsim).
  pose proof (fun k => reads_data A t ts k Hi Hsim) as Hdata.
  exists (mkScan t [] (Some (raw_start r.1, raw_end r.2))), (rows_of r (ts_data ts)).
  split; [apply scan_eq|]. split; [exact (collect_rows test _ A t r _ _ Hrep Hi (scan_raw_range r Hr) Hdata)|].
  intros Hf. apply (drain_rows test A); auto; [now apply scan_raw_range|]. intros i.
  specialize (Hok i) as [Hoki Hleni]. apply Forall_app in Hoki as [_ Hoki]. rewrite length_app in Hleni.
  destruct (run_linked (after i) A _ _ Hl Hoki) as (Ai & _ & (Hri & Hii & _) & _ & Hvi); [cbn in *; lia|].
  exists Ai. rewrite run_app. split; [exact Hri|]. split; [exact Hii|]. apply (Hvi c t Hc).
  unfold after. apply Forall_concat, Forall_map, Forall_true. intros j. exact (Hn j).
Qed.

(** Time travel.  A time-travel transaction at version [v], opened at any
    later time and whatever has been committed or rolled back since, reads what
    the read-write transaction with version [v] read when it began. *)
Theorem mvcc_time_travel (e0 : E) (cms1 cms2 : list cmd) (c c' : nat) (t : TransactionState) (k : bytes) :
  let s1 := (run (init e0) (cms1 ++ [CBegin c])).2 in
  let s2 := (run (init e0) ((cms1 ++ [CBegin c]) ++ cms2)).2 in
  ready e0 -> cmds_ok ((cms1 ++ [CBegin c]) ++ cms2 ++ [CBeginAsOf c' (version t); CGet c' k]) ->
  sys_txns (run (init e0) cms1).2 !! c = None ->
  sys_txns s1 !! c = Some t -> sys_txns s2 !! c' = None ->
  (run s2 [CBeginAsOf c' (version t); CGet c' k]).1 =
    [Ok RUnit; (run1 s1 (CGet c k)).1].
Proof.
  intros s1 s2 He [Hok Hlen] Hc0 Hc1 Hc2.
  rewrite !Forall_app in Hok. destruct Hok as ((Hok1 & Hokb) & Hok2 & Hok3). rewrite !length_app in Hlen. cbn in Hlen.
  destruct (run_linked cms1 db_empty (init e0) si_empty (linked_init e0 He) Hok1) as (A0 & _ & Hl0 & Hn0 & _); [cbn; lia|].
  set (S0 := (si_run si_empty cms1).2) in *. set (s0 := (run (init e0) cms1).2) in *.
  destruct (run_linked [CBegin c; CGet c k] A0 s0 S0 Hl0 ltac:(repeat constructor)) as (Ag & Eg & _); [cbn in *; lia|].
  destruct (run_linked [CBegin c] A0 s0 S0 Hl0 ltac:(repeat constructor)) as (A1 & _ & Hl1 & Hn1 & _); [cbn in *; lia|].
  pose proof Hl0 as (_ & _ & Hs0). pose proof (sim_lookup_None A0 _ S0 c Hs0 Hc0) as HcS.
  set (S1 := (si_run S0 [CBegin c]).2) in *.
  assert (s1 = (run s0 [CBegin c]).2) as Es1 by (unfold s1; now rewrite run_app).
  assert (S1 = si_open c (mkTs (si_next S0) false (si_committed S0) ∅ ∅)
     (mkSi (si_next S0 + 1) (si_committed S0) (<[si_next S0 := si_committed S0]> (si_history S0))
        (si_txns S0) (si_unver S0))) as ES1 by (unfold S1; cbn; now rewrite HcS).
  rewrite <- Es1 in Hl1. pose proof Hl1 as (Hr1 & Hi1 & Hs1).
  destruct (sim_lookup A1 _ S1 c t Hs1 Hc1) as (ts & Hts & Hsim). rewrite ES1 in Hts. cbn in Hts.
  rewrite lookup_insert_eq in Hts. injection Hts as <-. pose proof (sim_version _ _ _ Hsim) as Hver. cbn in Hver.
  destruct (si_history_run S1 cms2 (version t) (si_committed S0)) as [Hh Hlt].
  { rewrite ES1. cbn. now rewrite <- Hver, lookup_insert_eq. }
  { rewrite ES1. cbn. lia. }
  destruct (run_linked cms2 A1 s1 S1 Hl1 Hok2) as (A2 & _ & Hl2 & Hn2 & _); [cbn in *; lia|].
  assert (s2 = (run s1 cms2).2) as Es2 by (unfold s2; rewrite run_app; reflexivity). rewrite <- Es2 in Hl2.
  set (S2 := (si_run S1 cms2).2) in *.
  destruct (run_linked [CBeginAsOf c' (version t); CGet c' k] A2 s2 S2 Hl2 Hok3) as (A3 & E3 & _); [cbn in *; lia|].
  rewrite E3. destruct (step_cmd test A1 s1 S1 Hr1 Hi1 Hs1 (CGet c k) I) as (A4 & E4 & _).
  { rewrite <- (sim_next A1 _ S1 Hs1). cbn in *. lia. }
  rewrite E4. pose proof Hl2 as (_ & _ & Hs2). pose proof (sim_lookup_None A2 _ S2 c' Hs2 Hc2) as Hc2S.
  cbn [si_run si_step]. rewrite Hc2S. destruct (Z.leb_spec (si_next S2) (version t)); [lia|].
  rewrite Hh, ES1. cbn. rewrite !lookup_insert_eq. cbn. reflexivity.
Qed.

(** The only errors a client sees are write conflicts, writes in read-only
    transactions and time travel to a version that does not exist; all of them
    are deterministic, so that Raft replicas report the same ones. *)
Theorem mvcc_errors (e0 : E) (cms : list cmd) :
  ready e0 -> cmds_ok cms ->
  Forall (fun r => match r with
                   | Ok _ => True
                   | Err e => is_deterministic e = true /\
                       (e = ReadOnly \/ e = Serialization \/ e = InvalidInput "version does not exist")
                   | Panic _ => False
                   end) (run (init e0) cms).1.
Proof.
  intros He [Hok Hlen]. destruct (run_linked cms db_empty (init e0) si_empty) as (A & -> & _);
    [now apply linked_init|exact Hok|cbn; lia|].
  generalize si_empty as S. clear. induction cms as [|cm cms IH]; intros S; [constructor|]. cbn [si_run].
  assert (match (si_step S cm).1 with
          | Ok _ => True
          | Err e => is_deterministic e = true /\
              (e = ReadOnly \/ e = Serialization \/ e = InvalidInput "version does not exist")
          | Panic _ => False
          end) as Hr.
  { destruct cm; cbn; try destruct (si_txns S !! c) as [ts|]; cbn; unfold si_write;
      try destruct (ts_read_only ts); try destruct (_ || _)%bool; try destruct (_ <=? _); cbn; auto 6. }
  destruct (si_step S cm) as [r S1]. specialize (IH S1). destruct (si_run S1 cms). now constructor.
Qed.

(** No lost updates.  If two transactions are open and the first has
    written a key, a write of the key by the second is refused, also after the
    first has committed. *)
Theorem mvcc_no_lost_update (e0 : E) (cms : list cmd) (c c' : nat) (t t' : TransactionState)
    (k : bytes) (v v' : bytes) (commits : bool) :
  let cms' := CSet c k v :: (if commits then [CCommit c] else []) in
  ready e0 -> cmds_ok (cms ++ cms' ++ [CSet c' k v']) -> c <> c' ->
  sys_txns (run (init e0) cms).2 !! c = Some t -> sys_txns (run (init e0) cms).2 !! c' = Some t' ->
  read_only t' = false ->
  (run1 (run (init e0) cms).2 (CSet c k v)).1 = Ok RUnit ->
  (run1 (run (init e0) (cms ++ cms')).2 (CSet c' k v')).1 = Err Serialization.
Proof.
  intros cms' He Hok Hne Hc Hc' Hro Hset. rewrite app_assoc in Hok.
  destruct (run_then e0 (cms ++ cms') (CSet c' k v') He Hok) as (A2 & S2 & ES2 & _ & ->).
  destruct Hok as [Hok Hlen]. rewrite !Forall_app in Hok. rewrite !length_app in Hlen. cbn in Hlen.
  destruct (run_linked cms db_empty (init e0) si_empty (linked_init e0 He) (proj1 (proj1 Hok)))
    as (A & _ & (Hr & Hi & Hs) & Hn & _); [cbn; lia|].
  rewrite si_run_app in ES2. cbn [snd] in ES2. set (S := (si_run si_empty cms).2) in *.
  destruct (sim_lookup A _ S c t Hs Hc) as (ts & Hts & Hsim).
  destruct (sim_lookup A _ S c' t' Hs Hc') as (ts' & Hts' & Hsim').
  assert (db_next A < u64_max) as Hlt by (rewrite <- (sim_next A _ _ Hs); cbn in *; lia).
  destruct (step_cmd test A _ S Hr Hi Hs (CSet c k v) I Hlt) as (A1 & E1 & _). rewrite Hset in E1.
  pose proof (sim_read_only A t' ts' Hsim') as Hro'. rewrite Hro in Hro'.
  unfold cms' in ES2. cbn [si_run si_step] in E1, ES2. rewrite Hts in E1, ES2. unfold si_write in E1, ES2.
  destruct (ts_read_only ts) eqn:Rts; [discriminate|].
  destruct (bool_decide (k ∈ ts_dirty ts) || written_by_other S c k)%bool; [discriminate|].
  destruct commits; cbn in ES2.
  - rewrite lookup_insert_eq in ES2. cbn in ES2. subst S2. cbn.
    rewrite lookup_fmap, lookup_delete_ne, lookup_insert_ne, Hts' by assumption. cbn. unfold si_write. cbn.
    rewrite Hro', bool_decide_true; [reflexivity|]. rewrite dom_insert. set_solver.
  - subst S2. cbn. rewrite lookup_insert_ne, Hts' by assumption. unfold si_write. rewrite Hro'.
    rewrite (proj2 (written_by_other_spec _ c' k)); [now rewrite orb_true_r|].
    exists c, (mkTs (ts_version ts) false (ts_snapshot ts) (<[k := Some v]> (ts_writes ts)) (ts_dirty ts)).
    cbn. rewrite !lookup_insert_eq. eauto.
Qed.

(** A transaction that has committed or rolled back cannot be resumed. *)
Theorem mvcc_resume_finished (e0 : E) (cms cms2 : list cmd) (c : nat) (t : TransactionState) (commits : bool) :
  let cms' := cms ++ [if commits then CCommit c else CRollback c] ++ cms2 in
  ready e0 -> cmds_ok cms' ->
  sys_txns (run (init e0) cms).2 !! c = Some t -> read_only t = false ->
  (resume t (sys_engine (run (init e0) cms').2)).1 = Err (InvalidInput "no active transaction at version").
Proof.
  intros cms' He [Hok Hlen] Hc Hro. unfold cms' in *. rewrite !Forall_app in Hok. rewrite !length_app in Hlen. cbn in Hlen.
  destruct Hok as (Hok1 & Hok2 & Hok3).
  destruct (run_linked cms db_empty (init e0) si_empty (linked_init e0 He) Hok1) as (A & _ & Hl & Hn & _); [cbn; lia|].
  destruct (run_linked _ A _ _ Hl Hok2) as (A1 & _ & Hl1 & Hn1 & _); [cbn in *; lia|].
  destruct (run_linked cms2 A1 _ _ Hl1 Hok3) as (A2 & _ & Hl2 & Hn2 & _); [cbn in *; lia|].
  pose proof Hl as (Hr & Hi & Hs). destruct (sim_lookup A _ _ c t Hs Hc) as (ts & Hts & Hsim).
  pose proof (sim_rw A t ts Hsim Hro) as (_ & Ha & _). pose proof (inv_active A Hi _ Ha) as Hv. pose proof (inv_next A Hi).
  set (cm := if commits then CCommit c else CRollback c) in *. set (S0 := (si_run si_empty cms).2) in *.
  assert (no_rw (version t) (si_run S0 [cm]).2) as Hno.
  { assert (forall c' ts', c' <> c -> si_txns S0 !! c' = Some ts' -> ts_read_only ts' = false -> ts_version ts' <> version t) as Hoth.
    { intros c' ts' Hne F R. pose proof (sim_txns A _ S0 Hs c') as G. rewrite F in G. inv G.
      destruct (sim_others _ _ _ _ _ Hs Hc Hro) as [_ Hd].
      rewrite (sim_version _ _ _ H4). rewrite (sim_read_only _ _ _ H4) in R. eauto. }
    intros c' ts' F R. unfold cm in F. destruct commits; cbn in F; rewrite Hts in F; cbn in F.
    - rewrite (sim_read_only _ _ _ Hsim), Hro in F. cbn in F. rewrite lookup_fmap in F.
      apply fmap_Some in F as (ts0 & F & ->). apply lookup_delete_Some in F as [Hne F]. cbn in R |- *. eapply Hoth; eauto.
    - apply lookup_delete_Some in F as [Hne F]. eapply Hoth; eauto. }
  assert (si_next (si_run S0 [cm]).2 = si_next S0) as Hnx.
  { unfold cm. destruct commits; cbn; rewrite Hts; cbn; [destruct (ts_read_only ts)|]; reflexivity. }
  pose proof (no_rw_run _ cms2 (version t) ltac:(rewrite Hnx, (sim_next A _ S0 Hs); lia) Hno) as Hno2.
  destruct Hl2 as (Hr2 & Hi2 & Hs2). rewrite !run_app. cbn [snd].
  rewrite (resume_spec _ A2 t Hr2) by (unfold is_u64; lia). rewrite Hro. cbn [orb fst].
  rewrite bool_decide_false; [reflexivity|]. intros F. apply (sim_active A2 _ _ Hs2) in F as (c' & t' & F1 & F2 & F3).
  destruct (sim_lookup A2 _ _ c' t' Hs2 F1) as (ts' & F4 & F5).
  apply (Hno2 c' ts' F4); [now rewrite (sim_read_only _ _ _ F5)|now rewrite (sim_version _ _ _ F5)].
Qed.

Lemma scan_active_length e A l :
  db_rep e A -> db_inv A -> scan_key_prefix PrefixTxnActive e = (Ok l, e) ->
  length l = size (db_active A).
Proof.
  intros Hr Hi El. destruct (scan_prefix_rep e A PrefixTxnActive Hr) as (kl & El' & Hsort & Hin).
  rewrite El in El'. inv El'. rewrite length_map.
  assert (forall K x, In (K, x) kl -> exists v, K = TxnActive v) as Hk.
  { intros K x F. apply Hin in F as (_ & _ & F). now apply is_prefix_TxnActive. }
  set (vs := map (fun kx : Key * bytes => match kx.1 with TxnActive v => v | _ => 0 end) kl).
  assert (db_active A = list_to_set vs) as ->.
  { apply set_eq. intros v. rewrite elem_of_list_to_set, list_elem_of_In. unfold vs. rewrite in_map_iff. split.
    - intros Hv. exists (TxnActive v, []). split; [reflexivity|]. apply Hin.
      split; [exact (inv_active_u64 A Hi v Hv)|]. cbn [db_lookup]. rewrite bool_decide_true by exact Hv.
      split; [reflexivity|]. apply is_prefix_TxnActive. eauto.
    - intros ([K x] & <- & F). destruct (Hk K x F) as [v ->]. apply Hin in F as (_ & F & _). cbn in F |- *.
      case_bool_decide; [assumption|discriminate]. }
  rewrite size_list_to_set; [unfold vs; now rewrite length_map|].
  unfold vs. clear -Hsort Hk. induction kl as [|[K x] kl IH]; [constructor|].
  apply StronglySorted_inv in Hsort as [Hs Hf]. cbn. constructor; [|apply IH; [exact Hs|intros; eapply Hk; right; eauto]].
  rewrite list_elem_of_In, in_map_iff. intros ([K' x'] & E' & F). rewrite List.Forall_forall in Hf. specialize (Hf _ F).
  destruct (Hk K x (or_introl eq_refl)) as [v ->]. destruct (Hk K' x' (or_intror F)) as [v' ->]. cbn in E'. subst v'. cbn [fst] in Hf.
  now rewrite lex_lt_irrefl in Hf.
Qed.

(** The status reports the number of versions allocated so far, the number
    of open read-write transactions and the status of the storage engine. *)
Theorem mvcc_status_correct (e0 : E) (cms : list cmd) :
  ready e0 -> cmds_ok cms ->
  let s := (run (init e0) cms).2 in
  exists st (act : gset Z), mvcc_status (sys_engine s) = (Ok st, sys_engine s) /\
    status_versions st = si_next (si_run si_empty cms).2 - 1 /\
    (forall v, v ∈ act <-> exists c t, sys_txns s !! c = Some t /\ read_only t = false /\ version t = v) /\
    status_active_txns st = Z.of_nat (size act) /\
    engine_status (sys_engine s) = Ok (status_storage st).
Proof.
  intros He [Hok Hlen]. destruct (run_linked cms db_empty (init e0) si_empty (linked_init e0 He) Hok)
    as (A & _ & (Hr & Hi & Hs) & Hn & _); [cbn; lia|]. cbv zeta. set (e := sys_engine _) in *.
  destruct (engine_status_spec e (proj1 Hr)) as (est & Est & _).
  destruct (scan_prefix_rep e A PrefixTxnActive Hr) as (kl & El & _).
  pose proof (scan_active_length e A _ Hr Hi El) as Hlen'. pose proof (inv_next A Hi).
  exists (mkMvccStatus (db_next A - 1) (Z.of_nat (size (db_active A))) est), (db_active A).
  split; [|repeat split; [cbn; now rewrite (sim_next A _ _ Hs)|now apply (sim_active A _ _ Hs)..|exact Est]].
  unfold mvcc_status. unfold st_bind at 1. rewrite (get_key_spec e A) by (auto; exact I). cbn [db_lookup].
  unfold st_bind, st_read, st_lift.
  destruct (Z.eqb_spec (db_next A) 1) as [->|Hne]; [cbn [st_ret]; now rewrite El, Est, Hlen'|].
  rewrite bincode_roundtrip by (unfold is_u64; lia). unfold st_ret. cbv beta iota.
  rewrite u64_small by (unfold is_u64; lia). now rewrite El, Est, Hlen'.
Qed.

End Claims.

(** ** Concrete runs, on the memory engine with the sample codecs *)
Import Sample.

Lemma memory_ready : ready memory_new.
Proof. split; [exact memory_new_inv|reflexivity]. Qed.

Definition sample_cmds : list cmd :=
  [CBegin 1; CSet 1 [x61] [x01]; CCommit 1; CBegin 2; CBegin 3; CSet 2 [x61] [x02]; CDelete 3 [x62]].

Lemma sample_ok cms : forallb (fun cm => match cm with CBeginAsOf _ _ | CScan _ _ => false | _ => true end) cms = true ->
  (length cms < 100)%nat -> cmds_ok cms.
Proof.
  intros Hf Hl. split; [|unfold u64_max; lia]. rewrite forallb_forall in Hf. apply List.Forall_forall.
  intros cm Hin. specialize (Hf cm Hin). now destruct cm.
Qed.

Lemma mvcc_snapshot_isolation_witness :
  ready memory_new /\ cmds_ok (sample_cmds ++ [CSet 3 [x61] [x03]; CGet 3 [x61]]) /\
  (run_cmds false (init memory_new) (sample_cmds ++ [CSet 3 [x61] [x03]; CGet 3 [x61]])).1 =
  [Ok RUnit; Ok RUnit; Ok RUnit; Ok RUnit; Ok RUnit; Ok RUnit; Ok RUnit; Err Serialization;
   Ok (RValue (Some [x01]))].
Proof.
  assert (cmds_ok (sample_cmds ++ [CSet 3 [x61] [x03]; CGet 3 [x61]])) as Hok
    by (apply sample_ok; [reflexivity|cbn; lia]).
  split; [exact memory_ready|]. split; [exact Hok|].
  etrans; [exact (mvcc_snapshot_isolation false memory_new _ memory_ready Hok)|]. vm_compute. reflexivity.
Defined.

Lemma mvcc_repeatable_reads_witness :
  let cms1 := [CBegin 1; CSet 1 [x61] [x01]; CCommit 1; CBegin 2] in
  let cms2 := [CBegin 3; CSet 3 [x61] [x09]; CCommit 3] in
  (run_cmd false (run_cmds false (init memory_new) (cms1 ++ cms2)).2 (CGet 2 [x61])).1 =
  Ok (RValue (Some [x01])).
Proof.
  cbv zeta.
  etrans; [refine (mvcc_repeatable_reads false memory_new
    [CBegin 1; CSet 1 [x61] [x01]; CCommit 1; CBegin 2] _ 2 (mkTxn 2 false ∅) (CGet 2 [x61])
    memory_ready _ _ _ _)|].
  - apply sample_ok; [reflexivity|cbn; lia].
  - reflexivity.
  - vm_compute. reflexivity.
  - repeat constructor.
  - vm_compute. reflexivity.
Defined.

Lemma concat_after {X} (b : list X) n i :
  concat (map (fun j => if (j =? 0)%nat then b else []) (seq (S n) i)) = [].
Proof. revert n; induction i as [|i IH]; intros n; [reflexivity|]. cbn. apply IH. Qed.

Lemma mvcc_scan_stable_witness :
  let batches := fun i => if (i =? 0)%nat then [CBegin 3; CSet 3 [x61] [x09]; CCommit 3] else [] in
  exists it rows,
    scan (mkTxn 2 false ∅) (Unbounded, Unbounded) = Ok it /\
    collect true it (sys_engine (run_cmds true (init memory_new)
      [CBegin 1; CSet 1 [x61] [x01]; CCommit 1; CBegin 2]).2) = Ok rows /\
    ((length rows < 5)%nat ->
     drain true 5 (fun i => sys_engine (run_cmds true (init memory_new)
       ([CBegin 1; CSet 1 [x61] [x01]; CCommit 1; CBegin 2] ++ concat (map batches (seq 0 i)))).2) it = Ok rows).
Proof.
  cbv zeta. refine (mvcc_scan_stable true memory_new [CBegin 1; CSet 1 [x61] [x01]; CCommit 1; CBegin 2] _ 2
    (mkTxn 2 false ∅) (Unbounded, Unbounded) 5 memory_ready _ _ _ _).
  - intros [|i]; [apply sample_ok; [reflexivity|cbn; lia]|].
    cbn [seq map concat]. rewrite concat_after. apply sample_ok; [reflexivity|cbn; lia].
  - reflexivity.
  - vm_compute. reflexivity.
  - intros [|i]; repeat constructor.
Defined.

Lemma mvcc_time_travel_witness :
  let cms1 := [CBegin 1; CSet 1 [x61] [x01]; CCommit 1] in
  let cms2 := [CSet 2 [x61] [x09]; CCommit 2] in
  (run_cmds false (run_cmds false (init memory_new) ((cms1 ++ [CBegin 2]) ++ cms2)).2
    [CBeginAsOf 4 2; CGet 4 [x61]]).1 = [Ok RUnit; Ok (RValue (Some [x01]))].
Proof.
  cbv zeta. etrans; [refine (mvcc_time_travel false memory_new [CBegin 1; CSet 1 [x61] [x01]; CCommit 1]
    [CSet 2 [x61] [x09]; CCommit 2] 2 4 (mkTxn 2 false ∅) [x61] memory_ready _ _ _ _)|].
  - split; [repeat constructor; cbn; unfold is_u64, u64_max; lia|cbn; unfold u64_max; lia].
  - vm_compute. reflexivity.
  - vm_compute. reflexivity.
  - vm_compute. reflexivity.
  - vm_compute. reflexivity.
Defined.

Lemma mvcc_errors_witness :
  cmds_ok sample_cmds /\
  Forall (fun r => match r with Panic _ => False | _ => True end)
    (run_cmds true (init memory_new) sample_cmds).1.
Proof.
  assert (cmds_ok sample_cmds) as Hok by (apply sample_ok; [reflexivity|cbn; lia]). split; [exact Hok|].
  pose proof (mvcc_errors true memory_new sample_cmds memory_ready Hok) as F.
  eapply Forall_impl; [exact F|]. now intros [].
Defined.

Lemma mvcc_no_lost_update_witness :
  (run_cmd true (run_cmds true (init memory_new)
    ([CBegin 1; CBegin 2] ++ [CSet 1 [x61] [x01]; CCommit 1])).2 (CSet 2 [x61] [x02])).1 = Err Serialization.
Proof.
  refine (mvcc_no_lost_update true memory_new [CBegin 1; CBegin 2] 1 2 (mkTxn 1 false ∅) (mkTxn 2 false {[1]})
    [x61] [x01] [x02] true memory_ready _ _ _ _ _ _).
  - apply sample_ok; [reflexivity|cbn; lia].
  - discriminate.
  - vm_compute. reflexivity.
  - vm_compute. reflexivity.
  - reflexivity.
  - vm_compute. reflexivity.
Defined.

Lemma mvcc_resume_finished_witness :
  (resume (mkTxn 1 false ∅) (sys_engine (run_cmds true (init memory_new)
     ([CBegin 1; CSet 1 [x61] [x01]] ++ [CCommit 1] ++ [CBegin 2])).2)).1
  = Err (InvalidInput "no active transaction at version").
Proof.
  refine (mvcc_resume_finished true memory_new [CBegin 1; CSet 1 [x61] [x01]] [CBegin 2] 1 (mkTxn 1 false ∅) true
    memory_ready _ _ _).
  - apply sample_ok; [reflexivity|cbn; lia].
  - vm_compute. reflexivity.
  - reflexivity.
Defined.

Lemma mvcc_status_correct_witness :
  cmds_ok sample_cmds /\
  exists st, mvcc_status (sys_engine (run_cmds true (init memory_new) sample_cmds).2)
    = (Ok st, sys_engine (run_cmds true (init memory_new) sample_cmds).2) /\ status_versions st = 3.
Proof.
  assert (cmds_ok sample_cmds) as Hok by (apply sample_ok; [reflexivity|cbn; lia]). split; [exact Hok|].
  destruct (mvcc_status_correct true memory_new sample_cmds memory_ready Hok) as (st & act & H1 & H2 & _).
  exists st. split; [exact H1|]. rewrite H2. vm_compute. reflexivity.
Defined.
