(* ===== verification/RaftLog.v ===== *)
(** * The Raft log ([src/raft/log.rs])

    The log keeps its entries, the current term and vote and the commit index
    in a storage engine, and caches the metadata in memory.  [E] is any storage
    engine; a failed [assert!] or [panic!] is a [Panic] outcome.  Terms and
    indexes are u64 and node IDs u8, all in [Z]; arithmetic wraps as in a
    release build. *)
From S2P Require Import Prelude Bytes Keycode Btree Engine Bincode.

Abbreviation NodeID := Z.
Abbreviation Term := Z.
Abbreviation Index := Z.

Record Entry : Type := mkEntry {
  index : Index;
  term : Term;
  command : option bytes;
}.

#[export] Instance Entry_eq_dec : EqDecision Entry.
Proof. solve_decision. Defined.

Inductive LogKey : Type :=
  | KeyEntry (i : Index)
  | KeyTermVote
  | KeyCommitIndex.

Definition log_key_val (k : LogKey) : keyval :=
  match k with
  | KeyEntry i => VEnum 0 [VU64 i]
  | KeyTermVote => VEnum 1 []
  | KeyCommitIndex => VEnum 2 []
  end.

Definition log_encode (k : LogKey) : outcome bytes := serialize (log_key_val k).

(** The values of the Rust types behind the codecs. *)
Definition entry_valid (e : Entry) : Prop := is_u64 (index e) /\ is_u64 (term e).
Definition term_vote_valid (tv : Term * option NodeID) : Prop :=
  is_u64 tv.1 /\ match tv.2 with Some n => 0 <= n <= u8_max | None => True end.

Record Log {E : Type} : Type := mkLog {
  engine : E;
  log_term : Term;
  log_vote : option NodeID;
  last_index : Index;
  last_term : Term;
  commit_index : Index;
  commit_term : Term;
  fsync : bool;
}.
Arguments Log E : clear implicits.
Arguments mkLog {E} _ _ _ _ _ _ _ _.

Section RaftLog.
Context {E : Type} `{Engine E}.
Context {BE : Bincode entry_valid} {BT : Bincode term_vote_valid} {BC : Bincode is_u64_pair}.

Definition with_engine {A} (f : stM E A) : stM (Log E) A := fun l =>
  match f (engine l) with
  | (r, e) => (r, mkLog e (log_term l) (log_vote l) (last_index l) (last_term l)
                    (commit_index l) (commit_term l) (fsync l))
  end.

Definition log_get_raw (k : LogKey) (e : E) : outcome (option bytes) :=
  let? raw := log_encode k in engine_get raw e.
Definition log_set_raw (k : LogKey) (v : bytes) : stM (Log E) unit :=
  let! raw := st_lift (log_encode k) in with_engine (engine_set raw v).
Definition log_delete_raw (k : LogKey) : stM (Log E) unit :=
  let! raw := st_lift (log_encode k) in with_engine (engine_delete raw).

(** [Log::new] *)
Definition log_new (e : E) : outcome (Log E) :=
  let? tv := log_get_raw KeyTermVote e in
  let? tv := match tv with Some v => bincode_deserialize v | None => Ok (0, None) end in
  let? from := log_encode (KeyEntry 0) in
  let? to := log_encode (KeyEntry u64_max) in
  let? items := engine_scan (Included from, Included to) e in
  let? lit := match last items with
              | None => Ok (0, 0)
              | Some item =>
                  let? kv := item in
                  let? entry := bincode_deserialize kv.2 in
                  Ok (index entry, term entry)
              end in
  let? ci := log_get_raw KeyCommitIndex e in
  let? ci := match ci with Some v => bincode_deserialize v | None => Ok (0, 0) end in
  Ok (mkLog e tv.1 tv.2 lit.1 lit.2 ci.1 ci.2 true).

Definition enable_fsync (b : bool) : stM (Log E) unit :=
  st_modify (fun l => mkLog (engine l) (log_term l) (log_vote l) (last_index l) (last_term l)
                        (commit_index l) (commit_term l) b).

Definition get_commit_index (l : Log E) : Index * Term := (commit_index l, commit_term l).
Definition get_last_index (l : Log E) : Index * Term := (last_index l, last_term l).
Definition get_term_vote (l : Log E) : Term * option NodeID := (log_term l, log_vote l).

Definition set_cached_term_vote (t : Term) (v : option NodeID) : stM (Log E) unit :=
  st_modify (fun l => mkLog (engine l) t v (last_index l) (last_term l)
                        (commit_index l) (commit_term l) (fsync l)).
Definition set_cached_last (i : Index) (t : Term) : stM (Log E) unit :=
  st_modify (fun l => mkLog (engine l) (log_term l) (log_vote l) i t
                        (commit_index l) (commit_term l) (fsync l)).
Definition set_cached_commit (i : Index) (t : Term) : stM (Log E) unit :=
  st_modify (fun l => mkLog (engine l) (log_term l) (log_vote l) (last_index l) (last_term l)
                        i t (fsync l)).

Definition set_term_vote (t : Term) (vote : option NodeID) : stM (Log E) unit := fun l =>
  (st_assert (0 <? t) "can't set term 0" ;;;
   st_assert (log_term l <=? t) "term regression" ;;;
   st_assert ((log_term l <? t) || bool_decide (log_vote l = None) || bool_decide (vote = log_vote l))
     "can't change vote" ;;;
   if (t =? log_term l) && bool_decide (vote = log_vote l) then st_ret tt
   else
     log_set_raw KeyTermVote (bincode_serialize (t, vote)) ;;;
     with_engine engine_flush ;;;
     set_cached_term_vote t vote) l.

(** [if self.fsync { self.engine.flush()? }] *)
Definition flush_if_fsync : stM (Log E) unit := fun l =>
  if fsync l then with_engine engine_flush l else (Ok tt, l).

Definition append (command : option bytes) : stM (Log E) Index := fun l =>
  (st_assert (0 <? log_term l) "can't append entry in term 0" ;;;
   let entry := mkEntry (u64_add (last_index l) 1) (log_term l) command in
   log_set_raw (KeyEntry (index entry)) (bincode_serialize entry) ;;;
   flush_if_fsync ;;;
   set_cached_last (index entry) (term entry) ;;;
   st_ret (index entry)) l.

Definition get (i : Index) (l : Log E) : outcome (option Entry) :=
  let? o := log_get_raw (KeyEntry i) (engine l) in
  match o with
  | Some v => outcome_map Some (bincode_deserialize v)
  | None => Ok None
  end.

Definition commit (i : Index) : stM (Log E) Index := fun l =>
  (let! o := st_read (get i) in
   match o with
   | Some entry =>
       if index entry <? commit_index l then st_panic "commit index regression"
       else if index entry =? commit_index l then st_ret i
       else
         log_set_raw KeyCommitIndex (bincode_serialize (i, term entry)) ;;;
         set_cached_commit i (term entry) ;;;
         st_ret i
   | None => st_panic "commit index does not exist"
   end) l.

Definition has (i : Index) (t : Term) (l : Log E) : outcome bool :=
  if (i =? 0) || (last_index l <? i) then Ok false
  else if (i =? last_index l) && (t =? last_term l) then Ok true
  else
    let? o := get i l in
    Ok (match o with Some e => term e =? t | None => false end).

(** The items of the log iterator. *)
Definition decode_item (item : outcome (bytes * bytes)) : outcome Entry :=
  let? kv := item in bincode_deserialize kv.2.

Definition scan (range : Bound Index * Bound Index) (l : Log E) : outcome (list (outcome Entry)) :=
  let? from := match range.1 with
               | Excluded i => outcome_map Excluded (log_encode (KeyEntry i))
               | Included i => outcome_map Included (log_encode (KeyEntry i))
               | Unbounded => outcome_map Included (log_encode (KeyEntry 0))
               end in
  let? to := match range.2 with
             | Excluded i => outcome_map Excluded (log_encode (KeyEntry i))
             | Included i => outcome_map Included (log_encode (KeyEntry i))
             | Unbounded => outcome_map Included (log_encode (KeyEntry u64_max))
             end in
  let? items := engine_scan (from, to) (engine l) in
  Ok (map decode_item items).

Definition scan_apply (applied_index : Index) (l : Log E) : outcome (list (outcome Entry)) :=
  if commit_index l <=? applied_index then Ok []
  else scan (Included (u64_add applied_index 1), Included (commit_index l)) l.

(** [entries.windows(2).all(f)] *)
Fixpoint windows_all {A} (f : A -> A -> bool) (l : list A) : bool :=
  match l with
  | a :: (b :: _) as rest => f a b && windows_all f rest
  | _ => true
  end.

(** The loop that skips the entries that are already in the log. *)
Fixpoint splice_skip (items : list (outcome Entry)) (entries : list Entry) : outcome (list Entry) :=
  match items with
  | [] => Ok entries
  | item :: items' =>
      let? entry := item in
      match entries with
      | [] => Panic "index out of bounds"
      | e0 :: rest =>
          if negb (index entry =? index e0) then Panic "index mismatch"
          else if negb (term entry =? term e0) then Ok entries
          else if negb (bool_decide (command entry = command e0)) then Panic "command mismatch"
          else splice_skip items' rest
      end
  end.

(** [lo..=hi] *)
Definition range_inclusive (lo hi : Z) : list Z :=
  map (fun n => lo + Z.of_nat n) (seq 0 (Z.to_nat (hi - lo + 1))).

Definition splice (entries : list Entry) : stM (Log E) Index := fun l =>
  match head entries, last entries with
  | Some first, Some last =>
      (st_assert ((0 <? index first) && (0 <? term first)) "spliced entry has index or term 0" ;;;
       st_assert (windows_all (fun a b => u64_add (index a) 1 =? index b) entries)
         "spliced entries are not contiguous" ;;;
       st_assert (windows_all (fun a b => term a <=? term b) entries)
         "spliced entries have term regression" ;;;
       st_assert (term last <=? log_term l) "splice term beyond current" ;;;
       let! base := st_read (get (u64 (index first - 1))) in
       match base with
       | Some base => st_assert (negb (term first <? term base)) "splice term regression"
       | None => st_assert (index first =? 1) "first index must touch existing log"
       end ;;;
       let! items := st_read (scan (Included (index first), Included (index last))) in
       let! entries := st_lift (splice_skip items entries) in
       match entries with
       | [] => st_ret (last_index l)
       | first :: _ =>
           st_assert (commit_index l <? index first) "spliced entries below commit index" ;;;
           st_iter (fun e => log_set_raw (KeyEntry (index e)) (bincode_serialize e)) entries ;;;
           st_iter (fun i => log_delete_raw (KeyEntry i))
             (range_inclusive (u64_add (index last) 1) (last_index l)) ;;;
           flush_if_fsync ;;;
           set_cached_last (index last) (term last) ;;;
           st_ret (index last)
       end) l
  | _, _ => (Ok (last_index l), l)
  end.

Definition log_status (l : Log E) : outcome Status := engine_status (engine l).

End RaftLog.
