(* ===== verification/RaftLogTheory.v ===== *)
(** * Correctness of the Raft log

    [alog] is the log as the Raft paper has it: a list of entries, the current
    term and vote, and a commit index.  The operations of [RaftLog] implement
    the operations of [alog] over any storage engine, panics included, and the
    documented log invariants hold of [alog]. *)
From S2P Require Import Prelude Bytes Keycode KeycodeTheory Btree Engine Memory Bincode RaftLog.

(** ** Keys *)
Definition lkenc (k : LogKey) : bytes := enc (log_key_val k).
Definition lk_valid (k : LogKey) : Prop := match k with KeyEntry i => is_u64 i | _ => True end.
Definition log_shape : keytype := KEnum [[KU64]; []; []].

#[export] Instance LogKey_eq_dec : EqDecision LogKey.
Proof. solve_decision. Defined.

Lemma lk_typed k : lk_valid k -> well_typed log_shape (log_key_val k) = true.
Proof.
  destruct k as [i| |]; [|reflexivity..]. intros Hi. apply in_u64_spec in Hi. cbn. now rewrite Hi.
Qed.

Lemma log_encode_lkenc k : log_encode k = Ok (lkenc k).
Proof.
  unfold log_encode, lkenc, serialize. destruct k as [i| |]; [|reflexivity..].
  cbn [log_key_val serialize_value st_iter enc map concat].
  unfold st_bind, serialize_unit_variant, serialize_u64, st_modify, st_ret. cbn -[to_be_bytes].
  now rewrite app_nil_r.
Qed.

Lemma lkenc_cmp a b :
  lk_valid a -> lk_valid b ->
  lex_cmp (lkenc a) (lkenc b) = kv_cmp (log_key_val a) (log_key_val b) /\ (lkenc a = lkenc b -> a = b).
Proof.
  intros Ha Hb.
  destruct (order_ok_typed log_shape ltac:(reflexivity) _ _ (lk_typed a Ha) (lk_typed b Hb)) as [H1 H2].
  specialize (H1 [] []). rewrite !app_nil_r in H1.
  assert (lex_cmp (lkenc a) (lkenc b) = kv_cmp (log_key_val a) (log_key_val b)) as E.
  { unfold lkenc. rewrite H1. cbn. now destruct (kv_cmp _ _). }
  split; [exact E|]. intros F%lex_cmp_eq. rewrite E in F. apply H2 in F.
  destruct a, b; cbn in F; congruence.
Qed.

Lemma lkenc_inj a b : lk_valid a -> lk_valid b -> lkenc a = lkenc b -> a = b.
Proof. intros Ha Hb. apply (lkenc_cmp a b Ha Hb). Qed.

Lemma lkenc_entry_cmp i j :
  is_u64 i -> is_u64 j -> lex_cmp (lkenc (KeyEntry i)) (lkenc (KeyEntry j)) = (i ?= j).
Proof.
  intros Hi Hj. destruct (lkenc_cmp (KeyEntry i) (KeyEntry j) Hi Hj) as [-> _]. cbn. now destruct (i ?= j).
Qed.

Lemma lkenc_entry_lt i j :
  is_u64 i -> is_u64 j -> lex_lt (lkenc (KeyEntry i)) (lkenc (KeyEntry j)) = true <-> i < j.
Proof. intros Hi Hj. rewrite lex_lt_cmp, lkenc_entry_cmp by assumption. reflexivity. Qed.

Lemma lkenc_entry_le i j :
  is_u64 i -> is_u64 j -> lex_le (lkenc (KeyEntry i)) (lkenc (KeyEntry j)) = true <-> i <= j.
Proof. intros Hi Hj. rewrite lex_le_cmp, lkenc_entry_cmp by assumption. reflexivity. Qed.

(** The metadata keys sort after the entries. *)
Lemma lkenc_meta k hi :
  match k with KeyEntry _ => False | _ => True end ->
  lex_lt (lkenc (KeyEntry hi)) (lkenc k) = true.
Proof. destruct k; [intros []|reflexivity..]. Qed.

(** ** Index ranges *)
Definition in_index_range (r : Bound Index * Bound Index) (i : Index) : bool :=
  match r.1 with Included a => a <=? i | Excluded a => a <? i | Unbounded => true end &&
  match r.2 with Included b => i <=? b | Excluded b => i <? b | Unbounded => true end.

Definition index_range_ok (r : Bound Index * Bound Index) : Prop :=
  match r with
  | (Excluded a, Excluded b) => a < b
  | (Included a, Included b) | (Included a, Excluded b) | (Excluded a, Included b) => a <= b
  | _ => True
  end /\
  match r.1 with Included a | Excluded a => is_u64 a | Unbounded => True end /\
  match r.2 with Included b | Excluded b => is_u64 b | Unbounded => True end.

Definition log_raw_start (b : Bound Index) : Bound bytes :=
  match b with
  | Excluded i => Excluded (lkenc (KeyEntry i))
  | Included i => Included (lkenc (KeyEntry i))
  | Unbounded => Included (lkenc (KeyEntry 0))
  end.
Definition log_raw_end (b : Bound Index) : Bound bytes :=
  match b with
  | Excluded i => Excluded (lkenc (KeyEntry i))
  | Included i => Included (lkenc (KeyEntry i))
  | Unbounded => Included (lkenc (KeyEntry u64_max))
  end.

Lemma u64_zero : is_u64 0.
Proof. unfold is_u64, u64_max. lia. Qed.
Lemma u64_maximum : is_u64 u64_max.
Proof. unfold is_u64, u64_max. lia. Qed.
#[local] Hint Resolve u64_zero u64_maximum : toydb.

Lemma log_raw_range_ok r :
  index_range_ok r -> range_ok (log_raw_start r.1, log_raw_end r.2) = true.
Proof.
  destruct r as [[a|a|] [b|b|]]; cbn [index_range_ok log_raw_start log_raw_end range_ok fst snd];
    intros (H1 & H2 & H3); cbn [fst snd] in H2, H3; first [apply lkenc_entry_le|apply lkenc_entry_lt]; auto with toydb;
    unfold is_u64, u64_max in *; lia.
Qed.

Lemma in_log_raw_range r k :
  lk_valid k -> index_range_ok r ->
  in_range (log_raw_start r.1, log_raw_end r.2) (lkenc k) = true <->
  exists i, k = KeyEntry i /\ in_index_range r i = true.
Proof.
  intros Hk (_ & Ha & Hb). unfold in_range. cbn [fst snd]. rewrite andb_true_iff.
  destruct k as [i| |]; cbn [lk_valid] in Hk.
  - assert (above_start (log_raw_start r.1) (lkenc (KeyEntry i)) = true <->
            match r.1 with Included a => a <=? i | Excluded a => a <? i | Unbounded => true end = true) as ->.
    { destruct r.1 as [a|a|]; cbn [log_raw_start above_start].
      - now rewrite lkenc_entry_le, Z.leb_le.
      - now rewrite lkenc_entry_lt, Z.ltb_lt.
      - rewrite lkenc_entry_le by auto with toydb. unfold is_u64 in Hk. intuition lia. }
    assert (below_end (log_raw_end r.2) (lkenc (KeyEntry i)) = true <->
            match r.2 with Included b => i <=? b | Excluded b => i <? b | Unbounded => true end = true) as ->.
    { destruct r.2 as [b|b|]; cbn [log_raw_end below_end].
      - now rewrite lkenc_entry_le, Z.leb_le.
      - now rewrite lkenc_entry_lt, Z.ltb_lt.
      - rewrite lkenc_entry_le by auto with toydb. unfold is_u64 in Hk. intuition lia. }
    unfold in_index_range. rewrite <- andb_true_iff. split; [eauto|]. now intros (j & [= <-] & F).
  - split; [|now intros (i & [=] & _)]. intros [_ F]. exfalso.
    destruct r.2 as [b|b|]; cbn [log_raw_end below_end] in F; rewrite ?lex_le_not_lt, ?lkenc_meta in F by exact I;
      discriminate.
  - split; [|now intros (i & [=] & _)]. intros [_ F]. exfalso.
    destruct r.2 as [b|b|]; cbn [log_raw_end below_end] in F; rewrite ?lex_le_not_lt, ?lkenc_meta in F by exact I;
      discriminate.
Qed.

(** ** The abstract log *)
Record alog : Type := mkAlog {
  al_entries : list Entry;
  al_term : Term;
  al_vote : option NodeID;
  al_commit : Index;
}.

Definition alog_empty : alog := mkAlog [] 0 None 0.

Definition al_last (R : alog) : Index := Z.of_nat (length (al_entries R)).
Definition entry_at (es : list Entry) (i : Index) : option Entry :=
  if 1 <=? i then es !! Z.to_nat (i - 1) else None.
Definition term_at (es : list Entry) (i : Index) : Term :=
  match entry_at es i with Some e => term e | None => 0 end.
(** The entries in an index range. *)
Definition segment (es : list Entry) (r : Bound Index * Bound Index) : list Entry :=
  List.filter (fun e => in_index_range r (index e)) es.

(** The documented invariants: contiguous indexes from 1, terms that never
    decrease and do not exceed the current term, a commit index in the log. *)
Record al_wf (R : alog) : Prop := {
  wf_entry n e : al_entries R !! n = Some e ->
    index e = Z.of_nat n + 1 /\ 1 <= term e <= al_term R;
  wf_sorted n m e e' : al_entries R !! n = Some e -> al_entries R !! m = Some e' ->
    (n <= m)%nat -> term e <= term e';
  wf_length : al_last R < u64_max;
  wf_term : 0 <= al_term R <= u64_max;
  wf_vote : match al_vote R with Some n => 0 <= n <= u8_max | None => True end;
  wf_vote0 : al_term R = 0 -> al_vote R = None;
  wf_commit : 0 <= al_commit R <= al_last R;
}.

(** ** The abstract operations *)
Definition al_set_term_vote (t : Term) (v : option NodeID) (R : alog) : outcome unit * alog :=
  if negb (0 <? t) then (Panic "can't set term 0", R)
  else if negb (al_term R <=? t) then (Panic "term regression", R)
  else if negb ((al_term R <? t) || bool_decide (al_vote R = None) || bool_decide (v = al_vote R))
  then (Panic "can't change vote", R)
  else (Ok tt, mkAlog (al_entries R) t v (al_commit R)).

Definition al_append (c : option bytes) (R : alog) : outcome Index * alog :=
  if negb (0 <? al_term R) then (Panic "can't append entry in term 0", R)
  else (Ok (al_last R + 1),
        mkAlog (al_entries R ++ [mkEntry (al_last R + 1) (al_term R) c]) (al_term R) (al_vote R) (al_commit R)).

Definition al_commit_to (i : Index) (R : alog) : outcome Index * alog :=
  match entry_at (al_entries R) i with
  | None => (Panic "commit index does not exist", R)
  | Some _ => if i <? al_commit R then (Panic "commit index regression", R)
              else (Ok i, mkAlog (al_entries R) (al_term R) (al_vote R) i)
  end.

Definition al_has (i : Index) (t : Term) (R : alog) : bool :=
  match entry_at (al_entries R) i with Some e => term e =? t | None => false end.

Definition al_scan_apply (applied : Index) (R : alog) : list Entry :=
  segment (al_entries R) (Excluded applied, Included (al_commit R)).

Definition al_splice (es : list Entry) (R : alog) : outcome Index * alog :=
  match head es, last es with
  | Some first, Some last =>
      if negb ((0 <? index first) && (0 <? term first)) then (Panic "spliced entry has index or term 0", R)
      else if negb (windows_all (fun a b => u64_add (index a) 1 =? index b) es)
      then (Panic "spliced entries are not contiguous", R)
      else if negb (windows_all (fun a b => term a <=? term b) es)
      then (Panic "spliced entries have term regression", R)
      else if negb (term last <=? al_term R) then (Panic "splice term beyond current", R)
      else
        let bad := match entry_at (al_entries R) (index first - 1) with
                   | Some base => if term first <? term base then Some "splice term regression" else None
                   | None => if index first =? 1 then None
                             else Some "first index must touch existing log"
                   end in
        match bad with
        | Some msg => (Panic msg, R)
        | None =>
            match splice_skip (map Ok (segment (al_entries R) (Included (index first), Included (index last)))) es with
            | Ok [] => (Ok (al_last R), R)
            | Ok ((next :: _) as rest) =>
                if negb (al_commit R <? index next) then (Panic "spliced entries below commit index", R)
                else (Ok (index last),
                      mkAlog (take (Z.to_nat (index next - 1)) (al_entries R) ++ rest)
                        (al_term R) (al_vote R) (al_commit R))
            | Err e => (Err e, R)
            | Panic p => (Panic p, R)
            end
        end
  | _, _ => (Ok (al_last R), R)
  end.

(** ** Entries by index *)
Lemma entry_at_Some es i e :
  entry_at es i = Some e <-> 1 <= i /\ es !! Z.to_nat (i - 1) = Some e.
Proof. unfold entry_at. destruct (Z.leb_spec 1 i); split; [auto|tauto|discriminate|lia]. Qed.

Lemma entry_at_range es i : is_Some (entry_at es i) <-> 1 <= i <= Z.of_nat (length es).
Proof.
  unfold entry_at. destruct (Z.leb_spec 1 i); [|split; [intros [x F]; discriminate|lia]].
  rewrite lookup_lt_is_Some. lia.
Qed.

Lemma entry_at_None es i : entry_at es i = None <-> ~ (1 <= i <= Z.of_nat (length es)).
Proof. rewrite <- entry_at_range. destruct (entry_at es i); split; try congruence; [intros F; destruct F; eauto|intros _ [x F]; discriminate]. Qed.

Lemma entry_at_app es e i :
  entry_at (es ++ [e]) i = if i =? Z.of_nat (length es) + 1 then Some e else entry_at es i.
Proof.
  unfold entry_at. destruct (Z.eqb_spec i (Z.of_nat (length es) + 1)) as [->|Hne].
  - destruct (Z.leb_spec 1 (Z.of_nat (length es) + 1)); [|lia].
    rewrite lookup_app_r by lia. now replace (_ - _)%nat with 0%nat by lia.
  - destruct (Z.leb_spec 1 i); [|reflexivity].
    destruct (decide (Z.to_nat (i - 1) < length es)%nat); [now rewrite lookup_app_l|].
    rewrite !lookup_ge_None_2; [reflexivity|lia|rewrite length_app; cbn; lia].
Qed.

Lemma wf_index R i e : al_wf R -> entry_at (al_entries R) i = Some e -> index e = i /\ 1 <= term e <= al_term R.
Proof.
  intros Hw [Hi Hl]%entry_at_Some. destruct (wf_entry R Hw _ _ Hl) as [-> Ht]. split; [lia|exact Ht].
Qed.

Lemma wf_entry_valid R i e : al_wf R -> entry_at (al_entries R) i = Some e -> entry_valid e.
Proof.
  intros Hw He. destruct (wf_index R i e Hw He) as [<- Ht]. pose proof (wf_term R Hw). pose proof (wf_length R Hw).
  assert (1 <= index e <= al_last R) by (apply entry_at_range; eauto). unfold entry_valid, is_u64. lia.
Qed.

(** Entries of a well-formed log, as a set and in order. *)
Lemma wf_In R e : al_wf R -> In e (al_entries R) <-> entry_at (al_entries R) (index e) = Some e.
Proof.
  intros Hw. rewrite <- list_elem_of_In, list_elem_of_lookup, entry_at_Some. split.
  - intros [n Hn]. destruct (wf_entry R Hw _ _ Hn) as [-> _]. split; [lia|].
    now replace (Z.to_nat (Z.of_nat n + 1 - 1)) with n by lia.
  - intros [_ F]. eauto.
Qed.

Lemma contiguous_sorted es :
  (forall n e, es !! n = Some e -> index e = Z.of_nat n + 1) ->
  StronglySorted (fun a b => index a < index b) es.
Proof.
  assert (forall k, (forall n e, es !! n = Some e -> index e = Z.of_nat n + k) ->
    StronglySorted (fun a b => index a < index b) es) as H.
  { induction es as [|a es IH]; intros k Hk; [constructor|]. constructor.
    - apply (IH (k + 1)). intros n e Hn. specialize (Hk (S n) e Hn). lia.
    - apply List.Forall_forall. intros b Hb. apply list_elem_of_In, list_elem_of_lookup in Hb as [n Hn].
      rewrite (Hk 0%nat a eq_refl), (Hk (S n) b Hn). lia. }
  exact (H 1).
Qed.

Lemma segment_sorted R r : al_wf R -> StronglySorted (fun a b => index a < index b) (segment (al_entries R) r).
Proof.
  intros Hw. apply StronglySorted_filter, contiguous_sorted. intros n e Hn. apply (wf_entry R Hw _ _ Hn).
Qed.

Lemma segment_In R r e :
  al_wf R -> In e (segment (al_entries R) r) <->
             entry_at (al_entries R) (index e) = Some e /\ in_index_range r (index e) = true.
Proof. intros Hw. unfold segment. now rewrite filter_In, wf_In. Qed.

(** ** Splicing lists *)

(** Contiguous entries starting at an index. *)
Definition indexed_from (k : Index) (es : list Entry) : Prop :=
  forall n e, es !! n = Some e -> index e = k + Z.of_nat n.

Lemma indexed_cons k e es : indexed_from k (e :: es) <-> index e = k /\ indexed_from (k + 1) es.
Proof.
  split.
  - intros F. split; [rewrite (F 0%nat e eq_refl); lia|]. intros n e' Hn. rewrite (F (S n) e' Hn). lia.
  - intros [F1 F2] [|n] e' Hn; [inv Hn; lia|]. rewrite (F2 n e' Hn). lia.
Qed.

Lemma indexed_app k es1 es2 :
  indexed_from k (es1 ++ es2) <-> indexed_from k es1 /\ indexed_from (k + Z.of_nat (length es1)) es2.
Proof.
  revert k; induction es1 as [|e es1 IH]; intros k; cbn [app length].
  { rewrite Z.add_0_r. split; [|tauto]. intros F. split; [intros n e Hn; discriminate|exact F]. }
  rewrite !indexed_cons, IH. rewrite Nat2Z.inj_succ. replace (k + Z.succ _) with (k + 1 + Z.of_nat (length es1)) by lia.
  tauto.
Qed.

Lemma windows_indexed es first :
  windows_all (fun a b => u64_add (index a) 1 =? index b) es = true -> head es = Some first ->
  0 <= index first -> index first + Z.of_nat (length es) - 1 <= u64_max -> indexed_from (index first) es.
Proof.
  revert first; induction es as [|a es IH]; intros first Hw Hh Hp Hle; [discriminate|].
  inv Hh. destruct es as [|b es].
  { apply indexed_cons. split; [reflexivity|]. intros n e Hn. discriminate. }
  cbn [windows_all] in Hw. apply andb_true_iff in Hw as [H1%Z.eqb_eq Hw]. cbn [length] in Hle.
  rewrite u64_add_small in H1 by (unfold is_u64; lia). apply indexed_cons. split; [reflexivity|].
  rewrite H1. apply IH; [exact Hw|reflexivity|lia|]. rewrite <- H1. cbn [length]. lia.
Qed.

Lemma indexed_last k es l : indexed_from k es -> last es = Some l -> index l = k + Z.of_nat (length es) - 1.
Proof.
  intros Hi Hl. rewrite last_lookup in Hl. rewrite (Hi _ _ Hl).
  destruct es; [discriminate|]. cbn [length Nat.pred]. lia.
Qed.

(** What the skip loop consumes is a common prefix. *)
Lemma splice_skip_prefix old es rest :
  splice_skip (map Ok old) es = Ok rest -> exists pre, es = pre ++ rest /\ pre `prefix_of` old.
Proof.
  revert es; induction old as [|o old IH]; intros es E; cbn in E.
  { inv E. exists []. split; [reflexivity|apply prefix_nil]. }
  destruct es as [|e es]; [discriminate|].
  destruct (Z.eqb_spec (index o) (index e)) as [Hi|]; cbn in E; [|discriminate].
  destruct (Z.eqb_spec (term o) (term e)) as [Ht|]; cbn in E; [|inv E; exists []; split; [reflexivity|apply prefix_nil]].
  destruct (bool_decide_reflect (command o = command e)) as [Hc|]; cbn in E; [|discriminate].
  destruct (IH es E) as (pre & -> & Hp). exists (e :: pre). split; [reflexivity|].
  assert (o = e) as -> by (destruct o, e; cbn in *; congruence). now apply prefix_cons.
Qed.

Lemma splice_skip_contiguous k old es :
  indexed_from k old -> indexed_from k es -> (length old <= length es)%nat ->
  match splice_skip (map Ok old) es with
  | Panic p => p = "command mismatch"%string
  | Err _ => False
  | Ok _ => True
  end.
Proof.
  revert k es; induction old as [|o old IH]; intros k es Ho He Hl; [exact I|].
  destruct es as [|e es]; [cbn in Hl; lia|]. cbn.
  apply indexed_cons in Ho as [Ho1 Ho2], He as [He1 He2]. rewrite Ho1, He1, Z.eqb_refl. cbn.
  destruct (term o =? term e); cbn; [|exact I]. case_bool_decide; cbn; [|reflexivity].
  apply (IH (k + 1)); auto. cbn in Hl. lia.
Qed.

Definition upd_entry (f : Index -> option Entry) (e : Entry) : Index -> option Entry :=
  fun j => if j =? index e then Some e else f j.
Definition del_entry (f : Index -> option Entry) (i : Index) : Index -> option Entry :=
  fun j => if j =? i then None else f j.

Lemma upd_entries_at k es f j :
  indexed_from k es ->
  foldl upd_entry f es j =
  if (k <=? j) && (j <? k + Z.of_nat (length es)) then es !! Z.to_nat (j - k) else f j.
Proof.
  revert k f; induction es as [|e es IH]; intros k f Hi; cbn [foldl length].
  { destruct (Z.leb_spec k j), (Z.ltb_spec j (k + Z.of_nat 0)); try lia; reflexivity. }
  apply indexed_cons in Hi as [Hk Hi]. rewrite (IH (k + 1)) by exact Hi. unfold upd_entry. rewrite Hk.
  destruct (Z.eqb_spec j k) as [->|Hne].
  - destruct (Z.leb_spec (k + 1) k), (Z.leb_spec k k), (Z.ltb_spec k (k + Z.of_nat (S (length es)))); cbn; try lia.
    now rewrite Z.sub_diag.
  - destruct (Z.leb_spec (k + 1) j), (Z.leb_spec k j), (Z.ltb_spec j (k + 1 + Z.of_nat (length es))),
      (Z.ltb_spec j (k + Z.of_nat (S (length es)))); cbn [andb]; try lia; try reflexivity.
    replace (Z.to_nat (j - k)) with (S (Z.to_nat (j - (k + 1)))) by lia. reflexivity.
Qed.

Lemma del_entries_at js f j :
  foldl del_entry f js j = if bool_decide (j ∈ js) then None else f j.
Proof.
  revert f; induction js as [|i js IH]; intros f; cbn [foldl].
  { now rewrite bool_decide_false by apply not_elem_of_nil. }
  rewrite IH. unfold del_entry. destruct (Z.eqb_spec j i) as [->|Hne].
  - rewrite (bool_decide_true (i ∈ i :: js)) by (apply elem_of_cons; auto). now case_bool_decide.
  - apply if_bool_decide_ext. rewrite elem_of_cons. tauto.
Qed.

Lemma elem_of_range_inclusive lo hi j : j ∈ range_inclusive lo hi <-> lo <= j <= hi.
Proof.
  unfold range_inclusive. rewrite list_elem_of_In, in_map_iff. split.
  - intros (n & <- & Hn). apply in_seq in Hn. lia.
  - intros Hj. exists (Z.to_nat (j - lo)). split; [lia|]. apply in_seq. lia.
Qed.

(** Writing contiguous entries and deleting the tail gives the spliced list. *)
Lemma splice_entry_at es k rest j :
  1 <= k <= Z.of_nat (length es) + 1 -> indexed_from k rest -> rest <> [] ->
  foldl del_entry (foldl upd_entry (entry_at es) rest)
    (range_inclusive (k + Z.of_nat (length rest)) (Z.of_nat (length es))) j =
  entry_at (take (Z.to_nat (k - 1)) es ++ rest) j.
Proof.
  intros Hk Hi Hne. rewrite del_entries_at, (upd_entries_at k) by exact Hi.
  assert (length (take (Z.to_nat (k - 1)) es) = Z.to_nat (k - 1)) as Hlen by (rewrite length_take; lia).
  destruct (decide (1 <= j)) as [Hj|Hj].
  2: { rewrite bool_decide_false by (rewrite elem_of_range_inclusive; lia).
       unfold entry_at. destruct (Z.leb_spec k j), (Z.leb_spec 1 j); try lia. reflexivity. }
  unfold entry_at. destruct (Z.leb_spec 1 j); [|lia].
  destruct (Z.leb_spec k j) as [Hkj|Hkj]; cbn [andb].
  - rewrite lookup_app_r by lia. rewrite Hlen. replace (Z.to_nat (j - 1) - Z.to_nat (k - 1))%nat with (Z.to_nat (j - k)) by lia.
    destruct (Z.ltb_spec j (k + Z.of_nat (length rest))).
    + now rewrite bool_decide_false by (rewrite elem_of_range_inclusive; lia).
    + rewrite (lookup_ge_None_2 rest) by lia. case_bool_decide as Hd; [reflexivity|].
      rewrite elem_of_range_inclusive in Hd. apply lookup_ge_None_2. lia.
  - rewrite bool_decide_false by (rewrite elem_of_range_inclusive; lia).
    rewrite lookup_app_l by lia. rewrite lookup_take_lt by lia. reflexivity.
Qed.

Section Refinement.
Context {E : Type} `{EngineReads E} {EW : EngineWrites E}.
Context {BE : Bincode entry_valid} {BT : Bincode term_vote_valid} {BC : Bincode is_u64_pair}.

(** ** Representation *)

(** The raw contents, with the entries as a function of the index. *)
Record raw_rep (M : gmap bytes bytes) (f : Index -> option Entry)
    (tv : option (Term * option NodeID)) (ci : option (Index * Term)) : Prop := {
  rr_entry i : is_u64 i -> M !! lkenc (KeyEntry i) = bincode_serialize <$> f i;
  rr_tv : M !! lkenc KeyTermVote = bincode_serialize <$> tv;
  rr_ci : M !! lkenc KeyCommitIndex = bincode_serialize <$> ci;
  rr_keys raw : is_Some (M !! raw) -> exists k, lk_valid k /\ raw = lkenc k;
}.

Definition stored_tv (R : alog) : option (Term * option NodeID) :=
  if al_term R =? 0 then None else Some (al_term R, al_vote R).
Definition stored_ci (R : alog) : option (Index * Term) :=
  if al_commit R =? 0 then None else Some (al_commit R, term_at (al_entries R) (al_commit R)).

Record log_rep (l : Log E) (R : alog) : Prop := {
  lr_inv : engine_inv (engine l);
  lr_raw : raw_rep (engine_abs (engine l)) (entry_at (al_entries R)) (stored_tv R) (stored_ci R);
  lr_term : log_term l = al_term R;
  lr_vote : log_vote l = al_vote R;
  lr_last : last_index l = al_last R;
  lr_last_term : last_term l = term_at (al_entries R) (al_last R);
  lr_commit : commit_index l = al_commit R;
  lr_commit_term : commit_term l = term_at (al_entries R) (al_commit R);
}.

Lemma lkenc_ne a b : lk_valid a -> lk_valid b -> a <> b -> lkenc a <> lkenc b.
Proof. intros Ha Hb Hne F. apply Hne. now apply lkenc_inj. Qed.

Lemma raw_rep_ext M f f' tv ci :
  (forall i, is_u64 i -> f i = f' i) -> raw_rep M f tv ci -> raw_rep M f' tv ci.
Proof. intros Hf [R1 R2 R3 R4]. split; auto. intros i Hi. rewrite <- Hf by exact Hi. auto. Qed.

Lemma raw_set_entry M f tv ci i e :
  raw_rep M f tv ci -> is_u64 i ->
  raw_rep (<[lkenc (KeyEntry i) := bincode_serialize e]> M)
    (fun j => if j =? i then Some e else f j) tv ci.
Proof.
  intros [R1 R2 R3 R4] Hi. split.
  - intros j Hj. destruct (Z.eqb_spec j i) as [->|Hne]; [now rewrite lookup_insert_eq|].
    rewrite lookup_insert_ne by (apply lkenc_ne; [exact Hi|exact Hj|congruence]). auto.
  - rewrite lookup_insert_ne by (apply lkenc_ne; [exact Hi|exact I|discriminate]). exact R2.
  - rewrite lookup_insert_ne by (apply lkenc_ne; [exact Hi|exact I|discriminate]). exact R3.
  - intros raw Hs. destruct (decide (raw = lkenc (KeyEntry i))) as [->|Hne]; [exists (KeyEntry i); auto|].
    rewrite lookup_insert_ne in Hs by congruence. auto.
Qed.

Lemma raw_delete_entry M f tv ci i :
  raw_rep M f tv ci -> is_u64 i ->
  raw_rep (delete (lkenc (KeyEntry i)) M) (fun j => if j =? i then None else f j) tv ci.
Proof.
  intros [R1 R2 R3 R4] Hi. split.
  - intros j Hj. destruct (Z.eqb_spec j i) as [->|Hne]; [now rewrite lookup_delete_eq|].
    rewrite lookup_delete_ne by (apply lkenc_ne; [exact Hi|exact Hj|congruence]). auto.
  - rewrite lookup_delete_ne by (apply lkenc_ne; [exact Hi|exact I|discriminate]). exact R2.
  - rewrite lookup_delete_ne by (apply lkenc_ne; [exact Hi|exact I|discriminate]). exact R3.
  - intros raw Hs. destruct (decide (raw = lkenc (KeyEntry i))) as [->|Hne]; [exists (KeyEntry i); auto|].
    rewrite lookup_delete_ne in Hs by congruence. auto.
Qed.

Lemma raw_set_tv M f tv ci x :
  raw_rep M f tv ci -> raw_rep (<[lkenc KeyTermVote := bincode_serialize x]> M) f (Some x) ci.
Proof.
  intros [R1 R2 R3 R4]. split.
  - intros j Hj. rewrite lookup_insert_ne by (apply lkenc_ne; [exact I|exact Hj|discriminate]). auto.
  - now rewrite lookup_insert_eq.
  - rewrite lookup_insert_ne by (apply lkenc_ne; [exact I..|discriminate]). exact R3.
  - intros raw Hs. destruct (decide (raw = lkenc KeyTermVote)) as [->|Hne]; [now exists KeyTermVote|].
    rewrite lookup_insert_ne in Hs by congruence. auto.
Qed.

Lemma raw_set_ci M f tv ci x :
  raw_rep M f tv ci -> raw_rep (<[lkenc KeyCommitIndex := bincode_serialize x]> M) f tv (Some x).
Proof.
  intros [R1 R2 R3 R4]. split.
  - intros j Hj. rewrite lookup_insert_ne by (apply lkenc_ne; [exact I|exact Hj|discriminate]). auto.
  - rewrite lookup_insert_ne by (apply lkenc_ne; [exact I..|discriminate]). exact R2.
  - now rewrite lookup_insert_eq.
  - intros raw Hs. destruct (decide (raw = lkenc KeyCommitIndex)) as [->|Hne]; [now exists KeyCommitIndex|].
    rewrite lookup_insert_ne in Hs by congruence. auto.
Qed.

(** ** Engine calls *)
Lemma log_set_raw_spec (l : Log E) k v :
  engine_inv (engine l) ->
  exists e, log_set_raw k v l =
      (Ok tt, mkLog e (log_term l) (log_vote l) (last_index l) (last_term l) (commit_index l) (commit_term l) (fsync l))
    /\ engine_inv e /\ engine_abs e = <[lkenc k := v]> (engine_abs (engine l)).
Proof.
  intros Hi. destruct (engine_set_spec (engine l) (lkenc k) v Hi) as (e & Ee & He & Ha).
  exists e. split; [|auto]. unfold log_set_raw, st_bind, st_lift. rewrite log_encode_lkenc.
  unfold with_engine. now rewrite Ee.
Qed.

Lemma log_delete_raw_spec (l : Log E) k :
  engine_inv (engine l) ->
  exists e, log_delete_raw k l =
      (Ok tt, mkLog e (log_term l) (log_vote l) (last_index l) (last_term l) (commit_index l) (commit_term l) (fsync l))
    /\ engine_inv e /\ engine_abs e = delete (lkenc k) (engine_abs (engine l)).
Proof.
  intros Hi. destruct (engine_delete_spec (engine l) (lkenc k) Hi) as (e & Ee & He & Ha).
  exists e. split; [|auto]. unfold log_delete_raw, st_bind, st_lift. rewrite log_encode_lkenc.
  unfold with_engine. now rewrite Ee.
Qed.

Lemma log_flush_spec (l : Log E) :
  engine_inv (engine l) ->
  exists e, with_engine engine_flush l =
      (Ok tt, mkLog e (log_term l) (log_vote l) (last_index l) (last_term l) (commit_index l) (commit_term l) (fsync l))
    /\ engine_inv e /\ engine_abs e = engine_abs (engine l).
Proof.
  intros Hi. destruct (engine_flush_spec (engine l) Hi) as (e & Ee & He & Ha).
  exists e. split; [|auto]. unfold with_engine. now rewrite Ee.
Qed.

Lemma flush_if_fsync_spec (l : Log E) :
  engine_inv (engine l) ->
  exists e, flush_if_fsync l =
      (Ok tt, mkLog e (log_term l) (log_vote l) (last_index l) (last_term l) (commit_index l) (commit_term l) (fsync l))
    /\ engine_inv e /\ engine_abs e = engine_abs (engine l).
Proof.
  intros Hi. unfold flush_if_fsync. destruct (fsync l) eqn:Ef; [|exists (engine l); split; [|auto]; destruct l; cbn in *; now subst].
  destruct (log_flush_spec l Hi) as (e & Ee & He). exists e. now rewrite Ee, Ef.
Qed.

Lemma log_get_raw_spec (l : Log E) k :
  engine_inv (engine l) -> log_get_raw k (engine l) = Ok (engine_abs (engine l) !! lkenc k).
Proof.
  intros Hi. unfold log_get_raw. rewrite log_encode_lkenc. cbn. now apply engine_get_spec.
Qed.

Lemma log_get_spec (l : Log E) R i :
  log_rep l R -> al_wf R -> is_u64 i -> get i l = Ok (entry_at (al_entries R) i).
Proof.
  intros Hr Hw Hi. unfold get. rewrite log_get_raw_spec by apply (lr_inv l R Hr). cbn [outcome_bind].
  rewrite (rr_entry _ _ _ _ (lr_raw l R Hr)) by exact Hi.
  destruct (entry_at (al_entries R) i) as [e|] eqn:Ee; [|reflexivity]. cbn.
  now rewrite bincode_roundtrip by (eapply wf_entry_valid; eauto).
Qed.

(** Reading a range of entries. *)
Lemma engine_scan_entries (l : Log E) R r :
  log_rep l R -> al_wf R -> index_range_ok r ->
  exists items, engine_scan (log_raw_start r.1, log_raw_end r.2) (engine l) = Ok items /\
    map decode_item items = map Ok (segment (al_entries R) r).
Proof.
  intros Hr Hw Hok.
  destruct (engine_scan_spec (engine l) _ (lr_inv l R Hr) (log_raw_range_ok r Hok)) as (kvs & Es & Hsort & Hin).
  exists (map Ok kvs). split; [exact Es|]. destruct (lr_raw l R Hr) as [R1 R2 R3 R4].
  assert (forall raw v, In (raw, v) kvs -> exists e, raw = lkenc (KeyEntry (index e)) /\ v = bincode_serialize e /\
            is_u64 (index e) /\ entry_at (al_entries R) (index e) = Some e /\ in_index_range r (index e) = true) as Hk.
  { intros raw v F. apply Hin in F as [F1 F2]. destruct (R4 raw (ex_intro _ v F1)) as (k & Hk & ->).
    apply in_log_raw_range in F2 as (i & -> & F2); [|exact Hk|exact Hok]. rewrite R1 in F1 by exact Hk.
    destruct (entry_at (al_entries R) i) as [e|] eqn:Ee; [|discriminate]. cbn in F1. inv F1.
    destruct (wf_index R i e Hw Ee) as [<- _]. exists e. auto. }
  assert (exists es, kvs = map (fun e => (lkenc (KeyEntry (index e)), bincode_serialize e)) es /\
            forall e, In e es -> is_u64 (index e) /\ entry_at (al_entries R) (index e) = Some e /\ in_index_range r (index e) = true)
    as (es & -> & Hes).
  { clear Es Hsort Hin. induction kvs as [|[raw v] kvs IH]; [exists []; split; [reflexivity|intros e []]|].
    destruct (Hk raw v (or_introl eq_refl)) as (e & -> & -> & F).
    destruct IH as (es & -> & Fs); [intros raw' v' F'; apply Hk; now right|].
    exists (e :: es). split; [reflexivity|]. intros e' [<-|F']; auto. }
  assert (es = segment (al_entries R) r) as <-.
  { apply (StronglySorted_ext (fun a b => index a < index b)); [intros; lia|intros; lia| |now apply segment_sorted|].
    - clear -Hsort Hes. induction es as [|e es IH]; [constructor|].
      cbn in Hsort. apply StronglySorted_inv in Hsort as [Hs Hf]. constructor.
      + apply IH; [exact Hs|]. intros e' F. apply Hes. now right.
      + rewrite List.Forall_forall in *. intros e' F.
        destruct (Hes e (or_introl eq_refl)) as [U1 _]. destruct (Hes e' (or_intror F)) as [U2 _].
        apply (lkenc_entry_lt _ _ U1 U2).
        apply (Hf (lkenc (KeyEntry (index e')), bincode_serialize e')), in_map_iff. eauto.
    - intros e. rewrite segment_In by exact Hw. split; [intros F; apply (Hes e F)|]. intros [F1 F2].
      pose proof (wf_entry_valid R _ _ Hw F1) as [Hu Ht].
      assert (In (lkenc (KeyEntry (index e)), bincode_serialize e)
        (map (fun e => (lkenc (KeyEntry (index e)), bincode_serialize e)) es)) as F.
      { apply Hin. rewrite R1, F1 by exact Hu. split; [reflexivity|]. apply in_log_raw_range; eauto. }
      apply in_map_iff in F as (e' & E1%(f_equal fst) & F). cbn [fst] in E1. destruct (Hes e' F) as (U & G & _).
      apply lkenc_inj in E1; [|exact U|exact Hu]. injection E1 as E1. rewrite E1 in G. congruence. }
  rewrite map_map, map_map. apply map_ext_in. intros e F. cbn.
  destruct (Hes e F) as (_ & G & _). now rewrite bincode_roundtrip by (eapply wf_entry_valid; eauto).
Qed.

Lemma log_scan_spec (l : Log E) R r :
  log_rep l R -> al_wf R -> index_range_ok r -> scan r l = Ok (map Ok (segment (al_entries R) r)).
Proof.
  intros Hr Hw Hok. destruct (engine_scan_entries l R r Hr Hw Hok) as (items & Es & Em).
  unfold scan. rewrite <- Em. clear Em. destruct r as [[a|a|] [b|b|]]; cbn [fst snd] in *; rewrite ?log_encode_lkenc;
    cbn [outcome_map outcome_bind]; cbn [log_raw_start log_raw_end] in Es; now rewrite Es.
Qed.

(** ** Operations *)
Lemma set_term_vote_spec (l : Log E) R t v :
  log_rep l R -> al_wf R -> term_vote_valid (t, v) ->
  exists l', set_term_vote t v l = ((al_set_term_vote t v R).1, l') /\
    log_rep l' (al_set_term_vote t v R).2 /\ fsync l' = fsync l.
Proof.
  intros Hr Hw Hv. unfold set_term_vote, al_set_term_vote, st_bind, st_assert.
  rewrite (lr_term l R Hr), (lr_vote l R Hr).
  destruct (Z.ltb_spec 0 t); cbn [negb]; [|eauto].
  destruct (Z.leb_spec (al_term R) t); cbn [negb]; [|eauto].
  destruct (_ || _ || _)%bool; cbn [negb]; [|eauto].
  destruct ((t =? al_term R) && bool_decide (v = al_vote R))%bool eqn:Esame.
  { apply andb_true_iff in Esame as [E1%Z.eqb_eq E2%bool_decide_eq_true]. subst t v.
    exists l. split; [reflexivity|]. split; [now destruct R|reflexivity]. }
  destruct (log_set_raw_spec l KeyTermVote (bincode_serialize (t, v)) (lr_inv l R Hr)) as (e1 & -> & Hi1 & Ha1).
  set (l1 := mkLog e1 _ _ _ _ _ _ _). destruct (log_flush_spec l1 Hi1) as (e2 & -> & Hi2 & Ha2).
  eexists. split; [reflexivity|]. split; [|reflexivity]. destruct Hr as [L1 L2 L3 L4 L5 L6 L7 L8].
  split; cbn; auto. rewrite Ha2. cbn. rewrite Ha1. unfold stored_tv. cbn.
  destruct (Z.eqb_spec t 0); [lia|]. eapply raw_set_tv. exact L2.
Qed.

(** The log after an entry was written to its end. *)
Lemma appended_rep (l : Log E) R c e :
  log_rep l R -> al_wf R -> engine_inv e ->
  (let en := mkEntry (al_last R + 1) (al_term R) c in
   raw_rep (engine_abs e) (fun j => if j =? al_last R + 1 then Some en else entry_at (al_entries R) j) (stored_tv R) (stored_ci R)) ->
  log_rep (mkLog e (log_term l) (log_vote l) (al_last R + 1) (al_term R) (commit_index l) (commit_term l) (fsync l))
    (mkAlog (al_entries R ++ [mkEntry (al_last R + 1) (al_term R) c]) (al_term R) (al_vote R) (al_commit R)).
Proof.
  intros [L1 L2 L3 L4 L5 L6 L7 L8] Hw He. cbv zeta. set (en := mkEntry _ _ c). intros Hraw.
  pose proof (wf_commit R Hw) as Hc.
  assert (forall i, entry_at (al_entries R ++ [en]) i = if i =? al_last R + 1 then Some en else entry_at (al_entries R) i) as Hat
    by (intros; apply entry_at_app).
  assert (term_at (al_entries R ++ [en]) (al_commit R) = term_at (al_entries R) (al_commit R)) as Htc.
  { unfold term_at. rewrite Hat. destruct (Z.eqb_spec (al_commit R) (al_last R + 1)); [lia|reflexivity]. }
  assert (al_last (mkAlog (al_entries R ++ [en]) (al_term R) (al_vote R) (al_commit R)) = al_last R + 1) as Hlast.
  { unfold al_last. cbn. rewrite length_app. cbn. lia. }
  split; cbn [engine log_term log_vote last_index last_term commit_index commit_term al_entries al_term al_vote al_commit]; auto.
  - unfold stored_tv, stored_ci in *. cbn [al_term al_vote al_commit al_entries].
    rewrite Htc. eapply raw_rep_ext; [|exact Hraw]. intros i _. cbn beta. now rewrite Hat.
  - rewrite Hlast. unfold term_at. rewrite Hat, Z.eqb_refl. reflexivity.
  - now rewrite Htc.
Qed.

Lemma log_append_spec (l : Log E) R c :
  log_rep l R -> al_wf R -> al_last R + 1 < u64_max ->
  exists l', append c l = ((al_append c R).1, l') /\ log_rep l' (al_append c R).2 /\ fsync l' = fsync l.
Proof.
  intros Hr Hw Hlt. unfold append, al_append. rewrite (lr_term l R Hr), (lr_last l R Hr).
  assert (0 <= al_last R) as Hl0 by (unfold al_last; lia). rewrite u64_add_small by (unfold is_u64; lia).
  unfold st_bind at 1, st_assert. destruct (Z.ltb_spec 0 (al_term R)); cbn [negb]; [|eauto].
  set (en := mkEntry (al_last R + 1) (al_term R) c). cbn [index term en].
  unfold st_bind at 1.
  destruct (log_set_raw_spec l (KeyEntry (al_last R + 1)) (bincode_serialize en) (lr_inv l R Hr)) as (e1 & -> & Hi1 & Ha1).
  unfold st_bind at 1. set (l1 := mkLog e1 _ _ _ _ _ _ _).
  destruct (flush_if_fsync_spec l1 Hi1) as (e2 & -> & Hi2 & Ha2).
  eexists. split; [reflexivity|]. split; [|reflexivity]. apply (appended_rep l R c e2 Hr Hw Hi2). cbv zeta.
  rewrite Ha2. cbn [engine l1]. rewrite Ha1. apply raw_set_entry; [apply (lr_raw l R Hr)|unfold is_u64; lia].
Qed.

(** The log after a commit index was written. *)
Lemma committed_rep (l : Log E) R i en e :
  log_rep l R -> entry_at (al_entries R) i = Some en -> engine_inv e ->
  engine_abs e = <[lkenc KeyCommitIndex := bincode_serialize (i, term en)]> (engine_abs (engine l)) ->
  log_rep (mkLog e (log_term l) (log_vote l) (last_index l) (last_term l) i (term en) (fsync l))
    (mkAlog (al_entries R) (al_term R) (al_vote R) i).
Proof.
  intros [L1 L2 L3 L4 L5 L6 L7 L8] Ee Hi Ha. assert (1 <= i <= al_last R) as Hir by (apply entry_at_range; eauto).
  split; cbn [engine log_term log_vote last_index last_term commit_index commit_term al_entries al_term al_vote al_commit]; auto.
  - rewrite Ha. unfold stored_tv, stored_ci. cbn [al_term al_vote al_commit al_entries].
    destruct (Z.eqb_spec i 0); [lia|]. unfold term_at. rewrite Ee. eapply raw_set_ci. exact L2.
  - unfold term_at. now rewrite Ee.
Qed.

Lemma log_commit_spec (l : Log E) R i :
  log_rep l R -> al_wf R -> is_u64 i ->
  exists l', commit i l = ((al_commit_to i R).1, l') /\ log_rep l' (al_commit_to i R).2 /\ fsync l' = fsync l.
Proof.
  intros Hr Hw Hi. unfold commit, al_commit_to, st_bind at 1, st_read.
  rewrite (log_get_spec l R i) by assumption.
  destruct (entry_at (al_entries R) i) as [e|] eqn:Ee; [|eauto].
  destruct (wf_index R i e Hw Ee) as [Hidx Hterm]. rewrite Hidx, (lr_commit l R Hr).
  destruct (Z.ltb_spec i (al_commit R)); [eauto|].
  destruct (Z.eqb_spec i (al_commit R)) as [->|Hne].
  { exists l. split; [reflexivity|]. split; [now destruct R|reflexivity]. }
  unfold st_bind at 1.
  destruct (log_set_raw_spec l KeyCommitIndex (bincode_serialize (i, term e)) (lr_inv l R Hr)) as (e1 & -> & Hi1 & Ha1).
  eexists. split; [reflexivity|]. split; [|reflexivity]. exact (committed_rep l R i e e1 Hr Ee Hi1 Ha1).
Qed.

Lemma has_spec (l : Log E) R i t :
  log_rep l R -> al_wf R -> is_u64 i -> has i t l = Ok (al_has i t R).
Proof.
  intros Hr Hw Hi. unfold has, al_has. rewrite (lr_last l R Hr), (lr_last_term l R Hr).
  destruct (Z.eqb_spec i 0) as [->|Hi0]; [reflexivity|]. cbn [orb].
  destruct (Z.ltb_spec (al_last R) i) as [Hgt|Hle].
  { assert (entry_at (al_entries R) i = None) as -> by (apply entry_at_None; unfold al_last in *; lia). reflexivity. }
  destruct (Z.eqb_spec i (al_last R)) as [Heq|Hne]; cbn [andb].
  2: { rewrite (log_get_spec l R i) by assumption. reflexivity. }
  subst i. unfold term_at. destruct (entry_at (al_entries R) (al_last R)) as [e|] eqn:Ee.
  - destruct (Z.eqb_spec t (term e)) as [->|Hne]; [now rewrite Z.eqb_refl|].
    rewrite (log_get_spec l R) by assumption. cbn [outcome_bind]. now rewrite Ee.
  - apply entry_at_None in Ee. unfold al_last in *. lia.
Qed.

Lemma scan_apply_spec (l : Log E) R i :
  log_rep l R -> al_wf R -> is_u64 i -> scan_apply i l = Ok (map Ok (al_scan_apply i R)).
Proof.
  intros Hr Hw Hi. unfold scan_apply, al_scan_apply. rewrite (lr_commit l R Hr).
  pose proof (wf_commit R Hw) as Hc. pose proof (wf_length R Hw) as Hl. unfold is_u64 in Hi.
  destruct (Z.leb_spec (al_commit R) i) as [Hle|Hlt].
  - assert (segment (al_entries R) (Excluded i, Included (al_commit R)) = []) as ->; [|reflexivity].
    unfold segment. induction (al_entries R) as [|e es IH]; [reflexivity|]. cbn. rewrite IH.
    unfold in_index_range. cbn. destruct (Z.ltb_spec i (index e)), (Z.leb_spec (index e) (al_commit R)); try lia; reflexivity.
  - rewrite u64_add_small by (unfold is_u64; lia).
    rewrite (log_scan_spec l R); [|assumption..|unfold index_range_ok, is_u64; cbn [fst snd]; lia]. do 2 f_equal.
    apply filter_ext. intros e. unfold in_index_range. cbn. f_equal.
    destruct (Z.leb_spec (i + 1) (index e)), (Z.ltb_spec i (index e)); try lia; reflexivity.
Qed.

(** ** Restart *)
Lemma segment_all es : segment es (Unbounded, Unbounded) = es.
Proof. unfold segment. induction es as [|e es IH]; [reflexivity|]. cbn. f_equal. exact IH. Qed.

Lemma last_entry_at es : last es = entry_at es (Z.of_nat (length es)).
Proof.
  rewrite last_lookup. unfold entry_at. destruct es as [|e es]; [reflexivity|].
  destruct (Z.leb_spec 1 (Z.of_nat (length (e :: es)))); [|cbn [length] in *; lia]. f_equal. cbn [length]. lia.
Qed.

Lemma log_new_spec (l : Log E) R :
  log_rep l R -> al_wf R ->
  log_new (engine l) = Ok (mkLog (engine l) (log_term l) (log_vote l) (last_index l) (last_term l)
                             (commit_index l) (commit_term l) true).
Proof.
  intros Hr Hw. pose proof (wf_length R Hw) as Hlen.
  destruct (engine_scan_entries l R (Unbounded, Unbounded) Hr Hw ltac:(repeat split)) as (items & Es & Em).
  destruct Hr as [L1 L2 L3 L4 L5 L6 L7 L8]. unfold log_new.
  rewrite !log_get_raw_spec, (rr_tv _ _ _ _ L2), (rr_ci _ _ _ _ L2) by exact L1. cbn [outcome_bind].
  assert (match bincode_serialize <$> stored_tv R with Some v => bincode_deserialize v | None => Ok (0, None) end
          = Ok (al_term R, al_vote R)) as ->.
  { unfold stored_tv. destruct (Z.eqb_spec (al_term R) 0) as [E0|E0]; cbn.
    - now rewrite E0, (wf_vote0 R Hw E0).
    - apply bincode_roundtrip. pose proof (wf_term R Hw). pose proof (wf_vote R Hw). split; [exact H1|exact H2]. }
  assert (match bincode_serialize <$> stored_ci R with Some v => bincode_deserialize v | None => Ok (0, 0) end
          = Ok (al_commit R, term_at (al_entries R) (al_commit R))) as ->.
  { pose proof (wf_commit R Hw). unfold stored_ci. destruct (Z.eqb_spec (al_commit R) 0) as [E0|E0]; cbn.
    - now rewrite E0.
    - apply bincode_roundtrip. unfold is_u64_pair, is_u64. cbn. split; [lia|]. unfold term_at.
      destruct (entry_at (al_entries R) (al_commit R)) as [e|] eqn:Ee; [|unfold u64_max; lia].
      apply (wf_entry_valid R _ _ Hw Ee). }
  rewrite !log_encode_lkenc. cbn [outcome_bind]. cbn [log_raw_start log_raw_end fst snd] in Es. rewrite Es.
  cbn [outcome_bind]. rewrite segment_all in Em.
  assert (match last items with
          | None => Ok (0, 0)
          | Some item => let? kv := item in let? entry := bincode_deserialize kv.2 in Ok (index entry, term entry)
          end = Ok (al_last R, term_at (al_entries R) (al_last R))) as ->.
  { pose proof (f_equal last Em) as Elast. rewrite !fmap_last, last_entry_at in Elast. fold (al_last R) in Elast.
    unfold term_at. destruct (entry_at (al_entries R) (al_last R)) as [e|] eqn:Ee.
    - destruct (last items) as [item|]; [|discriminate]. cbn in Elast. injection Elast as Elast.
      unfold decode_item in Elast. destruct item as [kv| |]; cbn in *; try discriminate. rewrite Elast. cbn.
      now rewrite (proj1 (wf_index R _ _ Hw Ee)).
    - destruct (last items) as [item|]; [discriminate|]. apply entry_at_None in Ee. unfold al_last in *.
      replace (Z.of_nat (length (al_entries R))) with 0 by lia. reflexivity. }
  cbn [outcome_bind fst snd]. now rewrite L3, L4, L5, L6, L7, L8.
Qed.

(** ** Splice *)
Lemma st_iter_set_spec es (l : Log E) f tv ci :
  engine_inv (engine l) -> raw_rep (engine_abs (engine l)) f tv ci -> Forall entry_valid es ->
  exists e, st_iter (fun e => log_set_raw (KeyEntry (index e)) (bincode_serialize e)) es l =
      (Ok tt, mkLog e (log_term l) (log_vote l) (last_index l) (last_term l) (commit_index l) (commit_term l) (fsync l))
    /\ engine_inv e /\ raw_rep (engine_abs e) (foldl upd_entry f es) tv ci.
Proof.
  revert l f; induction es as [|x es IH]; intros l f Hi Hr Hv; cbn [st_iter foldl].
  { exists (engine l). destruct l; auto. }
  apply Forall_cons in Hv as [Hx Hv]. unfold st_bind.
  destruct (log_set_raw_spec l (KeyEntry (index x)) (bincode_serialize x) Hi) as (e1 & -> & Hi1 & Ha1).
  destruct (IH (mkLog e1 (log_term l) (log_vote l) (last_index l) (last_term l) (commit_index l) (commit_term l) (fsync l))
              (upd_entry f x) Hi1) as (e2 & -> & Hi2 & Hr2); [|exact Hv|].
  - cbn [engine]. rewrite Ha1. apply raw_set_entry; [exact Hr|apply Hx].
  - exists e2. auto.
Qed.

Lemma st_iter_delete_spec js (l : Log E) f tv ci :
  engine_inv (engine l) -> raw_rep (engine_abs (engine l)) f tv ci -> Forall is_u64 js ->
  exists e, st_iter (fun i => log_delete_raw (KeyEntry i)) js l =
      (Ok tt, mkLog e (log_term l) (log_vote l) (last_index l) (last_term l) (commit_index l) (commit_term l) (fsync l))
    /\ engine_inv e /\ raw_rep (engine_abs e) (foldl del_entry f js) tv ci.
Proof.
  revert l f; induction js as [|x js IH]; intros l f Hi Hr Hv; cbn [st_iter foldl].
  { exists (engine l). destruct l; auto. }
  apply Forall_cons in Hv as [Hx Hv]. unfold st_bind.
  destruct (log_delete_raw_spec l (KeyEntry x) Hi) as (e1 & -> & Hi1 & Ha1).
  destruct (IH (mkLog e1 (log_term l) (log_vote l) (last_index l) (last_term l) (commit_index l) (commit_term l) (fsync l))
              (del_entry f x) Hi1) as (e2 & -> & Hi2 & Hr2); [|exact Hv|].
  - cbn [engine]. rewrite Ha1. apply raw_delete_entry; [exact Hr|exact Hx].
  - exists e2. auto.
Qed.

(** The writes of a splice. *)
Definition splice_writes (rest : list Entry) (lst : Entry) (l : Log E) : stM (Log E) Index :=
  st_iter (fun e => log_set_raw (KeyEntry (index e)) (bincode_serialize e)) rest ;;;
  st_iter (fun i => log_delete_raw (KeyEntry i)) (range_inclusive (u64_add (index lst) 1) (last_index l)) ;;;
  flush_if_fsync ;;;
  set_cached_last (index lst) (term lst) ;;;
  st_ret (index lst).

(** What is known when they start: entries from [k] on, after the commit index,
    that touch the log. *)
Record splice_ready (R : alog) (k : Index) (rest : list Entry) (lst : Entry) : Prop := {
  sr_start : 1 <= k <= al_last R + 1;
  sr_commit : al_commit R < k;
  sr_rest : rest <> [];
  sr_indexed : indexed_from k rest;
  sr_last : last rest = Some lst;
  sr_valid : Forall entry_valid rest;
  sr_max : k + Z.of_nat (length rest) <= u64_max;
}.

Definition al_spliced (R : alog) (k : Index) (rest : list Entry) : alog :=
  mkAlog (take (Z.to_nat (k - 1)) (al_entries R) ++ rest) (al_term R) (al_vote R) (al_commit R).

Lemma splice_ready_range R k rest lst :
  splice_ready R k rest lst ->
  range_inclusive (u64_add (index lst) 1) (al_last R) = range_inclusive (k + Z.of_nat (length rest)) (al_last R).
Proof.
  intros [Hk _ Hne Hi Hl _ Hmax]. pose proof (indexed_last k rest lst Hi Hl) as Hidx.
  assert (0 < Z.of_nat (length rest)) as Hpos by (destruct rest; [congruence|cbn; lia]).
  rewrite u64_add_small, Hidx by (rewrite ?Hidx; unfold is_u64; lia). f_equal. lia.
Qed.

(** Once they are done, the engine holds the spliced log. *)
Lemma splice_writes_rep (l : Log E) R k rest lst (e : E) :
  log_rep l R -> al_wf R -> splice_ready R k rest lst -> engine_inv e ->
  raw_rep (engine_abs e)
    (foldl del_entry (foldl upd_entry (entry_at (al_entries R)) rest)
       (range_inclusive (k + Z.of_nat (length rest)) (al_last R))) (stored_tv R) (stored_ci R) ->
  log_rep (mkLog e (log_term l) (log_vote l) (index lst) (term lst) (commit_index l) (commit_term l) (fsync l))
    (al_spliced R k rest).
Proof.
  intros [L1 L2 L3 L4 L5 L6 L7 L8] Hw [Hk Hck Hne Hi Hl Hv Hmax] He Hr.
  pose proof (indexed_last k rest lst Hi Hl) as Hidx. set (es' := take (Z.to_nat (k - 1)) (al_entries R) ++ rest).
  assert (forall j, foldl del_entry (foldl upd_entry (entry_at (al_entries R)) rest)
            (range_inclusive (k + Z.of_nat (length rest)) (al_last R)) j = entry_at es' j) as Hat
    by (intros j; now apply splice_entry_at).
  assert (Z.of_nat (length es') = k + Z.of_nat (length rest) - 1) as Hlen'
    by (unfold es'; rewrite length_app, length_take; unfold al_last in *; lia).
  assert (term_at es' (al_commit R) = term_at (al_entries R) (al_commit R)) as Htc.
  { unfold term_at, es'. rewrite <- splice_entry_at, del_entries_at, (upd_entries_at k) by assumption.
    rewrite bool_decide_false by (rewrite elem_of_range_inclusive; lia).
    destruct (Z.leb_spec k (al_commit R)); [lia|]. reflexivity. }
  unfold al_spliced. fold es'.
  split; cbn [engine log_term log_vote last_index last_term commit_index commit_term al_entries al_term al_vote al_commit]; auto.
  - unfold stored_tv, stored_ci in *. cbn [al_term al_vote al_commit al_entries]. rewrite Htc.
    eapply raw_rep_ext; [|exact Hr]. intros j _. apply Hat.
  - unfold al_last. cbn [al_entries]. lia.
  - unfold al_last. cbn [al_entries]. unfold term_at. rewrite <- last_entry_at. unfold es'.
    rewrite last_app, Hl. reflexivity.
  - now rewrite Htc.
Qed.

(** The write phase of a splice. *)
Lemma splice_writes_spec (l : Log E) R k rest lst :
  log_rep l R -> al_wf R -> splice_ready R k rest lst ->
  exists l', splice_writes rest lst l l = (Ok (index lst), l') /\ log_rep l' (al_spliced R k rest) /\ fsync l' = fsync l.
Proof.
  intros Hr Hw Hs. pose proof Hr as [L1 L2 L3 L4 L5 L6 L7 L8]. pose proof (wf_length R Hw) as Hlen.
  unfold splice_writes. rewrite L5, (splice_ready_range R k rest lst Hs). unfold st_bind at 1.
  destruct (st_iter_set_spec rest l _ _ _ L1 L2 (sr_valid _ _ _ _ Hs)) as (e1 & -> & Hi1 & Hr1). unfold st_bind at 1.
  set (l1 := mkLog e1 _ _ _ _ _ _ _).
  destruct (st_iter_delete_spec (range_inclusive (k + Z.of_nat (length rest)) (al_last R)) l1 _ _ _ Hi1 Hr1)
    as (e2 & -> & Hi2 & Hr2).
  { apply Forall_forall. intros j Hj. apply elem_of_range_inclusive in Hj. pose proof (sr_start _ _ _ _ Hs). unfold is_u64. lia. }
  unfold st_bind at 1. set (l2 := mkLog e2 _ _ _ _ _ _ _).
  destruct (flush_if_fsync_spec l2 Hi2) as (e3 & -> & Hi3 & Ha3).
  eexists. split; [reflexivity|]. split; [|reflexivity].
  apply (splice_writes_rep l R k rest lst e3 Hr Hw Hs Hi3). rewrite Ha3. exact Hr2.
Qed.

Lemma segment_take R k n :
  al_wf R -> 1 <= k ->
  segment (al_entries R) (Included k, Included (k + Z.of_nat n - 1)) =
  take n (drop (Z.to_nat (k - 1)) (al_entries R)).
Proof.
  intros Hw Hk. assert (indexed_from 1 (al_entries R)) as Hi.
  { intros m e Hm. rewrite (proj1 (wf_entry R Hw m e Hm)). lia. }
  apply (StronglySorted_ext (fun a b => index a < index b)); [intros; lia|intros; lia|now apply segment_sorted| |].
  - rewrite <- (take_drop (Z.to_nat (k - 1)) (al_entries R)) in Hi.
    apply indexed_app in Hi as [_ Hi]. rewrite <- (take_drop n (drop _ _)) in Hi. apply indexed_app in Hi as [Hi _].
    set (m := Z.of_nat _) in Hi. clearbody m. revert Hi. generalize (take n (drop (Z.to_nat (k - 1)) (al_entries R))).
    generalize (1 + m). clear. intros b l; revert b. induction l as [|e l IH]; intros b Hi; [constructor|].
    apply indexed_cons in Hi as [H1 H2]. constructor; [exact (IH _ H2)|]. apply List.Forall_forall.
    intros e' F. apply list_elem_of_In, list_elem_of_lookup in F as [i F]. rewrite (H2 i e' F). lia.
  - intros e. rewrite segment_In, entry_at_Some by exact Hw. unfold in_index_range. cbn [fst snd].
    rewrite andb_true_iff, Z.leb_le, Z.leb_le, <- list_elem_of_In, list_elem_of_lookup. split.
    + intros [[H1 H2] H3]. exists (Z.to_nat (index e - k)). rewrite lookup_take_lt by lia. rewrite lookup_drop.
      rewrite <- H2. f_equal. lia.
    + intros [i F]. destruct (decide (i < n)%nat) as [Hin|Hin].
      * rewrite lookup_take_lt, lookup_drop in F by exact Hin. rewrite (Hi _ _ F).
        split; [split; [lia|]|lia]. rewrite <- F. f_equal. lia.
      * apply lookup_lt_Some in F. rewrite length_take in F. lia.
Qed.

(** A splice has nothing to write (or panics before it does), or writes. *)
Definition splice_case (l : Log E) (R : alog) (out : outcome Index * Log E) (aout : outcome Index * alog) : Prop :=
  (out = (aout.1, l) /\ aout.2 = R) \/
  exists k rest lst, splice_ready R k rest lst /\ out = splice_writes rest lst l l /\
    aout = (Ok (index lst), al_spliced R k rest).

Lemma splice_cases (l : Log E) R es :
  log_rep l R -> al_wf R -> Forall entry_valid es -> al_last R + Z.of_nat (length es) < u64_max ->
  splice_case l R (splice es l) (al_splice es R).
Proof.
  intros Hr Hw Hv Hmax. unfold splice, al_splice.
  destruct (head es) as [first|] eqn:Hh; [|left; rewrite (lr_last l R Hr); auto].
  destruct (last es) as [lst|] eqn:Hl; [|left; rewrite (lr_last l R Hr); auto].
  unfold st_bind at 1, st_assert at 1. destruct ((0 <? index first) && (0 <? term first))%bool eqn:Hpos; cbn [negb]; [|left; auto].
  apply andb_true_iff in Hpos as [Hpos%Z.ltb_lt _].
  unfold st_bind at 1, st_assert at 1. destruct (windows_all (fun a b => u64_add (index a) 1 =? index b) es) eqn:Hwin; cbn [negb]; [|left; auto].
  unfold st_bind at 1, st_assert at 1. destruct (windows_all (fun a b => term a <=? term b) es) eqn:Hterms; cbn [negb]; [|left; auto].
  unfold st_bind at 1, st_assert at 1. rewrite (lr_term l R Hr).
  destruct (term lst <=? al_term R) eqn:Hterm; cbn [negb]; [|left; auto].
  assert (is_u64 (index first)) as Hfu by (rewrite Forall_forall in Hv; apply Hv; destruct es; inv Hh; apply elem_of_cons; auto).
  rewrite u64_small by (unfold is_u64 in *; lia).
  unfold st_bind at 1, st_read at 1. rewrite (log_get_spec l R) by (auto; unfold is_u64 in *; lia).
  set (bad := match entry_at (al_entries R) (index first - 1) with
    Some base => if term first <? term base then Some "splice term regression" else None
    | None => if index first =? 1 then None else Some "first index must touch existing log" end).
  assert (match bad with
    | Some msg => exists l', (match entry_at (al_entries R) (index first - 1) with
         | Some base => st_assert (negb (term first <? term base)) "splice term regression"
         | None => st_assert (index first =? 1) "first index must touch existing log" end) l = (Panic msg, l') /\ l' = l
    | None => (match entry_at (al_entries R) (index first - 1) with
         | Some base => st_assert (negb (term first <? term base)) "splice term regression"
         | None => st_assert (index first =? 1) "first index must touch existing log" end) l = (Ok tt, l) /\
         index first <= al_last R + 1
    end) as Hbad.
  { unfold bad. destruct (entry_at (al_entries R) (index first - 1)) as [base|] eqn:Eb; unfold st_assert.
    - assert (1 <= index first - 1 <= al_last R) by (apply entry_at_range; eauto).
      destruct (term first <? term base); cbn [negb]; [eauto|]. split; [reflexivity|lia].
    - destruct (Z.eqb_spec (index first) 1); [|eauto]. split; [reflexivity|]. unfold al_last; lia. }
  unfold st_bind at 1. destruct bad as [msg|].
  { destruct Hbad as (l' & -> & ->). left. auto. }
  destruct Hbad as [-> Hle].
  assert (indexed_from (index first) es) as Hidx by (apply windows_indexed; auto; lia).
  pose proof (indexed_last _ _ _ Hidx Hl) as Hlidx.
  assert (0 < Z.of_nat (length es)) as Hlpos by (destruct es; [discriminate|cbn; lia]).
  unfold st_bind at 1, st_read. rewrite (log_scan_spec l R); [|assumption..|unfold index_range_ok, is_u64 in *; cbn [fst snd]; lia].
  unfold st_bind at 1, st_lift. set (old := segment _ _).
  destruct (splice_skip (map Ok old) es) as [rest|err|p] eqn:Eskip; [|left; auto|left; auto].
  destruct (splice_skip_prefix old es rest Eskip) as (pre & Ees & Hpre).
  destruct rest as [|next rest]; [left; rewrite (lr_last l R Hr); auto|].
  unfold st_bind at 1, st_assert. rewrite (lr_commit l R Hr).
  destruct (Z.ltb_spec (al_commit R) (index next)) as [Hc|Hc]; cbn [negb]; [|left; auto].
  rewrite Ees in Hidx, Hl, Hv. apply indexed_app in Hidx as [_ Hidx]. rewrite Forall_app in Hv.
  assert (index next = index first + Z.of_nat (length pre)) as Hnext by (apply indexed_cons in Hidx as [-> _]; reflexivity).
  assert (index first + Z.of_nat (length pre) <= al_last R + 1) as Hple.
  { unfold old in Hpre. rewrite Hlidx, segment_take in Hpre by (auto; lia). apply prefix_length in Hpre.
    rewrite length_take, length_drop in Hpre. unfold al_last in *. lia. }
  rewrite last_app in Hl. destruct (last (next :: rest)) as [lst'|] eqn:Hl'; [|now apply last_None in Hl']. inv Hl.
  right. exists (index next), (next :: rest), lst. split; [|split; [reflexivity|reflexivity]].
  rewrite Hnext in *. split; [lia|lia|discriminate|assumption|assumption|apply Hv|].
  rewrite length_app in Hmax. cbn [length] in *. lia.
Qed.

Lemma splice_spec (l : Log E) R es :
  log_rep l R -> al_wf R -> Forall entry_valid es -> al_last R + Z.of_nat (length es) < u64_max ->
  exists l', splice es l = ((al_splice es R).1, l') /\ log_rep l' (al_splice es R).2 /\ fsync l' = fsync l.
Proof.
  intros Hr Hw Hv Hmax. destruct (splice_cases l R es Hr Hw Hv Hmax) as [[Es Ea]|(k & rest & lst & Hs & Es & Ea)].
  - exists l. rewrite Ea. auto.
  - destruct (splice_writes_spec l R k rest lst Hr Hw Hs) as (l' & Ew & Hr' & Hf). exists l'. rewrite Es, Ea. auto.
Qed.

End Refinement.
