(* ===== verification/RaftLogClaims.v ===== *)
(** * The promises of the Raft log

    The properties of [src/raft/log.rs] over any sequence of operations from an
    empty engine, on any storage engine and value codec. *)
From S2P Require Import Prelude Bytes Keycode KeycodeTheory Btree Engine Memory Bincode RaftLog RaftLogTheory.

(** ** Splice outcomes *)

(** What a successful splice does to the abstract log: either all the entries
    were present, or they replace the log from their first index on, without
    touching a committed index. *)
Definition spliced (es : list Entry) (R R' : alog) (i : Index) : Prop :=
  (R' = R /\ i = al_last R /\
   forall first, head es = Some first ->
     1 <= index first /\ es = take (length es) (drop (Z.to_nat (index first - 1)) (al_entries R))) \/
  (exists first lst, head es = Some first /\ last es = Some lst /\ i = index lst /\
     1 <= index first <= al_last R + 1 /\ indexed_from (index first) es /\
     1 <= term first /\ windows_all (fun a b => term a <=? term b) es = true /\ term lst <= al_term R /\
     (forall base, entry_at (al_entries R) (index first - 1) = Some base -> term base <= term first) /\
     R' = mkAlog (take (Z.to_nat (index first - 1)) (al_entries R) ++ es) (al_term R) (al_vote R) (al_commit R) /\
     take (Z.to_nat (al_commit R)) (al_entries R') = take (Z.to_nat (al_commit R)) (al_entries R)).

Lemma take_prefix_drop {A} (l pre : list A) n m :
  pre `prefix_of` take m (drop n l) -> take n l ++ pre = take (n + length pre) l.
Proof.
  intros [k Hk]. rewrite <- take_take_drop. f_equal.
  assert (take (length pre) (take m (drop n l)) = pre) as Ht by (rewrite Hk; apply take_app_length).
  assert (length pre <= m)%nat.
  { apply (f_equal length) in Hk. rewrite length_app, length_take in Hk. lia. }
  rewrite take_take in Ht. now rewrite Nat.min_l in Ht by assumption.
Qed.

Lemma al_splice_ok es R i R' :
  al_wf R -> Forall entry_valid es -> al_last R + Z.of_nat (length es) < u64_max ->
  al_splice es R = (Ok i, R') -> spliced es R R' i.
Proof.
  intros Hw Hv Hmax. unfold al_splice.
  destruct (head es) as [first|] eqn:Hh; [|intros [= <- <-]; left; rewrite Hh; now repeat split].
  destruct (last es) as [lst|] eqn:Hl; [|apply last_None in Hl as ->; discriminate].
  destruct ((0 <? index first) && (0 <? term first))%bool eqn:Hpos; cbn [negb]; [|discriminate]. zify_bools.
  destruct (windows_all _ es) eqn:Hwin; cbn [negb]; [|discriminate].
  destruct (windows_all (fun a b => term a <=? term b) es) eqn:Hterms; cbn [negb]; [|discriminate].
  destruct (Z.leb_spec (term lst) (al_term R)); cbn [negb]; [|discriminate].
  destruct (match entry_at (al_entries R) (index first - 1) with Some _ => _ | None => _ end) as [msg|] eqn:Hbad; [discriminate|].
  assert (index first <= al_last R + 1 /\
          forall base, entry_at (al_entries R) (index first - 1) = Some base -> term base <= term first) as [Hle Hbase].
  { destruct (entry_at _ _) as [base|] eqn:Eb.
    - assert (1 <= index first - 1 <= al_last R) by (apply entry_at_range; eauto).
      destruct (Z.ltb_spec (term first) (term base)); [discriminate|]. split; [lia|]. now intros ? [= <-].
    - destruct (Z.eqb_spec (index first) 1); [|discriminate]. split; [unfold al_last; lia|discriminate]. }
  assert (indexed_from (index first) es) as Hidx by (apply windows_indexed; auto; lia).
  pose proof (indexed_last _ _ _ Hidx Hl) as Hlidx.
  rewrite Hlidx, segment_take by (auto; lia).
  destruct (splice_skip _ es) as [rest|err|p] eqn:Eskip; [|discriminate|discriminate].
  destruct (splice_skip_prefix _ _ _ Eskip) as (pre & Ees & Hpre).
  destruct rest as [|next rest].
  { intros [= <- <-]. left. do 2 (split; [reflexivity|]). rewrite Hh. intros ? [= <-]. split; [lia|]. rewrite app_nil_r in Ees. subst pre.
    destruct Hpre as [k Hk]. pose proof (f_equal (take (length es)) Hk) as Ht.
    rewrite take_take, Nat.min_id, take_app_length in Ht. congruence. }
  destruct (Z.ltb_spec (al_commit R) (index next)) as [Hc|]; cbn [negb]; [|discriminate].
  intros [= <- <-]. right. exists first, lst.
  assert (index next = index first + Z.of_nat (length pre)) as Hnext.
  { rewrite Ees in Hidx. apply indexed_app in Hidx as [_ Hidx]. apply indexed_cons in Hidx as [-> _]. reflexivity. }
  assert (take (Z.to_nat (index next - 1)) (al_entries R) ++ next :: rest =
          take (Z.to_nat (index first - 1)) (al_entries R) ++ es) as Heq.
  { rewrite Ees. rewrite app_assoc, (take_prefix_drop _ _ _ _ Hpre). do 2 f_equal. lia. }
  pose proof (wf_commit R Hw) as Hcm. cbn [al_entries]. repeat (split; [first [assumption|lia|reflexivity|now rewrite Heq]|]).
  rewrite take_app_le.
  - rewrite take_take. f_equal. lia.
  - apply prefix_length in Hpre. rewrite length_take, length_drop in Hpre. unfold al_last in *.
    rewrite length_take. lia.
Qed.

Lemma al_splice_stuck es R r R' :
  al_splice es R = (r, R') -> match r with Ok _ => True | _ => R' = R end.
Proof.
  unfold al_splice. intros E.
  repeat (case_match; simplify_eq; try exact I; try reflexivity).
Qed.

(** ** Operations *)
Inductive log_op : Type :=
  | OpTermVote (t : Term) (v : option NodeID)
  | OpAppend (c : option bytes)
  | OpCommit (i : Index)
  | OpSplice (es : list Entry)
  | OpRestart.

Definition log_op_valid (op : log_op) : Prop :=
  match op with
  | OpTermVote t v => term_vote_valid (t, v)
  | OpAppend _ | OpRestart => True
  | OpCommit i => is_u64 i
  | OpSplice es => Forall entry_valid es
  end.

(** The number of entries an operation can add. *)
Definition log_op_size (op : log_op) : Z :=
  match op with
  | OpAppend _ => 1
  | OpSplice es => Z.of_nat (length es)
  | _ => 0
  end.
Definition log_ops_size (ops : list log_op) : Z := foldr (fun op n => log_op_size op + n) 0 ops.

Definition al_op (op : log_op) (R : alog) : outcome (option Index) * alog :=
  match op with
  | OpTermVote t v => prod_map (outcome_map (fun _ => None)) id (al_set_term_vote t v R)
  | OpAppend c => prod_map (outcome_map Some) id (al_append c R)
  | OpCommit i => prod_map (outcome_map Some) id (al_commit_to i R)
  | OpSplice es => prod_map (outcome_map Some) id (al_splice es R)
  | OpRestart => (Ok None, R)
  end.

(** How a log may evolve: terms and commit indexes do not regress, the vote of
    a term is cast once, committed entries never change. *)
Record al_evolves (R R' : alog) : Prop := {
  ev_term : al_term R <= al_term R';
  ev_vote n : al_term R' = al_term R -> al_vote R = Some n -> al_vote R' = Some n;
  ev_commit : al_commit R <= al_commit R';
  ev_prefix : take (Z.to_nat (al_commit R)) (al_entries R') = take (Z.to_nat (al_commit R)) (al_entries R);
}.

#[export] Instance al_evolves_preorder : PreOrder al_evolves.
Proof.
  split.
  - intros R. now split.
  - intros R1 R2 R3 [T1 V1 C1 P1] [T2 V2 C2 P2]. split; [lia| |lia|].
    + intros n Ht Hv. apply V2; [lia|]. apply V1; [lia|exact Hv].
    + rewrite <- P1. pose proof (f_equal (take (Z.to_nat (al_commit R1))) P2) as F.
      rewrite !take_take, !Nat.min_l in F by lia. exact F.
Qed.

(** ** Every operation preserves the log invariants *)
Lemma al_set_term_vote_ok t v R r R' :
  al_wf R -> term_vote_valid (t, v) -> al_set_term_vote t v R = (r, R') -> al_wf R' /\ al_evolves R R'.
Proof.
  intros Hw [Hv1 Hv2] E. cbn [fst snd] in *. unfold al_set_term_vote in E.
  destruct (Z.ltb_spec 0 t); cbn [negb] in E; [|now inv E].
  destruct (Z.leb_spec (al_term R) t); cbn [negb] in E; [|now inv E].
  destruct (_ || _)%bool eqn:Hc in E; cbn [negb] in E; inv E; [|now split].
  split; split; cbn [al_entries al_term al_vote al_commit]; try apply Hw; auto; try lia.
  - intros n e Hn. destruct (wf_entry R Hw n e Hn). split; [assumption|lia].
  - intros n Ht Hn. rewrite Ht, Hn, Z.ltb_irrefl in Hc. cbn in Hc. now apply bool_decide_eq_true in Hc.
Qed.

Lemma wf_snoc R e :
  al_wf R -> index e = al_last R + 1 -> term e = al_term R -> 1 <= al_term R -> al_last R + 1 < u64_max ->
  al_wf (mkAlog (al_entries R ++ [e]) (al_term R) (al_vote R) (al_commit R)).
Proof.
  intros Hw Hi Ht H1 Hmax. pose proof (wf_commit R Hw). unfold al_last in *.
  split; unfold al_last; cbn [al_entries al_term al_vote al_commit]; rewrite ?length_app; cbn [length]; try apply Hw; try lia.
  - intros n x Hn. apply lookup_app_Some in Hn as [Hn|[Hge Hn]]; [exact (wf_entry R Hw n x Hn)|].
    apply list_lookup_singleton_Some in Hn as [Hz <-]. lia.
  - intros n m x y Hn Hm Hle. apply lookup_app_Some in Hn as [Hn|[Hge Hn]], Hm as [Hm|[Hge' Hm]].
    + exact (wf_sorted R Hw n m x y Hn Hm Hle).
    + apply list_lookup_singleton_Some in Hm as [_ <-]. rewrite Ht. apply (wf_entry R Hw n x Hn).
    + apply lookup_lt_Some in Hm. lia.
    + apply list_lookup_singleton_Some in Hn as [_ <-], Hm as [_ <-]. lia.
Qed.

Lemma al_append_ok c R r R' :
  al_wf R -> al_last R + 1 < u64_max -> al_append c R = (r, R') -> al_wf R' /\ al_evolves R R'.
Proof.
  intros Hw Hmax E. unfold al_append in E. destruct (Z.ltb_spec 0 (al_term R)); cbn [negb] in E; inv E; [|now split].
  pose proof (wf_commit R Hw). split; [apply wf_snoc; auto; lia|].
  split; cbn [al_entries al_term al_vote al_commit]; auto; try lia. apply take_app_le. unfold al_last in *. lia.
Qed.

Lemma al_commit_to_ok i R r R' :
  al_wf R -> al_commit_to i R = (r, R') -> al_wf R' /\ al_evolves R R'.
Proof.
  intros Hw E. unfold al_commit_to in E. destruct (entry_at _ _) as [e|] eqn:Ee; [|now inv E].
  assert (1 <= i <= al_last R) by (apply entry_at_range; eauto).
  destruct (Z.ltb_spec i (al_commit R)); inv E; [now split|].
  split; split; cbn [al_entries al_term al_vote al_commit]; try apply Hw; auto; unfold al_last in *; cbn [al_entries]; lia.
Qed.

Lemma windows_term es n m a b :
  windows_all (fun x y => term x <=? term y) es = true ->
  es !! n = Some a -> es !! m = Some b -> (n <= m)%nat -> term a <= term b.
Proof.
  revert n m a b; induction es as [|x es IH]; intros n m a b Hw Hn Hm Hle; [discriminate|].
  destruct es as [|y es].
  { apply list_lookup_singleton_Some in Hn as [_ <-], Hm as [_ <-]. lia. }
  cbn [windows_all] in Hw. apply andb_true_iff in Hw as [Hxy%Z.leb_le Hw].
  destruct n as [|n], m as [|m]; cbn in Hn, Hm; simplify_eq; [lia| |lia|].
  - pose proof (IH 0%nat m y b Hw eq_refl Hm ltac:(lia)). lia.
  - apply (IH n m a b Hw Hn Hm). lia.
Qed.

Lemma spliced_ok es R R' i :
  al_wf R -> al_last R + Z.of_nat (length es) < u64_max -> spliced es R R' i -> al_wf R' /\ al_evolves R R'.
Proof.
  intros Hw Hmax [(-> & _)|(f & l & Hh & Hl & _ & Hf & Hidx & Ht & Hterms & Hterm & Hbase & -> & Hpre)]; [now split|].
  pose proof (wf_commit R Hw) as Hc. cbn [al_entries] in Hpre.
  assert (forall n e, es !! n = Some e -> 1 <= term e <= al_term R) as Hes.
  { intros n e Hn. rewrite head_lookup in Hh. rewrite last_lookup in Hl.
    pose proof (windows_term es 0 n f e Hterms Hh Hn ltac:(lia)). apply lookup_lt_Some in Hn as Hlt.
    pose proof (windows_term es n _ e l Hterms Hn Hl ltac:(lia)). lia. }
  set (k := Z.to_nat (index f - 1)) in *.
  assert (length (take k (al_entries R)) = k) as Hk by (rewrite length_take; unfold al_last in *; lia).
  split; [|split; cbn [al_entries al_term al_vote al_commit]; auto; lia].
  split; unfold al_last; cbn [al_entries al_term al_vote al_commit]; rewrite ?length_app, ?Hk; try apply Hw.
  - intros n e Hn. apply lookup_app_Some in Hn as [Hn|[Hge Hn]].
    + apply lookup_take_Some in Hn as [Hn _]. exact (wf_entry R Hw n e Hn).
    + rewrite (Hidx _ _ Hn), Hk in *. split; [lia|eapply Hes; eauto].
  - intros n m x y Hn Hm Hle. apply lookup_app_Some in Hn as [Hn|[Hge Hn]], Hm as [Hm|[Hge' Hm]].
    + apply lookup_take_Some in Hn as [Hn _], Hm as [Hm _]. exact (wf_sorted R Hw n m x y Hn Hm Hle).
    + apply lookup_take_Some in Hn as [Hn Hlt]. rewrite head_lookup in Hh.
      pose proof (windows_term es 0 _ f y Hterms Hh Hm ltac:(lia)).
      assert (is_Some (entry_at (al_entries R) (index f - 1))) as [base Hb] by (apply entry_at_range; unfold al_last in *; lia).
      specialize (Hbase base Hb). apply entry_at_Some in Hb as [_ Hb].
      pose proof (wf_sorted R Hw _ _ _ _ Hn Hb ltac:(lia)). lia.
    + apply lookup_take_Some in Hm as [Hm Hlt]. lia.
    + apply (windows_term es _ _ x y Hterms Hn Hm). lia.
  - unfold al_last in *. lia.
  - apply (f_equal length) in Hpre. rewrite !length_take, length_app, Hk in Hpre. unfold al_last in *. lia.
Qed.

Lemma al_op_ok op R :
  al_wf R -> log_op_valid op -> al_last R + log_op_size op < u64_max ->
  al_wf (al_op op R).2 /\ al_evolves R (al_op op R).2 /\ al_last (al_op op R).2 <= al_last R + log_op_size op.
Proof.
  intros Hw Hv Hmax. destruct op as [t v|c|i|es|]; cbn [al_op snd prod_map id log_op_size log_op_valid] in *.
  - destruct (al_set_term_vote t v R) as [r R'] eqn:E. destruct (al_set_term_vote_ok t v R r R' Hw Hv E).
    split; [assumption|]. split; [assumption|]. unfold al_set_term_vote in E. unfold al_last; repeat case_match; inv E; cbn; lia.
  - destruct (al_append c R) as [r R'] eqn:E. destruct (al_append_ok c R r R' Hw Hmax E).
    split; [assumption|]. split; [assumption|]. unfold al_append in E. unfold al_last. case_match; inv E; cbn; rewrite ?length_app; cbn; lia.
  - destruct (al_commit_to i R) as [r R'] eqn:E. destruct (al_commit_to_ok i R r R' Hw E).
    split; [assumption|]. split; [assumption|]. unfold al_commit_to in E. unfold al_last; repeat case_match; inv E; cbn; lia.
  - destruct (al_splice es R) as [[i|e|p] R'] eqn:E; cbn [snd prod_map fst id]; unfold id.
    2,3: rewrite (al_splice_stuck _ _ _ _ E); split; [assumption|]; split; [reflexivity|lia].
    apply al_splice_ok in E; [|assumption..]. destruct (spliced_ok _ _ _ _ Hw Hmax E).
    split; [assumption|]. split; [assumption|].
    destruct E as [(-> & _)|(f & l & _ & _ & _ & Hf & _ & _ & _ & _ & _ & -> & _)]; [lia|].
    unfold al_last in *. cbn [al_entries]. rewrite length_app, length_take. lia.
  - split; [assumption|]. split; [reflexivity|lia].
Qed.

(** ** Runs *)
Fixpoint run_all {S Op A} (f : Op -> stM S A) (ops : list Op) (s : S) : list (outcome A) * S :=
  match ops with
  | [] => ([], s)
  | op :: ops' => let '(r, s1) := f op s in let '(rs, s2) := run_all f ops' s1 in (r :: rs, s2)
  end.

Lemma run_all_app {S Op A} (f : Op -> stM S A) ops1 ops2 s :
  (run_all f (ops1 ++ ops2) s).2 = (run_all f ops2 (run_all f ops1 s).2).2.
Proof.
  revert s; induction ops1 as [|op ops1 IH]; intros s; cbn [run_all app]; [reflexivity|].
  destruct (f op s) as [r s1]. specialize (IH s1).
  destruct (run_all f (ops1 ++ ops2) s1) as [rs s2], (run_all f ops1 s1) as [rs' s3]. exact IH.
Qed.

Lemma log_ops_size_nonneg ops : 0 <= log_ops_size ops.
Proof.
  unfold log_ops_size. induction ops as [|[] ops IH]; cbn; lia.
Qed.

Lemma log_ops_size_app ops1 ops2 : log_ops_size (ops1 ++ ops2) = log_ops_size ops1 + log_ops_size ops2.
Proof. unfold log_ops_size. induction ops1 as [|op ops1 IH]; cbn; lia. Qed.

Lemma al_run_ok ops R :
  al_wf R -> Forall log_op_valid ops -> al_last R + log_ops_size ops < u64_max ->
  let R' := (run_all al_op ops R).2 in
  al_wf R' /\ al_evolves R R' /\ al_last R' <= al_last R + log_ops_size ops.
Proof.
  revert R; induction ops as [|op ops IH]; intros R Hw Hv Hs; cbn [run_all].
  { cbn. split; [assumption|]. split; [reflexivity|]. lia. }
  apply Forall_cons in Hv as [Hv Hvs]. cbn [log_ops_size foldr] in Hs. fold (log_ops_size ops) in Hs.
  pose proof (log_ops_size_nonneg ops) as Hnn.
  destruct (al_op_ok op R Hw Hv ltac:(lia)) as (Hw1 & He1 & Hl1).
  destruct (al_op op R) as [r R1]. cbn [snd] in *.
  destruct (IH R1 Hw1 Hvs ltac:(lia)) as (Hw2 & He2 & Hl2).
  destruct (run_all al_op ops R1) as [rs R2]. cbn [snd] in *.
  split; [assumption|]. split; [etransitivity; eassumption|]. cbn. fold (log_ops_size ops). lia.
Qed.

Lemma alog_empty_wf : al_wf alog_empty.
Proof. split; cbn; try easy; unfold u64_max; lia. Qed.

Section Claims.
Context {E : Type} `{EngineReads E} {EW : EngineWrites E}.
Context {BE : Bincode entry_valid} {BT : Bincode term_vote_valid} {BC : Bincode is_u64_pair}.

(** A restart reopens the log from its engine. *)
Definition log_restart : stM (Log E) unit := fun l =>
  match log_new (engine l) with
  | Ok l' => (Ok tt, l')
  | Err e => (Err e, l)
  | Panic p => (Panic p, l)
  end.

Definition log_op_run (op : log_op) : stM (Log E) (option Index) :=
  match op with
  | OpTermVote t v => set_term_vote t v ;;; st_ret None
  | OpAppend c => let! i := append c in st_ret (Some i)
  | OpCommit i => let! i := commit i in st_ret (Some i)
  | OpSplice es => let! i := splice es in st_ret (Some i)
  | OpRestart => log_restart ;;; st_ret None
  end.

(** Everything the log can be asked agrees with the abstract log. *)
Definition log_agrees (l : Log E) (R : alog) : Prop :=
  get_term_vote l = (al_term R, al_vote R) /\
  get_last_index l = (al_last R, term_at (al_entries R) (al_last R)) /\
  get_commit_index l = (al_commit R, term_at (al_entries R) (al_commit R)) /\
  (forall i, is_u64 i -> get i l = Ok (entry_at (al_entries R) i)) /\
  (forall i t, is_u64 i -> has i t l = Ok (al_has i t R)) /\
  (forall r, index_range_ok r -> scan r l = Ok (map Ok (segment (al_entries R) r))) /\
  (forall i, is_u64 i -> scan_apply i l = Ok (map Ok (al_scan_apply i R))).

Lemma log_rep_agrees l R : log_rep l R -> al_wf R -> log_agrees l R.
Proof.
  intros Hr Hw. unfold log_agrees, get_term_vote, get_last_index, get_commit_index.
  rewrite (lr_term l R Hr), (lr_vote l R Hr), (lr_last l R Hr), (lr_last_term l R Hr),
    (lr_commit l R Hr), (lr_commit_term l R Hr).
  do 3 (split; [reflexivity|]).
  split; [intros; now apply log_get_spec|]. split; [intros; now apply has_spec|].
  split; intros; [now apply log_scan_spec|now apply scan_apply_spec].
Qed.

Lemma log_op_spec op l R :
  log_rep l R -> al_wf R -> log_op_valid op -> al_last R + log_op_size op < u64_max ->
  exists l', log_op_run op l = ((al_op op R).1, l') /\ log_rep l' (al_op op R).2.
Proof.
  intros Hr Hw Hv Hs. destruct op as [t v|c|i|es|];
    cbn [log_op_run al_op fst snd prod_map log_op_valid log_op_size] in *; unfold st_bind, st_ret.
  - destruct (set_term_vote_spec l R t v Hr Hw Hv) as (l' & -> & Hr' & _). exists l'.
    destruct (al_set_term_vote t v R) as [[] R']; auto.
  - destruct (log_append_spec l R c Hr Hw Hs) as (l' & -> & Hr' & _). exists l'.
    destruct (al_append c R) as [[] R']; auto.
  - destruct (log_commit_spec l R i Hr Hw Hv) as (l' & -> & Hr' & _). exists l'.
    destruct (al_commit_to i R) as [[] R']; auto.
  - destruct (splice_spec l R es Hr Hw Hv Hs) as (l' & -> & Hr' & _). exists l'.
    destruct (al_splice es R) as [[] R']; auto.
  - unfold log_restart. rewrite (log_new_spec l R Hr Hw). eexists. split; [reflexivity|].
    destruct Hr; now split.
Qed.

Lemma log_run_spec ops l R :
  log_rep l R -> al_wf R -> Forall log_op_valid ops -> al_last R + log_ops_size ops < u64_max ->
  (run_all log_op_run ops l).1 = (run_all al_op ops R).1 /\
  log_rep (run_all log_op_run ops l).2 (run_all al_op ops R).2 /\ al_wf (run_all al_op ops R).2.
Proof.
  revert l R; induction ops as [|op ops IH]; intros l R Hr Hw Hv Hs; cbn [run_all]; [auto|].
  apply Forall_cons in Hv as [Hv Hvs]. cbn [log_ops_size foldr] in Hs. fold (log_ops_size ops) in Hs.
  pose proof (log_ops_size_nonneg ops).
  destruct (al_op_ok op R Hw Hv ltac:(lia)) as (Hw1 & _ & Hl1).
  destruct (log_op_spec op l R Hr Hw Hv ltac:(lia)) as (l1 & -> & Hr1).
  destruct (al_op op R) as [r R1]. cbn [fst snd] in *.
  destruct (IH l1 R1 Hr1 Hw1 Hvs ltac:(lia)) as (E1 & Hr2 & Hw2).
  destruct (run_all al_op ops R1) as [rs R2], (run_all log_op_run ops l1) as [rs' l2]. cbn [fst snd] in *.
  subst. auto.
Qed.

Lemma log_new_empty e :
  engine_inv e -> engine_abs e = ∅ ->
  log_new e = Ok (mkLog e 0 None 0 0 0 0 true) /\ log_rep (mkLog e 0 None 0 0 0 0 true) alog_empty.
Proof.
  intros Hi Ha. assert (log_rep (mkLog e 0 None 0 0 0 0 true) alog_empty) as Hr.
  { split; try reflexivity; [exact Hi|]. cbn [engine]. rewrite Ha.
    split; intros; rewrite ?lookup_empty; try reflexivity.
    - unfold entry_at. cbn. now destruct (1 <=? i).
    - destruct H1 as [x F]. rewrite lookup_empty in F. discriminate. }
  split; [|exact Hr]. exact (log_new_spec _ _ Hr alog_empty_wf).
Qed.

(** Open a log and run a sequence of operations on it. *)
Definition log_session (e : E) (ops : list log_op) : outcome (list (outcome (option Index)) * Log E) :=
  let? l := log_new e in Ok (run_all log_op_run ops l).

(** A session on an empty engine, of valid arguments, that fits the index type. *)
Record session_ok (e : E) (ops : list log_op) : Prop := {
  so_inv : engine_inv e;
  so_empty : engine_abs e = ∅;
  so_valid : Forall log_op_valid ops;
  so_size : log_ops_size ops < u64_max;
}.

Lemma log_session_rep e ops :
  session_ok e ops ->
  exists l, log_session e ops = Ok ((run_all al_op ops alog_empty).1, l) /\
    log_rep l (run_all al_op ops alog_empty).2 /\ al_wf (run_all al_op ops alog_empty).2.
Proof.
  intros [Hi Ha Hv Hs]. destruct (log_new_empty e Hi Ha) as [En Hr]. unfold log_session. rewrite En. cbn [outcome_bind].
  destruct (log_run_spec ops _ _ Hr alog_empty_wf Hv Hs) as (E1 & Hr' & Hw).
  destruct (run_all log_op_run ops _) as [rs l]. cbn [fst snd] in *. subst. eauto.
Qed.

Lemma log_session_inv e ops rs l :
  session_ok e ops -> log_session e ops = Ok (rs, l) ->
  log_rep l (run_all al_op ops alog_empty).2 /\ al_wf (run_all al_op ops alog_empty).2.
Proof. intros Hok El. destruct (log_session_rep e ops Hok) as (l' & El' & Hr). rewrite El in El'. now inv El'. Qed.

(** C26: the Raft log implements the log of the Raft paper: on any storage
    engine that keeps its contract, any sequence of [set_term_vote], [append],
    [commit], [splice] and restarts from an empty engine gives exactly the
    results of the operations on an abstract log (a list of entries, the term,
    the vote and the commit index), the panics on misuse included; afterwards
    the cached metadata, [get], [has], every [scan] and [scan_apply] observe
    exactly that abstract log. *)
Theorem raft_log_refines (e : E) (ops : list log_op) :
  session_ok e ops ->
  exists l, log_session e ops = Ok ((run_all al_op ops alog_empty).1, l) /\
            log_agrees l (run_all al_op ops alog_empty).2.
Proof.
  intros Hok. destruct (log_session_rep e ops Hok) as (l & El & Hr & Hw). eauto using log_rep_agrees.
Qed.

(** The documented log invariants hold after any operations: the indexes
    with an entry are exactly 1 to the last index, each entry carries its own
    index and a term from 1 to the current term, terms never decrease along
    the log, and the commit index lies within the log. *)
Theorem raft_log_invariants (e : E) (ops : list log_op) rs (l : Log E) :
  session_ok e ops -> log_session e ops = Ok (rs, l) ->
  (forall i, is_u64 i -> exists o, get i l = Ok o /\
     (is_Some o <-> 1 <= i <= last_index l) /\
     (forall x, o = Some x -> index x = i /\ 1 <= term x <= log_term l)) /\
  (forall i j x y, is_u64 i -> is_u64 j -> i <= j ->
     get i l = Ok (Some x) -> get j l = Ok (Some y) -> term x <= term y) /\
  0 <= commit_index l <= last_index l.
Proof.
  intros Hok El. destruct (log_session_inv e ops rs l Hok El) as [Hr Hw].
  rewrite (lr_last _ _ Hr), (lr_term _ _ Hr), (lr_commit _ _ Hr). split; [|split; [|apply Hw]].
  - intros i Hi. rewrite (log_get_spec _ _ _ Hr Hw Hi). eexists. split; [reflexivity|].
    split; [apply entry_at_range|]. intros x Hx. now apply wf_index.
  - intros i j x y Hi Hj Hle. rewrite (log_get_spec _ _ _ Hr Hw Hi), (log_get_spec _ _ _ Hr Hw Hj). intros [= Hx] [= Hy].
    apply entry_at_Some in Hx as [Hi1 Hx], Hy as [Hj1 Hy]. apply (wf_sorted _ Hw _ _ _ _ Hx Hy). lia.
Qed.

(** Durability and safety of a log across any further operations and
    restarts: the term and the commit index never regress, a vote cast in a
    term is never changed in that term, and every committed entry stays as it
    is. *)
Theorem raft_log_stable (e : E) (ops1 ops2 : list log_op) rs1 rs2 (l1 l2 : Log E) :
  session_ok e (ops1 ++ ops2) ->
  log_session e ops1 = Ok (rs1, l1) -> log_session e (ops1 ++ ops2) = Ok (rs2, l2) ->
  log_term l1 <= log_term l2 /\
  (forall n, log_term l2 = log_term l1 -> log_vote l1 = Some n -> log_vote l2 = Some n) /\
  commit_index l1 <= commit_index l2 /\
  (forall i, 1 <= i <= commit_index l1 -> exists x, get i l1 = Ok (Some x) /\ get i l2 = Ok (Some x)).
Proof.
  intros Hok E1 E2. destruct (Hok) as [Hi Ha [Hv1 Hv2]%Forall_app Hs].
  rewrite log_ops_size_app in Hs. pose proof (log_ops_size_nonneg ops2) as Hn2.
  assert (session_ok e ops1) as Hok1 by (split; auto; lia).
  destruct (log_session_inv _ _ _ _ Hok1 E1) as [Hr1 Hw1], (log_session_inv _ _ _ _ Hok E2) as [Hr2 Hw2].
  destruct (al_run_ok ops1 alog_empty alog_empty_wf Hv1 ltac:(unfold al_last; cbn; lia)) as (_ & _ & Hl1).
  rewrite run_all_app in Hr2, Hw2. set (R1 := (run_all al_op ops1 alog_empty).2) in *.
  assert (al_last R1 <= log_ops_size ops1) as Hl1' by (unfold al_last in *; cbn in *; lia).
  destruct (al_run_ok ops2 R1 Hw1 Hv2 ltac:(lia)) as (_ & [T V C P] & _).
  set (R2 := (run_all al_op ops2 R1).2) in *.
  rewrite (lr_term _ _ Hr1), (lr_term _ _ Hr2), (lr_vote _ _ Hr1), (lr_vote _ _ Hr2), (lr_commit _ _ Hr1), (lr_commit _ _ Hr2).
  split; [exact T|]. split; [exact V|]. split; [exact C|]. intros i Hci.
  pose proof (wf_commit R1 Hw1). pose proof (wf_length R1 Hw1).
  destruct (entry_at (al_entries R1) i) as [x|] eqn:Hx; [|apply entry_at_None in Hx; unfold al_last in *; lia].
  exists x. rewrite (log_get_spec _ _ i Hr1 Hw1), (log_get_spec _ _ i Hr2 Hw2) by (unfold is_u64; lia).
  rewrite Hx. split; [reflexivity|]. do 2 f_equal. apply entry_at_Some in Hx as [_ Hx]. apply entry_at_Some.
  split; [lia|]. pose proof (f_equal (lookup (Z.to_nat (i - 1))) P) as F.
  rewrite !lookup_take_lt in F by lia. congruence.
Qed.

(** A successful [splice] of entries puts every one of them at its index
    and keeps the log below their first index; it returns the last index of
    the new log, which is either unchanged, when all the entries were already
    there, or the index of the last spliced entry. *)
Theorem raft_log_splice (e : E) (ops : list log_op) rs (l l' : Log E) (es : list Entry) i :
  session_ok e ops -> log_session e ops = Ok (rs, l) ->
  Forall entry_valid es -> log_ops_size ops + Z.of_nat (length es) < u64_max ->
  splice es l = (Ok i, l') ->
  (forall x, In x es -> get (index x) l' = Ok (Some x)) /\
  (forall first j, head es = Some first -> is_u64 j -> j < index first -> get j l' = get j l) /\
  i = last_index l' /\
  (last_index l' = last_index l /\ (forall j, is_u64 j -> get j l' = get j l) \/
   exists lst, last es = Some lst /\ i = index lst).
Proof.
  intros Hok El Hv Hs Es. destruct (log_session_inv _ _ _ _ Hok El) as [Hr Hw].
  destruct Hok as [_ _ Hvs Hs'].
  destruct (al_run_ok ops alog_empty alog_empty_wf Hvs ltac:(unfold al_last; cbn; lia)) as (_ & _ & Hl).
  set (R := (run_all al_op ops alog_empty).2) in *. change (al_last alog_empty) with 0 in Hl. clearbody R.
  destruct (splice_spec l R es Hr Hw Hv ltac:(lia)) as (l1 & Es1 & Hr' & _). rewrite Es in Es1. inv Es1.
  destruct (al_splice es R) as [r R'] eqn:Ea. cbn [fst snd] in *. subst r.
  apply al_splice_ok in Ea; [|assumption|assumption|lia].
  destruct (spliced_ok es R R' i Hw ltac:(lia) Ea) as [Hw' _].
  pose proof (wf_length R' Hw') as Hlen'. rewrite (lr_last _ _ Hr'), (lr_last _ _ Hr).
  destruct Ea as [(-> & -> & Hall)|(f & lst & Hh & Hlast & -> & Hf & Hidx & _ & _ & _ & _ & -> & _)].
  - assert (forall j, is_u64 j -> get j l1 = get j l) as Hsame by (intros j Hj; now rewrite !(log_get_spec _ R) by assumption).
    split; [|auto 10]. intros x Hx. destruct es as [|f es]; [easy|]. destruct (Hall f eq_refl) as [Hf1 Hes].
    assert (entry_at (al_entries R) (index x) = Some x) as Hat.
    { apply wf_In; [exact Hw|]. rewrite Hes in Hx. apply list_elem_of_In in Hx. apply list_elem_of_In.
      apply list_elem_of_lookup in Hx as [n Hx]. apply lookup_take_Some in Hx as [Hx _]. rewrite lookup_drop in Hx.
      now apply list_elem_of_lookup_2 in Hx. }
    rewrite Hsame, (log_get_spec _ R) by (auto; apply (wf_entry_valid R _ _ Hw Hat)). now rewrite Hat.
  - set (R' := mkAlog _ _ _ _) in *. set (k := Z.to_nat (index f - 1)) in *.
    assert (length (take k (al_entries R)) = k) as Hk by (rewrite length_take; unfold al_last in *; lia).
    split; [|split; [|split; [|eauto]]].
    + intros x Hx. assert (entry_at (al_entries R') (index x) = Some x) as Hat.
      { apply wf_In; [exact Hw'|]. cbn [al_entries R']. apply in_app_iff. auto. }
      rewrite (log_get_spec _ R') by (auto; apply (wf_entry_valid R' _ _ Hw' Hat)). now rewrite Hat.
    + intros f' j Hf' Hj Hlt. rewrite Hh in Hf'. inv Hf'. rewrite (log_get_spec _ R'), (log_get_spec _ R) by assumption.
      unfold entry_at. destruct (Z.leb_spec 1 j); [|reflexivity]. cbn [al_entries R'].
      rewrite lookup_app_l by (rewrite Hk; lia). now rewrite lookup_take_lt by lia.
    + unfold al_last. cbn [al_entries R']. rewrite length_app, Hk, (indexed_last _ _ _ Hidx Hlast). lia.
Qed.

End Claims.

(** ** Witnesses

    Fixed-width codecs for the values of the log, over the memory engine. *)
Module LogSample.

Import Sample.

Definition pair_ser (p : Z * Z) : bytes := u64_ser p.1 ++ u64_ser p.2.
Definition pair_de (b : bytes) : outcome (Z * Z) :=
  let? x := u64_de (take 8 b) in let? y := u64_de (drop 8 b) in Ok (x, y).

Lemma take_u64_ser z rest : take 8 (u64_ser z ++ rest) = u64_ser z.
Proof. rewrite <- (length_to_be_bytes 8 z). apply take_app_length. Qed.
Lemma drop_u64_ser z rest : drop 8 (u64_ser z ++ rest) = rest.
Proof. rewrite <- (length_to_be_bytes 8 z). apply drop_app_length. Qed.

Lemma pair_de_ser p : is_u64_pair p -> pair_de (pair_ser p) = Ok p.
Proof.
  intros [H1 H2]. destruct p as [x y]. unfold pair_de, pair_ser. rewrite take_u64_ser, drop_u64_ser. cbn [fst snd] in *.
  now rewrite !u64_de_ser by assumption.
Qed.

#[export] Instance pair_bincode : Bincode is_u64_pair :=
  {| bincode_serialize := pair_ser; bincode_deserialize := pair_de; bincode_roundtrip := pair_de_ser |}.

Definition entry_ser (e : Entry) : bytes := u64_ser (index e) ++ u64_ser (term e) ++ opt_ser (command e).
Definition entry_de (b : bytes) : outcome Entry :=
  let? i := u64_de (take 8 b) in
  let? t := u64_de (take 8 (drop 8 b)) in
  let? c := opt_de (drop 8 (drop 8 b)) in
  Ok (mkEntry i t c).

Lemma entry_de_ser e : entry_valid e -> entry_de (entry_ser e) = Ok e.
Proof.
  intros [H1 H2]. destruct e as [i t c]. unfold entry_de, entry_ser. cbn [index term command] in *.
  rewrite take_u64_ser, drop_u64_ser, take_u64_ser, drop_u64_ser, !u64_de_ser, opt_de_ser by easy. reflexivity.
Qed.

#[export] Instance entry_bincode : Bincode entry_valid :=
  {| bincode_serialize := entry_ser; bincode_deserialize := entry_de; bincode_roundtrip := entry_de_ser |}.

Definition tv_ser (p : Term * option NodeID) : bytes :=
  u64_ser p.1 ++ u64_ser (match p.2 with Some n => n + 1 | None => 0 end).
Definition tv_de (b : bytes) : outcome (Term * option NodeID) :=
  let? p := pair_de b in Ok (p.1, if p.2 =? 0 then None else Some (p.2 - 1)).

Lemma tv_de_ser p : term_vote_valid p -> tv_de (tv_ser p) = Ok p.
Proof.
  intros [H1 H2]. destruct p as [t v]. unfold tv_de, tv_ser. cbn [fst snd] in *.
  change (u64_ser t ++ _) with (pair_ser (t, match v with Some n => n + 1 | None => 0 end)).
  rewrite pair_de_ser. 2: { split; [exact H1|]. unfold is_u64, u64_max. destruct v; cbn; unfold u8_max in *; lia. }
  destruct v as [n|]; cbn; [|reflexivity]. destruct (Z.eqb_spec (n + 1) 0); [lia|]. do 3 f_equal. lia.
Qed.

#[export] Instance tv_bincode : Bincode term_vote_valid :=
  {| bincode_serialize := tv_ser; bincode_deserialize := tv_de; bincode_roundtrip := tv_de_ser |}.

(** A leader's log with a noop and a command, and a follower's log that a new
    leader overwrites past its commit index. *)
Definition ops1 : list log_op :=
  [OpTermVote 1 (Some 2); OpAppend None; OpAppend (Some [x07]); OpAppend (Some [x08]); OpCommit 2].
Definition ops2 : list log_op :=
  [OpRestart; OpTermVote 2 None; OpSplice [mkEntry 2 1 (Some [x07]); mkEntry 3 2 None; mkEntry 4 2 (Some [x09])];
   OpCommit 1; OpTermVote 1 None; OpCommit 4].

Lemma session1_ok : session_ok (memory_new) ops1.
Proof.
  split; [apply memory_new_inv|reflexivity| |reflexivity].
  repeat constructor; vm_compute; easy.
Defined.

Lemma session12_ok : session_ok (memory_new) (ops1 ++ ops2).
Proof.
  split; [apply memory_new_inv|reflexivity| |reflexivity].
  repeat constructor; vm_compute; easy.
Defined.

End LogSample.
Import LogSample.

(** The session of the samples: the panics of the two misuses included. *)
Lemma raft_log_refines_witness :
  exists l, log_session memory_new (ops1 ++ ops2) =
    Ok ([Ok None; Ok (Some 1); Ok (Some 2); Ok (Some 3); Ok (Some 2);
         Ok None; Ok None; Ok (Some 4); Panic "commit index regression"; Panic "term regression"; Ok (Some 4)], l) /\
    log_agrees l (mkAlog [mkEntry 1 1 None; mkEntry 2 1 (Some [x07]); mkEntry 3 2 None; mkEntry 4 2 (Some [x09])]
                    2 None 4).
Proof. exact (raft_log_refines memory_new (ops1 ++ ops2) session12_ok). Defined.

Lemma raft_log_invariants_witness :
  exists rs l, log_session memory_new ops1 = Ok (rs, l) /\ last_index l = 3 /\ 0 <= commit_index l <= last_index l.
Proof.
  eexists _, _. split; [vm_compute; reflexivity|]. split; [reflexivity|].
  eapply (raft_log_invariants memory_new ops1); [exact session1_ok|vm_compute; reflexivity].
Defined.

Lemma raft_log_stable_witness :
  exists rs1 rs2 l1 l2, log_session memory_new ops1 = Ok (rs1, l1) /\
    log_session memory_new (ops1 ++ ops2) = Ok (rs2, l2) /\ commit_index l1 = 2 /\ last_index l2 = 4 /\
    (forall i, 1 <= i <= commit_index l1 -> exists x, get i l1 = Ok (Some x) /\ get i l2 = Ok (Some x)).
Proof.
  eexists _, _, _, _. split; [vm_compute; reflexivity|]. split; [vm_compute; reflexivity|].
  split; [reflexivity|]. split; [reflexivity|].
  eapply (raft_log_stable memory_new ops1 ops2); [exact session12_ok|vm_compute; reflexivity|vm_compute; reflexivity].
Defined.

(** Entry 2 is present, entry 3 conflicts and is replaced. *)
Lemma raft_log_splice_witness :
  exists rs l l', log_session memory_new (ops1 ++ [OpTermVote 2 None]) = Ok (rs, l) /\
    splice [mkEntry 2 1 (Some [x07]); mkEntry 3 2 None] l = (Ok 3, l') /\
    (forall x, In x [mkEntry 2 1 (Some [x07]); mkEntry 3 2 None] -> get (index x) l' = Ok (Some x)).
Proof.
  eexists _, _, _. split; [vm_compute; reflexivity|]. split; [vm_compute; reflexivity|].
  eapply (raft_log_splice memory_new (ops1 ++ [OpTermVote 2 None])).
  - split; [apply memory_new_inv|reflexivity| |reflexivity]. repeat constructor; vm_compute; easy.
  - vm_compute; reflexivity.
  - repeat constructor; vm_compute; easy.
  - reflexivity.
  - vm_compute; reflexivity.
Defined.
