(* ===== verification/RaftNode.v ===== *)
(** * Raft nodes ([src/raft/node.rs], [src/raft/message.rs], [src/raft/state.rs])

    A node is driven by [step] (an inbound message) and [tick] (time).  Its
    role is a type parameter of [RawNode], as in the source.  A method with
    [&mut self] is a [stM] computation on the node; a method that consumes the
    node returns a [stepped] value: the new node, or the failure together with
    what the failed node leaves behind (its log and the messages it has sent).

    Parameters: the storage engine and codecs of the log, the state machine
    ([State]), the random generator ([Rng], the rand crate) and the channel for
    outbound messages ([Channel], crossbeam). *)
From S2P Require Import Prelude Bytes Keycode Btree Engine Bincode RaftLog.

Abbreviation Ticks := Z.
Abbreviation RequestID := Z.
Abbreviation ReadSequence := Z.

(** [a + b] on [u8] in a release build. *)
Definition u8_add (a b : Z) : Z := wrap_u 8 (a + b).

(** ** Messages *)
Inductive Request : Type :=
  | ReqRead (command : bytes)
  | ReqWrite (command : bytes)
  | ReqStatus.

Record RaftStatus : Type := mkRaftStatus {
  rs_leader : NodeID;
  rs_term : Term;
  rs_match_index : gmap NodeID Index;
  rs_commit_index : Index;
  rs_applied_index : Index;
  rs_storage : Status;
}.

Inductive Response : Type :=
  | RespRead (result : bytes)
  | RespWrite (result : bytes)
  | RespStatus (status : RaftStatus).

Inductive Message : Type :=
  | Campaign (last_index : Index) (last_term : Term)
  | CampaignResponse (vote : bool)
  | Heartbeat (last_index commit_index : Index) (read_seq : ReadSequence)
  | HeartbeatResponse (match_index : Index) (read_seq : ReadSequence)
  | Append (base_index : Index) (base_term : Term) (entries : list Entry)
  | AppendResponse (match_index reject_index : Index)
  | MRead (seq : ReadSequence)
  | ReadResponse (seq : ReadSequence)
  | ClientRequest (id : RequestID) (request : Request)
  | ClientResponse (id : RequestID) (response : Response + Error).

Record Envelope : Type := mkEnvelope {
  env_from : NodeID;
  env_term : Term;
  env_to : NodeID;
  env_message : Message;
}.

(** ** Interfaces *)

(** The state machine ([trait State]): commands and results are bytes, [read]
    has no effect. *)
Class State (S : Type) : Type := {
  get_applied_index : S -> Index;
  state_apply : Entry -> stM S bytes;
  state_read : bytes -> S -> outcome bytes;
}.

(** The random generator: [random_range] draws from a non-empty range. *)
Class Rng (G : Type) : Type := {
  random_range : Z * Z -> stM G Z;
  random_range_spec r g : r.1 < r.2 ->
    exists v g', random_range r g = (Ok v, g') /\ r.1 <= v < r.2;
}.

(** An outbound channel, with the messages sent on it: a send either succeeds
    or, when the receiver is gone, fails without effect. *)
Class Channel (T : Type) : Type := {
  channel_send : Envelope -> stM T unit;
  channel_sent : T -> list Envelope;
  channel_send_spec m t :
    (exists t', channel_send m t = (Ok tt, t') /\ channel_sent t' = channel_sent t ++ [m]) \/
    (exists e, channel_send m t = (Err e, t));
}.

(** ** Node state *)
Record Options : Type := mkOptions {
  heartbeat_interval : Ticks;
  election_timeout_range : Z * Z;
  max_append_entries : nat;
}.

Definition HEARTBEAT_INTERVAL : Ticks := 4.
Definition ELECTION_TIMEOUT_RANGE : Z * Z := (10, 20).
Definition MAX_APPEND_ENTRIES : nat := 100.
Definition default_options : Options :=
  mkOptions HEARTBEAT_INTERVAL ELECTION_TIMEOUT_RANGE MAX_APPEND_ENTRIES.

Record Follower : Type := mkFollower {
  leader : option NodeID;
  leader_seen : Ticks;
  f_election_timeout : Ticks;
  forwarded : gset RequestID;
}.

Definition follower_role (l : option NodeID) (election_timeout : Ticks) : Follower :=
  mkFollower l 0 election_timeout ∅.

Record Candidate : Type := mkCandidate {
  votes : gset NodeID;
  election_duration : Ticks;
  c_election_timeout : Ticks;
}.

Definition candidate_role (election_timeout : Ticks) : Candidate := mkCandidate ∅ 0 election_timeout.

Record Progress : Type := mkProgress {
  match_index : Index;
  next_index : Index;
  p_read_seq : ReadSequence;
}.

Record Write : Type := mkWrite { w_from : NodeID; w_id : RequestID }.
Record Read : Type := mkRead { r_seq : ReadSequence; r_from : NodeID; r_id : RequestID; r_command : bytes }.

Record Leader : Type := mkLeader {
  progress : gmap NodeID Progress;
  writes : gmap Index Write;
  reads : list Read;
  l_read_seq : ReadSequence;
  since_heartbeat : Ticks;
}.

Definition leader_role (peers : gset NodeID) (last_index : Index) : Leader :=
  mkLeader (gset_to_gmap (mkProgress 0 (u64_add last_index 1) 0) peers) ∅ [] 0 0.

(** [Progress::advance], [advance_read] and [regress_next]: the new progress
    and whether it changed. *)
Definition advance (m : Index) (p : Progress) : bool * Progress :=
  if m <=? match_index p then (false, p)
  else (true, mkProgress m (Z.max (next_index p) (u64_add m 1)) (p_read_seq p)).
Definition advance_read (seq : ReadSequence) (p : Progress) : bool * Progress :=
  if seq <=? p_read_seq p then (false, p)
  else (true, mkProgress (match_index p) (next_index p) seq).
Definition regress_next (next : Index) (p : Progress) : bool * Progress :=
  if (next_index p <=? next) || (next_index p <=? u64_add (match_index p) 1) then (false, p)
  else (true, mkProgress (match_index p) (Z.max next (u64_add (match_index p) 1)) (p_read_seq p)).

Section Node.
Context {E S T G : Type}.

Record RawNode {R : Type} : Type := mkNode {
  node_id : NodeID;
  peers : gset NodeID;
  log : Log E;
  state : S;
  tx : T;
  opts : Options;
  rng : G;
  role : R;
}.
Arguments RawNode R : clear implicits.

Inductive Node : Type :=
  | NCandidate (n : RawNode Candidate)
  | NFollower (n : RawNode Follower)
  | NLeader (n : RawNode Leader).

(** The outcome of a method that consumes the node. *)
Inductive stepped (A : Type) : Type :=
  | Done (a : A)
  | Failed (e : Error) (dropped : RawNode unit)
  | Panicked (msg : string) (dropped : RawNode unit).

Definition into_role {R Q} (r : Q) (n : RawNode R) : RawNode Q :=
  mkNode Q (node_id n) (peers n) (log n) (state n) (tx n) (opts n) (rng n) r.

End Node.
Arguments RawNode E S T G R : clear implicits.
Arguments mkNode {E S T G R} _ _ _ _ _ _ _ _.
Arguments Node E S T G : clear implicits.
Arguments stepped E S T G A : clear implicits.
Arguments Done {E S T G A} _.
Arguments Failed {E S T G A} _ _.
Arguments Panicked {E S T G A} _ _.

(** Call a [&mut self] method, or a consuming one, from a consuming method. *)
Definition call {E S T G R A B} (m : stM (RawNode E S T G R) A) (n : RawNode E S T G R)
    (k : A -> RawNode E S T G R -> stepped E S T G B) : stepped E S T G B :=
  match m n with
  | (Ok a, n') => k a n'
  | (Err e, n') => Failed e (into_role tt n')
  | (Panic p, n') => Panicked p (into_role tt n')
  end.
Definition and_then {E S T G A B} (m : stepped E S T G A) (k : A -> stepped E S T G B) : stepped E S T G B :=
  match m with
  | Done a => k a
  | Failed e d => Failed e d
  | Panicked p d => Panicked p d
  end.
Definition check {E S T G R B} (b : bool) (msg : string) (n : RawNode E S T G R)
    (k : stepped E S T G B) : stepped E S T G B :=
  if b then k else Panicked msg (into_role tt n).
Notation "'call!' x , n := m 'on' n0 'in' k" := (call m n0 (fun x n => k))
  (at level 10, x binder, n binder, m at level 100, n0 at level 100, k at level 200) : toydb_scope.
Notation "'then!' x := m 'in' k" := (and_then m (fun x => k))
  (at level 10, x binder, m at level 100, k at level 200) : toydb_scope.

Section RaftNode.
Context {E S T G : Type} `{Engine E} `{State S} `{Channel T} `{Rng G}.
Context {BE : Bincode entry_valid} {BT : Bincode term_vote_valid} {BC : Bincode is_u64_pair}.
Abbreviation RawNode := (RawNode E S T G).
Abbreviation Node := (Node E S T G).
Abbreviation stepped := (stepped E S T G).

(** ** Any role *)
Section AnyRole.
Context {R : Type}.

Definition with_log {A} (f : stM (Log E) A) : stM (RawNode R) A := fun n =>
  let '(r, l) := f (log n) in
  (r, mkNode (node_id n) (peers n) l (state n) (tx n) (opts n) (rng n) (role n)).
Definition with_state {A} (f : stM S A) : stM (RawNode R) A := fun n =>
  let '(r, s) := f (state n) in
  (r, mkNode (node_id n) (peers n) (log n) s (tx n) (opts n) (rng n) (role n)).
Definition with_tx {A} (f : stM T A) : stM (RawNode R) A := fun n =>
  let '(r, t) := f (tx n) in
  (r, mkNode (node_id n) (peers n) (log n) (state n) t (opts n) (rng n) (role n)).
Definition with_rng {A} (f : stM G A) : stM (RawNode R) A := fun n =>
  let '(r, g) := f (rng n) in
  (r, mkNode (node_id n) (peers n) (log n) (state n) (tx n) (opts n) g (role n)).
Definition update_role (f : R -> R) : stM (RawNode R) unit :=
  st_modify (fun n => into_role (f (role n)) n).

Definition node_term (n : RawNode R) : Term := (get_term_vote (log n)).1.
Definition cluster_size (n : RawNode R) : nat := (size (peers n) + 1)%nat.
Definition quorum_size (n : RawNode R) : nat := (cluster_size n / 2 + 1)%nat.

(** [select_nth_unstable_by] with the reversed order: the element at that
    position of the vector sorted in descending order. *)
Definition quorum_value (values : list Z) (n : RawNode R) : outcome Z :=
  if negb (length values =? cluster_size n)%nat then Panic "vector size must match cluster size"
  else match merge_sort Z.ge values !! (quorum_size n - 1)%nat with
       | Some v => Ok v
       | None => Panic "partition_at_index index out of bounds"
       end.

Definition random_election_timeout : stM (RawNode R) Ticks := fun n =>
  with_rng (random_range (election_timeout_range (opts n))) n.

Definition send_via (msg : Envelope) : stM (RawNode R) unit := with_tx (channel_send msg).
Definition send (to : NodeID) (message : Message) : stM (RawNode R) unit := fun n =>
  send_via (mkEnvelope (node_id n) (node_term n) to message) n.

(** [peers.iter().sorted()] *)
Definition sorted_set (s : gset Z) : list Z := merge_sort Z.le (elements s).
Definition broadcast (message : Message) : stM (RawNode R) unit := fun n =>
  st_iter (fun id => send id message) (sorted_set (peers n)) n.

End AnyRole.

(** ** Followers *)
Definition abort_forwarded : stM (RawNode Follower) unit := fun n =>
  (update_role (fun r => mkFollower (leader r) (leader_seen r) (f_election_timeout r) ∅) ;;;
   st_iter (fun id => send (node_id n) (ClientResponse id (inr Abort))) (sorted_set (forwarded (role n)))) n.

Definition maybe_apply : stM (RawNode Follower) unit :=
  let! items := st_read (fun n => scan_apply (get_applied_index (state n)) (log n)) in
  st_iter (fun item =>
    let! entry := st_lift item in
    fun n => match with_state (state_apply entry) n with
             | (Panic p, n') => (Panic p, n')
             | (_, n') => (Ok tt, n')
             end) items.

Definition follower_new (id : NodeID) (ps : gset NodeID) (l : Log E) (s : S) (t : T) (o : Options) (g : G) :
    stepped (RawNode Follower) :=
  let n := mkNode id ps l s t o g (follower_role None 0) in
  if bool_decide (id ∈ ps) then Failed (InvalidInput "node ID can't be in peers") (into_role tt n)
  else
    call! timeout, n := random_election_timeout on n in
    let n := into_role (follower_role None timeout) n in
    call! _, n := maybe_apply on n in
    Done n.

(** ** Candidates: campaigning *)
Definition campaign : stM (RawNode Candidate) unit := fun n =>
  (let! timeout := random_election_timeout in
   update_role (fun _ => mkCandidate {[node_id n]} 0 timeout) ;;;
   with_log (set_term_vote (u64_add (node_term n) 1) (Some (node_id n))) ;;;
   fun n => let '(last_index, last_term) := get_last_index (log n) in
            broadcast (Campaign last_index last_term) n) n.

(** ** Follower transitions *)
Definition follower_into_candidate (n : RawNode Follower) : stepped (RawNode Candidate) :=
  call! _, n := abort_forwarded on n in
  call! _, n := maybe_apply on n in
  call! timeout, n := random_election_timeout on n in
  let n := into_role (candidate_role timeout) n in
  call! _, n := campaign on n in
  let '(term, vote) := get_term_vote (log n) in
  check (bool_decide (node_id n ∈ votes (role n))) "candidate did not vote for self" n (
  check (negb (term =? 0)) "candidate can't have term 0" n (
  check (bool_decide (vote = Some (node_id n))) "log vote does not match self" n (
  Done n))).

Definition follower_into_follower (term : Term) (l : option NodeID) (n : RawNode Follower) :
    stepped (RawNode Follower) :=
  check (negb (term =? 0)) "can't become follower in term 0" n (
  call! _, n := abort_forwarded on n in
  match l with
  | Some leader' =>
      check (bool_decide (leader' ∈ peers n)) "leader is not a peer" n (
      check (bool_decide (leader (role n) = None)) "already have leader in term" n (
      check (term =? node_term n) "can't follow leader in different term" n (
      Done (into_role (follower_role (Some leader') (f_election_timeout (role n))) n))))
  | None =>
      check (negb (term =? node_term n)) "can't become leaderless follower in current term" n (
      call! _, n := with_log (set_term_vote term None) on n in
      call! timeout, n := random_election_timeout on n in
      Done (into_role (follower_role None timeout) n))
  end).

(** Make sure a message is from our leader, or follow its sender. *)
Definition ensure_leader (msg : Envelope) (n : RawNode Follower) : stepped (RawNode Follower) :=
  match leader (role n) with
  | Some l => check (env_from msg =? l) "multiple leaders in term" n (Done n)
  | None => follower_into_follower (env_term msg) (Some (env_from msg)) n
  end.

(** ** Follower steps *)
Definition follower_heartbeat (msg : Envelope) (last_index commit_index' : Index) (read_seq : ReadSequence)
    (n : RawNode Follower) : stepped (RawNode Follower) :=
  check (commit_index' <=? last_index) "commit_index after last_index" n (
  then! n := ensure_leader msg n in
  call! matched, n := st_read (fun n => has last_index (env_term msg) (log n)) on n in
  let match_index := if matched : bool then last_index else 0 in
  call! _, n := send (env_from msg) (HeartbeatResponse match_index read_seq) on n in
  if negb (match_index =? 0) && ((get_commit_index (log n)).1 <? commit_index') then
    call! _, n := with_log (commit commit_index') on n in
    call! _, n := maybe_apply on n in
    Done n
  else Done n).

Definition follower_append (msg : Envelope) (base_index : Index) (base_term : Term) (entries : list Entry)
    (n : RawNode Follower) : stepped (RawNode Follower) :=
  check (match head entries with Some first => base_index =? u64 (index first - 1) | None => true end)
    "base index mismatch" n (
  then! n := ensure_leader msg n in
  call! matched, n := st_read (fun n => if base_index =? 0 then Ok true else has base_index base_term (log n)) on n in
  if matched : bool then
    let match_index := match last entries with Some e => index e | None => base_index end in
    call! _, n := with_log (splice entries) on n in
    call! _, n := send (env_from msg) (AppendResponse match_index 0) on n in
    Done n
  else
    let reject_index := Z.min base_index (u64_add (get_last_index (log n)).1 1) in
    call! _, n := send (env_from msg) (AppendResponse 0 reject_index) on n in
    Done n).

Definition follower_campaign (msg : Envelope) (last_index : Index) (last_term : Term)
    (n : RawNode Follower) : stepped (RawNode Follower) :=
  if match (get_term_vote (log n)).2 with Some vote => negb (env_from msg =? vote) | None => false end then
    call! _, n := send (env_from msg) (CampaignResponse false) on n in Done n
  else
    let '(log_index, log_term) := get_last_index (log n) in
    if (last_term <? log_term) || (log_term =? last_term) && (last_index <? log_index) then
      call! _, n := send (env_from msg) (CampaignResponse false) on n in Done n
    else
      call! _, n := with_log (set_term_vote (env_term msg) (Some (env_from msg))) on n in
      call! _, n := send (env_from msg) (CampaignResponse true) on n in
      Done n.

Definition follower_client_request (msg : Envelope) (id : RequestID) (n : RawNode Follower) :
    stepped (RawNode Follower) :=
  check (env_from msg =? node_id n) "client request from other node" n (
  match leader (role n) with
  | Some l =>
      let r := role n in
      let n := into_role (mkFollower (leader r) (leader_seen r) (f_election_timeout r) ({[id]} ∪ forwarded r)) n in
      call! _, n := send l (env_message msg) on n in Done n
  | None =>
      call! _, n := send (env_from msg) (ClientResponse id (inr Abort)) on n in Done n
  end).

Definition follower_client_response (msg : Envelope) (id : RequestID) (response : Response + Error)
    (n : RawNode Follower) : stepped (RawNode Follower) :=
  check (bool_decide (Some (env_from msg) = leader (role n))) "client response from non-leader" n (
  let r := role n in
  if bool_decide (id ∈ forwarded r) then
    let n := into_role (mkFollower (leader r) (leader_seen r) (f_election_timeout r) (forwarded r ∖ {[id]})) n in
    call! _, n := send (node_id n) (ClientResponse id response) on n in Done n
  else Done n).

(** A message of the current term. *)
Definition follower_handle (msg : Envelope) (n : RawNode Follower) : stepped (RawNode Follower) :=
  let r := role n in
  let n := if bool_decide (Some (env_from msg) = leader r)
           then into_role (mkFollower (leader r) 0 (f_election_timeout r) (forwarded r)) n else n in
  match env_message msg with
  | Heartbeat last_index commit_index read_seq => follower_heartbeat msg last_index commit_index read_seq n
  | Append base_index base_term entries => follower_append msg base_index base_term entries n
  | MRead seq =>
      then! n := ensure_leader msg n in
      call! _, n := send (env_from msg) (ReadResponse seq) on n in Done n
  | Campaign last_index last_term => follower_campaign msg last_index last_term n
  | ClientRequest id _ => follower_client_request msg id n
  | ClientResponse id response => follower_client_response msg id response n
  | CampaignResponse _ => Done n
  | HeartbeatResponse _ _ | AppendResponse _ _ | ReadResponse _ =>
      Panicked "follower received unexpected message" (into_role tt n)
  end.

(** [RawNode<Follower>::step] calls itself again after it enters a new term;
    [fuel] bounds the number of calls. *)
Fixpoint follower_step_n (fuel : nat) (msg : Envelope) (n : RawNode Follower) : stepped Node :=
  match fuel with
  | O => Panicked "out of fuel" (into_role tt n)
  | Datatypes.S fuel' =>
      if env_term msg <? node_term n then Done (NFollower n)
      else if node_term n <? env_term msg then
        then! n := follower_into_follower (env_term msg) None n in
        follower_step_n fuel' msg n
      else then! n := follower_handle msg n in Done (NFollower n)
  end.

(** Two calls are enough: the second one is in the message's term. *)
Definition follower_step (msg : Envelope) (n : RawNode Follower) : stepped Node := follower_step_n 2 msg n.

Definition follower_tick (n : RawNode Follower) : stepped Node :=
  let r := role n in
  let seen := u8_add (leader_seen r) 1 in
  let n := into_role (mkFollower (leader r) seen (f_election_timeout r) (forwarded r)) n in
  if f_election_timeout r <=? seen then
    then! n := follower_into_candidate n in Done (NCandidate n)
  else Done (NFollower n).

(** ** Leaders *)
Definition get_progress (peer : NodeID) : stM (RawNode Leader) Progress := fun n =>
  match progress (role n) !! peer with
  | Some p => (Ok p, n)
  | None => (Panic "unknown node", n)
  end.
Definition set_progress (peer : NodeID) (p : Progress) : stM (RawNode Leader) unit :=
  update_role (fun r => mkLeader (<[peer := p]> (progress r)) (writes r) (reads r) (l_read_seq r) (since_heartbeat r)).
(** [self.progress(peer).f()] for a method of [Progress]. *)
Definition update_progress (peer : NodeID) (f : Progress -> bool * Progress) : stM (RawNode Leader) bool :=
  let! p := get_progress peer in
  set_progress peer (f p).2 ;;;
  st_ret (f p).1.

Definition maybe_send_append (peer : NodeID) (probe : bool) : stM (RawNode Leader) unit := fun n =>
  (let last_index := (get_last_index (log n)).1 in
   let! p := get_progress peer in
   st_assert (negb (next_index p =? 0)) "invalid next_index" ;;;
   st_assert (match_index p <? next_index p) "invalid next_index <= match_index" ;;;
   st_assert (match_index p <=? last_index) "invalid match_index > last_index" ;;;
   st_assert (next_index p <=? u64_add last_index 1) "invalid next_index > last_index + 1" ;;;
   if match_index p =? last_index then st_ret tt
   else
     let probe := probe && (u64_add (match_index p) 1 <? next_index p) in
     if (last_index <? next_index p) && negb probe then st_ret tt
     else
       let! base :=
         (if next_index p =? 0 then st_panic "next_index=0 for node"
          else if next_index p =? 1 then st_ret (0, 0)
          else let! o := st_read (fun n => get (next_index p - 1) (log n)) in
               match o with
               | Some e => st_ret (index e, term e)
               | None => st_panic "missing base entry"
               end) in
       let! entries :=
         (if probe then st_ret []
          else let! items := st_read (fun n => scan (Included (next_index p), Unbounded) (log n)) in
               st_lift (try_collect (take (max_append_entries (opts n)) items))) in
       match last entries with
       | Some e => set_progress peer (mkProgress (match_index p) (u64_add (index e) 1) (p_read_seq p))
       | None => st_ret tt
       end ;;;
       send peer (Append base.1 base.2 entries)) n.

Definition heartbeat : stM (RawNode Leader) unit := fun n =>
  let '(last_index, last_term) := get_last_index (log n) in
  let commit_index := (get_commit_index (log n)).1 in
  (st_assert (last_term =? node_term n) "leader's last_term not in current term" ;;;
   update_role (fun r => mkLeader (progress r) (writes r) (reads r) (l_read_seq r) 0) ;;;
   broadcast (Heartbeat last_index commit_index (l_read_seq (role n)))) n.

Definition propose (command : option bytes) : stM (RawNode Leader) Index := fun n =>
  (let! index := with_log (append command) in
   st_iter (fun peer =>
     let! p := get_progress peer in
     if index =? next_index p then maybe_send_append peer false else st_ret tt) (sorted_set (peers n)) ;;;
   st_ret index) n.

(** [Result::map] of a state machine result into a client response. *)
Definition to_response {S' A} (r : outcome A) (f : A -> Response) (k : Response + Error -> stM S' unit) : stM S' unit :=
  match r with
  | Ok a => k (inl (f a))
  | Err e => k (inr e)
  | Panic p => st_panic p
  end.

(** The loop that serves the reads up to a confirmed sequence number. *)
Fixpoint read_loop (quorum_read_seq : ReadSequence) (queue : list Read) : stM (RawNode Leader) unit :=
  match queue with
  | [] => st_ret tt
  | read :: queue' =>
      if quorum_read_seq <? r_seq read then st_ret tt
      else
        update_role (fun r => mkLeader (progress r) (writes r) queue' (l_read_seq r) (since_heartbeat r)) ;;;
        fun n =>
          (to_response (state_read (r_command read) (state n)) RespRead
             (fun resp => send (r_from read) (ClientResponse (r_id read) resp)) ;;;
           read_loop quorum_read_seq queue') n
  end.

Definition maybe_read : stM (RawNode Leader) unit := fun n =>
  match reads (role n) with
  | [] => (Ok tt, n)
  | queue =>
      let '(commit_index, commit_term) := get_commit_index (log n) in
      let applied_index := get_applied_index (state n) in
      if (commit_term <? node_term n) || (applied_index <? commit_index) then (Ok tt, n)
      else
        (let! quorum_read_seq :=
           st_read (quorum_value ((p_read_seq <$> (map_to_list (progress (role n))).*2) ++ [l_read_seq (role n)])) in
         read_loop quorum_read_seq queue) n
  end.

(** Apply one committed entry and answer the client that proposed it. *)
Definition apply_and_respond (t : Term) (entry : Entry) : stM (RawNode Leader) unit := fun n =>
  let write := writes (role n) !! index entry in
  (update_role (fun r => mkLeader (progress r) (delete (index entry) (writes r)) (reads r)
                           (l_read_seq r) (since_heartbeat r)) ;;;
   fun n =>
     match with_state (state_apply entry) n with
     | (Panic p, n') => (Panic p, n')
     | (result, n') =>
         match write with
         | Some w =>
             to_response result RespWrite
               (fun resp => send_via (mkEnvelope (node_id n') t (w_from w) (ClientResponse (w_id w) resp))) n'
         | None => (Ok tt, n')
         end
     end) n.

Definition maybe_commit_and_apply : stM (RawNode Leader) Index := fun n =>
  let last_index := (get_last_index (log n)).1 in
  (let! commit_index :=
     st_read (quorum_value ((match_index <$> (map_to_list (progress (role n))).*2) ++ [last_index])) in
   let '(old_index, old_term) := get_commit_index (log n) in
   if commit_index <=? old_index then st_ret old_index
   else
     let! o := st_read (fun n => get commit_index (log n)) in
     match o with
     | None => st_panic "commit index missing"
     | Some entry =>
         if negb (term entry =? node_term n) then st_ret old_index
         else
           with_log (commit commit_index) ;;;
           let! items := st_read (fun n => scan_apply (get_applied_index (state n)) (log n)) in
           st_iter (fun item => let! entry := st_lift item in apply_and_respond (node_term n) entry) items ;;;
           (fun n => if negb (old_term =? node_term n) then maybe_read n else (Ok tt, n)) ;;;
           st_ret commit_index
     end) n.

Definition leader_status : stM (RawNode Leader) RaftStatus := fun n =>
  (let! storage := st_read (fun n => log_status (log n)) in
   st_ret (mkRaftStatus (node_id n) (node_term n)
             (<[node_id n := (get_last_index (log n)).1]> (match_index <$> progress (role n)))
             (get_commit_index (log n)).1 (get_applied_index (state n)) storage)) n.

(** [sorted_by_key(|w| w.id)] *)
Definition write_le (a b : Write) : Prop := w_id a <= w_id b.
Definition read_le (a b : Read) : Prop := r_id a <= r_id b.
#[local] Instance write_le_dec a b : Decision (write_le a b) := Z.le_dec _ _.
#[local] Instance read_le_dec a b : Decision (read_le a b) := Z.le_dec _ _.

Definition leader_into_follower (t : Term) (n : RawNode Leader) : stepped (RawNode Follower) :=
  check (node_term n <? t) "leader can only become follower in later term" n (
  let ws := merge_sort write_le (map_to_list (writes (role n))).*2 in
  let rs := merge_sort read_le (reads (role n)) in
  call! _, n :=
    (update_role (fun r => mkLeader (progress r) ∅ (reads r) (l_read_seq r) (since_heartbeat r)) ;;;
     st_iter (fun w => send (w_from w) (ClientResponse (w_id w) (inr Abort))) ws ;;;
     update_role (fun r => mkLeader (progress r) (writes r) [] (l_read_seq r) (since_heartbeat r)) ;;;
     st_iter (fun r => send (r_from r) (ClientResponse (r_id r) (inr Abort))) rs ;;;
     with_log (set_term_vote t None)) on n in
  call! timeout, n := random_election_timeout on n in
  Done (into_role (follower_role None timeout) n)).

(** A message of the current term. *)
Definition leader_handle (msg : Envelope) : stM (RawNode Leader) unit := fun n =>
  let from := env_from msg in
  let last_index := (get_last_index (log n)).1 in
  match env_message msg with
  | HeartbeatResponse m seq =>
      (st_assert (m <=? last_index) "future match index" ;;;
       st_assert (seq <=? l_read_seq (role n)) "future read sequence number" ;;;
       let! advanced := update_progress from (advance_read seq) in
       (if advanced : bool then maybe_read else st_ret tt) ;;;
       (if m =? 0 then
          let! _ := update_progress from (regress_next last_index) in
          maybe_send_append from true
        else st_ret tt) ;;;
       let! advanced := update_progress from (advance m) in
       if advanced : bool then let! _ := maybe_commit_and_apply in st_ret tt else st_ret tt) n
  | AppendResponse m reject =>
      if (reject =? 0) && (0 <? m) then
        (st_assert (m <=? last_index) "future match index" ;;;
         let! advanced := update_progress from (advance m) in
         (if advanced : bool then let! _ := maybe_commit_and_apply in st_ret tt else st_ret tt) ;;;
         maybe_send_append from false) n
      else if (m =? 0) && (0 <? reject) then
        (st_assert (reject <=? last_index) "future reject index" ;;;
         let! p := get_progress from in
         if reject <=? match_index p then st_ret tt
         else
           let! regressed := update_progress from (regress_next reject) in
           if regressed : bool then maybe_send_append from true else st_ret tt) n
      else (Panic "invalid message", n)
  | ReadResponse seq =>
      (let! advanced := update_progress from (advance_read seq) in
       if advanced : bool then maybe_read else st_ret tt) n
  | ClientRequest id (ReqWrite command) =>
      (let! index := propose (Some command) in
       update_role (fun r => mkLeader (progress r) (<[index := mkWrite from id]> (writes r)) (reads r)
                               (l_read_seq r) (since_heartbeat r)) ;;;
       fun n => if (cluster_size n =? 1)%nat
                then (let! _ := maybe_commit_and_apply in st_ret tt) n else (Ok tt, n)) n
  | ClientRequest id (ReqRead command) =>
      let seq := u64_add (l_read_seq (role n)) 1 in
      (update_role (fun r => mkLeader (progress r) (writes r) (reads r ++ [mkRead seq from id command])
                               seq (since_heartbeat r)) ;;;
       broadcast (MRead seq) ;;;
       fun n => if (cluster_size n =? 1)%nat then maybe_read n else (Ok tt, n)) n
  | ClientRequest id ReqStatus =>
      to_response (leader_status n).1 RespStatus (fun resp => send from (ClientResponse id resp)) n
  | Campaign _ _ => send from (CampaignResponse false) n
  | CampaignResponse _ => (Ok tt, n)
  | Heartbeat _ _ _ | Append _ _ _ | MRead _ => (Panic "saw other leader in term", n)
  | ClientResponse _ _ => (Panic "unexpected message", n)
  end.

Definition leader_step (msg : Envelope) (n : RawNode Leader) : stepped Node :=
  if env_term msg <? node_term n then Done (NLeader n)
  else if node_term n <? env_term msg then
    then! n := leader_into_follower (env_term msg) n in follower_step msg n
  else call! _, n := leader_handle msg on n in Done (NLeader n).

Definition leader_tick (n : RawNode Leader) : stepped Node :=
  let since := u8_add (since_heartbeat (role n)) 1 in
  call! _, n :=
    (update_role (fun r => mkLeader (progress r) (writes r) (reads r) (l_read_seq r) since) ;;;
     if heartbeat_interval (opts n) <=? since then heartbeat else st_ret tt) on n in
  Done (NLeader n).

(** ** Candidates *)
Definition candidate_into_follower (t : Term) (l : option NodeID) (n : RawNode Candidate) :
    stepped (RawNode Follower) :=
  call! timeout, n := random_election_timeout on n in
  match l with
  | Some leader =>
      check (t =? node_term n) "can't follow leader in different term" n (
      Done (into_role (follower_role (Some leader) timeout) n))
  | None =>
      check (negb (t =? node_term n)) "can't become leaderless follower in current term" n (
      call! _, n := with_log (set_term_vote t None) on n in
      Done (into_role (follower_role None timeout) n))
  end.

Definition candidate_into_leader (n : RawNode Candidate) : stepped (RawNode Leader) :=
  let '(term, vote) := get_term_vote (log n) in
  check (negb (term =? 0)) "leaders can't have term 0" n (
  check (bool_decide (vote = Some (node_id n))) "leader did not vote for self" n (
  let n := into_role (leader_role (peers n) (get_last_index (log n)).1) n in
  call! _, n := (let! _ := propose None in let! _ := maybe_commit_and_apply in heartbeat) on n in
  Done n)).

Definition candidate_step (msg : Envelope) (n : RawNode Candidate) : stepped Node :=
  if env_term msg <? node_term n then Done (NCandidate n)
  else if node_term n <? env_term msg then
    then! n := candidate_into_follower (env_term msg) None n in follower_step msg n
  else
    match env_message msg with
    | CampaignResponse true =>
        let r := role n in
        let n := into_role (mkCandidate ({[env_from msg]} ∪ votes r) (election_duration r) (c_election_timeout r)) n in
        if (quorum_size n <=? size (votes (role n)))%nat then
          then! n := candidate_into_leader n in Done (NLeader n)
        else Done (NCandidate n)
    | CampaignResponse false => Done (NCandidate n)
    | Campaign _ _ =>
        call! _, n := send (env_from msg) (CampaignResponse false) on n in Done (NCandidate n)
    | Heartbeat _ _ _ | Append _ _ _ | MRead _ =>
        then! n := candidate_into_follower (env_term msg) (Some (env_from msg)) n in follower_step msg n
    | ClientRequest id _ =>
        call! _, n := send (env_from msg) (ClientResponse id (inr Abort)) on n in Done (NCandidate n)
    | HeartbeatResponse _ _ | AppendResponse _ _ | ReadResponse _ | ClientResponse _ _ =>
        Panicked "unexpected message" (into_role tt n)
    end.

Definition candidate_tick (n : RawNode Candidate) : stepped Node :=
  let r := role n in
  let duration := u8_add (election_duration r) 1 in
  let n := into_role (mkCandidate (votes r) duration (c_election_timeout r)) n in
  if c_election_timeout r <=? duration then
    call! _, n := campaign on n in Done (NCandidate n)
  else Done (NCandidate n).

(** ** The public interface *)
Definition node_new (id : NodeID) (ps : gset NodeID) (l : Log E) (s : S) (t : T) (o : Options) (g : G) : stepped Node :=
  then! n := follower_new id ps l s t o g in
  if (cluster_size n =? 1)%nat then
    then! n := follower_into_candidate n in
    then! n := candidate_into_leader n in
    Done (NLeader n)
  else Done (NFollower n).

(** The parts every role has. *)
Definition core (n : Node) : RawNode unit :=
  match n with
  | NCandidate n => into_role tt n
  | NFollower n => into_role tt n
  | NLeader n => into_role tt n
  end.

Definition step (msg : Envelope) (n : Node) : stepped Node :=
  let c := core n in
  check (env_to msg =? node_id c) "message to other node" c (
  check (bool_decide (env_from msg ∈ peers c) || (env_from msg =? node_id c)) "unknown sender" c (
  match n with
  | NCandidate n => candidate_step msg n
  | NFollower n => follower_step msg n
  | NLeader n => leader_step msg n
  end)).

Definition tick (n : Node) : stepped Node :=
  match n with
  | NCandidate n => candidate_tick n
  | NFollower n => follower_tick n
  | NLeader n => leader_tick n
  end.

End RaftNode.
