(* ===== verification/RaftNodeTheory.v ===== *)
(** * Raft nodes: quorums, and the term and vote of a step *)
From S2P Require Import Prelude Bytes Keycode KeycodeTheory Btree Engine Bincode.
From S2P Require Import RaftLog RaftLogTheory RaftNode.

(** ** Quorums *)
Definition count_ge (v : Z) (values : list Z) : nat := length (List.filter (fun x => v <=? x) values).

Lemma count_ge_perm v l l' : l ≡ₚ l' -> count_ge v l = count_ge v l'.
Proof.
  intros Hp. unfold count_ge. induction Hp as [|x l l' Hp IH|x y l|l1 l2 l3 H1 IH1 H2 IH2]; cbn.
  - reflexivity.
  - destruct (v <=? x); cbn; congruence.
  - destruct (v <=? x), (v <=? y); reflexivity.
  - congruence.
Qed.

#[local] Instance Zge_total : Total Z.ge.
Proof. intros x y. lia. Qed.
#[local] Instance Zge_trans : Transitive Z.ge.
Proof. intros x y z. lia. Qed.

(** In a descending list the element at position [k] has at least [k + 1]
    elements at or above it, and at most [k] strictly above. *)
Lemma sorted_count l k v :
  StronglySorted Z.ge l -> l !! k = Some v ->
  (k + 1 <= count_ge v l)%nat /\ (count_ge (v + 1) l <= k)%nat.
Proof.
  revert k; induction l as [|x l IH]; intros k Hs Hk; [discriminate|].
  apply StronglySorted_inv in Hs as [Hs Hx]. rewrite List.Forall_forall in Hx. unfold count_ge in *. cbn [List.filter].
  destruct k as [|k]; cbn in Hk.
  - inv Hk. rewrite (proj2 (Z.leb_le v v)) by lia. destruct (Z.leb_spec (v + 1) v); [lia|]. cbn [length].
    split; [lia|]. enough (List.filter (fun x => v + 1 <=? x) l = []) as -> by (cbn; lia).
    clear -Hx. induction l as [|y l IH]; [reflexivity|]. cbn. pose proof (Hx y (or_introl eq_refl)).
    destruct (Z.leb_spec (v + 1) y); [lia|]. apply IH. intros z Hz. apply Hx. now right.
  - destruct (IH k Hs Hk) as [H1 H2].
    assert (x >= v) by (apply Hx, list_elem_of_In, list_elem_of_lookup; eauto).
    destruct (Z.leb_spec v x); [|lia]. destruct (Z.leb_spec (v + 1) x); cbn [length]; lia.
Qed.

Section Quorum.
Context {E S T G R : Type}.
Implicit Type n : RawNode E S T G R.

Lemma quorum_size_le n : (1 <= quorum_size n <= cluster_size n)%nat.
Proof.
  unfold quorum_size. assert (1 <= cluster_size n)%nat by (unfold cluster_size; lia).
  pose proof (Nat.div_lt (cluster_size n) 2 ltac:(lia) ltac:(lia)). lia.
Qed.

(** The quorum value is the greatest one that a quorum reaches. *)
Lemma quorum_value_correct n values :
  length values = cluster_size n ->
  exists v, quorum_value values n = Ok v /\ In v values /\
    (quorum_size n <= count_ge v values)%nat /\
    (forall u, (quorum_size n <= count_ge u values)%nat -> u <= v).
Proof.
  intros Hl. pose proof (quorum_size_le n) as Hq. unfold quorum_value. rewrite Hl, Nat.eqb_refl. cbn [negb].
  assert (merge_sort Z.ge values ≡ₚ values) as Hp by apply merge_sort_Permutation.
  assert (StronglySorted Z.ge (merge_sort Z.ge values)) as Hs by (apply StronglySorted_merge_sort; typeclasses eauto).
  destruct (merge_sort Z.ge values !! (quorum_size n - 1)%nat) as [v|] eqn:Hv.
  2: { apply lookup_ge_None in Hv. apply Permutation_length in Hp. lia. }
  destruct (sorted_count _ _ _ Hs Hv) as [H1 H2]. exists v. rewrite !(count_ge_perm _ _ _ Hp) in *.
  split; [reflexivity|]. split; [|split; [lia|]].
  - apply list_elem_of_In. rewrite <- Hp. apply list_elem_of_lookup; eauto.
  - intros u Hu. destruct (Z.le_gt_cases u v); [assumption|]. exfalso.
    enough (count_ge u values <= count_ge (v + 1) values)%nat by lia.
    unfold count_ge. clear -H. induction values as [|x values IH]; [reflexivity|]. cbn [List.filter].
    destruct (Z.leb_spec u x), (Z.leb_spec (v + 1) x); cbn [length]; lia.
Qed.
End Quorum.

Lemma quorum_size_members {E S T G R} (members : gset NodeID) (n : RawNode E S T G R) i :
  i ∈ members -> peers n = members ∖ {[i]} -> quorum_size n = (size members / 2 + 1)%nat.
Proof.
  intros Hi Hp. unfold quorum_size, cluster_size. rewrite Hp, size_difference by set_solver. rewrite size_singleton.
  assert (size members <> 0%nat) by (apply size_non_empty_iff; set_solver).
  now replace (size members - 1 + 1)%nat with (size members) by lia.
Qed.

(** Two majorities of a set intersect. *)
Lemma quorum_intersect (m Q1 Q2 : gset NodeID) :
  Q1 ⊆ m -> Q2 ⊆ m -> (size m / 2 + 1 <= size Q1)%nat -> (size m / 2 + 1 <= size Q2)%nat ->
  exists j, j ∈ Q1 /\ j ∈ Q2.
Proof.
  intros H1 H2 S1 S2. destruct (decide (Q1 ∩ Q2 = ∅)) as [He|He].
  - exfalso. assert (size (Q1 ∪ Q2) = (size Q1 + size Q2)%nat) as Hu by (apply size_union; set_solver).
    assert (size (Q1 ∪ Q2) <= size m)%nat as Hle by (apply subseteq_size; set_solver).
    pose proof (Nat.div_mod_eq (size m) 2). pose proof (Nat.mod_upper_bound (size m) 2 ltac:(lia)). lia.
  - apply set_choose_L in He as [j Hj]. exists j. set_solver.
Qed.

(** ** The stored term and vote *)

(** The cached term and vote, when an operation leaves them alone. *)
Definition tv_cached {E} (l l' : Log E) : Prop := log_term l' = log_term l /\ log_vote l' = log_vote l.
#[export] Instance tv_cached_preorder {E} : PreOrder (@tv_cached E).
Proof. split; [now intros l|]. intros l1 l2 l3 [A1 A2] [B1 B2]. split; congruence. Qed.

Section Cached.
Context {E : Type} `{Engine E}.
Context {BE : Bincode entry_valid} {BT : Bincode term_vote_valid} {BC : Bincode is_u64_pair}.

Lemma cached_with_engine {A} (f : stM E A) : respects tv_cached (with_engine f).
Proof. intros l. unfold with_engine. now destruct (f (engine l)). Qed.
Lemma cached_set k v : respects tv_cached (log_set_raw k v).
Proof. unfold log_set_raw. rewrite log_encode_lkenc. intros l. apply (cached_with_engine (engine_set (lkenc k) v)). Qed.
Lemma cached_delete k : respects tv_cached (log_delete_raw k).
Proof. unfold log_delete_raw. rewrite log_encode_lkenc. intros l. apply (cached_with_engine (engine_delete (lkenc k))). Qed.
Lemma cached_flush_if : respects tv_cached flush_if_fsync.
Proof. intros l. unfold flush_if_fsync. destruct (fsync l); [apply cached_with_engine|reflexivity]. Qed.
Lemma cached_modify f : (forall l : Log E, tv_cached l (f l)) -> respects tv_cached (st_modify f).
Proof. intros Hf l. apply Hf. Qed.
Lemma cached_last i t : respects (@tv_cached E) (set_cached_last i t).
Proof. now apply cached_modify. Qed.
Lemma cached_commit i t : respects (@tv_cached E) (set_cached_commit i t).
Proof. now apply cached_modify. Qed.
#[local] Hint Resolve cached_set cached_delete cached_flush_if cached_last cached_commit : respects.
#[local] Hint Extern 0 (PreOrder _) => typeclasses eauto : respects.

Lemma append_cached c : respects tv_cached (append c).
Proof. unfold append. respects_at l. solve_respects. Qed.
Lemma commit_cached i : respects tv_cached (commit i).
Proof. unfold commit. respects_at l. solve_respects. Qed.
Lemma splice_cached es : respects tv_cached (splice es).
Proof.
  unfold splice. intros l. destruct (head es) as [f|]; [|reflexivity]. destruct (last es) as [x|]; [|reflexivity].
  revert l. respects_at l. solve_respects.
Qed.

(** [set_term_vote] panics, has nothing to do, or writes. *)
Definition tv_writes (t : Term) (v : option NodeID) : stM (Log E) unit :=
  log_set_raw KeyTermVote (bincode_serialize (t, v)) ;;; with_engine engine_flush ;;; set_cached_term_vote t v.

Lemma set_term_vote_cases t v (l : Log E) :
  (exists p, set_term_vote t v l = (Panic p, l)) \/
  0 < t /\ log_term l <= t /\ (log_term l = t -> log_vote l = None \/ v = log_vote l) /\
  (t = log_term l /\ v = log_vote l /\ set_term_vote t v l = (Ok tt, l) \/ set_term_vote t v l = tv_writes t v l).
Proof.
  unfold set_term_vote, st_bind at 1 2 3, st_assert.
  destruct (Z.ltb_spec 0 t) as [H1|]; [|eauto]. destruct (Z.leb_spec (log_term l) t) as [H2|]; [|eauto].
  destruct ((log_term l <? t) || bool_decide (log_vote l = None) || bool_decide (v = log_vote l))%bool eqn:H3; [|eauto].
  right. split; [exact H1|]. split; [exact H2|]. split.
  { intros <-. rewrite Z.ltb_irrefl in H3. apply orb_true_iff in H3 as [H3|H3]; apply bool_decide_eq_true in H3; auto. }
  destruct ((t =? log_term l) && bool_decide (v = log_vote l))%bool eqn:H4; [left|now right].
  apply andb_prop in H4 as [H4%Z.eqb_eq H5%bool_decide_eq_true]. auto.
Qed.
End Cached.

(** What a node needs of the log to vote once per term: the cached term and
    vote are the durable ones ([tv_ok]), whatever else is written, and
    [set_term_vote] stores new ones or fails and leaves the old ones. *)
Class TvStore (E : Type) `{Engine E} {BE : Bincode entry_valid} {BT : Bincode term_vote_valid} {BC : Bincode is_u64_pair} : Type := {
  tv_ok : Log E -> Prop;
  tv_valid l : tv_ok l -> term_vote_valid (log_term l, log_vote l);
  tv_engine l l' : engine l' = engine l -> tv_cached l l' -> tv_ok l -> tv_ok l';
  tv_append c l : tv_ok l -> tv_ok (append c l).2;
  tv_commit i l : tv_ok l -> tv_ok (commit i l).2;
  tv_splice es l : tv_ok l -> tv_ok (splice es l).2;
  tv_set_term_vote t v l r l' :
    tv_ok l -> term_vote_valid (t, v) -> set_term_vote t v l = (r, l') ->
    (tv_cached l l' /\ tv_ok l' /\ forall x, r <> Ok x) \/
    (r = Ok tt /\ tv_ok l' /\ log_term l' = t /\ log_vote l' = v /\ 0 < t /\ log_term l <= t /\
     (log_term l = t -> log_vote l = None \/ v = log_vote l));
}.

Section TermVote.
Context {E : Type} `{Engine E}.
Context {BE : Bincode entry_valid} {BT : Bincode term_vote_valid} {BC : Bincode is_u64_pair} {TS : TvStore E}.

(** What operations other than [set_term_vote] do to them: nothing. *)
Record tv_same (l l' : Log E) : Prop := {
  ts_term : log_term l' = log_term l;
  ts_vote : log_vote l' = log_vote l;
  ts_ok : tv_ok l -> tv_ok l';
}.

#[export] Instance tv_same_preorder : PreOrder tv_same.
Proof.
  split.
  - intros l. now split.
  - intros l1 l2 l3 [A1 A2 A3] [B1 B2 B3]. split; [congruence..|auto].
Qed.

Lemma respects_cached (f : Log E -> Log E) :
  (forall l, engine (f l) = engine l /\ log_term (f l) = log_term l /\ log_vote (f l) = log_vote l) ->
  respects tv_same (st_modify f).
Proof.
  intros Hf l. destruct (Hf l) as (E1 & E2 & E3). cbn. split; [assumption..|]. now apply tv_engine.
Qed.

Lemma respects_append c : respects tv_same (append c).
Proof. intros l. destruct (append_cached c l). split; [assumption..|]. apply tv_append. Qed.
Lemma respects_commit i : respects tv_same (commit i).
Proof. intros l. destruct (commit_cached i l). split; [assumption..|]. apply tv_commit. Qed.
Lemma respects_splice es : respects tv_same (splice es).
Proof. intros l. destruct (splice_cached es l). split; [assumption..|]. apply tv_splice. Qed.
End TermVote.

(** ** An engine whose writes succeed keeps the term and vote *)
Section Plain.
Context {E : Type} `{EngineReads E} {EW : EngineWrites E}.
Context {BE : Bincode entry_valid} {BT : Bincode term_vote_valid} {BC : Bincode is_u64_pair}.

Definition tv_key (tv : Term * option NodeID) : option bytes :=
  bincode_serialize <$> (if tv.1 =? 0 then None else Some tv).

(** The contents of the engine hold the term and vote. *)
Record tv_plain (l : Log E) : Prop := {
  tp_inv : engine_inv (engine l);
  tp_valid : term_vote_valid (log_term l, log_vote l);
  tp_zero : log_term l = 0 -> log_vote l = None;
  tp_stored : engine_abs (engine l) !! lkenc KeyTermVote = tv_key (log_term l, log_vote l);
}.

Lemma lkenc_not_tv k : k <> KeyTermVote -> lkenc k <> lkenc KeyTermVote.
Proof. destruct k; intros Hk F; [|congruence|]; apply (f_equal head) in F; cbn in F; discriminate. Qed.

(** The engine keeps the stored term and vote. *)
Definition tv_kept (l l' : Log E) : Prop := tv_cached l l' /\ (engine_inv (engine l) -> engine_inv (engine l') /\
  engine_abs (engine l') !! lkenc KeyTermVote = engine_abs (engine l) !! lkenc KeyTermVote).
#[export] Instance tv_kept_preorder : PreOrder tv_kept.
Proof.
  split; [now intros l|]. intros l1 l2 l3 [A1 A2] [B1 B2]. split; [etransitivity; eassumption|]. intros Hi.
  destruct (A2 Hi) as [Hi2 Ea]. destruct (B2 Hi2) as [Hi3 Eb]. split; [exact Hi3|congruence].
Qed.

Lemma tv_kept_plain l l' : tv_kept l l' -> tv_plain l -> tv_plain l'.
Proof. intros [[E1 E2] He] [Hi Hv Hz Hs]. destruct (He Hi) as [Hi' Hs']. split; rewrite ?E1, ?E2; auto. congruence. Qed.

Lemma kept_with_engine {A} (f : stM E A) :
  (forall e, engine_inv e -> engine_inv (f e).2 /\
     engine_abs (f e).2 !! lkenc KeyTermVote = engine_abs e !! lkenc KeyTermVote) ->
  respects tv_kept (with_engine f).
Proof.
  intros Hf l. split; [apply cached_with_engine|]. unfold with_engine. specialize (Hf (engine l)).
  destruct (f (engine l)) as [r e]. exact Hf.
Qed.

Lemma kept_set k v : k <> KeyTermVote -> respects tv_kept (log_set_raw k v).
Proof.
  intros Hk. unfold log_set_raw. rewrite log_encode_lkenc. intros l. unfold st_bind, st_lift.
  apply (kept_with_engine (engine_set (lkenc k) v)). intros e He.
  destruct (engine_set_spec e (lkenc k) v He) as (e' & -> & Hi & Ha). cbn. split; [exact Hi|].
  rewrite Ha. apply lookup_insert_ne. now apply lkenc_not_tv.
Qed.

Lemma kept_delete k : k <> KeyTermVote -> respects tv_kept (log_delete_raw k).
Proof.
  intros Hk. unfold log_delete_raw. rewrite log_encode_lkenc. intros l. unfold st_bind, st_lift.
  apply (kept_with_engine (engine_delete (lkenc k))). intros e He.
  destruct (engine_delete_spec e (lkenc k) He) as (e' & -> & Hi & Ha). cbn. split; [exact Hi|].
  rewrite Ha. apply lookup_delete_ne. now apply lkenc_not_tv.
Qed.

Lemma kept_flush_if : respects tv_kept flush_if_fsync.
Proof.
  intros l. unfold flush_if_fsync. destruct (fsync l); [|reflexivity].
  apply kept_with_engine. intros e He. destruct (engine_flush_spec e He) as (e' & -> & Hi & Ha). cbn. now rewrite Ha.
Qed.
Lemma kept_last i t : respects tv_kept (set_cached_last i t).
Proof. now intros l. Qed.
Lemma kept_commit i t : respects tv_kept (set_cached_commit i t).
Proof. now intros l. Qed.

#[local] Hint Resolve kept_set kept_delete kept_flush_if kept_last kept_commit : respects.
#[local] Hint Extern 1 (_ <> KeyTermVote) => discriminate : respects.
#[local] Hint Extern 0 (PreOrder _) => typeclasses eauto : respects.

Lemma append_kept c : respects tv_kept (append c).
Proof. unfold append. respects_at l. solve_respects. Qed.
Lemma commit_kept i : respects tv_kept (commit i).
Proof. unfold commit. respects_at l. solve_respects. Qed.
Lemma splice_kept es : respects tv_kept (splice es).
Proof.
  unfold splice. intros l. destruct (head es) as [f|]; [|reflexivity]. destruct (last es) as [x|]; [|reflexivity].
  revert l. respects_at l. solve_respects.
Qed.

Lemma tv_plain_set t v (l : Log E) r l' :
  tv_plain l -> term_vote_valid (t, v) -> set_term_vote t v l = (r, l') ->
  (tv_cached l l' /\ tv_plain l' /\ forall x, r <> Ok x) \/
  (r = Ok tt /\ tv_plain l' /\ log_term l' = t /\ log_vote l' = v /\ 0 < t /\ log_term l <= t /\
   (log_term l = t -> log_vote l = None \/ v = log_vote l)).
Proof.
  intros Hok Hvalid Es. destruct (set_term_vote_cases t v l) as [[p Ep]|(Ht & Hle & Hvote & [(-> & -> & Ee)|Ee])].
  - left. rewrite Ep in Es. injection Es as <- <-. now split.
  - right. rewrite Ee in Es. injection Es as <- <-. auto 9.
  - right. rewrite Ee in Es. unfold tv_writes, st_bind in Es. destruct Hok as [Hi Hv Hz Hs].
    destruct (log_set_raw_spec l KeyTermVote (bincode_serialize (t, v)) Hi) as (e1 & E1 & Hi1 & Ha1). rewrite E1 in Es.
    destruct (log_flush_spec (mkLog e1 (log_term l) (log_vote l) (last_index l) (last_term l) (commit_index l)
      (commit_term l) (fsync l)) Hi1) as (e2 & Ef & Hi2 & Ha2). cbn [engine] in Ef, Ha2. rewrite Ef in Es.
    injection Es as <- <-. split; [reflexivity|]. split; [|cbn; auto].
    split; cbn [engine log_term log_vote]; [exact Hi2|exact Hvalid|lia|].
    rewrite Ha2, Ha1, lookup_insert_eq. unfold tv_key. cbn [fst]. destruct (Z.eqb_spec t 0); [lia|reflexivity].
Qed.

#[export] Instance plain_tv_store : TvStore E.
Proof.
  refine {| tv_ok := tv_plain |}.
  - intros l. apply tp_valid.
  - intros l l' E1 [E2 E3] [Hi Hv Hz Hs]. split; rewrite ?E1, ?E2, ?E3; auto.
  - intros c l. apply tv_kept_plain, append_kept.
  - intros i l. apply tv_kept_plain, commit_kept.
  - intros es l. apply tv_kept_plain, splice_kept.
  - exact tv_plain_set.
Defined.

(** Reopening the log finds the term and vote again. *)
Lemma log_new_tv_key (e : E) l' t v :
  engine_inv e -> term_vote_valid (t, v) -> (t = 0 -> v = None) -> engine_abs e !! lkenc KeyTermVote = tv_key (t, v) ->
  log_new e = Ok l' -> engine l' = e /\ log_term l' = t /\ log_vote l' = v.
Proof.
  intros Hi Hv Hz Hs En. unfold log_new in En. unfold log_get_raw at 1 in En. rewrite log_encode_lkenc in En.
  cbn [outcome_bind] in En. rewrite engine_get_spec, Hs in En by exact Hi. cbn [outcome_bind] in En.
  assert (match tv_key (t, v) with Some v => bincode_deserialize v | None => Ok (0, None) end = Ok (t, v)) as Etv.
  { unfold tv_key. cbn [fst]. destruct (Z.eqb_spec t 0) as [E0|]; cbn; [|now apply bincode_roundtrip]. now rewrite E0, Hz. }
  rewrite Etv in En. cbn [outcome_bind] in En.
  repeat (apply outcome_bind_ok in En as (? & _ & En)). injection En as <-. auto.
Qed.
End Plain.

(** ** What a node computation leaves alone *)
Definition is_grant (m : Message) : bool := match m with CampaignResponse true => true | _ => false end.
Definition is_lead (m : Message) : bool :=
  match m with Heartbeat _ _ _ | Append _ _ _ | MRead _ => true | _ => false end.
Definition no_grant (m : Message) : Prop := is_grant m = false.
Definition plain (m : Message) : Prop := is_grant m = false /\ is_lead m = false.

Section Quiet.
Context {E S T G : Type} `{Engine E} `{State S} `{Channel T} `{Rng G}.
Context {BE : Bincode entry_valid} {BT : Bincode term_vote_valid} {BC : Bincode is_u64_pair} {TS : TvStore E}.
Abbreviation RawNode := (RawNode E S T G).

Section Messages.
Context (P : Message -> Prop).

(** The term and vote stay, and only messages of kind [P] are sent, in the
    node's name and term. *)
Record quiet {R Q} (n : RawNode R) (n' : RawNode Q) : Prop := {
  q_id : node_id n' = node_id n;
  q_peers : peers n' = peers n;
  q_tv : tv_same (log n) (log n');
  q_sent : exists new, channel_sent (tx n') = channel_sent (tx n) ++ new /\
    Forall (fun m => env_from m = node_id n /\ env_term m = log_term (log n) /\ P (env_message m)) new;
}.

Lemma quiet_into {R Q Q'} (n : RawNode R) (n' : RawNode Q) (r : Q') : quiet n n' -> quiet n (into_role r n').
Proof. now intros []. Qed.

Lemma quiet_of_into {R Q Q'} (n : RawNode R) (n' : RawNode Q) (r : Q') : quiet (into_role r n) n' -> quiet n n'.
Proof. now intros []. Qed.

Lemma quiet_refl {R} (n : RawNode R) : quiet n n.
Proof. split; [reflexivity..|]. exists []. split; [now rewrite app_nil_r|constructor]. Qed.

Lemma quiet_trans {R Q Q'} (n : RawNode R) (n1 : RawNode Q) (n2 : RawNode Q') : quiet n n1 -> quiet n1 n2 -> quiet n n2.
Proof.
  intros [A1 A2 A3 (new1 & A4 & A5)] [B1 B2 B3 (new2 & B4 & B5)]. split; [congruence..|etransitivity; eassumption|].
  exists (new1 ++ new2). rewrite B4, A4, app_assoc. split; [reflexivity|]. apply Forall_app. split; [exact A5|].
  rewrite A1, (ts_term _ _ A3) in B5. exact B5.
Qed.

Section Ops.
Context {R : Type} (K : R -> R -> Prop) `{!PreOrder K}.

(** Within a role, with a relation on the role's own state. *)
Definition kquiet (n n' : RawNode R) : Prop := quiet n n' /\ K (role n) (role n').

#[export] Instance kquiet_preorder : PreOrder kquiet.
Proof.
  split.
  - intros n. split; [apply quiet_refl|reflexivity].
  - intros n n1 n2 [A1 A2] [B1 B2]. split; [eapply quiet_trans; eassumption|etransitivity; eassumption].
Qed.

Lemma quiet_with_log {A} (m : stM (Log E) A) : respects tv_same m -> respects kquiet (with_log m).
Proof.
  intros Hm n. unfold with_log. specialize (Hm (log n)). destruct (m (log n)) as [r l]. cbn in *.
  split; [|reflexivity]. split; [reflexivity..|exact Hm|]. exists []. cbn. now rewrite app_nil_r.
Qed.
Lemma quiet_with_state {A} (m : stM S A) : respects kquiet (with_state m).
Proof.
  intros n. unfold with_state. destruct (m (state n)) as [r l]. split; [|reflexivity].
  split; try reflexivity. apply (quiet_refl n).
Qed.
Lemma quiet_with_rng {A} (m : stM G A) : respects kquiet (with_rng m).
Proof.
  intros n. unfold with_rng. destruct (m (rng n)) as [r l]. split; [|reflexivity].
  split; try reflexivity. apply (quiet_refl n).
Qed.
Lemma quiet_timeout : respects kquiet random_election_timeout.
Proof. intros n. apply quiet_with_rng. Qed.
Lemma quiet_update_role f : (forall r, K r (f r)) -> respects kquiet (update_role f).
Proof. intros Hf n. split; [apply quiet_into, quiet_refl|apply Hf]. Qed.

Lemma quiet_send_via (n : RawNode R) m :
  env_from m = node_id n -> env_term m = node_term n -> P (env_message m) -> kquiet n (send_via m n).2.
Proof.
  intros Hf Ht0 Hp. unfold send_via, with_tx.
  destruct (channel_send_spec m (tx n)) as [(t & -> & Ht)|(e & ->)]; (split; [|reflexivity]); cbn.
  - split; [reflexivity..|]. exists [m]. split; [exact Ht|]. constructor; [auto|constructor].
  - split; [reflexivity..|]. apply (quiet_refl n).
Qed.
Lemma quiet_send to m : P m -> respects kquiet (send to m).
Proof. intros Hm n. unfold send. now apply quiet_send_via. Qed.
Lemma quiet_broadcast m : P m -> respects kquiet (broadcast m).
Proof.
  intros Hm. unfold broadcast. respects_at n. apply respects_iter; [typeclasses eauto|].
  intros x. now apply quiet_send.
Qed.
End Ops.
End Messages.

Lemma quiet_weaken (P Q : Message -> Prop) {R R'} (n : RawNode R) (n' : RawNode R') :
  (forall m, P m -> Q m) -> quiet P n n' -> quiet Q n n'.
Proof.
  intros HPQ [A1 A2 A3 (new & A4 & A5)]. split; auto. exists new. split; [exact A4|].
  eapply Forall_impl; [exact A5|]. cbn. intuition.
Qed.

End Quiet.

#[export] Hint Resolve respects_append respects_commit respects_splice : respects.
#[export] Hint Resolve quiet_with_log quiet_with_state quiet_with_rng quiet_timeout quiet_update_role
  quiet_send quiet_broadcast : respects.
