(* ===== verification/RaftSteps.v ===== *)
(** * What a Raft step does to the term, the vote and the network

    For every step of a node, whether it succeeds or fails: how its durable
    term and vote move, which votes it grants, and on what grounds it becomes
    leader, speaks as a leader or follows one. *)
From S2P Require Import Prelude Bytes Keycode KeycodeTheory Btree Engine Bincode.
From S2P Require Import RaftLog RaftLogTheory RaftNode RaftNodeTheory.

Section Steps.
Context {E S T G : Type} `{Engine E} `{State S} `{Channel T} `{Rng G}.
Context {BE : Bincode entry_valid} {BT : Bincode term_vote_valid} {BC : Bincode is_u64_pair} {TS : TvStore E}.
Abbreviation RawNode := (RawNode E S T G).
Abbreviation Node := (Node E S T G).
Abbreviation stepped := (stepped E S T G).

(** ** Reasoning about consuming methods *)

(** A result that satisfies [Good], or a failure that leaves a node in [Bad]. *)
Definition sat {A} (Good : A -> Prop) (Bad : RawNode unit -> Prop) (r : stepped A) : Prop :=
  match r with
  | Done a => Good a
  | Failed _ d | Panicked _ d => Bad d
  end.

Lemma sat_call {R A B} (Rel : RawNode R -> RawNode R -> Prop) (m : stM (RawNode R) A) n
    (k : A -> RawNode R -> stepped B) Good Bad :
  respects Rel m -> (forall n', Rel n n' -> Bad (into_role tt n')) ->
  (forall a n', Rel n n' -> sat Good Bad (k a n')) -> sat Good Bad (call m n k).
Proof.
  intros Hm Hbad Hk. specialize (Hm n). unfold call. destruct (m n) as [[a|e|p] n']; cbn in *; auto.
Qed.

Lemma sat_then {A B} (m : stepped A) (k : A -> stepped B) Good Bad Mid :
  sat Mid Bad m -> (forall a, Mid a -> sat Good Bad (k a)) -> sat Good Bad (and_then m k).
Proof. intros Hm Hk. destruct m; cbn in *; auto. Qed.

Lemma sat_check {R B} (b : bool) msg (n : RawNode R) (k : stepped B) Good Bad :
  Bad (into_role tt n) -> (b = true -> sat Good Bad k) -> sat Good Bad (check b msg n k).
Proof. intros Hb Hk. unfold check. destruct b; cbn; auto. Qed.

Lemma sat_mono {A} (r : stepped A) (Good Good' : A -> Prop) (Bad Bad' : RawNode unit -> Prop) :
  (forall a, Good a -> Good' a) -> (forall d, Bad d -> Bad' d) -> sat Good Bad r -> sat Good' Bad' r.
Proof. intros HG HB. destruct r; cbn; auto. Qed.

(** ** Moves *)

(** How a computation may move a node: its term grows, or stays with its vote
    unless it had none; it sends messages in its name and in the terms it goes
    through; grants are in its final term for its final vote, if [gr]; it
    speaks as a leader in its final term only, on the grounds [ld]. *)
Record moves (gr : Prop) (ld : Term -> option NodeID -> Prop) {R Q} (n : RawNode R) (n' : RawNode Q) : Prop := {
  mv_id : node_id n' = node_id n;
  mv_peers : peers n' = peers n;
  mv_ok : tv_ok (log n');
  mv_tv : log_term (log n) < log_term (log n') \/
          log_term (log n') = log_term (log n) /\
          (log_vote (log n) = None \/ log_vote (log n') = log_vote (log n));
  mv_sent : exists new, channel_sent (tx n') = channel_sent (tx n) ++ new /\
    Forall (fun m => env_from m = node_id n /\ log_term (log n) <= env_term m <= log_term (log n') /\
      (is_grant (env_message m) = true ->
         gr /\ env_term m = log_term (log n') /\ log_vote (log n') = Some (env_to m)) /\
      (is_lead (env_message m) = true ->
         env_term m = log_term (log n') /\ ld (env_term m) (log_vote (log n')))) new;
}.

Definition never (_ : Term) (_ : option NodeID) : Prop := False.

Lemma moves_trans gr ld {R Q Q'} (n : RawNode R) (n1 : RawNode Q) (n2 : RawNode Q') :
  moves False never n n1 -> moves gr ld n1 n2 -> moves gr ld n n2.
Proof.
  intros [A1 A2 A3 A4 (new1 & A5 & A6)] [B1 B2 B3 B4 (new2 & B5 & B6)].
  split; [congruence..|exact B3| |].
  - destruct A4 as [A4|[A4 A4']], B4 as [B4|[B4 B4']]; [left; lia..|]. right. split; [lia|].
    destruct A4' as [A4'|A4']; [auto|]. destruct B4' as [B4'|B4']; [left; congruence|right; congruence].
  - exists (new1 ++ new2). rewrite B5, A5, app_assoc. split; [reflexivity|]. apply Forall_app. split.
    + eapply Forall_impl; [exact A6|]. cbn. intros m (M1 & M2 & M3 & M4).
      split; [exact M1|]. split; [destruct B4 as [|[]]; lia|]. split; intros F; [now apply M3 in F|now apply M4 in F].
    + eapply Forall_impl; [exact B6|]. cbn. intros m (M1 & M2 & M3 & M4).
      split; [congruence|]. split; [destruct A4 as [|[]]; lia|]. auto.
Qed.

Lemma quiet_moves gr ld {R Q} (n : RawNode R) (n' : RawNode Q) :
  tv_ok (log n) -> quiet plain n n' -> moves gr ld n n'.
Proof.
  intros Hok [A1 A2 [A3 A4 A5] (new & A6 & A7)]. split; auto.
  exists new. split; [exact A6|]. eapply Forall_impl; [exact A7|]. cbn. intros m (M1 & M2 & M3 & M4).
  split; [exact M1|]. split; [lia|]. rewrite M3, M4. split; discriminate.
Qed.

Lemma quiet_moves_lead gr (ld : Term -> option NodeID -> Prop) {R Q} (n : RawNode R) (n' : RawNode Q) :
  tv_ok (log n) -> ld (log_term (log n)) (log_vote (log n)) -> quiet no_grant n n' -> moves gr ld n n'.
Proof.
  intros Hok Hld [A1 A2 [A3 A4 A5] (new & A6 & A7)]. split; auto.
  exists new. split; [exact A6|]. eapply Forall_impl; [exact A7|]. cbn. intros m (M1 & M2 & M3).
  split; [exact M1|]. split; [lia|]. rewrite M3, M2, A3, A4. split; [discriminate|auto].
Qed.

Lemma moves_into gr ld {R Q Q'} (n : RawNode R) (n' : RawNode Q) (r : Q') : moves gr ld n n' -> moves gr ld n (into_role r n').
Proof. now intros []. Qed.
Lemma moves_of_into gr ld {R Q Q'} (n : RawNode R) (n' : RawNode Q) (r : Q') : moves gr ld (into_role r n) n' -> moves gr ld n n'.
Proof. now intros []. Qed.

(** Entering a term. *)
Lemma set_term_vote_moves t v {R} (n : RawNode R) r n' :
  tv_ok (log n) -> term_vote_valid (t, v) -> with_log (set_term_vote t v) n = (r, n') ->
  role n' = role n /\
  ((quiet plain n n' /\ forall x, r <> Ok x) \/
   (r = Ok tt /\ moves False never n n' /\ log_term (log n') = t /\ log_vote (log n') = v /\ 0 < t)).
Proof.
  intros Hok Hv. unfold with_log. destruct (set_term_vote t v (log n)) as [r' l] eqn:Es. intros [= <- <-].
  split; [reflexivity|].
  destruct (tv_set_term_vote t v (log n) r' l Hok Hv Es) as [([E1 E2] & Hok' & Hr)|(-> & Hok' & Ht & Hvo & Hpos & Hle & Hvote)].
  - left. split; [|exact Hr]. split; [reflexivity..|now split|]. exists []. split; [cbn; now rewrite app_nil_r|constructor].
  - right. split; [reflexivity|]. split; [|cbn; auto]. split; cbn [node_id peers log tx]; auto.
    + destruct (decide (log_term (log n) = t)) as [Heq|]; [right|left; lia]. split; [congruence|].
      destruct (Hvote Heq) as [F|F]; [auto|right; congruence].
    + exists []. split; [now rewrite app_nil_r|constructor].
Qed.

(** Calling a quiet method, relative to the node [n0] at the start. *)
Lemma sat_qcall {R A B} P (K : R -> R -> Prop) `{!PreOrder K} (n0 : RawNode R) (m : stM (RawNode R) A) n
    (k : A -> RawNode R -> stepped B) Good :
  respects (kquiet P K) m -> kquiet P K n0 n ->
  (forall a n', kquiet P K n0 n' -> sat Good (quiet P n0) (k a n')) -> sat Good (quiet P n0) (call m n k).
Proof.
  intros Hm Hn Hk. eapply sat_call; [exact Hm| |]; intros; (assert (kquiet P K n0 n') as Hq by (etransitivity; eassumption)).
  - apply quiet_into, Hq.
  - auto.
Qed.

Lemma sat_qcheck {R B} P (K : R -> R -> Prop) (n0 : RawNode R) (b : bool) msg n (k : stepped B) Good :
  kquiet P K n0 n -> (b = true -> sat Good (quiet P n0) k) -> sat Good (quiet P n0) (check b msg n k).
Proof. intros Hn. apply sat_check. apply quiet_into, Hn. Qed.

(** ** Followers *)
Definition same_leader (r r' : Follower) : Prop := leader r' = leader r.
#[local] Instance same_leader_preorder : PreOrder same_leader.
Proof. split; [now intros r|intros r1 r2 r3; unfold same_leader; congruence]. Qed.
Definition fquiet : RawNode Follower -> RawNode Follower -> Prop := kquiet plain same_leader.
#[local] Instance fquiet_preorder : PreOrder fquiet.
Proof. unfold fquiet. typeclasses eauto. Qed.

#[local] Hint Unfold plain no_grant fquiet : respects.
#[local] Hint Extern 1 (plain _) => (split; reflexivity) : respects.
#[local] Hint Extern 1 (no_grant _) => reflexivity : respects.
#[local] Hint Extern 1 (same_leader _ _) => reflexivity : respects.

Lemma respects_discard {R A} (P : Message -> Prop) (K : R -> R -> Prop) `{!PreOrder K} (m : stM S A) :
  respects (kquiet P K) ((fun n => match with_state m n with
    | (Panic p, n') => (Panic p, n')
    | (_, n') => (Ok tt, n')
    end) : stM (RawNode R) unit).
Proof.
  intros n. pose proof (quiet_with_state P K m n) as Hq. destruct (with_state m n) as [[]]; exact Hq.
Qed.

Lemma abort_forwarded_quiet : respects fquiet abort_forwarded.
Proof.
  unfold abort_forwarded, fquiet. respects_at n. solve_respects.
Qed.

Lemma maybe_apply_quiet : respects fquiet maybe_apply.
Proof.
  unfold maybe_apply, fquiet. solve_respects. apply respects_discard. typeclasses eauto.
Qed.

#[local] Hint Resolve abort_forwarded_quiet maybe_apply_quiet : respects.

Ltac qstep :=
  match goal with
  | |- sat _ _ (call _ _ _) => eapply (sat_qcall plain same_leader); [solve [auto with respects typeclass_instances]|eassumption|intros ? ? ?]
  | |- sat _ _ (check _ _ _ _) => eapply (sat_qcheck plain same_leader); [eassumption|intros ?]
  end.

(** What a follower may make of its leader on a message. *)
Definition follows (msg : Envelope) (r r' : Follower) : Prop :=
  leader r' = leader r \/ is_lead (env_message msg) = true /\ leader r' = Some (env_from msg).

Definition handled (msg : Envelope) (n : RawNode Follower) (r : stepped (RawNode Follower)) : Prop :=
  sat (fun n' => quiet plain n n' /\ follows msg (role n) (role n')) (quiet plain n) r.

Lemma fquiet_refl n : fquiet n n.
Proof. reflexivity. Qed.
#[local] Hint Resolve fquiet_refl : core.

Lemma ensure_leader_quiet msg n :
  sat (fun n' => quiet plain n n' /\ leader (role n') = Some (env_from msg)) (quiet plain n) (ensure_leader msg n).
Proof.
  unfold ensure_leader. assert (fquiet n n) as Hn by reflexivity. destruct (leader (role n)) as [l|] eqn:El.
  - qstep. split; [apply Hn|]. cbn. apply Z.eqb_eq in H3. congruence.
  - unfold follower_into_follower. repeat qstep. split; [|reflexivity]. apply quiet_into. apply H4.
Qed.

(** After the leader check, the rest of a handler is quiet. *)
Lemma handled_then msg n (k : RawNode Follower -> stepped (RawNode Follower)) :
  is_lead (env_message msg) = true ->
  (forall n1, sat (fun n' => fquiet n1 n') (quiet plain n1) (k n1)) ->
  handled msg n (and_then (ensure_leader msg n) k).
Proof.
  intros Hlead Hk. eapply sat_then; [|].
  - eapply sat_mono; [| |apply ensure_leader_quiet]; [intros a Ha; exact Ha|auto].
  - cbn. intros n1 [Hq Hl]. eapply sat_mono; [| |apply Hk]; cbn.
    + intros n' [Hq' Hl']. split; [eapply quiet_trans; eassumption|]. right. split; [exact Hlead|]. congruence.
    + intros d Hd. eapply quiet_trans; eassumption.
Qed.

Lemma handled_same msg n r :
  sat (fun n' => fquiet n n') (quiet plain n) r -> handled msg n r.
Proof. apply sat_mono; [|auto]. intros n' [Hq Hl]. split; [exact Hq|now left]. Qed.

Ltac if_case := match goal with |- context [if ?b then _ else _] => destruct b end.
Ltac qdone := cbn [sat]; eassumption.

Lemma follower_heartbeat_handled msg n i c s :
  is_lead (env_message msg) = true -> handled msg n (follower_heartbeat msg i c s n).
Proof.
  intros Hl. unfold follower_heartbeat. assert (fquiet n n) as Hn by reflexivity. unfold handled. qstep.
  apply handled_then; [exact Hl|]. intros n1. assert (fquiet n1 n1) as Hn1 by reflexivity.
  do 2 qstep. case_match; [do 2 qstep|]; qdone.
Qed.

Lemma follower_append_handled msg n i t es :
  is_lead (env_message msg) = true -> handled msg n (follower_append msg i t es n).
Proof.
  intros Hl. unfold follower_append. assert (fquiet n n) as Hn by reflexivity. unfold handled. qstep.
  apply handled_then; [exact Hl|]. intros n1. assert (fquiet n1 n1) as Hn1 by reflexivity.
  qstep. match goal with b : bool |- _ => destruct b end; [do 2 qstep|cbv zeta; qstep]; qdone.
Qed.

Lemma fquiet_into (n : RawNode Follower) r : leader r = leader (role n) -> fquiet n (into_role r n).
Proof. intros Hr. split; [apply quiet_into, quiet_refl|exact Hr]. Qed.

Lemma follower_client_request_handled msg n i :
  plain (env_message msg) -> handled msg n (follower_client_request msg i n).
Proof.
  intros Hp. apply handled_same. unfold follower_client_request. assert (fquiet n n) as Hn by reflexivity. qstep.
  destruct (leader (role n)) as [l|] eqn:El; cbv zeta; [|qstep; qdone].
  eapply (sat_qcall plain same_leader n); [auto with respects typeclass_instances|now apply fquiet_into|]. intros a n1 Hn1; qdone.
Qed.

Lemma follower_client_response_handled msg n i resp : handled msg n (follower_client_response msg i resp n).
Proof.
  apply handled_same. unfold follower_client_response. assert (fquiet n n) as Hn by reflexivity. qstep. cbv zeta.
  destruct (bool_decide (i ∈ forwarded (role n))); [|qdone].
  eapply (sat_qcall plain same_leader n); [auto with respects typeclass_instances|now apply fquiet_into|]. intros a n1 Hn1; qdone.
Qed.

(** The values an envelope can carry. *)
Definition envelope_ok (msg : Envelope) : Prop := is_u64 (env_term msg) /\ 0 <= env_from msg <= u8_max.

Definition campaigned (n : RawNode Follower) (r : stepped (RawNode Follower)) : Prop :=
  sat (fun n' => moves True never n n' /\ leader (role n') = leader (role n) /\ log_term (log n') = log_term (log n))
    (moves True never n) r.

Lemma quiet_campaigned n r :
  tv_ok (log n) -> sat (fun n' => fquiet n n') (quiet plain n) r -> campaigned n r.
Proof.
  intros Hok. apply sat_mono; [|intros; now apply quiet_moves]. intros n' [Hq Hl].
  split; [now apply quiet_moves|]. split; [exact Hl|]. apply (ts_term _ _ (q_tv _ _ _ Hq)).
Qed.

(** A granted vote is stored before it is sent. *)
Lemma send_grant_moves {R} (n : RawNode R) to r n' :
  tv_ok (log n) -> log_vote (log n) = Some to -> send to (CampaignResponse true) n = (r, n') ->
  moves True never n n' /\ role n' = role n /\ log n' = log n.
Proof.
  intros Hok Hv. unfold send, send_via, with_tx.
  destruct (channel_send_spec (mkEnvelope (node_id n) (node_term n) to (CampaignResponse true)) (tx n))
    as [(t & -> & Ht)|(e & ->)]; intros [= <- <-]; (split; [|split; reflexivity]).
  - split; cbn [node_id peers log tx]; auto. exists [mkEnvelope (node_id n) (node_term n) to (CampaignResponse true)].
    split; [exact Ht|]. constructor; [|constructor]. cbn. split; [reflexivity|]. split; [unfold node_term, get_term_vote; cbn; lia|].
    split; [intros _; auto|discriminate].
  - now destruct (quiet_moves True never n n Hok (quiet_refl plain n)).
Qed.

Lemma follower_campaign_ok msg n i t :
  tv_ok (log n) -> envelope_ok msg -> env_term msg = log_term (log n) ->
  campaigned n (follower_campaign msg i t n).
Proof.
  intros Hok [He1 He2] Ht. unfold follower_campaign. assert (fquiet n n) as Hn by reflexivity.
  if_case; [apply quiet_campaigned; [exact Hok|qstep; qdone]|].
  destruct (get_last_index (log n)) as [li lt]. if_case; [apply quiet_campaigned; [exact Hok|qstep; qdone]|].
  unfold campaigned, call at 1. destruct (with_log _ n) as [r1 n1] eqn:E1.
  destruct (set_term_vote_moves (env_term msg) (Some (env_from msg)) n r1 n1 Hok (conj He1 He2) E1)
    as [Hr [[Hq Hno]|(-> & Hm & Ht1 & Hv1 & _)]].
  - destruct r1 as [x|e|p]; [now destruct (Hno x)|..]; cbn; apply moves_into, quiet_moves; assumption.
  - unfold call. destruct (send _ _ n1) as [r2 n2] eqn:E2.
    destruct (send_grant_moves n1 _ r2 n2 (mv_ok _ _ _ _ Hm) Hv1 E2) as (Hm2 & Hr2 & Hl2).
    assert (moves True never n n2) as Hm' by (eapply moves_trans; eassumption).
    destruct r2; cbn [sat]; [|now apply moves_into..]. split; [exact Hm'|]. split; congruence.
Qed.

Lemma follower_handle_ok msg n :
  tv_ok (log n) -> envelope_ok msg -> env_term msg = log_term (log n) ->
  sat (fun n' => moves True never n n' /\ follows msg (role n) (role n') /\ log_term (log n') = log_term (log n))
    (moves True never n) (follower_handle msg n).
Proof.
  intros Hok He Ht. unfold follower_handle.
  set (n1 := if bool_decide _ then _ else n).
  assert (fquiet n n1) as [Hq Hl] by (unfold n1; case_bool_decide; [now apply fquiet_into|reflexivity]).
  assert (tv_ok (log n1)) as Hok1 by (apply (ts_ok _ _ (q_tv _ _ _ Hq)), Hok).
  assert (env_term msg = log_term (log n1)) as Ht1 by (rewrite (ts_term _ _ (q_tv _ _ _ Hq)); exact Ht).
  assert (forall r, handled msg n1 r ->
    sat (fun n' => moves True never n n' /\ follows msg (role n) (role n') /\ log_term (log n') = log_term (log n))
      (moves True never n) r) as Hh.
  { intros r. apply sat_mono.
    - intros n' [Hq' Hf]. split; [apply quiet_moves; [exact Hok|eapply quiet_trans; eassumption]|].
      split; [unfold follows in *; now rewrite Hl in Hf|].
      rewrite (ts_term _ _ (q_tv _ _ _ Hq')). apply (ts_term _ _ (q_tv _ _ _ Hq)).
    - intros d Hd. apply quiet_moves; [exact Hok|eapply quiet_trans; eassumption]. }
  clearbody n1. destruct (env_message msg) as [i t|v|i c s|m s|i t es|m j|s|s|q rq|q rs] eqn:Em.
  - eapply sat_mono; [| |apply follower_campaign_ok; eassumption].
    + intros n' (Hm & Hl' & Ht'). split; [|split; [left; unfold same_leader in *; congruence|congruence]].
      eapply moves_trans; [apply quiet_moves; [exact Hok|exact Hq]|exact Hm].
    + intros d Hm. eapply moves_trans; [apply quiet_moves; [exact Hok|exact Hq]|exact Hm].
  - apply Hh. split; [apply quiet_refl|now left].
  - apply Hh, follower_heartbeat_handled. now rewrite Em.
  - apply moves_into, quiet_moves; [exact Hok|exact Hq].
  - apply Hh, follower_append_handled. now rewrite Em.
  - apply moves_into, quiet_moves; [exact Hok|exact Hq].
  - apply Hh, handled_then; [now rewrite Em|]. intros n2. assert (fquiet n2 n2) as Hn2 by reflexivity. qstep. qdone.
  - apply moves_into, quiet_moves; [exact Hok|exact Hq].
  - apply Hh, follower_client_request_handled. now rewrite Em.
  - apply Hh, follower_client_response_handled.
Qed.

Lemma moves_weaken gr ld {R Q} (n : RawNode R) (n' : RawNode Q) : moves False never n n' -> moves gr ld n n'.
Proof.
  intros [A1 A2 A3 A4 (new & A5 & A6)]. split; auto. exists new. split; [exact A5|].
  eapply Forall_impl; [exact A6|]. cbn. intros m (M1 & M2 & M3 & M4).
  split; [exact M1|]. split; [exact M2|]. split; intros F; [now apply M3 in F|now apply M4 in F].
Qed.

Lemma moves_refl gr ld {R} (n : RawNode R) : tv_ok (log n) -> moves gr ld n n.
Proof. intros Hok. apply quiet_moves; [exact Hok|apply quiet_refl]. Qed.

Lemma moves_quiet gr ld {R Q Q'} (n : RawNode R) (n1 : RawNode Q) (n2 : RawNode Q') :
  moves False never n n1 -> quiet plain n1 n2 -> moves gr ld n n2.
Proof. intros Hm Hq. eapply moves_trans; [exact Hm|]. apply quiet_moves; [exact (mv_ok _ _ _ _ Hm)|exact Hq]. Qed.

(** Calls of quiet methods and of [set_term_vote], relative to the node [n0] at
    the start of a step. *)
Lemma sat_mcall {R0 R A B} (K : R -> R -> Prop) `{!PreOrder K} (n0 : RawNode R0) (m : stM (RawNode R) A) n
    (k : A -> RawNode R -> stepped B) Good gr ld :
  respects (kquiet plain K) m -> moves False never n0 n ->
  (forall a n', moves False never n0 n' -> quiet plain n n' -> K (role n) (role n') -> sat Good (moves gr ld n0) (k a n')) ->
  sat Good (moves gr ld n0) (call m n k).
Proof.
  intros Hm Hn Hk. eapply sat_call; [exact Hm| |]; intros.
  - apply moves_into. eapply moves_quiet; [exact Hn|]. apply H3.
  - apply Hk; [|apply H3..]. eapply moves_quiet; [exact Hn|]. apply H3.
Qed.

Lemma sat_mset {R0 R B} (n0 : RawNode R0) t v (n : RawNode R) (k : unit -> RawNode R -> stepped B) Good gr ld :
  term_vote_valid (t, v) -> moves False never n0 n ->
  (forall n', moves False never n0 n' -> log_term (log n') = t -> log_vote (log n') = v -> role n' = role n -> 0 < t ->
     sat Good (moves gr ld n0) (k tt n')) ->
  sat Good (moves gr ld n0) (call (with_log (set_term_vote t v)) n k).
Proof.
  intros Hv Hn Hk. unfold call. destruct (with_log _ n) as [r n'] eqn:Es.
  destruct (set_term_vote_moves t v n r n' (mv_ok _ _ _ _ Hn) Hv Es) as [Hr [[Hq Hno]|(-> & Hm & Ht & Hvo & Hpos)]].
  - destruct r as [x|e|p]; [now destruct (Hno x)|..]; cbn; apply moves_into; eapply moves_quiet; eassumption.
  - apply Hk; auto. eapply moves_trans; eassumption.
Qed.

Lemma follower_into_follower_ok t (n : RawNode Follower) :
  tv_ok (log n) -> is_u64 t ->
  sat (fun n' => moves False never n n' /\ log_term (log n') = t /\ leader (role n') = None) (moves False never n)
    (follower_into_follower t None n).
Proof.
  intros Hok Ht. unfold follower_into_follower. assert (moves False never n n) as Hn by now apply moves_refl.
  apply sat_check; [now apply moves_into|]. intros _.
  eapply (sat_mcall same_leader); [auto with respects typeclass_instances|exact Hn|]. intros _ n1 Hn1 _ _.
  apply sat_check; [now apply moves_into|]. intros _.
  apply sat_mset; [now split|exact Hn1|]. intros n2 Hn2 Ht2 _ _ _.
  eapply (sat_mcall same_leader); [auto with respects typeclass_instances|exact Hn2|]. intros timeout n3 Hn3 Hq _.
  cbn. split; [now apply moves_into|]. split; [|reflexivity]. now rewrite (ts_term _ _ (q_tv _ _ _ Hq)).
Qed.

(** A follower's step: on what grounds it follows a leader afterwards. *)
Definition follows_after (msg : Envelope) (n n' : RawNode Follower) : Prop :=
  forall l, leader (role n') = Some l ->
    leader (role n) = Some l /\ log_term (log n') = log_term (log n) \/
    is_lead (env_message msg) = true /\ env_from msg = l /\ env_term msg = log_term (log n').

Definition follower_stepped (msg : Envelope) {R} (n : RawNode R) (Fol : RawNode Follower -> Prop) (r : stepped Node) : Prop :=
  sat (fun N => exists n', N = NFollower n' /\ moves True never n n' /\ Fol n') (moves True never n) r.

Lemma follower_step_same msg n fuel :
  tv_ok (log n) -> envelope_ok msg -> env_term msg = log_term (log n) ->
  follower_stepped msg n (follows_after msg n) (follower_step_n (Datatypes.S fuel) msg n).
Proof.
  intros Hok He Ht. cbn [follower_step_n]. change (node_term n) with (log_term (log n)). rewrite Ht, Z.ltb_irrefl.
  eapply sat_then; [apply follower_handle_ok; eassumption|]. cbn. intros n' (Hm & Hf & Ht'). exists n'.
  split; [reflexivity|]. split; [exact Hm|]. intros l Hl. rewrite Ht'.
  destruct Hf as [Hf|[Hf1 Hf2]]; [left; split; congruence|right]. split; [exact Hf1|]. split; congruence.
Qed.

Lemma follower_step_ok msg (n : RawNode Follower) :
  tv_ok (log n) -> envelope_ok msg ->
  follower_stepped msg n (follows_after msg n) (follower_step msg n).
Proof.
  intros Hok He. unfold follower_step. destruct (Z.lt_trichotomy (env_term msg) (log_term (log n))) as [Ht|[Ht|Ht]].
  - cbn [follower_step_n]. change (node_term n) with (log_term (log n)). rewrite (proj2 (Z.ltb_lt _ _) Ht).
    exists n. split; [reflexivity|]. split; [now apply moves_refl|]. intros l Hl. auto.
  - now apply follower_step_same.
  - cbn [follower_step_n]. change (node_term n) with (log_term (log n)).
    rewrite (proj2 (Z.ltb_ge _ _)), (proj2 (Z.ltb_lt _ _)) by lia.
    eapply sat_then.
    + eapply sat_mono; [| |apply follower_into_follower_ok; [exact Hok|apply He]]; [intros a Ha; exact Ha|].
      intros d Hd. now apply moves_weaken.
    + cbn. intros n1 (Hm1 & Ht1 & Hl1).
      pose proof (follower_step_same msg n1 0 (mv_ok _ _ _ _ Hm1) He (eq_sym Ht1)) as Hs.
      eapply sat_mono; [| |exact Hs]; cbn.
      * intros N (n' & -> & Hm & Hf). exists n'. split; [reflexivity|]. split; [eapply moves_trans; eassumption|].
        intros l Hl. destruct (Hf l Hl) as [[F _]|F]; [congruence|auto].
      * intros d Hd. eapply moves_trans; eassumption.
Qed.

(** The recursion of a follower's step ends with the second call. *)
Lemma follower_step_fuel msg (n : RawNode Follower) k :
  tv_ok (log n) -> envelope_ok msg -> follower_step_n (2 + k) msg n = follower_step msg n.
Proof.
  intros Hok He. unfold follower_step. cbn [follower_step_n Nat.add].
  destruct (env_term msg <? node_term n); [reflexivity|]. destruct (node_term n <? env_term msg); [|reflexivity].
  pose proof (follower_into_follower_ok (env_term msg) n Hok (proj1 He)) as Hs.
  destruct (follower_into_follower (env_term msg) None n) as [n1| |]; [|reflexivity..]. cbn in *.
  destruct Hs as (_ & Ht & _). change (node_term n1) with (log_term (log n1)). rewrite Ht, !Z.ltb_irrefl. reflexivity.
Qed.

(** ** Campaigning *)
Lemma call_bind {R A B C} (m : stM (RawNode R) A) (f : A -> stM (RawNode R) B) n (k : B -> RawNode R -> stepped C) :
  call (st_bind m f) n k = call m n (fun a n' => call (f a) n' k).
Proof. unfold call, st_bind. now destruct (m n) as [[]]. Qed.

Lemma call_at {R A C} (m m' : stM (RawNode R) A) n (k : A -> RawNode R -> stepped C) :
  m n = m' n -> call m n k = call m' n k.
Proof. unfold call. now intros ->. Qed.
Definition same_votes (r r' : Candidate) : Prop := votes r' = votes r.
#[local] Instance same_votes_preorder : PreOrder same_votes.
Proof. split; [now intros r|intros r1 r2 r3; unfold same_votes; congruence]. Qed.
#[local] Hint Extern 1 (same_votes _ _) => reflexivity : respects.

Lemma sat_campaign {R0 B} (n0 : RawNode R0) n (k : unit -> RawNode Candidate -> stepped B) Good gr ld :
  moves False never n0 n -> 0 <= node_id n <= u8_max ->
  (forall n', moves False never n0 n' -> votes (role n') = {[node_id n']} -> log_vote (log n') = Some (node_id n') ->
     log_term (log n) < log_term (log n') -> sat Good (moves gr ld n0) (k tt n')) ->
  sat Good (moves gr ld n0) (call campaign n k).
Proof.
  intros Hn Hid Hk. erewrite (call_at campaign _ n); [|cbv beta delta [campaign]; reflexivity].
  rewrite call_bind. eapply (sat_mcall same_votes); [auto with respects typeclass_instances|exact Hn|].
  intros timeout n1 Hn1 Hq1 _. rewrite call_bind. cbn [call update_role st_modify]. rewrite call_bind.
  pose proof (q_id _ _ _ Hq1) as Hid1. pose proof (ts_term _ _ (q_tv _ _ _ Hq1)) as Ht1.
  apply sat_mset; [split; [apply u64_range|exact Hid]|now apply moves_into|]. cbn beta iota.
  intros n2 Hn2 Ht2 Hv2 Hr2 Hpos.
  assert (log_term (log n) < log_term (log n2)) as Hlt.
  { rewrite Ht2. change (node_term n) with (log_term (log n)) in *. destruct (tv_valid _ (mv_ok _ _ _ _ Hn)) as [Hu _].
    unfold u64_add, u64, wrap_u, is_u64, u64_max in *. cbn [fst] in Hu.
    destruct (decide (log_term (log n) = 18446744073709551615)) as [F|F]; [rewrite F in Hpos; vm_compute in Hpos; discriminate|].
    rewrite Z.mod_small by lia. lia. }
  assert (node_id n2 = node_id n) as Hid2 by (rewrite (mv_id _ _ _ _ Hn2); symmetry; apply (mv_id _ _ _ _ Hn)).
  assert (votes (role n2) = {[node_id n]}) as Hvotes by now rewrite Hr2.
  rewrite (call_at _ (broadcast (Campaign (last_index (log n2)) (last_term (log n2)))) n2) by reflexivity.
  eapply (sat_mcall same_votes); [|exact Hn2|].
  { apply (quiet_broadcast plain same_votes). now split. }
  intros [] n3 Hn3 Hq3 Hr3. pose proof (q_tv _ _ _ Hq3) as [T3 V3 _]. pose proof (q_id _ _ _ Hq3) as I3.
  apply Hk; [exact Hn3|..].
  - unfold same_votes in Hr3. congruence.
  - congruence.
  - congruence.
Qed.

(** A node that has just started an election. *)
Definition campaigning {R} (n : RawNode R) (c : RawNode Candidate) : Prop :=
  moves False never n c /\ votes (role c) = {[node_id c]} /\ log_vote (log c) = Some (node_id c).

Lemma follower_into_candidate_ok (n : RawNode Follower) :
  tv_ok (log n) -> 0 <= node_id n <= u8_max ->
  sat (campaigning n) (moves False never n) (follower_into_candidate n).
Proof.
  intros Hok Hid. unfold follower_into_candidate. assert (moves False never n n) as Hn by now apply moves_refl.
  eapply (sat_mcall same_leader); [auto with respects typeclass_instances|exact Hn|]. intros _ n1 Hn1 _ _.
  eapply (sat_mcall same_leader); [auto with respects typeclass_instances|exact Hn1|]. intros _ n2 Hn2 _ _.
  eapply (sat_mcall same_leader); [auto with respects typeclass_instances|exact Hn2|]. intros timeout n3 Hn3 _ _.
  cbv zeta. apply sat_campaign; [now apply moves_into|cbn; now rewrite (mv_id _ _ _ _ Hn3)|].
  intros n4 Hn4 Hv4 Hl4 _. destruct (get_term_vote (log n4)) as [t v].
  do 3 (apply sat_check; [now apply moves_into|intros _]). exact (conj Hn4 (conj Hv4 Hl4)).
Qed.

Lemma candidate_into_follower_ok t l (n : RawNode Candidate) :
  tv_ok (log n) -> is_u64 t ->
  sat (fun n' => moves False never n n' /\ log_term (log n') = t /\ leader (role n') = l) (moves False never n)
    (candidate_into_follower t l n).
Proof.
  intros Hok Ht. unfold candidate_into_follower. assert (moves False never n n) as Hn by now apply moves_refl.
  eapply (sat_mcall same_votes); [auto with respects typeclass_instances|exact Hn|]. intros timeout n1 Hn1 _ _.
  destruct l as [l|]; (apply sat_check; [now apply moves_into|intros Hc]).
  - cbn. apply Z.eqb_eq in Hc. split; [now apply moves_into|]. now split.
  - apply sat_mset; [now split|exact Hn1|]. intros n2 Hn2 Ht2 _ _ _. cbn. split; [now apply moves_into|]. now split.
Qed.

(** ** Leaders *)
Definition any_leader (r r' : Leader) : Prop := True.
#[local] Instance any_leader_preorder : PreOrder any_leader.
Proof. now split. Qed.
#[local] Hint Extern 1 (any_leader _ _) => exact I : respects.
Definition lquiet : RawNode Leader -> RawNode Leader -> Prop := kquiet no_grant any_leader.
#[local] Instance lquiet_preorder : PreOrder lquiet.
Proof. unfold lquiet. typeclasses eauto. Qed.
#[local] Hint Unfold lquiet : respects.

Lemma get_progress_quiet p : respects lquiet (get_progress p).
Proof. apply respects_same; [typeclasses eauto|]. intros n. unfold get_progress. now destruct (progress (role n) !! p). Qed.
Lemma set_progress_quiet p x : respects lquiet (set_progress p x).
Proof. apply quiet_update_role. now intros. Qed.
#[local] Hint Resolve get_progress_quiet set_progress_quiet : respects.
Lemma update_progress_quiet p f : respects lquiet (update_progress p f).
Proof. unfold update_progress. solve_respects. Qed.
Lemma lquiet_send to m : no_grant m -> respects lquiet (send to m).
Proof. now apply quiet_send. Qed.
Lemma lquiet_broadcast m : no_grant m -> respects lquiet (broadcast m).
Proof. now apply quiet_broadcast. Qed.
Lemma lquiet_role f : respects lquiet (update_role f).
Proof. now apply quiet_update_role. Qed.
Lemma lquiet_log {A} (m : stM (Log E) A) : respects tv_same m -> respects lquiet (with_log m).
Proof. intros Hm. apply quiet_with_log; [typeclasses eauto|exact Hm]. Qed.
#[local] Hint Resolve update_progress_quiet lquiet_send lquiet_broadcast lquiet_role lquiet_log : respects.

Lemma maybe_send_append_quiet p b : respects lquiet (maybe_send_append p b).
Proof. unfold maybe_send_append. respects_at n. cbv zeta. solve_respects. Qed.

Lemma heartbeat_quiet : respects lquiet heartbeat.
Proof.
  unfold heartbeat. intros n. destruct (get_last_index (log n)) as [li lt]. revert n. respects_at n. solve_respects.
Qed.
#[local] Hint Resolve maybe_send_append_quiet heartbeat_quiet : respects.

Lemma propose_quiet c : respects lquiet (propose c).
Proof. unfold propose. respects_at n. solve_respects. Qed.

Lemma respond_quiet {A} (r : outcome A) f k :
  (forall resp, respects lquiet (k resp)) -> respects lquiet (to_response r f k).
Proof. intros Hk. unfold to_response. destruct r; [apply Hk..|]. apply respects_panic. typeclasses eauto. Qed.

Lemma read_loop_quiet s q : respects lquiet (read_loop s q).
Proof.
  induction q as [|x q IH]; cbn [read_loop]; [solve_respects|]. apply respects_if; [solve_respects|].
  apply respects_bind; [typeclasses eauto|auto with respects|]. intros _. respects_at n.
  apply respects_bind; [typeclasses eauto| |auto]. apply respond_quiet. auto with respects.
Qed.
#[local] Hint Resolve read_loop_quiet : respects.

Lemma maybe_read_quiet : respects lquiet maybe_read.
Proof.
  unfold maybe_read. intros n. destruct (reads (role n)) as [|x q]; [reflexivity|].
  destruct (get_commit_index (log n)) as [ci ct]. if_case; [reflexivity|]. revert n. respects_at n. solve_respects.
Qed.

Lemma lquiet_term n n' : lquiet n n' -> node_term n' = node_term n.
Proof. intros [Hq _]. apply (ts_term _ _ (q_tv _ _ _ Hq)). Qed.

Lemma apply_and_respond_quiet t e n : node_term n = t -> lquiet n (apply_and_respond t e n).2.
Proof.
  intros Ht. unfold apply_and_respond, st_bind, update_role, st_modify. set (n1 := into_role _ n).
  assert (lquiet n n1) as Hq1 by (split; [apply quiet_into, quiet_refl|exact I]).
  pose proof (quiet_with_state no_grant any_leader (state_apply e) n1) as Hq2.
  destruct (with_state (state_apply e) n1) as [r n2]. cbn [snd] in Hq2.
  assert (lquiet n n2) as Hq by (etransitivity; eassumption).
  assert (forall w resp, lquiet n (send_via (mkEnvelope (node_id n2) t (w_from w) (ClientResponse (w_id w) resp)) n2).2) as Hs.
  { intros w resp. etransitivity; [exact Hq|]. apply quiet_send_via; [typeclasses eauto|reflexivity| |reflexivity].
    cbn [env_term]. rewrite (lquiet_term _ _ Hq). congruence. }
  destruct r; [..|exact Hq]; (destruct (writes (role n) !! index e) as [w|]; [apply Hs|exact Hq]).
Qed.

Lemma apply_loop_quiet t items n :
  node_term n = t ->
  lquiet n (st_iter (fun item => let! entry := st_lift item in apply_and_respond t entry) items n).2.
Proof.
  revert n; induction items as [|item items IH]; intros n Ht; cbn [st_iter]; [reflexivity|].
  unfold st_bind at 1. unfold st_bind at 1, st_lift. destruct item as [e|e|p]; [|reflexivity..].
  pose proof (apply_and_respond_quiet t e n Ht) as Hq.
  destruct (apply_and_respond t e n) as [[u|er|p] n1]; cbn [snd] in *; [|exact Hq..].
  etransitivity; [exact Hq|]. apply IH. rewrite (lquiet_term _ _ Hq). exact Ht.
Qed.

Lemma maybe_commit_and_apply_quiet : respects lquiet maybe_commit_and_apply.
Proof.
  unfold maybe_commit_and_apply. intros n. unfold st_bind at 1, st_read at 1.
  destruct (quorum_value _ n) as [ci|e|p]; [|reflexivity..]. destruct (get_commit_index (log n)) as [oi ot].
  if_case; [reflexivity|]. unfold st_bind at 1, st_read at 1. destruct (get ci (log n)) as [[e|]|e|p]; [|reflexivity..].
  if_case; [reflexivity|]. unfold st_bind at 1.
  assert (lquiet n (with_log (commit ci) n).2) as Hc by (apply lquiet_log; auto with respects).
  destruct (with_log (commit ci) n) as [[u|er|p] n1]; cbn [snd] in *; [|exact Hc..].
  unfold st_bind at 1, st_read at 1. destruct (scan_apply _ _) as [items|er|p]; [|exact Hc..].
  unfold st_bind at 1. pose proof (apply_loop_quiet (node_term n) items n1 (lquiet_term _ _ Hc)) as Hl.
  assert (lquiet n (st_iter (fun item => let! entry := st_lift item in apply_and_respond (node_term n) entry) items n1).2)
    as Hq by (etransitivity; eassumption).
  destruct (st_iter _ items n1) as [[v|er|p] n2]; cbn [snd] in *; [|exact Hq..].
  etransitivity; [exact Hq|]. apply respects_bind; [typeclasses eauto| |intros _; solve_respects].
  intros n3. if_case; [apply maybe_read_quiet|reflexivity].
Qed.
#[local] Hint Resolve propose_quiet maybe_read_quiet maybe_commit_and_apply_quiet respond_quiet : respects.

Lemma leader_handle_quiet msg : respects lquiet (leader_handle msg).
Proof.
  unfold leader_handle. intros n. cbv zeta.
  destruct (env_message msg) as [i t|v|i c s|m s|i t es|m j|s|s|q rq|q rs]; try reflexivity.
  - revert n. respects_at n. auto with respects.
  - revert n. respects_at n. solve_respects.
  - if_case; [revert n; respects_at n0; solve_respects|]. if_case; [revert n; respects_at n0; solve_respects|reflexivity].
  - revert n. respects_at n. solve_respects.
  - destruct rq as [c|c|].
    + revert n. respects_at n. do 2 (apply respects_bind; [typeclasses eauto|auto with respects|intros _]).
      intros n1. if_case; [apply maybe_read_quiet|reflexivity].
    + revert n. respects_at n. do 2 (apply respects_bind; [typeclasses eauto|auto with respects|intros ?]).
      intros n1. if_case; [|reflexivity]. revert n1. respects_at n1. solve_respects.
    + revert n. respects_at n. apply respond_quiet. auto with respects.
Qed.

(** Winning an election. *)
Lemma candidate_into_leader_quiet (n : RawNode Candidate) :
  sat (fun n' => quiet no_grant n n' /\ log_vote (log n) = Some (node_id n)) (quiet no_grant n) (candidate_into_leader n).
Proof.
  unfold candidate_into_leader. destruct (get_term_vote (log n)) as [t v] eqn:Ev.
  assert (quiet no_grant n n) as Hn by apply quiet_refl.
  apply sat_check; [now apply quiet_into|intros _]. apply sat_check; [now apply quiet_into|intros Hv].
  apply bool_decide_eq_true in Hv. unfold get_term_vote in Ev. injection Ev as _ Ev. rewrite Ev. cbv zeta.
  set (n1 := into_role _ n). assert (quiet no_grant n n1) as Hn1 by now apply quiet_into.
  eapply (sat_call lquiet).
  - apply respects_bind; [typeclasses eauto|apply propose_quiet|]. intros _.
    apply respects_bind; [typeclasses eauto|apply maybe_commit_and_apply_quiet|]. intros _. apply heartbeat_quiet.
  - intros n' [Hq _]. apply quiet_into. eapply quiet_trans; eassumption.
  - intros _ n' [Hq _]. cbn. split; [eapply quiet_trans; eassumption|congruence].
Qed.

(** ** Steps of a node *)

(** The grounds for speaking as the leader of a term. *)
Definition wins (N : Node) (src : option Envelope) (t : Term) (v : option NodeID) : Prop :=
  match N with
  | NLeader n => log_term (log n) = t
  | NCandidate c =>
      log_term (log c) = t /\
      exists m, src = Some m /\ is_grant (env_message m) = true /\ env_term m = t /\
                (quorum_size c <= size ({[env_from m]} ∪ votes (role c)))%nat
  | NFollower _ => False
  end.

(** The role a step leaves a node in, and on what grounds. *)
Definition role_after (N : Node) (src : option Envelope) (N' : Node) : Prop :=
  match N' with
  | NFollower f =>
      forall l, leader (role f) = Some l ->
        (exists f0, N = NFollower f0 /\ leader (role f0) = Some l /\ log_term (log f) = log_term (log f0)) \/
        (exists m, src = Some m /\ is_lead (env_message m) = true /\ env_from m = l /\ env_term m = log_term (log f))
  | NCandidate c =>
      forall j, j ∈ votes (role c) ->
        (j = node_id c /\ log_vote (log c) = Some (node_id c)) \/
        (exists c0, N = NCandidate c0 /\ log_term (log c) = log_term (log c0) /\ j ∈ votes (role c0)) \/
        (exists m, src = Some m /\ is_grant (env_message m) = true /\ env_term m = log_term (log c) /\ env_from m = j)
  | NLeader l => wins N src (log_term (log l)) (log_vote (log l))
  end.

Definition stepped_ok (N : Node) (src : option Envelope) (r : stepped Node) : Prop :=
  sat (fun N' => moves True (wins N src) (core N) (core N') /\ role_after N src N')
    (moves True (wins N src) (core N)) r.

Lemma moves_mono (gr gr' : Prop) (ld ld' : Term -> option NodeID -> Prop) {R Q} (n : RawNode R) (n' : RawNode Q) :
  (gr -> gr') -> (forall t v, ld t v -> ld' t v) -> moves gr ld n n' -> moves gr' ld' n n'.
Proof.
  intros Hg Hl [A1 A2 A3 A4 (new & A5 & A6)]. split; auto. exists new. split; [exact A5|].
  eapply Forall_impl; [exact A6|]. cbn. intros m (M1 & M2 & M3 & M4).
  split; [exact M1|]. split; [exact M2|]. split; [intros F; destruct (M3 F); auto|intros F; destruct (M4 F); auto].
Qed.

Lemma moves_core gr ld {R} (n : RawNode R) {Q} (n' : RawNode Q) :
  moves gr ld n n' -> moves gr ld (into_role tt n) (into_role tt n').
Proof. now intros []. Qed.
Lemma moves_core_l gr ld {R} (n : RawNode R) {Q} (n' : RawNode Q) :
  moves gr ld n n' -> moves gr ld (into_role tt n) n'.
Proof. now intros []. Qed.

(** A step that moves into a term and continues as a follower. *)
Lemma follower_continue (N : Node) msg {R} (n : RawNode R) l (r : stepped (RawNode Follower)) :
  core N = into_role tt n -> envelope_ok msg ->
  (l = None \/ l = Some (env_from msg) /\ is_lead (env_message msg) = true) ->
  sat (fun n' => moves False never n n' /\ log_term (log n') = env_term msg /\ leader (role n') = l) (moves False never n) r ->
  stepped_ok N (Some msg) (and_then r (follower_step msg)).
Proof.
  intros Hc He Hl Hr. unfold stepped_ok. rewrite Hc. eapply sat_then.
  - eapply sat_mono; [| |exact Hr]; [intros a Ha; exact Ha|]. intros d Hd. now apply moves_core_l, moves_weaken.
  - cbn. intros n1 (Hm1 & Ht1 & Hl1).
    pose proof (follower_step_same msg n1 1 (mv_ok _ _ _ _ Hm1) He (eq_sym Ht1)) as Hs.
    eapply sat_mono; [| |exact Hs].
    + intros N' (n' & -> & Hm & Hf). split.
      * apply moves_core, (moves_mono True True never); [auto|now intros|]. eapply moves_trans; eassumption.
      * intros l' Hl'. right. exists msg. split; [reflexivity|]. destruct (Hf l' Hl') as [[F1 F2]|F]; [|tauto].
        destruct Hl as [->|[-> Hlead]]; [congruence|]. split; [exact Hlead|]. split; congruence.
    + intros d Hd. apply moves_core_l, (moves_mono True True never); [auto|now intros|]. eapply moves_trans; eassumption.
Qed.

Lemma follower_stepped_ok (n : RawNode Follower) msg :
  tv_ok (log n) -> envelope_ok msg -> stepped_ok (NFollower n) (Some msg) (follower_step msg n).
Proof.
  intros Hok He. eapply sat_mono; [| |exact (follower_step_ok msg n Hok He)].
  - intros N' (n' & -> & Hm & Hf). split.
    + apply moves_core, (moves_mono True True never); [auto|now intros|exact Hm].
    + intros l Hl. destruct (Hf l Hl) as [[F1 F2]|F]; [left; eauto|right; exists msg; tauto].
  - intros d Hd. apply moves_core_l, (moves_mono True True never); [auto|now intros|exact Hd].
Qed.

(** Keeping the role. *)
Lemma stepped_candidate (c c' : RawNode Candidate) src :
  tv_ok (log c) -> quiet plain c c' -> votes (role c') = votes (role c) ->
  moves True (wins (NCandidate c) src) (core (NCandidate c)) (core (NCandidate c')) /\
  role_after (NCandidate c) src (NCandidate c').
Proof.
  intros Hok Hq Hv. split; [now apply moves_core, quiet_moves|]. intros j Hj. right; left. exists c.
  split; [reflexivity|]. split; [apply (ts_term _ _ (q_tv _ _ _ Hq))|congruence].
Qed.

Lemma candidate_send_ok (c : RawNode Candidate) src to m :
  tv_ok (log c) -> plain m ->
  stepped_ok (NCandidate c) src (call (send to m) c (fun _ n => Done (NCandidate n))).
Proof.
  intros Hok Hp. eapply (sat_call (kquiet plain same_votes)); [apply quiet_send; [typeclasses eauto|exact Hp]| |].
  - intros n' [Hq _]. now apply moves_core, quiet_moves.
  - intros _ n' [Hq Hv]. now apply stepped_candidate.
Qed.

Lemma candidate_grant_ok (c : RawNode Candidate) msg :
  tv_ok (log c) -> env_term msg = log_term (log c) -> is_grant (env_message msg) = true ->
  let c' := into_role (mkCandidate ({[env_from msg]} ∪ votes (role c)) (election_duration (role c))
              (c_election_timeout (role c))) c in
  stepped_ok (NCandidate c) (Some msg)
    (if (quorum_size c' <=? size (votes (role c')))%nat then
       then! n := candidate_into_leader c' in Done (NLeader n)
     else Done (NCandidate c')).
Proof.
  intros Hok Ht Hg. cbv zeta. set (c' := into_role _ c). destruct (Nat.leb_spec (quorum_size c') (size (votes (role c')))) as [Hq|_].
  - assert (wins (NCandidate c) (Some msg) (log_term (log c)) (log_vote (log c))) as Hw by (split; [reflexivity|]; eauto).
    eapply sat_then.
    + eapply sat_mono; [| |apply candidate_into_leader_quiet]; [intros a Ha; exact Ha|].
      intros d Hd. apply moves_core_l. apply (moves_of_into _ _ c d (role c')). now apply quiet_moves_lead.
    + cbn [sat]. intros n' [Hn' _]. split.
      * apply moves_core. apply (moves_of_into _ _ c n' (role c')). now apply quiet_moves_lead.
      * cbn. rewrite (ts_term _ _ (q_tv _ _ _ Hn')). exact Hw.
  - split; [now apply moves_core, moves_into, moves_refl|]. cbn. intros j Hj.
    apply elem_of_union in Hj as [->%elem_of_singleton|Hj].
    + right; right. eauto.
    + right; left. eauto.
Qed.

Lemma candidate_stepped_ok (c : RawNode Candidate) msg :
  tv_ok (log c) -> envelope_ok msg -> stepped_ok (NCandidate c) (Some msg) (candidate_step msg c).
Proof.
  intros Hok He. unfold candidate_step. change (node_term c) with (log_term (log c)).
  assert (stepped_ok (NCandidate c) (Some msg) (Done (NCandidate c))) as Hsame
    by (apply stepped_candidate; [exact Hok|apply quiet_refl|reflexivity]).
  destruct (Z.ltb_spec (env_term msg) (log_term (log c))) as [|Hge]; [exact Hsame|].
  destruct (Z.ltb_spec (log_term (log c)) (env_term msg)) as [Hlt|Hle].
  { apply (follower_continue _ msg c None); [reflexivity|exact He|auto|]. apply candidate_into_follower_ok; [exact Hok|apply He]. }
  assert (env_term msg = log_term (log c)) as Ht by lia.
  assert (moves True (wins (NCandidate c) (Some msg)) (core (NCandidate c)) (into_role tt c)) as Hbad
    by now apply moves_core, moves_refl.
  assert (is_lead (env_message msg) = true -> stepped_ok (NCandidate c) (Some msg)
    (and_then (candidate_into_follower (env_term msg) (Some (env_from msg)) c) (follower_step msg))) as Hlead.
  { intros Hl. apply (follower_continue _ msg c (Some (env_from msg))); [reflexivity|exact He|auto|].
    apply candidate_into_follower_ok; [exact Hok|apply He]. }
  destruct (env_message msg) as [i t|v|i ci s|m s|i t es|m j|s|s|q rq|q rs] eqn:Em;
    try exact Hbad; try (now apply Hlead); try (apply candidate_send_ok; [exact Hok|now split]).
  destruct v; [|exact Hsame]. apply candidate_grant_ok; [exact Hok|exact Ht|now rewrite Em].
Qed.

Lemma campaigning_ok (N : Node) {R} (n : RawNode R) (c : RawNode Candidate) :
  core N = into_role tt n -> campaigning n c ->
  moves True (wins N None) (core N) (core (NCandidate c)) /\ role_after N None (NCandidate c).
Proof.
  intros Hc (Hm & Hv & Hl). rewrite Hc. split; [now apply moves_core, moves_weaken|].
  intros j Hj. rewrite Hv in Hj. apply elem_of_singleton in Hj. auto.
Qed.

Lemma candidate_tick_ok (c : RawNode Candidate) :
  tv_ok (log c) -> 0 <= node_id c <= u8_max -> stepped_ok (NCandidate c) None (candidate_tick c).
Proof.
  intros Hok Hid. unfold candidate_tick. cbv zeta. set (c1 := into_role _ c).
  assert (quiet plain c c1) as Hq by apply quiet_into, quiet_refl. if_case.
  - eapply sat_mono; [intros N' HN; exact HN| |].
    { intros d Hd. apply (moves_core_l True (wins (NCandidate c) None)), Hd. }
    apply (sat_campaign c c1); [now apply quiet_moves|exact Hid|]. intros n' Hm Hv Hl _.
    now apply (campaigning_ok _ c).
  - now apply stepped_candidate.
Qed.

Lemma follower_tick_ok (f : RawNode Follower) :
  tv_ok (log f) -> 0 <= node_id f <= u8_max -> stepped_ok (NFollower f) None (follower_tick f).
Proof.
  intros Hok Hid. unfold follower_tick. cbv zeta. set (f1 := into_role _ f).
  if_case.
  - eapply sat_then.
    + eapply sat_mono; [| |apply (follower_into_candidate_ok f1 Hok Hid)]; [intros a Ha; exact Ha|].
      intros d Hd. apply moves_core_l, (moves_of_into _ _ f d (role f1)), moves_weaken, Hd.
    + intros c Hc. now apply (campaigning_ok _ f1).
  - split; [now apply moves_core, moves_into, moves_refl|]. cbn. intros l Hl. left. eauto.
Qed.

Lemma leader_into_follower_ok t (n : RawNode Leader) :
  tv_ok (log n) -> is_u64 t ->
  sat (fun n' => moves False never n n' /\ log_term (log n') = t /\ leader (role n') = None) (moves False never n)
    (leader_into_follower t n).
Proof.
  intros Hok Ht. unfold leader_into_follower. assert (moves False never n n) as Hn by now apply moves_refl.
  apply sat_check; [now apply moves_into|intros _]. cbv zeta. rewrite !call_bind.
  eapply (sat_mcall any_leader); [now apply quiet_update_role|exact Hn|]. intros _ n1 Hn1 _ _. rewrite call_bind.
  eapply (sat_mcall any_leader); [apply respects_iter; [typeclasses eauto|]; intros w; now apply quiet_send|exact Hn1|].
  intros _ n2 Hn2 _ _. rewrite call_bind.
  eapply (sat_mcall any_leader); [now apply quiet_update_role|exact Hn2|]. intros _ n3 Hn3 _ _. rewrite call_bind.
  eapply (sat_mcall any_leader); [apply respects_iter; [typeclasses eauto|]; intros w; now apply quiet_send|exact Hn3|].
  intros _ n4 Hn4 _ _.
  apply sat_mset; [now split|exact Hn4|]. intros n5 Hn5 Ht5 _ _ _.
  eapply (sat_mcall any_leader); [apply quiet_timeout; typeclasses eauto|exact Hn5|]. intros timeout n6 Hn6 Hq _.
  cbn. split; [now apply moves_into|]. split; [|reflexivity]. now rewrite (ts_term _ _ (q_tv _ _ _ Hq)).
Qed.

Lemma leader_quiet_ok (n n' : RawNode Leader) src :
  tv_ok (log n) -> quiet no_grant n n' ->
  moves True (wins (NLeader n) src) (core (NLeader n)) (core (NLeader n')) /\ role_after (NLeader n) src (NLeader n').
Proof.
  intros Hok Hq. split; [apply moves_core, quiet_moves_lead; [exact Hok|reflexivity|exact Hq]|].
  cbn. symmetry. apply (ts_term _ _ (q_tv _ _ _ Hq)).
Qed.

Lemma leader_call_ok (n : RawNode Leader) src m :
  tv_ok (log n) -> respects lquiet m ->
  stepped_ok (NLeader n) src (call m n (fun _ : unit => fun n => Done (NLeader n))).
Proof.
  intros Hok Hm. eapply (sat_call lquiet); [exact Hm| |].
  - intros n' [Hq _]. apply moves_core, quiet_moves_lead; [exact Hok|reflexivity|exact Hq].
  - intros _ n' [Hq _]. now apply leader_quiet_ok.
Qed.

Lemma leader_stepped_ok (n : RawNode Leader) msg :
  tv_ok (log n) -> envelope_ok msg -> stepped_ok (NLeader n) (Some msg) (leader_step msg n).
Proof.
  intros Hok He. unfold leader_step. if_case; [apply leader_quiet_ok; [exact Hok|apply quiet_refl]|]. if_case.
  - apply (follower_continue _ msg n None); [reflexivity|exact He|auto|]. apply leader_into_follower_ok; [exact Hok|apply He].
  - apply leader_call_ok; [exact Hok|apply leader_handle_quiet].
Qed.

Lemma leader_tick_ok (n : RawNode Leader) : tv_ok (log n) -> stepped_ok (NLeader n) None (leader_tick n).
Proof. intros Hok. unfold leader_tick. cbv zeta. apply leader_call_ok; [exact Hok|]. solve_respects. Qed.

Lemma step_ok (N : Node) msg :
  tv_ok (log (core N)) -> envelope_ok msg -> stepped_ok N (Some msg) (step msg N).
Proof.
  intros Hok He. unfold step. cbv zeta.
  assert (moves True (wins N (Some msg)) (core N) (into_role tt (core N))) as Hbad by now apply moves_into, moves_refl.
  do 2 (apply sat_check; [exact Hbad|intros _]).
  destruct N; [now apply candidate_stepped_ok|now apply follower_stepped_ok|now apply leader_stepped_ok].
Qed.

Lemma tick_ok (N : Node) :
  tv_ok (log (core N)) -> 0 <= node_id (core N) <= u8_max -> stepped_ok N None (tick N).
Proof. destruct N; cbn; intros; [now apply candidate_tick_ok|now apply follower_tick_ok|now apply leader_tick_ok]. Qed.

(** Starting a node: only a node without peers may become leader at once. *)
Definition solo (id : NodeID) (ps : gset NodeID) (_ : Term) (v : option NodeID) : Prop := ps = ∅ /\ v = Some id.

Lemma follower_new_ok id ps (l : Log E) (s : S) (t : T) o (g : G) :
  sat (fun n => quiet plain (mkNode id ps l s t o g tt) n /\ leader (role n) = None)
    (quiet plain (mkNode id ps l s t o g tt)) (follower_new id ps l s t o g).
Proof.
  unfold follower_new. cbv zeta. set (n0 := mkNode id ps l s t o g tt). set (n1 := mkNode id ps l s t o g _).
  assert (quiet plain n0 n1) as Hq by (apply (quiet_into plain n0 n0 (role n1)), quiet_refl).
  if_case; [now apply quiet_into|].
  eapply (sat_call fquiet).
  - apply quiet_timeout. typeclasses eauto.
  - intros n' [Hq' _]. apply quiet_into. eapply quiet_trans; eassumption.
  - intros timeout n2 [Hq2 _]. set (n3 := into_role _ n2).
    assert (quiet plain n0 n3) as Hq3 by (apply quiet_into; eapply quiet_trans; eassumption).
    eapply (sat_call fquiet); [apply maybe_apply_quiet| |].
    + intros n' [Hq' _]. apply quiet_into. eapply quiet_trans; eassumption.
    + intros _ n4 [Hq4 Hl4]. split; [eapply quiet_trans; eassumption|]. rewrite Hl4. reflexivity.
Qed.

Lemma node_new_ok id ps (l : Log E) (s : S) (t : T) o (g : G) :
  tv_ok l -> 0 <= id <= u8_max ->
  let n0 := mkNode id ps l s t o g tt in
  sat (fun N => moves False (solo id ps) n0 (core N) /\
         match N with
         | NFollower f => leader (role f) = None
         | NCandidate _ => False
         | NLeader n => solo id ps (log_term (log n)) (log_vote (log n))
         end)
    (moves False (solo id ps) n0) (node_new id ps l s t o g).
Proof.
  intros Hok Hid n0. unfold node_new. eapply sat_then.
  { eapply sat_mono; [| |apply follower_new_ok]; [intros a Ha; exact Ha|]. intros d Hd. now apply quiet_moves. }
  intros f [Hq Hl]. assert (moves False never n0 f) as Hf by now apply quiet_moves.
  destruct (Nat.eqb_spec (cluster_size f) 1) as [Hs|_].
  2: { split; [now apply moves_into, moves_weaken|exact Hl]. }
  assert (ps = ∅) as Hps.
  { apply leibniz_equiv, size_empty_inv. unfold cluster_size in Hs. rewrite (q_peers _ _ _ Hq) in Hs. cbn in Hs. lia. }
  assert (0 <= node_id f <= u8_max) as Hidf by (now rewrite (q_id _ _ _ Hq)).
  eapply sat_then.
  { eapply sat_mono; [| |apply (follower_into_candidate_ok f (mv_ok _ _ _ _ Hf) Hidf)]; [intros a Ha; exact Ha|].
    intros d Hd. eapply moves_trans; [exact Hf|]. now apply moves_weaken. }
  intros c (Hc & _ & Hv). assert (moves False never n0 c) as Hc' by (eapply moves_trans; eassumption).
  assert (solo id ps (log_term (log c)) (log_vote (log c))) as Hsolo.
  { split; [exact Hps|]. rewrite Hv. f_equal. apply (mv_id _ _ _ _ Hc'). }
  eapply sat_then.
  { eapply sat_mono; [| |apply candidate_into_leader_quiet]; [intros a Ha; exact Ha|].
    intros d Hd. eapply moves_trans; [exact Hc'|]. apply quiet_moves_lead; [apply (mv_ok _ _ _ _ Hc')|exact Hsolo|exact Hd]. }
  intros n [Hn _]. split.
  - apply moves_into. eapply moves_trans; [exact Hc'|].
    apply quiet_moves_lead; [apply (mv_ok _ _ _ _ Hc')|exact Hsolo|exact Hn].
  - destruct (q_tv _ _ _ Hn) as [-> -> _]. exact Hsolo.
Qed.

End Steps.
