(* ===== verification/RaftDisk.v ===== *)
(** * The disk of a node that may stop

    A node's log is written to a storage engine on a disk, and the process or
    the machine may stop at any of these writes.  [Disk] is an engine with what
    a stop can do to it: a budget of writes after which the process stops, and
    the earlier states the disk may be left in, back to the last flush.  Writes
    of the commit index are flushed lazily, and any of them may be lost.  The
    other writes of a call of the log reach the disk together or not at all: a
    stop at one of them, or at their flush, loses them all, and a stop that
    keeps them is one at the next write, with the messages up to it sent, or at
    the end of the step.

    For the calls that make a single write this asks that the write is atomic,
    which BitCask's recovery gives; for [splice], which makes several, the code
    relies on it without ensuring it: [splice_torn] shows a log that is cut
    between two of them, whose entries no leader ever had.

    The operations of the log then either succeed or fail and leave the log as
    it was ([LogStore]), and every state a stop can leave holds the same term,
    vote and entries, with a commit index from before ([reopened_held]). *)
From S2P Require Import Prelude Bytes Keycode KeycodeTheory Btree Engine Memory Bincode.
From S2P Require Import RaftLog RaftLogTheory RaftLogClaims RaftNode RaftNodeTheory.

(** ** Disks *)
Record Disk (E : Type) : Type := mkDisk {
  disk : E;              (** what the engine holds *)
  before : option E;     (** before the writes that are not flushed, the commit index apart *)
  older : list E;        (** before the commit indexes that are not flushed *)
  budget : option nat;   (** the writes until the process stops *)
}.
Arguments mkDisk {E} _ _ _ _.
Arguments disk {E} _.
Arguments before {E} _.
Arguments older {E} _.
Arguments budget {E} _.

Section Disk.
Context {E : Type} `{Engine E}.

Definition open_disk (e : E) : Disk E := mkDisk e None [] None.
Definition arm (b : option nat) (d : Disk E) : Disk E := mkDisk (disk d) (before d) (older d) b.
(** The states a stop may leave. *)
Definition images (d : Disk E) : list E := disk d :: option_list (before d) ++ older d.

(** The process stops: pending writes are lost. *)
Definition stopped (d : Disk E) : Disk E := mkDisk (default (disk d) (before d)) None (older d) (Some 0%nat).

Definition is_commit_key (k : bytes) : bool := bool_decide (k = lkenc KeyCommitIndex).

Definition disk_write (lazy : bool) (w : stM E unit) : stM (Disk E) unit := fun d =>
  match budget d with
  | Some O => (Err (IO "stopped"), stopped d)
  | b =>
      let '(r, e) := w (disk d) in
      (r, match before d with
          | None => if lazy then mkDisk e None (disk d :: older d) (pred <$> b) else mkDisk e (Some (disk d)) (older d) (pred <$> b)
          | Some p => mkDisk e (Some p) (older d) (pred <$> b)
          end)
  end.

Definition disk_flush : stM (Disk E) unit := fun d =>
  match budget d with
  | Some O => (Err (IO "stopped"), stopped d)
  | b => let '(r, e) := engine_flush (disk d) in (r, mkDisk e None [] (pred <$> b))
  end.

#[export] Instance disk_engine : Engine (Disk E) := {
  engine_delete k := disk_write false (engine_delete k);
  engine_flush := disk_flush;
  engine_get k d := engine_get k (disk d);
  engine_scan r d := engine_scan r (disk d);
  engine_set k v := disk_write (is_commit_key k) (engine_set k v);
  engine_status d := engine_status (disk d);
}.

Definition arm_log (b : option nat) (l : Log (Disk E)) : Log (Disk E) :=
  mkLog (arm b (engine l)) (log_term l) (log_vote l) (last_index l) (last_term l) (commit_index l) (commit_term l) (fsync l).
End Disk.

#[export] Instance disk_reads {E} `{EngineReads E} : EngineReads (Disk E).
Proof.
  refine {| engine_inv := fun d : Disk E => engine_inv (disk d); engine_abs := fun d : Disk E => engine_abs (disk d) |}.
  - intros d k Hd. exact (engine_get_spec (disk d) k Hd).
  - intros d r Hd Hr. exact (engine_scan_spec (disk d) r Hd Hr).
  - intros d Hd. exact (engine_status_spec (disk d) Hd).
Defined.

(** ** What a node needs of its log

    [stored l R]: the log holds [R], and so does what a stop may leave, up to
    lost commit indexes.  A write succeeds, or fails and leaves the log as it
    was. *)
Definition all_or_nothing {L A} (stored : L -> alog -> Prop) (R : alog) (out : outcome A * L) (aout : outcome A * alog) : Prop :=
  out.1 = aout.1 /\ stored out.2 aout.2 \/ (exists e, out.1 = Err e) /\ stored out.2 R.

Class LogStore (E : Type) `{EngineReads E} {BE : Bincode entry_valid} {BT : Bincode term_vote_valid} {BC : Bincode is_u64_pair} : Type := {
  stored : Log E -> alog -> Prop;
  held_rep l R : stored l R -> log_rep l R;
  held_set_term_vote l R t v : stored l R -> al_wf R -> term_vote_valid (t, v) ->
    all_or_nothing stored R (set_term_vote t v l) (al_set_term_vote t v R);
  held_append l R c : stored l R -> al_wf R -> al_last R + 1 < u64_max -> all_or_nothing stored R (append c l) (al_append c R);
  held_commit l R i : stored l R -> al_wf R -> is_u64 i -> all_or_nothing stored R (commit i l) (al_commit_to i R);
  held_splice l R es : stored l R -> al_wf R -> Forall entry_valid es -> al_last R + Z.of_nat (length es) < u64_max ->
    all_or_nothing stored R (splice es l) (al_splice es R);
}.

(** ** The log on a disk *)
Section DiskLog.
Context {E : Type} `{EngineReads E} {EW : EngineWrites E}.
Context {BE : Bincode entry_valid} {BT : Bincode term_vote_valid} {BC : Bincode is_u64_pair}.
Implicit Types (l : Log (Disk E)) (R : alog).

Definition with_disk l (d : Disk E) : Log (Disk E) :=
  mkLog d (log_term l) (log_vote l) (last_index l) (last_term l) (commit_index l) (commit_term l) (fsync l).

Lemma with_disk_same l : with_disk l (engine l) = l.
Proof. now destruct l. Qed.

Definition al_with_commit R (c : Index) : alog := mkAlog (al_entries R) (al_term R) (al_vote R) c.

(** An engine that holds the entries, term and vote of [R], and a commit index
    from before. *)
Definition image_of (e : E) R : Prop :=
  engine_inv e /\ exists c, 0 <= c <= al_commit R /\
    raw_rep (engine_abs e) (entry_at (al_entries R)) (stored_tv R) (stored_ci (al_with_commit R c)).

Record disk_held l R : Prop := {
  dh_rep : log_rep l R;
  dh_fsync : fsync l = true;
  dh_before : before (engine l) = None;
  dh_older : Forall (fun e => image_of e R) (older (engine l));
}.

Lemma al_with_commit_self R : al_with_commit R (al_commit R) = R.
Proof. now destruct R. Qed.

Lemma image_self l R : log_rep l R -> 0 <= al_commit R -> image_of (disk (engine l)) R.
Proof.
  intros Hr Hc. split; [apply (lr_inv _ _ Hr)|]. exists (al_commit R). split; [lia|]. rewrite al_with_commit_self. apply (lr_raw _ _ Hr).
Qed.

(** ** Batches: writes until the next flush *)

(** Since [d0] only the disk was written, to the contents [f], [tv] and [ci]. *)
Record batch (d0 d : Disk E) (f : Index -> option Entry) (tv : option (Term * option NodeID)) (ci : option (Index * Term)) : Prop := {
  b_before : default (disk d) (before d) = disk d0;
  b_older : older d = older d0;
  b_inv : engine_inv (disk d);
  b_raw : raw_rep (engine_abs (disk d)) f tv ci;
}.

Lemma batch_start l R : disk_held l R -> batch (engine l) (engine l) (entry_at (al_entries R)) (stored_tv R) (stored_ci R).
Proof.
  intros [Hr _ Hb _]. split; [now rewrite Hb|reflexivity|apply (lr_inv _ _ Hr)|apply (lr_raw _ _ Hr)].
Qed.

Lemma batch_stopped d0 d f tv ci : batch d0 d f tv ci -> stopped d = mkDisk (disk d0) None (older d0) (Some 0%nat).
Proof. intros [B1 B2 _ _]. unfold stopped. now rewrite B1, B2. Qed.

(** A write of a batch succeeds, or stops the process. *)
Lemma batch_write d0 d f tv ci w f' tv' ci' :
  batch d0 d f tv ci ->
  (exists e, w (disk d) = (Ok tt, e) /\ engine_inv e /\ raw_rep (engine_abs e) f' tv' ci') ->
  (exists d', disk_write false w d = (Ok tt, d') /\ batch d0 d' f' tv' ci') \/
  disk_write false w d = (Err (IO "stopped"), stopped d).
Proof.
  intros [B1 B2 B3 B4] (e & Ew & Hi & Hr). unfold disk_write. destruct (budget d) as [[|n]|]; [now right|left..]; rewrite Ew.
  all: eexists; split; [reflexivity|]; destruct (before d) as [p|]; cbn in *; subst; split; cbn; auto.
Qed.

Lemma batch_set d0 d f tv ci k v f' tv' ci' :
  batch d0 d f tv ci -> k <> KeyCommitIndex ->
  raw_rep (<[lkenc k := v]> (engine_abs (disk d))) f' tv' ci' ->
  (exists d', engine_set (lkenc k) v d = (Ok tt, d') /\ batch d0 d' f' tv' ci') \/
  engine_set (lkenc k) v d = (Err (IO "stopped"), stopped d).
Proof.
  intros Hb Hk Hr. cbn [engine_set disk_engine].
  assert (is_commit_key (lkenc k) = false) as ->.
  { apply bool_decide_false. destruct k; intros F; [|apply (f_equal head) in F; cbn in F; discriminate|congruence].
    apply (f_equal head) in F. cbn in F. discriminate. }
  eapply batch_write; [exact Hb|]. destruct (engine_set_spec (disk d) (lkenc k) v (b_inv _ _ _ _ _ Hb)) as (e & Ee & Hi & Ha).
  exists e. rewrite Ha. auto.
Qed.

Lemma batch_delete d0 d f tv ci k f' tv' ci' :
  batch d0 d f tv ci -> raw_rep (delete (lkenc k) (engine_abs (disk d))) f' tv' ci' ->
  (exists d', engine_delete (lkenc k) d = (Ok tt, d') /\ batch d0 d' f' tv' ci') \/
  engine_delete (lkenc k) d = (Err (IO "stopped"), stopped d).
Proof.
  intros Hb Hr. cbn [engine_delete disk_engine]. eapply batch_write; [exact Hb|].
  destruct (engine_delete_spec (disk d) (lkenc k) (b_inv _ _ _ _ _ Hb)) as (e & Ee & Hi & Ha). exists e. rewrite Ha. auto.
Qed.

Lemma batch_flush d0 d f tv ci :
  batch d0 d f tv ci ->
  (exists e b, engine_flush d = (Ok tt, mkDisk e None [] b) /\ engine_inv e /\ raw_rep (engine_abs e) f tv ci) \/
  engine_flush d = (Err (IO "stopped"), stopped d).
Proof.
  intros [_ _ Hi Hr]. destruct (engine_flush_spec (disk d) Hi) as (e & Ee & Hi' & Ha).
  cbn [engine_flush disk_engine]. unfold disk_flush. destruct (budget d) as [[|n]|]; [now right|left..]; rewrite Ee; rewrite <- Ha in Hr; eauto.
Qed.

(** ** Log operations *)
Lemma log_set_raw_disk l d k v :
  log_set_raw k v (with_disk l d) = let '(r, d') := engine_set (lkenc k) v d in (r, with_disk l d').
Proof. unfold log_set_raw, st_bind, st_lift. rewrite log_encode_lkenc. unfold with_engine. cbn [engine with_disk]. now destruct (engine_set _ _ _). Qed.
Lemma log_delete_raw_disk l d k :
  log_delete_raw k (with_disk l d) = let '(r, d') := engine_delete (lkenc k) d in (r, with_disk l d').
Proof. unfold log_delete_raw, st_bind, st_lift. rewrite log_encode_lkenc. unfold with_engine. cbn [engine with_disk]. now destruct (engine_delete _ _). Qed.
Lemma log_flush_disk l d : with_engine engine_flush (with_disk l d) = let '(r, d') := engine_flush d in (r, with_disk l d').
Proof. unfold with_engine. cbn [engine with_disk]. now destruct (engine_flush d). Qed.
Lemma flush_if_disk l d :
  fsync l = true -> flush_if_fsync (with_disk l d) = let '(r, d') := engine_flush d in (r, with_disk l d').
Proof. intros Hf. unfold flush_if_fsync. cbn [fsync with_disk]. rewrite Hf. apply log_flush_disk. Qed.

(** A stop leaves the log as it was. *)
Lemma held_budget l R b : disk_held l R -> disk_held (with_disk l (mkDisk (disk (engine l)) None (older (engine l)) b)) R.
Proof. intros [[L1 L2 L3 L4 L5 L6 L7 L8] D2 D3 D4]. split; [split; assumption|assumption|reflexivity|exact D4]. Qed.

Lemma held_stopped {A} l R d f tv ci (e : Error) (aout : outcome A * alog) :
  disk_held l R -> batch (engine l) d f tv ci -> all_or_nothing disk_held R (Err e, with_disk l (stopped d)) aout.
Proof.
  intros Hh Hb. right. split; [cbn; eauto|]. cbn [snd]. rewrite (batch_stopped _ _ _ _ _ Hb). now apply held_budget.
Qed.

Lemma disk_set_term_vote l R t v :
  disk_held l R -> al_wf R -> term_vote_valid (t, v) ->
  all_or_nothing disk_held R (set_term_vote t v l) (al_set_term_vote t v R).
Proof.
  intros Hh Hw Hv. pose proof (dh_rep _ _ Hh) as Hr. unfold set_term_vote, al_set_term_vote, st_bind, st_assert.
  rewrite (lr_term l R Hr), (lr_vote l R Hr).
  destruct (Z.ltb_spec 0 t); cbn [negb]; [|now left].
  destruct (Z.leb_spec (al_term R) t); cbn [negb]; [|now left].
  destruct (_ || _ || _)%bool; cbn [negb]; [|now left].
  destruct ((t =? al_term R) && bool_decide (v = al_vote R))%bool eqn:Esame.
  { apply andb_true_iff in Esame as [E1%Z.eqb_eq E2%bool_decide_eq_true]. subst t v. left. split; [reflexivity|]. now destruct R. }
  rewrite <- (with_disk_same l) at 1. rewrite log_set_raw_disk.
  destruct (batch_set (engine l) (engine l) _ _ _ KeyTermVote (bincode_serialize (t, v)) _ _ _ (batch_start l R Hh)
    ltac:(discriminate) (raw_set_tv _ _ _ _ (t, v) (lr_raw l R Hr))) as [(d1 & -> & B1)| ->];
    [|apply (held_stopped l R (engine l) _ _ _ _ _ Hh (batch_start l R Hh))].
  rewrite log_flush_disk. destruct (batch_flush _ _ _ _ _ B1) as [(e & b & -> & Hi & Hraw)| ->]; [left|apply (held_stopped l R d1 _ _ _ _ _ Hh B1)].
  split; [reflexivity|]. destruct Hh as [[L1 L2 L3 L4 L5 L6 L7 L8] D2 D3 D4].
  split; [|exact D2|reflexivity|constructor]. split; cbn; auto. unfold stored_tv. cbn. destruct (Z.eqb_spec t 0); [lia|exact Hraw].
Qed.

Lemma disk_append l R c :
  disk_held l R -> al_wf R -> al_last R + 1 < u64_max -> all_or_nothing disk_held R (append c l) (al_append c R).
Proof.
  intros Hh Hw Hlt. pose proof (dh_rep _ _ Hh) as Hr. unfold append, al_append. rewrite (lr_term l R Hr), (lr_last l R Hr).
  pose proof (wf_commit R Hw) as Hc. assert (0 <= al_last R) as Hl0 by (unfold al_last; lia).
  rewrite u64_add_small by (unfold is_u64; lia).
  unfold st_bind at 1, st_assert. destruct (Z.ltb_spec 0 (al_term R)); cbn [negb]; [|now left].
  set (en := mkEntry (al_last R + 1) (al_term R) c). cbn [index term en]. unfold st_bind at 1.
  rewrite <- (with_disk_same l) at 1. rewrite log_set_raw_disk.
  destruct (batch_set (engine l) (engine l) _ _ _ (KeyEntry (al_last R + 1)) (bincode_serialize en) _ _ _ (batch_start l R Hh)
    ltac:(discriminate) (raw_set_entry _ _ _ _ (al_last R + 1) en (lr_raw l R Hr) ltac:(unfold is_u64; lia))) as [(d1 & -> & B1)| ->];
    [|apply (held_stopped l R (engine l) _ _ _ _ _ Hh (batch_start l R Hh))].
  unfold st_bind at 1. rewrite flush_if_disk by apply Hh.
  destruct (batch_flush _ _ _ _ _ B1) as [(e & b & -> & Hi & Hraw)| ->]; [left|apply (held_stopped l R d1 _ _ _ _ _ Hh B1)].
  split; [reflexivity|]. destruct Hh as [_ D2 D3 D4]. split; [|exact D2|reflexivity|constructor].
  apply (appended_rep l R c (mkDisk e None [] b)); auto.
Qed.

Lemma disk_commit l R i :
  disk_held l R -> al_wf R -> is_u64 i -> all_or_nothing disk_held R (commit i l) (al_commit_to i R).
Proof.
  intros Hh Hw Hi. pose proof (dh_rep _ _ Hh) as Hr. unfold commit, al_commit_to, st_bind at 1, st_read.
  rewrite (log_get_spec l R i) by assumption.
  destruct (entry_at (al_entries R) i) as [en|] eqn:Ee; [|now left].
  destruct (wf_index R i en Hw Ee) as [Hidx Hterm]. rewrite Hidx, (lr_commit l R Hr).
  destruct (Z.ltb_spec i (al_commit R)); [now left|].
  destruct (Z.eqb_spec i (al_commit R)) as [->|Hne]; [left; split; [reflexivity|]; now destruct R|].
  unfold st_bind at 1. rewrite <- (with_disk_same l) at 1. rewrite log_set_raw_disk. cbn [engine_set disk_engine].
  unfold is_commit_key, disk_write. rewrite bool_decide_true by reflexivity. rewrite (dh_before _ _ Hh).
  destruct (engine_set_spec (disk (engine l)) (lkenc KeyCommitIndex) (bincode_serialize (i, term en)) (lr_inv _ _ Hr)) as (e & Es & Hie & Ha).
  pose proof (wf_commit R Hw) as Hc.
  assert (forall b, all_or_nothing disk_held R (Ok i, mkLog (mkDisk e None (disk (engine l) :: older (engine l)) b) (log_term l) (log_vote l)
    (last_index l) (last_term l) i (term en) (fsync l)) (Ok i, mkAlog (al_entries R) (al_term R) (al_vote R) i)) as Hok.
  { intros b. left. split; [reflexivity|]. destruct Hh as [_ D2 D3 D4]. split; [|exact D2|reflexivity|].
    - apply (committed_rep l R i en (mkDisk e None (disk (engine l) :: older (engine l)) b)); auto.
    - cbn [older engine snd]. constructor.
      + destruct (image_self l R Hr ltac:(lia)) as (I1 & c & I2 & I3). split; [exact I1|]. exists c. cbn. split; [lia|exact I3].
      + eapply Forall_impl; [exact D4|]. intros e' (I1 & c & I2 & I3). split; [exact I1|]. exists c. cbn. split; [lia|exact I3]. }
  destruct (budget (engine l)) as [[|n]|]; rewrite ?Es; [|apply Hok..].
  right. split; [eauto|]. cbn [snd]. unfold stopped. rewrite (dh_before _ _ Hh). now apply held_budget.
Qed.

(** ** Splice *)

(** Part of the writes of a batch: they are done, or the process has stopped. *)
Definition partly {A} l (d0 : Disk E) (f : Index -> option Entry) tv ci (a : A) (out : outcome A * Log (Disk E)) : Prop :=
  (exists d, out = (Ok a, with_disk l d) /\ batch d0 d f tv ci) \/
  (exists e d f', out = (Err e, with_disk l (stopped d)) /\ batch d0 d f' tv ci).

Lemma partly_sets l d0 es : forall d f tv ci, batch d0 d f tv ci -> Forall entry_valid es ->
  partly l d0 (foldl upd_entry f es) tv ci tt
    (st_iter (fun e => log_set_raw (KeyEntry (index e)) (bincode_serialize e)) es (with_disk l d)).
Proof.
  induction es as [|x es IH]; intros d f tv ci Hb Hv; cbn [st_iter foldl]; [left; exists d; auto|].
  apply Forall_cons in Hv as [Hx Hv]. unfold st_bind. rewrite log_set_raw_disk.
  destruct (batch_set d0 d f tv ci (KeyEntry (index x)) (bincode_serialize x) _ _ _ Hb ltac:(discriminate)
    (raw_set_entry _ _ _ _ (index x) x (b_raw _ _ _ _ _ Hb) (proj1 Hx))) as [(d1 & -> & B1)| ->]; [now apply IH|].
  right. exists (IO "stopped"), d, f. auto.
Qed.

Lemma partly_deletes l d0 js : forall d f tv ci, batch d0 d f tv ci -> Forall is_u64 js ->
  partly l d0 (foldl del_entry f js) tv ci tt (st_iter (fun i => log_delete_raw (KeyEntry i)) js (with_disk l d)).
Proof.
  induction js as [|x js IH]; intros d f tv ci Hb Hv; cbn [st_iter foldl]; [left; exists d; auto|].
  apply Forall_cons in Hv as [Hx Hv]. unfold st_bind. rewrite log_delete_raw_disk.
  destruct (batch_delete d0 d f tv ci (KeyEntry x) _ _ _ Hb (raw_delete_entry _ _ _ _ x (b_raw _ _ _ _ _ Hb) Hx))
    as [(d1 & -> & B1)| ->]; [now apply IH|].
  right. exists (IO "stopped"), d, f. auto.
Qed.

Lemma disk_splice l R es :
  disk_held l R -> al_wf R -> Forall entry_valid es -> al_last R + Z.of_nat (length es) < u64_max ->
  all_or_nothing disk_held R (splice es l) (al_splice es R).
Proof.
  intros Hh Hw Hv Hmax. pose proof (dh_rep _ _ Hh) as Hr.
  destruct (splice_cases l R es Hr Hw Hv Hmax) as [[-> Ea]|(k & rest & lst & Hs & -> & ->)].
  { left. rewrite Ea. auto. }
  unfold splice_writes. rewrite (lr_last l R Hr), (splice_ready_range R k rest lst Hs). pose proof (wf_length R Hw) as Hlen.
  rewrite <- (with_disk_same l) at 1. unfold st_bind at 1.
  destruct (partly_sets l (engine l) rest (engine l) _ _ _ (batch_start l R Hh) (sr_valid _ _ _ _ Hs))
    as [(d1 & -> & B1)|(e & d1 & f & -> & B1)]; [|now apply (held_stopped l R d1 _ _ _ e _ Hh B1)].
  unfold st_bind at 1. edestruct (partly_deletes l (engine l) (range_inclusive (k + Z.of_nat (length rest)) (al_last R)) d1 _ _ _ B1)
    as [(d2 & -> & B2)|(e & d2 & f & -> & B2)]; [| |now apply (held_stopped l R d2 _ _ _ e _ Hh B2)].
  { apply Forall_forall. intros j Hj. apply elem_of_range_inclusive in Hj. pose proof (sr_start _ _ _ _ Hs). unfold is_u64. lia. }
  unfold st_bind at 1. rewrite flush_if_disk by apply Hh.
  destruct (batch_flush _ _ _ _ _ B2) as [(e & b & -> & Hi & Hraw)| ->]; [left|now apply (held_stopped l R d2 _ _ _ _ _ Hh B2)].
  split; [reflexivity|]. split; [|apply Hh|reflexivity|constructor].
  now apply (splice_writes_rep l R k rest lst (mkDisk e None [] b)).
Qed.

#[export] Instance disk_log_store : LogStore (Disk E).
Proof.
  refine {| stored := disk_held |}.
  - intros l R. apply dh_rep.
  - exact disk_set_term_vote.
  - exact disk_append.
  - exact disk_commit.
  - exact disk_splice.
Defined.

(** ** Stops *)

(** The log a stop leaves, when it is opened again. *)
Definition reopened l l' : Prop := exists e, e ∈ images (engine l) /\ log_new (open_disk e) = Ok l'.

Lemma al_with_commit_wf R c : al_wf R -> 0 <= c <= al_commit R -> al_wf (al_with_commit R c).
Proof. intros [W1 W2 W3 W4 W5 W6 W7] Hc. split; cbn [al_with_commit al_entries al_term al_vote al_commit] in *; auto. unfold al_last in *. cbn in *. lia. Qed.

Lemma held_images l R e : disk_held l R -> al_wf R -> e ∈ images (engine l) -> image_of e R.
Proof.
  intros Hh Hw. pose proof (wf_commit R Hw) as Hc. unfold images. rewrite (dh_before _ _ Hh). cbn [option_list app].
  rewrite elem_of_cons. intros [->|He].
  - apply image_self; [apply Hh|lia].
  - pose proof (dh_older _ _ Hh) as Ho. rewrite Forall_forall in Ho. auto.
Qed.

(** It can be opened, and is as before, up to lost commit indexes. *)
Lemma open_image (e : E) R : al_wf R -> image_of e R ->
  exists c l', 0 <= c <= al_commit R /\ al_wf (al_with_commit R c) /\
    log_new (open_disk e) = Ok l' /\ disk_held l' (al_with_commit R c).
Proof.
  intros Hw (Hi & c & Hc & Hraw). pose proof (al_with_commit_wf R c Hw Hc) as Hw'. set (R' := al_with_commit R c) in *.
  set (l0 := mkLog (open_disk e) (al_term R') (al_vote R') (al_last R') (term_at (al_entries R') (al_last R'))
    (al_commit R') (term_at (al_entries R') (al_commit R')) true).
  assert (log_rep l0 R') as Hr by (split; auto). exists c. eexists. split; [exact Hc|]. split; [exact Hw'|].
  split; [exact (log_new_spec l0 R' Hr Hw')|]. split; [exact Hr|reflexivity|reflexivity|constructor].
Qed.

Lemma reopened_held l R l' :
  disk_held l R -> al_wf R -> reopened l l' ->
  exists c, 0 <= c <= al_commit R /\ al_wf (al_with_commit R c) /\ disk_held l' (al_with_commit R c).
Proof.
  intros Hh Hw (e & He & El). destruct (open_image e R Hw (held_images l R e Hh Hw He)) as (c & l1 & Hc & Hw' & E1 & Hl).
  rewrite El in E1. injection E1 as <-. eauto.
Qed.

Lemma arm_held b l R : disk_held l R -> disk_held (arm_log b l) R.
Proof. intros Hh. pose proof (held_budget l R b Hh) as Hb. unfold arm_log, arm. rewrite (dh_before _ _ Hh). exact Hb. Qed.
End DiskLog.

(** ** The term and vote on a disk, with or without fsync *)
Section DiskVote.
Context {E : Type} `{EngineReads E} {EW : EngineWrites E}.
Context {BE : Bincode entry_valid} {BT : Bincode term_vote_valid} {BC : Bincode is_u64_pair}.
Implicit Types (l : Log (Disk E)).

Definition tv_image (tv : Term * option NodeID) (e : E) : Prop :=
  engine_inv e /\ engine_abs e !! lkenc KeyTermVote = tv_key tv.

Record tv_disk l : Prop := {
  td_valid : term_vote_valid (log_term l, log_vote l);
  td_zero : log_term l = 0 -> log_vote l = None;
  td_images : Forall (tv_image (log_term l, log_vote l)) (images (engine l));
}.

Lemma images_stopped P (d : Disk E) : Forall P (images d) -> Forall P (images (stopped d)).
Proof.
  destruct d as [x [p|] o b]; unfold images, stopped; cbn; rewrite !Forall_cons; tauto.
Qed.

Lemma images_write P lazy w (d : Disk E) :
  (forall e, P e -> P (w e).2) -> Forall P (images d) -> Forall P (images (disk_write lazy w d).2).
Proof.
  intros Hw. destruct d as [x p o b]. unfold disk_write. cbn [budget disk before older].
  destruct b as [[|n]|]; [apply images_stopped|..]; (specialize (Hw x); destruct (w x) as [r e]; cbn [snd] in *;
    destruct p as [p|], lazy; unfold images; cbn; rewrite !Forall_cons; tauto).
Qed.

Lemma images_flush P (d : Disk E) :
  (forall e, P e -> P (engine_flush e).2) -> Forall P (images d) -> Forall P (images (engine_flush d).2).
Proof.
  intros Hw Hd. cbn [engine_flush disk_engine]. unfold disk_flush. destruct (budget d) as [[|n]|]; [now apply images_stopped|..].
  all: specialize (Hw (disk d)); destruct (engine_flush (disk d)) as [r e]; unfold images in *; apply Forall_cons in Hd as [Hd Ho];
    specialize (Hw Hd); cbn in *; constructor; auto.
Qed.

(** Every state a stop may leave keeps the stored term and vote. *)
Definition td_kept l l' : Prop := tv_cached l l' /\ forall tv, Forall (tv_image tv) (images (engine l)) -> Forall (tv_image tv) (images (engine l')).
#[local] Instance td_kept_preorder : PreOrder td_kept.
Proof. split; [now intros l|]. intros l1 l2 l3 [A1 A2] [B1 B2]. split; [etransitivity; eassumption|auto]. Qed.

Lemma td_kept_disk l l' : td_kept l l' -> tv_disk l -> tv_disk l'.
Proof. intros [[E1 E2] He] [Hv Hz Hi]. split; rewrite ?E1, ?E2; auto. Qed.

Lemma td_with_engine {A} (f : stM (Disk E) A) :
  (forall tv d, Forall (tv_image tv) (images d) -> Forall (tv_image tv) (images (f d).2)) -> respects td_kept (with_engine f).
Proof.
  intros Hf l. split; [apply cached_with_engine|]. unfold with_engine. intros tv. specialize (Hf tv (engine l)).
  destruct (f (engine l)) as [r e]. exact Hf.
Qed.
Lemma td_set k v : k <> KeyTermVote -> respects td_kept (log_set_raw k v).
Proof.
  intros Hk. unfold log_set_raw. rewrite log_encode_lkenc. intros l. apply (td_with_engine (engine_set (lkenc k) v)).
  intros tv d. apply images_write. intros e [He Hs]. destruct (engine_set_spec e (lkenc k) v He) as (e' & -> & Hi & Ha).
  split; [exact Hi|]. cbn [snd]. rewrite Ha, lookup_insert_ne; [exact Hs|now apply lkenc_not_tv].
Qed.
Lemma td_delete k : k <> KeyTermVote -> respects td_kept (log_delete_raw k).
Proof.
  intros Hk. unfold log_delete_raw. rewrite log_encode_lkenc. intros l. apply (td_with_engine (engine_delete (lkenc k))).
  intros tv d. apply images_write. intros e [He Hs]. destruct (engine_delete_spec e (lkenc k) He) as (e' & -> & Hi & Ha).
  split; [exact Hi|]. cbn [snd]. rewrite Ha, lookup_delete_ne; [exact Hs|now apply lkenc_not_tv].
Qed.
Lemma flush_image tv e : tv_image tv e -> tv_image tv (engine_flush e).2.
Proof. intros [He Hs]. destruct (engine_flush_spec e He) as (e' & -> & Hi & Ha). split; [exact Hi|]. cbn [snd]. now rewrite Ha. Qed.
Lemma td_flush_if : respects td_kept flush_if_fsync.
Proof.
  intros l. unfold flush_if_fsync. destruct (fsync l); [|reflexivity].
  apply td_with_engine. intros tv d. apply images_flush, flush_image.
Qed.
Lemma td_last i t : respects td_kept (set_cached_last i t).
Proof. now intros l. Qed.
Lemma td_commit i t : respects td_kept (set_cached_commit i t).
Proof. now intros l. Qed.

#[local] Hint Resolve td_set td_delete td_flush_if td_last td_commit : respects.
#[local] Hint Extern 1 (_ <> KeyTermVote) => discriminate : respects.
#[local] Hint Extern 0 (PreOrder _) => typeclasses eauto : respects.

Lemma append_td c : respects td_kept (append c).
Proof. unfold append. respects_at l. solve_respects. Qed.
Lemma commit_td i : respects td_kept (commit i).
Proof. unfold commit. respects_at l. solve_respects. Qed.
Lemma splice_td es : respects td_kept (splice es).
Proof.
  unfold splice. intros l. destruct (head es) as [f|]; [|reflexivity]. destruct (last es) as [x|]; [|reflexivity].
  revert l. respects_at l. solve_respects.
Qed.

(** The writes of [set_term_vote]: both, or none. *)
Lemma tv_disk_writes t v l r l' :
  tv_disk l -> term_vote_valid (t, v) -> 0 < t -> tv_writes t v l = (r, l') ->
  (tv_cached l l' /\ tv_disk l' /\ forall x, r <> Ok x) \/ (r = Ok tt /\ tv_disk l' /\ log_term l' = t /\ log_vote l' = v).
Proof.
  intros [Hv Hz Hi] Hvalid Ht. unfold tv_writes, st_bind. rewrite <- (with_disk_same l) at 1. rewrite log_set_raw_disk.
  cbn [engine_set disk_engine]. assert (is_commit_key (lkenc KeyTermVote) = false) as -> by reflexivity. unfold disk_write.
  assert (forall d, Forall (tv_image (log_term l, log_vote l)) (images d) ->
    tv_disk (with_disk l (stopped d))) as Hstop by (intros d Hd; split; [exact Hv|exact Hz|]; now apply images_stopped).
  assert (forall b,
    let '(r1, e) := engine_set (lkenc KeyTermVote) (bincode_serialize (t, v)) (disk (engine l)) in
    match (r1, with_disk l (match before (engine l) with
          | None => mkDisk e (Some (disk (engine l))) (older (engine l)) b
          | Some p => mkDisk e (Some p) (older (engine l)) b end)) with
    | (Ok _, s) => (let! _ := with_engine engine_flush in set_cached_term_vote t v) s
    | (Err e, s) => (Err e, s) | (Panic p, s) => (Panic p, s) end = (r, l') ->
    (tv_cached l l' /\ tv_disk l' /\ forall x, r <> Ok x) \/ (r = Ok tt /\ tv_disk l' /\ log_term l' = t /\ log_vote l' = v)) as Hgo.
  2: { destruct (budget (engine l)) as [[|n]|].
       - intros [= <- <-]. left. split; [now split|]. split; [now apply Hstop|discriminate].
       - specialize (Hgo (pred <$> Some (S n))). destruct (engine_set _ _ (disk (engine l))) as [r1 e]. destruct (before (engine l)); exact Hgo.
       - specialize (Hgo (pred <$> None)). destruct (engine_set _ _ (disk (engine l))) as [r1 e]. destruct (before (engine l)); exact Hgo. }
  intros b. unfold images in Hi. apply Forall_cons in Hi as [[Hd Hs] Ho].
  destruct (engine_set_spec (disk (engine l)) (lkenc KeyTermVote) (bincode_serialize (t, v)) Hd) as (e & -> & Hie & Ha).
  set (d1 := match before (engine l) with Some p => _ | None => _ end). unfold st_bind. rewrite log_flush_disk.
  cbn [engine_flush disk_engine]. unfold disk_flush.
  assert (disk d1 = e) as Ed by (unfold d1; now destruct (before (engine l))). rewrite Ed.
  assert (tv_disk (with_disk l (stopped d1))) as Hst.
  { split; [exact Hv|exact Hz|]. cbn [engine with_disk log_term log_vote]. unfold images, stopped, d1.
    destruct (before (engine l)); cbn [disk before older default option_list app] in *; [exact Ho|]. constructor; [now split|exact Ho]. }
  destruct (engine_flush_spec e Hie) as (e2 & -> & Hi2 & Ha2).
  assert (forall b', tv_disk (mkLog (mkDisk e2 None [] b') t v (last_index l) (last_term l) (commit_index l) (commit_term l) (fsync l))) as Hnew.
  { intros b'. split; cbn [log_term log_vote engine]; [exact Hvalid|lia|]. repeat constructor; [exact Hi2|]. cbn [disk]. rewrite Ha2, Ha, lookup_insert_eq.
    unfold tv_key. cbn [fst]. destruct (Z.eqb_spec t 0); [lia|reflexivity]. }
  destruct (budget d1) as [[|n]|]; intros [= <- <-]; [left|right..]; auto.
  split; [now split|]. split; [exact Hst|discriminate].
Qed.

#[export] Instance disk_tv_store : TvStore (Disk E).
Proof.
  refine {| tv_ok := tv_disk |}.
  - intros l. apply td_valid.
  - intros l l' E1 [E2 E3] [Hv Hz Hi]. split; rewrite ?E1, ?E2, ?E3; auto.
  - intros c l. apply td_kept_disk, append_td.
  - intros i l. apply td_kept_disk, commit_td.
  - intros es l. apply td_kept_disk, splice_td.
  - intros t v l r l' Hok Hvalid Es.
    destruct (set_term_vote_cases t v l) as [[p Ep]|(Ht & Hle & Hvote & [(-> & -> & Ee)|Ee])].
    + left. rewrite Ep in Es. injection Es as <- <-. now split.
    + right. rewrite Ee in Es. injection Es as <- <-. auto 9.
    + rewrite Ee in Es. destruct (tv_disk_writes t v l r l' Hok Hvalid Ht Es) as [Hl|(E1 & E2 & E3 & E4)]; [now left|right]. auto 9.
Defined.

(** A stop keeps the term and vote. *)
Lemma reopened_tv l l' : tv_disk l -> reopened l l' -> tv_disk l' /\ log_term l' = log_term l /\ log_vote l' = log_vote l.
Proof.
  intros [Hv Hz Hi] (e & He & El). rewrite Forall_forall in Hi. destruct (Hi e He) as [He1 He2].
  destruct (log_new_tv_key (E := Disk E) (H0 := disk_reads) (open_disk e) l' _ _ He1 Hv Hz He2 El) as (E1 & E2 & E3). split; [|auto].
  split; rewrite ?E2, ?E3; [exact Hv|exact Hz|]. rewrite E1. repeat constructor; assumption.
Qed.

Lemma arm_tv b l : tv_disk l -> tv_disk (arm_log b l).
Proof. now intros [Hv Hz Hi]. Qed.
End DiskVote.

(** ** A torn splice *)
Module TornSample.
Import Sample LogSample.

Definition built (l : outcome (Log Memory)) (ops : list (stM (Log Memory) unit)) : Log Memory :=
  match l with Ok l => foldl (fun l op => (op l).2) l ops | _ => mkLog memory_new 0 None 0 0 0 0 true end.
(** The entries 1 and 2 of term 1, in term 2. *)
Definition old_log : Log Memory :=
  built (log_new memory_new)
    [set_term_vote 1 None; (append None ;;; st_ret tt); (append (Some [x07]) ;;; st_ret tt); set_term_vote 2 None].
End TornSample.
Import Sample LogSample TornSample.

(** The first write of a splice, and a stop before the second: the log then
    holds entry 1 of term 2 and entry 2 of term 1, and takes Appends after
    entry 2 of term 1, though the log that entry belongs to has another entry
    1.  Log matching needs the writes to reach the disk together. *)
Lemma splice_torn :
  let first := mkEntry 1 2 None in
  exists l1 l2,
    get 1 old_log = Ok (Some (mkEntry 1 1 None)) /\ get 2 old_log = Ok (Some (mkEntry 2 1 (Some [x07]))) /\
    log_set_raw (KeyEntry 1) (entry_ser first) old_log = (Ok tt, l1) /\
    splice [first] old_log =
      (log_delete_raw (KeyEntry 2) ;;; flush_if_fsync ;;; set_cached_last 1 2 ;;; st_ret 1) l1 /\
    log_new (engine l1) = Ok l2 /\
    get 1 l2 = Ok (Some first) /\ get 2 l2 = Ok (Some (mkEntry 2 1 (Some [x07]))) /\
    has 2 1 old_log = Ok true /\ has 2 1 l2 = Ok true.
Proof. cbv zeta. eexists _, _. repeat split; vm_compute; reflexivity. Qed.
