(* ===== verification/RaftElection.v ===== *)
(** * A Raft cluster, and its election safety

    The nodes of a cluster run the code of [RaftNode] over an asynchronous
    network that may lose, duplicate, delay and reorder messages.  A node may
    fail, or stop at any write to its disk ([RaftDisk]) or between two steps,
    and restart from what the disk holds.  In every reachable state there is at
    most one leader per term. *)
From S2P Require Import Prelude Bytes Keycode KeycodeTheory Btree Engine Memory Bincode.
From S2P Require Import RaftLog RaftLogTheory RaftLogClaims RaftNode RaftNodeTheory RaftSteps RaftDisk.

Section Cluster.
Context {E S T G : Type} `{EngineReads E} {EW : EngineWrites E} `{State S} `{Channel T} `{Rng G}.
Context {BE : Bincode entry_valid} {BT : Bincode term_vote_valid} {BC : Bincode is_u64_pair}.
Abbreviation RawNode := (RawNode (Disk E) S T G).
Abbreviation Node := (Node (Disk E) S T G).
Abbreviation stepped := (stepped (Disk E) S T G).

(** The nodes of the cluster, and the values of [fsync] they may start with. *)
Context (members : gset NodeID) (syncs : bool -> Prop).

(** A host runs a node, or is down and its disk holds a log. *)
Inductive host : Type :=
  | Up (N : Node)
  | Down (l : Log (Disk E)).

Definition host_log (h : host) : Log (Disk E) := match h with Up N => log (core N) | Down l => l end.

(** [net] holds every message sent so far, delivered or not. *)
Record world : Type := mkWorld {
  hosts : gmap NodeID host;
  net : list Envelope;
}.

(** A node that stops after [b] writes. *)
Definition arm_raw {R} (b : option nat) (n : RawNode R) : RawNode R :=
  mkNode (node_id n) (peers n) (arm_log b (log n)) (state n) (tx n) (opts n) (rng n) (role n).
Definition arm_node (b : option nat) (N : Node) : Node :=
  match N with
  | NCandidate n => NCandidate (arm_raw b n)
  | NFollower n => NFollower (arm_raw b n)
  | NLeader n => NLeader (arm_raw b n)
  end.

(** What host [i] may do: start, handle a message, a client's request or a
    tick, or nothing; [b] is the number of writes after which it stops. *)
Inductive works (w : world) (b : option nat) : NodeID -> stepped Node -> Prop :=
  | wk_start i l sync s t o g :
      hosts w !! i = Some (Down l) -> syncs sync -> channel_sent t = [] ->
      works w b i (node_new i (members ∖ {[i]}) (enable_fsync sync (arm_log b l)).2 s t o g)
  | wk_deliver i N m :
      hosts w !! i = Some (Up N) -> m ∈ net w -> env_to m = i -> env_from m <> i ->
      works w b i (step m (arm_node b N))
  | wk_client i N q r :
      hosts w !! i = Some (Up N) ->
      works w b i (step (mkEnvelope i (node_term (core N)) i (ClientRequest q r)) (arm_node b N))
  | wk_tick i N : hosts w !! i = Some (Up N) -> works w b i (tick (arm_node b N))
  | wk_idle i N : hosts w !! i = Some (Up N) -> works w b i (Done (arm_node b N)).

(** What is left of a node when it goes down. *)
Definition remains (r : stepped Node) : RawNode unit :=
  match r with Done N => core N | Failed _ d | Panicked _ d => d end.

(** A host works and goes on, or goes down: because it failed or panicked,
    because it stopped at a write, or after the work.  Its disk is then in one
    of the states a stop may leave. *)
Inductive world_step (w : world) : world -> Prop :=
  | ws_run i N :
      works w None i (Done N) ->
      world_step w (mkWorld (<[i := Up N]> (hosts w)) (net w ++ channel_sent (tx (core N))))
  | ws_down i b r l :
      works w b i r -> reopened (log (remains r)) l ->
      world_step w (mkWorld (<[i := Down l]> (hosts w)) (net w ++ channel_sent (tx (remains r)))).

(** Every host starts down, on an empty disk. *)
Definition initial (w : world) : Prop :=
  net w = [] /\ dom (hosts w) = members /\
  forall i h, hosts w !! i = Some h ->
    exists e, h = Down (mkLog (open_disk e) 0 None 0 0 0 0 true) /\ engine_inv e /\ engine_abs e = ∅.

Definition reachable (w : world) : Prop := exists w0, initial w0 /\ rtc world_step w0 w.

(** ** Votes *)

(** The votes of all terms: [hist i t] is the candidate node [i] has voted for
    in term [t]. *)
Definition history : Type := NodeID -> Term -> option NodeID.

Definition hist_set (hist : history) (i : NodeID) (t : Term) (v : option NodeID) : history :=
  fun j u => if decide (j = i /\ u = t) then v else hist j u.

Definition elected (hist : history) (c : NodeID) (t : Term) : Prop :=
  exists Q : gset NodeID, Q ⊆ members /\ (size members / 2 + 1 <= size Q)%nat /\ forall j, j ∈ Q -> hist j t = Some c.

Definition role_inv (hist : history) (i : NodeID) (h : host) : Prop :=
  match h with
  | Down _ => True
  | Up N =>
      node_id (core N) = i /\ peers (core N) = members ∖ {[i]} /\
      match N with
      | NCandidate c => forall j, j ∈ votes (role c) -> j ∈ members /\ hist j (log_term (log c)) = Some i
      | NFollower f => forall l, leader (role f) = Some l -> elected hist l (log_term (log f))
      | NLeader n => elected hist i (log_term (log n))
      end
  end.

Record votes_inv (hist : history) (w : world) : Prop := {
  vi_member i h : hosts w !! i = Some h -> i ∈ members;
  vi_tv i h : hosts w !! i = Some h -> tv_ok (host_log h);
  vi_vote i h : hosts w !! i = Some h -> hist i (log_term (host_log h)) = log_vote (host_log h);
  vi_future i h t : hosts w !! i = Some h -> log_term (host_log h) < t -> hist i t = None;
  vi_role i h : hosts w !! i = Some h -> role_inv hist i h;
  vi_sent i N m : hosts w !! i = Some (Up N) -> m ∈ channel_sent (tx (core N)) -> m ∈ net w;
  vi_net m : m ∈ net w -> env_from m ∈ members /\ is_u64 (env_term m);
  vi_grant m : m ∈ net w -> is_grant (env_message m) = true -> hist (env_from m) (env_term m) = Some (env_to m);
  vi_lead m : m ∈ net w -> is_lead (env_message m) = true -> elected hist (env_from m) (env_term m);
}.

(** Two winners of a term are the same node. *)
Lemma elected_unique hist c c' t : elected hist c t -> elected hist c' t -> c = c'.
Proof.
  intros (Q & Hs & Hq & Hv) (Q' & Hs' & Hq' & Hv').
  destruct (quorum_intersect members Q Q' Hs Hs' Hq Hq') as (j & Hj & Hj').
  specialize (Hv j Hj). specialize (Hv' j Hj'). congruence.
Qed.

Definition extends (hist hist' : history) : Prop := forall j t c, hist j t = Some c -> hist' j t = Some c.

Lemma elected_mono hist hist' c t : extends hist hist' -> elected hist c t -> elected hist' c t.
Proof. intros He (Q & Hs & Hq & Hv). exists Q. auto. Qed.

Lemma role_inv_mono hist hist' i h : extends hist hist' -> role_inv hist i h -> role_inv hist' i h.
Proof.
  intros He. destruct h as [N|l]; [|auto]. cbn. intros (H1' & H2' & Hr). split; [exact H1'|]. split; [exact H2'|].
  destruct N; cbn in *.
  - intros j Hj. destruct (Hr j Hj). auto.
  - intros l Hl. eapply elected_mono; eauto.
  - eapply elected_mono; eauto.
Qed.

(** The history after a node has moved. *)
Lemma moved_extends hist i t v t' v' :
  hist i t = v -> (forall u, t < u -> hist i u = None) ->
  t < t' \/ t' = t /\ (v = None \/ v' = v) -> extends hist (hist_set hist i t' v').
Proof.
  intros Hv Hf Hm j u c Hc. unfold hist_set. destruct (decide (j = i /\ u = t')) as [[-> ->]|]; [|exact Hc].
  destruct Hm as [Hlt|[-> [Hn|He]]]; [rewrite Hf in Hc by exact Hlt; discriminate|congruence|congruence].
Qed.

(** A host that moves keeps the invariant, given the grounds of its role. *)
Lemma moved_inv hist w i h ld (n0 d : RawNode unit) h' :
  votes_inv hist w -> hosts w !! i = Some h ->
  node_id n0 = i -> log_term (log n0) = log_term (host_log h) -> log_vote (log n0) = log_vote (host_log h) ->
  (forall m, m ∈ channel_sent (tx n0) -> m ∈ net w) ->
  moves True ld n0 d ->
  let hist' := hist_set hist i (log_term (log d)) (log_vote (log d)) in
  (ld (log_term (log d)) (log_vote (log d)) -> elected hist' i (log_term (log d))) ->
  tv_same (log d) (host_log h') -> (extends hist hist' -> role_inv hist' i h') ->
  (forall N m, h' = Up N -> m ∈ channel_sent (tx (core N)) -> m ∈ channel_sent (tx d)) ->
  votes_inv hist' (mkWorld (<[i := h']> (hosts w)) (net w ++ channel_sent (tx d))).
Proof.
  intros Hinv Hh Hid Ht0 Hv0 Hs0 Hm hist' Hld Hl' Hr' Hs'.
  destruct Hm as [M1 M2 M3 M4 (new & M5 & M6)]. rewrite Ht0, Hv0 in M4. rewrite List.Forall_forall in M6.
  assert (extends hist hist') as Hext
    by (eapply moved_extends; [exact (vi_vote _ _ Hinv i h Hh)|intros; eapply vi_future; eauto|exact M4]).
  specialize (Hr' Hext).
  assert (forall m, m ∈ net w ++ channel_sent (tx d) -> m ∈ net w \/ In m new) as Hnet.
  { intros m [Hm|Hm]%elem_of_app; [auto|]. rewrite M5 in Hm. apply elem_of_app in Hm as [Hm|Hm]; [auto|].
    right. now apply list_elem_of_In. }
  assert (i ∈ members) as Hmem by (eapply vi_member; eauto).
  split; cbn [hosts net].
  - intros j x. destruct (decide (j = i)) as [->|Hne]; [auto|]. rewrite lookup_insert_ne by congruence. apply vi_member with (1 := Hinv).
  - intros j x. destruct (decide (j = i)) as [->|Hne].
    + rewrite lookup_insert_eq. intros [= <-]. now apply (ts_ok _ _ Hl').
    + rewrite lookup_insert_ne by congruence. apply (vi_tv _ _ Hinv).
  - intros j x. unfold hist', hist_set. destruct (decide (j = i)) as [->|Hne].
    + rewrite lookup_insert_eq. intros [= <-]. rewrite (ts_term _ _ Hl'), (ts_vote _ _ Hl'). now rewrite decide_True.
    + rewrite lookup_insert_ne by congruence. intros Hx. rewrite decide_False by tauto. now apply (vi_vote _ _ Hinv).
  - intros j x u. unfold hist', hist_set. destruct (decide (j = i)) as [->|Hne].
    + rewrite lookup_insert_eq. intros [= <-]. rewrite (ts_term _ _ Hl'). intros Hu. rewrite decide_False by lia.
      apply (vi_future _ _ Hinv i h u Hh). destruct M4 as [|[]]; lia.
    + rewrite lookup_insert_ne by congruence. intros Hx Hu. rewrite decide_False by tauto. eapply vi_future; eauto.
  - intros j x. destruct (decide (j = i)) as [->|Hne].
    + rewrite lookup_insert_eq. now intros [= <-].
    + rewrite lookup_insert_ne by congruence. intros Hx. eapply role_inv_mono; [exact Hext|]. now apply (vi_role _ _ Hinv).
  - intros j N m. destruct (decide (j = i)) as [->|Hne].
    + rewrite lookup_insert_eq. intros [= ->] Hm. apply elem_of_app. right. eauto.
    + rewrite lookup_insert_ne by congruence. intros Hx Hm. apply elem_of_app. left. eapply vi_sent; eauto.
  - intros m [Hm|Hm]%Hnet; [now apply (vi_net _ _ Hinv)|]. destruct (M6 m Hm) as (F1 & F2 & _).
    rewrite F1, Hid. split; [exact Hmem|]. destruct (tv_valid _ M3) as [Hu _].
    destruct (tv_valid _ (vi_tv _ _ Hinv i h Hh)) as [Hu' _]. unfold is_u64 in *. cbn in *. lia.
  - intros m [Hm|Hm]%Hnet Hg; [apply Hext; now apply (vi_grant _ _ Hinv)|]. destruct (M6 m Hm) as (F1 & _ & F3 & _).
    destruct (F3 Hg) as (_ & F4 & F5). rewrite F1, Hid, F4, <- F5. unfold hist', hist_set. now rewrite decide_True.
  - intros m [Hm|Hm]%Hnet Hg; [eapply elected_mono; [exact Hext|]; now apply (vi_lead _ _ Hinv)|].
    destruct (M6 m Hm) as (F1 & _ & _ & F3). destruct (F3 Hg) as [F4 F5]. rewrite F1, Hid, F4 in *. auto.
Qed.

(** What is known of a message when it is delivered to node [i]. *)
Definition src_ok (hist : history) (i : NodeID) (src : option Envelope) : Prop :=
  forall m, src = Some m ->
    (is_grant (env_message m) = true -> env_from m ∈ members /\ hist (env_from m) (env_term m) = Some i) /\
    (is_lead (env_message m) = true -> elected hist (env_from m) (env_term m)).

Lemma wins_elected hist i N src t v :
  i ∈ members -> role_inv hist i (Up N) -> src_ok hist i src -> wins N src t v -> elected hist i t.
Proof.
  intros Hi (_ & Hp & Hr) Hsrc Hw. destruct N as [c|f|n]; cbn -[quorum_size] in *; [|tauto|now subst].
  destruct Hw as (<- & m & -> & Hg & Ht & Hq). destruct (proj1 (Hsrc m eq_refl) Hg) as [Hfm Hfv].
  exists ({[env_from m]} ∪ votes (role c)).
  split; [intros j [->%elem_of_singleton|Hj]%elem_of_union; [exact Hfm|now apply Hr]|].
  split; [now rewrite (quorum_size_members members c i Hi Hp) in Hq|].
  intros j [->%elem_of_singleton|Hj]%elem_of_union; [now rewrite <- Ht|now apply Hr].
Qed.

(** The state after a step of a node, or after it went down. *)
Definition stays_inv (w : world) (i : NodeID) (r : stepped Node) : Prop :=
  (forall N, r = Done N -> exists hist', votes_inv hist' (mkWorld (<[i := Up N]> (hosts w)) (net w ++ channel_sent (tx (core N))))) /\
  (forall l, reopened (log (remains r)) l ->
     exists hist', votes_inv hist' (mkWorld (<[i := Down l]> (hosts w)) (net w ++ channel_sent (tx (remains r))))).

Lemma moved_stays hist w i h ld (n0 : RawNode unit) (r : stepped Node) :
  votes_inv hist w -> hosts w !! i = Some h ->
  node_id n0 = i -> log_term (log n0) = log_term (host_log h) -> log_vote (log n0) = log_vote (host_log h) ->
  (forall m, m ∈ channel_sent (tx n0) -> m ∈ net w) ->
  moves True ld n0 (remains r) ->
  let d := remains r in
  let hist' := hist_set hist i (log_term (log d)) (log_vote (log d)) in
  (ld (log_term (log d)) (log_vote (log d)) -> elected hist' i (log_term (log d))) ->
  (extends hist hist' -> forall N, r = Done N -> role_inv hist' i (Up N)) ->
  stays_inv w i r.
Proof.
  intros Hinv Hh Hid Ht Hv Hsent Hm d hist' Hld Hrole. split.
  - intros N ->. exists hist'. eapply (moved_inv hist w i h ld n0 (core N) (Up N)); eauto; [reflexivity|]. now intros N0 m [= <-].
  - intros l Hl. destruct (reopened_tv _ _ (mv_ok _ _ _ _ Hm) Hl) as (Hok & Et & Ev). exists hist'.
    eapply (moved_inv hist w i h ld n0 (remains r) (Down l)); eauto; [now split|now intros _|discriminate].
Qed.

(** A node and the node that stops after some writes. *)
Lemma arm_core b N : core (arm_node b N) = arm_raw b (core N).
Proof. now destruct N. Qed.
Lemma arm_role_inv hist i b N : role_inv hist i (Up N) -> role_inv hist i (Up (arm_node b N)).
Proof. now destruct N. Qed.

Lemma step_inv hist w i N0 b src r :
  let N := arm_node b N0 in
  votes_inv hist w -> hosts w !! i = Some (Up N0) -> src_ok hist i src -> stepped_ok N src r -> stays_inv w i r.
Proof.
  intros N Hinv Hh Hsrc Hs. pose proof (vi_member _ _ Hinv i _ Hh) as Hi.
  pose proof (arm_role_inv hist i b N0 (vi_role _ _ Hinv i _ Hh)) as Hri. fold N in Hri. pose proof Hri as (Hid & Hp & Hr).
  assert (moves True (wins N src) (core N) (remains r)) as Hm by (destruct r; [apply Hs|exact Hs..]).
  assert (extends hist (hist_set hist i (log_term (log (remains r))) (log_vote (log (remains r))))) as Hext.
  { eapply moved_extends; [exact (vi_vote _ _ Hinv i _ Hh)|intros; eapply vi_future; eauto|].
    pose proof (mv_tv _ _ _ _ Hm) as Htv. unfold N in Htv. rewrite arm_core in Htv. exact Htv. }
  apply (moved_stays hist w i (Up N0) (wins N src) (core N) r); auto.
  - unfold N. now rewrite arm_core.
  - unfold N. now rewrite arm_core.
  - intros m. unfold N. rewrite arm_core. eapply vi_sent; eauto.
  - intros Hw. eapply elected_mono; [exact Hext|]. eapply wins_elected; eauto.
  - intros He N' ->. destruct Hs as [_ Ha]. cbn [remains] in *.
    split; [rewrite (mv_id _ _ _ _ Hm); exact Hid|]. split; [rewrite (mv_peers _ _ _ _ Hm); exact Hp|].
    destruct N' as [c|f|n]; cbn in Ha |- *.
    + intros j Hj. destruct (Ha j Hj) as [[-> Hv]|[(c0 & E0 & Ht & Hj0)|(m & -> & Hg & Ht & <-)]].
      * pose proof (mv_id _ _ _ _ Hm) as Hidc. cbn in Hidc. rewrite Hidc, Hid in *.
        split; [exact Hi|]. unfold hist_set. now rewrite decide_True.
      * rewrite E0 in Hr. destruct (Hr j Hj0) as [Hmj Hvj]. split; [exact Hmj|]. apply He. congruence.
      * destruct (proj1 (Hsrc m eq_refl) Hg) as [Hmj Hvj]. split; [exact Hmj|]. apply He. congruence.
    + intros l Hl. eapply elected_mono; [exact He|].
      destruct (Ha l Hl) as [(f0 & E0 & Hl0 & Ht)|(m & -> & Hg & <- & Ht)].
      * rewrite Ht. rewrite E0 in Hr. now apply Hr.
      * rewrite <- Ht. now apply (Hsrc m eq_refl).
    + eapply elected_mono; [exact He|]. eapply wins_elected; eauto.
Qed.

(** Node IDs are bytes. *)
Context (members_u8 : forall i, i ∈ members -> 0 <= i <= u8_max).

Lemma start_inv hist w i l b sync s t o g :
  votes_inv hist w -> hosts w !! i = Some (Down l) -> channel_sent t = [] ->
  stays_inv w i (node_new i (members ∖ {[i]}) (enable_fsync sync (arm_log b l)).2 s t o g).
Proof.
  intros Hinv Hh Ht. pose proof (vi_member _ _ Hinv i _ Hh) as Hi. set (l1 := (enable_fsync sync (arm_log b l)).2).
  assert (tv_ok l1) as Hok by (pose proof (vi_tv _ _ Hinv i _ Hh) as [F1 F2 F3]; now split).
  pose proof (node_new_ok i (members ∖ {[i]}) l1 s t o g Hok (members_u8 i Hi)) as Hs. cbv zeta in Hs.
  set (n0 := mkNode i _ l1 s t o g tt) in *. set (r := node_new _ _ _ _ _ _ _) in *.
  assert (moves False (solo i (members ∖ {[i]})) n0 (remains r)) as Hm by (destruct r; [apply Hs|exact Hs..]).
  assert (let d := remains r in let hist' := hist_set hist i (log_term (log d)) (log_vote (log d)) in
    solo i (members ∖ {[i]}) (log_term (log d)) (log_vote (log d)) -> elected hist' i (log_term (log d))) as Hsolo.
  { cbv zeta. intros [He Hv]. assert (members = {[i]}) as Hone.
    { apply set_eq. intros j. split; [|set_solver]. intros Hj. destruct (decide (j = i)) as [->|]; set_solver. }
    exists {[i]}. rewrite Hone, size_singleton. split; [set_solver|]. split; [cbn; lia|].
    intros j ->%elem_of_singleton. unfold hist_set. rewrite decide_True by auto. exact Hv. }
  apply (moved_stays hist w i (Down l) (solo i (members ∖ {[i]})) n0 r); auto.
  - cbn. rewrite Ht. intros m Hm'. now apply not_elem_of_nil in Hm'.
  - eapply moves_mono; [| |exact Hm]; auto.
  - intros He N' E0. rewrite E0 in *. destruct Hs as [_ Hr]. cbn [remains] in *.
    split; [apply (mv_id _ _ _ _ Hm)|]. split; [apply (mv_peers _ _ _ _ Hm)|].
    destruct N' as [c|f|n]; [easy|intros x Hx; congruence|]. now apply Hsolo.
Qed.

Lemma works_inv hist w b i r : votes_inv hist w -> works w b i r -> stays_inv w i r.
Proof.
  intros Hinv Hw. destruct Hw as [i l sync s t o g Hh Hs Ht|i N m Hh Hm Hto Hfrom|i N q r Hh|i N Hh|i N Hh].
  - eapply start_inv; eauto.
  - destruct (vi_net _ _ Hinv m Hm) as [Hfm Hu]. apply (step_inv hist w i N b (Some m)); [exact Hinv|exact Hh| |].
    + intros m' [= <-]. split; intros Hg; [|now apply (vi_lead _ _ Hinv)].
      split; [exact Hfm|]. rewrite <- Hto. now apply (vi_grant _ _ Hinv).
    + apply step_ok; [rewrite arm_core; apply arm_tv, (vi_tv _ _ Hinv i _ Hh)|]. split; [exact Hu|auto].
  - apply (step_inv hist w i N b (Some (mkEnvelope i (node_term (core N)) i (ClientRequest q r)))); [exact Hinv|exact Hh| |].
    + intros m' [= <-]. split; discriminate.
    + apply step_ok; [rewrite arm_core; apply arm_tv, (vi_tv _ _ Hinv i _ Hh)|]. split; cbn; [|apply members_u8; eapply vi_member; eauto].
      apply (tv_valid _ (vi_tv _ _ Hinv i _ Hh)).
  - apply (step_inv hist w i N b None); [exact Hinv|exact Hh|discriminate|].
    apply tick_ok; [rewrite arm_core; apply arm_tv, (vi_tv _ _ Hinv i _ Hh)|]. rewrite arm_core. cbn.
    destruct (vi_role _ _ Hinv i _ Hh) as (-> & _). apply members_u8. eapply vi_member; eauto.
  - apply (moved_stays hist w i (Up N) never (core (arm_node b N)) (Done (arm_node b N))); auto; cbn [remains].
    + rewrite arm_core. apply (vi_role _ _ Hinv i _ Hh).
    + now rewrite arm_core.
    + now rewrite arm_core.
    + rewrite arm_core. intros m. eapply vi_sent; eauto.
    + apply moves_refl. rewrite arm_core. apply arm_tv, (vi_tv _ _ Hinv i _ Hh).
    + intros F. easy.
    + intros He N' [= <-]. eapply role_inv_mono; [exact He|]. apply arm_role_inv, (vi_role _ _ Hinv i _ Hh).
Qed.

Lemma world_step_inv hist w w' : votes_inv hist w -> world_step w w' -> exists hist', votes_inv hist' w'.
Proof.
  intros Hinv Hw. destruct Hw as [i N Hw|i b r l Hw Hl]; destruct (works_inv _ _ _ _ _ Hinv Hw) as [H1' H2']; eauto.
Qed.

Lemma initial_inv w : initial w -> votes_inv (fun _ _ => None) w.
Proof.
  intros (Hn & Hd & Hh).
  assert (forall i h, hosts w !! i = Some h -> exists e, h = Down (mkLog (open_disk e) 0 None 0 0 0 0 true) /\ tv_ok (host_log h)) as Hdown.
  { intros i h Hi. destruct (Hh i h Hi) as (e & -> & He & Ha). exists e. split; [reflexivity|].
    split; cbn; [now split|reflexivity|]. repeat constructor; cbn; [exact He|now rewrite Ha]. }
  split; try (intros m Hm; rewrite Hn in Hm; now apply not_elem_of_nil in Hm).
  - intros i h Hi. rewrite <- Hd. apply elem_of_dom. eauto.
  - intros i h Hi. now destruct (Hdown i h Hi) as (e & -> & F).
  - intros i h Hi. now destruct (Hdown i h Hi) as (e & -> & F).
  - reflexivity.
  - intros i h Hi. now destruct (Hdown i h Hi) as (e & -> & F).
  - intros i N m Hi. destruct (Hdown i _ Hi) as (e & F & _). discriminate.
Qed.

Lemma reachable_inv w : reachable w -> exists hist, votes_inv hist w.
Proof.
  intros (w0 & Hi & Hs). assert (exists hist, votes_inv hist w0) as H0' by eauto using initial_inv.
  clear Hi. induction Hs as [w|w0 w1 w Hw Hs IH]; [exact H0'|]. destruct H0' as [hist Hinv].
  apply IH. eapply world_step_inv; eauto.
Qed.

(** C5: election safety.  In every reachable state of a cluster (any engine
    and state machine, [fsync] on or off, any schedule of deliveries,
    duplications, losses, ticks, client requests, failed steps, stops at any
    write and between steps, and restarts) at most one node leads a term; all
    leader messages ever sent in a term come from one node; and a leader never
    finds a leader message of another node in its term. *)
Theorem raft_election_safety (w : world) :
  reachable w ->
  (forall i j n n', hosts w !! i = Some (Up (NLeader n)) -> hosts w !! j = Some (Up (NLeader n')) ->
     node_term n = node_term n' -> i = j) /\
  (forall m m', m ∈ net w -> m' ∈ net w -> is_lead (env_message m) = true -> is_lead (env_message m') = true ->
     env_term m = env_term m' -> env_from m = env_from m') /\
  (forall i n m, hosts w !! i = Some (Up (NLeader n)) -> m ∈ net w -> is_lead (env_message m) = true ->
     env_term m = node_term n -> env_from m = i).
Proof.
  intros Hw. destruct (reachable_inv w Hw) as [hist Hinv]. split; [|split].
  - intros i j n n' Hi Hj Ht. destruct (vi_role _ _ Hinv i _ Hi) as (_ & _ & Ei), (vi_role _ _ Hinv j _ Hj) as (_ & _ & Ej).
    change (log_term (log n) = log_term (log n')) in Ht. rewrite Ht in Ei. eapply elected_unique; eauto.
  - intros m m' Hm Hm' Hl Hl' Ht. pose proof (vi_lead _ _ Hinv m Hm Hl) as Em. rewrite Ht in Em.
    eapply elected_unique; [exact Em|]. now apply (vi_lead _ _ Hinv).
  - intros i n m Hi Hm Hl Ht. destruct (vi_role _ _ Hinv i _ Hi) as (_ & _ & Ei).
    pose proof (vi_lead _ _ Hinv m Hm Hl) as Em. rewrite Ht in Em. eapply elected_unique; eauto.
Qed.

(** A node votes for one candidate per term, across crashes and restarts:
    two granted votes of a node in a term are for the same candidate, and for
    the one its log holds while it is in that term. *)
Theorem raft_vote_once (w : world) :
  reachable w ->
  (forall m m', m ∈ net w -> m' ∈ net w -> is_grant (env_message m) = true -> is_grant (env_message m') = true ->
     env_from m = env_from m' -> env_term m = env_term m' -> env_to m = env_to m') /\
  (forall m h, m ∈ net w -> is_grant (env_message m) = true -> hosts w !! env_from m = Some h ->
     env_term m <= log_term (host_log h) /\
     (env_term m = log_term (host_log h) -> log_vote (host_log h) = Some (env_to m))).
Proof.
  intros Hw. destruct (reachable_inv w Hw) as [hist Hinv]. split.
  - intros m m' Hm Hm' Hg Hg' Hf Ht. pose proof (vi_grant _ _ Hinv m Hm Hg) as F.
    pose proof (vi_grant _ _ Hinv m' Hm' Hg') as F'. rewrite Hf, Ht in F. congruence.
  - intros m h Hm Hg Hh. pose proof (vi_grant _ _ Hinv m Hm Hg) as F. split.
    + destruct (Z.le_gt_cases (env_term m) (log_term (host_log h))) as [|Hgt]; [assumption|].
      rewrite (vi_future _ _ Hinv _ h _ Hh) in F by lia. discriminate.
    + intros Ht. rewrite Ht in F. rewrite <- F. symmetry. now apply (vi_vote _ _ Hinv).
Qed.

(** A follower with a leader only ever hears from that leader in its term:
    any Heartbeat, Append or Read of the term that reaches it passes the check
    for multiple leaders. *)
Theorem raft_single_leader_heard (w : world) i (f : RawNode Follower) m :
  reachable w -> hosts w !! i = Some (Up (NFollower f)) -> leader (role f) <> None ->
  m ∈ net w -> is_lead (env_message m) = true -> env_term m = node_term f ->
  ensure_leader m f = Done f.
Proof.
  intros Hw Hi Hl Hm Hlead Ht. destruct (reachable_inv w Hw) as [hist Hinv].
  destruct (leader (role f)) as [l|] eqn:El; [|congruence].
  destruct (vi_role _ _ Hinv i _ Hi) as (_ & _ & Ei). specialize (Ei l El).
  pose proof (vi_lead _ _ Hinv m Hm Hlead) as Em. rewrite Ht in Em.
  unfold ensure_leader. rewrite El. now rewrite (elected_unique _ _ _ _ Em Ei), Z.eqb_refl.
Qed.

(** ** Running a cluster

    A schedule: the work of a host, with the writes after which it stops, and
    the state of the disk after a stop, by its place in [images]. *)
Inductive action : Type :=
  | AStart (i : NodeID) (s : S) (t : T) (g : G)
  | ADeliver (k : nat)
  | AClient (i : NodeID) (q : RequestID) (r : Request)
  | ATick (i : NodeID)
  | AIdle (i : NodeID).

Definition act (a : action) (b : option nat) (w : world) : option (NodeID * stepped Node) :=
  match a with
  | AStart i s t g =>
      match hosts w !! i, channel_sent t with
      | Some (Down l), [] => Some (i, node_new i (members ∖ {[i]}) (enable_fsync true (arm_log b l)).2 s t default_options g)
      | _, _ => None
      end
  | ADeliver k =>
      match net w !! k with
      | Some m =>
          match hosts w !! env_to m with
          | Some (Up N) => if bool_decide (env_from m = env_to m) then None else Some (env_to m, step m (arm_node b N))
          | _ => None
          end
      | None => None
      end
  | AClient i q r =>
      match hosts w !! i with
      | Some (Up N) => Some (i, step (mkEnvelope i (node_term (core N)) i (ClientRequest q r)) (arm_node b N))
      | _ => None
      end
  | ATick i => match hosts w !! i with Some (Up N) => Some (i, tick (arm_node b N)) | _ => None end
  | AIdle i => match hosts w !! i with Some (Up N) => Some (i, Done (arm_node b N)) | _ => None end
  end.

Inductive event : Type :=
  | Run (a : action)
  | Stop (a : action) (b : option nat) (image : nat).

Definition happen (ev : event) (w : world) : option world :=
  match ev with
  | Run a =>
      match act a None w with
      | Some (i, Done N) => Some (mkWorld (<[i := Up N]> (hosts w)) (net w ++ channel_sent (tx (core N))))
      | _ => None
      end
  | Stop a b k =>
      match act a b w with
      | Some (i, r) =>
          match images (engine (log (remains r))) !! k with
          | Some e =>
              match log_new (open_disk e) with
              | Ok l => Some (mkWorld (<[i := Down l]> (hosts w)) (net w ++ channel_sent (tx (remains r))))
              | _ => None
              end
          | None => None
          end
      | None => None
      end
  end.

Fixpoint run_actions (evs : list event) (w : world) : option world :=
  match evs with
  | [] => Some w
  | ev :: evs' => match happen ev w with Some w' => run_actions evs' w' | None => None end
  end.

Context (syncs_on : syncs true).

Lemma act_works a b w i r : act a b w = Some (i, r) -> works w b i r.
Proof.
  destruct a as [j s t g|k|j q rq|j|j]; cbn [act]; intros Ha.
  - destruct (hosts w !! j) as [[N|l]|] eqn:Hi; try discriminate. destruct (channel_sent t) eqn:Et; inv Ha. now apply wk_start.
  - destruct (net w !! k) as [m|] eqn:Em; try discriminate. destruct (hosts w !! env_to m) as [[N|l]|] eqn:Hi; try discriminate.
    case_bool_decide; inv Ha. eapply wk_deliver; eauto. now apply list_elem_of_lookup_2 in Em.
  - destruct (hosts w !! j) as [[N|l]|] eqn:Hi; inv Ha. now apply wk_client.
  - destruct (hosts w !! j) as [[N|l]|] eqn:Hi; inv Ha. now apply wk_tick.
  - destruct (hosts w !! j) as [[N|l]|] eqn:Hi; inv Ha. now apply wk_idle.
Qed.

Lemma happen_step ev w w' : happen ev w = Some w' -> world_step w w'.
Proof.
  destruct ev as [a|a b k]; cbn [happen]; intros Ha.
  - destruct (act a None w) as [[i [N|e d|p d]]|] eqn:Ew; inv Ha. now apply ws_run, act_works with a.
  - destruct (act a b w) as [[i r]|] eqn:Ew; [|discriminate]. destruct (images _ !! k) as [e|] eqn:Ek; [|discriminate].
    destruct (log_new (open_disk e)) as [l| |] eqn:El; inv Ha. apply (ws_down w i b r l); [now apply act_works with a|].
    exists e. split; [now apply list_elem_of_lookup_2 in Ek|exact El].
Qed.

Lemma run_actions_reachable w0 acts w : initial w0 -> run_actions acts w0 = Some w -> reachable w.
Proof.
  intros Hi Hr. exists w0. split; [exact Hi|]. clear Hi. revert w0 Hr; induction acts as [|a acts IH]; intros w0 Hr.
  - inv Hr. reflexivity.
  - cbn in Hr. destruct (happen a w0) as [w1|] eqn:Ea; [|discriminate].
    eapply rtc_l; [eapply happen_step; exact Ea|]. now apply IH.
Qed.

End Cluster.

(** ** A sample cluster

    Three nodes with the no-op state machine, over memory engines and the
    sample codecs. *)
Module ClusterSample.

Import Sample LogSample.

#[export] Instance noop_state : State Z := {|
  get_applied_index := id;
  state_apply := fun entry _ => (Ok [], index entry);
  state_read := fun _ _ => Ok [];
|}.

#[export] Program Instance list_channel : Channel (list Envelope) := {|
  channel_send := fun m t => (Ok tt, t ++ [m]);
  channel_sent := id;
|}.
Next Obligation. intros m t. left. eauto. Qed.

#[export] Program Instance low_rng : Rng unit := {|
  random_range := fun r g => (Ok r.1, g);
|}.
Next Obligation. intros r []. intros Hr. exists r.1, tt. split; [reflexivity|lia]. Qed.

Definition members3 : gset NodeID := {[1; 2; 3]}.

Definition blank : host (E := Memory) (S := Z) (T := list Envelope) (G := unit) :=
  Down (mkLog (open_disk memory_new) 0 None 0 0 0 0 true).
Definition world0 := mkWorld (gset_to_gmap blank members3) [].

Lemma world0_initial : initial members3 world0.
Proof.
  split; [reflexivity|]. split; [apply dom_gset_to_gmap|]. intros i h Hi.
  apply lookup_gset_to_gmap_Some in Hi as [_ <-]. exists memory_new. split; [reflexivity|].
  split; [apply memory_new_inv|reflexivity].
Qed.

Lemma members3_u8 i : i ∈ members3 -> 0 <= i <= u8_max.
Proof. unfold members3, u8_max. set_unfold. lia. Qed.

(** Node 1 times out and campaigns.  Node 2 stops at the flush of its vote and
    restarts; asked again, it votes, and crashes after node 1 has become
    leader; node 3 learns of it by a heartbeat. *)
Definition election : list (event (S := Z) (T := list Envelope) (G := unit)) :=
  (Run <$> [AStart 1 0 [] tt; AStart 2 0 [] tt; AStart 3 0 [] tt] ++ repeat (ATick 1) 10) ++
  [Stop (ADeliver 0) (Some 1%nat) 0; Run (AStart 2 0 [] tt);
   Run (ADeliver 0); Run (ADeliver 2); Stop (AIdle 2) None 0; Run (ADeliver 8)].

Definition elected_world : world (E := Memory) (S := Z) (T := list Envelope) (G := unit) :=
  match run_actions members3 election world0 with Some w => w | None => world0 end.

Lemma elected_reachable : reachable members3 (fun _ => True) elected_world.
Proof. apply (run_actions_reachable members3 (fun _ => True) I world0 election); [exact world0_initial|vm_compute; reflexivity]. Qed.

End ClusterSample.
Import Sample LogSample ClusterSample.

Lemma raft_election_safety_witness :
  (exists n, hosts elected_world !! 1 = Some (Up (NLeader n)) /\ node_term n = 1) /\
  (forall i n, hosts elected_world !! i = Some (Up (NLeader n)) -> node_term n = 1 -> 1 = i).
Proof.
  destruct (raft_election_safety members3 (fun _ => True) members3_u8 elected_world elected_reachable) as [Hs _].
  split; [eexists; split; vm_compute; reflexivity|]. intros i n Hi Ht.
  eapply Hs; [|exact Hi|]; [vm_compute; reflexivity|rewrite Ht; reflexivity].
Defined.

Lemma raft_vote_once_witness :
  (exists m, m ∈ net elected_world /\ is_grant (env_message m) = true /\ env_from m = 2) /\
  (forall m, m ∈ net elected_world -> is_grant (env_message m) = true -> env_from m = 2 -> env_term m = 1 -> 1 = env_to m).
Proof.
  destruct (raft_vote_once members3 (fun _ => True) members3_u8 elected_world elected_reachable) as [Hs _].
  assert (mkEnvelope 2 1 1 (CampaignResponse true) ∈ net elected_world) as Hin
    by (apply list_elem_of_In; vm_compute; do 2 right; left; reflexivity).
  split; [eexists; split; [exact Hin|split; reflexivity]|]. intros m Hm Hg Hf Ht.
  apply (Hs (mkEnvelope 2 1 1 (CampaignResponse true)) m Hin Hm); [reflexivity|exact Hg|rewrite Hf; reflexivity|rewrite Ht; reflexivity].
Defined.

Lemma raft_single_leader_heard_witness :
  exists (f : RawNode (Disk Memory) Z (list Envelope) unit Follower) m, hosts elected_world !! 3 = Some (Up (NFollower f)) /\ leader (role f) = Some 1 /\
    m ∈ net elected_world /\ is_lead (env_message m) = true /\ ensure_leader m f = Done f.
Proof.
  eexists _, (mkEnvelope 1 1 3 (Heartbeat 1 0 0)). split; [vm_compute; reflexivity|]. split; [reflexivity|].
  assert (mkEnvelope 1 1 3 (Heartbeat 1 0 0) ∈ net elected_world) as Hin
    by (apply list_elem_of_In; vm_compute; do 8 right; left; reflexivity).
  split; [exact Hin|]. split; [reflexivity|].
  eapply (raft_single_leader_heard members3 (fun _ => True) members3_u8 elected_world 3);
    [exact elected_reachable|vm_compute; reflexivity|discriminate|exact Hin|reflexivity|reflexivity].
Defined.
