(* ===== verification/RaftReplication.v ===== *)
(** * Replication, commitment and application on a Raft node

    The leader's replication progress and append batches, its commit rule, the
    application of committed entries to the state machine and the serving of
    linearizable reads ([src/raft/node.rs]), over a log that keeps its
    contract. *)
From S2P Require Import Prelude Bytes Keycode KeycodeTheory Btree Engine Memory Bincode.
From S2P Require Import RaftLog RaftLogTheory RaftLogClaims RaftNode RaftNodeTheory RaftSteps RaftElection.

Section Replication.
Context {E S T G : Type} `{EngineReads E} {EW : EngineWrites E} `{State S} `{Channel T} `{Rng G}.
Context {BE : Bincode entry_valid} {BT : Bincode term_vote_valid} {BC : Bincode is_u64_pair}.
Abbreviation RawNode := (RawNode E S T G).

Definition set_role {R Q} (n : RawNode R) (r : Q) : RawNode Q := into_role r n.

(** ** Progress *)

(** The documented range of a follower's progress: [next_index] lies in
    [match_index + 1, last_index + 1]. *)
Definition progress_ok (last : Index) (p : Progress) : Prop :=
  0 <= match_index p <= last /\ match_index p + 1 <= next_index p <= last + 1.

Lemma advance_ok last m p :
  last < u64_max -> progress_ok last p -> m <= last -> progress_ok last (advance m p).2.
Proof.
  intros Hl [H1' H2'] Hm. unfold advance. destruct (Z.leb_spec m (match_index p)); cbn [snd]; [now split|].
  unfold progress_ok. cbn [match_index next_index]. rewrite u64_add_small by (unfold is_u64; lia). lia.
Qed.

Lemma advance_read_ok last s p : progress_ok last p -> progress_ok last (advance_read s p).2.
Proof. unfold advance_read. now destruct (s <=? p_read_seq p). Qed.

Lemma regress_next_ok last x p : last < u64_max -> progress_ok last p -> progress_ok last (regress_next x p).2.
Proof.
  intros Hl [H1' H2']. unfold regress_next. rewrite u64_add_small by (unfold is_u64; lia).
  destruct (Z.leb_spec (next_index p) x), (Z.leb_spec (next_index p) (match_index p + 1)); cbn; try now split.
  unfold progress_ok. cbn. lia.
Qed.

(** ** Append batches *)

(** What a leader with log [R] sends to a follower with progress [p]. *)
Definition append_plan (R : alog) (limit : nat) (p : Progress) (probe : bool) : option (Message * list Entry) :=
  if match_index p =? al_last R then None
  else
    let probe := probe && (match_index p + 1 <? next_index p) in
    if (al_last R <? next_index p) && negb probe then None
    else
      let base := next_index p - 1 in
      let entries := if probe then [] else take limit (drop (Z.to_nat base) (al_entries R)) in
      Some (Append base (term_at (al_entries R) base) entries, entries).

(** The next index after a batch is in range. *)
Lemma append_plan_next R limit p pr m es e s :
  al_wf R -> progress_ok (al_last R) p -> append_plan R limit p pr = Some (m, es) -> last es = Some e ->
  progress_ok (al_last R) (mkProgress (match_index p) (index e + 1) s).
Proof.
  intros Hw [Hm Hn] Eplan Ee. unfold append_plan in Eplan. destruct (match_index p =? al_last R); [discriminate|].
  destruct ((al_last R <? next_index p) && _)%bool; [discriminate|]. injection Eplan as <- <-.
  destruct (pr && _)%bool; [discriminate|]. rewrite last_lookup in Ee.
  set (k := Nat.pred _) in Ee. apply lookup_take_Some in Ee as [Ee _]. rewrite lookup_drop in Ee.
  destruct (wf_entry R Hw _ _ Ee) as [Hi _]. apply lookup_lt_Some in Ee.
  unfold progress_ok, al_last in *. cbn. lia.
Qed.

Lemma segment_from R k :
  al_wf R -> 1 <= k -> segment (al_entries R) (Included k, Unbounded) = drop (Z.to_nat (k - 1)) (al_entries R).
Proof.
  intros Hw Hk. pose proof (segment_take R k (length (al_entries R)) Hw Hk) as Hs.
  rewrite take_ge in Hs by (rewrite length_drop; lia). rewrite <- Hs. unfold segment.
  apply filter_ext_in. intros e He. apply wf_In in He as Hat; [|exact Hw].
  assert (1 <= index e <= al_last R) by (apply entry_at_range; eauto). unfold in_index_range. cbn [fst snd].
  destruct (Z.leb_spec k (index e)), (Z.leb_spec (index e) (k + Z.of_nat (length (al_entries R)) - 1)); try reflexivity.
  unfold al_last in *. lia.
Qed.

(** The leader's bookkeeping after a batch. *)
Definition bump_next (peer : NodeID) (p : Progress) (entries : list Entry) (n : RawNode Leader) : RawNode Leader :=
  match last entries with
  | Some e =>
      let r := role n in
      into_role (mkLeader (<[peer := mkProgress (match_index p) (index e + 1) (p_read_seq p)]> (progress r))
                   (writes r) (reads r) (l_read_seq r) (since_heartbeat r)) n
  | None => n
  end.

Lemma append_base (n : RawNode Leader) R p :
  log_rep (log n) R -> al_wf R -> progress_ok (al_last R) p ->
  (if next_index p =? 0 then st_panic "next_index=0 for node"
   else if next_index p =? 1 then st_ret (0, 0)
   else let! o := st_read (fun n : RawNode Leader => get (next_index p - 1) (log n)) in
        match o with
        | Some e => st_ret (index e, term e)
        | None => st_panic "missing base entry"
        end) n = (Ok (next_index p - 1, term_at (al_entries R) (next_index p - 1)), n).
Proof.
  intros Hr Hw [Hm Hn]. pose proof (wf_length R Hw) as Hlen. destruct (Z.eqb_spec (next_index p) 0); [lia|].
  destruct (Z.eqb_spec (next_index p) 1) as [->|Hne]; [reflexivity|].
  unfold st_bind, st_read. rewrite (log_get_spec _ R) by (auto; unfold is_u64; lia).
  destruct (entry_at (al_entries R) (next_index p - 1)) as [e|] eqn:Ee.
  - unfold term_at. rewrite Ee. now rewrite (proj1 (wf_index _ _ _ Hw Ee)).
  - apply entry_at_None in Ee. unfold al_last in *. lia.
Qed.

Lemma append_entries (n : RawNode Leader) R p (pr : bool) :
  log_rep (log n) R -> al_wf R -> progress_ok (al_last R) p ->
  (if pr then st_ret []
   else let! items := st_read (fun n : RawNode Leader => scan (Included (next_index p), Unbounded) (log n)) in
        st_lift (try_collect (take (max_append_entries (opts n)) items))) n =
  (Ok (if pr then [] else take (max_append_entries (opts n)) (drop (Z.to_nat (next_index p - 1)) (al_entries R))), n).
Proof.
  intros Hr Hw [Hm Hn]. pose proof (wf_length R Hw) as Hlen. destruct pr; [reflexivity|].
  unfold st_bind, st_read, st_lift. rewrite (log_scan_spec _ R) by (auto; unfold index_range_ok, is_u64; cbn; lia).
  rewrite segment_from by (auto; lia). cbn [fst]. now rewrite firstn_map, try_collect_map_ok.
Qed.

Lemma maybe_send_append_eq (n : RawNode Leader) R peer p probe :
  log_rep (log n) R -> al_wf R -> progress (role n) !! peer = Some p -> progress_ok (al_last R) p ->
  maybe_send_append peer probe n =
  match append_plan R (max_append_entries (opts n)) p probe with
  | None => (Ok tt, n)
  | Some (msg, entries) => send peer msg (bump_next peer p entries n)
  end.
Proof.
  intros Hr Hw Hp [Hm Hn]. pose proof (wf_length R Hw) as Hlen.
  unfold maybe_send_append, append_plan. unfold get_last_index. rewrite (lr_last _ _ Hr). cbn [fst].
  unfold st_bind at 1, get_progress. rewrite Hp.
  rewrite !u64_add_small by (unfold is_u64; lia).
  unfold st_bind at 1, st_assert at 1. rewrite (proj2 (Z.eqb_neq (next_index p) 0)) at 1 by lia. cbn [negb].
  unfold st_bind at 1, st_assert at 1. rewrite (proj2 (Z.ltb_lt (match_index p) (next_index p))) by lia.
  unfold st_bind at 1, st_assert at 1. rewrite (proj2 (Z.leb_le (match_index p) (al_last R))) by lia.
  unfold st_bind at 1, st_assert at 1. rewrite (proj2 (Z.leb_le (next_index p) (al_last R + 1))) by lia.
  destruct (match_index p =? al_last R); [reflexivity|]. cbv zeta.
  set (pr := (probe && (match_index p + 1 <? next_index p))%bool).
  destruct ((al_last R <? next_index p) && negb pr)%bool; [reflexivity|].
  unfold st_bind at 1. rewrite (append_base n R p Hr Hw (conj Hm Hn)).
  unfold st_bind at 1. rewrite (append_entries n R p pr Hr Hw (conj Hm Hn)). cbn [fst snd].
  set (entries := if pr then [] else _). unfold st_bind, bump_next.
  destruct (last entries) as [e|] eqn:Ee; [|reflexivity]. unfold set_progress, update_role, st_modify.
  assert (is_u64 (index e + 1)) as Hu.
  { unfold entries in Ee. destruct pr; [discriminate|]. apply last_Some in Ee as (l' & Ee).
    assert (In e (al_entries R)) as Hin.
    { apply (list_elem_of_In). assert (e ∈ take (max_append_entries (opts n)) (drop (Z.to_nat (next_index p - 1)) (al_entries R)))
        as F by (rewrite Ee; apply elem_of_app; right; now apply list_elem_of_singleton).
      apply list_elem_of_lookup in F as [k F]. apply lookup_take_Some in F as [F _]. rewrite lookup_drop in F.
      now apply list_elem_of_lookup_2 in F. }
    apply wf_In in Hin; [|exact Hw]. assert (1 <= index e <= al_last R) by (apply entry_at_range; eauto).
    unfold is_u64. lia. }
  now rewrite u64_add_small.
Qed.

(** ** The leader's invariant *)
Record leads (n : RawNode Leader) (R : alog) : Prop := {
  ld_log : log_rep (log n) R;
  ld_wf : al_wf R;
  ld_peers : dom (progress (role n)) = peers n;
  ld_progress id p : progress (role n) !! id = Some p -> progress_ok (al_last R) p;
}.

Section Keep.
Context (bound : Index).

(** Kept by a computation, with the entries, the term and the vote, in a log
    that reaches [bound]. *)
Definition lkeep (n n' : RawNode Leader) : Prop :=
  forall R, leads n R -> bound <= al_last R -> exists R', leads n' R' /\ al_entries R' = al_entries R /\
    al_term R' = al_term R /\ al_vote R' = al_vote R /\ al_commit R <= al_commit R'.

#[export] Instance lkeep_preorder : PreOrder lkeep.
Proof.
  split.
  - intros n R Hl _. exists R. split; [exact Hl|]. repeat split. lia.
  - intros n1 n2 n3 H12 H23 R Hl Hb. destruct (H12 R Hl Hb) as (R2 & L2 & E2 & T2 & V2 & C2).
    assert (bound <= al_last R2) as Hb2 by (unfold al_last; now rewrite E2).
    destruct (H23 R2 L2 Hb2) as (R3 & L3 & E3 & T3 & V3 & C3). exists R3. split; [exact L3|]. repeat split; congruence || lia.
Qed.

Lemma leads_same n R : leads n R ->
  exists R', leads n R' /\ al_entries R' = al_entries R /\ al_term R' = al_term R /\ al_vote R' = al_vote R /\
    al_commit R <= al_commit R'.
Proof. intros Hl. exists R. split; [exact Hl|]. do 3 (split; [reflexivity|]). lia. Qed.

Lemma lkeep_same n n' :
  log n' = log n -> peers n' = peers n -> progress (role n') = progress (role n) -> lkeep n n'.
Proof.
  intros E1 E2 E3 R [L1 L2 L3 L4] _. apply leads_same.
  split; rewrite ?E1, ?E2, ?E3; assumption.
Qed.

Lemma lkeep_with_state {A} (m : stM S A) : respects lkeep (with_state m).
Proof. intros n. unfold with_state. destruct (m (state n)). now apply lkeep_same. Qed.
Lemma lkeep_send_via m : respects lkeep (send_via m).
Proof. intros n. unfold send_via, with_tx. destruct (channel_send m (tx n)). now apply lkeep_same. Qed.
Lemma lkeep_send to m : respects lkeep (send to m).
Proof. intros n. apply lkeep_send_via. Qed.
Lemma lkeep_broadcast m : respects lkeep (broadcast m).
Proof. unfold broadcast. respects_at n. apply respects_iter; [typeclasses eauto|]. intros x. apply lkeep_send. Qed.
Lemma lkeep_role f : (forall r, progress (f r) = progress r) -> respects lkeep (update_role f).
Proof. intros Hf n. apply lkeep_same; [reflexivity..|]. apply Hf. Qed.
Lemma lkeep_get_progress id : respects lkeep (get_progress id).
Proof. apply respects_same; [typeclasses eauto|]. intros n. unfold get_progress. now destruct (progress (role n) !! id). Qed.

Lemma leads_set_progress n R id p :
  leads n R -> is_Some (progress (role n) !! id) -> progress_ok (al_last R) p ->
  leads (set_progress id p n).2 R.
Proof.
  intros [L1 L2 L3 L4] Hid Hp. split; cbn; [exact L1|exact L2| |].
  - rewrite dom_insert_L, L3. apply elem_of_dom in Hid. set_solver.
  - intros j q. destruct (decide (j = id)) as [->|Hne].
    + rewrite lookup_insert_eq. now intros [= <-].
    + rewrite lookup_insert_ne by congruence. apply L4.
Qed.

Lemma lkeep_update_progress id f :
  (forall last p, last < u64_max -> bound <= last -> progress_ok last p -> progress_ok last (f p).2) -> respects lkeep (update_progress id f).
Proof.
  intros Hf n R Hl Hb. unfold update_progress, st_bind, get_progress.
  destruct (progress (role n) !! id) as [p|] eqn:Ep; [|now apply leads_same].
  apply leads_same. apply (leads_set_progress n R id (f p).2 Hl); [eauto|].
  apply Hf; [apply (wf_length R (ld_wf n R Hl))|exact Hb|]. exact (ld_progress n R Hl id p Ep).
Qed.

Lemma lkeep_maybe_send_append id pr : respects lkeep (maybe_send_append id pr).
Proof.
  intros n R Hl Hb. destruct (progress (role n) !! id) as [p|] eqn:Ep.
  2: { unfold maybe_send_append, st_bind at 1, get_progress. rewrite Ep. now apply leads_same. }
  pose proof (ld_progress n R Hl id p Ep) as Hp.
  rewrite (maybe_send_append_eq n R id p pr (ld_log n R Hl) (ld_wf n R Hl) Ep Hp).
  destruct (append_plan R (max_append_entries (opts n)) p pr) as [[msg es]|] eqn:Eplan; [|now apply leads_same].
  assert (leads (bump_next id p es n) R) as Hbump.
  { unfold bump_next. destruct (last es) as [e|] eqn:Ee; [|exact Hl].
    apply (leads_set_progress n R id _ Hl); [eauto|]. eapply append_plan_next; [apply Hl|exact Hp|exact Eplan|exact Ee]. }
  exact (lkeep_send id msg _ R Hbump Hb).
Qed.

#[local] Hint Resolve lkeep_with_state lkeep_send_via lkeep_send lkeep_broadcast lkeep_get_progress
  lkeep_maybe_send_append : respects.
#[local] Hint Extern 1 (respects lkeep (update_role _)) => (apply lkeep_role; reflexivity) : respects.

Lemma lkeep_heartbeat : respects lkeep heartbeat.
Proof. unfold heartbeat. intros n. destruct (get_last_index (log n)). revert n. respects_at n. solve_respects. Qed.

Lemma lkeep_respond {A} (r : outcome A) f k :
  (forall resp, respects lkeep (k resp)) -> respects lkeep (to_response r f k).
Proof. intros Hk. unfold to_response. destruct r; [apply Hk..|]. apply respects_panic. typeclasses eauto. Qed.

Lemma lkeep_read_loop s q : respects lkeep (read_loop s q).
Proof.
  induction q as [|x q IH]; cbn [read_loop]; [solve_respects|]. apply respects_if; [solve_respects|].
  apply respects_bind; [typeclasses eauto|auto with respects|]. intros _. respects_at n.
  apply respects_bind; [typeclasses eauto| |auto]. apply lkeep_respond. auto with respects.
Qed.
#[local] Hint Resolve lkeep_heartbeat lkeep_read_loop : respects.

Lemma lkeep_maybe_read : respects lkeep maybe_read.
Proof.
  unfold maybe_read. intros n. destruct (reads (role n)) as [|x q]; [reflexivity|].
  destruct (get_commit_index (log n)) as [ci ct]. destruct (_ || _)%bool; [reflexivity|].
  revert n. respects_at n. solve_respects.
Qed.

Lemma lkeep_commit i : is_u64 i -> respects lkeep (with_log (commit i)).
Proof.
  intros Hi n R [L1 L2 L3 L4] _. unfold with_log.
  destruct (log_commit_spec (log n) R i L1 L2 Hi) as (l' & -> & Hr' & _). cbn.
  destruct (al_commit_to i R) as [r R'] eqn:Ec. destruct (al_commit_to_ok i R r R' L2 Ec) as [Hw' [_ _ Hc _]]. cbn in *.
  exists R'. unfold al_commit_to in Ec.
  assert (al_entries R' = al_entries R /\ al_term R' = al_term R /\ al_vote R' = al_vote R) as (He & Ht & Hv)
    by (repeat case_match; now inv Ec).
  split; [|auto]. split; cbn; auto. unfold al_last. now rewrite He.
Qed.

Lemma lkeep_apply_and_respond t e : respects lkeep (apply_and_respond t e).
Proof.
  unfold apply_and_respond. respects_at n. apply respects_bind; [typeclasses eauto|auto with respects|]. intros _ n1.
  pose proof (lkeep_with_state (state_apply e) n1) as Hs. destruct (with_state (state_apply e) n1) as [r n2].
  destruct r as [v|er|p]; [..|exact Hs]; (destruct (writes (role n) !! index e) as [w|]; [|exact Hs]);
    (etransitivity; [exact Hs|]); apply lkeep_send_via.
Qed.
#[local] Hint Resolve lkeep_maybe_read lkeep_apply_and_respond : respects.

Lemma quorum_value_In {R} values (n : RawNode R) v : quorum_value values n = Ok v -> In v values.
Proof.
  unfold quorum_value. case_match; [discriminate|]. destruct (merge_sort Z.ge values !! _) as [x|] eqn:Ex; [|discriminate].
  intros [= <-]. apply list_elem_of_lookup_2 in Ex. apply list_elem_of_In. now rewrite merge_sort_Permutation in Ex.
Qed.

(** The match indexes a leader commits by, its own last index included. *)
Definition match_indexes (n : RawNode Leader) : list Index :=
  (match_index <$> (map_to_list (progress (role n))).*2) ++ [last_index (log n)].

Lemma match_indexes_range n R v : leads n R -> In v (match_indexes n) -> 0 <= v <= al_last R.
Proof.
  intros [L1 L2 L3 L4] Hv. unfold match_indexes in Hv. apply in_app_iff in Hv as [Hv|[<-|[]]].
  - apply list_elem_of_In, list_elem_of_fmap in Hv as (p & -> & Hp). apply list_elem_of_fmap in Hp as ([id q] & -> & Hq).
    apply elem_of_map_to_list in Hq. apply (L4 id q Hq).
  - rewrite (lr_last _ _ L1). unfold al_last. lia.
Qed.

Lemma lkeep_maybe_commit_and_apply : respects lkeep maybe_commit_and_apply.
Proof.
  intros n R Hl Hb. unfold maybe_commit_and_apply. unfold st_bind at 1, st_read at 1.
  change ((get_last_index (log n)).1) with (last_index (log n)). fold (match_indexes n).
  destruct (quorum_value (match_indexes n) n) as [ci|e|p] eqn:Eq; [|now apply leads_same..].
  assert (is_u64 ci) as Hci.
  { pose proof (match_indexes_range n R ci Hl (quorum_value_In _ _ _ Eq)). pose proof (wf_length R (ld_wf n R Hl)).
    unfold is_u64. lia. }
  destruct (get_commit_index (log n)) as [oi ot]. destruct (ci <=? oi); [now apply leads_same|].
  unfold st_bind at 1, st_read at 1. destruct (get ci (log n)) as [[e|]|e|p]; [|now apply leads_same..].
  destruct (negb _); [now apply leads_same|].
  match goal with |- context [leads (snd (?m n)) _] => assert (respects lkeep m) as Hm; [|exact (Hm n R Hl Hb)] end.
  apply respects_bind; [typeclasses eauto|now apply lkeep_commit|]. intros _.
  do 2 (apply respects_bind; [typeclasses eauto|solve_respects|intros ?]).
  apply respects_bind; [typeclasses eauto| |intros _; solve_respects].
  intros n1. destruct (negb _); [apply lkeep_maybe_read|reflexivity].
Qed.
#[local] Hint Resolve lkeep_maybe_commit_and_apply : respects.

Lemma lkeep_propose_loop i ps :
  respects lkeep (st_iter (fun peer =>
     let! p := get_progress peer in
     if i =? next_index p then maybe_send_append peer false else st_ret tt) ps).
Proof. solve_respects. Qed.

Lemma lkeep_advance id m : m <= bound -> respects lkeep (update_progress id (advance m)).
Proof. intros Hm. apply lkeep_update_progress. intros last p Hl Hb Hp. apply advance_ok; auto. lia. Qed.
Lemma lkeep_advance_read id m : respects lkeep (update_progress id (advance_read m)).
Proof. apply lkeep_update_progress. intros. now apply advance_read_ok. Qed.
Lemma lkeep_regress id m : respects lkeep (update_progress id (regress_next m)).
Proof. apply lkeep_update_progress. intros. now apply regress_next_ok. Qed.

End Keep.

(** An appended entry keeps the leader's invariant. *)
Lemma append_leads c (n : RawNode Leader) R :
  leads n R -> al_last R + 1 < u64_max ->
  exists l', append c (log n) = ((al_append c R).1, l') /\
    leads (mkNode (node_id n) (peers n) l' (state n) (tx n) (opts n) (rng n) (role n)) (al_append c R).2.
Proof.
  intros Hl Hmax. destruct (ld_log n R Hl, ld_wf n R Hl) as [Hr Hw].
  destruct (log_append_spec (log n) R c Hr Hw Hmax) as (l' & Ea & Hr' & _). exists l'. split; [exact Ea|].
  destruct (al_append c R) as [ra Ra] eqn:Era. destruct (al_append_ok c R ra Ra Hw Hmax Era) as [Hwa _]. cbn [snd] in *.
  split; [exact Hr'|exact Hwa|apply (ld_peers n R Hl)|]. intros id p Hp. destruct (ld_progress n R Hl id p Hp) as [P1 P2].
  unfold al_append in Era. destruct (negb (0 <? al_term R)); inv Era; [exact (conj P1 P2)|].
  unfold progress_ok, al_last in *. cbn [al_entries]. rewrite length_app. cbn [length]. lia.
Qed.

(** Proposing appends one entry. *)
Lemma propose_leads c n R r n' :
  leads n R -> al_last R + 1 < u64_max -> propose c n = (r, n') ->
  exists R', leads n' R' /\ al_term R' = al_term R /\ al_vote R' = al_vote R /\ al_commit R <= al_commit R' /\
    (al_entries R' = al_entries R \/ al_entries R' = al_entries R ++ [mkEntry (al_last R + 1) (al_term R) c]).
Proof.
  intros Hl Hmax Ep. unfold propose in Ep. destruct (append_leads c n R Hl Hmax) as (l' & Ea & Hl1).
  unfold st_bind at 1, with_log in Ep. rewrite Ea in Ep. set (n1 := mkNode _ _ l' _ _ _ _ _) in *.
  assert ((al_append c R).2 = R \/ (al_append c R).2 =
    mkAlog (al_entries R ++ [mkEntry (al_last R + 1) (al_term R) c]) (al_term R) (al_vote R) (al_commit R)) as Hcase
    by (unfold al_append; destruct (negb (0 <? al_term R)); auto).
  assert (lkeep 0 n1 n') as Hk.
  { destruct ((al_append c R).1) as [i|e|p]; [|inv Ep; reflexivity..].
    match type of Ep with ?m n1 = _ => assert (respects (lkeep 0) m) as Hm end.
    { apply respects_bind; [typeclasses eauto|apply lkeep_propose_loop|]. intros _. apply respects_ret. typeclasses eauto. }
    specialize (Hm n1). rewrite Ep in Hm. exact Hm. }
  destruct (Hk _ Hl1 ltac:(unfold al_last; lia)) as (R' & Hl' & E1 & E2 & E3 & E4). exists R'. split; [exact Hl'|].
  rewrite E1, E2, E3. destruct Hcase as [Hc|Hc]; rewrite Hc in *; cbn in *; auto.
Qed.

#[local] Hint Resolve lkeep_with_state lkeep_send_via lkeep_send lkeep_broadcast lkeep_get_progress
  lkeep_maybe_send_append lkeep_heartbeat lkeep_maybe_read lkeep_maybe_commit_and_apply
  lkeep_advance lkeep_advance_read lkeep_regress : respects.
#[local] Hint Extern 1 (respects (lkeep _) (update_role _)) => (apply lkeep_role; reflexivity) : respects.
#[local] Hint Extern 1 (_ <= _) => lia : respects.

Lemma leader_handle_leads n R msg :
  leads n R -> al_last R + 1 < u64_max ->
  exists R', leads (leader_handle msg n).2 R' /\ al_term R' = al_term R /\ al_vote R' = al_vote R /\
    al_commit R <= al_commit R' /\
    (al_entries R' = al_entries R \/
     exists c, al_entries R' = al_entries R ++ [mkEntry (al_last R + 1) (al_term R) c]).
Proof.
  intros Hl Hmax.
  assert (forall b n', b <= al_last R -> lkeep b n n' -> exists R', leads n' R' /\ al_term R' = al_term R /\
    al_vote R' = al_vote R /\ al_commit R <= al_commit R' /\ (al_entries R' = al_entries R \/
     exists c, al_entries R' = al_entries R ++ [mkEntry (al_last R + 1) (al_term R) c])) as Hk.
  { intros b n' Hb Hk. destruct (Hk R Hl Hb) as (R' & L & E1 & E2 & E3 & E4). exists R'. auto 10. }
  assert (lkeep 0 n n) as Hrefl by reflexivity. assert (0 <= al_last R) as H0' by (unfold al_last; lia).
  unfold leader_handle. cbv zeta. unfold get_last_index. rewrite (lr_last _ _ (ld_log n R Hl)). cbn [fst].
  destruct (env_message msg) as [i t|v|i c s|m s|i t es|m j|s|s|q rq|q rs]; try (now apply (Hk 0)).
  - apply (Hk 0); [exact H0'|]. apply lkeep_send.
  - unfold st_bind at 1, st_assert at 1. destruct (Z.leb_spec m (al_last R)) as [Hm|]; [|now apply (Hk 0)].
    apply (Hk m); [exact Hm|].
    by_respects. solve_respects.
  - destruct ((j =? 0) && (0 <? m))%bool.
    { unfold st_bind at 1, st_assert at 1. destruct (Z.leb_spec m (al_last R)) as [Hm|]; [|now apply (Hk 0)].
      apply (Hk m); [exact Hm|].
      by_respects. solve_respects. }
    destruct ((m =? 0) && (0 <? j))%bool; [|now apply (Hk 0)]. apply (Hk 0); [exact H0'|].
    by_respects. solve_respects.
  - apply (Hk 0); [exact H0'|].
    by_respects. solve_respects.
  - destruct rq as [c|c|].
    + apply (Hk 0); [exact H0'|].
      by_respects. do 2 (apply respects_bind; [typeclasses eauto|solve_respects|intros ?]).
      intros n1. destruct (_ =? 1)%nat; [apply lkeep_maybe_read|reflexivity].
    + unfold st_bind at 1. destruct (propose (Some c) n) as [r n1] eqn:Ep.
      destruct (propose_leads _ _ _ _ _ Hl Hmax Ep) as (R1 & L1 & T1 & V1 & C1 & E1).
      destruct r as [i|e|p]; [|exists R1; split; [exact L1|]; destruct E1; eauto 10..].
      assert (forall n', lkeep 0 n1 n' -> exists R', leads n' R' /\ al_term R' = al_term R /\
        al_vote R' = al_vote R /\ al_commit R <= al_commit R' /\ (al_entries R' = al_entries R \/
         exists c, al_entries R' = al_entries R ++ [mkEntry (al_last R + 1) (al_term R) c])) as Hk1.
      { intros n' Hk'. destruct (Hk' R1 L1 ltac:(unfold al_last; lia)) as (R' & L & F1 & F2 & F3 & F4). exists R'.
        split; [exact L|]. split; [congruence|]. split; [congruence|]. split; [lia|]. rewrite F1. destruct E1; eauto. }
      apply Hk1.
      by_respects. apply respects_bind; [typeclasses eauto|solve_respects|]. intros _ n2.
      destruct (_ =? 1)%nat; [|reflexivity]. revert n2. respects_at n2. solve_respects.
    + apply (Hk 0); [exact H0'|]. apply lkeep_respond. intros resp. apply lkeep_send.
Qed.

(** ** Followers and candidates *)
Section Evolve.
Context (R0 : alog).

(** The log is a well-formed evolution of [R0], in the second case with the
    same entries (and the node ID is a byte). *)
Definition evolved {R} (n : RawNode R) : Prop :=
  exists R', log_rep (log n) R' /\ al_wf R' /\ al_evolves R0 R'.
Definition kept {R} (n : RawNode R) : Prop :=
  0 <= node_id n <= u8_max /\
  exists R', log_rep (log n) R' /\ al_wf R' /\ al_evolves R0 R' /\ al_entries R' = al_entries R0.

Lemma kept_evolved {R} (n : RawNode R) : kept n -> evolved n.
Proof. intros (_ & R' & A1 & A2 & A3 & _). exists R'. auto. Qed.

Definition keep {R} (n n' : RawNode R) : Prop := kept n -> kept n'.
#[local] Instance keep_preorder {R} : PreOrder (@keep R).
Proof. split; [now intros n F|intros n1 n2 n3 A B F; auto]. Qed.

Lemma kept_same {R Q} (n : RawNode R) (n' : RawNode Q) :
  log n' = log n -> node_id n' = node_id n -> kept n -> kept n'.
Proof. intros El Ei (Hid & R' & A). split; [now rewrite Ei|]. exists R'. now rewrite El. Qed.
Lemma evolved_same {R Q} (n : RawNode R) (n' : RawNode Q) : log n' = log n -> evolved n -> evolved n'.
Proof. intros El (R' & A). exists R'. now rewrite El. Qed.

Lemma keep_with_state {R A} (m : stM S A) : respects (@keep R) (with_state m).
Proof. intros n. unfold with_state. destruct (m (state n)). exact (kept_same _ _ eq_refl eq_refl). Qed.
Lemma keep_timeout {R} : respects (@keep R) random_election_timeout.
Proof. intros n. unfold random_election_timeout, with_rng. destruct (random_range _ _). exact (kept_same _ _ eq_refl eq_refl). Qed.
Lemma keep_send {R} to m : respects (@keep R) (send to m).
Proof. intros n. unfold send, send_via, with_tx. destruct (channel_send _ (tx n)). exact (kept_same _ _ eq_refl eq_refl). Qed.
Lemma keep_broadcast {R} m : respects (@keep R) (broadcast m).
Proof. unfold broadcast. respects_at n. apply respects_iter; [typeclasses eauto|]. intros x. apply keep_send. Qed.
Lemma keep_role {R} f : respects (@keep R) (update_role f).
Proof. intros n. exact (kept_same _ _ eq_refl eq_refl). Qed.

Lemma keep_log_op {R A} (m : stM (Log E) A) (am : alog -> outcome A * alog) :
  (forall l R1, log_rep l R1 -> al_wf R1 -> exists l', m l = ((am R1).1, l') /\ log_rep l' (am R1).2 /\
     al_wf (am R1).2 /\ al_evolves R1 (am R1).2 /\ al_entries (am R1).2 = al_entries R1) ->
  respects (@keep R) (with_log m).
Proof.
  intros Hm n (Hid & R1 & A1 & A2 & A3 & A4). unfold with_log.
  destruct (Hm (log n) R1 A1 A2) as (l' & -> & B1 & B2 & B3 & B4). split; [exact Hid|]. exists (am R1).2. cbn.
  split; [exact B1|]. split; [exact B2|]. split; [etransitivity; eassumption|congruence].
Qed.

Lemma keep_set_term_vote {R} t v : term_vote_valid (t, v) -> respects (@keep R) (with_log (set_term_vote t v)).
Proof.
  intros Hv. apply (keep_log_op _ (al_set_term_vote t v)). intros l R1 Hr Hw.
  destruct (set_term_vote_spec l R1 t v Hr Hw Hv) as (l' & El & Hr' & _). exists l'. split; [exact El|]. split; [exact Hr'|].
  destruct (al_set_term_vote t v R1) as [r R'] eqn:Ea. destruct (al_set_term_vote_ok t v R1 r R' Hw Hv Ea).
  split; [assumption|]. split; [assumption|]. cbn. unfold al_set_term_vote in Ea. repeat case_match; now inv Ea.
Qed.

Lemma keep_commit {R} i : is_u64 i -> respects (@keep R) (with_log (commit i)).
Proof.
  intros Hi. apply (keep_log_op _ (al_commit_to i)). intros l R1 Hr Hw.
  destruct (log_commit_spec l R1 i Hr Hw Hi) as (l' & El & Hr' & _). exists l'. split; [exact El|]. split; [exact Hr'|].
  destruct (al_commit_to i R1) as [r R'] eqn:Ea. destruct (al_commit_to_ok i R1 r R' Hw Ea).
  split; [assumption|]. split; [assumption|]. cbn. unfold al_commit_to in Ea. repeat case_match; now inv Ea.
Qed.

#[local] Hint Resolve keep_with_state keep_timeout keep_send keep_broadcast keep_role keep_set_term_vote keep_commit : respects.

Lemma keep_abort_forwarded : respects keep abort_forwarded.
Proof. unfold abort_forwarded. respects_at n. solve_respects. Qed.

Lemma keep_maybe_apply : respects keep maybe_apply.
Proof.
  unfold maybe_apply. solve_respects. intros n. pose proof (keep_with_state (state_apply a0) n) as Hs.
  destruct (with_state (state_apply a0) n) as [[]]; exact Hs.
Qed.

Lemma keep_campaign : respects keep campaign.
Proof.
  unfold campaign. intros n Hn. pose proof (proj1 Hn) as Hid. revert Hn.
  match goal with |- kept n -> kept ?x => change (keep n x) end. by_respects. solve_respects.
  - apply keep_set_term_vote. split; [apply u64_range|exact Hid].
  - intros n1. destruct (get_last_index (log n1)). apply keep_broadcast.
Qed.
#[local] Hint Resolve keep_abort_forwarded keep_maybe_apply keep_campaign : respects.

(** Reasoning about consuming methods that keep the entries. *)
Lemma sat_keep {R A B} (m : stM (RawNode R) A) n (k : A -> RawNode R -> stepped E S T G B) Good :
  keep n (m n).2 -> kept n -> (forall a n', kept n' -> sat Good evolved (k a n')) -> sat Good evolved (call m n k).
Proof.
  intros Hm Hn Hk. unfold call. specialize (Hm Hn). destruct (m n) as [[a|e|p] n']; cbn in *; [now apply Hk|..];
    now apply kept_evolved, (kept_same n' _ eq_refl eq_refl).
Qed.

Lemma sat_keep_check {R B} (b : bool) msg (n : RawNode R) (k : stepped E S T G B) Good :
  kept n -> (b = true -> sat Good evolved k) -> sat Good evolved (check b msg n k).
Proof. intros Hn. apply sat_check. now apply kept_evolved, (kept_same n _ eq_refl eq_refl). Qed.

Ltac kstep :=
  match goal with
  | |- sat _ _ (call _ _ _) => apply sat_keep; [solve [by_respects; solve_respects]|assumption|intros ? ? ?]
  | |- sat _ _ (check _ _ _ _) => apply sat_keep_check; [assumption|intros ?]
  end.
Ltac kinto := first [assumption | eapply (kept_same _ (into_role _ _) eq_refl eq_refl); eassumption].

Lemma follower_into_follower_kept t l n :
  is_u64 t -> kept n -> sat kept evolved (follower_into_follower t l n).
Proof.
  intros Ht Hn. unfold follower_into_follower. do 2 kstep. destruct l as [l|].
  - do 3 kstep. cbn. kinto.
  - kstep. apply sat_keep; [apply keep_set_term_vote; now split|assumption|intros ? ? ?]. kstep. cbn. kinto.
Qed.

Lemma ensure_leader_kept msg n : is_u64 (env_term msg) -> kept n -> sat kept evolved (ensure_leader msg n).
Proof.
  intros Ht Hn. unfold ensure_leader. destruct (leader (role n)); [kstep; exact Hn|now apply follower_into_follower_kept].
Qed.

Lemma follower_into_candidate_kept n : kept n -> sat kept evolved (follower_into_candidate n).
Proof.
  intros Hn. unfold follower_into_candidate. do 3 kstep.
  apply sat_keep; [apply keep_campaign|kinto|intros ? c ?]. destruct (get_term_vote (log c)). do 3 kstep. assumption.
Qed.

Lemma candidate_into_follower_kept t l n : is_u64 t -> kept n -> sat kept evolved (candidate_into_follower t l n).
Proof.
  intros Ht Hn. unfold candidate_into_follower. kstep. destruct l as [l|]; kstep; [cbn; kinto|].
  apply sat_keep; [apply keep_set_term_vote; now split|assumption|intros ? ? ?]. cbn. kinto.
Qed.

Lemma leader_into_follower_kept t n : is_u64 t -> kept n -> sat kept evolved (leader_into_follower t n).
Proof.
  intros Ht Hn. unfold leader_into_follower. kstep. cbv zeta. rewrite call_bind. kstep. rewrite call_bind. kstep.
  rewrite call_bind. kstep. rewrite call_bind. kstep.
  apply sat_keep; [apply keep_set_term_vote; now split|assumption|intros ? ? ?]. kstep. cbn. kinto.
Qed.

(** ** Follower steps *)

(** The values a message can carry, and the room it may need in the log. *)
Definition message_ok (m : Message) : Prop :=
  match m with
  | Heartbeat last_index commit_index _ => is_u64 last_index /\ is_u64 commit_index
  | Append base_index _ entries => is_u64 base_index /\ Forall entry_valid entries
  | _ => True
  end.
Definition message_room (m : Message) : Z :=
  match m with Append _ _ entries => Z.of_nat (length entries) | _ => 0 end.

Lemma evolved_of {A} (r : stepped E S T G A) (Good Good' : A -> Prop) Bad :
  (forall a, Good a -> Good' a) -> sat Good Bad r -> sat Good' Bad r.
Proof. intros HG. apply sat_mono; auto. Qed.

Lemma splice_evolved {R} es (n : RawNode R) :
  Forall entry_valid es -> al_last R0 + Z.of_nat (length es) < u64_max -> kept n -> evolved (with_log (splice es) n).2.
Proof.
  intros Hv Hmax (_ & R1 & A1 & A2 & A3 & A4). unfold with_log. assert (al_last R1 = al_last R0) as Hl by (unfold al_last; now rewrite A4).
  destruct (splice_spec (log n) R1 es A1 A2 Hv ltac:(lia)) as (l' & -> & Hr' & _). exists (al_splice es R1).2. cbn.
  split; [exact Hr'|]. destruct (al_splice es R1) as [[i|e|p] R'] eqn:Ea; cbn [snd] in *.
  - apply al_splice_ok in Ea; [|assumption|assumption|lia].
    destruct (spliced_ok es R1 R' i A2 ltac:(lia) Ea) as [Hw He]. split; [exact Hw|]. etransitivity; eassumption.
  - rewrite (al_splice_stuck _ _ _ _ Ea). auto.
  - rewrite (al_splice_stuck _ _ _ _ Ea). auto.
Qed.

Lemma sat_evolve {R A B} (m : stM (RawNode R) A) n (k : A -> RawNode R -> stepped E S T G B) Good :
  evolved (m n).2 -> (forall a n', evolved n' -> sat Good evolved (k a n')) -> sat Good evolved (call m n k).
Proof.
  intros Hm Hk. unfold call. destruct (m n) as [[a|e|p] n']; cbn in *; [now apply Hk|..]; exact (evolved_same n' (into_role tt n') eq_refl Hm).
Qed.

Lemma send_evolved {R} to m (n : RawNode R) : evolved n -> evolved (send to m n).2.
Proof. unfold send, send_via, with_tx. destruct (channel_send _ (tx n)). now apply evolved_same. Qed.

Lemma follower_append_evolved msg i t es n :
  is_u64 (env_term msg) -> Forall entry_valid es -> al_last R0 + Z.of_nat (length es) < u64_max -> kept n ->
  sat evolved evolved (follower_append msg i t es n).
Proof.
  intros Ht Hv Hmax Hn. unfold follower_append. kstep.
  eapply sat_then; [now apply ensure_leader_kept|]. intros n1 Hn1. kstep.
  match goal with b : bool |- _ => destruct b end; [|cbv zeta; kstep; now apply kept_evolved].
  cbv zeta. apply sat_evolve; [now apply splice_evolved|]. intros _ n2 Hn2.
  apply sat_evolve; [now apply send_evolved|]. intros _ n3 Hn3. exact Hn3.
Qed.

Lemma follower_handle_evolved msg n :
  envelope_ok msg -> message_ok (env_message msg) -> al_last R0 + message_room (env_message msg) < u64_max -> kept n ->
  sat evolved evolved (follower_handle msg n).
Proof.
  intros [Ht Hf] Hm Hmax Hn. unfold follower_handle. cbv zeta. set (n1 := if bool_decide _ then _ else n).
  assert (kept n1) as Hn1 by (unfold n1; destruct (bool_decide _); [kinto|exact Hn]). clearbody n1.
  assert (evolved n1) as He1 by now apply kept_evolved.
  destruct (env_message msg) as [i t|v|i c s|m s|i t es|m j|s|s|q rq|q rs] eqn:Em; cbn in Hm, Hmax;
    try (exact (evolved_same n1 (into_role tt n1) eq_refl He1)).
  - unfold follower_campaign. destruct (match _ with Some _ => _ | None => _ end); [kstep; now apply kept_evolved|].
    destruct (get_last_index (log n1)). destruct (_ || _)%bool; [kstep; now apply kept_evolved|].
    apply sat_keep; [apply keep_set_term_vote; now split|assumption|intros ? ? ?]. kstep. now apply kept_evolved.
  - unfold follower_heartbeat. kstep. eapply sat_then; [now apply ensure_leader_kept|]. intros n2 Hn2. do 2 kstep.
    destruct (_ && _)%bool; [|now apply kept_evolved].
    apply sat_keep; [apply keep_commit, Hm|assumption|intros ? ? ?]. kstep. now apply kept_evolved.
  - apply follower_append_evolved; tauto.
  - eapply sat_then; [now apply ensure_leader_kept|]. intros n2 Hn2. kstep. now apply kept_evolved.
  - unfold follower_client_request. kstep. destruct (leader (role n1)); cbv zeta.
    + apply sat_keep; [by_respects; solve_respects|kinto|intros ? ? ?]. now apply kept_evolved.
    + kstep. now apply kept_evolved.
  - unfold follower_client_response. kstep. cbv zeta. destruct (bool_decide (q ∈ _)); [|exact He1].
    apply sat_keep; [by_respects; solve_respects|kinto|intros ? ? ?]. now apply kept_evolved.
Qed.

Lemma follower_step_evolved msg n k :
  envelope_ok msg -> message_ok (env_message msg) -> al_last R0 + message_room (env_message msg) < u64_max -> kept n ->
  sat (fun N => exists n', N = NFollower n' /\ evolved n') evolved (follower_step_n (Datatypes.S k) msg n).
Proof.
  intros He Hm Hmax. revert n; induction k as [|k IH]; intros n Hn; cbn [follower_step_n].
  - destruct (_ <? _); [exists n; split; [reflexivity|now apply kept_evolved]|].
    destruct (_ <? _); (eapply sat_then; [|]).
    + apply follower_into_follower_kept; [apply He|exact Hn].
    + intros n1 Hn1. exact (evolved_same n1 (into_role tt n1) eq_refl (kept_evolved n1 Hn1)).
    + now apply follower_handle_evolved.
    + intros n1 Hn1. exists n1. auto.
  - destruct (_ <? _); [exists n; split; [reflexivity|now apply kept_evolved]|].
    destruct (_ <? _); (eapply sat_then; [|]).
    + apply follower_into_follower_kept; [apply He|exact Hn].
    + intros n1 Hn1. now apply IH.
    + now apply follower_handle_evolved.
    + intros n1 Hn1. exists n1. auto.
Qed.

End Evolve.

(** ** Every role *)
Definition node_ok (N : Node E S T G) (R : alog) : Prop :=
  0 <= node_id (core N) <= u8_max /\
  match N with
  | NLeader n => leads n R
  | _ => log_rep (log (core N)) R /\ al_wf R
  end.

Lemma leads_evolves n n' R R' c :
  leads n R -> leads n' R' -> al_term R' = al_term R -> al_vote R' = al_vote R -> al_commit R <= al_commit R' ->
  al_entries R' = al_entries R \/ al_entries R' = al_entries R ++ [c] -> al_evolves R R'.
Proof.
  intros Hl _ Ht Hv Hc He. split; [lia|intros; congruence|exact Hc|].
  destruct He as [-> | ->]; [reflexivity|]. apply take_app_le. pose proof (wf_commit R (ld_wf n R Hl)). unfold al_last in *. lia.
Qed.

Lemma log_rep_tv (l : Log E) R : log_rep l R -> al_wf R -> tv_ok l.
Proof.
  intros Hr Hw. split; [apply (lr_inv _ _ Hr)|..]; rewrite ?(lr_term _ _ Hr), ?(lr_vote _ _ Hr).
  - split; [apply (wf_term R Hw)|apply (wf_vote R Hw)].
  - apply (wf_vote0 R Hw).
  - exact (rr_tv _ _ _ _ (lr_raw _ _ Hr)).
Qed.

Lemma node_ok_rep N R : node_ok N R -> log_rep (log (core N)) R /\ al_wf R.
Proof. intros [_ Hn]. destruct N; [exact Hn..|]. split; apply Hn. Qed.

Lemma node_ok_kept {Q} N (n : RawNode Q) R : node_ok N R -> core N = into_role tt n -> kept R n.
Proof.
  intros Hn Hc. destruct (node_ok_rep N R Hn) as [Hr Hw]. destruct Hn as [Hid _]. rewrite Hc in *. split; [exact Hid|].
  exists R. split; [exact Hr|]. split; [exact Hw|]. split; reflexivity.
Qed.

(** The log part of [node_ok] after a step, its identity apart. *)
Definition logged (R : alog) (N : Node E S T G) : Prop :=
  exists R', al_evolves R R' /\
    match N with
    | NLeader n => leads n R'
    | _ => log_rep (log (core N)) R' /\ al_wf R'
    end.

Lemma logged_follower R (r : stepped E S T G (Node E S T G)) :
  sat (fun N => exists n', N = NFollower n' /\ evolved R n') (evolved R) r -> sat (logged R) (evolved R) r.
Proof. apply sat_mono; [|auto]. intros N (n & -> & R' & A1 & A2 & A3). exists R'. auto. Qed.

Lemma logged_candidate R n : kept R n -> logged R (NCandidate n).
Proof. intros (_ & R' & A1 & A2 & A3 & _). exists R'. auto. Qed.

(** Winning an election establishes the leader's invariant. *)
Lemma candidate_into_leader_leads n R :
  log_rep (log n) R -> al_wf R -> al_last R + 1 < u64_max ->
  sat (fun n' => logged R (NLeader n')) (evolved R) (candidate_into_leader n).
Proof.
  intros Hr Hw Hmax. unfold candidate_into_leader. destruct (get_term_vote (log n)) as [t v].
  assert (evolved R n) as Hev by (exists R; split; [exact Hr|split; [exact Hw|reflexivity]]).
  do 2 (apply sat_check; [exact (evolved_same R n (into_role tt n) eq_refl Hev)|intros _]). cbv zeta.
  set (n1 := into_role _ n). assert (0 <= al_last R) as H0' by (unfold al_last; lia).
  assert (leads n1 R) as Hl1.
  { split; [exact Hr|exact Hw|apply dom_gset_to_gmap|]. cbn. intros id p Hp.
    apply lookup_gset_to_gmap_Some in Hp as [_ <-]. rewrite (lr_last _ _ Hr), u64_add_small by (unfold is_u64; lia).
    unfold progress_ok. cbn. lia. }
  rewrite call_bind. unfold call. destruct (propose None n1) as [r n2] eqn:Ep.
  destruct (propose_leads _ _ _ _ _ Hl1 Hmax Ep) as (R2 & L2 & T2 & V2 & C2 & E2).
  assert (forall n3, lkeep 0 n2 n3 -> logged R (NLeader n3) /\ evolved R (into_role tt n3)) as Hk.
  { intros n3 Hk. destruct (Hk R2 L2 ltac:(unfold al_last; lia)) as (R3 & L3 & E3 & T3 & V3 & C3).
    assert (al_evolves R R3) as He.
    { eapply (leads_evolves n1 n3); [exact Hl1|exact L3|congruence|congruence|lia|]. rewrite E3. exact E2. }
    split; exists R3; [auto|]. split; [exact (ld_log _ _ L3)|]. split; [exact (ld_wf _ _ L3)|exact He]. }
  destruct r as [i|e|p]; [|apply (Hk n2); reflexivity..].
  assert (respects (lkeep 0) (let! _ := maybe_commit_and_apply in heartbeat)) as Hm by solve_respects.
  specialize (Hm n2). destruct (st_bind maybe_commit_and_apply (fun _ => heartbeat) n2) as [[u|e|p] n3] eqn:Eq; cbn in Hm |- *;
    now apply Hk.
Qed.

Lemma candidate_step_logged n R msg :
  node_ok (NCandidate n) R -> envelope_ok msg -> message_ok (env_message msg) ->
  al_last R + message_room (env_message msg) + 1 < u64_max ->
  sat (logged R) (evolved R) (candidate_step msg n).
Proof.
  intros Hn He Hm Hmax. destruct (node_ok_rep _ _ Hn) as [Hr Hw]. cbn in Hr.
  pose proof (node_ok_kept _ n R Hn eq_refl) as Hk.
  assert (0 <= message_room (env_message msg)) as Hroom by (unfold message_room; case_match; lia).
  assert (evolved R (into_role tt n)) as Hbad by exact (kept_evolved R (into_role tt n) Hk).
  assert (logged R (NCandidate n)) as Hsame by now apply logged_candidate.
  assert (forall l, sat (logged R) (evolved R) (and_then (candidate_into_follower (env_term msg) l n) (follower_step msg))) as Hfol.
  { intros l. eapply sat_then; [apply candidate_into_follower_kept; [apply He|exact Hk]|]. intros n1 Hn1.
    apply logged_follower, follower_step_evolved; auto. lia. }
  unfold candidate_step. destruct (_ <? _); [exact Hsame|]. destruct (_ <? _); [apply Hfol|].
  destruct (env_message msg) as [i t|v|i c s|m s|i t es|m j|s|s|q rq|q rs]; try exact Hbad; try apply Hfol;
    try (apply sat_keep; [apply keep_send|exact Hk|]; intros _ n' Hn'; now apply logged_candidate).
  destruct v; [|exact Hsame]. cbv zeta. destruct (_ <=? _)%nat; [|now apply logged_candidate].
  eapply sat_then; [|intros n' Hn'; exact Hn']. apply candidate_into_leader_leads; [exact Hr|exact Hw|lia].
Qed.

Lemma leader_step_logged n R msg :
  node_ok (NLeader n) R -> envelope_ok msg -> message_ok (env_message msg) ->
  al_last R + message_room (env_message msg) + 1 < u64_max ->
  sat (logged R) (evolved R) (leader_step msg n).
Proof.
  intros Hn He Hm Hmax. pose proof (node_ok_kept _ n R Hn eq_refl) as Hk. destruct Hn as [_ Hl].
  assert (0 <= message_room (env_message msg)) as Hroom by (unfold message_room; case_match; lia).
  unfold leader_step. destruct (_ <? _); [exists R; split; [reflexivity|exact Hl]|]. destruct (_ <? _).
  - eapply sat_then; [apply leader_into_follower_kept; [apply He|exact Hk]|]. intros n1 Hn1.
    apply logged_follower, follower_step_evolved; auto. lia.
  - destruct (leader_handle_leads n R msg Hl ltac:(lia)) as (R' & L' & T' & V' & C' & E').
    assert (al_evolves R R') as Hev.
    { assert (exists c, al_entries R' = al_entries R \/ al_entries R' = al_entries R ++ [c]) as [c Hc]
        by (destruct E' as [E'|[c E']]; [exists (mkEntry 0 0 None)|]; eauto).
      now apply (leads_evolves n (leader_handle msg n).2 R R' c). }
    unfold call. destruct (leader_handle msg n) as [[u|e|p] n']; cbn in *; exists R'; auto;
      (split; [exact (ld_log _ _ L')|split; [exact (ld_wf _ _ L')|exact Hev]]).
Qed.

Lemma tick_logged N R : node_ok N R -> sat (logged R) (evolved R) (tick N).
Proof.
  intros Hn. destruct N as [n|n|n]; cbn [tick].
  - pose proof (node_ok_kept _ n R Hn eq_refl) as Hk. unfold candidate_tick. cbv zeta.
    destruct (_ <=? _); [|now apply logged_candidate].
    apply sat_keep; [apply keep_campaign|exact Hk|]. intros _ n' Hn'. now apply logged_candidate.
  - pose proof (node_ok_kept _ n R Hn eq_refl) as Hk. unfold follower_tick. cbv zeta.
    destruct (_ <=? _); [|destruct Hk as (_ & R' & A1 & A2 & A3 & _); exists R'; auto].
    eapply sat_then; [now apply follower_into_candidate_kept|]. intros n' Hn'. now apply logged_candidate.
  - destruct Hn as [_ Hl]. unfold leader_tick. cbv zeta.
    assert (respects (lkeep 0) (update_role (fun r => mkLeader (progress r) (writes r) (reads r) (l_read_seq r)
        (u8_add (since_heartbeat (role n)) 1)) ;;;
      if heartbeat_interval (opts n) <=? u8_add (since_heartbeat (role n)) 1 then heartbeat else st_ret tt)) as Hm
      by solve_respects.
    destruct (Hm n R Hl ltac:(unfold al_last; lia)) as (R' & L' & E' & T' & V' & C').
    assert (al_evolves R R') as Hev by (apply (leads_evolves n _ R R' (mkEntry 0 0 None) Hl L'); auto).
    unfold call. destruct (st_bind _ _ n) as [[u|e|p] n']; cbn in *; exists R'; auto;
      (split; [exact (ld_log _ _ L')|split; [exact (ld_wf _ _ L')|exact Hev]]).
Qed.

Lemma step_logged N R msg :
  node_ok N R -> envelope_ok msg -> message_ok (env_message msg) ->
  al_last R + message_room (env_message msg) + 1 < u64_max ->
  sat (logged R) (evolved R) (step msg N).
Proof.
  intros Hn He Hm Hmax. assert (evolved R (into_role tt (core N))) as Hbad.
  { destruct (node_ok_rep N R Hn) as [Hr Hw]. exists R. split; [exact Hr|]. split; [exact Hw|reflexivity]. }
  unfold step. cbv zeta. do 2 (apply sat_check; [exact Hbad|intros _]). destruct N as [n|n|n].
  - now apply candidate_step_logged.
  - apply logged_follower, follower_step_evolved; [exact He|exact Hm|lia|now apply (node_ok_kept (NFollower n))].
  - now apply leader_step_logged.
Qed.

(** C6: every step and tick of a node, of any role and with any valid message,
    keeps the log and replication invariants: the log stays a well-formed Raft
    log that implements its abstract one; terms and the commit index do not
    regress, a vote is not changed within its term and committed entries stay;
    and each follower's progress on a leader stays in its documented range
    (next index within match index + 1 to last index + 1).  A step that fails
    leaves a log with the same guarantees. *)
Theorem raft_node_invariants (N : Node E S T G) (R : alog) :
  node_ok N R ->
  (forall msg, envelope_ok msg -> message_ok (env_message msg) ->
     al_last R + message_room (env_message msg) + 1 < u64_max ->
     sat (fun N' => exists R', node_ok N' R' /\ al_evolves R R') (evolved R) (step msg N)) /\
  sat (fun N' => exists R', node_ok N' R' /\ al_evolves R R') (evolved R) (tick N).
Proof.
  intros Hn. destruct (node_ok_rep N R Hn) as [Hr Hw]. pose proof (log_rep_tv _ _ Hr Hw) as Hok. pose proof (proj1 Hn) as Hid.
  assert (forall src r, stepped_ok N src r -> sat (logged R) (evolved R) r ->
    sat (fun N' => exists R', node_ok N' R' /\ al_evolves R R') (evolved R) r) as Hboth.
  { intros src r. destruct r as [N'|e d|p d]; cbn; [|auto..]. intros [Hm _] (R' & He & Hl'). exists R'.
    split; [|exact He]. split; [|exact Hl']. now rewrite (mv_id _ _ _ _ Hm). }
  split.
  - intros msg He Hm Hmax. eapply Hboth; [now apply step_ok|now apply step_logged].
  - eapply Hboth; [now apply tick_ok|now apply tick_logged].
Qed.

(** Append batches.  A leader in its invariant never trips an assertion
    when it replicates to a follower: it sends nothing when the follower is
    caught up or waiting, and otherwise one Append whose base is the entry
    before the follower's next index, with its term in the leader's log, and
    whose entries are the following ones up to the batch limit (none in a
    probe); the next index moves past the entries sent. *)
Theorem raft_append_batch (n : RawNode Leader) (R : alog) (peer : NodeID) (p : Progress) (probe : bool) :
  leads n R -> progress (role n) !! peer = Some p ->
  maybe_send_append peer probe n =
  match append_plan R (max_append_entries (opts n)) p probe with
  | None => (Ok tt, n)
  | Some (msg, entries) => send peer msg (bump_next peer p entries n)
  end.
Proof.
  intros Hl Hp. apply maybe_send_append_eq; [apply (ld_log n R Hl)|apply (ld_wf n R Hl)|exact Hp|exact (ld_progress n R Hl _ _ Hp)].
Qed.

(** ** Application *)
Definition with_applied {R} (n : RawNode R) (s : S) : RawNode R :=
  mkNode (node_id n) (peers n) (log n) s (tx n) (opts n) (rng n) (role n).

(** Apply entries in order; errors are results, a panic stops. *)
Fixpoint replay (es : list Entry) (s : S) : outcome unit * S :=
  match es with
  | [] => (Ok tt, s)
  | e :: es' =>
      match state_apply e s with
      | (Panic p, s') => (Panic p, s')
      | (_, s') => replay es' s'
      end
  end.

Lemma maybe_apply_eq (n : RawNode Follower) R :
  log_rep (log n) R -> al_wf R -> is_u64 (get_applied_index (state n)) ->
  maybe_apply n =
  let '(r, s') := replay (al_scan_apply (get_applied_index (state n)) R) (state n) in (r, with_applied n s').
Proof.
  intros Hr Hw Hi. unfold maybe_apply, st_bind at 1, st_read.
  rewrite (scan_apply_spec (log n) R) by assumption. generalize (al_scan_apply (get_applied_index (state n)) R). intros es.
  clear Hr Hw Hi. revert n; induction es as [|e es IH]; intros n; cbn [map st_iter replay]; [now destruct n|].
  unfold st_bind at 1. unfold st_bind at 1, st_lift. unfold with_state.
  destruct (state_apply e (state n)) as [[v|er|p] s1]; [..|reflexivity]; rewrite IH; reflexivity.
Qed.

(** The leader's loop applies the same entries, and leaves the log alone. *)
Lemma apply_loop_state t es (n : RawNode Leader) r n' :
  st_iter (fun item => let! entry := st_lift item in apply_and_respond t entry) (map Ok es) n = (r, n') ->
  log n' = log n /\ (r = Ok tt -> replay es (state n) = (Ok tt, state n')).
Proof.
  revert n; induction es as [|e es IH]; intros n; cbn [map st_iter replay].
  { intros [= <- <-]. auto. }
  unfold st_bind at 1. unfold st_bind at 1, st_lift.
  assert (forall r1 n1, apply_and_respond t e n = (r1, n1) -> log n1 = log n /\
    (r1 = Ok tt -> (exists p, (state_apply e (state n)).1 = Panic p) \/ state n1 = (state_apply e (state n)).2) /\
    (forall p, (state_apply e (state n)).1 = Panic p -> r1 = Panic p)) as Ha.
  { intros r1 n1. unfold apply_and_respond, st_bind, update_role, st_modify, with_state. cbn [state into_role role log].
    destruct (state_apply e (state n)) as [[v|er|p] s1]; cbn [fst snd].
    - destruct (writes (role n) !! index e) as [w|]; [|intros [= <- <-]; cbn; split; [reflexivity|split; [auto|discriminate]]].
      cbn. unfold send_via, with_tx. destruct (channel_send _ _) as [r2 t2]. intros [= <- <-]. cbn. split; [reflexivity|split; [auto|discriminate]].
    - destruct (writes (role n) !! index e) as [w|]; [|intros [= <- <-]; cbn; split; [reflexivity|split; [auto|discriminate]]].
      cbn. unfold send_via, with_tx. destruct (channel_send _ _) as [r2 t2]. intros [= <- <-]. cbn. split; [reflexivity|split; [auto|discriminate]].
    - intros [= <- <-]. cbn. split; [reflexivity|]. split; [discriminate|]. now intros p' [= ->]. }
  destruct (apply_and_respond t e n) as [r1 n1]. destruct (Ha r1 n1 eq_refl) as (Hl & Hs & Hp).
  destruct r1 as [u|er|p]; [|intros [= <- <-]; split; [exact Hl|discriminate]..].
  intros Hrest. destruct (IH n1 Hrest) as [Hl' Hr']. split; [congruence|]. intros ->. specialize (Hr' eq_refl).
  destruct u. specialize (Hs eq_refl). destruct (state_apply e (state n)) as [[v|er|p] s1]; cbn in *.
  - destruct Hs as [[p F]|F]; [discriminate|]. now rewrite <- F.
  - destruct Hs as [[p F]|F]; [discriminate|]. now rewrite <- F.
  - specialize (Hp p eq_refl). discriminate.
Qed.

(** Reads touch neither the log nor the state machine. *)
Definition read_only_on (n n' : RawNode Leader) : Prop := log n' = log n /\ state n' = state n.
#[local] Instance read_only_preorder : PreOrder read_only_on.
Proof. split; [now intros n|]. intros n1 n2 n3 [A1 A2] [B1 B2]. split; congruence. Qed.

Lemma read_only_send to m : respects read_only_on (send to m).
Proof. intros n. unfold send, send_via, with_tx. now destruct (channel_send _ (tx n)). Qed.

Lemma read_only_loop s q : respects read_only_on (read_loop s q).
Proof.
  induction q as [|x q IH]; cbn [read_loop]; [now apply respects_same; [typeclasses eauto|]|].
  destruct (_ <? _); [now apply respects_same; [typeclasses eauto|]|].
  apply respects_bind; [typeclasses eauto|now intros n|]. intros _. respects_at n.
  apply respects_bind; [typeclasses eauto| |auto]. unfold to_response.
  destruct (state_read _ _); [apply read_only_send..|]. apply respects_panic. typeclasses eauto.
Qed.

Lemma maybe_read_only : respects read_only_on maybe_read.
Proof.
  unfold maybe_read. intros n. destruct (reads (role n)) as [|x q]; [reflexivity|].
  destruct (get_commit_index (log n)) as [ci ct]. destruct (_ || _)%bool; [reflexivity|].
  by_respects. apply respects_bind; [typeclasses eauto|apply respects_read; typeclasses eauto|]. intros v. apply read_only_loop.
Qed.

Lemma match_indexes_length n R : leads n R -> length (match_indexes n) = cluster_size n.
Proof.
  intros Hl. unfold match_indexes, cluster_size. rewrite length_app, !length_fmap, length_map_to_list.
  rewrite <- (ld_peers n R Hl), size_dom. reflexivity.
Qed.

(** The part of [maybe_commit_and_apply] after the decision to commit. *)
Lemma commit_and_apply_spec (n : RawNode Leader) R q ot r n' :
  log_rep (log n) R -> al_wf R -> is_u64 (get_applied_index (state n)) -> al_commit R < q <= al_last R ->
  (with_log (commit q) ;;;
   let! items := st_read (fun n => scan_apply (get_applied_index (state n)) (log n)) in
   st_iter (fun item => let! entry := st_lift item in apply_and_respond (node_term n) entry) items ;;;
   (fun n => if negb (ot =? node_term n) then maybe_read n else (Ok tt, n)) ;;;
   st_ret q) n = (r, n') ->
  let R1 := mkAlog (al_entries R) (al_term R) (al_vote R) q in
  log_rep (log n') R1 /\
  (forall i, r = Ok i -> i = q /\ replay (al_scan_apply (get_applied_index (state n)) R1) (state n) = (Ok tt, state n')).
Proof.
  intros Hr Hw Hi Hq Er R1. pose proof (wf_commit R Hw). pose proof (wf_length R Hw).
  destruct (log_commit_spec (log n) R q Hr Hw ltac:(unfold is_u64; lia)) as (l1 & Ec & Hr1 & _).
  assert (al_commit_to q R = (Ok q, R1)) as Ea.
  { unfold al_commit_to. destruct (entry_at (al_entries R) q) as [e|] eqn:Ee; [|apply entry_at_None in Ee; unfold al_last in *; lia].
    destruct (Z.ltb_spec q (al_commit R)); [lia|reflexivity]. }
  rewrite Ea in Ec, Hr1. cbn [fst snd] in *.
  destruct (al_commit_to_ok q R _ _ Hw Ea) as [Hw1 _].
  unfold st_bind at 1, with_log in Er. rewrite Ec in Er. set (n1 := mkNode _ _ l1 _ _ _ _ _) in Er.
  unfold st_bind at 1, st_read in Er. change (log n1) with l1 in Er. change (state n1) with (state n) in Er.
  rewrite (scan_apply_spec l1 R1 _ Hr1 Hw1 Hi) in Er.
  unfold st_bind at 1 in Er. destruct (st_iter _ (map Ok _) n1) as [r2 n2] eqn:E2.
  destruct (apply_loop_state _ _ _ _ _ E2) as [Hl2 Hs2]. change (log n1) with l1 in Hl2. change (state n1) with (state n) in Hs2.
  destruct r2 as [u|e|p]; [|injection Er as <- <-; rewrite Hl2; split; [exact Hr1|discriminate]..]. destruct u. specialize (Hs2 eq_refl).
  assert (read_only_on n2 n') as [Hl3 Hs3].
  { match type of Er with ?f n2 = _ => assert (respects read_only_on f) as Hf; [|specialize (Hf n2); now rewrite Er in Hf] end.
    apply respects_bind; [typeclasses eauto| |intros _; apply respects_ret; typeclasses eauto].
    intros n3. destruct (negb _); [apply maybe_read_only|reflexivity]. }
  rewrite Hl3, Hl2. split; [exact Hr1|]. intros i ->. rewrite Hs3. split; [|exact Hs2].
  apply st_bind_ok in Er as (a & s1 & _ & Er). now inv Er.
Qed.

(** C7: the commit rule.  When a leader re-evaluates its commit index it takes
    the greatest index that a quorum of the cluster (itself included) is known
    to match.  It commits that index only if it is beyond the commit index and
    its entry is of the leader's own term; then it applies exactly the entries
    above the applied index, in order and once each, to the state machine.
    Otherwise nothing changes. *)
Theorem raft_commit_rule (n : RawNode Leader) (R : alog) r n' :
  leads n R -> is_u64 (get_applied_index (state n)) -> maybe_commit_and_apply n = (r, n') ->
  exists q, (quorum_size n <= count_ge q (match_indexes n))%nat /\
    (forall u, (quorum_size n <= count_ge u (match_indexes n))%nat -> u <= q) /\
    ((q <= al_commit R \/ term_at (al_entries R) q <> al_term R) /\ r = Ok (al_commit R) /\ n' = n \/
     (al_commit R < q /\ term_at (al_entries R) q = al_term R /\
      let R' := mkAlog (al_entries R) (al_term R) (al_vote R) q in
      log_rep (log n') R' /\
      forall i, r = Ok i ->
        i = q /\ replay (al_scan_apply (get_applied_index (state n)) R') (state n) = (Ok tt, state n'))).
Proof.
  intros Hl Hi Er. destruct (ld_log n R Hl, ld_wf n R Hl) as [Hr Hw].
  destruct (quorum_value_correct n (match_indexes n) (match_indexes_length n R Hl)) as (q & Eq & Hin & Hq1 & Hq2).
  exists q. split; [exact Hq1|]. split; [exact Hq2|].
  pose proof (match_indexes_range n R q Hl Hin) as Hrange. pose proof (wf_length R Hw) as Hlen.
  unfold maybe_commit_and_apply in Er. change ((get_last_index (log n)).1) with (last_index (log n)) in Er.
  fold (match_indexes n) in Er. unfold st_bind at 1, st_read at 1 in Er. rewrite Eq in Er.
  unfold get_commit_index in Er. rewrite (lr_commit _ _ Hr) in Er. cbn [fst snd] in Er.
  destruct (Z.leb_spec q (al_commit R)) as [Hle|Hgt]; [inv Er; auto|].
  unfold st_bind at 1, st_read at 1 in Er. rewrite (log_get_spec _ R) in Er by (auto; unfold is_u64; lia).
  pose proof (wf_commit R Hw) as Hc. unfold term_at.
  destruct (entry_at (al_entries R) q) as [e|] eqn:Ee; [|apply entry_at_None in Ee; unfold al_last in *; lia].
  change (node_term n) with (log_term (log n)) in Er at 1. rewrite (lr_term _ _ Hr) in Er.
  destruct (Z.eqb_spec (term e) (al_term R)) as [Ht|Ht]; cbn [negb] in Er; [|inv Er; auto].
  right. split; [exact Hgt|]. split; [exact Ht|].
  apply (commit_and_apply_spec n R q (commit_term (log n)) r n' Hr Hw Hi); [lia|exact Er].
Qed.

(** The documented duty of a state machine: it tracks the index of the last
    entry it has applied, errors included. *)
Class StateLaws : Prop :=
  apply_tracks_index e (s : S) :
    (exists p, (state_apply e s).1 = Panic p) \/ get_applied_index (state_apply e s).2 = index e.

Lemma replay_applied `{!StateLaws} es s s' :
  replay es s = (Ok tt, s') ->
  get_applied_index s' = match last es with Some e => index e | None => get_applied_index s end.
Proof.
  revert s; induction es as [|e es IH]; intros s; cbn [replay]; [now intros [= <-]|].
  pose proof (apply_tracks_index e s) as Ha. destruct (state_apply e s) as [[v|er|p] s1]; cbn in Ha; [..|discriminate];
    (destruct Ha as [[p F]|Ha]; [discriminate|]); intros Hr; rewrite (IH s1 Hr), Ha;
    destruct es as [|e' es]; try reflexivity; rewrite last_cons_cons; destruct (last (e' :: es)) eqn:El; try reflexivity;
    now apply last_None in El.
Qed.

Lemma scan_apply_take R a :
  al_wf R -> 0 <= a <= al_commit R ->
  al_scan_apply a R = take (Z.to_nat (al_commit R - a)) (drop (Z.to_nat a) (al_entries R)).
Proof.
  intros Hw Ha. pose proof (segment_take R (a + 1) (Z.to_nat (al_commit R - a)) Hw ltac:(lia)) as Hs.
  replace (Z.to_nat (a + 1 - 1)) with (Z.to_nat a) in Hs by lia. rewrite <- Hs. unfold al_scan_apply, segment.
  apply filter_ext. intros e. unfold in_index_range. cbn [fst snd].
  rewrite Z2Nat.id by lia. replace (a + 1 + (al_commit R - a) - 1) with (al_commit R) by lia. f_equal.
  destruct (Z.ltb_spec a (index e)), (Z.leb_spec (a + 1) (index e)); try reflexivity; lia.
Qed.

Lemma scan_apply_last R a :
  al_wf R -> 0 <= a <= al_commit R ->
  match last (al_scan_apply a R) with Some e => index e | None => a end = al_commit R.
Proof.
  intros Hw Ha. pose proof (wf_commit R Hw) as Hc. rewrite scan_apply_take by assumption.
  rewrite last_lookup. rewrite length_take, length_drop. unfold al_last in Hc.
  destruct (decide (a = al_commit R)) as [->|Hne].
  - rewrite Z.sub_diag. cbn [Z.to_nat take]. reflexivity.
  - rewrite lookup_take_lt by lia. rewrite lookup_drop.
    destruct (al_entries R !! (Z.to_nat a + Nat.pred (Z.to_nat (al_commit R - a) `min` (length (al_entries R) - Z.to_nat a)))%nat)
      as [e|] eqn:Ee; [|apply lookup_ge_None in Ee; lia].
    destruct (wf_entry R Hw _ _ Ee) as [-> _]. lia.
Qed.

(** Application.  A follower applies exactly the committed entries above
    the applied index of its state machine, in log order and once each: the
    new state is the replay of those entries on the old one; log and role stay,
    and (when the machine tracks its applied index and does not panic) the
    applied index becomes the commit index. *)
Theorem raft_follower_apply `{!StateLaws} (n : RawNode Follower) (R : alog) r n' :
  log_rep (log n) R -> al_wf R -> 0 <= get_applied_index (state n) <= al_commit R -> maybe_apply n = (r, n') ->
  let a := get_applied_index (state n) in
  (r, state n') = replay (take (Z.to_nat (al_commit R - a)) (drop (Z.to_nat a) (al_entries R))) (state n) /\
  log n' = log n /\ role n' = role n /\ tx n' = tx n /\
  (r = Ok tt -> get_applied_index (state n') = al_commit R).
Proof.
  intros Hr Hw Ha Em a. pose proof (wf_commit R Hw). pose proof (wf_length R Hw).
  rewrite (maybe_apply_eq n R Hr Hw) in Em by (unfold is_u64; lia). fold a in Em, Ha.
  rewrite <- scan_apply_take by assumption.
  destruct (replay (al_scan_apply a R) (state n)) as [r1 s1] eqn:Er. injection Em as <- <-. cbn [with_applied state log role tx].
  do 4 (split; [reflexivity|]). intros ->. rewrite (replay_applied _ _ _ Er). now apply scan_apply_last.
Qed.

(** ** Linearizable reads *)
Definition read_seqs (n : RawNode Leader) : list ReadSequence :=
  (p_read_seq <$> (map_to_list (progress (role n))).*2) ++ [l_read_seq (role n)].

(** The reads at the front of the queue up to a sequence number. *)
Fixpoint ready_reads (q : ReadSequence) (queue : list Read) : list Read :=
  match queue with
  | [] => []
  | x :: queue' => if q <? r_seq x then [] else x :: ready_reads q queue'
  end.

Definition read_answer (n : RawNode Leader) (x : Read) : Envelope :=
  mkEnvelope (node_id n) (node_term n) (r_from x)
    (ClientResponse (r_id x)
       (match state_read (r_command x) (state n) with
        | Ok v => inl (RespRead v)
        | Err e => inr e
        | Panic _ => inr Abort
        end)).

Lemma read_loop_spec q queue (n n' : RawNode Leader) :
  reads (role n) = queue -> read_loop q queue n = (Ok tt, n') ->
  reads (role n') = drop (length (ready_reads q queue)) queue /\
  channel_sent (tx n') = channel_sent (tx n) ++ map (read_answer n) (ready_reads q queue).
Proof.
  revert n; induction queue as [|x queue IH]; intros n Hq; cbn [read_loop ready_reads].
  { intros [= <-]. rewrite Hq, app_nil_r. auto. }
  destruct (q <? r_seq x). { intros [= <-]. rewrite Hq, app_nil_r. auto. }
  unfold st_bind at 1, update_role, st_modify. set (n1 := into_role _ n). unfold st_bind at 1.
  change (state n1) with (state n).
  assert (forall resp n2, send (r_from x) (ClientResponse (r_id x) resp) n1 = (Ok tt, n2) ->
    role n2 = role n1 /\ channel_sent (tx n2) = channel_sent (tx n) ++
      [mkEnvelope (node_id n) (node_term n) (r_from x) (ClientResponse (r_id x) resp)] /\
    (forall y, read_answer n2 y = read_answer n y)) as Hsend.
  { intros resp n2. unfold send, send_via, with_tx. change (tx n1) with (tx n).
    change (node_id n1) with (node_id n). change (node_term n1) with (node_term n).
    destruct (channel_send_spec (mkEnvelope (node_id n) (node_term n) (r_from x) (ClientResponse (r_id x) resp)) (tx n))
      as [(t & -> & Ht)|(e & ->)]; [|discriminate]. intros [= <-]. cbn. auto. }
  assert (forall resp, (match send (r_from x) (ClientResponse (r_id x) resp) n1 with
      | (Ok _, n2) => read_loop q queue n2
      | (Err e, n2) => (Err e, n2)
      | (Panic p, n2) => (Panic p, n2) end) = (Ok tt, n') ->
    reads (role n') = drop (length (ready_reads q queue)) queue /\
    channel_sent (tx n') = channel_sent (tx n) ++
      mkEnvelope (node_id n) (node_term n) (r_from x) (ClientResponse (r_id x) resp) :: map (read_answer n) (ready_reads q queue)) as Hgo.
  { intros resp. destruct (send _ _ n1) as [[[]|e|p] n2] eqn:Es; [|discriminate..]. intros Hrest.
    destruct (Hsend resp n2 Es) as (Hr2 & Hs2 & Ha2).
    destruct (IH n2) as [I1 I2]; [rewrite Hr2; reflexivity|exact Hrest|]. split; [exact I1|].
    rewrite I2, Hs2, <- app_assoc. cbn. do 2 f_equal. apply map_ext. exact Ha2. }
  unfold to_response, read_answer at 1. cbn [length drop map].
  destruct (state_read (r_command x) (state n)) as [v|e|p] eqn:Ev; [apply Hgo..|discriminate].
Qed.

(** C38: linearizable reads.  Reads are served only when the leader has
    committed an entry of its own term and its state machine has applied all
    committed entries, and only those whose sequence number a quorum of the
    cluster has confirmed; they are answered in order from the state machine,
    which they do not change, and all others stay queued. *)
Theorem raft_read_rule (n : RawNode Leader) (R : alog) n' :
  leads n R -> maybe_read n = (Ok tt, n') ->
  exists q, (quorum_size n <= count_ge q (read_seqs n))%nat /\
    (forall u, (quorum_size n <= count_ge u (read_seqs n))%nat -> u <= q) /\
    let ready := (al_term R <=? term_at (al_entries R) (al_commit R)) &&
                 (al_commit R <=? get_applied_index (state n)) in
    let served := if ready then ready_reads q (reads (role n)) else [] in
    reads (role n') = drop (length served) (reads (role n)) /\
    channel_sent (tx n') = channel_sent (tx n) ++ map (read_answer n) served /\
    log n' = log n /\ state n' = state n.
Proof.
  intros Hl Em. destruct (ld_log n R Hl, ld_wf n R Hl) as [Hr Hw].
  assert (length (read_seqs n) = cluster_size n) as Hlen.
  { rewrite <- (match_indexes_length n R Hl). unfold read_seqs, match_indexes. now rewrite !length_app, !length_fmap. }
  destruct (quorum_value_correct n (read_seqs n) Hlen) as (q & Eq & _ & Hq1 & Hq2).
  exists q. split; [exact Hq1|]. split; [exact Hq2|]. cbv zeta.
  pose proof (maybe_read_only n) as Hro. rewrite Em in Hro. destruct Hro as [Hlog Hst]. cbn in Hlog, Hst.
  unfold maybe_read in Em. destruct (reads (role n)) as [|x queue] eqn:Eq'.
  { injection Em as <-. rewrite Eq'. cbn [ready_reads].
    match goal with |- context [if ?b then [] else []] => destruct b end; cbn; rewrite app_nil_r; auto. }
  unfold get_commit_index in Em. change (node_term n) with (log_term (log n)) in Em.
  rewrite (lr_commit _ _ Hr), (lr_commit_term _ _ Hr), (lr_term _ _ Hr) in Em.
  set (ready := (_ && _)%bool).
  assert ((term_at (al_entries R) (al_commit R) <? al_term R) || (get_applied_index (state n) <? al_commit R) = negb ready)%bool as Erdy.
  { unfold ready. rewrite negb_andb, <- !Z.ltb_antisym. reflexivity. }
  rewrite Erdy in Em. destruct ready; cbn [negb] in Em.
  2: { injection Em as <-. rewrite Eq'. cbn. rewrite app_nil_r. auto. }
  fold (read_seqs n) in Em. unfold st_bind, st_read in Em. rewrite Eq in Em.
  destruct (read_loop_spec q (x :: queue) n n' Eq' Em) as [H1' H2']. auto.
Qed.

End Replication.

(** ** Witnesses

    Node 1 leads term 1 in a cluster of three with two entries; node 2 has
    both, node 3 is being probed. *)
Module ReplicationSample.

Import Sample LogSample ClusterSample.

#[export] Instance noop_laws : StateLaws (S := Z).
Proof. intros e s. right. reflexivity. Qed.

Definition ops : list log_op := [OpTermVote 1 (Some 1); OpAppend None; OpAppend (Some [x07])].
Definition entries2 : list Entry := [mkEntry 1 1 None; mkEntry 2 1 (Some [x07])].

Definition session_log (ops : list log_op) : Log Memory :=
  match log_session memory_new ops with Ok (_, l) => l | _ => mkLog memory_new 0 None 0 0 0 0 true end.

Lemma ops_valid : Forall log_op_valid ops.
Proof.
  unfold ops. repeat (apply Forall_cons_2; [first [exact I|unfold log_op_valid, term_vote_valid, is_u64, u64_max, u8_max; cbn; lia]|]).
  constructor.
Qed.

Lemma session_log_rep c R :
  log_session memory_new (ops ++ c) = Ok ((run_all al_op (ops ++ c) alog_empty).1, session_log (ops ++ c)) ->
  Forall log_op_valid c -> log_ops_size (ops ++ c) < u64_max -> (run_all al_op (ops ++ c) alog_empty).2 = R ->
  log_rep (session_log (ops ++ c)) R /\ al_wf R.
Proof.
  intros Es Hv Hsize <-. eapply log_session_inv; [|exact Es].
  split; [apply memory_new_inv|reflexivity| |exact Hsize].
  apply Forall_app. split; [exact ops_valid|exact Hv].
Qed.

Definition alog0 : alog := mkAlog entries2 1 (Some 1) 0.
Definition alog2 : alog := mkAlog entries2 1 (Some 1) 2.

Lemma log0_rep : log_rep (session_log (ops ++ [])) alog0 /\ al_wf alog0.
Proof. apply session_log_rep; [vm_compute; reflexivity|constructor|reflexivity|vm_compute; reflexivity]. Qed.
Lemma log2_rep : log_rep (session_log (ops ++ [OpCommit 2])) alog2 /\ al_wf alog2.
Proof.
  apply session_log_rep; [vm_compute; reflexivity| |reflexivity|vm_compute; reflexivity].
  apply Forall_cons_2; [unfold log_op_valid, is_u64, u64_max; lia|constructor].
Qed.

Definition sample_leader (l : Log Memory) (applied : Z) : RawNode Memory Z (list Envelope) unit Leader :=
  mkNode 1 {[2; 3]} l applied [] default_options tt
    (mkLeader {[2 := mkProgress 2 3 1; 3 := mkProgress 0 3 0]} {[2 := mkWrite 1 42]}
       [mkRead 1 1 77 []; mkRead 2 1 78 []] 2 0).

Lemma sample_leads l applied R :
  log_rep l R /\ al_wf R -> al_last R = 2 -> leads (sample_leader l applied) R.
Proof.
  intros [Hr Hw] Hl. split; [exact Hr|exact Hw|reflexivity|]. intros id p Hp. cbn in Hp. rewrite Hl.
  apply lookup_insert_Some in Hp as [[_ <-]|[_ Hp]]; [unfold progress_ok; cbn; lia|].
  apply lookup_singleton_Some in Hp as [_ <-]. unfold progress_ok. cbn. lia.
Qed.

Definition leader0 := sample_leader (session_log (ops ++ [])) 0.
Definition leader2 := sample_leader (session_log (ops ++ [OpCommit 2])) 2.
Definition follower2 : RawNode Memory Z (list Envelope) unit Follower :=
  mkNode 1 {[2; 3]} (session_log (ops ++ [OpCommit 2])) 0 [] default_options tt (follower_role (Some 2) 10).

End ReplicationSample.
Import Sample LogSample ClusterSample ReplicationSample.

Lemma raft_append_batch_witness :
  maybe_send_append 3 true leader0 =
  send 3 (Append 2 1 []) (bump_next 3 (mkProgress 0 3 0) [] leader0).
Proof.
  exact (raft_append_batch leader0 alog0 3 (mkProgress 0 3 0) true (sample_leads _ _ _ log0_rep eq_refl) eq_refl).
Defined.

(** Two of three nodes have entry 2: it is committed and applied. *)
Lemma raft_commit_rule_witness :
  exists r n', maybe_commit_and_apply leader0 = (r, n') /\ r = Ok 2 /\ state n' = 2 /\
  exists q, (quorum_size leader0 <= count_ge q (match_indexes leader0))%nat /\ 0 < q.
Proof.
  eexists _, _. split; [vm_compute; reflexivity|]. split; [reflexivity|]. split; [reflexivity|].
  destruct (raft_commit_rule leader0 alog0 (maybe_commit_and_apply leader0).1 (maybe_commit_and_apply leader0).2
              (sample_leads _ _ _ log0_rep eq_refl)) as (q & H1 & H2 & H3).
  - vm_compute. easy.
  - vm_compute. reflexivity.
  - exists q. split; [exact H1|]. destruct H3 as [(_ & F & _)|(F & _)]; [vm_compute in F; discriminate|exact F].
Defined.

(** The first read is confirmed by a quorum, the second is not. *)
Lemma raft_read_rule_witness :
  exists n', maybe_read leader2 = (Ok tt, n') /\ reads (role n') = [mkRead 2 1 78 []] /\
  exists q, (quorum_size leader2 <= count_ge q (read_seqs leader2))%nat /\
    (forall u, (quorum_size leader2 <= count_ge u (read_seqs leader2))%nat -> u <= q).
Proof.
  eexists. split; [vm_compute; reflexivity|]. split; [reflexivity|].
  destruct (raft_read_rule leader2 alog2 (maybe_read leader2).2 (sample_leads _ _ _ log2_rep eq_refl)) as (q & H1 & H2 & _).
  - vm_compute. reflexivity.
  - exists q. auto.
Defined.

Lemma raft_follower_apply_witness :
  exists n', maybe_apply follower2 = (Ok tt, n') /\ get_applied_index (state n') = 2.
Proof.
  eexists. split; [vm_compute; reflexivity|].
  eapply (raft_follower_apply follower2 alog2 (Ok tt));
    [apply log2_rep|apply log2_rep|vm_compute; easy|vm_compute; reflexivity|reflexivity].
Defined.

(** Node 3 acknowledges both entries. *)
Lemma raft_node_invariants_witness :
  sat (fun N' => exists R', node_ok N' R' /\ al_evolves alog0 R') (evolved alog0)
    (step (mkEnvelope 3 1 1 (AppendResponse 2 0)) (NLeader leader0)) /\
  exists N', step (mkEnvelope 3 1 1 (AppendResponse 2 0)) (NLeader leader0) = Done N'.
Proof.
  split; [|eexists; vm_compute; reflexivity].
  assert (node_ok (NLeader leader0) alog0) as Hok
    by (split; [unfold u8_max; cbn; lia|exact (sample_leads _ _ _ log0_rep eq_refl)]).
  destruct (raft_node_invariants (NLeader leader0) alog0 Hok) as [Hstep _].
  apply Hstep; [unfold envelope_ok, is_u64, u64_max, u8_max; cbn; lia|exact I|reflexivity].
Defined.
