(* ===== verification/RaftProtocol.v ===== *)
(** * The Raft protocol, abstractly

    A node is an abstract log with a role; it moves by small local steps
    ([lstep]) that depend on the messages it has seen.  Whatever steps the nodes
    take, over a network that loses, duplicates and reorders messages: logs that
    agree on an entry agree on all before it, a leader has every entry that was
    committed in an earlier term, and committed prefixes agree.  [RaftSafety]
    shows that the code takes such steps. *)
From S2P Require Import Prelude Bytes Bincode RaftLog RaftLogTheory RaftNode RaftNodeTheory.

(** ** Logs up to an index *)
Definition upto (k : Index) (es : list Entry) : list Entry := take (Z.to_nat k) es.
Definition llen (es : list Entry) : Index := Z.of_nat (length es).

Lemma upto_length k es : 0 <= k <= llen es -> llen (upto k es) = k.
Proof. unfold llen, upto. rewrite length_take. lia. Qed.
Lemma upto_all k es : llen es <= k -> upto k es = es.
Proof. unfold llen, upto. intros Hk. apply take_ge. lia. Qed.
Lemma upto_upto j k es : j <= k -> upto j (upto k es) = upto j es.
Proof. intros Hj. unfold upto. rewrite take_take. f_equal. lia. Qed.
Lemma upto_le j k es es' : j <= k -> upto k es = upto k es' -> upto j es = upto j es'.
Proof. intros Hj Hk. rewrite <- (upto_upto j k es), <- (upto_upto j k es') by exact Hj. now rewrite Hk. Qed.
Lemma upto_prefix k es es' : es `prefix_of` es' -> k <= llen es -> upto k es' = upto k es.
Proof. intros [x ->] Hk. unfold upto, llen in *. apply take_app_le. lia. Qed.

Lemma entry_at_upto j k es : j <= k -> entry_at (upto k es) j = entry_at es j.
Proof. intros Hj. unfold entry_at, upto. destruct (Z.leb_spec 1 j); [|reflexivity]. apply lookup_take_lt. lia. Qed.
Lemma entry_at_eq j k es es' : j <= k -> upto k es = upto k es' -> entry_at es j = entry_at es' j.
Proof. intros Hj Hk. rewrite <- (entry_at_upto j k es), <- (entry_at_upto j k es') by exact Hj. now rewrite Hk. Qed.
Lemma term_at_eq j k es es' : j <= k -> upto k es = upto k es' -> term_at es j = term_at es' j.
Proof. intros Hj Hk. unfold term_at. now rewrite (entry_at_eq j k es es' Hj Hk). Qed.
Lemma term_at_prefix j es es' : es `prefix_of` es' -> j <= llen es -> term_at es' j = term_at es j.
Proof. intros Hp Hj. apply (term_at_eq j j); [lia|]. now apply upto_prefix. Qed.
Lemma term_at_in es k : term_at es k <> 0 -> 1 <= k <= llen es.
Proof.
  unfold term_at. destruct (entry_at es k) as [e|] eqn:E; [|congruence]. intros _. apply entry_at_range. eauto.
Qed.
Lemma term_at_out es k : ~ (1 <= k <= llen es) -> term_at es k = 0.
Proof. intros Hk. unfold term_at. now rewrite (proj2 (entry_at_None es k) Hk). Qed.
Lemma term_at_app es e k : term_at (es ++ [e]) k = if k =? llen es + 1 then term e else term_at es k.
Proof. unfold term_at. rewrite entry_at_app. unfold llen. now destruct (k =? _). Qed.
Lemma upto_len_eq k es es' : 0 <= k <= llen es -> upto k es = upto k es' -> k <= llen es'.
Proof. intros Hk He. apply (f_equal llen) in He. rewrite upto_length in He by exact Hk. unfold llen, upto in *. rewrite length_take in He. lia. Qed.
Lemma upto_app k es es' : 0 <= k <= llen es -> upto (k + llen es') (upto k es ++ es') = upto k es ++ es'.
Proof. intros Hk. apply upto_all. unfold llen in *. rewrite length_app. unfold upto. rewrite length_take. lia. Qed.

(** ** Nodes *)
Inductive arole : Type :=
  | AFollower
  | ACandidate (votes : gset NodeID)
  | ALeader (matched : gmap NodeID Index).
Record anode : Type := mkAnode {
  an : alog;
  an_role : arole;
}.
Definition a_log (a : anode) : list Entry := al_entries (an a).
Definition a_term (a : anode) : Term := al_term (an a).
Definition a_vote (a : anode) : option NodeID := al_vote (an a).
Definition a_commit (a : anode) : Index := al_commit (an a).

Definition is_leader (a : anode) : Prop := exists mt, an_role a = ALeader mt.

(** The match index of a follower's response. *)
Definition resp_match (m : Message) : option Index :=
  match m with
  | HeartbeatResponse v _ | AppendResponse v _ => Some v
  | _ => None
  end.

(** A log that has the base of an Append message. *)
Definition base_ok (es : list Entry) (b : Index) (bt : Term) : Prop :=
  b = 0 \/ 1 <= b <= llen es /\ term_at es b = bt.
(** The entries of [es] after [b] start with [new]. *)
Definition slice (es : list Entry) (b : Index) (new : list Entry) : Prop :=
  0 <= b /\ take (length new) (drop (Z.to_nat b) es) = new.

(** A log whose last entry is at least as recent. *)
Definition up_to_date (li : Index) (lt : Term) (es : list Entry) : Prop :=
  term_at es (llen es) < lt \/ lt = term_at es (llen es) /\ llen es <= li.

(** ** Local steps of node [i], given the messages of the network *)
Section Local.
Context (members : gset NodeID) (i : NodeID) (net : list Envelope).

Definition quorum (Q : gset NodeID) : Prop := Q ⊆ members /\ (size members / 2 + 1 <= size Q)%nat.

(** The messages a node may send, in its name and term. *)
Definition sendable (a : anode) (to : NodeID) (m : Message) : Prop :=
  match m with
  | Campaign li lt => (exists vs, an_role a = ACandidate vs) /\ li = llen (a_log a) /\ lt = term_at (a_log a) li
  | CampaignResponse vote => vote = true -> a_vote a = Some to
  | Heartbeat li ci _ => is_leader a /\ li = llen (a_log a) /\ term_at (a_log a) li = a_term a /\ ci = a_commit a
  | Append b bt es => is_leader a /\ 0 <= b <= llen (a_log a) /\ bt = term_at (a_log a) b /\ slice (a_log a) b es
  | HeartbeatResponse v _ => v = 0 \/ exists m ci rs, m ∈ net /\ env_term m = a_term a /\
      env_message m = Heartbeat v ci rs /\ term_at (a_log a) v = a_term a
  | AppendResponse v _ => v = 0 \/ exists m b bt es, m ∈ net /\ env_term m = a_term a /\
      env_message m = Append b bt es /\ v = b + llen es /\ base_ok (a_log a) b bt /\ slice (a_log a) b es
  | _ => True
  end.

Inductive lstep : anode -> anode -> list Envelope -> Prop :=
  | l_term a t : a_term a < t -> lstep a (mkAnode (mkAlog (a_log a) t None (a_commit a)) AFollower) []
  | l_vote a c m li lt :
      an_role a = AFollower -> a_vote a = None -> m ∈ net -> env_from m = c -> env_term m = a_term a ->
      env_message m = Campaign li lt -> up_to_date li lt (a_log a) ->
      lstep a (mkAnode (mkAlog (a_log a) (a_term a) (Some c) (a_commit a)) AFollower) []
  | l_campaign a t :
      a_term a < t -> lstep a (mkAnode (mkAlog (a_log a) t (Some i) (a_commit a)) (ACandidate {[i]})) []
  | l_send a to m : sendable a to m -> lstep a a [mkEnvelope i (a_term a) to m]
  | l_append a c :
      is_leader a ->
      lstep a (mkAnode (mkAlog (a_log a ++ [mkEntry (llen (a_log a) + 1) (a_term a) c]) (a_term a) (a_vote a) (a_commit a)) (an_role a)) []
  | l_splice a m b bt es p :
      an_role a = AFollower -> m ∈ net -> env_term m = a_term a -> env_message m = Append b bt es -> base_ok (a_log a) b bt ->
      let new := upto b (a_log a) ++ es in
      b < p <= b + llen es -> a_commit a < p -> llen (a_log a) < p \/ term_at (a_log a) p <> term_at new p ->
      (forall q, q < p -> entry_at (a_log a) q = entry_at new q) ->
      lstep a (mkAnode (mkAlog new (a_term a) (a_vote a) (a_commit a)) AFollower) []
  | l_commit a mt k Q :
      an_role a = ALeader mt -> term_at (a_log a) k = a_term a -> 1 <= k -> quorum Q ->
      (forall j, j ∈ Q -> j = i \/ exists v, mt !! j = Some v /\ k <= v) ->
      lstep a (mkAnode (mkAlog (a_log a) (a_term a) (a_vote a) k) (an_role a)) []
  | l_follow a m li ci rs :
      m ∈ net -> env_term m = a_term a -> env_message m = Heartbeat li ci rs -> term_at (a_log a) li = a_term a ->
      lstep a (mkAnode (mkAlog (a_log a) (a_term a) (a_vote a) ci) (an_role a)) []
  | l_tally a vs m :
      an_role a = ACandidate vs -> m ∈ net -> env_to m = i -> env_term m = a_term a -> env_message m = CampaignResponse true ->
      lstep a (mkAnode (an a) (ACandidate ({[env_from m]} ∪ vs))) []
  | l_elect a vs mt :
      an_role a = ACandidate vs -> (size members / 2 + 1 <= size vs)%nat -> (forall j v, mt !! j = Some v -> v = 0) ->
      lstep a (mkAnode (an a) (ALeader mt)) []
  | l_match a mt m v :
      an_role a = ALeader mt -> m ∈ net -> env_term m = a_term a -> resp_match (env_message m) = Some v ->
      lstep a (mkAnode (an a) (ALeader (<[env_from m := v]> mt))) []
  | l_drop a : lstep a (mkAnode (an a) AFollower) []
  | l_crash a c : c <= a_commit a -> lstep a (mkAnode (mkAlog (a_log a) (a_term a) (a_vote a) c) AFollower) [].

(** Several steps, with the messages sent. *)
Inductive lsteps : anode -> anode -> list Envelope -> Prop :=
  | ls_refl a : lsteps a a []
  | ls_step a a1 a2 ms1 ms2 : lstep a a1 ms1 -> lsteps a1 a2 ms2 -> lsteps a a2 (ms1 ++ ms2).

Lemma ls_one a a' ms : lstep a a' ms -> lsteps a a' ms.
Proof. intros Hs. rewrite <- (app_nil_r ms). econstructor; [exact Hs | constructor]. Qed.
Lemma ls_trans a a1 a2 ms1 ms2 : lsteps a a1 ms1 -> lsteps a1 a2 ms2 -> lsteps a a2 (ms1 ++ ms2).
Proof. induction 1 as [a|a a1' a2' m1 m2 Hs _ IH]; intros H2; [exact H2|]. rewrite <- app_assoc. econstructor; eauto. Qed.
End Local.

Lemma sendable_mono net net' a to m : (forall x, x ∈ net -> x ∈ net') -> sendable net a to m -> sendable net' a to m.
Proof.
  intros Hn. destruct m; cbn; auto.
  - intros [?|(x & ci & rs & Hx & Hr)]; [now left|right]. exists x, ci, rs. auto.
  - intros [?|(x & b & bt & es & Hx & Hr)]; [now left|right]. exists x, b, bt, es. auto.
Qed.
Lemma lstep_mono members i net net' a a' ms :
  (forall x, x ∈ net -> x ∈ net') -> lstep members i net a a' ms -> lstep members i net' a a' ms.
Proof.
  intros Hn Hs. destruct Hs; [eapply l_term|eapply l_vote|eapply l_campaign|eapply l_send|eapply l_append|eapply l_splice|
    eapply l_commit|eapply l_follow|eapply l_tally|eapply l_elect|eapply l_match|eapply l_drop|eapply l_crash]; eauto using sendable_mono.
Qed.

(** ** The cluster, with its history

    [led] and [llog] record who led a term and the log of that leader, [clog]
    the log with which a node stood for a term, [cast] the votes. *)
Record proto : Type := mkProto {
  pn : NodeID -> anode;
  pnet : list Envelope;
  led : Term -> option NodeID;
  llog : Term -> list Entry;
  clog : NodeID -> Term -> list Entry;
  cast : NodeID -> Term -> option NodeID;
}.

Section Protocol.
Context (members : gset NodeID).
Implicit Types (w : proto) (T U V : Term) (k : Index).
#[local] Abbreviation quorum := (quorum members).

(** Every entry comes from the leader of its term, with all before it. *)
Definition matching w (es : list Entry) : Prop :=
  forall k, 1 <= k <= llen es -> is_Some (led w (term_at es k)) /\ upto k es = upto k (llog w (term_at es k)).
Record log_ok w (t : Term) (es : list Entry) : Prop := {
  ok_terms k : 1 <= k <= llen es -> 1 <= term_at es k <= t;
  ok_mono j k : 1 <= j <= k -> k <= llen es -> term_at es j <= term_at es k;
  ok_match : matching w es;
}.

(** Node [j] has acknowledged the entries of the leader of [T] up to [k]. *)
Definition ack_msg w (j : NodeID) T k : Prop :=
  exists m v, m ∈ pnet w /\ env_from m = j /\ env_term m = T /\ resp_match (env_message m) = Some v /\ k <= v.
Definition ack w (j : NodeID) T k : Prop := ack_msg w j T k \/ led w T = Some j /\ k <= llen (llog w T).
(** Entry [k] was created by the leader of [T]. *)
Definition real w T k : Prop := 1 <= k /\ 1 <= T /\ term_at (llog w T) k = T.
(** A leader between [T] and [U] does not have it. *)
Definition lost w T k U : Prop := exists V, T < V < U /\ is_Some (led w V) /\ term_at (llog w V) k <> T.
Definition held w (es : list Entry) T k U : Prop := term_at es k = T \/ lost w T k U.

(** A quorum has acknowledged entry [k] to the leader that created it. *)
Definition chosen w T k : Prop := real w T k /\ exists Q, quorum Q /\ forall j, j ∈ Q -> ack w j T k.
(** The first [c] entries are below one chosen in a term up to [t]. *)
Definition safe w (t : Term) (es : list Entry) (c : Index) : Prop :=
  c <= 0 \/ exists T k, T <= t /\ chosen w T k /\ c <= k /\ c <= llen es /\ upto c es = upto c (llog w T).

Definition msg_ok w (m : Envelope) : Prop :=
  let T := env_term m in
  match env_message m with
  | Campaign li lt => llen (clog w (env_from m) T) = li /\ term_at (clog w (env_from m) T) li = lt
  | CampaignResponse vote => vote = true -> cast w (env_from m) T = Some (env_to m)
  | Heartbeat li ci _ => is_Some (led w T) /\ term_at (llog w T) li = T /\ ci <= li /\ safe w T (llog w T) ci
  | Append b bt es => is_Some (led w T) /\ 0 <= b <= llen (llog w T) /\ bt = term_at (llog w T) b /\ slice (llog w T) b es
  | HeartbeatResponse v _ | AppendResponse v _ => v <= 0 \/ is_Some (led w T) /\ v <= llen (llog w T)
  | _ => True
  end.

Definition role_ok w (i : NodeID) (a : anode) : Prop :=
  match an_role a with
  | AFollower => True
  | ACandidate vs =>
      1 <= a_term a /\ clog w i (a_term a) = a_log a /\ led w (a_term a) <> Some i /\
      forall j, j ∈ vs -> j ∈ members /\ cast w j (a_term a) = Some i
  | ALeader mt =>
      led w (a_term a) = Some i /\ llog w (a_term a) = a_log a /\
      forall j v, mt !! j = Some v -> v <= 0 \/ ack_msg w j (a_term a) v
  end.

(** The winner of a term has what its voters had acknowledged before. *)
Definition won w T (c : NodeID) : Prop :=
  c ∈ members /\ T <= a_term (pn w c) /\ 1 <= T /\
  exists Q, quorum Q /\ forall j, j ∈ Q -> cast w j T = Some c /\
    forall T' k, T' < T -> ack w j T' k -> real w T' k -> held w (llog w T) T' k T.

Record inv w : Prop := {
  i_vote i : i ∈ members -> cast w i (a_term (pn w i)) = a_vote (pn w i);
  i_future i t : i ∈ members -> a_term (pn w i) < t -> cast w i t = None;
  i_cast j U c : j ∈ members -> cast w j U = Some c -> c ∈ members /\ U <= a_term (pn w c);
  i_node i : i ∈ members -> 0 <= a_term (pn w i) /\ log_ok w (a_term (pn w i)) (a_log (pn w i));
  i_llog T : log_ok w T (llog w T);
  i_clog c U : c ∈ members -> log_ok w (U - 1) (clog w c U);
  i_none T : led w T = None -> llog w T = [];
  i_led T c : led w T = Some c -> won w T c;
  i_role i : i ∈ members -> role_ok w i (pn w i);
  i_net m : m ∈ pnet w -> env_from m ∈ members /\ env_term m <= a_term (pn w (env_from m)) /\ msg_ok w m;
  i_ack j T k : j ∈ members -> ack w j T k -> real w T k -> held w (a_log (pn w j)) T k (a_term (pn w j) + 1);
  i_castlog j U c T k : j ∈ members -> led w U = None -> cast w j U = Some c -> T < U -> ack w j T k -> real w T k ->
    held w (clog w c U) T k U;
  i_commit i : i ∈ members -> a_commit (pn w i) <= llen (a_log (pn w i)) /\ safe w (a_term (pn w i)) (a_log (pn w i)) (a_commit (pn w i));
}.

(** ** Consequences *)
Lemma match_at w t es k : log_ok w t es -> 1 <= k <= llen es -> upto k es = upto k (llog w (term_at es k)).
Proof. intros Hok Hk. apply (ok_match w t es Hok k Hk). Qed.

(** Log matching: logs that agree on the term of an entry agree up to it. *)
Lemma log_matching w t t' es es' k :
  log_ok w t es -> log_ok w t' es' -> 1 <= k <= llen es -> term_at es k = term_at es' k -> upto k es = upto k es'.
Proof.
  intros Ho Ho' Hk He. rewrite (match_at w t es k Ho Hk).
  assert (1 <= k <= llen es') as Hk' by (apply term_at_in; rewrite <- He; pose proof (ok_terms w t es Ho k Hk); lia).
  now rewrite (match_at w t' es' k Ho' Hk'), He.
Qed.

(** Leader completeness: a later leader has every chosen entry. *)
Lemma leader_completeness w T k U :
  inv w -> chosen w T k -> is_Some (led w U) -> T <= U -> term_at (llog w U) k = T /\ upto k (llog w U) = upto k (llog w T).
Proof.
  intros Hi ((Hk & HT & Hr) & Q & [HQs HQ] & Hack) Hu Htu.
  assert (1 <= k <= llen (llog w T)) as Hkl by (apply term_at_in; lia).
  enough (term_at (llog w U) k = T) as Ht.
  { split; [exact Ht|]. symmetry. apply (log_matching w T U); [apply (i_llog w Hi).. | exact Hkl | congruence]. }
  revert U Hu Htu. apply (well_founded_induction_type (Z.lt_wf T) (fun U => is_Some (led w U) -> T <= U -> term_at (llog w U) k = T)).
  intros U IH [c Hu] Htu. destruct (decide (T = U)) as [->|Hne]; [exact Hr|].
  destruct (i_led w Hi U c Hu) as (_ & _ & _ & Q' & [HQs' HQ'] & Hv).
  destruct (quorum_intersect members Q Q' HQs HQs' HQ HQ') as (j & Hj & Hj').
  destruct (proj2 (Hv j Hj') T k ltac:(lia) (Hack j Hj) (conj Hk (conj HT Hr))) as [Ht|(V & HV & Hled & Hno)]; [exact Ht|].
  exfalso. apply Hno. apply IH; [lia | exact Hled | lia].
Qed.

(** State machine safety: what two nodes take for committed agrees. *)
Lemma safe_agree w t t' es es' c c' :
  inv w -> safe w t es c -> safe w t' es' c' -> upto (Z.min c c') es = upto (Z.min c c') es'.
Proof.
  intros Hi Hs Hs'. assert (forall es c es' c', c <= 0 -> upto (Z.min c c') es = upto (Z.min c c') es') as Hz.
  { clear. intros es c es' c' Hc. unfold upto. replace (Z.to_nat (Z.min c c')) with 0%nat by lia. reflexivity. }
  destruct Hs as [Hc|(T & k & _ & Hch & Hck & Hcl & He)]; [now apply Hz|].
  destruct Hs' as [Hc'|(T' & k' & _ & Hch' & Hck' & Hcl' & He')]; [rewrite Z.min_comm; now apply Hz|].
  rewrite (upto_le (Z.min c c') c _ _ ltac:(lia) He), (upto_le (Z.min c c') c' _ _ ltac:(lia) He').
  assert (forall T k, chosen w T k -> is_Some (led w T)) as Hled.
  { intros T0 k0 [(H1 & H2 & H3) _]. destruct (led w T0) eqn:El; [eauto|]. rewrite (i_none w Hi T0 El) in H3.
    rewrite term_at_out in H3 by (unfold llen; cbn; lia). lia. }
  destruct (Z.le_ge_cases T T') as [Hle|Hle].
  - symmetry. apply (upto_le _ k); [lia|]. now apply (leader_completeness w T k T' Hi Hch (Hled T' k' Hch')).
  - apply (upto_le _ k'); [lia|]. now apply (leader_completeness w T' k' T Hi Hch' (Hled T k Hch)).
Qed.
(** ** Steps keep the invariant *)
Definition upd (i : NodeID) (a : anode) (f : NodeID -> anode) : NodeID -> anode := fun j => if decide (j = i) then a else f j.

(** The history only grows. *)
Record grows w w' : Prop := {
  g_led T c : led w T = Some c -> led w' T = Some c;
  g_llog T : llog w T `prefix_of` llog w' T;
  g_new T k : is_Some (led w T) -> llen (llog w T) < k <= llen (llog w' T) -> term_at (llog w' T) k = T;
  g_net m : m ∈ pnet w -> m ∈ pnet w';
  g_cast j U c : cast w j U = Some c -> cast w' j U = Some c;
}.

Section Grows.
Context (w w' : proto) (Hg : grows w w').

Lemma grows_led T : is_Some (led w T) -> is_Some (led w' T).
Proof. intros [c Hc]. exists c. now apply (g_led _ _ Hg). Qed.
Lemma grows_len T : llen (llog w T) <= llen (llog w' T).
Proof. unfold llen. apply inj_le, prefix_length, (g_llog _ _ Hg). Qed.
Lemma grows_upto T k : k <= llen (llog w T) -> upto k (llog w' T) = upto k (llog w T).
Proof. apply upto_prefix, (g_llog _ _ Hg). Qed.
Lemma grows_term T k : k <= llen (llog w T) -> term_at (llog w' T) k = term_at (llog w T) k.
Proof. apply term_at_prefix, (g_llog _ _ Hg). Qed.

Lemma grows_log_ok t es : log_ok w t es -> log_ok w' t es.
Proof.
  intros [H1 H2 H3]. split; [exact H1|exact H2|]. intros k Hk. destruct (H3 k Hk) as [Hl He].
  split; [now apply grows_led|]. rewrite grows_upto; [exact He|]. eapply upto_len_eq; [|exact He]. lia.
Qed.
Lemma grows_real T k : real w T k -> real w' T k.
Proof.
  intros (Hk & HT & Hr). split; [exact Hk|]. split; [exact HT|].
  assert (1 <= k <= llen (llog w T)) by (apply term_at_in; lia). rewrite grows_term by lia. exact Hr.
Qed.
Lemma grows_lost T k U : 1 <= T -> lost w T k U -> lost w' T k U.
Proof.
  intros HT (V & HV & Hl & Hn). exists V. split; [exact HV|]. split; [now apply grows_led|].
  destruct (Z.le_gt_cases k (llen (llog w V))) as [Hk|Hk]; [now rewrite grows_term|].
  destruct (Z.le_gt_cases k (llen (llog w' V))) as [Hk'|Hk'].
  - rewrite (g_new _ _ Hg) by (auto || lia). lia.
  - rewrite term_at_out by lia. lia.
Qed.
Lemma grows_held es T k U : 1 <= T -> held w es T k U -> held w' es T k U.
Proof. intros HT [He|Hl]; [now left|right; now apply grows_lost]. Qed.
Lemma grows_ack_msg j T k : ack_msg w j T k -> ack_msg w' j T k.
Proof. intros (m & v & Hm & Hr). exists m, v. split; [now apply (g_net _ _ Hg)|exact Hr]. Qed.
Lemma grows_ack j T k : ack w j T k -> ack w' j T k.
Proof.
  intros [Ha|[Hl Hk]]; [left; now apply grows_ack_msg|right]. split; [now apply (g_led _ _ Hg)|].
  pose proof (grows_len T). lia.
Qed.
Lemma grows_chosen T k : chosen w T k -> chosen w' T k.
Proof.
  intros [Hr (Q & HQ & Ha)]. split; [now apply grows_real|]. exists Q. split; [exact HQ|]. intros j Hj. now apply grows_ack, Ha.
Qed.
Lemma grows_safe t es c : safe w t es c -> safe w' t es c.
Proof.
  intros [Hc|(T & k & Ht & Hch & Hk & Hl & He)]; [now left|right]. exists T, k. split; [exact Ht|]. split; [now apply grows_chosen|].
  split; [exact Hk|]. split; [exact Hl|]. rewrite grows_upto; [exact He|].
  destruct Hch as [(H1 & H2 & H3) _]. assert (1 <= k <= llen (llog w T)) by (apply term_at_in; lia). lia.
Qed.
End Grows.

Lemma grows_refl w : grows w w.
Proof. split; auto. lia. Qed.
Lemma grows_trans w1 w2 w3 : grows w1 w2 -> grows w2 w3 -> grows w1 w3.
Proof.
  intros G1 G2. split.
  - intros T c Hc. now apply (g_led _ _ G2), (g_led _ _ G1).
  - intros T. etransitivity; [apply (g_llog _ _ G1)|apply (g_llog _ _ G2)].
  - intros T k Hl Hk. destruct (Z.le_gt_cases k (llen (llog w2 T))) as [Hle|Hgt].
    + rewrite (grows_term _ _ G2) by exact Hle. apply (g_new _ _ G1); [exact Hl|lia].
    + apply (g_new _ _ G2); [now apply (grows_led _ _ G1)|lia].
  - intros m Hm. now apply (g_net _ _ G2), (g_net _ _ G1).
  - intros j U c Hc. now apply (g_cast _ _ G2), (g_cast _ _ G1).
Qed.

Lemma safe_prefix w t es es' c : safe w t es c -> es `prefix_of` es' -> safe w t es' c.
Proof.
  intros [Hc|(T & k & Ht & Hch & Hk & Hl & He)] Hp; [now left|right]. exists T, k. split; [exact Ht|]. split; [exact Hch|]. split; [exact Hk|].
  split; [|rewrite (upto_prefix c es es'); auto].
  apply prefix_length in Hp. unfold llen in *. lia.
Qed.
Lemma slice_prefix es es' b new : slice es b new -> es `prefix_of` es' -> slice es' b new.
Proof.
  intros [Hb Hs] [x ->]. split; [exact Hb|]. destruct new as [|e new]; [reflexivity|].
  assert (length (take (length (e :: new)) (drop (Z.to_nat b) es)) = length (e :: new)) as Hl by now rewrite Hs.
  rewrite length_take, length_drop in Hl. cbn [length] in *.
  rewrite drop_app_le, take_app_le by (rewrite ?length_drop; lia). exact Hs.
Qed.

(** What a step of node [i] must establish. *)
Record moved w w' (i : NodeID) : Prop := {
  m_other j : j <> i -> pn w' j = pn w j;
  m_term : a_term (pn w i) <= a_term (pn w' i);
  m_net m : m ∈ pnet w -> m ∈ pnet w';
  m_sent m : m ∈ pnet w' -> m ∈ pnet w \/ env_from m = i /\ env_term m = a_term (pn w' i) /\ msg_ok w' m;
  m_cast j U : cast w' j U = cast w j U \/ j = i /\ U = a_term (pn w' i) /\ cast w i U = None;
  m_voted c : cast w i (a_term (pn w' i)) = None -> cast w' i (a_term (pn w' i)) = Some c ->
    c ∈ members /\ a_term (pn w' i) <= a_term (pn w' c) /\
    forall T k, led w' (a_term (pn w' i)) = None -> T < a_term (pn w' i) -> ack w' i T k -> real w' T k ->
      held w' (clog w' c (a_term (pn w' i))) T k (a_term (pn w' i));
  m_vote : cast w' i (a_term (pn w' i)) = a_vote (pn w' i);
  m_led T : led w' T = led w T \/ led w T = None /\ led w' T = Some i /\ T = a_term (pn w' i) /\ won w' T i;
  m_llog T : llog w' T = llog w T \/ led w' T = Some i /\ llog w T `prefix_of` llog w' T /\ log_ok w' T (llog w' T) /\
    forall k, is_Some (led w T) -> llen (llog w T) < k <= llen (llog w' T) -> term_at (llog w' T) k = T;
  m_clog c U : clog w' c U = clog w c U \/ c = i /\ a_term (pn w i) < U /\ log_ok w' (U - 1) (clog w' c U);
  m_log : log_ok w' (a_term (pn w' i)) (a_log (pn w' i));
  m_role : role_ok w' i (pn w' i);
  m_held T k : ack w i T k -> real w T k -> held w (a_log (pn w i)) T k (a_term (pn w i) + 1) ->
    held w' (a_log (pn w' i)) T k (a_term (pn w' i) + 1);
  m_ack T k : ack w' i T k -> real w' T k -> ack w i T k \/ a_term (pn w i) = T /\ term_at (a_log (pn w' i)) k = T;
  m_commit : a_commit (pn w' i) <= llen (a_log (pn w' i)) /\ safe w' (a_term (pn w' i)) (a_log (pn w' i)) (a_commit (pn w' i));
}.

Section Moved.
Context (w w' : proto) (i : NodeID) (Hi : inv w) (Hmem : i ∈ members) (Hm : moved w w' i).

Lemma moved_grows : grows w w'.
Proof.
  split.
  - intros T c Hc. destruct (m_led _ _ _ Hm T) as [E|[E _]]; congruence.
  - intros T. destruct (m_llog _ _ _ Hm T) as [->|(_ & Hp & _)]; [reflexivity|exact Hp].
  - intros T k Hl Hk. destruct (m_llog _ _ _ Hm T) as [E|(_ & _ & _ & Hn)]; [rewrite E in Hk; lia|now apply Hn].
  - apply (m_net _ _ _ Hm).
  - intros j U c Hc. destruct (m_cast _ _ _ Hm j U) as [E|(-> & -> & E)]; congruence.
Qed.
#[local] Abbreviation Hg := moved_grows.

Lemma moved_term j : a_term (pn w j) <= a_term (pn w' j).
Proof. destruct (decide (j = i)) as [->|Hne]; [apply (m_term _ _ _ Hm)|]. rewrite (m_other _ _ _ Hm j Hne). lia. Qed.

Lemma ack_range j T k : ack w j T k -> 1 <= k -> k <= llen (llog w T).
Proof.
  intros [(m & v & Hn & _ & <- & Hr & Hk)|[_ Hk]] H1; [|exact Hk]. destruct (i_net w Hi m Hn) as (_ & _ & Hok).
  unfold msg_ok in Hok. destruct (env_message m); try discriminate; injection Hr as <-; destruct Hok; lia.
Qed.
Lemma real_back T k : k <= llen (llog w T) -> real w' T k -> real w T k.
Proof. intros Hk (H1 & H2 & H3). rewrite (grows_term _ _ Hg) in H3 by exact Hk. split; auto. Qed.
Lemma ack_real j T k : ack w j T k -> real w' T k -> real w T k.
Proof. intros Ha Hr. apply real_back; [|exact Hr]. eapply ack_range; [exact Ha|apply Hr]. Qed.

(** Other nodes have acknowledged nothing new. *)
Lemma ack_other j T k : j <> i -> ack w' j T k -> ack w j T k.
Proof.
  intros Hne [(m & v & Hn & Hf & Hr)|[Hl Hk]].
  - left. destruct (m_sent _ _ _ Hm m Hn) as [Hn'|[F _]]; [|congruence]. exists m, v. auto.
  - right. destruct (m_llog _ _ _ Hm T) as [<-|[F _]]; [|congruence].
    destruct (m_led _ _ _ Hm T) as [<-|(_ & F & _)]; [auto|congruence].
Qed.
Lemma ack_cases j T k : ack w' j T k -> real w' T k ->
  ack w j T k /\ real w T k \/ j = i /\ a_term (pn w i) = T /\ term_at (a_log (pn w' i)) k = T.
Proof.
  intros Ha Hr. destruct (decide (j = i)) as [->|Hne].
  - destruct (m_ack _ _ _ Hm T k Ha Hr) as [Ha'|[H1 H2]]; [left|right; auto]. split; [exact Ha'|]. eapply ack_real; eauto.
  - left. apply ack_other in Ha; [|exact Hne]. split; [exact Ha|]. eapply ack_real; eauto.
Qed.

Lemma msg_ok_moved m : m ∈ pnet w -> msg_ok w' m.
Proof.
  intros Hn. destruct (i_net w Hi m Hn) as (_ & Ht & Hok). unfold msg_ok in *.
  destruct (env_message m) as [li lt|v|li ci rs|v rs|b bt es|v j|s|s|q rq|q rs]; try exact I.
  - destruct (m_clog _ _ _ Hm (env_from m) (env_term m)) as [->|(E & F & _)]; [exact Hok|]. rewrite E in Ht. lia.
  - intros Hv. apply (g_cast _ _ Hg). auto.
  - destruct Hok as (Hl & Hr & Hc & Hs). split; [now apply (grows_led _ _ Hg)|].
    assert (1 <= env_term m) as H1 by (destruct Hl as [c Hl]; apply (i_led w Hi _ _ Hl)).
    assert (1 <= li <= llen (llog w (env_term m))) by (apply term_at_in; lia).
    rewrite (grows_term _ _ Hg) by lia. split; [exact Hr|]. split; [exact Hc|].
    apply (safe_prefix _ _ (llog w (env_term m))); [|apply (g_llog _ _ Hg)]. now apply (grows_safe _ _ Hg).
  - destruct Hok as [Hv|[Hl Hv]]; [now left|right]. split; [now apply (grows_led _ _ Hg)|].
    pose proof (grows_len _ _ Hg (env_term m)). lia.
  - destruct Hok as (Hl & Hb & Ht' & Hs). pose proof (grows_len _ _ Hg (env_term m)). split; [now apply (grows_led _ _ Hg)|].
    split; [lia|]. rewrite (grows_term _ _ Hg) by lia. split; [exact Ht'|]. eapply slice_prefix; [exact Hs|apply (g_llog _ _ Hg)].
  - destruct Hok as [Hv|[Hl Hv]]; [now left|right]. split; [now apply (grows_led _ _ Hg)|].
    pose proof (grows_len _ _ Hg (env_term m)). lia.
Qed.

Lemma won_moved T c : won w T c -> won w' T c.
Proof.
  intros (Hc & Ht & H1 & Q & [HQs HQ] & Hv). split; [exact Hc|]. pose proof (moved_term c). split; [lia|]. split; [exact H1|].
  exists Q. split; [now split|]. intros j Hq. destruct (Hv j Hq) as [Hcast Hh]. split; [now apply (g_cast _ _ Hg)|].
  intros T' k HT Ha Hr. destruct (ack_cases j T' k Ha Hr) as [[Ha' Hr']|(-> & Hterm & _)].
  - destruct (Hh T' k HT Ha' Hr') as [He|Hlost]; [left|right; apply (grows_lost _ _ Hg); [apply Hr'|exact Hlost]].
    assert (1 <= k <= llen (llog w T)) by (apply term_at_in; destruct Hr' as (_ & ? & _); lia).
    rewrite (grows_term _ _ Hg) by lia. exact He.
  - rewrite (i_future w Hi i T) in Hcast by (auto || lia). discriminate.
Qed.

Lemma role_ok_moved j : j <> i -> j ∈ members -> role_ok w' j (pn w j).
Proof.
  intros Hne Hj. pose proof (i_role w Hi j Hj) as Hr. unfold role_ok in *. destruct (an_role (pn w j)) as [|vs|mt]; [exact I|..].
  - destruct Hr as (H1 & Hc & Hl & Hv). split; [exact H1|]. split.
    { destruct (m_clog _ _ _ Hm j (a_term (pn w j))) as [->|(F & _)]; [exact Hc|congruence]. }
    split; [destruct (m_led _ _ _ Hm (a_term (pn w j))) as [->|(_ & F & _)]; congruence|].
    intros x Hx. destruct (Hv x Hx). split; [assumption|now apply (g_cast _ _ Hg)].
  - destruct Hr as (Hl & Hlog & Hmt). apply (g_led _ _ Hg) in Hl as Hl'. split; [exact Hl'|].
    split; [destruct (m_llog _ _ _ Hm (a_term (pn w j))) as [->|(F & _)]; [exact Hlog|congruence]|].
    intros x v Hx. destruct (Hmt x v Hx) as [|Ha]; [now left|right; now apply (grows_ack_msg _ _ Hg)].
Qed.

Lemma castlog_moved j U c T k :
  j ∈ members -> led w' U = None -> cast w' j U = Some c -> T < U -> ack w' j T k -> real w' T k -> held w' (clog w' c U) T k U.
Proof.
  intros Hj Hl Hc HT Ha Hr.
  assert (cast w j U = Some c \/ j = i /\ U = a_term (pn w' i) /\ cast w i U = None) as [Hold|(-> & -> & Hno)]
    by (destruct (m_cast _ _ _ Hm j U) as [<-|?]; auto).
  2: { now apply (m_voted _ _ _ Hm c Hno Hc). }
  destruct (i_cast w Hi j U c Hj Hold) as [_ Hu].
  destruct (m_clog _ _ _ Hm c U) as [->|(-> & F & _)]; [|lia].
  assert (led w U = None) as Hl0 by (destruct (m_led _ _ _ Hm U) as [<-|[? _]]; assumption).
  destruct (ack_cases j T k Ha Hr) as [[Ha' Hr']|(-> & Ht & _)].
  - apply (grows_held _ _ Hg); [apply Hr'|]. now apply (i_castlog w Hi j).
  - rewrite (i_future w Hi i U) in Hold by (auto || lia). discriminate.
Qed.

Lemma moved_keeps : inv w'.
Proof.
  assert (forall j, pn w' j = pn w j \/ j = i) as Hpn.
  { intros j. destruct (decide (j = i)); [auto|left; now apply (m_other _ _ _ Hm)]. }
  split.
  - intros j Hj. destruct (decide (j = i)) as [->|Hne]; [apply (m_vote _ _ _ Hm)|]. rewrite (m_other _ _ _ Hm j Hne).
    destruct (m_cast _ _ _ Hm j (a_term (pn w j))) as [->|[F _]]; [now apply (i_vote w Hi)|congruence].
  - intros j t Hj Ht. pose proof (moved_term j). destruct (m_cast _ _ _ Hm j t) as [->|(-> & -> & _)]; [|lia].
    apply (i_future w Hi); [exact Hj|lia].
  - intros j U c Hj Hc. pose proof (moved_term c).
    assert (cast w j U = Some c \/ j = i /\ U = a_term (pn w' i) /\ cast w i U = None) as [Hold|(-> & -> & Hno)]
      by (destruct (m_cast _ _ _ Hm j U) as [<-|?]; auto).
    + destruct (i_cast w Hi j U c Hj Hold). split; [assumption|lia].
    + destruct (m_voted _ _ _ Hm c Hno Hc) as (H1 & H2 & _). auto.
  - intros j Hj. pose proof (moved_term j). destruct (i_node w Hi j Hj) as [H1 H2]. split; [lia|].
    destruct (Hpn j) as [->| ->]; [now apply (grows_log_ok _ _ Hg)|apply (m_log _ _ _ Hm)].
  - intros T. destruct (m_llog _ _ _ Hm T) as [->|(_ & _ & Hok & _)]; [|exact Hok]. apply (grows_log_ok _ _ Hg), (i_llog w Hi).
  - intros c U Hc. destruct (m_clog _ _ _ Hm c U) as [->|(_ & _ & Hok)]; [|exact Hok].
    now apply (grows_log_ok _ _ Hg), (i_clog w Hi).
  - intros T Hl. destruct (m_llog _ _ _ Hm T) as [->|(F & _)]; [|congruence]. apply (i_none w Hi).
    destruct (m_led _ _ _ Hm T) as [<-|[? _]]; assumption.
  - intros T c Hl. destruct (m_led _ _ _ Hm T) as [E|(_ & E & _ & Hw)].
    + rewrite E in Hl. now apply won_moved, (i_led w Hi).
    + rewrite Hl in E. injection E as ->. exact Hw.
  - intros j Hj. destruct (decide (j = i)) as [->|Hne]; [apply (m_role _ _ _ Hm)|]. rewrite (m_other _ _ _ Hm j Hne).
    now apply role_ok_moved.
  - intros m Hn. destruct (m_sent _ _ _ Hm m Hn) as [Hn'|(E & Ht & Hok)].
    + destruct (i_net w Hi m Hn') as (H1 & H2 & _). pose proof (moved_term (env_from m)). split; [exact H1|].
      split; [lia|now apply msg_ok_moved].
    + rewrite E, Ht. split; [exact Hmem|]. split; [lia|exact Hok].
  - intros j T k Hj Ha Hr. destruct (ack_cases j T k Ha Hr) as [[Ha' Hr']|(-> & Ht & He)]; [|now left].
    pose proof (i_ack w Hi j T k Hj Ha' Hr') as Hh. destruct (Hpn j) as [->| ->].
    + apply (grows_held _ _ Hg); [apply Hr'|exact Hh].
    + now apply (m_held _ _ _ Hm).
  - intros j U c T k. apply castlog_moved.
  - intros j Hj. destruct (Hpn j) as [->| ->]; [|apply (m_commit _ _ _ Hm)]. destruct (i_commit w Hi j Hj). split; [assumption|].
    now apply (grows_safe _ _ Hg).
Qed.
End Moved.

(** ** Each step *)
Section Steps.
Context (w : proto) (i : NodeID) (Hi : inv w) (Hmem : i ∈ members).

(** The worlds a step may lead to. *)
Definition next w' : Prop := inv w' /\ grows w w'.
Lemma moved_next w' : moved w w' i -> next w'.
Proof. intros Hm. split; [exact (moved_keeps w w' i Hi Hmem Hm)|exact (moved_grows w w' i Hm)]. Qed.

(** The world after a step that adds nothing to the history. *)
Definition quietly (a' : anode) (ms : list Envelope) : proto :=
  mkProto (upd i a' (pn w)) (pnet w ++ ms) (led w) (llog w) (clog w) (cast w).

Lemma upd_eq a' f : upd i a' f i = a'.
Proof. unfold upd. now rewrite decide_True. Qed.
Lemma upd_ne a' f j : j <> i -> upd i a' f j = f j.
Proof. intros Hne. unfold upd. now rewrite decide_False. Qed.

Lemma quietly_grows a' ms : grows w (quietly a' ms).
Proof. split; cbn; auto; [lia|]. intros m Hm. apply elem_of_app. now left. Qed.

(** A change of the log, the commit index and the role alone. *)
Lemma quiet_moved a' :
  a_term (pn w i) <= a_term a' -> a_vote a' = cast w i (a_term a') -> log_ok w (a_term a') (a_log a') -> role_ok w i a' ->
  (forall T k, ack w i T k -> real w T k -> held w (a_log (pn w i)) T k (a_term (pn w i) + 1) ->
     held w (a_log a') T k (a_term a' + 1)) ->
  a_commit a' <= llen (a_log a') -> safe w (a_term a') (a_log a') (a_commit a') ->
  next (quietly a' []).
Proof.
  intros Ht Hv Hlog Hrole Hheld Hc Hs. apply moved_next. pose proof (quietly_grows a' []) as Hg.
  assert (forall m, m ∈ pnet w ++ [] <-> m ∈ pnet w) as Hnet by (intros m; now rewrite app_nil_r).
  split; unfold quietly; cbn [pn pnet led llog clog cast]; rewrite ?upd_eq.
  - intros j Hne. now apply upd_ne.
  - exact Ht.
  - intros m. now rewrite app_nil_r.
  - intros m. rewrite app_nil_r. auto.
  - auto.
  - congruence.
  - now symmetry.
  - auto.
  - auto.
  - auto.
  - now apply (grows_log_ok _ _ Hg).
  - unfold role_ok in *. cbn. destruct (an_role a') as [|vs|mt]; [exact I|exact Hrole|].
    destruct Hrole as (H1 & H2 & H3). split; [exact H1|]. split; [exact H2|]. intros j v Hj.
    destruct (H3 j v Hj) as [|Ha]; [now left|right; now apply (grows_ack_msg _ _ Hg)].
  - intros T k Ha Hr Hh. apply (grows_held _ _ Hg); [apply Hr|]. now apply Hheld.
  - intros T k [(m & v & Hm & Ha)|Ha] _; left; [left; exists m, v; split; [now apply Hnet|exact Ha]|now right].
  - split; [exact Hc|now apply (grows_safe _ _ Hg)].
Qed.

Lemma held_later es T k U U' : U <= U' -> held w es T k U -> held w es T k U'.
Proof. intros HU [He|(V & HV & Hr)]; [now left|right]. exists V. split; [lia|exact Hr]. Qed.

Lemma safe_later t t' es c : t <= t' -> safe w t es c -> safe w t' es c.
Proof. intros Ht [Hc|(T & k & HT & Hr)]; [now left|right]. exists T, k. split; [lia|exact Hr]. Qed.

Lemma log_ok_later t t' es : t <= t' -> log_ok w t es -> log_ok w t' es.
Proof. intros Ht [H1 H2 H3]. split; [|exact H2|exact H3]. intros k Hk. specialize (H1 k Hk). lia. Qed.

#[local] Abbreviation a := (pn w i).
Lemma step_term t : a_term a < t -> next (quietly (mkAnode (mkAlog (a_log a) t None (a_commit a)) AFollower) []).
Proof.
  intros Ht. destruct (i_node w Hi i Hmem) as [H0 Hok]. destruct (i_commit w Hi i Hmem) as [Hc Hs].
  apply quiet_moved; cbn; [lia| |..].
  - symmetry. now apply (i_future w Hi).
  - eapply log_ok_later; [|exact Hok]. cbn. lia.
  - exact I.
  - intros T k _ _. apply held_later. cbn. lia.
  - exact Hc.
  - eapply safe_later; [|exact Hs]. cbn. lia.
Qed.

(** Same log and term. *)
Lemma step_role r c :
  role_ok w i (mkAnode (an a) r) -> c <= llen (a_log a) -> safe w (a_term a) (a_log a) c ->
  next (quietly (mkAnode (mkAlog (a_log a) (a_term a) (a_vote a) c) r) []).
Proof.
  intros Hr Hc Hs. apply quiet_moved; cbn.
  - reflexivity.
  - symmetry. now apply (i_vote w Hi).
  - now apply (i_node w Hi).
  - exact Hr.
  - auto.
  - exact Hc.
  - exact Hs.
Qed.

Lemma alog_eta (R : alog) : mkAlog (al_entries R) (al_term R) (al_vote R) (al_commit R) = R.
Proof. now destruct R. Qed.
Lemma step_role_same r : role_ok w i (mkAnode (an a) r) -> next (quietly (mkAnode (an a) r) []).
Proof.
  intros Hr. destruct (i_commit w Hi i Hmem) as [Hc Hs]. pose proof (step_role r _ Hr Hc Hs) as H.
  unfold a_log, a_term, a_vote, a_commit in H. now rewrite alog_eta in H.
Qed.

(** A stop may lose the latest commit indexes. *)
Lemma safe_below t es c c' : c' <= c -> safe w t es c -> safe w t es c'.
Proof.
  intros Hc [Hz|(T & k & HT & Hch & Hk & Hl & He)]; [left; lia|]. right. exists T, k. split; [exact HT|]. split; [exact Hch|].
  split; [lia|]. split; [lia|]. exact (upto_le c' c _ _ Hc He).
Qed.
Lemma step_crash c :
  c <= a_commit a -> next (quietly (mkAnode (mkAlog (a_log a) (a_term a) (a_vote a) c) AFollower) []).
Proof.
  intros Hc. destruct (i_commit w Hi i Hmem) as [Hl Hs]. apply step_role; [exact I|lia|]. now apply (safe_below _ _ (a_commit a)).
Qed.

Lemma led_pos T : is_Some (led w T) -> 1 <= T.
Proof. intros [c Hl]. apply (i_led w Hi T c Hl). Qed.

Lemma step_tally vs m :
  an_role a = ACandidate vs -> m ∈ pnet w -> env_to m = i -> env_term m = a_term a -> env_message m = CampaignResponse true ->
  next (quietly (mkAnode (an a) (ACandidate ({[env_from m]} ∪ vs))) []).
Proof.
  intros Hr Hn Hto Ht Hm. apply step_role_same. pose proof (i_role w Hi i Hmem) as Hro. unfold role_ok in *. rewrite Hr in Hro.
  destruct Hro as (H1 & H2 & H3 & H4). split; [exact H1|]. split; [exact H2|]. split; [exact H3|].
  intros j [->%elem_of_singleton|Hj]%elem_of_union; [|now apply H4].
  destruct (i_net w Hi m Hn) as (Hf & _ & Hok). unfold msg_ok in Hok. rewrite Hm, Hto in Hok. split; [exact Hf|].
  change (a_term (mkAnode (an a) _)) with (a_term a). rewrite <- Ht. auto.
Qed.

Lemma step_match mt m v :
  an_role a = ALeader mt -> m ∈ pnet w -> env_term m = a_term a -> resp_match (env_message m) = Some v ->
  next (quietly (mkAnode (an a) (ALeader (<[env_from m := v]> mt))) []).
Proof.
  intros Hr Hn Ht Hm. apply step_role_same. pose proof (i_role w Hi i Hmem) as Hro. unfold role_ok in *. rewrite Hr in Hro.
  destruct Hro as (H1 & H2 & H3). split; [exact H1|]. split; [exact H2|]. cbn.
  intros j u [[<- <-]|[_ Hj]]%lookup_insert_Some; [|now apply H3]. right. exists m, v.
  split; [exact Hn|]. split; [reflexivity|]. split; [exact Ht|]. split; [exact Hm|lia].
Qed.

Lemma step_leader_commit mt k Q :
  an_role a = ALeader mt -> term_at (a_log a) k = a_term a -> 1 <= k -> quorum Q ->
  (forall j, j ∈ Q -> j = i \/ exists v, mt !! j = Some v /\ k <= v) ->
  next (quietly (mkAnode (mkAlog (a_log a) (a_term a) (a_vote a) k) (an_role a)) []).
Proof.
  intros Hr Ht Hk HQ Hq. pose proof (i_role w Hi i Hmem) as Hro. unfold role_ok in Hro. rewrite Hr in Hro.
  destruct Hro as (H1 & H2 & H3). assert (1 <= a_term a) as Hpos by (apply led_pos; eauto).
  assert (1 <= k <= llen (a_log a)) as Hkl by (apply term_at_in; lia).
  apply step_role; [|lia|].
  - pose proof (i_role w Hi i Hmem) as Hro. unfold role_ok in *. cbn. rewrite Hr in *. exact Hro.
  - right. exists (a_term a), k. rewrite H2. split; [reflexivity|]. repeat split; try lia; [now rewrite H2|]. exists Q. split; [exact HQ|].
    intros j Hj. destruct (Hq j Hj) as [->|(v & Hv & Hkv)]; [right; rewrite H2; split; [exact H1|lia]|].
    destruct (H3 j v Hv) as [|(m & u & Hm & Hf & Hu & Hrm & Hle)]; [lia|]. left. exists m, u. repeat split; auto. lia.
Qed.

Lemma step_follow m li ci rs :
  m ∈ pnet w -> env_term m = a_term a -> env_message m = Heartbeat li ci rs -> term_at (a_log a) li = a_term a ->
  next (quietly (mkAnode (mkAlog (a_log a) (a_term a) (a_vote a) ci) (an_role a)) []).
Proof.
  intros Hn Ht Hm Hli. destruct (i_net w Hi m Hn) as (_ & _ & Hok). unfold msg_ok in Hok. rewrite Hm, Ht in Hok.
  destruct Hok as (Hl & Hr & Hc & Hs). pose proof (led_pos _ Hl) as Hpos.
  assert (1 <= li <= llen (a_log a)) as Hr1 by (apply term_at_in; lia).
  assert (upto li (a_log a) = upto li (llog w (a_term a))) as He.
  { apply (log_matching w (a_term a) (a_term a)); [now apply (i_node w Hi)|apply (i_llog w Hi)|exact Hr1|congruence]. }
  apply step_role; [|lia|].
  - pose proof (i_role w Hi i Hmem) as Hro. unfold role_ok in *. exact Hro.
  - destruct Hs as [Hz|(T & k & HT & Hch & Hck & Hcl & Heq)]; [now left|right]. exists T, k. split; [exact HT|]. split; [exact Hch|]. split; [exact Hck|].
    split; [lia|]. rewrite (upto_le ci li _ _ Hc He). exact Heq.
Qed.

Lemma slice_upto es b new : slice es b new -> upto (b + llen new) es = upto b es ++ new.
Proof.
  intros [Hb Hs]. unfold upto, llen. rewrite Z2Nat.inj_add, Nat2Z.id by lia. now rewrite <- take_take_drop, Hs.
Qed.
Lemma slice_len es b new : slice es b new -> b <= llen es -> b + llen new <= llen es.
Proof.
  intros [Hb Hs] Hle. apply (f_equal length) in Hs. rewrite length_take, length_drop in Hs. unfold llen in *. lia.
Qed.
Lemma log_ok_upto t es k : log_ok w t es -> log_ok w t (upto k es).
Proof.
  intros [H1 H2 H3]. assert (llen (upto k es) <= llen es) as Hl by (unfold upto, llen; rewrite length_take; lia).
  assert (forall j, j <= llen (upto k es) -> term_at (upto k es) j = term_at es j) as Ht.
  { intros j Hj. symmetry. apply term_at_prefix; [apply prefix_take|exact Hj]. }
  split.
  - intros j Hj. rewrite Ht by lia. apply H1. lia.
  - intros j x Hj Hx. rewrite !Ht by lia. apply H2; lia.
  - intros j Hj. rewrite Ht by lia. destruct (H3 j ltac:(lia)) as [Hs He]. split; [exact Hs|]. rewrite <- He.
    symmetry. apply upto_prefix; [apply prefix_take|lia].
Qed.

(** What an Append message of the current term says, once its base is found. *)
Lemma append_new m b bt es :
  m ∈ pnet w -> env_term m = a_term a -> env_message m = Append b bt es -> base_ok (a_log a) b bt ->
  is_Some (led w (a_term a)) /\ 0 <= b /\ b + llen es <= llen (llog w (a_term a)) /\
  upto b (a_log a) = upto b (llog w (a_term a)) /\ upto b (a_log a) ++ es = upto (b + llen es) (llog w (a_term a)).
Proof.
  intros Hn Ht Hm Hb. destruct (i_net w Hi m Hn) as (_ & _ & Hok). unfold msg_ok in Hok. rewrite Hm, Ht in Hok.
  destruct Hok as (Hl & Hr & Hbt & Hs). split; [exact Hl|]. split; [apply Hr|]. split; [apply slice_len; [exact Hs|lia]|].
  enough (upto b (a_log a) = upto b (llog w (a_term a))) as He by (split; [exact He|]; rewrite (slice_upto _ _ _ Hs), He; reflexivity).
  destruct Hb as [->|[Hb1 Hb2]]; [reflexivity|].
  apply (log_matching w (a_term a) (a_term a)); [now apply (i_node w Hi)|apply (i_llog w Hi)|exact Hb1|congruence].
Qed.

Lemma step_splice m b bt es p :
  m ∈ pnet w -> env_term m = a_term a -> env_message m = Append b bt es -> base_ok (a_log a) b bt ->
  let new := upto b (a_log a) ++ es in
  b < p <= b + llen es -> a_commit a < p -> llen (a_log a) < p \/ term_at (a_log a) p <> term_at new p ->
  (forall q, q < p -> entry_at (a_log a) q = entry_at new q) ->
  next (quietly (mkAnode (mkAlog new (a_term a) (a_vote a) (a_commit a)) AFollower) []).
Proof.
  intros Hn Ht Hm Hb new Hp Hcp Hconf Hsame. destruct (append_new m b bt es Hn Ht Hm Hb) as (Hl & Hb0 & Hlen & He & Hnew).
  fold new in Hnew. set (V := a_term a) in *. set (L := llog w V) in *.
  assert (llen new = b + llen es) as Hnl by (rewrite Hnew; apply upto_length; unfold llen in *; lia).
  assert (forall q, q < p -> term_at (a_log a) q = term_at new q) as Hterm by (intros q Hq; unfold term_at; now rewrite Hsame).
  assert (forall q, q <= b + llen es -> term_at new q = term_at L q) as HtL.
  { intros q Hq. rewrite Hnew. unfold term_at. now rewrite entry_at_upto. }
  apply quiet_moved; cbn; fold V.
  - reflexivity.
  - symmetry. now apply (i_vote w Hi).
  - rewrite Hnew. apply log_ok_upto, (i_llog w Hi).
  - exact I.
  - intros T k Ha Hr [Hk|Hlost]; [|now right]. destruct Hr as (Hk1 & HT & Hr).
    change (a_log (mkAnode _ _)) with new.
    destruct (Z.lt_ge_cases k p) as [Hkp|Hkp]; [left; rewrite <- Hterm by lia; exact Hk|].
    destruct (decide (term_at L k = T)) as [HL|HL].
    + exfalso. assert (1 <= k <= llen (a_log a)) as Hkl by (apply term_at_in; lia).
      assert (upto k (a_log a) = upto k L) as Hu.
      { apply (log_matching w V V); [now apply (i_node w Hi)|apply (i_llog w Hi)|exact Hkl|congruence]. }
      destruct Hconf as [F|F]; [lia|]. apply F. rewrite HtL by lia. apply (term_at_eq p k); [lia|exact Hu].
    + right. exists V. split; [|split; [exact Hl|exact HL]].
      assert (1 <= k <= llen (a_log a)) as Hkl by (apply term_at_in; lia).
      pose proof (ok_terms _ _ _ (proj2 (i_node w Hi i Hmem)) k Hkl). fold V in H.
      assert (T <> V); [|lia]. intros ->. now apply HL.
  - change (a_log (mkAnode _ _)) with new. change (a_commit (mkAnode _ _)) with (a_commit a). lia.
  - change (a_log (mkAnode _ _)) with new. change (a_commit (mkAnode _ _)) with (a_commit a).
    destruct (i_commit w Hi i Hmem) as [Hc [Hs|(T & k & HT & Hch & Hck & Hcl & Heq)]]; [now left|right]. exists T, k. split; [exact HT|].
    split; [exact Hch|]. split; [exact Hck|]. split; [lia|]. rewrite <- Heq. apply (upto_le _ (p - 1)); [lia|].
    unfold upto. apply list_eq. intros x. destruct (decide (x < Z.to_nat (p - 1))%nat) as [Hx|Hx].
    + rewrite !lookup_take_lt by exact Hx. specialize (Hsame (Z.of_nat x + 1) ltac:(lia)). unfold entry_at in Hsame.
      destruct (Z.leb_spec 1 (Z.of_nat x + 1)); [|lia]. replace (Z.to_nat (Z.of_nat x + 1 - 1)) with x in Hsame by lia. now symmetry.
    + rewrite !lookup_take_ge by lia. reflexivity.
Qed.

(** A response tells what the log has of the leader's. *)
Lemma response_match to m v :
  sendable (pnet w) a to m -> resp_match m = Some v ->
  v <= 0 \/ is_Some (led w (a_term a)) /\ v <= llen (llog w (a_term a)) /\ upto v (a_log a) = upto v (llog w (a_term a)).
Proof.
  intros Hs Hr. destruct m as [| | |u rs| |u j| | | |]; try discriminate; injection Hr as ->; cbn in Hs.
  - destruct Hs as [->|(m & ci & s & Hn & Ht & Hm & Hv)]; [left; lia|right].
    destruct (i_net w Hi m Hn) as (_ & _ & Hok). unfold msg_ok in Hok. rewrite Hm, Ht in Hok. destruct Hok as (Hl & Hr & _).
    pose proof (led_pos _ Hl). split; [exact Hl|]. assert (1 <= v <= llen (a_log a)) by (apply term_at_in; lia).
    assert (upto v (a_log a) = upto v (llog w (a_term a))) as He.
    { apply (log_matching w (a_term a) (a_term a)); [now apply (i_node w Hi)|apply (i_llog w Hi)|assumption|congruence]. }
    split; [|exact He]. eapply upto_len_eq; [|exact He]. lia.
  - destruct Hs as [->|(m & b & bt & es & Hn & Ht & Hm & -> & Hb & Hs)]; [left; lia|right].
    destruct (append_new m b bt es Hn Ht Hm Hb) as (Hl & H0 & Hlen & He & Hnew). split; [exact Hl|]. split; [exact Hlen|].
    now rewrite <- Hnew, (slice_upto _ _ _ Hs).
Qed.

Lemma sendable_ok to m : sendable (pnet w) a to m -> msg_ok w (mkEnvelope i (a_term a) to m).
Proof.
  intros Hs. pose proof (i_role w Hi i Hmem) as Hro. unfold role_ok in Hro.
  assert (forall v, resp_match m = Some v -> v <= 0 \/ is_Some (led w (a_term a)) /\ v <= llen (llog w (a_term a))) as Hresp.
  { intros v Hv. destruct (response_match to m v Hs Hv) as [|(H1 & H2 & _)]; auto. }
  unfold msg_ok. cbn [env_term env_message env_from env_to].
  destruct m as [li lt|v|li ci rs|v rs|b bt es|v j|s|s|q rq|q rs]; cbn in Hs; try exact I; try (now apply Hresp).
  - destruct Hs as ([vs Hr] & -> & ->). rewrite Hr in Hro. destruct Hro as (_ & -> & _). auto.
  - intros Hv. rewrite <- (Hs Hv). now apply (i_vote w Hi).
  - destruct Hs as ([mt Hr] & -> & Ht & ->). rewrite Hr in Hro. destruct Hro as (Hl & -> & _).
    destruct (i_commit w Hi i Hmem) as [Hc Hsafe]. split; [eauto|]. auto.
  - destruct Hs as ([mt Hr] & Hb & -> & Hsl). rewrite Hr in Hro. destruct Hro as (Hl & -> & _). split; [eauto|]. auto.
Qed.

Lemma step_send to m : sendable (pnet w) a to m -> next (quietly a [mkEnvelope i (a_term a) to m]).
Proof.
  intros Hs. apply moved_next. set (e := mkEnvelope i (a_term a) to m). pose proof (quietly_grows a [e]) as Hg.
  assert (pn (quietly a [e]) i = a) as Ea by (cbn; apply upd_eq).
  split; rewrite ?Ea; cbn [pnet led llog clog cast quietly].
  - intros j Hne. now apply upd_ne.
  - reflexivity.
  - intros x Hx. apply elem_of_app. now left.
  - intros x [Hx|Hx]%elem_of_app; [now left|right]. apply list_elem_of_singleton in Hx as ->.
    split; [reflexivity|]. split; [reflexivity|]. pose proof (sendable_ok to m Hs) as Hok. fold e in Hok.
    unfold msg_ok in *. cbn [led llog clog cast quietly]. destruct (env_message e); try exact Hok.
    destruct Hok as (H1 & H2 & H3 & H4). repeat (split; [assumption|]). now apply (grows_safe _ _ Hg).
  - auto.
  - congruence.
  - now apply (i_vote w Hi).
  - auto.
  - auto.
  - auto.
  - apply (grows_log_ok _ _ Hg). now apply (i_node w Hi).
  - pose proof (i_role w Hi i Hmem) as Hro. unfold role_ok in *. cbn [led llog clog cast quietly].
    destruct (an_role a) as [|vs|mt]; [exact I|exact Hro|].
    destruct Hro as (H1 & H2 & H3). split; [exact H1|]. split; [exact H2|]. intros j v Hj.
    destruct (H3 j v Hj) as [|Ha]; [now left|right; now apply (grows_ack_msg _ _ Hg)].
  - intros T k Ha Hr Hh. apply (grows_held _ _ Hg); [apply Hr|exact Hh].
  - intros T k [(x & v & Hx & Hf & Ht & Hrm & Hk)|Ha] Hr; [|left; now right].
    cbn in Hx. apply elem_of_app in Hx as [Hx|Hx]; [left; left; exists x, v; auto|right].
    apply list_elem_of_singleton in Hx as ->. cbn in Ht, Hrm. subst T. split; [reflexivity|].
    destruct Hr as (Hk1 & HT & Hr). cbn in Hr.
    destruct (response_match to m v Hs Hrm) as [|(_ & _ & He)]; [lia|].
    rewrite (term_at_eq k v _ _ Hk He). exact Hr.
  - destruct (i_commit w Hi i Hmem). split; [assumption|now apply (grows_safe _ _ Hg)].
Qed.

(** The world after node [i] has cast a vote. *)
Definition voting (a' : anode) (c : NodeID) (cl : NodeID -> Term -> list Entry) : proto :=
  mkProto (upd i a' (pn w)) (pnet w ++ []) (led w) (llog w) cl
    (fun j U => if decide (j = i /\ U = a_term a') then Some c else cast w j U).

Lemma vote_moved a' c cl :
  a_term a <= a_term a' -> a_log a' = a_log a -> a_commit a' = a_commit a -> a_vote a' = Some c ->
  cast w i (a_term a') = None -> role_ok (voting a' c cl) i a' -> c ∈ members -> a_term a' <= a_term (upd i a' (pn w) c) ->
  (forall T k, led w (a_term a') = None -> T < a_term a' -> ack w i T k -> real w T k -> held w (cl c (a_term a')) T k (a_term a')) ->
  (forall d U, cl d U = clog w d U \/ d = i /\ a_term a < U /\ log_ok w (U - 1) (cl d U)) ->
  next (voting a' c cl).
Proof.
  intros Ht Hlog Hcom Hv Hno Hrole Hc Hct Hheld Hcl.
  assert (grows w (voting a' c cl)) as Hg.
  { split; cbn; auto; [lia|intros m Hm; now rewrite app_nil_r|]. intros j U d Hd. destruct (decide _) as [[-> ->]|]; congruence. }
  assert (forall j T k, ack (voting a' c cl) j T k <-> ack w j T k) as Hack.
  { intros j T k. unfold ack, ack_msg. cbn. now rewrite app_nil_r. }
  apply moved_next.
  assert (pn (voting a' c cl) i = a') as Ea by (cbn; apply upd_eq).
  split; rewrite ?Ea.
  - intros j Hne. now apply upd_ne.
  - exact Ht.
  - apply (g_net _ _ Hg).
  - intros m. cbn. rewrite app_nil_r. auto.
  - intros j U. cbn. destruct (decide _) as [[-> ->]|]; [right; auto|left; reflexivity].
  - intros d Hn Hd. cbn in Hd. rewrite decide_True in Hd by auto. injection Hd as <-. split; [exact Hc|]. split; [exact Hct|].
    intros T k Hl HT Ha Hr. apply (grows_held _ _ Hg); [apply Hr|]. apply Hheld; auto. now apply Hack.
  - cbn. rewrite decide_True by auto. now symmetry.
  - auto.
  - auto.
  - intros d U. cbn. destruct (Hcl d U) as [E|(E & Hu & Hok)]; [now left|right]. split; [exact E|]. split; [exact Hu|].
    now apply (grows_log_ok _ _ Hg).
  - rewrite Hlog. apply (grows_log_ok _ _ Hg). eapply log_ok_later; [exact Ht|now apply (i_node w Hi)].
  - exact Hrole.
  - intros T k _ Hr Hh. rewrite Hlog. apply (grows_held _ _ Hg); [apply Hr|]. eapply held_later; [|exact Hh]. lia.
  - intros T k Ha _. left. now apply Hack.
  - rewrite Hlog, Hcom. destruct (i_commit w Hi i Hmem) as [Hcl' Hs]. split; [assumption|].
    apply (grows_safe _ _ Hg). eapply safe_later; [exact Ht|exact Hs].
Qed.

(** A candidate with an up-to-date log has what its voter has. *)
Lemma vote_held c U cl T k :
  log_ok w (U - 1) cl -> up_to_date (llen cl) (term_at cl (llen cl)) (a_log a) -> a_term a = U -> led w U = None -> c ∈ members ->
  T < U -> ack w i T k -> real w T k -> held w cl T k U.
Proof.
  intros Hcl Hup Ha Hno Hc HT Hack Hr. destruct (i_ack w Hi i T k Hmem Hack Hr) as [Hk|(V & HV & Hl & Hn)].
  2: { right. exists V. split; [|auto]. assert (V <> U) by (intros ->; destruct Hl; congruence). lia. }
  destruct Hr as (Hk1 & HT1 & Hr). destruct (i_node w Hi i Hmem) as [_ Hok].
  assert (1 <= k <= llen (a_log a)) as Hkl by (apply term_at_in; lia).
  pose proof (ok_mono _ _ _ Hok k (llen (a_log a)) ltac:(lia) ltac:(lia)) as Hlast.
  set (V := term_at cl (llen cl)) in *. assert (T <= V) as HTV by (destruct Hup; lia).
  assert (1 <= llen cl <= llen cl) as Hne by (apply term_at_in; unfold V in *; lia).
  pose proof (match_at _ _ _ _ Hcl Hne) as Hm. fold V in Hm.
  pose proof (ok_terms _ _ _ Hcl _ Hne) as HV. fold V in HV.
  destruct (ok_match _ _ _ Hcl _ Hne) as [Hled _]. fold V in Hled.
  destruct (decide (term_at (llog w V) k = T)) as [Hkv|Hkv].
  - left. destruct (Z.le_gt_cases k (llen cl)) as [Hle|Hgt]; [now rewrite (term_at_eq k _ _ _ Hle Hm)|]. exfalso.
    assert (1 <= k <= llen (llog w V)) as Hkr by (apply term_at_in; lia).
    pose proof (ok_mono _ _ _ (i_llog w Hi V) (llen cl) k ltac:(lia) ltac:(lia)) as Hmono.
    rewrite <- (term_at_eq (llen cl) _ _ _ (Z.le_refl _) Hm) in Hmono. fold V in Hmono. destruct Hup; lia.
  - right. exists V. split; [|auto]. assert (T <> V) by (intros ->; now apply Hkv). lia.
Qed.

Lemma step_vote c m li lt :
  a_vote a = None -> m ∈ pnet w -> env_from m = c -> env_term m = a_term a ->
  env_message m = Campaign li lt -> up_to_date li lt (a_log a) ->
  next (voting (mkAnode (mkAlog (a_log a) (a_term a) (Some c) (a_commit a)) AFollower) c (clog w)).
Proof.
  intros Hv Hn Hf Ht Hm Hup. destruct (i_net w Hi m Hn) as (Hc & Hterm & Hok). unfold msg_ok in Hok. rewrite Hm, Ht, Hf in *.
  destruct Hok as [<- <-]. apply vote_moved; cbn; auto; try reflexivity; try exact I.
  - change (a_term (mkAnode _ _)) with (a_term a). rewrite <- Hv. now apply (i_vote w Hi).
  - unfold upd. destruct (decide (c = i)); [reflexivity|exact Hterm].
  - change (a_term (mkAnode _ _)) with (a_term a). intros T k Hl HT Ha Hr. eapply vote_held; eauto. now apply (i_clog w Hi).
Qed.

Lemma step_campaign t :
  a_term a < t ->
  next (voting (mkAnode (mkAlog (a_log a) t (Some i) (a_commit a)) (ACandidate {[i]})) i
         (fun d U => if decide (d = i /\ U = t) then a_log a else clog w d U)).
Proof.
  intros Ht. destruct (i_node w Hi i Hmem) as [H0 Hok].
  apply vote_moved; cbn; auto.
  - change (a_term a <= t). lia.
  - change (cast w i t = None). now apply (i_future w Hi).
  - change (a_term (mkAnode _ _)) with t. change (a_log (mkAnode _ _)) with (a_log a). rewrite decide_True by auto.
    split; [lia|]. split; [reflexivity|]. split.
    + intros Hl. destruct (i_led w Hi _ _ Hl) as (_ & F & _). lia.
    + intros j ->%elem_of_singleton. rewrite decide_True by auto. auto.
  - rewrite upd_eq. reflexivity.
  - change (a_term (mkAnode _ _)) with t. rewrite decide_True by auto. intros T k _ _ Ha Hr.
    eapply held_later; [|now apply (i_ack w Hi)]. lia.
  - intros d U. destruct (decide _) as [[-> ->]|]; [right|now left]. split; [reflexivity|]. split; [exact Ht|].
    eapply log_ok_later; [|exact Hok]. lia.
Qed.

(** The world in which node [i] leads its term with a log. *)
Definition leading (a' : anode) : proto :=
  mkProto (upd i a' (pn w)) (pnet w ++ [])
    (fun T => if decide (T = a_term a) then Some i else led w T)
    (fun T => if decide (T = a_term a) then a_log a' else llog w T) (clog w) (cast w).

(** Its term has no other leader, and its log extends the one of its term. *)
Record may_lead (a' : anode) : Prop := {
  ml_term : a_term a' = a_term a;
  ml_vote : a_vote a' = a_vote a;
  ml_led : led w (a_term a) = None \/ led w (a_term a) = Some i;
  ml_llog : llog w (a_term a) `prefix_of` a_log a';
  ml_log : a_log a `prefix_of` a_log a';
  ml_new k : is_Some (led w (a_term a)) -> llen (llog w (a_term a)) < k <= llen (a_log a') -> term_at (a_log a') k = a_term a;
  ml_commit : a_commit a' = a_commit a;
  ml_role : exists mt, an_role a' = ALeader mt /\ forall j v, mt !! j = Some v -> v <= 0 \/ ack_msg w j (a_term a) v;
}.

Lemma leading_grows a' : may_lead a' -> grows w (leading a').
Proof.
  intros [_ _ M1 M2 _ M3 _ _]. split; cbn.
  - intros T c Hc. destruct (decide _) as [->|]; [|exact Hc]. destruct M1; congruence.
  - intros T. destruct (decide _) as [->|]; [exact M2|reflexivity].
  - intros T k Hl. destruct (decide _) as [->|]; [now apply M3|lia].
  - intros m. now rewrite app_nil_r.
  - auto.
Qed.

Lemma lead_moved a' :
  may_lead a' -> log_ok (leading a') (a_term a) (a_log a') -> (led w (a_term a) = None -> won (leading a') (a_term a) i) ->
  next (leading a').
Proof.
  intros Hml Hlog Hwon. pose proof (leading_grows a' Hml) as Hg. destruct Hml as [M1 M2 M3 M4 M5 M6 M7 M8].
  apply moved_next. assert (pn (leading a') i = a') as Ea by (cbn; apply upd_eq).
  split; rewrite ?Ea, ?M1.
  - intros j Hne. now apply upd_ne.
  - lia.
  - apply (g_net _ _ Hg).
  - intros m. cbn. rewrite app_nil_r. auto.
  - auto.
  - cbn. congruence.
  - rewrite M2. cbn. now apply (i_vote w Hi).
  - intros T. cbn [led leading]. destruct (decide _) as [->|]; [|now left]. destruct M3 as [E|E]; [right|left; congruence]. auto.
  - intros T. cbn [led llog leading]. destruct (decide (T = a_term a)) as [->|]; [right|now left]. auto.
  - auto.
  - exact Hlog.
  - destruct M8 as (mt & Hr & Hmt). unfold role_ok. rewrite Hr, M1. cbn [led llog leading]. rewrite !decide_True by auto.
    split; [reflexivity|]. split; [reflexivity|]. intros j v Hj.
    destruct (Hmt j v Hj) as [|Ha]; [now left|right; now apply (grows_ack_msg _ _ Hg)].
  - intros T k _ (_ & HT & _) [Hk|Hl]; [left|right; now apply (grows_lost _ _ Hg)].
    assert (1 <= k <= llen (a_log a)) by (apply term_at_in; lia). rewrite (term_at_prefix k (a_log a)) by (auto; lia). exact Hk.
  - intros T k [(m & v & Hm & Ha)|[Hl Hk]] (Hk1 & HT & Hr).
    + left. left. exists m, v. cbn in Hm. rewrite app_nil_r in Hm. auto.
    + cbn in Hl, Hk, Hr. destruct (decide (T = a_term a)) as [->|]; [right; auto|left; right; auto].
  - rewrite M7. destruct (i_commit w Hi i Hmem) as [Hc Hs]. split.
    + apply prefix_length in M5. unfold llen in *. lia.
    + apply (grows_safe _ _ Hg). eapply safe_prefix; eauto.
Qed.

Lemma step_append c :
  is_leader a ->
  next (leading (mkAnode (mkAlog (a_log a ++ [mkEntry (llen (a_log a) + 1) (a_term a) c]) (a_term a) (a_vote a) (a_commit a)) (an_role a))).
Proof.
  intros [mt Hr]. pose proof (i_role w Hi i Hmem) as Hro. unfold role_ok in Hro. rewrite Hr in Hro.
  destruct Hro as (Hl & Hlog & Hmt). set (e := mkEntry _ _ c). set (a' := mkAnode _ _).
  destruct (i_node w Hi i Hmem) as [H0 Hok]. pose proof (led_pos _ (ex_intro _ i Hl)) as Hpos.
  assert (llen (a_log a') = llen (a_log a) + 1) as Hlen by (unfold llen, a'; cbn; rewrite length_app; cbn; lia).
  assert (a_log a `prefix_of` a_log a') as Hpre by (exists [e]; reflexivity).
  assert (forall k, term_at (a_log a') k = if k =? llen (a_log a) + 1 then a_term a else term_at (a_log a) k) as Hta
    by (intros k; apply term_at_app).
  assert (may_lead a') as Hml.
  { split; auto; [now rewrite Hlog| |eauto].
    intros k _ Hk. rewrite Hlog in Hk. rewrite Hta. destruct (Z.eqb_spec k (llen (a_log a) + 1)); [reflexivity|lia]. }
  pose proof (leading_grows a' Hml) as Hg.
  apply lead_moved; [exact Hml| |congruence].
  apply (grows_log_ok _ _ Hg) in Hok. destruct Hok as [K1 K2 K3]. split.
  - intros k Hk. rewrite Hta. destruct (Z.eqb_spec k (llen (a_log a) + 1)); [lia|]. apply K1. lia.
  - intros j k Hj Hk. rewrite !Hta. destruct (Z.eqb_spec k (llen (a_log a) + 1)), (Z.eqb_spec j (llen (a_log a) + 1)); try lia.
    + apply K1. lia.
    + apply K2; lia.
  - intros k Hk. rewrite Hta. destruct (Z.eqb_spec k (llen (a_log a) + 1)) as [->|Hne].
    + cbn [led llog leading]. rewrite !decide_True by auto. split; [eauto|reflexivity].
    + destruct (K3 k ltac:(lia)) as [L1 L2]. split; [exact L1|]. rewrite <- L2. apply upto_prefix; [exact Hpre|lia].
Qed.

(** Nobody else has won the term of a candidate with a quorum of votes. *)
Lemma elect_none vs : an_role a = ACandidate vs -> (size members / 2 + 1 <= size vs)%nat -> led w (a_term a) = None.
Proof.
  intros Hr Hq. pose proof (i_role w Hi i Hmem) as Hro. unfold role_ok in Hro. rewrite Hr in Hro. destruct Hro as (_ & _ & Hno & Hvs).
  destruct (led w (a_term a)) as [c|] eqn:Hl; [|reflexivity]. exfalso. destruct (i_led w Hi _ _ Hl) as (_ & _ & _ & Q & [HQs HQ] & HQv).
  destruct (quorum_intersect members vs Q) as (j & Hj & Hj'); [intros j Hj; now apply Hvs|exact HQs|exact Hq|exact HQ|].
  destruct (Hvs j Hj) as [_ H1]. destruct (HQv j Hj') as [H2 _]. congruence.
Qed.

Lemma step_elect vs mt :
  an_role a = ACandidate vs -> (size members / 2 + 1 <= size vs)%nat -> (forall j v, mt !! j = Some v -> v = 0) ->
  next (leading (mkAnode (an a) (ALeader mt))).
Proof.
  intros Hr Hq Hmt. pose proof (elect_none vs Hr Hq) as Hno. pose proof (i_role w Hi i Hmem) as Hro. unfold role_ok in Hro.
  rewrite Hr in Hro. destruct Hro as (Hpos & Hcl & _ & Hvs). set (a' := mkAnode _ _).
  assert (may_lead a') as Hml.
  { split; auto; [rewrite (i_none w Hi _ Hno); apply prefix_nil|intros k []; congruence|].
    exists mt. split; [reflexivity|]. intros j v Hj. left. rewrite (Hmt j v Hj). lia. }
  pose proof (leading_grows a' Hml) as Hg. apply lead_moved; [exact Hml|now apply (grows_log_ok _ _ Hg), (i_node w Hi)|].
  intros _. split; [exact Hmem|]. split; [cbn; rewrite upd_eq; reflexivity|]. split; [exact Hpos|].
  exists vs. split; [split; [intros j Hj; now apply Hvs|exact Hq]|]. intros j Hj. destruct (Hvs j Hj) as [Hjm Hcast].
  split; [exact Hcast|]. intros T k HT Ha Hrl.
  assert (ack w j T k /\ real w T k) as [Ha' Hrl'].
  { unfold ack, ack_msg, real in *. cbn in *. rewrite app_nil_r in Ha. rewrite !decide_False in * by lia. auto. }
  cbn [llog leading]. rewrite decide_True by reflexivity. change (a_log a') with (a_log a). rewrite <- Hcl.
  apply (grows_held _ _ Hg); [apply Hrl'|]. now apply (i_castlog w Hi j).
Qed.

Lemma lstep_inv a' ms :
  lstep members i (pnet w) a a' ms -> exists w', next w' /\ (forall j, pn w' j = upd i a' (pn w) j) /\ pnet w' = pnet w ++ ms.
Proof.
  assert (forall w', next w' -> (forall j, pn w' j = upd i a' (pn w) j) -> pnet w' = pnet w ++ ms ->
    exists w', next w' /\ (forall j, pn w' j = upd i a' (pn w) j) /\ pnet w' = pnet w ++ ms) as Hex by eauto.
  intros Hs. remember a as a0 eqn:Ea. destruct Hs; match goal with E : ?x = pn w i |- _ => subst x end.
  - eapply Hex; [eapply step_term; eassumption|intros ?; reflexivity|reflexivity].
  - eapply Hex; [eapply step_vote; eauto|intros ?; reflexivity|reflexivity].
  - eapply Hex; [eapply step_campaign; eassumption|intros ?; reflexivity|reflexivity].
  - eapply Hex; [eapply step_send; eassumption|intros ?; reflexivity|reflexivity].
  - eapply Hex; [eapply step_append; eassumption|intros ?; reflexivity|reflexivity].
  - eapply Hex; [eapply step_splice; eauto|intros ?; reflexivity|reflexivity].
  - eapply Hex; [eapply step_leader_commit; eauto|intros ?; reflexivity|reflexivity].
  - eapply Hex; [eapply step_follow; eauto|intros ?; reflexivity|reflexivity].
  - eapply Hex; [eapply step_tally; eauto|intros ?; reflexivity|reflexivity].
  - eapply Hex; [eapply step_elect; eauto|intros ?; reflexivity|reflexivity].
  - eapply Hex; [eapply step_match; eauto|intros ?; reflexivity|reflexivity].
  - eapply Hex; [apply (step_role_same AFollower); exact I|intros ?; reflexivity|reflexivity].
  - eapply Hex; [eapply step_crash; eassumption|intros ?; reflexivity|reflexivity].
Qed.
End Steps.

(** Steps over a network whose messages have all been sent. *)
Lemma lsteps_inv w i net a' ms :
  inv w -> i ∈ members -> (forall m, m ∈ net -> m ∈ pnet w) -> lsteps members i net (pn w i) a' ms ->
  exists w', inv w' /\ grows w w' /\ (forall j, pn w' j = upd i a' (pn w) j) /\ pnet w' = pnet w ++ ms.
Proof.
  intros Hi Hmem Hnet Hs. remember (pn w i) as a0 eqn:Ea. revert w Hi Hnet Ea.
  induction Hs as [a|a a1 a2 ms1 ms2 H1 _ IH]; intros w Hi Hnet ->.
  - exists w. split; [exact Hi|]. split; [apply grows_refl|]. split; [|now rewrite app_nil_r]. intros j. unfold upd. now destruct (decide (j = i)) as [->|].
  - apply (lstep_mono _ _ _ (pnet w)) in H1; [|exact Hnet].
    destruct (lstep_inv w i Hi Hmem a1 ms1 H1) as (w1 & [Hi1 Hg1] & Hp1 & Hn1).
    destruct (IH w1 Hi1) as (w2 & Hi2 & Hg2 & Hp2 & Hn2).
    + intros m Hm. rewrite Hn1. apply elem_of_app. left. auto.
    + now rewrite Hp1, upd_eq.
    + exists w2. split; [exact Hi2|]. split; [eapply grows_trans; eassumption|]. split; [|now rewrite Hn2, Hn1, app_assoc].
      intros j. rewrite Hp2. unfold upd. destruct (decide (j = i)) as [->|Hne]; [reflexivity|]. rewrite Hp1. now apply upd_ne.
Qed.

(** ** From the start *)
Definition genesis : proto :=
  mkProto (fun _ => mkAnode alog_empty AFollower) [] (fun _ => None) (fun _ => []) (fun _ _ => []) (fun _ _ => None).

Lemma genesis_inv : inv genesis.
Proof.
  assert (forall t, log_ok genesis t []) as Hok by (intros t; split; try (unfold llen; cbn; lia); intros k; unfold llen; cbn; lia).
  split; cbn; try congruence; auto.
  - intros i Hm. split; [reflexivity|apply Hok].
  - intros m Hm. set_solver.
  - intros j T k _ [(m & v & Hm & _)|[F _]]; [set_solver|discriminate].
  - intros i Hm. split; [reflexivity|]. left. reflexivity.
Qed.

(** ** The guarantees, of the nodes' own logs, now and later *)
Section Guarantees.
Context (w w' : proto) (Hi : inv w) (Hi' : inv w') (Hg : grows w w') (i j : NodeID) (Him : i ∈ members) (Hjm : j ∈ members).

Lemma nodes_match k :
  1 <= k <= llen (a_log (pn w i)) -> term_at (a_log (pn w i)) k = term_at (a_log (pn w' j)) k ->
  upto k (a_log (pn w i)) = upto k (a_log (pn w' j)).
Proof.
  apply (log_matching w' (a_term (pn w i)) (a_term (pn w' j))); [apply (grows_log_ok _ _ Hg); now apply (i_node w Hi)|].
  now apply (i_node w' Hi').
Qed.

Lemma nodes_commit :
  let c := Z.min (a_commit (pn w i)) (a_commit (pn w' j)) in upto c (a_log (pn w i)) = upto c (a_log (pn w' j)).
Proof. eapply (safe_agree w'); [exact Hi'|apply (grows_safe _ _ Hg); now apply (i_commit w Hi)|now apply (i_commit w' Hi')]. Qed.

Lemma leader_has_committed :
  is_leader (pn w' j) -> a_term (pn w i) <= a_term (pn w' j) ->
  upto (a_commit (pn w i)) (a_log (pn w i)) = upto (a_commit (pn w i)) (a_log (pn w' j)).
Proof.
  intros [mt Hr] Ht. pose proof (i_role w' Hi' j Hjm) as Hro. unfold role_ok in Hro. rewrite Hr in Hro. destruct Hro as (Hl & Hlog & _).
  destruct (i_commit w Hi i Him) as [Hc Hs]. apply (grows_safe _ _ Hg) in Hs. destruct Hs as [Hz|(T & k & HT & Hch & Hk & _ & He)].
  { unfold upto. now replace (Z.to_nat (a_commit (pn w i))) with 0%nat by lia. }
  rewrite He, <- Hlog. symmetry. apply (upto_le _ k); [exact Hk|]. apply (leader_completeness w' T k); [exact Hi'|exact Hch|eauto|lia].
Qed.
End Guarantees.

End Protocol.
