(* ===== verification/RaftRefinement.v ===== *)
(** * Raft nodes refine the protocol

    A node of [RaftNode] is an abstract node of [RaftProtocol]: whatever a
    method does, failures included, is a walk of local steps that sends the
    same messages. *)
From S2P Require Import Prelude Bytes Keycode KeycodeTheory Btree Engine Bincode.
From S2P Require Import RaftLog RaftLogTheory RaftLogClaims RaftNode RaftNodeTheory RaftSteps RaftDisk RaftReplication RaftProtocol.

(** ** Splicing, up to the first conflict *)
Lemma splice_skip_stop old es next rest :
  splice_skip (map Ok old) es = Ok (next :: rest) ->
  exists pre, es = pre ++ next :: rest /\ (old = pre \/ exists e old', old = pre ++ e :: old' /\ term e <> term next).
Proof.
  revert es; induction old as [|e old IH]; intros es; cbn [map splice_skip outcome_bind].
  { intros [= ->]. exists []. auto. }
  destruct es as [|e0 es]; [discriminate|]. destruct (Z.eqb_spec (index e) (index e0)); [|discriminate]. cbn [negb].
  destruct (Z.eqb_spec (term e) (term e0)) as [Ht|Ht]; cbn [negb].
  - destruct (bool_decide (command e = command e0)) eqn:Hc; [|discriminate]. cbn [negb]. apply bool_decide_eq_true in Hc.
    intros Hs. destruct (IH es Hs) as (pre & -> & Hold). assert (e0 = e) as -> by (destruct e, e0; cbn in *; congruence).
    exists (e :: pre). split; [reflexivity|]. destruct Hold as [->|(x & old' & -> & Hx)]; [now left|right; exists x, old'; auto].
  - intros [= <- <-]. exists []. split; [reflexivity|]. right. exists e, old. auto.
Qed.

(** The way through a successful splice. *)
Lemma al_splice_inv es R i R' first :
  al_wf R -> Forall entry_valid es -> al_last R + llen es < u64_max -> head es = Some first -> al_splice es R = (Ok i, R') ->
  exists rest, indexed_from (index first) es /\ 1 <= index first <= al_last R + 1 /\
    splice_skip (map Ok (take (length es) (drop (Z.to_nat (index first - 1)) (al_entries R)))) es = Ok rest /\
    match rest with
    | [] => R' = R
    | next :: _ => al_commit R < index next /\
        R' = mkAlog (take (Z.to_nat (index next - 1)) (al_entries R) ++ rest) (al_term R) (al_vote R) (al_commit R)
    end.
Proof.
  intros Hw Hv Hmax Hh. unfold al_splice. rewrite Hh. unfold llen in Hmax.
  destruct (last es) as [lst|] eqn:Hl; [|apply last_None in Hl as ->; discriminate].
  destruct ((0 <? index first) && (0 <? term first))%bool eqn:Hpos; cbn [negb]; [|discriminate]. zify_bools.
  destruct (windows_all _ es) eqn:Hwin; cbn [negb]; [|discriminate].
  destruct (windows_all (fun a b => term a <=? term b) es); cbn [negb]; [|discriminate].
  destruct (Z.leb_spec (term lst) (al_term R)); cbn [negb]; [|discriminate].
  destruct (match entry_at (al_entries R) (index first - 1) with Some _ => _ | None => _ end) as [msg|] eqn:Hbad; [discriminate|].
  assert (index first <= al_last R + 1) as Hle.
  { destruct (entry_at _ _) as [base|] eqn:Eb.
    - assert (1 <= index first - 1 <= al_last R) by (apply entry_at_range; eauto). lia.
    - destruct (Z.eqb_spec (index first) 1); [|discriminate]. unfold al_last. lia. }
  assert (indexed_from (index first) es) as Hidx by (apply windows_indexed; auto; lia).
  rewrite (indexed_last _ _ _ Hidx Hl), segment_take by (auto; lia).
  destruct (splice_skip _ es) as [rest|err|p] eqn:Eskip; [|discriminate|discriminate]. intros Hr.
  exists rest. split; [exact Hidx|]. split; [lia|]. split; [reflexivity|].
  destruct rest as [|next rest]; [now injection Hr|].
  destruct (Z.ltb_spec (al_commit R) (index next)) as [Hc|]; cbn [negb] in Hr; [|discriminate]. injection Hr as <- <-. auto.
Qed.

Lemma entry_at_app_ge es1 es2 q : llen es1 < q -> entry_at (es1 ++ es2) q = entry_at es2 (q - llen es1).
Proof.
  intros Hq. unfold entry_at, llen in *. destruct (Z.leb_spec 1 q), (Z.leb_spec 1 (q - Z.of_nat (length es1))); try lia.
  rewrite lookup_app_r by lia. f_equal. lia.
Qed.

(** What a successful splice at a base does: all entries were there, or the log
    is replaced after the base, and there is a first conflict. *)
Lemma al_splice_at es R i R' b :
  al_wf R -> Forall entry_valid es -> al_last R + llen es < u64_max -> 0 <= b ->
  (forall first, head es = Some first -> index first = b + 1) -> al_splice es R = (Ok i, R') ->
  let new := upto b (al_entries R) ++ es in
  R' = R /\ slice (al_entries R) b es \/
  R' = mkAlog new (al_term R) (al_vote R) (al_commit R) /\
  exists p, b < p <= b + llen es /\ al_commit R < p /\ (llen (al_entries R) < p \/ term_at (al_entries R) p <> term_at new p) /\
    forall q, q < p -> entry_at (al_entries R) q = entry_at new q.
Proof.
  intros Hw Hv Hmax Hb0 Hfirst Hs new. destruct (head es) as [first|] eqn:Hh.
  2: { left. destruct es; [|discriminate]. injection Hs as <- <-. split; [reflexivity|]. now split. }
  specialize (Hfirst first eq_refl).
  destruct (al_splice_inv es R i R' first Hw Hv Hmax Hh Hs) as (rest & Hidx & Hf & Hskip & Hrest).
  replace (Z.to_nat (index first - 1)) with (Z.to_nat b) in Hskip by lia.
  set (old := drop (Z.to_nat b) (al_entries R)) in *.
  destruct rest as [|next rest].
  { left. split; [exact Hrest|]. split; [exact Hb0|]. destruct (splice_skip_prefix _ _ _ Hskip) as (pre & He & Hp).
    rewrite app_nil_r in He. subst pre. destruct Hp as [k Hk]. pose proof (f_equal (take (length es)) Hk) as Ht.
    rewrite take_take, Nat.min_id, take_app_length in Ht. exact Ht. }
  destruct (splice_skip_stop _ _ _ _ Hskip) as (pre & He & Hstop).
  destruct (splice_skip_prefix _ _ _ Hskip) as (pre' & He' & Hpre).
  assert (pre' = pre) as -> by (rewrite He in He'; now apply app_inv_tail in He'). clear He'.
  assert (index next = b + 1 + llen pre) as Hnext.
  { rewrite He, Hfirst in Hidx. apply indexed_app in Hidx as [_ Hidx]. apply indexed_cons in Hidx as [-> _]. reflexivity. }
  destruct Hrest as [Hc ->]. right.
  assert (take (Z.to_nat (index next - 1)) (al_entries R) = upto b (al_entries R) ++ pre) as Hcut.
  { unfold upto. rewrite (take_prefix_drop _ _ _ _ Hpre). f_equal. unfold llen in *. lia. }
  assert (llen es = llen pre + llen (next :: rest)) as Hlen by (rewrite He; unfold llen; rewrite length_app; lia).
  assert (llen (upto b (al_entries R)) = b) as Hbl by (apply upto_length; unfold llen, al_last in *; lia).
  split; [rewrite Hcut, <- app_assoc, <- He; reflexivity|]. exists (index next).
  assert (forall q, q < index next -> entry_at (al_entries R) q = entry_at new q) as Hsame.
  { intros q Hq. unfold new. rewrite He, app_assoc, <- Hcut. unfold entry_at. destruct (Z.leb_spec 1 q); [|reflexivity].
    rewrite lookup_app_l; [now rewrite lookup_take_lt by lia|]. rewrite Hcut, length_app. unfold llen in *. lia. }
  assert (0 <= llen pre /\ 0 <= llen rest) as [Hp0 Hr0] by (unfold llen; lia).
  assert (llen (next :: rest) = llen rest + 1) as Hcons by (unfold llen; cbn [length]; lia).
  split; [lia|]. split; [exact Hc|]. split; [|exact Hsame]. destruct Hstop as [Hold|(e & old' & Hold & Ht)].
  - left. apply (f_equal length) in Hold. unfold old in Hold. rewrite length_take, length_drop in Hold. unfold llen, al_last in *. lia.
  - right. assert (entry_at (al_entries R) (index next) = Some e) as Ee.
    { unfold entry_at. destruct (Z.leb_spec 1 (index next)); [|lia].
      assert (take (length es) old !! length pre = Some e) as Hk by (rewrite Hold, lookup_app_r, Nat.sub_diag by lia; reflexivity).
      apply lookup_take_Some in Hk as [Hk _]. unfold old in Hk. rewrite lookup_drop in Hk. rewrite <- Hk. f_equal. unfold llen in *. lia. }
    assert (entry_at new (index next) = Some next) as En.
    { unfold new. rewrite He, entry_at_app_ge by lia. rewrite entry_at_app_ge by lia.
      replace (index next - llen (upto b (al_entries R)) - llen pre) with 1 by lia. reflexivity. }
    unfold term_at. now rewrite Ee, En.
Qed.

(** ** Walks

    The nodes of a walk have well-formed logs of at most [bound] entries; the
    messages on the wire carry the values of their types. *)
Definition fits (bound : Index) (a : anode) : Prop := al_wf (an a) /\ llen (a_log a) <= bound.
Definition wire_ok (bound : Index) (m : Envelope) : Prop :=
  is_u64 (env_term m) /\
  match env_message m with
  | Heartbeat li ci _ => 0 <= li <= bound /\ 0 <= ci <= bound
  | Append b _ es => 0 <= b /\ b + llen es <= bound /\ Forall entry_valid es
  | _ => True
  end.

Lemma fits_le b b' a : b <= b' -> fits b a -> fits b' a.
Proof. intros Hb [H1 H2]. split; [exact H1|lia]. Qed.
Lemma wire_ok_le b b' m : b <= b' -> wire_ok b m -> wire_ok b' m.
Proof. intros Hb [H1 H2]. split; [exact H1|]. destruct (env_message m); intuition lia. Qed.

Lemma sendable_wire bound net i a to m :
  fits bound a -> sendable net a to m -> wire_ok bound (mkEnvelope i (a_term a) to m).
Proof.
  intros [Hw Hl] Hs. split; [apply (wf_term _ Hw)|]. cbn [env_message]. pose proof (wf_commit _ Hw) as Hc.
  destruct m as [| |li ci rs| |b bt es| | | | |]; cbn in Hs; try exact I.
  - destruct Hs as (_ & -> & _ & ->). unfold a_log, a_commit, llen, al_last in *. lia.
  - destruct Hs as (_ & Hb & _ & Hs). pose proof (slice_len _ _ _ Hs ltac:(lia)) as Hsl. split; [lia|]. split; [lia|].
    destruct Hs as [_ <-]. apply Forall_take, Forall_drop, Forall_lookup. intros k e He.
    destruct (wf_entry _ Hw k e He) as [E1 E2]. apply lookup_lt_Some in He. pose proof (wf_term _ Hw). pose proof (wf_length _ Hw).
    unfold entry_valid, is_u64. unfold a_log, al_last in *. lia.
Qed.

Section Walk.
Context (members : gset NodeID) (i : NodeID) (nt : list Envelope) (bound : Index) (a0 : anode).

Inductive walk : anode -> list Envelope -> Prop :=
  | walk_start : fits bound a0 -> walk a0 []
  | walk_step a ms a' ms' : walk a ms -> lstep members i nt a a' ms' -> fits bound a' -> walk a' (ms ++ ms').

Lemma walk_fits a ms : walk a ms -> fits bound a.
Proof. now destruct 1. Qed.
Lemma walk_lsteps a ms : walk a ms -> lsteps members i nt a0 a ms.
Proof. induction 1 as [|a ms a' ms' _ IH Hs _]; [constructor|]. eapply ls_trans; [exact IH|]. now apply ls_one. Qed.
Lemma walk_wire a ms : walk a ms -> Forall (wire_ok bound) ms.
Proof.
  induction 1 as [|a ms a' ms' Hw IH Hs _]; [constructor|]. apply Forall_app. split; [exact IH|].
  apply walk_fits in Hw. destruct Hs; repeat constructor; eapply sendable_wire; eauto.
Qed.
End Walk.

(** ** Nodes on a walk *)
Section Refine.
Context {E S T G : Type} `{EngineReads E} `{State S} `{Channel T} `{Rng G}.
Context {BE : Bincode entry_valid} {BT : Bincode term_vote_valid} {BC : Bincode is_u64_pair} {LS : LogStore E}.
Abbreviation RawNode := (RawNode E S T G).
Abbreviation Node := (Node E S T G).
Abbreviation stepped := (stepped E S T G).

Context (members : gset NodeID) (i : NodeID) (Hmem : i ∈ members) (Hu8 : 0 <= i <= u8_max).
Context (nt : list Envelope) (bound : Index) (Hbound : 2 * bound < u64_max).
Context (a0 : anode) (s0 : list Envelope).
Abbreviation walk := (walk members i nt bound a0).
Abbreviation lstep := (lstep members i nt).

(** How a role shows in the abstract node. *)
Definition as_follower {R} (r : R) (a : anode) : Prop := an_role a = AFollower.
Definition as_candidate (r : Candidate) (a : anode) : Prop := an_role a = ACandidate (votes r).
Record as_leader (r : Leader) (a : anode) : Prop := {
  al_role : an_role a = ALeader (match_index <$> progress r);
  al_dom : dom (progress r) = members ∖ {[i]};
  al_progress id p : progress r !! id = Some p -> progress_ok (llen (a_log a)) p;
}.

(** The node has walked to [a] and sent the messages of the walk. *)
Record tracks {R} (view : R -> anode -> Prop) (n : RawNode R) (a : anode) : Prop := {
  tk_id : node_id n = i;
  tk_peers : peers n = members ∖ {[i]};
  tk_held : stored (log n) (an a);
  tk_walk : exists ms, walk a ms /\ channel_sent (tx n) = s0 ++ ms;
  tk_role : view (role n) a;
}.

Lemma tk_log {R} view (n : RawNode R) a : tracks view n a -> log_rep (log n) (an a).
Proof. intros Ht. apply held_rep, (tk_held _ _ _ Ht). Qed.
Lemma tracks_fits {R} view (n : RawNode R) a : tracks view n a -> fits bound a.
Proof. intros Ht. destruct (tk_walk _ _ _ Ht) as (ms & Hw & _). eapply walk_fits; eauto. Qed.
Lemma tracks_wf {R} view (n : RawNode R) a : tracks view n a -> al_wf (an a).
Proof. intros Ht. apply (tracks_fits _ _ _ Ht). Qed.
Lemma tracks_term {R} view (n : RawNode R) a : tracks view n a -> node_term n = a_term a.
Proof. intros Ht. exact (lr_term _ _ (tk_log _ _ _ Ht)). Qed.

Lemma tracks_same {R Q} view view' (n : RawNode R) (n' : RawNode Q) a :
  node_id n' = node_id n -> peers n' = peers n -> log n' = log n -> tx n' = tx n -> view' (role n') a ->
  tracks view n a -> tracks view' n' a.
Proof. intros E1 E2 E3 E4 Hv [T1 T2 T3 T4 _]. split; rewrite ?E1, ?E2, ?E3, ?E4; assumption. Qed.
Lemma tracks_into {R Q} view (view' : Q -> anode -> Prop) (n : RawNode R) r a :
  view' r a -> tracks view n a -> tracks view' (into_role r n) a.
Proof. intros Hv. now apply tracks_same. Qed.

(** A step of the abstract node with a change of the log alone. *)
Lemma tracks_step {R Q} view (view' : Q -> anode -> Prop) (n : RawNode R) (n' : RawNode Q) a a' :
  lstep a a' [] -> al_wf (an a') -> llen (a_log a') <= bound ->
  node_id n' = node_id n -> peers n' = peers n -> stored (log n') (an a') -> tx n' = tx n -> view' (role n') a' ->
  tracks view n a -> tracks view' n' a'.
Proof.
  intros Hs Hw Hl E1 E2 Hr E4 Hv [T1 T2 T3 (ms & Hms & Ht) _]. split; rewrite ?E1, ?E2, ?E4; [assumption..| |assumption].
  exists (ms ++ []). split; [|now rewrite app_nil_r]. eapply walk_step; [exact Hms|exact Hs|]. now split.
Qed.

(** What a failure leaves: a log, and the messages sent. *)
Definition fell (d : RawNode unit) : Prop := exists a, tracks as_follower d a.

Lemma tracks_fell {R} view (n : RawNode R) a : tracks view n a -> fell (into_role tt n).
Proof.
  intros Ht. pose proof (tracks_fits _ _ _ Ht) as [Hw Hl]. exists (mkAnode (an a) AFollower).
  eapply (tracks_step view); [apply l_drop|exact Hw|exact Hl|reflexivity|reflexivity| |reflexivity|reflexivity|exact Ht].
  exact (tk_held _ _ _ Ht).
Qed.

(** ** Sending *)
Lemma tracks_send_via {R} view (n : RawNode R) a to m :
  tracks view n a -> sendable nt a to m -> tracks view (send_via (mkEnvelope i (a_term a) to m) n).2 a.
Proof.
  intros Ht Hs. unfold send_via, with_tx. set (e := mkEnvelope _ _ _ _).
  destruct (channel_send_spec e (tx n)) as [(t & -> & Hsent)|(er & ->)]; cbn [snd].
  2: { now apply (tracks_same view view n); [..|apply Ht|exact Ht]. }
  pose proof (tracks_fits _ _ _ Ht) as Hf. destruct Ht as [T1 T2 T3 (ms & Hms & Htx) T5]. split; cbn; [assumption..| |assumption].
  exists (ms ++ [e]). split; [eapply walk_step; [exact Hms|now apply l_send|exact Hf]|]. rewrite Hsent, Htx. now rewrite app_assoc.
Qed.
Lemma tracks_send {R} view (n : RawNode R) a to m :
  tracks view n a -> sendable nt a to m -> tracks view (send to m n).2 a.
Proof.
  intros Ht Hs. unfold send. rewrite (tk_id _ _ _ Ht), (tracks_term _ _ _ Ht). now apply tracks_send_via.
Qed.

(** Messages anyone may send at any time. *)
Definition idle (m : Message) : Prop :=
  match m with
  | CampaignResponse v => v = false
  | HeartbeatResponse v _ | AppendResponse v _ => v = 0
  | MRead _ | ReadResponse _ | ClientRequest _ _ | ClientResponse _ _ => True
  | _ => False
  end.
Lemma idle_sendable m a to : idle m -> sendable nt a to m.
Proof. destruct m; cbn; try tauto; intros ->; [discriminate|now left..]. Qed.

(** ** Computations that stay at the abstract node *)
Section Still.
Context {R : Type} (view : R -> anode -> Prop) (t : Term).

Definition still (n n' : RawNode R) : Prop := forall a, a_term a = t -> tracks view n a -> tracks view n' a.
#[export] Instance still_preorder : PreOrder still.
Proof. split; [now intros n a _|]. intros n1 n2 n3 H12 H23 a Ha Ht. auto. Qed.

Lemma still_same n n' :
  node_id n' = node_id n -> peers n' = peers n -> log n' = log n -> tx n' = tx n -> role n' = role n -> still n n'.
Proof. intros E1 E2 E3 E4 E5 a _ Ht. eapply tracks_same; eauto. rewrite E5. apply Ht. Qed.

Lemma still_with_state {A} (m : stM S A) : respects still (with_state m).
Proof. intros n. unfold with_state. destruct (m (state n)). now apply still_same. Qed.
Lemma still_timeout : respects still random_election_timeout.
Proof. intros n. unfold random_election_timeout, with_rng. destruct (random_range _ _). now apply still_same. Qed.
Lemma still_send to m : idle m -> respects still (send to m).
Proof. intros Hm n a _ Ht. apply tracks_send; [exact Ht|]. now apply idle_sendable. Qed.
Lemma still_send_via (n : RawNode R) to m : idle m -> still n (send_via (mkEnvelope (node_id n) t to m) n).2.
Proof. intros Hm a Ha Ht. rewrite (tk_id _ _ _ Ht), <- Ha. apply tracks_send_via; [exact Ht|]. now apply idle_sendable. Qed.
Lemma still_broadcast m : idle m -> respects still (broadcast m).
Proof. intros Hm. unfold broadcast. respects_at n. apply respects_iter; [typeclasses eauto|]. intros x. now apply still_send. Qed.
Lemma still_role f : (forall r a, view r a -> view (f r) a) -> respects still (update_role f).
Proof. intros Hf n a _ Ht. apply (tracks_into view); [apply Hf, Ht|exact Ht]. Qed.
Lemma still_respond {A} (r : outcome A) f k :
  (forall resp, respects still (k resp)) -> respects still (to_response r f k).
Proof. intros Hk. unfold to_response. destruct r; [apply Hk..|]. apply respects_panic. typeclasses eauto. Qed.
End Still.

#[local] Hint Resolve still_with_state still_timeout still_send still_broadcast still_respond : respects.
#[local] Hint Extern 1 (idle _) => (reflexivity || exact I) : respects.

Abbreviation fstill := (still (R := Follower) as_follower).
Lemma still_frole t f : respects (fstill t) (update_role f).
Proof. now apply still_role. Qed.
#[local] Hint Resolve still_frole : respects.

Lemma still_abort_forwarded t : respects (fstill t) abort_forwarded.
Proof. unfold abort_forwarded. respects_at n. solve_respects. Qed.
Lemma still_discard {R A} (view : R -> anode -> Prop) t (m : stM S A) :
  respects (still view t) (fun n => match with_state m n with (Panic p, n') => (Panic p, n') | (_, n') => (Ok tt, n') end).
Proof. intros n. pose proof (still_with_state view t m n) as Hs. destruct (with_state m n) as [[]]; exact Hs. Qed.
Lemma still_maybe_apply t : respects (fstill t) maybe_apply.
Proof. unfold maybe_apply. solve_respects. apply still_discard. Qed.
#[local] Hint Resolve still_abort_forwarded still_maybe_apply : respects.

(** ** Consuming methods *)
Lemma sat_still {R A B} view (m : stM (RawNode R) A) n a (k : A -> RawNode R -> stepped B) Good :
  tracks view n a -> still view (a_term a) n (m n).2 ->
  (forall x n', tracks view n' a -> sat Good fell (k x n')) -> sat Good fell (call m n k).
Proof.
  intros Ht Hm Hk. unfold call. specialize (Hm a eq_refl Ht).
  destruct (m n) as [[x|e|p] n']; cbn in *; [now apply Hk|..]; eapply tracks_fell; exact Hm.
Qed.
Lemma sat_tcheck {R B} view (b : bool) msg (n : RawNode R) a (k : stepped B) Good :
  tracks view n a -> (b = true -> sat Good fell k) -> sat Good fell (check b msg n k).
Proof. intros Ht. apply sat_check. eapply tracks_fell; exact Ht. Qed.
Lemma sat_read {R A B} view (f : RawNode R -> outcome A) n a (k : A -> RawNode R -> stepped B) Good :
  tracks view n a -> (forall x, f n = Ok x -> sat Good fell (k x n)) -> sat Good fell (call (st_read f) n k).
Proof.
  intros Ht Hk. unfold call, st_read. destruct (f n) as [x|e|p] eqn:Ef; cbn; [now apply Hk|..]; eapply tracks_fell; exact Ht.
Qed.
Lemma sat_tsend {R B} view n a to m (k : unit -> RawNode R -> stepped B) Good :
  tracks view n a -> sendable nt a to m -> (forall n', tracks view n' a -> sat Good fell (k tt n')) ->
  sat Good fell (call (send to m) n k).
Proof.
  intros Ht Hs Hk. unfold call. pose proof (tracks_send view n a to m Ht Hs) as Hn.
  destruct (send to m n) as [[[]|e|p] n']; cbn in *; [now apply Hk|..]; eapply tracks_fell; exact Hn.
Qed.

Ltac tstep :=
  match goal with
  | |- sat _ _ (call _ _ _) => eapply sat_still; [eassumption|solve [by_respects; solve_respects]|intros ? ? ?]
  | |- sat _ _ (check _ _ _ _) => eapply sat_tcheck; [eassumption|intros ?]
  end.

(** ** The log operations of a node *)

(** A log operation that implements an abstract one, or fails. *)
Lemma sat_log {R A B} view (m : stM (Log E) A) (r : outcome A) (R' : alog) n a a' (k : A -> RawNode R -> stepped B) Good :
  tracks view n a -> all_or_nothing stored (an a) (m (log n)) (r, R') ->
  (a' = a \/ lstep a a' [] /\ al_wf (an a') /\ llen (a_log a') <= bound) -> an a' = R' ->
  (forall x, r = Ok x -> forall n', role n' = role n -> tracks (fun _ _ => True) n' a' -> sat Good fell (k x n')) ->
  sat Good fell (call (with_log m) n k).
Proof.
  intros Ht Hm Ha Ea Hk. unfold call, with_log. destruct (m (log n)) as [r1 l'] eqn:Em. unfold all_or_nothing in Hm. cbn [fst snd] in Hm. set (n1 := mkNode _ _ l' _ _ _ _ _).
  destruct Hm as [[-> Hl]|[[e ->] Hl]].
  2: { apply (tracks_fell (fun _ _ => True) n1 a). destruct Ht as [T1 T2 T3 T4 T5]. now split. }
  assert (tracks (fun _ _ => True) n1 a') as Hn1.
  { destruct Ha as [->|(Hs & Hw & Hlen)].
    - destruct Ht as [T1 T2 T3 T4 T5]. split; cbn; auto. now rewrite Ea.
    - eapply (tracks_step view _ n); [exact Hs|exact Hw|exact Hlen|reflexivity|reflexivity|cbn; now rewrite Ea|reflexivity|exact I|exact Ht]. }
  destruct r as [x|e|p]; [now apply Hk|..]; eapply tracks_fell; exact Hn1.
Qed.

Lemma tracks_view {R} view (view' : R -> anode -> Prop) n a : tracks view n a -> view' (role n) a -> tracks view' n a.
Proof. intros [T1 T2 T3 T4 _] Hv. now split. Qed.

(** A new term, without a vote. *)
Definition a_set_term (t : Term) (a : anode) : anode := mkAnode (mkAlog (a_log a) t None (a_commit a)) AFollower.

Lemma sat_set_term {R B} view n a t (k : unit -> RawNode R -> stepped B) Good :
  tracks view n a -> is_u64 t -> t <> a_term a ->
  (forall n', tracks as_follower n' (a_set_term t a) -> sat Good fell (k tt n')) ->
  sat Good fell (call (with_log (set_term_vote t None)) n k).
Proof.
  intros Ht Hu Hne Hk. pose proof (tracks_fits _ _ _ Ht) as [Hw Hl].
  pose proof (held_set_term_vote (log n) (an a) t None (tk_held _ _ _ Ht) Hw (conj Hu I)) as Em.
  destruct (al_set_term_vote t None (an a)) as [r R'] eqn:Ea. destruct (al_set_term_vote_ok t None (an a) r R' Hw (conj Hu I) Ea) as [Hw' _].
  cbn [fst snd] in *. unfold al_set_term_vote in Ea.
  assert (R' = an a /\ (forall x, r <> Ok x) \/ R' = an (a_set_term t a) /\ a_term a < t) as [[-> Hno]|[-> Hlt]].
  { destruct (0 <? t); cbn [negb] in Ea; [|inv Ea; left; split; congruence].
    destruct (Z.leb_spec (al_term (an a)) t); cbn [negb] in Ea; [|inv Ea; left; split; congruence].
    destruct (_ || _)%bool; cbn [negb] in Ea; inv Ea; [right|left; split; congruence].
    split; [reflexivity|]. unfold a_term in *. lia. }
  - eapply (sat_log view _ r (an a) n a a); eauto. intros x F. now apply Hno in F.
  - eapply (sat_log view _ r _ n a (a_set_term t a)); eauto.
    + right. split; [now apply l_term|]. split; [exact Hw'|exact Hl].
    + intros [] _ n' _ Hn'. apply Hk. now apply (tracks_view _ _ _ _ Hn').
Qed.

(** ** Followers *)
Lemma follower_into_follower_tracks t l n a :
  is_u64 t -> tracks as_follower n a -> (l = None -> t <> a_term a) ->
  sat (fun n' => tracks as_follower n' (match l with Some _ => a | None => a_set_term t a end)) fell (follower_into_follower t l n).
Proof.
  intros Hu Ht Hne. unfold follower_into_follower. do 2 tstep. destruct l as [l|].
  - do 3 tstep. cbn. eapply tracks_into; [|eassumption]. apply Ht.
  - tstep. eapply sat_set_term; [eassumption|exact Hu|auto|]. intros n1 Hn1. tstep. cbn. eapply tracks_into; [|eassumption]. reflexivity.
Qed.

Lemma ensure_leader_tracks msg n a :
  is_u64 (env_term msg) -> tracks as_follower n a -> sat (fun n' => tracks as_follower n' a) fell (ensure_leader msg n).
Proof.
  intros Hu Ht. unfold ensure_leader. destruct (leader (role n)); [tstep; exact Ht|].
  now apply (follower_into_follower_tracks _ (Some _)).
Qed.

Lemma term_at_has es j t : match entry_at es j with Some e => term e =? t | None => false end = true -> term_at es j = t /\ 1 <= j <= llen es.
Proof.
  unfold term_at. destruct (entry_at es j) as [e|] eqn:Ee; [|discriminate]. intros ->%Z.eqb_eq. split; [reflexivity|].
  apply entry_at_range. eauto.
Qed.

Section Message.
Context (msg : Envelope) (a : anode).
(** A delivered message of the node's term. *)
Context (Hin : msg ∈ nt) (Hwire : wire_ok bound msg) (Hterm : env_term msg = a_term a) (Hrole : an_role a = AFollower).

Definition settled (n : RawNode Follower) : Prop := exists a', tracks as_follower n a'.

Lemma commit_tracks ci li s n (k : Index -> RawNode Follower -> stepped (RawNode Follower)) Good :
  env_message msg = Heartbeat li ci s -> term_at (a_log a) li = a_term a -> a_commit a < ci -> 
  tracks as_follower n a -> (forall x n', settled n' -> sat Good fell (k x n')) ->
  sat Good fell (call (with_log (commit ci)) n k).
Proof.
  intros Hm Hli Hci Ht Hk. pose proof (tracks_fits _ _ _ Ht) as [Hw Hl].
  assert (is_u64 ci) as Hu by (destruct Hwire as [_ Hx]; rewrite Hm in Hx; unfold is_u64; lia).
  pose proof (held_commit (log n) (an a) ci (tk_held _ _ _ Ht) Hw Hu) as Em.
  destruct (al_commit_to ci (an a)) as [r R'] eqn:Ea. destruct (al_commit_to_ok ci (an a) r R' Hw Ea) as [Hw' _]. cbn [fst snd] in *.
  set (a' := mkAnode (mkAlog (a_log a) (a_term a) (a_vote a) ci) (an_role a)).
  assert (R' = an a /\ (forall x, r <> Ok x) \/ R' = an a') as [[-> Hno]| ->].
  { unfold al_commit_to in Ea. repeat case_match; inv Ea; auto; left; split; congruence. }
  - eapply (sat_log as_follower _ r (an a) n a a); eauto. intros x F. now apply Hno in F.
  - eapply (sat_log as_follower _ r _ n a a'); eauto.
    + right. split; [eapply l_follow; eauto|]. split; [exact Hw'|exact Hl].
    + intros x _ n' _ Hn'. apply Hk. exists a'. now apply (tracks_view _ _ _ _ Hn').
Qed.

Lemma follower_heartbeat_tracks li ci s n :
  env_message msg = Heartbeat li ci s -> tracks as_follower n a -> sat settled fell (follower_heartbeat msg li ci s n).
Proof.
  intros Hm Ht. unfold follower_heartbeat. tstep.
  eapply sat_then; [apply (ensure_leader_tracks msg n a); [apply Hwire|exact Ht]|]. cbv beta. clear n Ht. intros n Ht.
  pose proof (tracks_wf _ _ _ Ht) as Hw. destruct Hwire as [Hu Hx]. rewrite Hm in Hx.
  eapply sat_read; [exact Ht|]. intros b Hb. rewrite (has_spec _ _ _ _ (tk_log _ _ _ Ht) Hw) in Hb by (unfold is_u64; lia).
  injection Hb as <-. cbv zeta. destruct (al_has li (env_term msg) (an a)) eqn:Hhas.
  2: { eapply sat_tsend; [exact Ht|now left|]. intros n' Hn'. cbn [negb Z.eqb andb]. now exists a. }
  apply term_at_has in Hhas as [Hli Hr]. rewrite Hterm in Hli.
  eapply sat_tsend; [exact Ht|right; exists msg, ci, s; rewrite Hterm; auto|]. intros n' Hn'.
  destruct (Z.eqb_spec li 0); [lia|]. cbn [negb andb]. unfold get_commit_index. rewrite (lr_commit _ _ (tk_log _ _ _ Hn')). cbn [fst].
  destruct (Z.ltb_spec (al_commit (an a)) ci) as [Hc|]; [|now exists a].
  eapply commit_tracks; [exact Hm|exact Hli|exact Hc|exact Hn'|]. intros x n2 [a2 Ha2]. tstep. now exists a2.
Qed.
(** Splicing the entries of an Append message whose base was found. *)
Lemma splice_tracks b bt es n (k : Index -> RawNode Follower -> stepped (RawNode Follower)) Good :
  env_message msg = Append b bt es -> (forall first, head es = Some first -> index first = b + 1) ->
  base_ok (a_log a) b bt -> tracks as_follower n a ->
  (forall x n' a', tracks as_follower n' a' -> a_term a' = a_term a -> base_ok (a_log a') b bt -> slice (a_log a') b es ->
     (forall e, last es = Some e -> index e = b + llen es) -> sat Good fell (k x n')) ->
  sat Good fell (call (with_log (splice es)) n k).
Proof.
  intros Hm Hfirst Hb Ht Hk. pose proof (tracks_fits _ _ _ Ht) as [Hw Hl]. destruct Hwire as [_ Hx]. rewrite Hm in Hx.
  destruct Hx as (Hb0 & Hbe & Hv). assert (al_last (an a) + llen es < u64_max) as Hmax by (unfold a_log, llen, al_last in *; lia).
  pose proof (held_splice (log n) (an a) es (tk_held _ _ _ Ht) Hw Hv Hmax) as Em.
  destruct (al_splice es (an a)) as [r R'] eqn:Ea. cbn [fst snd] in *.
  destruct r as [x|e|p]; [|pose proof (al_splice_stuck _ _ _ _ Ea) as E0; cbn in E0; subst R'..].
  2: { eapply (sat_log as_follower _ (Err e) (an a) n a a); eauto. discriminate. }
  2: { eapply (sat_log as_follower _ (Panic p) (an a) n a a); eauto. discriminate. }
  assert (forall e, last es = Some e -> index e = b + llen es) as Hlast.
  { intros e He. destruct (head es) as [first|] eqn:Hh; [|destruct es; discriminate].
    destruct (al_splice_inv es (an a) x R' first Hw Hv Hmax Hh Ea) as (_ & Hidx & _).
    rewrite (indexed_last _ _ _ Hidx He), (Hfirst first eq_refl). unfold llen. lia. }
  destruct (al_splice_at es (an a) x R' b Hw Hv Hmax Hb0 Hfirst Ea) as [[-> Hs]|[-> (p & Hp & Hc & Hconf & Hsame)]].
  { eapply (sat_log as_follower _ (Ok x) (an a) n a a); eauto. intros y [= <-] n' Hrn Hn'. apply (Hk x n' a); auto.
    now apply (tracks_view _ _ _ _ Hn'). }
  set (new := upto b (al_entries (an a)) ++ es) in *. set (a' := mkAnode (mkAlog new (a_term a) (a_vote a) (a_commit a)) AFollower).
  assert (0 <= b <= llen (a_log a)) as Hbl by (destruct Hb as [->|[? _]]; unfold llen in *; lia).
  assert (llen (upto b (al_entries (an a))) = b) as Hbu by (apply upto_length; exact Hbl).
  destruct (spliced_ok es (an a) _ x Hw Hmax (al_splice_ok _ _ _ _ Hw Hv Hmax Ea)) as [Hw' _].
  eapply (sat_log as_follower _ (Ok x) _ n a a'); eauto.
  - right. split; [eapply l_splice; eauto|]. split; [exact Hw'|].
    change (a_log a') with new. unfold new, llen in *. rewrite length_app. lia.
  - intros y [= <-] n' Hrn Hn'. apply (Hk x n' a'); auto; [now apply (tracks_view _ _ _ _ Hn')|..].
    + change (a_log a') with new. destruct Hb as [->|[Hb1 Hb2]]; [now left|right]. split; [unfold new, llen in *; rewrite length_app; lia|].
      rewrite <- Hb2. unfold new, a_log. rewrite (term_at_prefix b (upto b (al_entries (an a)))) by (try (now exists es); lia).
      unfold term_at. now rewrite entry_at_upto.
    + change (a_log a') with new. split; [lia|]. unfold new. rewrite drop_app_length'; [apply take_ge; reflexivity|]. unfold llen in *. lia.
Qed.

Lemma follower_append_tracks b bt es n :
  env_message msg = Append b bt es -> tracks as_follower n a -> sat settled fell (follower_append msg b bt es n).
Proof.
  intros Hm Ht. unfold follower_append. eapply sat_tcheck; [exact Ht|]. intros Hfirst.
  destruct Hwire as [Hu Hx]. rewrite Hm in Hx. destruct Hx as (Hb0 & Hbe & Hv).
  assert (forall first, head es = Some first -> index first = b + 1) as Hf.
  { intros first Hh. rewrite Hh in Hfirst. apply Z.eqb_eq in Hfirst. destruct es as [|e es]; [discriminate|]. injection Hh as ->.
    apply Forall_cons in Hv as [[Hi1 _] _]. unfold llen in *. cbn [length] in *.
    destruct (Z.eq_dec (index first) 0) as [E0|].
    - rewrite E0 in Hfirst. assert (u64 (0 - 1) = u64_max) as F by reflexivity. rewrite F in Hfirst. lia.
    - rewrite u64_small in Hfirst by (unfold is_u64 in *; lia). lia. }
  eapply sat_then; [apply (ensure_leader_tracks msg n a); [exact Hu|exact Ht]|]. cbv beta. clear n Ht. intros n Ht.
  pose proof (tracks_wf _ _ _ Ht) as Hw.
  eapply sat_read; [exact Ht|]. intros m Hb.
  assert (m = true -> base_ok (a_log a) b bt) as Hbase.
  { intros ->. destruct (Z.eqb_spec b 0) as [->|Hne]; [now left|right].
    rewrite (has_spec _ _ _ _ (tk_log _ _ _ Ht) Hw) in Hb by (unfold is_u64, llen in *; lia). injection Hb as Hhas.
    apply term_at_has in Hhas as [? ?]. auto. }
  destruct m; cbv zeta; [|eapply sat_tsend; [exact Ht|now left|]; intros n' Hn'; now exists a].
  specialize (Hbase eq_refl). eapply splice_tracks; [exact Hm|exact Hf|exact Hbase|exact Ht|].
  intros x n' a' Hn' Ht' Hb' Hs' Hl'. eapply sat_tsend; [exact Hn'| |intros n2 Hn2; now exists a'].
  right. exists msg, b, bt, es. rewrite Ht'. do 3 (split; [assumption|]). split; [|auto].
  destruct (last es) as [e|] eqn:El; [now apply Hl'|]. apply last_None in El as ->. unfold llen. cbn. lia.
Qed.

Lemma follower_campaign_tracks li lt n :
  env_message msg = Campaign li lt -> 0 <= env_from msg <= u8_max -> tracks as_follower n a ->
  sat settled fell (follower_campaign msg li lt n).
Proof.
  intros Hm Hfrom Ht. unfold follower_campaign. pose proof (tracks_fits _ _ _ Ht) as [Hw Hl]. pose proof (tk_log _ _ _ Ht) as Hr.
  unfold get_term_vote, get_last_index. cbn [snd]. rewrite (lr_vote _ _ Hr), (lr_last _ _ Hr), (lr_last_term _ _ Hr).
  destruct (match al_vote (an a) with Some v => negb (env_from msg =? v) | None => false end) eqn:Hvote.
  { eapply sat_tsend; [exact Ht|now apply idle_sendable|]. intros n' Hn'. now exists a. }
  destruct (_ || _)%bool eqn:Hup. { eapply sat_tsend; [exact Ht|now apply idle_sendable|]. intros n' Hn'. now exists a. }
  assert (term_vote_valid (env_term msg, Some (env_from msg))) as Hv by (split; [apply Hwire|exact Hfrom]).
  pose proof (held_set_term_vote (log n) (an a) _ _ (tk_held _ _ _ Ht) Hw Hv) as Em.
  destruct (al_set_term_vote (env_term msg) (Some (env_from msg)) (an a)) as [r R'] eqn:Ea.
  destruct (al_set_term_vote_ok _ _ (an a) r R' Hw Hv Ea) as [Hw' _]. cbn [fst snd] in *.
  set (a' := mkAnode (mkAlog (a_log a) (a_term a) (Some (env_from msg)) (a_commit a)) AFollower).
  assert (R' = an a /\ (forall x, r <> Ok x) \/ R' = an a') as [[-> Hno]| ->].
  { unfold al_set_term_vote in Ea. rewrite Hterm in Ea. repeat case_match; inv Ea; auto; left; split; congruence. }
  { eapply (sat_log as_follower _ r (an a) n a a); eauto. intros x F. now apply Hno in F. }
  eapply (sat_log as_follower _ r _ n a a'); eauto.
  - destruct (al_vote (an a)) as [v|] eqn:Ev.
    + left. destruct (Z.eqb_spec (env_from msg) v) as [Hv'|]; [|discriminate]. unfold a'. rewrite Hv', <- Ev, <- Hrole.
      destruct a as [R0 r0]. unfold a_log, a_term, a_commit. cbn. now destruct R0.
    + right. split; [|split; [exact Hw'|exact Hl]]. eapply l_vote; eauto.
      change (al_entries (an a)) with (a_log a) in Hup. unfold up_to_date. change (al_last (an a)) with (llen (a_log a)) in Hup.
      apply orb_false_iff in Hup as [H1'%Z.ltb_ge H2']. apply andb_false_iff in H2' as [H2'%Z.eqb_neq|H2'%Z.ltb_ge]; lia.
  - intros x _ n' _ Hn'. eapply sat_tsend; [exact (tracks_view _ as_follower _ _ Hn' eq_refl)| |].
    + intros _. reflexivity.
    + intros n2 Hn2. now exists a'.
Qed.
End Message.

Lemma tracks_rerole {R Q} (n : RawNode R) (r : Q) a : tracks as_follower n a -> tracks as_follower (into_role r n) a.
Proof. intros Ht. apply (tracks_into as_follower as_follower n r a); [apply Ht|exact Ht]. Qed.

(** What is known of a message when it is delivered. *)
Definition inbound (msg : Envelope) : Prop :=
  wire_ok bound msg /\ 0 <= env_from msg <= u8_max /\ (msg ∈ nt \/ exists q r, env_message msg = ClientRequest q r).

Lemma follower_client_tracks msg id n a :
  idle (env_message msg) -> tracks as_follower n a -> sat settled fell (follower_client_request msg id n).
Proof.
  intros Hid Ht. unfold follower_client_request. tstep. destruct (leader (role n)); cbv zeta.
  - eapply sat_tsend; [apply tracks_rerole; exact Ht|now apply idle_sendable|]. intros n' Hn'. now exists a.
  - eapply sat_tsend; [exact Ht|exact I|]. intros n' Hn'. now exists a.
Qed.

Lemma follower_response_tracks msg id resp n a :
  tracks as_follower n a -> sat settled fell (follower_client_response msg id resp n).
Proof.
  intros Ht. unfold follower_client_response. tstep. cbv zeta. destruct (bool_decide (id ∈ _)); [|now exists a].
  eapply sat_tsend; [apply tracks_rerole; exact Ht|exact I|]. intros n' Hn'. now exists a.
Qed.

Lemma follower_handle_tracks msg n a :
  inbound msg -> env_term msg = a_term a -> tracks as_follower n a -> sat settled fell (follower_handle msg n).
Proof.
  intros (Hw & Hf & Hin) Hterm Ht. unfold follower_handle. cbv zeta. set (n1 := if bool_decide _ then _ else n).
  assert (tracks as_follower n1 a) as Hn1
    by (unfold n1; destruct (bool_decide _); [now apply tracks_rerole|exact Ht]).
  clearbody n1. pose proof (tk_role _ _ _ Hn1) as Hr. unfold as_follower in Hr.
  destruct (env_message msg) as [li lt|v|li ci s|v s|b bt es|v j|s|s|q rq|q rs] eqn:Em;
    try (assert (msg ∈ nt) as Hmsg by (destruct Hin as [?|(? & ? & F)]; [assumption|congruence]));
    try (eapply tracks_fell; exact Hn1).
  - now apply (follower_campaign_tracks msg a).
  - now exists a.
  - now apply (follower_heartbeat_tracks msg a).
  - now apply (follower_append_tracks msg a).
  - eapply sat_then; [apply (ensure_leader_tracks msg n1 a); [apply Hw|exact Hn1]|]. cbv beta. intros n2 Hn2.
    eapply sat_tsend; [exact Hn2|exact I|]. intros n' Hn'. now exists a.
  - apply (follower_client_tracks _ _ _ a); [now rewrite Em|exact Hn1].
  - now apply (follower_response_tracks _ _ _ _ a).
Qed.

Definition follows_on (N : Node) : Prop := exists n, N = NFollower n /\ settled n.

Lemma follower_step_tracks msg n a : inbound msg -> tracks as_follower n a -> sat follows_on fell (follower_step msg n).
Proof.
  intros Hm Ht. unfold follower_step. cbn [follower_step_n]. rewrite (tracks_term _ _ _ Ht).
  assert (forall n a, tracks as_follower n a -> a_term a = env_term msg ->
    sat follows_on fell (and_then (follower_handle msg n) (fun n' => Done (NFollower n')))) as Hgo.
  { clear n a Ht. intros n a Ht Hterm. eapply sat_then; [apply (follower_handle_tracks msg n a); auto|].
    intros n' Hn'. exists n'. auto. }
  destruct (Z.ltb_spec (env_term msg) (a_term a)); [exists n; split; [reflexivity|now exists a]|].
  destruct (Z.ltb_spec (a_term a) (env_term msg)); [|apply (Hgo n a); [exact Ht|lia]].
  eapply sat_then; [apply (follower_into_follower_tracks _ None n a); [apply Hm|exact Ht|lia]|]. cbv beta iota. intros n' Hn'.
  rewrite (tracks_term _ _ _ Hn'). change (a_term (a_set_term (env_term msg) a)) with (env_term msg).
  destruct (Z.ltb_spec (env_term msg) (env_term msg)); [lia|]. now apply (Hgo n' (a_set_term (env_term msg) a)).
Qed.

(** ** Candidates *)
Lemma set_vote_self {R B} view n a t (k : unit -> RawNode R -> stepped B) Good :
  tracks view n a -> t = u64_add (a_term a) 1 ->
  (forall n', role n' = role n -> a_term a < t ->
     tracks (fun _ _ => True) n' (mkAnode (mkAlog (a_log a) t (Some i) (a_commit a)) (ACandidate {[i]})) -> sat Good fell (k tt n')) ->
  sat Good fell (call (with_log (set_term_vote t (Some i))) n k).
Proof.
  intros Ht Et Hk. pose proof (tracks_fits _ _ _ Ht) as [Hw Hl].
  assert (term_vote_valid (t, Some i)) as Hv by (split; [rewrite Et; apply u64_range|exact Hu8]).
  pose proof (held_set_term_vote (log n) (an a) t (Some i) (tk_held _ _ _ Ht) Hw Hv) as Em.
  destruct (al_set_term_vote t (Some i) (an a)) as [r R'] eqn:Ea.
  destruct (al_set_term_vote_ok _ _ (an a) r R' Hw Hv Ea) as [Hw' _]. cbn [fst snd] in *.
  set (a' := mkAnode (mkAlog (a_log a) t (Some i) (a_commit a)) (ACandidate {[i]})) in *.
  assert (R' = an a /\ (forall x, r <> Ok x) \/ R' = an a' /\ a_term a < t) as [[-> Hno]|[-> Hlt]].
  { unfold al_set_term_vote in Ea. destruct (Z.ltb_spec 0 t); cbn [negb] in Ea; [|inv Ea; left; split; congruence].
    destruct (Z.leb_spec (al_term (an a)) t); cbn [negb] in Ea; [|inv Ea; left; split; congruence].
    destruct (_ || _)%bool; cbn [negb] in Ea; inv Ea; [right|left; split; congruence].
    split; [reflexivity|]. pose proof (wf_term _ Hw) as Hwt. unfold a_term in *.
    destruct (Z.eq_dec (al_term (an a)) u64_max) as [Hmax|]; [|rewrite u64_add_small by (unfold is_u64; lia); lia].
    rewrite Hmax in *. assert (u64_add u64_max 1 = 0) as F by reflexivity. lia. }
  { eapply (sat_log view _ r (an a) n a a); eauto. intros x F. now apply Hno in F. }
  eapply (sat_log view _ r _ n a a'); eauto.
  - right. split; [now apply l_campaign|]. split; [exact Hw'|exact Hl].
  - intros [] _ n' Hrn Hn'. auto.
Qed.

Section Hold.
Context {R : Type} (view : R -> anode -> Prop) (a : anode).
Definition hold (n n' : RawNode R) : Prop := tracks view n a -> tracks view n' a.
#[export] Instance hold_preorder : PreOrder hold.
Proof. split; [now intros n F|]. intros n1 n2 n3 H12 H23 Ht. auto. Qed.

Lemma tracks_broadcast n m : (forall to, sendable nt a to m) -> tracks view n a -> tracks view (broadcast m n).2 a.
Proof.
  intros Hm. change (hold n (broadcast m n).2). revert n. change (respects hold (broadcast m)). unfold broadcast. respects_at n.
  apply respects_iter; [typeclasses eauto|]. intros to n' Ht. now apply tracks_send.
Qed.
End Hold.

Definition candidates_on (n : RawNode Candidate) : Prop := exists a, tracks as_candidate n a.

Lemma sat_campaign_tracks {B} view n a (k : unit -> RawNode Candidate -> stepped B) Good :
  tracks view n a -> (forall n' a', tracks as_candidate n' a' -> a_log a' = a_log a -> sat Good fell (k tt n')) ->
  sat Good fell (call campaign n k).
Proof.
  intros Ht Hk. apply (tracks_view _ (fun _ _ => True)) in Ht; [|exact I].
  erewrite (call_at campaign _ n); [|cbv beta delta [campaign]; reflexivity].
  rewrite call_bind. eapply sat_still; [exact Ht|apply still_timeout|]. intros timeout n1 Hn1.
  rewrite call_bind. cbn [call update_role st_modify]. rewrite call_bind.
  rewrite (tk_id _ _ _ Ht), (tracks_term _ _ _ Ht). set (n2 := into_role _ n1).
  assert (tracks (fun _ _ => True) n2 a) as Hn2 by (now eapply (tracks_into (fun _ _ => True) (fun _ _ => True))).
  eapply set_vote_self; [exact Hn2|reflexivity|]. intros n3 Hr3 Hlt Hn3.
  set (a3 := mkAnode _ (ACandidate _)) in Hn3.
  assert (tracks as_candidate n3 a3) as Hc3 by (apply (tracks_view _ _ _ _ Hn3); unfold as_candidate; rewrite Hr3; reflexivity).
  rewrite (call_at _ (broadcast (Campaign (last_index (log n3)) (last_term (log n3)))) n3) by reflexivity.
  rewrite (lr_last _ _ (tk_log _ _ _ Hc3)), (lr_last_term _ _ (tk_log _ _ _ Hc3)).
  match goal with |- context [broadcast ?m] => pose proof (tracks_broadcast as_candidate a3 n3 m) as Hb end.
  assert (tracks as_candidate (broadcast (Campaign (al_last (an a3)) (term_at (al_entries (an a3)) (al_last (an a3)))) n3).2 a3) as Hn4.
  { apply Hb; [|exact Hc3]. intros to. split; [eexists; reflexivity|]. split; reflexivity. }
  unfold call. destruct (broadcast _ n3) as [[[]|e|p] n4]; cbn in *; [now apply (Hk n4 a3)|..]; eapply tracks_fell; exact Hn4.
Qed.

Lemma follower_into_candidate_tracks n a :
  tracks as_follower n a ->
  sat (fun c => exists a', tracks as_candidate c a' /\ a_log a' = a_log a /\ i ∈ votes (role c)) fell (follower_into_candidate n).
Proof.
  intros Ht. unfold follower_into_candidate. do 3 tstep. cbv zeta.
  eapply (sat_campaign_tracks as_follower); [apply tracks_rerole; eassumption|]. intros c a' Hc Hlog.
  destruct (get_term_vote (log c)). eapply sat_tcheck; [exact Hc|]. intros Hself%bool_decide_eq_true. rewrite (tk_id _ _ _ Hc) in Hself.
  do 2 tstep. now exists a'.
Qed.

Lemma candidate_into_follower_tracks t l n a :
  is_u64 t -> tracks as_candidate n a -> sat settled fell (candidate_into_follower t l n).
Proof.
  intros Hu Ht. unfold candidate_into_follower. tstep. destruct l as [l|].
  - tstep. exists (mkAnode (an a) AFollower). pose proof (tracks_fits _ _ _ Ht) as [Hw Hl].
    eapply (tracks_step as_candidate as_follower); [apply l_drop|exact Hw|exact Hl|reflexivity|reflexivity| |reflexivity|reflexivity|eassumption].
    match goal with Hn : tracks as_candidate _ a |- _ => exact (tk_held _ _ _ Hn) end.
  - eapply sat_tcheck; [eassumption|]. intros Hne.
    match goal with Hn : tracks as_candidate ?n a |- _ => rewrite (tracks_term _ _ _ Hn) in Hne end.
    eapply sat_set_term; [eassumption|exact Hu|destruct (Z.eqb_spec t (a_term a)); [discriminate|assumption]|]. intros n2 Hn2.
    exists (a_set_term t a). now apply tracks_rerole.
Qed.

(** ** Leaders *)
Lemma tracks_leads n a : tracks as_leader n a -> leads n (an a).
Proof.
  intros Ht. pose proof (tracks_wf _ _ _ Ht) as Hw. destruct Ht as [T1 T2 T3 _ [R1 R2 R3]].
  split; [exact (held_rep _ _ T3)|exact Hw|congruence|exact R3].
Qed.

Abbreviation lstill := (still as_leader).
Lemma still_lrole t f : (forall r, progress (f r) = progress r) -> respects (lstill t) (update_role f).
Proof. intros Hf. apply still_role. intros r a [R1 R2 R3]. split; rewrite ?Hf; assumption. Qed.
#[local] Hint Extern 1 (respects (lstill _) (update_role _)) => (apply still_lrole; reflexivity) : respects.

Lemma still_get_progress t id : respects (lstill t) (get_progress id).
Proof. apply respects_same; [typeclasses eauto|]. intros n. unfold get_progress. now destruct (progress (role n) !! id). Qed.

Lemma as_leader_insert r a id p p' :
  progress r !! id = Some p -> match_index p' = match_index p -> progress_ok (llen (a_log a)) p' -> as_leader r a ->
  as_leader (mkLeader (<[id := p']> (progress r)) (writes r) (reads r) (l_read_seq r) (since_heartbeat r)) a.
Proof.
  intros Hp Hm Hok [R1 R2 R3]. split; cbn [progress].
  - rewrite R1. f_equal. rewrite fmap_insert, Hm. symmetry. apply insert_id. now rewrite lookup_fmap, Hp.
  - rewrite dom_insert_lookup_L by eauto. exact R2.
  - intros j q [[<- <-]|[_ Hj]]%lookup_insert_Some; [exact Hok|now apply (R3 j)].
Qed.

(** Progress updates that leave the match index. *)
Lemma still_update_progress t id f :
  (forall last p, last < u64_max -> progress_ok last p -> progress_ok last (f p).2) ->
  (forall p, match_index (f p).2 = match_index p) -> respects (lstill t) (update_progress id f).
Proof.
  intros Hf Hm n a Ha Ht. unfold update_progress, st_bind, get_progress.
  destruct (progress (role n) !! id) as [p|] eqn:Ep; [|exact Ht]. cbn.
  apply (tracks_into as_leader); [|exact Ht]. eapply as_leader_insert; [exact Ep|apply Hm| |apply Ht].
  apply Hf; [apply (wf_length _ (tracks_wf _ _ _ Ht))|]. apply (al_progress _ _ (tk_role _ _ _ Ht) id p Ep).
Qed.
Lemma still_advance_read t id s : respects (lstill t) (update_progress id (advance_read s)).
Proof. apply still_update_progress; [intros; now apply advance_read_ok|]. intros p. unfold advance_read. now destruct (_ <=? _). Qed.
Lemma still_regress t id x : respects (lstill t) (update_progress id (regress_next x)).
Proof. apply still_update_progress; [intros; now apply regress_next_ok|]. intros p. unfold regress_next. now destruct (_ || _)%bool. Qed.

Lemma append_plan_sendable a limit p probe m es to :
  al_wf (an a) -> is_leader a -> progress_ok (llen (a_log a)) p -> append_plan (an a) limit p probe = Some (m, es) -> sendable nt a to m.
Proof.
  intros Hw Hl [Hm Hn] Hp. unfold append_plan in Hp. destruct (match_index p =? al_last (an a)); [discriminate|].
  destruct ((al_last (an a) <? next_index p) && _)%bool; [discriminate|]. injection Hp as <- <-.
  split; [exact Hl|]. split; [lia|]. split; [reflexivity|]. split; [lia|]. destruct (probe && _)%bool; [reflexivity|].
  change (al_entries (an a)) with (a_log a). set (x := drop _ (a_log a)). rewrite length_take. apply list_eq. intros k.
  destruct (decide (k < limit `min` length x)%nat) as [Hk|Hk].
  - rewrite !lookup_take_lt by lia. reflexivity.
  - rewrite lookup_take_ge by lia. symmetry. destruct (decide (k < limit)%nat); [rewrite lookup_take_lt by lia; apply lookup_ge_None; lia|].
    apply lookup_take_ge. lia.
Qed.

Lemma still_maybe_send_append t id pr : respects (lstill t) (maybe_send_append id pr).
Proof.
  intros n a Ha Ht. pose proof (tracks_leads n a Ht) as Hl. destruct (progress (role n) !! id) as [p|] eqn:Ep.
  2: { unfold maybe_send_append, st_bind at 1, get_progress. rewrite Ep. exact Ht. }
  pose proof (ld_progress n _ Hl id p Ep) as Hp.
  rewrite (maybe_send_append_eq n _ id p pr (ld_log n _ Hl) (ld_wf n _ Hl) Ep Hp).
  destruct (append_plan (an a) (max_append_entries (opts n)) p pr) as [[m es]|] eqn:Eplan; [|exact Ht].
  apply tracks_send; [|eapply append_plan_sendable; [apply Hl|eexists; apply (tk_role _ _ _ Ht)|exact Hp|exact Eplan]].
  unfold bump_next. destruct (last es) as [e|] eqn:Ee; [|exact Ht].
  apply (tracks_into as_leader); [|exact Ht]. eapply as_leader_insert; [exact Ep|reflexivity| |apply Ht].
  exact (append_plan_next (an a) _ _ _ _ _ _ _ (ld_wf n _ Hl) Hp Eplan Ee).
Qed.
#[local] Hint Resolve still_get_progress still_advance_read still_regress still_maybe_send_append : respects.

Lemma still_heartbeat t : respects (lstill t) heartbeat.
Proof.
  intros n a Ha Ht. unfold heartbeat, get_last_index, get_commit_index. pose proof (tk_log _ _ _ Ht) as Hr.
  rewrite (lr_last _ _ Hr), (lr_last_term _ _ Hr), (lr_commit _ _ Hr), (tracks_term _ _ _ Ht). cbn [fst].
  unfold st_bind at 1, st_assert. destruct (Z.eqb_spec (term_at (al_entries (an a)) (al_last (an a))) (a_term a)) as [Hlast|]; [|exact Ht].
  unfold st_bind at 1, update_role, st_modify. apply tracks_broadcast.
  - intros to. split; [eexists; apply (tk_role _ _ _ Ht)|]. split; [reflexivity|]. split; [exact Hlast|reflexivity].
  - apply (tracks_into as_leader); [|exact Ht]. destruct (tk_role _ _ _ Ht) as [R1 R2 R3]. now split.
Qed.

Lemma still_read_loop t s q : respects (lstill t) (read_loop s q).
Proof.
  induction q as [|x q IH]; cbn [read_loop]; [solve_respects|]. apply respects_if; [solve_respects|].
  apply respects_bind; [typeclasses eauto|auto with respects|]. intros _. respects_at n.
  apply respects_bind; [typeclasses eauto| |auto]. apply still_respond. auto with respects.
Qed.
#[local] Hint Resolve still_heartbeat still_read_loop : respects.

Lemma still_maybe_read t : respects (lstill t) maybe_read.
Proof.
  unfold maybe_read. intros n. destruct (reads (role n)) as [|x q]; [reflexivity|].
  destruct (get_commit_index (log n)) as [ci ct]. destruct (_ || _)%bool; [reflexivity|].
  revert n. respects_at n. solve_respects.
Qed.

Lemma still_apply_and_respond t e : respects (lstill t) (apply_and_respond t e).
Proof.
  unfold apply_and_respond. respects_at n. apply respects_bind; [typeclasses eauto|auto with respects|]. intros _ n1.
  pose proof (still_with_state as_leader t (state_apply e) n1) as Hs. destruct (with_state (state_apply e) n1) as [r n2].
  destruct r as [v|er|p]; [..|exact Hs]; (destruct (writes (role n) !! index e) as [w|]; [|exact Hs]);
    (etransitivity; [exact Hs|]); now apply still_send_via.
Qed.
#[local] Hint Resolve still_maybe_read still_apply_and_respond : respects.

(** ** Commitment *)
Lemma count_ge_filter q (l : list (NodeID * Progress)) :
  count_ge q (match_index <$> l.*2) = length (filter (fun kv => q <= match_index kv.2) l).
Proof.
  unfold count_ge. induction l as [|[j p] l IH]; [reflexivity|]. cbn [fmap list_fmap List.filter snd]. rewrite filter_cons. cbn [snd].
  destruct (Z.leb_spec q (match_index p)), (decide (q <= match_index p)); cbn [length]; lia.
Qed.

Lemma count_ge_snoc q l x : (count_ge q (l ++ [x]) <= count_ge q l + 1)%nat.
Proof. unfold count_ge. rewrite List.filter_app, length_app. cbn. destruct (q <=? x); cbn; lia. Qed.

(** The nodes behind a quorum value. *)
Lemma commit_quorum n a q :
  tracks as_leader n a -> (quorum_size n <= count_ge q (match_indexes n))%nat ->
  exists Q, quorum members Q /\ forall j, j ∈ Q -> j = i \/ exists v, (match_index <$> progress (role n)) !! j = Some v /\ q <= v.
Proof.
  intros Ht Hq. rewrite (quorum_size_members members n i Hmem (tk_peers _ _ _ Ht)) in Hq.
  destruct (tk_role _ _ _ Ht) as [R1 R2 R3]. set (m := progress (role n)) in *.
  set (l := (filter (fun kv => q <= match_index kv.2) (map_to_list m)).*1).
  assert (forall j, j ∈ l -> exists p, m !! j = Some p /\ q <= match_index p) as Hl.
  { intros j Hj. apply list_elem_of_fmap in Hj as ([k p] & -> & Hp). apply list_elem_of_filter in Hp as [Hqp Hp].
    apply elem_of_map_to_list in Hp. exists p. auto. }
  assert (NoDup l) as Hnd.
  { eapply sublist_NoDup; [apply (NoDup_fst_map_to_list m)|]. apply fmap_sublist, sublist_filter. }
  exists ({[i]} ∪ list_to_set l). split; [split|].
  - intros j [->%elem_of_singleton|Hj%elem_of_list_to_set]%elem_of_union; [exact Hmem|]. destruct (Hl j Hj) as (p & Hp & _).
    apply elem_of_dom_2 in Hp. rewrite R2 in Hp. set_solver.
  - rewrite size_union, size_singleton, size_list_to_set by (exact Hnd || (apply disjoint_singleton_l; intros Hj%elem_of_list_to_set;
      destruct (Hl i Hj) as (p & Hp & _); apply elem_of_dom_2 in Hp; rewrite R2 in Hp; set_solver)).
    pose proof (count_ge_snoc q (match_index <$> (map_to_list m).*2) (last_index (log n))) as Hs.
    rewrite count_ge_filter in Hs. unfold match_indexes in Hq. unfold l. rewrite length_fmap. fold m in Hq. lia.
  - intros j [->%elem_of_singleton|Hj%elem_of_list_to_set]%elem_of_union; [now left|right]. destruct (Hl j Hj) as (p & Hp & Hv).
    exists (match_index p). rewrite lookup_fmap, Hp. auto.
Qed.

(** Leaders may move, but keep the entries and the term. *)
Definition lstays (L : list Entry) (t : Term) (n n' : RawNode Leader) : Prop :=
  forall a, tracks as_leader n a -> a_log a = L -> a_term a = t -> exists a', tracks as_leader n' a' /\ a_log a' = L /\ a_term a' = t.
#[local] Instance lstays_preorder L t : PreOrder (lstays L t).
Proof.
  split; [intros n a Ht E1 E2; exists a; auto|]. intros n1 n2 n3 H12 H23 a Ht E1 E2.
  destruct (H12 a Ht E1 E2) as (a2 & Ht2 & E3 & E4). now apply (H23 a2).
Qed.
Lemma lstays_still {A} L t (m : stM (RawNode Leader) A) : respects (lstill t) m -> respects (lstays L t) m.
Proof. intros Hm n a Ht E1 E2. exists a. split; [|auto]. now apply Hm. Qed.

Lemma lstays_maybe_commit_and_apply L t : respects (lstays L t) maybe_commit_and_apply.
Proof.
  intros n a Ht E1 E2. pose proof (tracks_leads n a Ht) as Hl. pose proof (ld_log n _ Hl) as Hr. pose proof (ld_wf n _ Hl) as Hw.
  assert (exists a', tracks as_leader n a' /\ a_log a' = L /\ a_term a' = t) as Hsame by (exists a; auto).
  destruct (quorum_value_correct n (match_indexes n) (match_indexes_length n _ Hl)) as (q & Eq & Hin & Hq & _).
  pose proof (match_indexes_range n _ q Hl Hin) as Hrange. pose proof (wf_length _ Hw) as Hlen.
  unfold maybe_commit_and_apply. change ((get_last_index (log n)).1) with (last_index (log n)).
  fold (match_indexes n). unfold st_bind at 1, st_read at 1. rewrite Eq. unfold get_commit_index. rewrite (lr_commit _ _ Hr).
  destruct (Z.leb_spec q (al_commit (an a))) as [|Hgt]; [exact Hsame|].
  unfold st_bind at 1, st_read at 1. rewrite (log_get_spec _ (an a)) by (auto; unfold is_u64; lia).
  destruct (entry_at (al_entries (an a)) q) as [e|] eqn:Ee; [|exact Hsame]. rewrite (tracks_term _ _ _ Ht).
  destruct (Z.eqb_spec (term e) (a_term a)) as [Hte|]; cbn [negb]; [|exact Hsame].
  pose proof (held_commit (log n) (an a) q (tk_held _ _ _ Ht) Hw ltac:(unfold is_u64; lia)) as Ec.
  set (a1 := mkAnode (mkAlog (a_log a) (a_term a) (a_vote a) q) (an_role a)).
  assert (al_commit_to q (an a) = (Ok q, an a1)) as Ea.
  { unfold al_commit_to. rewrite Ee. destruct (Z.ltb_spec q (al_commit (an a))); [lia|reflexivity]. }
  destruct (al_commit_to_ok q _ _ _ Hw Ea) as [Hw1 _]. rewrite Ea in Ec.
  unfold st_bind at 1, with_log. destruct (commit q (log n)) as [r1 l1]. set (n1 := mkNode _ _ l1 _ _ _ _ _).
  unfold all_or_nothing in Ec. cbn [fst snd] in Ec.
  destruct Ec as [[-> Hr1]|[[er ->] Hr1]]; [|exists a; split; [destruct Ht as [T1 T2 T3 T4 T5]; now split|auto]].
  assert (tracks as_leader n1 a1) as Hn1.
  { destruct (commit_quorum n a q Ht Hq) as (Q & HQ & HQv). destruct (tk_role _ _ _ Ht) as [R1 R2 R3].
    eapply (tracks_step as_leader _ n); [|exact Hw1|apply (tracks_fits _ _ _ Ht)|reflexivity|reflexivity|exact Hr1|reflexivity| |exact Ht].
    - eapply l_commit; [exact R1| | |exact HQ|exact HQv]; [unfold term_at, a_log; now rewrite Ee|].
      pose proof (wf_commit _ Hw). unfold al_last in *. lia.
    - split; [exact R1|exact R2|exact R3]. }
  exists a1. split; [|auto]. change (a_term a) with (a_term a1).
  match goal with |- tracks _ (snd (?m n1)) _ => assert (respects (lstill (a_term a1)) m) as Hm; [|exact (Hm n1 a1 eq_refl Hn1)] end.
  do 2 (apply respects_bind; [typeclasses eauto|solve_respects|intros ?]).
  apply respects_bind; [typeclasses eauto| |intros _; solve_respects].
  intros n2. destruct (negb _); [apply still_maybe_read|reflexivity].
Qed.

Lemma lstays_advance L t msg v :
  msg ∈ nt -> env_term msg = t -> resp_match (env_message msg) = Some v -> v <= llen L ->
  respects (lstays L t) (update_progress (env_from msg) (advance v)).
Proof.
  intros Hin Hterm Hrm Hv n a Ht E1 E2. unfold update_progress, st_bind, get_progress.
  destruct (progress (role n) !! env_from msg) as [p|] eqn:Ep; [|exists a; auto]. cbn [snd st_ret set_progress update_role st_modify].
  pose proof (tracks_fits _ _ _ Ht) as [Hw Hl]. destruct (tk_role _ _ _ Ht) as [R1 R2 R3].
  assert (progress_ok (llen (a_log a)) (advance v p).2) as Hok
    by (apply advance_ok; [apply (wf_length _ Hw)|now apply (R3 (env_from msg))|congruence]).
  unfold advance in *. destruct (Z.leb_spec v (match_index p)); cbn [snd] in *.
  { exists a. split; [|auto]. apply (tracks_into as_leader); [|exact Ht]. eapply as_leader_insert; eauto. apply Ht. }
  exists (mkAnode (an a) (ALeader (<[env_from msg := v]> (match_index <$> progress (role n))))). split; [|auto].
  eapply (tracks_step as_leader as_leader n); [|exact Hw|exact Hl|reflexivity|reflexivity|apply Ht|reflexivity| |exact Ht].
  - eapply l_match; [exact R1|exact Hin|congruence|exact Hrm].
  - split; cbn [an_role progress into_role role].
    + now rewrite fmap_insert.
    + rewrite dom_insert_lookup_L by eauto. exact R2.
    + intros j q [[<- <-]|[_ Hj]]%lookup_insert_Some; [exact Hok|now apply (R3 j)].
Qed.

Definition leads_on (n : RawNode Leader) : Prop := exists a, tracks as_leader n a.
#[local] Hint Resolve lstays_maybe_commit_and_apply lstays_advance : respects.
#[local] Hint Extern 2 (respects (lstays _ _) _) => (apply lstays_still; solve [auto with respects]) : respects.

(** Proposing appends an entry and sends it out. *)
Lemma propose_tracks c n a :
  tracks as_leader n a -> llen (a_log a) + 1 <= bound -> leads_on (propose c n).2.
Proof.
  intros Ht Hroom. pose proof (tracks_leads n a Ht) as Hl. destruct (ld_log n _ Hl, ld_wf n _ Hl) as [Hr Hw].
  assert (al_last (an a) + 1 < u64_max) as Hmax by (unfold a_log, llen, al_last in *; lia).
  pose proof (held_append (log n) (an a) c (tk_held _ _ _ Ht) Hw Hmax) as Ea.
  unfold propose, st_bind at 1, with_log. destruct (append c (log n)) as [r1 l']. set (n1 := mkNode _ _ l' _ _ _ _ _).
  unfold all_or_nothing in Ea. cbn [fst snd] in Ea.
  destruct Ea as [[-> Hr']|[[er ->] Hr']]; [|exists a; destruct Ht as [T1 T2 T3 T4 T5]; now split].
  set (a1 := mkAnode (mkAlog (a_log a ++ [mkEntry (llen (a_log a) + 1) (a_term a) c]) (a_term a) (a_vote a) (a_commit a)) (an_role a)).
  destruct (al_append c (an a)) as [r R'] eqn:Era. destruct (al_append_ok c _ r R' Hw Hmax Era) as [Hw1 _]. cbn [fst snd] in *.
  assert (exists a', tracks as_leader n1 a') as (a' & Hn1).
  { unfold al_append in Era. destruct (negb (0 <? al_term (an a))); inv Era.
    - exists a. destruct Ht as [T1 T2 T3 T4 T5]. now split.
    - exists a1. destruct (tk_role _ _ _ Ht) as [R1 R2 R3].
      eapply (tracks_step as_leader _ n); [|exact Hw1| |reflexivity|reflexivity|exact Hr'|reflexivity| |exact Ht].
      + apply l_append. eexists. exact R1.
      + unfold a1, llen in *. cbn. rewrite length_app. cbn. lia.
      + split; [exact R1|exact R2|]. intros id p Hp. destruct (R3 id p Hp) as [P1 P2].
        unfold progress_ok, a1, llen in *. cbn. rewrite length_app. cbn [length]. lia. }
  destruct r as [idx|e|p]; [|now exists a'..]. exists a'.
  match goal with |- tracks _ (snd (?m n1)) _ => assert (respects (lstill (a_term a')) m) as Hm; [|exact (Hm n1 a' eq_refl Hn1)] end.
  solve_respects.
Qed.

Lemma leads_stays n a n' : tracks as_leader n a -> lstays (a_log a) (a_term a) n n' -> leads_on n'.
Proof. intros Ht Hs. destruct (Hs a Ht eq_refl eq_refl) as (a' & Ha & _). now exists a'. Qed.

Lemma leader_handle_tracks msg n a :
  inbound msg -> env_term msg = a_term a -> tracks as_leader n a -> llen (a_log a) + 1 <= bound -> leads_on (leader_handle msg n).2.
Proof.
  intros (Hwire & Hfrom & Hin) Hterm Ht Hroom. pose proof (tk_log _ _ _ Ht) as Hr.
  assert (leads_on n) as Hsame by now exists a.
  unfold leader_handle. cbv zeta. unfold get_last_index. rewrite (lr_last _ _ Hr). cbn [fst].
  change (al_last (an a)) with (llen (a_log a)).
  destruct (env_message msg) as [li lt|v|li ci s|m s|b bt es|m j|s|s|q rq|q rs] eqn:Em; try exact Hsame;
    try (assert (msg ∈ nt) as Hmsg by (destruct Hin as [?|(? & ? & F)]; [assumption|congruence])).
  - exists a. apply tracks_send; [exact Ht|now apply idle_sendable].
  - unfold st_bind at 1, st_assert at 1. destruct (Z.leb_spec m (llen (a_log a))) as [Hm|]; [|exact Hsame].
    assert (respects (lstays (a_log a) (a_term a)) (update_progress (env_from msg) (advance m))) as Hadv
      by (apply lstays_advance; auto; now rewrite Em).
    eapply leads_stays; [exact Ht|]. by_respects. solve_respects.
  - destruct ((j =? 0) && (0 <? m))%bool.
    { unfold st_bind at 1, st_assert at 1. destruct (Z.leb_spec m (llen (a_log a))) as [Hm|]; [|exact Hsame].
      assert (respects (lstays (a_log a) (a_term a)) (update_progress (env_from msg) (advance m))) as Hadv
        by (apply lstays_advance; auto; now rewrite Em).
      eapply leads_stays; [exact Ht|]. by_respects. solve_respects. }
    destruct ((m =? 0) && (0 <? j))%bool; [|exact Hsame]. eapply leads_stays; [exact Ht|]. by_respects. solve_respects.
  - eapply leads_stays; [exact Ht|]. by_respects. solve_respects.
  - destruct rq as [c|c|].
    + eapply leads_stays; [exact Ht|].
      by_respects. do 2 (apply respects_bind; [typeclasses eauto|solve_respects|intros ?]).
      intros n1. destruct (_ =? 1)%nat; [apply (lstays_still _ _ _ (still_maybe_read _))|reflexivity].
    + unfold st_bind at 1. pose proof (propose_tracks (Some c) n a Ht Hroom) as [a1 Hn1].
      destruct (propose (Some c) n) as [[idx|e|p] n1]; cbn [snd] in Hn1; [|now exists a1..].
      eapply leads_stays; [exact Hn1|].
      by_respects. apply respects_bind; [typeclasses eauto|solve_respects|]. intros _ n2.
      destruct (_ =? 1)%nat; [|reflexivity]. revert n2. respects_at n2. solve_respects.
    + eapply leads_stays; [exact Ht|]. apply lstays_still. apply still_respond. auto with respects.
Qed.

Lemma leader_into_follower_tracks t n a :
  is_u64 t -> tracks as_leader n a -> sat settled fell (leader_into_follower t n).
Proof.
  intros Hu Ht. unfold leader_into_follower. rewrite (tracks_term _ _ _ Ht). eapply sat_tcheck; [exact Ht|]. intros Hlt%Z.ltb_lt. cbv zeta.
  rewrite call_bind. tstep. rewrite call_bind. tstep. rewrite call_bind. tstep. rewrite call_bind. tstep.
  eapply sat_set_term; [eassumption|exact Hu|lia|]. intros n5 Hn5. tstep. exists (a_set_term t a). now apply tracks_rerole.
Qed.

(** Winning an election. *)
Lemma candidate_into_leader_tracks n a :
  tracks as_candidate n a -> (size members / 2 + 1 <= size (votes (role n)))%nat -> llen (a_log a) + 1 <= bound ->
  sat leads_on fell (candidate_into_leader n).
Proof.
  intros Ht Hq Hroom. unfold candidate_into_leader. destruct (get_term_vote (log n)) as [t v]. do 2 tstep. cbv zeta.
  pose proof (tracks_fits _ _ _ Ht) as [Hw Hl]. set (r := leader_role _ _).
  set (a1 := mkAnode (an a) (ALeader (match_index <$> progress r))).
  assert (forall id p, progress r !! id = Some p -> p = mkProgress 0 (llen (a_log a) + 1) 0) as Hr.
  { intros id p Hp. cbn in Hp. apply lookup_gset_to_gmap_Some in Hp as [_ <-]. rewrite (lr_last _ _ (tk_log _ _ _ Ht)).
    change (al_last (an a)) with (llen (a_log a)). rewrite u64_add_small by (unfold is_u64, llen in *; lia). reflexivity. }
  assert (tracks as_leader (into_role r n) a1) as Hn1.
  { eapply (tracks_step as_candidate as_leader n); [|exact Hw|exact Hl|reflexivity|reflexivity|apply Ht|reflexivity| |exact Ht].
    - eapply l_elect; [apply (tk_role _ _ _ Ht)|exact Hq|]. intros j u Hj. rewrite lookup_fmap in Hj.
      destruct (progress r !! j) as [p|] eqn:Ep; [|discriminate]. injection Hj as <-. now rewrite (Hr j p Ep).
    - split; [reflexivity|unfold r; cbn; rewrite dom_gset_to_gmap; apply Ht|]. intros id p Hp. rewrite (Hr id p Hp).
      change (a_log a1) with (a_log a). unfold progress_ok, llen. cbn [match_index next_index]. lia. }
  rewrite call_bind. unfold call. pose proof (propose_tracks None _ a1 Hn1 Hroom) as [a2 Hn2].
  destruct (propose None _) as [[idx|e|p] n2]; cbn [snd] in Hn2; [|eapply tracks_fell; exact Hn2..].
  assert (leads_on (st_bind maybe_commit_and_apply (fun _ => heartbeat) n2).2) as [a3 Hn3].
  { eapply leads_stays; [exact Hn2|]. by_respects. solve_respects. }
  destruct (st_bind maybe_commit_and_apply (fun _ => heartbeat) n2) as [[u|e|p] n3]; cbn in *; [now exists a3|..];
    eapply tracks_fell; exact Hn3.
Qed.

(** ** Every role *)
Definition moves_on (N : Node) : Prop :=
  match N with
  | NCandidate n => candidates_on n
  | NFollower n => settled n
  | NLeader n => leads_on n
  end.

Lemma follows_moves (r : stepped Node) : sat follows_on fell r -> sat moves_on fell r.
Proof. apply sat_mono; [|auto]. intros N (n & -> & Hn). exact Hn. Qed.

(** The start of a walk. *)
Definition starts (N : Node) : Prop :=
  match N with
  | NCandidate n => tracks as_candidate n a0
  | NFollower n => tracks as_follower n a0
  | NLeader n => tracks as_leader n a0
  end.

Context (Hroom : llen (a_log a0) + 1 <= bound).

Lemma candidate_step_tracks msg n :
  inbound msg -> env_to msg = i -> tracks as_candidate n a0 -> sat moves_on fell (candidate_step msg n).
Proof.
  intros Hm Hto Ht. assert (fell (into_role tt n)) as Hbad by (eapply tracks_fell; exact Ht).
  assert (candidates_on n) as Hsame by now exists a0.
  assert (forall l, sat moves_on fell (and_then (candidate_into_follower (env_term msg) l n) (follower_step msg))) as Hfol.
  { intros l. eapply sat_then; [apply (candidate_into_follower_tracks _ l n a0); [apply Hm|exact Ht]|]. intros n1 [a1 Hn1].
    apply follows_moves. now apply (follower_step_tracks msg n1 a1). }
  unfold candidate_step. rewrite (tracks_term _ _ _ Ht). destruct (Z.ltb_spec (env_term msg) (a_term a0)); [exact Hsame|].
  destruct (Z.ltb_spec (a_term a0) (env_term msg)); [apply Hfol|].
  assert (forall to m, idle m -> sat moves_on fell (call (send to m) n (fun _ n' => Done (NCandidate n')))) as Hsend.
  { intros to m Hid. eapply sat_tsend; [exact Ht|now apply idle_sendable|]. intros n' Hn'. now exists a0. }
  destruct (env_message msg) as [li lt|v|li ci s|m s|b bt es|m j|s|s|q rq|q rs] eqn:Em; try exact Hbad; try apply Hfol;
    try (now apply Hsend).
  destruct v; [|exact Hsame]. cbv zeta. set (n1 := into_role _ n).
  set (a1 := mkAnode (an a0) (ACandidate ({[env_from msg]} ∪ votes (role n)))).
  assert (tracks as_candidate n1 a1) as Hn1.
  { pose proof (tracks_fits _ _ _ Ht) as [Hw Hl].
    eapply (tracks_step as_candidate as_candidate n); [|exact Hw|exact Hl|reflexivity|reflexivity|apply Ht|reflexivity|reflexivity|exact Ht].
    destruct Hm as (_ & _ & Hin). eapply l_tally; [apply (tk_role _ _ _ Ht)| |exact Hto|lia|exact Em].
    destruct Hin as [?|(? & ? & F)]; [assumption|congruence]. }
  destruct (Nat.leb_spec (quorum_size n1) (size (votes (role n1)))) as [Hq|]; [|now exists a1].
  rewrite (quorum_size_members members n1 i Hmem (tk_peers _ _ _ Hn1)) in Hq.
  eapply sat_then; [apply (candidate_into_leader_tracks n1 a1 Hn1 Hq Hroom)|]. intros n' Hn'. exact Hn'.
Qed.

Lemma leader_step_tracks msg n : inbound msg -> tracks as_leader n a0 -> sat moves_on fell (leader_step msg n).
Proof.
  intros Hm Ht. unfold leader_step. rewrite (tracks_term _ _ _ Ht). destruct (Z.ltb_spec (env_term msg) (a_term a0)); [now exists a0|].
  destruct (Z.ltb_spec (a_term a0) (env_term msg)).
  - eapply sat_then; [apply (leader_into_follower_tracks _ n a0); [apply Hm|exact Ht]|]. intros n1 [a1 Hn1].
    apply follows_moves. now apply (follower_step_tracks msg n1 a1).
  - pose proof (leader_handle_tracks msg n a0 Hm ltac:(lia) Ht Hroom) as [a1 Hn1]. unfold call.
    destruct (leader_handle msg n) as [[u|e|p] n1]; cbn in *; [now exists a1|..]; eapply tracks_fell; exact Hn1.
Qed.

Lemma starts_core N : starts N -> fell (into_role tt (core N)).
Proof. destruct N as [n|n|n]; cbn [starts core]; intros Ht; exact (tracks_fell _ n a0 Ht). Qed.

Lemma step_tracks msg N : inbound msg -> starts N -> sat moves_on fell (step msg N).
Proof.
  intros Hm Hs. unfold step. cbv zeta. pose proof (starts_core N Hs) as Hbad. apply sat_check; [exact Hbad|]. intros Hto%Z.eqb_eq.
  apply sat_check; [exact Hbad|]. intros _. assert (node_id (core N) = i) as Hid by (destruct N; apply (tk_id _ _ _ Hs)).
  rewrite Hid in Hto. destruct N as [n|n|n]; cbn in Hs.
  - now apply candidate_step_tracks.
  - now apply follows_moves, (follower_step_tracks msg n a0).
  - now apply leader_step_tracks.
Qed.

Lemma tick_tracks N : starts N -> sat moves_on fell (tick N).
Proof.
  destruct N as [n|n|n]; cbn [starts tick]; intros Ht.
  - unfold candidate_tick. cbv zeta. set (n1 := into_role _ n).
    assert (tracks as_candidate n1 a0) as Hn1 by (apply (tracks_into as_candidate); [apply Ht|exact Ht]).
    destruct (_ <=? _); [|now exists a0]. eapply sat_campaign_tracks; [exact Hn1|]. intros n' a' Hn' _. now exists a'.
  - unfold follower_tick. cbv zeta. set (n1 := into_role _ n). assert (tracks as_follower n1 a0) as Hn1 by now apply tracks_rerole.
    destruct (_ <=? _); [|now exists a0]. eapply sat_then; [now apply (follower_into_candidate_tracks n1 a0)|]. intros n' (a' & Hn' & _). now exists a'.
  - unfold leader_tick. cbv zeta. eapply sat_still; [exact Ht|by_respects; solve_respects|]. intros x n' Hn'. now exists a0.
Qed.

(** Starting a node on a log: it only fails, or follows, or leads alone. *)
Lemma node_new_tracks l s t o g :
  tracks (fun _ _ => True) (mkNode i (members ∖ {[i]}) l s t o g tt) a0 -> an_role a0 = AFollower ->
  sat moves_on fell (node_new i (members ∖ {[i]}) l s t o g).
Proof.
  intros Ht Hr. unfold node_new.
  eapply sat_then with (Mid := fun n => tracks as_follower n a0).
  - unfold follower_new. set (n := mkNode i _ l s t o g _).
    assert (tracks as_follower n a0) as Hn by (destruct Ht as [T1 T2 T3 T4 _]; now split).
    destruct (bool_decide (i ∈ _)); [eapply tracks_fell; exact Hn|]. tstep. cbv zeta.
    eapply sat_still; [apply tracks_rerole; eassumption|apply still_maybe_apply|]. intros ? n2 Hn2. exact Hn2.
  - intros n Hn. destruct (Nat.eqb_spec (cluster_size n) 1) as [Hone|]; [|now exists a0].
    eapply sat_then; [now apply (follower_into_candidate_tracks n a0)|]. intros c (a1 & Hc & Hlog & Hself).
    eapply sat_then; [apply (candidate_into_leader_tracks c a1 Hc); [|now rewrite Hlog]|]; [|intros n' Hn'; exact Hn'].
    assert (size members = 1%nat) as ->.
    { unfold cluster_size in Hone. rewrite (tk_peers _ _ _ Hn), size_difference in Hone by set_solver. rewrite size_singleton in Hone.
      assert (size members <> 0%nat) by (apply size_non_empty_iff; set_solver). lia. }
    assert (size (votes (role c)) <> 0%nat) by (apply size_non_empty_iff; set_solver). cbn. lia.
Qed.

End Refine.
