(* ===== verification/RaftSafety.v ===== *)
(** * The safety of a Raft cluster

    The cluster of [RaftElection] (any schedule of deliveries, duplications,
    losses, ticks, client requests, failed steps, stops and restarts) refines
    the protocol of [RaftProtocol]: log matching, leader completeness and state
    machine safety hold of the logs the nodes store.  The nodes run with
    [fsync] on, and a node that stops has lost what [RaftDisk] says: commit
    indexes that were not flushed, and the write it was at. *)
From S2P Require Import Prelude Bytes Keycode KeycodeTheory Btree Engine Memory Bincode.
From S2P Require Import RaftLog RaftLogTheory RaftLogClaims RaftNode RaftNodeTheory RaftSteps RaftDisk RaftElection RaftReplication.
From S2P Require Import RaftProtocol RaftRefinement.

Section Safety.
Context {E S T G : Type} `{EngineReads E} {EW : EngineWrites E} `{State S} `{Channel T} `{Rng G}.
Context {BE : Bincode entry_valid} {BT : Bincode term_vote_valid} {BC : Bincode is_u64_pair}.
Abbreviation RawNode := (RawNode (Disk E) S T G).
Abbreviation Node := (Node (Disk E) S T G).
Abbreviation stepped := (stepped (Disk E) S T G).
Abbreviation host := (host (E := E) (S := S) (T := T) (G := G)).
Abbreviation world := (world (E := E) (S := S) (T := T) (G := G)).

Context (members : gset NodeID) (members_u8 : forall i, i ∈ members -> 0 <= i <= u8_max).

(** The nodes flush what they write. *)
Definition fsync_on (b : bool) : Prop := b = true.
Abbreviation world_step := (world_step members fsync_on).
Abbreviation works := (works members fsync_on).

(** ** The relation *)
Record carries {R} (i : NodeID) (view : R -> anode -> Prop) (n : RawNode R) (a : anode) : Prop := {
  cy_id : node_id n = i;
  cy_peers : peers n = members ∖ {[i]};
  cy_log : stored (log n) (an a);
  cy_role : view (role n) a;
}.
Definition host_rep (i : NodeID) (h : host) (a : anode) : Prop :=
  match h with
  | Down l => stored l (an a) /\ an_role a = AFollower
  | Up (NCandidate n) => carries i as_candidate n a
  | Up (NFollower n) => carries i as_follower n a
  | Up (NLeader n) => carries i (as_leader members i) n a
  end.
Definition host_sent (h : host) : list Envelope :=
  match h with Up N => channel_sent (tx (core N)) | Down _ => [] end.

Lemma host_rep_log i h a : host_rep i h a -> log_rep (host_log h) (an a).
Proof. intros Hh. apply held_rep. destruct h as [[n|n|n]|l]; cbn in Hh; [apply (cy_log _ _ _ _ Hh)..|tauto]. Qed.

Record simulated (bound : Index) (w : world) (p : proto) : Prop := {
  sm_inv : inv members p;
  sm_net m : m ∈ net w -> m ∈ pnet p /\ wire_ok bound m;
  sm_member i h : hosts w !! i = Some h -> i ∈ members;
  sm_fits i h : hosts w !! i = Some h -> fits bound (pn p i);
  sm_host i h : hosts w !! i = Some h -> host_rep i h (pn p i);
  sm_sent i h m : hosts w !! i = Some h -> m ∈ host_sent h -> m ∈ pnet p /\ wire_ok bound m;
}.

(** A host that has walked. *)
Lemma land bound w p i h h' a' ms nt' :
  simulated bound w p -> hosts w !! i = Some h -> walk members i (net w) (bound + 1) (pn p i) a' ms ->
  host_rep i h' a' ->
  (forall m, m ∈ host_sent h' \/ m ∈ nt' -> m ∈ net w \/ m ∈ host_sent h \/ m ∈ ms) ->
  exists p', simulated (bound + 1) (mkWorld (<[i := h']> (hosts w)) nt') p' /\ grows p p'.
Proof.
  intros Hs Hh Hw Hr Hm. pose proof (sm_member _ _ _ Hs i h Hh) as Hmem.
  destruct (lsteps_inv members p i (net w) a' ms (sm_inv _ _ _ Hs) Hmem) as (p' & Hi' & Hg & Hp & Hn).
  { intros m Hmn. now apply (sm_net _ _ _ Hs). }
  { now apply (walk_lsteps _ _ _ (bound + 1)). }
  exists p'. split; [|exact Hg]. pose proof (walk_wire _ _ _ _ _ _ _ Hw) as Hwire. rewrite Forall_forall in Hwire.
  assert (forall m, m ∈ pnet p /\ wire_ok bound m -> m ∈ pnet p' /\ wire_ok (bound + 1) m) as Hold.
  { intros m [H1' H2']. split; [now apply (g_net _ _ Hg)|]. eapply wire_ok_le; [|exact H2']. lia. }
  assert (forall m, m ∈ host_sent h' \/ m ∈ nt' -> m ∈ pnet p' /\ wire_ok (bound + 1) m) as Hmsg.
  { intros m Hx. destruct (Hm m Hx) as [Hy|[Hy|Hy]].
    - apply Hold. now apply (sm_net _ _ _ Hs).
    - apply Hold. now apply (sm_sent _ _ _ Hs i h).
    - split; [rewrite Hn; apply elem_of_app; now right|now apply Hwire]. }
  split; cbn [hosts net].
  - exact Hi'.
  - intros m Hx. apply Hmsg. now right.
  - intros j x Hj. apply lookup_insert_Some in Hj as [[<- _]|[_ Hj]]; [exact Hmem|]. now apply (sm_member _ _ _ Hs j x).
  - intros j x Hj. rewrite Hp. apply lookup_insert_Some in Hj as [[<- _]|[Hne Hj]].
    + rewrite upd_eq. now apply (walk_fits members i (net w) _ (pn p i) a' ms).
    + rewrite upd_ne by congruence. eapply fits_le; [|now apply (sm_fits _ _ _ Hs j x)]. lia.
  - intros j x Hj. rewrite Hp. apply lookup_insert_Some in Hj as [[<- <-]|[Hne Hj]].
    + now rewrite upd_eq.
    + rewrite upd_ne by congruence. now apply (sm_host _ _ _ Hs j x).
  - intros j x m Hj Hx. apply lookup_insert_Some in Hj as [[<- <-]|[Hne Hj]]; [apply Hmsg; now left|].
    apply Hold. now apply (sm_sent _ _ _ Hs j x).
Qed.

Section Step.
Context (bound : Index) (Hbound : 2 * (bound + 1) < u64_max) (w : world) (p : proto) (Hs : simulated bound w p).
Abbreviation tracks i s0 := (tracks members i (net w) (bound + 1) (pn p i) s0).

Lemma start_fits i h : hosts w !! i = Some h -> fits (bound + 1) (pn p i).
Proof. intros Hh. eapply fits_le; [|now apply (sm_fits _ _ _ Hs i h)]. lia. Qed.
Lemma start_room i h : hosts w !! i = Some h -> llen (a_log (pn p i)) + 1 <= bound + 1.
Proof. intros Hh. destruct (sm_fits _ _ _ Hs i h Hh). lia. Qed.

Lemma carries_tracks {R} i h (view : R -> anode -> Prop) n s0 :
  hosts w !! i = Some h -> carries i view n (pn p i) -> channel_sent (tx n) = s0 -> tracks i s0 view n (pn p i).
Proof.
  intros Hh [C1 C2 C3 C4] E0. split; [assumption..| |assumption]. exists []. split; [apply walk_start; now apply (start_fits i h)|].
  now rewrite app_nil_r.
Qed.
Lemma host_starts i N b : hosts w !! i = Some (Up N) ->
  starts members i (net w) (bound + 1) (pn p i) (host_sent (Up N)) (arm_node b N).
Proof.
  intros Hh. pose proof (sm_host _ _ _ Hs i _ Hh) as Hr.
  destruct N as [n|n|n]; cbn in Hr |- *; (eapply carries_tracks; [exact Hh| |reflexivity]); destruct Hr as [C1 C2 C3 C4];
    (split; [exact C1|exact C2|now apply arm_held|exact C4]).
Qed.

Lemma tracks_carries {R} i s0 (view : R -> anode -> Prop) n a : tracks i s0 view n a -> carries i view n a.
Proof. intros [T1 T2 T3 _ T5]. now split. Qed.

Abbreviation good i s0 := (sat (moves_on members i (net w) (bound + 1) (pn p i) s0) (fell members i (net w) (bound + 1) (pn p i) s0)).

Lemma good_remains i s0 (r : stepped Node) : good i s0 r -> fell members i (net w) (bound + 1) (pn p i) s0 (remains r).
Proof.
  destruct r as [[n|n|n]|e d|q d]; cbn; [intros [a Ha]; exact (tracks_fell _ _ _ _ _ _ _ n a Ha)..|exact id|exact id].
Qed.

(** What a host does is a walk of its protocol node. *)
Lemma works_good b i r : works w b i r -> exists h, hosts w !! i = Some h /\ good i (host_sent h) r.
Proof.
  intros Hw. destruct Hw as [i l sync s t o g Hh Hsync Hsent|i N m Hh Hm Hto Hne|i N q r Hh|i N Hh|i N Hh];
    pose proof (sm_member _ _ _ Hs i _ Hh) as Hmem; pose proof (members_u8 i Hmem) as Hu8; pose proof (start_room i _ Hh) as Hroom;
    pose proof (sm_host _ _ _ Hs i _ Hh) as Hrep; (eexists; split; [exact Hh|]).
  - destruct Hrep as [Hr Hrole]. apply node_new_tracks; auto. split; [reflexivity|reflexivity| | |exact I].
    + destruct (arm_held b l _ Hr) as [[L1 L2 L3 L4 L5 L6 L7 L8] D2 D3 D4]. split; [now split|exact Hsync|exact D3|exact D4].
    + exists []. split; [apply walk_start; now apply (start_fits i (Down l))|]. exact Hsent.
  - apply step_tracks; auto; [|now apply host_starts].
    destruct (sm_net _ _ _ Hs m Hm) as [Hp Hwire]. split; [eapply wire_ok_le; [|exact Hwire]; lia|].
    split; [|now left]. apply members_u8. apply (i_net members p (sm_inv _ _ _ Hs) m Hp).
  - apply step_tracks; auto; [|now apply host_starts].
    pose proof (host_rep_log i _ _ Hrep) as Hr. split; [|split; [exact Hu8|right; eauto]]. split; [|exact I].
    change (is_u64 (log_term (log (core N)))). change (log (core N)) with (host_log (Up N)). rewrite (lr_term _ _ Hr).
    apply (wf_term _ (proj1 (sm_fits _ _ _ Hs i _ Hh))).
  - apply tick_tracks; auto. now apply host_starts.
  - pose proof (host_starts i N b Hh) as Hst. destruct N as [n|n|n]; cbn in *; eauto.
    all: eexists; exact Hst.
Qed.

(** The end of a walk, on its host. *)
Lemma walk_lands i h h' ms a' sent :
  hosts w !! i = Some h -> walk members i (net w) (bound + 1) (pn p i) a' ms -> host_rep i h' a' ->
  sent = host_sent h ++ ms -> (forall m, m ∈ host_sent h' -> m ∈ sent) ->
  exists p', simulated (bound + 1) (mkWorld (<[i := h']> (hosts w)) (net w ++ sent)) p' /\ grows p p'.
Proof.
  intros Hh Hw Hrep -> Hsub. eapply (land bound w p i h h' a' ms); eauto.
  assert (forall m, m ∈ host_sent h ++ ms -> m ∈ net w \/ m ∈ host_sent h \/ m ∈ ms) as Hcase by (intros m; rewrite elem_of_app; tauto).
  intros m [Hm|[Hm|Hm]%elem_of_app]; auto.
Qed.

Lemma world_step_simulated w' : world_step w w' -> exists p', simulated (bound + 1) w' p' /\ grows p p'.
Proof.
  intros Hst. destruct Hst as [i N Hw|i b r l Hw Hl]; destruct (works_good _ _ _ Hw) as (h & Hh & Hgood).
  - destruct N as [n|n|n]; destruct Hgood as [a Ht]; pose proof (tracks_carries _ _ _ _ _ Ht) as Hc;
      destruct (tk_walk _ _ _ _ _ _ _ _ _ Ht) as (ms & Hwalk & Es); eapply (walk_lands i h (Up _)); eauto.
  - destruct (good_remains _ _ _ Hgood) as [a Ht]. destruct (tk_walk _ _ _ _ _ _ _ _ _ Ht) as (ms & Hwalk & Es).
    pose proof (tracks_fits _ _ _ _ _ _ _ _ _ Ht) as [Hwf Hlen].
    destruct (reopened_held _ _ _ (tk_held _ _ _ _ _ _ _ _ _ Ht) Hwf Hl) as (c & Hc & Hwf' & Hheld).
    eapply (walk_lands i h (Down l) (ms ++ [])); [exact Hh| | |now rewrite app_nil_r|].
    + eapply walk_step; [exact Hwalk|apply (l_crash _ _ _ a c); apply Hc|]. now split.
    + now split.
    + intros m Hm. now apply not_elem_of_nil in Hm.
Qed.
End Step.

(** ** Runs *)
Definition reachable_in (k : nat) (w : world) : Prop := exists w0, initial members w0 /\ nsteps world_step k w0 w.

Lemma initial_simulated w : initial members w -> simulated 0 w genesis.
Proof.
  intros (Hn & Hd & Hh). split.
  - apply genesis_inv.
  - intros m. rewrite Hn. intros Hm. now apply not_elem_of_nil in Hm.
  - intros i h Hi. rewrite <- Hd. apply elem_of_dom. eauto.
  - intros i h Hi. split; [exact alog_empty_wf|reflexivity].
  - intros i h Hi. destruct (Hh i h Hi) as (e & -> & He & Ha). split; [|reflexivity]. split; [|reflexivity..|constructor].
    now apply (log_new_empty (open_disk e)).
  - intros i h m Hi. destruct (Hh i h Hi) as (e & -> & _). intros Hm. now apply not_elem_of_nil in Hm.
Qed.

Lemma nsteps_simulated d bound w w' p :
  simulated bound w p -> nsteps world_step d w w' -> 2 * (bound + Z.of_nat d) < u64_max ->
  exists p', simulated (bound + Z.of_nat d) w' p' /\ grows p p'.
Proof.
  intros Hs Hst. revert bound p Hs. induction Hst as [w|d w w1 w' H1' _ IH]; intros bound p Hs Hb.
  - exists p. rewrite Z.add_0_r. split; [exact Hs|apply grows_refl].
  - destruct (world_step_simulated bound ltac:(lia) w p Hs w1 H1') as (p1 & Hs1 & Hg1).
    destruct (IH _ p1 Hs1 ltac:(lia)) as (p' & Hs' & Hg'). exists p'.
    replace (bound + Z.of_nat (Datatypes.S d)) with (bound + 1 + Z.of_nat d) by lia. split; [exact Hs'|eapply grows_trans; eassumption].
Qed.

Lemma run_actions_nsteps acts w w' : run_actions members acts w = Some w' -> nsteps world_step (length acts) w w'.
Proof.
  revert w; induction acts as [|a acts IH]; intros w; cbn [run_actions length]; [intros [= ->]; constructor|].
  destruct (happen members a w) as [w1|] eqn:Ea; [|discriminate]. intros Hr.
  econstructor; [exact (happen_step members fsync_on eq_refl a _ _ Ea)|now apply IH].
Qed.

Section Host.
Context (b : Index) (w : world) (p : proto) (i : NodeID) (h : host) (Hs : simulated b w p) (Hh : hosts w !! i = Some h).

Lemma host_get y : is_u64 y -> get y (host_log h) = Ok (entry_at (a_log (pn p i)) y).
Proof.
  intros Hy. apply log_get_spec; [|exact (proj1 (sm_fits _ _ _ Hs i h Hh))|exact Hy]. exact (host_rep_log i h _ (sm_host _ _ _ Hs i h Hh)).
Qed.
Lemma host_commit : commit_index (host_log h) = a_commit (pn p i) /\ 0 <= a_commit (pn p i) <= llen (a_log (pn p i)) /\ llen (a_log (pn p i)) < u64_max.
Proof.
  pose proof (proj1 (sm_fits _ _ _ Hs i h Hh)) as Hwf. split; [exact (lr_commit _ _ (host_rep_log i h _ (sm_host _ _ _ Hs i h Hh)))|].
  split; [apply (wf_commit _ Hwf)|apply (wf_length _ Hwf)].
Qed.
Lemma host_term : log_term (host_log h) = a_term (pn p i).
Proof. exact (lr_term _ _ (host_rep_log i h _ (sm_host _ _ _ Hs i h Hh))). Qed.

Lemma host_scan_apply a items e :
  is_u64 a -> scan_apply a (host_log h) = Ok items -> Ok e ∈ items -> get (index e) (host_log h) = Ok (Some e) /\
  1 <= index e <= commit_index (host_log h).
Proof.
  intros Ha Hi He. pose proof (proj1 (sm_fits _ _ _ Hs i h Hh)) as Hwf. pose proof (host_rep_log i h _ (sm_host _ _ _ Hs i h Hh)) as Hr.
  rewrite (scan_apply_spec _ _ a Hr Hwf Ha) in Hi. injection Hi as <-.
  apply list_elem_of_In, in_map_iff in He as (x & [= ->] & He). apply segment_In in He as [He Hrange]; [|exact Hwf].
  assert (1 <= index e <= al_last (an (pn p i))) as Hx by (apply entry_at_range; eauto).
  destruct host_commit as (Hc & _ & Hl). split.
  - rewrite host_get by (unfold is_u64, a_log, llen, al_last in *; lia). unfold a_log. now rewrite He.
  - rewrite Hc. unfold in_index_range in Hrange. cbn in Hrange. unfold a_commit. lia.
Qed.
End Host.

(** A run from the start to [w] in [k] steps, and on to [w'] in [d] more. *)
Lemma run_simulated (k d : nat) (w w' : world) :
  reachable_in k w -> nsteps world_step d w w' -> 2 * Z.of_nat (k + d) < u64_max ->
  exists p p' b b', simulated b w p /\ simulated b' w' p' /\ grows p p'.
Proof.
  intros (w0 & Hi & Hst) Hst' Hsize.
  destruct (nsteps_simulated k 0 w0 w genesis (initial_simulated w0 Hi) Hst ltac:(lia)) as (p & Hs & _).
  destruct (nsteps_simulated d _ w w' p Hs Hst' ltac:(lia)) as (p' & Hs' & Hg). exists p, p'. eauto.
Qed.

(** Logs that agree up to an index store the same entries there. *)
Lemma hosts_agree (w w' : world) i j h h' y c p p' b b' :
  hosts w !! i = Some h -> hosts w' !! j = Some h' -> simulated b w p -> simulated b' w' p' ->
  1 <= y <= c -> c <= llen (a_log (pn p i)) -> upto c (a_log (pn p i)) = upto c (a_log (pn p' j)) ->
  exists e, get y (host_log h) = Ok (Some e) /\ get y (host_log h') = Ok (Some e).
Proof.
  intros Hh Hh' Hs Hs' Hy Hc He. destruct (host_commit b w p i h Hs Hh) as (_ & _ & Hl).
  assert (is_Some (entry_at (a_log (pn p i)) y)) as [e Hat] by (apply entry_at_range; unfold llen in *; lia). exists e.
  rewrite (host_get b w p i h Hs Hh), (host_get b' w' p' j h' Hs' Hh') by (unfold is_u64; lia).
  rewrite <- (entry_at_eq y c _ _ (proj2 Hy) He), Hat. auto.
Qed.

(** The runs of the following theorems: any engine, state machine and
    schedule of deliveries, duplications, losses, ticks and requests; nodes run
    with [fsync] on, and a node may fail, or stop at any write or flush of its
    log and between steps, and restart.  A stop may lose any commit indexes
    that were not flushed, and the writes of the log call it interrupts; it
    loses all of these or none ([RaftDisk]).  The code says that without
    [fsync] the properties may fail, and they do when a stop tears the writes
    of one [splice] apart ([splice_torn]). *)

(** C2: state machine safety.  In every run of a cluster with [fsync] on and
    with stops that may lose commit indexes and interrupted log calls, but do
    not tear the writes of a splice apart (any engine, state machine and
    schedule; of fewer than 2^63 steps, so that indexes do not overflow): once
    a node has committed an index, the entry it stores there is the one that
    any node has stored there when it has committed the index too, at that time
    or later; so no two nodes ever hand different entries of one index to their
    state machines. *)
Theorem raft_state_machine_safety (k d : nat) (w w' : world) (i j : NodeID) (h h' : host) :
  reachable_in k w -> nsteps world_step d w w' -> 2 * Z.of_nat (k + d) < u64_max ->
  hosts w !! i = Some h -> hosts w' !! j = Some h' ->
  (forall y, 1 <= y <= commit_index (host_log h) -> y <= commit_index (host_log h') ->
     exists e, get y (host_log h) = Ok (Some e) /\ get y (host_log h') = Ok (Some e)) /\
  (forall a b items items' e e', is_u64 a -> is_u64 b ->
     scan_apply a (host_log h) = Ok items -> scan_apply b (host_log h') = Ok items' ->
     Ok e ∈ items -> Ok e' ∈ items' -> index e = index e' -> e = e').
Proof.
  intros Hw Hw' Hsize Hh Hh'. destruct (run_simulated k d w w' Hw Hw' Hsize) as (p & p' & b & b' & Hs & Hs' & Hg).
  assert (forall y, 1 <= y <= commit_index (host_log h) -> y <= commit_index (host_log h') ->
     exists e, get y (host_log h) = Ok (Some e) /\ get y (host_log h') = Ok (Some e)) as Hsame.
  { intros y Hy Hy'. destruct (host_commit b w p i h Hs Hh) as (Ec & Hc & Hl).
    destruct (host_commit b' w' p' j h' Hs' Hh') as (Ec' & _). rewrite Ec in Hy. rewrite Ec' in Hy'.
    apply (hosts_agree w w' i j h h' y (Z.min (a_commit (pn p i)) (a_commit (pn p' j))) p p' b b' Hh Hh'); [exact Hs|exact Hs'|lia|lia|].
    apply (nodes_commit members p p' (sm_inv _ _ _ Hs) (sm_inv _ _ _ Hs') Hg i j); [exact (sm_member _ _ _ Hs i h Hh)|exact (sm_member _ _ _ Hs' j h' Hh')]. }
  split; [exact Hsame|]. intros x y items items' e e' Hx Hy Hi Hi' He He' Heq.
  destruct (host_scan_apply b w p i h Hs Hh x items e Hx Hi He) as [Hget Hr].
  destruct (host_scan_apply b' w' p' j h' Hs' Hh' y items' e' Hy Hi' He') as [Hget' Hr'].
  destruct (Hsame (index e) Hr ltac:(lia)) as (e0 & E1 & E2). congruence.
Qed.

(** C3: leader completeness.  A leader, now or later in a run, stores every
    entry that a node whose term was not beyond the leader's had committed (in
    the runs above: [fsync] on, stops that do not tear a splice, fewer than 2^63
    steps). *)
Theorem raft_leader_completeness (k d : nat) (w w' : world) (i j : NodeID) (h : host) (n : RawNode Leader) :
  reachable_in k w -> nsteps world_step d w w' -> 2 * Z.of_nat (k + d) < u64_max ->
  hosts w !! i = Some h -> hosts w' !! j = Some (Up (NLeader n)) ->
  log_term (host_log h) <= node_term n ->
  forall y, 1 <= y <= commit_index (host_log h) ->
    exists e, get y (host_log h) = Ok (Some e) /\ get y (log n) = Ok (Some e).
Proof.
  intros Hw Hw' Hsize Hh Hh' Hterm y Hy. destruct (run_simulated k d w w' Hw Hw' Hsize) as (p & p' & b & b' & Hs & Hs' & Hg).
  destruct (host_commit b w p i h Hs Hh) as (Ec & Hc & Hl). rewrite Ec in Hy.
  rewrite (host_term b w p i h Hs Hh) in Hterm. pose proof (host_term b' w' p' j _ Hs' Hh') as Et.
  pose proof (sm_host _ _ _ Hs' j _ Hh') as Hrep. change (log n) with (host_log (Up (NLeader n))).
  apply (hosts_agree w w' i j h _ y (a_commit (pn p i)) p p' b b' Hh Hh'); [exact Hs|exact Hs'|lia|lia|].
  apply (leader_has_committed members p p' (sm_inv _ _ _ Hs) (sm_inv _ _ _ Hs') Hg i j); [exact (sm_member _ _ _ Hs i h Hh)|exact (sm_member _ _ _ Hs' j _ Hh')| |].
  - eexists. apply (cy_role _ _ _ _ Hrep).
  - rewrite <- Et. exact Hterm.
Qed.

(** C4: log matching.  When two nodes, now or later in a run, store entries of
    the same term at an index, their logs are the same up to that index (in the
    runs above: [fsync] on, stops that do not tear a splice, fewer than 2^63
    steps). *)
Theorem raft_log_matching (k d : nat) (w w' : world) (i j : NodeID) (h h' : host) (y : Index) (e e' : Entry) :
  reachable_in k w -> nsteps world_step d w w' -> 2 * Z.of_nat (k + d) < u64_max ->
  hosts w !! i = Some h -> hosts w' !! j = Some h' ->
  is_u64 y -> get y (host_log h) = Ok (Some e) -> get y (host_log h') = Ok (Some e') -> term e = term e' ->
  forall z, 0 <= z <= y -> get z (host_log h) = get z (host_log h').
Proof.
  intros Hw Hw' Hsize Hh Hh' Hy He He' Ht z Hz. destruct (run_simulated k d w w' Hw Hw' Hsize) as (p & p' & b & b' & Hs & Hs' & Hg).
  rewrite (host_get b w p i h Hs Hh) in * by (unfold is_u64 in *; lia).
  rewrite (host_get b' w' p' j h' Hs' Hh') in * by (unfold is_u64 in *; lia). injection He as He. injection He' as He'.
  f_equal. apply (entry_at_eq z y); [lia|].
  apply (nodes_match members p p' (sm_inv _ _ _ Hs) (sm_inv _ _ _ Hs') Hg i j); [exact (sm_member _ _ _ Hs i h Hh)|exact (sm_member _ _ _ Hs' j h' Hh')| |].
  - apply entry_at_range. eauto.
  - unfold term_at. now rewrite He, He'.
Qed.


End Safety.

(** ** Witnesses

    Node 1 is elected.  Node 3 stops at the flush of its first entry, which is
    lost; it restarts, is sent the entry again and stores it, and node 1 commits
    it; the next heartbeat lets node 3 commit it; node 1 crashes and loses its
    commit index, and node 3 is elected in term 2. *)
Module SafetySample.
Import Sample LogSample ClusterSample.

Abbreviation events := (list (event (S := Z) (T := list Envelope) (G := unit))).
Abbreviation world3 := (world (E := Memory) (S := Z) (T := list Envelope) (G := unit)).

Definition run_from (acts : events) (w : world3) : world3 :=
  match run_actions members3 acts w with Some w' => w' | None => w end.

Definition commits : events :=
  (Run <$> [AStart 1 0 [] tt; AStart 2 0 [] tt; AStart 3 0 [] tt] ++ repeat (ATick 1) 10 ++ [ADeliver 0; ADeliver 2]) ++
  [Stop (ADeliver 6) (Some 3%nat) 0; Run (AStart 3 0 [] tt); Run (ADeliver 6); Run (ADeliver 9)].
Definition follows : events := Run <$> repeat (ATick 1) 4 ++ [ADeliver 41].
Definition reelects : events :=
  [Stop (AIdle 1) None 1] ++ (Run <$> repeat (ATick 3) 10 ++ [ADeliver 73; ADeliver 75]).

Definition committed_world : world3 := run_from commits world0.
Definition followed_world : world3 := run_from follows committed_world.
Definition reelected_world : world3 := run_from (follows ++ reelects) committed_world.

Definition host_of (i : NodeID) (w : world3) : host (E := Memory) (S := Z) (T := list Envelope) (G := unit) :=
  match hosts w !! i with Some h => h | None => blank end.

Lemma committed_reachable : reachable_in members3 19 committed_world.
Proof. exists world0. split; [exact world0_initial|]. apply (run_actions_nsteps members3 commits). vm_compute. reflexivity. Qed.
Lemma followed_steps : nsteps (world_step members3 fsync_on) 5 committed_world followed_world.
Proof. apply (run_actions_nsteps members3 follows). vm_compute. reflexivity. Qed.
Lemma reelected_steps : nsteps (world_step members3 fsync_on) 18 committed_world reelected_world.
Proof. apply (run_actions_nsteps members3 (follows ++ reelects)). vm_compute. reflexivity. Qed.
Lemma committed_host : hosts committed_world !! 1 = Some (host_of 1 committed_world).
Proof. vm_compute. reflexivity. Qed.
Lemma followed_host : hosts followed_world !! 3 = Some (host_of 3 followed_world).
Proof. vm_compute. reflexivity. Qed.
Lemma reelected_host : hosts reelected_world !! 3 = Some (host_of 3 reelected_world).
Proof. vm_compute. reflexivity. Qed.
End SafetySample.
Import Sample LogSample ClusterSample SafetySample.

(** Nodes 1 and 3 have both committed index 1. *)
Lemma raft_state_machine_safety_witness :
  commit_index (host_log (host_of 1 committed_world)) = 1 /\ commit_index (host_log (host_of 3 followed_world)) = 1 /\
  exists e, get 1 (host_log (host_of 1 committed_world)) = Ok (Some e) /\ get 1 (host_log (host_of 3 followed_world)) = Ok (Some e).
Proof.
  split; [vm_compute; reflexivity|]. split; [vm_compute; reflexivity|].
  apply (raft_state_machine_safety members3 members3_u8 19 5 committed_world followed_world 1 3 _ _
           committed_reachable followed_steps eq_refl committed_host followed_host); vm_compute; easy.
Defined.

(** Node 3 leads term 2 and has what node 1 committed in term 1. *)
Lemma raft_leader_completeness_witness :
  exists n, hosts reelected_world !! 3 = Some (Up (NLeader n)) /\ node_term n = 2 /\
  exists e, get 1 (host_log (host_of 1 committed_world)) = Ok (Some e) /\ get 1 (log n) = Ok (Some e).
Proof.
  assert (exists n, hosts reelected_world !! 3 = Some (Up (NLeader n)) /\ node_term n = 2) as (n & Hn & Ht)
    by (eexists; split; vm_compute; reflexivity).
  exists n. split; [exact Hn|]. split; [exact Ht|].
  assert (log_term (host_log (host_of 1 committed_world)) <= 2) as Hle by (vm_compute; discriminate). rewrite <- Ht in Hle.
  pose proof (raft_leader_completeness members3 members3_u8 19 18 committed_world reelected_world 1 3 _ n
    committed_reachable reelected_steps eq_refl committed_host Hn Hle 1) as Hc.
  apply Hc. vm_compute. split; discriminate.
Defined.

Lemma raft_log_matching_witness :
  exists e e', get 1 (host_log (host_of 1 committed_world)) = Ok (Some e) /\ get 1 (host_log (host_of 3 reelected_world)) = Ok (Some e') /\
  term e = term e' /\ get 0 (host_log (host_of 1 committed_world)) = get 0 (host_log (host_of 3 reelected_world)).
Proof.
  assert (exists e e', get 1 (host_log (host_of 1 committed_world)) = Ok (Some e) /\
    get 1 (host_log (host_of 3 reelected_world)) = Ok (Some e') /\ term e = term e') as (e & e' & He & He' & Ht)
    by (eexists _, _; split; [vm_compute; reflexivity|split; [vm_compute; reflexivity|reflexivity]]).
  exists e, e'. do 3 (split; [assumption|]).
  apply (raft_log_matching members3 members3_u8 19 18 committed_world reelected_world 1 3 _ _ 1 e e'
           committed_reachable reelected_steps eq_refl committed_host reelected_host); [vm_compute; split; discriminate|assumption..|lia].
Defined.
