(* ===== verification/RaftLiveness.v ===== *)
(** * Raft elections make progress

    With an open outbound channel and a state machine that does not panic, a
    node that hears from nobody stands for election within its timeout, and a
    candidate that hears from a quorum leads. *)
From S2P Require Import Prelude Bytes Keycode KeycodeTheory Btree Engine Memory Bincode.
From S2P Require Import RaftLog RaftLogTheory RaftLogClaims RaftNode RaftNodeTheory RaftSteps RaftElection RaftReplication.

Section Liveness.
Context {E S T G : Type} `{EngineReads E} {EW : EngineWrites E} `{State S} `{Channel T} `{Rng G}.
Context {BE : Bincode entry_valid} {BT : Bincode term_vote_valid} {BC : Bincode is_u64_pair}.
Abbreviation RawNode := (RawNode E S T G).
Abbreviation Node := (Node E S T G).
Abbreviation stepped := (stepped E S T G).

(** The receiver of outbound messages is there, and the state machine returns. *)
Record in_service : Prop := {
  channel_open (m : Envelope) (t : T) : exists t', channel_send m t = (Ok tt, t');
  machine_returns (e : Entry) (s : S) p : (state_apply e s).1 <> Panic p;
}.
Context (Hserve : in_service) `{!StateLaws (S := S)}.

(** ** Computations that return *)
Definition returns {R A} (P : RawNode R -> Prop) (m : stM (RawNode R) A) (Q : A -> RawNode R -> Prop) : Prop :=
  forall n, P n -> exists a n', m n = (Ok a, n') /\ Q a n'.

Section Rules.
Context {R : Type}.
Implicit Types P : RawNode R -> Prop.

Lemma returning_bind {A B} P (m : stM (RawNode R) A) (f : A -> stM (RawNode R) B) Q Q' :
  returns P m Q -> (forall a, returns (Q a) (f a) Q') -> returns P (st_bind m f) Q'.
Proof.
  intros Hm Hf n Hn. destruct (Hm n Hn) as (a & n1 & E1 & H1'). destruct (Hf a n1 H1') as (b & n2 & E2 & H2').
  exists b, n2. unfold st_bind. rewrite E1. auto.
Qed.
Lemma returning_ret {A} P (a : A) : returns P (st_ret a) (fun _ => P).
Proof. intros n Hn. exists a, n. auto. Qed.
Lemma returning_iter {A} P (f : A -> stM (RawNode R) unit) l :
  (forall x, x ∈ l -> returns P (f x) (fun _ => P)) -> returns P (st_iter f l) (fun _ => P).
Proof.
  induction l as [|x l IH]; intros Hf; cbn [st_iter].
  - intros n Hn. exists tt, n. auto.
  - eapply returning_bind; [apply Hf; now left|]. intros ?. apply IH. intros y Hy. apply Hf. now right.
Qed.
End Rules.

(** ** Sending *)
Definition set_tx {R} (t : T) (n : RawNode R) : RawNode R :=
  mkNode (node_id n) (peers n) (log n) (state n) t (opts n) (rng n) (role n).

Lemma send_via_returns {R} (n : RawNode R) m :
  exists t', send_via m n = (Ok tt, set_tx t' n) /\ channel_sent t' = channel_sent (tx n) ++ [m].
Proof.
  unfold send_via, with_tx. destruct (channel_open Hserve m (tx n)) as (t & F).
  destruct (channel_send_spec m (tx n)) as [(t' & Et & Hs)|(er & Et)]; [|congruence]. rewrite Et. eauto.
Qed.

Lemma sends_loop {R A} (n : RawNode R) (f : A -> NodeID) (g : A -> Message) l :
  exists t', st_iter (fun x => send (f x) (g x)) l n = (Ok tt, set_tx t' n) /\
    channel_sent t' = channel_sent (tx n) ++ map (fun x => mkEnvelope (node_id n) (node_term n) (f x) (g x)) l.
Proof.
  revert n; induction l as [|x l IH]; intros n; cbn [st_iter map].
  { exists (tx n). rewrite app_nil_r. split; [now destruct n|reflexivity]. }
  unfold st_bind, send at 1.
  destruct (send_via_returns n (mkEnvelope (node_id n) (node_term n) (f x) (g x))) as (t1 & -> & Hs1).
  destruct (IH (set_tx t1 n)) as (t' & -> & Hs'). exists t'. split; [reflexivity|]. rewrite Hs'. cbn. now rewrite Hs1, <- app_assoc.
Qed.

(** A broadcast reaches every peer. *)
Lemma broadcast_reaches {R} (n : RawNode R) m :
  exists t', broadcast m n = (Ok tt, set_tx t' n) /\
    forall to, to ∈ peers n -> mkEnvelope (node_id n) (node_term n) to m ∈ channel_sent t'.
Proof.
  destruct (sends_loop n (fun to => to) (fun _ => m) (sorted_set (peers n))) as (t' & En & Hs). exists t'.
  split; [exact En|]. intros to Hto. rewrite Hs. apply elem_of_app. right.
  apply list_elem_of_In, in_map_iff. exists to. split; [reflexivity|]. apply list_elem_of_In. unfold sorted_set.
  now rewrite merge_sort_Permutation, elem_of_elements.
Qed.

(** A node with a given log, and parts that do not change. *)
Record has_log {R} (id : NodeID) (ps : gset NodeID) (X : alog) (n : RawNode R) : Prop := {
  hl_id : node_id n = id;
  hl_peers : peers n = ps;
  hl_log : log_rep (log n) X;
  hl_range : (election_timeout_range (opts n)).1 < (election_timeout_range (opts n)).2;
}.

Section Methods.
Context (id : NodeID) (ps : gset NodeID) (X : alog) (HX : al_wf X).

Lemma abort_forwarded_returns (n : RawNode Follower) :
  has_log id ps X n -> exists n', abort_forwarded n = (Ok tt, n') /\ has_log id ps X n' /\ state n' = state n.
Proof.
  intros Hn. unfold abort_forwarded, st_bind, update_role, st_modify. set (n1 := into_role _ n).
  destruct (sends_loop n1 (fun _ => node_id n) (fun q => ClientResponse q (inr Abort)) (sorted_set (forwarded (role n))))
    as (t' & En & _).
  exists (set_tx t' n1). split; [exact En|]. split; [|reflexivity]. destruct Hn as [N1 N2 N3 N4]. now split.
Qed.

Lemma replay_returns es s : exists s', replay es s = (Ok tt, s').
Proof.
  revert s; induction es as [|e es IH]; intros s; cbn [replay]; [eauto|].
  pose proof (machine_returns Hserve e s) as Hp. destruct (state_apply e s) as [[v|er|p] s1]; [apply IH..|].
  now destruct (Hp p).
Qed.

Lemma maybe_apply_returns (n : RawNode Follower) :
  has_log id ps X n -> is_u64 (get_applied_index (state n)) ->
  exists n', maybe_apply n = (Ok tt, n') /\ has_log id ps X n' /\ is_u64 (get_applied_index (state n')).
Proof.
  intros Hn Ha. rewrite (maybe_apply_eq n X (hl_log _ _ _ _ Hn) HX Ha).
  destruct (replay_returns (al_scan_apply (get_applied_index (state n)) X) (state n)) as (s' & Es). rewrite Es.
  eexists. split; [reflexivity|]. split; [destruct Hn as [N1 N2 N3 N4]; now split|]. cbn [with_applied state].
  rewrite (replay_applied _ _ _ Es). destruct (last (al_scan_apply _ X)) as [e|] eqn:El; [|exact Ha].
  rewrite last_lookup in El. apply list_elem_of_lookup_2, list_elem_of_In in El. apply segment_In in El as [El _]; [|exact HX].
  apply (wf_entry_valid X (index e) e HX El).
Qed.

Lemma timeout_returns {R} (n : RawNode R) :
  has_log id ps X n ->
  exists v n', random_election_timeout n = (Ok v, n') /\ has_log id ps X n' /\ state n' = state n.
Proof.
  intros Hn. unfold random_election_timeout, with_rng.
  destruct (random_range_spec (election_timeout_range (opts n)) (rng n) (hl_range _ _ _ _ Hn)) as (v & g & Eg & _). rewrite Eg.
  eexists v, _. split; [reflexivity|]. split; [|reflexivity]. destruct Hn as [N1 N2 N3 N4]. now split.
Qed.
End Methods.

(** ** Standing for election *)
Definition campaigned (id : NodeID) (X : alog) : alog := mkAlog (al_entries X) (al_term X + 1) (Some id) (al_commit X).

(** A candidate of the next term that has asked all peers for their vote. *)
Record stands (id : NodeID) (ps : gset NodeID) (X : alog) (c : RawNode Candidate) : Prop := {
  st_log : has_log id ps (campaigned id X) c;
  st_votes : votes (role c) = {[id]};
  st_applied : is_u64 (get_applied_index (state c));
  st_asked to : to ∈ ps ->
    mkEnvelope id (al_term X + 1) to (Campaign (al_last X) (term_at (al_entries X) (al_last X))) ∈ channel_sent (tx c);
}.

Section Stand.
Context (id : NodeID) (ps : gset NodeID) (X : alog) (HX : al_wf X) (Hid : 0 <= id <= u8_max) (Hterm : al_term X < u64_max).

Lemma campaigned_wf : al_wf (campaigned id X).
Proof.
  destruct HX as [W1 W2 W3 W4 W5 W6 W7]. split; unfold campaigned, al_last in *; cbn in *; auto; try lia.
  intros n e He. specialize (W1 n e He). lia.
Qed.

Lemma campaign_returns (n : RawNode Candidate) :
  has_log id ps X n -> is_u64 (get_applied_index (state n)) -> exists c, campaign n = (Ok tt, c) /\ stands id ps X c.
Proof.
  intros Hn Ha. unfold campaign, st_bind at 1. destruct (timeout_returns id ps X n Hn) as (v & n1 & -> & Hn1 & Es1).
  unfold st_bind at 1, update_role, st_modify. set (n2 := into_role _ n1).
  assert (has_log id ps X n2) as Hn2 by (destruct Hn1 as [N1 N2 N3 N4]; now split).
  change (node_term n) with (log_term (log n)). rewrite (hl_id _ _ _ _ Hn), (lr_term _ _ (hl_log _ _ _ _ Hn)).
  pose proof (wf_term X HX) as Hwt. rewrite u64_add_small by (unfold is_u64; lia).
  unfold st_bind at 1, with_log.
  assert (term_vote_valid (al_term X + 1, Some id)) as Hv by (split; [unfold is_u64; cbn; lia|exact Hid]).
  destruct (set_term_vote_spec (log n2) X _ _ (hl_log _ _ _ _ Hn2) HX Hv) as (l' & Es & Hl & _).
  assert (al_set_term_vote (al_term X + 1) (Some id) X = (Ok tt, campaigned id X)) as Ea.
  { unfold al_set_term_vote. destruct (Z.ltb_spec 0 (al_term X + 1)); [|lia]. destruct (Z.leb_spec (al_term X) (al_term X + 1)); [|lia].
    destruct (Z.ltb_spec (al_term X) (al_term X + 1)); [|lia]. reflexivity. }
  rewrite Ea in Es, Hl. cbn [fst snd] in Es, Hl. rewrite Es. set (n3 := mkNode _ _ l' _ _ _ _ _).
  assert (has_log id ps (campaigned id X) n3) as Hn3 by (destruct Hn2 as [N1 N2 N3 N4]; now split).
  unfold get_last_index. rewrite (lr_last _ _ (hl_log _ _ _ _ Hn3)), (lr_last_term _ _ (hl_log _ _ _ _ Hn3)).
  match goal with |- context [broadcast ?m n3] => destruct (broadcast_reaches n3 m) as (t' & Ec & Hs) end.
  exists (set_tx t' n3). split; [exact Ec|]. split.
  - destruct Hn3 as [N1 N2 N3 N4]. now split.
  - cbn. now rewrite (hl_id _ _ _ _ Hn).
  - cbn. now rewrite Es1.
  - intros to Hto. rewrite (hl_peers _ _ _ _ Hn3), (hl_id _ _ _ _ Hn3) in Hs. change (node_term n3) with (log_term l') in Hs.
    rewrite (lr_term _ _ Hl) in Hs. now apply Hs.
Qed.

Lemma follower_into_candidate_returns (n : RawNode Follower) :
  has_log id ps X n -> is_u64 (get_applied_index (state n)) ->
  exists c, follower_into_candidate n = Done c /\ stands id ps X c.
Proof.
  intros Hn Ha. unfold follower_into_candidate, call at 1.
  destruct (abort_forwarded_returns id ps X n Hn) as (n1 & -> & Hn1 & Es). unfold call at 1. rewrite <- Es in Ha.
  destruct (maybe_apply_returns id ps X HX n1 Hn1 Ha) as (n2 & -> & Hn2 & Ha2). unfold call at 1.
  destruct (timeout_returns id ps X n2 Hn2) as (v & n3 & -> & Hn3 & Es3). rewrite <- Es3 in Ha2. cbv zeta. set (n4 := into_role _ n3).
  assert (has_log id ps X n4) as Hn4 by (destruct Hn3 as [N1 N2 N3 N4]; now split).
  unfold call. destruct (campaign_returns n4 Hn4 Ha2) as (c & -> & Hc). unfold get_term_vote.
  pose proof (hl_log _ _ _ _ (st_log _ _ _ _ Hc)) as Hl. rewrite (lr_term _ _ Hl), (lr_vote _ _ Hl). cbn [al_term al_vote campaigned].
  pose proof (wf_term X HX). unfold check. rewrite (hl_id _ _ _ _ (st_log _ _ _ _ Hc)), (st_votes _ _ _ _ Hc).
  rewrite !bool_decide_true by set_solver. destruct (Z.eqb_spec (al_term X + 1) 0); [lia|]. cbn [negb]. eauto.
Qed.

(** Let time pass. *)
Fixpoint ticks (k : nat) (N : Node) : stepped Node :=
  match k with
  | O => Done N
  | Datatypes.S k' => then! N := tick N in ticks k' N
  end.

(** A follower that hears from nobody. *)
Lemma follower_ticks (n : RawNode Follower) d :
  has_log id ps X n -> is_u64 (get_applied_index (state n)) ->
  0 <= leader_seen (role n) -> f_election_timeout (role n) <= u8_max ->
  f_election_timeout (role n) = leader_seen (role n) + 1 + Z.of_nat d ->
  exists c, ticks (Datatypes.S d) (NFollower n) = Done (NCandidate c) /\ stands id ps X c.
Proof.
  revert n; induction d as [|d IH]; intros n Hn Ha H0' Hu Ht; cbn [ticks tick]; unfold follower_tick; cbv zeta;
    unfold u8_add, wrap_u; rewrite Z.mod_small by (unfold u8_max in *; lia); set (n1 := into_role _ n);
    assert (has_log id ps X n1) as Hn1 by (destruct Hn as [N1 N2 N3 N4]; now split).
  - destruct (Z.leb_spec (f_election_timeout (role n)) (leader_seen (role n) + 1)); [|lia].
    destruct (follower_into_candidate_returns n1 Hn1 Ha) as (c & -> & Hc). exists c. auto.
  - destruct (Z.leb_spec (f_election_timeout (role n)) (leader_seen (role n) + 1)); [lia|]. cbn [and_then].
    apply (IH n1 Hn1 Ha); cbn; lia.
Qed.
End Stand.

(** ** Winning *)
Section Win.
Context (id : NodeID) (ps : gset NodeID) (s0 : S) (es : list Entry) (t : Term).

(** A leader without reads, with these entries in its log. *)
Record ruling (n : RawNode Leader) : Prop := {
  ru_id : node_id n = id;
  ru_peers : peers n = ps;
  ru_reads : reads (role n) = [];
  ru_state : state n = s0;
  ru_leads : exists X, leads n X /\ al_entries X = es /\ al_term X = t;
}.

Lemma ruling_keep n n' :
  ruling n -> node_id n' = node_id n -> peers n' = peers n -> reads (role n') = reads (role n) -> state n' = state n ->
  lkeep 0 n n' -> ruling n'.
Proof.
  intros [R1 R2 R3 R4 (X & L & E1 & E2)] F1 F2 F3 F4 Hk. split; [congruence..|].
  destruct (Hk X L ltac:(unfold al_last; lia)) as (X' & L' & E3 & E4 & _). exists X'. split; [exact L'|]. split; congruence.
Qed.

Lemma ruling_send to m : returns ruling (send to m) (fun _ => ruling).
Proof.
  intros n Hn. pose proof (lkeep_send 0 to m n) as Hk. unfold send, send_via, with_tx in *.
  destruct (channel_open Hserve (mkEnvelope (node_id n) (node_term n) to m) (tx n)) as (t' & Et). rewrite Et in *.
  eexists tt, _. split; [reflexivity|]. now apply (ruling_keep n).
Qed.

Lemma ruling_append peer pr : peer ∈ ps -> returns ruling (maybe_send_append peer pr) (fun _ => ruling).
Proof.
  intros Hp n Hn. destruct (ru_leads n Hn) as (X & L & E1 & E2).
  assert (is_Some (progress (role n) !! peer)) as [p Ep].
  { apply elem_of_dom. rewrite (ld_peers n X L), (ru_peers n Hn). exact Hp. }
  pose proof (maybe_send_append_eq n X peer p pr (ld_log n X L) (ld_wf n X L) Ep (ld_progress n X L peer p Ep)) as Em.
  destruct (append_plan X (max_append_entries (opts n)) p pr) as [[m en]|] eqn:Eplan; [|exists tt, n; auto].
  rewrite Em. apply ruling_send. unfold bump_next. destruct (last en) as [e|] eqn:Ee; [|exact Hn].
  destruct Hn as [R1 R2 R3 R4 _]. split; [assumption..|]. exists X. split; [|auto].
  apply (leads_set_progress n X peer _ L); [eauto|].
  exact (append_plan_next X _ p pr m en e (p_read_seq p) (ld_wf n X L) (ld_progress n X L peer p Ep) Eplan Ee).
Qed.

Lemma ruling_progress peer : peer ∈ ps -> returns ruling (get_progress peer) (fun _ => ruling).
Proof.
  intros Hp n Hn. destruct (ru_leads n Hn) as (X & L & _). unfold get_progress.
  assert (is_Some (progress (role n) !! peer)) as [p Ep].
  { apply elem_of_dom. rewrite (ld_peers n X L), (ru_peers n Hn). exact Hp. }
  rewrite Ep. eauto.
Qed.

Lemma ruling_broadcast m : returns ruling (broadcast m) (fun _ => ruling).
Proof. intros n. unfold broadcast. apply (returning_iter ruling). intros x _. apply ruling_send. Qed.

Lemma elem_sorted_set x (l : gset Z) : x ∈ sorted_set l -> x ∈ l.
Proof. unfold sorted_set. rewrite merge_sort_Permutation. apply elem_of_elements. Qed.
End Win.

Lemma propose_returns id ps s0 es t c :
  1 <= t -> Z.of_nat (length es) + 1 < u64_max -> returns (ruling id ps s0 es t) (propose c)
    (fun _ => ruling id ps s0 (es ++ [mkEntry (Z.of_nat (length es) + 1) t c]) t).
Proof.
  intros Ht Hmax n Hn. destruct (ru_leads _ _ _ _ _ n Hn) as (X & L & E1 & E2).
  assert (al_last X + 1 < u64_max) as Hmax' by (unfold al_last; rewrite E1; lia).
  destruct (append_leads c n X L Hmax') as (l' & Ea & L1).
  assert (al_append c X = (Ok (al_last X + 1), mkAlog (es ++ [mkEntry (Z.of_nat (length es) + 1) t c]) t (al_vote X) (al_commit X))) as Eal.
  { unfold al_append. destruct (Z.ltb_spec 0 (al_term X)); [|lia]. unfold al_last. now rewrite E1, E2. }
  rewrite Eal in *. cbn [fst snd] in *. unfold propose, st_bind at 1, with_log. rewrite Ea.
  set (n1 := mkNode _ _ l' _ _ _ _ _) in *.
  assert (ruling id ps s0 (es ++ [mkEntry (Z.of_nat (length es) + 1) t c]) t n1) as Hn1.
  { destruct Hn as [R1 R2 R3 R4 _]. split; [assumption..|]. eexists. split; [exact L1|]. auto. }
  rewrite (ru_peers _ _ _ _ _ n Hn).
  match goal with |- exists a n', ?m n1 = _ /\ _ => enough (returns (ruling id ps s0 (es ++ [mkEntry (Z.of_nat (length es) + 1) t c]) t) m
    (fun _ => ruling id ps s0 (es ++ [mkEntry (Z.of_nat (length es) + 1) t c]) t)) as Hm by exact (Hm n1 Hn1) end.
  eapply returning_bind.
  - apply returning_iter. intros peer Hp%elem_sorted_set. eapply returning_bind; [now apply ruling_progress|]. intros p. cbv beta.
    destruct (_ =? _); [now apply ruling_append|apply returning_ret].
  - intros []. apply returning_ret.
Qed.

Section Commit.
Context (id : NodeID) (ps : gset NodeID) (es : list Entry) (t : Term).
Definition ruled (n : RawNode Leader) : Prop := exists s, ruling id ps s es t n.

Lemma ruled_keep n n' :
  ruled n -> node_id n' = node_id n -> peers n' = peers n -> reads (role n') = reads (role n) -> lkeep 0 n n' -> ruled n'.
Proof.
  intros [s [R1 R2 R3 R4 (X & L & E1 & E2)]] F1 F2 F3 Hk. exists (state n'). split; [congruence..|reflexivity|].
  destruct (Hk X L ltac:(unfold al_last; lia)) as (X' & L' & E3 & E4 & _). exists X'. split; [exact L'|]. split; congruence.
Qed.

Lemma ruled_apply u e : returns ruled (apply_and_respond u e) (fun _ => ruled).
Proof.
  intros n Hn. pose proof (lkeep_apply_and_respond 0 u e n) as Hk.
  assert (forall r n', apply_and_respond u e n = (r, n') -> r = Ok tt -> node_id n' = node_id n -> peers n' = peers n ->
    reads (role n') = reads (role n) -> exists a n', apply_and_respond u e n = (Ok a, n') /\ ruled n') as Hdone.
  { intros r n' Er -> F1 F2 F3. exists tt, n'. split; [exact Er|]. rewrite Er in Hk. now apply (ruled_keep n). }
  clear Hk. pose proof (machine_returns Hserve e (state n)) as Hp.
  unfold apply_and_respond, st_bind, update_role, st_modify, with_state in *. cbn [state into_role] in *.
  destruct (state_apply e (state n)) as [[v|er|p] s1]; [| |now destruct (Hp p)].
  - destruct (writes (role n) !! index e) as [w|]; [|eapply Hdone; reflexivity]. cbn [to_response] in *.
    match goal with |- context [send_via ?m ?x] => destruct (send_via_returns x m) as (t' & Es & _) end. rewrite Es in *.
    eapply Hdone; reflexivity.
  - destruct (writes (role n) !! index e) as [w|]; [|eapply Hdone; reflexivity]. cbn [to_response] in *.
    match goal with |- context [send_via ?m ?x] => destruct (send_via_returns x m) as (t' & Es & _) end. rewrite Es in *.
    eapply Hdone; reflexivity.
Qed.

Lemma ruled_read : returns ruled maybe_read (fun _ => ruled).
Proof. intros n [s Hn]. exists tt, n. unfold maybe_read. rewrite (ru_reads _ _ _ _ _ n Hn). split; [reflexivity|now exists s]. Qed.

Lemma ruled_commit s0 :
  is_u64 (get_applied_index s0) -> returns (ruling id ps s0 es t) maybe_commit_and_apply (fun _ => ruled).
Proof.
  intros Ha n Hn. destruct (ru_leads _ _ _ _ _ n Hn) as (X & L & E1 & E2). destruct (ld_log n X L, ld_wf n X L) as [Hr Hw].
  assert (ruled n) as Hsame by now exists s0.
  destruct (quorum_value_correct n (match_indexes n) (match_indexes_length n X L)) as (q & Eq & Hin & _).
  pose proof (match_indexes_range n X q L Hin) as Hrange. pose proof (wf_length X Hw) as Hlen. pose proof (wf_commit X Hw) as Hc.
  unfold maybe_commit_and_apply. change ((get_last_index (log n)).1) with (last_index (log n)).
  fold (match_indexes n). unfold st_bind at 1, st_read at 1. rewrite Eq. unfold get_commit_index. rewrite (lr_commit _ _ Hr).
  destruct (Z.leb_spec q (al_commit X)) as [|Hgt]; [eexists _, n; split; [reflexivity|exact Hsame]|].
  unfold st_bind at 1, st_read at 1. rewrite (log_get_spec _ X) by (auto; unfold is_u64; lia).
  destruct (entry_at (al_entries X) q) as [e|] eqn:Ee; [|apply entry_at_None in Ee; unfold al_last in *; lia].
  destruct (negb _); [eexists _, n; split; [reflexivity|exact Hsame]|].
  destruct (log_commit_spec (log n) X q Hr Hw ltac:(unfold is_u64; lia)) as (l1 & Ec & Hr1 & _).
  assert (al_commit_to q X = (Ok q, mkAlog (al_entries X) (al_term X) (al_vote X) q)) as Ea.
  { unfold al_commit_to. rewrite Ee. destruct (Z.ltb_spec q (al_commit X)); [lia|reflexivity]. }
  destruct (al_commit_to_ok q X _ _ Hw Ea) as [Hw1 _]. rewrite Ea in Ec, Hr1. cbn [fst snd] in Ec, Hr1.
  pose proof (lkeep_commit 0 q ltac:(unfold is_u64; lia) n) as Hk.
  unfold with_log in Hk. rewrite Ec in Hk. unfold st_bind at 1, with_log. rewrite Ec. cbn [snd] in Hk. set (n1 := mkNode _ _ l1 _ _ _ _ _) in *.
  assert (ruled n1) as Hn1 by now apply (ruled_keep n).
  unfold st_bind at 1, st_read at 1. change (log n1) with l1. change (state n1) with (state n).
  rewrite (scan_apply_spec l1 _ _ Hr1 Hw1) by now rewrite (ru_state _ _ _ _ _ n Hn).
  match goal with |- exists a n', ?m n1 = _ /\ _ => enough (returns ruled m (fun _ => ruled)) as Hm by exact (Hm n1 Hn1) end.
  eapply returning_bind.
  - apply returning_iter. intros item Hitem. apply list_elem_of_In, in_map_iff in Hitem as (x & <- & _).
    intros n2 Hn2. unfold st_bind, st_lift. now apply ruled_apply.
  - intros []. cbv beta. eapply returning_bind with (Q := fun _ => ruled); [|intros; apply returning_ret].
    intros n2 Hn2. destruct (negb _); [now apply ruled_read|exists tt, n2; auto].
Qed.
End Commit.

(** A leader of the term that has announced itself to all peers. *)
Record leads_term (id : NodeID) (ps : gset NodeID) (X : alog) (n : RawNode Leader) : Prop := {
  lt_log : exists X', leads n X' /\ al_entries X' = al_entries X ++ [mkEntry (al_last X + 1) (al_term X) None] /\ al_term X' = al_term X;
  lt_announced to : to ∈ ps -> exists ci rs, mkEnvelope id (al_term X) to (Heartbeat (al_last X + 1) ci rs) ∈ channel_sent (tx n);
}.

Lemma candidate_into_leader_returns id ps X (c : RawNode Candidate) :
  has_log id ps X c -> al_wf X -> al_vote X = Some id -> 1 <= al_term X -> al_last X + 1 < u64_max ->
  is_u64 (get_applied_index (state c)) ->
  exists n, candidate_into_leader c = Done n /\ leads_term id ps X n.
Proof.
  intros Hc HX Hv Ht Hmax Ha. destruct Hc as [C1 C2 C3 C4]. unfold candidate_into_leader, get_term_vote, get_last_index.
  rewrite (lr_term _ _ C3), (lr_vote _ _ C3), (lr_last _ _ C3), Hv, C1, C2. cbn [fst]. unfold check.
  destruct (Z.eqb_spec (al_term X) 0); [lia|]. cbn [negb]. rewrite bool_decide_true by reflexivity. cbv zeta.
  set (n1 := into_role _ c). assert (0 <= al_last X) as H0' by (unfold al_last; lia).
  assert (ruling id ps (state c) (al_entries X) (al_term X) n1) as Hn1.
  { split; [exact C1|exact C2|reflexivity|reflexivity|]. exists X. split; [|auto].
    split; [exact C3|exact HX|cbn; rewrite C2; apply dom_gset_to_gmap|]. cbn. intros j p Hp.
    apply lookup_gset_to_gmap_Some in Hp as [_ <-]. rewrite u64_add_small by (unfold is_u64; lia). unfold progress_ok. cbn. lia. }
  rewrite call_bind. unfold call. destruct (propose_returns id ps (state c) _ _ None Ht Hmax n1 Hn1) as (idx & n2 & -> & Hn2).
  fold (al_last X) in Hn2. set (es := al_entries X ++ _) in Hn2.
  unfold st_bind. destruct (ruled_commit id ps es (al_term X) (state c) Ha n2 Hn2) as (ci & n3 & -> & [s3 Hn3]).
  destruct (ru_leads _ _ _ _ _ n3 Hn3) as (X3 & L3 & E3 & T3).
  unfold heartbeat, get_last_index, get_commit_index. rewrite (lr_last _ _ (ld_log _ _ L3)), (lr_last_term _ _ (ld_log _ _ L3)).
  change (node_term n3) with (log_term (log n3)). rewrite (lr_term _ _ (ld_log _ _ L3)).
  assert (al_last X3 = al_last X + 1) as El3 by (unfold al_last; rewrite E3; unfold es; rewrite length_app; cbn; lia).
  assert (term_at (al_entries X3) (al_last X3) = al_term X3) as Elt.
  { rewrite E3, El3, T3. unfold es, term_at. rewrite entry_at_app. change (Z.of_nat (length (al_entries X))) with (al_last X). now rewrite Z.eqb_refl. }
  rewrite Elt. cbn [fst]. unfold st_bind, st_assert. rewrite Z.eqb_refl. unfold update_role, st_modify. set (n4 := into_role _ n3).
  match goal with |- context [broadcast ?m n4] => destruct (broadcast_reaches n4 m) as (t' & -> & Hs) end.
  exists (set_tx t' n4). split; [reflexivity|]. split.
  - exists X3. split; [|auto]. destruct L3 as [L1 L2 L4 L5]. now split.
  - intros to Hto. assert (to ∈ peers n4) as Hto4 by (cbn; now rewrite (ru_peers _ _ _ _ _ n3 Hn3)).
    specialize (Hs to Hto4). change (node_id n4) with (node_id n3) in Hs. change (node_term n4) with (log_term (log n3)) in Hs.
    rewrite (ru_id _ _ _ _ _ n3 Hn3), (lr_term _ _ (ld_log _ _ L3)), El3, T3 in Hs. eexists _, _. exact Hs.
Qed.

(** ** Collecting votes *)
Definition vote_of (t : Term) (id j : NodeID) : Envelope := mkEnvelope j t id (CampaignResponse true).

Fixpoint deliver_all (ms : list Envelope) (N : Node) : stepped Node :=
  match ms with
  | [] => Done N
  | m :: ms' => then! N := step m N in deliver_all ms' N
  end.

(** The last vote of a quorum makes the candidate a leader. *)
Lemma collect_votes id ps X voters (c : RawNode Candidate) :
  al_wf X -> al_vote X = Some id -> 1 <= al_term X -> al_last X + 1 < u64_max ->
  has_log id ps X c -> is_u64 (get_applied_index (state c)) ->
  NoDup voters -> voters <> [] -> (forall j, j ∈ voters -> j ∈ ps /\ j ∉ votes (role c)) ->
  (size (votes (role c)) + length voters = quorum_size c)%nat ->
  exists n, deliver_all (map (vote_of (al_term X) id) voters) (NCandidate c) = Done (NLeader n) /\ leads_term id ps X n.
Proof.
  intros HX Hv Ht Hmax. revert c; induction voters as [|j voters IH]; intros c Hc Ha Hnd Hne Hj Hq; [congruence|].
  destruct (Hj j ltac:(now left)) as [Hjp Hjv]. apply NoDup_cons in Hnd as [Hjn Hnd]. cbn [map deliver_all length] in *.
  unfold step. cbn [vote_of env_to env_from core into_role node_id peers]. rewrite (hl_id _ _ _ _ Hc), (hl_peers _ _ _ _ Hc).
  unfold check. rewrite Z.eqb_refl, bool_decide_true by exact Hjp. cbn [orb]. unfold candidate_step.
  change (node_term c) with (log_term (log c)). rewrite (lr_term _ _ (hl_log _ _ _ _ Hc)).
  cbn [vote_of env_term env_message env_from]. rewrite Z.ltb_irrefl. cbv zeta. set (c1 := into_role _ c).
  assert (has_log id ps X c1) as Hc1 by (destruct Hc as [C1 C2 C3 C4]; now split).
  assert (size (votes (role c1)) = Datatypes.S (size (votes (role c)))) as Hsize.
  { cbn. rewrite size_union, size_singleton by set_solver. lia. }
  change (quorum_size c) with (quorum_size c1) in Hq. destruct (Nat.leb_spec (quorum_size c1) (size (votes (role c1)))) as [Hle|Hgt].
  - assert (voters = []) as -> by (destruct voters; [reflexivity|cbn [length] in *; lia]).
    destruct (candidate_into_leader_returns id ps X c1 Hc1 HX Hv Ht Hmax Ha) as (n & -> & Hn). exists n. auto.
  - cbn [and_then]. apply (IH c1 Hc1 Ha Hnd).
    + intros ->. cbn [length] in *. lia.
    + intros x Hx. destruct (Hj x ltac:(now right)) as [Hxp Hxv]. split; [exact Hxp|]. cbn.
      intros [->%elem_of_singleton|Hxx]%elem_of_union; [now apply Hjn|now apply Hxv].
    + lia.
Qed.

(** C8: elections make progress.  With an open channel and a state machine
    that returns, a follower that hears from nobody stands for election in the
    next term after exactly the ticks left of its timeout, and asks every peer
    for its vote; and when the votes of a quorum arrive, it leads that term, has
    appended the entry that lets it commit and has announced itself to every
    peer. *)
Theorem raft_election_progress (n : RawNode Follower) (X : alog) (voters : list NodeID) :
  log_rep (log n) X -> al_wf X -> 0 <= node_id n <= u8_max -> node_id n ∉ peers n ->
  al_term X < u64_max -> al_last X + 1 < u64_max -> is_u64 (get_applied_index (state n)) ->
  (election_timeout_range (opts n)).1 < (election_timeout_range (opts n)).2 ->
  0 <= leader_seen (role n) < f_election_timeout (role n) -> f_election_timeout (role n) <= u8_max ->
  exists c, ticks (Z.to_nat (f_election_timeout (role n) - leader_seen (role n))) (NFollower n) = Done (NCandidate c) /\
    stands (node_id n) (peers n) X c /\
    (NoDup voters -> voters <> [] -> (forall j, j ∈ voters -> j ∈ peers n) -> (length voters + 1 = quorum_size n)%nat ->
     exists l, deliver_all (map (vote_of (al_term X + 1) (node_id n)) voters) (NCandidate c) = Done (NLeader l) /\
       leads_term (node_id n) (peers n) (campaigned (node_id n) X) l).
Proof.
  intros Hl HX Hid Hself Hterm Hlast Ha Hrange Hseen Hmax.
  assert (has_log (node_id n) (peers n) X n) as Hn by now split.
  set (d := Z.to_nat (f_election_timeout (role n) - leader_seen (role n) - 1)).
  replace (Z.to_nat (f_election_timeout (role n) - leader_seen (role n))) with (Datatypes.S d) by lia.
  destruct (follower_ticks (node_id n) (peers n) X HX Hid Hterm n d Hn Ha) as (c & Ec & Hc); [lia..|].
  exists c. split; [exact Ec|]. split; [exact Hc|]. intros Hnd Hne Hv Hq.
  apply (collect_votes _ _ (campaigned (node_id n) X)); auto.
  - now apply campaigned_wf.
  - pose proof (wf_term X HX). cbn. lia.
  - apply Hc.
  - apply Hc.
  - intros j Hj. split; [now apply Hv|]. rewrite (st_votes _ _ _ _ Hc). intros ->%elem_of_singleton. now apply Hself, Hv.
  - rewrite (st_votes _ _ _ _ Hc), size_singleton. unfold quorum_size, cluster_size in *.
    rewrite (hl_peers _ _ _ _ (st_log _ _ _ _ Hc)). lia.
Qed.
End Liveness.

(** ** Witness

    A follower of three nodes hears nothing for its ten ticks, stands in term 2
    and leads with the vote of node 3. *)
Import Sample LogSample ClusterSample ReplicationSample.

Lemma sample_in_service : in_service (S := Z) (T := list Envelope).
Proof. split; [intros m t; eexists; reflexivity|discriminate]. Qed.

Lemma raft_election_progress_witness :
  exists c l, ticks 10 (NFollower follower2) = Done (NCandidate c) /\
    deliver_all [vote_of 2 1 3] (NCandidate c) = Done (NLeader l) /\ leads_term 1 {[2; 3]} (campaigned 1 alog2) l.
Proof.
  assert (forall j, j ∈ [3] -> j ∈ peers follower2) as Hv by (intros j ->%list_elem_of_singleton; cbn; set_solver).
  assert (length [3] + 1 = quorum_size follower2)%nat as Hq by (vm_compute; reflexivity).
  destruct (raft_election_progress sample_in_service follower2 alog2 [3]) as (c & Ec & _ & Hwin).
  - apply log2_rep.
  - apply log2_rep.
  - cbn. unfold u8_max. lia.
  - cbn. set_solver.
  - reflexivity.
  - reflexivity.
  - unfold is_u64, u64_max. cbn. lia.
  - cbn. lia.
  - cbn. lia.
  - cbn. unfold u8_max. lia.
  - destruct (Hwin (NoDup_singleton 3) ltac:(discriminate) Hv Hq) as (l & El & Hl).
    exists c, l. split; [exact Ec|]. split; [exact El|exact Hl].
Defined.
