(* ===== verification/Float64.v ===== *)
(** * f64: double-precision floating point on bit patterns

    The 64-bit floats the SQL layer computes with.  An [f64] is its IEEE-754 bit
    pattern ([f64::to_bits], as in [Keycode]); arithmetic goes through
    [SpecFloat], the Standard Library's executable IEEE-754 (binary64: precision
    53, maximal exponent 1024, round to nearest even).  Rust leaves the sign and
    payload of a NaN that arithmetic produces unspecified; here it is the
    positive quiet NaN.  [powf] and [powi], whose precision Rust leaves
    unspecified too, are operations of the class [F64Pow]. *)
From Stdlib Require Import SpecFloat.
From S2P Require Import Prelude Keycode.

Definition f64 : Type := Z.

Definition f64_sign (x : f64) : bool := Z.testbit x 63.
Definition f64_exp (x : f64) : Z := Z.land (Z.shiftr x 52) 2047.
Definition f64_frac (x : f64) : Z := Z.land x (2 ^ 52 - 1).
Definition f64_pack (s : bool) (e m : Z) : f64 :=
  (if s then 2 ^ 63 else 0) + Z.shiftl e 52 + m.
Definition f64_nan : f64 := f64_pack false 2047 (2 ^ 51).

Definition f64_decode (x : f64) : spec_float :=
  let s := f64_sign x in
  if f64_exp x =? 2047 then if f64_frac x =? 0 then S754_infinity s else S754_nan
  else if f64_exp x =? 0 then
    match f64_frac x with
    | Zpos m => S754_finite s m (-1074)
    | _ => S754_zero s
    end
  else
    match f64_frac x + 2 ^ 52 with
    | Zpos m => S754_finite s m (f64_exp x - 1075)
    | _ => S754_zero s
    end.

Definition f64_encode (f : spec_float) : f64 :=
  match f with
  | S754_zero s => f64_pack s 0 0
  | S754_infinity s => f64_pack s 2047 0
  | S754_nan => f64_nan
  | S754_finite s m e =>
      if Zpos m <? 2 ^ 52 then f64_pack s 0 (Zpos m)
      else f64_pack s (e + 1075) (Zpos m - 2 ^ 52)
  end.

(** ** Predicates and comparisons *)
Definition f64_is_nan (x : f64) : bool := (f64_exp x =? 2047) && negb (f64_frac x =? 0).
Definition f64_is_sign_negative (x : f64) : bool := f64_sign x.
Definition f64_eq (a b : f64) : bool := SFeqb (f64_decode a) (f64_decode b).
Definition f64_lt (a b : f64) : bool := SFltb (f64_decode a) (f64_decode b).
Definition f64_gt (a b : f64) : bool := f64_lt b a.

(** ** Arithmetic *)
Definition f64_neg (x : f64) : f64 := Z.lxor x (2 ^ 63).
Definition f64_lift2 (op : spec_float -> spec_float -> spec_float) (a b : f64) : f64 :=
  f64_encode (op (f64_decode a) (f64_decode b)).
Definition f64_add : f64 -> f64 -> f64 := f64_lift2 (SFadd 53 1024).
Definition f64_sub : f64 -> f64 -> f64 := f64_lift2 (SFsub 53 1024).
Definition f64_mul : f64 -> f64 -> f64 := f64_lift2 (SFmul 53 1024).
Definition f64_div : f64 -> f64 -> f64 := f64_lift2 (SFdiv 53 1024).
Definition f64_sqrt (x : f64) : f64 := f64_encode (SFsqrt 53 1024 (f64_decode x)).

(** [%]: the remainder of the truncated division, exact, with the sign of the
    dividend. *)
Definition SFrem (x y : spec_float) : spec_float :=
  match x, y with
  | S754_nan, _ | _, S754_nan | S754_infinity _, _ | _, S754_zero _ => S754_nan
  | S754_zero _, _ | _, S754_infinity _ => x
  | S754_finite sx mx ex, S754_finite _ my ey =>
      let e := Z.min ex ey in
      let r := Z.rem (Z.shiftl (Zpos mx) (ex - e)) (Z.shiftl (Zpos my) (ey - e)) in
      binary_normalize 53 1024 (cond_Zopp sx r) e sx
  end.
Definition f64_rem : f64 -> f64 -> f64 := f64_lift2 SFrem.

(** [i as f64] *)
Definition f64_of_i64 (i : Z) : f64 := f64_encode (binary_normalize 53 1024 i 0 false).

(** [f64::powf] and [f64::powi]. *)
Class F64Pow : Type := {
  powf : f64 -> f64 -> f64;
  powi : f64 -> Z -> f64;
}.

(** ** Lemmas *)
Lemma f64_eq_sym a b : f64_eq a b = f64_eq b a.
Proof.
  unfold f64_eq, SFeqb. destruct (f64_decode a) as [| | |s m e], (f64_decode b) as [| | |s' m' e']; cbn;
    repeat match goal with s : bool |- _ => destruct s end; try reflexivity.
  all: change (Pos.compare_cont Eq ?x ?y) with (Pos.compare x y).
  all: rewrite (Z.compare_antisym e' e), (Pos.compare_antisym m' m).
  all: destruct (e' ?= e), (Pos.compare m' m); reflexivity.
Qed.

(** A bit pattern is its three fields. *)
Lemma f64_fields x : is_u64 x ->
  x = (if f64_sign x then 2 ^ 63 else 0) + f64_exp x * 2 ^ 52 + f64_frac x /\
  0 <= f64_exp x < 2048 /\ 0 <= f64_frac x < 2 ^ 52.
Proof.
  unfold is_u64, u64_max, f64_sign, f64_exp, f64_frac. intros Hx.
  change 2047 with (Z.ones 11). change (2 ^ 52 - 1) with (Z.ones 52).
  rewrite !Z.land_ones, Z.shiftr_div_pow2 by lia.
  pose proof (Z.mod_pos_bound (x / 2 ^ 52) (2 ^ 11)). pose proof (Z.mod_pos_bound x (2 ^ 52)).
  split; [|lia].
  assert (x / 2 ^ 52 / 2 ^ 11 = if Z.testbit x 63 then 1 else 0) as E.
  { rewrite Z.div_div by lia. change (2 ^ 52 * 2 ^ 11) with (2 ^ 63). rewrite Z.testbit_eqb by lia.
    assert (0 <= x / 2 ^ 63 < 2) as B by (split; [apply Z.div_pos | apply Z.div_lt_upper_bound]; lia).
    rewrite Z.mod_small by lia. destruct (Z.eqb_spec (x / 2 ^ 63) 1); lia. }
  pose proof (Z.div_mod x (2 ^ 52)). pose proof (Z.div_mod (x / 2 ^ 52) (2 ^ 11)).
  destruct (Z.testbit x 63); lia.
Qed.

Lemma f64_pack_eq s e m : f64_pack s e m = (if s then 2 ^ 63 else 0) + e * 2 ^ 52 + m.
Proof. unfold f64_pack. now rewrite Z.shiftl_mul_pow2. Qed.

Lemma f64_encode_decode x : is_u64 x -> f64_is_nan x = false -> f64_encode (f64_decode x) = x.
Proof.
  intros Hx Hn. destruct (f64_fields x Hx) as (E & He & Hm). unfold f64_is_nan in Hn. unfold f64_decode.
  destruct (Z.eqb_spec (f64_exp x) 2047) as [E2|E2]; cbn [andb] in Hn.
  - destruct (Z.eqb_spec (f64_frac x) 0) as [F|F]; [|discriminate Hn].
    cbn [f64_encode]. rewrite f64_pack_eq. lia.
  - destruct (Z.eqb_spec (f64_exp x) 0) as [E0|E0].
    + destruct (f64_frac x) eqn:F; cbn [f64_encode].
      * rewrite f64_pack_eq. lia.
      * rewrite (proj2 (Z.ltb_lt _ _)), f64_pack_eq by lia. lia.
      * lia.
    + destruct (f64_frac x + 2 ^ 52) eqn:F; cbn [f64_encode]; [lia | | lia].
      rewrite (proj2 (Z.ltb_ge _ _)), f64_pack_eq by lia. lia.
Qed.

Lemma f64_is_nan_decode x : is_u64 x -> f64_is_nan x = true <-> f64_decode x = S754_nan.
Proof.
  intros Hx. destruct (f64_fields x Hx) as (E & He & Hm). unfold f64_is_nan, f64_decode.
  revert He Hm. generalize (f64_exp x) as e, (f64_frac x) as m. intros e m He Hm.
  destruct (Z.eqb_spec e 2047), (Z.eqb_spec m 0), (Z.eqb_spec e 0); cbn [andb negb]; try lia;
    (split; [congruence || discriminate | destruct (m + 2 ^ 52), m; congruence]).
Qed.

Definition is_zero (f : spec_float) : bool := match f with S754_zero _ => true | _ => false end.

Lemma SFeqb_cases f g : SFeqb f g = true <-> (f = g /\ f <> S754_nan) \/ (is_zero f && is_zero g = true).
Proof.
  unfold SFeqb. destruct f as [s|s| |s m e], g as [s'|s'| |s' m' e']; cbn;
    try (destruct s); try (destruct s'); cbn; try (split; [intros; try discriminate; auto | intros [[? ?]|?]; congruence]).
  all: try (split; [intros; left; split; congruence | reflexivity]).
  all: change (Pos.compare_cont Eq ?x ?y) with (Pos.compare x y);
    destruct (Z.compare_spec e e') as [->|?|?], (Pos.compare_spec m m') as [->|?|?]; cbn;
    (split; [intros; first [discriminate | left; split; congruence] | intros [[E _]|E]; [inversion E; subst; first [reflexivity | lia] | discriminate]]).
Qed.

Lemma f64_decode_zero x : is_u64 x -> is_zero (f64_decode x) = true <-> x = 0 \/ x = 2 ^ 63.
Proof.
  intros Hx. split.
  - intros H. destruct (f64_decode x) as [s| | |] eqn:D; try discriminate.
    assert (f64_is_nan x = false) as Hn.
    { destruct (f64_is_nan x) eqn:N; [|reflexivity]. apply f64_is_nan_decode in N; congruence. }
    rewrite <- (f64_encode_decode x Hx Hn), D. cbn [f64_encode]. rewrite f64_pack_eq. destruct s; [right | left]; lia.
  - now intros [-> | ->].
Qed.

Lemma f64_eq_spec a b : is_u64 a -> is_u64 b -> f64_is_nan a = false ->
  f64_eq a b = true <-> a = b \/ ((a = 0 \/ a = 2 ^ 63) /\ (b = 0 \/ b = 2 ^ 63)).
Proof.
  intros Ha Hb Na. unfold f64_eq. rewrite SFeqb_cases, andb_true_iff, !f64_decode_zero by assumption.
  split; (intros [H|H]; [left | right; exact H]).
  - destruct H as [E N].
    assert (f64_is_nan b = false) as Nb.
    { destruct (f64_is_nan b) eqn:E'; [|reflexivity]. apply f64_is_nan_decode in E'; congruence. }
    rewrite <- (f64_encode_decode a Ha Na), <- (f64_encode_decode b Hb Nb). now rewrite E.
  - subst b. split; [reflexivity|]. intros N. apply f64_is_nan_decode in N; congruence.
Qed.

Lemma f64_eq_nan a b : f64_is_nan a = true -> f64_eq a b = false.
Proof.
  unfold f64_is_nan, f64_eq, f64_decode, SFeqb. intros [E N]%andb_true_iff. rewrite E.
  now destruct (f64_frac a =? 0).
Qed.

Example f64_of_1 : f64_of_i64 1 = 4607182418800017408. Proof. reflexivity. Qed.
Example f64_0_1_plus_0_2 : f64_add 4591870180066957722 4596373779694328218 = 4599075939470750516.
Proof. vm_compute. reflexivity. Qed.
Example f64_7_5_rem_m2 : f64_rem (f64_div (f64_of_i64 15) (f64_of_i64 2)) (f64_of_i64 (-2)) = f64_div (f64_of_i64 3) (f64_of_i64 2).
Proof. vm_compute. reflexivity. Qed.
