(* ===== verification/SqlValue.v ===== *)
(** * SQL values ([src/sql/types/value.rs])

    Data types and values, their equality, hash and order, and the checked
    arithmetic of the SQL operators.  A SQL string is its UTF-8 bytes (Rust
    compares strings byte-wise), an integer is a [Z] in the range of [i64], a
    float its bit pattern.  Error messages are the literal part of the format
    string.  An arithmetic operation of the language that panics is [Panic]. *)
From S2P Require Import Prelude Bytes Keycode KeycodeTheory Float64.

Inductive DataType : Type := TBoolean | TInteger | TFloat | TString.

#[export] Instance DataType_eq_dec : EqDecision DataType.
Proof. solve_decision. Defined.

Inductive Value : Type :=
  | Null
  | Boolean (b : bool)
  | Integer (i : Z)
  | Float (f : f64)
  | String (s : bytes).

#[export] Instance Value_eq_dec : EqDecision Value.
Proof. solve_decision. Defined.

(** The values the Rust type can hold. *)
Definition value_ok (v : Value) : Prop :=
  match v with
  | Integer i => is_i64 i
  | Float f => is_u64 f
  | _ => True
  end.

(** [serialize_f64]: -0.0 and -NaN are written as their positive counterpart.
    The same normalization precedes hashing. *)
Definition normalize_f64 (x : f64) : f64 :=
  if (f64_is_nan x || f64_eq x 0) && f64_is_sign_negative x then f64_neg x else x.

(** [PartialEq]: code-level equality, in which NULL = NULL and NaN = NaN. *)
Definition value_eq (a b : Value) : bool :=
  match a, b with
  | Boolean a, Boolean b => Bool.eqb a b
  | Integer a, Integer b => a =? b
  | Integer a, Float b => f64_eq (f64_of_i64 a) b
  | Float a, Integer b => f64_eq a (f64_of_i64 b)
  | Float a, Float b => f64_eq a b || (f64_is_nan a && f64_is_nan b)
  | String a, String b => bool_decide (a = b)
  | Null, Null => true
  | _, _ => false
  end.

(** What [Hash] feeds to the hasher: the discriminant, then the payload. *)
Definition value_hash (v : Value) : nat * Value :=
  match v with
  | Null => (0%nat, Null)
  | Boolean _ => (1%nat, v)
  | Integer _ => (2%nat, v)
  | Float f => (3%nat, Float (normalize_f64 f))
  | String _ => (4%nat, v)
  end.

Definition bool_cmp (a b : bool) : comparison :=
  match a, b with
  | false, true => Lt
  | true, false => Gt
  | _, _ => Eq
  end.

(** [Ord] *)
Definition value_cmp (a b : Value) : comparison :=
  match a, b with
  | Null, Null => Eq
  | Boolean a, Boolean b => bool_cmp a b
  | Integer a, Integer b => a ?= b
  | Integer a, Float b => f64_total_cmp (f64_of_i64 a) b
  | Float a, Integer b => f64_total_cmp a (f64_of_i64 b)
  | Float a, Float b => f64_total_cmp a b
  | String a, String b => lex_cmp a b
  | Null, _ => Lt
  | _, Null => Gt
  | Boolean _, _ => Lt
  | _, Boolean _ => Gt
  | Float _, _ => Lt
  | _, Float _ => Gt
  | Integer _, _ => Lt
  | _, Integer _ => Gt
  end.

(** ** Checked integer arithmetic *)
Definition i64_fits (wide : Z) : option Z :=
  if (i64_max <? wide) || (wide <? i64_min) then None else Some wide.

Definition checked_add_i64 (a b : Z) : option Z := i64_fits (a + b).
Definition checked_sub_i64 (a b : Z) : option Z := i64_fits (a - b).
Definition checked_mul_i64 (a b : Z) : option Z := i64_fits (a * b).

(** [i64::checked_pow]: exponentiation by squaring, on the bits of the exponent. *)
Fixpoint checked_pow_loop (acc base : Z) (exp : positive) : option Z :=
  match exp with
  | xH => checked_mul_i64 acc base
  | xI exp => acc ← checked_mul_i64 acc base; base ← checked_mul_i64 base base; checked_pow_loop acc base exp
  | xO exp => base ← checked_mul_i64 base base; checked_pow_loop acc base exp
  end.
Definition checked_pow_i64 (a e : Z) : option Z :=
  match e with
  | Zpos p => checked_pow_loop 1 a p
  | _ => Some 1
  end.

(** [try_into::<u32>()] *)
Definition try_into_u32 (z : Z) : option Z :=
  if (0 <=? z) && (z <? 2 ^ 32) then Some z else None.

Definition int_or_overflow (r : option Z) : outcome Value :=
  match r with
  | Some i => Ok (Integer i)
  | None => errinput "integer overflow"
  end.

Definition datatype (v : Value) : option DataType :=
  match v with
  | Null => None
  | Boolean _ => Some TBoolean
  | Integer _ => Some TInteger
  | Float _ => Some TFloat
  | String _ => Some TString
  end.

Definition is_undefined (v : Value) : bool :=
  match v with
  | Null => true
  | Float f => f64_is_nan f
  | _ => false
  end.

Definition checked_add (lhs rhs : Value) : outcome Value :=
  match lhs, rhs with
  | Integer l, Integer r => int_or_overflow (checked_add_i64 l r)
  | Integer l, Float r => Ok (Float (f64_add (f64_of_i64 l) r))
  | Float l, Integer r => Ok (Float (f64_add l (f64_of_i64 r)))
  | Float l, Float r => Ok (Float (f64_add l r))
  | Null, (Integer _ | Float _ | Null) => Ok Null
  | (Integer _ | Float _), Null => Ok Null
  | _, _ => errinput "can't add"
  end.

(** [lhs / rhs] and [lhs % rhs] on [i64] panic on overflow. *)
Definition i64_div (l r : Z) : outcome Z :=
  if (l =? i64_min) && (r =? -1) then Panic "attempt to divide with overflow" else Ok (Z.quot l r).
Definition i64_rem (l r : Z) : outcome Z :=
  if (l =? i64_min) && (r =? -1) then Panic "attempt to calculate the remainder with overflow"
  else Ok (Z.rem l r).

Definition checked_div (lhs rhs : Value) : outcome Value :=
  match lhs, rhs with
  | Integer l, Integer r =>
      if r =? 0 then errinput "can't divide by zero" else outcome_map Integer (i64_div l r)
  | Integer l, Float r => Ok (Float (f64_div (f64_of_i64 l) r))
  | Float l, Integer r => Ok (Float (f64_div l (f64_of_i64 r)))
  | Float l, Float r => Ok (Float (f64_div l r))
  | Null, (Integer _ | Float _ | Null) => Ok Null
  | (Integer _ | Float _), Null => Ok Null
  | _, _ => errinput "can't divide"
  end.

Definition checked_mul (lhs rhs : Value) : outcome Value :=
  match lhs, rhs with
  | Integer l, Integer r => int_or_overflow (checked_mul_i64 l r)
  | Integer l, Float r => Ok (Float (f64_mul (f64_of_i64 l) r))
  | Float l, Integer r => Ok (Float (f64_mul l (f64_of_i64 r)))
  | Float l, Float r => Ok (Float (f64_mul l r))
  | Null, (Integer _ | Float _ | Null) => Ok Null
  | (Integer _ | Float _), Null => Ok Null
  | _, _ => errinput "can't multiply"
  end.

Definition checked_pow `{F64Pow} (lhs rhs : Value) : outcome Value :=
  match lhs, rhs with
  | Integer l, Integer r =>
      if 0 <=? r then
        match try_into_u32 r with
        | None => errinput "integer overflow"
        | Some r => int_or_overflow (checked_pow_i64 l r)
        end
      else Ok (Float (powf (f64_of_i64 l) (f64_of_i64 r)))
  | Integer l, Float r => Ok (Float (powf (f64_of_i64 l) r))
  | Float l, Integer r => Ok (Float (powi l (i32 r)))
  | Float l, Float r => Ok (Float (powf l r))
  | (Integer _ | Float _), Null => Ok Null
  | Null, (Integer _ | Float _ | Null) => Ok Null
  | _, _ => errinput "can't exponentiate"
  end.

Definition checked_rem (lhs rhs : Value) : outcome Value :=
  match lhs, rhs with
  | Integer l, Integer r =>
      if r =? 0 then errinput "can't divide by zero" else outcome_map Integer (i64_rem l r)
  | Integer l, Float r => Ok (Float (f64_rem (f64_of_i64 l) r))
  | Float l, Integer r => Ok (Float (f64_rem l (f64_of_i64 r)))
  | Float l, Float r => Ok (Float (f64_rem l r))
  | (Integer _ | Float _ | Null), Null => Ok Null
  | Null, (Integer _ | Float _) => Ok Null
  | _, _ => errinput "can't take remainder of"
  end.

Definition checked_sub (lhs rhs : Value) : outcome Value :=
  match lhs, rhs with
  | Integer l, Integer r => int_or_overflow (checked_sub_i64 l r)
  | Integer l, Float r => Ok (Float (f64_sub (f64_of_i64 l) r))
  | Float l, Integer r => Ok (Float (f64_sub l (f64_of_i64 r)))
  | Float l, Float r => Ok (Float (f64_sub l r))
  | Null, (Integer _ | Float _ | Null) => Ok Null
  | (Integer _ | Float _), Null => Ok Null
  | _, _ => errinput "can't subtract"
  end.

(** Rows and row iterators: the items an iterator yields. *)
Notation Row := (list Value).
Notation Rows := (list (outcome Row)).

(** A column label. *)
Inductive Label : Type :=
  | NoLabel
  | Unqualified (name : bytes)
  | Qualified (table column : bytes).

#[export] Instance Label_eq_dec : EqDecision Label.
Proof. solve_decision. Defined.
