(* ===== verification/SqlValueTheory.v ===== *)
(** * SQL values: exact arithmetic, equality, hashing and order

    The integer operators return the exact result or a defined error, never a
    wrapped value; the order is a linear order on the values one column can
    hold; equal values of one type hash alike. *)
From S2P Require Import Prelude Bytes Keycode KeycodeTheory Float64 SqlValue.

(** ** Integer arithmetic *)
Lemma i64_fits_some z : is_i64 z -> i64_fits z = Some z.
Proof. unfold is_i64, i64_fits. intros. destruct (Z.ltb_spec i64_max z), (Z.ltb_spec z i64_min); cbn; try lia; reflexivity. Qed.
Lemma i64_fits_none z : ~ is_i64 z -> i64_fits z = None.
Proof. unfold is_i64, i64_fits. intros. destruct (Z.ltb_spec i64_max z), (Z.ltb_spec z i64_min); cbn; try lia; reflexivity. Qed.
Lemma is_i64_dec z : {is_i64 z} + {~ is_i64 z}.
Proof. unfold is_i64. destruct (Z_le_dec i64_min z), (Z_le_dec z i64_max); (left; lia) || (right; lia). Defined.

(** A square that does not fit, or a product that does not fit, stays out of
    range under the squares still to be multiplied in. *)
Lemma out_of_range_mul x y : 0 < y -> ~ is_i64 x -> ~ is_i64 (x * y).
Proof. unfold is_i64, i64_min, i64_max. nia. Qed.

Lemma square_out_of_range x : ~ is_i64 (x * x) -> 2 ^ 63 < x * x.
Proof.
  unfold is_i64, i64_min, i64_max. intros H. change (2 ^ 63) with 9223372036854775808.
  assert (9223372036854775807 < x * x) by nia.
  assert (3037000499 < Z.abs x) by (destruct (Z.lt_ge_cases 3037000499 (Z.abs x)); [assumption | nia]).
  nia.
Qed.

Lemma out_of_range_square x a : a <> 0 -> ~ is_i64 (x * x) -> ~ is_i64 (a * (x * x)).
Proof.
  intros Ha H%square_out_of_range. unfold is_i64, i64_min, i64_max. change (2 ^ 63) with 9223372036854775808 in H. nia.
Qed.

Lemma pow_square_pos x p : x <> 0 -> 0 < (x * x) ^ Zpos p.
Proof. intros. apply Z.pow_pos_nonneg; nia. Qed.

Lemma checked_pow_loop_spec p : forall acc base,
  (base = 0 \/ acc <> 0) ->
  checked_pow_loop acc base p = i64_fits (acc * base ^ Zpos p).
Proof.
  induction p as [p IH|p IH|]; intros acc base Hnz; cbn [checked_pow_loop].
  - unfold checked_mul_i64. rewrite Pos2Z.inj_xI, Z.pow_add_r, Z.pow_1_r, Z.pow_mul_r, Z.pow_2_r by lia.
    destruct (is_i64_dec (acc * base)) as [H1|H1].
    + rewrite (i64_fits_some _ H1). cbn. destruct (is_i64_dec (base * base)) as [H2|H2].
      * rewrite (i64_fits_some _ H2). cbn. rewrite IH by nia. f_equal. lia.
      * rewrite (i64_fits_none _ H2). cbn. symmetry. apply i64_fits_none.
        assert (base <> 0) by (intros ->; apply H2; now vm_compute).
        replace (Zpos p) with (Z.pred (Zpos p) + 1) by lia. rewrite Z.pow_add_r, Z.pow_1_r by lia.
        replace (acc * ((base * base) ^ Z.pred (Zpos p) * (base * base) * base))
          with ((acc * base * (base * base) ^ Z.pred (Zpos p)) * (base * base)) by ring.
        apply out_of_range_square; [|exact H2].
        assert (0 < (base * base) ^ Z.pred (Zpos p)) by (apply Z.pow_pos_nonneg; nia). nia.
    + rewrite (i64_fits_none _ H1). cbn. symmetry. apply i64_fits_none.
      replace (acc * ((base * base) ^ Zpos p * base)) with (acc * base * (base * base) ^ Zpos p) by ring.
      apply out_of_range_mul; [|exact H1]. apply pow_square_pos.
      intros ->. apply H1. rewrite Z.mul_0_r. now vm_compute.
  - unfold checked_mul_i64. rewrite Pos2Z.inj_xO, Z.pow_mul_r, Z.pow_2_r by lia.
    destruct (is_i64_dec (base * base)) as [H2|H2].
    + rewrite (i64_fits_some _ H2). cbn. apply IH. nia.
    + rewrite (i64_fits_none _ H2). cbn. symmetry. apply i64_fits_none.
      assert (base <> 0) by (intros ->; apply H2; now vm_compute).
      replace (Zpos p) with (Z.pred (Zpos p) + 1) by lia. rewrite Z.pow_add_r, Z.pow_1_r by lia.
      rewrite Z.mul_assoc. apply out_of_range_square; [|exact H2].
      assert (0 < (base * base) ^ Z.pred (Zpos p)) by (apply Z.pow_pos_nonneg; nia). nia.
  - unfold checked_mul_i64. now rewrite Z.pow_1_r.
Qed.

Lemma checked_pow_i64_spec a e : 0 <= e -> checked_pow_i64 a e = i64_fits (a ^ e).
Proof.
  intros He. destruct e as [|p|p]; cbn [checked_pow_i64]; [reflexivity | | lia].
  rewrite checked_pow_loop_spec by lia. f_equal. lia.
Qed.

(** [r] is the exact result [z], or the overflow error if [z] is not an [i64]. *)
Definition exact_or_overflow (z : Z) (r : outcome Value) : Prop :=
  (is_i64 z /\ r = Ok (Integer z)) \/ (~ is_i64 z /\ r = errinput "integer overflow").

Lemma exact_i64_fits z : exact_or_overflow z (int_or_overflow (i64_fits z)).
Proof.
  destruct (is_i64_dec z) as [H|H]; [left | right]; split; try assumption.
  - now rewrite i64_fits_some.
  - now rewrite i64_fits_none.
Qed.

Lemma quot_is_i64 a b : is_i64 a -> b <> 0 -> ~ (a = i64_min /\ b = -1) -> is_i64 (Z.quot a b).
Proof.
  unfold is_i64, i64_min, i64_max. intros Ha Hb Hn.
  assert (Z.abs (Z.quot a b) <= Z.abs a) as H.
  { rewrite <- Z.quot_abs by lia. apply Z.quot_le_upper_bound; nia. }
  assert (Z.quot a b = 9223372036854775808 -> False); [|lia].
  intros E. pose proof (Z.quot_rem' a b) as Q. pose proof (Z.rem_bound_abs a b Hb). rewrite E in Q.
  assert (Z.abs (Z.rem a b) <= Z.abs a) by nia. nia.
Qed.

Lemma rem_is_i64 a b : is_i64 b -> b <> 0 -> is_i64 (Z.rem a b).
Proof. unfold is_i64, i64_min, i64_max. intros. pose proof (Z.rem_bound_abs a b). lia. Qed.

(** C39: SQL integer arithmetic is exact.  On [i64] operands [+], [-], [*] and
    [^] with a non-negative exponent return the mathematical result when it is
    an [i64] and the "integer overflow" error otherwise; [/] and [%] return the
    truncated quotient and remainder (in range, with the sign of the dividend),
    fail on a zero divisor, and panic on [i64::MIN / -1] and nowhere else. *)
Theorem sql_integer_arithmetic `{F64Pow} a b :
  is_i64 a -> is_i64 b ->
  exact_or_overflow (a + b) (checked_add (Integer a) (Integer b)) /\
  exact_or_overflow (a - b) (checked_sub (Integer a) (Integer b)) /\
  exact_or_overflow (a * b) (checked_mul (Integer a) (Integer b)) /\
  (0 <= b < 2 ^ 32 -> exact_or_overflow (a ^ b) (checked_pow (Integer a) (Integer b))) /\
  (2 ^ 32 <= b -> checked_pow (Integer a) (Integer b) = errinput "integer overflow") /\
  (b = 0 -> checked_div (Integer a) (Integer b) = errinput "can't divide by zero" /\
            checked_rem (Integer a) (Integer b) = errinput "can't divide by zero") /\
  (b <> 0 -> ~ (a = i64_min /\ b = -1) ->
     checked_div (Integer a) (Integer b) = Ok (Integer (Z.quot a b)) /\ is_i64 (Z.quot a b) /\
     checked_rem (Integer a) (Integer b) = Ok (Integer (Z.rem a b)) /\ is_i64 (Z.rem a b)) /\
  (a = i64_min /\ b = -1 ->
     checked_div (Integer a) (Integer b) = Panic "attempt to divide with overflow" /\
     checked_rem (Integer a) (Integer b) = Panic "attempt to calculate the remainder with overflow").
Proof.
  intros Ha Hb. cbn [checked_add checked_sub checked_mul checked_pow checked_div checked_rem].
  split; [apply exact_i64_fits|]. split; [apply exact_i64_fits|]. split; [apply exact_i64_fits|].
  split; [|split; [|split; [|split]]].
  - intros Hr. unfold try_into_u32. rewrite (proj2 (Z.leb_le 0 b)), (proj2 (Z.ltb_lt b (2 ^ 32))) by lia.
    cbn [andb]. rewrite checked_pow_i64_spec by lia. apply exact_i64_fits.
  - intros Hr. unfold try_into_u32. rewrite (proj2 (Z.leb_le 0 b)), (proj2 (Z.ltb_ge b (2 ^ 32))) by lia.
    reflexivity.
  - intros ->. now split.
  - intros Hz Hn. rewrite (proj2 (Z.eqb_neq b 0)) by assumption. unfold i64_div, i64_rem.
    destruct (Z.eqb_spec a i64_min), (Z.eqb_spec b (-1)); cbn [andb outcome_map outcome_bind];
      try (exfalso; now apply Hn); (split; [reflexivity|]; split; [now apply quot_is_i64|];
      split; [reflexivity | now apply rem_is_i64]).
  - intros [-> ->]. split; reflexivity.
Qed.

(** ** Order *)

(** Values a single column can hold: NULL, or of one data type. *)
Definition in_column (t : DataType) (v : Value) : Prop :=
  value_ok v /\ (v = Null \/ datatype v = Some t).

Lemma f64_total_cmp_eq a b : is_u64 a -> is_u64 b -> f64_total_cmp a b = Eq -> a = b.
Proof.
  unfold f64_total_cmp. intros Ha Hb E%Z.compare_eq. rewrite !f64_total_key_eq in E by assumption.
  rewrite <- (decode_f64_key_encode a), <- (decode_f64_key_encode b) by assumption. f_equal. lia.
Qed.

Lemma bool_cmp_antisym a b : bool_cmp b a = CompOpp (bool_cmp a b).
Proof. now destruct a, b. Qed.

Lemma value_cmp_antisym a b : value_cmp b a = CompOpp (value_cmp a b).
Proof.
  destruct a, b; cbn; try reflexivity;
    first [apply bool_cmp_antisym | apply Z.compare_antisym | apply lex_cmp_antisym].
Qed.

Lemma value_cmp_refl a : value_cmp a a = Eq.
Proof.
  destruct a as [|[]| | |]; cbn; try reflexivity; [apply Z.compare_refl .. | apply lex_cmp_refl].
Qed.

Lemma value_cmp_eq t a b : in_column t a -> in_column t b -> value_cmp a b = Eq -> a = b.
Proof.
  intros [Wa Ta] [Wb Tb] E.
  destruct a, b; cbn in *; try discriminate E; try (destruct Ta, Tb; congruence).
  - destruct b, b0; cbn in E; congruence.
  - now apply Z.compare_eq in E as ->.
  - f_equal. now apply f64_total_cmp_eq.
  - now apply lex_cmp_eq in E as ->.
Qed.

Lemma value_cmp_trans t a b c :
  in_column t a -> in_column t b -> in_column t c ->
  value_cmp a b = Lt -> value_cmp b c = Lt -> value_cmp a c = Lt.
Proof.
  intros [Wa Ta] [Wb Tb] [Wc Tc] E1 E2.
  destruct a, b, c; cbn in *; try discriminate; try reflexivity; try (destruct Ta, Tb, Tc; congruence).
  - destruct b, b0, b1; cbn in *; congruence.
  - rewrite Z.compare_lt_iff in *. lia.
  - unfold f64_total_cmp in *. rewrite Z.compare_lt_iff in *. lia.
  - rewrite <- lex_lt_cmp in *. eauto using lex_lt_trans.
Qed.

(** On the values one column can hold (NULL or a value of the column's
    type), [Value::cmp] is a linear order: reflexive, antisymmetric, transitive
    and total, with [Equal] only for identical values and NULL first.  The sort
    of ORDER BY and the ordered maps keyed by values rely on it. *)
Theorem sql_value_order t a b c :
  in_column t a -> in_column t b -> in_column t c ->
  (value_cmp a b = Eq <-> a = b) /\
  value_cmp b a = CompOpp (value_cmp a b) /\
  (value_cmp a b = Lt -> value_cmp b c = Lt -> value_cmp a c = Lt) /\
  (a <> Null -> value_cmp Null a = Lt).
Proof.
  intros Ha Hb Hc. split; [|split; [apply value_cmp_antisym | split]].
  - split; [now apply (value_cmp_eq t) | intros ->; apply value_cmp_refl].
  - now apply (value_cmp_trans t).
  - now destruct a.
Qed.

(** ** Equality and hashing *)
Lemma normalize_f64_zero x : x = 0 \/ x = 2 ^ 63 -> normalize_f64 x = 0.
Proof. now intros [-> | ->]. Qed.

Lemma normalize_f64_other x :
  is_u64 x -> f64_is_nan x = false -> x <> 0 -> x <> 2 ^ 63 -> normalize_f64 x = x.
Proof.
  intros Hx N H0 H1. unfold normalize_f64. rewrite N. cbn [orb].
  destruct (f64_eq x 0) eqn:E; [|reflexivity].
  apply f64_eq_spec in E as [E|E]; [easy | destruct E as [[?|?] _]; easy | assumption | easy | assumption].
Qed.

Lemma f64_eq_normalize a b :
  is_u64 a -> is_u64 b -> f64_is_nan a = false -> f64_is_nan b = false ->
  f64_eq a b = true <-> normalize_f64 a = normalize_f64 b.
Proof.
  intros Ha Hb Na Nb. rewrite f64_eq_spec by assumption.
  destruct (decide (a = 0 \/ a = 2 ^ 63)) as [Za|Za], (decide (b = 0 \/ b = 2 ^ 63)) as [Zb|Zb].
  - rewrite !normalize_f64_zero by assumption. tauto.
  - rewrite (normalize_f64_zero a), (normalize_f64_other b) by (assumption || tauto).
    split; [intros [->|[]]; tauto | intros <-; tauto].
  - rewrite (normalize_f64_zero b), (normalize_f64_other a) by (assumption || tauto).
    split; [intros [->|[]]; tauto | intros ->; tauto].
  - rewrite !normalize_f64_other by (assumption || tauto). tauto.
Qed.

(** Defined values of one column are equal exactly if they hash alike. *)
Lemma value_eq_hash t a b :
  in_column t a -> in_column t b -> is_undefined a = false -> is_undefined b = false ->
  value_eq a b = true <-> value_hash a = value_hash b.
Proof.
  intros [Wa Ta] [Wb Tb] Ua Ub.
  destruct a, b; cbn in *; try discriminate; try (destruct Ta, Tb; congruence).
  - rewrite eqb_true_iff. split; [now intros -> | now intros [= ->]].
  - rewrite Z.eqb_eq. split; [now intros -> | now intros [= ->]].
  - rewrite Ua, andb_false_l, orb_false_r, f64_eq_normalize by assumption.
    split; [now intros -> | now intros [= ->]].
  - rewrite bool_decide_eq_true. split; [now intros -> | now intros [= ->]].
Qed.

(** An undefined value equals no defined value. *)
Lemma value_eq_undefined t a b :
  in_column t a -> in_column t b -> is_undefined a <> is_undefined b -> value_eq a b = false.
Proof.
  intros [Wa Ta] [Wb Tb] U.
  destruct a, b; cbn in *; try reflexivity; try congruence; try (destruct Ta, Tb; congruence).
  destruct (f64_is_nan f) eqn:N.
  - rewrite f64_eq_nan by assumption. now destruct (f64_is_nan f0).
  - destruct (f64_is_nan f0) eqn:N0; [|easy]. rewrite f64_eq_sym, f64_eq_nan by assumption. easy.
Qed.

Lemma value_eq_sym a b : value_eq a b = value_eq b a.
Proof.
  destruct a, b; cbn; try reflexivity.
  - now destruct b, b0.
  - apply Z.eqb_sym.
  - apply f64_eq_sym.
  - apply f64_eq_sym.
  - now rewrite f64_eq_sym, andb_comm.
  - apply bool_decide_ext. split; congruence.
Qed.
