(* ===== verification/SqlExpr.v ===== *)
(** * SQL expressions ([src/sql/types/expression.rs], [ConstantFolding] of
    [src/sql/planner/optimizer.rs])

    The expression tree, its evaluation, traversal and transformation, the
    normal forms, column lookups and constant folding.

    [transform] recurses into the result of [before], so it is not structural:
    it takes fuel.  Every caller passes the size of the expression, and the
    theory file shows that this is enough for the closures the program uses.
    [walk]'s visitor is an [FnMut]: its captured state is passed along.  The
    [regex] crate is the class [Regex]. *)
From S2P Require Import Prelude Bytes Float64 SqlValue.

Inductive Expression : Type :=
  | Constant (v : Value)
  | Column (i : nat)
  | And (lhs rhs : Expression)
  | Or (lhs rhs : Expression)
  | Not (expr : Expression)
  | Equal (lhs rhs : Expression)
  | GreaterThan (lhs rhs : Expression)
  | LessThan (lhs rhs : Expression)
  | Is (expr : Expression) (v : Value)
  | Add (lhs rhs : Expression)
  | Divide (lhs rhs : Expression)
  | Exponentiate (lhs rhs : Expression)
  | Factorial (expr : Expression)
  | Identity (expr : Expression)
  | Multiply (lhs rhs : Expression)
  | Negate (expr : Expression)
  | Remainder (lhs rhs : Expression)
  | SquareRoot (expr : Expression)
  | Subtract (lhs rhs : Expression)
  | Like (lhs rhs : Expression).

#[export] Instance Expression_eq_dec : EqDecision Expression.
Proof. solve_decision. Defined.

(** [regex::escape], and [Regex::new(pattern)?.is_match(text)]. *)
Class Regex : Type := {
  regex_escape : bytes -> bytes;
  regex_match : bytes -> bytes -> outcome bool;
}.

(** [str::replace] of an ASCII character. *)
Definition replace_byte (b : byte) (by_ : bytes) (s : bytes) : bytes :=
  s ≫= fun c => if bool_decide (c = b) then by_ else [c].

Section Evaluate.
Context `{F64Pow, Regex}.

(** The arms of [evaluate], on the values of the operands. *)
Definition eval_and (lhs rhs : Value) : outcome Value :=
  match lhs, rhs with
  | Boolean l, Boolean r => Ok (Boolean (l && r))
  | Boolean false, Null | Null, Boolean false => Ok (Boolean false)
  | Boolean _, Null | Null, Boolean _ | Null, Null => Ok Null
  | _, _ => errinput "can't AND"
  end.

Definition eval_or (lhs rhs : Value) : outcome Value :=
  match lhs, rhs with
  | Boolean l, Boolean r => Ok (Boolean (l || r))
  | Boolean true, Null | Null, Boolean true => Ok (Boolean true)
  | Boolean _, Null | Null, Boolean _ | Null, Null => Ok Null
  | _, _ => errinput "can't OR"
  end.

Definition eval_not (v : Value) : outcome Value :=
  match v with
  | Boolean b => Ok (Boolean (negb b))
  | Null => Ok Null
  | _ => errinput "can't NOT"
  end.

Definition eval_equal (lhs rhs : Value) : outcome Value :=
  match lhs, rhs with
  | Boolean l, Boolean r => Ok (Boolean (Bool.eqb l r))
  | Integer l, Integer r => Ok (Boolean (l =? r))
  | Integer l, Float r => Ok (Boolean (f64_eq (f64_of_i64 l) r))
  | Float l, Integer r => Ok (Boolean (f64_eq l (f64_of_i64 r)))
  | Float l, Float r => Ok (Boolean (f64_eq l r))
  | String l, String r => Ok (Boolean (bool_decide (l = r)))
  | Null, _ | _, Null => Ok Null
  | _, _ => errinput "can't compare"
  end.

Definition eval_greater_than (lhs rhs : Value) : outcome Value :=
  match lhs, rhs with
  | Boolean l, Boolean r => Ok (Boolean (l && negb r))
  | Integer l, Integer r => Ok (Boolean (r <? l))
  | Integer l, Float r => Ok (Boolean (f64_gt (f64_of_i64 l) r))
  | Float l, Integer r => Ok (Boolean (f64_gt l (f64_of_i64 r)))
  | Float l, Float r => Ok (Boolean (f64_gt l r))
  | String l, String r => Ok (Boolean (lex_lt r l))
  | Null, _ | _, Null => Ok Null
  | _, _ => errinput "can't compare"
  end.

Definition eval_less_than (lhs rhs : Value) : outcome Value :=
  match lhs, rhs with
  | Boolean l, Boolean r => Ok (Boolean (negb l && r))
  | Integer l, Integer r => Ok (Boolean (l <? r))
  | Integer l, Float r => Ok (Boolean (f64_lt (f64_of_i64 l) r))
  | Float l, Integer r => Ok (Boolean (f64_lt l (f64_of_i64 r)))
  | Float l, Float r => Ok (Boolean (f64_lt l r))
  | String l, String r => Ok (Boolean (lex_lt l r))
  | Null, _ | _, Null => Ok Null
  | _, _ => errinput "can't compare"
  end.

(** [Is(expr, v)]: only IS NULL and IS NAN. *)
Definition eval_is (value : outcome Value) (v : Value) : outcome Value :=
  match v with
  | Null => let? x := value in Ok (Boolean (value_eq x Null))
  | Float f =>
      if f64_is_nan f then
        let? x := value in
        match x with
        | Float f => Ok (Boolean (f64_is_nan f))
        | Null => Ok Null
        | _ => errinput "IS NAN can't be used with"
        end
      else Panic "invalid IS value"
  | _ => Panic "invalid IS value"
  end.

(** [(1..=i).try_fold(Integer(1), checked_mul)], from [k] on.  The product
    overflows at 21, so that 22 rounds end the loop for every [i]. *)
Fixpoint factorial_loop (fuel : nat) (k i : Z) (p : Value) : outcome Value :=
  match fuel with
  | O => Panic "fuel exhausted"
  | S fuel =>
      if i <? k then Ok p
      else let? p := checked_mul p (Integer k) in factorial_loop fuel (k + 1) i p
  end.

Definition eval_factorial (v : Value) : outcome Value :=
  match v with
  | Integer i => if 0 <=? i then factorial_loop 22 1 i (Integer 1) else errinput "can't take factorial of"
  | Null => Ok Null
  | _ => errinput "can't take factorial of"
  end.

Definition eval_identity (v : Value) : outcome Value :=
  match v with
  | Integer _ | Float _ | Null => Ok v
  | _ => errinput "can't take the identity of"
  end.

Definition eval_negate (v : Value) : outcome Value :=
  match v with
  | Integer i => Ok (Integer (i64 (- i)))
  | Float f => Ok (Float (f64_neg f))
  | Null => Ok Null
  | _ => errinput "can't negate"
  end.

Definition eval_square_root (v : Value) : outcome Value :=
  match v with
  | Integer i => if 0 <=? i then Ok (Float (f64_sqrt (f64_of_i64 i))) else errinput "can't take square root of"
  | Float f => Ok (Float (f64_sqrt f))
  | Null => Ok Null
  | _ => errinput "can't take square root of"
  end.

(** ["^" + escape(rhs).replace('%', ".*").replace('_', ".") + "$"] *)
Definition like_pattern (rhs : bytes) : bytes :=
  [x5e] ++ replace_byte x5f [x2e] (replace_byte x25 [x2e; x2a] (regex_escape rhs)) ++ [x24].

Definition eval_like (lhs rhs : Value) : outcome Value :=
  match lhs, rhs with
  | String l, String r => let? b := regex_match (like_pattern r) l in Ok (Boolean b)
  | String _, Null | Null, String _ | Null, Null => Ok Null
  | _, _ => errinput "can't LIKE"
  end.

Fixpoint evaluate (row : option Row) (e : Expression) : outcome Value :=
  let unary f a := let? a := evaluate row a in f a in
  let binary f a b := let? a := evaluate row a in let? b := evaluate row b in f a b in
  match e with
  | Constant v => Ok v
  | Column i =>
      match row ≫= (.!! i) with
      | Some v => Ok v
      | None => Panic "invalid index"
      end
  | And l r => binary eval_and l r
  | Or l r => binary eval_or l r
  | Not x => unary eval_not x
  | Equal l r => binary eval_equal l r
  | GreaterThan l r => binary eval_greater_than l r
  | LessThan l r => binary eval_less_than l r
  | Is x v => eval_is (evaluate row x) v
  | Add l r => binary checked_add l r
  | Divide l r => binary checked_div l r
  | Exponentiate l r => binary checked_pow l r
  | Factorial x => unary eval_factorial x
  | Identity x => unary eval_identity x
  | Multiply l r => binary checked_mul l r
  | Negate x => unary eval_negate x
  | Remainder l r => binary checked_rem l r
  | SquareRoot x => unary eval_square_root x
  | Subtract l r => binary checked_sub l r
  | Like l r => binary eval_like l r
  end.

End Evaluate.

(** ** Traversal *)
Section Walk.
Context {S : Type} (visitor : Expression -> S -> bool * S).

Fixpoint walk (e : Expression) (s : S) : bool * S :=
  let '(go, s) := visitor e s in
  if negb go then (false, s)
  else
    match e with
    | Add l r | And l r | Divide l r | Equal l r | Exponentiate l r | GreaterThan l r | LessThan l r
    | Like l r | Multiply l r | Or l r | Remainder l r | Subtract l r =>
        let '(b, s) := walk l s in if (b : bool) then walk r s else (false, s)
    | Factorial x | Identity x | Is x _ | Negate x | Not x | SquareRoot x => walk x s
    | Constant _ | Column _ => (true, s)
    end.
End Walk.

Definition contains (visitor : Expression -> bool) (e : Expression) : bool :=
  negb (walk (fun e (_ : unit) => (negb (visitor e), tt)) e tt).1.

(** The middle step of [transform]: [f] on every child. *)
Definition map_children (f : Expression -> outcome Expression) (e : Expression) : outcome Expression :=
  let binary (c : Expression -> Expression -> Expression) l r :=
    let? l := f l in let? r := f r in Ok (c l r) in
  let unary (c : Expression -> Expression) x := let? x := f x in Ok (c x) in
  match e with
  | Add l r => binary Add l r
  | And l r => binary And l r
  | Divide l r => binary Divide l r
  | Equal l r => binary Equal l r
  | Exponentiate l r => binary Exponentiate l r
  | GreaterThan l r => binary GreaterThan l r
  | LessThan l r => binary LessThan l r
  | Like l r => binary Like l r
  | Multiply l r => binary Multiply l r
  | Or l r => binary Or l r
  | Remainder l r => binary Remainder l r
  | SquareRoot x => unary SquareRoot x
  | Subtract l r => binary Subtract l r
  | Factorial x => unary Factorial x
  | Identity x => unary Identity x
  | Is x v => unary (fun x => Is x v) x
  | Negate x => unary Negate x
  | Not x => unary Not x
  | Constant _ | Column _ => Ok e
  end.

Fixpoint transform (fuel : nat) (before after : Expression -> outcome Expression) (e : Expression) :
    outcome Expression :=
  match fuel with
  | O => Panic "fuel exhausted"
  | S fuel =>
      let? e := before e in
      let? e := map_children (transform fuel before after) e in
      after e
  end.

(** The number of nodes: the fuel for [transform]. *)
Fixpoint size (e : Expression) : nat :=
  match e with
  | Add l r | And l r | Divide l r | Equal l r | Exponentiate l r | GreaterThan l r | LessThan l r
  | Like l r | Multiply l r | Or l r | Remainder l r | Subtract l r => S (size l + size r)
  | Factorial x | Identity x | Is x _ | Negate x | Not x | SquareRoot x => S (size x)
  | Constant _ | Column _ => 1
  end.

(** ** Normal forms *)
Definition nnf_xform (e : Expression) : Expression :=
  match e with
  | Not inner =>
      match inner with
      | And l r => Or (Not l) (Not r)
      | Or l r => And (Not l) (Not r)
      | Not x => x
      | x => Not x
      end
  | e => e
  end.
Definition into_nnf (e : Expression) : outcome Expression :=
  transform (size e) (fun e => Ok (nnf_xform e)) Ok e.

Definition cnf_xform (e : Expression) : Expression :=
  match e with
  | Or lhs rhs =>
      match lhs, rhs with
      | And l r, rhs => And (Or l rhs) (Or r rhs)
      | lhs, And l r => And (Or lhs l) (Or lhs r)
      | lhs, rhs => Or lhs rhs
      end
  | e => e
  end.
Definition into_cnf (e : Expression) : outcome Expression :=
  let? e := into_nnf e in
  transform (size e) (fun e => Ok (cnf_xform e)) Ok e.

(** The work stack of [into_cnf_vec], top first. *)
Fixpoint cnf_vec_loop (fuel : nat) (stack cnf : list Expression) : outcome (list Expression) :=
  match stack with
  | [] => Ok cnf
  | e :: stack =>
      match fuel with
      | O => Panic "fuel exhausted"
      | S fuel =>
          match e with
          | And lhs rhs => cnf_vec_loop fuel (lhs :: rhs :: stack) cnf
          | e => cnf_vec_loop fuel stack (cnf ++ [e])
          end
      end
  end.
Definition into_cnf_vec (e : Expression) : outcome (list Expression) :=
  let? e := into_cnf e in cnf_vec_loop (size e) [e] [].

Definition and_vec (exprs : list Expression) : option Expression :=
  match exprs with
  | [] => None
  | e :: exprs => Some (fold_left And exprs e)
  end.

(** ** Column lookups *)
Fixpoint is_column_lookup (e : Expression) : option nat :=
  match e with
  | Equal lhs rhs =>
      match lhs, rhs with
      | Column c, Constant _ | Constant _, Column c => Some c
      | _, _ => None
      end
  | Is expr _ => match expr with Column c => Some c | _ => None end
  | Or lhs rhs =>
      match is_column_lookup lhs, is_column_lookup rhs with
      | Some l, Some r => if bool_decide (l = r) then Some l else None
      | _, _ => None
      end
  | _ => None
  end.

Fixpoint into_column_values (index : nat) (e : Expression) : outcome (list Value) :=
  match e with
  | Equal lhs rhs =>
      match lhs, rhs with
      | Column column, Constant value | Constant value, Column column =>
          if bool_decide (column = index)
          then Ok (if is_undefined value then [] else [value])
          else Panic "unexpected column"
      | _, _ => Panic "unexpected expression"
      end
  | Is expr value =>
      match expr with
      | Column column => if bool_decide (column = index) then Ok [value] else Panic "unexpected column"
      | _ => Panic "unexpected expression"
      end
  | Or lhs rhs =>
      let? l := into_column_values index lhs in
      let? r := into_column_values index rhs in
      Ok (l ++ r)
  | _ => Panic "unexpected expression"
  end.

Definition replace_column (from to : nat) (e : Expression) : outcome Expression :=
  transform (size e)
    (fun e => Ok (match e with
                  | Column i => if bool_decide (i = from) then Column to else e
                  | e => e
                  end)) Ok e.

(** [(i as isize + diff) as usize] *)
Definition shift_column (diff : Z) (e : Expression) : outcome Expression :=
  transform (size e)
    (fun e => Ok (match e with
                  | Column i => Column (Z.to_nat (u64 (Z.of_nat i + diff)))
                  | e => e
                  end)) Ok e.

(** ** Constant folding *)
Definition is_column (e : Expression) : bool := match e with Column _ => true | _ => false end.

Definition fold_logical (e : Expression) : Expression :=
  match e with
  | And lhs rhs =>
      match lhs, rhs with
      | Constant (Boolean false), _ | _, Constant (Boolean false) => Constant (Boolean false)
      | Constant (Boolean true), e | e, Constant (Boolean true) => e
      | lhs, rhs => And lhs rhs
      end
  | Or lhs rhs =>
      match lhs, rhs with
      | Constant (Boolean true), _ | _, Constant (Boolean true) => Constant (Boolean true)
      | Constant (Boolean false), e | e, Constant (Boolean false) => e
      | lhs, rhs => Or lhs rhs
      end
  | e => e
  end.

Definition fold `{F64Pow, Regex} (e : Expression) : outcome Expression :=
  if negb (contains is_column e) then outcome_map Constant (evaluate None e)
  else Ok (fold_logical e).

Definition fold_expression `{F64Pow, Regex} (e : Expression) : outcome Expression :=
  transform (size e) Ok fold e.
