(* ===== verification/SqlExprTheory.v ===== *)
(** * SQL expressions: the rewrites of the optimizer preserve evaluation

    [transform] ends with the fuel its callers give it and, where each closure
    keeps the value of an expression on a row, so does the whole transformation.
    The normal forms, constant folding, column renaming and column lookups are
    instances. *)
From S2P Require Import Prelude Bytes Float64 SqlValue KeycodeTheory SqlValueTheory SqlExpr.

(** The children [transform] descends into. *)
Definition children (e : Expression) : list Expression :=
  match e with
  | Add l r | And l r | Divide l r | Equal l r | Exponentiate l r | GreaterThan l r | LessThan l r
  | Like l r | Multiply l r | Or l r | Remainder l r | Subtract l r => [l; r]
  | Factorial x | Identity x | Is x _ | Negate x | Not x | SquareRoot x => [x]
  | Constant _ | Column _ => []
  end.

(** [before] leaves only children smaller than the node it was given. *)
Definition smaller (e e' : Expression) : Prop := forall c, In c (children e') -> (size c < size e)%nat.

Lemma size_pos e : (1 <= size e)%nat.
Proof. destruct e; cbn [size]; lia. Qed.

Lemma smaller_refl e : smaller e e.
Proof.
  intros c. destruct e; cbn [children size In]; intros Hc; intuition (subst; lia).
Qed.

Lemma nnf_xform_smaller e : smaller e (nnf_xform e).
Proof.
  destruct e; cbn [nnf_xform]; try apply smaller_refl.
  match goal with |- smaller (Not ?x) _ => destruct x end; try apply smaller_refl;
    intros c; cbn [children size In]; try (intros Hc; intuition (subst; cbn [size]; lia)).
  intros Hc. apply smaller_refl in Hc. lia.
Qed.

Lemma cnf_xform_smaller e : smaller e (cnf_xform e).
Proof.
  destruct e as [| |?|lhs rhs| | | | | | | | | | | | | | | |]; try apply smaller_refl.
  destruct lhs, rhs; try apply smaller_refl;
    intros c; cbn [cnf_xform children size In]; intros Hc; intuition (subst; cbn [size]; lia).
Qed.

(** ** Children *)
Lemma map_children_total f e :
  Forall (fun c => exists c', f c = Ok c') (children e) -> exists e', map_children f e = Ok e'.
Proof.
  destruct e; cbn [children map_children]; rewrite ?Forall_cons; intros Hc; decompose [and ex] Hc; clear Hc;
    repeat match goal with E : f _ = Ok _ |- _ => rewrite E; clear E; cbn [outcome_bind] end; eauto.
Qed.

Section Evaluation.
Context `{F64Pow, Regex}.

Lemma eval_is_ok o v w : eval_is o v = Ok w -> exists x, o = Ok x.
Proof.
  unfold eval_is. destruct v as [| | |f|]; try discriminate; [|destruct (f64_is_nan f); [|discriminate]];
    (destruct o; [eauto | discriminate ..]).
Qed.

(** All operands are evaluated: a node with a value has children with values. *)
Lemma map_children_eval row f e v :
  evaluate row e = Ok v ->
  Forall (fun c => forall w, evaluate row c = Ok w -> exists c', f c = Ok c' /\ evaluate row c' = Ok w)
    (children e) ->
  exists e', map_children f e = Ok e' /\ evaluate row e' = Ok v.
Proof.
  destruct e; cbn [children map_children evaluate]; rewrite ?Forall_cons; intros Hv Hc.
  1, 2: eexists; split; [reflexivity | exact Hv].
  all: try (destruct (eval_is_ok _ _ _ Hv) as [? ?]).
  all: repeat match goal with
    | Hv : outcome_bind ?o _ = Ok _ |- _ => destruct o eqn:?; cbn [outcome_bind] in Hv; [|discriminate Hv ..]
    end.
  all: decompose [and] Hc; clear Hc.
  all: repeat match goal with
    | HI : forall w, ?o = Ok w -> _, E : ?o = Ok _ |- _ =>
        destruct (HI _ E) as (? & -> & ?); clear HI; cbn [outcome_bind]
    | HI : forall w, Ok _ = Ok w -> _ |- _ =>
        destruct (HI _ eq_refl) as (? & -> & ?); clear HI; cbn [outcome_bind]
    end.
  all: eexists; split; [reflexivity | cbn [evaluate]].
  all: repeat match goal with G : evaluate _ _ = Ok _ |- _ => rewrite ?G in *; clear G; cbn [outcome_bind] in * end.
  all: exact Hv.
Qed.

(** ** Transformation *)
Lemma transform_eval row before after :
  (forall e v, evaluate row e = Ok v ->
     exists e', before e = Ok e' /\ evaluate row e' = Ok v /\ smaller e e') ->
  (forall e v, evaluate row e = Ok v -> exists e', after e = Ok e' /\ evaluate row e' = Ok v) ->
  forall fuel e v, (size e <= fuel)%nat -> evaluate row e = Ok v ->
  exists e', transform fuel before after e = Ok e' /\ evaluate row e' = Ok v.
Proof.
  intros Hb Ha. induction fuel as [|fuel IH]; intros e v Hf Hv.
  { pose proof (size_pos e). lia. }
  cbn [transform]. destruct (Hb e v Hv) as (e1 & -> & Hv1 & Hs). cbn [outcome_bind].
  destruct (map_children_eval row (transform fuel before after) e1 v Hv1) as (e2 & -> & Hv2).
  - apply Forall_forall. intros c Hc w Hw. apply IH; [|exact Hw].
    apply list_elem_of_In, Hs in Hc. lia.
  - exact (Ha e2 v Hv2).
Qed.
End Evaluation.

Lemma transform_total before after :
  (forall e, exists e', before e = Ok e' /\ smaller e e') -> (forall e, exists e', after e = Ok e') ->
  forall fuel e, (size e <= fuel)%nat -> exists e', transform fuel before after e = Ok e'.
Proof.
  intros Hb Ha. induction fuel as [|fuel IH]; intros e Hf.
  { pose proof (size_pos e). lia. }
  cbn [transform]. destruct (Hb e) as (e1 & -> & Hs). cbn [outcome_bind].
  destruct (map_children_total (transform fuel before after) e1) as [e2 ->].
  - apply Forall_forall. intros c Hc. apply IH. apply list_elem_of_In, Hs in Hc. lia.
  - apply Ha.
Qed.

(** ** Normal forms *)
Lemma into_nnf_total e : exists e', into_nnf e = Ok e'.
Proof.
  apply transform_total; [|eauto | reflexivity]. intros x. eexists. split; [reflexivity | apply nnf_xform_smaller].
Qed.

Lemma into_cnf_total e : exists e', into_cnf e = Ok e'.
Proof.
  unfold into_cnf. destruct (into_nnf_total e) as [e1 ->]. cbn [outcome_bind].
  apply transform_total; [|eauto | reflexivity]. intros x. eexists. split; [reflexivity | apply cnf_xform_smaller].
Qed.

(** The conjuncts of an expression, left to right. *)
Fixpoint conjuncts (e : Expression) : list Expression :=
  match e with
  | And l r => conjuncts l ++ conjuncts r
  | e => [e]
  end.

(** The nodes on the work stack. *)
Fixpoint stack_size (stack : list Expression) : nat :=
  match stack with [] => 0 | e :: stack => size e + stack_size stack end.

Lemma cnf_vec_loop_eq fuel : forall stack cnf,
  (stack_size stack <= fuel)%nat -> cnf_vec_loop fuel stack cnf = Ok (cnf ++ (stack ≫= conjuncts)).
Proof.
  induction fuel as [|fuel IH]; intros [|e stack] cnf Hf; cbn [stack_size] in Hf;
    try (cbn; now rewrite app_nil_r).
  - pose proof (size_pos e). lia.
  - cbn [cnf_vec_loop mbind list_bind].
    destruct e; cbn [size] in Hf; rewrite IH by (cbn [stack_size]; lia);
      cbn [mbind list_bind conjuncts]; now rewrite <- ?app_assoc.
Qed.

Lemma into_cnf_vec_eq e e' : into_cnf e = Ok e' -> into_cnf_vec e = Ok (conjuncts e').
Proof.
  unfold into_cnf_vec. intros ->. cbn [outcome_bind].
  rewrite cnf_vec_loop_eq by (cbn; lia). cbn. now rewrite app_nil_r.
Qed.

Lemma conjuncts_nonempty e : exists x l, conjuncts e = x :: l.
Proof. induction e; cbn; eauto. destruct IHe1 as (x & l & ->). cbn. eauto. Qed.

(** Case analysis on the values of the operands in [H]. *)
Ltac eval_bind H :=
  repeat match type of H with
  | context [outcome_bind (evaluate ?r ?x) _] =>
      destruct (evaluate r x) eqn:?; cbn [outcome_bind] in H; [|discriminate H ..]
  | outcome_bind ?o _ = Ok _ => destruct o eqn:?; cbn [outcome_bind] in H; [|discriminate H ..]
  end.

Section Logic.
Context `{F64Pow, Regex}.

(** Booleans and NULL: the operands of the logical operators. *)
Definition logical (v : Value) : Prop := match v with Boolean _ | Null => True | _ => False end.

Lemma eval_and_ok a b v : eval_and a b = Ok v -> logical a /\ logical b /\ logical v.
Proof. destruct a as [|[]| | |], b as [|[]| | |]; cbn; intros [=<-]; cbn; auto. Qed.
Lemma eval_or_ok a b v : eval_or a b = Ok v -> logical a /\ logical b /\ logical v.
Proof. destruct a as [|[]| | |], b as [|[]| | |]; cbn; intros [=<-]; cbn; auto. Qed.

Ltac logical_cases :=
  repeat match goal with v : Value |- _ => destruct v as [|[]| | |] end; cbn in *; try discriminate; try reflexivity; try assumption.

Lemma nnf_xform_eval row e v : evaluate row e = Ok v -> evaluate row (nnf_xform e) = Ok v.
Proof.
  destruct e as [| | | |x| | | | | | | | | | | | | | |]; try (intros Hv; exact Hv).
  destruct x; try (intros Hv; exact Hv); cbn [evaluate nnf_xform]; intros Hv; eval_bind Hv;
    cbn [outcome_bind]; logical_cases.
Qed.

Lemma cnf_xform_cases e :
  cnf_xform e = e \/
  (exists l r rhs, e = Or (And l r) rhs /\ cnf_xform e = And (Or l rhs) (Or r rhs)) \/
  (exists lhs l r, e = Or lhs (And l r) /\ cnf_xform e = And (Or lhs l) (Or lhs r)).
Proof.
  destruct e as [| | |lhs rhs| | | | | | | | | | | | | | | |]; try (left; reflexivity).
  destruct lhs; try (right; left; do 3 eexists; split; reflexivity);
    (destruct rhs; try (left; reflexivity); right; right; do 3 eexists; split; reflexivity).
Qed.

Lemma or_and_distr_l a b c x v : eval_and a b = Ok x -> eval_or x c = Ok v ->
  (let? p := eval_or a c in let? q := eval_or b c in eval_and p q) = Ok v.
Proof. destruct a as [|[]| | |], b as [|[]| | |], c as [|[]| | |]; cbn; intros [=<-] [=<-]; reflexivity. Qed.
Lemma or_and_distr_r a b c x v : eval_and b c = Ok x -> eval_or a x = Ok v ->
  (let? p := eval_or a b in let? q := eval_or a c in eval_and p q) = Ok v.
Proof. destruct a as [|[]| | |], b as [|[]| | |], c as [|[]| | |]; cbn; intros [=<-] [=<-]; reflexivity. Qed.

Lemma cnf_xform_eval row e v : evaluate row e = Ok v -> evaluate row (cnf_xform e) = Ok v.
Proof.
  destruct (cnf_xform_cases e) as [->|[(l & r & rhs & -> & ->)|(lhs & l & r & -> & ->)]]; [auto|..];
    cbn [evaluate]; intros Hv; eval_bind Hv; cbn [outcome_bind].
  - match goal with E : eval_and _ _ = Ok _ |- _ => exact (or_and_distr_l _ _ _ _ _ E Hv) end.
  - match goal with E : eval_and _ _ = Ok _ |- _ => exact (or_and_distr_r _ _ _ _ _ E Hv) end.
Qed.

Lemma eval_and_assoc a b c x y : eval_and a b = Ok x -> eval_and x c = Ok y ->
  exists z, eval_and b c = Ok z /\ eval_and a z = Ok y.
Proof. destruct a as [|[]| | |], b as [|[]| | |], c as [|[]| | |]; cbn; intros [=<-] [=<-]; eauto. Qed.
Lemma eval_and_assoc' a b c y z : eval_and b c = Ok z -> eval_and a z = Ok y ->
  exists x, eval_and a b = Ok x /\ eval_and x c = Ok y.
Proof. destruct a as [|[]| | |], b as [|[]| | |], c as [|[]| | |]; cbn; intros [=<-] [=<-]; eauto. Qed.

Lemma evaluate_And row a b :
  evaluate row (And a b) = (let? x := evaluate row a in let? y := evaluate row b in eval_and x y).
Proof. reflexivity. Qed.

(** ANDing the conjuncts of [e] onto an expression is ANDing [e]. *)
Lemma fold_and_conjuncts row e : forall a x w v,
  evaluate row a = Ok x -> evaluate row e = Ok w -> eval_and x w = Ok v ->
  evaluate row (fold_left And (conjuncts e) a) = Ok v.
Proof.
  induction e; intros a x w v' Ha He Hand;
    try (cbn [conjuncts fold_left]; rewrite evaluate_And, Ha; cbn [outcome_bind]; rewrite He; exact Hand).
  cbn [conjuncts evaluate] in *. eval_bind He. rewrite fold_left_app.
  destruct (eval_and_assoc' _ _ _ _ _ He Hand) as (z & Hz & Hv). eauto.
Qed.

Lemma and_vec_conjuncts row e v :
  evaluate row e = Ok v -> exists a, and_vec (conjuncts e) = Some a /\ evaluate row a = Ok v.
Proof.
  revert v. induction e; intros v' He; try (eexists; split; [reflexivity | exact He]).
  cbn [conjuncts evaluate] in *. eval_bind He.
  destruct (IHe1 _ eq_refl) as (a1 & E1 & Ha1). destruct (conjuncts_nonempty e1) as (x & l & E).
  rewrite E in *. injection E1 as <-. cbn [app and_vec]. eexists. split; [reflexivity|].
  rewrite fold_left_app. eauto using fold_and_conjuncts.
Qed.

Lemma conjuncts_no_and e x : In x (conjuncts e) -> forall l r, x <> And l r.
Proof.
  induction e; cbn [conjuncts In]; rewrite ?in_app_iff; intros Hx l r; destruct Hx as [Hx|Hx];
    subst; try discriminate; try contradiction; eauto.
Qed.

End Logic.

Lemma into_nnf_eval `{F64Pow, Regex} row e e' v :
  into_nnf e = Ok e' -> evaluate row e = Ok v -> evaluate row e' = Ok v.
Proof.
  intros E Hv. edestruct (transform_eval row (fun e => Ok (nnf_xform e)) Ok) as (x & Hx & Hxv).
  - intros e1 v1 Hv1. eexists. split; [reflexivity|].
    split; [apply nnf_xform_eval, Hv1 | apply nnf_xform_smaller].
  - eauto.
  - reflexivity.
  - exact Hv.
  - unfold into_nnf in E. rewrite E in Hx. now injection Hx as <-.
Qed.

Lemma into_cnf_eval `{F64Pow, Regex} row e e' v :
  into_cnf e = Ok e' -> evaluate row e = Ok v -> evaluate row e' = Ok v.
Proof.
  unfold into_cnf. intros E Hv. apply outcome_bind_ok in E as (n & En & E).
  edestruct (transform_eval row (fun e => Ok (cnf_xform e)) Ok) as (x & Hx & Hxv).
  - intros e1 v1 Hv1. eexists. split; [reflexivity|].
    split; [apply cnf_xform_eval, Hv1 | apply cnf_xform_smaller].
  - eauto.
  - reflexivity.
  - exact (into_nnf_eval row e n v En Hv).
  - rewrite E in Hx. now injection Hx as <-.
Qed.

(** C34: The normal forms of the optimizer are total and preserve evaluation:
    [into_nnf], [into_cnf] and [into_cnf_vec] return (are "infallible") for
    every expression, within the fuel of its size; the conjunct vector is not
    empty and holds no AND; and on every row where the expression has a value
    its negation and conjunctive normal forms, and the AND of the conjunct
    vector, have the same value, NULLs included. *)
Theorem sql_normal_forms `{F64Pow, Regex} e :
  exists n c cs a,
    into_nnf e = Ok n /\ into_cnf e = Ok c /\ into_cnf_vec e = Ok cs /\ and_vec cs = Some a /\
    (forall x, In x cs -> forall l r, x <> And l r) /\
    (forall row v, evaluate row e = Ok v ->
       evaluate row n = Ok v /\ evaluate row c = Ok v /\ evaluate row a = Ok v).
Proof.
  destruct (into_nnf_total e) as [n Hn]. destruct (into_cnf_total e) as [c Hc].
  destruct (conjuncts_nonempty c) as (x & l & Ecs).
  exists n, c, (conjuncts c), (fold_left And l x).
  split; [exact Hn|]. split; [exact Hc|]. split; [now apply into_cnf_vec_eq|].
  split; [now rewrite Ecs|]. split; [apply conjuncts_no_and|].
  intros row v Hv. pose proof (into_cnf_eval row e c v Hc Hv) as Hcv.
  split; [exact (into_nnf_eval row e n v Hn Hv)|]. split; [exact Hcv|].
  destruct (and_vec_conjuncts row c v Hcv) as (a & Ha & Hav). rewrite Ecs in Ha. now injection Ha as <-.
Qed.

(** The closures run once per node, before its children: a NOT that surfaces
    from under a double negation is not pushed further, and an OR is not
    distributed over an AND that surfaces from a nested OR. *)
Lemma into_nnf_incomplete a b :
  into_nnf (Not (Not (Not (And (Column a) (Column b))))) = Ok (Not (And (Column a) (Column b))).
Proof. reflexivity. Qed.
Lemma into_cnf_incomplete a b c d :
  into_cnf (Or (Column a) (Or (Column b) (And (Column c) (Column d))))
  = Ok (Or (Column a) (And (Or (Column b) (Column c)) (Or (Column b) (Column d)))).
Proof. reflexivity. Qed.

(** ** Columns *)

(** The columns an expression refers to. *)
Fixpoint columns_of (e : Expression) : list nat :=
  match e with
  | Column i => [i]
  | Constant _ => []
  | Add l r | And l r | Divide l r | Equal l r | Exponentiate l r | GreaterThan l r | LessThan l r
  | Like l r | Multiply l r | Or l r | Remainder l r | Subtract l r => columns_of l ++ columns_of r
  | Factorial x | Identity x | Is x _ | Negate x | Not x | SquareRoot x => columns_of x
  end.

Lemma walk_no_column e :
  walk (fun e (_ : unit) => (negb (is_column e), tt)) e tt = (bool_decide (columns_of e = []), tt).
Proof.
  induction e; cbn [walk columns_of is_column negb]; try reflexivity; try assumption;
    rewrite IHe1, ?IHe2;
    repeat case_bool_decide; try reflexivity;
    repeat match goal with H : _ ++ _ = [] |- _ => apply app_nil in H as [? ?] end;
    try congruence; exfalso;
    match goal with H : _ ++ _ <> [] |- _ => apply H; now apply app_nil end.
Qed.

Lemma contains_column e : contains is_column e = false <-> columns_of e = [].
Proof.
  unfold contains. rewrite walk_no_column. cbn [fst]. rewrite negb_false_iff. apply bool_decide_eq_true.
Qed.

(** Renaming the columns of an expression. *)
Fixpoint rename_columns (g : nat -> nat) (e : Expression) : Expression :=
  match e with
  | Constant v => Constant v
  | Column i => Column (g i)
  | And l r => And (rename_columns g l) (rename_columns g r)
  | Or l r => Or (rename_columns g l) (rename_columns g r)
  | Not x => Not (rename_columns g x)
  | Equal l r => Equal (rename_columns g l) (rename_columns g r)
  | GreaterThan l r => GreaterThan (rename_columns g l) (rename_columns g r)
  | LessThan l r => LessThan (rename_columns g l) (rename_columns g r)
  | Is x v => Is (rename_columns g x) v
  | Add l r => Add (rename_columns g l) (rename_columns g r)
  | Divide l r => Divide (rename_columns g l) (rename_columns g r)
  | Exponentiate l r => Exponentiate (rename_columns g l) (rename_columns g r)
  | Factorial x => Factorial (rename_columns g x)
  | Identity x => Identity (rename_columns g x)
  | Multiply l r => Multiply (rename_columns g l) (rename_columns g r)
  | Negate x => Negate (rename_columns g x)
  | Remainder l r => Remainder (rename_columns g l) (rename_columns g r)
  | SquareRoot x => SquareRoot (rename_columns g x)
  | Subtract l r => Subtract (rename_columns g l) (rename_columns g r)
  | Like l r => Like (rename_columns g l) (rename_columns g r)
  end.

Definition rename_leaf (g : nat -> nat) (e : Expression) : Expression :=
  match e with Column i => Column (g i) | e => e end.

Lemma transform_rename before g fuel :
  (forall e, before e = Ok (rename_leaf g e)) ->
  forall e, (size e <= fuel)%nat -> transform fuel before Ok e = Ok (rename_columns g e).
Proof.
  intros Hb. induction fuel as [|fuel IH]; intros e Hf; [pose proof (size_pos e); lia|].
  cbn [transform]. rewrite Hb. cbn [outcome_bind].
  destruct e; cbn [rename_leaf map_children size] in *; rewrite ?IH by lia; reflexivity.
Qed.

Lemma replace_column_eq from to e :
  replace_column from to e = Ok (rename_columns (fun i => if bool_decide (i = from) then to else i) e).
Proof.
  apply transform_rename; [|reflexivity]. intros []; try reflexivity. cbn. now case_bool_decide.
Qed.

Lemma shift_column_eq diff e :
  shift_column diff e = Ok (rename_columns (fun i => Z.to_nat (u64 (Z.of_nat i + diff))) e).
Proof. apply transform_rename; [|reflexivity]. now intros []. Qed.

Section Rename.
Context `{F64Pow, Regex}.

Lemma evaluate_rename g row row' e :
  (forall i, In i (columns_of e) -> row' ≫= (.!! g i) = row ≫= (.!! i)) ->
  evaluate row' (rename_columns g e) = evaluate row e.
Proof.
  induction e; cbn [columns_of rename_columns evaluate]; intros Hg; try reflexivity;
    first [rewrite IHe1, IHe2 by (intros; apply Hg, in_app_iff; auto) | rewrite IHe by exact Hg | idtac];
    try reflexivity.
  now rewrite (Hg i) by now left.
Qed.

Lemma rename_columns_id e : rename_columns (fun i => i) e = e.
Proof. induction e; cbn [rename_columns]; congruence. Qed.

(** Evaluation depends on the referenced columns only. *)
Lemma evaluate_agree row row' e :
  (forall i, In i (columns_of e) -> row' ≫= (.!! i) = row ≫= (.!! i)) -> evaluate row' e = evaluate row e.
Proof. intros Ha. rewrite <- (rename_columns_id e) at 1. now apply evaluate_rename. Qed.

(** ** Constant folding *)
Lemma fold_and_cases l r :
  fold_logical (And l r) = And l r \/
  (fold_logical (And l r) = Constant (Boolean false) /\
   (l = Constant (Boolean false) \/ r = Constant (Boolean false))) \/
  (fold_logical (And l r) = r /\ l = Constant (Boolean true)) \/
  (fold_logical (And l r) = l /\ r = Constant (Boolean true)).
Proof.
  destruct l as [[|[]| | |]| | | | | | | | | | | | | | | | | | |],
    r as [[|[]| | |]| | | | | | | | | | | | | | | | | | |]; cbn [fold_logical]; auto 6.
Qed.

Lemma fold_or_cases l r :
  fold_logical (Or l r) = Or l r \/
  (fold_logical (Or l r) = Constant (Boolean true) /\
   (l = Constant (Boolean true) \/ r = Constant (Boolean true))) \/
  (fold_logical (Or l r) = r /\ l = Constant (Boolean false)) \/
  (fold_logical (Or l r) = l /\ r = Constant (Boolean false)).
Proof.
  destruct l as [[|[]| | |]| | | | | | | | | | | | | | | | | | |],
    r as [[|[]| | |]| | | | | | | | | | | | | | | | | | |]; cbn [fold_logical]; auto 6.
Qed.

Lemma fold_logical_eval row e v : evaluate row e = Ok v -> evaluate row (fold_logical e) = Ok v.
Proof.
  destruct e as [| |l r|l r| | | | | | | | | | | | | | | |]; try (intros Hv; exact Hv).
  - destruct (fold_and_cases l r) as [->|[[-> [->| ->]]|[[-> ->]|[-> ->]]]]; cbn [evaluate]; intros Hv;
      [exact Hv|..]; cbn [outcome_bind] in Hv; eval_bind Hv;
      match goal with a : Value |- _ => destruct a as [|[]| | |]; cbn in Hv; first [discriminate Hv | congruence] end.
  - destruct (fold_or_cases l r) as [->|[[-> [->| ->]]|[[-> ->]|[-> ->]]]]; cbn [evaluate]; intros Hv;
      [exact Hv|..]; cbn [outcome_bind] in Hv; eval_bind Hv;
      match goal with a : Value |- _ => destruct a as [|[]| | |]; cbn in Hv; first [discriminate Hv | congruence] end.
Qed.

Lemma fold_eval row e v : evaluate row e = Ok v -> exists e', fold e = Ok e' /\ evaluate row e' = Ok v.
Proof.
  intros Hv. unfold fold. destruct (contains is_column e) eqn:Hc; cbn [negb].
  - eexists. split; [reflexivity | apply fold_logical_eval, Hv].
  - apply contains_column in Hc. rewrite (evaluate_agree row None) by (rewrite Hc; intros ? []).
    rewrite Hv. cbn. eauto.
Qed.

End Rename.

Lemma map_children_columns f e e' :
  (forall c c', f c = Ok c' -> incl (columns_of c') (columns_of c)) ->
  map_children f e = Ok e' -> incl (columns_of e') (columns_of e).
Proof.
  intros Hf. destruct e; cbn [map_children columns_of]; intros E;
    repeat match goal with
    | E : outcome_bind ?o _ = Ok _ |- _ => destruct o eqn:?; cbn [outcome_bind] in E; [|discriminate E ..]
    end; injection E as <-; cbn [columns_of]; eauto using incl_refl;
    apply incl_app_app; eauto.
Qed.

Lemma fold_logical_columns e : incl (columns_of (fold_logical e)) (columns_of e).
Proof.
  destruct e as [| |l r|l r| | | | | | | | | | | | | | | |]; try apply incl_refl.
  - destruct (fold_and_cases l r) as [->|[[-> _]|[[-> _]|[-> _]]]]; cbn [columns_of];
      auto using incl_refl, incl_nil_l, incl_appl, incl_appr.
  - destruct (fold_or_cases l r) as [->|[[-> _]|[[-> _]|[-> _]]]]; cbn [columns_of];
      auto using incl_refl, incl_nil_l, incl_appl, incl_appr.
Qed.

(** Folding adds no column references. *)
Lemma transform_fold_columns `{F64Pow, Regex} fuel : forall e e',
  transform fuel Ok fold e = Ok e' -> incl (columns_of e') (columns_of e).
Proof.
  induction fuel as [|fuel IH]; intros e e' E; [discriminate|]. cbn [transform outcome_bind] in E.
  apply outcome_bind_ok in E as (x & Ex & E). apply map_children_columns in Ex; [|exact IH].
  eapply incl_tran; [|exact Ex]. unfold fold in E. destruct (negb (contains is_column x)).
  - unfold outcome_map, outcome_bind in E. destruct (evaluate None x); inversion E. apply incl_nil_l.
  - injection E as <-. apply fold_logical_columns.
Qed.

(** C35: Constant folding is sound: if an expression has a value on a row then
    folding it succeeds (with fuel its size) and the folded expression has the
    same value on that row; an expression without column references folds to
    that constant. *)
Theorem sql_constant_folding `{F64Pow, Regex} row e v :
  evaluate row e = Ok v ->
  exists e', fold_expression e = Ok e' /\ evaluate row e' = Ok v /\
    (contains is_column e = false -> e' = Constant v).
Proof.
  intros Hv. unfold fold_expression.
  destruct (transform_eval row Ok fold) with (fuel := size e) (e := e) (v := v) as (e' & E & Hv').
  - intros x w Hw. exists x. auto using smaller_refl.
  - intros. now apply fold_eval.
  - reflexivity.
  - exact Hv.
  - exists e'. split; [exact E|]. split; [exact Hv'|]. intros Hc.
    pose proof (size_pos e). destruct (size e) as [|fuel]; [lia|]. cbn [transform outcome_bind] in E.
    apply outcome_bind_ok in E as (e1 & E1 & E2).
    assert (columns_of e1 = []) as Hc1.
    { apply contains_column in Hc. apply incl_l_nil. rewrite <- Hc. revert E1.
      apply map_children_columns, transform_fold_columns. }
    unfold fold in E2. rewrite (proj2 (contains_column e1) Hc1) in E2. cbn [negb] in E2.
    unfold outcome_map in E2. destruct (evaluate None e1); inversion E2. subst e'. cbn in Hv'. congruence.
Qed.

(** ** Column lookups *)
Section Lookup.
Context `{F64Pow, Regex}.

(** SQL equality with a defined value is code-level equality. *)
Lemma eval_equal_value_eq x y w : is_undefined y = false ->
  eval_equal x y = Ok w -> w = Boolean true <-> value_eq x y = true.
Proof.
  destruct x, y; cbn [is_undefined eval_equal value_eq]; intros Hu E; try discriminate E;
    injection E as <-; rewrite ?Hu, ?andb_false_r, ?orb_false_r; split; congruence.
Qed.

Lemma eval_equal_undefined x y w : is_undefined y = true -> eval_equal x y = Ok w -> w <> Boolean true.
Proof.
  destruct x, y; cbn [is_undefined eval_equal]; intros Hu E; try discriminate Hu;
    try discriminate E; injection E as <-; try congruence;
    rewrite f64_eq_sym, f64_eq_nan by exact Hu; congruence.
Qed.

Lemma eval_equal_sym x y : eval_equal x y = eval_equal y x.
Proof.
  destruct x as [|[]| | |], y as [|[]| | |]; cbn [eval_equal]; try reflexivity;
    rewrite ?(f64_eq_sym f), ?(Z.eqb_sym i); try reflexivity.
  do 2 f_equal. apply bool_decide_ext. split; congruence.
Qed.

Lemma eval_is_value_eq x v w : eval_is (Ok x) v = Ok w -> w = Boolean true <-> value_eq x v = true.
Proof.
  destruct v as [| | |f|]; cbn [eval_is outcome_bind]; try discriminate.
  - intros [=<-]. split; congruence.
  - destruct (f64_is_nan f) eqn:N; [|discriminate].
    destruct x as [| | |g|]; cbn [value_eq]; intros E; try discriminate E; injection E as <-; [split; congruence|].
    rewrite N, andb_true_r, f64_eq_sym, f64_eq_nan by exact N. cbn [orb]. split; congruence.
Qed.

Lemma eval_or_true a b w : eval_or a b = Ok w -> w = Boolean true <-> a = Boolean true \/ b = Boolean true.
Proof.
  destruct a as [|[]| | |], b as [|[]| | |]; cbn; intros [=<-]; split; intros; firstorder discriminate.
Qed.

(** The values of a lookup decide it. *)
Definition lookup_spec (c : nat) (e : Expression) (values : list Value) : Prop :=
  forall row x w, row !! c = Some x -> evaluate (Some row) e = Ok w ->
  (w = Boolean true <-> Exists (fun y => value_eq x y = true) values).

Lemma lookup_equal v w x :
  eval_equal x v = Ok w ->
  (w = Boolean true <->
   Exists (fun y => value_eq x y = true) (if is_undefined v then [] else [v])).
Proof.
  intros E. destruct (is_undefined v) eqn:U.
  - rewrite Exists_nil. split; [|easy]. intros ->. now apply (eval_equal_undefined x v (Boolean true)).
  - rewrite Exists_cons, Exists_nil, (eval_equal_value_eq x v w U E). tauto.
Qed.

Lemma is_column_lookup_sound e c :
  is_column_lookup e = Some c -> exists values, into_column_values c e = Ok values /\ lookup_spec c e values.
Proof.
  induction e as [| | |l IHl r IHr| |l _ r _| | |x _ v| | | | | | | | | | |];
    cbn [is_column_lookup into_column_values]; try discriminate; intros Hc.
  - destruct (is_column_lookup l) as [cl|]; [|discriminate].
    destruct (is_column_lookup r) as [cr|]; [|discriminate].
    case_bool_decide; [|discriminate]. subst cr. injection Hc as ->.
    destruct (IHl eq_refl) as (vl & -> & Hl). destruct (IHr eq_refl) as (vr & -> & Hr). cbn [outcome_bind].
    eexists. split; [reflexivity|]. intros row x w Hx Hw. cbn [evaluate] in Hw. eval_bind Hw.
    rewrite (eval_or_true _ _ _ Hw), Exists_app. now rewrite (Hl row x _ Hx), (Hr row x _ Hx) by eassumption.
  - destruct l, r; try discriminate; injection Hc as ->; rewrite bool_decide_true by reflexivity;
      (eexists; split; [reflexivity|]); intros row x w Hx Hw; cbn [evaluate mbind option_bind] in Hw;
      rewrite Hx in Hw; cbn [outcome_bind] in Hw; [rewrite eval_equal_sym in Hw|]; now apply lookup_equal.
  - destruct x; try discriminate. injection Hc as ->. rewrite bool_decide_true by reflexivity.
    eexists. split; [reflexivity|]. intros row x w Hx Hw. cbn [evaluate mbind option_bind] in Hw.
    rewrite Hx in Hw. rewrite Exists_cons, Exists_nil, (eval_is_value_eq _ _ _ Hw). tauto.
Qed.
End Lookup.

(** Column lookups are exact.  If [is_column_lookup] recognizes an
    expression as a lookup of column [c] then [into_column_values] extracts a
    list of values without panicking, and on every row where the expression has
    a value it is true exactly if the row's value in [c] equals one of them
    (with the code-level equality that index keys use: NULL = NULL, NaN = NaN). *)
Theorem sql_column_lookup `{F64Pow, Regex} e c :
  is_column_lookup e = Some c ->
  exists values, into_column_values c e = Ok values /\
    forall row x w, row !! c = Some x -> evaluate (Some row) e = Ok w ->
    (w = Boolean true <-> Exists (fun y => value_eq x y = true) values).
Proof. apply is_column_lookup_sound. Qed.

(** A repeated disjunct yields a repeated value. *)
Lemma into_column_values_duplicates c v :
  is_undefined v = false ->
  into_column_values c (Or (Equal (Column c) (Constant v)) (Equal (Column c) (Constant v))) = Ok [v; v].
Proof. intros Hv. cbn. rewrite bool_decide_true by reflexivity. now rewrite Hv. Qed.

(** ** Factorials *)
Fixpoint Zfact (n : nat) : Z := match n with O => 1 | S n => Z.of_nat (S n) * Zfact n end.

Lemma Zfact_mono n m : (n <= m)%nat -> 0 < Zfact n <= Zfact m.
Proof.
  intros Hle. assert (forall k, 0 < Zfact k) as Hp by (induction k; cbn [Zfact]; lia).
  split; [apply Hp|]. induction Hle as [|m Hle IH]; [lia|]. cbn [Zfact]. pose proof (Hp m). nia.
Qed.

(** One turn of the loop: the product of the first [k] numbers in hand. *)
Lemma factorial_loop_step fuel k i :
  Z.of_nat k < i -> is_i64 (Zfact (S k)) ->
  factorial_loop (S fuel) (Z.of_nat (S k)) i (Integer (Zfact k))
  = factorial_loop fuel (Z.of_nat (S (S k))) i (Integer (Zfact (S k))).
Proof.
  intros Hk Hf. cbn [factorial_loop]. rewrite (proj2 (Z.ltb_ge _ _)) by lia.
  cbn [checked_mul]. unfold checked_mul_i64. rewrite (Z.mul_comm (Zfact k)).
  change (Z.of_nat (S k) * Zfact k) with (Zfact (S k)). rewrite i64_fits_some by exact Hf.
  cbn [int_or_overflow outcome_bind]. f_equal. lia.
Qed.

Lemma factorial_loop_steps n : forall fuel i,
  Z.of_nat n <= i -> is_i64 (Zfact n) ->
  factorial_loop (n + fuel) 1 i (Integer 1) = factorial_loop fuel (Z.of_nat (S n)) i (Integer (Zfact n)).
Proof.
  induction n as [|n IH]; intros fuel i Hn Hf; [reflexivity|].
  replace (S n + fuel)%nat with (n + S fuel)%nat by lia.
  pose proof (Zfact_mono n (S n)) as Hm. unfold is_i64, i64_min in Hf.
  rewrite IH by (unfold is_i64, i64_min; lia). apply factorial_loop_step; unfold is_i64, i64_min; lia.
Qed.

Lemma eval_factorial_exact i :
  0 <= i -> exact_or_overflow (Zfact (Z.to_nat i)) (eval_factorial (Integer i)).
Proof.
  intros Hi. unfold eval_factorial. rewrite (proj2 (Z.leb_le 0 i) Hi).
  destruct (Z.le_gt_cases i 20) as [Hs|Hb].
  - left. assert (is_i64 (Zfact (Z.to_nat i))) as Hf.
    { pose proof (Zfact_mono (Z.to_nat i) 20). change (Zfact 20) with 2432902008176640000 in *.
      unfold is_i64, i64_min, i64_max. lia. }
    split; [exact Hf|]. replace 22%nat with (Z.to_nat i + S (21 - Z.to_nat i))%nat by lia.
    rewrite factorial_loop_steps by (assumption || lia). cbn [factorial_loop].
    now rewrite (proj2 (Z.ltb_lt _ _)) by lia.
  - right. split.
    + pose proof (Zfact_mono 21 (Z.to_nat i)). change (Zfact 21) with 51090942171709440000 in *.
      unfold is_i64, i64_max. lia.
    + change 22%nat with (20 + 2)%nat. rewrite factorial_loop_steps by (lia || now vm_compute).
      cbn [factorial_loop]. now rewrite (proj2 (Z.ltb_ge _ _)) by lia.
Qed.

(** Factorials are exact: for a non-negative [i64] the loop of [a!] ends
    within its 22 rounds with the factorial if that is an [i64] (up to 20!) and
    with the "integer overflow" error otherwise. *)
Theorem sql_factorial i :
  0 <= i -> exact_or_overflow (Zfact (Z.to_nat i)) (eval_factorial (Integer i)).
Proof. apply eval_factorial_exact. Qed.

(** The negation of the least [i64] wraps around instead of failing. *)
Lemma negate_min_wraps : eval_negate (Integer i64_min) = Ok (Integer i64_min).
Proof. reflexivity. Qed.

(** ** Sample instances and evaluations *)
Module SqlSample.

(** Powers with an integer exponent by repeated multiplication. *)
Definition powi_sample (x : f64) (n : Z) : f64 :=
  let p := Z.iter (Z.abs n) (f64_mul x) (f64_of_i64 1) in
  if n <? 0 then f64_div (f64_of_i64 1) p else p.
#[export] Instance pow_sample : F64Pow := {
  powf x y := if f64_eq y (f64_of_i64 2) then powi_sample x 2 else f64_nan;
  powi := powi_sample;
}.

(** A matcher for the patterns LIKE builds: [^], [$], [.], [.*], escapes. *)
Fixpoint match_here (pat text : bytes) : bool :=
  match pat with
  | [] => false
  | [x24] => bool_decide (text = [])
  | x2e :: x2a :: pat =>
      (fix star (text : bytes) : bool :=
         match_here pat text || match text with [] => false | _ :: text => star text end) text
  | x2e :: pat => match text with [] => false | _ :: text => match_here pat text end
  | x5c :: c :: pat | c :: pat =>
      match text with [] => false | d :: text => bool_decide (c = d) && match_here pat text end
  end.
Definition escape_sample (s : bytes) : bytes :=
  s ≫= fun c => if bool_decide (c ∈ [x2e; x2a; x5e; x24; x5c]) then [x5c; c] else [c].
#[export] Instance regex_sample : Regex := {
  regex_escape := escape_sample;
  regex_match pat text :=
    Ok match pat with x5e :: pat => match_here pat text | _ => false end;
}.

Example like_sample :
  eval_like (String [x61; x2e; x62; x63]) (String [x61; x2e; x25; x5f]) = Ok (Boolean true) /\
  eval_like (String [x61; x61; x62; x63]) (String [x61; x2e; x25; x5f]) = Ok (Boolean false).
Proof. vm_compute. split; reflexivity. Qed.

Lemma sql_integer_arithmetic_witness :
  is_i64 2 /\ is_i64 70 /\ exact_or_overflow (2 ^ 70) (checked_pow (Integer 2) (Integer 70)).
Proof.
  assert (is_i64 2) as H2 by (unfold is_i64, i64_min, i64_max; lia).
  assert (is_i64 70) as H70 by (unfold is_i64, i64_min, i64_max; lia).
  split; [exact H2|]. split; [exact H70|].
  destruct (sql_integer_arithmetic 2 70 H2 H70) as (_ & _ & _ & Hp & _). apply Hp. lia.
Defined.

Lemma sql_value_order_witness :
  in_column TFloat (Float 0) /\ value_cmp (Float (f64_neg 0)) (Float f64_nan) = Lt.
Proof.
  assert (in_column TFloat (Float 0)) as H0 by (split; [vm_compute; split; discriminate | now right]).
  split; [exact H0|].
  destruct (sql_value_order TFloat (Float (f64_neg 0)) (Float 0) (Float f64_nan)) as (_ & _ & Ht & _).
  - split; [vm_compute; split; discriminate | now right].
  - exact H0.
  - split; [vm_compute; split; discriminate | now right].
  - apply Ht; vm_compute; reflexivity.
Defined.

(** [NOT (#0 = 1 + 1 AND TRUE)] on the row [2]. *)
Definition expr1 : Expression :=
  Not (And (Equal (Column 0) (Add (Constant (Integer 1)) (Constant (Integer 1)))) (Constant (Boolean true))).
Lemma sql_constant_folding_witness :
  exists e', fold_expression expr1 = Ok e' /\ evaluate (Some [Integer 2]) e' = Ok (Boolean false) /\
    (contains is_column expr1 = false -> e' = Constant (Boolean false)).
Proof. apply (sql_constant_folding (Some [Integer 2]) expr1 (Boolean false)). vm_compute. reflexivity. Defined.
Example expr1_folded :
  fold_expression expr1 = Ok (Not (Equal (Column 0) (Constant (Integer 2)))).
Proof. vm_compute. reflexivity. Qed.

(** [#1 = 1 OR #1 IS NULL] *)
Definition expr2 : Expression :=
  Or (Equal (Column 1) (Constant (Integer 1))) (Is (Column 1) Null).
Lemma sql_column_lookup_witness :
  exists values, into_column_values 1 expr2 = Ok values /\
    forall row x w, row !! 1%nat = Some x -> evaluate (Some row) expr2 = Ok w ->
    (w = Boolean true <-> Exists (fun y => value_eq x y = true) values).
Proof. apply (sql_column_lookup expr2 1). reflexivity. Defined.

Lemma sql_factorial_witness : exact_or_overflow (Zfact (Z.to_nat 21)) (eval_factorial (Integer 21)).
Proof. apply (sql_factorial 21). lia. Defined.

End SqlSample.
