(* ===== verification/SqlPlan.v ===== *)
(** * SQL schemas and query plans ([src/sql/types/schema.rs] data types,
    [src/sql/planner/plan.rs])

    Table schemas, plan nodes with their column counts and labels, node
    transformation, and statement plans.  As for expressions, [node_transform]
    recurses into the result of [before] and takes fuel; callers pass the number
    of nodes.  A [usize] column index is a [nat]. *)
From S2P Require Import Prelude Bytes Float64 SqlValue SqlExpr.

Record Column_ : Type := mkColumn {
  col_name : bytes;
  col_datatype : DataType;
  nullable : bool;
  col_default : option Value;
  unique : bool;
  col_index : bool;
  references : option bytes;
}.

Record Table : Type := mkTable {
  table_name : bytes;
  primary_key : nat;
  columns : list Column_;
}.

Inductive Aggregate : Type :=
  | Average (expr : Expression)
  | Count (expr : Expression)
  | Max (expr : Expression)
  | Min (expr : Expression)
  | Sum (expr : Expression).

Definition aggregate_expr (a : Aggregate) : Expression :=
  match a with Average e | Count e | Max e | Min e | Sum e => e end.

Inductive Direction : Type := Ascending | Descending.

Inductive Node : Type :=
  | NAggregate (source : Node) (group_by : list Expression) (aggregates : list Aggregate)
  | NFilter (source : Node) (predicate : Expression)
  | NHashJoin (left : Node) (left_column : nat) (right : Node) (right_column : nat) (outer : bool)
  | NIndexLookup (table : Table) (column : nat) (values : list Value) (alias : option bytes)
  | NKeyLookup (table : Table) (keys : list Value) (alias : option bytes)
  | NLimit (source : Node) (limit : nat)
  | NNestedLoopJoin (left right : Node) (predicate : option Expression) (outer : bool)
  | NNothing (columns : list Label)
  | NOffset (source : Node) (offset : nat)
  | NOrder (source : Node) (key : list (Expression * Direction))
  | NProjection (source : Node) (expressions : list Expression) (aliases : list Label)
  | NRemap (source : Node) (targets : list (option nat))
  | NScan (table : Table) (filter : option Expression) (alias : option bytes)
  | NValues (rows : list (list Expression)).

(** [targets.iter().copied().flatten().map(|i| i + 1).max().unwrap_or(0)] *)
Definition remap_size (targets : list (option nat)) : nat :=
  foldr (fun t n => match t with Some i => Nat.max (S i) n | None => n end) 0%nat targets.

Fixpoint node_columns (n : Node) : nat :=
  match n with
  | NIndexLookup table _ _ _ | NKeyLookup table _ _ | NScan table _ _ => length (columns table)
  | NAggregate _ group_by aggregates => length aggregates + length group_by
  | NProjection _ expressions _ => length expressions
  | NRemap _ targets => remap_size targets
  | NHashJoin l _ r _ _ | NNestedLoopJoin l r _ _ => node_columns l + node_columns r
  | NNothing columns => length columns
  | NValues rows => match rows with row :: _ => length row | [] => 0 end
  | NFilter source _ | NLimit source _ | NOffset source _ | NOrder source _ => node_columns source
  end.

(** [targets.iter().position(|t| t == Some(index))] *)
Fixpoint position (index : nat) (targets : list (option nat)) : option nat :=
  match targets with
  | [] => None
  | t :: targets => if bool_decide (t = Some index) then Some 0%nat else S <$> position index targets
  end.

(** [table.columns[index]] *)
Definition table_column (table : Table) (index : nat) : outcome Column_ :=
  match columns table !! index with
  | Some c => Ok c
  | None => Panic "index out of bounds"
  end.

Fixpoint column_label (n : Node) (index : nat) : outcome Label :=
  match n with
  | NIndexLookup table _ _ alias | NKeyLookup table _ alias | NScan table _ alias =>
      let? c := table_column table index in
      Ok (Qualified (match alias with Some a => a | None => table_name table end) (col_name c))
  | NAggregate source group_by _ =>
      match group_by !! index with
      | Some (Column index) => column_label source index
      | _ => Ok NoLabel
      end
  | NProjection source expressions aliases =>
      match aliases !! index with
      | Some NoLabel | None =>
          match expressions !! index with
          | Some (Column index) => column_label source index
          | _ => Ok NoLabel
          end
      | Some alias => Ok alias
      end
  | NRemap source targets =>
      match position index targets with
      | Some i => column_label source i
      | None => Ok NoLabel
      end
  | NHashJoin l _ r _ _ | NNestedLoopJoin l r _ _ =>
      if (index <? node_columns l)%nat then column_label l index
      else column_label r (index - node_columns l)
  | NFilter source _ | NLimit source _ | NOffset source _ | NOrder source _ => column_label source index
  | NNothing columns => Ok (default NoLabel (columns !! index))
  | NValues _ => Ok NoLabel
  end.

(** ** Transformation *)

(** The middle step of [Node::transform]: [f] on every source. *)
Definition map_sources (f : Node -> outcome Node) (n : Node) : outcome Node :=
  match n with
  | NAggregate s g a => let? s := f s in Ok (NAggregate s g a)
  | NFilter s p => let? s := f s in Ok (NFilter s p)
  | NHashJoin l lc r rc outer => let? l := f l in let? r := f r in Ok (NHashJoin l lc r rc outer)
  | NLimit s k => let? s := f s in Ok (NLimit s k)
  | NNestedLoopJoin l r p outer => let? l := f l in let? r := f r in Ok (NNestedLoopJoin l r p outer)
  | NOffset s k => let? s := f s in Ok (NOffset s k)
  | NOrder s key => let? s := f s in Ok (NOrder s key)
  | NProjection s es aliases => let? s := f s in Ok (NProjection s es aliases)
  | NRemap s targets => let? s := f s in Ok (NRemap s targets)
  | NIndexLookup _ _ _ _ | NKeyLookup _ _ _ | NNothing _ | NScan _ _ _ | NValues _ => Ok n
  end.

Fixpoint node_transform (fuel : nat) (before after : Node -> outcome Node) (n : Node) : outcome Node :=
  match fuel with
  | O => Panic "fuel exhausted"
  | S fuel =>
      let? n := before n in
      let? n := map_sources (node_transform fuel before after) n in
      after n
  end.

(** The number of nodes: the fuel for [node_transform]. *)
Fixpoint node_size (n : Node) : nat :=
  match n with
  | NAggregate s _ _ | NFilter s _ | NLimit s _ | NOffset s _ | NOrder s _ | NProjection s _ _
  | NRemap s _ => S (node_size s)
  | NHashJoin l _ r _ _ | NNestedLoopJoin l r _ _ => S (node_size l + node_size r)
  | NIndexLookup _ _ _ _ | NKeyLookup _ _ _ | NNothing _ | NScan _ _ _ | NValues _ => 1
  end.

(** [Node::transform_expressions], [f] being [Expression::transform] with the
    two closures. *)
Definition transform_expressions (f : Expression -> outcome Expression) (n : Node) : outcome Node :=
  match n with
  | NFilter s predicate => let? predicate := f predicate in Ok (NFilter s predicate)
  | NNestedLoopJoin l r (Some predicate) outer =>
      let? predicate := f predicate in Ok (NNestedLoopJoin l r (Some predicate) outer)
  | NOrder s key =>
      let? key := try_collect (map (fun ed => outcome_map (fun e => (e, ed.2)) (f ed.1)) key) in
      Ok (NOrder s key)
  | NProjection s expressions aliases =>
      let? expressions := try_collect (map f expressions) in Ok (NProjection s expressions aliases)
  | NScan table (Some filter) alias => let? filter := f filter in Ok (NScan table (Some filter) alias)
  | NValues rows =>
      let? rows := try_collect (map (fun row => try_collect (map f row)) rows) in Ok (NValues rows)
  | NAggregate _ _ _ | NHashJoin _ _ _ _ _ | NIndexLookup _ _ _ _ | NKeyLookup _ _ _ | NLimit _ _
  | NNestedLoopJoin _ _ None _ | NNothing _ | NOffset _ _ | NRemap _ _ | NScan _ None _ => Ok n
  end.

(** ** Statement plans *)
Inductive Plan : Type :=
  | PCreateTable (schema : Table)
  | PDropTable (name : bytes) (if_exists : bool)
  | PDelete (table : bytes) (primary_key : nat) (source : Node)
  | PInsert (table : Table) (column_map : option (gmap nat nat)) (source : Node)
  | PUpdate (table : Table) (primary_key : nat) (source : Node) (expressions : list (nat * Expression))
  | PSelect (root : Node).
