(* ===== verification/SqlExec.v ===== *)
(** * Plan execution ([src/sql/execution/*.rs], the traits of
    [src/sql/engine/engine.rs])

    The joiners are iterators with explicit state: [try_next] on the state
    record, and [drain] for the items they yield until [None].  The aggregator
    and the executor follow the code; the SQL transaction the executor runs on
    is the class [Transaction], whose reads take the transaction's state and
    whose writes pass it along.

    A [BTreeMap] or [BTreeSet] is the list of its entries in key order; a
    [HashMap] an association list whose lookup compares hash input and value. *)
From S2P Require Import Prelude Bytes Float64 SqlValue SqlExpr SqlPlan.

(** ** The SQL engine interface (commit, rollback and the MVCC state, which the
    executor does not use, are left to the session) *)
Class Transaction (T : Type) : Type := {
  txn_delete : bytes -> list Value -> stM T unit;
  txn_get : bytes -> list Value -> T -> outcome (list Row);
  txn_insert : bytes -> list Row -> stM T unit;
  txn_lookup_index : bytes -> bytes -> list Value -> T -> outcome (list Value);
  txn_scan : bytes -> option Expression -> T -> outcome Rows;
  txn_update : bytes -> list (Value * Row) -> stM T unit;
  create_table : Table -> stM T unit;
  drop_table : bytes -> bool -> stM T bool;
  get_table : bytes -> T -> outcome (option Table);
  list_tables : T -> outcome (list Table);
}.

Definition must_get_table `{Transaction T} (table : bytes) (t : T) : outcome Table :=
  let? o := get_table table t in
  match o with
  | Some table => Ok table
  | None => errinput "table does not exist"
  end.

(** ** Row iterators *)

(** The items of an iterator with the given [next]. *)
Fixpoint drain {S : Type} (next : S -> option (outcome Row) * S) (fuel : nat) (s : S) : Rows :=
  match fuel with
  | O => [Panic "fuel exhausted"]
  | S fuel =>
      match next s with
      | (Some item, s) => item :: drain next fuel s
      | (None, _) => []
      end
  end.

(** [row[i]] *)
Definition row_index (row : Row) (i : nat) : outcome Value :=
  match row !! i with
  | Some v => Ok v
  | None => Panic "index out of bounds"
  end.

Section Exec.
Context `{F64Pow, Regex}.

(** Filter predicates: TRUE keeps a row, FALSE and NULL drop it. *)
Definition predicate_holds (msg : string) (predicate : Expression) (row : Row) : outcome bool :=
  let? v := evaluate (Some row) predicate in
  match v with
  | Boolean true => Ok true
  | Boolean false | Null => Ok false
  | _ => errinput msg
  end.

Fixpoint filter_rows (predicate : Expression) (rows : Rows) : Rows :=
  match rows with
  | [] => []
  | Ok row :: rows =>
      match predicate_holds "filter returned, expected boolean" predicate row with
      | Ok true => Ok row :: filter_rows predicate rows
      | Ok false => filter_rows predicate rows
      | Err e => Err e :: filter_rows predicate rows
      | Panic p => Panic p :: filter_rows predicate rows
      end
  | item :: rows => item :: filter_rows predicate rows
  end.

(** ** Nested loop joins *)
Record NestedLoopJoiner : Type := mkNLJ {
  nl_left : Rows;
  nl_right : Rows;
  nl_right_original : Rows;
  nl_right_columns : nat;
  nl_right_matched : bool;
  nl_predicate : option Expression;
  nl_outer : bool;
}.

Definition nested_loop_joiner_new (left right : Rows) (right_columns : nat)
    (predicate : option Expression) (outer : bool) : NestedLoopJoiner :=
  mkNLJ left right right right_columns false predicate outer.

(** The inner loop: the next match for [left] among the remaining right rows,
    if any, or an error, and what remains of the right rows. *)
Fixpoint next_match (predicate : option Expression) (left : Row) (right : Rows) :
    option (outcome Row) * Rows :=
  match right with
  | [] => (None, [])
  | Ok r :: rest =>
      let row := left ++ r in
      match predicate with
      | None => (Some (Ok row), rest)
      | Some p =>
          match predicate_holds "join predicate returned, expected boolean" p row with
          | Ok true => (Some (Ok row), rest)
          | Ok false => next_match predicate left rest
          | Err e => (Some (Err e), rest)
          | Panic p => (Some (Panic p), rest)
          end
      end
  | item :: rest => (Some item, rest)
  end.

(** The outer loop, on the left rows. *)
Fixpoint nl_loop (right_original : Rows) (right_columns : nat) (predicate : option Expression)
    (outer : bool) (left right : Rows) (matched : bool) : option (outcome Row) * (Rows * Rows * bool) :=
  match left with
  | Ok l :: left' =>
      match next_match predicate l right with
      | (Some (Ok row), right') => (Some (Ok row), (left, right', true))
      | (Some item, right') => (Some item, (left, right', matched))
      | (None, right') =>
          if negb matched && outer then
            (Some (Ok (l ++ replicate right_columns Null)), (left, right', true))
          else nl_loop right_original right_columns predicate outer left' right_original false
      end
  | item :: left' => (Some item, (left', right, matched))
  | [] => (None, (left, right, matched))
  end.

Definition nl_try_next (j : NestedLoopJoiner) : option (outcome Row) * NestedLoopJoiner :=
  let '(item, (l, r, matched)) :=
    nl_loop (nl_right_original j) (nl_right_columns j) (nl_predicate j) (nl_outer j)
      (nl_left j) (nl_right j) (nl_right_matched j) in
  (item, mkNLJ l r (nl_right_original j) (nl_right_columns j) matched (nl_predicate j) (nl_outer j)).

(** Each item moves past a right row, emits the outer row or moves past a left
    row. *)
Definition nl_fuel (left right : Rows) : nat := S (length left * (length right + 2)).

Definition nested_loop_rows (left right : Rows) (right_columns : nat)
    (predicate : option Expression) (outer : bool) : Rows :=
  drain nl_try_next (nl_fuel left right) (nested_loop_joiner_new left right right_columns predicate outer).

(** ** Hash joins *)

(** [HashMap<Value, Vec<Row>>]: a key is found by its hash, then compared. *)
Definition hash_key_eq (a b : Value) : bool := bool_decide (value_hash a = value_hash b) && value_eq a b.

Fixpoint hmap_get (m : list (Value * list Row)) (k : Value) : option (list Row) :=
  match m with
  | [] => None
  | (k', rows) :: m => if hash_key_eq k' k then Some rows else hmap_get m k
  end.

(** [right_map.entry(value).or_default().push(row)] *)
Fixpoint hmap_push (k : Value) (row : Row) (m : list (Value * list Row)) : list (Value * list Row) :=
  match m with
  | [] => [(k, [row])]
  | (k', rows) :: m =>
      if hash_key_eq k' k then (k', rows ++ [row]) :: m else (k', rows) :: hmap_push k row m
  end.

Fixpoint hash_build (right_column : nat) (right : Rows) (m : list (Value * list Row)) :
    outcome (list (Value * list Row)) :=
  match right with
  | [] => Ok m
  | item :: rest =>
      let? row := item in
      let? value := row_index row right_column in
      hash_build right_column rest (if is_undefined value then m else hmap_push value row m)
  end.

Record HashJoiner : Type := mkHJ {
  hj_left : Rows;
  hj_left_column : nat;
  hj_right : list (Value * list Row);
  hj_right_columns : nat;
  hj_outer : bool;
  hj_pending : Rows;
}.

Definition hash_joiner_new (left : Rows) (left_column : nat) (right : Rows) (right_column : nat)
    (right_columns : nat) (outer : bool) : outcome HashJoiner :=
  let? right_map := hash_build right_column right [] in
  Ok (mkHJ left left_column right_map right_columns outer []).

(** The loop over the left rows: the item, the remaining left rows and the
    pending rows. *)
Fixpoint hj_loop (left_column : nat) (right_map : list (Value * list Row)) (right_columns : nat)
    (outer : bool) (left : Rows) : option (outcome Row) * (Rows * Rows) :=
  match left with
  | [] => (None, ([], []))
  | Ok l :: rest =>
      match row_index l left_column with
      | Ok v =>
          match hmap_get right_map v with
          | Some rows =>
              match map (fun r => Ok (l ++ r)) rows with
              | item :: pending => (Some item, (rest, pending))
              | [] => (None, (rest, []))
              end
          | None =>
              if outer then (Some (Ok (l ++ replicate right_columns Null)), (rest, []))
              else hj_loop left_column right_map right_columns outer rest
          end
      | Err e => (Some (Err e), (rest, []))
      | Panic p => (Some (Panic p), (rest, []))
      end
  | item :: rest => (Some item, (rest, []))
  end.

Definition hj_try_next (j : HashJoiner) : option (outcome Row) * HashJoiner :=
  let next left pending := mkHJ left (hj_left_column j) (hj_right j) (hj_right_columns j) (hj_outer j) pending in
  match hj_pending j with
  | item :: pending => (Some item, next (hj_left j) pending)
  | [] =>
      let '(item, (l, pending)) :=
        hj_loop (hj_left_column j) (hj_right j) (hj_right_columns j) (hj_outer j) (hj_left j) in
      (item, next l pending)
  end.

Definition hash_join_rows (left : Rows) (left_column : nat) (right : Rows) (right_column : nat)
    (right_columns : nat) (outer : bool) : outcome Rows :=
  let? j := hash_joiner_new left left_column right right_column right_columns outer in
  Ok (drain hj_try_next (nl_fuel left right) j).

(** ** Ordered maps *)
Section OrdMap.
Context {K V : Type} (cmp : K -> K -> comparison).

Fixpoint omap_get (m : list (K * V)) (k : K) : option V :=
  match m with
  | [] => None
  | (k', v) :: m => match cmp k k' with Eq => Some v | Lt => None | Gt => omap_get m k end
  end.

(** An existing key is kept, its value replaced. *)
Fixpoint omap_insert (k : K) (v : V) (m : list (K * V)) : list (K * V) :=
  match m with
  | [] => [(k, v)]
  | (k', v') :: m' =>
      match cmp k k' with
      | Lt => (k, v) :: m
      | Eq => (k', v) :: m'
      | Gt => (k', v') :: omap_insert k v m'
      end
  end.
End OrdMap.

(** [Vec<Value>::cmp]: lexicographic. *)
Fixpoint values_cmp (a b : list Value) : comparison :=
  match a, b with
  | [], [] => Eq
  | [], _ => Lt
  | _, [] => Gt
  | x :: a, y :: b => then_cmp (value_cmp x y) (values_cmp a b)
  end.

(** ** Aggregation *)
Inductive Accumulator : Type :=
  | AccAverage (count : Z) (sum : Value)
  | AccCount (count : Z)
  | AccMax (max : option Value)
  | AccMin (min : option Value)
  | AccSum (sum : option Value).

Definition accumulator_new (a : Aggregate) : Accumulator :=
  match a with
  | Average _ => AccAverage 0 (Integer 0)
  | Count _ => AccCount 0
  | Max _ => AccMax None
  | Min _ => AccMin None
  | Sum _ => AccSum None
  end.

Definition accumulator_add (acc : Accumulator) (value : Value) : outcome Accumulator :=
  if value_eq value Null then Ok acc
  else
    match acc with
    | AccAverage count sum => let? sum := checked_add sum value in Ok (AccAverage (i64 (count + 1)) sum)
    | AccCount count => Ok (AccCount (i64 (count + 1)))
    | AccMax None => Ok (AccMax (Some value))
    | AccMax (Some max) => Ok (match value_cmp value max with Gt => AccMax (Some value) | _ => acc end)
    | AccMin None => Ok (AccMin (Some value))
    | AccMin (Some min) => Ok (match value_cmp value min with Lt => AccMin (Some value) | _ => acc end)
    | AccSum None => let? sum := checked_add (Integer 0) value in Ok (AccSum (Some sum))
    | AccSum (Some sum) => let? sum := checked_add sum value in Ok (AccSum (Some sum))
    end.

Definition accumulator_value (acc : Accumulator) : outcome Value :=
  match acc with
  | AccAverage count sum => if count =? 0 then Ok Null else checked_div sum (Integer count)
  | AccCount count => Ok (Integer count)
  | AccMax (Some v) | AccMin (Some v) | AccSum (Some v) => Ok v
  | AccMax None | AccMin None | AccSum None => Ok Null
  end.

Record Aggregator : Type := mkAggregator {
  agg_group_by : list Expression;
  agg_aggregates : list Aggregate;
  agg_buckets : list (list Value * list Accumulator);
}.

Definition aggregator_new (group_by : list Expression) (aggregates : list Aggregate) : Aggregator :=
  mkAggregator group_by aggregates [].

(** [for (accumulator, expr) in accumulators.zip_eq(exprs)] *)
Fixpoint accumulate (row : Row) (accs : list Accumulator) (exprs : list Expression) :
    outcome (list Accumulator) :=
  match accs, exprs with
  | [], [] => Ok []
  | acc :: accs, e :: exprs =>
      let? v := evaluate (Some row) e in
      let? acc := accumulator_add acc v in
      let? accs := accumulate row accs exprs in
      Ok (acc :: accs)
  | _, _ => Panic "zip_eq lengths differ"
  end.

Definition aggregator_add (a : Aggregator) (row : Row) : outcome Aggregator :=
  let? bucket := try_collect (map (evaluate (Some row)) (agg_group_by a)) in
  let accs := match omap_get values_cmp (agg_buckets a) bucket with
              | Some accs => accs
              | None => map accumulator_new (agg_aggregates a)
              end in
  let? accs := accumulate row accs (map aggregate_expr (agg_aggregates a)) in
  Ok (mkAggregator (agg_group_by a) (agg_aggregates a)
        (omap_insert values_cmp bucket accs (agg_buckets a))).

Fixpoint aggregator_add_rows (a : Aggregator) (rows : Rows) : outcome Aggregator :=
  match rows with
  | [] => Ok a
  | item :: rows =>
      let? row := item in
      let? a := aggregator_add a row in
      aggregator_add_rows a rows
  end.

Definition aggregator_into_rows (a : Aggregator) : Rows :=
  match agg_buckets a, agg_group_by a with
  | [], [] => [try_collect (map (fun g => accumulator_value (accumulator_new g)) (agg_aggregates a))]
  | buckets, _ =>
      map (fun ba => try_collect (map Ok ba.1 ++ map accumulator_value ba.2)) buckets
  end.

(** ** Sorting *)

(** [sort_by]: a stable sort. *)
Section Sort.
Context {A : Type} (cmp : A -> A -> comparison).
Fixpoint sort_insert (x : A) (l : list A) : list A :=
  match l with
  | [] => [x]
  | y :: l' => match cmp x y with Gt => y :: sort_insert x l' | _ => x :: l end
  end.
Fixpoint sort_by (l : list A) : list A :=
  match l with
  | [] => []
  | x :: l => sort_insert x (sort_by l)
  end.
End Sort.

Fixpoint order_cmp (dirs : list Direction) (a b : list Value) : comparison :=
  match dirs, a, b with
  | dir :: dirs, x :: a, y :: b =>
      let ordering := value_cmp x y in
      let ordering := match dir with Descending => CompOpp ordering | Ascending => ordering end in
      then_cmp ordering (order_cmp dirs a b)
  | _, _, _ => Eq
  end.

Definition order (source : Rows) (key : list (Expression * Direction)) : outcome Rows :=
  let? rows := try_collect (map (fun item =>
    let? row := item in
    let? sort_keys := try_collect (map (fun ed => evaluate (Some row) ed.1) key) in
    Ok (row, sort_keys)) source) in
  Ok (map (fun rk => Ok rk.1) (sort_by (fun a b : Row * list Value => order_cmp key.*2 a.2 b.2) rows)).

(** ** Executor *)

(** [for (target, value) in targets.zip_eq(row)] *)
Fixpoint remap_loop (targets : list (option nat)) (row remapped : Row) : outcome Row :=
  match targets, row with
  | [], [] => Ok remapped
  | t :: targets, v :: row =>
      remap_loop targets row (match t with Some i => <[i := v]> remapped | None => remapped end)
  | _, _ => Panic "zip_eq lengths differ"
  end.

Section Executor.
Context `{Transaction T}.

Fixpoint execute_node (n : Node) (t : T) : outcome Rows :=
  match n with
  | NAggregate source group_by aggregates =>
      let? source := execute_node source t in
      let? a := aggregator_add_rows (aggregator_new group_by aggregates) source in
      Ok (aggregator_into_rows a)
  | NFilter source predicate =>
      let? source := execute_node source t in
      Ok (filter_rows predicate source)
  | NHashJoin l left_column r right_column outer =>
      let? l_rows := execute_node l t in
      let? r_rows := execute_node r t in
      hash_join_rows l_rows left_column r_rows right_column (node_columns r) outer
  | NIndexLookup table column values _ =>
      match columns table !! column with
      | None => Panic "invalid column"
      | Some c =>
          let? ids := txn_lookup_index (table_name table) (col_name c) values t in
          let? rows := txn_get (table_name table) ids t in
          Ok (map Ok rows)
      end
  | NKeyLookup table keys _ =>
      let? rows := txn_get (table_name table) keys t in
      Ok (map Ok rows)
  | NLimit source limit => let? source := execute_node source t in Ok (take limit source)
  | NNestedLoopJoin l r predicate outer =>
      let? l_rows := execute_node l t in
      let? r_rows := execute_node r t in
      Ok (nested_loop_rows l_rows r_rows (node_columns r) predicate outer)
  | NNothing _ => Ok []
  | NOffset source offset => let? source := execute_node source t in Ok (drop offset source)
  | NOrder source key => let? source := execute_node source t in order source key
  | NProjection source expressions _ =>
      let? source := execute_node source t in
      Ok (map (fun item => let? row := item in try_collect (map (evaluate (Some row)) expressions)) source)
  | NRemap source targets =>
      let? source := execute_node source t in
      Ok (map (fun item => let? row := item in
                           remap_loop targets row (replicate (remap_size targets) Null)) source)
  | NScan table filter _ => txn_scan (table_name table) filter t
  | NValues rows => Ok (map (fun row => try_collect (map (evaluate None) row)) rows)
  end.

(** [row.into_iter().nth(primary_key).expect("short row")] *)
Definition row_nth (row : Row) (i : nat) : outcome Value :=
  match row !! i with
  | Some v => Ok v
  | None => Panic "short row"
  end.

Definition exec_delete (table : bytes) (primary_key : nat) (source : Rows) : stM T Z :=
  let! ids := st_lift (try_collect (map (fun item => let? row := item in row_nth row primary_key) source)) in
  txn_delete table ids ;;;
  st_ret (Z.of_nat (length ids)).

(** One row of INSERT: the source values mapped to the table's columns. *)
Definition insert_column (column_map : option (gmap nat nat)) (values : Row) (i : nat) (c : Column_) :
    outcome Value :=
  match column_map with
  | None =>
      match values !! i with
      | Some v => Ok v
      | None =>
          match col_default c with
          | Some v => Ok v
          | None => errinput "no value given for column with no default"
          end
      end
  | Some m =>
      match m !! i with
      | Some vi => row_index values vi
      | None =>
          match col_default c with
          | Some v => Ok v
          | None => errinput "no value given for column with no default"
          end
      end
  end.

Definition insert_row (table : Table) (column_map : option (gmap nat nat)) (values : Row) : outcome Row :=
  if (length values =? length (columns table))%nat && bool_decide (column_map = None) then Ok values
  else if (length (columns table) <? length values)%nat then errinput "too many values for table"
  else if match column_map with Some m => negb (base.size m =? length values)%nat | None => false end
  then errinput "column and value counts do not match"
  else try_collect (imap (insert_column column_map values) (columns table)).

Definition exec_insert (table : Table) (column_map : option (gmap nat nat)) (source : Rows) : stM T Z :=
  let! rows := st_lift (try_collect (map (fun item => let? v := item in insert_row table column_map v) source)) in
  txn_insert (table_name table) rows ;;;
  st_ret (Z.of_nat (length rows)).

(** [update[column] = expr.evaluate(row)?], for each assignment. *)
Fixpoint update_row (row : Row) (expressions : list (nat * Expression)) (update : Row) : outcome Row :=
  match expressions with
  | [] => Ok update
  | (column, e) :: expressions =>
      let? v := evaluate (Some row) e in
      if (column <? length update)%nat then update_row row expressions (<[column := v]> update)
      else Panic "index out of bounds"
  end.

Fixpoint update_rows (primary_key : nat) (source : Rows) (expressions : list (nat * Expression))
    (updates : list (Value * Row)) : outcome (list (Value * Row)) :=
  match source with
  | [] => Ok updates
  | item :: source =>
      let? row := item in
      let? update := update_row row expressions row in
      let? id := row_nth row primary_key in
      update_rows primary_key source expressions (omap_insert value_cmp id update updates)
  end.

Definition exec_update (table : bytes) (primary_key : nat) (source : Rows)
    (expressions : list (nat * Expression)) : stM T Z :=
  let! updates := st_lift (update_rows primary_key source expressions []) in
  txn_update table updates ;;;
  st_ret (Z.of_nat (length updates)).

Inductive ExecutionResult : Type :=
  | RCreateTable (name : bytes)
  | RDropTable (name : bytes) (existed : bool)
  | RDelete (count : Z)
  | RInsert (count : Z)
  | RUpdate (count : Z)
  | RSelect (columns : list Label) (rows : Rows).

Definition execute (plan : Plan) : stM T ExecutionResult :=
  match plan with
  | PCreateTable schema => create_table schema ;;; st_ret (RCreateTable (table_name schema))
  | PDropTable name if_exists => let! existed := drop_table name if_exists in st_ret (RDropTable name existed)
  | PDelete table primary_key source =>
      let! source := st_read (execute_node source) in
      let! count := exec_delete table primary_key source in
      st_ret (RDelete count)
  | PInsert table column_map source =>
      let! source := st_read (execute_node source) in
      let! count := exec_insert table column_map source in
      st_ret (RInsert count)
  | PSelect root =>
      let! columns := st_lift (try_collect (map (column_label root) (seq 0 (node_columns root)))) in
      let! rows := st_read (execute_node root) in
      st_ret (RSelect columns rows)
  | PUpdate table primary_key source expressions =>
      let! source := st_read (execute_node source) in
      let! count := exec_update (table_name table) primary_key source expressions in
      st_ret (RUpdate count)
  end.

End Executor.
End Exec.
