(* ===== verification/SqlJoinTheory.v ===== *)
(** * Joins: the iterators compute the relational joins

    The items a joiner yields are those of a list comprehension over its
    sources; on sources without errors both joiners compute [left_join], and the
    hash join of an equality is the nested loop join of it. *)
From S2P Require Import Prelude Bytes Float64 SqlValue KeycodeTheory SqlValueTheory SqlExpr SqlExprTheory SqlPlan SqlExec.

(** An iterator whose items are the list [f s]. *)
Lemma drain_list {S} (next : S -> option (outcome Row) * S) (f : S -> Rows) :
  (forall s, match next s with
             | (None, _) => f s = []
             | (Some item, s') => f s = item :: f s'
             end) ->
  forall fuel s, (length (f s) < fuel)%nat -> drain next fuel s = f s.
Proof.
  intros Hn. induction fuel as [|fuel IH]; intros s Hf; [lia|]. cbn [drain].
  specialize (Hn s). destruct (next s) as [[item|] s']; rewrite Hn; [|reflexivity].
  rewrite Hn in Hf. cbn in Hf. rewrite IH by lia. reflexivity.
Qed.

Definition is_ok {A} (o : outcome A) : bool := match o with Ok _ => true | _ => false end.

Section Join.
Context `{F64Pow, Regex}.

(** ** The reference joins *)

(** Each left row with its matches, or with NULLs if it has none and the join
    is an outer one. *)
Definition left_join (m : Row -> Row -> bool) (right_columns : nat) (outer : bool) (left right : list Row) : list Row :=
  left ≫= fun l =>
    match List.filter (m l) right with
    | [] => if outer then [l ++ replicate right_columns Null] else []
    | rs => map (fun r => l ++ r) rs
    end.

(** ** The nested loop joiner *)
Section NestedLoop.
Context (right_original : Rows) (right_columns : nat) (predicate : option Expression) (outer : bool).

(** The items for one left row. *)
Definition join_item (l : Row) (item : outcome Row) : Rows :=
  match item with
  | Ok r =>
      match predicate with
      | None => [Ok (l ++ r)]
      | Some p =>
          match predicate_holds "join predicate returned, expected boolean" p (l ++ r) with
          | Ok true => [Ok (l ++ r)]
          | Ok false => []
          | Err e => [Err e]
          | Panic p => [Panic p]
          end
      end
  | item => [item]
  end.
Definition join_items (l : Row) (rs : Rows) : Rows := rs ≫= join_item l.

(** The items still to come in a state of the joiner. *)
Fixpoint nl_rest (ls rs : Rows) (matched : bool) : Rows :=
  match ls with
  | [] => []
  | Ok l :: ls =>
      let items := join_items l rs in
      items ++
      (if outer && negb matched && negb (existsb is_ok items) then [Ok (l ++ replicate right_columns Null)] else []) ++
      nl_rest ls right_original false
  | item :: ls => item :: nl_rest ls rs matched
  end.

Lemma next_match_items l rs :
  match next_match predicate l rs with
  | (None, rs') => join_items l rs = [] /\ rs' = []
  | (Some item, rs') => join_items l rs = item :: join_items l rs'
  end.
Proof.
  induction rs as [|[r|e|p] rs IH]; cbn [next_match join_items mbind list_bind join_item]; auto.
  destruct predicate as [p|]; [|reflexivity].
  destruct (predicate_holds _ p (l ++ r)) as [[]| |]; try reflexivity. exact IH.
Qed.

Lemma nl_loop_rest ls : forall rs matched,
  match nl_loop right_original right_columns predicate outer ls rs matched with
  | (None, _) => nl_rest ls rs matched = []
  | (Some item, (ls', rs', matched')) => nl_rest ls rs matched = item :: nl_rest ls' rs' matched'
  end.
Proof.
  induction ls as [|[l|e|p] ls IH]; intros rs matched; cbn [nl_loop nl_rest]; try reflexivity.
  pose proof (next_match_items l rs) as Hm. destruct (next_match predicate l rs) as [[item|] rs'].
  - destruct item as [row|e|p]; cbn [nl_rest]; rewrite Hm; cbn [existsb is_ok app].
    + f_equal. rewrite andb_false_r. cbn [app]. now rewrite andb_false_r, andb_false_l.
    + reflexivity.
    + reflexivity.
  - destruct Hm as [-> ->]. cbn [existsb app negb].
    rewrite andb_true_r, (andb_comm outer (negb matched)). destruct (negb matched && outer) eqn:Eo; cbn [app].
    + cbn [nl_rest join_items mbind list_bind existsb app negb]. now rewrite andb_false_r.
    + exact (IH right_original false).
Qed.

Lemma join_items_length l rs : (length (join_items l rs) <= length rs)%nat.
Proof.
  unfold join_items. induction rs as [|item rs IH]; cbn [mbind list_bind]; [lia|].
  rewrite length_app. cbn [length].
  assert (length (join_item l item) <= 1)%nat; [|lia]. unfold join_item.
  destruct item as [r| |]; [|cbn; lia ..]. destruct predicate as [p|]; [|cbn; lia].
  destruct (predicate_holds _ p (l ++ r)) as [[]| |]; cbn; lia.
Qed.

Lemma nl_rest_length ls : forall rs matched, (length rs <= length right_original)%nat ->
  (length (nl_rest ls rs matched) <= length ls * (length right_original + 1))%nat.
Proof.
  induction ls as [|[l|e|p] ls IH]; intros rs matched Hr; cbn [nl_rest length]; rewrite ?Nat.mul_succ_l; [lia| | |].
  - rewrite !length_app. pose proof (join_items_length l rs). specialize (IH right_original false (Nat.le_refl _)).
    destruct (_ && _ && _); cbn [length]; lia.
  - specialize (IH rs matched Hr).  lia.
  - specialize (IH rs matched Hr).  lia.
Qed.
End NestedLoop.

Lemma nested_loop_rows_eq left right rc p outer :
  nested_loop_rows left right rc p outer = nl_rest right rc p outer left right false.
Proof.
  unfold nested_loop_rows.
  set (f j := nl_rest (nl_right_original j) (nl_right_columns j) (nl_predicate j) (nl_outer j)
                (nl_left j) (nl_right j) (nl_right_matched j)).
  change (nl_rest right rc p outer left right false) with (f (nested_loop_joiner_new left right rc p outer)).
  apply drain_list.
  - intros j. unfold nl_try_next.
    pose proof (nl_loop_rest (nl_right_original j) (nl_right_columns j) (nl_predicate j) (nl_outer j)
      (nl_left j) (nl_right j) (nl_right_matched j)) as Hl.
    destruct (nl_loop _ _ _ _ _ _ _) as [[item|] [[ls' rs'] m']]; exact Hl.
  - unfold f, nl_fuel. cbn. pose proof (nl_rest_length right rc p outer left right false). lia.
Qed.

(** The predicate as a relation on pairs of rows, where it has no error. *)
Definition predicate_decides (p : option Expression) (m : Row -> Row -> bool) (left right : list Row) : Prop :=
  forall l r, In l left -> In r right ->
  match p with
  | None => m l r = true
  | Some p => predicate_holds "join predicate returned, expected boolean" p (l ++ r) = Ok (m l r)
  end.

Lemma join_items_ok p m l rs :
  predicate_decides p m [l] rs ->
  join_items p l (map Ok rs) = map (fun r => Ok (l ++ r)) (List.filter (m l) rs).
Proof.
  unfold join_items. induction rs as [|r rs IH]; intros Hd; [reflexivity|].
  cbn [map mbind list_bind List.filter]. rewrite IH by (intros x y Hx Hy; apply Hd; [exact Hx | now right]).
  specialize (Hd l r (or_introl eq_refl) (or_introl eq_refl)). cbn [join_item].
  destruct p as [p|]; rewrite Hd; [|reflexivity]. now destruct (m l r).
Qed.

Lemma existsb_map_ok (f : Row -> Row) rs : existsb is_ok (map (fun r => Ok (f r)) rs) = match rs with [] => false | _ => true end.
Proof. now destruct rs. Qed.

Lemma nested_loop_left_join p m rc outer left right :
  predicate_decides p m left right ->
  nested_loop_rows (map Ok left) (map Ok right) rc p outer = map Ok (left_join m rc outer left right).
Proof.
  rewrite nested_loop_rows_eq. unfold left_join. induction left as [|l left IH]; intros Hd; [reflexivity|].
  cbn [map nl_rest mbind list_bind]. rewrite IH by (intros x y Hx; apply Hd; now right).
  rewrite (join_items_ok p m) by (intros x y [<-|[]] Hy; apply Hd; [now left | exact Hy]).
  rewrite existsb_map_ok, map_app, andb_true_r.
  rewrite app_assoc. f_equal. destruct (List.filter (m l) right) as [|r rs] eqn:E; cbn [map negb app].
  - now destruct outer.
  - rewrite andb_false_r, app_nil_r, map_map. reflexivity.
Qed.

(** ** The hash joiner *)
Section Hash.
Context (left_column : nat) (right_map : list (Value * list Row)) (right_columns : nat) (outer : bool).

(** The items for one left item. *)
Definition hash_item (item : outcome Row) : Rows :=
  match item with
  | Ok l =>
      match row_index l left_column with
      | Ok v =>
          match hmap_get right_map v with
          | Some rs => map (fun r => Ok (l ++ r)) rs
          | None => if outer then [Ok (l ++ replicate right_columns Null)] else []
          end
      | Err e => [Err e]
      | Panic p => [Panic p]
      end
  | item => [item]
  end.

Definition nonempty_groups : Prop := forall v, hmap_get right_map v <> Some [].

Lemma hj_loop_items ls : nonempty_groups ->
  match hj_loop left_column right_map right_columns outer ls with
  | (None, _) => ls ≫= hash_item = []
  | (Some item, (ls', pending)) => ls ≫= hash_item = item :: pending ++ (ls' ≫= hash_item)
  end.
Proof.
  intros Hne. induction ls as [|[l|e|p] ls IH]; cbn [hj_loop mbind list_bind hash_item]; try reflexivity.
  destruct (row_index l left_column) as [v| |]; try reflexivity.
  specialize (Hne v). destruct (hmap_get right_map v) as [[|r rs]|]; [easy | reflexivity |].
  destruct outer; [reflexivity | exact IH].
Qed.
End Hash.

Lemma hash_item_length lc m rc outer item : (forall v rs, hmap_get m v = Some rs -> (length rs <= rc)%nat) ->
  forall n, (length (hash_item lc m n outer item) <= rc + 1)%nat.
Proof.
  intros Hm n. unfold hash_item. destruct item as [l| |]; [|cbn; lia ..].
  destruct (row_index l lc) as [v| |]; [|cbn; lia ..].
  destruct (hmap_get m v) as [rs|] eqn:E; [|destruct outer; cbn; lia].
  rewrite length_map. specialize (Hm v rs E).  lia.
Qed.

Lemma hash_items_length lc m rc outer n ls : (forall v rs, hmap_get m v = Some rs -> (length rs <= rc)%nat) ->
  (length (ls ≫= hash_item lc m n outer) <= length ls * (rc + 1))%nat.
Proof.
  intros Hm. induction ls as [|item ls IH]; cbn [mbind list_bind length]; [lia|].
  rewrite length_app, Nat.mul_succ_l. pose proof (hash_item_length lc m rc outer item Hm n).
   cbn [mbind list_bind] in IH. lia.
Qed.

Lemma hash_drain j fuel :
  nonempty_groups (hj_right j) ->
  let items := hj_pending j ++ (hj_left j ≫= hash_item (hj_left_column j) (hj_right j) (hj_right_columns j) (hj_outer j)) in
  (length items < fuel)%nat -> drain hj_try_next fuel j = items.
Proof.
  intros Hne. revert j Hne. induction fuel as [|fuel IH]; intros j Hne items Hf; [lia|]. cbn [drain].
  unfold hj_try_next. subst items. destruct (hj_pending j) as [|item pending] eqn:Ep; cbn [app] in *.
  - pose proof (hj_loop_items (hj_left_column j) (hj_right j) (hj_right_columns j) (hj_outer j) (hj_left j) Hne) as Hl.
    destruct (hj_loop _ _ _ _ _) as [[item|] [ls' pending]]; rewrite Hl in *; [|reflexivity].
    f_equal. rewrite IH; cbn [hj_right hj_pending hj_left hj_left_column hj_right_columns hj_outer]; [reflexivity | exact Hne |].
    cbn in Hf. lia.
  - f_equal. rewrite IH; cbn [hj_right hj_pending hj_left hj_left_column hj_right_columns hj_outer]; [reflexivity | exact Hne |].
    cbn in Hf. lia.
Qed.

(** ** The hash table of typed rows *)
Definition column_typed (t : DataType) (c : nat) (row : Row) : Prop :=
  exists v, row !! c = Some v /\ in_column t v.

Lemma hash_key_eq_typed t k v :
  in_column t k -> in_column t v -> is_undefined k = false ->
  hash_key_eq k v = negb (is_undefined v) && bool_decide (value_hash k = value_hash v).
Proof.
  intros Hk Hv Uk. unfold hash_key_eq. destruct (is_undefined v) eqn:Uv; cbn [negb andb].
  - rewrite (value_eq_undefined t) by (assumption || congruence). apply andb_false_r.
  - apply eq_true_iff_eq. rewrite andb_true_iff, bool_decide_eq_true, (value_eq_hash t) by assumption. tauto.
Qed.

(** Keys of the table are defined values of the column's type. *)
Definition keys_typed (t : DataType) (m : list (Value * list Row)) : Prop :=
  Forall (fun kr => in_column t kr.1 /\ is_undefined kr.1 = false) m.

Lemma hmap_push_typed t k row m :
  in_column t k -> is_undefined k = false -> keys_typed t m -> keys_typed t (hmap_push k row m).
Proof.
  intros Hk Uk. unfold keys_typed. induction 1 as [|[k' rs] m Hk' Hm IH]; cbn [hmap_push].
  - apply Forall_singleton. auto.
  - destruct (hash_key_eq k' k); apply Forall_cons; auto.
Qed.

Lemma hmap_get_push t k row m v :
  in_column t k -> is_undefined k = false -> keys_typed t m -> in_column t v ->
  hmap_get (hmap_push k row m) v
  = if hash_key_eq k v then Some (default [] (hmap_get m v) ++ [row]) else hmap_get m v.
Proof.
  intros Hk Uk Hm Hv. induction Hm as [|[k' rs] m [Hk' Uk'] Hm IH]; cbn [hmap_push hmap_get]; [reflexivity|].
  cbn [fst] in *. pose proof (hash_key_eq_typed t k' k Hk' Hk Uk') as E1.
  pose proof (hash_key_eq_typed t k' v Hk' Hv Uk') as E2. pose proof (hash_key_eq_typed t k v Hk Hv Uk) as E3.
  rewrite Uk in E1. cbn [negb andb] in E1. rewrite E1, E3.
  destruct (decide (value_hash k' = value_hash k)) as [Hh|Hh].
  - rewrite bool_decide_true by exact Hh. cbn [hmap_get]. rewrite E2, Hh.
    destruct (negb (is_undefined v) && bool_decide (value_hash k = value_hash v)); reflexivity.
  - rewrite bool_decide_false by exact Hh. cbn [hmap_get]. rewrite E2, IH, E3.
    destruct (negb (is_undefined v)); cbn [andb]; [|reflexivity].
    destruct (decide (value_hash k' = value_hash v)), (decide (value_hash k = value_hash v));
      rewrite ?bool_decide_true, ?bool_decide_false by assumption; congruence.
Qed.

(** The rows with key [v]. *)
Definition key_matches (rc : nat) (v : Value) (r : Row) : bool :=
  match r !! rc with
  | Some k => negb (is_undefined k) && hash_key_eq k v
  | None => false
  end.

(** Groups are not empty and no larger than the source. *)
Definition groups_bounded (n : nat) (m : list (Value * list Row)) : Prop :=
  Forall (fun kr => 1 <= length kr.2 <= n)%nat m.

Lemma groups_bounded_get n m v rs : groups_bounded n m -> hmap_get m v = Some rs -> (1 <= length rs <= n)%nat.
Proof.
  induction 1 as [|[k l] m Hl Hm IH]; cbn [hmap_get]; [discriminate|].
  destruct (hash_key_eq k v); [|exact IH]. now intros [= <-].
Qed.

Lemma groups_bounded_push n k row m : groups_bounded n m -> groups_bounded (S n) (hmap_push k row m).
Proof.
  unfold groups_bounded. induction 1 as [|[k' l] m Hl Hm IH]; cbn [hmap_push]; cbn [snd] in *.
  - apply Forall_singleton. cbn. lia.
  - assert (Forall (fun kr : Value * list Row => 1 <= length kr.2 <= S n)%nat m) by
      (eapply Forall_impl; [exact Hm | cbn; lia]).
    destruct (hash_key_eq k' k); constructor; cbn [snd]; rewrite ?length_app; cbn [length]; auto; lia.
Qed.

Lemma hash_build_bounded rc rs : forall n m m', groups_bounded n m ->
  hash_build rc (map Ok rs) m = Ok m' -> groups_bounded (n + length rs) m'.
Proof.
  induction rs as [|r rs IH]; intros n m m' Hm; cbn [map hash_build outcome_bind length].
  - intros [= <-]. now rewrite Nat.add_0_r.
  - destruct (row_index r rc) as [v| |]; cbn [outcome_bind]; try discriminate.
    rewrite <- Nat.add_succ_comm. apply IH. destruct (is_undefined v); [|now apply groups_bounded_push].
    eapply Forall_impl; [exact Hm | cbn; lia].
Qed.

Definition group (l : list Row) : option (list Row) := match l with [] => None | l => Some l end.

Lemma hash_build_spec t rc rs : forall m,
  Forall (column_typed t rc) rs -> keys_typed t m ->
  exists m', hash_build rc (map Ok rs) m = Ok m' /\ keys_typed t m' /\
    forall v, in_column t v ->
    hmap_get m' v = match List.filter (key_matches rc v) rs with
                    | [] => hmap_get m v
                    | l => Some (default [] (hmap_get m v) ++ l)
                    end.
Proof.
  induction rs as [|r rs IH]; intros m Hrs Hm; cbn [map hash_build].
  { exists m. auto. }
  apply Forall_cons in Hrs as [(k & Ek & Hk) Hrs]. cbn [outcome_bind]. unfold row_index. rewrite Ek. cbn [outcome_bind].
  destruct (is_undefined k) eqn:Uk.
  - destruct (IH m Hrs Hm) as (m' & -> & Hm' & Hg). exists m'. split; [reflexivity|]. split; [exact Hm'|].
    intros v Hv. rewrite (Hg v Hv). cbn [List.filter]. unfold key_matches at 2. now rewrite Ek, Uk.
  - destruct (IH (hmap_push k r m) Hrs) as (m' & -> & Hm' & Hg); [now apply hmap_push_typed|].
    exists m'. split; [reflexivity|]. split; [exact Hm'|]. intros v Hv. rewrite (Hg v Hv).
    rewrite (hmap_get_push t) by assumption. cbn [List.filter]. unfold key_matches at 2. rewrite Ek, Uk. cbn [negb andb].
    destruct (hash_key_eq k v); [|reflexivity].
    destruct (List.filter (key_matches rc v) rs); cbn; [reflexivity|]. now rewrite <- app_assoc.
Qed.

Lemma hash_build_group t rc rs :
  Forall (column_typed t rc) rs ->
  exists m, hash_build rc (map Ok rs) [] = Ok m /\
    forall v, in_column t v -> hmap_get m v = group (List.filter (key_matches rc v) rs).
Proof.
  intros Hrs. destruct (hash_build_spec t rc rs [] Hrs) as (m & Hm & _ & Hg); [constructor|].
  exists m. split; [exact Hm|]. intros v Hv. rewrite (Hg v Hv). now destruct (List.filter _ rs).
Qed.

Lemma evaluate_column (row : Row) i v : row !! i = Some v -> evaluate (Some row) (Column i) = Ok v.
Proof. intros E. cbn. now rewrite E. Qed.

(** The equality of two columns as a join predicate, on typed columns. *)
Lemma equal_columns_holds t msg (l r : Row) lc rc lcols :
  length l = lcols -> column_typed t lc l -> column_typed t rc r ->
  predicate_holds msg (Equal (Column lc) (Column (lcols + rc))) (l ++ r) =
  Ok (match l !! lc with Some v => key_matches rc v r | None => false end).
Proof.
  intros Hl (x & Ex & Hx) (y & Ey & Hy). unfold predicate_holds.
  assert (evaluate (Some (l ++ r)) (Column lc) = Ok x) as E1.
  { apply evaluate_column. now apply lookup_app_l_Some. }
  assert (evaluate (Some (l ++ r)) (Column (lcols + rc)) = Ok y) as E2.
  { apply evaluate_column. rewrite lookup_app_r by (subst; lia). subst. now rewrite Nat.add_comm, Nat.add_sub. }
  change (evaluate (Some (l ++ r)) (Equal (Column lc) (Column (lcols + rc)))) with
    (let? a := evaluate (Some (l ++ r)) (Column lc) in
     let? b := evaluate (Some (l ++ r)) (Column (lcols + rc)) in eval_equal a b).
  rewrite E1, E2, Ex. cbn [outcome_bind].
  unfold key_matches. rewrite Ey. destruct (is_undefined y) eqn:Uy; cbn [negb andb].
  - destruct Hx as [_ Tx], Hy as [_ Ty].
    destruct x, y; try discriminate; cbn in Tx, Ty; cbn [eval_equal outcome_bind];
      try reflexivity; try (destruct Tx, Ty; congruence).
    cbn in Uy. rewrite f64_eq_sym, f64_eq_nan by exact Uy. reflexivity.
  - rewrite (hash_key_eq_typed t) by assumption. destruct (is_undefined x) eqn:Ux; cbn [negb andb].
    + destruct Hx as [_ Tx], Hy as [_ Ty].
      destruct x, y; try discriminate; cbn in Tx, Ty; cbn [eval_equal outcome_bind];
        try reflexivity; try (destruct Tx, Ty; congruence).
      cbn in Ux. rewrite f64_eq_nan by exact Ux. reflexivity.
    + pose proof (value_eq_hash t y x Hy Hx Uy Ux) as E.
      assert (eval_equal x y = Ok (Boolean (value_eq x y))) as ->.
      { destruct Hx as [_ Tx], Hy as [_ Ty].
        destruct x, y; try discriminate; cbn in Tx, Ty, Ux, Uy; try (destruct Tx, Ty; congruence); try reflexivity.
        cbn [eval_equal value_eq]. now rewrite Ux, andb_false_l, orb_false_r. }
      cbn [outcome_bind]. rewrite value_eq_sym.
      replace (bool_decide (value_hash y = value_hash x)) with (value_eq y x); [now destruct (value_eq y x)|].
      apply eq_true_iff_eq. now rewrite bool_decide_eq_true.
Qed.

(** Equality of the left column [lc] and the right column [rc]. *)
Definition columns_match (lc rc : nat) (l r : Row) : bool :=
  match l !! lc with Some v => key_matches rc v r | None => false end.

Lemma hash_join_left_join t lc rc n outer left right :
  Forall (column_typed t lc) left -> Forall (column_typed t rc) right ->
  hash_join_rows (map Ok left) lc (map Ok right) rc n outer
  = Ok (map Ok (left_join (columns_match lc rc) n outer left right)).
Proof.
  intros Hl Hr. unfold hash_join_rows, hash_joiner_new.
  destruct (hash_build_group t rc right Hr) as (m & Em & Hm). rewrite Em. cbn [outcome_bind]. f_equal.
  assert (groups_bounded (length right) m) as Hb.
  { eapply (hash_build_bounded rc right 0 []); [constructor | exact Em]. }
  rewrite hash_drain.
  - cbn [hj_pending hj_left hj_left_column hj_right hj_right_columns hj_outer app]. unfold left_join.
    induction Hl as [|l ls (v & Ev & Hv) Hls IH]; [reflexivity|].
    cbn [map mbind list_bind]. rewrite map_app. f_equal; [|exact IH].
    cbn [hash_item]. unfold row_index. rewrite Ev, (Hm v Hv).
    rewrite (List.filter_ext (columns_match lc rc l) (key_matches rc v)) by
      (intros r; unfold columns_match; now rewrite Ev).
    destruct (List.filter (key_matches rc v) right) as [|r rs]; cbn [group].
    + now destruct outer.
    + now rewrite <- map_map.
  - cbn [hj_right]. intros v E. pose proof (groups_bounded_get _ _ _ _ Hb E). cbn in *. lia.
  - cbn [hj_pending hj_left hj_left_column hj_right hj_right_columns hj_outer app].
    pose proof (hash_items_length lc m (length right) outer n (map Ok left)) as Hlen.
    unfold nl_fuel. rewrite !length_map in *. 
    assert (length (map Ok left ≫= hash_item lc m n outer) <= length left * (length right + 1))%nat; [|lia].
    apply Hlen. intros v rs E. apply (groups_bounded_get _ _ _ _ Hb E).
Qed.

Lemma hash_join_nested_loop t lc rc width n outer left right :
  Forall (fun l => length l = width /\ column_typed t lc l) left -> Forall (column_typed t rc) right ->
  hash_join_rows (map Ok left) lc (map Ok right) rc n outer
  = Ok (nested_loop_rows (map Ok left) (map Ok right) n
          (Some (Equal (Column lc) (Column (width + rc)))) outer).
Proof.
  intros Hl Hr. rewrite (hash_join_left_join t);
    [|eapply Forall_impl; [exact Hl | now intros ? []] | exact Hr].
  do 2 f_equal. symmetry. apply nested_loop_left_join. intros l r Il Ir.
  rewrite Forall_forall in Hl, Hr. apply list_elem_of_In in Il, Ir. destruct (Hl l Il).
  apply (equal_columns_holds t); auto.
Qed.

End Join.

(** C30: The nested loop join iterator computes the left join: on sources that
    yield rows, with a predicate that is a boolean or NULL on every pair, the
    items it yields until it ends (within its fuel) are, for each left row in
    order, the concatenation with each right row on which the predicate is
    true, in order, or, for an outer join without such a row, one row padded
    with NULLs. *)
Theorem sql_nested_loop_join `{F64Pow, Regex} p m n outer left right :
  predicate_decides p m left right ->
  nested_loop_rows (map Ok left) (map Ok right) n p outer = map Ok (left_join m n outer left right).
Proof. apply nested_loop_left_join. Qed.

(** C31: The hash join is the nested loop join of the column equality: on rows
    whose join columns hold values of one type (NULL and NaN included), with
    left rows of the source's width, the hash join iterator yields exactly the
    rows, in the order, of the nested loop join with the predicate
    [left_column = right_column], inner or outer. *)
Theorem sql_hash_join `{F64Pow, Regex} t lc rc width n outer left right :
  Forall (fun l => length l = width /\ column_typed t lc l) left ->
  Forall (column_typed t rc) right ->
  hash_join_rows (map Ok left) lc (map Ok right) rc n outer
  = Ok (nested_loop_rows (map Ok left) (map Ok right) n
          (Some (Equal (Column lc) (Column (width + rc)))) outer).
Proof.
  apply hash_join_nested_loop.
Qed.

(** ** Samples *)
Module JoinSample.
Import SqlSample.

Definition people : list Row := [[Integer 1; String [x61]]; [Integer 2; Null]].
Definition ids : list Row := [[Integer 2]; [Null]; [Integer 3]].
Definition same_id (l r : Row) : bool :=
  match l, r with [Integer a; _], [Integer b] => (a =? b) | _, _ => false end.

Lemma sql_nested_loop_join_witness :
  predicate_decides (Some (Equal (Column 0) (Column 2))) same_id people ids /\
  nested_loop_rows (map Ok people) (map Ok ids) 1 (Some (Equal (Column 0) (Column 2))) true
  = map Ok [[Integer 1; String [x61]; Null]; [Integer 2; Null; Integer 2]].
Proof.
  assert (predicate_decides (Some (Equal (Column 0) (Column 2))) same_id people ids) as Hd.
  { intros l r Hl Hr. cbn in Hl, Hr.
    destruct Hl as [<-|[<-|[]]], Hr as [<-|[<-|[<-|[]]]]; vm_compute; reflexivity. }
  split; [exact Hd|]. exact (sql_nested_loop_join _ same_id 1 true people ids Hd).
Defined.

Lemma sql_hash_join_witness :
  hash_join_rows (map Ok people) 0 (map Ok ids) 0 1 true
  = Ok (nested_loop_rows (map Ok people) (map Ok ids) 1 (Some (Equal (Column 0) (Column 2))) true).
Proof.
  assert (forall i, is_i64 i -> in_column TInteger (Integer i)) as Hi by (intros; split; cbn; auto).
  assert (in_column TInteger Null) as Hn by (split; cbn; auto).
  apply (sql_hash_join TInteger 0 0 2 1 true people ids);
    repeat apply Forall_cons_2; try apply Forall_nil_2; try (split; [reflexivity|]);
    (eexists; split; [reflexivity | first [exact Hn | apply Hi; unfold is_i64, i64_min, i64_max; lia]]).
Defined.
End JoinSample.
