(* ===== verification/SqlOrderTheory.v ===== *)
(** * ORDER BY ([src/sql/execution/executor.rs], [order])

    The sort is a stable sort by the evaluated keys, each in its direction:
    the result is a permutation of the rows, in key order, in which rows of
    equal keys keep the order of the source. *)
From S2P Require Import Prelude Bytes Float64 SqlValue SqlValueTheory SqlExpr SqlExprTheory SqlPlan SqlExec.
From Stdlib Require Import Sorted.

(** ** Stable insertion sort *)
Section SortBy.
Context {A : Type} (cmp : A -> A -> comparison).

Lemma sort_insert_perm x l : sort_insert cmp x l ≡ₚ x :: l.
Proof.
  induction l as [|y l IH]; cbn; [reflexivity|].
  destruct (cmp x y); try reflexivity. rewrite IH. apply Permutation_swap.
Qed.

Lemma sort_by_perm l : sort_by cmp l ≡ₚ l.
Proof. induction l as [|x l IH]; cbn; [reflexivity|]. now rewrite sort_insert_perm, IH. Qed.

(** The comparison on the elements of a domain: [Gt] is the converse of [Lt],
    and not being greater is transitive. *)
Context (dom : A -> Prop).
Hypothesis cmp_antisym : forall x y, cmp y x = CompOpp (cmp x y).
Hypothesis cmp_trans : forall x y z,
  dom x -> dom y -> dom z -> cmp x y <> Gt -> cmp y z <> Gt -> cmp x z <> Gt.

Lemma sort_insert_sorted x l :
  dom x -> Forall dom l ->
  StronglySorted (fun a b => cmp a b <> Gt) l ->
  StronglySorted (fun a b => cmp a b <> Gt) (sort_insert cmp x l).
Proof.
  intros Hx Hl. induction l as [|y l IH]; intros Hs; cbn.
  { repeat constructor. }
  apply Forall_cons in Hl as [Hy Hl]. apply StronglySorted_inv in Hs as [Hs Hall].
  destruct (cmp x y) eqn:E.
  1,2: (constructor; [now constructor|]; constructor; [congruence|];
        rewrite Forall_forall in *; intros z Hz; apply (cmp_trans x y z); auto; congruence).
  constructor; [now apply IH|].
  rewrite sort_insert_perm. constructor; [|assumption].
  rewrite cmp_antisym, E. discriminate.
Qed.

Lemma sort_by_sorted l : Forall dom l -> StronglySorted (fun a b => cmp a b <> Gt) (sort_by cmp l).
Proof.
  induction l as [|x l IH]; intros Hl; cbn; [constructor|].
  apply Forall_cons in Hl as [Hx Hl]. apply sort_insert_sorted; [assumption| |now apply IH].
  now rewrite sort_by_perm.
Qed.

(** Elements that compare equal keep their order. *)
Lemma sort_insert_stable (f : A -> bool) x l :
  (forall y, f x = true -> f y = true -> cmp x y = Eq) ->
  List.filter f (sort_insert cmp x l) = List.filter f (x :: l).
Proof.
  intros Heq. induction l as [|y l IH]; [reflexivity|]. cbn [sort_insert].
  destruct (cmp x y) eqn:E; try reflexivity.
  cbn [List.filter] in *. rewrite IH.
  destruct (f x) eqn:Ex, (f y) eqn:Ey; try reflexivity.
  now rewrite Heq in E.
Qed.

Lemma sort_by_stable (f : A -> bool) l :
  (forall x y, f x = true -> f y = true -> cmp x y = Eq) ->
  List.filter f (sort_by cmp l) = List.filter f l.
Proof.
  intros Heq. induction l as [|x l IH]; [reflexivity|]. cbn [sort_by].
  rewrite sort_insert_stable by auto. cbn. now rewrite IH.
Qed.
End SortBy.

(** ** Keys *)

(** The keys of the rows: values of the given column types. *)
Abbreviation typed_key := (Forall2 in_column).

(** [x] comes strictly before [y] in the direction. *)
Definition dir_lt (d : Direction) (x y : Value) : Prop :=
  match d with Ascending => value_cmp x y = Lt | Descending => value_cmp y x = Lt end.

(** The keys are equal, or at the first column where they differ, the first is
    before the second in the column's direction. *)
Definition key_le (dirs : list Direction) (a b : list Value) : Prop :=
  a = b \/
  exists i d x y, dirs !! i = Some d /\ a !! i = Some x /\ b !! i = Some y /\
    take i a = take i b /\ dir_lt d x y.

Lemma key_le_head d dirs x y a b : dir_lt d x y -> key_le (d :: dirs) (x :: a) (y :: b).
Proof. intros H. right. now exists 0%nat, d, x, y. Qed.

Lemma key_le_tail d dirs x a b : key_le dirs a b <-> key_le (d :: dirs) (x :: a) (x :: b).
Proof.
  split.
  - intros [->|(i & d' & u & v & Hd & Ha & Hb & Ht & Hlt)]; [now left|]. right.
    exists (S i), d', u, v. cbn. now rewrite Ht.
  - intros [[= ->]|([|i] & d' & u & v & Hd & Ha & Hb & Ht & Hlt)]; [now left | |].
    + cbn in *. simplify_eq. exfalso. destruct d'; cbn in Hlt; rewrite value_cmp_refl in Hlt; discriminate.
    + right. cbn in *. simplify_eq. now exists i, d', u, v.
Qed.

Lemma key_le_cons_inv d dirs x y a b :
  key_le (d :: dirs) (x :: a) (y :: b) -> dir_lt d x y \/ x = y /\ key_le dirs a b.
Proof.
  intros [[= -> ->]|([|i] & d' & u & v & Hd & Ha & Hb & Ht & Hlt)]; [right; split; [easy|now left] | |].
  - cbn in *. simplify_eq. now left.
  - right. cbn in *. simplify_eq. split; [easy|]. right. now exists i, d', u, v.
Qed.

Definition dir_cmp (d : Direction) (x y : Value) : comparison :=
  match d with Descending => CompOpp (value_cmp x y) | Ascending => value_cmp x y end.

Lemma dir_cmp_lt d x y : dir_cmp d x y = Lt <-> dir_lt d x y.
Proof.
  destruct d; cbn; [reflexivity|]. rewrite (value_cmp_antisym x y). destruct (value_cmp x y); cbn; split; congruence.
Qed.

Lemma dir_lt_irrefl d x : ~ dir_lt d x x.
Proof. destruct d; cbn; rewrite value_cmp_refl; discriminate. Qed.

Lemma dir_lt_trans t d x y z :
  in_column t x -> in_column t y -> in_column t z -> dir_lt d x y -> dir_lt d y z -> dir_lt d x z.
Proof. destruct d; cbn; eauto using value_cmp_trans. Qed.

Lemma dir_cmp_eq t d x y : in_column t x -> in_column t y -> dir_cmp d x y = Eq -> x = y.
Proof.
  intros Hx Hy E. apply (value_cmp_eq t); auto. destruct d; cbn in E; [assumption|].
  now destruct (value_cmp x y).
Qed.

Lemma order_cmp_antisym dirs a b : order_cmp dirs b a = CompOpp (order_cmp dirs a b).
Proof.
  revert a b. induction dirs as [|d dirs IH]; intros [|x a] [|y b]; try reflexivity.
  cbn. rewrite (value_cmp_antisym x y), IH. now destruct d, (value_cmp x y).
Qed.

Lemma order_cmp_refl dirs a : order_cmp dirs a a = Eq.
Proof.
  revert a. induction dirs as [|d dirs IH]; intros [|x a]; try reflexivity.
  cbn. rewrite value_cmp_refl. destruct d; cbn; apply IH.
Qed.

(** The comparison of the sort decides [key_le] on typed keys. *)
Lemma order_cmp_key_le ts dirs a b :
  length dirs = length ts -> typed_key ts a -> typed_key ts b ->
  order_cmp dirs a b <> Gt <-> key_le dirs a b.
Proof.
  intros Hlen Ha. revert dirs b Hlen. induction Ha as [|t x ts a Hx Ha IH]; intros dirs b Hlen Hb.
  { inversion Hb; subst. destruct dirs; [|discriminate]. cbn. split; [now left | discriminate]. }
  inversion Hb as [|? y ? b' Hy Hb']; subst. destruct dirs as [|d dirs]; [discriminate|].
  cbn [order_cmp]. fold (dir_cmp d x y). injection Hlen as Hlen. specialize (IH dirs b' Hlen Hb').
  destruct (dir_cmp d x y) eqn:E; cbn [then_cmp].
  - apply (dir_cmp_eq t) in E as ->; [|assumption..]. rewrite IH. apply key_le_tail.
  - split; [intros _; now apply key_le_head, dir_cmp_lt | discriminate].
  - split; [congruence|]. intros Hle. exfalso. apply key_le_cons_inv in Hle as [Hlt|[-> _]].
    + apply dir_cmp_lt in Hlt. congruence.
    + destruct d; cbn in E; rewrite value_cmp_refl in E; discriminate.
Qed.

Lemma key_le_trans ts dirs a b c :
  length dirs = length ts -> typed_key ts a -> typed_key ts b -> typed_key ts c ->
  key_le dirs a b -> key_le dirs b c -> key_le dirs a c.
Proof.
  intros Hlen Ha. revert dirs b c Hlen. induction Ha as [|t x ts a Hx Ha IH]; intros dirs b c Hlen Hb Hc.
  { inversion Hb; inversion Hc; subst. now left. }
  inversion Hb as [|? y ? b' Hy Hb']; inversion Hc as [|? z ? c' Hz Hc']; subst.
  destruct dirs as [|d dirs]; [discriminate|]. injection Hlen as Hlen.
  intros [Hxy|[-> Hab]]%key_le_cons_inv [Hyz|[-> Hbc]]%key_le_cons_inv.
  - apply key_le_head. now apply (dir_lt_trans t d x y z).
  - now apply key_le_head.
  - now apply key_le_head.
  - apply key_le_tail. now apply (IH dirs b' c').
Qed.

(** ** The sort of the executor *)
Section Order.
Context `{F64Pow, Regex}.

(** The values of the expressions on a row, and the rows with given values. *)
Definition row_key (exprs : list Expression) (row : Row) : outcome (list Value) :=
  try_collect (map (evaluate (Some row)) exprs).

Definition has_key (exprs : list Expression) (k : list Value) (row : Row) : bool :=
  match row_key exprs row with Ok k' => bool_decide (k' = k) | _ => false end.

Definition with_key (exprs : list Expression) (k : list Value) (rows : list Row) : list Row :=
  List.filter (has_key exprs k) rows.

Lemma has_key_spec exprs k row : has_key exprs k row = true <-> row_key exprs row = Ok k.
Proof.
  unfold has_key. destruct (row_key exprs row); [rewrite bool_decide_eq_true|..]; split; congruence.
Qed.

Lemma row_key_length exprs row k : row_key exprs row = Ok k -> length k = length exprs.
Proof. intros E%try_collect_ok_inv%(f_equal length). now rewrite !length_map in E. Qed.

Lemma with_key_app exprs k rows rows' :
  with_key exprs k (rows ++ rows') = with_key exprs k rows ++ with_key exprs k rows'.
Proof. apply List.filter_app. Qed.

Lemma with_key_elem exprs k row rows :
  row ∈ with_key exprs k rows <-> row ∈ rows /\ row_key exprs row = Ok k.
Proof. unfold with_key. now rewrite !list_elem_of_In, filter_In, has_key_spec. Qed.

(** Every row has a key of the column types. *)
Definition keyed (exprs : list Expression) (ts : list DataType) (rows : list Row) : Prop :=
  Forall (fun row => exists k, row_key exprs row = Ok k /\ typed_key ts k) rows.

(** Rows paired with their keys. *)
Definition paired (exprs : list Expression) (ts : list DataType) (rk : Row * list Value) : Prop :=
  row_key exprs rk.1 = Ok rk.2 /\ typed_key ts rk.2.

Lemma sort_keys_row_key row (key : list (Expression * Direction)) :
  try_collect (map (fun ed => evaluate (Some row) ed.1) key) = row_key key.*1 row.
Proof. unfold row_key. induction key as [|ed key IH]; cbn; [reflexivity|]. now rewrite IH. Qed.

Lemma order_collect key ts rows :
  keyed key.*1 ts rows ->
  exists rks, rks.*1 = rows /\ Forall (paired key.*1 ts) rks /\
    order (map Ok rows) key =
      Ok (map Ok (sort_by (fun a b => order_cmp key.*2 a.2 b.2) rks).*1).
Proof.
  intros Hk.
  assert (exists rks, rks.*1 = rows /\ Forall (paired key.*1 ts) rks /\
    try_collect (map (fun item : outcome Row =>
      let? row := item in
      let? sort_keys := try_collect (map (fun ed => evaluate (Some row) ed.1) key) in
      Ok (row, sort_keys)) (map Ok rows)) = Ok rks) as (rks & E1 & Hp & E).
  { induction Hk as [|row rows (k & Ek & Ht) _ (rks & <- & Hp & E)]; [now exists []|].
    exists ((row, k) :: rks). split; [reflexivity|]. split; [now constructor|].
    cbn. rewrite sort_keys_row_key, Ek. cbn. now rewrite E. }
  exists rks. split; [assumption|]. split; [assumption|]. unfold order. rewrite E. cbn. f_equal.
  generalize (sort_by (fun a b : Row * list Value => order_cmp key.*2 a.2 b.2) rks). intros l.
  induction l as [|x l IH]; cbn; [reflexivity|]. now rewrite IH.
Qed.

Lemma paired_length (key : list (Expression * Direction)) ts x :
  paired key.*1 ts x -> length key.*2 = length ts.
Proof.
  intros [E%row_key_length T%Forall2_length]. rewrite length_fmap in E. rewrite length_fmap. congruence.
Qed.

Lemma order_cmp_trans (key : list (Expression * Direction)) ts (x y z : Row * list Value) :
  paired key.*1 ts x -> paired key.*1 ts y -> paired key.*1 ts z ->
  order_cmp key.*2 x.2 y.2 <> Gt -> order_cmp key.*2 y.2 z.2 <> Gt -> order_cmp key.*2 x.2 z.2 <> Gt.
Proof.
  intros Hx [_ Ty] [_ Tz]. pose proof (paired_length key ts x Hx) as Hlen. destruct Hx as [_ Tx].
  rewrite !(order_cmp_key_le ts) by assumption. eauto using key_le_trans.
Qed.

(** Keeping the pairs of a key is keeping the rows of it. *)
Lemma paired_with_key exprs ts k rks :
  Forall (paired exprs ts) rks ->
  with_key exprs k rks.*1 = (List.filter (fun rk => bool_decide (rk.2 = k)) rks).*1.
Proof.
  unfold with_key, has_key. induction 1 as [|[row k'] rks [E _] _ IH]; [reflexivity|]. cbn in *.
  rewrite IH, E. now destruct (bool_decide _).
Qed.

(** C32: ORDER BY.  If the sort keys of all rows evaluate, to values of some
    column types (NULLs included), the executor's sort succeeds, and its result
    is a permutation of the rows, sorted: of any two rows, the first one's key
    is equal to the second's or before it, in the direction given for the first
    column where they differ.  It is stable: the rows of any one key are in
    the order of the source. *)
Theorem sql_order_by key ts rows :
  keyed key.*1 ts rows ->
  exists sorted,
    order (map Ok rows) key = Ok (map Ok sorted) /\
    sorted ≡ₚ rows /\
    StronglySorted (fun a b => forall ka kb,
      row_key key.*1 a = Ok ka -> row_key key.*1 b = Ok kb -> key_le key.*2 ka kb) sorted /\
    (forall k, with_key key.*1 k sorted = with_key key.*1 k rows).
Proof.
  intros Hk. destruct (order_collect key ts rows Hk) as (rks & <- & Hp & ->).
  set (cmp := fun a b : Row * list Value => order_cmp key.*2 a.2 b.2).
  pose proof (sort_by_perm cmp rks) as Hperm.
  assert (Forall (paired key.*1 ts) (sort_by cmp rks)) as Hp' by now rewrite Hperm.
  pose proof (sort_by_sorted cmp (paired key.*1 ts) (fun x y => order_cmp_antisym _ _ _)
    (order_cmp_trans key ts) rks Hp) as Hs.
  eexists. split; [reflexivity|]. split; [now rewrite Hperm|]. split.
  - clear Hperm. induction Hs as [|x l Hs IH Hall]; cbn; [constructor|].
    apply Forall_cons in Hp' as [Hx Hp']. pose proof (paired_length key ts x Hx) as Hlen.
    destruct Hx as [Kx Tx]. constructor; [now apply IH|].
    rewrite Forall_fmap. rewrite Forall_forall in *. intros y Hy. destruct (Hp' y Hy) as [Ky Ty].
    intros ka kb Ea Eb. cbn in *. rewrite Kx in Ea. rewrite Ky in Eb. simplify_eq.
    apply (order_cmp_key_le ts); [assumption..|]. now apply Hall.
  - intros k. rewrite !(paired_with_key _ ts) by assumption. f_equal. apply sort_by_stable.
    intros x y <-%bool_decide_eq_true Ey%bool_decide_eq_true. unfold cmp. rewrite Ey. apply order_cmp_refl.
Qed.
End Order.

(** The keys of given rows, by evaluation. *)
Ltac solve_keyed :=
  repeat (apply Forall_cons; split); [..|constructor];
    (eexists; split; [vm_compute; reflexivity|]; repeat (apply Forall2_cons; split); try apply Forall2_nil_2;
     (split; [vm_compute; first [exact I | split; discriminate] | auto])).

(** ORDER BY a DESC, b over rows with ties and a NULL. *)
Module OrderSample.
Import SqlSample.

Definition rows : list Row :=
  [[Integer 1; Integer 7; Boolean true]; [Null; Integer 3; Boolean false]; [Integer 2; Integer 5; Null];
   [Integer 1; Integer 4; Null]; [Integer 1; Integer 7; Boolean false]].
Definition key : list (Expression * Direction) := [(Column 0, Descending); (Column 1, Ascending)].

Lemma order_rows_keyed : keyed key.*1 [TInteger; TInteger] rows.
Proof. solve_keyed. Qed.
Lemma sql_order_by_witness :
  keyed key.*1 [TInteger; TInteger] rows /\
  (exists sorted, order (map Ok rows) key = Ok (map Ok sorted) /\ sorted ≡ₚ rows) /\
  order (map Ok rows) key = Ok (map Ok
    [[Integer 2; Integer 5; Null]; [Integer 1; Integer 4; Null]; [Integer 1; Integer 7; Boolean true];
     [Integer 1; Integer 7; Boolean false]; [Null; Integer 3; Boolean false]]).
Proof.
  split; [exact order_rows_keyed|]. split; [|vm_compute; reflexivity].
  destruct (sql_order_by key [TInteger; TInteger] rows order_rows_keyed)
    as (sorted & E & Hp & _ & _).
  exists sorted. split; [exact E | exact Hp].
Defined.
End OrderSample.
