(* ===== verification/SqlAggTheory.v ===== *)
(** * GROUP BY and aggregates ([src/sql/execution/aggregator.rs])

    The aggregator's ordered map holds one bucket for each distinct key, with
    the accumulators of the rows of that key; the rows it yields are the keys
    in order, each with COUNT, MIN, MAX, SUM and AVG of its group. *)
From S2P Require Import Prelude Bytes Float64 SqlValue SqlValueTheory SqlExpr SqlExprTheory SqlPlan SqlExec SqlOrderTheory.
From Stdlib Require Import Sorted.

(** ** Ordered maps *)
Section OrdMap.
Context {K V : Type} (cmp : K -> K -> comparison) (dom : K -> Prop).
Hypothesis cmp_refl : forall x, cmp x x = Eq.
Hypothesis cmp_antisym : forall x y, cmp y x = CompOpp (cmp x y).
Hypothesis cmp_eq : forall x y, dom x -> dom y -> cmp x y = Eq -> x = y.
Hypothesis cmp_trans : forall x y z, dom x -> dom y -> dom z -> cmp x y = Lt -> cmp y z = Lt -> cmp x z = Lt.

Definition omap_ok (m : list (K * V)) : Prop :=
  Forall (fun e => dom e.1) m /\ StronglySorted (fun a b => cmp a.1 b.1 = Lt) m.

Lemma omap_ok_cons e m :
  omap_ok (e :: m) <-> dom e.1 /\ Forall (fun e' => cmp e.1 e'.1 = Lt) m /\ omap_ok m.
Proof.
  unfold omap_ok. rewrite Forall_cons. split.
  - intros [[He Hd] [Hs Hall]%StronglySorted_inv]. tauto.
  - intros (He & Hall & Hd & Hs). repeat split; auto. now constructor.
Qed.

Lemma omap_insert_keys k (v : V) m e : e ∈ omap_insert cmp k v m -> e.1 = k \/ exists e', e' ∈ m /\ e.1 = e'.1.
Proof.
  induction m as [|[k' v'] m IH]; cbn.
  - intros ->%list_elem_of_singleton. now left.
  - destruct (cmp k k'); rewrite ?elem_of_cons.
    + intros [->|He]; right; [exists (k', v') | exists e]; rewrite elem_of_cons; auto.
    + intros [->|He]; [now left|]. right. exists e. now rewrite elem_of_cons.
    + intros [->|[->|(e' & He & E)]%IH]; [right; exists (k', v'); rewrite elem_of_cons; auto | now left |].
      right. exists e'. rewrite elem_of_cons. auto.
Qed.

Lemma omap_insert_ok k v m : dom k -> omap_ok m -> omap_ok (omap_insert cmp k v m).
Proof.
  intros Hk. induction m as [|[k' v'] m IH]; intros Hm; cbn.
  - repeat constructor; assumption.
  - apply omap_ok_cons in Hm as (Hk' & Hall & Hm). cbn in *. destruct (cmp k k') eqn:E.
    + apply omap_ok_cons. auto.
    + apply omap_ok_cons. cbn. split; [assumption|]. split; [|now apply omap_ok_cons].
      constructor; [assumption|]. destruct Hm as [Hd _]. rewrite Forall_forall in *.
      intros e He. apply (cmp_trans k k' e.1); auto.
    + apply omap_ok_cons. cbn. split; [assumption|]. split; [|now apply IH].
      apply Forall_forall. intros e [->|(e' & He & ->)]%omap_insert_keys.
      * now rewrite cmp_antisym, E.
      * rewrite Forall_forall in Hall. now apply Hall.
Qed.

Lemma omap_ok_NoDup m : omap_ok m -> NoDup m.*1.
Proof.
  induction m as [|e m IH]; cbn; [constructor|]. intros (_ & Hall & Hm)%omap_ok_cons. constructor; [|auto].
  intros (e' & E & He')%list_elem_of_fmap. rewrite Forall_forall in Hall. specialize (Hall e' He'). now rewrite E, cmp_refl in Hall.
Qed.

Lemma omap_get_elem m k v : dom k -> omap_ok m -> omap_get cmp m k = Some v <-> (k, v) ∈ m.
Proof.
  intros Hk. induction m as [|[k' v'] m IH]; intros Hm; cbn.
  - split; [discriminate | now intros ?%elem_of_nil].
  - apply omap_ok_cons in Hm as (Hk' & Hall & Hm). cbn in *. rewrite elem_of_cons, Forall_forall in *.
    destruct (cmp k k') eqn:E.
    + apply cmp_eq in E as ->; [|assumption..]. split; [intros [= ->]; now left|].
      intros [[= ->]|Hin]; [reflexivity|]. apply Hall in Hin. cbn in Hin. rewrite cmp_refl in Hin. discriminate.
    + split; [discriminate|]. intros [[= -> ->]|Hin]; [rewrite cmp_refl in E; discriminate|].
      apply Hall in Hin. cbn in Hin. rewrite cmp_antisym, E in Hin. discriminate.
    + rewrite IH by assumption. split; [now right|]. intros [[= -> ->]|Hin]; [|assumption].
      rewrite cmp_refl in E. discriminate.
Qed.

Lemma omap_get_insert `{EqDecision K} k v m k' :
  dom k -> dom k' -> omap_ok m ->
  omap_get cmp (omap_insert cmp k v m) k' = if decide (k' = k) then Some v else omap_get cmp m k'.
Proof.
  intros Hk Hk'. induction m as [|[k1 v1] m IH]; intros Hm.
  - cbn. destruct (decide (k' = k)) as [->|Hne]; [now rewrite cmp_refl|].
    destruct (cmp k' k) eqn:E; [|reflexivity..]. now apply cmp_eq in E.
  - apply omap_ok_cons in Hm as (Hk1 & Hall & Hm). cbn in *. destruct (cmp k k1) eqn:E.
    + apply cmp_eq in E as ->; [|assumption..]. cbn. destruct (decide (k' = k1)) as [->|Hne]; [now rewrite cmp_refl|].
      destruct (cmp k' k1) eqn:E; [|reflexivity..]. now apply cmp_eq in E.
    + cbn. destruct (decide (k' = k)) as [->|Hne]; [now rewrite cmp_refl|].
      destruct (cmp k' k) eqn:E'; [now apply cmp_eq in E' | | reflexivity].
      now rewrite (cmp_trans k' k k1) by assumption.
    + cbn. rewrite IH by assumption. destruct (decide (k' = k)) as [->|Hne]; [now rewrite E | reflexivity].
Qed.
End OrdMap.

(** ** Keys *)
Lemma values_cmp_order ts a b :
  typed_key ts a -> typed_key ts b -> values_cmp a b = order_cmp (replicate (length ts) Ascending) a b.
Proof.
  intros Ha. revert b. induction Ha as [|t x ts a Hx Ha IH]; intros b Hb; inversion Hb; subst; cbn; [reflexivity|].
  now rewrite IH.
Qed.

Lemma values_cmp_refl a : values_cmp a a = Eq.
Proof. induction a as [|x a IH]; cbn; [reflexivity|]. now rewrite value_cmp_refl. Qed.

Lemma values_cmp_antisym a b : values_cmp b a = CompOpp (values_cmp a b).
Proof.
  revert b. induction a as [|x a IH]; intros [|y b]; try reflexivity. cbn.
  rewrite (value_cmp_antisym x y), IH. now destruct (value_cmp x y).
Qed.

Lemma values_cmp_eq ts a b : typed_key ts a -> typed_key ts b -> values_cmp a b = Eq -> a = b.
Proof.
  intros Ha. revert b. induction Ha as [|t x ts a Hx Ha IH]; intros b Hb; inversion Hb as [|? y ? b' Hy Hb']; subst; cbn.
  { reflexivity. }
  destruct (value_cmp x y) eqn:E; try discriminate. intros Eab.
  f_equal; [now apply (value_cmp_eq t) | now apply IH].
Qed.

(** [a] is strictly before [b], every column ascending. *)
Definition key_lt (a b : list Value) : Prop := key_le (replicate (length a) Ascending) a b /\ a <> b.

Lemma values_cmp_lt ts a b :
  typed_key ts a -> typed_key ts b -> values_cmp a b = Lt <-> key_lt a b.
Proof.
  intros Ha Hb. unfold key_lt. rewrite <- (Forall2_length _ _ _ Ha).
  rewrite <- (order_cmp_key_le ts), <- values_cmp_order by (assumption || apply length_replicate).
  split.
  - intros E. split; [congruence|]. intros ->. rewrite values_cmp_refl in E. discriminate.
  - intros [Hg Hne]. destruct (values_cmp a b) eqn:E; [|reflexivity|congruence].
    now apply (values_cmp_eq ts) in E.
Qed.

Lemma values_cmp_trans ts a b c :
  typed_key ts a -> typed_key ts b -> typed_key ts c ->
  values_cmp a b = Lt -> values_cmp b c = Lt -> values_cmp a c = Lt.
Proof.
  intros Ha Hb Hc Eab Ebc.
  destruct (values_cmp a c) eqn:E; [|reflexivity|].
  - apply (values_cmp_eq ts) in E as ->; [|assumption..]. rewrite values_cmp_antisym, Eab in Ebc. discriminate.
  - exfalso. revert E. rewrite (values_cmp_order ts) by assumption.
    apply (order_cmp_key_le ts); [apply length_replicate | assumption..|].
    apply (key_le_trans ts _ a b c); [apply length_replicate | assumption..| |];
      apply (order_cmp_key_le ts); auto using length_replicate; rewrite <- values_cmp_order by assumption; congruence.
Qed.

(** ** Buckets *)
Section Buckets.
Context `{F64Pow, Regex}.

(** One accumulator over the rows of a group. *)
Fixpoint agg_fold (e : Expression) (acc : Accumulator) (rows : list Row) : outcome Accumulator :=
  match rows with
  | [] => Ok acc
  | row :: rows =>
      let? v := evaluate (Some row) e in
      let? acc := accumulator_add acc v in
      agg_fold e acc rows
  end.

Lemma agg_fold_app e acc rows rows' :
  agg_fold e acc (rows ++ rows') = let? acc := agg_fold e acc rows in agg_fold e acc rows'.
Proof.
  revert acc. induction rows as [|row rows IH]; intros acc; cbn; [reflexivity|].
  destruct (evaluate (Some row) e); cbn; [|reflexivity..].
  destruct (accumulator_add acc a); cbn; [apply IH | reflexivity..].
Qed.

(** The accumulators of a group. *)
Definition bucket_ok (aggs : list Aggregate) (group : list Row) (accs : list Accumulator) : Prop :=
  Forall2 (fun g acc => agg_fold (aggregate_expr g) (accumulator_new g) group = Ok acc) aggs accs.

Lemma bucket_ok_nil aggs : bucket_ok aggs [] (map accumulator_new aggs).
Proof. induction aggs; constructor; auto. Qed.

Lemma bucket_ok_app aggs group group' accs :
  bucket_ok aggs (group ++ group') accs -> exists accs', bucket_ok aggs group accs'.
Proof.
  induction 1 as [|g acc aggs accs E _ [accs' IH]]; [exists []; constructor|].
  rewrite agg_fold_app in E. apply outcome_bind_ok in E as (acc' & E & _).
  exists (acc' :: accs'). now constructor.
Qed.

Lemma bucket_ok_step aggs group accs row accs' :
  bucket_ok aggs group accs ->
  accumulate row accs (map aggregate_expr aggs) = Ok accs' <-> bucket_ok aggs (group ++ [row]) accs'.
Proof.
  intros Hb. revert accs'. induction Hb as [|g acc aggs accs E _ IH]; intros accs'; cbn.
  { split; [intros [= <-]; constructor | now inversion 1]. }
  assert (agg_fold (aggregate_expr g) (accumulator_new g) (group ++ [row]) =
    let? v := evaluate (Some row) (aggregate_expr g) in accumulator_add acc v) as Ef.
  { rewrite agg_fold_app, E. cbn. destruct (evaluate _ _); cbn; [|reflexivity..]. now destruct (accumulator_add _ _). }
  rewrite outcome_bind_ok. split.
  - intros (v & Ev & (acc' & Ea & (accs1 & E1 & [= <-])%outcome_bind_ok)%outcome_bind_ok).
    constructor; [now rewrite Ef, Ev | now apply IH].
  - inversion 1 as [|? acc' ? accs1 E1 Hb1]; subst. rewrite Ef in E1.
    apply outcome_bind_ok in E1 as (v & Ev & Ea). exists v. split; [assumption|].
    rewrite Ea. cbn. apply IH in Hb1. now rewrite Hb1.
Qed.

Context (gb : list Expression) (aggs : list Aggregate) (ts : list DataType).

Abbreviation bmap_ok := (omap_ok values_cmp (typed_key ts)).

(** The state of the aggregator after the given rows. *)
Record grouped (rows : list Row) (a : Aggregator) : Prop := {
  g_by : agg_group_by a = gb;
  g_aggs : agg_aggregates a = aggs;
  g_map : bmap_ok (agg_buckets a);
  g_get : forall k, typed_key ts k ->
    match omap_get values_cmp (agg_buckets a) k with
    | Some accs => with_key gb k rows <> [] /\ bucket_ok aggs (with_key gb k rows) accs
    | None => with_key gb k rows = []
    end;
}.

Lemma grouped_new : grouped [] (aggregator_new gb aggs).
Proof. split; cbn; auto. split; constructor. Qed.

(** The accumulators a row of key [k] is added to are those of its group. *)
Lemma grouped_current rows a k :
  grouped rows a -> typed_key ts k ->
  bucket_ok aggs (with_key gb k rows)
    match omap_get values_cmp (agg_buckets a) k with
    | Some accs => accs
    | None => map accumulator_new (agg_aggregates a)
    end.
Proof.
  intros [_ Ea _ Hg] Hk. specialize (Hg k Hk). destruct (omap_get _ _ _); [now destruct Hg|].
  rewrite Hg, Ea. apply bucket_ok_nil.
Qed.

Lemma with_key_snoc k row rows k' :
  row_key gb row = Ok k ->
  with_key gb k' (rows ++ [row]) = with_key gb k' rows ++ if decide (k' = k) then [row] else [].
Proof.
  intros E. rewrite with_key_app. f_equal. unfold with_key. cbn.
  destruct (has_key gb k' row) eqn:Hh; rewrite ?has_key_spec in Hh.
  - rewrite decide_True by congruence. reflexivity.
  - rewrite decide_False; [reflexivity|]. intros ->. apply (has_key_spec gb k row) in E. congruence.
Qed.

Lemma aggregator_add_grouped rows a row k :
  grouped rows a -> row_key gb row = Ok k -> typed_key ts k ->
  (forall a', aggregator_add a row = Ok a' -> grouped (rows ++ [row]) a') /\
  ((exists accs, bucket_ok aggs (with_key gb k (rows ++ [row])) accs) -> exists a', aggregator_add a row = Ok a').
Proof.
  intros Hg Ek Hk. pose proof (grouped_current rows a k Hg Hk) as Hcur.
  destruct Hg as [Eb Ea Hm Hg]. unfold aggregator_add. rewrite Eb, Ea.
  change (try_collect (map (evaluate (Some row)) gb)) with (row_key gb row). rewrite Ek. cbn [outcome_bind].
  rewrite Ea in Hcur. rewrite (with_key_snoc k row rows k Ek), decide_True by reflexivity.
  pose proof (fun accs' => bucket_ok_step _ _ _ row accs' Hcur) as Hstep. split.
  - intros a' (accs & Hacc & [= <-])%outcome_bind_ok. apply Hstep in Hacc.
    split; cbn; [reflexivity..| |].
    + apply omap_insert_ok; eauto using values_cmp_antisym, values_cmp_trans.
    + intros k' Hk'.
      rewrite (omap_get_insert values_cmp (typed_key ts) values_cmp_refl (values_cmp_eq ts) (values_cmp_trans ts)
        k accs _ k' Hk Hk' Hm).
      rewrite (with_key_snoc k row rows k' Ek). destruct (decide (k' = k)) as [->|Hne].
      * split; [now destruct (with_key gb k rows) | assumption].
      * rewrite app_nil_r. now apply Hg.
  - intros [accs Hacc%Hstep]. rewrite Hacc. cbn. eauto.
Qed.

Lemma aggregator_add_rows_grouped rows : forall done a,
  keyed gb ts rows -> grouped done a ->
  (forall a', aggregator_add_rows a (map Ok rows) = Ok a' -> grouped (done ++ rows) a') /\
  ((forall k, with_key gb k (done ++ rows) <> [] -> exists accs, bucket_ok aggs (with_key gb k (done ++ rows)) accs) ->
   exists a', aggregator_add_rows a (map Ok rows) = Ok a').
Proof.
  induction rows as [|row rows IH]; intros done a Hk Hg; cbn.
  { rewrite app_nil_r. split; [now intros a' [= <-] | eauto]. }
  apply Forall_cons in Hk as [(k & Ek & Ht) Hk].
  destruct (aggregator_add_grouped done a row k Hg Ek Ht) as [Hadd Hdef].
  rewrite (app_assoc done [row] rows : done ++ row :: rows = _). split.
  - intros a' (a1 & E1 & E2)%outcome_bind_ok. now apply (IH _ a1); [|apply Hadd|].
  - intros Hall. destruct Hdef as [a1 E1].
    + destruct (Hall k) as [accs Hacc].
      * rewrite with_key_app, (with_key_snoc k) by assumption. rewrite decide_True by reflexivity.
        now destruct (with_key gb k done).
      * rewrite with_key_app in Hacc. now apply bucket_ok_app in Hacc.
    + rewrite E1. cbn. apply (IH (done ++ [row]) a1 Hk (Hadd _ E1)). assumption.
Qed.
End Buckets.

(** ** Aggregates *)

(** The values an aggregate takes into account. *)
Definition non_null (vals : list Value) : list Value := List.filter (fun v => negb (value_eq v Null)) vals.

(** The sum, left to right. *)
Fixpoint sum_from (s : Value) (vals : list Value) : outcome Value :=
  match vals with
  | [] => Ok s
  | v :: vals => let? s := checked_add s v in sum_from s vals
  end.

Definition sum_values : list Value -> outcome Value := sum_from (Integer 0).

(** The sum of integers is exact. *)
Lemma sum_from_integers zs : forall a s,
  sum_from (Integer a) (map Integer zs) = Ok s -> s = Integer (fold_left Z.add zs a).
Proof.
  induction zs as [|z zs IH]; intros a s; cbn; [congruence|].
  intros (s' & E & Hs)%outcome_bind_ok. apply IH.
  unfold int_or_overflow, checked_add_i64, i64_fits in E. destruct (_ || _); cbn in E; [discriminate|].
  injection E as <-. exact Hs.
Qed.

Fixpoint acc_fold (acc : Accumulator) (vals : list Value) : outcome Accumulator :=
  match vals with
  | [] => Ok acc
  | v :: vals => let? acc := accumulator_add acc v in acc_fold acc vals
  end.

Lemma accumulator_add_null acc v : value_eq v Null = true -> accumulator_add acc v = Ok acc.
Proof. intros E. unfold accumulator_add. now rewrite E. Qed.

Lemma acc_fold_non_null acc vals : acc_fold acc vals = acc_fold acc (non_null vals).
Proof.
  revert acc. induction vals as [|v vals IH]; intros acc; cbn; [reflexivity|].
  destruct (value_eq v Null) eqn:E; cbn.
  - rewrite accumulator_add_null by assumption. apply IH.
  - destruct (accumulator_add acc v); cbn; [apply IH | reflexivity..].
Qed.

Lemma i64_id z : is_i64 z -> i64 z = z.
Proof.
  unfold is_i64, i64, wrap_s, i64_min, i64_max. change (2 ^ (64 - 1)) with 9223372036854775808.
  change (2 ^ 64) with 18446744073709551616. intros. rewrite Z.mod_small; lia.
Qed.

(** An accumulator on non-NULL values. *)
Section Accumulators.
Context (nn : list Value) (Hnn : Forall (fun v => value_eq v Null = false) nn).

Lemma acc_fold_count n :
  0 <= n -> n + Z.of_nat (length nn) <= i64_max -> acc_fold (AccCount n) nn = Ok (AccCount (n + Z.of_nat (length nn))).
Proof.
  revert n. induction Hnn as [|v vals E Hv IH]; intros n Hn Hmax; cbn [acc_fold sum_from length outcome_bind] in *; [do 2 f_equal; lia|].
  unfold accumulator_add. rewrite E. cbn [outcome_bind]. rewrite i64_id by (unfold is_i64, i64_min in *; lia).
  rewrite IH by (assumption || lia). do 2 f_equal. lia.
Qed.

Lemma acc_fold_average n s :
  0 <= n -> n + Z.of_nat (length nn) <= i64_max ->
  acc_fold (AccAverage n s) nn = let? s := sum_from s nn in Ok (AccAverage (n + Z.of_nat (length nn)) s).
Proof.
  revert n s. induction Hnn as [|v vals E Hv IH]; intros n s Hn Hmax; cbn [acc_fold sum_from length outcome_bind] in *; [do 2 f_equal; lia|].
  unfold accumulator_add. rewrite E. destruct (checked_add s v); cbn [outcome_bind]; [|reflexivity..].
  rewrite i64_id by (unfold is_i64, i64_min in *; lia). rewrite IH by (assumption || lia).
  destruct (sum_from a vals); cbn [outcome_bind]; [|reflexivity..]. do 2 f_equal. lia.
Qed.

Lemma acc_fold_sum s : acc_fold (AccSum (Some s)) nn = let? s := sum_from s nn in Ok (AccSum (Some s)).
Proof.
  revert s. induction Hnn as [|v vals E Hv IH]; intros s; cbn; [reflexivity|].
  unfold accumulator_add. rewrite E. destruct (checked_add s v); cbn; [now apply IH | reflexivity..].
Qed.

(** The best value so far in a direction: the last one to be strictly better. *)
Definition better (d : Direction) (m v : Value) : Value :=
  match dir_cmp d m v with Lt => v | _ => m end.

Lemma acc_fold_max m : acc_fold (AccMax (Some m)) nn = Ok (AccMax (Some (fold_left (better Ascending) nn m))).
Proof.
  revert m. induction Hnn as [|v vals E Hv IH]; intros m; cbn; [reflexivity|].
  unfold accumulator_add, better at 2, dir_cmp. rewrite E. cbn. rewrite (value_cmp_antisym m v).
  destruct (value_cmp m v); cbn; now apply IH.
Qed.

Lemma acc_fold_min m : acc_fold (AccMin (Some m)) nn = Ok (AccMin (Some (fold_left (better Descending) nn m))).
Proof.
  revert m. induction Hnn as [|v vals E Hv IH]; intros m; cbn; [reflexivity|].
  unfold accumulator_add, better at 2, dir_cmp. rewrite E. cbn. rewrite (value_cmp_antisym m v).
  destruct (value_cmp m v); cbn; now apply IH.
Qed.
End Accumulators.

Lemma dir_cmp_antisym d x y : dir_cmp d y x = CompOpp (dir_cmp d x y).
Proof. unfold dir_cmp. rewrite (value_cmp_antisym x y). now destruct d. Qed.

Lemma dir_cmp_refl d x : dir_cmp d x x = Eq.
Proof. unfold dir_cmp. rewrite value_cmp_refl. now destruct d. Qed.

Lemma typed_key_one t x : in_column t x -> typed_key [t] [x].
Proof. intros. constructor; [assumption | constructor]. Qed.

Lemma dir_cmp_key_le t d x y : in_column t x -> in_column t y -> dir_cmp d x y <> Gt <-> key_le [d] [x] [y].
Proof.
  intros Hx Hy. rewrite <- (order_cmp_key_le [t]) by auto using typed_key_one.
  cbn. unfold dir_cmp. destruct d, (value_cmp x y); cbn; reflexivity.
Qed.

Lemma dir_cmp_trans t d x y z :
  in_column t x -> in_column t y -> in_column t z ->
  dir_cmp d x y <> Gt -> dir_cmp d y z <> Gt -> dir_cmp d x z <> Gt.
Proof.
  intros Hx Hy Hz. rewrite !(dir_cmp_key_le t) by assumption.
  apply (key_le_trans [t]); auto using typed_key_one.
Qed.

(** [v] is one of the values, and if they are of one column, none is beyond it
    in the direction. *)
Definition is_best (d : Direction) (vals : list Value) (v : Value) : Prop :=
  v ∈ vals /\ forall t, Forall (in_column t) vals -> Forall (fun w => ~ dir_lt d v w) vals.

Lemma not_dir_lt d v w : ~ dir_lt d v w <-> dir_cmp d w v <> Gt.
Proof. rewrite <- dir_cmp_lt, (dir_cmp_antisym d w v). destruct (dir_cmp d w v); cbn; split; congruence. Qed.

Lemma better_best d vals : forall m, is_best d (m :: vals) (fold_left (better d) vals m).
Proof.
  induction vals as [|v vals IH]; intros m; cbn.
  { split; [now left|]. intros _ _. constructor; [apply dir_lt_irrefl | constructor]. }
  assert ((better d m v = m \/ better d m v = v) /\
    dir_cmp d m (better d m v) <> Gt /\ dir_cmp d v (better d m v) <> Gt) as (Hc & Hmb & Hvb).
  { unfold better. pose proof (dir_cmp_refl d m). pose proof (dir_cmp_refl d v).
    pose proof (dir_cmp_antisym d m v). destruct (dir_cmp d m v) eqn:E; cbn in *; split; auto; split; congruence. }
  revert Hc Hmb Hvb. generalize (better d m v). intros b Hc Hmb Hvb.
  destruct (IH b) as [Hin Hbest]. split; [rewrite !elem_of_cons in *; destruct Hc as [-> | ->]; tauto|].
  intros t [Hm [Hv Ht]%Forall_cons]%Forall_cons.
  assert (in_column t b) as Hb by (destruct Hc as [-> | ->]; assumption).
  assert (Forall (in_column t) (b :: vals)) as Hall by now constructor.
  specialize (Hbest t Hall). rewrite (Forall_forall (in_column t)) in Hall. apply Hall in Hin.
  apply Forall_cons in Hbest as [Hbb%not_dir_lt Hbest].
  apply Forall_cons; split; [|apply Forall_cons; split; [|assumption]];
    apply not_dir_lt; now apply (dir_cmp_trans t d _ b).
Qed.

(** The exact sum of the values: their sum from left to right, on integers the
    mathematical one. *)
Definition is_sum (vals : list Value) (s : Value) : Prop :=
  sum_values vals = Ok s /\ forall zs, vals = map Integer zs -> s = Integer (fold_left Z.add zs 0).

(** The quotient of the sum by the number of values, on integers truncated. *)
Definition is_average (vals : list Value) (v : Value) : Prop :=
  exists s, is_sum vals s /\ checked_div s (Integer (Z.of_nat (length vals))) = Ok v /\
    forall zs, vals = map Integer zs -> v = Integer (Z.quot (fold_left Z.add zs 0) (Z.of_nat (length zs))).

(** What an aggregate of the values of a group is. *)
Definition aggregate_of (g : Aggregate) (vals : list Value) (v : Value) : Prop :=
  match g, vals with
  | Count _, _ => v = Integer (Z.of_nat (length vals))
  | _, [] => v = Null
  | Max _, _ => is_best Ascending vals v
  | Min _, _ => is_best Descending vals v
  | Sum _, _ => is_sum vals v
  | Average _, _ => is_average vals v
  end.

Lemma non_null_spec vals : Forall (fun v => value_eq v Null = false) (non_null vals).
Proof.
  apply Forall_forall. intros v. unfold non_null. rewrite list_elem_of_In, filter_In. intros [_ E].
  now destruct (value_eq v Null).
Qed.

Definition numeric (v : Value) : Prop := match v with Integer _ | Float _ => True | _ => False end.

Lemma checked_add_numeric s v s' :
  numeric s -> value_eq v Null = false -> checked_add s v = Ok s' -> numeric s'.
Proof.
  destruct s, v; cbn; try easy; try (intros _ _ [= <-]; exact I).
  unfold int_or_overflow. destruct (checked_add_i64 i i0); [|easy]. now intros _ _ [= <-].
Qed.

Lemma sum_from_numeric vals : Forall (fun v => value_eq v Null = false) vals ->
  forall s s', numeric s -> sum_from s vals = Ok s' -> numeric s'.
Proof.
  induction 1 as [|v vals E _ IH]; intros s s' Hs; cbn; [now intros [= <-]|].
  intros (s1 & E1 & E2)%outcome_bind_ok. apply (IH s1); eauto using checked_add_numeric.
Qed.

(** A sum divides by a positive count. *)
Lemma checked_div_count s n : numeric s -> 0 < n -> exists v,
  checked_div s (Integer n) = Ok v /\ forall z, s = Integer z -> v = Integer (Z.quot z n).
Proof.
  intros Hs Hn. destruct s as [| |z|f|]; try easy; cbn.
  - rewrite (proj2 (Z.eqb_neq n 0)) by lia. unfold i64_div. rewrite (proj2 (Z.eqb_neq n (-1))), andb_false_r by lia.
    eexists. split; [reflexivity|]. now intros ? [= ->].
  - eexists. split; [reflexivity|]. discriminate.
Qed.

(** The sums of an aggregate do not fail. *)
Definition summable (g : Aggregate) (vals : list Value) : Prop :=
  match g with Sum _ | Average _ => exists s, sum_values vals = Ok s | _ => True end.

(** An accumulator of a new bucket, on all values of the group: it succeeds if
    the sums do, and its value is the aggregate. *)
Lemma acc_fold_new g vals :
  Forall (fun v => value_eq v Null = false) vals -> Z.of_nat (length vals) <= i64_max ->
  (summable g vals -> exists acc, acc_fold (accumulator_new g) vals = Ok acc) /\
  (forall acc, acc_fold (accumulator_new g) vals = Ok acc ->
    summable g vals /\ exists v, accumulator_value acc = Ok v /\ aggregate_of g vals v).
Proof.
  intros Hn Hlen. destruct g as [e|e|e|e|e]; cbn [accumulator_new summable].
  - rewrite acc_fold_average by (assumption || lia). cbn [Z.add]. fold (sum_values vals). split.
    { intros [s ->]. cbn. eauto. }
    intros acc (s & Es & [= <-])%outcome_bind_ok. split; [eauto|].
    destruct vals as [|v vals]; [now exists Null|].
    pose proof (sum_from_numeric _ Hn (Integer 0) s I Es) as Hs.
    destruct (checked_div_count s (Z.of_nat (length (v :: vals))) Hs) as (q & Eq & Hq); [cbn; lia|].
    cbn [accumulator_value]. rewrite (proj2 (Z.eqb_neq _ 0)) by (cbn; lia). exists q. split; [exact Eq|].
    exists s. split; [split; [exact Es|]|split; [exact Eq|]]; intros zs E; rewrite E in Es;
      apply sum_from_integers in Es; [exact Es|]. apply Hq in Es. now rewrite Es, E, length_map.
  - rewrite acc_fold_count by (assumption || lia). split; [eauto|]. intros acc [= <-].
    split; [exact I|]. eexists. split; [reflexivity|]. reflexivity.
  - destruct Hn as [|v vals E Hn]; cbn.
    { split; [eauto|]. intros acc [= <-]. split; [exact I|]. now exists Null. }
    unfold accumulator_add. rewrite E. cbn. rewrite acc_fold_max by assumption. split; [eauto|]. intros acc [= <-].
    split; [exact I|]. eexists. split; [reflexivity|]. apply better_best.
  - destruct Hn as [|v vals E Hn]; cbn.
    { split; [eauto|]. intros acc [= <-]. split; [exact I|]. now exists Null. }
    unfold accumulator_add. rewrite E. cbn. rewrite acc_fold_min by assumption. split; [eauto|]. intros acc [= <-].
    split; [exact I|]. eexists. split; [reflexivity|]. apply better_best.
  - destruct Hn as [|v vals E Hn].
    { cbn. split; [eauto|]. intros acc [= <-]. split; [eauto|]. now exists Null. }
    assert (acc_fold (AccSum None) (v :: vals) = let? s := sum_values (v :: vals) in Ok (AccSum (Some s))) as ->.
    { cbn [acc_fold sum_values sum_from]. unfold accumulator_add, sum_values. rewrite E. cbn [sum_from].
      destruct (checked_add (Integer 0) v); cbn; [now apply acc_fold_sum | reflexivity..]. }
    split.
    { intros [s ->]. cbn. eauto. }
    intros acc (s & Es & [= <-])%outcome_bind_ok. split; [eauto|]. exists s. split; [reflexivity|].
    split; [exact Es|]. intros zs Ez. unfold sum_values in Es. rewrite Ez in Es. now apply sum_from_integers in Es.
Qed.

(** ** The rows of the aggregation *)
Section Aggregation.
Context `{F64Pow, Regex}.

(** The values of an expression on the rows of a group. *)
Definition column (e : Expression) (rows : list Row) : outcome (list Value) :=
  try_collect (map (fun row => evaluate (Some row) e) rows).

(** The aggregate of a group, NULLs left out. *)
Definition aggregate_is (rows : list Row) (g : Aggregate) (v : Value) : Prop :=
  exists vals, column (aggregate_expr g) rows = Ok vals /\ aggregate_of g (non_null vals) v.

(** The aggregated expression evaluates on every row of the group, and a sum
    over it does not fail. *)
Definition aggregate_defined (rows : list Row) (g : Aggregate) : Prop :=
  exists vals, column (aggregate_expr g) rows = Ok vals /\ summable g (non_null vals).

Lemma agg_fold_column e acc rows acc' :
  agg_fold e acc rows = Ok acc' <-> exists vals, column e rows = Ok vals /\ acc_fold acc vals = Ok acc'.
Proof.
  revert acc. induction rows as [|row rows IH]; intros acc; cbn.
  { split; [eauto | now intros (vals & [= <-] & E)]. }
  rewrite outcome_bind_ok. split.
  - intros (v & Ev & (acc1 & Ea & (vals & Ec & Ef)%IH)%outcome_bind_ok). exists (v :: vals).
    unfold column in Ec. rewrite Ev. cbn. rewrite Ec, Ea. now split.
  - intros (vals & (v & Ev & (vals' & Ec & [= <-])%outcome_bind_ok)%outcome_bind_ok & (acc1 & Ea & Ef)%outcome_bind_ok).
    exists v. split; [assumption|]. rewrite Ea. cbn. apply IH. eauto.
Qed.

Lemma column_length e rows vals : column e rows = Ok vals -> length vals = length rows.
Proof. intros E%try_collect_ok_inv%(f_equal length). now rewrite !length_map in E. Qed.

Lemma agg_fold_aggregate g rows :
  Z.of_nat (length rows) <= i64_max ->
  (aggregate_defined rows g <-> exists acc, agg_fold (aggregate_expr g) (accumulator_new g) rows = Ok acc) /\
  (forall acc, agg_fold (aggregate_expr g) (accumulator_new g) rows = Ok acc ->
    exists v, accumulator_value acc = Ok v /\ aggregate_is rows g v).
Proof.
  intros Hlen.
  assert (forall vals, column (aggregate_expr g) rows = Ok vals -> Z.of_nat (length (non_null vals)) <= i64_max) as Hl.
  { intros vals E%column_length. unfold non_null.
    pose proof (filter_length_le (fun v => negb (value_eq v Null)) vals). lia. }
  setoid_rewrite agg_fold_column. setoid_rewrite acc_fold_non_null. split; [split|].
  - intros (vals & Ec & Hs). apply acc_fold_new in Hs as [acc Ha]; eauto using non_null_spec.
  - intros (acc & vals & Ec & Ha). apply acc_fold_new in Ha as [Hs _]; [now exists vals | apply non_null_spec | now apply Hl].
  - intros acc (vals & Ec & Ha). apply acc_fold_new in Ha as [_ (v & Ev & Hv)]; [|apply non_null_spec | now apply Hl].
    exists v. split; [assumption|]. now exists vals.
Qed.

Lemma bucket_ok_values aggs group accs :
  Z.of_nat (length group) <= i64_max -> bucket_ok aggs group accs ->
  exists vs, try_collect (map accumulator_value accs) = Ok vs /\ Forall2 (aggregate_is group) aggs vs.
Proof.
  intros Hlen. induction 1 as [|g acc aggs accs E _ (vs & Ev & Hvs)]; [exists []; now split|].
  apply agg_fold_aggregate in E as (v & Ea & Hv); [|assumption]. exists (v :: vs).
  cbn. rewrite Ea. cbn. rewrite Ev. split; [reflexivity | now constructor].
Qed.

Lemma bucket_ok_defined aggs group :
  Z.of_nat (length group) <= i64_max ->
  Forall (aggregate_defined group) aggs <-> exists accs, bucket_ok aggs group accs.
Proof.
  intros Hlen. induction aggs as [|g aggs IH].
  { split; [intros _; exists []; constructor | constructor]. }
  rewrite Forall_cons, IH. rewrite (proj1 (agg_fold_aggregate g group Hlen)). split.
  - intros [[acc Ea] [accs Hb]]. exists (acc :: accs). now constructor.
  - intros [accs Hb]. inversion Hb; subst. eauto.
Qed.

Lemma with_key_length gb k rows : (length (with_key gb k rows) <= length rows)%nat.
Proof. apply filter_length_le. Qed.

Lemma with_key_typed gb ts k rows : keyed gb ts rows -> with_key gb k rows <> [] -> typed_key ts k.
Proof.
  intros Hk Hne. destruct (with_key gb k rows) as [|row l] eqn:E; [easy|].
  assert (row ∈ with_key gb k rows) as [Hin Er]%with_key_elem by (rewrite E; now left).
  unfold keyed in Hk. rewrite Forall_forall in Hk. destruct (Hk row Hin) as (k' & Ek & Ht). congruence.
Qed.

(** The rows of the buckets. *)
Lemma bucket_rows aggs gb rows (m : list (list Value * list Accumulator)) :
  (forall k accs, (k, accs) ∈ m -> bucket_ok aggs (with_key gb k rows) accs) ->
  Z.of_nat (length rows) <= i64_max ->
  Forall2 (fun k item => exists vs, item = Ok (k ++ vs) /\ Forall2 (aggregate_is (with_key gb k rows)) aggs vs)
    m.*1 (map (fun ba => try_collect (map Ok ba.1 ++ map accumulator_value ba.2)) m).
Proof.
  intros Hm Hlen. induction m as [|[k accs] m IH]; cbn; constructor.
  - pose proof (with_key_length gb k rows).
    destruct (bucket_ok_values aggs (with_key gb k rows) accs) as (vs & Ev & Hvs); [lia | apply Hm; now left|].
    exists vs. split; [|assumption]. cbn. apply try_collect_ok_inv in Ev. rewrite Ev, <- map_app.
    apply try_collect_map_ok.
  - apply IH. intros k' accs' Hin. apply Hm. now right.
Qed.

Lemma grouped_bucket gb aggs ts rows a k accs :
  grouped gb aggs ts rows a -> (k, accs) ∈ agg_buckets a ->
  typed_key ts k /\ with_key gb k rows <> [] /\ bucket_ok aggs (with_key gb k rows) accs.
Proof.
  intros [_ _ Hm Hg] Hin.
  assert (typed_key ts k) as Hk.
  { destruct Hm as [Hd _]. rewrite Forall_forall in Hd. exact (Hd _ Hin). }
  split; [assumption|]. specialize (Hg k Hk).
  apply (omap_get_elem values_cmp (typed_key ts) values_cmp_refl values_cmp_antisym (values_cmp_eq ts)) in Hin;
    [|assumption..]. now rewrite Hin in Hg.
Qed.

Lemma grouped_keys gb aggs ts rows a k :
  keyed gb ts rows -> grouped gb aggs ts rows a ->
  k ∈ (agg_buckets a).*1 <-> with_key gb k rows <> [].
Proof.
  intros Hk Hg. rewrite list_elem_of_fmap. split.
  - intros ([k' accs] & -> & Hin). now apply (grouped_bucket gb aggs ts rows a) in Hin as (_ & Hne & _).
  - intros Hne. pose proof (with_key_typed gb ts k rows Hk Hne) as Ht.
    pose proof (g_get _ _ _ _ _ Hg k Ht) as Hget. destruct (omap_get _ _ _) as [accs|] eqn:E; [|easy].
    apply (omap_get_elem values_cmp (typed_key ts) values_cmp_refl values_cmp_antisym (values_cmp_eq ts)) in E;
      [|assumption|apply Hg]. now exists (k, accs).
Qed.

Lemma grouped_sorted gb aggs ts rows a :
  grouped gb aggs ts rows a -> StronglySorted key_lt (agg_buckets a).*1.
Proof.
  intros [_ _ [Hd Hs] _]. induction Hs as [|[k accs] m Hs IH Hall]; cbn; [constructor|].
  apply Forall_cons in Hd as [Hk Hd]. constructor; [now apply IH|].
  rewrite Forall_fmap. rewrite Forall_forall in *. intros [k' accs'] Hin.
  apply (values_cmp_lt ts); [assumption | exact (Hd _ Hin) | exact (Hall _ Hin)].
Qed.

Lemma into_rows_buckets a :
  ~ (agg_buckets a = [] /\ agg_group_by a = []) ->
  aggregator_into_rows a = map (fun ba => try_collect (map Ok ba.1 ++ map accumulator_value ba.2)) (agg_buckets a).
Proof. unfold aggregator_into_rows. intros Hn. destruct (agg_buckets a), (agg_group_by a); tauto || reflexivity. Qed.

(** A row with no GROUP BY expressions has the empty key. *)
Lemma with_key_nil k rows : with_key [] k rows <> [] -> k = [].
Proof.
  intros Hne. destruct (with_key [] k rows) as [|row l] eqn:E; [easy|].
  assert (row ∈ with_key [] k rows) as [_ Er]%with_key_elem by (rewrite E; now left). now injection Er.
Qed.

(** The rows of the aggregator: one for each key. *)
Definition group_rows (gb : list Expression) (aggs : list Aggregate) (rows : list Row) (result : Rows) : Prop :=
  exists ks, StronglySorted key_lt ks /\
    (forall k, k ∈ ks <-> with_key gb k rows <> [] \/ gb = [] /\ k = []) /\
    Forall2 (fun k item => exists vs, item = Ok (k ++ vs) /\
      Forall2 (aggregate_is (with_key gb k rows)) aggs vs) ks result.

Lemma grouped_into_rows gb aggs ts rows a :
  keyed gb ts rows -> Z.of_nat (length rows) <= i64_max -> grouped gb aggs ts rows a ->
  group_rows gb aggs rows (aggregator_into_rows a).
Proof.
  intros Hk Hlen Hg. pose proof (fun k => grouped_keys gb aggs ts rows a k Hk Hg) as Hkeys.
  destruct (decide (agg_buckets a = [] /\ agg_group_by a = [])) as [[Eb Eg]|Hne].
  - unfold aggregator_into_rows. rewrite Eb, Eg in *. rewrite (g_aggs _ _ _ _ _ Hg).
    rewrite <- (g_by _ _ _ _ _ Hg), Eg in *. exists [[]]. split; [repeat constructor|].
    assert (forall k, with_key [] k rows = []) as Hnil.
    { intros k. destruct (decide (with_key [] k rows = [])) as [|Hn]; [assumption|]. now apply Hkeys, elem_of_nil in Hn. }
    split; [intros k; rewrite Hnil, list_elem_of_singleton; intuition congruence|].
    constructor; [|constructor]. rewrite Hnil, <- (map_map accumulator_new accumulator_value).
    destruct (bucket_ok_values aggs [] _ ltac:(cbn; unfold i64_max; lia) (bucket_ok_nil aggs)) as (vs & Ev & Hvs).
    exists vs. now rewrite Ev.
  - rewrite into_rows_buckets by assumption. exists (agg_buckets a).*1.
    split; [now apply (grouped_sorted gb aggs ts rows)|]. split.
    + intros k. rewrite Hkeys. split; [now left|]. intros [|[-> ->]]; [assumption|].
      rewrite (g_by _ _ _ _ _ Hg) in Hne. destruct (agg_buckets a) as [|[k accs] m] eqn:Eb; [tauto|].
      assert (with_key [] k rows <> []) as Hk0 by (apply Hkeys; apply elem_of_cons; now left).
      now rewrite <- (with_key_nil k rows).
    + apply bucket_rows; [|assumption]. intros k accs Hin. now apply (grouped_bucket gb aggs ts rows a) in Hin.
Qed.

(** C33: GROUP BY.  If the GROUP BY expressions evaluate on all rows, to values
    of some column types, the aggregation succeeds exactly if in each group the
    aggregated expressions evaluate and the sums do not overflow.  It then
    yields one row for each distinct key, in strictly ascending key order: the
    key, followed by the aggregates of the rows of that key, NULLs left out:
    COUNT their number, MIN and MAX the extreme values, SUM their sum (exact on
    integers) and AVG the sum divided by the count; all but COUNT are NULL if
    there are no values.  Without GROUP BY there is one row, also for no rows. *)
Theorem sql_group_by gb aggs ts rows :
  keyed gb ts rows -> Z.of_nat (length rows) <= i64_max ->
  ((exists a, aggregator_add_rows (aggregator_new gb aggs) (map Ok rows) = Ok a) <->
   forall k, with_key gb k rows <> [] -> Forall (aggregate_defined (with_key gb k rows)) aggs) /\
  forall a, aggregator_add_rows (aggregator_new gb aggs) (map Ok rows) = Ok a ->
    group_rows gb aggs rows (aggregator_into_rows a).
Proof.
  intros Hk Hlen.
  destruct (aggregator_add_rows_grouped gb aggs ts rows [] _ Hk (grouped_new gb aggs ts)) as [Hok Hdef].
  cbn [app] in *.
  assert (forall k, Forall (aggregate_defined (with_key gb k rows)) aggs <->
    exists accs, bucket_ok aggs (with_key gb k rows) accs) as Hd.
  { intros k. apply bucket_ok_defined. pose proof (with_key_length gb k rows). lia. }
  setoid_rewrite Hd. split; [split; [|exact Hdef]|].
  - intros (a & Ea) k Hne. apply Hok in Ea as Hg. apply (grouped_keys gb aggs ts rows a k Hk Hg) in Hne.
    apply list_elem_of_fmap in Hne as ([k' accs] & -> & Hin). exists accs.
    now apply (grouped_bucket gb aggs ts rows a) in Hin.
  - intros a Ea. apply Hok in Ea. now apply (grouped_into_rows gb aggs ts).
Qed.
End Aggregation.

(** SELECT a, COUNT(b), MAX(b), SUM(b), AVG(b) ... GROUP BY a. *)
Module AggSample.
Import SqlSample.

Definition rows : list Row :=
  [[Integer 2; Integer 5]; [Integer 1; Integer 7]; [Integer 2; Null]; [Integer 1; Integer 4]; [Null; Null]].
Definition gb : list Expression := [Column 0].
Definition aggs : list Aggregate := [Count (Column 1); Max (Column 1); Sum (Column 1); Average (Column 1)].

Lemma agg_rows_keyed : keyed gb [TInteger] rows.
Proof. solve_keyed. Qed.

Definition result : outcome Aggregator := aggregator_add_rows (aggregator_new gb aggs) (map Ok rows).

Lemma sql_group_by_witness :
  keyed gb [TInteger] rows /\
  outcome_map aggregator_into_rows result = Ok (map Ok
    [[Null; Integer 0; Null; Null; Null];
     [Integer 1; Integer 2; Integer 7; Integer 11; Integer 5];
     [Integer 2; Integer 1; Integer 5; Integer 5; Integer 5]]) /\
  exists a, result = Ok a /\ group_rows gb aggs rows (aggregator_into_rows a).
Proof.
  split; [exact agg_rows_keyed|]. split; [vm_compute; reflexivity|].
  destruct result as [a| |] eqn:E; [|vm_compute in E; discriminate..].
  exists a. split; [reflexivity|].
  destruct (sql_group_by gb aggs [TInteger] rows agg_rows_keyed) as [_ Hrows];
    [vm_compute; discriminate|].
  exact (Hrows a E).
Defined.
End AggSample.
