(* ===== verification/SqlOptimizer.v ===== *)
(** * The plan optimizers ([src/sql/planner/optimizer.rs], [Plan::optimize])

    The five optimizers and their composition.  [push_filters] recurses into the
    source that takes the place of a filter: its fuel is the number of nodes. *)
From S2P Require Import Prelude Bytes Float64 SqlValue SqlExpr SqlPlan.

Section Optimizer.
Context `{F64Pow, Regex}.

(** ** Constant folding *)
Definition constant_folding (n : Node) : outcome Node :=
  node_transform (node_size n) (transform_expressions fold_expression) Ok n.

(** ** Filter pushdown *)

(** The expression if it could not be pushed, and the target. *)
Definition push_into (e : Expression) (target : Node) : option Expression * Node :=
  match target with
  | NFilter source predicate => (None, NFilter source (And e predicate))
  | NNestedLoopJoin l r predicate outer =>
      (None, NNestedLoopJoin l r
               (Some (match predicate with Some p => And e p | None => e end)) outer)
  | NScan table filter alias =>
      (None, NScan table (Some (match filter with Some f => And e f | None => e end)) alias)
  | target => (Some e, target)
  end.

(** Whether an expression refers to columns of the left and right source of a
    join whose left source has [n] columns. *)
Definition source_refs (n : nat) (e : Expression) : bool * bool :=
  (walk (fun e refs =>
           let refs := match e with
                       | Column i => (refs.1 || (i <? n)%nat, refs.2 || (n <=? i)%nat)
                       | _ => refs
                       end in
           (negb (refs.1 && refs.2), refs)) e (false, false)).2.

(** The split of the conjuncts: [(push_left, push_right, predicate)]. *)
Definition split_conjunct (n : nat) (s : list Expression * list Expression * list Expression)
    (e : Expression) : list Expression * list Expression * list Expression :=
  let '(push_left, push_right, predicate) := s in
  match source_refs n e with
  | (true, true) => (push_left, push_right, predicate ++ [e])
  | (true, false) => (push_left ++ [e], push_right, predicate)
  | (false, true) => (push_left, push_right ++ [e], predicate)
  | (false, false) => (push_left ++ [e], push_right ++ [e], predicate)
  end.

(** Column → index of its (last) lookup in the vector. *)
Definition column_lookups (exprs : list Expression) : gmap nat nat :=
  foldl (fun m ie => match is_column_lookup ie.2 with Some c => <[c := ie.1]> m | None => m end)
    ∅ (zip (seq 0 (length exprs)) exprs).

(** [lookups.get(&c).map(|i| push[*i].clone())] *)
Definition lookup_expr (lookups : gmap nat nat) (push : list Expression) (c : nat) :
    outcome (option Expression) :=
  match lookups !! c with
  | None => Ok None
  | Some i => match push !! i with Some e => Ok (Some e) | None => Panic "index out of bounds" end
  end.

(** Copy the constant lookups of one side of each equijoin to the other. *)
Fixpoint copy_lookups (left_lookups right_lookups : gmap nat nat) (predicate push_left push_right : list Expression) :
    outcome (list Expression * list Expression) :=
  match predicate with
  | [] => Ok (push_left, push_right)
  | Equal (Column lhs) (Column rhs) :: predicate =>
      let l := Nat.min lhs rhs in
      let r := Nat.max lhs rhs in
      let? left_expr := lookup_expr left_lookups push_left l in
      let? push_right := match left_expr with
                         | Some e => let? e := replace_column l r e in Ok (push_right ++ [e])
                         | None => Ok push_right
                         end in
      let? right_expr := lookup_expr right_lookups push_right r in
      let? push_left := match right_expr with
                        | Some e => let? e := replace_column r l e in Ok (push_left ++ [e])
                        | None => Ok push_left
                        end in
      copy_lookups left_lookups right_lookups predicate push_left push_right
  | _ :: predicate => copy_lookups left_lookups right_lookups predicate push_left push_right
  end.

Definition maybe_push_join (n : Node) : outcome Node :=
  match n with
  | NNestedLoopJoin l r (Some predicate) outer =>
      let width := node_columns l in
      let? cnf := into_cnf_vec predicate in
      let '(push_left, push_right, predicate) := foldl (split_conjunct width) ([], [], []) cnf in
      let? pushes := copy_lookups (column_lookups push_left) (column_lookups push_right)
                       predicate push_left push_right in
      let '(push_left, push_right) := pushes in
      let '(l, predicate) :=
        match and_vec push_left with
        | None => (l, predicate)
        | Some e =>
            match push_into e l with
            | (Some e, l) => (l, predicate ++ [e])
            | (None, l) => (l, predicate)
            end
        end in
      let? rp :=
        match and_vec push_right with
        | None => Ok (r, predicate)
        | Some e =>
            let? e := shift_column (- Z.of_nat (node_columns l)) e in
            match push_into e r with
            | (Some e, r) =>
                let? e := shift_column (Z.of_nat (node_columns l)) e in
                Ok (r, predicate ++ [e])
            | (None, r) => Ok (r, predicate)
            end
        end in
      Ok (NNestedLoopJoin l rp.1 (and_vec rp.2) outer)
  | n => Ok n
  end.

Fixpoint push_filters (fuel : nat) (n : Node) : outcome Node :=
  match fuel with
  | O => Panic "fuel exhausted"
  | S fuel =>
      let? n :=
        match n with
        | NFilter source predicate =>
            match push_into predicate source with
            | (Some predicate, source) => Ok (NFilter source predicate)
            | (None, source) => push_filters fuel source
            end
        | n => Ok n
        end in
      maybe_push_join n
  end.

Definition filter_pushdown (n : Node) : outcome Node :=
  node_transform (node_size n) (fun n => push_filters (node_size n) n) Ok n.

(** ** Index lookups *)

(** The first conjunct that looks up the primary key or an indexed column. *)
Fixpoint find_lookup (table : Table) (i : nat) (cnf : list Expression) : outcome (option (nat * nat)) :=
  match cnf with
  | [] => Ok None
  | e :: cnf =>
      match is_column_lookup e with
      | None => find_lookup table (S i) cnf
      | Some c =>
          if (c =? primary_key table)%nat then Ok (Some (i, c))
          else
            let? column := table_column table c in
            if col_index column then Ok (Some (i, c)) else find_lookup table (S i) cnf
      end
  end.

Definition index_lookup (n : Node) : outcome Node :=
  match n with
  | NScan table (Some filter) alias =>
      let? cnf := into_cnf_vec filter in
      let? found := find_lookup table 0 cnf in
      match found with
      | None => Ok n
      | Some (i, column) =>
          match cnf !! i with
          | None => Panic "removal index out of bounds"
          | Some e =>
              let? values := into_column_values column e in
              let n := if (column =? primary_key table)%nat then NKeyLookup table values alias
                       else NIndexLookup table column values alias in
              Ok match and_vec (list_delete i cnf) with
                 | Some predicate => NFilter n predicate
                 | None => n
                 end
          end
      end
  | n => Ok n
  end.

(** The fuel covers the filter that may be put over a lookup. *)
Definition index_lookups (n : Node) : outcome Node :=
  node_transform (S (node_size n)) index_lookup Ok n.

(** ** Hash joins *)

(** [right_column -= left.columns()], on [usize] in a release build. *)
Definition usize_sub (a b : nat) : nat := Z.to_nat (u64 (Z.of_nat a - Z.of_nat b)).

Definition hash_join (n : Node) : Node :=
  match n with
  | NNestedLoopJoin l r (Some (Equal (Column lhs) (Column rhs))) outer =>
      let left_column := Nat.min lhs rhs in
      let right_column := usize_sub (Nat.max lhs rhs) (node_columns l) in
      NHashJoin l left_column r right_column outer
  | n => n
  end.

Definition hash_joins (n : Node) : outcome Node :=
  node_transform (node_size n) (fun n => Ok (hash_join n)) Ok n.

(** ** Short circuits *)
Definition is_nothing (n : Node) : bool := match n with NNothing _ => true | _ => false end.
Definition never_true (e : Expression) : bool :=
  match e with Constant (Boolean false) | Constant Null => true | _ => false end.
Definition always_true (e : Expression) : bool :=
  match e with Constant (Boolean true) => true | _ => false end.

(** Whether a projection passes its source columns through. *)
Definition noop_projection (source : Node) (expressions : list Expression) (aliases : list Label) : bool :=
  (node_columns source =? length expressions)%nat &&
  forallb (fun a => bool_decide (a = NoLabel)) aliases &&
  forallb (fun ie => bool_decide (ie.2 = Column ie.1)) (zip (seq 0 (length expressions)) expressions).

Definition simplify_node (n : Node) : Node :=
  match n with
  | NFilter source predicate => if always_true predicate then source else n
  | NScan table (Some filter) alias => if always_true filter then NScan table None alias else n
  | NNestedLoopJoin l r (Some predicate) outer =>
      if always_true predicate then NNestedLoopJoin l r None outer else n
  | NProjection source expressions aliases =>
      if noop_projection source expressions aliases then source else n
  | n => n
  end.

Definition node_is_empty (n : Node) : bool :=
  match n with
  | NFilter source predicate => never_true predicate || is_nothing source
  | NIndexLookup _ _ values _ => bool_decide (values = [])
  | NKeyLookup _ keys _ => bool_decide (keys = [])
  | NLimit _ limit => (limit =? 0)%nat
  | NNestedLoopJoin l r predicate _ =>
      match predicate with Some p => never_true p | None => false end || is_nothing l || is_nothing r
  | NScan _ filter _ => match filter with Some f => never_true f | None => false end
  | NValues rows => bool_decide (rows = [])
  | NHashJoin l _ r _ _ => is_nothing l || is_nothing r
  | NOffset source _ | NOrder source _ | NProjection source _ _ => is_nothing source
  | _ => false
  end.

Definition short_circuit (n : Node) : outcome Node :=
  let n := simplify_node n in
  if node_is_empty n then
    let? columns := try_collect (map (column_label n) (seq 0 (node_columns n))) in
    Ok (NNothing columns)
  else Ok n.

Definition short_circuits (n : Node) : outcome Node :=
  node_transform (node_size n) Ok short_circuit n.

(** ** All optimizers, in order *)
Definition optimize_node (n : Node) : outcome Node :=
  let? n := constant_folding n in
  let? n := filter_pushdown n in
  let? n := index_lookups n in
  let? n := hash_joins n in
  short_circuits n.

Definition optimize (p : Plan) : outcome Plan :=
  match p with
  | PCreateTable _ | PDropTable _ _ => Ok p
  | PDelete table primary_key source =>
      let? source := optimize_node source in Ok (PDelete table primary_key source)
  | PInsert table column_map source =>
      let? source := optimize_node source in Ok (PInsert table column_map source)
  | PUpdate table primary_key source expressions =>
      let? source := optimize_node source in Ok (PUpdate table primary_key source expressions)
  | PSelect root => let? root := optimize_node root in Ok (PSelect root)
  end.

End Optimizer.
