(* ===== verification/SqlOptTheory.v ===== *)
(** * The optimizers preserve query results

    A plan runs cleanly if none of its nodes reports an error and each yields
    rows of its declared width.  [refines] is the preorder of plans that, where
    the first runs cleanly, run cleanly with the same rows;
    every node constructor is monotone for it, so that an optimizer is correct
    if its rewrite of one node is. *)
From S2P Require Import Prelude Bytes Float64 SqlValue KeycodeTheory SqlValueTheory SqlExpr SqlExprTheory SqlPlan SqlExec SqlJoinTheory SqlOptimizer.

(** What the optimizers rely on: a SQL transaction's filtered scan filters its
    scan, and a lookup of nothing finds nothing. *)
Class TransactionSpec (T : Type) `{F64Pow, Regex, Transaction T} : Prop := {
  scan_filter table f t rows :
    txn_scan table None t = Ok rows -> txn_scan table (Some f) t = Ok (filter_rows f rows);
  get_nil table t : txn_get table [] t = Ok [];
  lookup_index_nil table column t : txn_lookup_index table column [] t = Ok [];
}.

Lemma map_ok_inj {A} (l l' : list A) : map Ok l = map Ok l' -> l = l'.
Proof.
  revert l'. induction l as [|x l IH]; intros [|y l']; try discriminate; [auto|]. cbn. intros [= -> E]. f_equal. auto.
Qed.

Section Opt.
Context `{TransactionSpec T}.

Definition yields (n : Node) (t : T) (rows : list Row) : Prop := execute_node n t = Ok (map Ok rows).

(** The sources of a node. *)
Definition sources (n : Node) : list Node :=
  match n with
  | NAggregate s _ _ | NFilter s _ | NLimit s _ | NOffset s _ | NOrder s _ | NProjection s _ _
  | NRemap s _ => [s]
  | NHashJoin l _ r _ _ | NNestedLoopJoin l r _ _ => [l; r]
  | NIndexLookup _ _ _ _ | NKeyLookup _ _ _ | NNothing _ | NScan _ _ _ | NValues _ => []
  end.

(** Column references stay within the source. *)
Definition columns_below (k : nat) (e : Expression) : Prop := Forall (fun i => (i < k)%nat) (columns_of e).
Definition refs_ok (n : Node) : Prop :=
  match n with
  | NAggregate s group_by _ => Forall (columns_below (node_columns s)) group_by
  | NProjection s expressions _ => Forall (columns_below (node_columns s)) expressions
  | NRemap s targets => length targets = node_columns s
  | _ => True
  end.

(** One node: references in range and an error-free result of its width; the
    unfiltered scan of a table is error-free too. *)
Definition clean_node (n : Node) (t : T) : Prop :=
  refs_ok n /\
  (exists rows, yields n t rows /\ Forall (fun r => length r = node_columns n) rows) /\
  match n with
  | NScan table _ _ => exists rows, txn_scan (table_name table) None t = Ok (map Ok rows) /\
                       Forall (fun r => length r = length (columns table)) rows
  | _ => True
  end.

Fixpoint clean (n : Node) (t : T) : Prop :=
  clean_node n t /\
  match n with
  | NAggregate s _ _ | NFilter s _ | NLimit s _ | NOffset s _ | NOrder s _ | NProjection s _ _
  | NRemap s _ => clean s t
  | NHashJoin l _ r _ _ | NNestedLoopJoin l r _ _ => clean l t /\ clean r t
  | NIndexLookup _ _ _ _ | NKeyLookup _ _ _ | NNothing _ | NScan _ _ _ | NValues _ => True
  end.

Lemma clean_here n t : clean n t -> clean_node n t.
Proof. destruct n; cbn [clean]; tauto. Qed.

Lemma clean_sources n t : clean n t <-> clean_node n t /\ Forall (fun s => clean s t) (sources n).
Proof.
  destruct n; cbn [clean sources]; rewrite ?Forall_cons, ?Forall_nil; tauto.
Qed.

Record refines (t : T) (n n' : Node) : Prop := {
  refines_columns : node_columns n' = node_columns n;
  refines_clean : clean n t -> clean n' t;
  refines_rows : clean n t -> execute_node n' t = execute_node n t;
}.

#[export] Instance refines_preorder t : PreOrder (refines t).
Proof.
  split.
  - intros n. split; auto.
  - intros a b c [C1 K1 R1] [C2 K2 R2]. split.
    + congruence.
    + auto.
    + intros Hc. rewrite R2, R1; auto.
Qed.

(** Replacing the sources of a node by refinements refines the node. *)
Inductive sources_refined (t : T) : Node -> Node -> Prop :=
  | sr_leaf n : sources n = [] -> sources_refined t n n
  | sr_aggregate s s' g a : refines t s s' -> sources_refined t (NAggregate s g a) (NAggregate s' g a)
  | sr_filter s s' p : refines t s s' -> sources_refined t (NFilter s p) (NFilter s' p)
  | sr_hash l l' lc r r' rc o : refines t l l' -> refines t r r' ->
      sources_refined t (NHashJoin l lc r rc o) (NHashJoin l' lc r' rc o)
  | sr_limit s s' k : refines t s s' -> sources_refined t (NLimit s k) (NLimit s' k)
  | sr_loop l l' r r' p o : refines t l l' -> refines t r r' ->
      sources_refined t (NNestedLoopJoin l r p o) (NNestedLoopJoin l' r' p o)
  | sr_offset s s' k : refines t s s' -> sources_refined t (NOffset s k) (NOffset s' k)
  | sr_order s s' key : refines t s s' -> sources_refined t (NOrder s key) (NOrder s' key)
  | sr_projection s s' es a : refines t s s' -> sources_refined t (NProjection s es a) (NProjection s' es a)
  | sr_remap s s' ts : refines t s s' -> sources_refined t (NRemap s ts) (NRemap s' ts).

Lemma map_sources_refined t f n n' :
  map_sources f n = Ok n' -> Forall (fun s => forall s', f s = Ok s' -> refines t s s') (sources n) ->
  sources_refined t n n'.
Proof.
  destruct n; cbn [map_sources sources]; rewrite ?Forall_cons; intros E Hs;
    repeat match goal with
    | E : outcome_bind ?o _ = Ok _ |- _ => destruct o eqn:?; cbn [outcome_bind] in E; [|discriminate E ..]
    end; injection E as <-; decompose [and] Hs; constructor; auto.
Qed.

(** Columns and rows of a node depend on those of its sources only. *)
Lemma sources_refined_columns t n n' : sources_refined t n n' -> node_columns n' = node_columns n.
Proof.
  destruct 1; cbn [node_columns]; try reflexivity;
    repeat match goal with H : refines _ _ _ |- _ => rewrite (refines_columns _ _ _ H); clear H end; reflexivity.
Qed.

Lemma sources_refined_rows t n n' :
  sources_refined t n n' -> Forall (fun s => clean s t) (sources n) -> execute_node n' t = execute_node n t.
Proof.
  destruct 1; cbn [sources execute_node]; rewrite ?Forall_cons; intros Hc; decompose [and] Hc; try reflexivity;
    repeat match goal with
    | R : refines _ ?s _, C : clean ?s _ |- _ =>
        rewrite (refines_rows _ _ _ R C); try rewrite (refines_columns _ _ _ R); clear R
    end; reflexivity.
Qed.

Lemma sources_refined_refs_ok t n n' : sources_refined t n n' -> refs_ok n -> refs_ok n'.
Proof.
  destruct 1; cbn [refs_ok]; auto;
    match goal with R : refines _ _ _ |- _ => now rewrite (refines_columns _ _ _ R) end.
Qed.

Lemma sources_refined_clean_sources t n n' :
  sources_refined t n n' -> Forall (fun s => clean s t) (sources n) -> Forall (fun s => clean s t) (sources n').
Proof.
  destruct 1; cbn [sources]; rewrite ?Forall_cons; auto; intros Hc; decompose [and] Hc;
    repeat split; auto; eapply refines_clean; eassumption.
Qed.

Lemma sources_refined_scan t n n' : sources_refined t n n' ->
  match n with NScan _ _ _ => n' = n | _ => match n' with NScan _ _ _ => False | _ => True end end \/ n' = n.
Proof. destruct 1; auto. Qed.

Lemma sources_refined_refines t n n' : sources_refined t n n' -> refines t n n'.
Proof.
  intros Hs. split.
  - apply (sources_refined_columns t n n' Hs).
  - intros Hc. apply clean_sources in Hc as [(Hr & (rows & Hy & Hw) & Hn) Hc]. apply clean_sources.
    split; [|now apply (sources_refined_clean_sources t n n')]. repeat split.
    + now apply (sources_refined_refs_ok t n n').
    + exists rows. split; [|now rewrite (sources_refined_columns t n n' Hs)].
      unfold yields. rewrite (sources_refined_rows t n n' Hs Hc). exact Hy.
    + destruct (sources_refined_scan t n n' Hs) as [Hx| ->]; [|exact Hn].
      destruct n; destruct n'; auto; try contradiction; try discriminate. now injection Hx as -> -> ->.
  - intros Hc. apply clean_sources in Hc as [_ Hc]. now apply sources_refined_rows.
Qed.

(** The columns of a clean node have labels. *)
Lemma position_lt i ts j : position i ts = Some j -> (j < length ts)%nat.
Proof.
  revert j. induction ts as [|x ts IH]; intros j; cbn [position length]; [discriminate|].
  case_bool_decide; [intros [= <-]; lia|]. destruct (position i ts); cbn; [|discriminate].
  intros [= <-]. specialize (IH _ eq_refl). lia.
Qed.

Lemma columns_below_column k es i j :
  Forall (columns_below k) es -> es !! i = Some (Column j) -> (j < k)%nat.
Proof. intros Hf E. pose proof (proj1 (Forall_lookup _ _) Hf _ _ E) as Hc. now apply Forall_inv in Hc. Qed.

Lemma clean_labelled t n : clean n t -> forall i, (i < node_columns n)%nat -> exists l, column_label n i = Ok l.
Proof.
  induction n as [s IH g a|s IH|l IHl lc r IHr rc o| | |s IH|l IHl r IHr|cs|s IH|s IH|s IH es al|s IH ts|tb f al|];
    cbn [clean node_columns column_label]; intros Hc i Hi; destruct Hc as [(Hr & _) Hc]; eauto.
  - destruct (g !! i) as [[]|] eqn:E; eauto. eapply IH; [exact Hc|]. eapply columns_below_column; eassumption.
  - destruct (Nat.ltb_spec i (node_columns l)); [apply IHl | apply IHr]; (tauto || lia).
  - unfold table_column. destruct (lookup_lt_is_Some_2 (columns table) i Hi) as [c ->]. cbn. eauto.
  - unfold table_column. destruct (lookup_lt_is_Some_2 (columns table) i Hi) as [c ->]. cbn. eauto.
  - destruct (Nat.ltb_spec i (node_columns l)); [apply IHl | apply IHr]; (tauto || lia).
  - destruct (al !! i) as [[]|]; eauto; destruct (es !! i) as [[]|] eqn:E; eauto;
      (eapply IH; [exact Hc | eapply columns_below_column; eassumption]).
  - destruct (position i ts) eqn:E; eauto. eapply IH; [exact Hc|]. cbn in Hr. rewrite <- Hr. now apply position_lt in E.
  - unfold table_column. destruct (lookup_lt_is_Some_2 (columns tb) i Hi) as [c ->]. cbn. eauto.
Qed.

(** ** Transformations that rewrite a node, then its sources *)
Lemma node_transform_before (t : T) (G : Node -> Prop) before :
  (forall n n', G n -> before n = Ok n' -> refines t n n' /\ Forall G (sources n')) ->
  forall fuel n n', G n -> node_transform fuel before Ok n = Ok n' -> refines t n n'.
Proof.
  intros Hb. induction fuel as [|fuel IH]; intros n n' Hg E; [discriminate|]. cbn [node_transform] in E.
  apply outcome_bind_ok in E as (n1 & E1 & E). apply outcome_bind_ok in E as (n2 & E2 & [= <-]).
  destruct (Hb n n1 Hg E1) as [R Hs]. etransitivity; [exact R|]. apply sources_refined_refines.
  apply (map_sources_refined t (node_transform fuel before Ok)); [exact E2|].
  eapply Forall_impl; [exact Hs|]. intros s Gs s' Es. now apply IH.
Qed.

(** ** Transformations that rewrite the sources, then the node *)
Lemma node_transform_after (t : T) (G : Node -> Prop) after :
  (forall n, G n -> Forall G (sources n)) ->
  (forall f n n1, G n -> map_sources f n = Ok n1 ->
     Forall (fun s => forall s', f s = Ok s' -> G s') (sources n) -> G n1) ->
  (forall n n', G n -> after n = Ok n' -> refines t n n' /\ G n') ->
  forall fuel n n', G n -> node_transform fuel Ok after n = Ok n' -> refines t n n' /\ G n'.
Proof.
  intros Hs Hm Ha. induction fuel as [|fuel IH]; intros n n' Gn E; [discriminate|]. cbn [node_transform outcome_bind] in E.
  apply outcome_bind_ok in E as (n1 & E1 & E).
  assert (Forall (fun s => forall s', node_transform fuel Ok after s = Ok s' -> refines t s s' /\ G s') (sources n)) as Hr.
  { eapply Forall_impl; [exact (Hs n Gn)|]. intros s Gs s' Es. now apply IH. }
  destruct (Ha n1 n') as [R G']; [|exact E|].
  - apply (Hm (node_transform fuel Ok after) n n1 Gn E1). eapply Forall_impl; [exact Hr|]. intros s Gs s' Es. now apply Gs.
  - split; [|exact G']. etransitivity; [|exact R]. apply sources_refined_refines.
    apply (map_sources_refined t (node_transform fuel Ok after)); [exact E1|].
    eapply Forall_impl; [exact Hr|]. intros s Gs s' Es. now apply Gs.
Qed.

(** ** Rewriting the expressions of a node *)

(** [e'] has the values of [e]. *)
Definition erefines (e e' : Expression) : Prop :=
  forall row v, evaluate row e = Ok v -> evaluate row e' = Ok v.

Lemma erefines_holds e e' msg row b :
  erefines e e' -> predicate_holds msg e row = Ok b -> predicate_holds msg e' row = Ok b.
Proof.
  intros He. unfold predicate_holds. intros Hb. apply outcome_bind_ok in Hb as (v & Ev & Hb).
  now rewrite (He _ _ Ev).
Qed.

(** [y] succeeds where [x] does, with the same value. *)
Definition omono {A} (x y : outcome A) : Prop := forall v, x = Ok v -> y = Ok v.

Lemma try_collect_mono {A} (l l' : list (outcome A)) : Forall2 omono l l' -> omono (try_collect l) (try_collect l').
Proof.
  induction 1 as [|x y l l' Hxy Hl IH]; intros vs; [auto|]. cbn [try_collect].
  intros E. apply outcome_bind_ok in E as (v & Ev & E). apply outcome_bind_ok in E as (vs' & Evs & E).
  rewrite (Hxy _ Ev). cbn [outcome_bind]. now rewrite (IH _ Evs).
Qed.

Lemma map_mono {A} (l l' : list (outcome A)) rows : Forall2 omono l l' -> l = map Ok rows -> l' = map Ok rows.
Proof.
  intros Hl. revert rows. induction Hl as [|x y l l' Hxy Hl IH]; intros [|r rows]; try discriminate; [auto|].
  cbn [map]. intros [= E1 E2]. now rewrite (Hxy _ E1), (IH _ E2).
Qed.

Lemma Forall2_map_mono {A B C} (f : A -> outcome B) (g : C -> outcome B) l l' (R : A -> C -> Prop) :
  Forall2 R l l' -> (forall x y, R x y -> omono (f x) (g y)) -> Forall2 omono (map f l) (map g l').
Proof. intros Hl Hfg. induction Hl; cbn [map]; constructor; auto. Qed.

Lemma Forall2_map_same {A B} (f g : A -> outcome B) l :
  (forall x, omono (f x) (g x)) -> Forall2 omono (map f l) (map g l).
Proof. intros Hfg. induction l; cbn [map]; constructor; auto. Qed.

Lemma evaluate_mono row es es' :
  Forall2 erefines es es' -> omono (try_collect (map (evaluate row) es)) (try_collect (map (evaluate row) es')).
Proof. intros He. apply try_collect_mono. eapply Forall2_map_mono; [exact He|]. intros e e' R v. apply R. Qed.

Lemma filter_rows_mono e e' rs rows :
  erefines e e' -> filter_rows e (map Ok rs) = map Ok rows -> filter_rows e' (map Ok rs) = map Ok rows.
Proof.
  intros He. revert rows. induction rs as [|r rs IH]; intros rows; [auto|]. cbn [map filter_rows].
  destruct (predicate_holds _ e r) as [[]| |] eqn:Hb.
  - rewrite (erefines_holds _ _ _ _ _ He Hb). destruct rows as [|r' rows]; [discriminate|].
    cbn [map]. intros [= -> E]. now rewrite (IH _ E).
  - rewrite (erefines_holds _ _ _ _ _ He Hb). apply IH.
  - destruct rows; discriminate.
  - destruct rows; discriminate.
Qed.

Lemma join_items_mono e e' l rs rows :
  erefines e e' -> join_items (Some e) l (map Ok rs) = map Ok rows -> join_items (Some e') l (map Ok rs) = map Ok rows.
Proof.
  intros He. unfold join_items. revert rows. induction rs as [|r rs IH]; intros rows; [auto|].
  cbn [map mbind list_bind join_item].
  destruct (predicate_holds _ e (l ++ r)) as [[]| |] eqn:Hb; cbn [app].
  - rewrite (erefines_holds _ _ _ _ _ He Hb). destruct rows as [|r' rows]; [discriminate|].
    cbn [map app]. intros [= E1 E]. now rewrite (IH _ E), E1.
  - rewrite (erefines_holds _ _ _ _ _ He Hb). apply IH.
  - destruct rows; discriminate.
  - destruct rows; discriminate.
Qed.

Lemma map_ok_app {A} (l1 l2 : list (outcome A)) rows :
  l1 ++ l2 = map Ok rows -> exists r1 r2, l1 = map Ok r1 /\ l2 = map Ok r2.
Proof. intros E. symmetry in E. apply map_eq_app in E as (r1 & r2 & -> & <- & <-). eauto. Qed.

Lemma nested_loop_mono e e' ls rs n outer rows :
  erefines e e' -> nested_loop_rows (map Ok ls) (map Ok rs) n (Some e) outer = map Ok rows ->
  nested_loop_rows (map Ok ls) (map Ok rs) n (Some e') outer = map Ok rows.
Proof.
  intros He. rewrite !nested_loop_rows_eq. revert rows. induction ls as [|l ls IH]; intros rows; [auto|].
  cbn [map nl_rest]. intros E. pose proof E as E'. apply map_ok_app in E as (r1 & r2 & E1 & E2).
  apply map_ok_app in E2 as (r3 & r4 & _ & E4).
  rewrite (join_items_mono _ _ _ _ _ He E1), (IH _ E4). now rewrite E1, E4 in E'.
Qed.

Lemma order_mono key key' source :
  Forall2 (fun a b => a.2 = b.2 /\ erefines a.1 b.1) key key' -> omono (order source key) (order source key').
Proof.
  intros Hk rows. unfold order. intros E. apply outcome_bind_ok in E as (keyed & Ek & E).
  assert (key'.*2 = key.*2) as ->. { clear - Hk. induction Hk as [|x y l l' [Hd _] Hl IH]; cbn; congruence. }
  eapply try_collect_mono in Ek; [rewrite Ek; exact E|].
  apply Forall2_map_same. intros item rk Eq. apply outcome_bind_ok in Eq as (row & -> & Eq).
  apply outcome_bind_ok in Eq as (ks & Eks & Eq). cbn [outcome_bind].
  eapply try_collect_mono in Eks; [rewrite Eks; exact Eq|].
  eapply Forall2_map_mono; [exact Hk|]. intros x y [_ He] v. apply He.
Qed.

(** A rewrite of one node that keeps its sources' behaviour. *)
Definition scan_ok (n : Node) (t : T) : Prop :=
  match n with
  | NScan table _ _ => exists rows, txn_scan (table_name table) None t = Ok (map Ok rows) /\
                       Forall (fun r => length r = length (columns table)) rows
  | _ => True
  end.

Lemma refines_local t n n' :
  node_columns n' = node_columns n ->
  (clean n t -> forall rows, yields n t rows ->
     refs_ok n' /\ scan_ok n' t /\ Forall (fun s => clean s t) (sources n') /\ yields n' t rows) ->
  refines t n n'.
Proof.
  intros Hc Hn.
  assert (clean n t -> exists rows, yields n t rows /\ Forall (fun r => length r = node_columns n) rows) as Hrows.
  { intros Hk. apply clean_here in Hk as (_ & Hr & _). exact Hr. }
  split; [exact Hc| |].
  - intros Hk. destruct (Hrows Hk) as (rows & Hy & Hw). destruct (Hn Hk rows Hy) as (Hr & Hs & Hss & Hy').
    apply clean_sources. split; [|exact Hss]. split; [exact Hr|]. split; [|exact Hs].
    exists rows. split; [exact Hy'|]. now rewrite Hc.
  - intros Hk. destruct (Hrows Hk) as (rows & Hy & Hw). destruct (Hn Hk rows Hy) as (_ & _ & _ & Hy').
    unfold yields in *. congruence.
Qed.

(** The rows of the source of a clean node. *)
Lemma clean_yields n t : clean n t -> exists rows, execute_node n t = Ok (map Ok rows).
Proof. intros (_ & (rows & Hy & _) & _)%clean_here. eauto. Qed.

Lemma columns_below_incl k e e' : incl (columns_of e') (columns_of e) -> columns_below k e -> columns_below k e'.
Proof. unfold columns_below. rewrite !List.Forall_forall. eauto. Qed.

Lemma try_collect_map_forall2 {A B} (f : A -> outcome B) (R : A -> B -> Prop) l l' :
  (forall x y, f x = Ok y -> R x y) -> try_collect (map f l) = Ok l' -> Forall2 R l l'.
Proof.
  intros Hf. revert l'. induction l as [|x l IH]; intros l'; cbn [map try_collect].
  - intros [= <-]. constructor.
  - intros E. apply outcome_bind_ok in E as (y & Ey & E). apply outcome_bind_ok in E as (ys & Eys & [= <-]).
    constructor; auto.
Qed.

(** A rewrite of expressions that keeps their values and adds no columns. *)
Definition expr_rewrite (e e' : Expression) : Prop := erefines e e' /\ incl (columns_of e') (columns_of e).

Lemma columns_below_rewrite k es es' :
  Forall2 expr_rewrite es es' -> Forall (columns_below k) es -> Forall (columns_below k) es'.
Proof.
  induction 1 as [|e e' es es' [_ He] Hes IH]; rewrite ?Forall_cons; [auto|]. intros [? ?].
  split; eauto using columns_below_incl.
Qed.

Lemma transform_expressions_refines t f n n' :
  (forall e e', f e = Ok e' -> expr_rewrite e e') -> transform_expressions f n = Ok n' -> refines t n n'.
Proof.
  intros Hf E. destruct n; cbn [transform_expressions] in E.
  all: try (injection E as <-; reflexivity).
  - apply outcome_bind_ok in E as (p' & Ep & [= <-]). apply Hf in Ep as [He _].
    apply refines_local; [reflexivity|]. intros Hk rows Hy. cbn [clean] in Hk. destruct Hk as [_ Hk].
    split; [exact I|]. split; [exact I|]. split; [cbn [sources]; auto|].
    destruct (clean_yields _ _ Hk) as [rs Hrs]. unfold yields in *. cbn [execute_node] in *. rewrite Hrs in *.
    cbn [outcome_bind] in *. injection Hy as Hy. f_equal. eapply filter_rows_mono; eassumption.
  - destruct predicate as [p|]; [|injection E as <-; reflexivity].
    apply outcome_bind_ok in E as (p' & Ep & [= <-]). apply Hf in Ep as [He _].
    apply refines_local; [reflexivity|]. intros Hk rows Hy. cbn [clean] in Hk. destruct Hk as (_ & Hl & Hr).
    split; [exact I|]. split; [exact I|]. split; [cbn [sources]; auto|].
    destruct (clean_yields _ _ Hl) as [ls Hls]. destruct (clean_yields _ _ Hr) as [rs Hrs].
    unfold yields in *. cbn [execute_node] in *. rewrite Hls, Hrs in *. cbn [outcome_bind] in *.
    injection Hy as Hy. f_equal. eapply nested_loop_mono; eassumption.
  - apply outcome_bind_ok in E as (key' & Ek & [= <-]).
    apply refines_local; [reflexivity|]. intros Hk rows Hy. cbn [clean] in Hk. destruct Hk as [_ Hk].
    split; [exact I|]. split; [exact I|]. split; [cbn [sources]; auto|].
    unfold yields in *. cbn [execute_node] in *. apply outcome_bind_ok in Hy as (rs & -> & Hy). cbn [outcome_bind].
    revert Hy. apply order_mono. eapply try_collect_map_forall2; [|exact Ek].
    intros [e d] [e' d'] Ee. unfold outcome_map in Ee. cbn [fst snd] in *. apply outcome_bind_ok in Ee as (x & Ex & [= <- <-]).
    split; [reflexivity | apply (Hf _ _ Ex)].
  - apply outcome_bind_ok in E as (es' & Ees & [= <-]).
    assert (Forall2 expr_rewrite expressions es') as Hes by (eapply try_collect_map_forall2; eauto).
    apply refines_local; [cbn [node_columns]; symmetry; eapply Forall2_length; exact Hes|].
    intros Hk rows Hy. cbn [clean] in Hk. destruct Hk as ((Hrf & _) & Hk).
    split; [eapply columns_below_rewrite; eassumption|]. split; [exact I|]. split; [cbn [sources]; auto|].
    unfold yields in *. cbn [execute_node] in *. apply outcome_bind_ok in Hy as (rs & -> & Hy). cbn [outcome_bind].
    injection Hy as Hy. f_equal. eapply map_mono; [|exact Hy]. apply Forall2_map_same. intros item row Ei.
    apply outcome_bind_ok in Ei as (r & -> & Ei). cbn [outcome_bind]. revert Ei. apply evaluate_mono.
    eapply Forall2_impl; [exact Hes | now intros ? ? []].
  - destruct filter as [p|]; [|injection E as <-; reflexivity].
    apply outcome_bind_ok in E as (p' & Ep & [= <-]). apply Hf in Ep as [He _].
    apply refines_local; [reflexivity|]. intros Hk rows Hy. cbn [clean] in Hk. destruct Hk as ((_ & _ & Hs) & _).
    split; [exact I|]. split; [exact Hs|]. split; [constructor|]. destruct Hs as (rs & Hrs & _).
    unfold yields in *. cbn [execute_node] in *. rewrite (scan_filter _ p _ _ Hrs) in Hy. rewrite (scan_filter _ p' _ _ Hrs).
    injection Hy as Hy. f_equal. eapply filter_rows_mono; eassumption.
  - apply outcome_bind_ok in E as (rows' & Er & [= <-]).
    assert (Forall2 (Forall2 expr_rewrite) rows rows') as Hes.
    { eapply try_collect_map_forall2; [|exact Er]. intros x y Exy. eapply try_collect_map_forall2; eauto. }
    apply refines_local.
    { cbn [node_columns]. destruct Hes as [|x y ? ? Hxy]; [reflexivity|]. symmetry. eapply Forall2_length; exact Hxy. }
    intros Hk out Hy. split; [exact I|]. split; [exact I|]. split; [constructor|].
    unfold yields in *. cbn [execute_node] in *. injection Hy as Hy. f_equal. eapply map_mono; [|exact Hy].
    eapply Forall2_map_mono; [exact Hes|]. intros x y Hxy. apply evaluate_mono.
    eapply Forall2_impl; [exact Hxy | now intros ? ? []].
Qed.

Lemma fold_expression_rewrite e e' : fold_expression e = Ok e' -> expr_rewrite e e'.
Proof.
  intros E. split; [|now apply transform_fold_columns in E].
  intros row v Hv. destruct (transform_eval row Ok fold) with (fuel := size e) (e := e) (v := v) as (x & Ex & Hx);
    [eauto using smaller_refl | intros; now apply fold_eval | reflexivity | exact Hv |].
  unfold fold_expression in E. congruence.
Qed.

Lemma constant_folding_refines t n n' : constant_folding n = Ok n' -> refines t n n'.
Proof.
  apply (node_transform_before t (fun _ => True)); [|exact I]. intros x x' _ Ex. split.
  - eapply transform_expressions_refines; [|exact Ex]. apply fold_expression_rewrite.
  - apply Forall_forall. auto.
Qed.

(** ** Hash joins *)

(** The columns of an equijoin lie on either side and hold one type. *)
Definition equijoin_ok (n : Node) (t : T) : Prop :=
  match n with
  | NNestedLoopJoin l r (Some (Equal (Column a) (Column b))) _ =>
      (Nat.min a b < node_columns l <= Nat.max a b)%nat /\ is_u64 (Z.of_nat (Nat.max a b)) /\
      exists dt, forall ls rs, yields l t ls -> yields r t rs ->
        Forall (column_typed dt (Nat.min a b)) ls /\
        Forall (column_typed dt (Nat.max a b - node_columns l)) rs
  | _ => True
  end.
Fixpoint equijoins_ok (n : Node) (t : T) : Prop :=
  equijoin_ok n t /\
  match n with
  | NAggregate s _ _ | NFilter s _ | NLimit s _ | NOffset s _ | NOrder s _ | NProjection s _ _
  | NRemap s _ => equijoins_ok s t
  | NHashJoin l _ r _ _ | NNestedLoopJoin l r _ _ => equijoins_ok l t /\ equijoins_ok r t
  | NIndexLookup _ _ _ _ | NKeyLookup _ _ _ | NNothing _ | NScan _ _ _ | NValues _ => True
  end.

Lemma usize_sub_exact a b : (b <= a)%nat -> is_u64 (Z.of_nat a) -> usize_sub a b = (a - b)%nat.
Proof. unfold is_u64. intros Hb Ha. unfold usize_sub. rewrite u64_small by (unfold is_u64; lia). lia. Qed.

Lemma equal_erefines_sym x y : erefines (Equal x y) (Equal y x).
Proof.
  intros row v. cbn [evaluate]. intros E. apply outcome_bind_ok in E as (a & -> & E).
  apply outcome_bind_ok in E as (b & -> & E). cbn [outcome_bind]. now rewrite eval_equal_sym.
Qed.

Lemma hash_join_refines t n : equijoin_ok n t -> refines t n (hash_join n).
Proof.
  destruct n as [| | | | | |l r [[]|] outer| | | | | | |]; try reflexivity.
  destruct lhs, rhs; try reflexivity. cbn [equijoin_ok hash_join].
  intros ([Hmin Hmax] & Hu & dt & Hty). rewrite usize_sub_exact by assumption.
  apply refines_local; [reflexivity|]. intros Hk rows Hy. cbn [clean] in Hk. destruct Hk as (_ & Hl & Hr).
  split; [exact I|]. split; [exact I|]. split; [cbn [sources]; auto|].
  apply clean_here in Hl as (_ & (ls & Hls & Hwl) & _). apply clean_here in Hr as (_ & (rs & Hrs & _) & _).
  destruct (Hty ls rs Hls Hrs) as [Tl Tr]. unfold yields in *. cbn [execute_node] in *. rewrite Hls, Hrs in *.
  cbn [outcome_bind] in *. injection Hy as Hy.
  rewrite (hash_join_nested_loop dt _ _ (node_columns l)); [|apply Forall_and; now split | exact Tr]. f_equal.
  replace (node_columns l + (Nat.max i i0 - node_columns l))%nat with (Nat.max i i0) by lia.
  destruct (Nat.le_gt_cases i i0) as [Hle|Hgt].
  - now rewrite Nat.min_l, Nat.max_r by lia.
  - rewrite Nat.min_r, Nat.max_l by lia. eapply nested_loop_mono; [apply equal_erefines_sym | exact Hy].
Qed.

Lemma equijoins_ok_sources n t : equijoins_ok n t -> equijoin_ok n t /\ Forall (fun s => equijoins_ok s t) (sources n).
Proof. destruct n; cbn [equijoins_ok sources]; rewrite ?Forall_cons, ?Forall_nil; tauto. Qed.

Lemma sources_hash_join n : sources (hash_join n) = sources n.
Proof. destruct n as [| | | | | |l r [[]|] outer| | | | | | |]; try reflexivity. now destruct lhs, rhs. Qed.

Lemma hash_joins_refines t n n' : equijoins_ok n t -> hash_joins n = Ok n' -> refines t n n'.
Proof.
  apply (node_transform_before t (fun n => equijoins_ok n t)). intros x x' [Hx Hs]%equijoins_ok_sources [= <-].
  split; [now apply hash_join_refines | now rewrite sources_hash_join].
Qed.

(** ** Short circuits *)

(** The node is no outer join. *)
Definition inner_node (n : Node) : Prop :=
  match n with
  | NHashJoin _ _ _ _ outer | NNestedLoopJoin _ _ _ outer => outer = false
  | _ => True
  end.
Fixpoint inner_only (n : Node) : Prop :=
  inner_node n /\
  match n with
  | NAggregate s _ _ | NFilter s _ | NLimit s _ | NOffset s _ | NOrder s _ | NProjection s _ _
  | NRemap s _ => inner_only s
  | NHashJoin l _ r _ _ | NNestedLoopJoin l r _ _ => inner_only l /\ inner_only r
  | NIndexLookup _ _ _ _ | NKeyLookup _ _ _ | NNothing _ | NScan _ _ _ | NValues _ => True
  end.

Lemma inner_only_sources n : inner_only n -> inner_node n /\ Forall inner_only (sources n).
Proof. destruct n; cbn [inner_only sources]; rewrite ?Forall_cons, ?Forall_nil; tauto. Qed.

Lemma always_true_holds msg p row : always_true p = true -> predicate_holds msg p row = Ok true.
Proof. destruct p as [[|[]| | |]| | | | | | | | | | | | | | | | | | |]; try discriminate. reflexivity. Qed.
Lemma never_true_holds msg p row : never_true p = true -> predicate_holds msg p row = Ok false.
Proof. destruct p as [[|[]| | |]| | | | | | | | | | | | | | | | | | |]; try discriminate; reflexivity. Qed.

Lemma filter_rows_true p rs : always_true p = true -> filter_rows p (map Ok rs) = map Ok rs.
Proof. intros Hp. induction rs as [|r rs IH]; [reflexivity|]. cbn [map filter_rows]. now rewrite always_true_holds, IH. Qed.
Lemma filter_rows_false p rs : never_true p = true -> filter_rows p (map Ok rs) = [].
Proof. intros Hp. induction rs as [|r rs IH]; [reflexivity|]. cbn [map filter_rows]. now rewrite never_true_holds. Qed.

Lemma map_columns_seq (row : Row) : forall k es,
  Forall2 (fun i e => e = Column i) (seq k (length es)) es ->
  forall pre, length pre = k -> length row = length es ->
  try_collect (map (evaluate (Some (pre ++ row))) es) = Ok row.
Proof.
  induction row as [|v row IH]; intros k [|e es] Hes pre Hp Hl; try discriminate; [reflexivity|].
  cbn [length seq] in Hes. inversion Hes as [|? ? ? ? He Hes']; subst.
  cbn [map try_collect]. rewrite (evaluate_column _ _ v) by now rewrite list_lookup_middle.
  cbn [outcome_bind]. replace (pre ++ v :: row) with ((pre ++ [v]) ++ row) by now rewrite <- app_assoc.
  rewrite (IH (S (length pre)) es Hes') by (rewrite ?length_app; cbn in *; lia). reflexivity.
Qed.

Lemma noop_projection_columns s es al :
  noop_projection s es al = true ->
  node_columns s = length es /\ Forall2 (fun i e => e = Column i) (seq 0 (length es)) es.
Proof.
  unfold noop_projection. rewrite !andb_true_iff, Nat.eqb_eq. intros [[Hc _] He]. split; [exact Hc|].
  clear Hc. generalize dependent 0%nat. induction es as [|e es IH]; intros k He; cbn [length seq] in *; [constructor|].
  cbn [zip zip_with forallb] in He. apply andb_true_iff in He as [E He].
  apply bool_decide_eq_true in E. constructor; [exact E | apply IH, He].
Qed.

Lemma simplify_node_refines t n : refines t n (simplify_node n).
Proof.
  destruct n as [|s p| | | | |l r [p|] o| | | |s es al| |tb [f|] al|]; cbn [simplify_node]; try reflexivity.
  - destruct (always_true p) eqn:Hp; [|reflexivity]. split; [reflexivity | now intros [_ ?]|].
    intros [_ Hk]. destruct (clean_yields _ _ Hk) as [rs Hrs]. cbn [execute_node]. rewrite Hrs. cbn [outcome_bind].
    now rewrite filter_rows_true.
  - destruct (always_true p) eqn:Hp; [|reflexivity]. apply refines_local; [reflexivity|].
    intros Hk rows Hy. cbn [clean] in Hk. destruct Hk as (_ & Hl & Hr).
    split; [exact I|]. split; [exact I|]. split; [cbn [sources]; auto|].
    destruct (clean_yields _ _ Hl) as [ls Hls]. destruct (clean_yields _ _ Hr) as [rs Hrs].
    unfold yields in *. cbn [execute_node] in *. rewrite Hls, Hrs in *. cbn [outcome_bind] in *. rewrite <- Hy. f_equal.
    rewrite !(nested_loop_left_join _ (fun _ _ => true)); [reflexivity | |].
    + intros ? ? _ _. now apply always_true_holds.
    + intros ? ? _ _. reflexivity.
  - destruct (noop_projection s es al) eqn:Hp; [|reflexivity]. apply noop_projection_columns in Hp as [Hc He].
    split; [exact Hc | now intros [_ ?]|]. intros [_ Hk]. apply clean_here in Hk as (_ & (rs & Hrs & Hw) & _).
    cbn [execute_node]. rewrite Hrs. cbn [outcome_bind]. f_equal. rewrite map_map. apply map_ext_in. intros row Hr.
    cbn [outcome_bind]. symmetry. apply (map_columns_seq row 0 es He []); [reflexivity|].
    rewrite <- Hc. apply (proj1 (List.Forall_forall _ _) Hw _ Hr).
  - destruct (always_true f) eqn:Hp; [|reflexivity]. apply refines_local; [reflexivity|].
    intros Hk rows Hy. cbn [clean] in Hk. destruct Hk as ((_ & _ & Hs) & _).
    split; [exact I|]. split; [exact Hs|]. split; [constructor|]. destruct Hs as (rs & Hrs & _).
    unfold yields in *. cbn [execute_node] in *. rewrite (scan_filter _ f _ _ Hrs), filter_rows_true in Hy by exact Hp.
    congruence.
Qed.

Lemma is_nothing_rows n t : is_nothing n = true -> execute_node n t = Ok [].
Proof. now destruct n. Qed.

Lemma hash_items_no_right lc n ls rows :
  (map Ok ls ≫= hash_item lc [] n false) = map Ok rows -> rows = [].
Proof.
  revert rows. induction ls as [|l ls IH]; intros rows; [now destruct rows|].
  cbn [map mbind list_bind hash_item]. destruct (row_index l lc) as [v| |]; cbn [hmap_get app].
  - apply IH.
  - now destruct rows.
  - now destruct rows.
Qed.

Lemma hash_join_no_right lc ls rc n rows :
  hash_join_rows (map Ok ls) lc [] rc n false = Ok (map Ok rows) -> rows = [].
Proof.
  unfold hash_join_rows, hash_joiner_new. cbn [hash_build outcome_bind].
  rewrite hash_drain; cbn [hj_right hj_pending hj_left hj_left_column hj_right_columns hj_outer app].
  - intros [= E]. now apply hash_items_no_right in E.
  - discriminate.
  - pose proof (hash_items_length lc [] 0 false n (map Ok ls)) as Hl. unfold nl_fuel. cbn [length].
    assert (length (map Ok ls ≫= hash_item lc [] n false) <= length (map Ok ls) * (0 + 1))%nat; [|lia].
    apply Hl. discriminate.
Qed.

Lemma nested_loop_no_match p ls rs n :
  match p with Some p => never_true p = true | None => rs = [] end \/ ls = [] \/ rs = [] ->
  nested_loop_rows (map Ok ls) (map Ok rs) n p false = [].
Proof.
  intros Hp. assert (left_join (fun _ _ => false) n false ls rs = []) as Hj.
  { unfold left_join. assert (List.filter (fun _ => false) rs = []) as -> by (clear; now induction rs).
    clear. now induction ls. }
  rewrite (nested_loop_left_join _ (fun _ _ => false)); [now rewrite Hj|]. intros l r Il Ir.
  destruct Hp as [Hp|[->| ->]]; [|contradiction..].
  destruct p; [now apply never_true_holds | subst; contradiction].
Qed.

Lemma node_is_empty_rows t n rows :
  inner_node n -> clean n t -> node_is_empty n = true -> yields n t rows -> rows = [].
Proof.
  unfold yields. intros Hi Hk He Hy.
  destruct n as [|s p|l lc r rc o| | | |l r p o|cs|s k|s key|s es al| |tb f al|vs];
    cbn [node_is_empty execute_node clean inner_node] in *; try discriminate.
  - destruct Hk as [_ Hk]. destruct (clean_yields _ _ Hk) as [rs Hrs]. rewrite Hrs in Hy. cbn [outcome_bind] in Hy.
    injection Hy as Hy. apply orb_true_iff in He as [Hp|Hn].
    + rewrite filter_rows_false in Hy by exact Hp. now destruct rows.
    + rewrite (is_nothing_rows _ _ Hn) in Hrs. destruct rs; [|discriminate]. now destruct rows.
  - destruct Hk as (_ & Hl & Hr). subst o. destruct (clean_yields _ _ Hl) as [ls Hls].
    destruct (clean_yields _ _ Hr) as [rs Hrs]. rewrite Hls, Hrs in Hy. cbn [outcome_bind] in Hy.
    apply orb_true_iff in He as [Hn|Hn]; [rewrite (is_nothing_rows _ _ Hn) in Hls; destruct ls; [|discriminate]
                                         |rewrite (is_nothing_rows _ _ Hn) in Hrs; destruct rs; [|discriminate]].
    + unfold hash_join_rows, hash_joiner_new in Hy. apply outcome_bind_ok in Hy as (j & Ej & [= Hy]).
      apply outcome_bind_ok in Ej as (m & _ & [= <-]). now destruct rows.
    + now apply hash_join_no_right in Hy.
  - apply bool_decide_eq_true in He as ->. destruct (columns table !! column); [|discriminate].
    rewrite lookup_index_nil in Hy. cbn [outcome_bind] in Hy. rewrite get_nil in Hy. now destruct rows.
  - apply bool_decide_eq_true in He as ->. rewrite get_nil in Hy. now destruct rows.
  - apply Nat.eqb_eq in He as ->. apply outcome_bind_ok in Hy as (rs & _ & [= Hy]). now destruct rows.
  - destruct Hk as (_ & Hl & Hr). subst o. destruct (clean_yields _ _ Hl) as [ls Hls].
    destruct (clean_yields _ _ Hr) as [rs Hrs]. rewrite Hls, Hrs in Hy. cbn [outcome_bind] in Hy.
    injection Hy as Hy. rewrite nested_loop_no_match in Hy; [now destruct rows|].
    apply orb_true_iff in He as [[Hp|Hn]%orb_true_iff|Hn].
    + left. now destruct p.
    + right; left. rewrite (is_nothing_rows _ _ Hn) in Hls. now destruct ls.
    + right; right. rewrite (is_nothing_rows _ _ Hn) in Hrs. now destruct rs.
  - rewrite (is_nothing_rows _ _ He) in Hy. cbn [outcome_bind] in Hy. rewrite drop_nil in Hy. now destruct rows.
  - rewrite (is_nothing_rows _ _ He) in Hy. now destruct rows.
  - rewrite (is_nothing_rows _ _ He) in Hy. now destruct rows.
  - destruct Hk as ((_ & _ & (rs & Hrs & _)) & _). destruct f as [f|]; [|discriminate].
    rewrite (scan_filter _ f _ _ Hrs), filter_rows_false in Hy by exact He. now destruct rows.
  - apply bool_decide_eq_true in He as ->. now destruct rows.
Qed.

Lemma try_collect_length {A} (l : list (outcome A)) r : try_collect l = Ok r -> length r = length l.
Proof. intros ->%try_collect_ok_inv. now rewrite length_map. Qed.

Lemma empty_refines t n labels :
  inner_node n -> node_is_empty n = true ->
  try_collect (map (column_label n) (seq 0 (node_columns n))) = Ok labels -> refines t n (NNothing labels).
Proof.
  intros Hi He E. apply try_collect_length in E. rewrite length_map, length_seq in E.
  apply refines_local; [exact E|]. intros Hk rows Hy. split; [exact I|]. split; [exact I|]. split; [constructor|].
  now rewrite (node_is_empty_rows t n rows Hi Hk He Hy).
Qed.

Lemma simplify_node_inner n : inner_only n -> inner_only (simplify_node n).
Proof.
  intros Hn. destruct (inner_only_sources n Hn) as [Hi Hs].
  destruct n as [|s p| | | | |l r [p|] o| | | |s es al| |tb [f|] al|]; cbn [simplify_node] in *; try exact Hn;
    case_match; try exact Hn; cbn [sources] in Hs; rewrite ?Forall_cons in Hs; cbn [inner_only inner_node] in *; tauto.
Qed.

Lemma short_circuit_refines t n n' :
  inner_only n -> short_circuit n = Ok n' -> refines t n n' /\ inner_only n'.
Proof.
  unfold short_circuit. intros Hn%simplify_node_inner E.
  destruct (node_is_empty (simplify_node n)) eqn:He.
  - apply outcome_bind_ok in E as (labels & El & [= <-]). split; [|now split].
    etransitivity; [apply simplify_node_refines|]. apply empty_refines; [|exact He | exact El].
    apply inner_only_sources, Hn.
  - injection E as <-. split; [apply simplify_node_refines | exact Hn].
Qed.

Lemma inner_only_map_sources f n n1 :
  inner_only n -> map_sources f n = Ok n1 ->
  Forall (fun s => forall s', f s = Ok s' -> inner_only s') (sources n) -> inner_only n1.
Proof.
  destruct n; cbn [map_sources sources]; rewrite ?Forall_cons; intros Hn E Hs;
    repeat match goal with
    | E : outcome_bind ?o _ = Ok _ |- _ => destruct o eqn:?; cbn [outcome_bind] in E; [|discriminate E ..]
    end; injection E as <-; cbn [inner_only inner_node] in *; decompose [and] Hs; intuition auto.
Qed.

Lemma short_circuits_refines t n n' : inner_only n -> short_circuits n = Ok n' -> refines t n n'.
Proof.
  intros Hn E. eapply (node_transform_after t inner_only short_circuit) in E as [R _]; [exact R| | | |exact Hn].
  - intros x Hx. now apply inner_only_sources.
  - apply inner_only_map_sources.
  - apply short_circuit_refines.
Qed.

(** ** The optimizers return *)
Lemma node_size_pos n : (1 <= node_size n)%nat.
Proof. destruct n; cbn [node_size]; lia. Qed.

Lemma map_sources_total f n :
  Forall (fun s => exists s', f s = Ok s') (sources n) -> exists n', map_sources f n = Ok n'.
Proof.
  destruct n; cbn [sources map_sources]; rewrite ?Forall_cons; intros Hs; decompose [and ex] Hs; clear Hs;
    repeat match goal with E : f _ = Ok _ |- _ => rewrite E; clear E; cbn [outcome_bind] end; eauto.
Qed.

Lemma sources_smaller n : Forall (fun s => (node_size s < node_size n)%nat) (sources n).
Proof. destruct n; cbn [sources node_size]; rewrite ?Forall_cons, ?Forall_nil; repeat split; lia. Qed.

Lemma node_size_hash_join n : node_size (hash_join n) = node_size n.
Proof. destruct n as [| | | | | |l r [[]|] outer| | | | | | |]; try reflexivity. now destruct lhs, rhs. Qed.

Lemma hash_joins_total n : exists n', hash_joins n = Ok n'.
Proof.
  unfold hash_joins. generalize (Nat.le_refl (node_size n)). generalize (node_size n) at 2 3 as fuel.
  intros fuel. revert n. induction fuel as [|fuel IH]; intros n Hf; [pose proof (node_size_pos n); lia|].
  cbn [node_transform outcome_bind]. destruct (map_sources_total (node_transform fuel (fun n => Ok (hash_join n)) Ok) (hash_join n)) as [n' ->].
  - eapply Forall_impl; [apply sources_smaller|]. intros s Hs. rewrite node_size_hash_join in Hs. apply IH. lia.
  - cbn [outcome_bind]. eauto.
Qed.

Lemma short_circuit_total t n : clean n t -> exists n', short_circuit n = Ok n'.
Proof.
  intros Hk. apply (refines_clean _ _ _ (simplify_node_refines t n)) in Hk. unfold short_circuit.
  destruct (node_is_empty _); [|eauto]. pose proof (clean_labelled t _ Hk) as Hl.
  assert (exists ls, try_collect (map (column_label (simplify_node n)) (seq 0 (node_columns (simplify_node n)))) = Ok ls) as [ls ->];
    [|cbn; eauto].
  assert (Forall (fun i => exists l, column_label (simplify_node n) i = Ok l) (seq 0 (node_columns (simplify_node n)))) as Hf.
  { apply List.Forall_forall. intros i Hi%in_seq. apply Hl. lia. }
  revert Hf. generalize (seq 0 (node_columns (simplify_node n))) as ks. induction 1 as [|i ks [l E] Hks [ls IH]]; cbn; [eauto|].
  rewrite E, IH. cbn. eauto.
Qed.

Lemma short_circuits_total t n : clean n t -> inner_only n -> exists n', short_circuits n = Ok n'.
Proof.
  unfold short_circuits. generalize (Nat.le_refl (node_size n)). generalize (node_size n) at 2 3 as fuel.
  intros fuel. revert n. induction fuel as [|fuel IH]; intros n Hf Hk Hi; [pose proof (node_size_pos n); lia|].
  cbn [node_transform outcome_bind].
  destruct (map_sources_total (node_transform fuel Ok short_circuit) n) as [n1 E1].
  - apply clean_sources in Hk as [_ Hk]. apply inner_only_sources in Hi as [_ Hi].
    pose proof (sources_smaller n) as Hs. rewrite List.Forall_forall in *. intros s Is.
    apply IH; [specialize (Hs s Is); lia | auto | auto].
  - rewrite E1. cbn [outcome_bind]. apply (short_circuit_total t).
    apply (refines_clean t n n1); [|exact Hk]. apply sources_refined_refines.
    apply (map_sources_refined t (node_transform fuel Ok short_circuit)); [exact E1|].
    apply inner_only_sources in Hi as [_ Hi]. eapply Forall_impl; [exact Hi|]. intros s Is s' Es.
    eapply (node_transform_after t inner_only short_circuit) in Es as [R _]; [exact R| | | |exact Is].
    + intros x Hx. now apply inner_only_sources.
    + apply inner_only_map_sources.
    + apply short_circuit_refines.
Qed.
End Opt.

(** C28: The optimizers preserve query results.  On a plan that runs without
    errors, the plan with its constant expressions folded yields the same rows;
    rewriting equijoins to hash joins succeeds and yields the same rows, if the
    columns of each equijoin are on either side of the join and hold one type;
    and short-circuiting succeeds and yields the same rows, if the plan has no
    outer joins. *)
Theorem sql_plan_optimizers `{TransactionSpec T} (t : T) n rows :
  clean n t -> yields n t rows ->
  (forall n', constant_folding n = Ok n' -> yields n' t rows) /\
  (equijoins_ok n t -> exists n', hash_joins n = Ok n' /\ yields n' t rows) /\
  (inner_only n -> exists n', short_circuits n = Ok n' /\ yields n' t rows).
Proof.
  intros Hk Hy. unfold yields in *. split; [|split].
  - intros n' E. now rewrite (refines_rows t n n' (constant_folding_refines t n n' E) Hk).
  - intros Hj. destruct (hash_joins_total n) as [n' E]. exists n'. split; [exact E|].
    now rewrite (refines_rows t n n' (hash_joins_refines t n n' Hj E) Hk).
  - intros Hi. destruct (short_circuits_total t n Hk Hi) as [n' E]. exists n'. split; [exact E|].
    now rewrite (refines_rows t n n' (short_circuits_refines t n n' Hi E) Hk).
Qed.

(** ** Samples *)
Module OptSample.
Import SqlSample.

(** A database of one table, keyed by its first column. *)
#[export] Instance table_sample : Transaction (list Row) := {
  txn_delete _ ids := st_modify (List.filter (fun r : Row => negb (bool_decide (Exists (fun id => r !! 0%nat = Some id) ids))));
  txn_get _ ids t := Ok (ids ≫= fun id => List.filter (fun r : Row => bool_decide (r !! 0%nat = Some id)) t);
  txn_insert _ rows := st_modify (fun t => t ++ rows);
  txn_lookup_index _ _ values t := Ok (List.filter (fun v => bool_decide (v ∈ values)) (omap head t));
  txn_scan _ filter t :=
    Ok (match filter with Some f => filter_rows f (map Ok t) | None => map Ok t end);
  txn_update _ _ := st_ret tt;
  create_table _ := st_ret tt;
  drop_table _ _ := st_ret true;
  get_table _ _ := Ok None;
  list_tables _ := Ok [];
}.

#[export] Instance table_sample_spec : TransactionSpec (list Row).
Proof.
  split.
  - intros table f t rows [= <-]. reflexivity.
  - reflexivity.
  - intros table column t. cbn. f_equal. induction (omap head t) as [|v l IH]; [reflexivity|].
    cbn [List.filter]. rewrite bool_decide_false by apply not_elem_of_nil. exact IH.
Qed.

Definition id_column : Column_ := mkColumn [x69; x64] TInteger false None true false None.
Definition name_column : Column_ := mkColumn [x6e] TString true (Some Null) false false None.
Definition table1 : Table := mkTable [x74] 0 [id_column; name_column].
Definition db1 : list Row := [[Integer 1; String [x61]]; [Integer 2; Null]].

(** [SELECT * FROM t JOIN (VALUES (2), (3)) ON t.id = #2 WHERE 1 = 1] *)
Definition values1 : Node := NValues [[Constant (Integer 2)]; [Constant (Integer 3)]].
Definition plan1 : Node :=
  NFilter (NNestedLoopJoin (NScan table1 None None) values1 (Some (Equal (Column 2) (Column 0))) false)
    (Equal (Constant (Integer 1)) (Constant (Integer 1))).

Lemma clean_plan1 : clean plan1 db1.
Proof.
  assert (forall n (rows : list Row), yields n db1 rows ->
            Forall (fun r => length r = node_columns n) rows ->
            exists rows : list Row, yields n db1 rows /\ Forall (fun r => length r = node_columns n) rows) as Hex by eauto.
  cbn [clean plan1 values1]. unfold clean_node.
  split; [|split; [|split]].
  - split; [exact I|]. split; [|exact I]. apply (Hex _ [[Integer 2; Null; Integer 2]]); [vm_compute; reflexivity|].
    repeat constructor.
  - split; [exact I|]. split; [|exact I]. apply (Hex _ [[Integer 2; Null; Integer 2]]); [vm_compute; reflexivity|].
    repeat constructor.
  - split; [|exact I]. split; [exact I|]. split.
    + apply (Hex _ db1); [vm_compute; reflexivity | repeat constructor].
    + exists db1. split; [reflexivity | repeat constructor].
  - split; [|exact I]. split; [exact I|]. split; [|exact I].
    apply (Hex _ [[Integer 2]; [Integer 3]]); [vm_compute; reflexivity | repeat constructor].
Qed.

Lemma equijoins_plan1 : equijoins_ok plan1 db1.
Proof.
  cbn [equijoins_ok plan1 values1]. split; [exact I|]. split; [|split; (split; [exact I | exact I])].
  cbn [equijoin_ok]. split; [cbn; lia|]. split; [unfold is_u64, u64_max; cbn; lia|].
  exists TInteger. intros ls rs Hl Hr.
  assert (ls = db1) as ->. { apply map_ok_inj. now injection Hl. }
  assert (rs = [[Integer 2]; [Integer 3]]) as ->. { apply map_ok_inj. now injection Hr. }
  assert (forall i, is_i64 i -> in_column TInteger (Integer i)) as Hi by (intros; split; cbn; auto).
  split; repeat apply Forall_cons_2; try apply Forall_nil_2;
    (eexists; split; [reflexivity | apply Hi; unfold is_i64, i64_min, i64_max; lia]).
Qed.

Lemma sql_plan_optimizers_witness :
  clean plan1 db1 /\ yields plan1 db1 [[Integer 2; Null; Integer 2]] /\
  (forall n', constant_folding plan1 = Ok n' -> yields n' db1 [[Integer 2; Null; Integer 2]]) /\
  (exists n', hash_joins plan1 = Ok n' /\ yields n' db1 [[Integer 2; Null; Integer 2]]) /\
  (exists n', short_circuits plan1 = Ok n' /\ yields n' db1 [[Integer 2; Null; Integer 2]]).
Proof.
  pose proof clean_plan1 as Hk. assert (yields plan1 db1 [[Integer 2; Null; Integer 2]]) as Hy by (vm_compute; reflexivity).
  split; [exact Hk|]. split; [exact Hy|].
  destruct (sql_plan_optimizers db1 plan1 [[Integer 2; Null; Integer 2]] Hk Hy) as (H1 & H2 & H3).
  split; [exact H1|]. split; [apply H2, equijoins_plan1 | apply H3; repeat split].
Defined.

(** All optimizers together on the sample. *)
Example optimize_plan1 : exists n', optimize_node plan1 = Ok n' /\ yields n' db1 [[Integer 2; Null; Integer 2]].
Proof. eexists. split; [vm_compute; reflexivity | vm_compute; reflexivity]. Qed.

(** ** Outer joins: the optimizers are not sound for them *)
Definition one : Node := NValues [[Constant (Integer 1)]].

(** [1 LEFT JOIN nothing]: the outer row is lost. *)
Definition left_join_nothing : Node := NNestedLoopJoin one (NFilter one (Constant (Boolean false))) None true.
Lemma short_circuit_loses_outer_rows :
  yields left_join_nothing db1 [[Integer 1; Null]] /\
  exists n', short_circuits left_join_nothing = Ok n' /\ yields n' db1 [].
Proof. split; [vm_compute; reflexivity|]. eexists. split; [vm_compute; reflexivity | vm_compute; reflexivity]. Qed.

(** [1 LEFT JOIN 1 ON #0 = #1 WHERE #1 IS NULL]: the condition becomes part of
    the join predicate and an outer row appears. *)
Definition left_join_filter : Node :=
  NFilter (NNestedLoopJoin one one (Some (Equal (Column 0) (Column 1))) true) (Is (Column 1) Null).
Lemma filter_pushdown_adds_outer_rows :
  yields left_join_filter db1 [] /\
  exists n', filter_pushdown left_join_filter = Ok n' /\ yields n' db1 [[Integer 1; Null]].
Proof. split; [vm_compute; reflexivity|]. eexists. split; [vm_compute; reflexivity | vm_compute; reflexivity]. Qed.

(** A join predicate on two columns of the left source that could not be pushed
    down (here into the remap of a RIGHT JOIN) becomes a hash join on a column
    that does not exist. *)
Definition left_equality : Node :=
  NNestedLoopJoin (NRemap (NValues [[Constant (Integer 1); Constant (Integer 1)]]) [Some 0%nat; Some 1%nat]) one (Some (Equal (Column 0) (Column 1))) false.
Lemma hash_join_wrong_side :
  yields left_equality db1 [[Integer 1; Integer 1; Integer 1]] /\
  exists n', filter_pushdown left_equality = Ok left_equality /\ hash_joins left_equality = Ok n' /\
    execute_node n' db1 = Panic "index out of bounds".
Proof.
  split; [vm_compute; reflexivity|]. eexists. split; [vm_compute; reflexivity|]. split; [reflexivity|].
  match goal with |- execute_node (NHashJoin _ _ _ ?k _) _ = _ => assert (1 <= k)%nat as Hk by (apply (Z2Nat.inj_le 1); vm_compute; discriminate);
    generalize dependent k end.
  intros k Hk. cbn [execute_node hash_join one map outcome_bind evaluate try_collect remap_loop remap_size foldr].
  unfold hash_join_rows, hash_joiner_new. cbn [hash_build outcome_bind]. unfold row_index.
  now rewrite lookup_ge_None_2 by (cbn; lia).
Qed.

(** A hash join of an integer and a float column misses equal values: the hash
    of a value includes its type. *)
Definition mixed_join : Node :=
  NNestedLoopJoin one (NValues [[Constant (Float (f64_of_i64 1))]]) (Some (Equal (Column 0) (Column 1))) false.
Lemma hash_join_mixed_types :
  yields mixed_join db1 [[Integer 1; Float (f64_of_i64 1)]] /\
  exists n', hash_joins mixed_join = Ok n' /\ yields n' db1 [].
Proof. split; [vm_compute; reflexivity|]. eexists. split; [vm_compute; reflexivity | vm_compute; reflexivity]. Qed.

(** [id = 1 OR id = 1] becomes a lookup of two equal keys: the row is returned
    twice. *)
Definition duplicate_lookup : Node :=
  NScan table1 (Some (Or (Equal (Column 0) (Constant (Integer 1))) (Equal (Column 0) (Constant (Integer 1))))) None.
Lemma key_lookup_duplicates_rows :
  yields duplicate_lookup db1 [[Integer 1; String [x61]]] /\
  exists n', index_lookups duplicate_lookup = Ok n' /\
    yields n' db1 [[Integer 1; String [x61]]; [Integer 1; String [x61]]].
Proof. split; [vm_compute; reflexivity|]. eexists. split; [vm_compute; reflexivity | vm_compute; reflexivity]. Qed.

End OptSample.
