(* ===== verification/SqlPushdown.v ===== *)
(** * Filter pushdown: what a join predicate is split into

    For a pair of rows, a join predicate is true exactly if the filters pushed
    into the two sources and the remaining join predicate are; so an inner join
    has the same rows before and after. *)
From S2P Require Import Prelude Bytes Float64 SqlValue KeycodeTheory SqlValueTheory SqlExpr SqlExprTheory SqlPlan SqlExec SqlJoinTheory SqlOptimizer SqlOptTheory.

(** ** References *)
Definition refs_left (w : nat) (e : Expression) : bool := existsb (fun i => (i <? w)%nat) (columns_of e).
Definition refs_right (w : nat) (e : Expression) : bool := existsb (fun i => (w <=? i)%nat) (columns_of e).

Definition refs_visitor (w : nat) (e : Expression) (refs : bool * bool) : bool * (bool * bool) :=
  let refs := match e with
              | Column i => (refs.1 || (i <? w)%nat, refs.2 || (w <=? i)%nat)
              | _ => refs
              end in
  (negb (refs.1 && refs.2), refs).

(** The walk stops as soon as both sides are referenced. *)
Lemma walk_refs w e : forall s, s.1 && s.2 = false ->
  let res := walk (refs_visitor w) e s in
  res.1 = negb ((s.1 || refs_left w e) && (s.2 || refs_right w e)) /\
  (res.1 = true -> res.2 = (s.1 || refs_left w e, s.2 || refs_right w e)) /\
  (res.1 = false -> res.2 = (true, true)).
Proof.
  unfold refs_left, refs_right.
  induction e; intros [a b] Hs; cbn [walk refs_visitor columns_of existsb fst snd] in *; rewrite ?orb_false_r.
  1: { rewrite Hs. now cbn. }
  1: { destruct a, b, (i <? w)%nat, (w <=? i)%nat; cbn in *; try discriminate; repeat split; congruence. }
  all: rewrite Hs; cbn [negb].
  all: try (match goal with IH : forall s, _ -> _ |- _ => exact (IH (a, b) Hs) end).
  all: rewrite !existsb_app; specialize (IHe1 (a, b) Hs); cbn [fst snd] in IHe1;
    destruct (walk (refs_visitor w) e1 (a, b)) as [g1 [a1 b1]]; cbn [fst snd] in *;
    destruct IHe1 as (E1 & T1 & F1); destruct g1;
    [ injection (T1 eq_refl) as -> ->; symmetry in E1; apply negb_true_iff in E1;
      specialize (IHe2 (_, _) E1); cbn [fst snd] in IHe2; rewrite <- !orb_assoc in IHe2; exact IHe2
    | injection (F1 eq_refl) as -> ->; symmetry in E1; apply negb_false_iff, andb_true_iff in E1 as [E1 E2];
      rewrite !orb_assoc, E1, E2; cbn; auto ].
Qed.

Lemma source_refs_eq w e : source_refs w e = (refs_left w e, refs_right w e).
Proof.
  unfold source_refs. fold (refs_visitor w). change (walk _ e (false, false)) with (walk (refs_visitor w) e (false, false)).
  pose proof (walk_refs w e (false, false) eq_refl) as Hw. cbn [fst snd orb] in Hw.
  destruct (walk (refs_visitor w) e (false, false)) as [g s]. cbn [fst snd] in *. destruct Hw as (E & Ht & Hf).
  destruct g; [now apply Ht|]. rewrite (Hf eq_refl). symmetry in E. apply negb_false_iff, andb_true_iff in E as [-> ->].
  reflexivity.
Qed.

Lemma refs_left_false w e : refs_left w e = false <-> Forall (fun i => (w <= i)%nat) (columns_of e).
Proof.
  unfold refs_left. induction (columns_of e) as [|i l IH]; cbn [existsb]; rewrite ?Forall_cons, ?Forall_nil; [tauto|].
  rewrite orb_false_iff, IH, Nat.ltb_ge. tauto.
Qed.
Lemma refs_right_false w e : refs_right w e = false <-> Forall (fun i => (i < w)%nat) (columns_of e).
Proof.
  unfold refs_right. induction (columns_of e) as [|i l IH]; cbn [existsb]; rewrite ?Forall_cons, ?Forall_nil; [tauto|].
  rewrite orb_false_iff, IH, Nat.leb_gt. tauto.
Qed.

(** ** The split of the conjuncts *)
Definition split_of (w : nat) (cs : list Expression) : list Expression * list Expression * list Expression :=
  (List.filter (fun e => negb (refs_right w e)) cs, List.filter (fun e => negb (refs_left w e)) cs,
   List.filter (fun e => refs_left w e && refs_right w e) cs).

Lemma split_conjuncts_eq w cs : foldl (split_conjunct w) ([], [], []) cs = split_of w cs.
Proof.
  assert (forall a b c, foldl (split_conjunct w) (a, b, c) cs
    = let '(x, y, z) := split_of w cs in (a ++ x, b ++ y, c ++ z)) as Hg; [|now rewrite Hg].
  induction cs as [|e cs IH]; intros a b c; cbn [foldl]; [unfold split_of; cbn; now rewrite !app_nil_r|].
  cbn [split_conjunct]. rewrite source_refs_eq.
  unfold split_of. cbn [List.filter].
  destruct (refs_left w e), (refs_right w e); cbn [negb andb]; rewrite IH; unfold split_of; now rewrite <- ?app_assoc.
Qed.

(** ** Columns of the conjuncts *)
Lemma transform_columns before after :
  (forall e e', before e = Ok e' -> incl (columns_of e') (columns_of e)) ->
  (forall e e', after e = Ok e' -> incl (columns_of e') (columns_of e)) ->
  forall fuel e e', transform fuel before after e = Ok e' -> incl (columns_of e') (columns_of e).
Proof.
  intros Hb Ha. induction fuel as [|fuel IH]; intros e e' E; [discriminate|]. cbn [transform] in E.
  apply outcome_bind_ok in E as (e1 & E1 & E). apply outcome_bind_ok in E as (e2 & E2 & E).
  apply map_children_columns in E2; [|exact IH]. eauto using incl_tran.
Qed.

Lemma nnf_xform_columns e : incl (columns_of (nnf_xform e)) (columns_of e).
Proof.
  destruct e as [| | | |x| | | | | | | | | | | | | | |]; try apply incl_refl. destruct x; apply incl_refl.
Qed.
Lemma cnf_xform_columns e : incl (columns_of (cnf_xform e)) (columns_of e).
Proof.
  destruct (cnf_xform_cases e) as [->|[(l & r & rhs & -> & ->)|(lhs & l & r & -> & ->)]];
    [apply incl_refl | |]; intros i; cbn [columns_of]; rewrite !in_app_iff; tauto.
Qed.

Lemma into_cnf_columns e c : into_cnf e = Ok c -> incl (columns_of c) (columns_of e).
Proof.
  unfold into_cnf, into_nnf. intros E. apply outcome_bind_ok in E as (n & En & E).
  apply (incl_tran (m := columns_of n)).
  - eapply transform_columns; [| |exact E].
    + intros x x' [= <-]. apply cnf_xform_columns.
    + intros x x' [= <-]. apply incl_refl.
  - eapply transform_columns; [| |exact En].
    + intros x x' [= <-]. apply nnf_xform_columns.
    + intros x x' [= <-]. apply incl_refl.
Qed.

Lemma conjuncts_columns e x : In x (conjuncts e) -> incl (columns_of x) (columns_of e).
Proof.
  induction e; cbn [conjuncts In]; try (intros [<-|[]]; apply incl_refl).
  rewrite in_app_iff. intros [Hx|Hx]; cbn [columns_of]; auto using incl_appl, incl_appr.
Qed.

(** ** Truth on a row *)
Section Truth.
Context `{F64Pow, Regex}.

Definition true_on (row : Row) (e : Expression) : Prop := evaluate (Some row) e = Ok (Boolean true).
Definition all_true (row : Row) (es : list Expression) : Prop := Forall (true_on row) es.
(** A missing filter holds. *)
Definition holds (row : Row) (e : option Expression) : Prop := match e with Some e => true_on row e | None => True end.

Lemma true_on_and row a b : true_on row (And a b) <-> true_on row a /\ true_on row b.
Proof.
  unfold true_on. rewrite evaluate_And. split.
  - intros E. apply outcome_bind_ok in E as (x & -> & E). apply outcome_bind_ok in E as (y & -> & E).
    destruct x as [|[]| | |], y as [|[]| | |]; try discriminate; auto.
  - intros [-> ->]. reflexivity.
Qed.

Lemma holds_and_vec row es : holds row (and_vec es) <-> all_true row es.
Proof.
  destruct es as [|e es]; cbn [and_vec holds]; [unfold all_true; now rewrite Forall_nil|].
  revert e. induction es as [|x es IH]; intros e; cbn [fold_left].
  - unfold all_true. rewrite Forall_cons, Forall_nil. tauto.
  - rewrite IH. unfold all_true. rewrite !Forall_cons, true_on_and. tauto.
Qed.

(** A predicate with a value is true exactly if its conjuncts are. *)
Lemma cnf_vec_true row p cs v :
  into_cnf_vec p = Ok cs -> evaluate (Some row) p = Ok v -> v = Boolean true <-> all_true row cs.
Proof.
  intros Ecs Hv. destruct (into_cnf_total p) as [c Hc]. rewrite (into_cnf_vec_eq p c Hc) in Ecs. injection Ecs as <-.
  pose proof (into_cnf_eval (Some row) p c v Hc Hv) as Hcv.
  destruct (and_vec_conjuncts (Some row) c v Hcv) as (a & Ea & Ha).
  rewrite <- holds_and_vec, Ea. cbn [holds]. unfold true_on. rewrite Ha. split; congruence.
Qed.

(** ** Rows of a join *)
Lemma true_on_left (w : nat) (l r : Row) e :
  length l = w -> refs_right w e = false -> true_on (l ++ r) e <-> true_on l e.
Proof.
  intros Hl Hr%refs_right_false. unfold true_on. rewrite (evaluate_agree (Some l)); [reflexivity|].
  intros i Hi. apply (proj1 (List.Forall_forall _ _) Hr) in Hi. cbn. apply lookup_app_l. lia.
Qed.

Lemma true_on_right (w : nat) (l r : Row) e :
  length l = w -> refs_left w e = false ->
  true_on (l ++ r) e <-> true_on r (rename_columns (fun i => i - w)%nat e).
Proof.
  intros Hl Hr%refs_left_false. unfold true_on. rewrite (evaluate_rename (fun i => i - w)%nat (Some (l ++ r)) (Some r)); [reflexivity|].
  intros i Hi. apply (proj1 (List.Forall_forall _ _) Hr) in Hi. cbn. rewrite lookup_app_r by lia. now subst.
Qed.

(** ** Copied lookups *)

(** Two values that are equal in SQL and of one type. *)
Definition same_value (x y : Value) : Prop :=
  eval_equal x y = Ok (Boolean true) /\ datatype x = datatype y.

Lemma f64_eq_euclid a b c : f64_eq a b = true -> f64_eq a c = f64_eq b c.
Proof.
  unfold f64_eq. intros E. apply SFeqb_cases in E as [[E _]|E]; [now rewrite E|].
  destruct (f64_decode a) as [[]| | |], (f64_decode b) as [[]| | |]; try discriminate;
    destruct (f64_decode c) as [[]|[]| |[]]; reflexivity.
Qed.

Lemma same_value_cases x y : same_value x y ->
  (x = y /\ is_undefined x = false) \/
  (exists a b, x = Float a /\ y = Float b /\ f64_eq a b = true /\ f64_is_nan a = false /\ f64_is_nan b = false).
Proof.
  intros [E T]. destruct x, y; try discriminate; cbn [eval_equal] in E; injection E as E.
  - apply eqb_prop in E as ->. auto.
  - apply Z.eqb_eq in E as ->. auto.
  - right. exists f, f0. do 3 (split; [easy|]). split.
    + destruct (f64_is_nan f) eqn:N; [|easy]. now rewrite (f64_eq_nan f f0 N) in E.
    + destruct (f64_is_nan f0) eqn:N; [|easy]. rewrite f64_eq_sym in E. now rewrite (f64_eq_nan f0 f N) in E.
  - apply bool_decide_eq_true in E as ->. auto.
Qed.

Lemma eval_equal_same x y v : same_value x y -> eval_equal x v = eval_equal y v.
Proof.
  intros [[-> _]|(a & b & -> & -> & E & _)]%same_value_cases; [reflexivity|].
  destruct v; cbn [eval_equal]; try reflexivity; now rewrite (f64_eq_euclid a b) by exact E.
Qed.

Lemma eval_is_same x y v : same_value x y -> eval_is (Ok x) v = eval_is (Ok y) v.
Proof.
  intros [[-> _]|(a & b & -> & -> & E & Na & Nb)]%same_value_cases; [reflexivity|].
  destruct v; cbn [eval_is outcome_bind value_eq]; try reflexivity. now rewrite Na, Nb.
Qed.

Lemma lookup_columns e c : is_column_lookup e = Some c -> Forall (eq c) (columns_of e).
Proof.
  induction e as [| | |l IHl r IHr| |l _ r _| | |x _ v| | | | | | | | | | |]; cbn [is_column_lookup columns_of]; try discriminate.
  - destruct (is_column_lookup l) as [cl|]; [|discriminate]. destruct (is_column_lookup r) as [cr|]; [|discriminate].
    case_bool_decide; [|discriminate]. subst cr. intros [= ->]. apply Forall_app. auto.
  - destruct l, r; try discriminate; intros [= ->]; cbn; auto.
  - destruct x; try discriminate. intros [= ->]. cbn. auto.
Qed.

(** A lookup has the same value on rows with the same value in its column. *)
Lemma lookup_transfer e c (row row' : Row) x y :
  is_column_lookup e = Some c -> row !! c = Some x -> row' !! c = Some y -> same_value x y ->
  evaluate (Some row') e = evaluate (Some row) e.
Proof.
  intros Hc Hx Hy Hxy. revert Hc.
  induction e as [| | |l IHl r IHr| |l _ r _| | |a _ v| | | | | | | | | | |]; cbn [is_column_lookup]; try discriminate.
  - destruct (is_column_lookup l) as [cl|]; [|discriminate]. destruct (is_column_lookup r) as [cr|]; [|discriminate].
    case_bool_decide; [|discriminate]. subst cr. intros [= ->]. cbn [evaluate]. now rewrite IHl, IHr.
  - destruct l, r; try discriminate; intros [= ->]; cbn [evaluate mbind option_bind]; rewrite Hx, Hy; cbn [outcome_bind].
    + now rewrite !(eval_equal_sym v), (eval_equal_same x y).
    + now rewrite (eval_equal_same x y).
  - destruct a; try discriminate. intros [= ->]. cbn [evaluate mbind option_bind]. rewrite Hx, Hy.
    now rewrite (eval_is_same x y).
Qed.

Definition lookups_ok (m : gmap nat nat) (es : list Expression) : Prop :=
  forall c i, m !! c = Some i -> exists e, es !! i = Some e /\ is_column_lookup e = Some c.

Lemma column_lookups_ok es : lookups_ok (column_lookups es) es.
Proof.
  unfold column_lookups.
  assert (forall post pre m, lookups_ok m (pre ++ post) ->
    lookups_ok (foldl (fun m ie => match is_column_lookup ie.2 with Some c => <[c := ie.1]> m | None => m end)
                  m (zip (seq (length pre) (length post)) post)) (pre ++ post)) as Hg.
  { induction post as [|e post IH]; intros pre m Hm; [exact Hm|]. cbn [length seq zip zip_with foldl fst snd].
    replace (pre ++ e :: post) with ((pre ++ [e]) ++ post) in * by now rewrite <- app_assoc.
    replace (S (length pre)) with (length (pre ++ [e])) by (rewrite length_app; cbn; lia).
    apply IH. destruct (is_column_lookup e) as [c|] eqn:Ec; [|exact Hm].
    intros c' i. rewrite lookup_insert_Some. intros [[<- <-]|[_ Hi]]; [|now apply Hm].
    exists e. split; [|exact Ec]. rewrite <- app_assoc. now apply list_lookup_middle. }
  apply (Hg es [] ∅). intros c i. now rewrite lookup_empty.
Qed.

Lemma lookups_ok_app m es es' : lookups_ok m es -> lookups_ok m (es ++ es').
Proof. intros Hm c i Hi. destruct (Hm c i Hi) as (e & He & Hc). exists e. split; [now apply lookup_app_l_Some | exact Hc]. Qed.

(** A copied lookup, for the equijoin of columns [from] and [to]. *)
Lemma copied_lookup_true (row : Row) e from to x y :
  is_column_lookup e = Some from -> row !! from = Some x -> row !! to = Some y -> same_value x y ->
  true_on row e -> true_on row (rename_columns (fun i => if bool_decide (i = from) then to else i) e).
Proof.
  intros Hc Hx Hy Hxy He. unfold true_on.
  rewrite (evaluate_rename _ (Some (<[from := y]> row))).
  - rewrite <- He. apply (lookup_transfer e from row _ x y Hc Hx); [|exact Hxy].
    apply list_lookup_insert_eq. now apply lookup_lt_Some in Hx.
  - intros i Hi. apply (proj1 (List.Forall_forall _ _) (lookup_columns e from Hc)) in Hi as <-.
    rewrite bool_decide_true by reflexivity. cbn. rewrite list_lookup_insert_eq by now apply lookup_lt_Some in Hx.
    exact Hy.
Qed.

Lemma rename_lookup_columns e from to :
  is_column_lookup e = Some from ->
  Forall (eq to) (columns_of (rename_columns (fun i => if bool_decide (i = from) then to else i) e)).
Proof.
  intros Hc%lookup_columns. revert Hc.
  induction e; cbn [columns_of rename_columns]; rewrite ?Forall_app; try tauto; auto.
  rewrite !Forall_cons, !Forall_nil. intros [<- _]. now rewrite bool_decide_true.
Qed.

(** The columns compared by an equijoin have one type where they are equal. *)
Definition equalities_typed (row : Row) (es : list Expression) : Prop :=
  forall a b x y, In (Equal (Column a) (Column b)) es -> row !! a = Some x -> row !! b = Some y ->
  eval_equal x y = Ok (Boolean true) -> datatype x = datatype y.

Lemma equal_true_columns (row : Row) a b :
  true_on row (Equal (Column a) (Column b)) ->
  exists x y, row !! a = Some x /\ row !! b = Some y /\ eval_equal x y = Ok (Boolean true).
Proof.
  unfold true_on. cbn [evaluate mbind option_bind]. intros E.
  destruct (row !! a) as [x|]; [|discriminate]. destruct (row !! b) as [y|]; [|discriminate]. eauto.
Qed.

Lemma same_value_sym x y : same_value x y -> same_value y x.
Proof. intros [E T]. split; [now rewrite eval_equal_sym | congruence]. Qed.

Record copies (w : nat) (predicate pl pr pl' pr' : list Expression) : Prop := {
  copies_left : incl pl pl';
  copies_right : incl pr pr';
  copies_left_refs : Forall (fun e => refs_right w e = false) pl -> Forall (fun e => refs_right w e = false) pl';
  copies_right_refs : Forall (fun e => refs_left w e = false) pr -> Forall (fun e => refs_left w e = false) pr';
  copies_columns (P : nat -> Prop) :
    let ok := Forall (fun e => Forall P (columns_of e)) in ok predicate -> ok pl -> ok pr -> ok pl' /\ ok pr';
  copies_true row : equalities_typed row predicate ->
    all_true row predicate -> all_true row pl -> all_true row pr -> all_true row pl' /\ all_true row pr';
  copies_renamed (K : Expression -> Prop) :
    (forall g e, K e -> K (rename_columns g e)) -> Forall K pl -> Forall K pr -> Forall K pl' /\ Forall K pr';
}.

Lemma Forall_snoc {A} (P : A -> Prop) l x : Forall P (l ++ [x]) <-> Forall P l /\ P x.
Proof. rewrite Forall_app, Forall_cons, Forall_nil. tauto. Qed.

Lemma min_max_columns w a b :
  refs_left w (Equal (Column a) (Column b)) && refs_right w (Equal (Column a) (Column b)) = true ->
  (Nat.min a b < w <= Nat.max a b)%nat.
Proof.
  unfold refs_left, refs_right. cbn [columns_of existsb app]. rewrite !orb_false_r, andb_true_iff, !orb_true_iff, !Nat.ltb_lt, !Nat.leb_le. lia.
Qed.

Lemma equal_min_max (row : Row) a b :
  true_on row (Equal (Column a) (Column b)) -> equalities_typed row [Equal (Column a) (Column b)] ->
  exists x y, row !! Nat.min a b = Some x /\ row !! Nat.max a b = Some y /\ same_value x y.
Proof.
  intros E T. destruct (equal_true_columns row a b E) as (x & y & Hx & Hy & Hxy).
  assert (same_value x y) as Hs by (split; [exact Hxy | apply (T a b x y); auto; now left]).
  destruct (Nat.le_gt_cases a b).
  - exists x, y. rewrite Nat.min_l, Nat.max_r by lia. auto.
  - exists y, x. rewrite Nat.min_r, Nat.max_l by lia. auto using same_value_sym.
Qed.

(** The expressions one copy step adds to the other side. *)
Definition copied (m : gmap nat nat) (es : list Expression) (from to : nat) (new : list Expression) : Prop :=
  new = [] \/ exists e, In e es /\ is_column_lookup e = Some from /\
    new = [rename_columns (fun i => if bool_decide (i = from) then to else i) e].

Lemma copy_step m es others from to :
  lookups_ok m es ->
  exists new, copied m es from to new /\
    (let? o := lookup_expr m es from in
     match o with
     | Some e => let? e := replace_column from to e in Ok (others ++ [e])
     | None => Ok others
     end) = Ok (others ++ new).
Proof.
  intros Hm. unfold lookup_expr. destruct (m !! from) as [i|] eqn:Ei.
  - destruct (Hm from i Ei) as (e & He & Hc). rewrite He. cbn [outcome_bind]. rewrite replace_column_eq.
    cbn [outcome_bind]. eexists. split; [|reflexivity]. right. exists e. split; [|auto].
    apply list_elem_of_In. eapply list_elem_of_lookup_2, He.
  - exists []. split; [now left|]. cbn [outcome_bind]. now rewrite app_nil_r.
Qed.

Lemma copied_refs m es from to new (P : nat -> Prop) :
  copied m es from to new -> P to -> Forall (fun e => Forall P (columns_of e)) new.
Proof.
  intros [->|(e & _ & Hc & ->)] Hp; [constructor|]. apply Forall_singleton.
  eapply Forall_impl; [apply rename_lookup_columns, Hc|]. now intros i <-.
Qed.

Lemma copied_kept m es from to new (K : Expression -> Prop) :
  (forall g e, K e -> K (rename_columns g e)) -> copied m es from to new -> Forall K es -> Forall K new.
Proof.
  intros HK [->|(e & He & _ & ->)] Hes; [constructor|]. apply Forall_singleton, HK. apply (proj1 (List.Forall_forall _ _) Hes _ He).
Qed.

Lemma copied_true m es from to new (row : Row) x y :
  copied m es from to new -> row !! from = Some x -> row !! to = Some y -> same_value x y ->
  all_true row es -> all_true row new.
Proof.
  intros [->|(e & He & Hc & ->)] Hx Hy Hxy Hes; [constructor|]. apply Forall_singleton.
  apply (copied_lookup_true row e from to x y); auto. apply (proj1 (List.Forall_forall _ _) Hes _ He).
Qed.

Lemma copy_lookups_spec w ml mr predicate : forall pl pr,
  lookups_ok ml pl -> lookups_ok mr pr ->
  Forall (fun e => refs_left w e && refs_right w e = true) predicate ->
  exists pl' pr', copy_lookups ml mr predicate pl pr = Ok (pl', pr') /\ copies w predicate pl pr pl' pr'.
Proof.
  induction predicate as [|p predicate IH]; intros pl pr Hml Hmr Hp.
  { exists pl, pr. split; [reflexivity|]. split; auto using incl_refl. }
  apply Forall_cons in Hp as [Hp Hps].
  assert ((forall a b, p <> Equal (Column a) (Column b)) ->
    exists pl' pr', copy_lookups ml mr predicate pl pr = Ok (pl', pr') /\ copies w (p :: predicate) pl pr pl' pr') as Hskip.
  { intros Hne. destruct (IH pl pr Hml Hmr Hps) as (pl' & pr' & E & [I1 I2 F1 F2 Fc Ht Fk]). exists pl', pr'.
    split; [exact E|]. split; auto.
    - intros P ok Hok. apply Forall_cons in Hok as [_ Hok]. now apply Fc.
    - intros row Hty Hall. apply Forall_cons in Hall as [_ Hall].
      apply Ht; [|exact Hall]. intros a b x y Hin. apply Hty. now right. }
  destruct p as [| | | | |l r| | | | | | | | | | | | | |]; try (apply Hskip; discriminate).
  destruct l as [|a| | | | | | | | | | | | | | | | | |]; try (apply Hskip; discriminate).
  destruct r as [|b| | | | | | | | | | | | | | | | | |]; try (apply Hskip; discriminate). clear Hskip.
  cbn [copy_lookups]. apply min_max_columns in Hp.
  destruct (copy_step ml pl pr (Nat.min a b) (Nat.max a b) Hml) as (nr & Hnr & Enr).
  apply outcome_bind_ok in Enr as (o1 & -> & Enr). cbn [outcome_bind]. rewrite Enr. cbn [outcome_bind].
  destruct (copy_step mr (pr ++ nr) pl (Nat.max a b) (Nat.min a b)) as (nl & Hnl & Enl); [now apply lookups_ok_app|].
  apply outcome_bind_ok in Enl as (o2 & -> & Enl). cbn [outcome_bind]. rewrite Enl. cbn [outcome_bind].
  destruct (IH (pl ++ nl) (pr ++ nr)) as (pl' & pr' & -> & [I1 I2 F1 F2 Fc Ht Fk]); [now apply lookups_ok_app .. | exact Hps |].
  exists pl', pr'. split; [reflexivity|]. split.
  - intros e He. apply I1, in_app_iff. auto.
  - intros e He. apply I2, in_app_iff. auto.
  - intros Hl. apply F1, Forall_app. split; [exact Hl|].
    eapply Forall_impl; [apply (copied_refs _ _ _ _ _ (fun i => (i < w)%nat) Hnl); lia|]. intros e. apply refs_right_false.
  - intros Hr. apply F2, Forall_app. split; [exact Hr|].
    eapply Forall_impl; [apply (copied_refs _ _ _ _ _ (fun i => (w <= i)%nat) Hnr); lia|]. intros e. apply refs_left_false.
  - intros P ok Hok Hl Hr. apply Forall_cons in Hok as [He Hok]. cbn [columns_of app] in He.
    rewrite !Forall_cons in He. destruct He as (Ha & Hb & _).
    apply Fc; [exact Hok | apply Forall_app | apply Forall_app]; (split; [assumption|]);
      (eapply copied_refs; [eassumption|]); destruct (Nat.le_gt_cases a b);
      rewrite ?Nat.min_l, ?Nat.min_r, ?Nat.max_l, ?Nat.max_r by lia; assumption.
  - intros row Hty Hall Hl Hr. apply Forall_cons in Hall as [He Hall].
    destruct (equal_min_max row a b He) as (x & y & Hx & Hy & Hxy).
    { intros a' b' x y [Hin|[]]. apply Hty. now left. }
    pose proof (copied_true _ _ _ _ _ row x y Hnr Hx Hy Hxy Hl) as Hnr'.
    assert (all_true row (pr ++ nr)) as Hr' by (apply Forall_app; auto).
    pose proof (copied_true _ _ _ _ _ row y x Hnl Hy Hx (same_value_sym _ _ Hxy) Hr') as Hnl'.
    apply Ht; [|exact Hall | apply Forall_app; auto | exact Hr'].
    intros a' b' x' y' Hin. apply Hty. now right.
  - intros K HK Hl Hr. pose proof (copied_kept _ _ _ _ _ K HK Hnr Hl) as Knr.
    pose proof (copied_kept _ _ _ _ _ K HK Hnl ltac:(now apply Forall_app)) as Knl. apply (Fk K HK); now apply Forall_app.
Qed.
(** ** Pushing into the sources *)

(** The filter [e] is added to the node. *)
Definition pushed (e : option Expression) (n n' : Node) : Prop :=
  match e with Some e => push_into e n = (None, n') | None => n' = n end.

Lemma push_into_cases e n :
  (push_into e n = (Some e, n)) \/ (exists n', push_into e n = (None, n') /\ node_columns n' = node_columns n).
Proof. destruct n; cbn [push_into]; eauto. Qed.

Lemma and_vec_columns (P : nat -> Prop) es e :
  Forall (fun e => Forall P (columns_of e)) es -> and_vec es = Some e -> Forall P (columns_of e).
Proof.
  destruct es as [|x es]; [discriminate|]. cbn [and_vec]. intros Hf [= <-]. apply Forall_cons in Hf as [Hx Hf].
  revert x Hx. induction Hf as [|y es Hy Hf IH]; intros x Hx; cbn [fold_left]; [exact Hx|].
  apply IH. cbn [columns_of]. now apply Forall_app.
Qed.

Lemma rename_columns_ext g h e :
  Forall (fun i => g i = h i) (columns_of e) -> rename_columns g e = rename_columns h e.
Proof.
  induction e; cbn [columns_of rename_columns]; rewrite ?Forall_app; intros Hf;
    first [now rewrite IHe1, IHe2 by apply Hf | now rewrite IHe by exact Hf | reflexivity | idtac].
  apply Forall_inv in Hf. now rewrite Hf.
Qed.

Lemma rename_columns_comp g h e : rename_columns g (rename_columns h e) = rename_columns (fun i => g (h i)) e.
Proof. induction e; cbn [rename_columns]; congruence. Qed.

(** Column indexes of the right source. *)
Definition right_index (w i : nat) : Prop := (w <= i)%nat /\ is_u64 (Z.of_nat i).

Lemma shift_left_eq (w : nat) e :
  Forall (right_index w) (columns_of e) ->
  shift_column (- Z.of_nat w) e = Ok (rename_columns (fun i => i - w)%nat e).
Proof.
  intros Hf. rewrite shift_column_eq. f_equal. apply rename_columns_ext. eapply Forall_impl; [exact Hf|].
  intros i [Hi Hu]. cbn beta. rewrite u64_small by (unfold is_u64 in *; lia). lia.
Qed.

Lemma shift_back (w : nat) e :
  Forall (right_index w) (columns_of e) ->
  shift_column (Z.of_nat w) (rename_columns (fun i => i - w)%nat e) = Ok e.
Proof.
  intros Hf. rewrite shift_column_eq, rename_columns_comp. f_equal.
  rewrite <- (rename_columns_id e) at 2. apply rename_columns_ext. eapply Forall_impl; [exact Hf|].
  intros i [Hi Hu]. cbn beta. replace (Z.of_nat (i - w) + Z.of_nat w) with (Z.of_nat i) by lia.
  rewrite u64_small by exact Hu. lia.
Qed.

Definition push_left_step (es : list Expression) (l : Node) (predicate : list Expression) : Node * list Expression :=
  match and_vec es with
  | None => (l, predicate)
  | Some e => match push_into e l with
              | (Some e, l) => (l, predicate ++ [e])
              | (None, l) => (l, predicate)
              end
  end.

Definition push_right_step (es : list Expression) (w : nat) (r : Node) (predicate : list Expression) :
    outcome (Node * list Expression) :=
  match and_vec es with
  | None => Ok (r, predicate)
  | Some e => let? e := shift_column (- Z.of_nat w) e in
              match push_into e r with
              | (Some e, r) => let? e := shift_column (Z.of_nat w) e in Ok (r, predicate ++ [e])
              | (None, r) => Ok (r, predicate)
              end
  end.

Lemma push_left_spec es l predicate :
  Forall (fun e => refs_right (node_columns l) e = false) es ->
  exists l' f extra, push_left_step es l predicate = (l', predicate ++ extra) /\ pushed f l l' /\
    node_columns l' = node_columns l /\
    forall (lrow rrow : Row), length lrow = node_columns l ->
      holds lrow f /\ all_true (lrow ++ rrow) extra <-> all_true (lrow ++ rrow) es.
Proof.
  intros Hes. unfold push_left_step. destruct (and_vec es) as [e|] eqn:Ee.
  - destruct (push_into_cases e l) as [->|(l' & E & Hc)].
    + exists l, None, [e]. repeat (split; [easy|]). intros lrow rrow _.
      rewrite <- (holds_and_vec _ es), Ee. unfold all_true. rewrite Forall_cons, Forall_nil. cbn [holds]. tauto.
    + rewrite E. exists l', (Some e), []. rewrite app_nil_r. repeat (split; [easy|]). intros lrow rrow Hl.
      rewrite <- (holds_and_vec (lrow ++ rrow) es), Ee. cbn [holds]. rewrite (true_on_left (node_columns l) lrow rrow e Hl).
      * unfold all_true. rewrite Forall_nil. tauto.
      * apply refs_right_false. eapply and_vec_columns; [|exact Ee]. eapply Forall_impl; [exact Hes|].
        intros x. apply refs_right_false.
  - exists l, None, []. rewrite app_nil_r. repeat (split; [easy|]). intros lrow rrow _.
    rewrite <- (holds_and_vec (lrow ++ rrow) es), Ee. unfold all_true. rewrite Forall_nil. cbn [holds]. tauto.
Qed.

Lemma push_right_spec es w r predicate :
  Forall (fun e => Forall (right_index w) (columns_of e)) es ->
  exists r' f extra, push_right_step es w r predicate = Ok (r', predicate ++ extra) /\ pushed f r r' /\
    forall (lrow rrow : Row), length lrow = w ->
      holds rrow f /\ all_true (lrow ++ rrow) extra <-> all_true (lrow ++ rrow) es.
Proof.
  intros Hes. unfold push_right_step. destruct (and_vec es) as [e|] eqn:Ee.
  - pose proof (and_vec_columns _ _ _ Hes Ee) as He. rewrite (shift_left_eq w e He). cbn [outcome_bind].
    destruct (push_into_cases (rename_columns (fun i => i - w)%nat e) r) as [->|(r' & E & _)].
    + rewrite (shift_back w e He). cbn [outcome_bind]. exists r, None, [e]. repeat (split; [easy|]). intros lrow rrow _.
      rewrite <- (holds_and_vec _ es), Ee. unfold all_true. rewrite Forall_cons, Forall_nil. cbn [holds]. tauto.
    + rewrite E. exists r', (Some (rename_columns (fun i => i - w)%nat e)), []. rewrite app_nil_r.
      repeat (split; [easy|]). intros lrow rrow Hl.
      rewrite <- (holds_and_vec (lrow ++ rrow) es), Ee. cbn [holds]. rewrite (true_on_right w lrow rrow e Hl).
      * unfold all_true. rewrite Forall_nil. tauto.
      * apply refs_left_false. eapply Forall_impl; [exact He|]. now intros i [].
  - exists r, None, []. rewrite app_nil_r. repeat (split; [easy|]). intros lrow rrow _.
    rewrite <- (holds_and_vec (lrow ++ rrow) es), Ee. unfold all_true. rewrite Forall_nil. cbn [holds]. tauto.
Qed.

(** The conjuncts of the three parts are the conjuncts. *)
Lemma split_of_true row w cs : let '(pl, pr, pp) := split_of w cs in
  all_true row cs <-> all_true row pl /\ all_true row pr /\ all_true row pp.
Proof.
  unfold split_of. induction cs as [|e cs IH]; unfold all_true in *; cbn [List.filter]; [rewrite !Forall_nil; tauto|].
  destruct (refs_left w e), (refs_right w e); cbn [negb andb]; rewrite !Forall_cons, IH; tauto.
Qed.

Lemma Forall_filter_keep {A} (P : A -> Prop) (f : A -> bool) l : Forall P l -> Forall P (List.filter f l).
Proof. induction 1; cbn [List.filter]; [constructor|]. destruct (f x); auto. Qed.
Lemma Forall_filter_test {A} (f : A -> bool) l : Forall (fun x => f x = true) (List.filter f l).
Proof. apply List.Forall_forall. now intros x [_ Hx]%filter_In. Qed.

Lemma Forall_both {A} (P Q R : A -> Prop) l : (forall x, P x -> Q x -> R x) -> Forall P l -> Forall Q l -> Forall R l.
Proof. intros HR HP HQ. rewrite List.Forall_forall in *. auto. Qed.

Lemma into_cnf_vec_columns (P : nat -> Prop) p cs :
  into_cnf_vec p = Ok cs -> Forall P (columns_of p) -> Forall (fun e => Forall P (columns_of e)) cs.
Proof.
  intros Ecs Hp. destruct (into_cnf_total p) as [c Hc]. rewrite (into_cnf_vec_eq p c Hc) in Ecs. injection Ecs as <-.
  rewrite List.Forall_forall in *. intros x Hx. apply List.Forall_forall. intros i Hi.
  apply Hp, (into_cnf_columns p c Hc), (conjuncts_columns c x Hx), Hi.
Qed.

Lemma maybe_push_join_spec l r p outer cs :
  into_cnf_vec p = Ok cs -> Forall (fun i => is_u64 (Z.of_nat i)) (columns_of p) ->
  exists l' r' p' fl fr,
    maybe_push_join (NNestedLoopJoin l r (Some p) outer) = Ok (NNestedLoopJoin l' r' p' outer) /\
    pushed fl l l' /\ pushed fr r r' /\
    forall (lrow rrow : Row) v,
      length lrow = node_columns l -> equalities_typed (lrow ++ rrow) cs -> evaluate (Some (lrow ++ rrow)) p = Ok v ->
      v = Boolean true <-> holds lrow fl /\ holds rrow fr /\ holds (lrow ++ rrow) p'.
Proof.
  intros Ecs Hu. cbn [maybe_push_join]. rewrite Ecs. cbn [outcome_bind]. rewrite split_conjuncts_eq.
  set (w := node_columns l).
  pose proof (into_cnf_vec_columns _ _ _ Ecs Hu) as Hcs.
  assert (forall row, let '(pl, pr, pp) := split_of w cs in _) as Hsplit by (intros row; exact (split_of_true row w cs)).
  unfold split_of in *.
  set (pl := List.filter (fun e => negb (refs_right w e)) cs) in *.
  set (pr := List.filter (fun e => negb (refs_left w e)) cs) in *.
  set (pp := List.filter (fun e => refs_left w e && refs_right w e) cs) in *.
  destruct (copy_lookups_spec w (column_lookups pl) (column_lookups pr) pp pl pr) as (pl' & pr' & -> & [I1 I2 F1 F2 Fc Ht Fk]);
    [apply column_lookups_ok .. | apply Forall_filter_test |].
  cbn [outcome_bind].
  assert (Forall (fun e => refs_right w e = false) pl') as Hl'.
  { apply F1. eapply Forall_impl; [apply Forall_filter_test|]. intros e. apply negb_true_iff. }
  assert (Forall (fun e => Forall (right_index w) (columns_of e)) pr') as Hr'.
  { assert (Forall (fun e => refs_left w e = false) pr') as Hr1.
    { apply F2. eapply Forall_impl; [apply Forall_filter_test|]. intros e. apply negb_true_iff. }
    destruct (Fc (fun i => is_u64 (Z.of_nat i))) as [_ Hr2]; try (now apply Forall_filter_keep).
    eapply Forall_both; [|exact Hr1 | exact Hr2]. cbn beta. intros e E1%refs_left_false E2.
    eapply Forall_both; [|exact E1 | exact E2]. now split. }
  destruct (push_left_spec pl' l pp Hl') as (l' & fl & xl & El & Pl & Wl & Tl).
  unfold push_left_step in El. rewrite El. rewrite Wl. fold w.
  destruct (push_right_spec pr' w r (pp ++ xl) Hr') as (r' & fr & xr & Er & Pr & Tr).
  unfold push_right_step in Er. rewrite Er. cbn [outcome_bind fst snd].
  exists l', r', (and_vec ((pp ++ xl) ++ xr)), fl, fr. do 3 (split; [easy|]).
  intros lrow rrow v Hw Hty Hv. rewrite (cnf_vec_true _ p cs v Ecs Hv), holds_and_vec, (Hsplit (lrow ++ rrow)).
  unfold all_true at 4. rewrite !Forall_app. fold (all_true (lrow ++ rrow) pp) (all_true (lrow ++ rrow) xl) (all_true (lrow ++ rrow) xr).
  specialize (Tl lrow rrow Hw). specialize (Tr lrow rrow Hw). specialize (Ht (lrow ++ rrow)).
  assert (equalities_typed (lrow ++ rrow) pp) as Hpp.
  { intros a b x y [Hin _]%filter_In. now apply Hty. }
  assert (all_true (lrow ++ rrow) pl' -> all_true (lrow ++ rrow) pl) as M1.
  { unfold all_true. rewrite !List.Forall_forall. auto. }
  assert (all_true (lrow ++ rrow) pr' -> all_true (lrow ++ rrow) pr) as M2.
  { unfold all_true. rewrite !List.Forall_forall. auto. }
  specialize (Ht Hpp). tauto.
Qed.
End Truth.

(** ** The rows *)
Section PushRows.
Context `{TransactionSpec T}.

Definition holdsb (f : option Expression) (row : Row) : bool :=
  match f with
  | Some e => match evaluate (Some row) e with Ok (Boolean true) => true | _ => false end
  | None => true
  end.

Lemma holdsb_spec f row : holdsb f row = true <-> holds row f.
Proof.
  destruct f as [e|]; cbn [holdsb holds]; [|tauto]. unfold true_on.
  destruct (evaluate (Some row) e) as [[|[]| | |]| |]; split; congruence.
Qed.

Lemma holdsb_and e p row : holdsb (Some (And e p)) row = holdsb (Some e) row && holdsb (Some p) row.
Proof. apply eq_true_iff_eq. rewrite andb_true_iff, !holdsb_spec. apply true_on_and. Qed.

Lemma predicate_holdsb msg e row b : predicate_holds msg e row = Ok b -> holdsb (Some e) row = b.
Proof.
  unfold predicate_holds. cbn [holdsb]. intros E. apply outcome_bind_ok in E as (v & -> & E).
  destruct v as [|[]| | |]; try discriminate; congruence.
Qed.

Lemma filter_rows_holdsb e rs rows : filter_rows e (map Ok rs) = map Ok rows -> rows = List.filter (holdsb (Some e)) rs.
Proof.
  revert rows. induction rs as [|r rs IH]; intros rows; cbn [map filter_rows List.filter].
  - now destruct rows.
  - destruct (predicate_holds _ e r) as [[]| |] eqn:Eb; [| |now destruct rows ..];
      rewrite (predicate_holdsb _ _ _ _ Eb); [|apply IH].
    destruct rows as [|r' rows]; [discriminate|]. cbn [map]. intros [= -> E]. f_equal. now apply IH.
Qed.

(** The pairs of an inner join. *)
Definition pairs (p : option Expression) (ls rs : list Row) : list Row :=
  ls ≫= fun l => List.filter (holdsb p) (map (app l) rs).

Lemma join_items_pairs p l rs rows :
  join_items p l (map Ok rs) = map Ok rows ->
  rows = List.filter (holdsb p) (map (app l) rs) /\
  forall r e, In r rs -> p = Some e -> exists v, evaluate (Some (l ++ r)) e = Ok v.
Proof.
  unfold join_items. revert rows. induction rs as [|r rs IH]; intros rows; cbn [map mbind list_bind join_item List.filter].
  { destruct rows; [|discriminate]. split; [reflexivity | easy]. }
  destruct p as [p|].
  - destruct (predicate_holds _ p (l ++ r)) as [b| |] eqn:Eb; [|now destruct rows ..].
    rewrite (predicate_holdsb _ _ _ _ Eb). apply outcome_bind_ok in Eb as (v & Ev & _).
    destruct b; cbn [app]; [destruct rows as [|r' rows]; [discriminate|]; cbn [map]; intros [= -> E] | intros E];
      destruct (IH _ E) as [-> Hv]; (split; [reflexivity|]); (intros rx e [<-|Hr] [= <-]; [eauto | eapply Hv; [exact Hr | reflexivity]]).
  - cbn [holdsb app]. destruct rows as [|r' rows]; [discriminate|]. cbn [map]. intros [= -> E].
    destruct (IH _ E) as [-> _]. easy.
Qed.

Lemma nested_loop_pairs p n ls rs rows :
  nested_loop_rows (map Ok ls) (map Ok rs) n p false = map Ok rows ->
  rows = pairs p ls rs /\
  forall l r e, In l ls -> In r rs -> p = Some e -> exists v, evaluate (Some (l ++ r)) e = Ok v.
Proof.
  rewrite nested_loop_rows_eq. unfold pairs. revert rows.
  induction ls as [|l ls IH]; intros rows; cbn [map nl_rest andb app mbind list_bind].
  { destruct rows; [|discriminate]. split; [reflexivity | easy]. }
  intros E. pose proof (map_ok_app _ _ _ E) as (r1 & r2 & E1 & E2). rewrite E1, E2, <- map_app in E.
  apply map_ok_inj in E as <-. apply join_items_pairs in E1 as [-> Hv1]. destruct (IH _ E2) as [-> Hv2].
  split; [reflexivity|]. intros l' r e [<-|Hl] Hr Hp; eauto.
Qed.

Lemma filter_filter_and {A} (f g h : A -> bool) l :
  (forall x, h x = f x && g x) -> List.filter h l = List.filter f (List.filter g l).
Proof.
  intros Hh. induction l as [|x l IH]; cbn [List.filter]; [reflexivity|]. rewrite Hh, IH.
  destruct (g x); cbn [List.filter]; [now rewrite andb_true_r | now rewrite andb_false_r].
Qed.

Lemma filter_ext_all {A} (f g : A -> bool) l : (forall x, In x l -> f x = g x) -> List.filter f l = List.filter g l.
Proof. apply List.filter_ext_in. Qed.

Lemma pairs_and e p p' ls rs :
  (forall row, holdsb p' row = holdsb (Some e) row && holdsb p row) ->
  pairs p' ls rs = List.filter (holdsb (Some e)) (pairs p ls rs).
Proof.
  intros Hp. unfold pairs. induction ls as [|l ls IH]; cbn [mbind list_bind]; [reflexivity|].
  rewrite List.filter_app. f_equal; [|exact IH]. now apply filter_filter_and.
Qed.

(** A filter added to a scan, filter or inner join filters its rows. *)
Lemma pushed_rows t f n n' rows rows' :
  pushed f n n' -> inner_node n -> clean n t -> yields n t rows -> yields n' t rows' -> rows' = List.filter (holdsb f) rows.
Proof.
  unfold yields. destruct f as [e|]; cbn [pushed].
  2: { intros -> _ _ -> [= ->%map_ok_inj]. induction rows' as [|r l IH]; cbn; congruence. }
  intros Hp Hi Hc. destruct n as [|s p| | | | |l r p o| | | | | |table p alias|];
    cbn [push_into] in Hp; try discriminate; injection Hp as <-; cbn [clean] in Hc.
  - destruct (clean_yields s t (proj2 Hc)) as [srows Es]. cbn [execute_node]. rewrite Es. cbn [outcome_bind].
    intros [= ->%filter_rows_holdsb] [= ->%filter_rows_holdsb]. apply filter_filter_and, holdsb_and.
  - destruct Hc as (_ & Hl & Hr). destruct (clean_yields l t Hl) as [lrows El], (clean_yields r t Hr) as [rrows Er].
    cbn [execute_node]. rewrite El, Er. cbn [outcome_bind inner_node] in *. subst o.
    intros [= [-> _]%nested_loop_pairs] [= [-> _]%nested_loop_pairs]. apply pairs_and. intros row.
    destruct p as [p|]; [apply holdsb_and | now rewrite andb_true_r].
  - destruct Hc as [(_ & _ & srows & Es & _) _]. cbn [execute_node].
    rewrite (scan_filter _ (match p with Some f => And e f | None => e end) _ _ Es).
    destruct p as [p|].
    + rewrite (scan_filter _ p _ _ Es). intros [= ->%filter_rows_holdsb] [= ->%filter_rows_holdsb].
      apply filter_filter_and, holdsb_and.
    + rewrite Es. intros [= <-%map_ok_inj] [= ->%filter_rows_holdsb]. reflexivity.
Qed.

(** The join of filtered sources. *)
Lemma pairs_filtered p p' fl fr ls rs :
  (forall l r, In l ls -> In r rs -> holdsb p (l ++ r) = holdsb fl l && holdsb fr r && holdsb p' (l ++ r)) ->
  pairs p' (List.filter (holdsb fl) ls) (List.filter (holdsb fr) rs) = pairs p ls rs.
Proof.
  intros Hp. unfold pairs. induction ls as [|l ls IH]; cbn [List.filter mbind list_bind]; [reflexivity|].
  rewrite <- IH by (intros; apply Hp; [now right | assumption]). specialize (Hp l). clear IH.
  enough (List.filter (holdsb p) (map (app l) rs)
    = if holdsb fl l then List.filter (holdsb p') (map (app l) (List.filter (holdsb fr) rs)) else []) as ->
    by now destruct (holdsb fl l).
  induction rs as [|r rs IH]; cbn [List.filter map]; [now destruct (holdsb fl l)|].
  rewrite (Hp r) by (now left). rewrite IH by (intros; apply Hp; [assumption | now right]).
  destruct (holdsb fl l); cbn [andb]; [|reflexivity].
  destruct (holdsb fr r); cbn [andb map List.filter]; reflexivity.
Qed.

(** Equijoin columns hold one type on all pairs of rows of the sources. *)
Definition join_typed (t : T) (l r : Node) (cs : list Expression) : Prop :=
  forall ls rs lrow rrow, yields l t ls -> yields r t rs -> In lrow ls -> In rrow rs -> equalities_typed (lrow ++ rrow) cs.

Lemma maybe_push_join_rows t l r p cs :
  into_cnf_vec p = Ok cs -> Forall (fun i => is_u64 (Z.of_nat i)) (columns_of p) ->
  inner_node l -> inner_node r -> join_typed t l r cs ->
  exists n', maybe_push_join (NNestedLoopJoin l r (Some p) false) = Ok n' /\
    (clean (NNestedLoopJoin l r (Some p) false) t -> clean n' t ->
     execute_node n' t = execute_node (NNestedLoopJoin l r (Some p) false) t).
Proof.
  intros Ecs Hu Il Ir Hty.
  destruct (maybe_push_join_spec l r p false cs Ecs Hu) as (l' & r' & p' & fl & fr & E & Pl & Pr & Hs).
  eexists. split; [exact E|]. intros Hc Hc'. destruct (clean_yields _ _ Hc) as [rows Y]. destruct (clean_yields _ _ Hc') as [rows' Y'].
  rewrite Y, Y'. do 2 f_equal. cbn [clean] in Hc, Hc'.
  destruct Hc as (_ & Cl & Cr), Hc' as (_ & Cl' & Cr').
  destruct (clean_here _ _ Cl) as (_ & (ls & El & Wl) & _), (clean_yields r t Cr) as [rs Er].
  destruct (clean_yields l' t Cl') as [ls' El'], (clean_yields r' t Cr') as [rs' Er'].
  pose proof (pushed_rows t fl l l' ls ls' Pl Il Cl El El') as ->.
  pose proof (pushed_rows t fr r r' rs rs' Pr Ir Cr Er Er') as ->.
  unfold yields in El. cbn [execute_node] in Y, Y'. rewrite El, Er in Y. rewrite El', Er' in Y'. cbn [outcome_bind] in Y, Y'.
  injection Y as [-> Hv]%nested_loop_pairs. injection Y' as [-> _]%nested_loop_pairs.
  apply pairs_filtered. intros lrow rrow Hl Hr. apply eq_true_iff_eq. rewrite !andb_true_iff, !holdsb_spec.
  destruct (Hv lrow rrow p Hl Hr eq_refl) as [v Ev].
  specialize (Hs lrow rrow v (proj1 (List.Forall_forall _ _) Wl _ Hl) (Hty _ _ _ _ El Er Hl Hr) Ev).
  cbn [holds]. unfold true_on at 1. rewrite Ev. transitivity (v = Boolean true); [split; congruence | tauto].
Qed.

Lemma push_filter_rows t e n n' :
  push_into e n = (None, n') -> inner_node n -> clean (NFilter n e) t -> clean n' t ->
  execute_node n' t = execute_node (NFilter n e) t.
Proof.
  intros Hp Hi Hc Hc'. destruct (clean_yields _ _ Hc) as [rows Y]. destruct (clean_yields _ _ Hc') as [rows' Y'].
  rewrite Y, Y'. do 2 f_equal. cbn [clean] in Hc. destruct (clean_yields n t (proj2 Hc)) as [rs Er].
  rewrite (pushed_rows t (Some e) n n' rs rows' Hp Hi (proj2 Hc) Er Y').
  cbn [execute_node] in Y. rewrite Er in Y. injection Y as ->%filter_rows_holdsb. reflexivity.
Qed.
End PushRows.

(** C29: Filter pushdown preserves the rows of inner joins.  Pushing the filter
    of a node into the scan, filter or inner join below it, and splitting the
    predicate of an inner join into filters on its sources (constant lookups
    copied across equijoins included) and a remaining predicate, always
    succeeds; and where neither plan reports an error, with equijoin columns of
    one type, both yield the same rows in the same order. *)
Theorem sql_filter_pushdown `{TransactionSpec T} (t : T) l r p cs :
  into_cnf_vec p = Ok cs -> Forall (fun i => is_u64 (Z.of_nat i)) (columns_of p) ->
  inner_node l -> inner_node r -> join_typed t l r cs ->
  (exists n', maybe_push_join (NNestedLoopJoin l r (Some p) false) = Ok n' /\
     (clean (NNestedLoopJoin l r (Some p) false) t -> clean n' t ->
      execute_node n' t = execute_node (NNestedLoopJoin l r (Some p) false) t)) /\
  (forall e l', push_into e l = (None, l') -> clean (NFilter l e) t -> clean l' t ->
     execute_node l' t = execute_node (NFilter l e) t).
Proof.
  intros. split; [now apply (maybe_push_join_rows t l r p cs)|]. intros e l' E. now apply push_filter_rows.
Qed.

(** ** Samples *)
Module PushSample.
Import SqlSample OptSample.

(** [t JOIN (VALUES (2), (3)) ON #2 = t.id AND t.id = 2]: the lookup is pushed
    into the scan and, through the equijoin, copied to the other side. *)
Definition push_predicate : Expression :=
  And (Equal (Column 2) (Column 0)) (Equal (Column 0) (Constant (Integer 2))).
Definition scan1 : Node := NScan table1 None None.
Definition filtered1 : Node := NFilter values1 (Constant (Boolean true)).
Definition push_plan : Node := NNestedLoopJoin scan1 filtered1 (Some push_predicate) false.
Definition pushed_plan : Node :=
  NNestedLoopJoin (NScan table1 (Some (Equal (Column 0) (Constant (Integer 2)))) None)
    (NFilter values1 (And (Equal (Column 0) (Constant (Integer 2))) (Constant (Boolean true))))
    (Some (Equal (Column 2) (Column 0))) false.

Ltac clean_rows rows :=
  split; [exact I|]; split;
  [exists rows; split; [vm_compute; reflexivity | repeat constructor] | try exact I].

Lemma clean_push_plan : clean push_plan db1.
Proof.
  cbn [clean push_plan scan1 filtered1 values1]. split; [|split; [split; [|exact I] | split; [|split; [|exact I]]]].
  - clean_rows [[Integer 2; Null; Integer 2]].
  - clean_rows db1. exists db1. split; [reflexivity | repeat constructor].
  - clean_rows [[Integer 2]; [Integer 3]].
  - clean_rows [[Integer 2]; [Integer 3]].
Qed.

Lemma clean_pushed_plan : clean pushed_plan db1.
Proof.
  cbn [clean pushed_plan values1]. split; [|split; [split; [|exact I] | split; [|split; [|exact I]]]].
  - clean_rows [[Integer 2; Null; Integer 2]].
  - clean_rows [[Integer 2; Null]]. exists db1. split; [reflexivity | repeat constructor].
  - clean_rows [[Integer 2]].
  - clean_rows [[Integer 2]; [Integer 3]].
Qed.

Lemma sql_filter_pushdown_witness :
  exists n', maybe_push_join push_plan = Ok n' /\ n' = pushed_plan /\
    execute_node n' db1 = execute_node push_plan db1.
Proof.
  assert (into_cnf_vec push_predicate = Ok [Equal (Column 2) (Column 0); Equal (Column 0) (Constant (Integer 2))]) as Ecs
    by (vm_compute; reflexivity).
  destruct (sql_filter_pushdown db1 scan1 filtered1 push_predicate _ Ecs) as [(n' & E & Hn) _].
  - repeat constructor; unfold u64_max; cbn; lia.
  - exact I.
  - exact I.
  - intros ls rs lrow rrow Yl Yr Hl Hr a b x y [[= <- <-]|[[=]|[]]] Ha Hb _.
    assert (ls = db1) as ->. { apply map_ok_inj. now injection Yl. }
    assert (rs = [[Integer 2]; [Integer 3]]) as ->.
    { apply map_ok_inj. now injection Yr. }
    cbn in Hl, Hr. destruct Hl as [<-|[<-|[]]], Hr as [<-|[<-|[]]];
      injection Ha as <-; injection Hb as <-; reflexivity.
  - assert (n' = pushed_plan) as -> by (vm_compute in E; injection E as <-; vm_compute; reflexivity).
    exists pushed_plan. split; [exact E|]. split; [reflexivity|].
    apply Hn; [exact clean_push_plan | exact clean_pushed_plan].
Defined.
End PushSample.
