(* ===== verification/SqlSchema.v ===== *)
(** * Schema and row validation ([Table::validate] and [Table::validate_row] of
    [src/sql/types/schema.rs])

    The catalog and transaction the checks read are the functions of the
    section; the local SQL engine passes its own. *)
From S2P Require Import Prelude Bytes Float64 SqlValue SqlExpr SqlPlan SqlExec.

(** [if b { return errinput!(msg) }] *)
Definition reject (b : bool) (msg : string) : outcome unit := if b then errinput msg else Ok tt.

(** [for (i, x) in l.iter().enumerate() { f(i, x)? }] *)
Fixpoint try_enumerate {A} (f : nat -> A -> outcome unit) (i : nat) (l : list A) : outcome unit :=
  match l with
  | [] => Ok tt
  | x :: l => let? _ := f i x in try_enumerate f (S i) l
  end.

(** ** Ordered sets

    A [BTreeSet<Value>] is its elements in the order of [Value::cmp]. *)
Fixpoint set_insert (v : Value) (s : list Value) : list Value :=
  match s with
  | [] => [v]
  | x :: s' => match value_cmp v x with
               | Lt => v :: s
               | Eq => s
               | Gt => x :: set_insert v s'
               end
  end.
Fixpoint set_remove (v : Value) (s : list Value) : list Value :=
  match s with
  | [] => []
  | x :: s' => match value_cmp v x with
               | Lt => s
               | Eq => s'
               | Gt => x :: set_remove v s'
               end
  end.
Definition set_of_list (l : list Value) : list Value := foldl (fun s v => set_insert v s) [] l.

Section Validate.
Context {T : Type} (get_table : bytes -> T -> outcome (option Table)).
Context (get : bytes -> list Value -> T -> outcome (list Row)).
Context (lookup_index : bytes -> bytes -> list Value -> T -> outcome (list Value)).

(** The type of the primary key a column refers to. *)
Definition reference_type (tb : Table) (reference : bytes) (t : T) : outcome DataType :=
  if bool_decide (reference = table_name tb) then
    outcome_map col_datatype (table_column tb (primary_key tb))
  else
    let? o := get_table reference t in
    match o with
    | Some target => outcome_map col_datatype (table_column target (primary_key target))
    | None => errinput "unknown table referenced by column"
    end.

Definition validate_column (tb : Table) (t : T) (i : nat) (c : Column_) : outcome unit :=
  let? _ := reject (bool_decide (col_name c = [])) "column name can't be empty" in
  let is_primary_key := (i =? primary_key tb)%nat in
  let? _ := reject (is_primary_key && nullable c) "primary key cannot be nullable" in
  let? _ := reject (is_primary_key && negb (unique c)) "primary key must be unique" in
  let? _ := reject (is_primary_key && col_index c) "primary key can't have an index" in
  let? _ := match datatype <$> col_default c with
            | None => reject (nullable c) "nullable column must have a default value"
            | Some None => reject (negb (nullable c)) "invalid NULL default for non-nullable column"
            | Some (Some vtype) => reject (bool_decide (vtype <> col_datatype c)) "invalid default type"
            end in
  let? _ := reject (unique c && negb (col_index c) && negb is_primary_key)
              "unique column must have a secondary index" in
  match references c with
  | None => Ok tt
  | Some reference =>
      let? _ := reject (negb (col_index c) && negb is_primary_key)
                  "reference column must have a secondary index" in
      let? reftype := reference_type tb reference t in
      reject (bool_decide (col_datatype c <> reftype)) "can't reference primary key from column"
  end.

Definition validate (tb : Table) (t : T) : outcome unit :=
  let? _ := reject (bool_decide (table_name tb = [])) "table name can't be empty" in
  let? _ := reject (bool_decide (columns tb = [])) "table has no columns" in
  let? _ := reject (bool_decide (columns tb !! primary_key tb = None)) "invalid primary key index" in
  try_enumerate (validate_column tb t) 0 (columns tb).

(** The checks of one value of a row with primary key [id]. *)
Definition validate_value (tb : Table) (id : Value) (update : bool) (t : T) (i : nat) (cv : Column_ * Value) :
    outcome unit :=
  let (c, value) := cv in
  let? _ := reject (match datatype value with
                    | Some vtype => bool_decide (vtype <> col_datatype c)
                    | None => false
                    end) "invalid datatype for column" in
  let? _ := reject (value_eq value Null && negb (nullable c)) "NULL value not allowed for column" in
  let? _ := match references c with
            | None => Ok tt
            | Some target =>
                match value with
                | Null => Ok tt
                | v =>
                    if bool_decide (target = table_name tb) && value_eq v id then Ok tt
                    else
                      let? rows := get target [v] t in
                      reject (bool_decide (rows = [])) "reference not in table"
                end
            end in
  if unique c && negb (i =? primary_key tb)%nat && negb (is_undefined value) then
    let? index := lookup_index (table_name tb) (col_name c) [value] t in
    let index := if update then set_remove id index else index in
    reject (negb (bool_decide (index = []))) "value already in unique column"
  else Ok tt.

Definition validate_row (tb : Table) (row : Row) (update : bool) (t : T) : outcome unit :=
  let? _ := reject (negb (length row =? length (columns tb))%nat) "invalid row size for table" in
  let? id := row_index row (primary_key tb) in
  let? _ := reject (is_undefined id) "invalid primary key" in
  let? _ := if update then Ok tt
            else
              let? rows := get (table_name tb) [id] t in
              reject (negb (bool_decide (rows = []))) "primary key already exists" in
  try_enumerate (validate_value tb id update t) 0 (zip (columns tb) row).
End Validate.
