(* ===== verification/SqlLocal.v ===== *)
(** * The local SQL engine ([src/sql/engine/local.rs])

    A SQL transaction keeps schemas, rows and secondary indexes as keys of a
    key/value transaction, the class [KvTransaction]: the operations of
    [mvcc::Transaction] that the engine uses, on the state [T] it acts on.  Keys
    are encoded with Keycode, values with bincode.  The model is the release
    build: [debug_assert!] is not evaluated. *)
From S2P Require Import Prelude Bytes Keycode KeycodeTheory Bincode Float64 SqlValue SqlExpr SqlPlan SqlExec SqlSchema.

(** ** Keys *)
Inductive SqlKey : Type :=
  | KeyTable (table : bytes)
  | KeyIndex (table column : bytes) (value : Value)
  | KeyRow (table : bytes) (id : Value).

Inductive SqlPrefix : Type :=
  | PrefixTable
  | PrefixIndex (table column : bytes)
  | PrefixRow (table : bytes).

(** [Value] as a key: floats are normalized when serialized. *)
Definition value_key (v : Value) : keyval :=
  match v with
  | Null => VEnum 0 []
  | Boolean b => VEnum 1 [VBool b]
  | Integer i => VEnum 2 [VI64 i]
  | Float f => VEnum 3 [VF64 (normalize_f64 f)]
  | String s => VEnum 4 [VStr s]
  end.

Definition sql_key_val (k : SqlKey) : keyval :=
  match k with
  | KeyTable table => VEnum 0 [VStr table]
  | KeyIndex table column value => VEnum 1 [VStr table; VStr column; value_key value]
  | KeyRow table id => VEnum 2 [VStr table; value_key id]
  end.
Definition sql_prefix_val (p : SqlPrefix) : keyval :=
  match p with
  | PrefixTable => VEnum 0 []
  | PrefixIndex table column => VEnum 1 [VStr table; VStr column]
  | PrefixRow table => VEnum 2 [VStr table]
  end.

Definition encode_key (k : SqlKey) : outcome bytes := serialize (sql_key_val k).
Definition encode_prefix (p : SqlPrefix) : outcome bytes := serialize (sql_prefix_val p).

(** ** Values

    [serialize_f64] normalizes the floats of a stored value; decoding returns
    the normalized value. *)
Definition normalize (v : Value) : Value := match v with Float f => Float (normalize_f64 f) | v => v end.
Definition normalize_column (c : Column_) : Column_ :=
  mkColumn (col_name c) (col_datatype c) (nullable c) (normalize <$> col_default c) (unique c) (col_index c)
    (references c).
Definition normalize_table (tb : Table) : Table :=
  mkTable (table_name tb) (primary_key tb) (map normalize_column (columns tb)).

(** What the store holds: values of their Rust type in normalized form, with
    one NaN (the one [f64::NAN] and arithmetic produce). *)
Definition stored (v : Value) : Prop :=
  value_ok v /\ normalize v = v /\
  match v with
  | String s => utf8_valid s = true
  | Float f => f64_is_nan f = true -> f = f64_nan
  | _ => True
  end.
Definition value_lt (a b : Value) : Prop := value_cmp a b = Lt.
Definition stored_row (row : Row) : Prop := Forall stored row.
Definition stored_ids (ids : list Value) : Prop := Forall stored ids /\ StronglySorted value_lt ids.
Definition stored_table (tb : Table) : Prop :=
  utf8_valid (table_name tb) = true /\
  Forall (fun c => utf8_valid (col_name c) = true /\
                   (forall v, col_default c = Some v -> stored v) /\
                   (forall r, references c = Some r -> utf8_valid r = true)) (columns tb).

(** ** The key/value transaction

    An iterator is consumed with [kv_next] on the state as it is at that moment;
    [kv_scan_items] are the items of an iterator that is drained at once. *)
Class KvTransaction (T : Type) : Type := {
  kv_get : bytes -> T -> outcome (option bytes);
  kv_set : bytes -> bytes -> stM T unit;
  kv_delete : bytes -> stM T unit;
  kv_iter : Type;
  kv_scan_prefix : bytes -> outcome kv_iter;
  kv_next : T -> kv_iter -> option (outcome (bytes * bytes)) * kv_iter;
  kv_scan_items : bytes -> T -> list (outcome (bytes * bytes));
}.

Section Local.
Context {T : Type} `{F64Pow, Regex, KvTransaction T}.
Context {BT : Bincode stored_table} {BR : Bincode stored_row} {BI : Bincode stored_ids}.

Definition encode_table (tb : Table) : bytes := bincode_serialize (valid := stored_table) (normalize_table tb).
Definition encode_row (row : Row) : bytes := bincode_serialize (valid := stored_row) (map normalize row).
Definition encode_ids (ids : list Value) : bytes := bincode_serialize (valid := stored_ids) (map normalize ids).
Definition decode_table : bytes -> outcome Table := bincode_deserialize (valid := stored_table).
Definition decode_row : bytes -> outcome Row := bincode_deserialize (valid := stored_row).
Definition decode_ids : bytes -> outcome (list Value) := bincode_deserialize (valid := stored_ids).

(** ** Reads *)
Definition kv_get_key (k : SqlKey) (t : T) : outcome (option bytes) :=
  let? raw := encode_key k in kv_get raw t.

Definition get_index (table column : bytes) (value : Value) (t : T) : outcome (list Value) :=
  let? o := kv_get_key (KeyIndex table column value) t in
  match o with
  | Some v => decode_ids v
  | None => Ok []
  end.

Definition get_row (table : bytes) (id : Value) (t : T) : outcome (option Row) :=
  let? o := kv_get_key (KeyRow table id) t in
  match o with
  | Some v => outcome_map Some (decode_row v)
  | None => Ok None
  end.

Definition local_get_table (table : bytes) (t : T) : outcome (option Table) :=
  let? o := kv_get_key (KeyTable table) t in
  match o with
  | Some v => outcome_map Some (decode_table v)
  | None => Ok None
  end.

Definition local_must_get_table (table : bytes) (t : T) : outcome Table :=
  let? o := local_get_table table t in
  match o with Some tb => Ok tb | None => errinput "table does not exist" end.

Definition scan_values {V} (decode : bytes -> outcome V) (p : SqlPrefix) (t : T) : outcome (list (outcome V)) :=
  let? raw := encode_prefix p in
  Ok (map (fun item => let? kv := item in decode kv.2) (kv_scan_items raw t)).

Definition local_list_tables (t : T) : outcome (list Table) :=
  let? items := scan_values decode_table PrefixTable t in try_collect items.

Definition has_index (table column : bytes) (t : T) : outcome bool :=
  let? tb := local_must_get_table table t in
  Ok (match List.find (fun c => bool_decide (col_name c = column)) (columns tb) with
      | Some c => col_index c
      | None => false
      end).

(** The columns of a table with their indexes that satisfy [f]. *)
Definition enumerate_filter (f : Column_ -> bool) (tb : Table) : list (nat * Column_) :=
  List.filter (fun ic => f ic.2) (zip (seq 0 (length (columns tb))) (columns tb)).
Definition indexed_columns (tb : Table) : list (nat * Column_) := enumerate_filter col_index tb.

Definition table_references (table : bytes) (t : T) : outcome (list (Table * list nat)) :=
  let? tables := local_list_tables t in
  Ok (List.filter (fun tr => negb (bool_decide (tr.2 = [])))
        (map (fun tb => (tb, (enumerate_filter (fun c => bool_decide (references c = Some table)) tb).*1)) tables)).

(** [ids.iter().filter_map(|id| self.get_row(table, id).transpose()).collect()] *)
Fixpoint local_get (table : bytes) (ids : list Value) (t : T) : outcome (list Row) :=
  match ids with
  | [] => Ok []
  | id :: ids =>
      let? o := get_row table id t in
      let? rows := local_get table ids t in
      Ok (match o with Some row => row :: rows | None => rows end)
  end.

Definition local_lookup_index (table column : bytes) (values : list Value) (t : T) : outcome (list Value) :=
  let? sets := try_collect (map (fun v => get_index table column v t) values) in
  Ok (set_of_list (concat sets)).

Definition local_scan (table : bytes) (filter : option Expression) (t : T) : outcome Rows :=
  let? rows := scan_values decode_row (PrefixRow table) t in
  Ok match filter with Some f => filter_rows f rows | None => rows end.

(** ** Writes *)
Definition kv_set_key (k : SqlKey) (v : bytes) : stM T unit :=
  let! raw := st_lift (encode_key k) in kv_set raw v.
Definition kv_delete_key (k : SqlKey) : stM T unit :=
  let! raw := st_lift (encode_key k) in kv_delete raw.

Definition set_index (table column : bytes) (value : Value) (ids : list Value) : stM T unit :=
  if bool_decide (ids = []) then kv_delete_key (KeyIndex table column value)
  else kv_set_key (KeyIndex table column value) (encode_ids ids).

(** [get_index], a change of the set, [set_index], for the value of one indexed
    column of a row. *)
Definition update_index (tb : Table) (change : list Value -> list Value) (row : Row) (ic : nat * Column_) :
    stM T unit :=
  let! v := st_lift (row_index row ic.1) in
  let! ids := st_read (get_index (table_name tb) (col_name ic.2) v) in
  set_index (table_name tb) (col_name ic.2) v (change ids).

(** The rows of [source] that refer to one of [ids] through its column [i]. *)
Definition referencing_ids (source : Table) (i : nat) (ids : list Value) (t : T) : outcome (list Value) :=
  let? column := table_column source i in
  if (i =? primary_key source)%nat then
    let? rows := local_get (table_name source) ids t in
    let? values := try_collect (map (fun row => row_nth row i) rows) in
    Ok (set_of_list values)
  else local_lookup_index (table_name source) (col_name column) ids t.

Definition check_reference (tb source : Table) (ids : list Value) (t : T) (i : nat) : outcome unit :=
  let? source_ids := referencing_ids source i ids t in
  let source_ids := if bool_decide (table_name source = table_name tb)
                    then foldl (fun s id => set_remove id s) source_ids ids else source_ids in
  reject (negb (bool_decide (source_ids = []))) "row referenced by".

(** [for x in l { f(x)? }], without state. *)
Fixpoint try_each {A} (f : A -> outcome unit) (l : list A) : outcome unit :=
  match l with
  | [] => Ok tt
  | x :: l => let? _ := f x in try_each f l
  end.

Definition check_references (tb : Table) (ids : list Value) (t : T) : outcome unit :=
  let? refs := table_references (table_name tb) t in
  try_each (fun sr => try_each (check_reference tb sr.1 ids t) sr.2) refs.

Definition delete_row (tb : Table) (id : Value) : stM T unit :=
  (if bool_decide (indexed_columns tb = []) then st_ret tt
   else
     let! o := st_read (get_row (table_name tb) id) in
     match o with
     | Some row => st_iter (update_index tb (set_remove id) row) (indexed_columns tb)
     | None => st_ret tt
     end) ;;;
  kv_delete_key (KeyRow (table_name tb) id).

Definition local_delete (table : bytes) (ids : list Value) : stM T unit :=
  let! tb := st_read (local_must_get_table table) in
  st_read (check_references tb ids) ;;;
  st_iter (delete_row tb) ids.

Definition local_validate_row : Table -> Row -> bool -> T -> outcome unit :=
  validate_row local_get local_lookup_index.

Definition insert_one (tb : Table) (row : Row) : stM T unit :=
  st_read (local_validate_row tb row false) ;;;
  let! id := st_lift (row_index row (primary_key tb)) in
  kv_set_key (KeyRow (table_name tb) id) (encode_row row) ;;;
  st_iter (update_index tb (set_insert id) row) (indexed_columns tb).

Definition local_insert (table : bytes) (rows : list Row) : stM T unit :=
  let! tb := st_read (local_must_get_table table) in
  st_iter (insert_one tb) rows.

(** The index entries of one column of an updated row. *)
Definition move_index (tb : Table) (id : Value) (old row : Row) (ic : nat * Column_) : stM T unit :=
  let! o := st_lift (row_index old ic.1) in
  let! n := st_lift (row_index row ic.1) in
  if value_eq o n then st_ret tt
  else
    update_index tb (set_remove id) old ic ;;;
    update_index tb (set_insert id) row ic.

Definition update_one (tb : Table) (ir : Value * Row) : stM T unit :=
  let (id, row) := ir in
  let! key := st_lift (row_index row (primary_key tb)) in
  if negb (value_eq id key) then
    local_delete (table_name tb) [id] ;;;
    local_insert (table_name tb) [row]
  else
    st_read (local_validate_row tb row true) ;;;
    (if bool_decide (indexed_columns tb = []) then st_ret tt
     else
       let! olds := st_read (local_get (table_name tb) [id]) in
       match olds with
       | [] => st_panic "removal index out of bounds"
       | old :: _ => st_iter (move_index tb id old row) (indexed_columns tb)
       end) ;;;
    kv_set_key (KeyRow (table_name tb) id) (encode_row row).

Definition local_update (table : bytes) (rows : list (Value * Row)) : stM T unit :=
  let! tb := st_read (local_must_get_table table) in
  st_iter (update_one tb) rows.

(** ** Schemas *)
Definition local_create_table (tb : Table) : stM T unit :=
  let! o := st_read (local_get_table (table_name tb)) in
  match o with
  | Some _ => st_err (InvalidInput "table already exists")
  | None =>
      st_read (validate local_get_table tb) ;;;
      kv_set_key (KeyTable (table_name tb)) (encode_table tb)
  end.

(** [while let Some(key) = keys.next().transpose()? { self.txn.delete(&key)? }]:
    every turn sees the state the previous deletions left. *)
Fixpoint delete_keys (fuel : nat) (it : kv_iter) : stM T unit :=
  match fuel with
  | O => st_panic "fuel exhausted"
  | S fuel => fun t =>
      match kv_next t it with
      | (None, _) => (Ok tt, t)
      | (Some item, it) => (let! kv := st_lift item in kv_delete kv.1 ;;; delete_keys fuel it) t
      end
  end.

Definition delete_prefix (p : SqlPrefix) : stM T unit := fun t =>
  (let! raw := st_lift (encode_prefix p) in
   let! it := st_lift (kv_scan_prefix raw) in
   delete_keys (S (length (kv_scan_items raw t))) it) t.

Definition local_drop_table (table : bytes) (if_exists : bool) : stM T bool :=
  let! o := st_read (local_get_table table) in
  match o with
  | None => if if_exists then st_ret false else st_err (InvalidInput "table does not exist")
  | Some tb =>
      let! refs := st_read (table_references (table_name tb)) in
      match List.find (fun tr => negb (bool_decide (table_name tr.1 = table_name tb))) refs with
      | Some _ => st_err (InvalidInput "table is referenced from")
      | None =>
          kv_delete_key (KeyTable (table_name tb)) ;;;
          delete_prefix (PrefixRow (table_name tb)) ;;;
          st_iter (fun ic => delete_prefix (PrefixIndex (table_name tb) (col_name ic.2))) (indexed_columns tb) ;;;
          st_ret true
      end
  end.

#[export] Instance local_transaction : Transaction T := {
  txn_delete := local_delete;
  txn_get := local_get;
  txn_insert := local_insert;
  txn_lookup_index := local_lookup_index;
  txn_scan := local_scan;
  txn_update := local_update;
  create_table := local_create_table;
  drop_table := local_drop_table;
  get_table := local_get_table;
  list_tables := local_list_tables;
}.
End Local.
