(* ===== verification/SqlLocalRep.v ===== *)
(** * The stored form of a SQL database

    [sql_db] is the logical content of the SQL keyspace: schemas, rows and index
    entries; [rep] relates it to the key/value pairs.  [KvSpec] states what the
    engine relies on of the key/value transaction.  Reads return what [sql_db]
    holds, and the primitive writes change one entry of it. *)
From S2P Require Import Prelude Bytes Keycode KeycodeTheory Btree Bincode Float64 SqlValue SqlValueTheory SqlExpr SqlPlan SqlExec SqlSchema SqlLocal.

(** ** The key/value transaction as the engine sees it *)
Class KvSpec (T : Type) `{KvTransaction T} : Type := {
  kv_rep : T -> gmap bytes bytes -> Prop;
  (** The items an iterator has still to yield. *)
  kv_iter_rep : kv_iter -> T -> list (bytes * bytes) -> Prop;
  kv_get_spec t M k : kv_rep t M -> kv_get k t = Ok (M !! k);
  kv_set_spec t M k v : kv_rep t M ->
    (exists t', kv_set k v t = (Ok tt, t') /\ kv_rep t' (<[k := v]> M)) \/
    (exists e t', kv_set k v t = (Err e, t') /\ is_deterministic e = true);
  kv_delete_spec t M k : kv_rep t M ->
    (exists t', kv_delete k t = (Ok tt, t') /\ kv_rep t' (delete k M) /\
       forall it l, kv_iter_rep it t l -> k ∉ l.*1 -> kv_iter_rep it t' l) \/
    (exists e t', kv_delete k t = (Err e, t') /\ is_deterministic e = true);
  kv_scan_spec t M p : kv_rep t M ->
    exists it l, kv_scan_prefix p = Ok it /\ kv_iter_rep it t l /\ kv_scan_items p t = map Ok l /\
      scan_of (prefix_range p) M l;
  kv_next_spec t M it l : kv_rep t M -> kv_iter_rep it t l ->
    match l with
    | [] => (kv_next t it).1 = None
    | kv :: l' => exists it', kv_next t it = (Some (Ok kv), it') /\ kv_iter_rep it' t l'
    end;
}.

(** ** Keys *)
Definition senc (k : SqlKey) : bytes := enc (sql_key_val k).

Definition key_ok (k : SqlKey) : Prop :=
  match k with
  | KeyTable t => utf8_valid t = true
  | KeyIndex t c v => utf8_valid t = true /\ utf8_valid c = true /\ stored v
  | KeyRow t v => utf8_valid t = true /\ stored v
  end.

#[export] Instance SqlKey_eq_dec : EqDecision SqlKey.
Proof. solve_decision. Defined.

Definition value_shape : keytype := KEnum [[]; [KBool]; [KI64]; [KF64]; [KStr]].
Definition sql_key_shape : keytype := KEnum [[KStr]; [KStr; KStr; value_shape]; [KStr; value_shape]].
Definition sql_prefix_shape : keytype := KEnum [[]; [KStr; KStr]; [KStr]].

Lemma normalize_idem v : normalize v = v -> match v with Float f => normalize_f64 f = f | _ => True end.
Proof. destruct v; cbn; auto. now intros [= E]. Qed.

Lemma value_key_typed v : stored v -> well_typed value_shape (value_key v) = true.
Proof.
  intros (Hok & Hn%normalize_idem & Hu). destruct v; cbn in *; try reflexivity.
  - rewrite (proj2 (in_i64_spec i) Hok). reflexivity.
  - rewrite Hn, (proj2 (in_u64_spec f) Hok). reflexivity.
  - now rewrite Hu.
Qed.

Lemma sql_key_typed k : key_ok k -> well_typed sql_key_shape (sql_key_val k) = true.
Proof.
  destruct k; cbn [key_ok sql_key_val]; intros Hk.
  - cbn. now rewrite Hk.
  - destruct Hk as (H1 & H2 & Hv%value_key_typed). apply well_typed_enum. eexists. split; [reflexivity|].
    repeat constructor; assumption.
  - destruct Hk as (H1 & Hv%value_key_typed). apply well_typed_enum. eexists. split; [reflexivity|].
    repeat constructor; assumption.
Qed.

(** Every key is serialized, whatever its value is. *)
Lemma ser_ok_value v : ser_ok (value_key v).
Proof. destruct v; apply ser_ok_enum; try lia; repeat constructor; try discriminate; apply ser_ok_str. Qed.
Lemma encode_key_senc k : encode_key k = Ok (senc k).
Proof.
  unfold encode_key, serialize. assert (ser_ok (sql_key_val k)) as [_ ->]; [|reflexivity].
  destruct k; apply ser_ok_enum; try lia; auto using ser_ok_str, ser_ok_value.
Qed.

Lemma value_key_inj a b : stored a -> stored b -> value_key a = value_key b -> a = b.
Proof.
  intros (_ & Ha%normalize_idem & _) (_ & Hb%normalize_idem & _).
  destruct a, b; cbn in *; try congruence.
Qed.

Lemma senc_inj a b : key_ok a -> key_ok b -> senc a = senc b -> a = b.
Proof.
  intros Ha Hb E. assert (sql_key_val a = sql_key_val b) as Ev.
  { pose proof (deser_ok_typed sql_key_shape eq_refl _ (sql_key_typed a Ha) []) as Da.
    pose proof (deser_ok_typed sql_key_shape eq_refl _ (sql_key_typed b Hb) []) as Db.
    unfold senc in E. rewrite E, Db in Da. now injection Da. }
  destruct a, b; try discriminate; cbn [key_ok sql_key_val] in *; injection Ev; intros; subst; try reflexivity.
  - f_equal. apply value_key_inj; tauto.
  - f_equal. apply value_key_inj; tauto.
Qed.

(** ** Prefixes *)
Definition prefix_ok (p : SqlPrefix) : Prop :=
  match p with
  | PrefixTable => True
  | PrefixIndex t c => utf8_valid t = true /\ utf8_valid c = true
  | PrefixRow t => utf8_valid t = true
  end.
Definition in_prefix (p : SqlPrefix) (k : SqlKey) : Prop :=
  match p, k with
  | PrefixTable, KeyTable _ => True
  | PrefixIndex t c, KeyIndex t' c' _ => t' = t /\ c' = c
  | PrefixRow t, KeyRow t' _ => t' = t
  | _, _ => False
  end.

Lemma encode_sql_prefix p : prefix_ok p -> encode_prefix p = Ok (enc (sql_prefix_val p)).
Proof.
  intros Hp. apply (serialize_enc sql_prefix_shape); [reflexivity|].
  destruct p; cbn in *; [reflexivity | |]; rewrite ?Hp; [|reflexivity].
  destruct Hp as [-> ->]. reflexivity.
Qed.

Lemma bytes_enc_prefix a b s : is_prefix (bytes_enc a) (bytes_enc b ++ s) = true <-> a = b.
Proof.
  rewrite is_prefix_spec. split; [|intros ->; eauto].
  intros [r E%(f_equal decode_next_bytes)]. rewrite !decode_next_bytes_enc in E. congruence.
Qed.

Lemma bytes_enc_prefix2 a b c d s :
  is_prefix (bytes_enc a ++ bytes_enc b) (bytes_enc c ++ bytes_enc d ++ s) = true <-> c = a /\ d = b.
Proof.
  rewrite is_prefix_spec. split; [|intros [-> ->]; exists s; now rewrite <- app_assoc].
  intros [r E]. rewrite <- app_assoc in E.
  pose proof (f_equal decode_next_bytes E) as E1. rewrite !decode_next_bytes_enc in E1. injection E1 as -> E2.
  apply (f_equal decode_next_bytes) in E2. rewrite !decode_next_bytes_enc in E2. split; congruence.
Qed.

Lemma is_prefix_tag a b p s : is_prefix (a :: p) (b :: s) = bool_decide (a = b) && is_prefix p s.
Proof. reflexivity. Qed.

Lemma is_prefix_senc p k : is_prefix (enc (sql_prefix_val p)) (senc k) = true <-> in_prefix p k.
Proof.
  unfold senc. destruct p as [|t c|t], k as [t'|t' c' v|t' v];
    cbn [sql_prefix_val sql_key_val enc map concat in_prefix]; rewrite is_prefix_tag, ?app_nil_r, andb_true_iff;
    rewrite bool_decide_eq_true; try (split; [intros [[=] _] | intros []]; fail).
  - tauto.
  - rewrite bytes_enc_prefix2. tauto.
  - rewrite bytes_enc_prefix. split; [intros [_ ->] | intros ->]; auto.
Qed.

(** ** The logical content *)
Record sql_db : Type := mkSqlDb {
  d_table : bytes -> option Table;
  d_row : bytes -> Value -> option Row;
  d_index : bytes -> bytes -> Value -> list Value;
}.

Definition db_set_table (n : bytes) (o : option Table) (D : sql_db) : sql_db :=
  mkSqlDb (fun n' => if decide (n' = n) then o else d_table D n') (d_row D) (d_index D).
Definition db_set_row (n : bytes) (id : Value) (o : option Row) (D : sql_db) : sql_db :=
  mkSqlDb (d_table D) (fun n' id' => if decide (n' = n /\ id' = id) then o else d_row D n' id') (d_index D).
Definition db_set_index (n c : bytes) (v : Value) (ids : list Value) (D : sql_db) : sql_db :=
  mkSqlDb (d_table D) (d_row D)
    (fun n' c' v' => if decide (n' = n /\ c' = c /\ v' = v) then ids else d_index D n' c' v').

(** Every entry can be decoded. *)
Record db_wf (D : sql_db) : Prop := {
  wf_table n tb : d_table D n = Some tb -> table_name tb = n /\ stored_table tb;
  wf_row n id row : d_row D n id = Some row -> utf8_valid n = true /\ stored id /\ stored_row row;
  wf_index n c v : stored_ids (d_index D n c v);
}.

Lemma normalize_stored l : Forall stored l -> map normalize l = l.
Proof. induction 1 as [|v l (_ & Hv & _) _ IH]; cbn; congruence. Qed.

Lemma normalize_stored_table tb : stored_table tb -> normalize_table tb = tb.
Proof.
  intros [_ Hc]. destruct tb as [n pk cs]. unfold normalize_table. cbn in *. f_equal.
  induction Hc as [|c cs (_ & Hd & _) _ IH]; cbn; [reflexivity|]. f_equal; [|exact IH].
  destruct c as [cn ct nu d u ix r]. unfold normalize_column. cbn in *. f_equal.
  destruct d as [v|]; cbn; [|reflexivity]. f_equal. now apply Hd.
Qed.

Section Rep.
Context {T : Type} `{F64Pow, Regex, KvSpec T}.
Context {BT : Bincode stored_table} {BR : Bincode stored_row} {BI : Bincode stored_ids}.

Definition db_lookup (D : sql_db) (k : SqlKey) : option bytes :=
  match k with
  | KeyTable n => encode_table <$> d_table D n
  | KeyIndex n c v => match d_index D n c v with [] => None | ids => Some (encode_ids ids) end
  | KeyRow n id => encode_row <$> d_row D n id
  end.

Definition rep (M : gmap bytes bytes) (D : sql_db) : Prop :=
  (forall k, key_ok k -> M !! senc k = db_lookup D k) /\
  (forall raw, is_Some (M !! raw) -> exists k, key_ok k /\ raw = senc k).

Definition db_rep (D : sql_db) (t : T) : Prop := exists M, kv_rep t M /\ rep M D.

Lemma decode_encode_table tb : stored_table tb -> decode_table (encode_table tb) = Ok tb.
Proof. intros Ht. unfold encode_table, decode_table. rewrite normalize_stored_table by exact Ht. now apply bincode_roundtrip. Qed.
Lemma decode_encode_row row : stored_row row -> decode_row (encode_row row) = Ok row.
Proof. intros Hr. unfold encode_row, decode_row. rewrite normalize_stored by exact Hr. now apply bincode_roundtrip. Qed.
Lemma decode_encode_ids ids : stored_ids ids -> decode_ids (encode_ids ids) = Ok ids.
Proof. intros Hi. unfold encode_ids, decode_ids. rewrite normalize_stored by apply Hi. now apply bincode_roundtrip. Qed.

(** ** Reads *)
Lemma kv_get_key_spec D t k : db_rep D t -> key_ok k -> kv_get_key k t = Ok (db_lookup D k).
Proof.
  intros (M & Hk & HM & _) Ho. unfold kv_get_key. rewrite encode_key_senc. cbn [outcome_bind].
  now rewrite (kv_get_spec t M), HM.
Qed.

Lemma get_row_spec D t n id :
  db_rep D t -> db_wf D -> utf8_valid n = true -> stored id -> get_row n id t = Ok (d_row D n id).
Proof.
  intros Hr Hw Hn Hi. unfold get_row. rewrite (kv_get_key_spec D) by (assumption || (repeat split; assumption || apply Hv || apply Hi)).
  cbn [outcome_bind db_lookup]. destruct (d_row D n id) as [row|] eqn:E; [|reflexivity]. cbn [fmap option_fmap option_map].
  rewrite decode_encode_row; [reflexivity | apply (wf_row D Hw _ _ _ E)].
Qed.

Lemma get_index_spec D t n c v :
  db_rep D t -> db_wf D -> utf8_valid n = true -> utf8_valid c = true -> stored v ->
  get_index n c v t = Ok (d_index D n c v).
Proof.
  intros Hr Hw Hn Hc Hv. unfold get_index. rewrite (kv_get_key_spec D) by (assumption || (repeat split; assumption || apply Hv || apply Hi)).
  cbn [outcome_bind db_lookup]. pose proof (wf_index D Hw n c v) as Hi.
  destruct (d_index D n c v) as [|x ids]; [reflexivity|]. now rewrite decode_encode_ids.
Qed.

(** A read with a key that is not of the stored form (a float that is not
    normalized, say) returns what is stored under the same bytes. *)
Lemma kv_get_key_any D t p k :
  db_rep D t -> in_prefix p k ->
  exists o, kv_get_key k t = Ok o /\ forall v, o = Some v -> exists k', key_ok k' /\ in_prefix p k' /\ db_lookup D k' = Some v.
Proof.
  intros (M & Hk & HM & HK) Hp. unfold kv_get_key. rewrite encode_key_senc. cbn [outcome_bind]. rewrite (kv_get_spec t M) by exact Hk.
  eexists. split; [reflexivity|]. intros v Hv. destruct (HK (senc k)) as (k' & Hok & E); [eauto|]. exists k'. split; [exact Hok|].
  split; [|rewrite <- HM, <- E; assumption]. apply is_prefix_senc. rewrite <- E. now apply is_prefix_senc.
Qed.
Lemma get_row_any D t n id :
  db_rep D t -> db_wf D -> exists o, get_row n id t = Ok o /\ forall row, o = Some row -> exists id', d_row D n id' = Some row.
Proof.
  intros Hr Hw. unfold get_row. destruct (kv_get_key_any D t (PrefixRow n) (KeyRow n id) Hr eq_refl) as (o & -> & Ho).
  destruct o as [v|]; [|exists None; split; [reflexivity | discriminate]].
  destruct (Ho v eq_refl) as ([| |n' id'] & _ & Hp & Hl); try easy. cbn in Hp. subst n'. cbn [db_lookup] in Hl.
  destruct (d_row D n id') as [row|] eqn:E; [|discriminate]. injection Hl as <-. cbn [outcome_bind].
  rewrite decode_encode_row by apply (wf_row D Hw _ _ _ E). eexists. split; [reflexivity|]. intros r [= <-]. eauto.
Qed.
Lemma get_index_any D t n c v : db_rep D t -> db_wf D -> exists ids, get_index n c v t = Ok ids.
Proof.
  intros Hr Hw. unfold get_index. destruct (kv_get_key_any D t (PrefixIndex n c) (KeyIndex n c v) Hr (conj eq_refl eq_refl)) as (o & -> & Ho).
  destruct o as [b|]; [|now eexists]. destruct (Ho b eq_refl) as ([|n' c' v'|] & _ & Hp & Hl); try easy. cbn [db_lookup] in Hl.
  pose proof (wf_index D Hw n' c' v') as Hi. destruct (d_index D n' c' v') as [|x ids]; [discriminate|]. injection Hl as <-.
  cbn [outcome_bind]. rewrite decode_encode_ids by exact Hi. now eexists.
Qed.

Lemma get_table_spec D t n :
  db_rep D t -> db_wf D -> utf8_valid n = true -> local_get_table n t = Ok (d_table D n).
Proof.
  intros Hr Hw Hn. unfold local_get_table. rewrite (kv_get_key_spec D) by assumption.
  cbn [outcome_bind db_lookup]. destruct (d_table D n) as [tb|] eqn:E; [|reflexivity]. cbn [fmap option_fmap option_map].
  rewrite decode_encode_table; [reflexivity | apply (wf_table D Hw _ _ E)].
Qed.

Lemma must_get_table_spec D t n :
  db_rep D t -> db_wf D -> utf8_valid n = true ->
  local_must_get_table n t = match d_table D n with Some tb => Ok tb | None => errinput "table does not exist" end.
Proof. intros. unfold local_must_get_table. now rewrite (get_table_spec D). Qed.

Lemma local_get_spec D t n ids :
  db_rep D t -> db_wf D -> utf8_valid n = true -> Forall stored ids ->
  local_get n ids t = Ok (omap (d_row D n) ids).
Proof.
  intros Hr Hw Hn. induction 1 as [|id ids Hi _ IH]; [reflexivity|]. cbn [local_get omap list_omap].
  rewrite (get_row_spec D) by assumption. cbn [outcome_bind]. rewrite IH. cbn [outcome_bind].
  now destruct (d_row D n id).
Qed.

Lemma try_collect_map_total {A B} (f : A -> outcome B) (g : A -> B) l :
  (forall x, In x l -> f x = Ok (g x)) -> try_collect (map f l) = Ok (map g l).
Proof.
  induction l as [|x l IH]; intros Hf; [reflexivity|]. cbn [map try_collect].
  rewrite (Hf x) by now left. cbn [outcome_bind]. rewrite IH by (intros; apply Hf; now right). reflexivity.
Qed.

Lemma lookup_index_spec D t n c vs :
  db_rep D t -> db_wf D -> utf8_valid n = true -> utf8_valid c = true -> Forall stored vs ->
  local_lookup_index n c vs t = Ok (set_of_list (vs ≫= d_index D n c)).
Proof.
  intros Hr Hw Hn Hc Hv. unfold local_lookup_index.
  rewrite (try_collect_map_total _ (d_index D n c)).
  - cbn [outcome_bind]. do 2 f_equal. induction vs as [|v vs IH]; [reflexivity|]. cbn. f_equal. apply IH.
    now apply Forall_cons in Hv.
  - intros v Hin. apply (get_index_spec D); auto. apply (proj1 (List.Forall_forall _ _) Hv _ Hin).
Qed.

(** The entries with a prefix, in key order. *)
Lemma scan_items_spec D t p :
  db_rep D t -> prefix_ok p ->
  exists it l, kv_scan_prefix (enc (sql_prefix_val p)) = Ok it /\ kv_iter_rep it t (map (fun kv => (senc kv.1, kv.2)) l) /\
    kv_scan_items (enc (sql_prefix_val p)) t = map (fun kv => Ok (senc kv.1, kv.2)) l /\
    StronglySorted (fun a b => lex_lt (senc a.1) (senc b.1) = true) l /\
    forall k v, In (k, v) l <-> key_ok k /\ in_prefix p k /\ db_lookup D k = Some v.
Proof.
  intros (M & Hk & HM & HK) Hp.
  destruct (kv_scan_spec t M (enc (sql_prefix_val p)) Hk) as (it & raws & Hs & Hi & Hitems & Hsort & Hin).
  assert (exists l, raws = map (fun kv => (senc kv.1, kv.2)) l /\ Forall (fun kv => key_ok kv.1) l) as (l & -> & Hl).
  { assert (forall raw v, In (raw, v) raws -> exists k, key_ok k /\ raw = senc k) as Hex.
    { intros raw v Hr. apply HK. exists v. now apply Hin in Hr. }
    clear -Hex. induction raws as [|[raw v] raws IH]; [exists []; split; [reflexivity | constructor]|].
    destruct IH as (l & -> & Hl); [intros; eapply Hex; right; eassumption|].
    destruct (Hex raw v) as (k & Hk & ->); [now left|]. exists ((k, v) :: l). split; [reflexivity|].
    now constructor. }
  exists it, l. split; [exact Hs|]. split; [exact Hi|]. split; [now rewrite Hitems, map_map|]. split.
  - clear -Hsort. induction l as [|a l IH]; [constructor|]. cbn [map] in Hsort.
    apply StronglySorted_inv in Hsort as [Hs Hf]. constructor; [auto|].
    rewrite List.Forall_forall in *. intros b Hb. apply (Hf (senc b.1, b.2)). now apply (in_map (fun kv => (senc kv.1, kv.2))).
  - intros k v. rewrite List.Forall_forall in Hl. split.
    + intros Hkv. pose proof (Hl _ Hkv) as Hok. cbn in Hok. split; [exact Hok|].
      apply (in_map (fun kv => (senc kv.1, kv.2))), Hin in Hkv as [Hv Hr]. cbn in Hv, Hr.
      split; [|now rewrite <- HM]. apply is_prefix_senc. rewrite <- in_prefix_range_cmp. exact Hr.
    + intros (Hok & Hpre & Hv). rewrite <- HM in Hv by exact Hok.
      assert (In (senc k, v) (map (fun kv => (senc kv.1, kv.2)) l)) as Hm.
      { apply Hin. split; [exact Hv|]. apply is_prefix_senc in Hpre. rewrite <- in_prefix_range_cmp in Hpre. exact Hpre. }
      apply in_map_iff in Hm as ([k' v'] & [= E <-] & Hkv). 
      now rewrite (senc_inj k k') by (auto; apply (Hl _ Hkv)).
Qed.

Lemma scan_values_spec {V} (decode : bytes -> outcome V) (f : SqlKey -> V) D t p :
  db_rep D t -> prefix_ok p ->
  (forall k v, key_ok k -> in_prefix p k -> db_lookup D k = Some v -> decode v = Ok (f k)) ->
  exists ks, scan_values decode p t = Ok (map (fun k => Ok (f k)) ks) /\
    StronglySorted (fun a b => lex_lt (senc a) (senc b) = true) ks /\
    forall k, In k ks <-> key_ok k /\ in_prefix p k /\ is_Some (db_lookup D k).
Proof.
  intros Hr Hp Hd. destruct (scan_items_spec D t p Hr Hp) as (it & l & _ & _ & Hi & Hs & Hin).
  exists (map fst l). unfold scan_values. rewrite encode_sql_prefix by exact Hp. cbn [outcome_bind].
  rewrite Hi, !map_map. split; [|split].
  - f_equal. apply map_ext_in. intros [k v] Hkv. cbn [outcome_bind fst snd]. apply Hin in Hkv as (? & ? & ?). now apply Hd.
  - clear -Hs. induction Hs as [|a l Hs IH Hf]; cbn [map]; [constructor|]. constructor; [exact IH|].
    apply List.Forall_forall. intros k (b & <- & Hb)%in_map_iff. rewrite List.Forall_forall in Hf. auto.
  - intros k. rewrite in_map_iff. split.
    + intros ([k' v] & <- & Hkv). apply Hin in Hkv as (? & ? & ?). eauto.
    + intros (Hk & Hpre & [v Hv]). exists (k, v). split; [reflexivity|]. now apply Hin.
Qed.

Lemma list_tables_spec D t :
  db_rep D t -> db_wf D ->
  exists tbs, local_list_tables t = Ok tbs /\ forall tb, In tb tbs <-> exists n, d_table D n = Some tb.
Proof.
  intros Hr Hw.
  destruct (scan_values_spec decode_table
    (fun k => match k with KeyTable n => default (mkTable [] 0 []) (d_table D n) | _ => mkTable [] 0 [] end)
    D t PrefixTable Hr I) as (ks & E & _ & Hin).
  { intros [n| |] v Hk Hp Hv; try easy. cbn [db_lookup] in Hv.
    destruct (d_table D n) as [tb|] eqn:Et; [|discriminate]. injection Hv as <-. cbn [default].
    apply decode_encode_table, (wf_table D Hw _ _ Et). }
  eexists. unfold local_list_tables. rewrite E. cbn [outcome_bind]. rewrite <- map_map, try_collect_map_ok.
  split; [reflexivity|]. intros tb. rewrite in_map_iff. split.
  - intros (k & <- & Hk). apply Hin in Hk as (_ & Hp & [v Hv]). destruct k as [n| |]; try easy. cbn [db_lookup] in Hv.
    exists n. destruct (d_table D n); [reflexivity | discriminate].
  - intros [n Et]. exists (KeyTable n). rewrite Et. split; [reflexivity|]. apply Hin.
    destruct (wf_table D Hw _ _ Et) as [<- [Hu _]]. cbn [db_lookup]. rewrite Et. cbn. eauto.
Qed.

(** A scan returns the rows of a table in the order of their encoded keys. *)
Lemma local_scan_spec D t n :
  db_rep D t -> db_wf D -> utf8_valid n = true ->
  exists ids, local_scan n None t = Ok (map Ok (omap (d_row D n) ids)) /\
    StronglySorted (fun a b => lex_lt (senc (KeyRow n a)) (senc (KeyRow n b)) = true) ids /\
    forall id, In id ids <-> is_Some (d_row D n id).
Proof.
  intros Hr Hw Hn.
  destruct (scan_values_spec decode_row
    (fun k => match k with KeyRow n id => default [] (d_row D n id) | _ => [] end) D t (PrefixRow n) Hr Hn)
    as (ks & E & Hs & Hin).
  { intros [| |n' id] v Hk Hp Hv; try easy. cbn [db_lookup] in Hv.
    destruct (d_row D n' id) as [row|] eqn:Et; [|discriminate]. injection Hv as <-. cbn [default].
    apply decode_encode_row, (wf_row D Hw _ _ _ Et). }
  unfold local_scan. rewrite E. cbn [outcome_bind]. clear E.
  assert (exists ids, ks = map (KeyRow n) ids) as [ids ->].
  { assert (forall k, In k ks -> exists id, k = KeyRow n id) as Hk.
    { intros k Hk. apply Hin in Hk as (_ & Hp & _). destruct k; try easy. cbn in Hp. subst. eauto. }
    clear -Hk. induction ks as [|k ks IH]; [now exists []|].
    destruct (Hk k) as [id ->]; [now left|]. destruct IH as [ids ->]; [intros; apply Hk; now right|].
    now exists (id :: ids). }
  exists ids. split; [|split].
  - do 2 f_equal. rewrite map_map. clear Hs. assert (forall id, In id ids -> is_Some (d_row D n id)) as Hid.
    { intros id Hi. apply (in_map (KeyRow n)), Hin in Hi as (_ & _ & [v Hv]). cbn [db_lookup] in Hv.
      destruct (d_row D n id); [eauto | discriminate]. }
    clear Hin. induction ids as [|id ids IH]; [reflexivity|]. cbn [map omap list_omap].
    destruct (Hid id) as [row Er]; [now left|]. rewrite Er. cbn [default map]. f_equal.
    apply IH. intros; apply Hid. now right.
  - clear -Hs. induction ids as [|id ids IH]; [constructor|]. cbn [map] in Hs. apply StronglySorted_inv in Hs as [Hs Hf].
    constructor; [auto|]. rewrite List.Forall_forall in *. intros b Hb. apply Hf. now apply in_map.
  - intros id. split.
    + intros Hi. apply (in_map (KeyRow n)), Hin in Hi as (_ & _ & [v Hv]). cbn [db_lookup] in Hv.
      destruct (d_row D n id); [eauto | discriminate].
    + intros [row Er]. assert (In (KeyRow n id) (map (KeyRow n) ids)) as (x & [= ->] & Hx)%in_map_iff; [|exact Hx].
      apply Hin. destruct (wf_row D Hw _ _ _ Er) as (_ & Hi & _). cbn [db_lookup key_ok in_prefix]. rewrite Er. cbn. eauto.
Qed.

(** ** Triples: what a computation does to the database if it succeeds

    It may fail, with an error that all replicas of a state machine see, but
    does not panic. *)
Definition triple {A} (P : T -> Prop) (m : stM T A) (Q : A -> T -> Prop) : Prop :=
  forall t, P t -> match m t with
                   | (Ok a, t') => Q a t'
                   | (Err e, _) => is_deterministic e = true
                   | (Panic _, _) => False
                   end.

Lemma triple_bind {A B} P (m : stM T A) R (k : A -> stM T B) Q :
  triple P m R -> (forall a, triple (R a) (k a) Q) -> triple P (st_bind m k) Q.
Proof.
  intros Hm Hk t Ht. specialize (Hm t Ht). unfold st_bind. destruct (m t) as [[a|e|p] t']; auto. apply Hk, Hm.
Qed.
Lemma triple_ret {A} P (a : A) (Q : A -> T -> Prop) : (forall t, P t -> Q a t) -> triple P (st_ret a) Q.
Proof. intros HQ t Ht. cbn. auto. Qed.
Lemma triple_err {A} P e (Q : A -> T -> Prop) : is_deterministic e = true -> triple P (st_err e) Q.
Proof. intros He t Ht. exact He. Qed.
(** A read, and what its success tells. *)
Lemma triple_read {A} P (f : T -> outcome A) (Q : A -> T -> Prop) :
  (forall t, P t -> match f t with Ok a => Q a t | Err e => is_deterministic e = true | Panic _ => False end) -> triple P (st_read f) Q.
Proof. intros Hf t Ht. cbn. apply (Hf t Ht). Qed.
Lemma triple_lift {A} P (a : A) (Q : A -> T -> Prop) : (forall t, P t -> Q a t) -> triple P (st_lift (Ok a)) Q.
Proof. intros HQ t Ht. cbn. auto. Qed.
Lemma triple_conseq {A} P P' (m : stM T A) (Q Q' : A -> T -> Prop) :
  triple P m Q -> (forall t, P' t -> P t) -> (forall a t, Q a t -> Q' a t) -> triple P' m Q'.
Proof. intros Hm HP HQ t Ht. specialize (Hm t (HP t Ht)). destruct (m t) as [[]]; auto. Qed.
(** A pure precondition. *)
Lemma triple_pure {A} (X : Prop) P (m : stM T A) Q : (X -> triple P m Q) -> triple (fun t => X /\ P t) m Q.
Proof. intros Hm t [Hx Ht]. exact (Hm Hx t Ht). Qed.

(** A loop whose body changes the database by [step]. *)
Lemma triple_iter {A} (f : A -> stM T unit) (step : A -> sql_db -> sql_db) (Inv : sql_db -> Prop) l :
  (forall x D, In x l -> Inv D -> triple (db_rep D) (f x) (fun _ => db_rep (step x D)) /\ Inv (step x D)) ->
  forall D, Inv D -> triple (db_rep D) (st_iter f l) (fun _ => db_rep (foldl (fun D x => step x D) D l)).
Proof.
  induction l as [|x l IH]; intros Hf D HI; cbn [st_iter foldl]; [now apply triple_ret|].
  destruct (Hf x D) as [Ht HI']; [now left | exact HI|]. eapply triple_bind; [exact Ht|]. intros [].
  apply IH; [|exact HI']. intros y D' Hy. apply Hf. now right.
Qed.

(** ** Primitive writes *)
Lemma sql_rep_insert M D D' k v :
  rep M D -> key_ok k ->
  (forall k', key_ok k' -> db_lookup D' k' = if decide (k' = k) then Some v else db_lookup D k') ->
  rep (<[senc k := v]> M) D'.
Proof.
  intros [HM HK] Hk Hl. split.
  - intros k' Hk'. rewrite Hl by exact Hk'. destruct (decide (k' = k)) as [->|Hne]; [apply lookup_insert_eq|].
    rewrite lookup_insert_ne by (intros E; apply Hne; symmetry; now apply senc_inj). now apply HM.
  - intros raw [x Hx]. apply lookup_insert_Some in Hx as [[<- _]|[_ Hx]]; eauto.
Qed.

Lemma sql_rep_delete M D D' k :
  rep M D -> key_ok k ->
  (forall k', key_ok k' -> db_lookup D' k' = if decide (k' = k) then None else db_lookup D k') ->
  rep (delete (senc k) M) D'.
Proof.
  intros [HM HK] Hk Hl. split.
  - intros k' Hk'. rewrite Hl by exact Hk'. destruct (decide (k' = k)) as [->|Hne]; [apply lookup_delete_eq|].
    rewrite lookup_delete_ne by (intros E; apply Hne; symmetry; now apply senc_inj). now apply HM.
  - intros raw [x Hx]. apply lookup_delete_Some in Hx as [_ Hx]; eauto.
Qed.

Lemma set_key_triple D D' k v :
  key_ok k ->
  (forall k', key_ok k' -> db_lookup D' k' = if decide (k' = k) then Some v else db_lookup D k') ->
  triple (db_rep D) (kv_set_key k v) (fun _ => db_rep D').
Proof.
  intros Hk Hl t (M & Hr & HM). unfold kv_set_key, st_bind, st_lift. rewrite encode_key_senc.
  destruct (kv_set_spec t M (senc k) v Hr) as [(t' & -> & Hr')|(e & t' & -> & He)]; [|exact He].
  exists (<[senc k := v]> M). split; [exact Hr' | now apply (sql_rep_insert M D)].
Qed.

Lemma delete_key_triple D D' k :
  key_ok k ->
  (forall k', key_ok k' -> db_lookup D' k' = if decide (k' = k) then None else db_lookup D k') ->
  triple (db_rep D) (kv_delete_key k) (fun _ => db_rep D').
Proof.
  intros Hk Hl t (M & Hr & HM). unfold kv_delete_key, st_bind, st_lift. rewrite encode_key_senc.
  destruct (kv_delete_spec t M (senc k) Hr) as [(t' & -> & Hr' & _)|(e & t' & -> & He)]; [|exact He].
  exists (delete (senc k) M). split; [exact Hr' | now apply (sql_rep_delete M D)].
Qed.

Ltac lookup_cases :=
  intros k' _; destruct k'; cbn [db_lookup db_set_row db_set_index db_set_table d_table d_row d_index];
  repeat case_decide; try reflexivity; try naive_solver.

Lemma set_row_triple D n id row :
  utf8_valid n = true -> stored id ->
  triple (db_rep D) (kv_set_key (KeyRow n id) (encode_row row)) (fun _ => db_rep (db_set_row n id (Some row) D)).
Proof. intros. apply set_key_triple; [now split | lookup_cases]. Qed.

Lemma delete_row_key_triple D n id :
  utf8_valid n = true -> stored id ->
  triple (db_rep D) (kv_delete_key (KeyRow n id)) (fun _ => db_rep (db_set_row n id None D)).
Proof. intros. apply delete_key_triple; [now split | lookup_cases]. Qed.

Lemma set_table_triple D n tb :
  utf8_valid n = true ->
  triple (db_rep D) (kv_set_key (KeyTable n) (encode_table tb)) (fun _ => db_rep (db_set_table n (Some tb) D)).
Proof. intros. apply set_key_triple; [assumption | lookup_cases]. Qed.

Lemma delete_table_key_triple D n :
  utf8_valid n = true ->
  triple (db_rep D) (kv_delete_key (KeyTable n)) (fun _ => db_rep (db_set_table n None D)).
Proof. intros. apply delete_key_triple; [assumption | lookup_cases]. Qed.

Lemma set_index_triple D n c v ids :
  utf8_valid n = true -> utf8_valid c = true -> stored v ->
  triple (db_rep D) (set_index n c v ids) (fun _ => db_rep (db_set_index n c v ids D)).
Proof.
  intros. unfold set_index. case_bool_decide as Ei.
  - subst. apply delete_key_triple; [cbn [key_ok]; tauto | lookup_cases].
  - apply set_key_triple; [cbn [key_ok]; tauto|]. lookup_cases. now destruct ids.
Qed.
End Rep.
