(* ===== verification/SqlLocalTheory.v ===== *)
(** * The local SQL engine keeps its database consistent

    [db_ok] is what the schema promises of a database: rows of the right types,
    unique keys, indexes that list exactly the rows with a value, foreign keys
    that exist.  Every write that succeeds keeps it, and none of them panics. *)
From S2P Require Import Prelude Bytes Keycode KeycodeTheory Btree Bincode Float64 SqlValue SqlValueTheory SqlExpr SqlPlan SqlExec SqlSchema SqlLocal SqlLocalRep.

(** ** Ordered sets of values of one type *)
Section OrdSet.
Context (ct : DataType).
Definition ids_ok (ids : list Value) : Prop := Forall (in_column ct) ids /\ StronglySorted value_lt ids.

Lemma value_lt_trans a b c :
  in_column ct a -> in_column ct b -> in_column ct c -> value_lt a b -> value_lt b c -> value_lt a c.
Proof. unfold value_lt. apply (value_cmp_trans ct). Qed.

Lemma ids_ok_cons x ids : ids_ok (x :: ids) <-> in_column ct x /\ ids_ok ids /\ Forall (value_lt x) ids.
Proof.
  unfold ids_ok. rewrite Forall_cons. split.
  - intros [[Hx Hf] [Hs Hl]%StronglySorted_inv]. auto.
  - intros (Hx & [Hf Hs] & Hl). split; [auto | now constructor].
Qed.

Lemma value_lt_not_in x ids : ids_ok ids -> Forall (value_lt x) ids -> ~ In x ids.
Proof.
  intros _ Hf Hin. rewrite List.Forall_forall in Hf. specialize (Hf x Hin). unfold value_lt in Hf.
  now rewrite value_cmp_refl in Hf.
Qed.

Lemma set_insert_In v ids x : in_column ct v -> ids_ok ids -> In x (set_insert v ids) <-> x = v \/ In x ids.
Proof.
  intros Hv. induction ids as [|y ids IH]; intros Ho; cbn [set_insert In]; [naive_solver|].
  apply ids_ok_cons in Ho as (Hy & Ho & _). destruct (value_cmp v y) eqn:E; cbn [In].
  - apply (value_cmp_eq ct) in E as ->; auto. naive_solver.
  - naive_solver.
  - rewrite IH by exact Ho. naive_solver.
Qed.

Lemma set_insert_ok v ids : in_column ct v -> ids_ok ids -> ids_ok (set_insert v ids).
Proof.
  intros Hv. induction ids as [|y ids IH]; intros Ho; cbn [set_insert].
  - apply ids_ok_cons. split; [exact Hv|]. split; [exact Ho | constructor].
  - pose proof Ho as (Hy & Ho' & Hl)%ids_ok_cons. destruct (value_cmp v y) eqn:E; [exact Ho| |].
    + apply ids_ok_cons. split; [exact Hv|]. split; [exact Ho|]. constructor; [exact E|].
      rewrite List.Forall_forall in *. intros z Hz. apply (value_lt_trans v y z); auto.
      destruct Ho' as [Hf _]. rewrite List.Forall_forall in Hf. auto.
    + apply ids_ok_cons. split; [exact Hy|]. split; [now apply IH|]. apply List.Forall_forall. intros z Hz.
      apply set_insert_In in Hz as [->|Hz]; auto.
      * unfold value_lt. now rewrite value_cmp_antisym, E.
      * rewrite List.Forall_forall in Hl. auto.
Qed.

Lemma set_remove_In v ids x :
  in_column ct v -> ids_ok ids -> In x (set_remove v ids) <-> x <> v /\ In x ids.
Proof.
  intros Hv. induction ids as [|y ids IH]; intros Ho; cbn [set_remove In]; [naive_solver|].
  pose proof Ho as (Hy & Ho' & Hl)%ids_ok_cons. destruct (value_cmp v y) eqn:E; cbn [In].
  - apply (value_cmp_eq ct) in E as ->; auto. pose proof (value_lt_not_in y ids Ho' Hl). naive_solver.
  - assert (x = y \/ In x ids -> x <> v); [|naive_solver]. intros Hin ->. destruct Hin as [->|Hin].
    + now rewrite value_cmp_refl in E.
    + rewrite List.Forall_forall in Hl. specialize (Hl v Hin). unfold value_lt in Hl.
      rewrite value_cmp_antisym, E in Hl. discriminate.
  - rewrite IH by exact Ho'. assert (y <> v) by (intros ->; now rewrite value_cmp_refl in E). naive_solver.
Qed.

Lemma set_remove_ok v ids : in_column ct v -> ids_ok ids -> ids_ok (set_remove v ids).
Proof.
  intros Hv. induction ids as [|y ids IH]; intros Ho; cbn [set_remove]; [exact Ho|].
  pose proof Ho as (Hy & Ho' & Hl)%ids_ok_cons. destruct (value_cmp v y) eqn:E; [exact Ho' | exact Ho |].
  apply ids_ok_cons. split; [exact Hy|]. split; [now apply IH|]. apply List.Forall_forall. intros z Hz.
  apply set_remove_In in Hz as [_ Hz]; auto. rewrite List.Forall_forall in Hl. auto.
Qed.

Lemma set_of_list_ok l : Forall (in_column ct) l -> ids_ok (set_of_list l) /\ forall x, In x (set_of_list l) <-> In x l.
Proof.
  unfold set_of_list. enough (forall s, ids_ok s -> Forall (in_column ct) l ->
    ids_ok (foldl (fun s v => set_insert v s) s l) /\
    forall x, In x (foldl (fun s v => set_insert v s) s l) <-> In x s \/ In x l) as Hg.
  { intros Hl. destruct (Hg [] ltac:(split; constructor) Hl) as [Ho Hin]. split; [exact Ho|]. intros x.
    rewrite Hin. cbn. tauto. }
  induction l as [|v l IH]; intros s Hs Hl; cbn [foldl In]; [split; [exact Hs | tauto]|].
  apply Forall_cons in Hl as [Hv Hl]. destruct (IH (set_insert v s)) as [Ho Hin]; [now apply set_insert_ok | exact Hl |].
  split; [exact Ho|]. intros x. rewrite Hin, set_insert_In by assumption. naive_solver.
Qed.

Lemma set_remove_all_In l s x :
  Forall (in_column ct) l -> ids_ok s ->
  In x (foldl (fun s id => set_remove id s) s l) <-> ~ In x l /\ In x s.
Proof.
  revert s. induction l as [|v l IH]; intros s Hl Hs; cbn [foldl In]; [tauto|].
  apply Forall_cons in Hl as [Hv Hl]. rewrite IH, set_remove_In by auto using set_remove_ok. naive_solver.
Qed.
End OrdSet.

Lemma stored_in_column v ct : stored v -> datatype v = Some ct -> in_column ct v.
Proof. intros (Hok & _) Ht. split; [exact Hok | auto]. Qed.

Lemma value_eq_refl v : value_ok v -> value_eq v v = true.
Proof.
  destruct v as [|[]| | |s]; cbn; intros Ho; try reflexivity; [apply Z.eqb_refl | | now apply bool_decide_eq_true].
  destruct (f64_is_nan f) eqn:E; [apply orb_true_r|]. rewrite orb_false_r.
  apply f64_eq_spec; [exact Ho | exact Ho | exact E | auto].
Qed.

(** Code-level equality of stored values of one type is equality. *)
Lemma stored_eq ct a b : stored a -> stored b -> in_column ct a -> in_column ct b -> value_eq a b = true <-> a = b.
Proof.
  intros (Oa & Na & Sa) (Ob & Nb & Sb) [_ Ta] [_ Tb].
  split; [|intros ->; now apply value_eq_refl].
  destruct a, b; cbn [value_eq datatype] in *; try discriminate; try (destruct Ta, Tb; congruence).
  - intros E. apply eqb_prop in E. congruence.
  - intros ->%Z.eqb_eq. reflexivity.
  - intros E. apply orb_true_iff in E as [E|[E1 E2]%andb_true_iff]; [|f_equal; rewrite Sa, Sb by assumption; reflexivity].
    assert (f64_is_nan f = false) as Ea.
    { destruct (f64_is_nan f) eqn:Ef; [|reflexivity]. now rewrite f64_eq_nan in E. }
    assert (f64_is_nan f0 = false) as Eb.
    { destruct (f64_is_nan f0) eqn:Ef; [|reflexivity]. rewrite f64_eq_sym in E. now rewrite f64_eq_nan in E. }
    apply (f64_eq_normalize f f0 Oa Ob Ea Eb) in E. cbn [normalize] in Na, Nb. congruence.
  - intros E%bool_decide_eq_true. congruence.
Qed.

(** ** Databases up to pointwise equality *)
Record db_equiv (D D' : sql_db) : Prop := {
  eq_table n : d_table D n = d_table D' n;
  eq_row n id : d_row D n id = d_row D' n id;
  eq_index n c v : d_index D n c v = d_index D' n c v;
}.

#[export] Instance db_equiv_equivalence : Equivalence db_equiv.
Proof.
  split.
  - intros D. now split.
  - intros D D' [E1 E2 E3]. now split.
  - intros D D' D'' [E1 E2 E3] [F1 F2 F3]. split; intros; [rewrite E1 | rewrite E2 | rewrite E3]; auto.
Qed.

#[export] Instance db_rep_proper `{KvSpec T} `{BT : Bincode Table stored_table} `{BR : Bincode Row stored_row}
    `{BI : Bincode (list Value) stored_ids} : Proper (db_equiv ==> eq ==> iff) (db_rep (T := T)).
Proof.
  assert (forall D D' (t : T), db_equiv D D' -> db_rep D t -> db_rep D' t) as Hi.
  { intros D D' t [E1 E2 E3] (M & Hk & HM & HK). exists M. split; [exact Hk|]. split; [|exact HK].
    intros k Ho. rewrite HM by exact Ho. destruct k; cbn [db_lookup]; now rewrite ?E1, ?E2, ?E3. }
  intros D D' E t ? <-. split; apply Hi; [exact E | now symmetry].
Qed.

#[export] Instance db_wf_proper : Proper (db_equiv ==> iff) db_wf.
Proof.
  assert (forall D D', db_equiv D D' -> db_wf D -> db_wf D') as Hi.
  { intros D D' [E1 E2 E3] [W1 W2 W3]. split; intros *; rewrite <- ?E1, <- ?E2, <- ?E3; auto. }
  intros D D' E. split; apply Hi; [exact E | now symmetry].
Qed.

(** ** Changes of the index entries of a table, column by column *)
Definition index_step (n : bytes) (G : Value -> list Value -> list Value) (c : bytes) (D : sql_db) : sql_db :=
  mkSqlDb (d_table D) (d_row D)
    (fun n' c' v => if decide (n' = n /\ c' = c) then G v (d_index D n' c' v) else d_index D n' c' v).

Section IndexSteps.
Context (n : bytes) (G : nat * Column_ -> Value -> list Value -> list Value).

Definition index_steps (D : sql_db) (l : list (nat * Column_)) : sql_db :=
  foldl (fun D ic => index_step n (G ic) (col_name ic.2) D) D l.

Lemma index_steps_same l : forall D,
  (forall n', d_table (index_steps D l) n' = d_table D n') /\
  (forall n' id, d_row (index_steps D l) n' id = d_row D n' id).
Proof. induction l as [|ic l IH]; intros D; [easy|]. exact (IH (index_step n (G ic) (col_name ic.2) D)). Qed.

Lemma index_steps_other l : forall D n' c v,
  (n' <> n \/ forall ic, In ic l -> col_name ic.2 <> c) -> d_index (index_steps D l) n' c v = d_index D n' c v.
Proof.
  induction l as [|ic l IH]; intros D n' c v Hne; cbn [index_steps foldl]; [reflexivity|].
  change (d_index (index_steps (index_step n (G ic) (col_name ic.2) D) l) n' c v = d_index D n' c v).
  rewrite IH by (destruct Hne as [Hn|Hn]; [auto | right; intros; apply Hn; now right]).
  cbn [index_step d_index]. rewrite decide_False; [reflexivity|].
  intros [-> ->]. destruct Hne as [Hn|Hn]; [easy|]. now apply (Hn ic); [left|].
Qed.

Lemma index_steps_column l : forall D ic v,
  NoDup (map (fun ic => col_name ic.2) l) -> In ic l ->
  d_index (index_steps D l) n (col_name ic.2) v = G ic v (d_index D n (col_name ic.2) v).
Proof.
  induction l as [|ic' l IH]; intros D ic v Hnd Hin; [destruct Hin|]. cbn [map] in Hnd. apply NoDup_cons in Hnd as [Hni Hnd].
  change (d_index (index_steps (index_step n (G ic') (col_name ic'.2) D) l) n (col_name ic.2) v
    = G ic v (d_index D n (col_name ic.2) v)).
  assert (forall ic, In ic l -> col_name ic.2 <> col_name ic'.2) as Hne.
  { intros x Hx E. apply Hni. rewrite <- E. apply list_elem_of_In. now apply (in_map (fun ic => col_name ic.2)). }
  destruct Hin as [->|Hin].
  - rewrite index_steps_other by auto. cbn [index_step d_index]. now rewrite decide_True.
  - rewrite IH by assumption. cbn [index_step d_index]. rewrite decide_False; [reflexivity|].
    intros [_ E]. now apply (Hne ic).
Qed.
End IndexSteps.

(** The indexed columns of a table. *)
Lemma enumerate_filter_In f tb i c :
  In (i, c) (enumerate_filter f tb) <-> columns tb !! i = Some c /\ f c = true.
Proof.
  unfold enumerate_filter. rewrite filter_In. cbn [snd].
  enough (forall k, In (i, c) (zip (seq k (length (columns tb))) (columns tb)) <->
            (k <= i)%nat /\ columns tb !! (i - k)%nat = Some c) as Hz.
  { specialize (Hz 0%nat). rewrite Nat.sub_0_r in Hz. split; intros [H1 H2]; (split; [|exact H2]); apply Hz; auto.
    split; [lia | exact H1]. }
  induction (columns tb) as [|x cs IH]; intros k; cbn [length seq zip zip_with In].
  - rewrite lookup_nil. naive_solver.
  - rewrite IH. split.
    + intros [[= <- <-]|[Hk E]]; [rewrite Nat.sub_diag; split; [lia | reflexivity]|].
      split; [lia|]. replace (i - k)%nat with (S (i - S k)) by lia. exact E.
    + intros [Hk E]. destruct (decide (i = k)) as [->|Hne].
      * rewrite Nat.sub_diag in E. injection E as ->. now left.
      * right. split; [lia|]. replace (i - k)%nat with (S (i - S k)) in E by lia. exact E.
Qed.

Lemma indexed_columns_In tb i c :
  In (i, c) (indexed_columns tb) <-> columns tb !! i = Some c /\ col_index c = true.
Proof. apply enumerate_filter_In. Qed.

Lemma indexed_columns_names tb :
  NoDup (map col_name (columns tb)) -> NoDup (map (fun ic => col_name ic.2) (indexed_columns tb)).
Proof.
  unfold indexed_columns, enumerate_filter. generalize 0%nat. induction (columns tb) as [|c cs IH]; intros k Hnd; cbn; [constructor|].
  cbn [map] in Hnd. apply NoDup_cons in Hnd as [Hni Hnd]. specialize (IH (S k) Hnd).
  destruct (col_index c); [|exact IH]. cbn [map snd]. constructor; [|exact IH].
  intros Hin. apply Hni. apply list_elem_of_In in Hin. apply in_map_iff in Hin as ([j x] & E & Hx).
  apply filter_In in Hx as [Hx _]. apply list_elem_of_In, elem_of_zip_r, list_elem_of_In in Hx.
  apply list_elem_of_In. cbn in E. rewrite <- E. now apply in_map.
Qed.

(** ** The consistency of a database *)

(** A schema as [Table::validate] accepts it, with distinct column names; the
    tables it refers to exist. *)
Record schema_ok (D : sql_db) (tb : Table) : Prop := {
  so_names : NoDup (map col_name (columns tb));
  so_pk : exists c, columns tb !! primary_key tb = Some c /\ nullable c = false /\ unique c = true /\ col_index c = false;
  so_unique i c : columns tb !! i = Some c -> unique c = true -> i <> primary_key tb -> col_index c = true;
  so_ref i c r : columns tb !! i = Some c -> references c = Some r ->
    (i = primary_key tb \/ col_index c = true) /\
    exists target pc, d_table D r = Some target /\ columns target !! primary_key target = Some pc /\
      col_datatype pc = col_datatype c;
}.

(** Rows have a value of each column's type, and a primary key that is neither
    NULL nor NaN. *)
Record row_typed (tb : Table) (row : Row) : Prop := {
  rt_length : length row = length (columns tb);
  rt_value i c v : columns tb !! i = Some c -> row !! i = Some v ->
    in_column (col_datatype c) v /\ (v = Null -> nullable c = true);
  rt_key id : row !! primary_key tb = Some id -> is_undefined id = false;
}.

(** The row has the value [v] in the indexed column named [c]. *)
Definition row_hits (tb : Table) (row : Row) (c : bytes) (v : Value) : Prop :=
  exists ic, In ic (indexed_columns tb) /\ col_name ic.2 = c /\ row !! ic.1 = Some v.

Record db_core (D : sql_db) : Prop := {
  core_wf : db_wf D;
  core_schema n tb : d_table D n = Some tb -> schema_ok D tb;
  core_row n id row : d_row D n id = Some row ->
    exists tb, d_table D n = Some tb /\ row_typed tb row /\ row !! primary_key tb = Some id;
  core_index n c v id : In id (d_index D n c v) <->
    exists tb row, d_table D n = Some tb /\ d_row D n id = Some row /\ row_hits tb row c v;
  core_unique n tb i c v id1 row1 id2 row2 : d_table D n = Some tb -> columns tb !! i = Some c -> unique c = true ->
    d_row D n id1 = Some row1 -> d_row D n id2 = Some row2 -> row1 !! i = Some v -> row2 !! i = Some v ->
    is_undefined v = false -> id1 = id2;
}.

(** Referential integrity. *)
Definition refs_ok (D : sql_db) : Prop :=
  forall n tb i c r id row v, d_table D n = Some tb -> columns tb !! i = Some c -> references c = Some r ->
    d_row D n id = Some row -> row !! i = Some v -> v <> Null -> is_Some (d_row D r v).

Definition db_ok (D : sql_db) : Prop := db_core D /\ refs_ok D.

(** ** One row of a table replaced, with its index entries *)
Record reindexed (D D' : sql_db) (tb : Table) (id : Value) (o : option Row) : Prop := {
  re_wf : db_wf D';
  re_table n : d_table D' n = d_table D n;
  re_row n id' : d_row D' n id' = if decide (n = table_name tb /\ id' = id) then o else d_row D n id';
  re_other n c v : n <> table_name tb -> d_index D' n c v = d_index D n c v;
  re_index c v x : In x (d_index D' (table_name tb) c v) <->
    (x <> id /\ In x (d_index D (table_name tb) c v)) \/ (x = id /\ exists row, o = Some row /\ row_hits tb row c v);
}.

(** What a new row must satisfy. *)
Definition row_fits (D : sql_db) (tb : Table) (id : Value) (row : Row) : Prop :=
  row_typed tb row /\ row !! primary_key tb = Some id /\
  forall i c v id' row', columns tb !! i = Some c -> unique c = true -> row !! i = Some v -> is_undefined v = false ->
    d_row D (table_name tb) id' = Some row' -> row' !! i = Some v -> id' = id.

Lemma reindexed_core D D' tb id o :
  db_core D -> d_table D (table_name tb) = Some tb ->
  (forall row, o = Some row -> row_fits D tb id row) -> reindexed D D' tb id o -> db_core D'.
Proof.
  intros [W S R X U] Ht Hfit [W' T' R' O' X']. split.
  - exact W'.
  - intros n tb' Etb. rewrite T' in Etb. destruct (S n tb' Etb) as [S1 S2 S3 S4]. split; auto.
    intros i c r Hc Hr. destruct (S4 i c r Hc Hr) as [Hi (tg & pc & Hg & Hpc)]. split; [exact Hi|].
    exists tg, pc. now rewrite T'.
  - intros n id' row. rewrite R'. case_decide as E; [|rewrite T'; apply R].
    destruct E as [-> ->]. intros ->. destruct (Hfit row eq_refl) as (F1 & F2 & _).
    exists tb. rewrite T'. auto.
  - intros n c v x. destruct (decide (n = table_name tb)) as [->|Hne].
    + rewrite X', X. setoid_rewrite T'. setoid_rewrite R'. split.
      * intros [(Hx & tb' & row & E1 & E2 & E3)|(-> & row & -> & Hh)].
        -- exists tb', row. rewrite decide_False by naive_solver. auto.
        -- exists tb, row. rewrite decide_True by auto. auto.
      * intros (tb' & row & E1 & E2 & E3). rewrite Ht in E1. injection E1 as <-.
        case_decide as Ed; [destruct Ed as [_ ->]; right; eauto | left]. split; [naive_solver | eauto].
    + rewrite O' by exact Hne. rewrite X. setoid_rewrite T'. setoid_rewrite R'.
      split; intros (tb' & row & E1 & E2 & E3); exists tb', row; rewrite decide_False in * by naive_solver; auto.
  - intros n tb' i c v id1 row1 id2 row2 E1 Hc Hu. rewrite T' in E1. rewrite !R'.
    case_decide as D1; case_decide as D2; [naive_solver | | | eauto using U].
    + destruct D1 as [-> ->]. intros -> H2 V1 V2 Hd. rewrite Ht in E1. injection E1 as <-.
      destruct (Hfit row1 eq_refl) as (_ & _ & Hun). symmetry. eauto.
    + destruct D2 as [-> ->]. intros H1 -> V1 V2 Hd. rewrite Ht in E1. injection E1 as <-.
      destruct (Hfit row2 eq_refl) as (_ & _ & Hun). eauto.
Qed.

(** References of a replaced row. *)
Lemma reindexed_refs D D' tb id row :
  refs_ok D -> reindexed D D' tb id (Some row) -> d_table D (table_name tb) = Some tb ->
  (forall i c r v, columns tb !! i = Some c -> references c = Some r -> row !! i = Some v -> v <> Null ->
     (r = table_name tb /\ v = id) \/ is_Some (d_row D r v)) -> refs_ok D'.
Proof.
  intros Hr [W' T' R' O' X'] Ht Hrow n tb' i c r id' row' v E1 Hc Hrf E2 Hv Hn. rewrite T' in E1. rewrite R' in E2. rewrite R'.
  assert ((r = table_name tb /\ v = id) \/ is_Some (d_row D r v)) as [[-> ->]|Hs].
  { destruct (decide (n = table_name tb /\ id' = id)) as [Ed|Ed]; [|right; eauto]. destruct Ed as [-> ->]. injection E2 as <-. rewrite Ht in E1. injection E1 as <-. eauto. }
  - rewrite decide_True by auto. eauto.
  - destruct (decide (r = table_name tb /\ v = id)); [eauto | exact Hs].
Qed.

(** ** The index loops *)
Definition ids_good (ct : DataType) (ids : list Value) : Prop := Forall stored ids /\ ids_ok ct ids.

Lemma set_insert_stored v ids : stored v -> Forall stored ids -> Forall stored (set_insert v ids).
Proof. intros Hv. induction 1 as [|x ids Hx Hf IH]; cbn [set_insert]; [auto|]. destruct (value_cmp v x); auto. Qed.
Lemma set_remove_stored v ids : Forall stored ids -> Forall stored (set_remove v ids).
Proof. induction 1 as [|x ids Hx Hf IH]; cbn [set_remove]; [auto|]. destruct (value_cmp v x); auto. Qed.

Lemma set_insert_good ct v ids : stored v -> in_column ct v -> ids_good ct ids -> ids_good ct (set_insert v ids).
Proof. intros Hs Hv [H1 H2]. split; [now apply set_insert_stored | now apply set_insert_ok]. Qed.
Lemma set_remove_good ct v ids : in_column ct v -> ids_good ct ids -> ids_good ct (set_remove v ids).
Proof. intros Hv [H1 H2]. split; [now apply set_remove_stored | now apply set_remove_ok]. Qed.

(** Decodable, with the ids of the table's index entries of its key type. *)
Definition index_typed (tb : Table) (ct : DataType) (D : sql_db) : Prop :=
  db_wf D /\ forall c v, Forall (in_column ct) (d_index D (table_name tb) c v).

Lemma index_typed_good tb ct D c v : index_typed tb ct D -> ids_good ct (d_index D (table_name tb) c v).
Proof. intros [W F]. destruct (wf_index D W (table_name tb) c v) as [Hs Ho]. repeat split; auto. Qed.

Lemma index_step_typed tb ct G c D :
  index_typed tb ct D -> (forall v ids, ids_good ct ids -> ids_good ct (G v ids)) ->
  index_typed tb ct (index_step (table_name tb) G c D).
Proof.
  intros Hi HG. pose proof (fun c v => index_typed_good tb ct D c v Hi) as Hg. destruct Hi as [[W1 W2 W3] F]. split.
  - split; [exact W1 | exact W2|]. intros n' c' v. cbn [index_step d_index]. case_decide as E; [|apply W3].
    destruct E as [-> ->]. destruct (HG v _ (Hg c v)) as [H1 [H2 H3]]. now split.
  - intros c' v. cbn [index_step d_index]. case_decide as E; [|apply F]. destruct E as [_ ->]. apply (HG v _ (Hg c v)).
Qed.

(** A change of the entry of the row's value in a column. *)
Definition hit_change (change : list Value -> list Value) (row : Row) (ic : nat * Column_) (v : Value) (ids : list Value) :
    list Value :=
  if decide (row !! ic.1 = Some v) then change ids else ids.

(** The entries of a column from the old to the new value of a row. *)
Definition move_change (id : Value) (old row : Row) (ic : nat * Column_) (v : Value) (ids : list Value) : list Value :=
  if decide (old !! ic.1 = row !! ic.1) then ids
  else hit_change (set_insert id) row ic v (hit_change (set_remove id) old ic v ids).

Lemma hit_change_good ct change row ic v ids :
  (forall ids, ids_good ct ids -> ids_good ct (change ids)) -> ids_good ct ids -> ids_good ct (hit_change change row ic v ids).
Proof. unfold hit_change. case_decide; auto. Qed.
Lemma move_change_good ct id old row ic v ids :
  stored id -> in_column ct id -> ids_good ct ids -> ids_good ct (move_change id old row ic v ids).
Proof.
  unfold move_change. intros. case_decide; auto.
  auto using hit_change_good, set_insert_good, set_remove_good.
Qed.

Section Ops.
Context {T : Type} `{F64Pow, Regex, KvSpec T}.
Context {BT : Bincode stored_table} {BR : Bincode stored_row} {BI : Bincode stored_ids}.

Lemma triple_post {A} P (m : stM T A) (Q Q' : A -> T -> Prop) :
  triple P m Q -> (forall a t, Q a t -> Q' a t) -> triple P m Q'.
Proof. intros Hm HQ. now apply (triple_conseq P P m Q Q'). Qed.

Lemma triple_equiv {A} (D D' : sql_db) P (m : stM T A) :
  db_equiv D D' -> triple P m (fun _ => db_rep D) -> triple P m (fun _ => db_rep D').
Proof. intros E Hm. eapply triple_conseq; [exact Hm | auto|]. intros a t Ht. now rewrite <- E. Qed.

Lemma triple_equiv_pre {A} (D D' : sql_db) (m : stM T A) Q :
  db_equiv D D' -> triple (db_rep D) m Q -> triple (db_rep D') m Q.
Proof. intros E Hm. eapply triple_conseq; [exact Hm | | auto]. intros t Ht. now rewrite E. Qed.

Lemma stored_row_lookup row i v : stored_row row -> row !! i = Some v -> stored v.
Proof. intros Hr Hi. apply (proj1 (Forall_lookup _ _) Hr _ _ Hi). Qed.

Lemma stored_column tb i c : stored_table tb -> columns tb !! i = Some c -> utf8_valid (col_name c) = true.
Proof. intros [_ Hc] Hi. exact (proj1 (proj1 (Forall_lookup _ _) Hc _ _ Hi)). Qed.

Lemma row_index_ok row i v : row !! i = Some v -> row_index row i = Ok v.
Proof. unfold row_index. now intros ->. Qed.

Lemma update_index_triple D tb ct change row ic v :
  index_typed tb ct D -> stored_table tb -> In ic (indexed_columns tb) -> row !! ic.1 = Some v -> stored v ->
  triple (db_rep D) (update_index tb change row ic)
    (fun _ => db_rep (index_step (table_name tb) (hit_change change row ic) (col_name ic.2) D)).
Proof.
  intros Hi Ht Hin Hv Hs. destruct ic as [i col]. cbn [fst snd] in *. apply indexed_columns_In in Hin as [Hc _].
  pose proof (stored_column tb i col Ht Hc) as Hcn. pose proof Ht as [Hn _]. unfold update_index. cbn [fst snd].
  rewrite (row_index_ok _ _ _ Hv). eapply triple_bind.
  { apply (triple_lift (db_rep D) v (fun a t => a = v /\ db_rep D t)). auto. }
  intros a. apply triple_pure. intros ->. eapply triple_bind.
  { apply (triple_read _ _ (fun ids t => ids = d_index D (table_name tb) (col_name col) v /\ db_rep D t)).
    intros t Hr. rewrite (get_index_spec D) by (auto; apply Hi). auto. }
  intros ids. apply triple_pure. intros ->.
  eapply triple_equiv; [|now apply set_index_triple]. split; try reflexivity. intros n' c' v'.
  cbn [db_set_index index_step d_index]. unfold hit_change. cbn [fst].
  destruct (decide (n' = table_name tb /\ c' = col_name col)) as [[-> ->]|Hne].
  - rewrite Hv. destruct (decide (v' = v)) as [->|Hne].
    + rewrite !decide_True by auto. reflexivity.
    + rewrite !decide_False by naive_solver. reflexivity.
  - rewrite decide_False by naive_solver. reflexivity.
Qed.

Lemma update_indexes_triple D tb ct change row :
  index_typed tb ct D -> stored_table tb -> stored_row row -> length row = length (columns tb) ->
  (forall ids, ids_good ct ids -> ids_good ct (change ids)) ->
  triple (db_rep D) (st_iter (update_index tb change row) (indexed_columns tb))
    (fun _ => db_rep (index_steps (table_name tb) (hit_change change row) D (indexed_columns tb))).
Proof.
  intros Hi Ht Hr Hl Hch. apply (triple_iter _ (fun ic => index_step (table_name tb) (hit_change change row ic) (col_name ic.2))
    (index_typed tb ct)); [|exact Hi].
  intros ic D' Hin Hi'. split.
  - destruct ic as [i col]. pose proof Hin as [Hc _]%indexed_columns_In.
    assert (is_Some (row !! i)) as [v Hv].
    { apply lookup_lt_is_Some_2. rewrite Hl. now apply lookup_lt_Some in Hc. }
    apply (update_index_triple D' tb ct change row _ v); auto. now apply (stored_row_lookup row i).
  - apply index_step_typed; [exact Hi'|]. intros. now apply hit_change_good.
Qed.

Lemma move_indexes_triple D tb ct id old row :
  index_typed tb ct D -> stored_table tb -> stored_row old -> stored_row row ->
  row_typed tb old -> row_typed tb row -> stored id -> in_column ct id ->
  triple (db_rep D) (st_iter (move_index tb id old row) (indexed_columns tb))
    (fun _ => db_rep (index_steps (table_name tb) (move_change id old row) D (indexed_columns tb))).
Proof.
  intros Hi Ht Ho Hr To Tr Hid Hct. apply (triple_iter _ (fun ic => index_step (table_name tb) (move_change id old row ic) (col_name ic.2))
    (index_typed tb ct)); [|exact Hi].
  intros ic D' Hin Hi'. split; [|apply index_step_typed; [exact Hi'|]; intros; now apply move_change_good].
  destruct ic as [i col]. pose proof Hin as [Hc _]%indexed_columns_In. pose proof (lookup_lt_Some _ _ _ Hc) as Hlt.
  destruct (lookup_lt_is_Some_2 old i) as [o Eo]; [now rewrite (rt_length _ _ To)|].
  destruct (lookup_lt_is_Some_2 row i) as [w Ew]; [now rewrite (rt_length _ _ Tr)|].
  unfold move_index. cbn [fst]. rewrite (row_index_ok _ _ _ Eo), (row_index_ok _ _ _ Ew).
  eapply triple_bind; [apply (triple_lift (db_rep D') o (fun a t => a = o /\ db_rep D' t)); auto|].
  intros a. apply triple_pure. intros ->.
  eapply triple_bind; [apply (triple_lift (db_rep D') w (fun a t => a = w /\ db_rep D' t)); auto|].
  intros a. apply triple_pure. intros ->.
  pose proof (stored_eq (col_datatype col) o w (stored_row_lookup _ _ _ Ho Eo) (stored_row_lookup _ _ _ Hr Ew)
    (proj1 (rt_value _ _ To _ _ _ Hc Eo)) (proj1 (rt_value _ _ Tr _ _ _ Hc Ew))) as Heq.
  destruct (value_eq o w) eqn:Ev.
  - apply triple_ret. intros t Hrep. eapply db_rep_proper; [|reflexivity | exact Hrep].
    assert (o = w) as <- by now apply Heq.
    split; try reflexivity. intros. cbn [index_step d_index]. unfold move_change. cbn [fst].
    case_decide; [|reflexivity]. rewrite decide_True by congruence. reflexivity.
  - assert (o <> w) as Hne by (intros E; apply Heq in E; congruence). clear Heq.
    eapply triple_bind.
    { apply (update_index_triple D' tb ct (set_remove id) old (i, col) o); auto. now apply (stored_row_lookup old i). }
    intros []. eapply triple_equiv.
    2: { apply (update_index_triple _ tb ct (set_insert id) row (i, col) w); auto; [|now apply (stored_row_lookup row i)].
         apply index_step_typed; [exact Hi'|]. intros. apply hit_change_good; auto using set_remove_good. }
    split; try reflexivity. intros. cbn [index_step d_index snd]. unfold move_change.
    destruct (decide (n = table_name tb /\ c = col_name col)) as [E|E]; [|reflexivity].
    rewrite decide_False by (cbn [fst]; congruence). reflexivity.
Qed.

(** ** Validation *)

Lemma safe_reject b msg (Q : unit -> Prop) : (b = false -> Q tt) -> safe (reject b msg) Q.
Proof. unfold reject. destruct b; cbn; auto. Qed.
Lemma safe_guard {B} b msg (k : unit -> outcome B) Q :
  (b = false -> safe (k tt) Q) -> safe (outcome_bind (reject b msg) k) Q.
Proof. unfold reject. destruct b; cbn; auto. Qed.

Lemma safe_try_enumerate {A} (f : nat -> A -> outcome unit) (P : nat -> A -> Prop) l : forall k,
  (forall i x, l !! i = Some x -> safe (f (k + i)%nat x) (fun _ => P (k + i)%nat x)) ->
  safe (try_enumerate f k l) (fun _ => forall i x, l !! i = Some x -> P (k + i)%nat x).
Proof.
  induction l as [|y l IH]; intros k Hf; cbn [try_enumerate]; [cbn; now intros|].
  eapply safe_bind.
  { pose proof (Hf 0%nat y eq_refl) as H0'. rewrite Nat.add_0_r in H0'. exact H0'. }
  intros [] Hy. eapply safe_mono.
  - apply IH. intros i x Hx. specialize (Hf (S i) x Hx). now rewrite Nat.add_succ_r in Hf.
  - intros [] Hl. cbn beta. intros [|i] x; cbn; [intros [= <-]; now rewrite Nat.add_0_r|].
    intros Hx. specialize (Hl i x Hx). now rewrite Nat.add_succ_r.
Qed.

Lemma value_eq_null v : value_eq v Null = true <-> v = Null.
Proof. destruct v; cbn; split; congruence. Qed.

(** The key type of a table. *)
Definition key_type (tb : Table) (ct : DataType) : Prop :=
  exists c, columns tb !! primary_key tb = Some c /\ col_datatype c = ct.

Lemma core_index_typed D tb ct :
  db_core D -> d_table D (table_name tb) = Some tb -> key_type tb ct -> index_typed tb ct D.
Proof.
  intros [W S R X U] Ht (c & Hc & <-). split; [exact W|]. intros cn v. apply List.Forall_forall. intros id Hid.
  apply X in Hid as (tb' & row & E & Hrow & _). rewrite Ht in E. injection E as <-.
  destruct (R _ _ _ Hrow) as (tb' & E & [_ V _] & Hpk). rewrite Ht in E. injection E as <-.
  apply (V _ _ _ Hc Hpk).
Qed.

Section Valid.
Context (D : sql_db) (t : T) (tb : Table) (ct : DataType).
Context (Hrep : db_rep D t) (Hcore : db_core D) (Htb : d_table D (table_name tb) = Some tb) (Hct : key_type tb ct).

(** What the checks of one value establish. *)
Definition value_fits (id : Value) (update : bool) (i : nat) (c : Column_) (v : Value) : Prop :=
  in_column (col_datatype c) v /\ (v = Null -> nullable c = true) /\
  (forall r, references c = Some r -> v <> Null -> (r = table_name tb /\ v = id) \/ is_Some (d_row D r v)) /\
  (unique c = true -> i <> primary_key tb -> is_undefined v = false ->
     forall x, In x (d_index D (table_name tb) (col_name c) v) -> update = true /\ x = id).

Lemma table_stored : stored_table tb.
Proof. apply (wf_table D (core_wf D Hcore) _ _ Htb). Qed.

Lemma datatype_in_column c v :
  stored v -> match datatype v with Some vtype => bool_decide (vtype <> col_datatype c) | None => false end = false ->
  in_column (col_datatype c) v.
Proof.
  intros Hv Hty. split; [apply Hv|]. destruct (datatype v) as [vt|] eqn:E; [|left; now destruct v].
  right. apply bool_decide_eq_false in Hty. f_equal. now apply dec_stable.
Qed.

Lemma validate_reference id c i v :
  columns tb !! i = Some c -> stored id -> in_column ct id -> stored v -> in_column (col_datatype c) v ->
  safe match references c with
       | None => Ok tt
       | Some target =>
           match v with
           | Null => Ok tt
           | v =>
               if bool_decide (target = table_name tb) && value_eq v id then Ok tt
               else
                 let? rows := local_get target [v] t in
                 reject (bool_decide (rows = [])) "reference not in table"
           end
       end
    (fun _ => forall r, references c = Some r -> v <> Null -> (r = table_name tb /\ v = id) \/ is_Some (d_row D r v)).
Proof.
  intros Hc Hid Hti Hv Htv. destruct (references c) as [r|] eqn:Er; [|cbn; easy].
  assert (utf8_valid r = true) as Hur.
  { destruct table_stored as [_ Hs]. exact (proj2 (proj2 (proj1 (Forall_lookup _ _) Hs _ _ Hc)) r Er). }
  enough (v <> Null -> safe (if bool_decide (r = table_name tb) && value_eq v id then Ok tt
               else let? rows := local_get r [v] t in reject (bool_decide (rows = [])) "reference not in table")
            (fun _ => (r = table_name tb /\ v = id) \/ is_Some (d_row D r v))) as He.
  { destruct v; [cbn; congruence| | | |]; (eapply safe_mono; [exact (He ltac:(discriminate))|]);
      intros [] Hx r' [= <-] _; exact Hx. }
  intros Hn. destruct (bool_decide (r = table_name tb) && value_eq v id) eqn:Eb.
  - apply andb_true_iff in Eb as [Eb%bool_decide_eq_true Ev]. cbn. left. split; [exact Eb|].
    destruct (so_ref D tb (core_schema D Hcore _ _ Htb) i c r Hc Er) as [_ (tg & pc & Hg & Hpc & Hty)].
    subst r. rewrite Htb in Hg. injection Hg as <-. destruct Hct as (kc & Hkc & <-). rewrite Hpc in Hkc. injection Hkc as <-.
    apply (stored_eq (col_datatype pc)); auto. now rewrite Hty.
  - rewrite (local_get_spec D) by (auto; apply (core_wf D Hcore)). cbn [outcome_bind omap list_omap].
    apply safe_reject. intros Ee%bool_decide_eq_false. right. destruct (d_row D r v); [eauto | easy].
Qed.

Lemma validate_unique id (update : bool) c i v :
  columns tb !! i = Some c -> stored id -> in_column ct id -> stored v ->
  safe (if unique c && negb (i =? primary_key tb)%nat && negb (is_undefined v) then
          let? index := local_lookup_index (table_name tb) (col_name c) [v] t in
          reject (negb (bool_decide ((if update then set_remove id index else index) = []))) "value already in unique column"
        else Ok tt)
    (fun _ => unique c = true -> i <> primary_key tb -> is_undefined v = false ->
       forall x, In x (d_index D (table_name tb) (col_name c) v) -> update = true /\ x = id).
Proof.
  intros Hc Hid Hti Hv. destruct (unique c && _ && _) eqn:Eb.
  - rewrite (lookup_index_spec D); [|exact Hrep | apply (core_wf D Hcore) | apply table_stored |
      apply (stored_column tb i c table_stored Hc) | auto].
    cbn [outcome_bind mbind list_bind]. rewrite app_nil_r.
    destruct (core_index_typed D tb ct Hcore Htb Hct) as [_ Hf].
    destruct (set_of_list_ok ct _ (Hf (col_name c) v)) as [Ho Hin]. apply safe_reject.
    intros En%negb_false_iff%bool_decide_eq_true _ _ _ x Hx. apply Hin in Hx. destruct update.
    + split; [reflexivity|]. destruct (decide (x = id)) as [|Hne]; [assumption|].
      assert (In x (set_remove id (set_of_list (d_index D (table_name tb) (col_name c) v)))) as Hr.
      { now apply (set_remove_In ct). }
      rewrite En in Hr. destruct Hr.
    + rewrite En in Hx. destruct Hx.
  - cbn. intros Hu Hi Hd. rewrite Hu, Hd, (proj2 (Nat.eqb_neq _ _) Hi) in Eb. discriminate.
Qed.

Lemma validate_value_safe id update i c v :
  columns tb !! i = Some c -> stored id -> in_column ct id -> stored v ->
  safe (validate_value local_get local_lookup_index tb id update t i (c, v)) (fun _ => value_fits id update i c v).
Proof.
  intros Hc Hid Hti Hv. unfold validate_value. apply safe_guard. intros Hty. apply safe_guard. intros Hnull.
  pose proof (datatype_in_column c v Hv Hty) as Hcol.
  eapply safe_bind; [now apply (validate_reference id c i v)|]. intros [] Href.
  eapply safe_mono; [now apply (validate_unique id update c i v)|]. intros [] Huniq. split; [exact Hcol|].
  split; [|auto]. intros ->. cbn in Hnull. now apply negb_false_iff in Hnull.
Qed.

(** Also with a key of another type: the checks do not panic, and check types. *)
Lemma validate_value_typed id update i c v :
  columns tb !! i = Some c -> stored v ->
  safe (validate_value local_get local_lookup_index tb id update t i (c, v)) (fun _ => in_column (col_datatype c) v).
Proof.
  intros Hc Hv. unfold validate_value. apply safe_guard. intros Hty. apply safe_guard. intros _.
  pose proof (datatype_in_column c v Hv Hty) as Hcol. destruct table_stored as [Hn Hs].
  pose proof (proj1 (Forall_lookup _ _) Hs _ _ Hc) as (Hcn & _ & Hr). pose proof (core_wf D Hcore) as W.
  eapply safe_bind with (P := fun _ => True).
  - destruct (references c) as [r|] eqn:Er; [|exact I]. specialize (Hr r eq_refl).
    destruct v; [exact I| | | |];
      (destruct (_ && _); [exact I|]; rewrite (local_get_spec D) by auto; cbn [outcome_bind]; now apply safe_reject).
  - intros _ _. destruct (unique c && _ && _); [|exact Hcol]. rewrite (lookup_index_spec D) by auto.
    cbn [outcome_bind]. now apply safe_reject.
Qed.

(** What validation of a row establishes. *)
Definition row_valid (row : Row) (update : bool) : Prop :=
  exists id, row !! primary_key tb = Some id /\ stored id /\ in_column ct id /\ row_typed tb row /\
    (update = false -> d_row D (table_name tb) id = None) /\
    (forall i c v, columns tb !! i = Some c -> row !! i = Some v -> value_fits id update i c v).

Lemma validate_row_safe row update :
  stored_row row ->
  safe (local_validate_row tb row update t) (fun _ => row_valid row update).
Proof.
  intros Hs. unfold local_validate_row, validate_row. apply safe_guard. intros Hl%negb_false_iff%Nat.eqb_eq.
  destruct Hct as (pc & Hpc & Hpt). pose proof (lookup_lt_Some _ _ _ Hpc) as Hlt.
  destruct (lookup_lt_is_Some_2 row (primary_key tb)) as [id Hid]; [lia|].
  rewrite (row_index_ok _ _ _ Hid). cbn [outcome_bind]. pose proof (stored_row_lookup _ _ _ Hs Hid) as Hsid.
  apply safe_guard. intros Hund.
  eapply safe_bind with (P := fun _ => update = false -> d_row D (table_name tb) id = None).
  { destruct update; [cbn; congruence|]. rewrite (local_get_spec D); [|exact Hrep | apply (core_wf D Hcore) | apply table_stored | auto].
    cbn [outcome_bind omap list_omap]. apply safe_reject. intros E%negb_false_iff%bool_decide_eq_true _.
    destruct (d_row D (table_name tb) id); [discriminate | reflexivity]. }
  intros [] Hfresh. assert (forall i cv, zip (columns tb) row !! i = Some cv ->
    columns tb !! i = Some cv.1 /\ row !! i = Some cv.2) as Hzip.
  { intros i [c v] Hz. apply lookup_zip_Some in Hz. exact Hz. }
  pose proof (safe_try_enumerate (validate_value local_get local_lookup_index tb id update t)
    (fun i cv => in_column (col_datatype cv.1) cv.2) (zip (columns tb) row) 0) as Htyped.
  pose proof (safe_try_enumerate (validate_value local_get local_lookup_index tb id update t)
    (fun i cv => in_column ct id -> value_fits id update i cv.1 cv.2) (zip (columns tb) row) 0) as Hfits.
  eapply safe_mono; [eapply safe_and; [apply Htyped | apply Hfits]|].
  - intros i [c v] Hz. apply Hzip in Hz as [Hc Hv]. apply validate_value_typed; [exact Hc | now apply (stored_row_lookup row i)].
  - intros i [c v] Hz. apply Hzip in Hz as [Hc Hv]. cbn [fst snd] in *. pose proof (stored_row_lookup row i v Hs Hv) as Hsv.
    destruct (decide (datatype id = Some ct)) as [Ed|Ed].
    + eapply safe_mono; [apply validate_value_safe; auto; now apply stored_in_column|]. auto.
    + eapply safe_mono; [now apply validate_value_typed|]. intros [] _ [_ [->|E]]; [discriminate | congruence].
  - intros [] [Ht Hf]. exists id. cbn in Ht, Hf.
    assert (forall i c v, columns tb !! i = Some c -> row !! i = Some v -> zip (columns tb) row !! i = Some (c, v)) as Hz.
    { intros i c v Hc Hv. now apply lookup_zip_Some. }
    assert (in_column ct id) as Hidt.
    { rewrite <- Hpt. apply (Ht (primary_key tb) (pc, id)). now apply Hz. }
    assert (forall i c v, columns tb !! i = Some c -> row !! i = Some v -> value_fits id update i c v) as Hv.
    { intros i c v Hc Hv. apply (Hf i (c, v)); auto. }
    split; [exact Hid|]. split; [exact Hsid|]. split; [exact Hidt|]. split; [|auto]. split.
    + exact Hl.
    + intros i c v Hc Hrv. destruct (Hv i c v Hc Hrv) as (F1 & F2 & _). auto.
    + intros id'. rewrite Hid. now intros [= <-].
Qed.
End Valid.

Lemma validate_row_triple D tb ct row update :
  db_core D -> d_table D (table_name tb) = Some tb -> key_type tb ct -> stored_row row ->
  triple (db_rep D) (st_read (local_validate_row tb row update)) (fun _ t => row_valid D tb ct row update /\ db_rep D t).
Proof.
  intros Hc Ht Hk Hs. apply triple_read. intros t Hr.
  pose proof (validate_row_safe D t tb ct Hr Hc Ht Hk row update Hs) as Hv.
  destruct (local_validate_row tb row update t); cbn in Hv; auto.
Qed.

(** A validated row fits. *)
Lemma value_fits_row D tb id update row :
  db_core D -> d_table D (table_name tb) = Some tb -> row_typed tb row -> row !! primary_key tb = Some id ->
  (forall i c v, columns tb !! i = Some c -> row !! i = Some v -> value_fits D tb id update i c v) -> row_fits D tb id row.
Proof.
  intros [W S R X U] Ht Hty Hid Hv. split; [exact Hty|]. split; [exact Hid|].
  intros i c v id' row' Hc Hu Hrv Hd Hrow Hrv'. destruct (R _ _ _ Hrow) as (tb' & E & _ & Hpk').
  rewrite Ht in E. injection E as <-. destruct (decide (i = primary_key tb)) as [->|Hne]; [congruence|].
  destruct (Hv i c v Hc Hrv) as (_ & _ & _ & Hun). destruct (Hun Hu Hne Hd id') as [_ ->]; [|reflexivity].
  apply X. exists tb, row'. split; [exact Ht|]. split; [exact Hrow|]. exists (i, c).
  split; [|auto]. apply indexed_columns_In. split; [exact Hc|]. apply (so_unique D tb (S _ _ Ht) i c); auto.
Qed.

(** ** One row with its index entries *)
Lemma index_steps_typed tb ct G : forall l D,
  (forall ic v ids, In ic l -> ids_good ct ids -> ids_good ct (G ic v ids)) ->
  index_typed tb ct D -> index_typed tb ct (index_steps (table_name tb) G D l).
Proof.
  induction l as [|ic l IH]; intros D HG Hi; [exact Hi|]. cbn [index_steps foldl]. apply IH.
  - intros ic' v ids Hin. apply HG. now right.
  - apply index_step_typed; [exact Hi|]. intros v ids. apply HG. now left.
Qed.

Lemma row_hits_column D tb row ic v :
  schema_ok D tb -> In ic (indexed_columns tb) -> row_hits tb row (col_name ic.2) v <-> row !! ic.1 = Some v.
Proof.
  intros Hs Hin. split; [|intros; exists ic; auto]. intros (ic' & Hin' & Hn & Hv).
  assert (ic' = ic) as ->; [|exact Hv]. pose proof (indexed_columns_names tb (so_names D tb Hs)) as Hnd.
  clear -Hnd Hin Hin' Hn. induction (indexed_columns tb) as [|x l IH]; [destruct Hin|]. cbn [map] in Hnd.
  apply NoDup_cons in Hnd as [Hni Hnd]. rewrite list_elem_of_In, in_map_iff in Hni.
  destruct Hin as [->|Hin], Hin' as [->|Hin']; auto.
  - destruct Hni. eauto.
  - destruct Hni. eauto.
Qed.

Lemma index_steps_reindexed D tb ct id o G :
  db_core D -> d_table D (table_name tb) = Some tb -> key_type tb ct -> stored id ->
  (forall row, o = Some row -> stored_row row) ->
  (forall ic v ids, In ic (indexed_columns tb) -> ids_good ct ids -> ids_good ct (G ic v ids)) ->
  (forall ic v x, In ic (indexed_columns tb) -> let ids := d_index D (table_name tb) (col_name ic.2) v in
     In x (G ic v ids) <-> (x <> id /\ In x ids) \/ (x = id /\ exists row, o = Some row /\ row !! ic.1 = Some v)) ->
  reindexed D (db_set_row (table_name tb) id o (index_steps (table_name tb) G D (indexed_columns tb))) tb id o.
Proof.
  intros Hc Ht Hk Hid Ho HG HM. pose proof (core_schema D Hc _ _ Ht) as Hs.
  destruct (index_steps_same (table_name tb) G (indexed_columns tb) D) as [Et Er].
  pose proof (index_steps_typed tb ct G (indexed_columns tb) D HG (core_index_typed D tb ct Hc Ht Hk)) as [[W1 W2 W3] _].
  split.
  - split; [exact W1 | | exact W3]. intros n id' row. cbn [db_set_row d_row]. case_decide as E; [|apply W2].
    destruct E as [-> ->]. intros E. split; [|now auto]. apply (wf_table D (core_wf D Hc) _ _ Ht).
  - exact Et.
  - intros n id'. cbn [db_set_row d_row]. now rewrite Er.
  - intros n c v Hne. cbn [db_set_row d_index]. now apply index_steps_other; left.
  - intros c v x. cbn [db_set_row d_index].
    destruct (decide (c ∈ map (fun ic => col_name ic.2) (indexed_columns tb))) as [Hin|Hni]; rewrite list_elem_of_In in *.
    + apply in_map_iff in Hin as (ic & <- & Hin). rewrite index_steps_column; [|apply indexed_columns_names, Hs | exact Hin].
      rewrite HM by exact Hin. do 2 f_equiv. split; intros (row & E & Hh); exists row; (split; [exact E|]); apply (row_hits_column D tb row ic v Hs Hin), Hh.
    + assert (forall row, ~ row_hits tb row c v) as Hno.
      { intros row (ic & Hin & <- & _). apply Hni. now apply (in_map (fun ic => col_name ic.2)). }
      rewrite index_steps_other by (right; intros ic Hin <-; apply Hni; now apply (in_map (fun ic => col_name ic.2))).
      split; [|intros [[_ Hx]|(_ & row & _ & Hh)]; [exact Hx | now destruct (Hno row)]].
      intros Hx. exfalso. apply (core_index D Hc) in Hx as (tb' & row & E & _ & Hh).
      rewrite Ht in E. injection E as <-. now apply (Hno row).
Qed.

(** The entries of the row that is stored under [id]. *)
Lemma core_index_column D tb id ic v :
  db_core D -> d_table D (table_name tb) = Some tb -> In ic (indexed_columns tb) ->
  In id (d_index D (table_name tb) (col_name ic.2) v) <->
  exists row, d_row D (table_name tb) id = Some row /\ row !! ic.1 = Some v.
Proof.
  intros Hc Ht Hin. rewrite (core_index D Hc). pose proof (core_schema D Hc _ _ Ht) as Hs. split.
  - intros (tb' & row & E & Hr & Hh). rewrite Ht in E. injection E as <-. exists row. split; [exact Hr|].
    now apply (row_hits_column D) in Hh.
  - intros (row & Hr & Hv). exists tb, row. split; [exact Ht|]. split; [exact Hr|]. now apply (row_hits_column D).
Qed.

Lemma index_steps_id n l : forall D, db_equiv (index_steps n (fun _ _ ids => ids) D l) D.
Proof.
  induction l as [|ic l IH]; intros D; [reflexivity|]. cbn [index_steps foldl]. etransitivity; [apply IH|].
  split; try reflexivity. intros. cbn. now case_decide.
Qed.

Lemma db_set_row_proper n id o D D' : db_equiv D D' -> db_equiv (db_set_row n id o D) (db_set_row n id o D').
Proof. intros [E1 E2 E3]. split; intros; cbn; [apply E1 | case_decide; [reflexivity | apply E2] | apply E3]. Qed.

Lemma index_steps_set_row n id o G l : forall D,
  db_equiv (index_steps n G (db_set_row n id o D) l) (db_set_row n id o (index_steps n G D l)).
Proof.
  induction l as [|ic l IH]; intros D; [reflexivity|].
  change (db_equiv (index_steps n G (db_set_row n id o (index_step n (G ic) (col_name ic.2) D)) l)
    (db_set_row n id o (index_steps n G (index_step n (G ic) (col_name ic.2) D) l))). apply IH.
Qed.

(** ** Deletion of one row *)
Lemma delete_row_triple D tb ct id :
  db_core D -> d_table D (table_name tb) = Some tb -> key_type tb ct -> stored id ->
  triple (db_rep D) (delete_row tb id) (fun _ t => exists D', reindexed D D' tb id None /\ db_rep D' t).
Proof.
  intros Hc Ht Hk Hid. pose proof (core_wf D Hc) as W. destruct (wf_table D W _ _ Ht) as [_ Hst].
  pose proof (core_index_typed D tb ct Hc Ht Hk) as Hi.
  set (G := match d_row D (table_name tb) id with
            | Some row => hit_change (set_remove id) row
            | None => fun _ _ ids => ids
            end).
  assert (forall row, d_row D (table_name tb) id = Some row -> stored_row row /\ length row = length (columns tb) /\ in_column ct id) as Hrow.
  { intros row E. destruct (core_row D Hc _ _ _ E) as (tb' & E' & [L V _] & Hpk). rewrite Ht in E'. injection E' as <-.
    split; [apply (wf_row D W _ _ _ E)|]. split; [exact L|]. destruct Hk as (pc & Hpc & <-). apply (V _ _ _ Hpc Hpk). }
  assert (reindexed D (db_set_row (table_name tb) id None (index_steps (table_name tb) G D (indexed_columns tb))) tb id None) as Hre.
  { apply (index_steps_reindexed D tb ct); auto; [discriminate| |].
    - intros ic v ids _ Hg. unfold G. destruct (d_row D (table_name tb) id) as [row|] eqn:E; [|exact Hg].
      apply hit_change_good; [|exact Hg]. intros. apply set_remove_good; [apply (Hrow row eq_refl) | assumption].
    - intros ic v x Hin ids. pose proof (core_index_column D tb id ic v Hc Ht Hin) as Hx. fold ids in Hx.
      pose proof (index_typed_good tb ct D (col_name ic.2) v Hi) as [_ Hg]. fold ids in Hg.
      unfold G. destruct (d_row D (table_name tb) id) as [row|] eqn:E; [|naive_solver]. unfold hit_change.
      case_decide as Eh; [rewrite (set_remove_In ct) by (auto; apply (Hrow row eq_refl))|]; naive_solver. }
  unfold delete_row. eapply triple_bind with (R := fun _ => db_rep (index_steps (table_name tb) G D (indexed_columns tb))).
  - case_bool_decide as El; [rewrite El; now apply triple_ret|]. eapply triple_bind.
    { apply (triple_read _ _ (fun o t => o = d_row D (table_name tb) id /\ db_rep D t)). intros t Hr.
      rewrite (get_row_spec D) by (auto; apply Hst). auto. }
    intros o. apply triple_pure. intros ->. unfold G in *. destruct (d_row D (table_name tb) id) as [row|] eqn:E.
    + destruct (Hrow row eq_refl) as (Hs & Hl & Hct). apply (update_indexes_triple D tb ct); auto using set_remove_good.
    + apply triple_ret. intros t Hr. now rewrite index_steps_id.
  - intros []. eapply triple_post; [apply delete_row_key_triple; [apply Hst | exact Hid]|].
    intros [] t Hr. eauto.
Qed.

(** ** Insertion of one row *)
Lemma insert_one_triple D tb ct row :
  db_ok D -> d_table D (table_name tb) = Some tb -> key_type tb ct -> stored_row row ->
  triple (db_rep D) (insert_one tb row) (fun _ t => exists D' id,
    row !! primary_key tb = Some id /\ d_row D (table_name tb) id = None /\
    reindexed D D' tb id (Some row) /\ db_ok D' /\ db_rep D' t).
Proof.
  intros [Hc Hrefs] Ht Hk Hs. pose proof (core_wf D Hc) as W. destruct (wf_table D W _ _ Ht) as [_ Hst].
  unfold insert_one. eapply triple_bind.
  { now apply (validate_row_triple D tb ct). }
  intros []. apply triple_pure. intros (id & Hid & Hsid & Hti & Hty & Hfresh & Hv). specialize (Hfresh eq_refl).
  rewrite (row_index_ok _ _ _ Hid). eapply triple_bind.
  { apply (triple_lift (db_rep D) id (fun a t => a = id /\ db_rep D t)). auto. }
  intros a. apply triple_pure. intros ->.
  eapply triple_bind; [apply (set_row_triple D _ _ row); [apply Hst | exact Hsid]|]. intros [].
  set (G := hit_change (set_insert id) row).
  assert (reindexed D (db_set_row (table_name tb) id (Some row) (index_steps (table_name tb) G D (indexed_columns tb)))
    tb id (Some row)) as Hre.
  { apply (index_steps_reindexed D tb ct); auto; [now intros ? [= <-]| |].
    - intros ic v ids _ Hg. apply hit_change_good; [|exact Hg]. intros. now apply set_insert_good.
    - intros ic v x Hin ids. pose proof (core_index_column D tb id ic v Hc Ht Hin) as Hx. fold ids in Hx.
      pose proof (index_typed_good tb ct D (col_name ic.2) v (core_index_typed D tb ct Hc Ht Hk)) as [_ Hg]. fold ids in Hg.
      unfold G, hit_change. case_decide as Eh; [rewrite (set_insert_In ct) by auto|]; naive_solver. }
  eapply triple_post.
  - apply (update_indexes_triple (db_set_row (table_name tb) id (Some row) D) tb ct (set_insert id) row); auto.
    + destruct (core_index_typed D tb ct Hc Ht Hk) as [[W1 W2 W3] Hf]. split; [|exact Hf]. split; [exact W1| | exact W3].
      intros n id' row'. cbn [db_set_row d_row]. case_decide as E; [|apply W2]. destruct E as [-> ->].
      intros [= <-]. split; [apply Hst | auto].
    + apply Hty.
    + intros. now apply set_insert_good.
  - cbn beta. intros [] t Hr. rewrite index_steps_set_row in Hr. eexists _, id. do 3 (split; [eassumption|]). split; [|exact Hr].
    split.
    + eapply (reindexed_core D _ tb id (Some row)); eauto. intros row' [= <-]. now apply (value_fits_row D tb id false).
    + eapply reindexed_refs; eauto. intros i c r v Hcc Hrr Hrv Hn. apply (Hv i c v Hcc Hrv); auto.
Qed.

(** ** Replacement of one row *)
Definition replace_one (tb : Table) (id : Value) (row : Row) : stM T unit :=
  st_read (local_validate_row tb row true) ;;;
  (if bool_decide (indexed_columns tb = []) then st_ret tt
   else
     let! olds := st_read (local_get (table_name tb) [id]) in
     match olds with
     | [] => st_panic "removal index out of bounds"
     | old :: _ => st_iter (move_index tb id old row) (indexed_columns tb)
     end) ;;;
  kv_set_key (KeyRow (table_name tb) id) (encode_row row).

Lemma replace_one_triple D tb ct id key old row :
  db_ok D -> d_table D (table_name tb) = Some tb -> key_type tb ct -> stored_row row ->
  row !! primary_key tb = Some key -> value_eq id key = true -> d_row D (table_name tb) id = Some old ->
  triple (db_rep D) (replace_one tb id row) (fun _ t => exists D', key = id /\
    reindexed D D' tb id (Some row) /\ db_ok D' /\ db_rep D' t).
Proof.
  intros [Hc Hrefs] Ht Hk Hs Hid Hkey Hold. pose proof (core_wf D Hc) as W. destruct (wf_table D W _ _ Ht) as [_ Hst].
  unfold replace_one. eapply triple_bind.
  { now apply (validate_row_triple D tb ct). }
  intros []. apply triple_pure. intros (id' & Hid' & Hsid & Hti & Hty & _ & Hv).
  rewrite Hid in Hid'. injection Hid' as <-.
  destruct (core_row D Hc _ _ _ Hold) as (tb' & E' & Hoty & Hopk). rewrite Ht in E'. injection E' as <-.
  destruct (wf_row D W _ _ _ Hold) as (_ & Hids & Hos).
  assert (key = id) as ->.
  { symmetry. apply (stored_eq ct); auto. destruct Hk as (pc & Hpc & <-). apply (rt_value _ _ Hoty _ _ _ Hpc Hopk). }
  pose proof (core_index_typed D tb ct Hc Ht Hk) as Hi.
  set (G := move_change id old row).
  assert (reindexed D (db_set_row (table_name tb) id (Some row) (index_steps (table_name tb) G D (indexed_columns tb)))
    tb id (Some row)) as Hre.
  { apply (index_steps_reindexed D tb ct); auto; [now intros ? [= <-]| |].
    - intros ic v ids _ Hg. now apply move_change_good.
    - intros ic v x Hin ids. pose proof (core_index_column D tb id ic v Hc Ht Hin) as Hx. fold ids in Hx.
      rewrite Hold in Hx. pose proof (index_typed_good tb ct D (col_name ic.2) v Hi) as [_ Hg]. fold ids in Hg.
      assert (In id ids <-> old !! ic.1 = Some v) as Hold' by naive_solver. clear Hx.
      assert ((exists row0, Some row = Some row0 /\ row0 !! ic.1 = Some v) <-> row !! ic.1 = Some v) as -> by naive_solver.
      unfold G, move_change, hit_change. destruct (decide (x = id)) as [->|Hne].
      + case_decide; [rewrite Hold'; intuition congruence|].
        repeat case_decide; rewrite ?(set_insert_In ct), ?(set_remove_In ct) by auto using set_remove_ok; intuition congruence.
      + repeat case_decide; rewrite ?(set_insert_In ct), ?(set_remove_In ct) by auto using set_remove_ok; intuition congruence. }
  eapply triple_bind with (R := fun _ => db_rep (index_steps (table_name tb) G D (indexed_columns tb))).
  - case_bool_decide as El; [rewrite El; now apply triple_ret|]. eapply triple_bind.
    { apply (triple_read _ _ (fun o t => o = [old] /\ db_rep D t)). intros t Hr.
      rewrite (local_get_spec D) by (auto; apply Hst). cbn [omap list_omap]. rewrite Hold. auto. }
    intros o. apply triple_pure. intros ->. now apply (move_indexes_triple D tb ct).
  - intros []. eapply triple_post; [apply set_row_triple; [apply Hst | exact Hsid]|].
    intros [] t Hr. eexists. split; [reflexivity|]. split; [exact Hre|]. split; [|exact Hr]. split.
    + eapply (reindexed_core D _ tb id (Some row)); eauto. intros row' [= <-]. now apply (value_fits_row D tb id true).
    + eapply reindexed_refs; eauto. intros i c r v Hcc Hrr Hrv Hn. apply (Hv i c v Hcc Hrv); auto.
Qed.
End Ops.
