(* ===== verification/SqlLocalOps.v ===== *)
(** * The operations of the local SQL engine

    Every statement-level write keeps the database consistent if it succeeds,
    has the effect on rows and schemas its name says, and does not panic. *)
From S2P Require Import Prelude Bytes Keycode KeycodeTheory Btree Bincode Float64 SqlValue SqlValueTheory SqlExpr SqlPlan SqlExec SqlSchema SqlLocal SqlLocalRep SqlLocalTheory.

Section Ops.
Context {T : Type} `{F64Pow, Regex, KvSpec T}.
Context {BT : Bincode stored_table} {BR : Bincode stored_row} {BI : Bincode stored_ids}.

(** ** Foreign keys *)
Lemma safe_try_each {A} (f : A -> outcome unit) (P : A -> Prop) l :
  (forall x, In x l -> safe (f x) (fun _ => P x)) -> safe (try_each f l) (fun _ => forall x, In x l -> P x).
Proof.
  induction l as [|y l IH]; intros Hf; cbn [try_each]; [cbn; now intros|].
  eapply safe_bind; [apply Hf; now left|]. intros [] Hy.
  eapply safe_mono; [apply IH; intros; apply Hf; now right|]. intros [] Hl x [<-|Hx]; auto.
Qed.

Lemma schema_key_type D tb : schema_ok D tb -> exists ct, key_type tb ct.
Proof. intros Hs. destruct (so_pk D tb Hs) as (c & Hc & _). now exists (col_datatype c), c. Qed.

Lemma row_key_typed D tb ct id row :
  db_core D -> d_table D (table_name tb) = Some tb -> key_type tb ct -> d_row D (table_name tb) id = Some row -> in_column ct id.
Proof.
  intros Hc Ht (pc & Hpc & <-) Hr. destruct (core_row D Hc _ _ _ Hr) as (tb' & E & [_ V _] & Hpk).
  rewrite Ht in E. injection E as <-. apply (V _ _ _ Hpc Hpk).
Qed.

Section Refs.
Context (D : sql_db) (t : T) (Hrep : db_rep D t) (Hcore : db_core D).

Lemma table_references_spec n :
  exists refs, table_references n t = Ok refs /\
    (forall sr, In sr refs -> d_table D (table_name sr.1) = Some sr.1 /\
       forall i, In i sr.2 -> exists c, columns sr.1 !! i = Some c /\ references c = Some n) /\
    forall n' tb i c, d_table D n' = Some tb -> columns tb !! i = Some c -> references c = Some n ->
      exists ix, In (tb, ix) refs /\ In i ix.
Proof.
  destruct (list_tables_spec D t Hrep (core_wf D Hcore)) as (tbs & E & Hin). unfold table_references. rewrite E.
  cbn [outcome_bind]. eexists. split; [reflexivity|].
  assert (forall tb i, In i (enumerate_filter (fun c => bool_decide (references c = Some n)) tb).*1 <->
    exists c, columns tb !! i = Some c /\ references c = Some n) as Hi.
  { intros tb i. split.
    - intros ([i' c] & <- & [Hc Hb]%enumerate_filter_In)%in_map_iff. apply bool_decide_eq_true in Hb. eauto.
    - intros (c & Hc & Hb). apply in_map_iff. exists (i, c). split; [reflexivity|]. apply enumerate_filter_In.
      split; [exact Hc | now apply bool_decide_eq_true]. }
  split.
  - intros sr Hsr. apply filter_In in Hsr as [Hsr _]. apply in_map_iff in Hsr as (tb & <- & Htb). cbn [fst snd].
    apply Hin in Htb as [n' Hn]. split; [|intros i; apply Hi].
    destruct (wf_table D (core_wf D Hcore) _ _ Hn) as [-> _]. exact Hn.
  - intros n' tb i c Htb Hc Hr. assert (In i (enumerate_filter (fun c => bool_decide (references c = Some n)) tb).*1) as Hii
      by (apply Hi; eauto).
    eexists. split; [|exact Hii]. apply filter_In. split.
    + apply in_map_iff. exists tb. split; [reflexivity|]. apply Hin. eauto.
    + cbn [snd]. apply negb_true_iff, bool_decide_eq_false. intros En. now rewrite En in Hii.
Qed.

Lemma referencing_ids_spec source i c n ids :
  d_table D (table_name source) = Some source -> columns source !! i = Some c -> references c = Some n -> Forall stored ids ->
  exists sids ct, referencing_ids source i ids t = Ok sids /\ key_type source ct /\ ids_ok ct sids /\
    forall x, In x sids <-> exists row v, d_row D (table_name source) x = Some row /\ row !! i = Some v /\ In v ids.
Proof.
  intros Hs Hc Hr Hids. pose proof (core_wf D Hcore) as W. destruct (wf_table D W _ _ Hs) as [_ Hst].
  destruct (schema_key_type D source (core_schema D Hcore _ _ Hs)) as [ct Hct].
  unfold referencing_ids, table_column. rewrite Hc. cbn [outcome_bind]. destruct (Nat.eqb_spec i (primary_key source)) as [->|Hne].
  - rewrite (local_get_spec D) by (auto; apply Hst). cbn [outcome_bind].
    assert (forall row, In row (omap (d_row D (table_name source)) ids) <->
      exists id, In id ids /\ d_row D (table_name source) id = Some row) as Ho.
    { intros row. rewrite <- list_elem_of_In, list_elem_of_omap. setoid_rewrite list_elem_of_In. reflexivity. }
    assert (forall id row, d_row D (table_name source) id = Some row -> row !! primary_key source = Some id) as Hpk.
    { intros id row Er. destruct (core_row D Hcore _ _ _ Er) as (tb' & E' & _ & Hk). rewrite Hs in E'. injection E' as <-. exact Hk. }
    set (key (row : Row) := default Null (row !! primary_key source)).
    rewrite (try_collect_map_total _ key).
    2: { intros row (id & _ & Er)%Ho. unfold row_nth, key. now rewrite (Hpk id row Er). }
    cbn [outcome_bind]. destruct (set_of_list_ok ct (map key (omap (d_row D (table_name source)) ids))) as [Hok Hin].
    { apply List.Forall_forall. intros x (row & <- & (id & _ & Er)%Ho)%in_map_iff. unfold key. rewrite (Hpk id row Er).
      now apply (row_key_typed D source ct id row). }
    eexists _, ct. split; [reflexivity|]. split; [exact Hct|]. split; [exact Hok|]. intros x. rewrite Hin, in_map_iff. split.
    + intros (row & <- & (id & Hid & Er)%Ho). unfold key. rewrite (Hpk id row Er). cbn. exists row, id. rewrite (Hpk id row Er). auto.
    + intros (row & v & Er & Hv & Hvi). rewrite (Hpk x row Er) in Hv. injection Hv as <-. exists row.
      split; [unfold key; now rewrite (Hpk x row Er)|]. apply Ho. eauto.
  - assert (col_index c = true) as Hix.
    { destruct (so_ref D source (core_schema D Hcore _ _ Hs) i c n Hc Hr) as [[?|?] _]; [easy | assumption]. }
    rewrite (lookup_index_spec D) by (auto; first [apply Hst | apply (stored_column source i c Hst Hc)]).
    destruct (core_index_typed D source ct Hcore Hs Hct) as [_ Hf].
    destruct (set_of_list_ok ct (ids ≫= d_index D (table_name source) (col_name c))) as [Hok Hin].
    { clear -Hf. induction ids as [|v ids IH]; cbn [mbind list_bind]; [constructor|]. apply Forall_app. auto. }
    eexists _, ct. split; [reflexivity|]. split; [exact Hct|]. split; [exact Hok|]. intros x.
    rewrite Hin, <- list_elem_of_In, list_elem_of_bind. setoid_rewrite list_elem_of_In.
    setoid_rewrite (fun v => core_index_column D source x (i, c) v Hcore Hs (proj2 (indexed_columns_In source i c) (conj Hc Hix))).
    cbn [fst]. naive_solver.
Qed.

(** Rows of [tb] with the keys [ids] are referenced by rows among them only. *)
Definition unreferenced (tb : Table) (ids : list Value) : Prop :=
  forall n' tb' i c id row v, d_table D n' = Some tb' -> columns tb' !! i = Some c -> references c = Some (table_name tb) ->
    d_row D n' id = Some row -> row !! i = Some v -> In v ids -> n' = table_name tb /\ In id ids.

Lemma check_references_safe tb ct ids :
  d_table D (table_name tb) = Some tb -> key_type tb ct -> Forall stored ids -> Forall (in_column ct) ids ->
  safe (check_references tb ids t) (fun _ => unreferenced tb ids).
Proof.
  intros Ht Hct Hids Hty. unfold check_references.
  destruct (table_references_spec (table_name tb)) as (refs & -> & Hrefs & Hall). cbn [outcome_bind].
  eapply safe_mono.
  - apply (safe_try_each _ (fun sr => forall i, In i sr.2 -> forall id row v, d_row D (table_name sr.1) id = Some row ->
      row !! i = Some v -> In v ids -> table_name sr.1 = table_name tb /\ In id ids)).
    intros [source ix] Hsr. destruct (Hrefs _ Hsr) as [Hsrc His]. cbn [fst snd] in *.
    apply (safe_try_each _ (fun i => forall id row v, d_row D (table_name source) id = Some row ->
      row !! i = Some v -> In v ids -> table_name source = table_name tb /\ In id ids)).
    intros i Hi. destruct (His i Hi) as (c & Hc & Hr). unfold check_reference.
    destruct (referencing_ids_spec source i c _ ids Hsrc Hc Hr Hids) as (sids & ct' & -> & Hct' & Hok & Hin).
    cbn [outcome_bind]. apply safe_reject. intros En%negb_false_iff%bool_decide_eq_true id row v Hrow Hv Hvi.
    assert (In id sids) as Hid by (apply Hin; eauto). case_bool_decide as Es.
    + split; [exact Es|]. destruct (decide (id ∈ ids)) as [Hd|Hd]; [now apply list_elem_of_In|]. exfalso.
      assert (source = tb) as -> by (rewrite Es, Ht in Hsrc; congruence).
      assert (In id (foldl (fun s id => set_remove id s) sids ids)) as Hx; [|now rewrite En in Hx].
      apply (set_remove_all_In ct); [exact Hty| |].
      * destruct Hct as (pc & Hpc & <-), Hct' as (pc' & Hpc' & <-). rewrite Hpc in Hpc'. now injection Hpc' as <-.
      * split; [now rewrite <- list_elem_of_In | exact Hid].
    + rewrite En in Hid. destruct Hid.
  - intros [] Hsafe n' tb' i c id row v Hn Hc Hr Hrow Hv Hvi.
    destruct (Hall n' tb' i c Hn Hc Hr) as (ix & Hin & Hi). destruct (wf_table D (core_wf D Hcore) _ _ Hn) as [<- _].
    apply (Hsafe (tb', ix) Hin i Hi id row v Hrow Hv Hvi).
Qed.
End Refs.

(** ** DELETE *)

(** The rows of table [n] with keys in [ids] are gone, all else is as before. *)
Definition rows_deleted (n : bytes) (ids : list Value) (D D' : sql_db) : Prop :=
  (forall n', d_table D' n' = d_table D n') /\
  forall n' id, d_row D' n' id = if decide (n' = n /\ id ∈ ids) then None else d_row D n' id.

Lemma delete_rows_triple tb ct ids : forall D,
  db_core D -> d_table D (table_name tb) = Some tb -> key_type tb ct -> Forall stored ids ->
  triple (db_rep D) (st_iter (delete_row tb) ids) (fun _ t => exists D',
    rows_deleted (table_name tb) ids D D' /\ db_core D' /\ db_rep D' t).
Proof.
  induction ids as [|id ids IH]; intros D Hc Ht Hct Hids; cbn [st_iter].
  { apply triple_ret. intros t Hr. exists D. split; [|auto]. split; [reflexivity|]. intros n' id.
    rewrite decide_False; [reflexivity|]. intros [_ Hin]. now apply not_elem_of_nil in Hin. }
  apply Forall_cons in Hids as [Hid Hids].
  eapply triple_bind; [now apply (delete_row_triple D tb ct)|]. intros []. cbn beta. intros t (D1 & Hre & Hr).
  assert (db_core D1) as Hc1 by (apply (reindexed_core D D1 tb id None); auto; discriminate).
  pose proof (re_table _ _ _ _ _ Hre) as Et. pose proof (re_row _ _ _ _ _ Hre) as Er.
  specialize (IH D1 Hc1 ltac:(now rewrite Et) Hct Hids t Hr).
  destruct (st_iter (delete_row tb) ids t) as [[[]|e|p] t']; auto.
  destruct IH as (D' & [Ht' Hr'] & Hrest). exists D'. split; [|exact Hrest]. split; [intros; now rewrite Ht', Et|].
  intros n' id'. rewrite Hr', Er. repeat case_decide; rewrite ?elem_of_cons in *; try reflexivity; naive_solver.
Qed.

Definition ids_typed (D : sql_db) (n : bytes) (ids : list Value) : Prop :=
  Forall stored ids /\ forall tb ct, d_table D n = Some tb -> key_type tb ct -> Forall (in_column ct) ids.

Lemma local_delete_triple D n ids :
  db_ok D -> utf8_valid n = true -> ids_typed D n ids ->
  triple (db_rep D) (local_delete n ids) (fun _ t => exists D',
    is_Some (d_table D n) /\ rows_deleted n ids D D' /\ db_ok D' /\ db_rep D' t).
Proof.
  intros [Hc Hrefs] Hn [Hids Hty]. unfold local_delete. eapply triple_bind.
  { apply (triple_read _ _ (fun tb t => d_table D n = Some tb /\ db_rep D t)). intros t Hr.
    rewrite (must_get_table_spec D) by (auto; apply (core_wf D Hc)). destruct (d_table D n); cbn; auto. }
  intros tb. apply triple_pure. intros Ht. destruct (wf_table D (core_wf D Hc) _ _ Ht) as [<- _].
  destruct (schema_key_type D tb (core_schema D Hc _ _ Ht)) as [ct Hct].
  eapply triple_bind.
  { apply (triple_read _ _ (fun _ t => unreferenced D tb ids /\ db_rep D t)). intros t Hr.
    pose proof (check_references_safe D t Hr Hc tb ct ids Ht Hct Hids (Hty tb ct Ht Hct)) as Hs.
    destruct (check_references tb ids t); cbn in Hs; auto. }
  intros []. apply triple_pure. intros Hun. eapply triple_post; [now apply (delete_rows_triple tb ct)|].
  intros [] t (D' & [Et Er] & Hc' & Hr). exists D'. split; [eauto|]. split; [now split|]. split; [|exact Hr].
  split; [exact Hc'|]. intros n' tb' i c r id row v Htb Hcol Href Hrow Hv Hnn. rewrite Et in Htb. rewrite Er in Hrow.
  destruct (decide (n' = table_name tb /\ id ∈ ids)) as [|Hnd]; [discriminate|].
  rewrite Er, decide_False; [eapply Hrefs; eauto|]. intros [-> Hvi]. apply Hnd.
  rewrite list_elem_of_In in *. eapply Hun; eauto.
Qed.

(** ** INSERT *)

(** The new rows are added under their keys, all else is as before. *)
Definition rows_inserted (tb : Table) (rows : list Row) (D D' : sql_db) : Prop :=
  (forall n', d_table D' n' = d_table D n') /\
  (forall n' id, n' <> table_name tb -> d_row D' n' id = d_row D n' id) /\
  forall id row, d_row D' (table_name tb) id = Some row <->
    d_row D (table_name tb) id = Some row \/ (In row rows /\ row !! primary_key tb = Some id).

Lemma insert_rows_triple tb ct rows : forall D,
  db_ok D -> d_table D (table_name tb) = Some tb -> key_type tb ct -> Forall stored_row rows ->
  triple (db_rep D) (st_iter (insert_one tb) rows) (fun _ t => exists D',
    rows_inserted tb rows D D' /\
    Forall (fun row => exists id, row !! primary_key tb = Some id /\ d_row D (table_name tb) id = None) rows /\
    db_ok D' /\ db_rep D' t).
Proof.
  induction rows as [|row rows IH]; intros D Ho Ht Hct Hrows; cbn [st_iter].
  { apply triple_ret. intros t Hr. exists D. split; [|split; [constructor | auto]]. split; [reflexivity|].
    split; [reflexivity|]. cbn. naive_solver. }
  apply Forall_cons in Hrows as [Hrow Hrows].
  eapply triple_bind; [now apply (insert_one_triple D tb ct)|]. intros []. cbn beta.
  intros t (D1 & id & Hid & Hfresh & Hre & Ho1 & Hr).
  pose proof (re_table _ _ _ _ _ Hre) as Et. pose proof (re_row _ _ _ _ _ Hre) as Er.
  specialize (IH D1 Ho1 ltac:(now rewrite Et) Hct Hrows t Hr).
  destruct (st_iter (insert_one tb) rows t) as [[[]|e|p] t']; auto.
  destruct IH as (D' & (Ht' & Hn' & Hr') & Hfr & Hrest). exists D'. split; [|split; [|exact Hrest]].
  - split; [intros; now rewrite Ht', Et|]. split.
    + intros n' id' Hne. rewrite Hn' by exact Hne. rewrite Er, decide_False by naive_solver. reflexivity.
    + intros id' row'. rewrite Hr', Er. cbn [In]. case_decide as E; [destruct E as [_ ->]; naive_solver|].
      split; [naive_solver|]. intros [?|[[<-|?] ?]]; naive_solver.
  - constructor; [eauto|]. eapply Forall_impl; [exact Hfr|]. intros row' (id' & Hid' & Hf'). exists id'. split; [exact Hid'|].
    rewrite Er in Hf'. case_decide; [discriminate | exact Hf'].
Qed.

Lemma local_insert_triple D n rows :
  db_ok D -> utf8_valid n = true -> Forall stored_row rows ->
  triple (db_rep D) (local_insert n rows) (fun _ t => exists D' tb,
    d_table D n = Some tb /\ rows_inserted tb rows D D' /\
    Forall (fun row => exists id, row !! primary_key tb = Some id /\ d_row D n id = None) rows /\ db_ok D' /\ db_rep D' t).
Proof.
  intros Ho Hn Hrows. pose proof Ho as [Hc _]. unfold local_insert. eapply triple_bind.
  { apply (triple_read _ _ (fun tb t => d_table D n = Some tb /\ db_rep D t)). intros t Hr.
    rewrite (must_get_table_spec D) by (auto; apply (core_wf D Hc)). destruct (d_table D n); cbn; auto. }
  intros tb. apply triple_pure. intros Ht. destruct (wf_table D (core_wf D Hc) _ _ Ht) as [<- _].
  destruct (schema_key_type D tb (core_schema D Hc _ _ Ht)) as [ct Hct].
  eapply triple_post; [now apply (insert_rows_triple tb ct)|]. intros [] t (D' & Hi & Hf & Ho' & Hr). exists D', tb. auto.
Qed.

(** ** UPDATE *)
Lemma option_ext {A} (o o' : option A) : (forall a, o = Some a <-> o' = Some a) -> o = o'.
Proof. intros He. destruct o as [a|]; [symmetry; now apply He|]. destruct o' as [a|]; [now apply He | reflexivity]. Qed.

(** The row [id] becomes [row], under its new key. *)
Definition row_moved (tb : Table) (id key : Value) (row : Row) (D D' : sql_db) : Prop :=
  (forall n', d_table D' n' = d_table D n') /\
  (forall n' x, n' <> table_name tb -> d_row D' n' x = d_row D n' x) /\
  forall x, d_row D' (table_name tb) x =
    if decide (x = key) then Some row else if decide (x = id) then None else d_row D (table_name tb) x.

Lemma update_one_triple D tb ct id old row :
  db_ok D -> d_table D (table_name tb) = Some tb -> key_type tb ct -> d_row D (table_name tb) id = Some old ->
  stored_row row -> length row = length (columns tb) ->
  triple (db_rep D) (update_one tb (id, row)) (fun _ t => exists D' key, row !! primary_key tb = Some key /\
    (key = id \/ d_row D (table_name tb) key = None) /\ row_moved tb id key row D D' /\ db_ok D' /\ db_rep D' t).
Proof.
  intros Ho Ht Hct Hold Hs Hl. pose proof Ho as [Hc _]. destruct (wf_table D (core_wf D Hc) _ _ Ht) as [_ [Hu _]].
  destruct (wf_row D (core_wf D Hc) _ _ _ Hold) as (_ & Hsid & _).
  destruct (lookup_lt_is_Some_2 row (primary_key tb)) as [key Hkey].
  { rewrite Hl. destruct Hct as (pc & Hpc & _). now apply lookup_lt_Some in Hpc. }
  unfold update_one. rewrite (row_index_ok _ _ _ Hkey).
  eapply triple_bind; [apply (triple_lift (db_rep D) key (fun a t => a = key /\ db_rep D t)); auto|].
  intros a. apply triple_pure. intros ->. destruct (value_eq id key) eqn:Ev; cbn [negb].
  - eapply triple_post; [now apply (replace_one_triple D tb ct id key old row)|].
    intros [] t (D' & -> & Hre & Ho' & Hr). exists D', id. split; [exact Hkey|]. split; [auto|]. split; [|auto].
    split; [apply (re_table _ _ _ _ _ Hre)|]. pose proof (re_row _ _ _ _ _ Hre) as Er. split.
    + intros n' x Hne. rewrite Er, decide_False by naive_solver. reflexivity.
    + intros x. rewrite Er. repeat case_decide; naive_solver.
  - assert (key <> id) as Hne by (intros ->; rewrite value_eq_refl in Ev by apply Hsid; discriminate).
    eapply triple_bind.
    { apply (local_delete_triple D (table_name tb) [id]); auto. split; [auto|]. intros tb' ct' E Hct'.
      rewrite Ht in E. injection E as <-. apply Forall_singleton. now apply (row_key_typed D tb ct' id old). }
    intros []. cbn beta. intros t (D1 & _ & [Et Er] & Ho1 & Hr).
    pose proof (local_insert_triple D1 (table_name tb) [row] Ho1 Hu ltac:(auto) t Hr) as Hi.
    destruct (local_insert (table_name tb) [row] t) as [[[]|e|p] t']; auto.
    destruct Hi as (D' & tb' & E & (Et' & Hn' & Hr') & Hf & Ho' & Hrep'). rewrite Et, Ht in E. injection E as <-.
    apply Forall_singleton in Hf as (key' & E & Hf). rewrite Hkey in E. injection E as <-.
    rewrite Er, decide_False in Hf by (rewrite list_elem_of_singleton; naive_solver).
    exists D', key. split; [exact Hkey|]. split; [auto|]. split; [|auto]. split; [intros; now rewrite Et', Et|]. split.
    + intros n' x Hnn. rewrite Hn' by exact Hnn. rewrite Er, decide_False by naive_solver. reflexivity.
    + intros x. apply option_ext. intros r. rewrite Hr', Er. cbn [In].
      repeat case_decide; rewrite ?list_elem_of_singleton in *; naive_solver.
Qed.

(** The listed rows are replaced, under their new keys. *)
Definition rows_updated (tb : Table) (rows : list (Value * Row)) (D D' : sql_db) : Prop :=
  (forall n', d_table D' n' = d_table D n') /\
  (forall n' x, n' <> table_name tb -> d_row D' n' x = d_row D n' x) /\
  forall x row, d_row D' (table_name tb) x = Some row <->
    (exists id, In (id, row) rows /\ row !! primary_key tb = Some x) \/
    (d_row D (table_name tb) x = Some row /\ x ∉ rows.*1).

(** Updates of existing rows, one per row. *)
Definition updates_ok (D : sql_db) (tb : Table) (rows : list (Value * Row)) : Prop :=
  NoDup rows.*1 /\
  Forall (fun ir => is_Some (d_row D (table_name tb) ir.1) /\ stored_row ir.2 /\ length ir.2 = length (columns tb)) rows.

Lemma update_rows_triple tb ct rows : forall D,
  db_ok D -> d_table D (table_name tb) = Some tb -> key_type tb ct -> updates_ok D tb rows ->
  triple (db_rep D) (st_iter (update_one tb) rows) (fun _ t => exists D',
    rows_updated tb rows D D' /\ db_ok D' /\ db_rep D' t).
Proof.
  induction rows as [|[id row] rows IH]; intros D Ho Ht Hct [Hnd Hf]; cbn [st_iter].
  { apply triple_ret. intros t Hr. exists D. split; [|auto]. split; [reflexivity|]. split; [reflexivity|].
    intros x row. split; [intros E; right; split; [exact E | apply not_elem_of_nil]|]. now intros [(id & [] & _)|[E _]]. }
  cbn in Hnd. apply NoDup_cons in Hnd as [Hni Hnd]. apply Forall_cons in Hf as [([old Hold] & Hs & Hl) Hf]. cbn [fst snd] in *.
  eapply triple_bind; [now apply (update_one_triple D tb ct id old row)|]. intros []. cbn beta.
  intros t (D1 & key & Hkey & Hfree & (Et & En & Er) & Ho1 & Hr).
  assert (forall id', id' ∈ rows.*1 -> id' <> id /\ id' <> key /\ is_Some (d_row D (table_name tb) id')) as Hids.
  { intros id' Hin. assert (is_Some (d_row D (table_name tb) id')) as Hsome.
    { apply list_elem_of_fmap in Hin as ([x r] & -> & Hin). rewrite Forall_forall in Hf. now apply (Hf _ Hin). }
    assert (id' <> id) by (intros ->; now apply Hni). split; [assumption|]. split; [|exact Hsome].
    intros ->. destruct Hfree as [->|Hn]; [easy|]. rewrite Hn in Hsome. now destruct Hsome. }
  assert (updates_ok D1 tb rows) as Hu.
  { split; [exact Hnd|]. rewrite List.Forall_forall in *. intros [id' r] Hin. destruct (Hf _ Hin) as (_ & H1' & H2').
    split; [|auto]. destruct (Hids id') as (N1 & N2 & Hsome).
    { apply list_elem_of_fmap. exists (id', r). split; [reflexivity|]. now apply list_elem_of_In. }
    cbn [fst]. rewrite Er, !decide_False by assumption. exact Hsome. }
  specialize (IH D1 Ho1 ltac:(now rewrite Et) Hct Hu t Hr).
  destruct (st_iter (update_one tb) rows t) as [[[]|e|p] t']; auto.
  destruct IH as (D' & (Et' & En' & Er') & Hrest). exists D'. split; [|exact Hrest].
  split; [intros; now rewrite Et', Et|]. split; [intros; now rewrite En', En|].
  intros x r. rewrite Er', Er. cbn [fmap list_fmap In]. rewrite elem_of_cons. cbn [fst].
  assert (key ∉ rows.*1) as Hkn by (intros Hin; now destruct (Hids key Hin) as (_ & ? & _)).
  repeat case_decide; subst; naive_solver.
Qed.

Lemma local_update_triple D n rows :
  db_ok D -> utf8_valid n = true -> (forall tb, d_table D n = Some tb -> updates_ok D tb rows) ->
  triple (db_rep D) (local_update n rows) (fun _ t => exists D' tb,
    d_table D n = Some tb /\ rows_updated tb rows D D' /\ db_ok D' /\ db_rep D' t).
Proof.
  intros Ho Hn Hrows. pose proof Ho as [Hc _]. unfold local_update. eapply triple_bind.
  { apply (triple_read _ _ (fun tb t => d_table D n = Some tb /\ db_rep D t)). intros t Hr.
    rewrite (must_get_table_spec D) by (auto; apply (core_wf D Hc)). destruct (d_table D n); cbn; auto. }
  intros tb. apply triple_pure. intros Ht. specialize (Hrows tb Ht). destruct (wf_table D (core_wf D Hc) _ _ Ht) as [<- _].
  destruct (schema_key_type D tb (core_schema D Hc _ _ Ht)) as [ct Hct].
  eapply triple_post; [now apply (update_rows_triple tb ct)|]. intros [] t (D' & Hi & Ho' & Hr). exists D', tb. auto.
Qed.

(** The ids of an index lookup. *)
Lemma lookup_index_hits D t tb i c vs :
  db_rep D t -> db_core D -> d_table D (table_name tb) = Some tb -> In (i, c) (indexed_columns tb) -> Forall stored vs ->
  exists ids, local_lookup_index (table_name tb) (col_name c) vs t = Ok ids /\ StronglySorted value_lt ids /\
    forall id, In id ids <-> exists row v, d_row D (table_name tb) id = Some row /\ row !! i = Some v /\ In v vs.
Proof.
  intros Hr Hc Ht Hi Hvs. destruct (wf_table D (core_wf D Hc) _ _ Ht) as [_ Hst].
  pose proof Hi as [Hcc _]%indexed_columns_In. destruct (schema_key_type D tb (core_schema D Hc _ _ Ht)) as [ct Hct].
  rewrite (lookup_index_spec D) by (auto; first [apply (core_wf D Hc) | apply Hst | apply (stored_column tb i c Hst Hcc)]).
  destruct (core_index_typed D tb ct Hc Ht Hct) as [_ Hf].
  destruct (set_of_list_ok ct (vs ≫= d_index D (table_name tb) (col_name c))) as [[_ Hs] Hin].
  { clear -Hf. induction vs as [|v vs IH]; cbn [mbind list_bind]; [constructor|]. apply Forall_app. auto. }
  eexists. split; [reflexivity|]. split; [exact Hs|]. intros id. rewrite Hin, <- list_elem_of_In, list_elem_of_bind.
  setoid_rewrite list_elem_of_In. setoid_rewrite (fun v => core_index_column D tb id (i, c) v Hc Ht Hi). cbn [fst]. naive_solver.
Qed.
End Ops.
