(* ===== verification/SqlIndexLookup.v ===== *)
(** * Index lookups on the local SQL engine

    The optimizer replaces a filtered scan by a lookup of primary keys or of an
    index.  On a consistent database the lookup yields the same rows. *)
From S2P Require Import Prelude Bytes Keycode KeycodeTheory Btree Bincode Float64 SqlValue SqlValueTheory SqlExpr SqlExprTheory SqlPlan SqlExec SqlOptimizer SqlOptTheory SqlPushdown SqlSchema SqlLocal SqlLocalRep SqlLocalTheory SqlLocalOps.

#[export] Instance filter_permutation {A} (f : A -> bool) : Proper (Permutation ==> Permutation) (List.filter f).
Proof.
  induction 1 as [|x l l' Hp IH|x y l|l1 l2 l3 _ IH1 _ IH2]; cbn [List.filter]; try reflexivity.
  - destruct (f x); [now constructor | exact IH].
  - destruct (f x), (f y); try reflexivity. constructor.
  - now transitivity (List.filter f l2).
Qed.

Section Logical.
Context `{F64Pow, Regex}.

(** The expression has a logical value on the row. *)
Definition logical_on (row : Row) (e : Expression) : Prop := exists v, evaluate (Some row) e = Ok v /\ logical v.

Lemma logical_and row a b : logical_on row (And a b) <-> logical_on row a /\ logical_on row b.
Proof.
  unfold logical_on. rewrite evaluate_And. split.
  - intros (v & E & _). apply outcome_bind_ok in E as (x & -> & E). apply outcome_bind_ok in E as (y & -> & E).
    apply eval_and_ok in E as (Hx & Hy & _). split; eexists; eauto.
  - intros [(x & -> & Hx) (y & -> & Hy)]. cbn [outcome_bind].
    destruct x as [|[]| | |], y as [|[]| | |]; try easy; (eexists; split; [reflexivity | exact I]).
Qed.

Lemma logical_conjuncts row e : logical_on row e -> Forall (logical_on row) (conjuncts e).
Proof.
  induction e; cbn [conjuncts]; intros Hl; try (now repeat constructor).
  apply logical_and in Hl as [H1 H2]. apply Forall_app. auto.
Qed.

Lemma logical_and_vec row es e : Forall (logical_on row) es -> and_vec es = Some e -> logical_on row e.
Proof.
  destruct es as [|x es]; [discriminate|]. cbn [and_vec]. intros [Hx Hf]%Forall_cons [= <-].
  revert x Hx. induction Hf as [|y es Hy Hf IH]; intros x Hx; cbn [fold_left]; [exact Hx|]. apply IH, logical_and. auto.
Qed.

Lemma logical_cnf row p cs : into_cnf_vec p = Ok cs -> logical_on row p -> Forall (logical_on row) cs.
Proof.
  intros Ecs (v & Hv & Hl). destruct (into_cnf_total p) as [c Hc]. rewrite (into_cnf_vec_eq p c Hc) in Ecs. injection Ecs as <-.
  apply logical_conjuncts. exists v. split; [exact (into_cnf_eval (Some row) p c v Hc Hv) | exact Hl].
Qed.

(** A filter without errors. *)
Lemma filter_rows_logical e rs rows :
  filter_rows e (map Ok rs) = map Ok rows -> Forall (fun r => logical_on r e) rs.
Proof.
  revert rows. induction rs as [|r rs IH]; intros rows; cbn [map filter_rows]; [constructor|].
  destruct (predicate_holds _ e r) as [b| |] eqn:Eb; [|now destruct rows ..].
  assert (logical_on r e) as Hl.
  { unfold predicate_holds in Eb. apply outcome_bind_ok in Eb as (v & Ev & Eb). exists v. split; [exact Ev|]. now destruct v as [|[]| | |]. }
  destruct b; [destruct rows as [|r' rows]; [discriminate|]; cbn [map]; intros [= -> E]|intros E]; constructor; eauto.
Qed.

Lemma filter_rows_total e rs :
  Forall (fun r => logical_on r e) rs -> filter_rows e (map Ok rs) = map Ok (List.filter (holdsb (Some e)) rs).
Proof.
  induction 1 as [|r rs (v & Ev & Hl) _ IH]; [reflexivity|]. cbn [map filter_rows List.filter]. unfold predicate_holds.
  cbn [holdsb]. rewrite Ev. cbn [outcome_bind]. destruct v as [|[]| | |]; try easy. cbn [map]. now rewrite IH.
Qed.

(** The conjunct that the optimizer takes out. *)
Lemma find_lookup_spec tb cs : forall k i c,
  find_lookup tb k cs = Ok (Some (i, c)) ->
  exists e, (k <= i)%nat /\ cs !! (i - k)%nat = Some e /\ is_column_lookup e = Some c /\
    (c = primary_key tb \/ exists col, columns tb !! c = Some col /\ col_index col = true).
Proof.
  induction cs as [|e cs IH]; intros k i c; cbn [find_lookup]; [discriminate|].
  assert (find_lookup tb (S k) cs = Ok (Some (i, c)) -> exists e', (k <= i)%nat /\ (e :: cs) !! (i - k)%nat = Some e' /\
    is_column_lookup e' = Some c /\ (c = primary_key tb \/ exists col, columns tb !! c = Some col /\ col_index col = true)) as Hs.
  { intros (e' & Hk & Hl & Hr)%IH. exists e'. split; [lia|]. split; [|exact Hr].
    replace (i - k)%nat with (S (i - S k)) by lia. exact Hl. }
  destruct (is_column_lookup e) as [c'|] eqn:Ec; [|exact Hs].
  assert (forall P : Prop, P -> Ok (Some (k, c')) = Ok (Some (i, c)) -> c = c' /\ (k <= i)%nat /\ (e :: cs) !! (i - k)%nat = Some e /\ P) as Hk.
  { intros P HP [= -> ->]. rewrite Nat.sub_diag. auto. }
  destruct (Nat.eqb_spec c' (primary_key tb)) as [Ep|Ep].
  - intros (-> & ? & ? & _)%(Hk True I). exists e. auto.
  - unfold table_column. destruct (columns tb !! c') as [col|] eqn:Ecol; [|discriminate]. cbn [outcome_bind].
    destruct (col_index col) eqn:Ei; [|exact Hs]. intros (-> & ? & ? & _)%(Hk True I). exists e. split; [assumption|]. split; [assumption|].
    split; [exact Ec|]. right. eauto.
Qed.

(** A predicate is its lookup conjunct and the rest. *)
Lemma cnf_split row p cs i e :
  into_cnf_vec p = Ok cs -> cs !! i = Some e -> logical_on row p ->
  holdsb (Some p) row = holdsb (Some e) row && holdsb (and_vec (list_delete i cs)) row.
Proof.
  intros Ecs Hi (v & Hv & _). apply eq_true_iff_eq. rewrite andb_true_iff, !holdsb_spec, holds_and_vec.
  cbn [holds]. unfold true_on at 1. rewrite Hv.
  transitivity (v = Boolean true); [split; congruence|]. rewrite (cnf_vec_true row p cs v Ecs Hv).
  unfold all_true. rewrite (delete_Permutation cs i e Hi) at 1. now rewrite Forall_cons.
Qed.
End Logical.

Section IndexLookup.
Context {T : Type} `{F64Pow, Regex, KvSpec T}.
Context {BT : Bincode stored_table} {BR : Bincode stored_row} {BI : Bincode stored_ids}.
Context (D : sql_db) (t : T) (tb : Table).
Context (Hrep : SqlLocalRep.db_rep D t) (Hok : db_ok D) (Htb : d_table D (table_name tb) = Some tb).

Lemma omap_rows_In ids r :
  In r (omap (d_row D (table_name tb)) ids) <-> exists id, In id ids /\ d_row D (table_name tb) id = Some r.
Proof. rewrite <- list_elem_of_In, list_elem_of_omap. setoid_rewrite list_elem_of_In. reflexivity. Qed.

Lemma row_key id r : d_row D (table_name tb) id = Some r -> r !! primary_key tb = Some id.
Proof.
  destruct Hok as [Hc _]. intros Hr. destruct (core_row D Hc _ _ _ Hr) as (tb' & E & _ & Hk). rewrite Htb in E. now injection E as <-.
Qed.

Lemma omap_rows_NoDup ids : NoDup ids -> NoDup (omap (d_row D (table_name tb)) ids).
Proof.
  induction 1 as [|id ids Hni Hnd IH]; cbn [omap list_omap]; [constructor|].
  destruct (d_row D (table_name tb) id) as [r|] eqn:E; [|exact IH]. constructor; [|exact IH].
  rewrite list_elem_of_In. intros (id' & Hin & E')%omap_rows_In. apply Hni, list_elem_of_In.
  pose proof (row_key _ _ E) as K. rewrite (row_key _ _ E') in K. injection K as <-. exact Hin.
Qed.

(** The values of a lookup: what the store can hold of the column's type.  A
    key list has no repetitions (a repeated key yields its row twice). *)
Definition lookup_values_ok (column : nat) (values : list Value) : Prop :=
  exists c, columns tb !! column = Some c /\
    Forall (fun v => stored v /\ in_column (col_datatype c) v) values /\ (column = primary_key tb -> NoDup values).

Lemma lookup_conjunct e column values id r :
  is_column_lookup e = Some column -> into_column_values column e = Ok values -> lookup_values_ok column values ->
  d_row D (table_name tb) id = Some r -> logical_on r e ->
  exists x, r !! column = Some x /\ (holdsb (Some e) r = true <-> In x values).
Proof.
  intros Hl Ev (c & Hc & Hv & _) Hr (w & Hw & _). destruct (is_column_lookup_sound e column Hl) as (values' & Ev' & Hs).
  rewrite Ev in Ev'. injection Ev' as <-. pose proof Hok as [Hcore _].
  destruct (core_row D Hcore _ _ _ Hr) as (tb' & E & Hty & _). rewrite Htb in E. injection E as <-.
  destruct (lookup_lt_is_Some_2 r column) as [x Hx]; [rewrite (rt_length _ _ Hty); now apply lookup_lt_Some in Hc|].
  exists x. split; [exact Hx|]. rewrite holdsb_spec. cbn [holds]. unfold true_on. rewrite Hw.
  transitivity (w = Boolean true); [split; congruence|]. rewrite (Hs r x w Hx Hw), List.Exists_exists.
  assert (stored x) as Hsx by (apply (stored_row_lookup r column); [apply (wf_row D (core_wf D Hcore) _ _ _ Hr) | exact Hx]).
  pose proof (proj1 (rt_value _ _ Hty _ _ _ Hc Hx)) as Htx. rewrite List.Forall_forall in Hv. split.
  - intros (y & Hy & E). destruct (Hv y Hy) as [Hsy Hty']. apply (stored_eq (col_datatype c)) in E as ->; auto.
  - intros Hin. exists x. split; [exact Hin|]. now apply value_eq_refl, Hsx.
Qed.

(** The rows of a lookup are those of the scan that satisfy its conjunct. *)
Lemma lookup_rows_perm e column values ids all :
  is_column_lookup e = Some column -> into_column_values column e = Ok values -> lookup_values_ok column values ->
  (forall id, In id all <-> is_Some (d_row D (table_name tb) id)) -> NoDup all -> NoDup ids ->
  (forall id r, d_row D (table_name tb) id = Some r -> logical_on r e) ->
  (forall id, is_Some (d_row D (table_name tb) id) -> In id ids <->
     exists r x, d_row D (table_name tb) id = Some r /\ r !! column = Some x /\ In x values) ->
  omap (d_row D (table_name tb)) ids ≡ₚ List.filter (holdsb (Some e)) (omap (d_row D (table_name tb)) all).
Proof.
  intros Hl Ev Hv Hall Hnd Hnd' Hlog Hids. apply NoDup_Permutation; [now apply omap_rows_NoDup | |].
  - apply NoDup_ListNoDup, List.NoDup_filter, NoDup_ListNoDup. now apply omap_rows_NoDup.
  - intros r. rewrite !list_elem_of_In, filter_In, !omap_rows_In. split.
    + intros (id & Hin & Hr). assert (is_Some (d_row D (table_name tb) id)) as Hs by eauto.
      apply (Hids id Hs) in Hin as (r' & x & E & Hx & Hxv). rewrite Hr in E. injection E as <-.
      split; [exists id; split; [now apply Hall | exact Hr]|].
      destruct (lookup_conjunct e column values id r Hl Ev Hv Hr (Hlog _ _ Hr)) as (y & Hy & Hiff). apply Hiff. congruence.
    + intros [(id & Hin & Hr) Hh]. exists id. split; [|exact Hr]. apply Hids; [eauto|].
      destruct (lookup_conjunct e column values id r Hl Ev Hv Hr (Hlog _ _ Hr)) as (y & Hy & Hiff). apply Hiff in Hh. eauto.
Qed.

(** The node a lookup becomes. *)
Definition lookup_node (column : nat) (values : list Value) (alias : option bytes) : Node :=
  if (column =? primary_key tb)%nat then NKeyLookup tb values alias else NIndexLookup tb column values alias.

Lemma lookup_node_rows e column values alias all :
  is_column_lookup e = Some column -> into_column_values column e = Ok values -> lookup_values_ok column values ->
  (column = primary_key tb \/ exists col, columns tb !! column = Some col /\ col_index col = true) ->
  (forall id, In id all <-> is_Some (d_row D (table_name tb) id)) -> NoDup all ->
  (forall id r, d_row D (table_name tb) id = Some r -> logical_on r e) ->
  exists rows, execute_node (lookup_node column values alias) t = Ok (map Ok rows) /\
    rows ≡ₚ List.filter (holdsb (Some e)) (omap (d_row D (table_name tb)) all).
Proof.
  intros Hl Ev Hv Hix Hall Hnd Hlog. pose proof Hok as [Hc _]. pose proof (core_wf D Hc) as W.
  destruct (wf_table D W _ _ Htb) as [_ Hst]. pose proof Hv as (c & Hcol & Hvs & Hkeys).
  assert (Forall stored values) as Hsv by (eapply Forall_impl; [exact Hvs | now intros v []]).
  unfold lookup_node. destruct (Nat.eqb_spec column (primary_key tb)) as [->|Hne].
  - exists (omap (d_row D (table_name tb)) values). cbn [execute_node]. unfold txn_get. cbn [local_transaction].
    rewrite (local_get_spec D) by (auto; apply Hst). split; [reflexivity|].
    apply (lookup_rows_perm e (primary_key tb) values); auto. intros id [r Hr]. pose proof (row_key id r Hr) as Hk. split.
    + intros Hin. eauto.
    + intros (r' & x & E & Hx & Hin). rewrite Hr in E. injection E as <-. congruence.
  - destruct Hix as [|(col & Hcol' & Hi)]; [easy|]. rewrite Hcol in Hcol'. injection Hcol' as <-.
    destruct (lookup_index_hits D t tb column c values Hrep Hc Htb) as (ids & El & Hs & Hin);
      [now apply indexed_columns_In | exact Hsv |].
    assert (NoDup ids) as Hndi.
    { clear -Hs. induction Hs as [|a l Hs IH Hf]; constructor; [|exact IH]. intros Hin. rewrite Forall_forall in Hf.
      specialize (Hf a Hin). unfold value_lt in Hf. now rewrite value_cmp_refl in Hf. }
    exists (omap (d_row D (table_name tb)) ids). cbn [execute_node]. rewrite Hcol. unfold txn_lookup_index, txn_get.
    cbn [local_transaction]. rewrite El. cbn [outcome_bind]. rewrite (local_get_spec D); [|exact Hrep | exact W | apply Hst |].
    2: { apply List.Forall_forall. intros id (r & v & Hr & _)%Hin. apply (wf_row D W _ _ _ Hr). }
    split; [reflexivity|]. apply (lookup_rows_perm e column values); auto.
Qed.

(** The lookups of a rewritten scan. *)
Definition lookup_ok (n : Node) : Prop :=
  match match n with NFilter n _ => n | n => n end with
  | NKeyLookup _ values _ => lookup_values_ok (primary_key tb) values
  | NIndexLookup _ column values _ => lookup_values_ok column values
  | _ => True
  end.

Lemma lookup_ok_node column values alias p :
  lookup_ok (match p with Some p => NFilter (lookup_node column values alias) p | None => lookup_node column values alias end) ->
  lookup_values_ok column values.
Proof.
  unfold lookup_ok, lookup_node. destruct p; destruct (Nat.eqb_spec column (primary_key tb)) as [->|]; auto.
Qed.

Lemma index_lookup_rows f alias rows n' :
  execute_node (NScan tb (Some f) alias) t = Ok (map Ok rows) ->
  index_lookup (NScan tb (Some f) alias) = Ok n' -> lookup_ok n' ->
  exists rows', execute_node n' t = Ok (map Ok rows') /\ rows' ≡ₚ rows.
Proof.
  intros Hy Hn Hlv. pose proof Hok as [Hc _]. pose proof (core_wf D Hc) as W. destruct (wf_table D W _ _ Htb) as [_ Hst].
  cbn [index_lookup] in Hn. apply outcome_bind_ok in Hn as (cs & Ecs & Hn). apply outcome_bind_ok in Hn as (found & Ef & Hn).
  destruct found as [[i column]|]; [|injection Hn as <-; eauto].
  destruct (find_lookup_spec tb cs 0 i column Ef) as (e & _ & He & Hl & Hix). rewrite Nat.sub_0_r in He. rewrite He in Hn.
  apply outcome_bind_ok in Hn as (values & Ev & Hn). injection Hn as Hn. fold (lookup_node column values alias) in Hn. subst n'.
  apply lookup_ok_node in Hlv.
  destruct (local_scan_spec D t (table_name tb) Hrep W (proj1 Hst)) as (all & Hscan & Hsort & Hall).
  assert (NoDup all) as Hnd.
  { clear -Hsort. induction Hsort as [|a l Hs IH Hf]; constructor; [|exact IH]. intros Hin. rewrite Forall_forall in Hf.
    specialize (Hf a Hin). cbn beta in Hf. now rewrite lex_lt_irrefl in Hf. }
  cbn [execute_node] in Hy. unfold txn_scan in Hy. cbn [local_transaction] in Hy. unfold local_scan in Hscan, Hy.
  destruct (scan_values decode_row (PrefixRow (table_name tb)) t) as [vals| |]; [|discriminate ..]. cbn [outcome_bind] in *.
  injection Hscan as ->. injection Hy as Hy. pose proof (filter_rows_logical f _ _ Hy) as Hlog.
  apply filter_rows_holdsb in Hy as ->. rewrite List.Forall_forall in Hlog.
  assert (forall id r, d_row D (table_name tb) id = Some r -> logical_on r f) as Hlr.
  { intros id r Hr. apply Hlog, omap_rows_In. exists id. split; [apply Hall; eauto | exact Hr]. }
  destruct (lookup_node_rows e column values alias all Hl Ev Hlv Hix Hall Hnd) as (lrows & Elook & Hperm).
  { intros id r Hr. pose proof (logical_cnf r f cs Ecs (Hlr id r Hr)) as Hcs. exact (proj1 (Forall_lookup _ _) Hcs _ _ He). }
  assert (List.filter (holdsb (Some f)) (omap (d_row D (table_name tb)) all) =
    List.filter (holdsb (and_vec (list_delete i cs))) (List.filter (holdsb (Some e)) (omap (d_row D (table_name tb)) all))) as ->.
  { clear -Hlog Ecs He. induction (omap (d_row D (table_name tb)) all) as [|r rs IH]; [reflexivity|]. cbn [List.filter].
    rewrite (cnf_split r f cs i e Ecs He (Hlog r (or_introl eq_refl))). rewrite IH by (intros; apply Hlog; now right).
    destruct (holdsb (Some e) r); cbn [andb List.filter]; reflexivity. }
  destruct (and_vec (list_delete i cs)) as [p|] eqn:Ep.
  - exists (List.filter (holdsb (Some p)) lrows). split; [|now rewrite Hperm].
    cbn [execute_node]. rewrite Elook. cbn [outcome_bind]. rewrite filter_rows_total; [reflexivity|].
    apply List.Forall_forall. intros r Hr. apply list_elem_of_In in Hr. rewrite Hperm in Hr. apply list_elem_of_In, filter_In in Hr as [Hr _].
    apply (logical_and_vec r (list_delete i cs)); [|exact Ep]. pose proof (logical_cnf r f cs Ecs (Hlog r Hr)) as Hcs.
    rewrite (delete_Permutation cs i e He) in Hcs. now apply Forall_cons in Hcs.
  - exists lrows. split; [exact Elook|]. rewrite Hperm. clear. induction (List.filter _ _) as [|r rs IH]; [reflexivity|].
    cbn [List.filter holdsb]. now f_equiv.
Qed.
End IndexLookup.
