(* ===== verification/SqlLocalTables.v ===== *)
(** * CREATE TABLE and DROP TABLE of the local SQL engine

    A created table starts empty and its schema is consistent with the others;
    a dropped table takes its rows and index entries with it. *)
From S2P Require Import Prelude Bytes Keycode KeycodeTheory Btree Bincode Float64 SqlValue SqlValueTheory SqlExpr SqlPlan SqlExec SqlSchema SqlLocal SqlLocalRep SqlLocalTheory SqlLocalOps.

Section Tables.
Context {T : Type} `{F64Pow, Regex, KvSpec T}.
Context {BT : Bincode stored_table} {BR : Bincode stored_row} {BI : Bincode stored_ids}.

(** ** CREATE TABLE *)

(** What [validate] establishes of one column. *)
Definition column_valid (D : sql_db) (tb : Table) (i : nat) (c : Column_) : Prop :=
  (i = primary_key tb -> nullable c = false /\ unique c = true /\ col_index c = false) /\
  (unique c = true -> i <> primary_key tb -> col_index c = true) /\
  forall r, references c = Some r -> (i = primary_key tb \/ col_index c = true) /\
    exists target pc, (if decide (r = table_name tb) then target = tb else d_table D r = Some target) /\
      columns target !! primary_key target = Some pc /\ col_datatype pc = col_datatype c.

Lemma reference_type_safe D t tb r :
  db_rep D t -> db_core D -> utf8_valid r = true -> is_Some (columns tb !! primary_key tb) ->
  safe (reference_type local_get_table tb r t) (fun ct => exists target pc,
    (if decide (r = table_name tb) then target = tb else d_table D r = Some target) /\
    columns target !! primary_key target = Some pc /\ col_datatype pc = ct).
Proof.
  intros Hr Hc Hu [pc Hpc]. unfold reference_type. case_bool_decide as E.
  - unfold table_column. rewrite Hpc. cbn. exists tb, pc. now rewrite decide_True.
  - rewrite (get_table_spec D) by (auto; apply (core_wf D Hc)). cbn [outcome_bind].
    destruct (d_table D r) as [target|] eqn:Et; [|reflexivity].
    destruct (so_pk D target (core_schema D Hc _ _ Et)) as (c & Hcc & _). unfold table_column. rewrite Hcc. cbn.
    exists target, c. now rewrite decide_False.
Qed.

Lemma validate_column_safe D t tb i c :
  db_rep D t -> db_core D -> stored_table tb -> is_Some (columns tb !! primary_key tb) -> columns tb !! i = Some c ->
  safe (validate_column local_get_table tb t i c) (fun _ => column_valid D tb i c).
Proof.
  intros Hr Hc Hs Hp Hi. unfold validate_column. do 4 (apply safe_guard; intros ?).
  eapply safe_bind with (P := fun _ => True).
  { destruct (datatype <$> col_default c) as [[vt|]|]; now apply safe_reject. }
  intros _ _. apply safe_guard. intros Hun.
  assert ((i = primary_key tb -> nullable c = false /\ unique c = true /\ col_index c = false) /\
          (unique c = true -> i <> primary_key tb -> col_index c = true)) as [Hk Hu].
  { destruct (Nat.eqb_spec i (primary_key tb)), (nullable c), (unique c), (col_index c); cbn in *; try discriminate; auto; tauto. }
  destruct (references c) as [r|] eqn:Er; [|repeat split; auto; try (apply Hk; auto; fail); congruence].
  apply safe_guard. intros Hri. eapply safe_bind.
  { apply (reference_type_safe D t tb r Hr Hc); [|exact Hp].
    destruct Hs as [_ Hs]. exact (proj2 (proj2 (proj1 (Forall_lookup _ _) Hs _ _ Hi)) r Er). }
  intros ct (target & pc & Ht & Hpc & <-). apply safe_reject. intros Hty%bool_decide_eq_false.
  split; [exact Hk|]. split; [exact Hu|]. rewrite Er. intros r' [= <-]. split.
  - destruct (Nat.eqb_spec i (primary_key tb)), (col_index c); cbn in Hri; auto; discriminate.
  - exists target, pc. split; [exact Ht|]. split; [exact Hpc|]. symmetry. now apply dec_stable.
Qed.

Lemma validate_safe D t tb :
  db_rep D t -> db_core D -> stored_table tb ->
  safe (validate local_get_table tb t) (fun _ => is_Some (columns tb !! primary_key tb) /\
    forall i c, columns tb !! i = Some c -> column_valid D tb i c).
Proof.
  intros Hr Hc Hs. unfold validate. do 3 (apply safe_guard; intros ?).
  assert (is_Some (columns tb !! primary_key tb)) as Hp.
  { apply not_eq_None_Some. now eapply bool_decide_eq_false. }
  eapply safe_mono; [apply (safe_try_enumerate _ (column_valid D tb)); intros; cbn [Nat.add]; now apply validate_column_safe|].
  intros [] Hv. split; [exact Hp|]. exact Hv.
Qed.

(** Schemas stay consistent when tables are added. *)
Lemma schema_ok_mono D D' tb :
  (forall n x, d_table D n = Some x -> d_table D' n = Some x) -> schema_ok D tb -> schema_ok D' tb.
Proof.
  intros Hm [S1 S2 S3 S4]. split; auto. intros i c r Hc Hr. destruct (S4 i c r Hc Hr) as [Hi (target & pc & Ht & Hpc)].
  split; [exact Hi|]. exists target, pc. auto.
Qed.

Lemma create_ok D tb :
  db_ok D -> d_table D (table_name tb) = None -> stored_table tb -> NoDup (map col_name (columns tb)) ->
  is_Some (columns tb !! primary_key tb) -> (forall i c, columns tb !! i = Some c -> column_valid D tb i c) ->
  db_ok (db_set_table (table_name tb) (Some tb) D).
Proof.
  intros [[W S R X U] Hrefs] Hn Hst Hnd [pc Hpc] Hv.
  assert (forall n x, d_table D n = Some x -> d_table (db_set_table (table_name tb) (Some tb) D) n = Some x) as Hm.
  { intros n x Hx. cbn. rewrite decide_False; [exact Hx|]. intros ->. congruence. }
  assert (forall n id row, d_row D n id = Some row -> n <> table_name tb) as Hrow.
  { intros n id row Hr ->. destruct (R _ _ _ Hr) as (x & Hx & _). congruence. }
  assert (forall n x id row, d_row D n id = Some row ->
    d_table (db_set_table (table_name tb) (Some tb) D) n = Some x -> d_table D n = Some x) as Hb.
  { intros n x id row Hr. cbn. rewrite decide_False by now apply (Hrow n id row). auto. }
  split; [split|].
  - destruct W as [W1 W2 W3]. split; [|exact W2 | exact W3]. intros n x. cbn. case_decide; [|apply W1].
    intros [= <-]. now split.
  - intros n x. cbn. case_decide as En; [|intros Hx; now apply (schema_ok_mono D), (S n)].
    intros [= <-]. split; [exact Hnd| | |].
    + exists pc. split; [exact Hpc|]. now apply (Hv _ _ Hpc).
    + intros i c Hc. apply (Hv i c Hc).
    + intros i c r Hc Hr. destruct (Hv i c Hc) as (_ & _ & Hrv). destruct (Hrv r Hr) as [Hi (target & tc & Ht & Htc)].
      split; [exact Hi|]. exists target, tc. split; [|exact Htc]. cbn. case_decide; [congruence | exact Ht].
  - intros n id row Hr. destruct (R n id row Hr) as (x & Hx & Hty). exists x. auto.
  - intros n c v id. cbn [db_set_table d_index]. rewrite X. split; intros (x & row & Hx & Hr & Hh); exists x, row; eauto.
  - intros n x i c v id1 row1 id2 row2 Hx Hc Hu Hr1. exact (U n x i c v id1 row1 id2 row2 (Hb _ _ _ _ Hr1 Hx) Hc Hu Hr1).
  - intros n x i c r id row v Hx Hc Hrf Hr. exact (Hrefs n x i c r id row v (Hb _ _ _ _ Hr Hx) Hc Hrf Hr).
Qed.

Lemma create_table_triple D tb :
  db_ok D -> stored_table tb -> NoDup (map col_name (columns tb)) ->
  triple (db_rep D) (local_create_table tb) (fun _ t =>
    d_table D (table_name tb) = None /\ let D' := db_set_table (table_name tb) (Some tb) D in db_ok D' /\ db_rep D' t).
Proof.
  intros Ho Hs Hnd. pose proof Ho as [Hc _]. unfold local_create_table. eapply triple_bind.
  { apply (triple_read _ _ (fun o t => o = d_table D (table_name tb) /\ db_rep D t)). intros t Hr.
    rewrite (get_table_spec D) by (auto; first [apply (core_wf D Hc) | apply Hs]). auto. }
  intros o. apply triple_pure. intros ->. destruct (d_table D (table_name tb)) as [x|] eqn:En; [now apply triple_err|].
  eapply triple_bind.
  { apply (triple_read _ _ (fun _ t => (is_Some (columns tb !! primary_key tb) /\
      forall i c, columns tb !! i = Some c -> column_valid D tb i c) /\ db_rep D t)). intros t Hr.
    pose proof (validate_safe D t tb Hr Hc Hs) as Hv. destruct (validate local_get_table tb t); cbn in Hv; auto. }
  intros []. apply triple_pure. intros [Hp Hv].
  eapply triple_post; [apply set_table_triple, Hs|]. intros [] t Hr. split; [reflexivity|]. split; [|exact Hr].
  now apply create_ok.
Qed.

(** ** DROP TABLE *)
#[export] Instance in_prefix_dec p k : Decision (in_prefix p k).
Proof. destruct p, k; cbn; apply _. Defined.

(** The database without the keys that satisfy [P]. *)
Definition db_without (P : SqlKey -> Prop) `{!forall k, Decision (P k)} (D : sql_db) : sql_db :=
  mkSqlDb (fun n => if decide (P (KeyTable n)) then None else d_table D n)
    (fun n id => if decide (P (KeyRow n id)) then None else d_row D n id)
    (fun n c v => if decide (P (KeyIndex n c v)) then [] else d_index D n c v).

Lemma db_without_lookup P `{!forall k, Decision (P k)} D k :
  db_lookup (db_without P D) k = if decide (P k) then None else db_lookup D k.
Proof. destruct k; cbn; now case_decide. Qed.

Lemma db_rep_lookup D D' t :
  (forall k, key_ok k -> db_lookup D k = db_lookup D' k) -> db_rep D t -> db_rep D' t.
Proof. intros He (M & Hk & HM & HK). exists M. split; [exact Hk|]. split; [|exact HK]. intros k Ho. now rewrite HM, He. Qed.

Definition skey (kv : SqlKey * bytes) : bytes * bytes := (senc kv.1, kv.2).

(** The loop ends, as every turn consumes one of the iterator's items. *)
Lemma delete_keys_spec l : forall fuel it D t,
  (length l < fuel)%nat -> kv_iter_rep it t (map skey l) -> Forall (fun kv => key_ok kv.1) l -> NoDup l.*1 -> db_rep D t ->
  match delete_keys fuel it t with
  | (Ok _, t') => db_rep (db_without (fun k => k ∈ l.*1) D) t'
  | (Err e, _) => is_deterministic e = true
  | (Panic _, _) => False
  end.
Proof.
  induction l as [|[k v] l IH]; intros [|fuel] it D t Hf Hit Hk Hnd Hr; try (cbn in Hf; lia); cbn [delete_keys].
  - destruct Hr as (M & Hm & HM). pose proof (kv_next_spec t M it [] Hm Hit) as Hn.
    destruct (kv_next t it) as [o it']. cbn [fst] in Hn. subst o. apply (db_rep_lookup D); [|now exists M].
    intros k _. rewrite db_without_lookup, decide_False; [reflexivity|]. apply not_elem_of_nil.
  - apply Forall_cons in Hk as [Hk Hks]. cbn in Hnd. apply NoDup_cons in Hnd as [Hni Hnd].
    destruct Hr as (M & Hm & HM). pose proof (kv_next_spec t M it _ Hm Hit) as Hn. cbn [map] in Hn.
    destruct Hn as (it' & -> & Hit'). unfold st_bind, st_lift. cbn [skey fst snd].
    destruct (kv_delete_spec t M (senc k) Hm) as [(t' & -> & Hm' & Hst)|(e & t' & -> & He)]; [|exact He].
    assert (db_rep (db_without (fun x => x = k) D) t') as Hr'.
    { exists (delete (senc k) M). split; [exact Hm'|]. apply (sql_rep_delete M D); [exact HM | exact Hk|].
      intros x _. exact (db_without_lookup (fun x => x = k) D x). }
    specialize (IH fuel it' _ t' ltac:(cbn in Hf; lia)
      ltac:(apply Hst; [exact Hit'|]; rewrite <- list_fmap_compose; intros (kv & E & Hin)%list_elem_of_fmap;
            apply Hni, list_elem_of_fmap; exists kv; split; [|exact Hin]; rewrite Forall_forall in Hks;
            apply senc_inj; [exact Hk | now apply Hks | exact E]) Hks Hnd Hr').
    destruct (delete_keys fuel it' t') as [[[]|e|p] t'']; auto. eapply db_rep_lookup; [|exact IH].
    intros x _. rewrite !db_without_lookup. cbn [fmap list_fmap fst]. repeat case_decide; rewrite ?elem_of_cons in *; naive_solver.
Qed.

Lemma delete_prefix_triple D p :
  prefix_ok p -> triple (db_rep D) (delete_prefix p) (fun _ => db_rep (db_without (in_prefix p) D)).
Proof.
  intros Hp t Hr. unfold delete_prefix, st_bind, st_lift. rewrite encode_sql_prefix by exact Hp.
  destruct (scan_items_spec D t p Hr Hp) as (it & l & -> & Hit & -> & Hs & Hin). rewrite length_map.
  assert (Forall (fun kv => key_ok kv.1) l) as Hk.
  { apply List.Forall_forall. intros [k v] Hkv. now apply Hin in Hkv. }
  assert (NoDup l.*1) as Hnd.
  { clear -Hs. induction Hs as [|a l Hs IH Hf]; cbn; constructor; [|exact IH].
    intros (b & E & Hb)%list_elem_of_fmap. rewrite Forall_forall in Hf. specialize (Hf b Hb).
    rewrite E, lex_lt_irrefl in Hf. discriminate. }
  pose proof (delete_keys_spec l (S (length l)) it D t ltac:(lia) Hit Hk Hnd Hr) as Hd.
  destruct (delete_keys (S (length l)) it t) as [[[]|e|q] t']; auto. eapply db_rep_lookup; [|exact Hd].
  intros k Hok. rewrite !db_without_lookup.
  destruct (decide (in_prefix p k)) as [Hpk|Hpk], (decide (k ∈ l.*1)) as [Hkl|Hkl]; try reflexivity.
  - destruct (db_lookup D k) as [v|] eqn:E; [|reflexivity]. exfalso. apply Hkl, list_elem_of_fmap.
    exists (k, v). split; [reflexivity|]. apply list_elem_of_In, Hin. auto.
  - exfalso. apply Hpk. apply list_elem_of_fmap in Hkl as ([k' v] & -> & Hkv). apply list_elem_of_In, Hin in Hkv. apply Hkv.
Qed.

(** The database without table [n]. *)
Definition db_drop (n : bytes) (D : sql_db) : sql_db :=
  mkSqlDb (fun n' => if decide (n' = n) then None else d_table D n')
    (fun n' id => if decide (n' = n) then None else d_row D n' id)
    (fun n' c v => if decide (n' = n) then [] else d_index D n' c v).

Lemma db_drop_ok D tb :
  db_ok D -> d_table D (table_name tb) = Some tb ->
  (forall n x i c, d_table D n = Some x -> columns x !! i = Some c -> references c = Some (table_name tb) -> n = table_name tb) ->
  db_ok (db_drop (table_name tb) D).
Proof.
  intros [[W S R X U] Hrefs] Ht Hun. split; [split|].
  - destruct W as [W1 W2 W3]. split; intros *; cbn; case_decide; try discriminate; auto. split; constructor.
  - intros n x. cbn. case_decide as En; [discriminate|]. intros Hx. destruct (S n x Hx) as [S1 S2 S3 S4]. split; auto.
    intros i c r Hc Hr. destruct (S4 i c r Hc Hr) as [Hi (target & pc & Hg & Hpc)]. split; [exact Hi|].
    exists target, pc. split; [|exact Hpc]. cbn. rewrite decide_False; [exact Hg|]. intros ->. eauto.
  - intros n id row. cbn. case_decide; [discriminate | apply R].
  - intros n c v id. cbn. case_decide; [|apply X]. split; [intros [] | intros (x & row & Hx & _); discriminate].
  - intros n x i c v id1 row1 id2 row2. cbn. case_decide; [discriminate | apply U].
  - intros n x i c r id row v. cbn. case_decide as En; [discriminate|]. intros Hx Hc Hr Hrow Hv Hnn.
    rewrite decide_False; [eapply Hrefs; eauto|]. intros ->. eauto.
Qed.

(** The index prefixes of the indexed columns, one after the other. *)
Definition without_indexes (n : bytes) (D : sql_db) (l : list (nat * Column_)) : sql_db :=
  foldl (fun D ic => db_without (in_prefix (PrefixIndex n (col_name ic.2))) D) D l.

Lemma without_indexes_lookup n l : forall D k,
  ((exists ic, In ic l /\ in_prefix (PrefixIndex n (col_name ic.2)) k) -> db_lookup (without_indexes n D l) k = None) /\
  ((forall ic, In ic l -> ~ in_prefix (PrefixIndex n (col_name ic.2)) k) ->
     db_lookup (without_indexes n D l) k = db_lookup D k).
Proof.
  induction l as [|ic l IH]; intros D k; [split; [intros (ic & [] & _) | reflexivity]|].
  change (without_indexes n D (ic :: l)) with
    (without_indexes n (db_without (in_prefix (PrefixIndex n (col_name ic.2))) D) l).
  destruct (IH (db_without (in_prefix (PrefixIndex n (col_name ic.2))) D) k) as [Hd Hs].
  destruct (decide (Exists (fun ic => in_prefix (PrefixIndex n (col_name ic.2)) k) l)) as [He|He].
  - rewrite List.Exists_exists in He. split; [auto|]. intros Hn. exfalso. destruct He as (x & Hx & Hp). apply (Hn x); [now right | exact Hp].
  - rewrite List.Exists_exists in He. rewrite Hs, db_without_lookup by (intros x Hx Hp; apply He; eauto). split.
    + intros (x & [<-|Hx] & Hp); [now rewrite decide_True|]. exfalso. apply He. eauto.
    + intros Hn. rewrite decide_False; [reflexivity|]. apply Hn. now left.
Qed.

Lemma drop_indexes_triple D tb :
  stored_table tb ->
  triple (db_rep D) (st_iter (fun ic => delete_prefix (PrefixIndex (table_name tb) (col_name ic.2))) (indexed_columns tb))
    (fun _ => db_rep (without_indexes (table_name tb) D (indexed_columns tb))).
Proof.
  intros Hs. apply (triple_iter _ (fun ic D => db_without (in_prefix (PrefixIndex (table_name tb) (col_name ic.2))) D)
    (fun _ => True)); [|exact I]. intros [i c] D' [Hc _]%indexed_columns_In _. split; [|exact I]. apply delete_prefix_triple.
  split; [apply Hs | apply (stored_column tb i c Hs Hc)].
Qed.

Lemma drop_lookup D tb k :
  db_core D -> d_table D (table_name tb) = Some tb ->
  db_lookup (without_indexes (table_name tb)
    (db_without (in_prefix (PrefixRow (table_name tb))) (db_set_table (table_name tb) None D)) (indexed_columns tb)) k =
  db_lookup (db_drop (table_name tb) D) k.
Proof.
  intros Hc Ht. destruct (without_indexes_lookup (table_name tb) (indexed_columns tb)
    (db_without (in_prefix (PrefixRow (table_name tb))) (db_set_table (table_name tb) None D)) k) as [Hd Hs].
  destruct k as [n|n c v|n id].
  - rewrite Hs, db_without_lookup by auto. cbn. now repeat case_decide.
  - destruct (decide (n = table_name tb)) as [->|Hne].
    + assert (db_lookup (db_drop (table_name tb) D) (KeyIndex (table_name tb) c v) = None) as ->
        by (cbn; now rewrite decide_True).
      destruct (decide (Exists (fun ic => col_name ic.2 = c) (indexed_columns tb))) as [He|He]; rewrite List.Exists_exists in He.
      * apply Hd. destruct He as (ic & Hic & <-). exists ic. cbn. auto.
      * rewrite Hs by (intros ic Hic [_ E]; apply He; eauto). rewrite db_without_lookup. cbn.
        destruct (d_index D (table_name tb) c v) as [|x ids] eqn:E; [reflexivity|]. exfalso.
        assert (In x (d_index D (table_name tb) c v)) as Hx by (rewrite E; now left).
        apply (core_index D Hc) in Hx as (tb' & row & E' & _ & ic & Hic & Hcn & _). rewrite Ht in E'. injection E' as <-.
        apply He. eauto.
    + rewrite Hs, db_without_lookup by (intros ic _ [E _]; auto). cbn. now destruct (decide (n = table_name tb)).
  - rewrite Hs, db_without_lookup by auto. cbn. repeat case_decide; naive_solver.
Qed.

Lemma drop_table_triple D n if_exists :
  db_ok D -> utf8_valid n = true ->
  triple (db_rep D) (local_drop_table n if_exists) (fun dropped t =>
    if dropped then is_Some (d_table D n) /\ db_ok (db_drop n D) /\ db_rep (db_drop n D) t
    else d_table D n = None /\ if_exists = true /\ db_rep D t).
Proof.
  intros Ho Hn. pose proof Ho as [Hc _]. unfold local_drop_table. eapply triple_bind.
  { apply (triple_read _ _ (fun o t => o = d_table D n /\ db_rep D t)). intros t Hr.
    rewrite (get_table_spec D) by (auto; apply (core_wf D Hc)). auto. }
  intros o. apply triple_pure. intros ->. destruct (d_table D n) as [tb|] eqn:Ht.
  2: { destruct if_exists; [apply triple_ret; auto | now apply triple_err]. }
  destruct (wf_table D (core_wf D Hc) _ _ Ht) as [<- Hst]. eapply triple_bind.
  { apply (triple_read _ _ (fun refs t => (forall n' x i c, d_table D n' = Some x -> columns x !! i = Some c ->
      references c = Some (table_name tb) -> exists ix, In (x, ix) refs) /\ db_rep D t)). intros t Hr.
    destruct (table_references_spec D t Hr Hc (table_name tb)) as (refs & -> & _ & Hall). split; [|exact Hr].
    intros n' x i c Hx Hcc Hrr. destruct (Hall n' x i c Hx Hcc Hrr) as (ix & Hin & _). eauto. }
  intros refs. apply triple_pure. intros Hall. destruct (List.find _ refs) as [tr|] eqn:Ef; [now apply triple_err|].
  assert (db_ok (db_drop (table_name tb) D)) as Hok.
  { apply db_drop_ok; auto. intros n' x i c Hx Hcc Hrr. destruct (Hall n' x i c Hx Hcc Hrr) as [ix Hin].
    apply (find_none _ _ Ef) in Hin. apply negb_false_iff, bool_decide_eq_true in Hin. cbn in Hin. rewrite <- Hin.
    symmetry. apply (wf_table D (core_wf D Hc) _ _ Hx). }
  eapply triple_bind; [apply delete_table_key_triple, Hst|]. intros [].
  eapply triple_bind; [apply (delete_prefix_triple _ (PrefixRow (table_name tb))), Hst|]. intros [].
  eapply triple_bind; [apply drop_indexes_triple, Hst|]. intros []. apply triple_ret. intros t Hr.
  split; [eauto|]. split; [exact Hok|]. eapply db_rep_lookup; [|exact Hr]. intros k _. now apply drop_lookup.
Qed.
End Tables.
