(* ===== verification/SqlStatements.v ===== *)
(** * Sequences of writes of the local SQL engine

    The five write operations as one type, what each does to the logical
    database ([op_effect]), and the triples for sequences of them. *)
From S2P Require Import Prelude Bytes Keycode KeycodeTheory Btree Bincode Float64 SqlValue SqlValueTheory SqlExpr SqlPlan SqlExec SqlSchema SqlLocal SqlLocalRep SqlLocalTheory SqlLocalOps SqlLocalTables.

Inductive sql_op : Type :=
  | OpCreate (tb : Table)
  | OpDrop (table : bytes) (if_exists : bool)
  | OpInsert (table : bytes) (rows : list Row)
  | OpUpdate (table : bytes) (rows : list (Value * Row))
  | OpDelete (table : bytes) (ids : list Value).

(** The empty database. *)
Definition sql_empty : sql_db := mkSqlDb (fun _ => None) (fun _ _ => None) (fun _ _ _ => []).

Lemma sql_empty_ok : db_ok sql_empty.
Proof.
  split; [|intros n tb i c r id row v; discriminate]. split; try discriminate.
  - split; try discriminate. intros n c v. split; constructor.
  - intros n c v id. split; [intros [] | intros (tb & row & F & _); discriminate].
Qed.

(** What the theorems ask of the arguments, beyond their Rust types: schemas have
    distinct column names (which the engine does not check), the values to be
    stored are in the form the store returns ([stored]: floats are normalized, so
    no -0.0 and no negative NaN), updates are of existing rows, one each, with a
    value per column, and deleted keys have the type of the primary key.  The
    executor updates and deletes rows that it has read, so that the plans of
    statements satisfy the last two ([plan_runs_soundly] in [SqlPlanSafety]). *)
Definition op_ok (D : sql_db) (op : sql_op) : Prop :=
  match op with
  | OpCreate tb => stored_table tb /\ NoDup (map col_name (columns tb))
  | OpDrop n _ => utf8_valid n = true
  | OpInsert n rows => utf8_valid n = true /\ Forall stored_row rows
  | OpUpdate n rows => utf8_valid n = true /\ forall tb, d_table D n = Some tb -> updates_ok D tb rows
  | OpDelete n ids => utf8_valid n = true /\ ids_typed D n ids
  end.

(** The effect on schemas and rows; [db_ok] ties the indexes to them. *)
Definition op_effect (D : sql_db) (op : sql_op) (D' : sql_db) : Prop :=
  match op with
  | OpCreate tb =>
      d_table D (table_name tb) = None /\
      (forall n, d_table D' n = if decide (n = table_name tb) then Some tb else d_table D n) /\
      forall n id, d_row D' n id = d_row D n id
  | OpDrop n if_exists =>
      (d_table D n = None -> if_exists = true) /\
      (forall n', d_table D' n' = if decide (n' = n) then None else d_table D n') /\
      forall n' id, d_row D' n' id = if decide (n' = n) then None else d_row D n' id
  | OpInsert n rows => exists tb, d_table D n = Some tb /\ rows_inserted tb rows D D' /\
      Forall (fun row => exists id, row !! primary_key tb = Some id /\ d_row D n id = None) rows
  | OpUpdate n rows => exists tb, d_table D n = Some tb /\ rows_updated tb rows D D'
  | OpDelete n ids => is_Some (d_table D n) /\ rows_deleted n ids D D'
  end.

Fixpoint ops_ok (D : sql_db) (ops : list sql_op) : Prop :=
  match ops with
  | [] => True
  | op :: ops => op_ok D op /\ forall D', op_effect D op D' -> ops_ok D' ops
  end.

Inductive ops_effect : sql_db -> list sql_op -> sql_db -> Prop :=
  | effect_nil D : ops_effect D [] D
  | effect_cons D op D1 ops D2 : op_effect D op D1 -> ops_effect D1 ops D2 -> ops_effect D (op :: ops) D2.

Section Statements.
Context {T : Type} `{F64Pow, Regex, KvSpec T}.
Context {BT : Bincode stored_table} {BR : Bincode stored_row} {BI : Bincode stored_ids}.

Definition run_sql_op (op : sql_op) : stM T unit :=
  match op with
  | OpCreate tb => local_create_table tb
  | OpDrop n if_exists => local_drop_table n if_exists ;;; st_ret tt
  | OpInsert n rows => local_insert n rows
  | OpUpdate n rows => local_update n rows
  | OpDelete n ids => local_delete n ids
  end.

Definition run_sql_ops : list sql_op -> stM T unit := st_iter run_sql_op.

Lemma drop_none_effect D n b :
  db_core D -> d_table D n = None -> b = true -> op_effect D (OpDrop n b) D.
Proof.
  intros Hc Hn Hb. split; [auto|]. split; intros *; case_decide; subst; auto.
  destruct (d_row D n id) as [row|] eqn:E; [|reflexivity]. destruct (core_row D Hc _ _ _ E) as (tb & F & _). congruence.
Qed.

Lemma sql_op_triple D op :
  db_ok D -> op_ok D op ->
  triple (db_rep D) (run_sql_op op) (fun _ t => exists D', op_effect D op D' /\ db_ok D' /\ db_rep D' t).
Proof.
  intros Ho Hop. destruct op as [tb|n b|n rows|n rows|n ids]; cbn [run_sql_op op_ok op_effect] in *.
  - eapply triple_post; [now apply create_table_triple|]. intros [] t (Hn & Ho' & Hr).
    exists (db_set_table (table_name tb) (Some tb) D). split; [|auto]. split; [exact Hn|]. split; reflexivity.
  - eapply triple_bind; [now apply drop_table_triple|]. intros dropped. apply triple_ret. intros t. destruct dropped.
    + intros (Hs & Ho' & Hr). exists (db_drop n D). split; [|auto]. split; [|auto]. intros E. rewrite E in Hs. now destruct Hs.
    + intros (Hn & -> & Hr). exists D. split; [|auto]. apply (drop_none_effect D n true); auto. apply Ho.
  - eapply triple_post; [now apply local_insert_triple|]. intros [] t (D' & tb & Ht & Hi & Hf & Ho' & Hr). eauto 7.
  - eapply triple_post; [now apply local_update_triple|]. intros [] t (D' & tb & Ht & Hu & Ho' & Hr). eauto 7.
  - eapply triple_post; [now apply local_delete_triple|]. intros [] t (D' & Hs & Hd & Ho' & Hr). eauto 7.
Qed.

Lemma sql_ops_triple ops : forall D,
  db_ok D -> ops_ok D ops ->
  triple (db_rep D) (run_sql_ops ops) (fun _ t => exists D', ops_effect D ops D' /\ db_ok D' /\ db_rep D' t).
Proof.
  induction ops as [|op ops IH]; intros D Ho Hops; cbn [run_sql_ops st_iter ops_ok] in *.
  { apply triple_ret. intros t Hr. exists D. split; [constructor | auto]. }
  destruct Hops as [Hop Hops]. eapply triple_bind; [now apply sql_op_triple|]. intros [] t (D1 & He & Ho1 & Hr).
  specialize (IH D1 Ho1 (Hops D1 He) t Hr).
  destruct (run_sql_ops ops t) as [[[]|e|p] t']; auto. destruct IH as (D' & He' & Hrest).
  exists D'. split; [econstructor; eauto | exact Hrest].
Qed.

(** ** Writes go through the key/value transaction only *)
Section Respects.
Context (Rel : T -> T -> Prop) `{!PreOrder Rel}.
Context (Hset : forall k v, respects Rel (kv_set k v)) (Hdelete : forall k, respects Rel (kv_delete k)).

Lemma kv_set_key_respects k v : respects Rel (kv_set_key k v).
Proof. unfold kv_set_key. solve_respects. Qed.
Lemma kv_delete_key_respects k : respects Rel (kv_delete_key k).
Proof. unfold kv_delete_key. solve_respects. Qed.
#[local] Hint Resolve kv_set_key_respects kv_delete_key_respects : respects.

Lemma update_index_respects tb change row ic : respects Rel (update_index tb change row ic).
Proof. unfold update_index, set_index. solve_respects. Qed.
#[local] Hint Resolve update_index_respects : respects.

Lemma local_delete_respects n ids : respects Rel (local_delete n ids).
Proof. unfold local_delete, delete_row. solve_respects. Qed.
Lemma local_insert_respects n rows : respects Rel (local_insert n rows).
Proof. unfold local_insert, insert_one. solve_respects. Qed.
#[local] Hint Resolve local_delete_respects local_insert_respects : respects.

Lemma delete_keys_respects fuel : forall it, respects Rel (delete_keys fuel it).
Proof.
  induction fuel as [|fuel IH]; intros it; cbn [delete_keys]; [auto with respects|].
  intros t. destruct (kv_next t it) as [[item|] it']; [|reflexivity].
  apply (respects_bind Rel (st_lift item) (fun kv => kv_delete kv.1 ;;; delete_keys fuel it')); [solve_respects|].
  intros kv. apply respects_bind; [assumption | apply Hdelete | intros _; apply IH].
Qed.

Lemma delete_prefix_respects p : respects Rel (delete_prefix p).
Proof.
  unfold delete_prefix. respects_at t. solve_respects; apply delete_keys_respects.
Qed.
#[local] Hint Resolve delete_prefix_respects : respects.

Lemma run_sql_ops_respects ops : respects Rel (run_sql_ops ops).
Proof.
  apply respects_iter; [assumption|]. intros [tb|n b|n rows|n rows|n ids]; cbn [run_sql_op]; auto with respects.
  - unfold local_create_table. solve_respects.
  - unfold local_drop_table. solve_respects.
  - unfold local_update, update_one, move_index. solve_respects.
Qed.
End Respects.
End Statements.
