(* ===== verification/SqlMvcc.v ===== *)
(** * The key/value transaction of the SQL engine is an MVCC transaction

    The class [KvTransaction] is implemented by the operations of one MVCC
    transaction ([mvcc::Transaction] behind [local::Transaction]), and what the
    SQL engine relies on, [KvSpec], follows from the theory of MVCC, for every
    storage engine. *)
From S2P Require Import Prelude Bytes Keycode KeycodeTheory Btree Bincode Engine SqlLocal SqlLocalRep Mvcc MvccKeys MvccAbs MvccScan MvccSpec.

Section MvccKv.
Context {E : Type} `{EngineReads E} {EW : EngineWrites E}.
Context {BV : Bincode is_u64} {BS : Bincode all_u64} {BO : Bincode (@any (option bytes))}.
Context (test : bool) (txn : TransactionState).

(** The items of an iterator that is drained at once.  The engine holds at most
    one row per raw item, so [drain_fuel] calls reach the end. *)
Fixpoint drain_items (fuel : nat) (e : E) (s : ScanIterator) : list (outcome (bytes * bytes)) :=
  match fuel with
  | O => [Panic "fuel exhausted"]
  | S fuel =>
      match scan_next test e s with
      | (None, _) => []
      | (Some item, s) => item :: drain_items fuel e s
      end
  end.

Definition drain_fuel (e : E) (s : ScanIterator) : nat :=
  S match remainder s with
    | Some r => match engine_scan r e with Ok items => length items | _ => 0 end
    | None => 0
    end.

Definition prefix_items (p : bytes) (e : E) : list (outcome (bytes * bytes)) :=
  match scan_prefix txn p with
  | Ok s => drain_items (drain_fuel e s) e s
  | Err err => [Err err]
  | Panic msg => [Panic msg]
  end.

#[export] Instance mvcc_kv : KvTransaction E := {
  kv_get k e := (Mvcc.get txn k e).1;
  kv_set := txn_set txn;
  kv_delete := txn_delete txn;
  kv_iter := ScanIterator;
  kv_scan_prefix := scan_prefix txn;
  kv_next := scan_next test;
  kv_scan_items := prefix_items;
}.

(** ** What the transaction reads *)
Record view_ok (A : mvcc_db) (M : gmap bytes bytes) : Prop := {
  view_inv : db_inv A;
  view_version : is_u64 (version txn);
  view_rw : read_only txn = false -> rw_ok A txn;
  view_reads k : reads A txn k (M !! k);
}.

Definition mvcc_view (e : E) (M : gmap bytes bytes) : Prop := exists A, db_rep e A /\ view_ok A M.

Definition mvcc_pending (s : ScanIterator) (e : E) (l : list (bytes * bytes)) : Prop :=
  scan_txn s = txn /\ exists A rest, db_rep e A /\ db_inv A /\ pending A s rest /\ l = buffer s ++ live rest.

(** The versions of an engine are determined by its content. *)
Lemma db_rep_vers e A A' : db_rep e A -> db_inv A -> db_rep e A' -> db_inv A' -> same_view txn A A'.
Proof.
  assert (forall A A', db_rep e A -> db_inv A -> db_rep e A' -> forall k v o,
    db_vers A !! (k, v) = Some o -> db_vers A' !! (k, v) = Some o) as Hs.
  { clear A A'. intros A A' [_ Hr] Hi [_ Hr'] k v o Ho. assert (key_valid (Version k v)) as Hv.
    { pose proof (inv_vers A Hi k v (ex_intro _ o Ho)). pose proof (inv_next A Hi). cbn. unfold is_u64. lia. }
    pose proof (rep_unique_lookup _ A _ Hr Hv) as E1. rewrite (rep_unique_lookup _ A' _ Hr' Hv) in E1. cbn [db_lookup] in E1.
    rewrite Ho in E1. destruct (db_vers A' !! (k, v)) as [o'|]; [|discriminate]. injection E1 as E1.
    apply (f_equal bincode_deserialize) in E1. rewrite !bincode_roundtrip in E1 by exact I. congruence. }
  intros Hr Hi Hr' Hi' k v _. destruct (db_vers A !! (k, v)) as [o|] eqn:Eo.
  - symmetry. eauto.
  - destruct (db_vers A' !! (k, v)) as [o'|] eqn:Eo'; [|reflexivity]. rewrite (Hs A' A Hr' Hi' Hr k v o' Eo') in Eo. discriminate.
Qed.

Lemma pending_same_view A A' s rest : same_view (scan_txn s) A A' -> pending A s rest -> pending A' s rest.
Proof.
  unfold pending. destruct (remainder s) as [r|]; [|auto]. intros Hv [Ho Hs]. split; [exact Ho|]. now apply (same_view_vscan _ A).
Qed.

(** ** Writes *)
Lemma reads_write A k o k' r :
  db_inv A -> rw_ok A txn -> reads A txn k' r ->
  reads (db_write (version txn) k o A) txn k' (if decide (k' = k) then o else r).
Proof.
  intros Hi Hok Hr. case_decide as Ek.
  - subst k'. left. exists (version txn). cbn. rewrite lookup_insert_eq. split; [reflexivity|].
    split; [now apply (own_visible A)|]. intros v' _. apply is_visible_le.
  - revert Hr. apply reads_ext. intros v o'. cbn. now rewrite lookup_insert_ne by congruence.
Qed.

Lemma view_write A M k o :
  view_ok A M -> read_only txn = false -> (forall v, has_version A k v -> is_visible txn v = true) ->
  view_ok (db_write (version txn) k o A) (match o with Some v => <[k := v]> M | None => delete k M end).
Proof.
  intros [Hi Hu Hrw Hr] Hro Hvis. specialize (Hrw Hro). split.
  - now apply db_inv_write.
  - exact Hu.
  - intros _. exact Hrw.
  - intros k'. pose proof (reads_write A k o k' _ Hi Hrw (Hr k')) as Hw.
    replace (match o with Some v => <[k := v]> M | None => delete k M end !! k') with (if decide (k' = k) then o else M !! k'); [exact Hw|].
    destruct o as [v|]; case_decide as Ek; subst; rewrite ?lookup_insert_eq, ?lookup_delete_eq, ?lookup_insert_ne, ?lookup_delete_ne by congruence; auto.
Qed.

(** The engine after a write, or the error. *)
Lemma mvcc_write_spec e M k o :
  mvcc_view e M ->
  (exists e' A, write_version txn k o e = (Ok tt, e') /\ db_rep e A /\ db_inv A /\ rw_ok A txn /\
     db_rep e' (db_write (version txn) k o A) /\
     view_ok (db_write (version txn) k o A) (match o with Some v => <[k := v]> M | None => delete k M end)) \/
  (exists err e', write_version txn k o e = (Err err, e') /\ is_deterministic err = true).
Proof.
  intros (A & Hr & Hv). destruct (read_only txn) eqn:Hro.
  { right. unfold write_version. rewrite Hro. cbn. eauto. }
  pose proof (view_rw A M Hv Hro) as Hok.
  destruct (write_version_spec e A txn k o Hr (view_inv A M Hv) Hok) as [[-> _]|[(e' & -> & Hr') Hvis]]; [right; eauto|].
  left. exists e', A. split; [reflexivity|]. split; [exact Hr|]. split; [apply Hv|]. split; [exact Hok|]. split; [exact Hr'|].
  now apply view_write.
Qed.

(** ** Iterators *)
Lemma mvcc_next_spec e s l :
  mvcc_pending s e l ->
  match l with
  | [] => (scan_next test e s).1 = None
  | kv :: l' => exists s', scan_next test e s = (Some (Ok kv), s') /\ mvcc_pending s' e l'
  end.
Proof.
  intros (Ht & A & rest & Hr & Hi & Hp & ->). unfold scan_next. destruct (buffer s) as [|kv buf] eqn:Hb.
  - destruct (fill_buffer_spec test e A A s rest Hi Hr Hi (same_view_refl _ A) Hb Hp) as (out & rest' & -> & El & Hout & Hp').
    cbn [app buffer] in *. rewrite El. destruct out as [|kv out]; cbn [app].
    + rewrite Hout by reflexivity. reflexivity.
    + eexists. split; [reflexivity|]. split; [exact Ht|]. exists A, rest'. auto.
  - cbn [app]. eexists. split; [reflexivity|]. split; [exact Ht|]. exists A, rest. auto.
Qed.

Lemma drain_items_spec e l : forall fuel s,
  (length l < fuel)%nat -> mvcc_pending s e l -> drain_items fuel e s = map Ok l.
Proof.
  induction l as [|kv l IH]; intros [|fuel] s Hf Hp; cbn in Hf; try lia; cbn [drain_items];
    pose proof (mvcc_next_spec e s _ Hp) as Hn.
  - destruct (scan_next test e s) as [o s']. cbn in Hn. now subst o.
  - destruct Hn as (s' & -> & Hp'). cbn [map]. rewrite IH; [reflexivity | lia | exact Hp'].
Qed.

Lemma mvcc_scan_spec e M p :
  mvcc_view e M ->
  exists s l, scan_prefix txn p = Ok s /\ mvcc_pending s e l /\ prefix_items p e = map Ok l /\
    scan_of (prefix_range p) M l.
Proof.
  intros (A & Hr & Hv). pose proof (view_inv A M Hv) as Hi. set (raw := prefix_range (x04 :: esc_all p)).
  pose proof (scan_prefix_raw_range p) as Hraw. fold raw in Hraw.
  destruct (version_iterator_spec e A txn raw Hr Hi (proj1 Hraw)) as (items & vl & Ei & Ev & Hvs).
  assert (mvcc_pending (mkScan txn [] (Some raw)) e (live vl)) as Hp.
  { split; [reflexivity|]. exists A, vl. split; [exact Hr|]. split; [exact Hi|]. split; [|reflexivity].
    split; [apply Hraw | exact Hvs]. }
  exists (mkScan txn [] (Some raw)), (live vl). rewrite scan_prefix_eq. split; [reflexivity|]. split; [exact Hp|]. split.
  - unfold prefix_items. rewrite scan_prefix_eq. apply drain_items_spec; [|exact Hp]. unfold drain_fuel. cbn [remainder].
    fold raw. rewrite Ei. pose proof (version_iterator_length txn items) as L. rewrite Ev, length_map in L.
    pose proof (live_length vl). lia.
  - apply (live_scan_of A txn _ raw); [exact Hi | exact Hraw | exact Hvs | apply Hv].
Qed.

(** A deletion of a key that an iterator does not still have to yield. *)
Lemma live_delete A k r rest vl :
  db_inv A -> rw_ok A txn ->
  vscan A txn r rest -> vscan (db_write (version txn) k None A) txn r vl -> k ∉ (live rest).*1 -> live vl = live rest.
Proof.
  intros Hi Hok [Hs Hin] [Hs' Hin'] Hk. pose proof (own_visible A txn Hi Hok) as Hown.
  assert (forall k' v o, k' <> k -> In (k', v, o) vl <-> In (k', v, o) rest) as Hne.
  { intros k' v o Hne. rewrite Hin, Hin'. cbn. now rewrite lookup_insert_ne by congruence. }
  apply (StronglySorted_ext key_lt); [| |now apply live_sorted..|].
  { intros a F. unfold key_lt in F. now rewrite lex_lt_irrefl in F. }
  { intros a b c. unfold key_lt. apply lex_lt_trans. }
  intros [k' x]. rewrite !live_In by assumption. destruct (decide (k' = k)) as [->|Hkk].
  - assert (~ is_last rest k (Some x)) as Hno.
    { intros Hl. apply Hk. apply list_elem_of_fmap. exists (k, x). split; [reflexivity|]. apply list_elem_of_In. now apply live_In. }
    split; [|tauto]. intros (v & Hv & Hmax). exfalso. apply Hin' in Hv as (F1 & F2 & F3). cbn in F1.
    destruct (decide (v = version txn)) as [->|Hvv]; [now rewrite lookup_insert_eq in F1|].
    rewrite lookup_insert_ne in F1 by congruence.
    destruct (in_range r (kenc (Version k (version txn)))) eqn:Er.
    + assert (In (k, version txn, None) vl) as Hm by (apply Hin'; cbn; rewrite lookup_insert_eq; auto).
      apply Hmax in Hm. pose proof (is_visible_le _ _ F2). lia.
    + apply Hno. exists v. split; [now apply Hin|]. intros v' o' Hv'. pose proof Hv' as (G1 & G2 & G3)%Hin.
      apply (Hmax v' o'), Hin'. cbn. rewrite lookup_insert_ne by (intros [= <-]; congruence). auto.
  - unfold is_last. split; intros (v & Hv & Hmax); exists v; (split; [now apply Hne|]); intros v' o' Hv'; apply (Hmax v' o'); now apply Hne.
Qed.

Lemma mvcc_delete_stable e e' A k s l :
  db_rep e A -> db_inv A -> rw_ok A txn -> db_rep e' (db_write (version txn) k None A) ->
  db_inv (db_write (version txn) k None A) -> mvcc_pending s e l -> k ∉ l.*1 -> mvcc_pending s e' l.
Proof.
  intros Hr Hi Hok Hr' Hi' (Ht & A0 & rest & Hr0 & Hi0 & Hp & ->) Hk. split; [exact Ht|].
  apply (pending_same_view A0 A) in Hp; [|rewrite Ht; now apply (db_rep_vers e)]. rewrite fmap_app, not_elem_of_app in Hk.
  unfold pending in Hp. destruct (remainder s) as [r|] eqn:Er.
  - destruct Hp as [Hvo Hvs]. rewrite Ht in Hvs.
    destruct (version_iterator_spec e' _ txn r Hr' Hi' Hvo) as (items & vl & _ & _ & Hvs').
    exists (db_write (version txn) k None A), vl. split; [exact Hr'|]. split; [exact Hi'|]. split.
    + unfold pending. rewrite Er, Ht. auto.
    + now rewrite (live_delete A k r rest vl).
  - subst rest. exists (db_write (version txn) k None A), []. split; [exact Hr'|]. split; [exact Hi'|].
    split; [|reflexivity]. unfold pending. now rewrite Er.
Qed.

#[export] Instance mvcc_kv_spec : KvSpec E.
Proof.
  refine {| kv_rep := mvcc_view; kv_iter_rep := mvcc_pending |}.
  - intros e M k (A & Hr & Hv). cbn [kv_get mvcc_kv].
    destruct (get_spec e A txn k Hr (view_inv A M Hv) (view_version A M Hv)) as (r & -> & Hread). cbn [fst].
    now rewrite (reads_unique A txn k r (M !! k) Hread (view_reads A M Hv k)).
  - intros e M k v Hm. destruct (mvcc_write_spec e M k (Some v) Hm) as [(e' & A & Ew & _ & _ & _ & Hr' & Hv')|He];
      [left | right; exact He]. exists e'. split; [exact Ew|]. eexists. split; [exact Hr' | exact Hv'].
  - intros e M k Hm. destruct (mvcc_write_spec e M k None Hm) as [(e' & A & Ew & Hr & Hi & Hok & Hr' & Hv')|He];
      [left | right; exact He]. exists e'. split; [exact Ew|]. split; [eexists; split; [exact Hr' | exact Hv']|].
    intros s l Hp Hk. eapply (mvcc_delete_stable e e' A k s l); eauto. apply Hv'.
  - intros e M p. apply mvcc_scan_spec.
  - intros e M s l _. apply mvcc_next_spec.
Defined.
End MvccKv.
