(* ===== verification/SqlSession.v ===== *)
(** * SQL sessions on the local engine ([src/sql/execution/session.rs],
    [src/sql/engine/local.rs])

    A session is a state of its own next to the shared storage engine.  Its
    transaction control and [with_txn] are modelled with the closure as an
    argument; the engine's transactions are those of MVCC.  [SqlExecute] has the
    statements that run in them. *)
From S2P Require Import Prelude Bytes Keycode KeycodeTheory Btree Bincode Engine Float64 SqlValue SqlValueTheory SqlExpr SqlPlan SqlExec SqlSchema SqlLocal SqlLocalRep SqlLocalTheory SqlStatements Mvcc MvccKeys MvccAbs MvccScan MvccSpec SqlMvcc.

Section Session.
Context {E : Type} `{Engine E}.
Context {BV : Bincode is_u64} {BS : Bincode all_u64} {BO : Bincode (@any (option bytes))}.

(** [Session]: the engine and the open transaction. *)
Record Session : Type := mkSession {
  ses_engine : E;
  ses_txn : option TransactionState;
}.

(** An engine call, keeping the transaction. *)
Definition on_storage {A} (m : stM E A) : stM Session A := fun s =>
  let (r, e) := m (ses_engine s) in (r, mkSession e (ses_txn s)).
Definition set_txn (o : option TransactionState) : stM Session unit :=
  st_modify (fun s => mkSession (ses_engine s) o).

Inductive StatementResult : Type :=
  | ResultBegin (state : TransactionState)
  | ResultCommit (version : Z)
  | ResultRollback (version : Z)
  | ResultExplain (plan : Plan)
  | ResultCreateTable (name : bytes)
  | ResultDropTable (name : bytes) (existed : bool)
  | ResultDelete (count : Z)
  | ResultInsert (count : Z)
  | ResultUpdate (count : Z)
  | ResultSelect (columns : list Label) (rows : list Row).

(** [ast::Statement::Begin] *)
Definition session_begin (read_only : bool) (as_of : option Z) : stM Session StatementResult :=
  let! txn := st_read (fun s => Ok (ses_txn s)) in
  match txn with
  | Some _ => st_err (InvalidInput "already in a transaction")
  | None =>
      let! txn := match read_only, as_of with
                  | false, None => on_storage begin
                  | true, None => on_storage (begin_read_only None)
                  | true, Some as_of => on_storage (begin_read_only (Some as_of))
                  | false, Some _ => st_err (InvalidInput "can't start read-write transaction in a given version")
                  end in
      set_txn (Some txn) ;;;
      st_ret (ResultBegin txn)
  end.

(** [ast::Statement::Commit] and [ast::Statement::Rollback]; [take] leaves no
    transaction behind, also if the call fails. *)
Definition session_end (finish : TransactionState -> stM E unit) (result : Z -> StatementResult) :
    stM Session StatementResult :=
  let! txn := st_read (fun s => Ok (ses_txn s)) in
  set_txn None ;;;
  match txn with
  | None => st_err (InvalidInput "not in a transaction")
  | Some txn => on_storage (finish txn) ;;; st_ret (result (version txn))
  end.
Definition session_commit : stM Session StatementResult := session_end commit ResultCommit.
Definition session_rollback : stM Session StatementResult := session_end rollback ResultRollback.

(** An implicit transaction around [f]: committed if it succeeds, rolled back if
    it fails. *)
Definition implicit_txn {A} (read_only : bool) (f : TransactionState -> stM E A) : stM E A :=
  let! txn := (if read_only then begin_read_only None else begin) in
  fun e =>
    match f txn e with
    | (Ok a, e) => (commit txn ;;; st_ret a) e
    | (Err err, e) => (rollback txn ;;; st_err err) e
    | (Panic p, e) => (Panic p, e)
    end.

Definition with_txn {A} (read_only : bool) (f : TransactionState -> stM E A) : stM Session A :=
  let! txn := st_read (fun s => Ok (ses_txn s)) in
  match txn with
  | Some txn => on_storage (f txn)
  | None => on_storage (implicit_txn read_only f)
  end.

(** [Drop]: an open transaction is rolled back; an error is only logged. *)
Definition session_drop (s : Session) : E :=
  match ses_txn s with
  | None => ses_engine s
  | Some txn => (rollback txn (ses_engine s)).2
  end.
End Session.

(** ** A storage engine between transactions

    No transaction is open, the next version is [n], and the latest versions
    hold the SQL database [D]. *)
Section Idle.
Context {E : Type} `{EngineReads E} {EW : EngineWrites E}.
Context `{F64Pow, Regex}.
Context {BV : Bincode is_u64} {BS : Bincode all_u64} {BO : Bincode (@any (option bytes))}.
Context {BT : Bincode stored_table} {BR : Bincode stored_row} {BI : Bincode stored_ids}.
Context (test : bool).

Record idle_at (n : Z) (A : mvcc_db) (M : gmap bytes bytes) : Prop := {
  idle_inv : db_inv A;
  idle_next : db_next A = n;
  idle_active : db_active A = ∅;
  idle_reads k : reads A (mkTxn n true ∅) k (M !! k);
}.

Definition idle (n : Z) (e : E) (D : sql_db) : Prop :=
  exists A M, db_rep e A /\ idle_at n A M /\ SqlLocalRep.rep M D.

(** The transaction that begins there. *)
Lemma begin_idle n A M :
  idle_at n A M -> n < u64_max -> view_ok (mkTxn n false ∅) (db_begin A) M.
Proof.
  intros [Hi <- Ha Hr] Hn. pose proof (inv_next A Hi) as Hnx. split.
  - now apply db_inv_begin.
  - unfold is_u64. cbn. lia.
  - intros _. split; [reflexivity|]. split; [cbn; set_solver|]. cbn [active version].
    rewrite snapshot_begin, decide_True by auto. now rewrite Ha.
  - intros k. eapply reads_ext; [|apply Hr]. intros v o. cbn [db_begin db_vers]. unfold is_visible. cbn [active read_only version].
    rewrite !bool_decide_false by apply not_elem_of_empty. split; intros [Hv _]; (split; [exact Hv|]);
      pose proof (inv_vers A Hi k v (ex_intro _ _ Hv)); lia.
Qed.

(** What a transaction leaves alone, however it ends. *)
Definition framed (n : Z) (A0 : mvcc_db) (e : E) : Prop :=
  exists A, db_rep e A /\ db_inv A /\ rw_ok A (mkTxn n false ∅) /\ db_next A = n + 1 /\ db_active A = {[n]} /\
    forall k v, v <> n -> db_vers A !! (k, v) = db_vers A0 !! (k, v).

Lemma write_framed n A0 k o :
  respects (fun e e' => framed n A0 e -> framed n A0 e') (write_version (mkTxn n false ∅) k o).
Proof.
  intros e (A & Hr & Hi & Hok & Hn & Ha & Hv).
  destruct (write_version_spec e A (mkTxn n false ∅) k o Hr Hi Hok) as [[-> _]|[(e' & -> & Hr') Hvis]]; cbn [snd].
  - exists A. auto 7.
  - exists (db_write n k o A). split; [exact Hr'|]. split; [now apply (db_inv_write A (mkTxn n false ∅))|].
    split; [exact Hok|]. split; [exact Hn|]. split; [exact Ha|]. intros k' v Hne. cbn.
    rewrite lookup_insert_ne by congruence. auto.
Qed.

#[local] Instance implies_preorder {X} (P : X -> Prop) : PreOrder (fun e e' => P e -> P e').
Proof. split; [intros e; auto | intros e1 e2 e3; auto]. Qed.

(** The operations of one transaction, through its MVCC operations. *)
Definition txn_ops (ops : list sql_op) (txn : TransactionState) : stM E unit :=
  run_sql_ops (H1 := mvcc_kv test txn) ops.

Lemma ops_framed n A0 ops e : framed n A0 e -> framed n A0 (txn_ops ops (mkTxn n false ∅) e).2.
Proof.
  apply (run_sql_ops_respects (H1 := mvcc_kv test (mkTxn n false ∅)) (fun e e' => framed n A0 e -> framed n A0 e')).
  - intros k v. apply write_framed.
  - intros k. exact (write_framed n A0 k None).
Qed.

Lemma begin_framed n A M e : idle_at n A M -> n < u64_max -> db_rep e (db_begin A) -> framed n A e.
Proof.
  intros Hid Hn Hr. pose proof (begin_idle n A M Hid Hn) as Hv. destruct Hid as [Hi <- Ha _]. exists (db_begin A).
  split; [exact Hr|]. split; [apply Hv|]. split; [now apply Hv|]. split; [reflexivity|]. split; [cbn; rewrite Ha; set_solver|]. reflexivity.
Qed.

Lemma commit_idle n A0 e M D :
  framed n A0 e -> n < u64_max -> mvcc_view (mkTxn n false ∅) e M -> SqlLocalRep.rep M D ->
  exists e', commit (mkTxn n false ∅) e = (Ok tt, e') /\ idle (n + 1) e' D.
Proof.
  intros (A & Hr & Hi & Hok & Hnx & Ha & _) Hn (A' & Hr' & [Hi' Hu _ Hreads]) HM.
  destruct (commit_spec e A (mkTxn n false ∅) Hr Hu eq_refl) as (e' & Ec & Hrc). exists e'. split; [exact Ec|].
  exists (db_commit n A), M. split; [exact Hrc|]. split; [|exact HM]. split.
  - now apply db_inv_commit.
  - exact Hnx.
  - cbn. rewrite Ha. set_solver.
  - intros k. pose proof (reads_same_view A' A _ k _ (db_rep_vers _ e A' A Hr' Hi' Hr Hi) (Hreads k)) as Hk.
    eapply reads_ext; [|exact Hk]. intros v o. cbn [db_commit db_vers]. unfold is_visible. cbn [active read_only version].
    rewrite !bool_decide_false by apply not_elem_of_empty. split; intros [Hv _]; (split; [exact Hv|]);
      pose proof (inv_vers A Hi k v (ex_intro _ _ Hv)); lia.
Qed.

Lemma rollback_idle n A0 e M D :
  framed n A0 e -> idle_at n A0 M -> n < u64_max -> SqlLocalRep.rep M D ->
  exists e', rollback (mkTxn n false ∅) e = (Ok tt, e') /\ idle (n + 1) e' D.
Proof.
  intros (A & Hr & Hi & Hok & Hnx & Ha & Hv) [Hi0 Hn0 _ Hreads] Hn HM. pose proof Hok as (_ & Hact & _).
  destruct (rollback_spec e A (mkTxn n false ∅) Hr Hi Hact eq_refl) as (e' & Ec & Hrc). exists e'. split; [exact Ec|].
  exists (db_rollback n A), M. split; [exact Hrc|]. split; [|exact HM]. split.
  - now apply db_inv_rollback.
  - exact Hnx.
  - cbn. rewrite Ha. set_solver.
  - intros k. eapply reads_ext; [|apply Hreads]. intros v o. rewrite rollback_vers. unfold is_visible. cbn [active read_only version].
    rewrite !bool_decide_false by apply not_elem_of_empty. case_decide as Ev.
    + split; [|intros [? _]; discriminate]. intros [Ho _]. pose proof (inv_vers A0 Hi0 k v (ex_intro _ _ Ho)). lia.
    + rewrite Hv by exact Ev. split; intros [Ho _]; (split; [exact Ho|]); pose proof (inv_vers A0 Hi0 k v (ex_intro _ _ Ho)); lia.
Qed.

(** ** An implicit transaction takes effect as a whole or not at all *)
Lemma implicit_txn_spec n e D ops :
  idle n e D -> n < u64_max -> db_ok D -> ops_ok D ops ->
  match implicit_txn false (txn_ops ops) e with
  | (Ok _, e') => exists D', ops_effect D ops D' /\ db_ok D' /\ idle (n + 1) e' D'
  | (Err _, e') => idle (n + 1) e' D
  | (Panic _, _) => False
  end.
Proof.
  intros (A & M & Hr & Hid & HM) Hn Ho Hops. unfold implicit_txn. unfold st_bind at 1.
  destruct (begin_spec e A Hr (idle_inv n A M Hid)) as (e1 & -> & Hr1); [now rewrite (idle_next n A M Hid)|].
  rewrite (idle_next n A M Hid), (idle_active n A M Hid).
  pose proof (sql_ops_triple (H1 := mvcc_kv test (mkTxn n false ∅)) (H2 := mvcc_kv_spec test (mkTxn n false ∅)) ops D Ho Hops e1) as Ht.
  pose proof (ops_framed n A ops e1 (begin_framed n A M e1 Hid Hn Hr1)) as Hf. fold (txn_ops ops (mkTxn n false ∅)) in Ht.
  specialize (Ht ltac:(exists M; split; [exists (db_begin A); split; [exact Hr1 | now apply begin_idle] | exact HM])).
  destruct (txn_ops ops (mkTxn n false ∅) e1) as [[[]|err|p] e2]; cbn [snd] in Hf.
  - destruct Ht as (D' & He & Ho' & M' & Hv' & HM'). unfold st_bind.
    destruct (commit_idle n A e2 M' D' Hf Hn Hv' HM') as (e3 & -> & Hidle). cbn. eauto.
  - unfold st_bind. destruct (rollback_idle n A e2 M D Hf Hid Hn HM) as (e3 & -> & Hidle). exact Hidle.
  - exact Ht.
Qed.
End Idle.
