(* ===== verification/SqlLocalClaims.v ===== *)
(** * The guarantees of the local SQL engine

    Statements on a consistent database, the reads, and implicit transactions,
    with concrete runs on the memory engine; and two histories of concurrent
    transactions that end in an inconsistent database. *)
From S2P Require Import Prelude Bytes Keycode KeycodeTheory Btree Bincode Engine Memory Mvcc MvccKeys MvccAbs MvccScan MvccSpec Float64 SqlValue SqlValueTheory SqlExpr SqlExprTheory SqlPlan SqlExec SqlOptimizer SqlOptTheory SqlPushdown SqlSchema SqlLocal SqlLocalRep SqlLocalTheory SqlLocalOps SqlIndexLookup SqlLocalTables SqlStatements SqlMvcc SqlSession.

(** ** Sample codecs

    Any injective encoding satisfies the law of [Bincode]; these go through the
    countability of the types. *)
Module SqlCodec.
Fixpoint pos_ser (p : positive) : bytes :=
  match p with
  | xH => []
  | xO p => x00 :: pos_ser p
  | xI p => x01 :: pos_ser p
  end.
Fixpoint pos_de (b : bytes) : positive :=
  match b with
  | [] => xH
  | x00 :: b => xO (pos_de b)
  | _ :: b => xI (pos_de b)
  end.
Lemma pos_de_ser p : pos_de (pos_ser p) = p.
Proof. induction p as [p IH|p IH|]; cbn; congruence. Qed.

Definition countable_bincode {A} `{Countable A} (valid : A -> Prop) : Bincode valid.
Proof.
  refine {| bincode_serialize x := pos_ser (countable.encode x);
            bincode_deserialize b := match countable.decode (pos_de b) with Some x => Ok x | None => errdata "invalid value" end |}.
  intros x _. now rewrite pos_de_ser, decode_encode.
Defined.

#[export] Instance Value_countable : Countable Value.
Proof.
  refine (inj_countable'
    (fun v => match v with
              | Null => inl (inl None) | Boolean b => inl (inl (Some b)) | Integer i => inl (inr (inl i))
              | Float f => inl (inr (inr f)) | SqlValue.String s => inr s
              end)
    (fun x => match x with
              | inl (inl None) => Null | inl (inl (Some b)) => Boolean b | inl (inr (inl i)) => Integer i
              | inl (inr (inr f)) => Float f | inr s => SqlValue.String s
              end) _).
  now intros [].
Defined.

#[export] Instance DataType_countable : Countable DataType.
Proof.
  refine (inj_countable'
    (fun t => match t with TBoolean => (false, false) | TInteger => (false, true) | TFloat => (true, false) | TString => (true, true) end)
    (fun x => match x with (false, false) => TBoolean | (false, true) => TInteger | (true, false) => TFloat | (true, true) => TString end) _).
  now intros [].
Defined.

#[export] Instance Column_eq_dec : EqDecision Column_.
Proof. solve_decision. Defined.
#[export] Instance Column_countable : Countable Column_.
Proof.
  refine (inj_countable'
    (fun c => (col_name c, col_datatype c, (nullable c, col_default c), (unique c, col_index c, references c)))
    (fun '(n, t, (nu, d), (u, i, r)) => mkColumn n t nu d u i r) _).
  now intros [].
Defined.

#[export] Instance Table_eq_dec : EqDecision Table.
Proof. solve_decision. Defined.
#[export] Instance Table_countable : Countable Table.
Proof.
  refine (inj_countable' (fun tb => (table_name tb, primary_key tb, columns tb)) (fun '(n, p, cs) => mkTable n p cs) _).
  now intros [].
Defined.

#[export] Instance table_bincode : Bincode stored_table := countable_bincode _.
#[export] Instance row_bincode : Bincode stored_row := countable_bincode (A := list Value) _.
#[export] Instance ids_bincode : Bincode stored_ids := countable_bincode _.
End SqlCodec.

Section Claims.
Context {T : Type} `{F64Pow, Regex, KvSpec T}.
Context {BT : Bincode stored_table} {BR : Bincode stored_row} {BI : Bincode stored_ids}.

(** C11: a sequence of CREATE TABLE, DROP TABLE, INSERT, UPDATE and DELETE
    operations of the local SQL engine on a consistent database never panics, and
    fails only with errors that are the same on every replica; if it succeeds, the
    schemas and rows are those the operations say, and the
    database is consistent again: rows have their columns' types, primary keys and
    unique columns have no duplicates, every index lists exactly the rows with a
    value, every schema is valid and every foreign key refers to an existing row.
    The arguments satisfy [ops_ok]: new schemas have distinct column names, the
    floats of defaults, inserted and updated rows are normalized (no -0.0 and no
    negative NaN, which the store would not return as they are), updates are of
    existing rows, one each, and deleted keys have the type of the primary key. *)
Theorem sql_statements_correct D t ops :
  db_rep D t -> db_ok D -> ops_ok D ops ->
  match run_sql_ops ops t with
  | (Ok _, t') => exists D', ops_effect D ops D' /\ db_ok D' /\ db_rep D' t'
  | (Err e, _) => is_deterministic e = true
  | (Panic _, _) => False
  end.
Proof. intros Hr Ho Hops. exact (sql_ops_triple ops D Ho Hops t Hr). Qed.

(** C12: the reads of the local SQL engine return the database: a schema by
    name, all schemas, the rows with given keys in the order asked for, the keys
    of exactly the rows with one of the given values in an indexed column,
    without duplicates, and all rows of a table once, in the order of the
    encoded keys. *)
Theorem sql_reads_correct D t n :
  db_rep D t -> db_ok D -> utf8_valid n = true ->
  local_get_table n t = Ok (d_table D n) /\
  (exists tbs, local_list_tables t = Ok tbs /\ forall tb, In tb tbs <-> exists n, d_table D n = Some tb) /\
  (forall ids, Forall stored ids -> local_get n ids t = Ok (omap (d_row D n) ids)) /\
  (forall tb i c vs, d_table D n = Some tb -> In (i, c) (indexed_columns tb) -> Forall stored vs ->
     exists ids, local_lookup_index n (col_name c) vs t = Ok ids /\ StronglySorted value_lt ids /\
       forall id, In id ids <-> exists row v, d_row D n id = Some row /\ row !! i = Some v /\ In v vs) /\
  exists ids, local_scan n None t = Ok (map Ok (omap (d_row D n) ids)) /\
    StronglySorted (fun a b => lex_lt (senc (KeyRow n a)) (senc (KeyRow n b)) = true) ids /\
    forall id, In id ids <-> is_Some (d_row D n id).
Proof.
  intros Hr [Hc _] Hn. pose proof (core_wf D Hc) as W. repeat split.
  - now apply get_table_spec.
  - now apply list_tables_spec.
  - intros ids. now apply local_get_spec.
  - intros tb i c vs Ht Hi Hvs. destruct (wf_table D W _ _ Ht) as [<- _]. now apply (lookup_index_hits D t tb i c vs).
  - now apply local_scan_spec.
Qed.

(** C13: the optimizer's index lookups are sound on a consistent database: if the
    scan of a table with a filter yields rows, then the primary-key or index
    lookup that [index_lookup] puts in its place, with what remains of the
    filter, yields the same rows (in the order of the lookup), provided the
    looked-up values have the type of the column and a key list has no
    duplicates. *)
Theorem sql_index_lookup D t tb f alias rows n' :
  db_rep D t -> db_ok D -> d_table D (table_name tb) = Some tb ->
  yields (NScan tb (Some f) alias) t rows ->
  index_lookup (NScan tb (Some f) alias) = Ok n' -> lookup_ok tb n' ->
  exists rows', yields n' t rows' /\ rows' ≡ₚ rows.
Proof. intros Hr Ho Ht. exact (index_lookup_rows D t tb Hr Ho Ht f alias rows n'). Qed.

(** What the optimizer relies on of an engine. *)
#[export] Instance local_transaction_spec : TransactionSpec T.
Proof.
  split; try reflexivity. intros table f t rows. unfold txn_scan. cbn [local_transaction]. unfold local_scan.
  destruct (scan_values decode_row (PrefixRow table) t); cbn; congruence.
Qed.
End Claims.

Section SessionClaims.
Context {E : Type} `{EngineReads E} {EW : EngineWrites E}.
Context `{F64Pow, Regex}.
Context {BV : Bincode is_u64} {BS : Bincode all_u64} {BO : Bincode (@any (option bytes))}.
Context {BT : Bincode stored_table} {BR : Bincode stored_row} {BI : Bincode stored_ids}.

(** C10: statements run in a session's implicit transaction, on the local SQL
    engine over MVCC over any storage engine, with no other transaction open,
    are atomic and keep the database consistent: if they succeed, the committed
    database is the one the statements say and consistent; if one of them fails,
    after whatever writes, the committed database is the one before; they do not
    panic and leave no transaction open.  The arguments satisfy [ops_ok]: distinct
    column names, normalized floats, updates of existing rows. *)
Theorem sql_implicit_transaction test n s D ops :
  ses_txn s = None -> idle n (ses_engine s) D -> n < u64_max -> db_ok D -> ops_ok D ops ->
  match with_txn false (txn_ops test ops) s with
  | (Ok _, s') => ses_txn s' = None /\ exists D', ops_effect D ops D' /\ db_ok D' /\ idle (n + 1) (ses_engine s') D'
  | (Err _, s') => ses_txn s' = None /\ idle (n + 1) (ses_engine s') D
  | (Panic _, _) => False
  end.
Proof.
  intros Ht Hi Hn Ho Hops. pose proof (implicit_txn_spec test n (ses_engine s) D ops Hi Hn Ho Hops) as Hs.
  unfold with_txn, st_bind, st_read. rewrite Ht. unfold on_storage. rewrite Ht.
  destruct (implicit_txn false (txn_ops test ops) (ses_engine s)) as [[[]|e|p] e']; cbn; auto.
Qed.
End SessionClaims.

(** ** Concrete runs, on the memory engine with the sample codecs *)
Module LocalSample.
Import Sample SqlSample SqlCodec.

(** [CREATE TABLE a (i INTEGER PRIMARY KEY, x INTEGER INDEX)] and
    [CREATE TABLE b (i INTEGER PRIMARY KEY, r INTEGER REFERENCES a)] *)
Definition int_column (n : bytes) (pk : bool) (r : option bytes) : Column_ :=
  mkColumn n TInteger (negb pk) (if pk then None else Some Null) pk (negb pk) r.
Definition table_a : Table := mkTable [x61] 0 [int_column [x69] true None; int_column [x78] false None].
Definition table_b : Table := mkTable [x62] 0 [int_column [x69] true None; int_column [x72] false (Some [x61])].

Definition int_row (i x : Z) : Row := [Integer i; Integer x].
Definition sample_ops : list sql_op :=
  [OpCreate table_a; OpCreate table_b; OpInsert [x61] [int_row 1 7; int_row 2 7]; OpInsert [x62] [int_row 10 1]].

Definition txn1 : TransactionState := mkTxn 1 false ∅.
#[local] Existing Instance mvcc_kv.
#[local] Existing Instance mvcc_kv_spec.

Lemma idle_empty : idle 1 memory_new sql_empty.
Proof.
  exists db_empty, ∅. split; [split; [exact memory_new_inv | apply rep_empty]|]. split.
  - split; try reflexivity; [apply db_inv_empty|]. intros k. rewrite lookup_empty. right. split; [reflexivity|].
    intros v _ [o Ho]. discriminate.
  - split; [|intros raw [x F]; discriminate]. intros k _. now destruct k.
Qed.

Lemma int_row_stored i x : (-100 <= i <= 100) -> (-100 <= x <= 100) -> stored_row (int_row i x).
Proof. intros Hi Hx. repeat constructor; cbn; unfold is_i64, i64_min, i64_max; lia. Qed.

Lemma sample_table_stored tb : tb = table_a \/ tb = table_b -> stored_table tb /\ NoDup (map col_name (columns tb)).
Proof.
  assert (forall v, Some Null = Some v -> stored v) as Hn by (intros v [= <-]; repeat split).
  intros [->| ->]; (split; [split; [reflexivity|] | now apply (bool_decide_eq_true_1 _)]);
    repeat (apply Forall_cons; split); try apply Forall_nil_2; cbn; (split; [reflexivity|]); (split; [first [exact Hn | discriminate]|]); first [discriminate | now intros ? [= <-]].
Qed.

Lemma sample_ops_ok D : ops_ok D sample_ops.
Proof.
  cbn [ops_ok sample_ops op_ok]. split; [apply sample_table_stored; auto|]. intros D1 _.
  split; [apply sample_table_stored; auto|]. intros D2 _. split; [|intros D3 _; split; [|auto]];
    (split; [reflexivity|]; repeat (apply (Forall_cons_2 stored_row); [apply int_row_stored; lia|]); apply Forall_nil_2).
Qed.

Lemma sql_implicit_transaction_witness :
  let s := mkSession memory_new None in
  let s' := (with_txn false (txn_ops false sample_ops) s).2 in
  ses_txn s' = None /\ exists D', ops_effect sql_empty sample_ops D' /\ db_ok D' /\ idle 2 (ses_engine s') D'.
Proof.
  intros s s'. pose proof (sql_implicit_transaction false 1 s sql_empty sample_ops eq_refl idle_empty
    ltac:(unfold u64_max; lia) sql_empty_ok (sample_ops_ok _)) as Hs.
  assert ((with_txn false (txn_ops false sample_ops) s).1 = Ok tt) as Hok by (vm_compute; reflexivity).
  subst s'. destruct (with_txn false (txn_ops false sample_ops) s) as [r s']. cbn [fst snd] in *. rewrite Hok in Hs. exact Hs.
Defined.

(** The storage engine in which the first transaction has begun. *)
Definition engine1 : Memory := (begin memory_new).2.

Lemma engine1_rep : SqlLocalRep.db_rep (H1 := mvcc_kv false txn1) (H2 := mvcc_kv_spec false txn1) sql_empty engine1.
Proof.
  destruct idle_empty as (A & M & Hr & Hid & HM). assert (1 < u64_max) as H1 by (unfold u64_max; lia).
  exists M. split; [|exact HM]. exists (db_begin A). split; [|now apply (begin_idle 1 A M)].
  destruct (begin_spec memory_new A Hr (idle_inv _ A M Hid)) as (e1 & E1 & Hr1); [now rewrite (idle_next _ A M Hid)|].
  unfold engine1. rewrite E1. exact Hr1.
Qed.

Definition sample_run : outcome unit * Memory := run_sql_ops (H1 := mvcc_kv false txn1) sample_ops engine1.

Lemma sql_statements_correct_witness :
  sample_run.1 = Ok tt /\
  exists D', ops_effect sql_empty sample_ops D' /\ db_ok D' /\
    SqlLocalRep.db_rep (H1 := mvcc_kv false txn1) (H2 := mvcc_kv_spec false txn1) D' sample_run.2.
Proof.
  pose proof (sql_statements_correct (H1 := mvcc_kv false txn1) (H2 := mvcc_kv_spec false txn1) sql_empty engine1 sample_ops
    engine1_rep sql_empty_ok (sample_ops_ok _)) as Hs. fold sample_run in Hs.
  assert (sample_run.1 = Ok tt) as Hok by (vm_compute; reflexivity). split; [exact Hok|].
  destruct sample_run as [r e]. cbn [fst snd] in *. rewrite Hok in Hs. exact Hs.
Defined.

Lemma sql_reads_correct_witness :
  exists D, db_ok D /\ d_table D [x61] = Some table_a /\ d_row D [x61] (Integer 2) = Some (int_row 2 7) /\
    exists ids, local_lookup_index (H1 := mvcc_kv false txn1) [x61] [x78] [Integer 7] sample_run.2 = Ok ids /\
      forall id, In id ids <-> exists row v, d_row D [x61] id = Some row /\ row !! 1%nat = Some v /\ In v [Integer 7].
Proof.
  pose proof (sql_ops_triple (H1 := mvcc_kv false txn1) (H2 := mvcc_kv_spec false txn1) sample_ops sql_empty sql_empty_ok
    (sample_ops_ok _) engine1 engine1_rep) as Hs. fold sample_run in Hs.
  assert (local_get_table (H1 := mvcc_kv false txn1) [x61] sample_run.2 = Ok (Some table_a)) as Et by (vm_compute; reflexivity).
  assert (local_get (H1 := mvcc_kv false txn1) [x61] [Integer 2] sample_run.2 = Ok [int_row 2 7]) as Eg by (vm_compute; reflexivity).
  assert (sample_run.1 = Ok tt) as Hok by (vm_compute; reflexivity).
  destruct sample_run as [r e]. cbn [fst snd] in *. subst r. destruct Hs as (D & _ & Ho & Hr). exists D.
  destruct (sql_reads_correct (H1 := mvcc_kv false txn1) (H2 := mvcc_kv_spec false txn1) D e [x61] Hr Ho eq_refl) as (R1 & _ & R3 & R4 & _).
  assert (Forall stored [Integer 2]) as S2 by (apply Forall_singleton; repeat split; discriminate).
  assert (Forall stored [Integer 7]) as S7 by (apply Forall_singleton; repeat split; discriminate).
  rewrite Et in R1. injection R1 as R1. rewrite (R3 _ S2) in Eg. cbn [omap list_omap] in Eg.
  split; [exact Ho|]. split; [auto|]. split; [destruct (d_row D [x61] (Integer 2)); congruence|].
  destruct (R4 table_a 1%nat (int_column [x78] false None) [Integer 7] ltac:(auto) ltac:(now left) S7) as (ids & El & _ & Hin).
  exists ids. split; [exact El | exact Hin].
Defined.

(** [SELECT * FROM a WHERE x = 7 AND i > 1] *)
Definition filter_a : Expression := And (Equal (Column 1) (Constant (Integer 7))) (GreaterThan (Column 0) (Constant (Integer 1))).
Definition lookup_a : Node :=
  NFilter (NIndexLookup table_a 1 [Integer 7] None) (GreaterThan (Column 0) (Constant (Integer 1))).

Lemma sql_index_lookup_witness :
  exists rows', yields (H1 := local_transaction (H1 := mvcc_kv false txn1)) lookup_a sample_run.2 rows' /\ rows' ≡ₚ [int_row 2 7].
Proof.
  pose proof (sql_ops_triple (H1 := mvcc_kv false txn1) (H2 := mvcc_kv_spec false txn1) sample_ops sql_empty sql_empty_ok
    (sample_ops_ok _) engine1 engine1_rep) as Hs. fold sample_run in Hs.
  assert (local_get_table (H1 := mvcc_kv false txn1) [x61] sample_run.2 = Ok (Some table_a)) as Et by (vm_compute; reflexivity).
  assert (yields (H1 := local_transaction (H1 := mvcc_kv false txn1)) (NScan table_a (Some filter_a) None) sample_run.2 [int_row 2 7]) as Hy
    by (vm_compute; reflexivity).
  assert (sample_run.1 = Ok tt) as Hok by (vm_compute; reflexivity).
  destruct sample_run as [r e]. cbn [fst snd] in *. subst r. destruct Hs as (D & _ & Ho & Hr).
  apply (sql_index_lookup (H1 := mvcc_kv false txn1) (H2 := mvcc_kv_spec false txn1) D e table_a filter_a None); auto.
  - rewrite (get_table_spec (H1 := mvcc_kv false txn1) (H2 := mvcc_kv_spec false txn1) D) in Et; [injection Et as Et; exact Et | exact Hr | apply Ho | reflexivity].
  - exists (int_column [x78] false None). split; [reflexivity|]. split; [|discriminate]. apply Forall_singleton.
    split; [repeat split; discriminate|]. split; [cbn; unfold is_i64, i64_min, i64_max; lia | auto].
Defined.

(** [SELECT * FROM a WHERE i = 1.0]: the float is not a key of the table, though
    it equals the integer of the row. *)
Definition float_lookup : Node := NScan table_a (Some (Equal (Column 0) (Constant (Float (f64_of_i64 1))))) None.
Lemma key_lookup_mixed_types :
  yields (H1 := local_transaction (H1 := mvcc_kv false txn1)) float_lookup sample_run.2 [int_row 1 7] /\
  exists n', index_lookup float_lookup = Ok n' /\ yields (H1 := local_transaction (H1 := mvcc_kv false txn1)) n' sample_run.2 [].
Proof. split; [vm_compute; reflexivity|]. eexists. split; [vm_compute; reflexivity | vm_compute; reflexivity]. Qed.

(** Two columns of one name share their index entries: a lookup of the first
    returns a row that has the value in the second. *)
Definition twin_table : Table :=
  mkTable [x63] 0 [int_column [x69] true None; int_column [x78] false None; int_column [x78] false None].
Definition twin_lookup : Node := NScan twin_table (Some (Equal (Column 1) (Constant (Integer 8)))) None.
Lemma duplicate_columns_share_index :
  let e := run_sql_ops (H1 := mvcc_kv false txn1) [OpCreate twin_table; OpInsert [x63] [[Integer 1; Integer 7; Integer 8]]] engine1 in
  e.1 = Ok tt /\ yields (H1 := local_transaction (H1 := mvcc_kv false txn1)) twin_lookup e.2 [] /\
  exists n', index_lookup twin_lookup = Ok n' /\
    yields (H1 := local_transaction (H1 := mvcc_kv false txn1)) n' e.2 [[Integer 1; Integer 7; Integer 8]].
Proof.
  split; [vm_compute; reflexivity|]. split; [vm_compute; reflexivity|].
  eexists. split; [vm_compute; reflexivity | vm_compute; reflexivity].
Qed.

(** An update of a float key from 0.0 to -0.0, which are equal, fails on a unique
    column: the row's own index entry is not recognized. *)
Definition float_key_table : Table :=
  mkTable [x66] 0 [mkColumn [x69] TFloat false None true false None; mkColumn [x75] TInteger true (Some Null) true true None].
Definition neg_zero : f64 := 9223372036854775808.
Lemma update_negative_zero_key :
  let e := run_sql_ops (H1 := mvcc_kv false txn1) [OpCreate float_key_table; OpInsert [x66] [[Float 0; Integer 1]]] engine1 in
  e.1 = Ok tt /\ value_eq (Float 0) (Float neg_zero) = true /\
  (local_update (H1 := mvcc_kv false txn1) [x66] [(Float 0, [Float neg_zero; Integer 1])] e.2).1 =
    Err (InvalidInput "value already in unique column").
Proof. split; [vm_compute; reflexivity|]. split; vm_compute; reflexivity. Qed.

(** ** Two clients on one storage engine *)
Record clients : Type := mkClients { shared_engine : Memory; client_a : option TransactionState; client_b : option TransactionState }.

Inductive client : Type := A | B.

Definition on_client {R} (c : client) (m : stM Session R) : stM clients R := fun s =>
  let (r, s') := m (mkSession (shared_engine s) (match c with A => client_a s | B => client_b s end)) in
  (r, match c with
      | A => mkClients (ses_engine s') (ses_txn s') (client_b s)
      | B => mkClients (ses_engine s') (client_a s) (ses_txn s')
      end).

(** The outcome of a statement as a value: the client goes on after an error. *)
Definition st_try {S R} (m : stM S R) : stM S (outcome R) := fun s => let (r, s') := m s in (Ok r, s').

Definition statement (c : client) (op : sql_op) : stM clients unit := on_client c (with_txn false (txn_ops false [op])).
Definition BEGIN (c : client) : stM clients StatementResult := on_client c (session_begin false None).
Definition COMMIT (c : client) : stM clients StatementResult := on_client c session_commit.
Definition ROLLBACK (c : client) : stM clients StatementResult := on_client c session_rollback.
Definition query {R} (f : TransactionState -> Memory -> outcome R) : stM clients R :=
  on_client A (with_txn true (fun txn => st_read (f txn))).

Definition new_clients : clients := mkClients memory_new None None.

(** The client A inserts a row that refers to a row that the client B deletes. *)
Definition skew_history : stM clients (list Row * list Row) :=
  statement A (OpCreate table_a) ;;; statement A (OpCreate table_b) ;;;
  statement A (OpInsert [x61] [int_row 1 7]) ;;;
  BEGIN A ;;; BEGIN B ;;;
  statement A (OpInsert [x62] [int_row 10 1]) ;;;
  statement B (OpDelete [x61] [Integer 1]) ;;;
  COMMIT A ;;; COMMIT B ;;;
  let! b := query (fun txn => local_get (H1 := mvcc_kv false txn) [x62] [Integer 10]) in
  let! a := query (fun txn => local_get (H1 := mvcc_kv false txn) [x61] [Integer 1]) in
  st_ret (b, a).

(** Referential integrity is not kept between concurrent transactions: one
    inserts a row with a foreign key, the other deletes the row it refers to;
    neither sees the other's write, the keys they write differ, both commit, and
    the foreign key dangles. *)
Lemma sql_concurrent_references :
  (skew_history new_clients).1 = Ok ([int_row 10 1], []).
Proof. vm_compute. reflexivity. Qed.

(** The client A inserts a row whose index entry the open transaction of B has
    written; A commits after the error. *)
Definition torn_history : stM clients (outcome unit * list Row * list Value) :=
  statement A (OpCreate table_a) ;;;
  BEGIN A ;;; BEGIN B ;;;
  statement B (OpInsert [x61] [int_row 1 7]) ;;;
  let! r := st_try (statement A (OpInsert [x61] [int_row 2 7])) in
  COMMIT A ;;; ROLLBACK B ;;;
  let! rows := query (fun txn => local_get (H1 := mvcc_kv false txn) [x61] [Integer 2]) in
  let! ids := query (fun txn => local_lookup_index (H1 := mvcc_kv false txn) [x61] [x78] [Integer 7]) in
  st_ret (r, rows, ids).

(** An INSERT of an explicit transaction that fails with a serialization
    error has written the row and not its index entry; the session lets the
    transaction commit, and the row is then missing from the index. *)
Lemma sql_torn_insert :
  (torn_history new_clients).1 = Ok (Err Serialization, [int_row 2 7], []).
Proof. vm_compute. reflexivity. Qed.
End LocalSample.
