(* ===== verification/SqlAst.v ===== *)
(** * The abstract syntax of SQL ([src/sql/parser/ast.rs])

    What the parser hands to the planner.  The ghost assignment order of UPDATE
    has no run-time content and is left out; a [BTreeMap] of assignments is its
    bindings in key order. *)
From Stdlib Require Strings.String.
From S2P Require Import Prelude Bytes Float64 SqlValue SqlPlan.

Definition name_of (s : string) : bytes := Strings.String.list_byte_of_string s.

Inductive Literal : Type :=
  | LNull
  | LBoolean (b : bool)
  | LInteger (i : Z)
  | LFloat (f : f64)
  | LString (s : bytes).

(** [Operator], over the type of its operands. *)
Inductive Operator (E : Type) : Type :=
  | OAnd (lhs rhs : E)
  | ONot (expr : E)
  | OOr (lhs rhs : E)
  | OEqual (lhs rhs : E)
  | OGreaterThan (lhs rhs : E)
  | OGreaterThanOrEqual (lhs rhs : E)
  | OIs (expr : E) (literal : Literal)
  | OLessThan (lhs rhs : E)
  | OLessThanOrEqual (lhs rhs : E)
  | ONotEqual (lhs rhs : E)
  | OAdd (lhs rhs : E)
  | ODivide (lhs rhs : E)
  | OExponentiate (lhs rhs : E)
  | OFactorial (expr : E)
  | OIdentity (expr : E)
  | OMultiply (lhs rhs : E)
  | ONegate (expr : E)
  | ORemainder (lhs rhs : E)
  | OSubtract (lhs rhs : E)
  | OLike (lhs rhs : E).
Arguments OAnd {E}. Arguments ONot {E}. Arguments OOr {E}. Arguments OEqual {E}. Arguments OGreaterThan {E}.
Arguments OGreaterThanOrEqual {E}. Arguments OIs {E}. Arguments OLessThan {E}. Arguments OLessThanOrEqual {E}.
Arguments ONotEqual {E}. Arguments OAdd {E}. Arguments ODivide {E}. Arguments OExponentiate {E}. Arguments OFactorial {E}.
Arguments OIdentity {E}. Arguments OMultiply {E}. Arguments ONegate {E}. Arguments ORemainder {E}. Arguments OSubtract {E}.
Arguments OLike {E}.

Inductive AstExpression : Type :=
  | EAll
  | EColumn (table : option bytes) (name : bytes)
  | ELiteral (l : Literal)
  | EFunction (name : bytes) (args : list AstExpression)
  | EOperator (op : Operator AstExpression).

(** The operands of an operator, from left to right. *)
Definition operands {E} (op : Operator E) : list E :=
  match op with
  | OAnd l r | OOr l r | OEqual l r | OGreaterThan l r | OGreaterThanOrEqual l r | OLessThan l r | OLessThanOrEqual l r
  | ONotEqual l r | OAdd l r | ODivide l r | OExponentiate l r | OMultiply l r | ORemainder l r | OSubtract l r
  | OLike l r => [l; r]
  | ONot e | OIs e _ | OFactorial e | OIdentity e | ONegate e => [e]
  end.

(** Induction with the operands of operators and the arguments of functions. *)
Section AstInd.
Context (P : AstExpression -> Prop).
Context (HAll : P EAll) (HColumn : forall t n, P (EColumn t n)) (HLiteral : forall l, P (ELiteral l)).
Context (HFunction : forall n args, Forall P args -> P (EFunction n args)).
Context (HOperator : forall op, Forall P (operands op) -> P (EOperator op)).
Fixpoint AstExpression_rect_nested (e : AstExpression) : P e.
Proof.
  destruct e as [|t n|l|n args|op].
  - exact HAll.
  - exact (HColumn t n).
  - exact (HLiteral l).
  - apply HFunction. induction args as [|a args IH]; [constructor|].
    constructor; [exact (AstExpression_rect_nested a) | exact IH].
  - apply HOperator. destruct op; repeat (constructor; [apply AstExpression_rect_nested|]); constructor.
Defined.
End AstInd.

(** Floats are compared by their bits. *)
#[export] Instance Literal_eq_dec : EqDecision Literal.
Proof. solve_decision. Defined.

#[export] Instance AstExpression_eq_dec : EqDecision AstExpression.
Proof.
  unfold EqDecision, Decision. fix go 1. decide equality.
  - apply (decide (name = name0)).
  - apply (decide (table = table0)).
  - apply (decide (l = l0)).
  - apply (List.list_eq_dec go).
  - apply (decide (name = name0)).
  - decide equality; apply (decide (literal = literal0)).
Defined.

Inductive JoinType : Type := JCross | JInner | JLeft | JRight.

Definition is_outer (j : JoinType) : bool := match j with JLeft | JRight => true | JCross | JInner => false end.

Inductive From_ : Type :=
  | FTable (name : bytes) (alias : option bytes)
  | FJoin (left right : From_) (join_type : JoinType) (predicate : option AstExpression).

Record AstColumn : Type := mkAstColumn {
  ac_name : bytes;
  ac_datatype : DataType;
  ac_primary_key : bool;
  ac_nullable : option bool;
  ac_default : option AstExpression;
  ac_unique : bool;
  ac_index : bool;
  ac_references : option bytes;
}.

Record SelectStatement : Type := mkSelect {
  st_select : list (AstExpression * option bytes);
  st_from : list From_;
  st_where : option AstExpression;
  st_group_by : list AstExpression;
  st_having : option AstExpression;
  st_order_by : list (AstExpression * Direction);
  st_offset : option AstExpression;
  st_limit : option AstExpression;
}.

Inductive Statement : Type :=
  | SBegin (read_only : bool) (as_of : option Z)
  | SCommit
  | SRollback
  | SExplain (statement : Statement)
  | SCreateTable (name : bytes) (columns : list AstColumn)
  | SDropTable (name : bytes) (if_exists : bool)
  | SDelete (table : bytes) (where_clause : option AstExpression)
  | SInsert (table : bytes) (columns : option (list bytes)) (values : list (list AstExpression))
  | SUpdate (table : bytes) (set : list (bytes * option AstExpression)) (where_clause : option AstExpression)
  | SSelect (select : SelectStatement).

(** ** Traversal *)
Section Walk.
Context {S : Type} (visitor : AstExpression -> S -> bool * S).

(** [Expression::walk]; for a function the source takes [any] of its arguments. *)
Fixpoint ast_walk (e : AstExpression) (s : S) : bool * S :=
  let (go, s) := visitor e s in
  if negb go then (false, s)
  else
    match e with
    | EOperator op =>
        match op with
        | OAnd l r | OOr l r | OEqual l r | OGreaterThan l r | OGreaterThanOrEqual l r | OLessThan l r
        | OLessThanOrEqual l r | ONotEqual l r | OAdd l r | ODivide l r | OExponentiate l r | OMultiply l r
        | ORemainder l r | OSubtract l r | OLike l r => let (b, s) := ast_walk l s in if b then ast_walk r s else (false, s)
        | ONot e | OIs e _ | OFactorial e | OIdentity e | ONegate e => ast_walk e s
        end
    | EFunction _ args =>
        (fix any (args : list AstExpression) (s : S) : bool * S :=
           match args with
           | [] => (false, s)
           | a :: args => let (b, s) := ast_walk a s in if b then (true, s) else any args s
           end) args s
    | EAll | EColumn _ _ | ELiteral _ => (true, s)
    end.
End Walk.

Definition ast_contains (f : AstExpression -> bool) (e : AstExpression) : bool :=
  negb (ast_walk (fun e s => (negb (f e), s)) e tt).1.

(** [Expression::collect]: the outermost expressions that satisfy [f]. *)
Fixpoint ast_collect (f : AstExpression -> bool) (e : AstExpression) : list AstExpression :=
  if f e then [e]
  else
    match e with
    | EOperator op =>
        match op with
        | OAnd l r | OOr l r | OEqual l r | OGreaterThan l r | OGreaterThanOrEqual l r | OLessThan l r
        | OLessThanOrEqual l r | ONotEqual l r | OAdd l r | ODivide l r | OExponentiate l r | OMultiply l r
        | ORemainder l r | OSubtract l r | OLike l r => ast_collect f l ++ ast_collect f r
        | ONot e | OIs e _ | OFactorial e | OIdentity e | ONegate e => ast_collect f e
        end
    | EFunction _ args => (fix each (args : list AstExpression) : list AstExpression :=
                             match args with [] => [] | a :: args => ast_collect f a ++ each args end) args
    | EAll | EColumn _ _ | ELiteral _ => []
    end.
