(* ===== verification/SqlPlanner.v ===== *)
(** * The planner ([src/sql/planner/planner.rs])

    Plans are built from the syntax tree with a [Scope] that resolves column
    names to column indexes.  Hash maps and sets are finite maps and sets; the
    map keyed by expressions is an association list without duplicate keys (the
    source does not depend on its iteration order).  A [usize] is a [nat]. *)
From Stdlib Require Import Strings.String.
From S2P Require Import Prelude Bytes Float64 SqlValue SqlExpr SqlPlan SqlExec SqlAst.

(** ** Scopes *)
Record Scope : Type := mkScope {
  sc_columns : list Label;
  sc_tables : gset bytes;
  sc_qualified : gmap (bytes * bytes) nat;
  sc_unqualified : gmap bytes (list nat);
  sc_aggregates : list (AstExpression * nat);
  sc_hidden : gset nat;
}.

Definition scope_new : Scope := mkScope [] ∅ ∅ ∅ [] ∅.
Definition spawn (s : Scope) : Scope := mkScope [] (sc_tables s) ∅ ∅ [] ∅.

(** Appends a column; its index is the number of columns before. *)
Definition add_column (label : Label) (s : Scope) : Scope :=
  let index := length (sc_columns s) in
  mkScope (sc_columns s ++ [label]) (sc_tables s)
    (match label with Qualified t c => <[(t, c) := index]> (sc_qualified s) | _ => sc_qualified s end)
    (match label with
     | Qualified _ n | Unqualified n => <[n := default [] (sc_unqualified s !! n) ++ [index]]> (sc_unqualified s)
     | NoLabel => sc_unqualified s
     end)
    (sc_aggregates s) (sc_hidden s).

Definition set_tables (f : gset bytes -> gset bytes) (s : Scope) : Scope :=
  mkScope (sc_columns s) (f (sc_tables s)) (sc_qualified s) (sc_unqualified s) (sc_aggregates s) (sc_hidden s).
Definition set_aggregates (f : list (AstExpression * nat) -> list (AstExpression * nat)) (s : Scope) : Scope :=
  mkScope (sc_columns s) (sc_tables s) (sc_qualified s) (sc_unqualified s) (f (sc_aggregates s)) (sc_hidden s).
Definition set_hidden (f : gset nat -> gset nat) (s : Scope) : Scope :=
  mkScope (sc_columns s) (sc_tables s) (sc_qualified s) (sc_unqualified s) (sc_aggregates s) (f (sc_hidden s)).

Definition add_table (table : Table) (alias : option bytes) (s : Scope) : outcome Scope :=
  let name := default (table_name table) alias in
  if bool_decide (name ∈ sc_tables s) then errinput "duplicate table name"
  else
    Ok (set_tables (fun ts => {[name]} ∪ ts)
          (foldl (fun s c => add_column (Qualified name (col_name c)) s) s (columns table))).

Definition from_table (table : Table) : outcome Scope := add_table table None scope_new.

Definition lookup_column (table : option bytes) (name : bytes) (s : Scope) : outcome nat :=
  let fallback :=
    if bool_decide (sc_aggregates s = []) then errinput "unknown column"
    else errinput "column must be used in an aggregate or GROUP BY expression" in
  if bool_decide (sc_columns s = []) then errinput "expression must be constant, found column"
  else
    match table with
    | Some table =>
        if negb (bool_decide (table ∈ sc_tables s)) then errinput "unknown table"
        else match sc_qualified s !! (table, name) with Some index => Ok index | None => fallback end
    | None =>
        match sc_unqualified s !! name with
        | Some indexes =>
            if (1 <? length indexes)%nat then errinput "ambiguous column"
            else match indexes with index :: _ => Ok index | [] => Panic "index out of bounds" end
        | None => fallback
        end
    end.

(** Association lists of expressions. *)
Definition agg_get (e : AstExpression) (l : list (AstExpression * nat)) : option nat :=
  snd <$> List.find (fun p => bool_decide (p.1 = e)) l.
(** [entry(e).or_insert(index)] *)
Definition agg_or_insert (e : AstExpression) (index : nat) (l : list (AstExpression * nat)) : list (AstExpression * nat) :=
  match agg_get e l with Some _ => l | None => l ++ [(e, index)] end.

Definition lookup_aggregate (e : AstExpression) (s : Scope) : option nat := agg_get e (sc_aggregates s).

(** [columns[index].clone()] *)
Definition scope_label (s : Scope) (index : nat) : outcome Label :=
  match sc_columns s !! index with Some l => Ok l | None => Panic "index out of bounds" end.

(** The label of a column reference, if it can be resolved. *)
Definition reference_label (e : AstExpression) (s : Scope) : outcome Label :=
  match e with
  | EColumn table column =>
      match lookup_column table column s with
      | Ok index => scope_label s index
      | Err _ => Ok NoLabel
      | Panic p => Panic p
      end
  | _ => Ok NoLabel
  end.

(** Returns whether the expression was added, and the scope. *)
Definition add_aggregate (e : AstExpression) (parent s : Scope) : outcome (bool * Scope) :=
  match lookup_aggregate e s with
  | Some _ => Ok (false, s)
  | None =>
      let? label := reference_label e parent in
      let index := length (sc_columns s) in
      Ok (true, set_aggregates (fun l => l ++ [(e, index)]) (add_column label s))
  end.

Definition add_passthrough (parent : Scope) (parent_index : nat) (hide : bool) (s : Scope) : outcome Scope :=
  let? label := scope_label parent parent_index in
  let index := length (sc_columns s) in
  let s := add_column label s in
  let s := foldl (fun s p => if (p.2 =? parent_index)%nat then set_aggregates (agg_or_insert p.1 index) s else s)
             s (sc_aggregates parent) in
  Ok (if hide || bool_decide (parent_index ∈ sc_hidden parent) then set_hidden (fun h => {[index]} ∪ h) s else s).

Definition merge (scope s : Scope) : outcome Scope :=
  if bool_decide (sc_tables scope ∩ sc_tables s = ∅) then
    let offset := length (sc_columns s) in
    let s := set_tables (fun ts => sc_tables scope ∪ ts) s in
    let s := foldl (fun s label => add_column label s) s (sc_columns scope) in
    let s := foldl (fun s p => set_aggregates (agg_or_insert p.1 (p.2 + offset)) s) s (sc_aggregates scope) in
    Ok (set_hidden (fun h => h ∪ set_map (fun i => i + offset)%nat (sc_hidden scope)) s)
  else errinput "duplicate table name".

(** One projected column. *)
Definition project_column (parent : Scope) (child : Scope) (ea : AstExpression * option bytes) : outcome Scope :=
  let? label := match ea.2 with Some alias => Ok (Unqualified alias) | None => reference_label ea.1 parent end in
  let index := length (sc_columns child) in
  let child := add_column label child in
  Ok (if bool_decide (sc_aggregates parent = []) then child else set_aggregates (agg_or_insert ea.1 index) child).

(** [for x in l { s = f(s, x)? }] *)
Fixpoint try_foldl {S A} (f : S -> A -> outcome S) (s : S) (l : list A) : outcome S :=
  match l with
  | [] => Ok s
  | x :: l => let? s := f s x in try_foldl f s l
  end.

Definition project (expressions : list (AstExpression * option bytes)) (s : Scope) : outcome Scope :=
  try_foldl (project_column s) (spawn s) expressions.

(** [plan::invert_remap] *)
Definition invert_remap (targets : list (option nat)) : list (option nat) :=
  foldl (fun sources ft => match ft.2 with Some to => <[to := Some ft.1]> sources | None => sources end)
    (replicate (remap_size targets) None) (zip (seq 0 (length targets)) targets).

Definition scope_remap (targets : list (option nat)) (s : Scope) : outcome Scope :=
  try_foldl (fun child index => add_passthrough s index false child) (spawn s) (omap id (invert_remap targets)).

(** [remove_hidden] and the targets of [remap_hidden]; the scope is not used
    afterwards. *)
Fixpoint hidden_targets (hidden : gset nat) (old new : nat) (size : nat) : list (option nat) :=
  match size with
  | O => []
  | S size => if bool_decide (old ∈ hidden) then None :: hidden_targets hidden (S old) new size
              else Some new :: hidden_targets hidden (S old) (S new) size
  end.
Definition remap_hidden (s : Scope) : option (list (option nat)) :=
  if bool_decide (sc_hidden s = ∅) then None
  else Some (hidden_targets (sc_hidden s) 0 0 (length (sc_columns s))).

(** ** Expressions *)
Definition literal_value (l : Literal) : Value :=
  match l with
  | LNull => Null
  | LBoolean b => Boolean b
  | LInteger i => Integer i
  | LFloat f => Float f
  | LString s => String s
  end.

Fixpoint build_expression (s : Scope) (e : AstExpression) : outcome Expression :=
  match lookup_aggregate e s with
  | Some index => Ok (Column index)
  | None =>
      let build := build_expression s in
      match e with
      | EAll => errinput "unsupported use of *"
      | ELiteral l => Ok (Constant (literal_value l))
      | EColumn table name => let? i := lookup_column table name s in Ok (Column i)
      | EFunction name args =>
          match args with
          | [arg] => if bool_decide (name = name_of "sqrt") then let? a := build arg in Ok (SquareRoot a)
                     else errinput "unknown function with arguments"
          | _ => errinput "unknown function with arguments"
          end
      | EOperator op =>
          match op with
          | OAnd l r => let? l := build l in let? r := build r in Ok (And l r)
          | ONot e => let? e := build e in Ok (Not e)
          | OOr l r => let? l := build l in let? r := build r in Ok (Or l r)
          | OEqual l r => let? l := build l in let? r := build r in Ok (Equal l r)
          | OGreaterThan l r => let? l := build l in let? r := build r in Ok (GreaterThan l r)
          | OGreaterThanOrEqual l r =>
              let? l := build l in let? r := build r in Ok (Or (GreaterThan l r) (Equal l r))
          | OIs e literal =>
              let? e := build e in
              match literal with
              | LNull => Ok (Is e Null)
              | LFloat f => if f64_is_nan f then Ok (Is e (Float f)) else Panic "invalid IS value"
              | _ => Panic "invalid IS value"
              end
          | OLessThan l r => let? l := build l in let? r := build r in Ok (LessThan l r)
          | OLessThanOrEqual l r =>
              let? l := build l in let? r := build r in Ok (Or (LessThan l r) (Equal l r))
          | OLike l r => let? l := build l in let? r := build r in Ok (Like l r)
          | ONotEqual l r => let? l := build l in let? r := build r in Ok (Not (Equal l r))
          | OAdd l r => let? l := build l in let? r := build r in Ok (Add l r)
          | ODivide l r => let? l := build l in let? r := build r in Ok (Divide l r)
          | OExponentiate l r => let? l := build l in let? r := build r in Ok (Exponentiate l r)
          | OFactorial e => let? e := build e in Ok (Factorial e)
          | OIdentity e => let? e := build e in Ok (Identity e)
          | ORemainder l r => let? l := build l in let? r := build r in Ok (Remainder l r)
          | OMultiply l r => let? l := build l in let? r := build r in Ok (Multiply l r)
          | ONegate e => let? e := build e in Ok (Negate e)
          | OSubtract l r => let? l := build l in let? r := build r in Ok (Subtract l r)
          end
      end
  end.

(** [o.map(|e| build_expression(e, &scope)).transpose()?] *)
Definition build_optional (s : Scope) (o : option AstExpression) : outcome (option Expression) :=
  match o with Some e => outcome_map Some (build_expression s e) | None => Ok None end.

(** ** Aggregates *)
Definition is_aggregate_function (e : AstExpression) : bool :=
  match e with
  | EFunction name _ => bool_decide (name ∈ map name_of ["avg"; "count"; "max"; "min"; "sum"])
  | _ => false
  end.

Definition build_aggregate_function (s : Scope) (e : AstExpression) : outcome Aggregate :=
  match e with
  | EFunction name args =>
      match args with
      | [arg] =>
          if ast_contains is_aggregate_function arg then errinput "aggregate functions can't be nested"
          else
            let? expr := if bool_decide (name = name_of "count" /\ arg = EAll) then Ok (Constant (Boolean true))
                         else build_expression s arg in
            if bool_decide (name = name_of "avg") then Ok (Average expr)
            else if bool_decide (name = name_of "count") then Ok (Count expr)
            else if bool_decide (name = name_of "min") then Ok (Min expr)
            else if bool_decide (name = name_of "max") then Ok (Max expr)
            else if bool_decide (name = name_of "sum") then Ok (Sum expr)
            else errinput "unknown aggregate function"
      | _ => errinput "takes 1 argument"
      end
  | _ => Panic "aggregate expression must be function"
  end.

Definition collect_aggregates (select : list (AstExpression * option bytes)) (having : option AstExpression)
    (order_by : list (AstExpression * Direction)) : list AstExpression :=
  (select.*1 ++ option_list having ++ order_by.*1) ≫= ast_collect is_aggregate_function.

(** [exprs.retain(|e| child_scope.add_aggregate(e, scope).is_some())] *)
Fixpoint retain_aggregates (parent child : Scope) (exprs : list AstExpression) : outcome (list AstExpression * Scope) :=
  match exprs with
  | [] => Ok ([], child)
  | e :: exprs =>
      let? added := add_aggregate e parent child in
      let? rest := retain_aggregates parent added.2 exprs in
      Ok (if added.1 : bool then e :: rest.1 else rest.1, rest.2)
  end.

Definition build_aggregate (source : Node) (group_by aggregates : list AstExpression) (s : Scope) :
    outcome (Node * Scope) :=
  let? g := retain_aggregates s (spawn s) group_by in
  let? a := retain_aggregates s g.2 aggregates in
  let? group_by := try_collect (map (build_expression s) g.1) in
  let? aggregates := try_collect (map (build_aggregate_function s) a.1) in
  Ok (NAggregate source group_by aggregates, a.2).

(** ** Hidden columns *)
(** The visitor of [build_select_hidden]: the child scope and the hidden columns. *)
Definition hidden_visitor (s : Scope) (e : AstExpression) (st : outcome (Scope * list Expression)) :
    bool * outcome (Scope * list Expression) :=
  let pass index := let? st := st in
                    let? child := add_passthrough s index true st.1 in
                    Ok (child, st.2 ++ [Column index]) in
  match st with
  | Ok (child, _) =>
      match lookup_aggregate e s, lookup_aggregate e child with
      | Some index, None => (true, pass index)
      | _, _ =>
          match e with
          | EColumn table column =>
              match lookup_column table column child with
              | Ok _ => (true, st)
              | Err _ =>
                  match lookup_column table column s with
                  | Ok index => (true, pass index)
                  | Err _ => (true, st)
                  | Panic p => (false, Panic p)
                  end
              | Panic p => (false, Panic p)
              end
          | _ => (true, st)
          end
      end
  | _ => (false, st)
  end.

Definition build_select_hidden (having : option AstExpression) (order_by : list (AstExpression * Direction))
    (s child : Scope) : outcome (Scope * list Expression) :=
  foldl (fun st e => (ast_walk (hidden_visitor s) e st).2) (Ok (child, [])) (option_list having ++ order_by.*1).

(** ** Statements *)
Section Planner.
Context {T : Type} `{F64Pow, Regex, Transaction T} (t : T).

Definition build_constant_value (e : AstExpression) : outcome Value :=
  let? e := build_expression scope_new e in evaluate None e.

Definition build_column (c : AstColumn) : outcome Column_ :=
  let nullable := default (negb (ac_primary_key c)) (ac_nullable c) in
  let? dflt := match ac_default c with
               | Some e => outcome_map Some (build_constant_value e)
               | None => Ok (if nullable then Some Null else None)
               end in
  Ok (mkColumn (ac_name c) (ac_datatype c) nullable dflt (ac_unique c || ac_primary_key c)
        ((ac_index c || ac_unique c || bool_decide (is_Some (ac_references c))) && negb (ac_primary_key c))
        (ac_references c)).

(** [columns.iter().position(|c| c.primary_key)] *)
Fixpoint find_position {A} (f : A -> bool) (l : list A) : option nat :=
  match l with
  | [] => None
  | x :: l => if f x then Some 0%nat else S <$> find_position f l
  end.

Definition build_create_table (name : bytes) (cols : list AstColumn) : outcome Plan :=
  match find_position ac_primary_key cols with
  | None => errinput "no primary key for table"
  | Some pk =>
      if (1 <? length (List.filter ac_primary_key cols))%nat then errinput "multiple primary keys for table"
      else
        let? cols := try_collect (map build_column cols) in
        Ok (PCreateTable (mkTable name pk cols))
  end.

Definition build_delete (table : bytes) (where_clause : option AstExpression) : outcome Plan :=
  let? table := must_get_table table t in
  let? scope := from_table table in
  let? filter := build_optional scope where_clause in
  Ok (PDelete (table_name table) (primary_key table) (NScan table filter None)).

(** The [column_map] of an INSERT. *)
Fixpoint build_column_map (table : Table) (vindex : nat) (names : list bytes) (m : gmap nat nat) : outcome (gmap nat nat) :=
  match names with
  | [] => Ok m
  | name :: names =>
      match find_position (fun c => bool_decide (col_name c = name)) (columns table) with
      | None => errinput "unknown column in table"
      | Some cindex =>
          if bool_decide (is_Some (m !! cindex)) then errinput "column given multiple times"
          else build_column_map table (S vindex) names (<[cindex := vindex]> m)
      end
  end.

Definition build_insert (table : bytes) (cols : option (list bytes)) (values : list (list AstExpression)) : outcome Plan :=
  let? table := must_get_table table t in
  let? column_map := match cols with
                     | Some names => outcome_map Some (build_column_map table 0 names ∅)
                     | None => Ok None
                     end in
  let? rows := try_collect (map (fun row => try_collect (map (build_expression scope_new) row)) values) in
  Ok (PInsert table column_map (NValues rows)).

(** One assignment of an UPDATE. *)
Definition build_assignment (table : Table) (s : Scope) (ce : bytes * option AstExpression) : outcome (nat * Expression) :=
  let? index := lookup_column None ce.1 s in
  let? e := match ce.2 with
            | Some e => build_expression s e
            | None =>
                let? c := table_column table index in
                match col_default c with
                | Some v => Ok (Constant v)
                | None => errinput "column has no default value"
                end
            end in
  Ok (index, e).

Definition build_update (table : bytes) (set : list (bytes * option AstExpression)) (where_clause : option AstExpression) :
    outcome Plan :=
  let? table := must_get_table table t in
  let? scope := from_table table in
  let? filter := build_optional scope where_clause in
  let? expressions := try_collect (map (build_assignment table scope) set) in
  Ok (PUpdate table (primary_key table) (NScan table filter None) expressions).

(** Returns the node and the parent scope. *)
Fixpoint build_from (from : From_) (parent_scope : Scope) : outcome (Node * Scope) :=
  let? ns :=
    match from with
    | FTable name alias =>
        let? table := must_get_table name t in
        let? scope := add_table table alias scope_new in
        Ok (NScan table None alias, scope)
    | FJoin l r join_type predicate =>
        let? ls := match join_type with JRight => build_from r scope_new | _ => build_from l scope_new end in
        let? rs := match join_type with JRight => build_from l ls.2 | _ => build_from r ls.2 end in
        let scope := rs.2 in
        let left_size := node_columns ls.1 in
        let right_size := node_columns rs.1 in
        let? predicate := build_optional scope predicate in
        let node := NNestedLoopJoin ls.1 rs.1 predicate (is_outer join_type) in
        match join_type with
        | JRight =>
            let size := (left_size + right_size)%nat in
            let targets := map (fun i => Some ((i + right_size) mod size)%nat) (seq 0 size) in
            let? scope := scope_remap targets scope in
            Ok (NRemap node targets, scope)
        | _ => Ok (node, scope)
        end
    end in
  let? parent_scope := merge ns.2 parent_scope in
  Ok (ns.1, parent_scope).

(** The further items of a FROM clause, joined to the first. *)
Definition join_from (ns : Node * Scope) (from : From_) : outcome (Node * Scope) :=
  let? rs := build_from from ns.2 in
  Ok (NNestedLoopJoin ns.1 rs.1 None false, rs.2).

Definition build_from_clause (from : list From_) (s : Scope) : outcome (Node * Scope) :=
  match from with
  | [] => errinput "no from items given"
  | f :: from =>
      let? ns := build_from f s in
      try_foldl join_from ns from
  end.

(** [ast::Expression::from(label)] *)
Definition label_expression (l : Label) : outcome AstExpression :=
  match l with
  | Qualified table column => Ok (EColumn (Some table) column)
  | Unqualified column => Ok (EColumn None column)
  | NoLabel => Panic "can't convert None label to AST expression"
  end.

(** [SELECT *] expanded to the columns of the node. *)
Definition expand_all (node : Node) (ea : AstExpression * option bytes) : outcome (list (AstExpression * option bytes)) :=
  match ea.1 with
  | EAll => try_collect (map (fun i => let? l := column_label node i in
                                       let? e := label_expression l in Ok (e, None)) (seq 0 (node_columns node)))
  | _ => Ok [ea]
  end.

Definition expand_select (node : Node) (select : list (AstExpression * option bytes)) (group_by : list AstExpression) :
    outcome (list (AstExpression * option bytes)) :=
  if bool_decide ((EAll, None) ∈ select) then
    if (node_columns node =? 0)%nat then errinput "SELECT * requires a FROM clause"
    else if (1 <? length select)%nat || negb (bool_decide (group_by = [])) then
      outcome_map (@concat _) (try_collect (map (expand_all node) select))
    else Ok select
  else Ok select.

(** The projection of a SELECT. *)
Definition build_projection (select : list (AstExpression * option bytes)) (having : option AstExpression)
    (order_by : list (AstExpression * Direction)) (node : Node) (s : Scope) : outcome (Node * Scope) :=
  if bool_decide (select = [(EAll, None)]) then Ok (node, s)
  else
    let? child := project select s in
    let? expressions := try_collect (map (fun ea => build_expression s ea.1) select) in
    let aliases := map (fun ea => match ea.2 with Some n => Unqualified n | None => NoLabel end) select in
    let? hidden := build_select_hidden having order_by s child in
    Ok (NProjection node (expressions ++ hidden.2) (aliases ++ replicate (length hidden.2) NoLabel), hidden.1).

(** The value of an OFFSET or LIMIT clause. *)
Definition build_count (msg : string) (e : AstExpression) : outcome nat :=
  let? v := build_constant_value e in
  match v with
  | Integer i => if 0 <=? i then Ok (Z.to_nat i) else errinput msg
  | _ => errinput msg
  end.

Definition build_select (q : SelectStatement) : outcome Plan :=
  let? ns := match st_from q with
             | [] => Ok (NValues [[]], scope_new)
             | from => build_from_clause from scope_new
             end in
  let (node, scope) := (ns : Node * Scope) in
  let? select := expand_select node (st_select q) (st_group_by q) in
  let? filter := build_optional scope (st_where q) in
  let node := match filter with Some predicate => NFilter node predicate | None => node end in
  let aggregates := collect_aggregates select (st_having q) (st_order_by q) in
  let? ns := if bool_decide (st_group_by q = [] /\ aggregates = []) then Ok (node, scope)
             else build_aggregate node (st_group_by q) aggregates scope in
  let? ns := build_projection select (st_having q) (st_order_by q) ns.1 ns.2 in
  let (node, scope) := (ns : Node * Scope) in
  let? node := match st_having q with
               | None => Ok node
               | Some having =>
                   if bool_decide (sc_aggregates scope = []) then errinput "HAVING requires GROUP BY or aggregate function"
                   else let? predicate := build_expression scope having in Ok (NFilter node predicate)
               end in
  let? node := match st_order_by q with
               | [] => Ok node
               | order_by =>
                   let? key := try_collect (map (fun ed => outcome_map (fun e => (e, ed.2)) (build_expression scope ed.1)) order_by) in
                   Ok (NOrder node key)
               end in
  let? node := match st_offset q with
               | None => Ok node
               | Some e => let? k := build_count "invalid offset" e in Ok (NOffset node k)
               end in
  let? node := match st_limit q with
               | None => Ok node
               | Some e => let? k := build_count "invalid limit" e in Ok (NLimit node k)
               end in
  Ok (PSelect (match remap_hidden scope with Some targets => NRemap node targets | None => node end)).

Definition build (statement : Statement) : outcome Plan :=
  match statement with
  | SCreateTable name cols => build_create_table name cols
  | SDropTable name if_exists => Ok (PDropTable name if_exists)
  | SDelete table where_clause => build_delete table where_clause
  | SInsert table cols values => build_insert table cols values
  | SUpdate table set where_clause => build_update table set where_clause
  | SSelect q => build_select q
  | SBegin _ _ | SCommit | SRollback | SExplain _ => Panic "unexpected statement"
  end.
End Planner.
