(* ===== verification/SqlWf.v ===== *)
(** * Well-formed plans and their execution

    A plan is well formed if its column references stay within its sources and
    its other indexes within their ranges.  Executing a well-formed plan yields
    rows of the declared number of columns and does not panic, except for the
    overflow of an integer division or remainder ([i64::MIN / -1]), which the
    source leaves to the language. *)
From S2P Require Import Prelude Bytes Keycode KeycodeTheory Float64 SqlValue SqlValueTheory SqlExpr SqlExprTheory SqlPlan SqlExec SqlJoinTheory.

(** ** Outcomes that panic on overflow only *)
Definition overflow_panic (p : string) : Prop :=
  p = "attempt to divide with overflow"%string \/ p = "attempt to calculate the remainder with overflow"%string.

Definition tame {A} (o : outcome A) (P : A -> Prop) : Prop :=
  match o with Ok a => P a | Err _ => True | Panic p => overflow_panic p end.

Lemma tame_bind {A B} (o : outcome A) (k : A -> outcome B) P Q :
  tame o P -> (forall a, P a -> tame (k a) Q) -> tame (outcome_bind o k) Q.
Proof. destruct o; cbn; auto. Qed.
Lemma tame_mono {A} (o : outcome A) (P Q : A -> Prop) : tame o P -> (forall a, P a -> Q a) -> tame o Q.
Proof. destruct o; cbn; auto. Qed.
Lemma tame_map {A B} (o : outcome A) (f : A -> B) (P : A -> Prop) (Q : B -> Prop) :
  tame o P -> (forall a, P a -> Q (f a)) -> tame (outcome_map f o) Q.
Proof. destruct o; cbn; auto. Qed.
Lemma tame_err {A} e (P : A -> Prop) : tame (Err e) P.
Proof. exact I. Qed.
Lemma tame_errinput {A} e (P : A -> Prop) : tame (errinput e) P.
Proof. exact I. Qed.
Lemma safe_tame {A} (o : outcome A) P : safe o P -> tame o P.
Proof. destruct o; cbn; tauto. Qed.

Lemma tame_collect {A} (P : A -> Prop) (l : list (outcome A)) :
  Forall (fun o => tame o P) l -> tame (try_collect l) (fun r => Forall P r /\ length r = length l).
Proof.
  induction 1 as [|o l Ho _ IH]; cbn [try_collect]; [split; [constructor | reflexivity]|].
  eapply tame_bind; [exact Ho|]. intros a Ha. eapply tame_bind; [exact IH|]. intros r [Hr Hl]. cbn. split; [now constructor | lia].
Qed.

Lemma tame_collect_map {A B} (P : B -> Prop) (f : A -> outcome B) (l : list A) :
  Forall (fun x => tame (f x) P) l -> tame (try_collect (map f l)) (fun r => Forall P r /\ length r = length l).
Proof.
  intros Hl. eapply tame_mono; [apply tame_collect, Forall_fmap, Hl|]. intros r. now rewrite length_map.
Qed.

Create HintDb tame.
#[export] Hint Resolve tame_err tame_errinput : tame.

(** ** Expressions *)

(** The values IS can be used with: NULL and NAN. *)
Definition is_operand (v : Value) : bool :=
  match v with Null => true | Float f => f64_is_nan f | _ => false end.

(** Column references below [k]; [IS] with NULL or NAN only. *)
Fixpoint expr_wf (k : nat) (e : Expression) : Prop :=
  match e with
  | Constant _ => True
  | Column i => (i < k)%nat
  | Is x v => expr_wf k x /\ is_operand v = true
  | Not x | Factorial x | Identity x | Negate x | SquareRoot x => expr_wf k x
  | And l r | Or l r | Equal l r | GreaterThan l r | LessThan l r | Add l r | Divide l r | Exponentiate l r
  | Multiply l r | Remainder l r | Subtract l r | Like l r => expr_wf k l /\ expr_wf k r
  end.

(** What LIKE relies on: matching a regular expression does not panic. *)
Class RegexSpec `{Regex} : Prop := {
  regex_total p s : safe (regex_match p s) (fun _ => True);
}.

Section Evaluate.
Context `{F64Pow, RegexSpec}.

Lemma tame_int_or_overflow o : tame (int_or_overflow o) (fun _ => True).
Proof. now destruct o. Qed.
#[local] Hint Resolve tame_int_or_overflow : tame.

Lemma tame_checked_div a b : tame (checked_div a b) (fun _ => True).
Proof.
  destruct a, b; cbn; auto with tame. destruct (_ =? 0); [exact I|]. unfold i64_div. destruct (_ && _); [|exact I]. now left.
Qed.
Lemma tame_checked_rem a b : tame (checked_rem a b) (fun _ => True).
Proof.
  destruct a, b; cbn; auto with tame. destruct (_ =? 0); [exact I|]. unfold i64_rem. destruct (_ && _); [|exact I]. now right.
Qed.
Lemma tame_checked_pow a b : tame (checked_pow a b) (fun _ => True).
Proof.
  destruct a, b; cbn; auto with tame. destruct (0 <=? _); [|exact I]. destruct (try_into_u32 _); [apply tame_int_or_overflow | exact I].
Qed.
Lemma tame_checked_add a b : tame (checked_add a b) (fun _ => True).
Proof. destruct a, b; cbn; auto with tame. Qed.
Lemma tame_checked_sub a b : tame (checked_sub a b) (fun _ => True).
Proof. destruct a, b; cbn; auto with tame. Qed.
Lemma tame_checked_mul a b : tame (checked_mul a b) (fun _ => True).
Proof. destruct a, b; cbn; auto with tame. Qed.
Lemma tame_eval_factorial v : tame (eval_factorial v) (fun _ => True).
Proof.
  destruct v as [| |i| |]; try exact I. destruct (Z.le_gt_cases 0 i) as [Hi|Hi].
  - destruct (eval_factorial_exact i Hi) as [[_ ->]|[_ ->]]; exact I.
  - unfold eval_factorial. now rewrite (proj2 (Z.leb_gt 0 i) Hi).
Qed.
Lemma tame_eval_like a b : tame (eval_like a b) (fun _ => True).
Proof.
  destruct a, b; cbn; auto with tame. eapply tame_bind; [apply safe_tame, regex_total|]. intros []; exact (fun _ => I).
Qed.
Lemma tame_eval_binary (f : Value -> Value -> outcome Value) a b :
  In f [eval_and; eval_or; eval_equal; eval_greater_than; eval_less_than] -> tame (f a b) (fun _ => True).
Proof. intros [<-|[<-|[<-|[<-|[<-|[]]]]]]; destruct a as [|[]| | |], b as [|[]| | |]; exact I. Qed.
Lemma tame_eval_unary (f : Value -> outcome Value) a :
  In f [eval_not; eval_identity; eval_negate; eval_square_root] -> tame (f a) (fun _ => True).
Proof.
  intros [<-|[<-|[<-|[<-|[]]]]]; destruct a; try exact I. cbn. now destruct (0 <=? _).
Qed.

Lemma tame_eval_is o v : tame o (fun _ => True) -> is_operand v = true -> tame (eval_is o v) (fun _ => True).
Proof.
  intros Ho. destruct v as [| | |f|]; cbn [is_operand eval_is]; [|discriminate | discriminate| |discriminate].
  - intros _. eapply tame_bind; [exact Ho|]. intros; exact I.
  - intros ->. eapply tame_bind; [exact Ho|]. intros [] ?; exact I.
Qed.

(** Evaluation in a row that has the columns referred to. *)
Lemma tame_evaluate row e : expr_wf (length (default [] row)) e -> tame (evaluate row e) (fun _ => True).
Proof.
  induction e; cbn [expr_wf evaluate]; intros Hw; try destruct Hw as [Hl Hr];
    try (eapply tame_bind; [now auto|]; intros a _);
    try (eapply tame_bind; [now auto|]; intros b _);
    try (first [apply tame_eval_binary | apply tame_eval_unary]; cbn; tauto).
  all: try solve [ exact I | apply tame_checked_add | apply tame_checked_div | apply tame_checked_pow | apply tame_eval_factorial
    | apply tame_checked_mul | apply tame_checked_rem | apply tame_checked_sub | apply tame_eval_like ].
  - destruct row as [row|]; cbn in *; [|lia]. destruct (lookup_lt_is_Some_2 _ _ Hw) as [v ->]. exact I.
  - now apply tame_eval_is; [apply IHe|].
Qed.

Lemma tame_row (row : Row) e : expr_wf (length row) e -> tame (evaluate (Some row) e) (fun _ => True).
Proof. apply (tame_evaluate (Some row)). Qed.

Lemma tame_rows_evaluate (row : Row) es :
  Forall (expr_wf (length row)) es -> tame (try_collect (map (evaluate (Some row)) es)) (fun r => length r = length es).
Proof.
  intros Hes. eapply tame_mono; [eapply tame_collect_map, Forall_impl; [exact Hes | intros e; apply tame_row]|]. now intros r [_ ?].
Qed.
End Evaluate.

(** ** Nodes *)

(** The targets of a remap: one per source column, none used twice, none left
    out. *)
Definition targets_wf (width : nat) (targets : list (option nat)) : Prop :=
  length targets = width /\ Permutation (omap id targets) (seq 0 (remap_size targets)).

Section Nodes.
(** The tables of the catalog, and the values that may be looked up. *)
Context (tbl : Table -> Prop) (key : Value -> Prop).

Fixpoint node_wf (n : Node) : Prop :=
  match n with
  | NAggregate s group_by aggregates =>
      node_wf s /\ Forall (expr_wf (node_columns s)) group_by /\
      Forall (fun a => expr_wf (node_columns s) (aggregate_expr a)) aggregates
  | NFilter s predicate => node_wf s /\ expr_wf (node_columns s) predicate
  | NHashJoin l lc r rc _ => node_wf l /\ node_wf r /\ (lc < node_columns l)%nat /\ (rc < node_columns r)%nat
  | NIndexLookup table column values _ => tbl table /\ (column < length (columns table))%nat /\ Forall key values
  | NKeyLookup table keys _ => tbl table /\ Forall key keys
  | NLimit s _ | NOffset s _ => node_wf s
  | NNestedLoopJoin l r predicate _ =>
      node_wf l /\ node_wf r /\ from_option (expr_wf (node_columns l + node_columns r)) True predicate
  | NNothing _ => True
  | NOrder s keys => node_wf s /\ Forall (fun ed => expr_wf (node_columns s) ed.1) keys
  | NProjection s expressions aliases =>
      node_wf s /\ Forall (expr_wf (node_columns s)) expressions /\ length aliases = length expressions
  | NRemap s targets => node_wf s /\ targets_wf (node_columns s) targets
  | NScan table filter _ => tbl table /\ from_option (expr_wf (length (columns table))) True filter
  | NValues rows => Forall (fun row => Forall (expr_wf 0) row /\ length row = node_columns n) rows
  end.

(** A source that reads one table only, as those of UPDATE and DELETE. *)
Fixpoint table_source (tb : Table) (n : Node) : Prop :=
  match n with
  | NFilter s _ => table_source tb s
  | NScan tb' _ _ | NKeyLookup tb' _ _ | NIndexLookup tb' _ _ _ => tb' = tb
  | NNothing _ => True
  | _ => False
  end.

(** The source of an INSERT: its values, or nothing if there are none. *)
Definition values_source (n : Node) : Prop :=
  match n with
  | NValues rows => Forall (Forall (expr_wf 0)) rows
  | NNothing _ => True
  | _ => False
  end.

(** The statement plans: the modified columns and the primary key are columns of
    the table, and an INSERT maps columns of the table to distinct values. *)
Definition plan_wf (p : Plan) : Prop :=
  match p with
  | PCreateTable schema => (primary_key schema < length (columns schema))%nat
  | PDropTable name _ => utf8_valid name = true
  | PDelete table pk source =>
      exists tb, tbl tb /\ table_name tb = table /\ primary_key tb = pk /\ table_source tb source /\
        node_wf source /\ node_columns source = length (columns tb) /\ (pk < node_columns source)%nat
  | PInsert table column_map source =>
      tbl table /\ values_source source /\
      from_option (fun m => forall c v, m !! c = Some v -> (c < length (columns table))%nat /\ (v < base.size m)%nat) True column_map
  | PUpdate table pk source expressions =>
      tbl table /\ primary_key table = pk /\ table_source table source /\
      node_wf source /\ node_columns source = length (columns table) /\ (pk < node_columns source)%nat /\
      Forall (fun ie => (ie.1 < length (columns table))%nat /\ expr_wf (node_columns source) ie.2) expressions
  | PSelect root => node_wf root
  end.
End Nodes.

(** ** Execution *)
Definition rows_wf (width : nat) (rows : Rows) : Prop :=
  Forall (fun item => tame item (fun row => length row = width)) rows.

Section Execute.
Context {T : Type} `{F64Pow, RegexSpec, Transaction T}.

Definition in_catalog (t : T) (table : Table) : Prop :=
  utf8_valid (table_name table) = true /\ get_table (table_name table) t = Ok (Some table).

(** What execution relies on: reads of a table of the catalog yield rows of the
    table's columns, and do not panic; the keys of an index entry may be looked
    up. *)
Record reads_wf (key : Value -> Prop) (t : T) : Prop := {
  reads_scan table filter : in_catalog t table -> from_option (expr_wf (length (columns table))) True filter ->
    tame (txn_scan (table_name table) filter t) (rows_wf (length (columns table)));
  reads_get table keys : in_catalog t table -> Forall key keys ->
    tame (txn_get (table_name table) keys t) (Forall (fun r => length r = length (columns table)));
  reads_index table i c vs : in_catalog t table -> columns table !! i = Some c -> Forall key vs ->
    tame (txn_lookup_index (table_name table) (col_name c) vs t) (Forall key);
}.

Lemma rows_wf_ok width rows : Forall (fun r : Row => length r = width) rows -> rows_wf width (map Ok rows).
Proof. intros Hr. apply Forall_fmap. exact Hr. Qed.

Lemma tame_predicate msg p (row : Row) : expr_wf (length row) p -> tame (predicate_holds msg p row) (fun _ => True).
Proof. intros Hp. eapply tame_bind; [now apply tame_row|]. intros [|[]| | |] _; exact I. Qed.

Lemma filter_rows_wf width p rows : expr_wf width p -> rows_wf width rows -> rows_wf width (filter_rows p rows).
Proof.
  intros Hp. induction 1 as [|[row|e|q] rows Hi _ IH]; cbn [filter_rows]; try (constructor; [exact Hi | exact IH]); [constructor|].
  cbn in Hi. subst width. pose proof (tame_predicate "filter returned, expected boolean" p row Hp) as Ht.
  destruct (predicate_holds _ p row) as [[]|e|q]; try exact IH; constructor; try exact IH; cbn; auto.
Qed.

Lemma join_item_wf lw rw p (l : Row) item :
  length l = lw -> from_option (expr_wf (lw + rw)) True p -> tame item (fun row => length row = rw) ->
  rows_wf (lw + rw) (join_item p l item).
Proof.
  intros Hl Hp Hi. destruct item as [r|e|q]; cbn [join_item]; try (constructor; [exact Hi | constructor]).
  cbn in Hi. assert (length (l ++ r) = lw + rw)%nat as Hlr by (rewrite length_app; lia).
  destruct p as [p|]; [|constructor; [exact Hlr | constructor]]. cbn in Hp.
  pose proof (tame_predicate "join predicate returned, expected boolean" p (l ++ r)) as Ht. rewrite Hlr in Ht. specialize (Ht Hp).
  destruct (predicate_holds _ p (l ++ r)) as [[]|e|q]; first [constructor; [cbn; now auto | constructor] | constructor].
Qed.

Lemma null_row_wf lw rw (l : Row) : length l = lw -> tame (Ok (l ++ replicate rw Null)) (fun row : Row => length row = (lw + rw)%nat).
Proof. intros Hl. cbn. rewrite length_app, length_replicate. lia. Qed.

Lemma nested_loop_rows_wf lw rw p outer left right :
  from_option (expr_wf (lw + rw)) True p -> rows_wf lw left -> rows_wf rw right ->
  rows_wf (lw + rw) (nested_loop_rows left right rw p outer).
Proof.
  intros Hp Hl Hr. rewrite nested_loop_rows_eq. assert (forall rs, rows_wf rw rs -> forall m, rows_wf (lw + rw) (nl_rest right rw p outer left rs m)); [|auto].
  induction Hl as [|[l|e|q] left Hi _ IH]; intros rs Hrs m; cbn [nl_rest]; [constructor| |constructor; [exact Hi | now apply IH] ..].
  cbn in Hi. apply Forall_app. split; [|apply Forall_app; split; [|now apply IH]].
  - apply Forall_bind. eapply Forall_impl; [exact Hrs|]. intros item. now apply join_item_wf.
  - destruct (_ && _); constructor; [now apply null_row_wf | constructor].
Qed.

(** The rows of a hash table, and the size of its groups. *)
Definition groups_wf (width n : nat) (m : list (Value * list Row)) : Prop :=
  Forall (fun kr => Forall (fun r : Row => length r = width) kr.2) m /\ groups_bounded n m.

Lemma groups_wf_push width n k (row : Row) m : length row = width -> groups_wf width n m -> groups_wf width (S n) (hmap_push k row m).
Proof.
  intros Hr [Hm Hb]. split; [|now apply groups_bounded_push]. clear Hb. induction Hm as [|[k' rs] m Hk Hm IH]; cbn [hmap_push].
  - repeat constructor. exact Hr.
  - destruct (hash_key_eq k' k); constructor; auto. apply Forall_app. split; [exact Hk|]. now repeat constructor.
Qed.

Lemma groups_wf_get width n m v rs : groups_wf width n m -> hmap_get m v = Some rs ->
  Forall (fun r : Row => length r = width) rs /\ (1 <= length rs <= n)%nat.
Proof.
  intros [Hm Hb] E. split; [|now apply (groups_bounded_get n m v)]. clear Hb. revert E. induction Hm as [|[k l] m Hl _ IH]; [discriminate|].
  cbn [hmap_get]. destruct (hash_key_eq k v); [|exact IH]. now intros [= <-].
Qed.

Lemma tame_row_index (row : Row) i : (i < length row)%nat -> tame (row_index row i) (fun _ => True).
Proof. intros Hi. unfold row_index. destruct (lookup_lt_is_Some_2 _ _ Hi) as [v ->]. exact I. Qed.

Lemma hash_build_wf rw rc right : (rc < rw)%nat -> rows_wf rw right -> forall n m, groups_wf rw n m ->
  tame (hash_build rc right m) (groups_wf rw (n + length right)).
Proof.
  intros Hc. induction 1 as [|item right Hi _ IH]; intros n m Hm; cbn [hash_build length]; [now rewrite Nat.add_0_r|].
  eapply tame_bind; [exact Hi|]. intros row Hrow. eapply tame_bind; [apply tame_row_index; congruence|]. intros v _.
  rewrite <- Nat.add_succ_comm. apply IH. destruct (is_undefined v); [|now apply groups_wf_push].
  destruct Hm as [Hm Hb]. split; [exact Hm|]. eapply Forall_impl; [exact Hb | cbn; lia].
Qed.

Lemma hash_item_wf lw rw n lc m outer item : (lc < lw)%nat -> groups_wf rw n m -> tame item (fun row => length row = lw) ->
  rows_wf (lw + rw) (hash_item lc m rw outer item).
Proof.
  intros Hc Hm Hi. destruct item as [l|e|q]; cbn [hash_item]; try (constructor; [exact Hi | constructor]). cbn in Hi.
  pose proof (tame_row_index l lc) as Ht. destruct (row_index l lc) as [v|e|q]; try (constructor; [apply Ht; lia | constructor]).
  destruct (hmap_get m v) as [rs|] eqn:E.
  - destruct (groups_wf_get _ _ _ _ _ Hm E) as [Hrs _]. apply Forall_fmap. eapply Forall_impl; [exact Hrs|].
    cbn. intros r Hr. rewrite length_app. lia.
  - destruct outer; constructor; [now apply null_row_wf | constructor].
Qed.

Lemma hash_join_rows_wf lw rw lc rc outer left right :
  (lc < lw)%nat -> (rc < rw)%nat -> rows_wf lw left -> rows_wf rw right ->
  tame (hash_join_rows left lc right rc rw outer) (rows_wf (lw + rw)).
Proof.
  intros Hlc Hrc Hl Hr. unfold hash_join_rows, hash_joiner_new.
  eapply tame_bind; [eapply tame_bind; [apply (hash_build_wf rw rc right Hrc Hr 0 []); repeat constructor|]|].
  - intros m Hm. instantiate (1 := fun j => groups_wf rw (length right) (hj_right j) /\ hj_pending j = [] /\ hj_left j = left /\ hj_left_column j = lc /\ hj_right_columns j = rw). cbn. auto.
  - intros j (Hm & Ep & El & Ec & Ew). cbn [tame]. rewrite hash_drain.
    + rewrite Ep, El, Ec, Ew. cbn [app]. apply Forall_bind. eapply Forall_impl; [exact Hl|]. intros item Hi. now apply (hash_item_wf lw rw (length right)).
    + intros v E. destruct (groups_wf_get _ _ _ _ _ Hm E) as [_ Hn]. cbn in Hn. lia.
    + rewrite Ep, El. cbn [app]. unfold nl_fuel.
      pose proof (hash_items_length (hj_left_column j) (hj_right j) (length right) (hj_outer j) (hj_right_columns j) left) as Hn.
      specialize (Hn (fun v rs E => proj2 (proj2 (groups_wf_get _ _ _ v rs Hm E)))). nia.
Qed.

(** Buckets of [k] keys and [a] accumulators. *)
Definition buckets_wf (k a : nat) (b : list (list Value * list Accumulator)) : Prop :=
  Forall (fun ba => length ba.1 = k /\ length ba.2 = a) b.

Lemma buckets_wf_get k a b key accs : buckets_wf k a b -> omap_get values_cmp b key = Some accs -> length accs = a.
Proof.
  induction 1 as [|[key' accs'] b [_ Ha] _ IH]; cbn [omap_get]; [discriminate|].
  destruct (values_cmp key key'); [now intros [= <-] | discriminate | exact IH].
Qed.
Lemma buckets_wf_insert k a b key accs : length key = k -> length accs = a ->
  buckets_wf k a b -> buckets_wf k a (omap_insert values_cmp key accs b).
Proof.
  intros Hk Ha. induction 1 as [|[key' accs'] b [Hk' Ha'] Hb IH]; cbn [omap_insert]; [now repeat constructor|].
  destruct (values_cmp key key'); repeat constructor; auto.
Qed.

Lemma tame_accumulator_add acc v : tame (accumulator_add acc v) (fun _ => True).
Proof.
  unfold accumulator_add. destruct (value_eq v Null); [exact I|].
  destruct acc as [c s| |[m|]|[m|]|[s|]]; try exact I; (eapply tame_bind; [apply tame_checked_add|]; intros; exact I).
Qed.

Lemma tame_accumulate (row : Row) es : Forall (expr_wf (length row)) es -> forall accs, length accs = length es ->
  tame (accumulate row accs es) (fun r => length r = length es).
Proof.
  induction 1 as [|e es He _ IH]; intros [|acc accs] Hl; try discriminate; cbn [accumulate]; [reflexivity|].
  eapply tame_bind; [now apply tame_row|]. intros v _. eapply tame_bind; [apply tame_accumulator_add|]. intros acc' _.
  eapply tame_bind; [apply IH; now injection Hl|]. intros r Hr. cbn. now rewrite Hr.
Qed.

Definition aggregator_wf (width : nat) (g : list Expression) (a : list Aggregate) (x : Aggregator) : Prop :=
  agg_group_by x = g /\ agg_aggregates x = a /\ buckets_wf (length g) (length a) (agg_buckets x).

Lemma aggregator_add_rows_wf width g a rows x :
  Forall (expr_wf width) g -> Forall (fun b => expr_wf width (aggregate_expr b)) a -> rows_wf width rows ->
  aggregator_wf width g a x -> tame (aggregator_add_rows x rows) (aggregator_wf width g a).
Proof.
  intros Hg Ha Hr. revert x. induction Hr as [|item rows Hi _ IH]; intros x Hx; [exact Hx|]. cbn [aggregator_add_rows].
  eapply tame_bind; [exact Hi|]. intros row <-. eapply tame_bind; [|exact IH]. destruct Hx as (Eg & Ea & Hb). unfold aggregator_add.
  rewrite Eg, Ea. eapply tame_bind; [now apply tame_rows_evaluate|]. intros key Hk.
  eapply tame_bind; [apply tame_accumulate|].
  - apply Forall_fmap. exact Ha.
  - rewrite length_map. destruct (omap_get _ _ _) eqn:E; [now apply (buckets_wf_get _ _ _ _ _ Hb E) | apply length_map].
  - intros accs Hacc. rewrite length_map in Hacc. repeat split. cbn. now apply buckets_wf_insert.
Qed.

Lemma tame_accumulator_value acc : tame (accumulator_value acc) (fun _ => True).
Proof. destruct acc as [c s| |[m|]|[m|]|[s|]]; try exact I. cbn. destruct (c =? 0); [exact I | apply tame_checked_div]. Qed.

Lemma aggregator_into_rows_wf width g a x : aggregator_wf width g a x -> rows_wf (length a + length g) (aggregator_into_rows x).
Proof.
  intros (Eg & Ea & Hb). unfold aggregator_into_rows. rewrite Eg, Ea.
  assert (rows_wf (length a + length g) (map (fun ba => try_collect (map Ok ba.1 ++ map accumulator_value ba.2)) (agg_buckets x))) as Hrows.
  { apply Forall_fmap. eapply Forall_impl; [exact Hb|]. intros [key accs] [Hk Ha]. cbn in *.
    eapply tame_mono; [apply (tame_collect (fun _ => True))|intros r [_ Hr]; rewrite Hr, length_app, !length_map; lia].
    apply Forall_app. split; apply Forall_fmap, Forall_forall; [intros; exact I | intros; apply tame_accumulator_value]. }
  destruct (agg_buckets x), g; try exact Hrows. constructor; [|constructor].
  eapply tame_mono; [apply (tame_collect_map (fun _ => True))|intros r [_ Hr]; cbn; lia].
  apply Forall_forall. intros; apply tame_accumulator_value.
Qed.

Lemma Forall_sort_by {A} (P : A -> Prop) cmp l : Forall P l -> Forall P (sort_by cmp l).
Proof.
  assert (forall x r, P x -> Forall P r -> Forall P (sort_insert cmp x r)) as Hi.
  { intros x r Hx. induction 1; cbn [sort_insert]; [now repeat constructor|]. destruct (cmp x _); repeat constructor; auto. }
  induction 1; cbn [sort_by]; auto.
Qed.

Lemma order_wf width key rows : Forall (fun ed => expr_wf width ed.1) key -> rows_wf width rows ->
  tame (order rows key) (rows_wf width).
Proof.
  intros Hk Hr. unfold order. eapply tame_bind.
  - apply (tame_collect_map (fun rk : Row * list Value => length rk.1 = width)). eapply Forall_impl; [exact Hr|]. intros item Hi.
    eapply tame_bind; [exact Hi|]. intros row <-.
    apply (tame_bind _ _ (fun _ => True)); [|intros keys _; reflexivity].
    eapply tame_mono; [apply (tame_collect_map (fun _ => True))|auto]. eapply Forall_impl; [exact Hk|]. intros ed. apply tame_row.
  - intros r [Hw _]. apply Forall_fmap. now apply Forall_sort_by.
Qed.

Lemma remap_loop_wf targets : forall row remapped, length targets = length row ->
  tame (remap_loop targets row remapped) (fun r => length r = length remapped).
Proof.
  induction targets as [|t ts IH]; intros [|v row] remapped Hl; try discriminate; cbn [remap_loop]; [reflexivity|].
  injection Hl as Hl. eapply tame_mono; [now apply IH|]. intros r ->. destruct t; [apply length_insert | reflexivity].
Qed.

Lemma node_columns_pair l r p o : node_columns (NNestedLoopJoin l r p o) = (node_columns l + node_columns r)%nat.
Proof. reflexivity. Qed.

(** Execution of a node: rows of its width, no panics but overflows. *)
Lemma execute_node_wf key t n : reads_wf key t -> node_wf (in_catalog t) key n -> tame (execute_node n t) (rows_wf (node_columns n)).
Proof.
  intros Ht. induction n as [s IHs g a|s IHs p|l IHl lc r IHr rc o|tb c vs al|tb ks al|s IHs k|l IHl r IHr p o|cs|s IHs k|s IHs ob
    |s IHs es al|s IHs ts|tb f al|rows]; cbn [node_wf execute_node node_columns]; intros Hw.
  - destruct Hw as (Hs & Hg & Ha). eapply tame_bind; [now apply IHs|]. intros rows Hr.
    eapply tame_bind; [eapply (aggregator_add_rows_wf (node_columns s) g a); eauto; repeat constructor|].
    intros x Hx. now apply (aggregator_into_rows_wf (node_columns s)).
  - destruct Hw as [Hs Hp]. eapply tame_bind; [now apply IHs|]. intros rows Hr. now apply filter_rows_wf.
  - destruct Hw as (Hl & Hr & Hlc & Hrc). eapply tame_bind; [now apply IHl|]. intros lr Hlr. eapply tame_bind; [now apply IHr|].
    intros rr Hrr. now apply hash_join_rows_wf.
  - destruct Hw as (Hc & Hi & Hvs). destruct (lookup_lt_is_Some_2 _ _ Hi) as [col Ec]. rewrite Ec.
    eapply tame_bind; [now apply (reads_index key t Ht tb c)|]. intros ids Hids. eapply tame_bind; [now apply (reads_get key t Ht tb)|].
    intros rows. apply rows_wf_ok.
  - destruct Hw as [Hc Hks]. eapply tame_bind; [now apply (reads_get key t Ht tb)|]. intros rows. apply rows_wf_ok.
  - eapply tame_bind; [now apply IHs|]. intros rows Hr. now apply Forall_take.
  - destruct Hw as (Hl & Hr & Hp). eapply tame_bind; [now apply IHl|]. intros lr Hlr. eapply tame_bind; [now apply IHr|].
    intros rr Hrr. now apply nested_loop_rows_wf.
  - constructor.
  - eapply tame_bind; [now apply IHs|]. intros rows Hr. now apply Forall_drop.
  - destruct Hw as [Hs Hk]. eapply tame_bind; [now apply IHs|]. intros rows Hr. now apply order_wf.
  - destruct Hw as (Hs & He & _). eapply tame_bind; [now apply IHs|]. intros rows Hr. apply Forall_fmap. eapply Forall_impl; [exact Hr|].
    cbn. intros item Hi. eapply tame_bind; [exact Hi|]. intros row Hrow. apply tame_rows_evaluate. now rewrite Hrow.
  - destruct Hw as [Hs [Hl _]]. eapply tame_bind; [now apply IHs|]. intros rows Hr. apply Forall_fmap. eapply Forall_impl; [exact Hr|].
    cbn. intros item Hi. eapply tame_bind; [exact Hi|]. intros row Hrow.
    eapply tame_mono; [apply remap_loop_wf; congruence|]. intros x ->. apply length_replicate.
  - destruct Hw as [Hc Hf]. now apply (reads_scan key t Ht tb f).
  - cbn. apply Forall_fmap. eapply Forall_impl; [exact Hw|]. cbn. intros row [Hrow Hl].
    eapply tame_mono; [apply (tame_collect_map (fun _ => True)); eapply Forall_impl; [exact Hrow|]; intros e; apply (tame_evaluate None)|].
    intros x [_ ->]. exact Hl.
Qed.

(** The labels of a well-formed node. *)
Lemma column_label_wf tbl key n : node_wf tbl key n -> forall i, (i < node_columns n)%nat -> safe (column_label n i) (fun _ => True).
Proof.
  induction n as [s IHs g a|s IHs p|l IHl lc r IHr rc o|tb c vs al|tb ks al|s IHs k|l IHl r IHr p o|cs|s IHs k|s IHs ob
    |s IHs es al|s IHs ts|tb f al|rows]; cbn [node_wf column_label node_columns]; intros Hw i Hi; auto; try tauto;
    try (unfold table_column; destruct (lookup_lt_is_Some_2 _ _ Hi) as [c' ->]; exact I).
  - destruct Hw as (Hs & Hg & _). destruct (g !! i) as [[]|] eqn:E; try exact I. apply IHs; [exact Hs|].
    exact (Forall_lookup_1 _ _ _ _ Hg E).
  - apply IHs; tauto.
  - destruct (Nat.ltb_spec i (node_columns l)); [apply IHl | apply IHr]; (tauto || lia).
  - destruct (Nat.ltb_spec i (node_columns l)); [apply IHl | apply IHr]; (tauto || lia).
  - apply IHs; tauto.
  - destruct Hw as (Hs & He & _).
    assert (safe match es !! i with Some (Column j) => column_label s j | _ => Ok NoLabel end (fun _ => True)) as Hc.
    { destruct (es !! i) as [[]|] eqn:E; try exact I. apply IHs; [exact Hs|]. exact (Forall_lookup_1 _ _ _ _ He E). }
    destruct (al !! i) as [[]|]; try exact I; exact Hc.
  - destruct Hw as (Hs & Hl & _). destruct (position i ts) as [j|] eqn:E; [|exact I]. apply IHs; [exact Hs|]. rewrite <- Hl.
    clear -E. revert j E. induction ts as [|x ts IH]; [discriminate|]. cbn. intros j. case_bool_decide; [intros [= <-]; lia|].
    destruct (position i ts) as [k|]; [|discriminate]. intros [= <-]. specialize (IH k eq_refl). lia.
  - exact I.
Qed.

Lemma tame_st_bind {A B} (m : stM T A) (k : A -> stM T B) s P Q :
  tame (m s).1 P -> (forall a, P a -> m s = (Ok a, (m s).2) -> tame (k a (m s).2).1 Q) -> tame (st_bind m k s).1 Q.
Proof. unfold st_bind. destruct (m s) as [[a|e|p] s']; cbn; auto. Qed.

Lemma tame_row_nth (row : Row) i : (i < length row)%nat -> tame (row_nth row i) (fun _ => True).
Proof. intros Hi. unfold row_nth. destruct (lookup_lt_is_Some_2 _ _ Hi) as [v ->]. exact I. Qed.

Lemma insert_row_wf table m values :
  from_option (fun m => forall c v, m !! c = Some v -> (c < length (columns table))%nat /\ (v < base.size m)%nat) True m ->
  tame (insert_row table m values) (fun r => length r = length (columns table)).
Proof.
  intros Hm. unfold insert_row. destruct (_ && _) eqn:E1; [apply andb_true_iff in E1 as [?%Nat.eqb_eq _]; assumption|].
  destruct (_ <? _)%nat; [exact I|]. destruct (match m with Some _ => _ | None => _ end) eqn:E2; [exact I|].
  eapply tame_mono; [apply (tame_collect (fun _ => True))|intros r [_ ->]; apply length_imap].
  apply Forall_lookup. intros i o. rewrite list_lookup_imap. destruct (columns table !! i) as [c|]; [|discriminate]. intros [= <-].
  unfold insert_column. destruct m as [m|].
  - destruct (m !! i) as [vi|] eqn:Ei; [|destruct (col_default c); exact I]. apply negb_false_iff, Nat.eqb_eq in E2.
    apply tame_row_index. destruct (Hm i vi Ei) as [_ ?]. lia.
  - destruct (values !! i), (col_default c); exact I.
Qed.

Lemma update_row_wf (row : Row) width es : length row = width -> Forall (fun ie => (ie.1 < width)%nat /\ expr_wf width ie.2) es ->
  forall update : Row, length update = width -> tame (update_row row es update) (fun r => length r = width).
Proof.
  intros Hr. induction 1 as [|[c e] es [Hc He] _ IH]; intros update Hu; cbn [update_row]; [exact Hu|]. cbn in Hc, He.
  eapply tame_bind; [apply tame_row; now rewrite Hr|]. intros v _. rewrite (proj2 (Nat.ltb_lt c _)) by lia.
  apply IH. now rewrite length_insert.
Qed.

(** What a statement returns: a SELECT has one label per column, and rows of as
    many columns. *)
Definition result_wf (r : ExecutionResult) : Prop :=
  match r with RSelect cols rows => rows_wf (length cols) rows | _ => True end.

Lemma labels_wf tbl key n : node_wf tbl key n ->
  tame (try_collect (map (column_label n) (seq 0 (node_columns n)))) (fun r => length r = node_columns n).
Proof.
  intros Hw. eapply tame_mono; [apply (tame_collect_map (fun _ => True))|intros r [_ ->]; apply length_seq].
  apply Forall_forall. intros i Hi%elem_of_seq. apply safe_tame, (column_label_wf tbl key); [exact Hw | lia].
Qed.

Lemma execute_select_wf key t root : reads_wf key t -> node_wf (in_catalog t) key root -> tame (execute (PSelect root) t).1 result_wf.
Proof.
  intros Hr Hp. cbn [execute]. eapply tame_st_bind; [now apply (labels_wf (in_catalog t) key)|]. intros labels Hl _.
  eapply (tame_st_bind (st_read (execute_node root))); [now apply (execute_node_wf key)|]. cbn. intros rows Hrows _. now rewrite Hl.
Qed.
End Execute.
