(* ===== verification/SqlOptWf.v ===== *)
(** * The optimizers keep plans well formed

    Each optimizer turns a well-formed plan ([SqlWf]) into a well-formed plan of
    the same width, without a panic other than the overflow of an integer
    division that constant folding evaluates.  The exception is the rewriting of
    equijoins to hash joins, which needs the two columns to be on either side of
    the join: filter pushdown ensures it where filters can be pushed into both
    sources of a join, that is unless a source is the result of a RIGHT JOIN
    (see [hash_join_wrong_side]). *)
From S2P Require Import Prelude Bytes Keycode KeycodeTheory Float64 SqlValue SqlValueTheory SqlExpr SqlExprTheory SqlPlan SqlExec SqlJoinTheory SqlOptimizer SqlOptTheory SqlPushdown SqlIndexLookup SqlWf.

(** ** Expressions *)
Section Expressions.
Implicit Types e : Expression.

(** Well-formedness, node by node. *)
Definition expr_lwf (k : nat) e : Prop :=
  match e with Column i => (i < k)%nat | Is _ v => is_operand v = true | _ => True end.

Lemma expr_wf_children k e : expr_wf k e <-> expr_lwf k e /\ Forall (expr_wf k) (children e).
Proof. destruct e; cbn [expr_wf expr_lwf children]; rewrite ?Forall_cons, ?Forall_nil; tauto. Qed.

Lemma expr_wf_columns k e : expr_wf k e -> Forall (fun i => (i < k)%nat) (columns_of e).
Proof.
  induction e; cbn [expr_wf columns_of]; rewrite ?Forall_app, ?Forall_cons; try tauto; intros; decompose [and] H; auto.
Qed.

Lemma expr_wf_rename k k' g e :
  expr_wf k e -> Forall (fun i => (g i < k')%nat) (columns_of e) -> expr_wf k' (rename_columns g e).
Proof.
  induction e; cbn [expr_wf columns_of rename_columns]; rewrite ?Forall_app, ?Forall_cons; tauto.
Qed.
Lemma expr_wf_narrow k k' e : expr_wf k e -> Forall (fun i => (i < k')%nat) (columns_of e) -> expr_wf k' e.
Proof. intros He Hc. rewrite <- (rename_columns_id e). now apply (expr_wf_rename k). Qed.

Lemma map_children_wf k f e :
  expr_wf k e -> Forall (fun c => tame (f c) (expr_wf k)) (children e) -> tame (map_children f e) (expr_wf k).
Proof.
  destruct e; cbn [expr_wf children map_children]; rewrite ?Forall_cons, ?Forall_nil; intros Hw Hc; try exact Hw;
    decompose [and] Hc; repeat (eapply tame_bind; [eassumption|]; cbn beta; intros); cbn; tauto.
Qed.

Lemma transform_wf k before after :
  (forall e, expr_wf k e -> tame (before e) (fun e' => expr_wf k e' /\ smaller e e')) ->
  (forall e, expr_wf k e -> tame (after e) (expr_wf k)) ->
  forall fuel e, (size e <= fuel)%nat -> expr_wf k e -> tame (transform fuel before after e) (expr_wf k).
Proof.
  intros Hb Ha. induction fuel as [|fuel IH]; intros e Hf He; [pose proof (size_pos e); lia|]. cbn [transform].
  eapply tame_bind; [now apply Hb|]. intros e1 [He1 Hs]. eapply tame_bind; [|exact Ha].
  apply map_children_wf; [exact He1|]. apply Forall_forall. intros c Hc. apply expr_wf_children in He1 as [_ He1].
  rewrite Forall_forall in He1. apply IH; [|auto]. specialize (Hs c (proj1 (list_elem_of_In _ _) Hc)). lia.
Qed.

Lemma nnf_xform_wf k e : expr_wf k e -> expr_wf k (nnf_xform e).
Proof. destruct e as [| | | |x| | | | | | | | | | | | | | |]; auto. destruct x; cbn [nnf_xform expr_wf]; tauto. Qed.
Lemma cnf_xform_wf k e : expr_wf k e -> expr_wf k (cnf_xform e).
Proof.
  destruct (cnf_xform_cases e) as [->|[(l & r & rhs & -> & ->)|(lhs & l & r & -> & ->)]]; [auto|cbn [expr_wf]; tauto..].
Qed.

Lemma conjuncts_wf k e : expr_wf k e -> Forall (expr_wf k) (conjuncts e).
Proof.
  induction e; cbn [conjuncts]; rewrite ?Forall_app, ?Forall_cons, ?Forall_nil; cbn [expr_wf]; tauto.
Qed.

Lemma into_cnf_vec_wf k e : expr_wf k e -> exists cs, into_cnf_vec e = Ok cs /\ Forall (expr_wf k) cs.
Proof.
  intros He. destruct (into_cnf_total e) as [c Ec]. rewrite (into_cnf_vec_eq e c Ec). eexists. split; [reflexivity|].
  apply conjuncts_wf. assert (tame (into_cnf e) (expr_wf k)) as Ht; [|now rewrite Ec in Ht].
  unfold into_cnf, into_nnf. eapply tame_bind.
  - apply (transform_wf k); [|auto|reflexivity|exact He]. intros x Hx. split; [now apply nnf_xform_wf|apply nnf_xform_smaller].
  - intros x Hx. apply (transform_wf k); [|auto|reflexivity|exact Hx]. intros y Hy. split; [now apply cnf_xform_wf|apply cnf_xform_smaller].
Qed.

Lemma and_vec_wf k es : Forall (expr_wf k) es -> from_option (expr_wf k) True (and_vec es).
Proof.
  destruct es as [|e es]; [easy|]. rewrite Forall_cons. intros [He Hes]. cbn. revert e He.
  induction Hes as [|x es Hx _ IH]; intros e He; cbn; [exact He|]. apply IH. now split.
Qed.

Section Fold.
Context `{F64Pow, RegexSpec}.

Lemma fold_logical_wf k e : expr_wf k e -> expr_wf k (fold_logical e).
Proof.
  destruct e as [| |l r|l r| | | | | | | | | | | | | | | |]; try easy; cbn [expr_wf]; intros [Hl Hr].
  - destruct (fold_and_cases l r) as [->|[[-> _]|[[-> _]|[-> _]]]]; cbn; auto.
  - destruct (fold_or_cases l r) as [->|[[-> _]|[[-> _]|[-> _]]]]; cbn; auto.
Qed.

Lemma fold_wf k e : expr_wf k e -> tame (fold e) (expr_wf k).
Proof.
  intros He. unfold fold. destruct (contains is_column e) eqn:Ec; cbn [negb]; [now apply fold_logical_wf|].
  apply contains_column in Ec. apply (tame_map _ _ (fun _ => True)); [|easy]. apply (tame_evaluate None).
  apply (expr_wf_narrow k); [exact He|]. rewrite Ec. constructor.
Qed.

Lemma fold_expression_wf k e : expr_wf k e -> tame (fold_expression e) (expr_wf k).
Proof.
  intros He. apply (transform_wf k); [|apply fold_wf|reflexivity|exact He]. intros x Hx. split; [exact Hx|apply smaller_refl].
Qed.
End Fold.
End Expressions.

(** ** Nodes *)

(** A property of every node of a tree. *)
Fixpoint everywhere (P : Node -> Prop) (n : Node) : Prop :=
  P n /\
  match n with
  | NAggregate s _ _ | NFilter s _ | NLimit s _ | NOffset s _ | NOrder s _ | NProjection s _ _ | NRemap s _ => everywhere P s
  | NHashJoin l _ r _ _ | NNestedLoopJoin l r _ _ => everywhere P l /\ everywhere P r
  | NIndexLookup _ _ _ _ | NKeyLookup _ _ _ | NNothing _ | NScan _ _ _ | NValues _ => True
  end.

Lemma everywhere_sources P n : everywhere P n <-> P n /\ Forall (everywhere P) (sources n).
Proof. destruct n; cbn [everywhere sources]; rewrite ?Forall_cons, ?Forall_nil; tauto. Qed.
Lemma everywhere_here P n : everywhere P n -> P n.
Proof. now intros [? _]%everywhere_sources. Qed.
Lemma everywhere_mono (P Q : Node -> Prop) n : (forall n, P n -> Q n) -> everywhere P n -> everywhere Q n.
Proof. intros HPQ. induction n; cbn [everywhere]; intros; decompose [and] H; auto. Qed.

Lemma map_sources_sources f n n' : map_sources f n = Ok n' -> Forall2 (fun s s' => f s = Ok s') (sources n) (sources n').
Proof.
  destruct n; cbn [map_sources sources]; intros E;
    repeat match type of E with outcome_bind ?o _ = _ => destruct o eqn:?; cbn [outcome_bind] in E; [|discriminate E ..] end;
    injection E as <-; repeat constructor; assumption.
Qed.
Lemma map_sources_panic f n p : map_sources f n = Panic p -> Exists (fun s => f s = Panic p) (sources n).
Proof.
  destruct n; cbn [map_sources sources]; intros E;
    repeat match type of E with outcome_bind ?o _ = _ => destruct o eqn:?; cbn [outcome_bind] in E; try discriminate E end;
    try discriminate E; injection E as <-; auto.
Qed.

(** Transformations of trees.  [Rel] relates a tree to what it is replaced with. *)
Section Transform.
Context (Rel : Node -> Node -> Prop) `{!PreOrder Rel}.

(** [Q] is kept when the sources are replaced, and so is the relation. *)
Definition sourcewise (Q : Node -> Prop) : Prop := forall f n n',
  map_sources f n = Ok n' -> Forall (fun s => forall s', f s = Ok s' -> Rel s s') (sources n) -> Q n -> Q n' /\ Rel n n'.

Lemma map_sources_everywhere Q f n :
  sourcewise Q -> Q n -> Forall (fun s => tame (f s) (fun s' => everywhere Q s' /\ Rel s s')) (sources n) ->
  tame (map_sources f n) (fun n' => everywhere Q n' /\ Rel n n').
Proof.
  intros HQ Hn Hs. destruct (map_sources f n) as [n'|e|p] eqn:E; cbn; [|exact I|].
  - destruct (HQ f n n' E) as [Hn' Hr]; [|exact Hn|].
    { eapply Forall_impl; [exact Hs|]. intros s Hf s' Es. cbn beta in Hf. rewrite Es in Hf. apply Hf. }
    split; [|exact Hr]. apply everywhere_sources. split; [exact Hn'|]. pose proof (map_sources_sources f n n' E) as H2.
    revert Hs. induction H2 as [|s s' l l' Es _ IH]; rewrite ?Forall_cons; [constructor|]. intros [Hf Hl].
    split; [rewrite Es in Hf; apply Hf|auto].
  - apply map_sources_panic, Exists_exists in E as (s & Hin & Es). rewrite Forall_forall in Hs. specialize (Hs s Hin). cbn beta in Hs. now rewrite Es in Hs.
Qed.

Lemma transform_before_everywhere (P Q : Node -> Prop) (m : Node -> nat) before :
  sourcewise Q -> (forall n, (1 <= m n)%nat) ->
  (forall n, everywhere P n -> tame (before n) (fun n1 =>
     Rel n n1 /\ Q n1 /\ Forall (fun s => everywhere P s /\ (m s < m n)%nat) (sources n1))) ->
  forall fuel n, (m n <= fuel)%nat -> everywhere P n -> tame (node_transform fuel before Ok n) (fun n' => everywhere Q n' /\ Rel n n').
Proof.
  intros HQ Hm Hb. induction fuel as [|fuel IH]; intros n Hf Hn; [specialize (Hm n); lia|]. cbn [node_transform].
  eapply tame_bind; [exact (Hb n Hn)|]. intros n1 (Hr & Hq & Hs). eapply tame_bind.
  - apply (map_sources_everywhere Q); [exact HQ|exact Hq|]. eapply Forall_impl; [exact Hs|]. intros s [Hp Hlt]. apply IH; [lia|exact Hp].
  - intros n2 [H2 Hr2]. split; [exact H2|]. etransitivity; eassumption.
Qed.

Lemma transform_after_everywhere (Q : Node -> Prop) after :
  sourcewise Q -> (forall n, everywhere Q n -> tame (after n) (fun n' => everywhere Q n' /\ Rel n n')) ->
  forall fuel n, (node_size n <= fuel)%nat -> everywhere Q n -> tame (node_transform fuel Ok after n) (fun n' => everywhere Q n' /\ Rel n n').
Proof.
  intros HQ Ha. induction fuel as [|fuel IH]; intros n Hf Hn; [pose proof (node_size_pos n); lia|]. cbn [node_transform outcome_bind].
  apply everywhere_sources in Hn as [Hq Hs]. pose proof (sources_smaller n) as Hlt. eapply tame_bind.
  - apply (map_sources_everywhere Q); [exact HQ|exact Hq|]. rewrite Forall_forall in *. intros s Hin. apply IH; [|auto].
    specialize (Hlt s Hin). lia.
  - intros n1 [H1 Hr1]. eapply tame_mono; [exact (Ha n1 H1)|]. intros n2 [H2 Hr2]. split; [exact H2|]. etransitivity; eassumption.
Qed.
End Transform.

(** *** What is kept *)

(** Joins of tables, into which filters can be pushed. *)
Fixpoint join_tree (n : Node) : Prop :=
  match n with
  | NScan _ _ _ => True
  | NFilter s _ => join_tree s
  | NNestedLoopJoin l r _ _ => join_tree l /\ join_tree r
  | _ => False
  end.

(** The columns stay, and a source of one table stays one. *)
Definition kept (n n' : Node) : Prop :=
  node_columns n' = node_columns n /\ forall tb, table_source tb n -> table_source tb n'.
Definition kept_joins (n n' : Node) : Prop := kept n n' /\ (join_tree n -> join_tree n').
#[export] Instance kept_preorder : PreOrder kept.
Proof. split; [now split|]. intros a b c [C1 T1] [C2 T2]. split; [congruence|auto]. Qed.
#[export] Instance kept_joins_preorder : PreOrder kept_joins.
Proof. split; [now split|]. intros a b c [K1 J1] [K2 J2]. split; [etransitivity; eassumption|auto]. Qed.

(** Every join has join trees as its sources. *)
Definition joins_pushable (n : Node) : Prop :=
  match n with NNestedLoopJoin l r _ _ => join_tree l /\ join_tree r | _ => True end.
(** An equijoin has a column on either side. *)
Definition joins_sided (n : Node) : Prop :=
  match n with
  | NNestedLoopJoin l r (Some (Equal (Column a) (Column b))) _ => (Nat.min a b < node_columns l <= Nat.max a b)%nat
  | _ => True
  end.

Section Optimizers.
Context `{F64Pow, RegexSpec} (tbl : Table -> Prop).

(** Well-formedness, node by node. *)
Definition node_lwf (n : Node) : Prop :=
  match n with
  | NAggregate s group_by aggregates =>
      Forall (expr_wf (node_columns s)) group_by /\ Forall (fun a => expr_wf (node_columns s) (aggregate_expr a)) aggregates
  | NFilter s predicate => expr_wf (node_columns s) predicate
  | NHashJoin l lc r rc _ => (lc < node_columns l)%nat /\ (rc < node_columns r)%nat
  | NIndexLookup table column _ _ => tbl table /\ (column < length (columns table))%nat
  | NKeyLookup table _ _ => tbl table
  | NLimit _ _ | NOffset _ _ | NNothing _ => True
  | NNestedLoopJoin l r predicate _ => from_option (expr_wf (node_columns l + node_columns r)) True predicate
  | NOrder s keys => Forall (fun ed => expr_wf (node_columns s) ed.1) keys
  | NProjection s expressions aliases => Forall (expr_wf (node_columns s)) expressions /\ length aliases = length expressions
  | NRemap s targets => targets_wf (node_columns s) targets
  | NScan table filter _ => tbl table /\ from_option (expr_wf (length (columns table))) True filter
  | NValues rows => Forall (fun row => Forall (expr_wf 0) row /\ length row = node_columns n) rows
  end.
Abbreviation nwf := (node_wf tbl (fun _ => True)).

Lemma node_wf_everywhere n : nwf n <-> everywhere node_lwf n.
Proof.
  assert (forall vs : list Value, Forall (fun _ => True) vs) as Hany by (intros vs; now apply Forall_forall).
  induction n; cbn [node_wf everywhere node_lwf]; intuition auto.
Qed.

Ltac by_sources E Hs :=
  repeat match type of E with outcome_bind ?o _ = _ => destruct o eqn:?; cbn [outcome_bind] in E; [|discriminate E ..] end;
  injection E as <-; rewrite ?Forall_cons, ?Forall_nil in Hs; decompose [and] Hs; clear Hs;
  repeat match goal with Hr : forall s', ?o = Ok s' -> _, Eo : ?o = Ok _ |- _ => specialize (Hr _ Eo) end.

Lemma kept_sources f n n' :
  map_sources f n = Ok n' -> Forall (fun s => forall s', f s = Ok s' -> kept s s') (sources n) -> kept n n'.
Proof.
  destruct n; cbn [map_sources sources]; intros E Hs; by_sources E Hs; unfold kept in *; cbn [node_columns table_source];
    intuition congruence.
Qed.
Lemma node_lwf_sourcewise : sourcewise kept node_lwf.
Proof.
  intros f n n' E Hs Hn. split; [|eapply kept_sources; eassumption]. revert E Hs Hn.
  destruct n; cbn [map_sources sources]; intros E Hs Hn; by_sources E Hs; unfold kept in *; cbn [node_lwf node_columns] in *;
    repeat match goal with Hk : _ /\ (forall tb, _) |- _ => destruct Hk as [-> _] end; assumption.
Qed.

(** *** Constant folding *)
Definition foldable (n : Node) : Prop := node_lwf n /\ joins_pushable n.

Lemma foldable_sourcewise : sourcewise kept_joins foldable.
Proof.
  intros f n n' E Hs [Hn Hj].
  assert (Forall (fun s => forall s', f s = Ok s' -> kept s s') (sources n)) as Hk
    by (eapply Forall_impl; [exact Hs|]; intros s Hf s' Es; apply (Hf s' Es)).
  destruct (node_lwf_sourcewise f n n' E Hk Hn) as [Hn' Hr]. clear Hk Hn.
  enough (joins_pushable n' /\ (join_tree n -> join_tree n')) as [? ?] by (split; now split).
  clear Hr Hn'. revert E Hs Hj. destruct n; cbn [map_sources sources]; intros E Hs Hj; by_sources E Hs; unfold kept_joins in *;
    cbn [joins_pushable join_tree] in *; tauto.
Qed.

Lemma tame_collect_wf {A} (P Q : A -> Prop) (f : A -> outcome A) l :
  (forall x, P x -> tame (f x) Q) -> Forall P l -> tame (try_collect (map f l)) (fun l' => Forall Q l' /\ length l' = length l).
Proof. intros Hf Hl. apply tame_collect_map. eapply Forall_impl; [exact Hl|]. auto. Qed.

Lemma fold_values_wf w rows :
  Forall (fun row => Forall (expr_wf 0) row /\ length row = w) rows ->
  tame (try_collect (map (fun row => try_collect (map fold_expression row)) rows))
    (fun rows' => Forall (fun row => Forall (expr_wf 0) row /\ length row = w) rows' /\ length rows' = length rows).
Proof.
  set (good := fun row => Forall (expr_wf 0) row /\ length row = w). apply (tame_collect_wf good good). intros row [Hr <-].
  apply (tame_collect_wf (expr_wf 0) (expr_wf 0)); [|exact Hr]. intros e. apply fold_expression_wf.
Qed.

Lemma fold_node_wf n : foldable n ->
  tame (transform_expressions fold_expression n) (fun n1 => kept_joins n n1 /\ foldable n1 /\ sources n1 = sources n).
Proof.
  assert (forall n, foldable n -> kept_joins n n /\ foldable n /\ sources n = sources n) as Hsame by (intros m Hm; split; [reflexivity|now split]).
  intros [Hn Hj]. destruct n as [| | | | | |l r [p|] o| | |s keys|s es al| |tb [f|] al|rows]; try (now apply Hsame);
    cbn [transform_expressions node_lwf from_option] in *.
  - eapply tame_bind; [exact (fold_expression_wf _ _ Hn)|]. intros p Hp. now repeat split.
  - eapply tame_bind; [exact (fold_expression_wf _ _ Hn)|]. intros p' Hp. cbn in Hj. repeat split; cbn; tauto.
  - eapply tame_bind; [apply (tame_collect_wf (fun ed => expr_wf (node_columns s) ed.1) (fun ed => expr_wf (node_columns s) ed.1))|].
    + intros ed He. eapply tame_map; [exact (fold_expression_wf _ _ He)|]. easy.
    + exact Hn.
    + intros keys' [Hk _]. now repeat split.
  - destruct Hn as [He Ha]. eapply tame_bind; [apply (tame_collect_wf (expr_wf (node_columns s)) (expr_wf (node_columns s))); [intros e; apply fold_expression_wf|exact He]|].
    intros es' [He' Hl]. repeat split; cbn; try easy; congruence.
  - eapply tame_bind; [exact (fold_expression_wf _ _ (proj2 Hn))|]. intros p Hp. now repeat split.
  - eapply tame_bind; [now apply (fold_values_wf (node_columns (NValues rows)))|]. intros rows' [Hr Hl].
    assert (node_columns (NValues rows') = node_columns (NValues rows)) as Hc.
    { destruct rows as [|x rows], rows' as [|y rows']; try discriminate; [reflexivity|]. apply Forall_cons in Hr as [[_ Hr] _]. exact Hr. }
    repeat split; [exact Hc|easy|easy|]. cbn [node_lwf]. now rewrite Hc.
Qed.

Lemma constant_folding_wf n : everywhere foldable n -> tame (constant_folding n) (fun n' => everywhere foldable n' /\ kept_joins n n').
Proof.
  intros Hn. apply (transform_before_everywhere kept_joins foldable foldable node_size);
    [exact foldable_sourcewise|exact node_size_pos| |reflexivity|exact Hn].
  intros x [Hx Hs]%everywhere_sources. eapply tame_mono; [now apply fold_node_wf|]. intros x1 (Hk & Hq & ->).
  split; [exact Hk|]. split; [exact Hq|]. pose proof (sources_smaller x) as Hlt. rewrite Forall_forall in *. auto.
Qed.

(** *** Filter pushdown *)
Definition sided (n : Node) : Prop := node_lwf n /\ joins_sided n.

Lemma sided_sourcewise : sourcewise kept sided.
Proof.
  intros f n n' E Hs [Hn Hj]. destruct (node_lwf_sourcewise f n n' E Hs Hn) as [Hn' Hr]. split; [|exact Hr]. split; [exact Hn'|].
  clear Hn Hn' Hr. revert E Hs Hj. destruct n; cbn [map_sources sources]; intros E Hs Hj; by_sources E Hs; try exact I.
  unfold kept in *. cbn [joins_sided] in *. repeat match goal with Hk : _ /\ (forall tb, _) |- _ => destruct Hk as [-> _] end. exact Hj.
Qed.

(** A filter is pushed into a node, which stays as it is otherwise. *)
Lemma push_into_wf e n :
  everywhere foldable n -> expr_wf (node_columns n) e ->
  (push_into e n = (Some e, n) /\ ~ join_tree n) \/
  exists n', push_into e n = (None, n') /\ everywhere foldable n' /\ kept_joins n n' /\ node_size n' = node_size n.
Proof.
  intros Hn He. destruct n as [| s p | | | | | l r p o | | | | | | tb p al |];
    try (left; split; [reflexivity|now intros []]); right; cbn [push_into].
  - destruct Hn as [[Hn Hj] Hs]. eexists. split; [reflexivity|]. now repeat split.
  - destruct Hn as [[Hn Hj] Hs]. eexists. split; [reflexivity|]. repeat split; cbn in *; try tauto. destruct p; cbn; auto.
  - destruct Hn as [[Hn Hj] Hs]. eexists. split; [reflexivity|]. repeat split; cbn in *; try tauto. destruct p; cbn; tauto.
Qed.

Definition operands_ok (e : Expression) : Prop := exists k, expr_wf k e.
Lemma operands_ok_rename g e : operands_ok e -> operands_ok (rename_columns g e).
Proof.
  intros [k He]. exists (S (list_max (g <$> columns_of e))). apply (expr_wf_rename k); [exact He|].
  pose proof (proj1 (list_max_le (g <$> columns_of e) _) (le_n _)) as Hm. rewrite Forall_fmap in Hm.
  eapply Forall_impl; [exact Hm|]. cbn. lia.
Qed.
Lemma operands_ok_wf k e : operands_ok e -> Forall (fun i => (i < k)%nat) (columns_of e) -> expr_wf k e.
Proof. intros [k' He]. now apply (expr_wf_narrow k'). Qed.

(** The three parts of a join predicate. *)
Lemma split_join_wf w wr p :
  expr_wf (w + wr) p ->
  exists cs pl pr, into_cnf_vec p = Ok cs /\
    let '(pl0, pr0, pp) := foldl (split_conjunct w) ([], [], []) cs in
    copy_lookups (column_lookups pl0) (column_lookups pr0) pp pl0 pr0 = Ok (pl, pr) /\
    Forall (expr_wf w) pl /\
    Forall (fun e => expr_wf (w + wr) e /\ Forall (fun i => (w <= i)%nat) (columns_of e)) pr /\
    Forall (fun e => expr_wf (w + wr) e /\ refs_left w e && refs_right w e = true) pp.
Proof.
  intros Hp. destruct (into_cnf_vec_wf _ p Hp) as (cs & Ecs & Hcs). exists cs. rewrite split_conjuncts_eq. unfold split_of.
  set (pl := List.filter (fun e => negb (refs_right w e)) cs). set (pr := List.filter (fun e => negb (refs_left w e)) cs).
  set (pp := List.filter (fun e => refs_left w e && refs_right w e) cs).
  destruct (copy_lookups_spec w (column_lookups pl) (column_lookups pr) pp pl pr) as (pl' & pr' & Ec & [_ _ F1 F2 Fc _ Fk]);
    [apply column_lookups_ok .. | apply Forall_filter_test |].
  exists pl', pr'. split; [exact Ecs|]. split; [exact Ec|].
  assert (forall l, Forall (expr_wf (w + wr)) l -> Forall (fun e => Forall (fun i => (i < w + wr)%nat) (columns_of e)) l) as Hcols
    by (intros l Hl; eapply Forall_impl; [exact Hl|]; intros e; apply expr_wf_columns).
  assert (Forall (expr_wf (w + wr)) pl /\ Forall (expr_wf (w + wr)) pr /\ Forall (expr_wf (w + wr)) pp) as (Wl & Wr & Wp)
    by (split; [|split]; now apply Forall_filter_keep).
  destruct (Fc (fun i => (i < w + wr)%nat) (Hcols _ Wp) (Hcols _ Wl) (Hcols _ Wr)) as [Cl Cr].
  assert (forall l, Forall (expr_wf (w + wr)) l -> Forall operands_ok l) as Hops
    by (intros l Hl; eapply Forall_impl; [exact Hl|]; intros e He; now exists (w + wr)%nat).
  destruct (Fk operands_ok operands_ok_rename (Hops _ Wl) (Hops _ Wr)) as [Kl Kr].
  split; [|split].
  - eapply Forall_both; [|exact Kl|apply F1; eapply Forall_impl; [apply Forall_filter_test|intros e; apply negb_true_iff]].
    cbn beta. intros e Hk Hr. apply operands_ok_wf; [exact Hk|]. now apply refs_right_false.
  - assert (Forall (fun e => refs_left w e = false) pr') as Hr
      by (apply F2; eapply Forall_impl; [apply Forall_filter_test|intros e; apply negb_true_iff]).
    rewrite Forall_forall in *. intros e He. split; [apply operands_ok_wf; auto|]. now apply refs_left_false, Hr.
  - eapply Forall_both; [|exact Wp|apply Forall_filter_test]. now split.
Qed.

(** A node after a push: as before, no larger, and with sided equijoins. *)
Definition pushed_ok (n n1 : Node) : Prop :=
  kept n n1 /\ everywhere foldable n1 /\ joins_sided n1 /\ (node_size n1 <= node_size n)%nat.

Lemma and_vec_equal es a b : and_vec es = Some (Equal (Column a) (Column b)) -> es = [Equal (Column a) (Column b)].
Proof.
  destruct es as [|e es]; [discriminate|]. cbn. revert e. induction es as [|x es IH]; intros e; cbn; [now intros [= ->]|].
  intros E. specialize (IH _ E). discriminate.
Qed.

Lemma push_left_wf es l pp :
  everywhere foldable l -> join_tree l -> Forall (expr_wf (node_columns l)) es ->
  exists l', match and_vec es with
    | None => (l, pp)
    | Some e => match push_into e l with (Some e, l) => (l, pp ++ [e]) | (None, l) => (l, pp) end
    end = (l', pp) /\ everywhere foldable l' /\ kept_joins l l' /\ node_size l' = node_size l.
Proof.
  intros Hl Hj Hes. pose proof (and_vec_wf _ _ Hes) as He. destruct (and_vec es) as [e|]; [|exists l; now repeat split].
  destruct (push_into_wf e l Hl He) as [[_ F]|(l' & -> & Hl' & Hk & Hs)]; [easy|]. now exists l'.
Qed.

Lemma u64_le z : 0 <= z -> 0 <= u64 z <= z.
Proof. intros Hz. split; [apply u64_range|]. unfold u64, wrap_u. apply Z.mod_le; lia. Qed.

Lemma shift_wf (w wr : nat) e :
  expr_wf (w + wr) e -> Forall (fun i => (w <= i)%nat) (columns_of e) ->
  exists e', shift_column (- Z.of_nat w) e = Ok e' /\ expr_wf wr e'.
Proof.
  intros He Hc. rewrite shift_column_eq. eexists. split; [reflexivity|]. apply (expr_wf_rename (w + wr)); [exact He|].
  eapply Forall_both; [|exact Hc|exact (expr_wf_columns _ _ He)]. cbn beta. intros j Hj Hlt.
  pose proof (u64_le (Z.of_nat j + - Z.of_nat w) ltac:(lia)). lia.
Qed.

Lemma and_vec_columns_wf w wr es e :
  Forall (fun e => expr_wf (w + wr) e /\ Forall (fun i => (w <= i)%nat) (columns_of e)) es -> and_vec es = Some e ->
  expr_wf (w + wr) e /\ Forall (fun i => (w <= i)%nat) (columns_of e).
Proof.
  intros Hes Ee. split.
  - assert (from_option (expr_wf (w + wr)) True (and_vec es)) as Hw by (apply and_vec_wf; eapply Forall_impl; [exact Hes|now intros ? []]).
    now rewrite Ee in Hw.
  - eapply and_vec_columns; [|exact Ee]. eapply Forall_impl; [exact Hes|now intros ? []].
Qed.

Lemma push_right_wf es (w : nat) r pp :
  everywhere foldable r -> join_tree r ->
  Forall (fun e => expr_wf (w + node_columns r) e /\ Forall (fun i => (w <= i)%nat) (columns_of e)) es ->
  exists r', match and_vec es with
    | None => Ok (r, pp)
    | Some e =>
        let? e := shift_column (- Z.of_nat w) e in
        match push_into e r with
        | (Some e, r) => let? e := shift_column (Z.of_nat w) e in Ok (r, pp ++ [e])
        | (None, r) => Ok (r, pp)
        end
    end = Ok (r', pp) /\ everywhere foldable r' /\ kept_joins r r' /\ node_size r' = node_size r.
Proof.
  intros Hr Hj Hes. destruct (and_vec es) as [e|] eqn:Ee; [|exists r; now repeat split].
  destruct (and_vec_columns_wf _ _ _ _ Hes Ee) as [He Hc]. destruct (shift_wf _ _ _ He Hc) as (e' & -> & He'). cbn [outcome_bind].
  destruct (push_into_wf e' r Hr He') as [[_ F]|(r' & -> & Hr' & Hk & Hs)]; [easy|]. now exists r'.
Qed.

Lemma maybe_push_join_wf n : everywhere foldable n -> exists n1, maybe_push_join n = Ok n1 /\ pushed_ok n n1.
Proof.
  intros Hn. assert (joins_sided n -> pushed_ok n n) as Hsame by (intros Hs; split; [reflexivity|]; now repeat split).
  destruct n as [| | | | | |l r [p|] o| | | | | | |]; try (eexists; split; [reflexivity|now apply Hsame]).
  clear Hsame. destruct Hn as [[Hp [Jl Jr]] [Hl Hr]]. cbn [node_lwf from_option] in Hp. cbn [maybe_push_join].
  destruct (split_join_wf _ _ p Hp) as (cs & pl & pr & -> & Hsplit). cbn [outcome_bind].
  destruct (foldl (split_conjunct (node_columns l)) ([], [], []) cs) as [[pl0 pr0] pp]. destruct Hsplit as (-> & Wl & Wr & Wp). cbn [outcome_bind].
  destruct (push_left_wf pl l pp Hl Jl Wl) as (l' & -> & Hl' & [[Cl Tl] Jl'] & Sl). rewrite Cl.
  destruct (push_right_wf pr (node_columns l) r pp Hr Jr Wr) as (r' & -> & Hr' & [[Cr Tr] Jr'] & Sr). cbn [outcome_bind fst snd].
  eexists. split; [reflexivity|]. split; [split; [cbn; lia|now intros tb []]|].
  assert (from_option (expr_wf (node_columns l' + node_columns r')) True (and_vec pp)) as Hpp
    by (rewrite Cl, Cr; apply and_vec_wf; eapply Forall_impl; [exact Wp|now intros ? []]).
  split; [split; [split; [exact Hpp|split; auto]|now split]|]. split; [|cbn; lia].
  cbn [joins_sided]. destruct (and_vec pp) as [[| | | | |[] []| | | | | | | | | | | | | |]|] eqn:Ep; try exact I.
  rewrite Cl. apply and_vec_equal in Ep. rewrite Ep in Wp. apply Forall_cons in Wp as [[_ Hrefs] _]. now apply min_max_columns.
Qed.

Lemma pushed_trans n n1 n2 : kept n n1 -> (node_size n1 <= node_size n)%nat -> pushed_ok n1 n2 -> pushed_ok n n2.
Proof. intros K1 S1 (K2 & H2 & J2 & S2). split; [etransitivity; eassumption|]. split; [exact H2|]. split; [exact J2|lia]. Qed.

Lemma push_filters_wf fuel : forall n, (node_size n <= fuel)%nat -> everywhere foldable n ->
  exists n1, push_filters fuel n = Ok n1 /\ pushed_ok n n1.
Proof.
  induction fuel as [|fuel IH]; intros n Hf Hn; [pose proof (node_size_pos n); lia|]. cbn [push_filters].
  assert (forall n1, pushed_ok n n1 -> exists n2, (let? m := Ok n1 in maybe_push_join m) = Ok n2 /\ pushed_ok n n2) as Hdone.
  { intros n1 (K & He & J & Sz). cbn [outcome_bind]. destruct (maybe_push_join_wf n1 He) as (n2 & -> & Hp). exists n2. split; [reflexivity|].
    now apply (pushed_trans n n1). }
  assert (exists n2, (let? m := Ok n in maybe_push_join m) = Ok n2 /\ pushed_ok n n2) as Hsame
    by (cbn [outcome_bind]; exact (maybe_push_join_wf n Hn)).
  destruct n as [|s p| | | | | | | | | | | |]; try exact Hsame. destruct Hn as [[Hp _] Hs]. cbn [node_lwf node_size] in *.
  destruct (push_into_wf p s Hs Hp) as [[-> _]|(s' & -> & Hs' & [Hk _] & Hz)]; [exact Hsame|].
  destruct (IH s') as (n1 & -> & Hn1); [lia|exact Hs'|]. apply Hdone. apply (pushed_trans _ s'); [exact Hk|cbn; lia|exact Hn1].
Qed.

Lemma filter_pushdown_wf n : everywhere foldable n -> tame (filter_pushdown n) (fun n' => everywhere sided n' /\ kept n n').
Proof.
  intros Hn. apply (transform_before_everywhere kept foldable sided node_size);
    [exact sided_sourcewise|exact node_size_pos| |reflexivity|exact Hn].
  intros x Hx. destruct (push_filters_wf (node_size x) x (le_n _) Hx) as (x1 & -> & Hk & He & Hj & Hz). cbn [tame].
  apply everywhere_sources in He as [[Hl _] Hs]. split; [exact Hk|]. split; [now split|].
  pose proof (sources_smaller x1) as Hlt. rewrite Forall_forall in *. intros y Hy. specialize (Hlt y Hy). split; [auto|lia].
Qed.

(** *** Index lookups *)
Fixpoint lookup_depth (n : Node) : nat :=
  match n with
  | NAggregate s _ _ | NFilter s _ | NLimit s _ | NOffset s _ | NOrder s _ | NProjection s _ _ | NRemap s _ => S (lookup_depth s)
  | NHashJoin l _ r _ _ | NNestedLoopJoin l r _ _ => S (Nat.max (lookup_depth l) (lookup_depth r))
  | NScan _ _ _ => 2
  | NIndexLookup _ _ _ _ | NKeyLookup _ _ _ | NNothing _ | NValues _ => 1
  end.
Lemma lookup_depth_pos n : (1 <= lookup_depth n)%nat.
Proof. destruct n; cbn [lookup_depth]; lia. Qed.
Lemma lookup_depth_size n : (lookup_depth n <= S (node_size n))%nat.
Proof. induction n; cbn [lookup_depth node_size]; lia. Qed.
Lemma lookup_depth_sources n : Forall (fun s => (lookup_depth s < lookup_depth n)%nat) (sources n).
Proof. destruct n; cbn [sources lookup_depth]; rewrite ?Forall_cons, ?Forall_nil; repeat split; lia. Qed.

Lemma find_lookup_total tb cs : Forall (expr_wf (length (columns tb))) cs -> forall k, exists o, find_lookup tb k cs = Ok o.
Proof.
  induction 1 as [|e cs He _ IH]; intros k; cbn [find_lookup]; [eauto|]. destruct (is_column_lookup e) as [c|] eqn:Ec; [|apply IH].
  destruct (c =? primary_key tb)%nat; [eauto|].
  assert (c < length (columns tb))%nat as Hc.
  { pose proof (expr_wf_columns _ _ He) as Hcols. pose proof (lookup_columns e c Ec) as Hl. assert (columns_of e <> []) as Hne.
    { clear -Ec. revert c Ec. induction e as [| | |l IHl r _| |l _ r _| | |x _ v| | | | | | | | | | |]; intros c; cbn [is_column_lookup columns_of]; try discriminate.
      - destruct (is_column_lookup l) as [cl|]; [|discriminate]. intros _ E%app_nil. now apply (IHl cl).
      - destruct l, r; try discriminate; intros _; discriminate.
      - destruct x; discriminate. }
    destruct (columns_of e) as [|x xs]; [easy|]. apply Forall_cons in Hcols as [Hx _]. apply Forall_cons in Hl as [-> _]. exact Hx. }
  unfold table_column. destruct (lookup_lt_is_Some_2 _ _ Hc) as [col ->]. cbn [outcome_bind]. destruct (col_index col); [eauto|apply IH].
Qed.

Lemma index_lookup_wf n : everywhere sided n ->
  exists n1, index_lookup n = Ok n1 /\ kept n n1 /\ sided n1 /\
    Forall (fun s => everywhere sided s /\ (lookup_depth s < lookup_depth n)%nat) (sources n1).
Proof.
  intros Hn. assert (exists n1, Ok n = Ok n1 /\ kept n n1 /\ sided n1 /\
    Forall (fun s => everywhere sided s /\ (lookup_depth s < lookup_depth n)%nat) (sources n1)) as Hsame.
  { exists n. split; [reflexivity|]. split; [reflexivity|]. apply everywhere_sources in Hn as [Hn Hs]. split; [exact Hn|].
    pose proof (lookup_depth_sources n) as Hd. rewrite Forall_forall in *. auto. }
  destruct n as [| | | | | | | | | | | |tb [f|] al|]; try exact Hsame. destruct Hn as [[[Ht Hf] _] _]. cbn [from_option] in Hf.
  cbn [index_lookup]. destruct (into_cnf_vec_wf _ f Hf) as (cs & -> & Hcs). cbn [outcome_bind].
  destruct (find_lookup_total tb cs Hcs 0) as [[[i c]|] Ef]; rewrite Ef; cbn [outcome_bind]; [|exact Hsame]. clear Hsame.
  destruct (find_lookup_spec tb cs 0 i c Ef) as (e & _ & He & Hc & Hcol). rewrite Nat.sub_0_r in He. rewrite He.
  destruct (is_column_lookup_sound e c Hc) as (vs & -> & _). cbn [outcome_bind].
  set (m := if (c =? primary_key tb)%nat then _ else _).
  assert (everywhere sided m /\ sources m = [] /\ node_columns m = length (columns tb) /\ lookup_depth m = 1%nat /\
    forall tb', tb = tb' -> table_source tb' m) as (Hm & Sm & Cm & Dm & Tm).
  { unfold m. destruct (Nat.eqb_spec c (primary_key tb)) as [->|Hne]; [now repeat split|].
    destruct Hcol as [|(col & Ecol & _)]; [easy|]. apply lookup_lt_Some in Ecol. now repeat split. }
  assert (Forall (expr_wf (length (columns tb))) (list_delete i cs)) as Hrest by now apply Forall_delete.
  pose proof (and_vec_wf _ _ Hrest) as Hp. destruct (and_vec (list_delete i cs)) as [p|].
  - eexists. split; [reflexivity|]. split; [now split|]. split; [split; [cbn; now rewrite Cm|exact I]|].
    cbn [sources]. rewrite Forall_singleton. split; [exact Hm|cbn; lia].
  - eexists. split; [reflexivity|]. split; [now split|]. split; [exact (everywhere_here _ _ Hm)|]. rewrite Sm. constructor.
Qed.

Lemma index_lookups_wf n : everywhere sided n -> tame (index_lookups n) (fun n' => everywhere sided n' /\ kept n n').
Proof.
  intros Hn. apply (transform_before_everywhere kept sided sided lookup_depth);
    [exact sided_sourcewise|exact lookup_depth_pos| |apply lookup_depth_size|exact Hn].
  intros x Hx. destruct (index_lookup_wf x Hx) as (x1 & -> & Hx1). exact Hx1.
Qed.

(** *** Hash joins *)
Lemma hash_join_wf n : sided n -> kept n (hash_join n) /\ node_lwf (hash_join n).
Proof.
  intros [Hn Hj]. destruct n as [| | | | | |l r [[| | | | |[] []| | | | | | | | | | | | | |]|] o| | | | | | |]; try (now split).
  cbn [hash_join joins_sided node_lwf from_option expr_wf] in *. split; [now split|]. split; [lia|].
  unfold usize_sub. match goal with |- context [u64 ?z] => pose proof (u64_le z ltac:(lia)) end. lia.
Qed.

Lemma hash_joins_wf n : everywhere sided n -> tame (hash_joins n) (fun n' => everywhere node_lwf n' /\ kept n n').
Proof.
  intros Hn. apply (transform_before_everywhere kept sided node_lwf node_size);
    [exact node_lwf_sourcewise|exact node_size_pos| |reflexivity|exact Hn].
  intros x [Hx Hs]%everywhere_sources. destruct (hash_join_wf x Hx) as [Hk Hl]. cbn [tame]. split; [exact Hk|]. split; [exact Hl|].
  rewrite sources_hash_join. pose proof (sources_smaller x) as Hlt. rewrite Forall_forall in *. auto.
Qed.

(** *** Short circuits *)
Lemma simplify_node_wf n : everywhere node_lwf n -> everywhere node_lwf (simplify_node n) /\ kept n (simplify_node n).
Proof.
  intros Hn. assert (everywhere node_lwf n /\ kept n n) as Hsame by now split.
  destruct n as [|s p| | | | |l r [p|] o| | | |s es al| |tb [f|] al|]; try exact Hsame; cbn [simplify_node].
  - destruct (always_true p); [|exact Hsame]. destruct Hn as [_ Hs]. now split.
  - destruct (always_true p); [|exact Hsame]. destruct Hn as [_ Hs]. now repeat split.
  - destruct (noop_projection s es al) eqn:E; [|exact Hsame]. destruct Hn as [_ Hs]. split; [exact Hs|].
    unfold noop_projection in E. apply andb_true_iff in E as [E _]. apply andb_true_iff in E as [E%Nat.eqb_eq _]. now split.
  - destruct (always_true f); [|exact Hsame]. destruct Hn as [[Ht _] _]. now repeat split.
Qed.

Lemma short_circuit_wf n : everywhere node_lwf n -> tame (short_circuit n) (fun n' => everywhere node_lwf n' /\ kept n n').
Proof.
  intros Hn. destruct (simplify_node_wf n Hn) as [Hs Hk]. unfold short_circuit. cbv zeta. destruct (node_is_empty _); [|now split].
  eapply tame_bind; [apply (labels_wf tbl (fun _ => True)); now apply node_wf_everywhere|]. intros labels Hl. cbn [tame].
  split; [now split|]. etransitivity; [exact Hk|]. now split.
Qed.

Lemma short_circuits_wf n : everywhere node_lwf n -> tame (short_circuits n) (fun n' => everywhere node_lwf n' /\ kept n n').
Proof.
  intros Hn. apply (transform_after_everywhere kept node_lwf); [exact node_lwf_sourcewise|exact short_circuit_wf|reflexivity|exact Hn].
Qed.

(** ** All optimizers *)
Lemma optimize_node_wf n :
  nwf n -> everywhere joins_pushable n -> tame (optimize_node n) (fun n' => nwf n' /\ kept n n').
Proof.
  intros Hn%node_wf_everywhere Hj. assert (everywhere foldable n) as Hf.
  { clear -Hn Hj. induction n; cbn [everywhere] in *; intuition auto. all: split; assumption. }
  unfold optimize_node. eapply tame_bind; [now apply constant_folding_wf|]. intros n1 [H1' [K1 _]].
  eapply tame_bind; [now apply filter_pushdown_wf|]. intros n2 [H2' K2].
  eapply tame_bind; [now apply index_lookups_wf|]. intros n3 [H3' K3].
  eapply tame_bind; [now apply hash_joins_wf|]. intros n4 [H4' K4].
  eapply tame_mono; [now apply short_circuits_wf|]. intros n5 [H5' K5]. split; [now apply node_wf_everywhere|].
  now rewrite K1, K2, K3, K4.
Qed.
End Optimizers.
