(* ===== verification/SqlPlannerTheory.v ===== *)
(** * The planner builds well-formed plans

    The maps of a [Scope] are determined by its columns: they hold the positions
    of the labels with a name.  Every scope operation keeps this, so that a
    resolved name is a column of the node the scope describes, and the plans
    that are built refer to columns that exist. *)
From S2P Require Import Prelude Bytes Keycode KeycodeTheory Float64 SqlValue SqlValueTheory SqlExpr SqlExprTheory SqlPlan SqlExec SqlJoinTheory SqlWf SqlAst SqlPlanner.

(** ** Syntax trees *)

(** The parser gives IS no literals but NULL and NAN. *)
Definition is_literal (l : Literal) : bool :=
  match l with LNull => true | LFloat f => f64_is_nan f | _ => false end.

Fixpoint ast_ok (e : AstExpression) : bool :=
  match e with
  | EAll | EColumn _ _ | ELiteral _ => true
  | EFunction _ args => forallb ast_ok args
  | EOperator op =>
      match op with
      | OAnd l r | OOr l r | OEqual l r | OGreaterThan l r | OGreaterThanOrEqual l r | OLessThan l r
      | OLessThanOrEqual l r | ONotEqual l r | OAdd l r | ODivide l r | OExponentiate l r | OMultiply l r
      | ORemainder l r | OSubtract l r | OLike l r => ast_ok l && ast_ok r
      | OIs e l => ast_ok e && is_literal l
      | ONot e | OFactorial e | OIdentity e | ONegate e => ast_ok e
      end
  end.

(** A predicate kept by the visitor is kept by the traversal. *)
Lemma ast_walk_inv {S} (visitor : AstExpression -> S -> bool * S) (I : S -> Prop) :
  (forall e s, I s -> I (visitor e s).2) -> forall e s, I s -> I (ast_walk visitor e s).2.
Proof.
  intros Hv. induction e as [|t n|l|n args IH|op IH] using AstExpression_rect_nested; intros s Hs; cbn [ast_walk];
    match goal with |- context [visitor ?e s] => pose proof (Hv e s Hs) as Hv'; destruct (visitor e s) as [[] s'] end;
    cbn [negb snd] in *; try exact Hv'.
  - clear Hv Hs s. revert s' Hv'. induction IH as [|a args Ha _ IH]; intros s' Hs'; [exact Hs'|].
    specialize (Ha s' Hs'). destruct (ast_walk visitor a s') as [[] s2]; [exact Ha | now apply IH].
  - destruct op; cbn [operands] in IH; rewrite !Forall_cons in IH; destruct IH as [Ha IH];
      try (now apply Ha); destruct IH as [Hb _];
      specialize (Ha s' Hv'); destruct (ast_walk visitor lhs s') as [[] s2]; auto; now apply Hb.
Qed.

(** What [collect] finds satisfies the predicate. *)
Lemma ast_collect_ok f e : ast_ok e = true -> Forall (fun x => f x = true /\ ast_ok x = true) (ast_collect f e).
Proof.
  induction e as [|t n|l|n args IH|op IH] using AstExpression_rect_nested; cbn [ast_collect]; intros Ho;
    match goal with |- Forall _ (if ?b then _ else _) => destruct b eqn:E end; try (repeat constructor; assumption); try constructor.
  - cbn [ast_ok] in Ho. clear E. induction IH as [|a args Ha _ IH]; [constructor|]. cbn in Ho.
    apply andb_true_iff in Ho as [Ho1 Ho2]. apply Forall_app. split; [now apply Ha | now apply IH].
  - destruct op; cbn [ast_ok operands] in *; rewrite !Forall_cons in IH; rewrite ?andb_true_iff in Ho; decompose [and] IH;
      rewrite ?Forall_app; intuition auto.
Qed.

(** ** Positions of labels *)
Definition positions (f : Label -> bool) (ls : list Label) : list nat :=
  List.filter (fun i => from_option f false (ls !! i)) (seq 0 (length ls)).

Definition has_name (n : bytes) (l : Label) : bool :=
  match l with Qualified _ c | Unqualified c => bool_decide (c = n) | NoLabel => false end.

Lemma filter_ext_In {A} (f g : A -> bool) l : (forall x, In x l -> f x = g x) -> List.filter f l = List.filter g l.
Proof.
  induction l as [|x l IH]; intros Hfg; cbn; [reflexivity|]. rewrite (Hfg x) by now left. rewrite IH; [reflexivity|]. intros; apply Hfg. now right.
Qed.

Lemma positions_snoc f ls l : positions f (ls ++ [l]) = positions f ls ++ if f l then [length ls] else [].
Proof.
  unfold positions. rewrite length_app, Nat.add_comm. cbn [length Nat.add]. rewrite seq_S, List.filter_app. cbn [Nat.add List.filter].
  rewrite lookup_app_r, Nat.sub_diag by lia. cbn [lookup list_lookup from_option]. f_equal.
  apply filter_ext_In. intros i Hi%List.in_seq. now rewrite lookup_app_l by lia.
Qed.

Lemma elem_of_positions f ls i : i ∈ positions f ls <-> exists l, ls !! i = Some l /\ f l = true.
Proof.
  unfold positions. rewrite list_elem_of_In, List.filter_In, List.in_seq. split.
  - intros [_ E]. destruct (ls !! i) as [l|]; [|discriminate]. eauto.
  - intros (l & E & Hf). rewrite E. split; [|exact Hf]. apply lookup_lt_Some in E. lia.
Qed.

(** ** Scopes *)
Record scope_wf (s : Scope) : Prop := {
  wf_qualified t c : sc_qualified s !! (t, c) = last (positions (fun l => bool_decide (l = Qualified t c)) (sc_columns s));
  wf_unqualified n : default [] (sc_unqualified s !! n) = positions (has_name n) (sc_columns s);
  wf_nonempty n : sc_unqualified s !! n <> Some [];
  wf_aggregates : Forall (fun p => (p.2 < length (sc_columns s))%nat) (sc_aggregates s);
  wf_hidden i : i ∈ sc_hidden s -> (i < length (sc_columns s))%nat;
}.

Lemma scope_wf_new tables : scope_wf (mkScope [] tables ∅ ∅ [] ∅).
Proof.
  split; cbn.
  - intros t c. now rewrite lookup_empty.
  - intros n. now rewrite lookup_empty.
  - intros n. now rewrite lookup_empty.
  - constructor.
  - set_solver.
Qed.

Lemma scope_wf_add_column l s : scope_wf s -> scope_wf (add_column l s).
Proof.
  intros [Hq Hu Hn Ha Hh]. split; cbn [add_column sc_columns sc_qualified sc_unqualified sc_aggregates sc_hidden].
  - intros t c. rewrite positions_snoc. destruct l as [|n|t' c']; rewrite ?bool_decide_eq_false_2, ?app_nil_r by discriminate; auto.
    destruct (decide ((t', c') = (t, c))) as [[= -> ->]|Hne].
    + now rewrite lookup_insert_eq, bool_decide_eq_true_2, last_snoc.
    + rewrite lookup_insert_ne, bool_decide_eq_false_2, app_nil_r by congruence. apply Hq.
  - intros n. rewrite positions_snoc. destruct l as [|c|t' c]; cbn [has_name]; rewrite ?app_nil_r; auto;
      (destruct (decide (c = n)) as [->|Hne];
       [rewrite lookup_insert_eq, bool_decide_eq_true_2 by reflexivity; cbn; now rewrite Hu
       |rewrite lookup_insert_ne, bool_decide_eq_false_2, app_nil_r by exact Hne; apply Hu]).
  - intros n. destruct l as [|c|t' c]; auto;
      (destruct (decide (c = n)) as [->|Hne]; [rewrite lookup_insert_eq; intros [= E]; now apply app_eq_nil in E
       | rewrite lookup_insert_ne by exact Hne; apply Hn]).
  - eapply Forall_impl; [exact Ha|]. cbn. intros p. rewrite length_app. cbn. lia.
  - intros i Hi%Hh. rewrite length_app. cbn. lia.
Qed.

Lemma scope_wf_tables f s : scope_wf s -> scope_wf (set_tables f s).
Proof. now intros [? ? ? ? ?]. Qed.
Lemma scope_wf_aggregates f s : scope_wf s -> Forall (fun p => (p.2 < length (sc_columns s))%nat) (f (sc_aggregates s)) ->
  scope_wf (set_aggregates f s).
Proof. now intros [? ? ? ? ?]. Qed.
Lemma scope_wf_hidden f s : scope_wf s -> (forall i, i ∈ f (sc_hidden s) -> (i < length (sc_columns s))%nat) -> scope_wf (set_hidden f s).
Proof. now intros [? ? ? ? ?]. Qed.

(** Resolution of an unqualified name: the column of that name, if there is
    exactly one. *)
Definition resolve_error (s : Scope) : outcome nat :=
  if bool_decide (sc_aggregates s = []) then errinput "unknown column"
  else errinput "column must be used in an aggregate or GROUP BY expression".

Lemma lookup_unqualified s n : scope_wf s -> lookup_column None n s =
  if bool_decide (sc_columns s = []) then errinput "expression must be constant, found column"
  else match positions (has_name n) (sc_columns s) with
       | [] => resolve_error s
       | [i] => Ok i
       | _ => errinput "ambiguous column"
       end.
Proof.
  intros [_ Hu Hn _ _]. unfold lookup_column. destruct (bool_decide _); [reflexivity|]. specialize (Hu n). specialize (Hn n).
  destruct (sc_unqualified s !! n) as [[|i [|j js]]|]; cbn in Hu; try rewrite <- Hu; [easy | reflexivity ..].
Qed.

Lemma lookup_qualified s t n : scope_wf s -> lookup_column (Some t) n s =
  if bool_decide (sc_columns s = []) then errinput "expression must be constant, found column"
  else if negb (bool_decide (t ∈ sc_tables s)) then errinput "unknown table"
  else match last (positions (fun l => bool_decide (l = Qualified t n)) (sc_columns s)) with
       | Some i => Ok i
       | None => resolve_error s
       end.
Proof. intros Hw. unfold lookup_column. destruct (bool_decide _); [reflexivity|]. now rewrite <- (wf_qualified s Hw). Qed.

Lemma elem_of_last {A} (x : A) l : last l = Some x -> x ∈ l.
Proof. intros E. apply last_Some in E as [l' ->]. set_solver. Qed.

(** A resolved name is a column with that name. *)
Lemma lookup_column_label s t n : scope_wf s ->
  safe (lookup_column t n s) (fun i => exists l, sc_columns s !! i = Some l /\ has_name n l = true /\
    forall t', t = Some t' -> l = Qualified t' n).
Proof.
  intros Hw. destruct t as [t|].
  - rewrite lookup_qualified by exact Hw. destruct (bool_decide (_ = [])); [reflexivity|]. destruct (negb _); [reflexivity|].
    destruct (last _) as [i|] eqn:E; [|unfold resolve_error; now destruct (bool_decide _)].
    apply elem_of_last, elem_of_positions in E as (l & El & ->%bool_decide_eq_true). cbn. eexists. split; [exact El|].
    cbn. rewrite bool_decide_eq_true_2 by reflexivity. split; [reflexivity|]. now intros ? [= ->].
  - rewrite lookup_unqualified by exact Hw. destruct (bool_decide (_ = [])); [reflexivity|].
    destruct (positions _ _) as [|i [|j js]] eqn:E; [unfold resolve_error; now destruct (bool_decide _)| |reflexivity].
    assert (i ∈ positions (has_name n) (sc_columns s)) as (l & El & Hn)%elem_of_positions by (rewrite E; set_solver).
    cbn. exists l. split; [exact El|]. split; [exact Hn | discriminate].
Qed.

Lemma lookup_column_lt s t n : scope_wf s -> safe (lookup_column t n s) (fun i => (i < length (sc_columns s))%nat).
Proof.
  intros Hw. eapply safe_mono; [now apply lookup_column_label|]. cbn. intros i (l & E & _). now apply lookup_lt_Some in E.
Qed.

Lemma agg_get_lt k l e i : Forall (fun p : AstExpression * nat => (p.2 < k)%nat) l -> agg_get e l = Some i -> (i < k)%nat.
Proof.
  intros Hl. unfold agg_get. destruct (List.find _ l) as [p|] eqn:E; [|discriminate]. intros [= <-].
  apply List.find_some in E as [Hin _]. rewrite List.Forall_forall in Hl. now apply Hl.
Qed.

Lemma lookup_aggregate_lt s e i : scope_wf s -> lookup_aggregate e s = Some i -> (i < length (sc_columns s))%nat.
Proof. intros Hw. apply agg_get_lt, Hw. Qed.

(** ** Expressions *)
Lemma build_expression_wf s e : scope_wf s -> ast_ok e = true -> tame (build_expression s e) (expr_wf (length (sc_columns s))).
Proof.
  intros Hw. induction e as [|t n|l|n args IH|op IH] using AstExpression_rect_nested; cbn [ast_ok build_expression]; intros Ho;
    match goal with |- tame match lookup_aggregate ?e s with _ => _ end _ =>
      destruct (lookup_aggregate e s) as [i|] eqn:E; [exact (lookup_aggregate_lt s e i Hw E) | clear E] end.
  - exact I.
  - eapply tame_bind; [apply safe_tame; now apply lookup_column_lt|]. intros i Hi. exact Hi.
  - exact I.
  - destruct args as [|a [|b args]]; try exact I. case_bool_decide; [|exact I]. rewrite Forall_singleton in IH. cbn in Ho.
    rewrite andb_true_r in Ho. eapply tame_bind; [now apply IH|]. intros x Hx. exact Hx.
  - destruct op; cbn [operands] in IH; rewrite !Forall_cons in IH; rewrite ?andb_true_iff in Ho; decompose [and] IH; decompose [and] Ho;
      (eapply tame_bind; [eauto|]; intros x Hx); try exact Hx; try (eapply tame_bind; [eauto|]; intros y Hy; cbn; tauto).
    destruct literal as [| | |f|]; cbn [is_literal] in *; try match goal with E : false = true |- _ => discriminate E end; [cbn; tauto|].
    match goal with E : f64_is_nan f = true |- _ => rewrite E end. cbn. tauto.
Qed.

Lemma build_optional_wf s o : scope_wf s -> from_option (fun e => ast_ok e = true) True o ->
  tame (build_optional s o) (from_option (expr_wf (length (sc_columns s))) True).
Proof. intros Hw Ho. destruct o as [e|]; [|exact I]. eapply tame_map; [now apply build_expression_wf|]. auto. Qed.

(** ** Scope operations *)
Lemma reference_label_wf e s : scope_wf s -> safe (reference_label e s) (fun _ => True).
Proof.
  intros Hw. destruct e as [|t n| | |]; try exact I. cbn [reference_label].
  pose proof (lookup_column_lt s t n Hw) as Hl. destruct (lookup_column t n s) as [i|e|p]; [|reflexivity|exact Hl].
  unfold scope_label. cbn in Hl. destruct (lookup_lt_is_Some_2 _ _ Hl) as [l ->]. exact I.
Qed.

Lemma add_column_columns l s : sc_columns (add_column l s) = sc_columns s ++ [l].
Proof. reflexivity. Qed.

Lemma snoc_lt_wf k (l : list (AstExpression * nat)) e :
  Forall (fun p => (p.2 < k)%nat) l -> Forall (fun p => (p.2 < S k)%nat) (l ++ [(e, k)]).
Proof.
  intros Hl. apply Forall_app. split; [eapply Forall_impl; [exact Hl | cbn; lia] | repeat constructor].
Qed.

Lemma agg_or_insert_wf k l e i : (i < k)%nat -> Forall (fun p : AstExpression * nat => (p.2 < k)%nat) l ->
  Forall (fun p => (p.2 < k)%nat) (agg_or_insert e i l).
Proof. intros Hi Hl. unfold agg_or_insert. destruct (agg_get e l); [exact Hl|]. apply Forall_app. now repeat constructor. Qed.

Definition grown (n : nat) (s s' : Scope) : Prop := scope_wf s' /\ length (sc_columns s') = (length (sc_columns s) + n)%nat.

Lemma add_aggregate_wf e parent s : scope_wf parent -> scope_wf s ->
  tame (add_aggregate e parent s) (fun bs => grown (if bs.1 : bool then 1 else 0) s bs.2 /\ sc_aggregates bs.2 <> []).
Proof.
  intros Hp Hs. unfold add_aggregate. destruct (lookup_aggregate e s) as [i|] eqn:E.
  - cbn. unfold grown. rewrite Nat.add_0_r. repeat split; try apply Hs. intros Hn. unfold lookup_aggregate in E. now rewrite Hn in E.
  - eapply tame_bind; [now apply safe_tame, reference_label_wf|]. intros l _. cbn. split; [|now destruct (sc_aggregates s)].
    split; [|cbn; rewrite length_app; reflexivity].
    apply scope_wf_aggregates; [now apply scope_wf_add_column|]. cbn. rewrite length_app, Nat.add_comm. apply snoc_lt_wf, Hs.
Qed.

(** The columns, the tables and the hidden columns of a scope. *)
Definition same_columns (s s' : Scope) : Prop :=
  sc_columns s' = sc_columns s /\ sc_tables s' = sc_tables s /\ sc_hidden s' = sc_hidden s.

Lemma passthrough_aggregates_wf i s l : scope_wf s -> (i < length (sc_columns s))%nat -> forall j,
  let s' := foldl (fun s (p : AstExpression * nat) => if (p.2 =? j)%nat then set_aggregates (agg_or_insert p.1 i) s else s) s l in
  scope_wf s' /\ same_columns s s' /\ (l = [] -> sc_aggregates s' = sc_aggregates s).
Proof.
  intros Hs Hi j s'. cut (scope_wf s' /\ same_columns s s'); [intros [Hw Hc]; split; [exact Hw|]; split; [exact Hc|]; subst s'; now intros ->|].
  subst s'. revert s Hs Hi. induction l as [|p l IH]; intros s Hs Hi; cbn [foldl]; [split; [exact Hs | now repeat split]|].
  destruct (p.2 =? j)%nat; [|now apply IH]. apply (IH (set_aggregates _ s)); [|exact Hi].
  apply scope_wf_aggregates; [exact Hs|]. apply agg_or_insert_wf; [exact Hi | apply Hs].
Qed.

Lemma add_passthrough_wf parent i hide s : scope_wf s -> (i < length (sc_columns parent))%nat ->
  tame (add_passthrough parent i hide s) (fun s' => scope_wf s' /\
    (exists l, sc_columns parent !! i = Some l /\ sc_columns s' = sc_columns s ++ [l]) /\ sc_tables s' = sc_tables s /\
    (sc_aggregates parent = [] -> sc_aggregates s' = sc_aggregates s) /\
    (hide = false -> sc_hidden parent = ∅ -> sc_hidden s' = sc_hidden s)).
Proof.
  intros Hs Hi. unfold add_passthrough, scope_label. destruct (lookup_lt_is_Some_2 _ _ Hi) as [l El]. rewrite El.
  change (outcome_bind (Ok l) ?k) with (k l). cbv beta zeta. cbn [tame].
  destruct (passthrough_aggregates_wf (length (sc_columns s)) (add_column l s) (sc_aggregates parent)
    (scope_wf_add_column l s Hs) ltac:(cbn; rewrite length_app; cbn; lia) i) as (Hw & (Ec & Et & Eh) & Ea).
  set (s' := foldl _ _ _) in *. assert (sc_columns s' = sc_columns s ++ [l]) as Ec' by exact Ec.
  destruct (_ || _) eqn:E; [|repeat split; try apply Hw; eauto].
  split; [|repeat split; eauto].
  - apply scope_wf_hidden; [exact Hw|]. intros k [->%elem_of_singleton|Hk]%elem_of_union.
    + rewrite Ec', length_app. cbn. lia.
    + now apply Hw.
  - intros -> Hh. apply orb_true_iff in E as [?|E%bool_decide_eq_true]; [discriminate|]. rewrite Hh in E. set_solver.
Qed.

Lemma try_foldl_inv {S A} (I : list A -> S -> Prop) (f : S -> A -> outcome S) l :
  (forall done x s, I done s -> In x l -> tame (f s x) (I (done ++ [x]))) ->
  forall done s, I done s -> tame (try_foldl f s l) (I (done ++ l)).
Proof.
  induction l as [|x l IH]; intros Hf done s Hs; cbn [try_foldl]; [now rewrite app_nil_r|].
  eapply tame_bind; [apply Hf; [exact Hs | now left]|]. intros s' Hs'.
  replace (done ++ x :: l) with ((done ++ [x]) ++ l) by now rewrite <- app_assoc.
  apply IH; [|exact Hs']. intros; apply Hf; [assumption | now right].
Qed.

Lemma project_wf es s : scope_wf s ->
  tame (project es s) (fun s' => scope_wf s' /\ length (sc_columns s') = length es /\ (sc_aggregates s = [] -> sc_aggregates s' = [])).
Proof.
  intros Hs. apply (try_foldl_inv (fun done s' => scope_wf s' /\ length (sc_columns s') = length done /\
    (sc_aggregates s = [] -> sc_aggregates s' = [])) (project_column s) es) with (done := []).
  - intros done ea child (Hw & Hl & Ha) _. unfold project_column.
    apply (tame_bind _ _ (fun _ => True)); [destruct ea.2; [exact I | now apply safe_tame, reference_label_wf]|]. intros l _. cbn [tame].
    case_bool_decide as E.
    + split; [now apply scope_wf_add_column|]. rewrite add_column_columns, !length_app, Hl. split; [reflexivity | exact Ha].
    + split; [|split; [cbn; rewrite !length_app, Hl; reflexivity | now intros ?]].
      apply scope_wf_aggregates; [now apply scope_wf_add_column|]. cbn. rewrite length_app, Nat.add_comm.
      apply agg_or_insert_wf; [cbn; lia|]. eapply Forall_impl; [apply Hw | cbn; lia].
  - split; [apply scope_wf_new|]. now split.
Qed.

(** ** Remaps *)
Lemma remap_size_lt ts i : i ∈ omap id ts -> (i < remap_size ts)%nat.
Proof.
  induction ts as [|[t|] ts IH]; cbn [omap list_omap id remap_size foldr]; [set_solver| |exact IH].
  fold (remap_size ts). intros [->|Hi]%elem_of_cons; [lia|]. specialize (IH Hi). lia.
Qed.

Lemma remap_size_perm ts n : Permutation (omap id ts) (seq 0 n) -> remap_size ts = n.
Proof.
  intros Hp. destruct (Nat.lt_trichotomy (remap_size ts) n) as [H|[H|H]]; [|exact H|].
  - assert ((n - 1)%nat ∈ omap id ts) as Hi by (rewrite Hp; apply elem_of_seq; lia). apply remap_size_lt in Hi. lia.
  - assert (exists i, i ∈ omap id ts /\ (n <= i)%nat) as (i & Hi & Hn).
    { clear Hp. induction ts as [|[t|] ts IH]; cbn [omap list_omap id remap_size foldr] in *; [lia| |exact (IH H)]. fold (remap_size ts) in H.
      destruct (Nat.le_gt_cases n t); [exists t; set_solver|]. destruct IH as (i & ? & ?); [lia|]. exists i. set_solver. }
    rewrite Hp in Hi. apply elem_of_seq in Hi. lia.
Qed.

Lemma position_lookup j ts p : position j ts = Some p -> ts !! p = Some (Some j).
Proof.
  revert p. induction ts as [|t ts IH]; cbn; intros p; [discriminate|]. case_bool_decide as E; [intros [= <-]; now rewrite E|].
  destruct (position j ts) as [q|]; [|discriminate]. intros [= <-]. cbn. now apply IH.
Qed.

Lemma position_is_some j ts : j ∈ omap id ts -> is_Some (position j ts).
Proof.
  induction ts as [|[t|] ts IH]; cbn; [set_solver| |].
  - intros Hj. case_bool_decide as E; [eauto|]. apply elem_of_cons in Hj as [->|Hj]; [easy|]. destruct (IH Hj) as [p ->]. eauto.
  - intros Hj. destruct (IH Hj) as [p ->]. eauto.
Qed.

Lemma position_none j ts : j ∉ omap id ts -> position j ts = None.
Proof.
  induction ts as [|[t|] ts IH]; cbn; [reflexivity| |].
  - intros Hj. rewrite bool_decide_eq_false_2 by set_solver. rewrite IH; set_solver.
  - intros Hj. now rewrite IH.
Qed.

Lemma invert_loop ts : NoDup (omap id ts) -> forall k acc j, (j < length acc)%nat ->
  foldl (fun sources ft => match ft.2 with Some to => <[to := Some ft.1]> sources | None => sources end) acc
    (zip (seq k (length ts)) ts) !! j = match position j ts with Some p => Some (Some (k + p)%nat) | None => acc !! j end.
Proof.
  induction ts as [|[t|] ts IH]; intros Hd k acc j Hj; [reflexivity| |];
    cbn [length seq zip zip_with foldl position snd fst]; cbn [omap list_omap id] in Hd.
  - apply NoDup_cons in Hd as [Ht Hd]. rewrite IH by (rewrite ?length_insert; assumption).
    case_bool_decide as E; [injection E as ->|].
    + rewrite position_none by exact Ht. now rewrite list_lookup_insert_eq, Nat.add_0_r by exact Hj.
    + destruct (position j ts); cbn; [do 2 f_equal; lia | now rewrite list_lookup_insert_ne by congruence].
  - rewrite IH by assumption. destruct (position j ts); cbn; [do 2 f_equal; lia | reflexivity].
Qed.

(** The inverse of a remap lists the source of each target. *)
Lemma invert_remap_lookup w ts j : targets_wf w ts -> (j < remap_size ts)%nat ->
  exists p, position j ts = Some p /\ invert_remap ts !! j = Some (Some p) /\ (p < w)%nat.
Proof.
  intros [Hl Hp] Hj. destruct (position_is_some j ts) as [p E]; [rewrite Hp; apply elem_of_seq; lia|].
  exists p. split; [exact E|]. split.
  - unfold invert_remap. rewrite invert_loop; [now rewrite E| |now rewrite length_replicate]. rewrite Hp. apply NoDup_seq.
  - apply position_lookup, lookup_lt_Some in E. lia.
Qed.

Lemma invert_remap_length ts : length (invert_remap ts) = remap_size ts.
Proof.
  transitivity (length (replicate (remap_size ts) (@None nat))); [|apply length_replicate]. unfold invert_remap.
  generalize (zip (seq 0 (length ts)) ts) as l, (replicate (remap_size ts) (@None nat)) as acc.
  intros l. induction l as [|[f [t|]] l IH]; intros acc; cbn; auto. now rewrite IH, length_insert.
Qed.

(** The sources of a remap, in the order of the targets. *)
Lemma invert_remap_sources w ts : targets_wf w ts ->
  length (omap id (invert_remap ts)) = remap_size ts /\
  forall j i, omap id (invert_remap ts) !! j = Some i -> position j ts = Some i /\ (i < w)%nat.
Proof.
  intros Hw. assert (exists is_, invert_remap ts = map Some is_) as [is_ E].
  { assert (Forall (fun o => is_Some o) (invert_remap ts)) as Hf.
    { apply Forall_lookup. intros j o Ho. pose proof (lookup_lt_Some _ _ _ Ho) as Hj. rewrite invert_remap_length in Hj.
      destruct (invert_remap_lookup w ts j Hw Hj) as (p & _ & Hp & _). rewrite Hp in Ho. injection Ho as <-. eauto. }
    induction Hf as [|o l [x ->] _ [is_ ->]]; [now exists []|]. now exists (x :: is_). }
  assert (forall is_ : list nat, omap id (map Some is_) = is_) as Ho by (induction is_0; cbn; congruence).
  split; rewrite E, Ho.
  - rewrite <- invert_remap_length, E. now rewrite length_map.
  - intros j i Hi. assert (j < remap_size ts)%nat as Hj.
    { rewrite <- invert_remap_length, E, length_map. now apply lookup_lt_Some in Hi. }
    destruct (invert_remap_lookup w ts j Hw Hj) as (p & Hp & Hl & Hlt). rewrite E, list_lookup_fmap, Hi in Hl. injection Hl as ->. auto.
Qed.

Lemma scope_remap_wf ts s : scope_wf s -> targets_wf (length (sc_columns s)) ts ->
  tame (scope_remap ts s) (fun s' => scope_wf s' /\ sc_tables s' = sc_tables s /\ length (sc_columns s') = remap_size ts /\
    (forall j l, sc_columns s' !! j = Some l -> exists i, position j ts = Some i /\ sc_columns s !! i = Some l) /\
    (sc_aggregates s = [] -> sc_aggregates s' = []) /\ (sc_hidden s = ∅ -> sc_hidden s' = ∅)).
Proof.
  intros Hs Hw. destruct (invert_remap_sources _ _ Hw) as [Hl Hi]. unfold scope_remap. set (is_ := omap id (invert_remap ts)) in *.
  eapply tame_mono.
  - apply (try_foldl_inv (fun done s' => scope_wf s' /\ sc_tables s' = sc_tables s /\
      Forall2 (fun i l => sc_columns s !! i = Some l) done (sc_columns s') /\
      (sc_aggregates s = [] -> sc_aggregates s' = []) /\ (sc_hidden s = ∅ -> sc_hidden s' = ∅))) with (done := []).
    + intros done i s' (Hs' & Ht & Hf & Ha & Hh) Hin. apply list_elem_of_In, list_elem_of_lookup_1 in Hin as [j Hj].
      eapply tame_mono; [apply add_passthrough_wf; [exact Hs' | now apply (Hi j)]|].
      intros s2 (Hw2 & (l & El & Ec) & Et & Ea & Eh). split; [exact Hw2|]. rewrite Et, Ec. split; [exact Ht|].
      split; [apply Forall2_app; [exact Hf | now repeat constructor]|]. split; intros E; [rewrite Ea | rewrite Eh]; auto.
    + split; [apply scope_wf_new|]. repeat split. constructor.
  - cbn [app]. intros s' (Hs' & Ht & Hf & Ha & Hh). split; [exact Hs'|]. split; [exact Ht|].
    split; [rewrite <- Hl; symmetry; now apply Forall2_length in Hf|]. split; [|now split].
    intros j l Hj. destruct (Forall2_lookup_r _ _ _ _ _ Hf Hj) as (i & Eij & El). exists i. split; [now apply (Hi j) | exact El].
Qed.

Lemma omap_id_some {A B} (f : A -> B) l : omap id (map (fun x => Some (f x)) l) = map f l.
Proof. induction l; cbn; congruence. Qed.

Lemma map_add_seq k n m : map (fun i => i + k)%nat (seq m n) = seq (m + k) n.
Proof. revert m. induction n as [|n IH]; intros m; cbn; [reflexivity|]. now rewrite IH. Qed.

(** The rotation that restores the order of the sides of a RIGHT JOIN. *)
Lemma rotation_wf l r :
  let ts := map (fun i => Some ((i + r) mod (l + r))%nat) (seq 0 (l + r)) in targets_wf (l + r) ts /\ remap_size ts = (l + r)%nat.
Proof.
  intros ts. assert (omap id ts = seq r l ++ seq 0 r) as E.
  { subst ts. rewrite omap_id_some, seq_app, map_app. f_equal.
    - change (seq r l) with (seq (0 + r) l). rewrite <- map_add_seq. apply map_ext_in. intros i Hi%List.in_seq. apply Nat.mod_small. lia.
    - transitivity (map (fun i => i + 0)%nat (seq 0 r)); [|now rewrite map_add_seq].
      rewrite <- map_add_seq, map_map. apply map_ext_in. intros i Hi%List.in_seq.
      replace (i + l + r)%nat with (i + 1 * (l + r))%nat by lia. rewrite Nat.Div0.mod_add. rewrite Nat.mod_small; lia. }
  assert (Permutation (omap id ts) (seq 0 (l + r))) as Hp.
  { rewrite E, Permutation_app_comm, Nat.add_comm, seq_app. reflexivity. }
  pose proof (remap_size_perm _ _ Hp) as Hs. split; [|exact Hs]. split; [subst ts; now rewrite length_map, length_seq|]. now rewrite Hs.
Qed.

Lemma hidden_targets_seq h size : forall old new, exists k, omap id (hidden_targets h old new size) = seq new k /\
  length (hidden_targets h old new size) = size.
Proof.
  induction size as [|size IH]; intros old new; cbn [hidden_targets]; [now exists 0%nat|].
  case_bool_decide; [destruct (IH (S old) new) as (k & E & El); exists k | destruct (IH (S old) (S new)) as (k & E & El); exists (S k)];
    cbn; rewrite El; split; auto. now rewrite E.
Qed.

Lemma remap_hidden_wf s ts : remap_hidden s = Some ts -> targets_wf (length (sc_columns s)) ts.
Proof.
  unfold remap_hidden. case_bool_decide; [discriminate|]. intros [= <-].
  destruct (hidden_targets_seq (sc_hidden s) (length (sc_columns s)) 0 0) as (k & E & El).
  split; [exact El|]. assert (Permutation (omap id (hidden_targets (sc_hidden s) 0 0 (length (sc_columns s)))) (seq 0 k)) as Hp by now rewrite E.
  now rewrite (remap_size_perm _ k Hp).
Qed.

(** ** FROM clauses *)

(** The scope of a FROM clause: labels of its tables, no aggregates, nothing
    hidden. *)
Record from_scope (s : Scope) : Prop := {
  from_scope_wf : scope_wf s;
  from_aggregates : sc_aggregates s = [];
  from_hidden : sc_hidden s = ∅;
  from_labels i l : sc_columns s !! i = Some l -> exists t c, l = Qualified t c /\ t ∈ sc_tables s;
}.

Definition node_labels (n : Node) (ls : list Label) : Prop :=
  length ls = node_columns n /\ forall i l, ls !! i = Some l -> column_label n i = Ok l.

Lemma from_scope_new : from_scope scope_new.
Proof. split; try reflexivity; [apply scope_wf_new | discriminate]. Qed.

Lemma add_columns_wf ls : forall s, scope_wf s ->
  let s' := foldl (fun s label => add_column label s) s ls in
  scope_wf s' /\ sc_columns s' = sc_columns s ++ ls /\ sc_tables s' = sc_tables s /\ sc_aggregates s' = sc_aggregates s /\ sc_hidden s' = sc_hidden s.
Proof.
  induction ls as [|l ls IH]; intros s Hs; cbn [foldl].
  - split; [exact Hs|]. now rewrite app_nil_r.
  - destruct (IH (add_column l s) (scope_wf_add_column l s Hs)) as (Hw & Ec & Et & Ea & Eh). split; [exact Hw|].
    rewrite Ec, Et, Ea, Eh. cbn. now rewrite <- app_assoc.
Qed.

Lemma foldl_map {A B S} (f : S -> B -> S) (g : A -> B) l : forall s, foldl f s (map g l) = foldl (fun s x => f s (g x)) s l.
Proof. induction l as [|x l IH]; intros s; cbn; auto. Qed.

Lemma add_table_wf table alias : tame (add_table table alias scope_new) (fun s => from_scope s /\
  sc_columns s = map (fun c => Qualified (default (table_name table) alias) (col_name c)) (columns table)).
Proof.
  unfold add_table. case_bool_decide; [exact I|]. cbn [tame].
  rewrite <- (foldl_map (fun s l => add_column l s) (fun c => Qualified (default (table_name table) alias) (col_name c))).
  destruct (add_columns_wf (map (fun c => Qualified (default (table_name table) alias) (col_name c)) (columns table)) scope_new (scope_wf_new ∅))
    as (Hw & Ec & Et & Ea & Eh). set (s := foldl _ _ _) in *. split; [|exact Ec]. split; [now apply scope_wf_tables|exact Ea|exact Eh|].
  cbn [set_tables sc_columns sc_tables]. rewrite Ec. cbn [scope_new sc_columns app]. intros i l. rewrite list_lookup_fmap.
  destruct (columns table !! i); [|discriminate]. intros [= <-]. eexists _, _. split; [reflexivity | set_solver].
Qed.

Lemma merge_wf s p : from_scope s -> from_scope p ->
  tame (merge s p) (fun s' => from_scope s' /\ sc_columns s' = sc_columns p ++ sc_columns s).
Proof.
  intros Hs Hp. unfold merge. case_bool_decide; [|exact I]. cbn [tame]. rewrite (from_aggregates s Hs), (from_hidden s Hs). cbn [foldl].
  set (p1 := set_tables _ p). assert (scope_wf p1) as Hp1 by apply scope_wf_tables, Hp.
  destruct (add_columns_wf (sc_columns s) p1 Hp1) as (Hw & Ec & Et & Ea & Eh). set (s1 := foldl _ p1 _) in *.
  split; [|exact Ec]. split.
  - apply scope_wf_hidden; [exact Hw|]. rewrite Eh. cbn. rewrite (from_hidden p Hp). set_solver.
  - cbn. now rewrite Ea, <- (from_aggregates p Hp).
  - cbn. rewrite Eh. cbn. rewrite (from_hidden p Hp). set_solver.
  - cbn [set_hidden sc_columns sc_tables]. rewrite Ec, Et. cbn [p1 set_tables sc_tables sc_columns]. intros i l Hl.
    apply lookup_app_Some in Hl as [Hl|[_ Hl]]; [destruct (from_labels p Hp _ _ Hl) as (t & c & -> & Ht)
      | destruct (from_labels s Hs _ _ Hl) as (t & c & -> & Ht)]; eexists _, _; split; try reflexivity; set_solver.
Qed.

Fixpoint from_ok (f : From_) : bool :=
  match f with
  | FTable name _ => utf8_valid name
  | FJoin l r _ predicate => from_ok l && from_ok r && from_option ast_ok true predicate
  end.

Lemma node_labels_join l r p o ls rs :
  node_labels l ls -> node_labels r rs -> node_labels (NNestedLoopJoin l r p o) (ls ++ rs).
Proof.
  intros [Hl El] [Hr Er]. split; [cbn; rewrite length_app; lia|]. intros i x Hx. cbn [column_label]. rewrite <- Hl.
  apply lookup_app_Some in Hx as [Hx|[Hle Hx]].
  - pose proof (lookup_lt_Some _ _ _ Hx). rewrite (proj2 (Nat.ltb_lt i _)) by lia. auto.
  - rewrite (proj2 (Nat.ltb_ge i _)) by lia. auto.
Qed.

Lemma node_labels_remap n ts ls ls' : node_labels n ls -> length ls' = remap_size ts ->
  (forall j l, ls' !! j = Some l -> exists i, position j ts = Some i /\ ls !! i = Some l) -> node_labels (NRemap n ts) ls'.
Proof.
  intros [_ Hn] Hl Hj. split; [exact Hl|]. intros i l Hi. destruct (Hj i l Hi) as (k & Ek & El). cbn [column_label]. rewrite Ek. auto.
Qed.

(** ** Names in a FROM clause *)
Section Names.
Context (node : Node) (s : Scope) (Hs : from_scope s) (Hn : node_labels node (sc_columns s)).

Lemma from_label i l : sc_columns s !! i = Some l <-> (i < node_columns node)%nat /\ column_label node i = Ok l.
Proof.
  destruct Hn as [Hl Hc]. split.
  - intros E. split; [apply lookup_lt_Some in E; lia | auto].
  - intros [Hi E]. destruct (lookup_lt_is_Some_2 (sc_columns s) i) as [l' El]; [lia|]. rewrite (Hc i l' El) in E. now injection E as <-.
Qed.

Lemma from_positions n i :
  i ∈ positions (has_name n) (sc_columns s) <-> (i < node_columns node)%nat /\ exists tb, column_label node i = Ok (Qualified tb n).
Proof.
  rewrite elem_of_positions. split.
  - intros (l & El & Hl). destruct (from_labels s Hs i l El) as (tb & c & -> & _). apply bool_decide_eq_true in Hl as ->.
    apply from_label in El as [Hi El]. eauto.
  - intros (Hi & tb & El). exists (Qualified tb n). split; [now apply from_label | cbn; now apply bool_decide_eq_true].
Qed.

Lemma from_lookup_unqualified n i : lookup_column None n s = Ok i <->
  (i < node_columns node)%nat /\ (exists tb, column_label node i = Ok (Qualified tb n)) /\
  forall j tb, (j < node_columns node)%nat -> column_label node j = Ok (Qualified tb n) -> j = i.
Proof.
  rewrite lookup_unqualified by apply Hs. pose proof (from_positions n) as Hp. set (ps := positions _ _) in *. split.
  - case_bool_decide; [discriminate|]. destruct ps as [|k [|j js]]; [unfold resolve_error; now destruct (bool_decide _)| |discriminate].
    intros [= ->]. destruct (proj1 (Hp i) ltac:(set_solver)) as [Hi Hex]. split; [exact Hi|]. split; [exact Hex|].
    intros j tb Hj El. assert (j ∈ [i]) by (apply Hp; eauto). set_solver.
  - intros (Hi & Hex & Hu). assert (i ∈ ps) as Hin by (apply Hp; auto).
    assert (NoDup ps) as Hd by (apply NoDup_ListNoDup, List.NoDup_filter, List.seq_NoDup).
    rewrite bool_decide_eq_false_2 by (intros E0; apply elem_of_positions in Hin as (l & El & _); rewrite E0 in El; discriminate).
    destruct ps as [|k [|j js]]; [set_solver | f_equal; set_solver |]. exfalso.
    assert (forall x, x ∈ k :: j :: js -> x = i) as Hall by (intros x Hx; apply Hp in Hx as (Hx & tb & El); eauto).
    assert (k = j) as -> by (transitivity i; [|symmetry]; apply Hall; set_solver).
    apply NoDup_cons in Hd as [Hd _]. set_solver.
Qed.

Lemma from_lookup_qualified :
  (forall tb n i, lookup_column (Some tb) n s = Ok i -> (i < node_columns node)%nat /\ column_label node i = Ok (Qualified tb n)) /\
  (forall tb n i, (i < node_columns node)%nat -> column_label node i = Ok (Qualified tb n) -> exists j, lookup_column (Some tb) n s = Ok j).
Proof.
  split.
  - intros tb n i E. pose proof (lookup_column_label s (Some tb) n (from_scope_wf s Hs)) as Hl. rewrite E in Hl.
    destruct Hl as (l & El & _ & Hq). rewrite (Hq tb eq_refl) in El. now apply from_label.
  - intros tb n i Hi El. pose proof (proj2 (from_label i (Qualified tb n)) (conj Hi El)) as Ec.
    destruct (from_labels s Hs i _ Ec) as (tb' & c & [= <- <-] & Ht). rewrite lookup_qualified by apply Hs.
    rewrite bool_decide_eq_false_2 by (intros E0; rewrite E0 in Ec; discriminate). rewrite bool_decide_eq_true_2 by exact Ht. cbn [negb].
    destruct (last _) as [j|] eqn:E; [eauto|]. apply last_None in E.
    assert (i ∈ positions (fun l => bool_decide (l = Qualified tb n)) (sc_columns s)) as Hin.
    { apply elem_of_positions. eexists. split; [exact Ec | now apply bool_decide_eq_true]. }
    rewrite E in Hin. set_solver.
Qed.
End Names.

Section Statements.
Context {T : Type} `{F64Pow, RegexSpec, Transaction T} (key : Value -> Prop) (t : T).

(** What the planner relies on: the catalog finds tables by their name, and a
    table's primary key is one of its columns. *)
Definition catalog_wf : Prop :=
  forall n, utf8_valid n = true -> tame (get_table n t) (fun o => forall tb, o = Some tb -> table_name tb = n /\ (primary_key tb < length (columns tb))%nat).
Context (Hcat : catalog_wf).

Lemma must_get_table_wf n : utf8_valid n = true -> tame (must_get_table n t) (fun tb => in_catalog t tb /\ (primary_key tb < length (columns tb))%nat).
Proof.
  intros Hn. unfold must_get_table, in_catalog. specialize (Hcat n Hn). destruct (get_table n t) as [[tb|]|e|p] eqn:E; cbn in *; auto.
  destruct (Hcat tb eq_refl) as [-> Hpk]. auto.
Qed.

(** The node and the scope of a FROM item: the node's labels are those of the
    scope's new columns. *)
Definition from_built (p : Scope) (ns : Node * Scope) : Prop :=
  node_wf (in_catalog t) key ns.1 /\ from_scope ns.2 /\ exists ls, node_labels ns.1 ls /\ sc_columns ns.2 = sc_columns p ++ ls.

Lemma build_table_wf n alias : utf8_valid n = true ->
  tame (let? table := must_get_table n t in let? scope := add_table table alias scope_new in Ok (NScan table None alias, scope))
    (from_built scope_new).
Proof.
  intros Hu. eapply tame_bind; [now apply must_get_table_wf|]. intros tb [Hin _]. eapply tame_bind; [apply add_table_wf|]. intros s [Hs Hc].
  split; [now split|]. split; [exact Hs|]. eexists. split; [|exact Hc]. split; [apply length_map|]. intros i l. rewrite list_lookup_fmap.
  cbn [fst column_label]. unfold table_column. destruct (columns tb !! i); [|discriminate]. cbn. intros [= <-]. now destruct alias.
Qed.

(** The two sides of a join, in the order in which they are built. *)
Lemma build_join_wf (l r : From_) join_type predicate :
  (forall p, from_scope p -> tame (build_from t l p) (from_built p)) ->
  (forall p, from_scope p -> tame (build_from t r p) (from_built p)) -> from_option ast_ok true predicate = true ->
  tame (let? ls := build_from t l scope_new in let? rs := build_from t r ls.2 in
        let? predicate := build_optional rs.2 predicate in
        let node := NNestedLoopJoin ls.1 rs.1 predicate (is_outer join_type) in
        match join_type with
        | JRight =>
            let size := (node_columns ls.1 + node_columns rs.1)%nat in
            let targets := map (fun i => Some ((i + node_columns rs.1) mod size)%nat) (seq 0 size) in
            let? scope := scope_remap targets rs.2 in
            Ok (NRemap node targets, scope)
        | _ => Ok (node, rs.2)
        end) (from_built scope_new).
Proof.
  intros IHl IHr Ho. eapply tame_bind; [apply IHl, from_scope_new|]. intros [ln lsc] (Hln & Hlsc & ll & Hll & Ell). cbn in Ell, Hln, Hlsc, Hll.
  eapply tame_bind; [now apply IHr|]. intros [rn s] (Hrn & Hs & rl & Hrl & Erl). cbn [fst snd] in *. rewrite Ell in Erl.
  assert (length (sc_columns s) = node_columns ln + node_columns rn)%nat as Hlen.
  { rewrite Erl, length_app. destruct Hll as [-> _], Hrl as [-> _]. reflexivity. }
  eapply tame_bind; [apply build_optional_wf; [apply Hs | now destruct predicate]|]. intros p Hp. rewrite Hlen in Hp. cbv zeta.
  set (node := NNestedLoopJoin ln rn p _).
  assert (node_wf (in_catalog t) key node) as Hnode by (repeat split; assumption).
  assert (node_labels node (sc_columns s)) as Hlab by (rewrite Erl; now apply node_labels_join).
  destruct join_type; try (split; [exact Hnode|]; split; [exact Hs|]; now exists (sc_columns s)).
  destruct (rotation_wf (node_columns ln) (node_columns rn)) as [Hw Hsize]. set (ts := map _ _) in *.
  eapply tame_bind; [apply (scope_remap_wf ts s); [apply Hs | now rewrite Hlen]|]. intros s' (Hs' & Et & El & Hj & Ea & Eh).
  split; [now split|]. split.
  - split; [exact Hs' | apply Ea, Hs | apply Eh, Hs |]. intros j x Hx. destruct (Hj j x Hx) as (i & _ & Hi).
    cbn [snd]. rewrite Et. now apply (from_labels s Hs i).
  - exists (sc_columns s'). split; [|reflexivity]. now apply (node_labels_remap node ts (sc_columns s)).
Qed.

Lemma build_from_wf f : from_ok f = true -> forall p, from_scope p -> tame (build_from t f p) (from_built p).
Proof.
  intros Ho p Hp. revert Ho p Hp. induction f as [n alias|l IHl r IHr j predicate]; cbn [from_ok]; intros Ho p Hp;
    (apply (tame_bind _ _ (from_built scope_new));
      [|intros ns (Hn & Hs & ls & Hls & Ec); eapply tame_bind; [apply merge_wf; [exact Hs | exact Hp]|];
        intros s' [Hs' Ec']; split; [exact Hn|]; split; [exact Hs'|]; exists ls; split; [exact Hls|]; cbn [fst snd scope_new sc_columns app] in *; congruence]).
  - now apply build_table_wf.
  - apply andb_true_iff in Ho as [[Hl Hr]%andb_true_iff Hpred].
    destruct j; [apply (build_join_wf l r JCross)|apply (build_join_wf l r JInner)|apply (build_join_wf l r JLeft)|apply (build_join_wf r l JRight)]; auto.
Qed.

Lemma build_from_clause_wf fs : forallb from_ok fs = true ->
  tame (build_from_clause t fs scope_new) (fun ns => node_wf (in_catalog t) key ns.1 /\ from_scope ns.2 /\ node_labels ns.1 (sc_columns ns.2)).
Proof.
  destruct fs as [|f fs]; cbn [build_from_clause forallb]; [intros; exact I|]. intros [Hf Hfs]%andb_true_iff.
  eapply tame_bind; [apply build_from_wf; [exact Hf | apply from_scope_new]|]. intros ns (Hn & Hs & ls & Hls & Ec). cbn in Ec.
  apply (try_foldl_inv (fun _ ns => node_wf (in_catalog t) key ns.1 /\ from_scope ns.2 /\ node_labels ns.1 (sc_columns ns.2)) _ fs) with (done := []).
  - clear ns Hn Hs ls Hls Ec. intros _ g [n s] (Hn & Hs & Hl) Hin. unfold join_from. cbn [fst snd] in *.
    rewrite forallb_forall in Hfs. eapply tame_bind; [apply build_from_wf; [now apply Hfs | exact Hs]|].
    intros [n' s'] (Hn' & Hs' & ls & Hls & Ec). cbn in *. split; [now repeat split|]. split; [exact Hs'|]. rewrite Ec. now apply node_labels_join.
  - split; [exact Hn|]. split; [exact Hs|]. now rewrite Ec.
Qed.

(** ** SELECT *)

(** A node with the scope that describes it. *)
Definition planned (ns : Node * Scope) : Prop :=
  node_wf (in_catalog t) key ns.1 /\ scope_wf ns.2 /\ node_columns ns.1 = length (sc_columns ns.2).

Definition items_ok {A} (l : list (AstExpression * A)) : Prop := Forall (fun ea => ast_ok ea.1 = true) l.

Lemma expand_all_wf n s ea : from_scope s -> node_labels n (sc_columns s) -> ast_ok ea.1 = true -> tame (expand_all n ea) items_ok.
Proof.
  intros Hs [Hl Hn] Hea. unfold expand_all. destruct ea.1 eqn:E; try (cbn; constructor; [now rewrite E | constructor]).
  eapply tame_mono; [apply (tame_collect_map (fun ea => ast_ok ea.1 = true))|now intros r [? _]].
  apply Forall_forall. intros i Hi%elem_of_seq. destruct (lookup_lt_is_Some_2 (sc_columns s) i) as [l El]; [lia|].
  rewrite (Hn i l El). cbn. destruct (from_labels s Hs i l El) as (tn & c & -> & _). reflexivity.
Qed.

Lemma items_ok_concat {A} (l : list (list (AstExpression * A))) : Forall items_ok l -> items_ok (concat l).
Proof. induction 1; cbn; [constructor|]. now apply Forall_app. Qed.

Lemma expand_select_wf n s select group_by : from_scope s -> node_labels n (sc_columns s) -> items_ok select ->
  tame (expand_select n select group_by) items_ok.
Proof.
  intros Hs Hn Hsel. unfold expand_select. case_bool_decide; [|exact Hsel]. destruct (_ =? 0)%nat; [exact I|].
  destruct (_ || _); [|exact Hsel]. eapply tame_map; [apply (tame_collect_map items_ok)|intros r [Hr _]; now apply items_ok_concat].
  eapply Forall_impl; [exact Hsel|]. intros ea. now apply (expand_all_wf n s).
Qed.

Lemma retain_aggregates_wf parent es : scope_wf parent -> forall child, scope_wf child ->
  tame (retain_aggregates parent child es) (fun r => grown (length r.1) child r.2 /\ incl r.1 es).
Proof.
  intros Hp. induction es as [|e es IH]; intros child Hc; cbn [retain_aggregates].
  - cbn. split; [split; [exact Hc | now rewrite Nat.add_0_r] | apply List.incl_refl].
  - eapply tame_bind; [now apply add_aggregate_wf|]. intros [b s] [[Hs El] _]. cbn [fst snd] in *.
    eapply tame_bind; [now apply IH|]. intros [r s'] [[Hs' El'] Hin]. cbn [tame fst snd] in *.
    destruct b; (split; [split; [exact Hs' | cbn [length]; lia]|]).
    + apply List.incl_cons; [now left | now apply List.incl_tl].
    + now apply List.incl_tl.
Qed.

Lemma build_aggregate_function_wf s e : scope_wf s -> is_aggregate_function e = true -> ast_ok e = true ->
  tame (build_aggregate_function s e) (fun a => expr_wf (length (sc_columns s)) (aggregate_expr a)).
Proof.
  intros Hs Hf Ho. destruct e as [| | |n args|]; try discriminate Hf. destruct args as [|a [|b args]]; try exact I. cbn [build_aggregate_function].
  destruct (ast_contains _ _); [exact I|]. cbn in Ho. rewrite andb_true_r in Ho.
  apply (tame_bind _ _ (expr_wf (length (sc_columns s)))); [case_bool_decide; [exact I | now apply build_expression_wf]|].
  intros x Hx. repeat (case_bool_decide; [exact Hx|]). exact I.
Qed.

Lemma build_aggregate_wf n s group_by aggs : planned (n, s) -> Forall (fun e => ast_ok e = true) group_by ->
  Forall (fun e => is_aggregate_function e = true /\ ast_ok e = true) aggs -> tame (build_aggregate n group_by aggs s) planned.
Proof.
  intros (Hn & Hs & Hl) Hg Ha. cbn [fst snd] in *. unfold build_aggregate.
  eapply tame_bind; [apply retain_aggregates_wf; [exact Hs | apply scope_wf_new]|]. intros [g gs] [[Hgs Elg] Hig]. cbn [fst snd] in *.
  eapply tame_bind; [now apply retain_aggregates_wf|]. intros [a as_] [[Has Ela] Hia]. cbn [fst snd] in *.
  rewrite List.Forall_forall in Hg, Ha.
  eapply tame_bind; [apply (tame_collect_map (expr_wf (node_columns n)))|].
  { apply List.Forall_forall. intros e He. rewrite Hl. apply build_expression_wf; auto. }
  intros g' [Hg' Elg']. eapply tame_bind; [apply (tame_collect_map (fun a => expr_wf (node_columns n) (aggregate_expr a)))|].
  { apply List.Forall_forall. intros e He. rewrite Hl. destruct (Ha e (Hia e He)). apply build_aggregate_function_wf; auto. }
  intros a' [Ha' Ela']. split; [now repeat split|]. split; [exact Has|]. cbn in *. lia.
Qed.

Lemma hidden_visitor_wf s k e st : scope_wf s ->
  let I st := tame st (fun ch => scope_wf ch.1 /\ length (sc_columns ch.1) = (k + length ch.2)%nat /\
                                 Forall (expr_wf (length (sc_columns s))) ch.2) in
  I st -> I (hidden_visitor s e st).2.
Proof.
  intros Hs I Hst. unfold hidden_visitor. destruct st as [[child hid]|er|p]; [|exact Hst ..]. destruct Hst as (Hc & Hl & Hh). cbn [fst snd] in *.
  assert (forall i, (i < length (sc_columns s))%nat ->
    I (let? child := add_passthrough s i true child in Ok (child, hid ++ [Column i]))) as Hpass.
  { intros i Hi. eapply tame_bind; [now apply add_passthrough_wf|]. intros c' (Hc' & (l & _ & Ec) & _). split; [exact Hc'|].
    cbn [fst snd]. rewrite Ec, !length_app. cbn [length]. split; [lia|]. apply Forall_app. now repeat constructor. }
  assert (I (Ok (child, hid))) as Hsame by now split.
  destruct (lookup_aggregate e s) as [i|] eqn:Ei.
  - pose proof (lookup_aggregate_lt s e i Hs Ei) as Hi. destruct (lookup_aggregate e child); [|now apply Hpass].
    destruct e as [|tn c| | |]; try exact Hsame. pose proof (lookup_column_lt child tn c Hc) as H1'.
    destruct (lookup_column tn c child); [exact Hsame| |easy]. pose proof (lookup_column_lt s tn c Hs) as H2'.
    destruct (lookup_column tn c s); [now apply Hpass | exact Hsame | easy].
  - destruct e as [|tn c| | |]; try exact Hsame. pose proof (lookup_column_lt child tn c Hc) as H1'.
    destruct (lookup_column tn c child); [exact Hsame| |easy]. pose proof (lookup_column_lt s tn c Hs) as H2'.
    destruct (lookup_column tn c s); [now apply Hpass | exact Hsame | easy].
Qed.

Lemma build_select_hidden_wf having order_by s child : scope_wf s -> scope_wf child ->
  tame (build_select_hidden having order_by s child) (fun ch => scope_wf ch.1 /\
    length (sc_columns ch.1) = (length (sc_columns child) + length ch.2)%nat /\ Forall (expr_wf (length (sc_columns s))) ch.2).
Proof.
  intros Hs Hc. unfold build_select_hidden. generalize (option_list having ++ order_by.*1) as es.
  assert (tame (Ok (child, @nil Expression)) (fun ch => scope_wf ch.1 /\
    length (sc_columns ch.1) = (length (sc_columns child) + length ch.2)%nat /\ Forall (expr_wf (length (sc_columns s))) ch.2)) as Hi.
  { split; [exact Hc|]. split; [now rewrite Nat.add_0_r | constructor]. }
  generalize dependent (Ok (child, @nil Expression)). intros st Hst es. revert st Hst.
  induction es as [|e es IH]; intros st Hst; cbn [foldl]; [exact Hst|]. apply IH.
  apply (ast_walk_inv (hidden_visitor s) (fun st => tame st (fun ch => scope_wf ch.1 /\
    length (sc_columns ch.1) = (length (sc_columns child) + length ch.2)%nat /\ Forall (expr_wf (length (sc_columns s))) ch.2))); [|exact Hst].
  intros e' st'. now apply hidden_visitor_wf.
Qed.

Lemma build_projection_wf select having order_by n s : planned (n, s) -> items_ok select ->
  tame (build_projection select having order_by n s) planned.
Proof.
  intros (Hn & Hs & Hl) Hsel. cbn [fst snd] in *. unfold build_projection. case_bool_decide; [exact (conj Hn (conj Hs Hl))|].
  eapply tame_bind; [now apply project_wf|]. intros child (Hc & Hlc & _).
  eapply tame_bind; [apply (tame_collect_map (expr_wf (node_columns n)))|].
  { eapply Forall_impl; [exact Hsel|]. intros ea Hea. rewrite Hl. now apply build_expression_wf. }
  intros es [Hes Hles]. eapply tame_bind; [now apply build_select_hidden_wf|]. intros [s' hid] (Hs' & Hl' & Hh). cbn [fst snd] in *.
  split; [|split; [exact Hs'|]]; cbn [fst snd node_columns].
  - split; [exact Hn|]. split; [apply Forall_app; rewrite <- Hl in Hh; now split|].
    rewrite !length_app, length_map, length_replicate. lia.
  - rewrite length_app, Hl'. lia.
Qed.

Lemma build_constant_value_wf e : ast_ok e = true -> tame (build_constant_value e) (fun _ => True).
Proof.
  intros Ho. eapply tame_bind; [apply (build_expression_wf scope_new e (scope_wf_new ∅) Ho)|]. intros x Hx. now apply (tame_evaluate None).
Qed.

Lemma build_count_wf msg e : ast_ok e = true -> tame (build_count msg e) (fun _ => True).
Proof. intros Ho. eapply tame_bind; [now apply build_constant_value_wf|]. intros [| |i| |] _; try exact I. now destruct (0 <=? i). Qed.

Definition select_ok (q : SelectStatement) : bool :=
  forallb (fun ea => ast_ok ea.1) (st_select q) && forallb from_ok (st_from q) && from_option ast_ok true (st_where q) &&
  forallb ast_ok (st_group_by q) && from_option ast_ok true (st_having q) && forallb (fun ed => ast_ok ed.1) (st_order_by q) &&
  from_option ast_ok true (st_offset q) && from_option ast_ok true (st_limit q).

Lemma option_ok {A} (f : A -> bool) o : from_option f true o = true -> from_option (fun e => f e = true) True o.
Proof. now destruct o. Qed.

Lemma collect_aggregates_ok select having order_by :
  items_ok select -> from_option ast_ok true having = true -> items_ok order_by ->
  Forall (fun e => is_aggregate_function e = true /\ ast_ok e = true) (collect_aggregates select having order_by).
Proof.
  intros Hs Hh Ho. unfold collect_aggregates. apply Forall_bind.
  assert (Forall (fun e => ast_ok e = true) (select.*1 ++ option_list having ++ order_by.*1)) as Hall.
  { rewrite !Forall_app. split; [now apply Forall_fmap|]. split; [|now apply Forall_fmap]. destruct having; cbn; repeat constructor. exact Hh. }
  eapply Forall_impl; [exact Hall|]. intros e. apply ast_collect_ok.
Qed.

Lemma planned_filter n s p : planned (n, s) -> expr_wf (length (sc_columns s)) p -> planned (NFilter n p, s).
Proof. intros (Hn & Hs & Hl) Hp. split; [|now split]. cbn in *. now rewrite Hl. Qed.

Lemma build_having_wf having n s : planned (n, s) -> from_option ast_ok true having = true ->
  tame (match having with
        | None => Ok n
        | Some having =>
            if bool_decide (sc_aggregates s = []) then errinput "HAVING requires GROUP BY or aggregate function"
            else let? predicate := build_expression s having in Ok (NFilter n predicate)
        end) (fun n => planned (n, s)).
Proof.
  intros Hp Ho. destruct having as [e|]; [|exact Hp]. case_bool_decide; [exact I|].
  eapply tame_bind; [apply build_expression_wf; [apply Hp | exact Ho]|]. intros p Hpw. now apply planned_filter.
Qed.

Lemma build_order_wf order_by n s : planned (n, s) -> items_ok order_by ->
  tame (match order_by with
        | [] => Ok n
        | x :: l =>
            let? key := try_collect (map (fun ed => outcome_map (fun e => (e, ed.2)) (build_expression s ed.1)) (x :: l)) in
            Ok (NOrder n key)
        end) (fun n => planned (n, s)).
Proof.
  intros Hp Ho. assert (tame (try_collect (map (fun ed : AstExpression * Direction => outcome_map (fun e => (e, ed.2)) (build_expression s ed.1)) order_by))
    (fun key => Forall (fun ed => expr_wf (length (sc_columns s)) ed.1) key /\ length key = length order_by)) as Hk.
  { apply tame_collect_map. eapply Forall_impl; [exact Ho|]. intros ed He. eapply tame_map; [apply build_expression_wf; [apply Hp | exact He]|]. auto. }
  destruct order_by; [exact Hp|]. eapply tame_bind; [exact Hk|]. intros keys [Hkey _]. destruct Hp as (Hn & Hs & Hl).
  split; [|now split]. cbn in *. now rewrite Hl.
Qed.

Lemma build_count_node_wf msg (k : Node -> nat -> Node) o n s : (forall i, planned (k n i, s)) -> planned (n, s) -> from_option ast_ok true o = true ->
  tame (match o with None => Ok n | Some e => let? i := build_count msg e in Ok (k n i) end) (fun n => planned (n, s)).
Proof.
  intros Hk Hp Ho. destruct o as [e|]; [|exact Hp]. eapply tame_bind; [now apply build_count_wf|]. intros i _. apply Hk.
Qed.

Lemma build_select_wf q : select_ok q = true ->
  tame (build_select t q) (fun p => match p with PSelect root => node_wf (in_catalog t) key root | _ => False end).
Proof.
  unfold select_ok. rewrite !andb_true_iff. intros [[[[[[[Hsel Hfrom] Hwhere] Hgroup] Hhaving] Horder] Hoff] Hlim].
  apply forallb_Forall in Hsel, Hgroup, Horder. unfold build_select.
  apply (tame_bind _ _ (fun ns => node_wf (in_catalog t) key ns.1 /\ from_scope ns.2 /\ node_labels ns.1 (sc_columns ns.2))).
  { destruct (st_from q) eqn:E; [|rewrite <- E in *; now apply build_from_clause_wf]. cbn. split; [now repeat constructor|].
    split; [apply from_scope_new|]. split; [reflexivity | discriminate]. }
  intros [n s] (Hn & Hs & Hlab). cbn [fst snd] in *. eapply tame_bind; [now apply (expand_select_wf n s)|]. intros select Hselect.
  assert (planned (n, s)) as Hp by (split; [exact Hn|]; split; [apply Hs|]; symmetry; apply Hlab).
  eapply tame_bind; [apply build_optional_wf; [apply Hs | now apply option_ok]|]. intros f Hf. cbv zeta.
  set (n1 := match f with Some predicate => NFilter n predicate | None => n end).
  assert (planned (n1, s)) as Hp1 by (destruct f; [now apply planned_filter | exact Hp]).
  apply (tame_bind _ _ planned).
  { case_bool_decide; [exact Hp1|]. apply build_aggregate_wf; [exact Hp1 | exact Hgroup | now apply collect_aggregates_ok]. }
  intros [n2 s2] Hp2. eapply tame_bind; [now apply build_projection_wf|]. intros [n3 s3] Hp3.
  eapply tame_bind; [now apply build_having_wf|]. intros n4 Hp4. eapply tame_bind; [now apply build_order_wf|]. intros n5 Hp5.
  eapply tame_bind; [apply (build_count_node_wf _ NOffset); [intros; exact Hp5 | exact Hp5 | exact Hoff]|]. intros n6 Hp6.
  eapply tame_bind; [apply (build_count_node_wf _ NLimit); [intros; exact Hp6 | exact Hp6 | exact Hlim]|]. intros n7 (Hn7 & _ & Hl7).
  cbn [tame]. destruct (remap_hidden s3) eqn:E; [|exact Hn7]. split; [exact Hn7|]. cbn in Hl7. rewrite Hl7. now apply remap_hidden_wf.
Qed.

(** ** The other statements *)
Lemma find_position_lt {A} (f : A -> bool) l i : find_position f l = Some i -> (i < length l)%nat.
Proof.
  revert i. induction l as [|x l IH]; cbn; intros i; [discriminate|]. destruct (f x); [intros [= <-]; lia|].
  destruct (find_position f l) as [k|]; [|discriminate]. intros [= <-]. specialize (IH k eq_refl). lia.
Qed.

Definition column_ok (c : AstColumn) : bool := from_option ast_ok true (ac_default c).

Lemma build_create_table_wf n cols : forallb column_ok cols = true -> tame (build_create_table n cols) (plan_wf (in_catalog t) key).
Proof.
  intros Ho. unfold build_create_table. destruct (find_position _ _) as [pk|] eqn:E; [|exact I]. destruct (1 <? _)%nat; [exact I|].
  eapply tame_bind; [apply (tame_collect_map (fun _ => True))|intros cs [_ Hl]; cbn; apply find_position_lt in E; lia].
  apply forallb_Forall in Ho. eapply Forall_impl; [exact Ho|]. intros c Hc. unfold build_column.
  apply (tame_bind _ _ (fun _ => True)); [|intros; exact I]. unfold column_ok in Hc. destruct (ac_default c) as [e|]; [|exact I].
  eapply tame_map; [now apply build_constant_value_wf | auto].
Qed.

Lemma table_scope_wf tb : tame (from_table tb) (fun s => scope_wf s /\ length (sc_columns s) = length (columns tb)).
Proof.
  eapply tame_mono; [apply (add_table_wf tb None)|]. intros s [Hs E]. split; [apply Hs|]. now rewrite E, length_map.
Qed.

Lemma build_delete_wf n w : utf8_valid n = true -> from_option ast_ok true w = true -> tame (build_delete t n w) (plan_wf (in_catalog t) key).
Proof.
  intros Hu Ho. eapply tame_bind; [now apply must_get_table_wf|]. intros tb [Hin Hpk]. eapply tame_bind; [apply table_scope_wf|]. intros s [Hs Hl].
  eapply tame_bind; [apply build_optional_wf; [exact Hs | now apply option_ok]|]. intros f Hf. rewrite Hl in Hf.
  exists tb. exact (conj Hin (conj eq_refl (conj eq_refl (conj eq_refl (conj (conj Hin Hf) (conj eq_refl Hpk)))))).
Qed.

Lemma build_column_map_wf tb names : forall k m,
  base.size m = k -> (forall c v, m !! c = Some v -> (c < length (columns tb))%nat /\ (v < k)%nat) ->
  tame (build_column_map tb k names m)
    (fun m => forall c v, m !! c = Some v -> (c < length (columns tb))%nat /\ (v < base.size m)%nat).
Proof.
  induction names as [|n names IH]; intros k m Hk Hm; cbn [build_column_map]; [now rewrite <- Hk in Hm|].
  destruct (find_position _ _) as [i|] eqn:E; [|exact I]. case_bool_decide as Hi; [exact I|]. apply eq_None_not_Some in Hi.
  apply IH; [rewrite map_size_insert_None by exact Hi; lia|]. intros c v Hc. destruct (decide (i = c)) as [<-|Hne].
  - rewrite lookup_insert_eq in Hc. injection Hc as <-. split; [now apply find_position_lt in E | lia].
  - rewrite lookup_insert_ne in Hc by exact Hne. destruct (Hm c v Hc). lia.
Qed.

Lemma build_insert_wf n cols values : utf8_valid n = true -> forallb (forallb ast_ok) values = true -> tame (build_insert t n cols values) (plan_wf (in_catalog t) key).
Proof.
  intros Hu Ho. eapply tame_bind; [now apply must_get_table_wf|]. intros tb [Hin Hpk].
  apply (tame_bind _ _ (from_option (fun m => forall c v, m !! c = Some v -> (c < length (columns tb))%nat /\ (v < base.size m)%nat) True)).
  { destruct cols as [names|]; [|exact I]. eapply tame_map; [now apply (build_column_map_wf tb names 0 ∅)|]. auto. }
  intros m Hm. eapply tame_bind.
  { apply (tame_collect_map (Forall (expr_wf 0))). apply forallb_Forall in Ho. eapply Forall_impl; [exact Ho|]. intros row Hrow%forallb_Forall.
    eapply tame_mono; [apply (tame_collect_map (expr_wf 0))|now intros r [? _]]. eapply Forall_impl; [exact Hrow|]. intros e.
    apply (build_expression_wf scope_new e (scope_wf_new ∅)). }
  intros rows [Hrows _]. split; [exact Hin|]. split; [exact Hrows | exact Hm].
Qed.

Lemma build_update_wf n set w : utf8_valid n = true -> forallb (fun ce => from_option ast_ok true ce.2) set = true -> from_option ast_ok true w = true ->
  tame (build_update t n set w) (plan_wf (in_catalog t) key).
Proof.
  intros Hu Hset Hw. eapply tame_bind; [now apply must_get_table_wf|]. intros tb [Hin Hpk]. eapply tame_bind; [apply table_scope_wf|]. intros s [Hs Hl].
  eapply tame_bind; [apply build_optional_wf; [exact Hs | now apply option_ok]|]. intros f Hf. rewrite Hl in Hf.
  eapply tame_bind; [apply (tame_collect_map (fun ie => (ie.1 < length (columns tb))%nat /\ expr_wf (length (columns tb)) ie.2))|].
  { apply forallb_Forall in Hset. eapply Forall_impl; [exact Hset|]. intros [c o] Ho. cbn in Ho. unfold build_assignment.
    eapply tame_bind; [apply safe_tame; now apply lookup_column_lt|]. cbn [fst snd]. intros i Hi. rewrite Hl in Hi.
    apply (tame_bind _ _ (expr_wf (length (columns tb)))); [|intros e He; now split]. destruct o as [e|].
    - rewrite <- Hl. now apply build_expression_wf.
    - unfold table_column. destruct (lookup_lt_is_Some_2 _ _ Hi) as [col ->]. cbn. now destruct (col_default col). }
  intros es [Hes _]. exact (conj Hin (conj eq_refl (conj eq_refl (conj (conj Hin Hf) (conj eq_refl (conj Hpk Hes)))))).
Qed.

(** ** Statements *)

(** What the parser ensures of a statement that is planned: UTF-8 names, the
    literals of IS, and none of the statements the session handles itself. *)
Definition statement_ok (st : Statement) : bool :=
  match st with
  | SCreateTable _ cols => forallb column_ok cols
  | SDropTable table _ => utf8_valid table
  | SDelete table w => utf8_valid table && from_option ast_ok true w
  | SInsert table _ values => utf8_valid table && forallb (forallb ast_ok) values
  | SUpdate table set w => utf8_valid table && (forallb (fun ce => from_option ast_ok true ce.2) set && from_option ast_ok true w)
  | SSelect q => select_ok q
  | SBegin _ _ | SCommit | SRollback | SExplain _ => false
  end.

Lemma build_wf st : statement_ok st = true -> tame (build t st) (plan_wf (in_catalog t) key).
Proof.
  destruct st; cbn [statement_ok build]; intros Ho; try discriminate Ho.
  - now apply build_create_table_wf.
  - exact Ho.
  - apply andb_true_iff in Ho as [? ?]. now apply build_delete_wf.
  - apply andb_true_iff in Ho as [? ?]. now apply build_insert_wf.
  - apply andb_true_iff in Ho as [? [? ?]%andb_true_iff]. now apply build_update_wf.
  - eapply tame_mono; [now apply build_select_wf|]. now intros [].
Qed.
End Statements.
