(* ===== verification/SqlPlanSafety.v ===== *)
(** * Planned and optimized statements on the local engine

    The plan of a statement is optimized without losing its well-formedness,
    and executing it on a consistent local database reads rows of the declared
    columns and performs at most one write, whose arguments the engine accepts. *)
From S2P Require Import Prelude Bytes Keycode KeycodeTheory Btree Bincode Engine Float64 SqlValue SqlValueTheory SqlExpr SqlExprTheory SqlPlan SqlExec SqlJoinTheory SqlAggTheory SqlOptimizer SqlOptTheory SqlPushdown SqlSchema SqlLocal SqlLocalRep SqlLocalTheory SqlLocalOps SqlIndexLookup SqlLocalTables SqlStatements SqlAst SqlPlanner SqlWf SqlOptWf SqlPlannerTheory.

(** ** What an outcome returns *)
Definition returns {A} (P : A -> Prop) (o : outcome A) : Prop := match o with Ok a => P a | _ => True end.
Lemma returns_seq {A B} (Q : A -> Prop) (P : B -> Prop) (m : outcome A) k :
  returns Q m -> (forall a, Q a -> returns P (k a)) -> returns P (outcome_bind m k).
Proof. destruct m; cbn; auto. Qed.
Lemma returns_bind {A B} (P : B -> Prop) (m : outcome A) k : (forall a, returns P (k a)) -> returns P (outcome_bind m k).
Proof. destruct m; cbn; auto. Qed.
Lemma returns_tame {A} (P : A -> Prop) (Q : A -> Prop) o : tame o P -> returns Q o -> tame o (fun a => P a /\ Q a).
Proof. destruct o; cbn; auto. Qed.

(** ** The joins of a SELECT

    A RIGHT JOIN may only be the last join of a FROM clause: the optimizer
    mishandles the equijoins over it (see [hash_join_wrong_side]). *)
Fixpoint plain_from (f : From_) : bool :=
  match f with
  | FTable _ _ => true
  | FJoin l r JRight _ => false
  | FJoin l r _ _ => plain_from l && plain_from r
  end.
Definition right_join_last (fs : list From_) : bool :=
  match fs with
  | [FJoin l r _ _] => plain_from l && plain_from r
  | fs => forallb plain_from fs
  end.

Section Joins.
Context {T : Type} `{F64Pow, Regex, Transaction T} (t : T).
Abbreviation pushable := (everywhere joins_pushable).

Lemma build_join_pushable l r j predicate p :
  (forall p, returns (fun ns => join_tree ns.1 /\ pushable ns.1) (build_from t l p)) ->
  (forall p, returns (fun ns => join_tree ns.1 /\ pushable ns.1) (build_from t r p)) ->
  returns (fun ns => pushable ns.1 /\ (j <> JRight -> join_tree ns.1)) (build_from t (FJoin l r j predicate) p).
Proof.
  intros Hl Hr. cbn [build_from]. apply (returns_seq (fun ns => pushable ns.1 /\ (j <> JRight -> join_tree ns.1))).
  - eapply returns_seq; [destruct j; [apply Hl..|apply Hr]|]. intros ls [Jl Pl].
    eapply returns_seq; [destruct j; [apply Hr..|apply Hl]|]. intros rs [Jr Pr].
    apply returns_bind. intros q. destruct j; try (cbn; tauto). cbv zeta. apply returns_bind. intros s. cbn. tauto.
  - intros ns Hns. apply returns_bind. intros s. exact Hns.
Qed.

Lemma build_plain_from f : plain_from f = true -> forall p, returns (fun ns => join_tree ns.1 /\ pushable ns.1) (build_from t f p).
Proof.
  induction f as [n alias|l IHl r IHr j predicate]; intros Hf p.
  - cbn [build_from]. apply (returns_seq (fun ns => join_tree ns.1 /\ pushable ns.1)); [|intros ns Hns; apply returns_bind; intros s; exact Hns].
    apply returns_bind. intros tb. apply returns_bind. intros s. now repeat split.
  - assert (plain_from l = true /\ plain_from r = true /\ j <> JRight) as (Hl & Hr & Hj)
      by (cbn in Hf; destruct j; try discriminate; apply andb_true_iff in Hf as [? ?]; now repeat split).
    pose proof (build_join_pushable l r j predicate p (IHl Hl) (IHr Hr)) as Hb. destruct (build_from t _ p); cbn in *; tauto.
Qed.

Lemma build_from_clause_pushable fs s : right_join_last fs = true -> returns (fun ns => pushable ns.1) (build_from_clause t fs s).
Proof.
  intros Hfs.
  assert (forall gs ns, forallb plain_from gs = true -> join_tree ns.1 /\ pushable ns.1 ->
    returns (fun ns => join_tree ns.1 /\ pushable ns.1) (try_foldl (join_from t) ns gs)) as Hfold.
  { induction gs as [|g gs IH]; intros ns Hg Hns; cbn [try_foldl]; [exact Hns|]. apply andb_true_iff in Hg as [Hg Hgs].
    eapply returns_seq; [|intros ns' Hns'; exact (IH ns' Hgs Hns')]. unfold join_from.
    eapply returns_seq; [exact (build_plain_from g Hg _)|]. intros rs [Jr Pr]. destruct Hns as [Jl Pl]. now repeat split. }
  assert (forallb plain_from fs = true -> returns (fun ns => pushable ns.1) (build_from_clause t fs s)) as Hplain.
  { destruct fs as [|f fs']; [easy|]. cbn [forallb build_from_clause]. intros [Hf Hfs']%andb_true_iff.
    eapply returns_seq; [exact (build_plain_from f Hf s)|]. intros ns Hns.
    pose proof (Hfold fs' ns Hfs' Hns) as Hr. destruct (try_foldl _ ns fs'); cbn in *; tauto. }
  destruct fs as [|[n al|l r j predicate] [|g fs]]; auto. cbn [right_join_last] in Hfs. apply andb_true_iff in Hfs as [Hl Hr].
  cbn [build_from_clause try_foldl]. eapply returns_seq; [apply build_join_pushable; now apply build_plain_from|]. intros ns [Hns _]. exact Hns.
Qed.

Lemma build_select_pushable q : right_join_last (st_from q) = true ->
  returns (fun p => exists root, p = PSelect root /\ pushable root) (build_select t q).
Proof.
  intros Hf. unfold build_select. apply (returns_seq (fun ns => pushable ns.1)).
  { destruct (st_from q) eqn:E; [now repeat split|]. rewrite <- E in *. now apply build_from_clause_pushable. }
  intros [n s] Hn. apply returns_bind. intros select. apply returns_bind. intros f. cbv zeta.
  apply (returns_seq (fun ns => pushable ns.1)).
  { assert (pushable (match f with Some p => NFilter n p | None => n end)) as Hn1 by (destruct f; [now split|exact Hn]).
    case_bool_decide; [exact Hn1|]. unfold build_aggregate. do 4 (apply returns_bind; intros ?). now split. }
  intros ns Hns. apply (returns_seq (fun ns => pushable ns.1)).
  { unfold build_projection. case_bool_decide; [exact Hns|]. do 3 (apply returns_bind; intros ?). now split. }
  intros [n2 s2] Hn2. cbn [fst] in Hn2. apply (returns_seq pushable).
  { destruct (st_having q); [|exact Hn2]. case_bool_decide; [exact I|]. apply returns_bind. intros p. now split. }
  intros n3 Hn3. apply (returns_seq pushable).
  { destruct (st_order_by q); [exact Hn3|]. apply returns_bind. intros keys. now split. }
  intros n4 Hn4. apply (returns_seq pushable).
  { destruct (st_offset q); [|exact Hn4]. apply returns_bind. intros k. now split. }
  intros n5 Hn5. apply (returns_seq pushable).
  { destruct (st_limit q); [|exact Hn5]. apply returns_bind. intros k. now split. }
  intros n6 Hn6. eexists. split; [reflexivity|]. destruct (remap_hidden s2); [now split|exact Hn6].
Qed.
End Joins.

(** ** Optimized plans *)
Section Optimize.
Context `{F64Pow, RegexSpec} (tbl : Table -> Prop).
Abbreviation pwf := (plan_wf tbl (fun _ => True)).

Lemma table_source_pushable tb n : table_source tb n -> everywhere joins_pushable n.
Proof. induction n; cbn [table_source everywhere joins_pushable]; tauto. Qed.

Lemma optimize_values_eq rows : optimize_node (NValues rows) =
  let? rows := try_collect (map (fun row => try_collect (map fold_expression row)) rows) in
  Ok (if bool_decide (rows = []) then NNothing [] else NValues rows).
Proof.
  unfold optimize_node, constant_folding. cbn [node_size node_transform transform_expressions].
  destruct (try_collect _) as [[|r rows']|e|p]; reflexivity.
Qed.

Lemma optimize_values src : values_source src -> tame (optimize_node src) values_source.
Proof.
  destruct src as [| | | | | | |labels| | | | | |rows]; try easy; cbn [values_source]; intros Hv. rewrite optimize_values_eq.
  eapply tame_bind; [apply (tame_collect_wf (Forall (expr_wf 0)) (Forall (expr_wf 0))); [|exact Hv]|].
  - intros row Hr. eapply tame_mono; [apply (tame_collect_wf (expr_wf 0) (expr_wf 0)); [intros e; apply fold_expression_wf|exact Hr]|].
    now intros r [? _].
  - intros r [Hr _]. cbn. now case_bool_decide.
Qed.

Lemma optimize_wf p :
  pwf p -> (forall root, p = PSelect root -> everywhere joins_pushable root) -> tame (optimize p) pwf.
Proof.
  destruct p as [schema|n ie|n pk src|tb m src|tb pk src es|root]; cbn [plan_wf optimize]; intros Hp Hj; try exact Hp.
  - destruct Hp as (tb & Ht & En & Ek & Hs & Hw & Hc & Hpk). eapply tame_bind; [apply (optimize_node_wf tbl); [exact Hw|exact (table_source_pushable tb _ Hs)]|].
    intros src' [Hw' [Hc' Hs']]. exists tb. rewrite Hc'. now repeat split; auto.
  - destruct Hp as (Ht & Hs & Hm). eapply tame_bind; [now apply optimize_values|]. intros src' Hs'. now repeat split.
  - destruct Hp as (Ht & Ek & Hs & Hw & Hc & Hpk & He). eapply tame_bind; [apply (optimize_node_wf tbl); [exact Hw|exact (table_source_pushable tb _ Hs)]|].
    intros src' [Hw' [Hc' Hs']]. cbn [tame plan_wf]. rewrite Hc'. now repeat split; auto.
  - eapply tame_bind; [apply (optimize_node_wf tbl); [exact Hp|now apply Hj]|]. intros root' [Hr _]. exact Hr.
Qed.
End Optimize.

(** ** Reads of the local engine *)
Section Reads.
Context {T : Type} `{F64Pow, RegexSpec, KvSpec T}.
Context {BT : Bincode stored_table} {BR : Bincode stored_row} {BI : Bincode stored_ids}.
Context (D : sql_db) (t : T) (Hrep : db_rep D t) (Hok : db_ok D).
Let W : db_wf D := core_wf D (proj1 Hok).

Lemma local_catalog_wf : catalog_wf t.
Proof.
  intros n Hn. cbn [get_table local_transaction]. rewrite (get_table_spec D) by auto.
  intros tb E. destruct (wf_table D W n tb E) as [Hname _]. split; [exact Hname|].
  destruct (so_pk _ _ (core_schema D (proj1 Hok) n tb E)) as (c & Ec & _). now apply lookup_lt_Some in Ec.
Qed.

Lemma local_catalog_table tb : in_catalog t tb -> d_table D (table_name tb) = Some tb.
Proof. intros [Hu E]. cbn [get_table local_transaction] in E. rewrite (get_table_spec D) in E by auto. now injection E. Qed.

(** A row of a table. *)
Definition row_of (tb : Table) (row : Row) : Prop := exists id, d_row D (table_name tb) id = Some row.

Lemma row_of_width tb row : in_catalog t tb -> row_of tb row -> length row = length (columns tb).
Proof.
  intros Ht [id Hr]. destruct (core_row D (proj1 Hok) _ _ _ Hr) as (tb' & Et & Hty & _). rewrite (local_catalog_table tb Ht) in Et.
  injection Et as <-. apply Hty.
Qed.

Lemma local_get_any tb ids : exists rows, local_get (table_name tb) ids t = Ok rows /\ Forall (row_of tb) rows.
Proof.
  induction ids as [|id ids (rows & E & Hf)]; [exists []; now split|]. cbn [local_get].
  destruct (get_row_any D t (table_name tb) id Hrep W) as (o & -> & Ho). rewrite E. cbn [outcome_bind].
  eexists. split; [reflexivity|]. destruct o as [row|]; [|exact Hf]. constructor; [exact (Ho row eq_refl) | exact Hf].
Qed.

Lemma lookup_index_any n c vs : exists ids, local_lookup_index n c vs t = Ok ids.
Proof.
  unfold local_lookup_index. assert (exists sets, try_collect (map (fun v => get_index n c v t) vs) = Ok sets) as [sets ->]; [|now eexists].
  induction vs as [|v vs [sets E]]; [now exists []|]. cbn [map try_collect]. destruct (get_index_any D t n c v Hrep W) as [ids ->].
  cbn [outcome_bind]. rewrite E. now eexists.
Qed.

Lemma scan_any tb f : in_catalog t tb ->
  exists rows, Forall (row_of tb) rows /\
    local_scan (table_name tb) f t = Ok (match f with Some p => filter_rows p (map Ok rows) | None => map Ok rows end).
Proof.
  intros Ht. destruct (local_scan_spec D t (table_name tb) Hrep W (proj1 Ht)) as (ids & E & _).
  exists (omap (d_row D (table_name tb)) ids). split; [apply Forall_forall; intros r (id & _ & Hr)%list_elem_of_omap; now exists id|].
  unfold local_scan in *. destruct (scan_values _ _ _) as [rows|e|p]; [|discriminate E ..]. now injection E as ->.
Qed.

Lemma local_reads_wf : reads_wf (fun _ => True) t.
Proof.
  split.
  - intros tb f Ht Hf. cbn [txn_scan local_transaction]. destruct (scan_any tb f Ht) as (rows & Hr & ->).
    assert (rows_wf (length (columns tb)) (map Ok rows)) as Hw.
    { apply rows_wf_ok. eapply Forall_impl; [exact Hr|]. intros r. now apply row_of_width. }
    cbn [tame]. destruct f; [now apply filter_rows_wf | exact Hw].
  - intros tb ids Ht _. cbn [txn_get local_transaction]. destruct (local_get_any tb ids) as (rows & -> & Hr).
    cbn [tame]. eapply Forall_impl; [exact Hr|]. intros r. now apply row_of_width.
  - intros tb i c vs Ht _ _. cbn [txn_lookup_index local_transaction]. destruct (lookup_index_any (table_name tb) (col_name c) vs) as [ids ->].
    apply Forall_true. auto.
Qed.

(** The source of a DELETE or an UPDATE yields rows of the table. *)
Lemma filter_rows_returns (P : Row -> Prop) p rows : Forall (returns P) rows -> Forall (returns P) (filter_rows p rows).
Proof.
  induction 1 as [|[row|e|q] rows Hr _ IH]; cbn [filter_rows]; [constructor| |now constructor..].
  destruct (predicate_holds _ p row) as [[]|e|q]; auto; constructor; auto; exact I.
Qed.

Lemma source_rows tb n rows :
  in_catalog t tb -> table_source tb n -> execute_node n t = Ok rows -> Forall (returns (row_of tb)) rows.
Proof.
  intros Ht. assert (forall rows, Forall (row_of tb) rows -> Forall (returns (row_of tb)) (map Ok rows)) as Hmap
    by (intros rs Hrs; now apply Forall_fmap).
  revert rows. induction n as [s IHs g a|s IHs p|l IHl lc r IHr rc o|tb' c vs al|tb' ks al|s IHs k|l IHl r IHr p o|cs|s IHs k|s IHs ob
    |s IHs es al|s IHs ts|tb' f al|vs]; cbn [table_source execute_node]; intros rows Hs; try easy.
  - destruct (execute_node s t) as [rs|e|q]; [|discriminate..]. intros [= <-]. now apply filter_rows_returns, IHs.
  - subst tb'. destruct (columns tb !! c) as [col|]; [|discriminate]. cbn [txn_lookup_index txn_get local_transaction].
    destruct (lookup_index_any (table_name tb) (col_name col) vs) as [ids ->]. cbn [outcome_bind].
    destruct (local_get_any tb ids) as (rs & -> & Hr). intros [= <-]. auto.
  - subst tb'. cbn [txn_get local_transaction]. destruct (local_get_any tb ks) as (rs & -> & Hr). intros [= <-]. auto.
  - intros [= <-]. constructor.
  - subst tb'. cbn [txn_scan local_transaction]. destruct (scan_any tb f Ht) as (rs & Hr & ->). intros [= <-].
    destruct f; [apply filter_rows_returns|]; auto.
Qed.

(** ** Writes of the local engine *)
Lemma delete_ids tb rows ids :
  d_table D (table_name tb) = Some tb -> Forall (returns (row_of tb)) rows ->
  try_collect (map (fun item => let? row := item in row_nth row (primary_key tb)) rows) = Ok ids ->
  Forall (fun id => is_Some (d_row D (table_name tb) id)) ids.
Proof.
  intros Ht Hr. revert ids. induction Hr as [|item rows Hi _ IH]; cbn [map try_collect]; intros ids; [intros [= <-]; constructor|].
  destruct item as [row|e|q]; [|discriminate..]. destruct Hi as [id Hid]. cbn [outcome_bind]. unfold row_nth at 1.
  rewrite (row_key D tb Hok Ht id row Hid). cbn [outcome_bind]. destruct (try_collect _) as [ids'|e|q]; [|discriminate..].
  intros [= <-]. constructor; [eauto | auto].
Qed.

Lemma existing_ids_typed tb ids :
  d_table D (table_name tb) = Some tb -> Forall (fun id => is_Some (d_row D (table_name tb) id)) ids -> ids_typed D (table_name tb) ids.
Proof.
  intros Ht Hi. split.
  - eapply Forall_impl; [exact Hi|]. intros id [row Hr]. apply (wf_row D W _ _ _ Hr).
  - intros tb' ct E Hct. rewrite Ht in E. injection E as <-. eapply Forall_impl; [exact Hi|]. intros id [row Hr].
    now apply (row_key_typed D tb ct id row (proj1 Hok)).
Qed.

(** The updates of a statement: one per row, of rows that exist. *)
Definition updates_sound (tb : Table) (updates : list (Value * Row)) : Prop :=
  NoDup updates.*1 /\ Forall (fun u => is_Some (d_row D (table_name tb) u.1) /\ length u.2 = length (columns tb)) updates.

Lemma omap_insert_Forall {K V} (cmp : K -> K -> comparison) (P : K -> Prop) (Q : V -> Prop) k v m :
  P k -> Q v -> Forall (fun e => P e.1 /\ Q e.2) m -> Forall (fun e => P e.1 /\ Q e.2) (omap_insert cmp k v m).
Proof.
  intros Hk Hv. induction 1 as [|[k' v'] m [Hk' Hv'] Hm IH]; cbn [omap_insert]; [now repeat constructor|].
  destruct (cmp k k'); repeat constructor; auto.
Qed.

Lemma update_rows_sound tb es rows : in_catalog t tb ->
  Forall (fun ie => (ie.1 < length (columns tb))%nat /\ expr_wf (length (columns tb)) ie.2) es ->
  rows_wf (length (columns tb)) rows -> Forall (returns (row_of tb)) rows ->
  tame (update_rows (primary_key tb) rows es []) (updates_sound tb).
Proof.
  intros Hin Hes. pose proof (local_catalog_table tb Hin) as Ht. destruct (schema_key_type D tb (core_schema D (proj1 Hok) _ _ Ht)) as [ct Hct].
  set (inv := fun us : list (Value * Row) => omap_ok value_cmp (in_column ct) us /\
    Forall (fun u => is_Some (d_row D (table_name tb) u.1) /\ length u.2 = length (columns tb)) us).
  assert (inv []) as Hinv by (split; [split|]; constructor). revert Hinv. generalize (@nil (Value * Row)).
  induction rows as [|item rows IH]; intros us [Hm Hu] Hw Hr; cbn [update_rows].
  { split; [exact (omap_ok_NoDup value_cmp (in_column ct) value_cmp_refl us Hm) | exact Hu]. }
  apply Forall_cons in Hw as [Hwi Hw]. apply Forall_cons in Hr as [Hri Hr]. destruct item as [row|e|q]; [|exact I|exact Hwi].
  cbn [tame returns outcome_bind] in Hwi, Hri |- *. eapply tame_bind; [now apply (update_row_wf row (length (columns tb)))|]. intros update Hl.
  destruct Hri as [id Hid]. unfold row_nth. rewrite (row_key D tb Hok Ht id row Hid). cbn [outcome_bind]. apply IH; [|assumption..]. split.
  - apply omap_insert_ok; [apply value_cmp_antisym | apply value_cmp_trans | | exact Hm]. now apply (row_key_typed D tb ct id row (proj1 Hok)).
  - apply (omap_insert_Forall value_cmp (fun id => is_Some (d_row D (table_name tb) id)) (fun r => length r = length (columns tb))); eauto.
Qed.

(** The write of a plan, from the rows its source yields; a query writes
    nothing. *)
Definition plan_write (p : Plan) : outcome (option sql_op) :=
  match p with
  | PCreateTable schema => Ok (Some (OpCreate schema))
  | PDropTable name if_exists => Ok (Some (OpDrop name if_exists))
  | PDelete table pk source =>
      let? rows := execute_node source t in
      let? ids := try_collect (map (fun item => let? row := item in row_nth row pk) rows) in
      Ok (Some (OpDelete table ids))
  | PInsert table column_map source =>
      let? rows := execute_node source t in
      let? rows := try_collect (map (fun item => let? values := item in insert_row table column_map values) rows) in
      Ok (Some (OpInsert (table_name table) rows))
  | PUpdate table pk source expressions =>
      let? rows := execute_node source t in
      let? updates := update_rows pk rows expressions [] in
      Ok (Some (OpUpdate (table_name table) updates))
  | PSelect _ => Ok None
  end.

(** What the engine stores as it is given: values of their Rust types with
    normalized floats, and schemas with distinct column names. *)
Definition op_normal (op : sql_op) : Prop :=
  match op with
  | OpCreate tb => stored_table tb /\ NoDup (map col_name (columns tb))
  | OpInsert _ rows => Forall stored_row rows
  | OpUpdate _ rows => Forall (fun ir => stored_row ir.2) rows
  | OpDrop _ _ | OpDelete _ _ => True
  end.

(** A write of normal values fails with an error or has its effect on the
    database, which stays consistent; it does not panic. *)
Definition writes_soundly {A} (op : sql_op) (out : outcome A * T) : Prop :=
  match out with
  | (Ok _, t') => exists D', op_effect D op D' /\ db_ok D' /\ db_rep D' t'
  | (Err _, _) => True
  | (Panic _, _) => False
  end.

(** A plan reads, and then makes its write, if it has one and the reads succeed. *)
Definition runs_soundly (p : Plan) : Prop :=
  match plan_write p with
  | Ok (Some op) =>
      outcome_map (fun _ => tt) (execute p t).1 = (run_sql_op op t).1 /\ (execute p t).2 = (run_sql_op op t).2 /\
      (op_normal op -> op_ok D op /\ writes_soundly op (execute p t))
  | Ok None => (execute p t).2 = t /\ tame (execute p t).1 result_wf
  | Err e => execute p t = (Err e, t)
  | Panic m => execute p t = (Panic m, t) /\ tame (@Panic unit m) (fun _ => True)
  end.

Lemma op_writes_soundly {A} op (out : outcome A * T) :
  outcome_map (fun _ => tt) out.1 = (run_sql_op op t).1 -> out.2 = (run_sql_op op t).2 ->
  op_ok D op -> op_ok D op /\ writes_soundly op out.
Proof.
  intros E1 E2 Ho. split; [exact Ho|]. pose proof (sql_op_triple D op Hok Ho t Hrep) as Ht.
  destruct (run_sql_op op t) as [r t'], out as [[a|e|q] t'']; cbn in *; subst; auto.
Qed.

Abbreviation pwf := (plan_wf (in_catalog t) (fun _ => True)).

Lemma source_sound src : node_wf (in_catalog t) (fun _ => True) src -> tame (execute_node src t) (rows_wf (node_columns src)).
Proof. apply (execute_node_wf (fun _ => True)), local_reads_wf. Qed.

Ltac by_outcomes :=
  cbn [outcome_map outcome_bind];
  repeat (match goal with
          | |- context [match ?o with Ok _ => _ | Err _ => _ | Panic _ => _ end] => destruct o
          | |- context [match ?m t with pair _ _ => _ end] => destruct (m t)
          | |- context [outcome_bind ?o _] => destruct o
          | |- context [outcome_map _ ?o] => destruct o
          end; cbn [outcome_map outcome_bind]);
  now repeat split.

(** Plans that prepare a write and make it. *)
Lemma write_soundly {A} p (prepare : outcome A) (op : A -> sql_op) (result : A -> ExecutionResult) :
  plan_write p = outcome_map (fun a => Some (op a)) prepare ->
  execute p t = (let! a := st_lift prepare in run_sql_op (op a) ;;; st_ret (result a)) t ->
  tame prepare (fun a => op_normal (op a) -> op_ok D (op a)) -> runs_soundly p.
Proof.
  intros Ep Ee Hp. unfold runs_soundly. rewrite Ep, Ee. unfold st_bind, st_lift, st_ret.
  destruct prepare as [a|e|q]; cbn [outcome_map] in *; [|reflexivity|now split].
  assert (forall out : outcome ExecutionResult * T,
    out = match run_sql_op (op a) t with (Ok _, t') => (Ok (result a), t') | (Err e, t') => (Err e, t') | (Panic q, t') => (Panic q, t') end ->
    outcome_map (fun _ => tt) out.1 = (run_sql_op (op a) t).1 /\ out.2 = (run_sql_op (op a) t).2) as Hout.
  { intros out ->. now destruct (run_sql_op (op a) t) as [[[]|e|q] t']. }
  destruct (Hout _ eq_refl) as [E1 E2]. split; [exact E1|]. split; [exact E2|]. intros Hn. apply op_writes_soundly; auto.
Qed.

Lemma delete_soundly n pk src : pwf (PDelete n pk src) -> runs_soundly (PDelete n pk src).
Proof.
  intros (tb & Hin & <- & <- & Hs & Hw & Hc & Hpk). pose proof (local_catalog_table tb Hin) as Ht.
  apply (write_soundly _ (let? rows := execute_node src t in try_collect (map (fun item => let? row := item in row_nth row (primary_key tb)) rows))
    (OpDelete (table_name tb)) (fun ids => RDelete (Z.of_nat (length ids)))).
  - cbn [plan_write]. by_outcomes.
  - cbn [execute run_sql_op]. unfold exec_delete, st_bind, st_lift, st_read, st_ret. cbn [txn_delete local_transaction]. by_outcomes.
  - pose proof (source_sound src Hw) as Hrows. pose proof (fun rows => source_rows tb src rows Hin Hs) as Hof.
    destruct (execute_node src t) as [rows|e|q]; [|exact Hrows..]. specialize (Hof rows eq_refl).
    pose proof (fun ids => delete_ids tb rows ids Ht Hof) as Hids. cbn [outcome_bind tame] in *.
    assert (tame (try_collect (map (fun item => let? row := item in row_nth row (primary_key tb)) rows)) (fun _ => True)) as Hc'.
    { eapply tame_mono; [apply (tame_collect_map (fun _ => True))|auto]. eapply Forall_impl; [exact Hrows|]. intros item Hi.
      eapply tame_bind; [exact Hi|]. intros row Hl. apply tame_row_nth. cbn in Hl. now rewrite Hl. }
    destruct (try_collect _) as [ids|e|q]; [|exact Hc'..]. intros _. split; [apply Hin|]. apply (existing_ids_typed tb ids Ht); auto.
Qed.

Lemma values_rows src : values_source src -> tame (execute_node src t) (Forall (fun item => tame item (fun _ => True))).
Proof.
  destruct src as [| | | | | | |labels| | | | | |rows]; try easy; cbn [values_source execute_node]; intros Hv; [constructor|].
  apply Forall_fmap. eapply Forall_impl; [exact Hv|]. intros row Hr. cbn.
  eapply tame_mono; [apply (tame_collect_map (fun _ => True))|auto]. eapply Forall_impl; [exact Hr|]. intros e. apply (tame_evaluate None).
Qed.

Lemma insert_soundly tb m src : pwf (PInsert tb m src) -> runs_soundly (PInsert tb m src).
Proof.
  intros (Hin & Hs & Hm).
  apply (write_soundly _ (let? rows := execute_node src t in
      try_collect (map (fun item => let? values := item in insert_row tb m values) rows))
    (OpInsert (table_name tb)) (fun rows => RInsert (Z.of_nat (length rows)))).
  - cbn [plan_write]. by_outcomes.
  - cbn [execute run_sql_op]. unfold exec_insert, st_bind, st_lift, st_read, st_ret. cbn [txn_insert local_transaction]. by_outcomes.
  - eapply tame_bind; [exact (values_rows src Hs)|]. intros rows Hr. eapply tame_mono; [apply (tame_collect_map (fun _ => True))|].
    + eapply Forall_impl; [exact Hr|]. intros item Hi. eapply tame_bind; [exact Hi|]. intros values _.
      eapply tame_mono; [now apply insert_row_wf | auto].
    + intros rs _ Hn. split; [apply Hin | exact Hn].
Qed.

Lemma update_soundly tb pk src es : pwf (PUpdate tb pk src es) -> runs_soundly (PUpdate tb pk src es).
Proof.
  intros (Hin & <- & Hs & Hw & Hc & Hpk & He). pose proof (local_catalog_table tb Hin) as Ht.
  apply (write_soundly _ (let? rows := execute_node src t in update_rows (primary_key tb) rows es [])
    (OpUpdate (table_name tb)) (fun rows => RUpdate (Z.of_nat (length rows)))).
  - cbn [plan_write]. by_outcomes.
  - cbn [execute run_sql_op]. unfold exec_update, st_bind, st_lift, st_read, st_ret. cbn [txn_update local_transaction]. by_outcomes.
  - pose proof (source_sound src Hw) as Hrows. pose proof (fun rows => source_rows tb src rows Hin Hs) as Hof. rewrite Hc in *.
    destruct (execute_node src t) as [rows|e|q]; [|exact Hrows..]. cbn [outcome_bind tame] in *.
    eapply tame_mono; [now apply (update_rows_sound tb es rows Hin He Hrows), Hof|]. intros us [Hnd Hu] Hn. split; [apply Hin|].
    intros tb' E. rewrite Ht in E. injection E as <-. split; [exact Hnd|]. cbn [op_normal] in Hn. rewrite Forall_forall in *.
    intros u Hin'. destruct (Hu u Hin'). auto.
Qed.

Lemma plan_runs_soundly p : pwf p -> runs_soundly p.
Proof.
  destruct p as [schema|n ie|n pk src|tb m src|tb pk src es|root];
    [| |apply delete_soundly|apply insert_soundly|apply update_soundly|].
  - intros _. apply (write_soundly _ (Ok schema) OpCreate (fun tb => RCreateTable (table_name tb))); [reflexivity | reflexivity |].
    cbn. tauto.
  - intros Hn. unfold runs_soundly. cbn [plan_write execute drop_table local_transaction]. unfold st_bind, st_ret.
    assert (forall out : outcome ExecutionResult * T,
      out = match local_drop_table n ie t with (Ok b, t') => (Ok (RDropTable n b), t') | (Err e, t') => (Err e, t') | (Panic q, t') => (Panic q, t') end ->
      outcome_map (fun _ => tt) out.1 = (run_sql_op (OpDrop n ie) t).1 /\ out.2 = (run_sql_op (OpDrop n ie) t).2) as Hout.
    { intros out ->. cbn [run_sql_op]. unfold st_bind, st_ret. now destruct (local_drop_table n ie t) as [[]]. }
    destruct (Hout _ eq_refl) as [E1 E2]. split; [exact E1|]. split; [exact E2|]. intros _. apply op_writes_soundly; auto.
  - intros Hp. unfold runs_soundly. cbn [plan_write]. split; [|exact (execute_select_wf (fun _ => True) t root local_reads_wf Hp)].
    cbn [execute]. unfold st_bind, st_lift, st_read, st_ret. by_outcomes.
Qed.

(** ** From the statement to its effects *)
Definition plan_of (st : Statement) : outcome Plan := let? p := build t st in optimize p.

Lemma build_pushable st : statement_ok st = true -> (forall q, st = SSelect q -> right_join_last (st_from q) = true) ->
  returns (fun p => forall root, p = PSelect root -> (exists q, st = SSelect q) /\ everywhere joins_pushable root) (build t st).
Proof.
  intros Hst Hj. destruct st as [| | | | n cols| | | | |q]; try discriminate Hst; cbn [build].
  all: try (unfold build_delete, build_insert, build_update; repeat (apply returns_bind; intros ?); discriminate).
  - unfold build_create_table. destruct (find_position _ _); [|exact I]. destruct (_ <? _)%nat; [exact I|]. apply returns_bind. discriminate.
  - pose proof (build_select_pushable t q (Hj q eq_refl)) as Hb. destruct (build_select t q) as [p|e|m]; [|exact I..].
    destruct Hb as (root & -> & Hp). intros r [= <-]. eauto.
Qed.

Lemma plan_of_wf st :
  statement_ok st = true -> (forall q, st = SSelect q -> right_join_last (st_from q) = true) -> tame (plan_of st) pwf.
Proof.
  intros Hst Hj. eapply tame_bind.
  - apply returns_tame; [exact (build_wf (fun _ => True) t local_catalog_wf st Hst) | exact (build_pushable st Hst Hj)].
  - intros p [Hp Hq]. apply optimize_wf; [exact Hp|]. intros root E. now apply (Hq root).
Qed.

(** Only queries are planned as queries. *)
Lemma plan_of_write st : statement_ok st = true -> (forall q, st <> SSelect q) -> returns (fun p => forall root, p <> PSelect root) (plan_of st).
Proof.
  intros Hst Hs. eapply returns_seq; [apply (build_pushable st Hst); intros q Hq; now destruct (Hs q)|]. intros p Hp.
  assert (forall root, p <> PSelect root) as Hn by (intros root E; destruct (Hp root E) as [[q Hq] _]; now apply (Hs q)).
  destruct p as [| | | | |root]; cbn [optimize]; try (apply returns_bind; intros ?); try discriminate. now destruct (Hn root).
Qed.
End Reads.
