(* ===== verification/SqlMeaning.v ===== *)
(** * The meaning of SQL expressions

    A reference semantics of the syntax tree: names are given values by an
    environment, [>=], [<=] and [!=] compare directly.  The planner's expressions
    evaluate to it, names being resolved by the scope. *)
From Stdlib Require Import Floats.SpecFloat.
From S2P Require Import Prelude Bytes Keycode KeycodeTheory Float64 SqlValue SqlValueTheory SqlExpr SqlExprTheory SqlPlan SqlExec SqlAst SqlPlanner SqlPlannerTheory.

(** ** Comparisons that the planner expands *)
Definition f64_le (a b : f64) : bool := SFleb (f64_decode a) (f64_decode b).

Definition eval_not_equal (lhs rhs : Value) : outcome Value :=
  match lhs, rhs with
  | Boolean l, Boolean r => Ok (Boolean (xorb l r))
  | Integer l, Integer r => Ok (Boolean (negb (l =? r)))
  | Integer l, Float r => Ok (Boolean (negb (f64_eq (f64_of_i64 l) r)))
  | Float l, Integer r => Ok (Boolean (negb (f64_eq l (f64_of_i64 r))))
  | Float l, Float r => Ok (Boolean (negb (f64_eq l r)))
  | String l, String r => Ok (Boolean (negb (bool_decide (l = r))))
  | Null, _ | _, Null => Ok Null
  | _, _ => errinput "can't compare"
  end.

(** [lhs <= rhs]; NaN is neither below nor above a number. *)
Definition eval_at_most (lhs rhs : Value) : outcome Value :=
  match lhs, rhs with
  | Boolean l, Boolean r => Ok (Boolean (implb l r))
  | Integer l, Integer r => Ok (Boolean (l <=? r))
  | Integer l, Float r => Ok (Boolean (f64_le (f64_of_i64 l) r))
  | Float l, Integer r => Ok (Boolean (f64_le l (f64_of_i64 r)))
  | Float l, Float r => Ok (Boolean (f64_le l r))
  | String l, String r => Ok (Boolean (lex_le l r))
  | Null, _ | _, Null => Ok Null
  | _, _ => errinput "can't compare"
  end.
Definition eval_at_least (lhs rhs : Value) : outcome Value := eval_at_most rhs lhs.

Lemma f64_le_lt a b : f64_le a b = f64_lt a b || f64_eq a b.
Proof. unfold f64_le, f64_lt, f64_eq, SFleb, SFltb, SFeqb. now destruct (SFcompare _ _) as [[]|]. Qed.

Lemma lex_le_lt a b : lex_le a b = lex_lt a b || bool_decide (a = b).
Proof. unfold lex_le. apply orb_comm. Qed.

Lemma eval_or_booleans a b : eval_or (Boolean a) (Boolean b) = Ok (Boolean (a || b)).
Proof. now destruct a, b. Qed.

(** The expansions of the planner. *)
Lemma at_most_expanded x y : (let? a := eval_less_than x y in let? b := eval_equal x y in eval_or a b) = eval_at_most x y.
Proof.
  destruct x as [|[]|i|f|s], y as [|[]|j|g|u]; try reflexivity; cbn [eval_less_than eval_equal eval_at_most outcome_bind];
    rewrite eval_or_booleans, ?f64_le_lt, ?lex_le_lt; try reflexivity. do 2 f_equal. lia.
Qed.

Lemma at_least_expanded x y : (let? a := eval_greater_than x y in let? b := eval_equal x y in eval_or a b) = eval_at_least x y.
Proof.
  unfold eval_at_least. destruct x as [|[]|i|f|s], y as [|[]|j|g|u]; try reflexivity;
    cbn [eval_greater_than eval_equal eval_at_most outcome_bind]; rewrite eval_or_booleans; unfold f64_gt; rewrite ?f64_le_lt, ?lex_le_lt;
    try (rewrite (f64_eq_sym f); reflexivity); try (rewrite (f64_eq_sym g); reflexivity); do 2 f_equal; [lia|].
  f_equal. apply bool_decide_ext. split; congruence.
Qed.

Lemma not_equal_expanded x y : (let? a := eval_equal x y in eval_not a) = eval_not_equal x y.
Proof. destruct x as [|[]| | |], y as [|[]| | |]; reflexivity. Qed.

(** ** The reference semantics *)
Section Meaning.
Context `{F64Pow, Regex} (col : option bytes -> bytes -> outcome Value).

Fixpoint meaning (e : AstExpression) : outcome Value :=
  let unary f a := let? a := meaning a in f a in
  let binary f a b := let? a := meaning a in let? b := meaning b in f a b in
  match e with
  | EAll => errinput "unsupported use of *"
  | ELiteral l => Ok (literal_value l)
  | EColumn table name => col table name
  | EFunction name [arg] =>
      if bool_decide (name = name_of "sqrt") then unary eval_square_root arg else errinput "unknown function"
  | EFunction _ _ => errinput "unknown function"
  | EOperator op =>
      match op with
      | OAnd l r => binary eval_and l r
      | ONot e => unary eval_not e
      | OOr l r => binary eval_or l r
      | OEqual l r => binary eval_equal l r
      | OGreaterThan l r => binary eval_greater_than l r
      | OGreaterThanOrEqual l r => binary eval_at_least l r
      | OIs e l => eval_is (meaning e) (literal_value l)
      | OLessThan l r => binary eval_less_than l r
      | OLessThanOrEqual l r => binary eval_at_most l r
      | OLike l r => binary eval_like l r
      | ONotEqual l r => binary eval_not_equal l r
      | OAdd l r => binary checked_add l r
      | ODivide l r => binary checked_div l r
      | OExponentiate l r => binary checked_pow l r
      | OFactorial e => unary eval_factorial e
      | OIdentity e => unary eval_identity e
      | ORemainder l r => binary checked_rem l r
      | OMultiply l r => binary checked_mul l r
      | ONegate e => unary eval_negate e
      | OSubtract l r => binary checked_sub l r
      end
  end.
End Meaning.

Section Evaluation.
Context `{F64Pow, Regex}.

(** The value of a name in a row that a scope describes. *)
Definition column_value (s : Scope) (row : Row) (table : option bytes) (name : bytes) : outcome Value :=
  let? i := lookup_column table name s in evaluate (Some row) (Column i).

Lemma bind_twice {A B} (o : outcome A) (p : outcome B) (f g : A -> B -> outcome Value) (h : Value -> Value -> outcome Value) :
  (let? a := (let? x := o in let? y := p in f x y) in let? b := (let? x := o in let? y := p in g x y) in h a b) =
  (let? x := o in let? y := p in let? a := f x y in let? b := g x y in h a b).
Proof. destruct o as [x| |]; cbn; try reflexivity. now destruct p. Qed.

Lemma bind_bind2 {A B} (o : outcome A) (p : outcome B) (f : A -> B -> outcome Value) (h : Value -> outcome Value) :
  (let? a := (let? x := o in let? y := p in f x y) in h a) = (let? x := o in let? y := p in let? a := f x y in h a).
Proof. destruct o as [x| |]; cbn; try reflexivity. now destruct p. Qed.

Lemma bind_ext2 {A B C} (o : outcome A) (p : outcome B) (f g : A -> B -> outcome C) :
  (forall x y, f x y = g x y) -> (let? x := o in let? y := p in f x y) = (let? x := o in let? y := p in g x y).
Proof. intros Hfg. destruct o as [x| |]; cbn; try reflexivity. destruct p; cbn; auto. Qed.

Lemma build_expression_meaning s row e : sc_aggregates s = [] -> forall x, build_expression s e = Ok x ->
  evaluate (Some row) x = meaning (column_value s row) e.
Proof.
  intros Ha. assert (forall e, lookup_aggregate e s = None) as Hn by (intros; unfold lookup_aggregate; now rewrite Ha).
  induction e as [|t n|l|n args IH|op IH] using AstExpression_rect_nested; intros x; cbn [build_expression]; rewrite Hn; intros E.
  - discriminate.
  - cbn [meaning]. unfold column_value. destruct (lookup_column t n s) as [i| |]; cbn in *; try discriminate. now injection E as <-.
  - now injection E as <-.
  - destruct args as [|a [|b args]]; try discriminate. cbn [meaning]. case_bool_decide; [|discriminate]. rewrite Forall_singleton in IH.
    destruct (build_expression s a) as [y| |]; try discriminate. injection E as <-. cbn [evaluate]. now rewrite (IH y eq_refl).
  - destruct op; cbn [operands] in IH; rewrite !Forall_cons in IH; destruct IH as [IHa IH];
      repeat match goal with
      | E : outcome_bind ?o _ = Ok _ |- _ => destruct o eqn:?; cbn [outcome_bind] in E; [|discriminate E ..]
      end; cbn [meaning];
      try (injection E as <-; cbn [evaluate]; rewrite (IHa _ eq_refl); try reflexivity; destruct IH as [IHb _]; rewrite (IHb _ eq_refl); try reflexivity).
    + rewrite bind_twice. apply bind_ext2, at_least_expanded.
    + destruct literal as [| | |f|]; cbn [literal_value] in *; try discriminate E.
      * injection E as <-. cbn [evaluate]. now rewrite (IHa _ eq_refl).
      * destruct (f64_is_nan f); [|discriminate]. injection E as <-. cbn [evaluate]. now rewrite (IHa _ eq_refl).
    + rewrite bind_twice. apply bind_ext2, at_most_expanded.
    + rewrite bind_bind2. apply bind_ext2, not_equal_expanded.
Qed.
End Evaluation.
