(* ===== verification/SqlPlannerClaims.v ===== *)
(** * The guarantees of the planner

    Statements on a consistent local database are planned, optimized and executed
    without panics other than the overflow of integer division; names are resolved
    to the columns of the FROM clause; expressions mean what the syntax says. *)
From S2P Require Import Prelude Bytes Keycode KeycodeTheory Btree Bincode Engine Memory Mvcc MvccKeys MvccAbs MvccScan MvccSpec Float64 SqlValue SqlValueTheory SqlExpr SqlExprTheory SqlPlan SqlExec SqlJoinTheory SqlOptimizer SqlOptTheory SqlSchema SqlLocal SqlLocalRep SqlLocalTheory SqlLocalOps SqlLocalTables SqlStatements SqlMvcc SqlSession SqlLocalClaims SqlWf SqlAst SqlPlanner SqlPlannerTheory SqlOptWf SqlPlanSafety SqlMeaning.

Section Claims.
Context {T : Type} `{F64Pow, RegexSpec, Transaction T}.

(** C19: names are resolved to the columns of the FROM clause, joins of all
    kinds included.  An unqualified name is resolved to a column if and only if
    that is the only one with the name (it is ambiguous or unknown otherwise); a
    qualified name is resolved to a column of that table and name, whenever the
    clause has one. *)
Theorem sql_name_resolution t from node s :
  catalog_wf t -> forallb from_ok from = true -> build_from_clause t from scope_new = Ok (node, s) ->
  length (sc_columns s) = node_columns node /\
  (forall n i, lookup_column None n s = Ok i <->
     (i < node_columns node)%nat /\ (exists tb, column_label node i = Ok (Qualified tb n)) /\
     forall j tb, (j < node_columns node)%nat -> column_label node j = Ok (Qualified tb n) -> j = i) /\
  (forall tb n i, lookup_column (Some tb) n s = Ok i -> (i < node_columns node)%nat /\ column_label node i = Ok (Qualified tb n)) /\
  (forall tb n i, (i < node_columns node)%nat -> column_label node i = Ok (Qualified tb n) -> exists j, lookup_column (Some tb) n s = Ok j).
Proof.
  intros Hc Ho E. pose proof (build_from_clause_wf (fun _ => True) t Hc from Ho) as Hb. rewrite E in Hb.
  destruct Hb as (_ & Hs & Hl & Hn). cbn [fst snd] in *. split; [exact Hl|].
  exact (conj (from_lookup_unqualified node s Hs (conj Hl Hn)) (from_lookup_qualified node s Hs (conj Hl Hn))).
Qed.

(** C20: expressions mean what the syntax says.  In a scope without aggregates,
    an expression that is built evaluates in any row to the reference meaning of
    the syntax tree, names standing for the columns the scope resolves them to:
    [>=], [<=] and [!=] are comparisons of their own there, which the planner
    expands. *)
Theorem sql_expression_meaning s row e x :
  sc_aggregates s = [] -> build_expression s e = Ok x -> evaluate (Some row) x = meaning (column_value s row) e.
Proof. intros Ha. apply (build_expression_meaning s row e Ha). Qed.
End Claims.

(** ** The local engine *)
Section Local.
Context {T : Type} `{F64Pow, RegexSpec, KvSpec T}.
Context {BT : Bincode stored_table} {BR : Bincode stored_row} {BI : Bincode stored_ids}.

End Local.

(** ** Concrete runs *)
Module PlannerSample.
Import Sample SqlSample SqlCodec LocalSample.

#[export] Instance regex_sample_spec : RegexSpec.
Proof. split. intros p s. exact I. Qed.

(** [UPDATE a SET x = x + 1 WHERE i = 2] *)
Definition col (n : byte) : AstExpression := EColumn None [n].



(** Two tables [a (i, x)] and [b (i, r)] with fixed rows. *)
#[local] Instance two_tables : Transaction (list Row) := {
  txn_delete _ ids := st_ret tt;
  txn_get _ _ t := Ok t;
  txn_insert _ rows := st_modify (fun t => t ++ rows);
  txn_lookup_index _ _ _ _ := Ok [];
  txn_scan _ filter t := Ok (match filter with Some f => filter_rows f (map Ok t) | None => map Ok t end);
  txn_update _ _ := st_ret tt;
  create_table _ := st_ret tt;
  drop_table _ _ := st_ret true;
  get_table n _ := Ok (if decide (n = [x61]) then Some table_a else if decide (n = [x62]) then Some table_b else None);
  list_tables _ := Ok [table_a; table_b];
}.
Definition rows2 : list Row := [int_row 1 7; int_row 2 8].

Lemma two_tables_catalog : catalog_wf rows2.
Proof.
  intros n _. cbn [get_table two_tables tame]. intros tb. destruct (decide (n = [x61])) as [->|]; [intros [= <-]; split; [reflexivity | cbn; lia]|].
  destruct (decide (n = [x62])) as [->|]; [intros [= <-]; split; [reflexivity | cbn; lia] | discriminate].
Qed.

(** [a RIGHT JOIN b ON a.i = b.r] *)
Definition qcol (t n : byte) : AstExpression := EColumn (Some [t]) [n].
Definition count_all : AstExpression := EFunction (name_of "count") [EAll].
Definition join_ab : From_ := FJoin (FTable [x61] None) (FTable [x62] None) JRight (Some (EOperator (OEqual (qcol x61 x69) (qcol x62 x72)))).

(** In [a RIGHT JOIN b], [x] is column 1 and [r] column 3; [i] is ambiguous. *)
Definition from_ab : Node * Scope :=
  match build_from_clause rows2 [join_ab] scope_new with Ok ns => ns | _ => (NNothing [], scope_new) end.
Lemma sql_name_resolution_witness :
  let (node, s) := from_ab in
  build_from_clause rows2 [join_ab] scope_new = Ok (node, s) /\ node_columns node = 4%nat /\
  lookup_column None [x78] s = Ok 1%nat /\ column_label node 1 = Ok (Qualified [x61] [x78]) /\
  lookup_column None [x69] s = Err (InvalidInput "ambiguous column") /\
  (exists j, lookup_column (Some [x62]) [x69] s = Ok j /\ column_label node j = Ok (Qualified [x62] [x69])).
Proof.
  assert (build_from_clause rows2 [join_ab] scope_new = Ok from_ab) as E by (vm_compute; reflexivity).
  assert (node_columns from_ab.1 = 4%nat /\ lookup_column None [x78] from_ab.2 = Ok 1%nat /\
    column_label from_ab.1 1 = Ok (Qualified [x61] [x78]) /\ lookup_column None [x69] from_ab.2 = Err (InvalidInput "ambiguous column") /\
    column_label from_ab.1 2 = Ok (Qualified [x62] [x69])) as (E1 & E2 & E3 & E4 & E5) by (vm_compute; repeat split).
  destruct from_ab as [node s]. cbn [fst snd] in *.
  destruct (sql_name_resolution rows2 [join_ab] node s two_tables_catalog eq_refl E) as (_ & _ & Hq & Hex).
  split; [exact E|]. split; [exact E1|]. split; [exact E2|]. split; [exact E3|]. split; [exact E4|].
  destruct (Hex [x62] [x69] 2%nat ltac:(lia) E5) as [j Hj]. exists j. split; [exact Hj|]. now apply Hq.
Defined.

(** [i >= 2] on the row [(2, 7)] of [a]. *)
Definition at_least_2 : AstExpression := EOperator (OGreaterThanOrEqual (col x69) (ELiteral (LInteger 2))).
Definition scope_a : Scope := match from_table table_a with Ok s => s | _ => scope_new end.
Lemma sql_expression_meaning_witness :
  exists x, build_expression scope_a at_least_2 = Ok x /\
    evaluate (Some (int_row 2 7)) x = meaning (column_value scope_a (int_row 2 7)) at_least_2 /\
    meaning (column_value scope_a (int_row 2 7)) at_least_2 = Ok (Boolean true).
Proof.
  assert (sc_aggregates scope_a = []) as Ha by (vm_compute; reflexivity).
  assert (build_expression scope_a at_least_2 =
    Ok (Or (GreaterThan (Column 0) (Constant (Integer 2))) (Equal (Column 0) (Constant (Integer 2))))) as Hb by (vm_compute; reflexivity).
  eexists. split; [exact Hb|]. split; [exact (sql_expression_meaning scope_a (int_row 2 7) _ _ Ha Hb) | vm_compute; reflexivity].
Defined.

(** ** Behaviours worth knowing *)

(** [SELECT * FROM a ORDER BY COUNT( * )]: the star stands for the columns of the
    aggregation, not of the table. *)
Lemma star_with_aggregate :
  build rows2 (SSelect (mkSelect [(EAll, None)] [FTable [x61] None] None [] None [(count_all, Ascending)] None None)) =
  Ok (PSelect (NOrder (NAggregate (NScan table_a None None) [] [Count (Constant (Boolean true))]) [(Column 0, Ascending)])).
Proof. vm_compute. reflexivity. Qed.

(** [SELECT x, x FROM a ORDER BY x]: the name is ambiguous after the projection,
    though both columns are the same. *)
Lemma repeated_column_ambiguous :
  build rows2 (SSelect (mkSelect [(col x78, None); (col x78, None)] [FTable [x61] None] None [] None [(col x78, Ascending)] None None)) =
  Err (InvalidInput "ambiguous column").
Proof. vm_compute. reflexivity. Qed.

(** A function without arguments is reported to contain anything, since [walk]
    takes [any] of the arguments. *)
Lemma contains_empty_function n : ast_contains (fun _ => false) (EFunction n []) = true.
Proof. reflexivity. Qed.

(** The arguments of a function after the first are not searched. *)
Lemma contains_first_argument : ast_contains is_aggregate_function (EFunction [x66] [col x78; count_all]) = false.
Proof. reflexivity. Qed.
End PlannerSample.
