(* ===== verification/SqlLexer.v ===== *)
(** * The SQL lexer ([src/sql/parser/lexer.rs], [src/sql/parser/verified_lexer.rs])

    A [&str] is its UTF-8 bytes.  The lexer's cursor is the input that is left:
    a scanner takes it and returns the input after it.  What the source asks of
    Rust's Unicode tables, its trust boundary [src/sql/parser/unicode_trust.rs]
    and [char::is_whitespace], is the class [Unicode]. *)
From S2P Require Import Prelude Bytes Keycode SqlAst.

(** ** Characters

    A [char] is its Unicode scalar value. *)
Definition is_scalar (c : Z) : bool := ((0 <=? c) && (c <? 55296)) || ((57344 <=? c) && (c <? 1114112)).

(** [str::chars().next()]: the first character of a UTF-8 string and the rest. *)
Definition decode_char (s : bytes) : option (Z * bytes) :=
  let low b := Z.land (byte_to_Z b) 63 in
  match s with
  | [] => None
  | b0 :: s1 =>
      let z := byte_to_Z b0 in
      if z <? 128 then Some (z, s1)
      else match s1 with
      | [] => None
      | b1 :: s2 =>
          if z <? 224 then Some (Z.land z 31 * 64 + low b1, s2)
          else match s2 with
          | [] => None
          | b2 :: s3 =>
              if z <? 240 then Some (Z.land z 15 * 4096 + low b1 * 64 + low b2, s3)
              else match s3 with
              | [] => None
              | b3 :: s4 => Some (Z.land z 7 * 262144 + low b1 * 4096 + low b2 * 64 + low b3, s4)
              end
          end
      end
  end.

(** [String::push]: the UTF-8 bytes of a character. *)
Definition encode_char (c : Z) : bytes :=
  let high z := byte_of_Z (128 + z mod 64) in
  if c <? 128 then [byte_of_Z c]
  else if c <? 2048 then [byte_of_Z (192 + c / 64); high c]
  else if c <? 65536 then [byte_of_Z (224 + c / 4096); high (c / 64); high c]
  else [byte_of_Z (240 + c / 262144); high (c / 4096); high (c / 64); high c].

Definition collect_chars (cs : list Z) : bytes := cs ≫= encode_char.

Definition ascii_letter (c : Z) : bool := ((65 <=? c) && (c <=? 90)) || ((97 <=? c) && (c <=? 122)).
Definition ascii_digit (c : Z) : bool := (48 <=? c) && (c <=? 57).
Definition ascii_lower (c : Z) : Z := if (65 <=? c) && (c <=? 90) then c + 32 else c.

(** The Unicode tables, with what the standard library documents of them on
    ASCII characters, and that [to_lowercase] yields characters. *)
Class Unicode : Type := {
  is_alphabetic : Z -> bool;
  is_alphanumeric : Z -> bool;
  is_whitespace : Z -> bool;
  lowercase : Z -> list Z;
}.
Class UnicodeSpec `{Unicode} : Prop := {
  alphabetic_ascii c : 0 <= c < 128 -> is_alphabetic c = ascii_letter c;
  alphanumeric_ascii c : 0 <= c < 128 -> is_alphanumeric c = ascii_letter c || ascii_digit c;
  whitespace_ascii c : 0 <= c < 128 -> is_whitespace c = ((9 <=? c) && (c <=? 13)) || (c =? 32);
  lowercase_ascii c : 0 <= c < 128 -> lowercase c = [ascii_lower c];
  lowercase_scalar c : is_scalar c = true -> Forall (fun d => is_scalar d = true) (lowercase c);
}.

(** ** Tokens *)
Inductive Keyword : Type :=
  | KwAnd | KwAs | KwAsc | KwBegin | KwBool | KwBoolean | KwBy | KwCommit | KwCreate | KwCross | KwDefault | KwDelete | KwDesc
  | KwDouble | KwDrop | KwExists | KwExplain | KwFalse | KwFloat | KwFrom | KwGroup | KwHaving | KwIf | KwIndex | KwInfinity
  | KwInner | KwInsert | KwInt | KwInteger | KwInto | KwIs | KwJoin | KwKey | KwLeft | KwLike | KwLimit | KwNaN | KwNot | KwNull
  | KwOf | KwOffset | KwOn | KwOnly | KwOr | KwOrder | KwOuter | KwPrimary | KwRead | KwReferences | KwRight | KwRollback
  | KwSelect | KwSet | KwString | KwSystem | KwTable | KwText | KwTime | KwTransaction | KwTrue | KwUnique | KwUpdate | KwValues
  | KwVarchar | KwWhere | KwWrite.

#[export] Instance Keyword_eq_dec : EqDecision Keyword.
Proof. solve_decision. Defined.

Inductive Token : Type :=
  | TkNumber (n : bytes)
  | TkString (s : bytes)
  | TkIdent (s : bytes)
  | TkKeyword (k : Keyword)
  | TkPeriod | TkEqual | TkNotEqual | TkGreaterThan | TkGreaterThanOrEqual | TkLessThan | TkLessThanOrEqual
  | TkLessOrGreaterThan | TkPlus | TkMinus | TkAsterisk | TkSlash | TkCaret | TkPercent | TkExclamation | TkQuestion
  | TkComma | TkSemicolon | TkOpenParen | TkCloseParen.

#[export] Instance Token_eq_dec : EqDecision Token.
Proof. solve_decision. Defined.

(** [TryFrom<&str> for Keyword]: only the lower-case spelling is a keyword. *)
Definition keyword_table : list (bytes * Keyword) := map (fun p => (name_of p.1, p.2)) [
  ("as", KwAs); ("asc", KwAsc); ("and", KwAnd); ("begin", KwBegin); ("bool", KwBool); ("boolean", KwBoolean); ("by", KwBy);
  ("commit", KwCommit); ("create", KwCreate); ("cross", KwCross); ("default", KwDefault); ("delete", KwDelete);
  ("desc", KwDesc); ("double", KwDouble); ("drop", KwDrop); ("exists", KwExists); ("explain", KwExplain);
  ("false", KwFalse); ("float", KwFloat); ("from", KwFrom); ("group", KwGroup); ("having", KwHaving); ("if", KwIf);
  ("index", KwIndex); ("infinity", KwInfinity); ("inner", KwInner); ("insert", KwInsert); ("int", KwInt);
  ("integer", KwInteger); ("into", KwInto); ("is", KwIs); ("join", KwJoin); ("key", KwKey); ("left", KwLeft);
  ("like", KwLike); ("limit", KwLimit); ("nan", KwNaN); ("not", KwNot); ("null", KwNull); ("of", KwOf); ("offset", KwOffset);
  ("on", KwOn); ("only", KwOnly); ("or", KwOr); ("order", KwOrder); ("outer", KwOuter); ("primary", KwPrimary);
  ("read", KwRead); ("references", KwReferences); ("right", KwRight); ("rollback", KwRollback); ("select", KwSelect);
  ("set", KwSet); ("string", KwString); ("system", KwSystem); ("table", KwTable); ("text", KwText); ("time", KwTime);
  ("transaction", KwTransaction); ("true", KwTrue); ("unique", KwUnique); ("update", KwUpdate); ("values", KwValues);
  ("varchar", KwVarchar); ("where", KwWhere); ("write", KwWrite)]%string.

(** [Display for Keyword] *)
Definition keyword_display (k : Keyword) : string :=
  match k with
  | KwAs => "AS" | KwAsc => "ASC" | KwAnd => "AND" | KwBegin => "BEGIN" | KwBool => "BOOL" | KwBoolean => "BOOLEAN"
  | KwBy => "BY" | KwCommit => "COMMIT" | KwCreate => "CREATE" | KwCross => "CROSS" | KwDefault => "DEFAULT"
  | KwDelete => "DELETE" | KwDesc => "DESC" | KwDouble => "DOUBLE" | KwDrop => "DROP" | KwExists => "EXISTS"
  | KwExplain => "EXPLAIN" | KwFalse => "FALSE" | KwFloat => "FLOAT" | KwFrom => "FROM" | KwGroup => "GROUP"
  | KwHaving => "HAVING" | KwIf => "IF" | KwIndex => "INDEX" | KwInfinity => "INFINITY" | KwInner => "INNER"
  | KwInsert => "INSERT" | KwInt => "INT" | KwInteger => "INTEGER" | KwInto => "INTO" | KwIs => "IS" | KwJoin => "JOIN"
  | KwKey => "KEY" | KwLeft => "LEFT" | KwLike => "LIKE" | KwLimit => "LIMIT" | KwNaN => "NAN" | KwNot => "NOT"
  | KwNull => "NULL" | KwOf => "OF" | KwOffset => "OFFSET" | KwOn => "ON" | KwOnly => "ONLY" | KwOuter => "OUTER"
  | KwOr => "OR" | KwOrder => "ORDER" | KwPrimary => "PRIMARY" | KwRead => "READ" | KwReferences => "REFERENCES"
  | KwRight => "RIGHT" | KwRollback => "ROLLBACK" | KwSelect => "SELECT" | KwSet => "SET" | KwString => "STRING"
  | KwSystem => "SYSTEM" | KwTable => "TABLE" | KwText => "TEXT" | KwTime => "TIME" | KwTransaction => "TRANSACTION"
  | KwTrue => "TRUE" | KwUnique => "UNIQUE" | KwUpdate => "UPDATE" | KwValues => "VALUES" | KwVarchar => "VARCHAR"
  | KwWhere => "WHERE" | KwWrite => "WRITE"
  end.

Definition keyword_try_from (name : bytes) : option Keyword := snd <$> List.find (fun p => bool_decide (p.1 = name)) keyword_table.

(** [Display for Token]; the payload of a string is not quoted. *)
Definition token_display (t : Token) : bytes :=
  match t with
  | TkNumber s | TkString s | TkIdent s => s
  | TkKeyword k => name_of (keyword_display k)
  | TkPeriod => name_of "." | TkEqual => name_of "=" | TkNotEqual => name_of "!=" | TkGreaterThan => name_of ">"
  | TkGreaterThanOrEqual => name_of ">=" | TkLessThan => name_of "<" | TkLessThanOrEqual => name_of "<="
  | TkLessOrGreaterThan => name_of "<>" | TkPlus => name_of "+" | TkMinus => name_of "-" | TkAsterisk => name_of "*"
  | TkSlash => name_of "/" | TkCaret => name_of "^" | TkPercent => name_of "%" | TkExclamation => name_of "!"
  | TkQuestion => name_of "?" | TkComma => name_of "," | TkSemicolon => name_of ";" | TkOpenParen => name_of "("
  | TkCloseParen => name_of ")"
  end.

(** ** Scanners over bytes *)
Definition is_digit (b : byte) : bool := (48 <=? byte_to_Z b) && (byte_to_Z b <=? 57).

(** A [while] loop over digits. *)
Fixpoint scan_digits (s : bytes) : bytes * bytes :=
  match s with
  | b :: s' => if is_digit b then let (d, r) := scan_digits s' in (b :: d, r) else ([], s)
  | [] => ([], [])
  end.

(** The optional fraction and exponent of a number. *)
Definition scan_fraction (s : bytes) : bytes * bytes :=
  match s with
  | b :: s' => if byte_to_Z b =? 46 then let (d, r) := scan_digits s' in (b :: d, r) else ([], s)
  | [] => ([], [])
  end.
Definition scan_sign (s : bytes) : bytes * bytes :=
  match s with
  | b :: s' => if (byte_to_Z b =? 43) || (byte_to_Z b =? 45) then ([b], s') else ([], s)
  | [] => ([], [])
  end.
Definition scan_exponent (s : bytes) : bytes * bytes :=
  match s with
  | b :: s' =>
      if (byte_to_Z b =? 101) || (byte_to_Z b =? 69) then
        let (sign, r) := scan_sign s' in
        let (d, r) := scan_digits r in
        (b :: sign ++ d, r)
      else ([], s)
  | [] => ([], [])
  end.
Definition scan_number_bytes (s : bytes) : bytes * bytes :=
  let (d, r) := scan_digits s in
  let (f, r) := scan_fraction r in
  let (e, r) := scan_exponent r in
  (d ++ f ++ e, r).

Definition scan_symbol_bytes (s : bytes) : option Token * bytes :=
  match s with
  | [] => (None, s)
  | b :: r =>
      let b := byte_to_Z b in
      let next := match r with b1 :: _ => byte_to_Z b1 | [] => -1 end in
      let two t := (Some t, drop 1 r) in
      let one t := (Some t, r) in
      if b =? 60 then
        if next =? 61 then two TkLessThanOrEqual else if next =? 62 then two TkLessOrGreaterThan else one TkLessThan
      else if b =? 62 then
        if next =? 61 then two TkGreaterThanOrEqual else one TkGreaterThan
      else if b =? 33 then
        if next =? 61 then two TkNotEqual else one TkExclamation
      else if b =? 46 then one TkPeriod
      else if b =? 61 then one TkEqual
      else if b =? 43 then one TkPlus
      else if b =? 45 then one TkMinus
      else if b =? 42 then one TkAsterisk
      else if b =? 47 then one TkSlash
      else if b =? 94 then one TkCaret
      else if b =? 37 then one TkPercent
      else if b =? 63 then one TkQuestion
      else if b =? 44 then one TkComma
      else if b =? 59 then one TkSemicolon
      else if b =? 40 then one TkOpenParen
      else if b =? 41 then one TkCloseParen
      else (None, s)
  end.

(** ** The lexer *)
Section Lexer.
Context `{Unicode}.

Definition next_if (p : Z -> bool) (s : bytes) : option (Z * bytes) :=
  match decode_char s with
  | Some (c, r) => if p c then Some (c, r) else None
  | None => None
  end.

(** [while let Some(c) = self.next_if(p)]; a character is at least one byte, so
    the length of the input bounds the iterations. *)
Fixpoint next_while_n (n : nat) (p : Z -> bool) (s : bytes) : list Z * bytes :=
  match n with
  | O => ([], s)
  | S n =>
      match next_if p s with
      | Some (c, r) => let (cs, r) := next_while_n n p r in (c :: cs, r)
      | None => ([], s)
      end
  end.
Definition next_while (p : Z -> bool) (s : bytes) : list Z * bytes := next_while_n (length s) p s.

Definition skip_whitespace (s : bytes) : bytes := (next_while is_whitespace s).2.

Definition ident_char (c : Z) : bool := is_alphanumeric c || (c =? 95).

Definition scan_ident_or_keyword (s : bytes) : option Token * bytes :=
  match next_if is_alphabetic s with
  | None => (None, s)
  | Some (first, s) =>
      let (rest, s) := next_while ident_char s in
      let name := collect_chars (lowercase first) ++ collect_chars (rest ≫= lowercase) in
      match keyword_try_from name with
      | Some keyword => (Some (TkKeyword keyword), s)
      | None => (Some (TkIdent name), s)
      end
  end.

(** The loop of [scan_ident_quoted] and [scan_string] after the opening quote:
    a doubled quote stands for itself.  [None] at the end of the input. *)
Fixpoint scan_quoted_n (n : nat) (quote : Z) (s : bytes) : option (bytes * bytes) :=
  match n with
  | O => None
  | S n =>
      match decode_char s with
      | Some (c, r) =>
          if c =? quote then
            match next_if (Z.eqb quote) r with
            | Some (_, r) => prod_map (app (encode_char quote)) id <$> scan_quoted_n n quote r
            | None => Some ([], r)
            end
          else prod_map (app (encode_char c)) id <$> scan_quoted_n n quote r
      | None => None
      end
  end.
Definition scan_quoted (quote : Z) (s : bytes) : option (bytes * bytes) := scan_quoted_n (S (length s)) quote s.

Definition scan_ident_quoted (s : bytes) : outcome (option Token * bytes) :=
  match next_if (Z.eqb 34) s with
  | None => Ok (None, s)
  | Some (_, r) =>
      match scan_quoted 34 r with
      | Some (ident, r) => Ok (Some (TkIdent ident), r)
      | None => errinput "unexpected end of quoted identifier"
      end
  end.

Definition scan_string (s : bytes) : outcome (option Token * bytes) :=
  match next_if (Z.eqb 39) s with
  | None => Ok (None, s)
  | Some (_, r) =>
      match scan_quoted 39 r with
      | Some (string, r) => Ok (Some (TkString string), r)
      | None => errinput "unexpected end of string literal"
      end
  end.

Definition scan_number (s : bytes) : option Token * bytes :=
  match s with
  | [] => (None, s)
  | first :: _ =>
      if negb (is_digit first) then (None, s)
      else let (number, r) := scan_number_bytes s in (Some (TkNumber number), r)
  end.

Definition scan (s : bytes) : outcome (option Token * bytes) :=
  let s := skip_whitespace s in
  match decode_char s with
  | None => Ok (None, s)
  | Some (c, _) =>
      if c =? 39 then scan_string s
      else if c =? 34 then scan_ident_quoted s
      else if ascii_digit c then Ok (scan_number s)
      else if is_alphabetic c then Ok (scan_ident_or_keyword s)
      else Ok (scan_symbol_bytes s)
  end.

(** [Iterator::next] *)
Definition lexer_next (s : bytes) : option (outcome (Token * bytes)) :=
  match scan s with
  | Ok (Some token, r) => Some (Ok (token, r))
  | Ok (None, r) => match decode_char r with Some _ => Some (errinput "unexpected character") | None => None end
  | Err e => Some (Err e)
  | Panic p => Some (Panic p)
  end.

(** [Lexer::new(s).collect::<Result<Vec<Token>>>()]; a token is at least one byte. *)
Fixpoint lex_n (n : nat) (s : bytes) : outcome (list Token) :=
  match n with
  | O => Ok []
  | S n =>
      match lexer_next s with
      | None => Ok []
      | Some r => let? '(token, s) := r in outcome_map (cons token) (lex_n n s)
      end
  end.
Definition lex (s : bytes) : outcome (list Token) := lex_n (S (length s)) s.

Definition is_ident (ident : bytes) : bool :=
  match lexer_next ident with
  | Some (Ok (TkIdent _, r)) => match lexer_next r with None => true | Some _ => false end
  | _ => false
  end.
End Lexer.
