(* ===== verification/SqlParser.v ===== *)
(** * The SQL parser ([src/sql/parser/])

    [verified_precedence.rs] (expressions), [verified_control.rs] (statements),
    [verified_integer.rs], and [Parser::parse] of [parser.rs].  A position in the
    token vector is the list of tokens from there on; a parser returns what it
    has read and the tokens after it, or an error.  The source carries a [fuel]
    through its expression parser, and so does the model; the loops over the
    token vector are bounded by the number of tokens left.  Decimal floats are
    the source's trust boundary [float_trust.rs], the class [FloatText]. *)
From S2P Require Import Prelude Bytes Btree Float64 SqlValue SqlPlan SqlAst SqlLexer.

Class FloatText : Type := {
  parse_f64 : bytes -> option f64;
  format_f64 : f64 -> bytes;
}.
Definition f64_infinity : f64 := f64_pack false 2047 0.

(** ** Errors ([parse_error.rs]) *)
Inductive ParseError : Type :=
  | UnexpectedToken (token : Token)
  | UnexpectedEof
  | ExpectedIdent (token : Token)
  | ExpectedToken (expect found : Token)
  | InvalidSystemTime (n : bytes)
  | WantedNumber (token : Token)
  | NestedExplain
  | NullabilityAlreadySet (name : bytes)
  | UnexpectedKeyword (keyword : Keyword)
  | DuplicateColumn (column : bytes)
  | CantAliasStar
  | NumberTooLarge
  | InvalidFloatLiteral (n : bytes)
  | ExpectedAtom (token : Token).

Definition render (e : ParseError) : Error :=
  InvalidInput match e with
    | UnexpectedToken _ => "unexpected token"
    | UnexpectedEof => "unexpected end of input"
    | ExpectedIdent _ => "expected identifier, got"
    | ExpectedToken _ _ => "expected token, found"
    | InvalidSystemTime _ => "invalid system time"
    | WantedNumber _ => "unexpected token, wanted number"
    | NestedExplain => "cannot nest EXPLAIN statements"
    | NullabilityAlreadySet _ => "nullability already set for column"
    | UnexpectedKeyword _ => "unexpected keyword"
    | DuplicateColumn _ => "column set multiple times"
    | CantAliasStar => "can't alias *"
    | NumberTooLarge => "number too large to fit in target type"
    | InvalidFloatLiteral _ => "invalid float literal"
    | ExpectedAtom _ => "expected expression atom, found"
    end.

(** ** Parse results *)
Inductive presult (A : Type) : Type :=
  | Parsed (a : A) (rest : list Token)
  | Rejected (e : ParseError).
Arguments Parsed {A}. Arguments Rejected {A}.

Definition pbind {A B} (m : presult A) (k : A -> list Token -> presult B) : presult B :=
  match m with Parsed a rest => k a rest | Rejected e => Rejected e end.
Definition pmap {A B} (f : A -> B) (m : presult A) : presult B := pbind m (fun a rest => Parsed (f a) rest).
Notation "'let*' x , r := m 'in' k" := (pbind m (fun x r => k))
  (at level 10, x binder, r binder, m at level 100, k at level 200) : toydb_scope.

(** [toks[cur]] must be the given token. *)
Definition expect (tok : Token) (toks : list Token) : presult unit :=
  match toks with
  | [] => Rejected UnexpectedEof
  | t :: rest => if decide (t = tok) then Parsed tt rest else Rejected (ExpectedToken tok t)
  end.
Definition expect_ident (toks : list Token) : presult bytes :=
  match toks with
  | [] => Rejected UnexpectedEof
  | TkIdent name :: rest => Parsed name rest
  | t :: _ => Rejected (ExpectedIdent t)
  end.
(** [matches!(toks[cur], tok)], within the vector: the tokens after it. *)
Definition next_is (tok : Token) (toks : list Token) : option (list Token) :=
  match toks with
  | [] => None
  | t :: rest => if decide (t = tok) then Some rest else None
  end.

(** ** Integers ([verified_integer.rs]) *)
(** The recursion of [print_u64]; a [u64] has at most twenty digits. *)
Fixpoint print_digits (fuel : nat) (n : Z) : bytes :=
  match fuel with
  | O => []
  | S fuel => if n <? 10 then [byte_of_Z (48 + n)] else print_digits fuel (n / 10) ++ [byte_of_Z (48 + n mod 10)]
  end.
Definition print_u64 (n : Z) : bytes := print_digits 20 n.

Definition digit_step (acc : option Z) (b : byte) : option Z :=
  if is_digit b then
    let digit := byte_to_Z b - 48 in
    match acc with
    | Some prefix => if prefix <=? (u64_max - digit) / 10 then Some (prefix * 10 + digit) else None
    | None => None
    end
  else None.
Definition parse_digits (input : bytes) : option Z :=
  match input with
  | [] => None
  | b0 :: rest => fold_left digit_step rest (if is_digit b0 then Some (byte_to_Z b0 - 48) else None)
  end.
Definition parse_i64 (input : bytes) : option Z :=
  match parse_digits input with
  | Some value => if value <=? i64_max then Some value else None
  | None => None
  end.

(** [all_ascii_digits], and [all_digits_exec] from the last byte to the first. *)
Definition all_digits (n : bytes) : bool := forallb is_digit n.

(** ** Operators ([verified_expression.rs], [verified_roundtrip.rs]) *)
Inductive BinaryTag : Type :=
  | BtAnd | BtOr | BtEqual | BtGreaterThan | BtGreaterThanOrEqual | BtLessThan | BtLessThanOrEqual | BtNotEqual
  | BtAdd | BtDivide | BtExponentiate | BtMultiply | BtRemainder | BtSubtract | BtLike.
Inductive UnaryTag : Type := UtIdentity | UtNegate | UtNot.
Inductive PostfixOp : Type := PoFactorial | PoIs (negated nan : bool).

Definition binary_prec (tag : BinaryTag) : Z :=
  match tag with
  | BtOr => 1
  | BtAnd => 2
  | BtEqual | BtNotEqual | BtLike => 4
  | BtGreaterThan | BtGreaterThanOrEqual | BtLessThan | BtLessThanOrEqual => 5
  | BtAdd | BtSubtract => 6
  | BtMultiply | BtDivide | BtRemainder => 7
  | BtExponentiate => 8
  end.
Definition binary_assoc (tag : BinaryTag) : Z := match tag with BtExponentiate => 0 | _ => 1 end.
Definition prefix_prec (tag : UnaryTag) : Z := match tag with UtNot => 3 | UtIdentity | UtNegate => 10 end.

Definition prefix_op_exec (tok : Token) : option UnaryTag :=
  match tok with
  | TkPlus => Some UtIdentity
  | TkMinus => Some UtNegate
  | TkKeyword KwNot => Some UtNot
  | _ => None
  end.
Definition binary_tag_exec (tok : Token) : option BinaryTag :=
  match tok with
  | TkKeyword KwAnd => Some BtAnd
  | TkKeyword KwOr => Some BtOr
  | TkEqual => Some BtEqual
  | TkGreaterThan => Some BtGreaterThan
  | TkGreaterThanOrEqual => Some BtGreaterThanOrEqual
  | TkLessThan => Some BtLessThan
  | TkLessThanOrEqual => Some BtLessThanOrEqual
  | TkNotEqual => Some BtNotEqual
  | TkLessOrGreaterThan => Some BtNotEqual
  | TkPlus => Some BtAdd
  | TkSlash => Some BtDivide
  | TkCaret => Some BtExponentiate
  | TkAsterisk => Some BtMultiply
  | TkPercent => Some BtRemainder
  | TkMinus => Some BtSubtract
  | TkKeyword KwLike => Some BtLike
  | _ => None
  end.

Definition build_unary (tag : UnaryTag) (inner : AstExpression) : AstExpression :=
  EOperator match tag with UtIdentity => OIdentity inner | UtNegate => ONegate inner | UtNot => ONot inner end.
Definition build_binary (tag : BinaryTag) (left right : AstExpression) : AstExpression :=
  EOperator match tag with
    | BtAnd => OAnd left right
    | BtOr => OOr left right
    | BtEqual => OEqual left right
    | BtGreaterThan => OGreaterThan left right
    | BtGreaterThanOrEqual => OGreaterThanOrEqual left right
    | BtLessThan => OLessThan left right
    | BtLessThanOrEqual => OLessThanOrEqual left right
    | BtNotEqual => ONotEqual left right
    | BtAdd => OAdd left right
    | BtDivide => ODivide left right
    | BtExponentiate => OExponentiate left right
    | BtMultiply => OMultiply left right
    | BtRemainder => ORemainder left right
    | BtSubtract => OSubtract left right
    | BtLike => OLike left right
    end.
Definition build_postfix (op : PostfixOp) (lhs : AstExpression) : AstExpression :=
  match op with
  | PoFactorial => EOperator (OFactorial lhs)
  | PoIs negated nan =>
      let e := EOperator (OIs lhs (if nan then LFloat f64_nan else LNull)) in
      if negated then EOperator (ONot e) else e
  end.

(** ** Expressions ([verified_precedence.rs]) *)
Definition parse_postfix_at (toks : list Token) (min_prec : Z) : option (PostfixOp * list Token) :=
  match toks with
  | TkKeyword KwIs :: rest =>
      if 4 <? min_prec then None
      else
        let '(negated, rest) := match rest with TkKeyword KwNot :: rest => (true, rest) | _ => (false, rest) end in
        match rest with
        | TkKeyword KwNaN :: rest => Some (PoIs negated true, rest)
        | TkKeyword KwNull :: rest => Some (PoIs negated false, rest)
        | _ => None
        end
  | TkExclamation :: rest => if 9 <? min_prec then None else Some (PoFactorial, rest)
  | _ => None
  end.

Fixpoint postfix_loop (n : nat) (min_prec : Z) (lhs : AstExpression) (toks : list Token) : AstExpression * list Token :=
  match n with
  | O => (lhs, toks)
  | S n =>
      match parse_postfix_at toks min_prec with
      | Some (op, rest) => postfix_loop n min_prec (build_postfix op lhs) rest
      | None => (lhs, toks)
      end
  end.

Section InfixLoop.
Context (parse_rhs : list Token -> Z -> presult AstExpression) (min_prec : Z).
Fixpoint infix_loop (n : nat) (lhs : AstExpression) (toks : list Token) : presult AstExpression :=
  match n, toks with
  | S n, tok :: rest =>
      match binary_tag_exec tok with
      | Some tag =>
          if min_prec <=? binary_prec tag then
            let* rhs, rest := parse_rhs rest (binary_prec tag + binary_assoc tag) in
            infix_loop n (build_binary tag lhs rhs) rest
          else Parsed lhs toks
      | None => Parsed lhs toks
      end
  | _, _ => Parsed lhs toks
  end.
End InfixLoop.

Section FnArgs.
Context (parse_expression : nat -> list Token -> presult AstExpression).

(** The source needs fuel here and would underflow without; the callers give
    enough. *)
Fixpoint parse_fn_args_ne_exec (fuel : nat) (toks : list Token) : presult (list AstExpression) :=
  match fuel, toks with
  | S fuel, _ :: _ =>
      let* expr, rest := parse_expression fuel toks in
      match rest with
      | [] => Rejected UnexpectedEof
      | TkCloseParen :: _ => Parsed [expr] rest
      | TkComma :: rest => pmap (cons expr) (parse_fn_args_ne_exec fuel rest)
      | t :: _ => Rejected (ExpectedToken TkComma t)
      end
  | _, _ => Rejected UnexpectedEof
  end.
Definition parse_fn_args_exec (fuel : nat) (toks : list Token) : presult (list AstExpression) :=
  match toks with
  | [] => Rejected UnexpectedEof
  | TkCloseParen :: _ => Parsed [] toks
  | _ => parse_fn_args_ne_exec fuel toks
  end.
Definition parse_function_call (fuel : nat) (name : bytes) (toks : list Token) : presult AstExpression :=
  let* args, rest := parse_fn_args_exec fuel toks in
  let* _, rest := expect TkCloseParen rest in
  Parsed (EFunction name args) rest.
End FnArgs.

Section Parser.
Context `{FloatText}.

Definition parse_literal_exec (tok : Token) : option Literal :=
  match tok with
  | TkKeyword KwNull => Some LNull
  | TkKeyword KwTrue => Some (LBoolean true)
  | TkKeyword KwFalse => Some (LBoolean false)
  | TkNumber n => if all_digits n then LInteger <$> parse_i64 n else LFloat <$> parse_f64 n
  | TkString value => Some (LString value)
  | _ => None
  end.

Fixpoint parse_expression_at (fuel : nat) (toks : list Token) (min_prec : Z) {struct fuel} : presult AstExpression :=
  match fuel, toks with
  | S fuel, tok :: rest =>
      let* lhs, cur :=
        match prefix_op_exec tok with
        | Some tag =>
            if min_prec <=? prefix_prec tag then pmap (build_unary tag) (parse_expression_at fuel rest (prefix_prec tag))
            else parse_atom fuel toks
        | None => parse_atom fuel toks
        end in
      let (lhs, cur) := postfix_loop (length cur) min_prec lhs cur in
      let* lhs, cur := infix_loop (parse_expression_at fuel) min_prec (length cur) lhs cur in
      let (lhs, cur) := postfix_loop (length cur) min_prec lhs cur in
      Parsed lhs cur
  | _, _ => Rejected UnexpectedEof
  end
with parse_atom (fuel : nat) (toks : list Token) {struct fuel} : presult AstExpression :=
  match fuel, toks with
  | S fuel', tok :: rest =>
      match tok with
      | TkAsterisk => Parsed EAll rest
      | TkNumber n =>
          match parse_literal_exec tok with
          | Some l => Parsed (ELiteral l) rest
          | None => if all_digits n then Rejected NumberTooLarge else Rejected (InvalidFloatLiteral n)
          end
      | TkString _ =>
          match parse_literal_exec tok with
          | Some l => Parsed (ELiteral l) rest
          | None => Rejected (ExpectedAtom tok)
          end
      | TkKeyword KwTrue => Parsed (ELiteral (LBoolean true)) rest
      | TkKeyword KwFalse => Parsed (ELiteral (LBoolean false)) rest
      | TkKeyword KwInfinity => Parsed (ELiteral (LFloat f64_infinity)) rest
      | TkKeyword KwNaN => Parsed (ELiteral (LFloat f64_nan)) rest
      | TkKeyword KwNull => Parsed (ELiteral LNull) rest
      | TkIdent name =>
          match rest with
          | TkOpenParen :: rest => parse_function_call (fun g toks => parse_expression_at g toks 0) fuel name rest
          | TkPeriod :: rest => let* column, rest := expect_ident rest in Parsed (EColumn (Some name) column) rest
          | _ => Parsed (EColumn None name) rest
          end
      | TkOpenParen =>
          let* expr, rest := parse_expression_at fuel' rest 0 in
          let* _, rest := expect TkCloseParen rest in
          Parsed expr rest
      | _ => Rejected (ExpectedAtom tok)
      end
  | _, _ => Rejected UnexpectedEof
  end.
End Parser.
