(* ===== verification/SqlParserTheory.v ===== *)
(** * The parser's loops and fuel

    Printing and parsing integers; every parser consumes tokens, so the loops
    run to their end and the fuel the source computes never runs out. *)
From S2P Require Import Prelude Bytes Float64 SqlValue SqlPlan SqlAst SqlLexer SqlParser.

(** ** Integers *)
Lemma is_digit_spec b : is_digit b = true <-> 48 <= byte_to_Z b <= 57.
Proof. unfold is_digit. rewrite andb_true_iff. lia. Qed.

Lemma digit_byte d : 0 <= d < 10 -> byte_to_Z (byte_of_Z (48 + d)) = 48 + d.
Proof. intros Hd. rewrite byte_to_of_Z. apply Z.mod_small. lia. Qed.

Lemma digit_byte_is d : 0 <= d < 10 -> is_digit (byte_of_Z (48 + d)) = true.
Proof. intros Hd. apply is_digit_spec. rewrite digit_byte by exact Hd. lia. Qed.

Lemma parse_digits_snoc s b : s <> [] -> parse_digits (s ++ [b]) = digit_step (parse_digits s) b.
Proof. destruct s as [|c s]; [easy|]. intros _. cbn [app parse_digits]. now rewrite fold_left_app. Qed.

Lemma print_digits_nonempty fuel n : fuel <> 0%nat -> print_digits fuel n <> [].
Proof. destruct fuel; [easy|]. intros _. cbn [print_digits]. case_match; [easy|]. now destruct (print_digits _ _). Qed.

Lemma print_digits_digits fuel : forall n, 0 <= n -> all_digits (print_digits fuel n) = true.
Proof.
  induction fuel as [|fuel IH]; intros n Hn; [reflexivity|]. cbn [print_digits]. unfold all_digits in *.
  destruct (n <? 10) eqn:E; zify_bools.
  - cbn. now rewrite digit_byte_is by lia.
  - rewrite forallb_app, IH by (apply Z.div_pos; lia). cbn. now rewrite digit_byte_is by (apply Z.mod_pos_bound; lia).
Qed.

Lemma print_digits_S fuel n :
  print_digits (S fuel) n = if n <? 10 then [byte_of_Z (48 + n)] else print_digits fuel (n / 10) ++ [byte_of_Z (48 + n mod 10)].
Proof. reflexivity. Qed.

Lemma parse_print_digits fuel : forall n, 0 <= n <= u64_max -> n < 10 ^ (Z.of_nat fuel + 1) ->
  parse_digits (print_digits (S fuel) n) = Some n.
Proof.
  induction fuel as [|fuel IH]; intros n Hn Hf; rewrite print_digits_S; destruct (n <? 10) eqn:E; zify_bools.
  1,3: cbn [parse_digits fold_left]; rewrite digit_byte_is, digit_byte by lia; f_equal; lia.
  { cbn in Hf. lia. }
  rewrite Nat2Z.inj_succ, <- Z.add_1_r, (Z.pow_add_r 10 _ 1) in Hf by lia. pose proof (Z.div_mod n 10). pose proof (Z.mod_pos_bound n 10).
  rewrite parse_digits_snoc by now apply print_digits_nonempty.
  rewrite IH by (try split; try apply Z.div_pos; try apply Z.div_lt_upper_bound; unfold u64_max in *; lia).
  unfold digit_step. rewrite digit_byte_is, digit_byte by lia. rewrite (proj2 (Z.leb_le _ _)); [f_equal; lia|].
  apply Z.div_le_lower_bound; lia.
Qed.

Lemma parse_print_u64 n : is_u64 n -> parse_digits (print_u64 n) = Some n.
Proof. intros Hn. apply (parse_print_digits 19); [exact Hn|]. unfold is_u64, u64_max in Hn. cbn. lia. Qed.

Lemma parse_print_i64 n : 0 <= n <= i64_max -> parse_i64 (print_u64 n) = Some n.
Proof.
  intros Hn. unfold parse_i64. rewrite parse_print_u64 by (unfold is_u64, u64_max, i64_max in *; lia).
  now rewrite (proj2 (Z.leb_le _ _)) by lia.
Qed.

(** What is read fits the type. *)
Lemma digit_step_u64 acc b : from_option is_u64 True acc -> from_option is_u64 True (digit_step acc b).
Proof.
  unfold digit_step. destruct (is_digit b) eqn:E; [|easy]. apply is_digit_spec in E. destruct acc as [p|]; [|easy]. cbn.
  intros Hp. destruct (p <=? _) eqn:Ep; [|easy]. apply Z.leb_le in Ep. cbn. unfold is_u64 in *.
  pose proof (Z.mul_div_le (u64_max - (byte_to_Z b - 48)) 10). lia.
Qed.

Lemma parse_digits_u64 s n : parse_digits s = Some n -> is_u64 n.
Proof.
  destruct s as [|b s]; [discriminate|]. cbn [parse_digits]. intros E.
  assert (from_option is_u64 True (fold_left digit_step s (if is_digit b then Some (byte_to_Z b - 48) else None))) as H.
  { assert (from_option is_u64 True (if is_digit b then Some (byte_to_Z b - 48) else None)) as H0.
    { destruct (is_digit b) eqn:Eb; [|easy]. apply is_digit_spec in Eb. cbn. unfold is_u64, u64_max. lia. }
    revert H0. generalize (if is_digit b then Some (byte_to_Z b - 48) else None). clear E.
    induction s as [|c s IH]; intros acc Ha; [exact Ha|]. cbn [fold_left]. now apply IH, digit_step_u64. }
  now rewrite E in H.
Qed.

Lemma parse_i64_range s n : parse_i64 s = Some n -> 0 <= n <= i64_max.
Proof.
  unfold parse_i64. destruct (parse_digits s) as [v|] eqn:E; [|discriminate]. destruct (v <=? i64_max) eqn:Ev; [|discriminate].
  injection 1 as <-. apply parse_digits_u64 in E. unfold is_u64 in E. zify_bools. lia.
Qed.

(** ** Consumption

    A parser that succeeds leaves fewer tokens than it was given. *)
Definition consumes {A} (m : presult A) (toks : list Token) : Prop :=
  match m with Parsed _ rest => (length rest < length toks)%nat | Rejected _ => True end.
Definition keeps {A} (m : presult A) (toks : list Token) : Prop :=
  match m with Parsed _ rest => (length rest <= length toks)%nat | Rejected _ => True end.

Lemma consumes_keeps {A} (m : presult A) toks : consumes m toks -> keeps m toks.
Proof. destruct m; cbn; [lia | easy]. Qed.
Lemma keeps_cons {A} (m : presult A) toks t : keeps m toks -> consumes m (t :: toks).
Proof. destruct m; cbn; [lia | easy]. Qed.
Lemma consumes_cons {A} (m : presult A) toks t : consumes m toks -> consumes m (t :: toks).
Proof. intros ?. now apply keeps_cons, consumes_keeps. Qed.
Lemma consumes_bind {A B} (m : presult A) (k : A -> list Token -> presult B) toks :
  consumes m toks -> (forall a rest, keeps (k a rest) rest) -> consumes (pbind m k) toks.
Proof. destruct m as [a rest|e]; cbn; [|easy]. intros Hm Hk. specialize (Hk a rest). destruct (k a rest); cbn in *; lia. Qed.
Lemma keeps_bind_consumes {A B} (m : presult A) (k : A -> list Token -> presult B) toks :
  keeps m toks -> (forall a rest, consumes (k a rest) rest) -> consumes (pbind m k) toks.
Proof. destruct m as [a rest|e]; cbn; [|easy]. intros Hm Hk. specialize (Hk a rest). destruct (k a rest); cbn in *; lia. Qed.
Lemma keeps_bind {A B} (m : presult A) (k : A -> list Token -> presult B) toks :
  keeps m toks -> (forall a rest, keeps (k a rest) rest) -> keeps (pbind m k) toks.
Proof. destruct m as [a rest|e]; cbn; [|easy]. intros Hm Hk. specialize (Hk a rest). destruct (k a rest); cbn in *; lia. Qed.
Lemma keeps_ret {A} (a : A) toks : keeps (Parsed a toks) toks.
Proof. cbn. lia. Qed.
Lemma consumes_ret {A} (a : A) t toks : consumes (Parsed a toks) (t :: toks).
Proof. cbn. lia. Qed.
Lemma consumes_map {A B} (f : A -> B) m toks : consumes m toks -> consumes (pmap f m) toks.
Proof. now destruct m. Qed.
Lemma keeps_map {A B} (f : A -> B) m toks : keeps m toks -> keeps (pmap f m) toks.
Proof. now destruct m. Qed.
Lemma expect_consumes tok toks : consumes (expect tok toks) toks.
Proof. destruct toks; cbn; [easy|]. now case_decide; cbn; [lia|]. Qed.
Lemma expect_ident_consumes toks : consumes (expect_ident toks) toks.
Proof. destruct toks as [|[]]; cbn; try easy; lia. Qed.
Lemma next_is_length tok toks rest : next_is tok toks = Some rest -> toks = tok :: rest.
Proof. destruct toks as [|t toks]; cbn; [easy|]. case_decide; [|easy]. congruence. Qed.

Create HintDb consume.
#[export] Hint Resolve consumes_ret keeps_ret consumes_map keeps_map expect_consumes expect_ident_consumes
  consumes_cons keeps_cons consumes_keeps : consume.

(** The tokens of a postfix operator. *)
Definition postfix_tokens (op : PostfixOp) : list Token :=
  match op with
  | PoFactorial => [TkExclamation]
  | PoIs negated nan =>
      TkKeyword KwIs :: (if negated then [TkKeyword KwNot] else []) ++ [TkKeyword (if nan then KwNaN else KwNull)]
  end.
Definition postfix_prec (op : PostfixOp) : Z := match op with PoFactorial => 9 | PoIs _ _ => 4 end.

Lemma parse_postfix_inv toks m op rest :
  parse_postfix_at toks m = Some (op, rest) -> toks = postfix_tokens op ++ rest /\ m <= postfix_prec op.
Proof.
  destruct toks as [|t toks]; [discriminate|]. destruct t; try discriminate; cbn [parse_postfix_at].
  - destruct k; try discriminate. destruct (4 <? m) eqn:E; [discriminate|]. apply Z.ltb_ge in E.
    destruct toks as [|t toks]; [discriminate|]. destruct t; try discriminate. destruct k; try discriminate.
    + now injection 1 as <- <-.
    + destruct toks as [|t toks]; [discriminate|]. destruct t; try discriminate. destruct k; try discriminate; now injection 1 as <- <-.
    + now injection 1 as <- <-.
  - destruct (9 <? m) eqn:E; [discriminate|]. apply Z.ltb_ge in E. now injection 1 as <- <-.
Qed.

Lemma parse_postfix_consumes toks m op rest : parse_postfix_at toks m = Some (op, rest) -> (length rest < length toks)%nat.
Proof. intros [-> _]%parse_postfix_inv. rewrite length_app. destruct op as [|[]]; cbn; lia. Qed.

Lemma parse_postfix_tokens op rest m : m <= postfix_prec op -> parse_postfix_at (postfix_tokens op ++ rest) m = Some (op, rest).
Proof. destruct op as [|[] []]; cbn; intros Hm; now rewrite (proj2 (Z.ltb_ge _ _)). Qed.

Lemma postfix_loop_keeps n m : forall lhs toks, (length (postfix_loop n m lhs toks).2 <= length toks)%nat.
Proof.
  induction n as [|n IH]; intros lhs toks; [cbn; lia|]. cbn [postfix_loop].
  destruct (parse_postfix_at toks m) as [[op rest]|] eqn:E; [|cbn; lia]. apply parse_postfix_consumes in E.
  specialize (IH (build_postfix op lhs) rest). lia.
Qed.

(** Any bound above the number of tokens gives the same loop. *)
Lemma postfix_loop_enough m n : forall n' lhs toks, (length toks <= n)%nat -> (length toks <= n')%nat ->
  postfix_loop n m lhs toks = postfix_loop n' m lhs toks.
Proof.
  induction n as [|n IH]; intros [|n'] lhs toks Hn Hn'.
  1: reflexivity.
  1,2: destruct toks; [reflexivity | cbn in *; lia].
  cbn [postfix_loop]. destruct (parse_postfix_at toks m) as [[op rest]|] eqn:E; [|reflexivity].
  apply parse_postfix_consumes in E. apply IH; lia.
Qed.

Section Infix.
Context (parse : list Token -> Z -> presult AstExpression) (m : Z).
Context (Hparse : forall toks p, consumes (parse toks p) toks).

Lemma infix_loop_keeps n : forall lhs toks, keeps (infix_loop parse m n lhs toks) toks.
Proof.
  induction n as [|n IH]; intros lhs toks; [apply keeps_ret|]. destruct toks as [|t toks]; [apply keeps_ret|]. cbn [infix_loop].
  destruct (binary_tag_exec t); [|apply keeps_ret]. destruct (m <=? _); [|apply keeps_ret].
  apply consumes_keeps, consumes_bind; [auto with consume | intros; apply IH].
Qed.

Lemma infix_loop_enough n : forall n' lhs toks, (length toks <= n)%nat -> (length toks <= n')%nat ->
  infix_loop parse m n lhs toks = infix_loop parse m n' lhs toks.
Proof.
  induction n as [|n IH]; intros [|n'] lhs toks Hn Hn'; (destruct toks as [|t toks]; [reflexivity|]); try (cbn in *; lia).
  cbn [infix_loop length] in *. destruct (binary_tag_exec t) as [tag|]; [|reflexivity]. destruct (m <=? _); [|reflexivity].
  specialize (Hparse toks (binary_prec tag + binary_assoc tag)). destruct (parse toks _) as [rhs rest|e]; [|reflexivity].
  cbn in *. apply IH; lia.
Qed.
End Infix.

Lemma fn_args_ne_keeps parse fuel : (forall f toks, (f < fuel)%nat -> consumes (parse f toks) toks) ->
  forall toks, keeps (parse_fn_args_ne_exec parse fuel toks) toks.
Proof.
  induction fuel as [|fuel IH]; intros Hp toks; [exact I|]. destruct toks as [|t toks]; [exact I|]. cbn [parse_fn_args_ne_exec].
  apply consumes_keeps, consumes_bind; [apply Hp; lia|]. intros e rest. destruct rest as [|[] rest]; try exact I; [|cbn; lia].
  apply keeps_map. specialize (IH ltac:(auto) rest). destruct (parse_fn_args_ne_exec _ _ rest); cbn in *; lia.
Qed.

Lemma function_call_keeps parse fuel name toks : (forall f toks, (f < fuel)%nat -> consumes (parse f toks) toks) ->
  keeps (parse_function_call parse fuel name toks) toks.
Proof.
  intros Hp. apply consumes_keeps. unfold parse_function_call. apply keeps_bind_consumes.
  - unfold parse_fn_args_exec. destruct toks as [|[] toks]; try exact I; try (now apply fn_args_ne_keeps); apply keeps_ret.
  - intros args rest. apply consumes_bind; auto with consume.
Qed.

Section Consumes.
Context `{FloatText}.

(** The first operand of [parse_expression_at], and what follows it. *)
Definition first_operand (fuel : nat) (toks : list Token) (m : Z) : presult AstExpression :=
  match toks with
  | [] => Rejected UnexpectedEof
  | tok :: rest =>
      match prefix_op_exec tok with
      | Some tag =>
          if m <=? prefix_prec tag then pmap (build_unary tag) (parse_expression_at fuel rest (prefix_prec tag))
          else parse_atom fuel toks
      | None => parse_atom fuel toks
      end
  end.
Definition finish (fuel : nat) (m : Z) (lhs : AstExpression) (toks : list Token) : presult AstExpression :=
  let* lhs, cur := infix_loop (parse_expression_at fuel) m (length toks) lhs toks in
  let (lhs, cur) := postfix_loop (length cur) m lhs cur in
  Parsed lhs cur.

Lemma parse_expression_at_S fuel toks m :
  parse_expression_at (S fuel) toks m =
  let* lhs, cur := first_operand fuel toks m in
  let (lhs, cur) := postfix_loop (length cur) m lhs cur in
  finish fuel m lhs cur.
Proof. now destruct toks. Qed.

Lemma finish_keeps fuel m lhs toks :
  (forall toks p, consumes (parse_expression_at fuel toks p) toks) -> keeps (finish fuel m lhs toks) toks.
Proof.
  intros Hp. apply keeps_bind; [now apply infix_loop_keeps|]. intros e rest.
  pose proof (postfix_loop_keeps (length rest) m e rest). destruct (postfix_loop _ _ e rest). exact H0.
Qed.

Lemma parse_atom_consumes fuel toks :
  (forall g toks p, (g < fuel)%nat -> consumes (parse_expression_at g toks p) toks) -> consumes (parse_atom fuel toks) toks.
Proof.
  intros Hp. destruct fuel as [|fuel]; [exact I|]. destruct toks as [|t toks]; [exact I|]. cbn [parse_atom].
  destruct t; try exact I; try (repeat case_match; auto with consume; exact I).
  - destruct toks as [|[] toks]; try apply consumes_ret.
    + apply consumes_cons, consumes_cons, consumes_bind; auto with consume.
    + apply consumes_cons, keeps_cons, function_call_keeps. auto.
  - apply consumes_cons, consumes_bind; [apply Hp; lia | intros]. apply consumes_keeps, consumes_bind; auto with consume.
Qed.

Lemma parse_expression_consumes fuel : forall toks m, consumes (parse_expression_at fuel toks m) toks.
Proof.
  induction fuel as [[|fuel] IH] using lt_wf_ind; intros toks m; [exact I|]. rewrite parse_expression_at_S.
  apply consumes_bind.
  - destruct toks as [|t toks]; [exact I|]. cbn [first_operand].
    assert (consumes (parse_atom fuel (t :: toks)) (t :: toks)) by (apply parse_atom_consumes; auto with lia).
    destruct (prefix_op_exec t) as [tag|]; [|assumption]. destruct (m <=? _); [|assumption].
    apply consumes_map, consumes_cons, IH. lia.
  - intros e rest. pose proof (postfix_loop_keeps (length rest) m e rest). destruct (postfix_loop _ _ e rest) as [e' rest'].
    pose proof (finish_keeps fuel m e' rest' ltac:(intros; apply IH; lia)). destruct (finish fuel m e' rest'); cbn in *; lia.
Qed.

(** ** Fuel

    With at least the fuel that the source passes, the result does not depend
    on it: the parser never stops for want of fuel. *)
Lemma infix_loop_ext p q m n : forall lhs toks,
  (forall toks m, consumes (p toks m) toks) ->
  (forall toks' k, (length toks' < length toks)%nat -> p toks' k = q toks' k) ->
  infix_loop p m n lhs toks = infix_loop q m n lhs toks.
Proof.
  induction n as [|n IH]; intros lhs toks Hp Hpq; [reflexivity|]. destruct toks as [|t toks]; [reflexivity|]. cbn [infix_loop].
  destruct (binary_tag_exec t) as [tag|]; [|reflexivity]. destruct (m <=? _); [|reflexivity].
  rewrite <- Hpq by (cbn; lia). pose proof (Hp toks (binary_prec tag + binary_assoc tag)). destruct (p toks _) as [e rest|]; [|reflexivity].
  cbn in *. apply IH; [exact Hp|]. intros. apply Hpq. cbn. lia.
Qed.

Definition fuel_free_below (n : nat) : Prop := forall f g toks m, (length toks < n)%nat ->
  (2 * length toks + 3 <= f)%nat -> (2 * length toks + 3 <= g)%nat -> parse_expression_at f toks m = parse_expression_at g toks m.

Lemma fn_args_ne_fuel f : forall g toks, fuel_free_below (S (length toks)) ->
  (2 * length toks + 4 <= f)%nat -> (2 * length toks + 4 <= g)%nat ->
  let parse := fun g toks => parse_expression_at g toks 0 in
  parse_fn_args_ne_exec parse f toks = parse_fn_args_ne_exec parse g toks.
Proof.
  induction f as [|f IH]; intros [|g] toks Hb Hf Hg; [lia..|]. destruct toks as [|t toks]; [reflexivity|]. cbn [parse_fn_args_ne_exec].
  rewrite (Hb f g) by (cbn in *; lia). pose proof (parse_expression_consumes g (t :: toks) 0) as Hc.
  destruct (parse_expression_at g _ 0) as [e rest|]; [|reflexivity]. cbn in Hc |- *. destruct rest as [|[] rest]; try reflexivity.
  cbn in Hc. f_equal. apply IH; [|cbn in *; lia..]. intros f' g' toks' m' Hl. apply Hb. cbn. lia.
Qed.

Lemma parse_atom_fuel f g toks : fuel_free_below (length toks) ->
  (2 * length toks + 2 <= f)%nat -> (2 * length toks + 2 <= g)%nat -> parse_atom f toks = parse_atom g toks.
Proof.
  intros Hb Hf Hg. destruct f as [|f], g as [|g]; [lia..|]. destruct toks as [|t toks]; [reflexivity|]. cbn in Hf, Hg. cbn [parse_atom].
  destruct t; try reflexivity.
  - destruct toks as [|[] toks]; try reflexivity. unfold parse_function_call. f_equal.
    unfold parse_fn_args_exec. destruct toks as [|u toks]; [reflexivity|].
    pose proof (fn_args_ne_fuel (S f) (S g) (u :: toks)) as He. cbn in Hf, Hg. destruct u; try reflexivity;
      (apply He; [intros f' g' toks' m' Hl; apply Hb; cbn in *; lia | cbn; lia..]).
  - rewrite (Hb f g) by (cbn; lia). reflexivity.
Qed.

Lemma parse_expression_fuel_lt n : fuel_free_below n.
Proof.
  induction n as [|n IH]; [intros f g toks m Hl; lia|]. intros f g toks m Hl Hf Hg.
  destruct f as [|f], g as [|g]; [lia..|]. rewrite !parse_expression_at_S. destruct toks as [|t toks]; [reflexivity|].
  cbn [length] in Hl, Hf, Hg. assert (fuel_free_below (length (t :: toks))) as IH' by (intros ? ? ? ? ?; apply IH; cbn in *; lia).
  assert (first_operand f (t :: toks) m = first_operand g (t :: toks) m) as ->.
  { cbn [first_operand]. rewrite (parse_atom_fuel f g) by (cbn; lia || exact IH').
    destruct (prefix_op_exec t); [|reflexivity]. now rewrite (IH f g) by lia. }
  assert (consumes (first_operand g (t :: toks) m) (t :: toks)) as Hc.
  { pose proof (parse_atom_consumes g (t :: toks) ltac:(intros; apply parse_expression_consumes)).
    cbn [first_operand]. destruct (prefix_op_exec t); [|assumption]. case_match; [|assumption].
    apply consumes_map, consumes_cons, parse_expression_consumes. }
  destruct (first_operand g (t :: toks) m) as [e rest|]; [|reflexivity]. cbn in Hc |- *.
  pose proof (postfix_loop_keeps (length rest) m e rest). destruct (postfix_loop _ _ e rest) as [e' rest']. cbn in *.
  unfold finish. rewrite (infix_loop_ext (parse_expression_at f) (parse_expression_at g)); [reflexivity| |].
  - apply parse_expression_consumes.
  - intros toks' k Hk. apply IH; lia.
Qed.

Lemma parse_expression_fuel f g toks m : (2 * length toks + 3 <= f)%nat -> (2 * length toks + 3 <= g)%nat ->
  parse_expression_at f toks m = parse_expression_at g toks m.
Proof. apply (parse_expression_fuel_lt (S (length toks))). lia. Qed.
End Consumes.
