(* ===== verification/SqlPrinter.v ===== *)
(** * The printer with the fewest parentheses
    ([verified_minparen.rs], [verified_minparen_stmt.rs])

    Expressions and statements as tokens; the parser reads them back. *)
From S2P Require Import Prelude Bytes Float64 SqlValue SqlPlan SqlAst SqlLexer SqlParser.

(** The precedence of an expression's outermost operator. *)
Definition prec_min_exec (e : AstExpression) : Z :=
  match e with
  | EAll | EColumn _ _ | ELiteral _ | EFunction _ _ => 11
  | EOperator op =>
      match op with
      | ONot _ => 3
      | OIdentity _ | ONegate _ => 10
      | OFactorial _ => 9
      | OIs _ _ => 4
      | OAnd _ _ => 2
      | OOr _ _ => 1
      | OEqual _ _ | ONotEqual _ _ | OLike _ _ => 4
      | OGreaterThan _ _ | OGreaterThanOrEqual _ _ | OLessThan _ _ | OLessThanOrEqual _ _ => 5
      | OAdd _ _ | OSubtract _ _ => 6
      | OMultiply _ _ | ODivide _ _ | ORemainder _ _ => 7
      | OExponentiate _ _ => 8
      end
  end.

Definition wrap_parens (inner : list Token) : list Token := TkOpenParen :: inner ++ [TkCloseParen].
Definition mid_binary (lhs : list Token) (op : Token) (rhs : list Token) : list Token := lhs ++ op :: rhs.

Section Printer.
Context `{FloatText}.

Definition print_lit_exec (l : Literal) : list Token :=
  match l with
  | LNull => [TkKeyword KwNull]
  | LBoolean true => [TkKeyword KwTrue]
  | LBoolean false => [TkKeyword KwFalse]
  | LInteger n => [TkNumber (print_u64 n)]
  | LFloat x => [TkNumber (format_f64 x)]
  | LString s => [TkString s]
  end.

Definition is_token (l : Literal) : Token := match l with LNull => TkKeyword KwNull | _ => TkKeyword KwNaN end.

Fixpoint print_min_body (e : AstExpression) : list Token :=
  let print_min_at e ctx := if prec_min_exec e <? ctx then wrap_parens (print_min_body e) else print_min_body e in
  match e with
  | EAll => [TkAsterisk]
  | EColumn (Some t) column => [TkIdent t; TkPeriod; TkIdent column]
  | EColumn None column => [TkIdent column]
  | ELiteral l => print_lit_exec l
  | EFunction name args =>
      TkIdent name :: TkOpenParen ::
      (fix print_min_args (s : list AstExpression) : list Token :=
         match s with
         | [] => []
         | [e] => print_min_at e 0
         | e :: s => print_min_at e 0 ++ TkComma :: print_min_args s
         end) args ++ [TkCloseParen]
  | EOperator op =>
      match op with
      | ONot inner => TkKeyword KwNot :: print_min_at inner 3
      | OIdentity inner => TkPlus :: print_min_at inner 10
      | ONegate inner => TkMinus :: print_min_at inner 10
      | OFactorial inner => print_min_at inner 10 ++ [TkExclamation]
      | OIs inner l => print_min_at inner 10 ++ [TkKeyword KwIs; is_token l]
      | OOr l r => mid_binary (print_min_at l 1) (TkKeyword KwOr) (print_min_at r 2)
      | OAnd l r => mid_binary (print_min_at l 2) (TkKeyword KwAnd) (print_min_at r 3)
      | OEqual l r => mid_binary (print_min_at l 4) TkEqual (print_min_at r 5)
      | ONotEqual l r => mid_binary (print_min_at l 4) TkNotEqual (print_min_at r 5)
      | OLike l r => mid_binary (print_min_at l 4) (TkKeyword KwLike) (print_min_at r 5)
      | OGreaterThan l r => mid_binary (print_min_at l 5) TkGreaterThan (print_min_at r 6)
      | OGreaterThanOrEqual l r => mid_binary (print_min_at l 5) TkGreaterThanOrEqual (print_min_at r 6)
      | OLessThan l r => mid_binary (print_min_at l 5) TkLessThan (print_min_at r 6)
      | OLessThanOrEqual l r => mid_binary (print_min_at l 5) TkLessThanOrEqual (print_min_at r 6)
      | OAdd l r => mid_binary (print_min_at l 6) TkPlus (print_min_at r 7)
      | OSubtract l r => mid_binary (print_min_at l 6) TkMinus (print_min_at r 7)
      | OMultiply l r => mid_binary (print_min_at l 7) TkAsterisk (print_min_at r 8)
      | ODivide l r => mid_binary (print_min_at l 7) TkSlash (print_min_at r 8)
      | ORemainder l r => mid_binary (print_min_at l 7) TkPercent (print_min_at r 8)
      | OExponentiate l r => mid_binary (print_min_at l 9) TkCaret (print_min_at r 8)
      end
  end.
Definition print_min_at (e : AstExpression) (ctx : Z) : list Token :=
  if prec_min_exec e <? ctx then wrap_parens (print_min_body e) else print_min_body e.
Definition print_min_expr (e : AstExpression) : list Token := print_min_at e 0.

(** Items separated by commas, as the [print_*_slice] functions print them. *)
Fixpoint print_slice {A} (print : A -> list Token) (s : list A) : list Token :=
  match s with
  | [] => []
  | [x] => print x
  | x :: s => print x ++ TkComma :: print_slice print s
  end.

Definition print_exprs_slice : list AstExpression -> list Token := print_slice print_min_expr.

Definition print_alias (alias : option bytes) : list Token :=
  match alias with Some a => [TkKeyword KwAs; TkIdent a] | None => [] end.
Definition print_select_items_slice : list (AstExpression * option bytes) -> list Token :=
  print_slice (fun ea => print_min_expr ea.1 ++ print_alias ea.2).

Definition direction_token (d : Direction) : Token :=
  match d with Ascending => TkKeyword KwAsc | Descending => TkKeyword KwDesc end.
Definition print_order_items_slice : list (AstExpression * Direction) -> list Token :=
  print_slice (fun ed => print_min_expr ed.1 ++ [direction_token ed.2]).

Definition print_idents_slice : list bytes -> list Token := print_slice (fun s => [TkIdent s]).
Definition print_rows_slice : list (list AstExpression) -> list Token :=
  print_slice (fun row => wrap_parens (print_exprs_slice row)).

Definition datatype_token (t : DataType) : Token :=
  match t with
  | TBoolean => TkKeyword KwBoolean
  | TInteger => TkKeyword KwInteger
  | TFloat => TkKeyword KwFloat
  | TString => TkKeyword KwString
  end.

(** A clause that may be absent. *)
Definition print_optional (keyword : Keyword) (o : option AstExpression) : list Token :=
  match o with Some e => TkKeyword keyword :: print_min_expr e | None => [] end.

Definition print_column_toks (c : AstColumn) : list Token :=
  [TkIdent (ac_name c); datatype_token (ac_datatype c)] ++
  (if ac_primary_key c then [TkKeyword KwPrimary; TkKeyword KwKey] else []) ++
  match ac_nullable c with
  | Some true => [TkKeyword KwNull]
  | Some false => [TkKeyword KwNot; TkKeyword KwNull]
  | None => []
  end ++
  (if ac_unique c then [TkKeyword KwUnique] else []) ++
  (if ac_index c then [TkKeyword KwIndex] else []) ++
  match ac_references c with Some t => [TkKeyword KwReferences; TkIdent t] | None => [] end ++
  print_optional KwDefault (ac_default c).
Definition print_columns_slice : list AstColumn -> list Token := print_slice print_column_toks.

Definition join_tokens (j : JoinType) : list Token :=
  match j with
  | JInner => [TkKeyword KwJoin]
  | JCross => [TkKeyword KwCross; TkKeyword KwJoin]
  | JLeft => [TkKeyword KwLeft; TkKeyword KwJoin]
  | JRight => [TkKeyword KwRight; TkKeyword KwJoin]
  end.

(** The right side of a join is a table; nothing is printed for another one. *)
Fixpoint print_from_item_toks (f : From_) : list Token :=
  match f with
  | FTable name alias => TkIdent name :: print_alias alias
  | FJoin left_item right_item join_type predicate =>
      print_from_item_toks left_item ++ join_tokens join_type ++
      match right_item with FTable name alias => TkIdent name :: print_alias alias | FJoin _ _ _ _ => [] end ++
      print_optional KwOn predicate
  end.
Definition print_from_items_slice : list From_ -> list Token := print_slice print_from_item_toks.

(** The assignments in key order, as the map's iterator yields them. *)
Definition print_assignment (ce : bytes * option AstExpression) : list Token :=
  TkIdent ce.1 :: TkEqual :: match ce.2 with Some e => print_min_expr e | None => [TkKeyword KwDefault] end.
Definition print_min_update_stmt (table : bytes) (set : list (bytes * option AstExpression)) (where_clause : option AstExpression) :
    list Token :=
  [TkKeyword KwUpdate; TkIdent table; TkKeyword KwSet] ++ print_slice print_assignment set ++ print_optional KwWhere where_clause.

Definition print_list (keywords : list Token) (printed : list Token) (present : bool) : list Token :=
  if present then keywords ++ printed else [].
Definition nonempty {A} (l : list A) : bool := match l with [] => false | _ => true end.

Definition print_min_select_stmt (q : SelectStatement) : list Token :=
  TkKeyword KwSelect :: print_select_items_slice (st_select q) ++
  print_list [TkKeyword KwFrom] (print_from_items_slice (st_from q)) (nonempty (st_from q)) ++
  print_optional KwWhere (st_where q) ++
  print_list [TkKeyword KwGroup; TkKeyword KwBy] (print_exprs_slice (st_group_by q)) (nonempty (st_group_by q)) ++
  print_optional KwHaving (st_having q) ++
  print_list [TkKeyword KwOrder; TkKeyword KwBy] (print_order_items_slice (st_order_by q)) (nonempty (st_order_by q)) ++
  print_optional KwLimit (st_limit q) ++
  print_optional KwOffset (st_offset q).

Fixpoint print_min_stmt (s : Statement) : list Token :=
  match s with
  | SCommit => [TkKeyword KwCommit]
  | SRollback => [TkKeyword KwRollback]
  | SBegin read_only as_of =>
      TkKeyword KwBegin ::
      (if read_only then [TkKeyword KwRead; TkKeyword KwOnly] else []) ++
      match as_of with
      | Some v => [TkKeyword KwAs; TkKeyword KwOf; TkKeyword KwSystem; TkKeyword KwTime; TkNumber (print_u64 v)]
      | None => []
      end
  | SDropTable name if_exists =>
      [TkKeyword KwDrop; TkKeyword KwTable] ++
      (if if_exists then [TkKeyword KwIf; TkKeyword KwExists] else []) ++ [TkIdent name]
  | SDelete table where_clause =>
      [TkKeyword KwDelete; TkKeyword KwFrom; TkIdent table] ++ print_optional KwWhere where_clause
  | SCreateTable name columns =>
      [TkKeyword KwCreate; TkKeyword KwTable; TkIdent name] ++ wrap_parens (print_columns_slice columns)
  | SInsert table columns values =>
      [TkKeyword KwInsert; TkKeyword KwInto; TkIdent table] ++
      match columns with Some cols => wrap_parens (print_idents_slice cols) | None => [] end ++
      TkKeyword KwValues :: print_rows_slice values
  | SUpdate table set where_clause => print_min_update_stmt table set where_clause
  | SSelect q => print_min_select_stmt q
  | SExplain inner => TkKeyword KwExplain :: print_min_stmt inner
  end.
End Printer.
