(* ===== verification/SqlRoundtrip.v ===== *)
(** * Printing an expression and reading it back

    The printer leaves out the parentheses that precedence and associativity
    make superfluous; the parser still rebuilds the same tree. *)
From S2P Require Import Prelude Bytes Float64 SqlValue SqlPlan SqlAst SqlLexer SqlParser SqlParserTheory SqlPrinter.

(** What [src/sql/parser/float_trust.rs] relies on: a finite float survives
    formatting and parsing, and is never written with digits only. *)
Definition f64_finite (x : f64) : bool := negb (f64_exp x =? 2047).
Class FloatTextSpec `{FloatText} : Prop := {
  float_roundtrip x : is_u64 x -> f64_finite x = true -> parse_f64 (format_f64 x) = Some x;
  float_not_digits x : is_u64 x -> f64_finite x = true -> all_digits (format_f64 x) = false;
}.

(** ** What can be printed *)
Definition printable_literal (l : Literal) : bool :=
  match l with
  | LNull | LBoolean _ | LString _ => true
  | LInteger n => (0 <=? n) && (n <=? i64_max)
  | LFloat x => (0 <=? x) && (x <=? u64_max) && f64_finite x && negb (f64_sign x)
  end.
Definition printable_is (l : Literal) : bool := bool_decide (l = LNull \/ l = LFloat f64_nan).

Fixpoint printable (e : AstExpression) : bool :=
  match e with
  | EAll | EColumn _ _ => true
  | ELiteral l => printable_literal l
  | EFunction _ args => forallb printable args
  | EOperator op =>
      match op with
      | OAnd l r | OOr l r | OEqual l r | OGreaterThan l r | OGreaterThanOrEqual l r | OLessThan l r
      | OLessThanOrEqual l r | ONotEqual l r | OAdd l r | ODivide l r | OExponentiate l r | OMultiply l r
      | ORemainder l r | OSubtract l r | OLike l r => printable l && printable r
      | OIs e l => printable e && printable_is l
      | ONot e | OFactorial e | OIdentity e | ONegate e => printable e
      end
  end.

(** ** Where an operand ends

    No operator of at least the given precedence follows. *)
Definition no_infix (m : Z) (tail : list Token) : Prop :=
  match tail with
  | t :: _ => match binary_tag_exec t with Some tag => binary_prec tag < m | None => True end
  | [] => True
  end.
Definition no_postfix (m : Z) (tail : list Token) : Prop := parse_postfix_at tail m = None.
Definition stops (m : Z) (tail : list Token) : Prop := no_postfix m tail /\ no_infix m tail.
(** An identifier would go on with a call or a qualified name. *)
Definition no_name (tail : list Token) : Prop :=
  match tail with TkOpenParen :: _ | TkPeriod :: _ => False | _ => True end.

Lemma no_infix_mono m m' tail : m <= m' -> no_infix m tail -> no_infix m' tail.
Proof. destruct tail as [|t tail]; [easy|]. cbn. destruct (binary_tag_exec t); [lia | easy]. Qed.
Lemma no_postfix_mono m m' tail : m <= m' -> no_postfix m tail -> no_postfix m' tail.
Proof.
  unfold no_postfix. intros Hm Hn. destruct (parse_postfix_at tail m') as [[op rest]|] eqn:E; [|reflexivity].
  apply parse_postfix_inv in E as [-> Hp]. rewrite parse_postfix_tokens in Hn by lia. discriminate Hn.
Qed.
Lemma stops_mono m m' tail : m <= m' -> stops m tail -> stops m' tail.
Proof. intros Hm [Hp Hi]. split; [eapply no_postfix_mono | eapply no_infix_mono]; eassumption. Qed.

(** Tokens that end every expression. *)
Definition boundary (t : Token) : bool :=
  match t with
  | TkComma | TkCloseParen | TkSemicolon => true
  | TkKeyword (KwAnd | KwOr | KwLike | KwIs) => false
  | TkKeyword _ => true
  | _ => false
  end.
Definition ends (tail : list Token) : Prop := match tail with [] => True | t :: _ => boundary t = true end.

Lemma boundary_no_tag t : boundary t = true -> binary_tag_exec t = None.
Proof. destruct t; try discriminate; try reflexivity. destruct k; cbn; intros; solve [discriminate | reflexivity]. Qed.
Lemma ends_stops m tail : ends tail -> stops m tail.
Proof.
  destruct tail as [|t tail]; [easy|]. cbn. intros Hb. split.
  - unfold no_postfix. destruct t; try discriminate Hb; try reflexivity. destruct k; try discriminate Hb; reflexivity.
  - cbn. now rewrite boundary_no_tag.
Qed.
Lemma ends_no_name tail : ends tail -> no_name tail.
Proof. destruct tail as [|[] tail]; easy. Qed.

(** The precedence at which the parser reads the right end of an expression. *)
Definition right_prec (e : AstExpression) : Z :=
  match e with
  | EAll | EColumn _ _ | ELiteral _ | EFunction _ _ => 11
  | EOperator op =>
      match op with
      | ONot _ => 3
      | OIdentity _ | ONegate _ => 10
      | OFactorial _ | OIs _ _ => 11
      | OAnd _ _ => 3
      | OOr _ _ => 2
      | OEqual _ _ | ONotEqual _ _ | OLike _ _ => 5
      | OGreaterThan _ _ | OGreaterThanOrEqual _ _ | OLessThan _ _ | OLessThanOrEqual _ _ => 6
      | OAdd _ _ | OSubtract _ _ => 7
      | OMultiply _ _ | ODivide _ _ | ORemainder _ _ | OExponentiate _ _ => 8
      end
  end.

Lemma right_prec_prec e : prec_min_exec e <= right_prec e.
Proof. destruct e as [| | | |[]]; cbn; lia. Qed.
Lemma prec_min_pos e : 0 < prec_min_exec e.
Proof. destruct e as [| | | |[]]; cbn; lia. Qed.

Section Roundtrip.
Context `{FloatTextSpec}.

Lemma print_min_args_slice args :
  (fix print_min_args (s : list AstExpression) : list Token :=
     match s with
     | [] => []
     | [e] => print_min_at e 0
     | e :: s => print_min_at e 0 ++ TkComma :: print_min_args s
     end) args = print_exprs_slice args.
Proof. induction args as [|a [|b args] IH]; try reflexivity. cbn in IH |- *. now rewrite IH. Qed.

Definition binary_token (tag : BinaryTag) : Token :=
  match tag with
  | BtAnd => TkKeyword KwAnd | BtOr => TkKeyword KwOr | BtEqual => TkEqual | BtGreaterThan => TkGreaterThan
  | BtGreaterThanOrEqual => TkGreaterThanOrEqual | BtLessThan => TkLessThan | BtLessThanOrEqual => TkLessThanOrEqual
  | BtNotEqual => TkNotEqual | BtAdd => TkPlus | BtDivide => TkSlash | BtExponentiate => TkCaret
  | BtMultiply => TkAsterisk | BtRemainder => TkPercent | BtSubtract => TkMinus | BtLike => TkKeyword KwLike
  end.
Definition unary_token (tag : UnaryTag) : Token :=
  match tag with UtIdentity => TkPlus | UtNegate => TkMinus | UtNot => TkKeyword KwNot end.

Lemma print_binary tag l r :
  print_min_body (build_binary tag l r) =
  print_min_at l (binary_prec tag + 1 - binary_assoc tag) ++ binary_token tag :: print_min_at r (binary_prec tag + binary_assoc tag).
Proof. now destruct tag. Qed.
Lemma print_unary tag e : print_min_body (build_unary tag e) = unary_token tag :: print_min_at e (prefix_prec tag).
Proof. now destruct tag. Qed.

(** ** The loops on what is printed *)
Lemma postfix_stop m lhs toks n : no_postfix m toks -> postfix_loop n m lhs toks = (lhs, toks).
Proof. unfold no_postfix. destruct n; cbn; [easy|]. now intros ->. Qed.

Lemma postfix_once op m lhs toks : m <= postfix_prec op -> no_postfix m toks ->
  postfix_loop (length (postfix_tokens op ++ toks)) m lhs (postfix_tokens op ++ toks) = (build_postfix op lhs, toks).
Proof.
  intros Hm Hn. assert (exists n, length (postfix_tokens op ++ toks) = S n) as [n ->] by (destruct op; cbn; eauto).
  cbn [postfix_loop]. rewrite parse_postfix_tokens by exact Hm. now apply postfix_stop.
Qed.

Lemma finish_stop f m lhs toks : stops m toks -> finish f m lhs toks = Parsed lhs toks.
Proof.
  intros [Hp Hi]. unfold finish.
  assert (infix_loop (parse_expression_at f) m (length toks) lhs toks = Parsed lhs toks) as ->.
  { destruct toks as [|t toks]; [reflexivity|]. cbn in Hi |- *. destruct (binary_tag_exec t); [|reflexivity].
    now rewrite (proj2 (Z.leb_gt _ _)). }
  cbn. now rewrite postfix_stop.
Qed.

Lemma finish_step f m tag lhs rhs toks rest : m <= binary_prec tag ->
  parse_expression_at f toks (binary_prec tag + binary_assoc tag) = Parsed rhs rest ->
  finish f m lhs (binary_token tag :: toks) = finish f m (build_binary tag lhs rhs) rest.
Proof.
  intros Hm E. unfold finish at 1. cbn [length infix_loop].
  assert (binary_tag_exec (binary_token tag) = Some tag) as -> by now destruct tag.
  rewrite (proj2 (Z.leb_le _ _)) by exact Hm. rewrite E. cbn [pbind].
  pose proof (parse_expression_consumes f toks (binary_prec tag + binary_assoc tag)) as Hc. rewrite E in Hc. cbn in Hc.
  rewrite (infix_loop_enough _ _ (parse_expression_consumes f) _ (length rest)) by lia. reflexivity.
Qed.

(** ** The round trip *)
Definition enough (f : nat) (toks : list Token) : Prop := (2 * length toks + 3 <= S f)%nat.

(** An expression without its parentheses, where the parser may bind its
    operator: the parser gets to the operators that follow it. *)
Definition reads (e : AstExpression) : Prop := forall m tail f, m <= prec_min_exec e -> no_name tail -> no_postfix m tail ->
  stops (right_prec e) tail -> enough f (print_min_body e ++ tail) ->
  parse_expression_at (S f) (print_min_body e ++ tail) m = finish f m e tail.
Definition reads_first (e : AstExpression) : Prop := forall m tail f, m <= prec_min_exec e -> no_name tail ->
  stops (right_prec e) tail -> enough f (print_min_body e ++ tail) ->
  first_operand f (print_min_body e ++ tail) m = Parsed e tail.

Lemma first_reads e : reads_first e -> reads e.
Proof.
  intros He m tail f Hm Hn Hp Hs Hf. rewrite parse_expression_at_S, He by assumption. cbn. now rewrite postfix_stop.
Qed.

Lemma reads_whole e m tail f : reads e -> m <= prec_min_exec e -> no_name tail -> stops m tail -> enough f (print_min_body e ++ tail) ->
  parse_expression_at (S f) (print_min_body e ++ tail) m = Parsed e tail.
Proof.
  intros He Hm Hn Hs Hf. rewrite He; [now apply finish_stop | assumption | assumption | apply Hs | | assumption].
  eapply stops_mono; [|exact Hs]. pose proof (right_prec_prec e). lia.
Qed.

Lemma parens_first e m tail f : reads e -> enough f (wrap_parens (print_min_body e) ++ tail) ->
  first_operand f (wrap_parens (print_min_body e) ++ tail) m = Parsed e tail.
Proof.
  intros He Hf. unfold enough, wrap_parens in *. cbn [app length] in *. rewrite <- app_assoc in Hf |- *. cbn [app] in Hf |- *. cbn [first_operand prefix_op_exec].
  rewrite length_app in Hf. cbn [length] in Hf. destruct f as [|[|f]]; [lia..|]. cbn [parse_atom].
  rewrite reads_whole; [|exact He|pose proof (prec_min_pos e); lia|exact I|now apply ends_stops|unfold enough; rewrite length_app; cbn; lia].
  cbn. now rewrite decide_True.
Qed.

(** An operand in its context. *)
Lemma at_reads e ctx m tail f : reads e -> m <= ctx -> no_name tail -> no_postfix m tail ->
  (ctx <= prec_min_exec e -> stops (right_prec e) tail) -> enough f (print_min_at e ctx ++ tail) ->
  parse_expression_at (S f) (print_min_at e ctx ++ tail) m = finish f m e tail.
Proof.
  intros He Hm Hn Hp Hs. unfold print_min_at. destruct (prec_min_exec e <? ctx) eqn:E; zify_bools; intros Hf.
  - rewrite parse_expression_at_S, parens_first by assumption. cbn. now rewrite postfix_stop.
  - apply He; auto with lia.
Qed.

Lemma at_reads_whole e m tail f : reads e -> no_name tail -> stops m tail -> enough f (print_min_at e m ++ tail) ->
  parse_expression_at (S f) (print_min_at e m ++ tail) m = Parsed e tail.
Proof.
  intros He Hn Hs Hf. rewrite (at_reads e m m); [now apply finish_stop | exact He | lia | exact Hn | apply Hs | | exact Hf].
  intros Hm. eapply stops_mono; [|exact Hs]. pose proof (right_prec_prec e). lia.
Qed.

Lemma operand_first e tail f m : reads e -> (10 <= prec_min_exec e -> reads_first e) -> m <= 10 -> no_name tail -> stops 10 tail ->
  enough f (print_min_at e 10 ++ tail) -> first_operand f (print_min_at e 10 ++ tail) m = Parsed e tail.
Proof.
  intros He Hf Hm Hn Hs. unfold print_min_at. destruct (prec_min_exec e <? 10) eqn:E; zify_bools; intros Hl.
  - now apply parens_first.
  - apply Hf; [lia | lia | exact Hn | | exact Hl]. eapply stops_mono; [|exact Hs]. pose proof (right_prec_prec e). lia.
Qed.

(** ** The cases *)
Lemma unary_first tag e : reads e -> reads_first (build_unary tag e).
Proof.
  intros He m tail f Hm Hn Hs Hf. rewrite print_unary in *. cbn [app]. unfold enough in Hf. cbn [app length] in Hf.
  cbn [first_operand]. assert (prefix_op_exec (unary_token tag) = Some tag) as -> by now destruct tag.
  assert (prec_min_exec (build_unary tag e) = prefix_prec tag /\ right_prec (build_unary tag e) = prefix_prec tag) as [E1 E2] by now destruct tag.
  rewrite (proj2 (Z.leb_le _ _)) by lia. rewrite E2 in Hs. destruct f as [|f]; [lia|].
  rewrite at_reads_whole by (try assumption; unfold enough; lia). reflexivity.
Qed.

Lemma postfix_reads op e l :
  build_postfix op e = l -> (op = PoFactorial \/ exists nan, op = PoIs false nan) ->
  print_min_body l = print_min_at e 10 ++ postfix_tokens op -> prec_min_exec l = postfix_prec op ->
  reads e -> (10 <= prec_min_exec e -> reads_first e) -> reads l.
Proof.
  intros <- Hop Ep El He Hfe m tail f Hm Hn Hp Hs Hf. rewrite Ep, <- app_assoc in *. rewrite El in Hm.
  rewrite parse_expression_at_S, operand_first; [| assumption | assumption | | | | assumption].
  - cbn [pbind]. now rewrite postfix_once.
  - destruct op; cbn in Hm; lia.
  - destruct Hop as [->|[? ->]]; exact I.
  - split; [|now destruct Hop as [->|[? ->]]]. unfold no_postfix. destruct (parse_postfix_at _ 10) as [[o r]|] eqn:E; [|reflexivity].
    apply parse_postfix_inv in E as [_ E]. destruct o; cbn in E; lia.
Qed.

Lemma binary_reads tag l r : reads l -> reads r -> reads (build_binary tag l r).
Proof.
  intros Hl Hr m tail f Hm Hn Hp Hs Hf. rewrite print_binary, <- app_assoc in *. cbn [app] in *.
  assert (prec_min_exec (build_binary tag l r) = binary_prec tag /\ right_prec (build_binary tag l r) = binary_prec tag + binary_assoc tag)
    as [E1 E2] by now destruct tag.
  rewrite E1 in Hm. rewrite E2 in Hs. unfold enough in Hf. rewrite length_app in Hf. cbn [length] in Hf. rewrite length_app in Hf.
  assert (0 <= binary_assoc tag <= 1) by (destruct tag; cbn; lia).
  rewrite at_reads; [| exact Hl | lia | now destruct tag | now destruct tag | | ].
  - destruct f as [|f]; [lia|]. apply finish_step; [exact Hm|]. apply at_reads_whole; [exact Hr | exact Hn | exact Hs|].
    unfold enough. rewrite length_app. lia.
  - intros Hc. split; [now destruct tag|]. cbn. assert (binary_tag_exec (binary_token tag) = Some tag) as -> by now destruct tag.
    clear Hl Hf. destruct l as [| | | |[]]; destruct tag; cbn in Hc |- *; lia.
  - unfold enough. rewrite length_app. cbn [length]. rewrite length_app. lia.
Qed.

Lemma literal_first l : printable_literal l = true -> reads_first (ELiteral l).
Proof.
  intros Hl m tail f Hm Hn Hs Hf. unfold enough in Hf. destruct f as [|f]; [destruct l as [|[]| | |]; cbn in Hf; lia|].
  destruct l as [|[]|n|x|s]; try reflexivity; cbn in Hl; cbn [print_min_body print_lit_exec app first_operand prefix_op_exec parse_atom parse_literal_exec].
  - rewrite !andb_true_iff in Hl. destruct Hl. unfold print_u64. rewrite print_digits_digits by lia.
    change (print_digits 20 n) with (print_u64 n). now rewrite parse_print_i64 by lia.
  - rewrite !andb_true_iff in Hl. destruct Hl as [[[H1 H2] Hfin] _]. assert (is_u64 x) by (unfold is_u64; lia).
    rewrite float_not_digits by assumption. now rewrite float_roundtrip by assumption.
Qed.

Lemma column_first t n : reads_first (EColumn t n).
Proof.
  intros m tail f Hm Hn Hs Hf. unfold enough in Hf. destruct f as [|f]; [destruct t; cbn in Hf; lia|].
  destruct t as [t|]; cbn; [reflexivity|]. destruct tail as [|[] tail]; cbn; easy.
Qed.

(** Arguments of a function. *)
Lemma args_reads args : Forall reads args -> forall tail f, args <> [] ->
  (2 * length (print_exprs_slice args ++ TkCloseParen :: tail) + 4 <= f)%nat ->
  parse_fn_args_ne_exec (fun g toks => parse_expression_at g toks 0) f (print_exprs_slice args ++ TkCloseParen :: tail)
  = Parsed args (TkCloseParen :: tail).
Proof.
  intros Hargs. induction Hargs as [|a args Ha Hargs IH]; intros tail f Hne Hf; [easy|].
  destruct f as [|f]; [lia|].
  assert (forall rest, print_min_at a 0 ++ rest = [] -> False) as Hnil.
  { intros rest E. apply (at_reads_whole a 0 [] (2 * length (print_min_at a 0) + 3)) in Ha; [|exact I|now apply ends_stops|unfold enough; rewrite app_nil_r; lia].
    apply app_eq_nil in E as [E _]. rewrite E in Ha. discriminate Ha. }
  destruct args as [|b args].
  - cbn [print_exprs_slice print_slice] in *. unfold print_exprs_slice in *. cbn [print_slice] in *. unfold print_min_expr in *.
    cbn [parse_fn_args_ne_exec]. destruct (print_min_at a 0 ++ TkCloseParen :: tail) as [|t toks] eqn:E; [now apply Hnil in E|].
    rewrite <- E in *. destruct f as [|f]; [lia|]. rewrite at_reads_whole; [reflexivity | exact Ha | exact I | now apply ends_stops | unfold enough; lia].
  - change (print_exprs_slice (a :: b :: args)) with (print_min_at a 0 ++ TkComma :: print_exprs_slice (b :: args)) in *.
    rewrite <- app_assoc in *. cbn [app] in *. rewrite length_app in Hf. cbn [length] in Hf.
    cbn [parse_fn_args_ne_exec]. destruct (print_min_at a 0 ++ TkComma :: print_exprs_slice (b :: args) ++ TkCloseParen :: tail) as [|t toks] eqn:E; [now apply Hnil in E|].
    rewrite <- E in *. destruct f as [|f]; [lia|].
    rewrite at_reads_whole; [| exact Ha | exact I | now apply ends_stops | unfold enough; rewrite length_app; cbn [length]; lia].
    cbn [pbind]. rewrite IH; [reflexivity | easy | lia].
Qed.

Lemma fn_args_nonempty f toks args rest :
  let parse := fun g toks => parse_expression_at g toks 0 in
  parse_fn_args_ne_exec parse f toks = Parsed args rest -> parse_fn_args_exec parse f toks = Parsed args rest.
Proof.
  cbn zeta. unfold parse_fn_args_exec. destruct toks as [|t toks]; [destruct f; discriminate|]. intros E. destruct t; try exact E.
  destruct f as [|[|[|f]]]; discriminate E.
Qed.

Lemma function_first name args : Forall reads args -> reads_first (EFunction name args).
Proof.
  intros Ha m tail f Hm Hn Hs Hf. cbn [print_min_body] in *.
  change (fun e ctx => if prec_min_exec e <? ctx then wrap_parens (print_min_body e) else print_min_body e) with print_min_at in *.
  rewrite print_min_args_slice in *. cbn [app] in *. rewrite <- app_assoc in *. cbn [app] in *. unfold enough in Hf. cbn [length] in Hf.
  destruct f as [|f]; [lia|]. cbn [first_operand prefix_op_exec parse_atom]. unfold parse_function_call.
  destruct args as [|a args]; [cbn; now rewrite decide_True|].
  rewrite (fn_args_nonempty _ _ (a :: args) (TkCloseParen :: tail)) by (apply args_reads; [exact Ha | easy | lia]).
  cbn. now rewrite decide_True.
Qed.

(** Every operator is built by one of the three builders. *)
Lemma operator_builder op :
  (exists tag l r, EOperator op = build_binary tag l r /\ operands op = [l; r]) \/
  (exists tag e, EOperator op = build_unary tag e /\ operands op = [e]) \/
  (exists e, op = OFactorial e) \/ (exists e l, op = OIs e l).
Proof.
  destruct op; eauto 8.
  - left. now exists BtAnd, lhs, rhs.
  - right. left. now exists UtNot, expr.
  - left. now exists BtOr, lhs, rhs.
  - left. now exists BtEqual, lhs, rhs.
  - left. now exists BtGreaterThan, lhs, rhs.
  - left. now exists BtGreaterThanOrEqual, lhs, rhs.
  - left. now exists BtLessThan, lhs, rhs.
  - left. now exists BtLessThanOrEqual, lhs, rhs.
  - left. now exists BtNotEqual, lhs, rhs.
  - left. now exists BtAdd, lhs, rhs.
  - left. now exists BtDivide, lhs, rhs.
  - left. now exists BtExponentiate, lhs, rhs.
  - right. left. now exists UtIdentity, expr.
  - left. now exists BtMultiply, lhs, rhs.
  - right. left. now exists UtNegate, expr.
  - left. now exists BtRemainder, lhs, rhs.
  - left. now exists BtSubtract, lhs, rhs.
  - left. now exists BtLike, lhs, rhs.
Qed.

Lemma printable_operands op : printable (EOperator op) = true -> Forall (fun e => printable e = true) (operands op).
Proof. destruct op; cbn; rewrite ?andb_true_iff; intros; repeat constructor; tauto. Qed.

Lemma printable_reads e : printable e = true -> reads e /\ (10 <= prec_min_exec e -> reads_first e).
Proof.
  assert (forall e, reads_first e -> reads e /\ (10 <= prec_min_exec e -> reads_first e)) as Hfirst by (auto using first_reads).
  assert (forall e, reads e -> prec_min_exec e < 10 -> reads e /\ (10 <= prec_min_exec e -> reads_first e)) as Hlow by (intros; split; [assumption | lia]).
  induction e as [|t n|l|n args IH|op IH] using AstExpression_rect_nested; cbn [printable]; intros Hp.
  - apply Hfirst. intros m tail f Hm Hn Hs Hf. unfold enough in Hf. destruct f; [cbn in Hf; lia | reflexivity].
  - apply Hfirst, column_first.
  - now apply Hfirst, literal_first.
  - apply Hfirst, function_first. apply forallb_Forall in Hp. rewrite List.Forall_forall in *. intros e He. now apply IH, Hp.
  - pose proof (printable_operands op Hp) as Ho. assert (Forall (fun e => reads e /\ (10 <= prec_min_exec e -> reads_first e)) (operands op)) as Hr.
    { rewrite List.Forall_forall in *. auto. } clear IH Ho.
    destruct (operator_builder op) as [(tag & l & r & -> & Eo)|[(tag & e & -> & Eo)|[[e ->]|[e [l ->]]]]].
    + rewrite Eo, !Forall_cons in Hr. destruct Hr as ([Hl _] & [Hr _] & _). apply Hlow; [now apply binary_reads | destruct tag; cbn; lia].
    + rewrite Eo, Forall_cons in Hr. now apply Hfirst, unary_first.
    + cbn in Hr. rewrite Forall_cons in Hr. destruct Hr as [[Hr1 Hr2] _]. apply Hlow; [|cbn; lia]. eapply (postfix_reads PoFactorial); eauto.
    + cbn in Hr, Hp. rewrite Forall_cons in Hr. destruct Hr as [[Hr1 Hr2] _]. apply Hlow; [|cbn; lia].
      apply andb_true_iff in Hp as [_ Hl%bool_decide_eq_true]. destruct Hl as [->| ->].
      * eapply (postfix_reads (PoIs false false)); eauto.
      * eapply (postfix_reads (PoIs false true)); eauto.
Qed.

(** Reading back an expression, with the fuel the source gives. *)
Lemma expr_roundtrip e m tail f : printable e = true -> no_name tail -> stops m tail ->
  (2 * length (print_min_at e m ++ tail) + 3 <= f)%nat ->
  parse_expression_at f (print_min_at e m ++ tail) m = Parsed e tail.
Proof.
  intros He Hn Hs Hf. destruct f as [|f]; [lia|]. apply at_reads_whole; [now apply printable_reads | exact Hn | exact Hs | exact Hf].
Qed.
End Roundtrip.
