(* ===== verification/SqlStmtParser.v ===== *)
(** * Statements and the parser's entry point

    [verified_control.rs] and [Parser::parse] of [parser.rs], with its guard
    against deeply nested input. *)
From S2P Require Import Prelude Bytes Btree Float64 SqlValue SqlPlan SqlAst SqlLexer SqlParser.

(** [usize::MAX] on a 64-bit target. *)
Definition usize_max : Z := 18446744073709551615.
Definition max_tokens : Z := (usize_max - 3) / 2.

(** [loop { item; if comma { continue } else { break } }]; an item is at least
    one token, so the number of tokens bounds the iterations. *)
Section CommaList.
Context {A : Type} (item : list Token -> presult A).
Fixpoint comma_list_n (n : nat) (toks : list Token) : presult (list A) :=
  match n with
  | O => Rejected UnexpectedEof
  | S n =>
      let* x, rest := item toks in
      match next_is TkComma rest with
      | Some rest => pmap (cons x) (comma_list_n n rest)
      | None => Parsed [x] rest
      end
  end.
Definition comma_list (toks : list Token) : presult (list A) := comma_list_n (S (length toks)) toks.
End CommaList.

Section Statements.
Context `{FloatText}.

Definition parse_clause_expr_at (toks : list Token) : presult AstExpression :=
  if max_tokens <? Z.of_nat (length toks) then Rejected UnexpectedEof
  else parse_expression_at (2 * length toks + 3) toks 0.

(** An optional clause: its keyword and an expression. *)
Definition parse_optional_at (keyword : Keyword) (toks : list Token) : presult (option AstExpression) :=
  match next_is (TkKeyword keyword) toks with
  | Some rest => pmap Some (parse_clause_expr_at rest)
  | None => Parsed None toks
  end.

(** An optional alias, with or without AS. *)
Definition parse_alias_at (toks : list Token) : presult (option bytes) :=
  match toks with
  | TkKeyword KwAs :: rest => pmap Some (expect_ident rest)
  | TkIdent name :: rest => Parsed (Some name) rest
  | _ => Parsed None toks
  end.
Definition has_alias (toks : list Token) : bool :=
  match toks with
  | TkKeyword KwAs :: _ | TkIdent _ :: _ => true
  | _ => false
  end.

Definition parse_select_item_at (toks : list Token) : presult (AstExpression * option bytes) :=
  let* expr, rest := parse_clause_expr_at toks in
  if has_alias rest && bool_decide (expr = EAll) then Rejected CantAliasStar
  else pmap (pair expr) (parse_alias_at rest).
Definition parse_select_list_at (toks : list Token) : presult (list (AstExpression * option bytes)) :=
  comma_list parse_select_item_at toks.

Definition parse_from_table_at (toks : list Token) : presult From_ :=
  let* name, rest := expect_ident toks in
  pmap (FTable name) (parse_alias_at rest).

(** The keywords of a join; [None] where there is no join. *)
Definition parse_join_at (toks : list Token) : option (presult JoinType) :=
  let outer rest := match next_is (TkKeyword KwOuter) rest with Some rest => rest | None => rest end in
  let join j rest := pmap (fun _ => j) (expect (TkKeyword KwJoin) rest) in
  match toks with
  | TkKeyword KwJoin :: rest => Some (Parsed JInner rest)
  | TkKeyword KwCross :: rest => Some (join JCross rest)
  | TkKeyword KwInner :: rest => Some (join JInner rest)
  | TkKeyword KwLeft :: rest => Some (join JLeft (outer rest))
  | TkKeyword KwRight :: rest => Some (join JRight (outer rest))
  | _ => None
  end.

Fixpoint parse_joins_n (n : nat) (from_item : From_) (toks : list Token) : presult From_ :=
  match n with
  | O => Parsed from_item toks
  | S n =>
      match parse_join_at toks with
      | None => Parsed from_item toks
      | Some r =>
          let* join_type, rest := r in
          let* right_item, rest := parse_from_table_at rest in
          let* predicate, rest :=
            match join_type with
            | JCross => Parsed None rest
            | _ => let* _, rest := expect (TkKeyword KwOn) rest in pmap Some (parse_clause_expr_at rest)
            end in
          parse_joins_n n (FJoin from_item right_item join_type predicate) rest
      end
  end.
Definition parse_from_item_at (toks : list Token) : presult From_ :=
  let* from_item, rest := parse_from_table_at toks in
  parse_joins_n (length rest) from_item rest.
Definition parse_from_clause_at (toks : list Token) : presult (list From_) :=
  match next_is (TkKeyword KwFrom) toks with
  | None => Parsed [] toks
  | Some rest => comma_list parse_from_item_at rest
  end.

Definition parse_group_by_at (toks : list Token) : presult (list AstExpression) :=
  match next_is (TkKeyword KwGroup) toks with
  | None => Parsed [] toks
  | Some rest =>
      let* _, rest := expect (TkKeyword KwBy) rest in
      comma_list parse_clause_expr_at rest
  end.

Definition parse_order_item_at (toks : list Token) : presult (AstExpression * Direction) :=
  let* expr, rest := parse_clause_expr_at toks in
  match rest with
  | TkKeyword KwAsc :: rest => Parsed (expr, Ascending) rest
  | TkKeyword KwDesc :: rest => Parsed (expr, Descending) rest
  | _ => Parsed (expr, Ascending) rest
  end.
Definition parse_order_by_at (toks : list Token) : presult (list (AstExpression * Direction)) :=
  match next_is (TkKeyword KwOrder) toks with
  | None => Parsed [] toks
  | Some rest =>
      let* _, rest := expect (TkKeyword KwBy) rest in
      comma_list parse_order_item_at rest
  end.

Definition parse_select_at (toks : list Token) : presult Statement :=
  let* select, cur := parse_select_list_at toks in
  let* from, cur := parse_from_clause_at cur in
  let* where_clause, cur := parse_optional_at KwWhere cur in
  let* group_by, cur := parse_group_by_at cur in
  let* having, cur := parse_optional_at KwHaving cur in
  let* order_by, cur := parse_order_by_at cur in
  let* limit, cur := parse_optional_at KwLimit cur in
  let* offset, cur := parse_optional_at KwOffset cur in
  Parsed (SSelect (mkSelect select from where_clause group_by having order_by offset limit)) cur.

(** *** CREATE TABLE *)
Definition parse_datatype (tok : Token) : option DataType :=
  match tok with
  | TkKeyword KwBool | TkKeyword KwBoolean => Some TBoolean
  | TkKeyword KwFloat | TkKeyword KwDouble => Some TFloat
  | TkKeyword KwInt | TkKeyword KwInteger => Some TInteger
  | TkKeyword KwString | TkKeyword KwText | TkKeyword KwVarchar => Some TString
  | _ => None
  end.

Definition with_primary_key (c : AstColumn) : AstColumn :=
  mkAstColumn (ac_name c) (ac_datatype c) true (ac_nullable c) (ac_default c) (ac_unique c) (ac_index c) (ac_references c).
Definition with_nullable (b : bool) (c : AstColumn) : AstColumn :=
  mkAstColumn (ac_name c) (ac_datatype c) (ac_primary_key c) (Some b) (ac_default c) (ac_unique c) (ac_index c) (ac_references c).
Definition with_default (e : AstExpression) (c : AstColumn) : AstColumn :=
  mkAstColumn (ac_name c) (ac_datatype c) (ac_primary_key c) (ac_nullable c) (Some e) (ac_unique c) (ac_index c) (ac_references c).
Definition with_unique (c : AstColumn) : AstColumn :=
  mkAstColumn (ac_name c) (ac_datatype c) (ac_primary_key c) (ac_nullable c) (ac_default c) true (ac_index c) (ac_references c).
Definition with_index (c : AstColumn) : AstColumn :=
  mkAstColumn (ac_name c) (ac_datatype c) (ac_primary_key c) (ac_nullable c) (ac_default c) (ac_unique c) true (ac_references c).
Definition with_references (t : bytes) (c : AstColumn) : AstColumn :=
  mkAstColumn (ac_name c) (ac_datatype c) (ac_primary_key c) (ac_nullable c) (ac_default c) (ac_unique c) (ac_index c) (Some t).

Definition set_nullable (b : bool) (c : AstColumn) (rest : list Token) : presult AstColumn :=
  match ac_nullable c with
  | Some _ => Rejected (NullabilityAlreadySet (ac_name c))
  | None => Parsed (with_nullable b c) rest
  end.

(** One iteration of the loop over the constraints, after its keyword. *)
Definition parse_constraint_at (keyword : Keyword) (c : AstColumn) (toks : list Token) : presult AstColumn :=
  match keyword with
  | KwPrimary => let* _, rest := expect (TkKeyword KwKey) toks in Parsed (with_primary_key c) rest
  | KwNull => set_nullable true c toks
  | KwNot => let* _, rest := expect (TkKeyword KwNull) toks in set_nullable false c rest
  | KwDefault => let* e, rest := parse_clause_expr_at toks in Parsed (with_default e c) rest
  | KwUnique => Parsed (with_unique c) toks
  | KwIndex => Parsed (with_index c) toks
  | KwReferences => let* t, rest := expect_ident toks in Parsed (with_references t c) rest
  | _ => Rejected (UnexpectedKeyword keyword)
  end.
Fixpoint parse_constraints_n (n : nat) (c : AstColumn) (toks : list Token) : presult AstColumn :=
  match n, toks with
  | S n, TkKeyword keyword :: rest =>
      let* c, rest := parse_constraint_at keyword c rest in
      parse_constraints_n n c rest
  | _, _ => Parsed c toks
  end.
Definition parse_create_column_at (toks : list Token) : presult AstColumn :=
  let* name, rest := expect_ident toks in
  match rest with
  | [] => Rejected UnexpectedEof
  | tok :: rest =>
      match parse_datatype tok with
      | None => Rejected (UnexpectedToken tok)
      | Some datatype =>
          parse_constraints_n (length rest) (mkAstColumn name datatype false None None false false None) rest
      end
  end.
Definition parse_create_at (toks : list Token) : presult Statement :=
  let* _, cur := expect (TkKeyword KwTable) toks in
  let* name, cur := expect_ident cur in
  let* _, cur := expect TkOpenParen cur in
  let* columns, cur := comma_list parse_create_column_at cur in
  let* _, cur := expect TkCloseParen cur in
  Parsed (SCreateTable name columns) cur.

(** *** UPDATE, INSERT, DELETE, DROP TABLE *)
Definition parse_assignment_at (toks : list Token) : presult (bytes * option AstExpression) :=
  let* column, cur := expect_ident toks in
  let* _, cur := expect TkEqual cur in
  match next_is (TkKeyword KwDefault) cur with
  | Some rest => Parsed (column, None) rest
  | None => pmap (fun e => (column, Some e)) (parse_clause_expr_at cur)
  end.
Fixpoint parse_assignments_n (n : nat) (set : list (bytes * option AstExpression)) (toks : list Token) :
    presult (list (bytes * option AstExpression)) :=
  match n with
  | O => Rejected UnexpectedEof
  | S n =>
      let* assignment, cur := parse_assignment_at toks in
      match btree_get set assignment.1 with
      | Some _ => Rejected (DuplicateColumn assignment.1)
      | None =>
          let set := btree_insert assignment.1 assignment.2 set in
          match next_is TkComma cur with
          | Some rest => parse_assignments_n n set rest
          | None => Parsed set cur
          end
      end
  end.
Definition parse_update_at (toks : list Token) : presult Statement :=
  let* table, cur := expect_ident toks in
  let* _, cur := expect (TkKeyword KwSet) cur in
  let* set, cur := parse_assignments_n (S (length cur)) [] cur in
  let* where_clause, cur := parse_optional_at KwWhere cur in
  Parsed (SUpdate table set where_clause) cur.

Definition parse_columns_at (toks : list Token) : presult (option (list bytes)) :=
  match next_is TkOpenParen toks with
  | None => Parsed None toks
  | Some rest =>
      let* cols, rest := comma_list expect_ident rest in
      let* _, rest := expect TkCloseParen rest in
      Parsed (Some cols) rest
  end.
Definition parse_row_at (toks : list Token) : presult (list AstExpression) :=
  let* _, rest := expect TkOpenParen toks in
  let* row, rest := comma_list parse_clause_expr_at rest in
  let* _, rest := expect TkCloseParen rest in
  Parsed row rest.
Definition parse_insert_at (toks : list Token) : presult Statement :=
  let* _, cur := expect (TkKeyword KwInto) toks in
  let* table, cur := expect_ident cur in
  let* columns, cur := parse_columns_at cur in
  let* _, cur := expect (TkKeyword KwValues) cur in
  let* values, cur := comma_list parse_row_at cur in
  Parsed (SInsert table columns values) cur.

Definition parse_delete_at (toks : list Token) : presult Statement :=
  let* _, cur := expect (TkKeyword KwFrom) toks in
  let* table, cur := expect_ident cur in
  let* where_clause, cur := parse_optional_at KwWhere cur in
  Parsed (SDelete table where_clause) cur.

Definition parse_drop_at (toks : list Token) : presult Statement :=
  let* _, cur := expect (TkKeyword KwTable) toks in
  let* if_exists, cur :=
    match next_is (TkKeyword KwIf) cur with
    | Some rest => pmap (fun _ => true) (expect (TkKeyword KwExists) rest)
    | None => Parsed false cur
    end in
  let* name, cur := expect_ident cur in
  Parsed (SDropTable name if_exists) cur.

(** *** Transaction control *)
Definition parse_read_at (toks : list Token) : presult bool :=
  match next_is (TkKeyword KwRead) toks with
  | None => Parsed false toks
  | Some rest =>
      match rest with
      | [] => Rejected UnexpectedEof
      | TkKeyword KwOnly :: rest => Parsed true rest
      | TkKeyword KwWrite :: rest => Parsed false rest
      | t :: _ => Rejected (UnexpectedToken t)
      end
  end.
Definition parse_as_of_at (toks : list Token) : presult (option Z) :=
  match next_is (TkKeyword KwAs) toks with
  | None => Parsed None toks
  | Some rest =>
      let* _, rest := expect (TkKeyword KwOf) rest in
      let* _, rest := expect (TkKeyword KwSystem) rest in
      let* _, rest := expect (TkKeyword KwTime) rest in
      match rest with
      | [] => Rejected UnexpectedEof
      | TkNumber n :: rest =>
          match parse_digits n with
          | Some version => Parsed (Some version) rest
          | None => Rejected (InvalidSystemTime n)
          end
      | t :: _ => Rejected (WantedNumber t)
      end
  end.
Definition parse_begin_at (toks : list Token) : presult Statement :=
  let cur := match next_is (TkKeyword KwTransaction) toks with Some rest => rest | None => toks end in
  let* read_only, cur := parse_read_at cur in
  let* as_of, cur := parse_as_of_at cur in
  Parsed (SBegin read_only as_of) cur.

Definition parse_explain_at (parse_control : list Token -> presult Statement) (toks : list Token) : presult Statement :=
  match toks with
  | TkKeyword KwExplain :: _ => Rejected NestedExplain
  | _ => pmap SExplain (parse_control toks)
  end.

Fixpoint parse_control_at (toks : list Token) : presult Statement :=
  match toks with
  | [] => Rejected UnexpectedEof
  | TkKeyword KwCommit :: rest => Parsed SCommit rest
  | TkKeyword KwRollback :: rest => Parsed SRollback rest
  | TkKeyword KwBegin :: rest => parse_begin_at rest
  | TkKeyword KwDrop :: rest => parse_drop_at rest
  | TkKeyword KwDelete :: rest => parse_delete_at rest
  | TkKeyword KwInsert :: rest => parse_insert_at rest
  | TkKeyword KwUpdate :: rest => parse_update_at rest
  | TkKeyword KwCreate :: rest => parse_create_at rest
  | TkKeyword KwSelect :: rest => parse_select_at rest
  | TkKeyword KwExplain :: rest => parse_explain_at parse_control_at rest
  | tok :: _ => Rejected (UnexpectedToken tok)
  end.
End Statements.

(** ** The guard against deep nesting ([check_nesting_depth]) *)
Definition MAX_NESTING_DEPTH : Z := 64.

Record NestLevel : Type := mkLevel { prefix_held : Z; nl_args : Z; carets : Z; is_call : bool }.
Definition frames (l : NestLevel) : Z := prefix_held l + nl_args l + carets l.

(** The loop's variables; [levels] has the innermost level first. *)
Record NestState : Type := mkNest {
  levels : list NestLevel;
  held_total : Z;
  prefix_run : Z;
  expect_operand : bool;
  ident_pending : bool;
  after_name_kw : bool;
}.

Definition introduces_name (token : Token) : bool :=
  match token with
  | TkKeyword (KwTable | KwInto | KwFrom | KwJoin | KwUpdate) => true
  | _ => false
  end.
Definition closes_caret_chain (token : Token) (expect_operand : bool) : bool :=
  negb expect_operand &&
  match token with
  | TkKeyword _ | TkEqual | TkNotEqual | TkGreaterThan | TkGreaterThanOrEqual | TkLessThan | TkLessThanOrEqual
  | TkLessOrGreaterThan | TkPlus | TkMinus | TkAsterisk | TkSlash | TkPercent => true
  | _ => false
  end.

(** Subtraction of [usize]; it overflows below zero. *)
Definition usize_sub (a b : Z) : outcome Z := if a <? b then Panic "attempt to subtract with overflow" else Ok (a - b).

(** [levels.last_mut().expect(..)]: the innermost level and the others. *)
Definition last_level (ls : list NestLevel) : outcome (NestLevel * list NestLevel) :=
  match ls with
  | [] => Panic "levels is non-empty"
  | l :: ls => Ok (l, ls)
  end.

(** [held_total -= level.carets; level.carets = 0] *)
Definition clear_carets (ls : list NestLevel) (held : Z) : outcome (list NestLevel * Z) :=
  let? '(l, ls) := last_level ls in
  let? held := usize_sub held (carets l) in
  Ok (mkLevel (prefix_held l) (nl_args l) 0 (is_call l) :: ls, held).

(** The [match] on the token: the levels, the frames held, the prefix run, and
    whether an operand may start and an identifier is pending. *)
Definition nest_token (token : Token) (call_head after_kw expect : bool) (ls : list NestLevel) (held run : Z) :
    outcome (list NestLevel * Z * Z * bool * bool) :=
  let other := Ok (ls, held, 0, true, false) in
  let atom := if expect then Ok (ls, held, 0, false, false) else other in
  match token with
  | TkOpenParen => Ok (mkLevel run 0 0 call_head :: ls, held + run, 0, true, false)
  | TkCloseParen =>
      let? '(ls, held) := match ls with
                          | l :: ((_ :: _) as outer) => let? held := usize_sub held (frames l) in Ok (outer, held)
                          | _ => Ok (ls, held)
                          end in
      Ok (ls, held, 0, false, false)
  | TkComma =>
      let? '(ls, held) := clear_carets ls held in
      let? '(l, ls) := last_level ls in
      if is_call l then Ok (mkLevel (prefix_held l) (nl_args l + 1) (carets l) true :: ls, held + 1, 0, true, false)
      else Ok (l :: ls, held, 0, true, false)
  | TkMinus | TkPlus => if expect then Ok (ls, held, run + 1, true, false) else other
  | TkCaret =>
      let? '(l, ls) := last_level ls in
      Ok (mkLevel (prefix_held l) (nl_args l) (carets l + 1) (is_call l) :: ls, held + 1, run, true, false)
  | TkKeyword KwNot => Ok (ls, held, run + 1, true, false)
  | TkIdent _ => if expect then if after_kw then Ok (ls, held, 0, false, false) else Ok (ls, held, run, false, true) else other
  | TkNumber _ | TkString _ | TkAsterisk | TkKeyword (KwTrue | KwFalse | KwNull | KwInfinity | KwNaN) => atom
  | _ => other
  end.

Definition nest_step (s : NestState) (token : Token) : outcome NestState :=
  let run := if ident_pending s && negb (bool_decide (token = TkOpenParen)) then 0 else prefix_run s in
  let? '(ls, held) := if closes_caret_chain token (expect_operand s) then clear_carets (levels s) (held_total s)
                      else Ok (levels s, held_total s) in
  let? '(ls, held, run, expect, pending) :=
    nest_token token (ident_pending s) (after_name_kw s) (expect_operand s) ls held run in
  let s := mkNest ls held run expect pending (introduces_name token) in
  if MAX_NESTING_DEPTH <? Z.of_nat (length ls) - 1 + held + run then errinput "expression nesting too deep" else Ok s.

Fixpoint nest_scan (s : NestState) (tokens : list Token) : outcome NestState :=
  match tokens with
  | [] => Ok s
  | token :: tokens => let? s := nest_step s token in nest_scan s tokens
  end.
Definition nest_init : NestState := mkNest [mkLevel 0 0 0 false] 0 0 true false false.
Definition check_nesting_depth (tokens : list Token) : outcome unit :=
  outcome_map (fun _ => tt) (nest_scan nest_init tokens).

(** ** [Parser::parse] *)
Definition parse_tokens `{FloatText} (tokens : list Token) : outcome Statement :=
  let? _ := check_nesting_depth tokens in
  match parse_control_at tokens with
  | Parsed statement rest =>
      let rest := match next_is TkSemicolon rest with Some rest => rest | None => rest end in
      match rest with
      | [] => Ok statement
      | _ :: _ => errinput "unexpected token"
      end
  | Rejected e => Err (render e)
  end.
Definition parse `{Unicode, FloatText} (statement : bytes) : outcome Statement :=
  let? tokens := lex statement in
  parse_tokens tokens.
