(* ===== verification/SqlStmtRoundtrip.v ===== *)
(** * Printing a statement and reading it back *)
From S2P Require Import Prelude Bytes Btree Float64 SqlValue SqlPlan SqlAst SqlLexer SqlParser SqlParserTheory SqlPrinter SqlRoundtrip SqlStmtParser.

(** ** What can be printed *)
Definition printable_option (o : option AstExpression) : bool := from_option printable true o.
Definition printable_item (ea : AstExpression * option bytes) : bool :=
  printable ea.1 && negb (bool_decide (ea.1 = EAll /\ is_Some ea.2)).
Fixpoint printable_from (f : From_) : bool :=
  match f with
  | FTable _ _ => true
  | FJoin l (FTable _ _) j p =>
      printable_from l && match j, p with
                          | JCross, None => true
                          | JCross, Some _ => false
                          | _, Some e => printable e
                          | _, None => false
                          end
  | FJoin _ (FJoin _ _ _ _) _ _ => false
  end.
Definition printable_select (q : SelectStatement) : bool :=
  nonempty (st_select q) && forallb printable_item (st_select q) && forallb printable_from (st_from q) &&
  printable_option (st_where q) && forallb printable (st_group_by q) && printable_option (st_having q) &&
  forallb (fun ed => printable ed.1) (st_order_by q) && printable_option (st_limit q) && printable_option (st_offset q).
Definition printable_column (c : AstColumn) : bool := printable_option (ac_default c).

(** The assignments are the bindings of a map: in key order, each key once. *)
Fixpoint keys_sorted {A} (l : list (bytes * A)) : bool :=
  match l with
  | a :: ((b :: _) as l') => lex_lt a.1 b.1 && keys_sorted l'
  | _ => true
  end.

Fixpoint printable_stmt (s : Statement) : bool :=
  match s with
  | SBegin _ None | SCommit | SRollback | SDropTable _ _ => true
  | SBegin _ (Some v) => (0 <=? v) && (v <=? u64_max)
  | SCreateTable _ columns => nonempty columns && forallb printable_column columns
  | SDelete _ where_clause => printable_option where_clause
  | SInsert _ columns values =>
      from_option nonempty true columns && nonempty values && forallb (fun row => nonempty row && forallb printable row) values
  | SUpdate _ set where_clause =>
      nonempty set && keys_sorted set && forallb (fun ce => printable_option ce.2) set && printable_option where_clause
  | SSelect q => printable_select q
  | SExplain (SExplain _) => false
  | SExplain inner => printable_stmt inner
  end.

(** ** Tails

    The clauses of SELECT in their order; a statement ends before a semicolon. *)
Definition clause_rank (t : Token) : nat :=
  match t with
  | TkKeyword KwFrom => 1
  | TkKeyword KwWhere => 2
  | TkKeyword KwGroup => 3
  | TkKeyword KwHaving => 4
  | TkKeyword KwOrder => 5
  | TkKeyword KwLimit => 6
  | TkKeyword KwOffset => 7
  | TkSemicolon => 8
  | _ => 0
  end.
Definition from_rank (n : nat) (tail : list Token) : bool :=
  match tail with [] => true | t :: _ => (n <=? clause_rank t)%nat end.
(** What follows an item of a list. *)
Definition item_tail (tail : list Token) : bool :=
  match tail with
  | TkComma :: _ | TkCloseParen :: _ => true
  | _ => from_rank 1 tail
  end.

Lemma from_rank_le n m tail : (m <= n)%nat -> from_rank n tail = true -> from_rank m tail = true.
Proof. destruct tail as [|t tail]; [easy|]. cbn. rewrite !Nat.leb_le. lia. Qed.
Lemma item_tail_ends tail : item_tail tail = true -> ends tail.
Proof. destruct tail as [|t tail]; [easy|]. cbn. destruct t; try easy. now destruct k. Qed.
Lemma rank_item n tail : (1 <= n)%nat -> from_rank n tail = true -> item_tail tail = true.
Proof. intros Hn Hr. apply (from_rank_le n 1) in Hr; [|exact Hn]. destruct tail as [|[] tail]; easy. Qed.
Lemma item_tail_no_alias tail : item_tail tail = true -> has_alias tail = false.
Proof. destruct tail as [|[] tail]; try easy. now destruct k. Qed.
Lemma item_tail_no_join tail : item_tail tail = true -> parse_join_at tail = None.
Proof. destruct tail as [|[] tail]; try easy. now destruct k. Qed.
Lemma rank_no_comma n tail : (1 <= n)%nat -> from_rank n tail = true -> next_is TkComma tail = None.
Proof. intros Hn. destruct tail as [|t tail]; [easy|]. cbn. rewrite Nat.leb_le. case_decide as E; [subst; cbn; lia | easy]. Qed.
Lemma rank_not_keyword n k tail : (clause_rank (TkKeyword k) < n)%nat -> from_rank n tail = true -> next_is (TkKeyword k) tail = None.
Proof. intros Hn. destruct tail as [|t tail]; [easy|]. cbn -[clause_rank]. rewrite Nat.leb_le. case_decide as E; [subst; lia | easy]. Qed.

(** ** Sizes *)
Definition fits (toks : list Token) : Prop := Z.of_nat (length toks) <= max_tokens.
Lemma fits_app l toks : fits (l ++ toks) -> fits toks.
Proof. unfold fits. rewrite length_app. lia. Qed.
Lemma fits_cons t toks : fits (t :: toks) -> fits toks.
Proof. unfold fits. cbn [length]. lia. Qed.

Lemma next_is_cons t toks : next_is t (t :: toks) = Some toks.
Proof. cbn. now rewrite decide_True. Qed.
Lemma expect_cons t toks : expect t (t :: toks) = Parsed tt toks.
Proof. cbn. now rewrite decide_True. Qed.

(** [parse] reads back what [print] prints of [x], before some tails. *)
Definition reads_before (ok : list Token -> bool) {A} (parse : list Token -> presult A) (print : A -> list Token) (x : A) : Prop :=
  forall tail, ok tail = true -> fits (print x ++ tail) -> parse (print x ++ tail) = Parsed x tail.
Abbreviation reads_back := (reads_before item_tail).

Section CommaList.
Context {A : Type} (ok : list Token -> bool) (parse : list Token -> presult A) (print : A -> list Token).
Context (Hcomma : forall toks, ok (TkComma :: toks) = true).

Lemma comma_list_n_reads xs tail : Forall (reads_before ok parse print) xs -> xs <> [] -> ok tail = true -> next_is TkComma tail = None ->
  forall n, fits (print_slice print xs ++ tail) -> (length (print_slice print xs ++ tail) < n)%nat ->
  comma_list_n parse n (print_slice print xs ++ tail) = Parsed xs tail.
Proof.
  intros Hxs Hne Ht Hc. induction Hxs as [|x xs Hx Hxs IH]; intros n Hf Hn; [easy|]. destruct n as [|n]; [lia|]. destruct xs as [|y xs].
  - cbn [print_slice comma_list_n] in *. rewrite Hx by assumption. cbn [pbind]. now rewrite Hc.
  - change (print_slice print (x :: y :: xs)) with (print x ++ TkComma :: print_slice print (y :: xs)) in *.
    rewrite <- app_assoc in *. cbn [app comma_list_n] in *. rewrite Hx by (apply Hcomma || assumption). cbn [pbind].
    rewrite next_is_cons. apply fits_app, fits_cons in Hf. rewrite length_app in Hn. cbn [length] in Hn.
    rewrite IH; [reflexivity | easy | exact Hf | lia].
Qed.
Lemma comma_list_before xs tail : Forall (reads_before ok parse print) xs -> xs <> [] -> ok tail = true -> next_is TkComma tail = None ->
  fits (print_slice print xs ++ tail) -> comma_list parse (print_slice print xs ++ tail) = Parsed xs tail.
Proof. intros. apply comma_list_n_reads; auto. Qed.
End CommaList.

Lemma comma_list_reads {A} (parse : list Token -> presult A) print xs tail :
  Forall (reads_back parse print) xs -> xs <> [] -> item_tail tail = true -> next_is TkComma tail = None ->
  fits (print_slice print xs ++ tail) -> comma_list parse (print_slice print xs ++ tail) = Parsed xs tail.
Proof. now apply comma_list_before. Qed.

Section Roundtrip.
Context `{FloatTextSpec}.

Lemma clause_reads e tail : printable e = true -> ends tail -> fits (print_min_expr e ++ tail) ->
  parse_clause_expr_at (print_min_expr e ++ tail) = Parsed e tail.
Proof.
  intros He Ht Hf. unfold parse_clause_expr_at. rewrite (proj2 (Z.ltb_ge _ _)) by exact Hf.
  apply expr_roundtrip; [exact He | now apply ends_no_name | now apply ends_stops | reflexivity].
Qed.

Lemma exprs_read es : forallb printable es = true -> Forall (reads_back parse_clause_expr_at print_min_expr) es.
Proof.
  intros Hp%forallb_Forall. eapply Forall_impl; [exact Hp|]. intros e He tail Ht Hf. apply clause_reads; auto using item_tail_ends.
Qed.

(** An optional clause followed by later ones. *)
Lemma optional_reads k n o tail : clause_rank (TkKeyword k) = n -> (1 <= n)%nat -> printable_option o = true ->
  from_rank (S n) tail = true -> fits (print_optional k o ++ tail) ->
  parse_optional_at k (print_optional k o ++ tail) = Parsed o tail.
Proof.
  intros Hk Hn Ho Ht Hf. unfold parse_optional_at. destruct o as [e|]; cbn [print_optional app] in *.
  - rewrite next_is_cons. rewrite clause_reads; [reflexivity | exact Ho | | exact (fits_cons _ _ Hf)].
    apply item_tail_ends, (rank_item (S n)); [lia | exact Ht].
  - now rewrite (rank_not_keyword (S n)) by (lia || exact Ht).
Qed.
Lemma optional_rank k n o tail : clause_rank (TkKeyword k) = n -> from_rank (S n) tail = true ->
  from_rank n (print_optional k o ++ tail) = true.
Proof.
  intros Hk Ht. destruct o; [|now apply (from_rank_le (S n)); [lia|]]. cbn -[clause_rank]. rewrite Hk. apply Nat.leb_refl.
Qed.
Lemma list_rank t toks p b n tail : clause_rank t = n -> from_rank (S n) tail = true ->
  from_rank n (print_list (t :: toks) p b ++ tail) = true.
Proof.
  intros Hk Ht. destruct b; [|now apply (from_rank_le (S n)); [lia|]]. cbn -[clause_rank]. rewrite Hk. apply Nat.leb_refl.
Qed.

(** ** SELECT *)
Lemma alias_reads a tail : has_alias tail = false -> parse_alias_at (print_alias a ++ tail) = Parsed a tail.
Proof. destruct a as [a|]; [reflexivity|]. cbn. destruct tail as [|[] tail]; try easy. now destruct k. Qed.

Lemma select_item_reads ea : printable_item ea = true -> reads_back parse_select_item_at (fun ea => print_min_expr ea.1 ++ print_alias ea.2) ea.
Proof.
  intros Hp tail Ht Hf. destruct ea as [e a]. unfold printable_item in Hp. cbn [fst snd] in *. apply andb_true_iff in Hp as [Hp Ha].
  rewrite <- app_assoc in *. unfold parse_select_item_at. rewrite clause_reads; [|exact Hp| |exact Hf].
  - cbn [pbind]. pose proof (item_tail_no_alias _ Ht). rewrite alias_reads by assumption.
    destruct a as [a|]; cbn [print_alias app has_alias]; [|now rewrite H1].
    rewrite bool_decide_eq_false_2; [reflexivity|]. intros ->. rewrite bool_decide_eq_true_2 in Ha by eauto. discriminate Ha.
  - destruct a; [reflexivity | now apply item_tail_ends].
Qed.

Lemma order_item_reads ed : printable ed.1 = true ->
  reads_back parse_order_item_at (fun ed => print_min_expr ed.1 ++ [direction_token ed.2]) ed.
Proof.
  intros Hp tail Ht Hf. destruct ed as [e d]. cbn [fst snd] in *. rewrite <- app_assoc in *. unfold parse_order_item_at.
  rewrite clause_reads; [|exact Hp|now destruct d|exact Hf]. now destruct d.
Qed.

(** The loop over joins, without its bound. *)
Definition parse_joins (f : From_) (toks : list Token) : presult From_ := parse_joins_n (length toks) f toks.

Lemma join_consumes toks r : parse_join_at toks = Some r -> consumes r toks.
Proof.
  unfold parse_join_at. destruct toks as [|t toks]; [easy|]. destruct t; try easy. destruct k; try easy; injection 1 as <-; auto with consume.
  all: apply consumes_map; destruct (next_is _ toks) eqn:E; auto with consume; apply next_is_length in E; subst; auto with consume.
Qed.
Lemma alias_keeps toks : keeps (parse_alias_at toks) toks.
Proof.
  unfold parse_alias_at. destruct toks as [|t toks]; [apply keeps_ret|]. destruct t; try apply keeps_ret; [cbn; lia|].
  destruct k; try apply keeps_ret. auto with consume.
Qed.
Lemma from_table_consumes toks : consumes (parse_from_table_at toks) toks.
Proof. apply consumes_bind; [apply expect_ident_consumes|]. intros. apply keeps_map, alias_keeps. Qed.
Lemma clause_consumes toks : consumes (parse_clause_expr_at toks) toks.
Proof. unfold parse_clause_expr_at. case_match; [exact I | apply parse_expression_consumes]. Qed.
Hint Resolve clause_consumes from_table_consumes : consume.

Lemma joins_enough n : forall n' f toks, (length toks <= n)%nat -> (length toks <= n')%nat ->
  parse_joins_n n f toks = parse_joins_n n' f toks.
Proof.
  induction n as [|n IH]; intros [|n'] f toks Hn Hn'.
  1: reflexivity.
  1,2: destruct toks; [reflexivity | cbn in *; lia].
  cbn [parse_joins_n]. destruct (parse_join_at toks) as [r|] eqn:E; [|reflexivity]. apply join_consumes in E.
  destruct r as [j rest|e]; [|reflexivity]. cbn in E |- *. pose proof (from_table_consumes rest) as Hc.
  destruct (parse_from_table_at rest) as [t rest2|e]; [|reflexivity]. cbn in Hc |- *.
  assert (keeps (match j with JCross => Parsed None rest2 | _ => let* _, rest := expect (TkKeyword KwOn) rest2 in pmap Some (parse_clause_expr_at rest) end) rest2) as Hk.
  { assert (keeps (let* _, rest := expect (TkKeyword KwOn) rest2 in pmap Some (parse_clause_expr_at rest)) rest2)
      by (apply keeps_bind; auto with consume). destruct j; try assumption. apply keeps_ret. }
  destruct (match j with JCross => _ | _ => _ end) as [p rest3|e]; [|reflexivity]. cbn in Hk |- *. apply IH; lia.
Qed.

Lemma join_step_reads l name alias j p tail :
  printable_from (FJoin l (FTable name alias) j p) = true -> has_alias tail = false -> ends tail ->
  fits (join_tokens j ++ (TkIdent name :: print_alias alias) ++ print_optional KwOn p ++ tail) ->
  parse_joins l (join_tokens j ++ (TkIdent name :: print_alias alias) ++ print_optional KwOn p ++ tail)
  = parse_joins (FJoin l (FTable name alias) j p) tail.
Proof.
  intros Hp Ha He Hf. cbn [printable_from] in Hp. apply andb_true_iff in Hp as [_ Hp]. unfold parse_joins at 1.
  assert (exists n, length (join_tokens j ++ (TkIdent name :: print_alias alias) ++ print_optional KwOn p ++ tail) = S n /\ (length tail <= n)%nat)
    as (n & -> & Hn) by (rewrite !length_app; destruct j; eexists; (split; [reflexivity | cbn; lia])).
  cbn [parse_joins_n].
  assert (parse_join_at (join_tokens j ++ (TkIdent name :: print_alias alias) ++ print_optional KwOn p ++ tail)
          = Some (Parsed j ((TkIdent name :: print_alias alias) ++ print_optional KwOn p ++ tail))) as ->.
  { destruct j; cbn; rewrite ?decide_True by reflexivity; reflexivity. }
  cbn [pbind app]. unfold parse_from_table_at at 1. cbn [expect_ident pbind].
  assert (has_alias (print_optional KwOn p ++ tail) = false) as Ha' by now destruct p.
  rewrite alias_reads by exact Ha'. cbn [pmap pbind].
  assert (p = None /\ j = JCross \/ exists e, p = Some e /\ printable e = true /\ j <> JCross) as [[-> ->]|(e & -> & Hpe & Hj)].
  { destruct j, p; try discriminate Hp; eauto 6. }
  - cbn [print_optional app pbind]. now apply joins_enough.
  - cbn [print_optional app] in *. rewrite expect_cons. cbn [pbind].
    rewrite clause_reads; [|exact Hpe|exact He|]; cycle 1.
    { apply fits_app in Hf. cbn [app] in Hf. apply fits_cons, fits_app, fits_cons in Hf. exact Hf. }
    destruct j; try easy; cbn [pmap pbind]; now apply joins_enough.
Qed.

(** The left spine of joins. *)
Lemma from_spine_reads f : printable_from f = true -> forall tail, has_alias tail = false -> ends tail ->
  fits (print_from_item_toks f ++ tail) -> parse_from_item_at (print_from_item_toks f ++ tail) = parse_joins f tail.
Proof.
  induction f as [name alias|l IHl r _ j p]; intros Hp tail Ha He Hf.
  - unfold parse_from_item_at, parse_from_table_at. cbn [print_from_item_toks app expect_ident pbind].
    now rewrite alias_reads by exact Ha.
  - destruct r as [name alias|]; [|discriminate Hp]. cbn [print_from_item_toks] in *. rewrite <- !app_assoc in *.
    rewrite IHl; [now apply join_step_reads; [|..|apply fits_app in Hf] | | | | exact Hf].
    + cbn in Hp. now apply andb_true_iff in Hp as [? _].
    + now destruct j.
    + now destruct j.
Qed.

Lemma from_item_reads f : printable_from f = true -> reads_back parse_from_item_at print_from_item_toks f.
Proof.
  intros Hp tail Ht Hf. rewrite from_spine_reads; auto using item_tail_no_alias, item_tail_ends. unfold parse_joins.
  destruct tail as [|t tail]; [reflexivity|]. cbn [length parse_joins_n]. now rewrite item_tail_no_join.
Qed.

(** A list that may be absent with its keywords. *)
Lemma from_clause_reads fs tail : forallb printable_from fs = true -> from_rank 2 tail = true ->
  fits (print_list [TkKeyword KwFrom] (print_from_items_slice fs) (nonempty fs) ++ tail) ->
  parse_from_clause_at (print_list [TkKeyword KwFrom] (print_from_items_slice fs) (nonempty fs) ++ tail) = Parsed fs tail.
Proof.
  intros Hp Ht Hf. unfold parse_from_clause_at. destruct fs as [|f fs]; cbn [nonempty print_list app] in *.
  - now rewrite (rank_not_keyword 2) by (cbn; lia || exact Ht).
  - rewrite next_is_cons. apply comma_list_reads; [| easy | now apply (rank_item 2); [lia|] | now apply (rank_no_comma 2); [lia|] | now apply fits_cons in Hf].
    apply forallb_Forall in Hp. eapply Forall_impl; [exact Hp|]. intros x. apply from_item_reads.
Qed.

Lemma group_by_reads es tail : forallb printable es = true -> from_rank 4 tail = true ->
  fits (print_list [TkKeyword KwGroup; TkKeyword KwBy] (print_exprs_slice es) (nonempty es) ++ tail) ->
  parse_group_by_at (print_list [TkKeyword KwGroup; TkKeyword KwBy] (print_exprs_slice es) (nonempty es) ++ tail) = Parsed es tail.
Proof.
  intros Hp Ht Hf. unfold parse_group_by_at. destruct es as [|e es]; cbn [nonempty print_list app] in *.
  - now rewrite (rank_not_keyword 4) by (cbn; lia || exact Ht).
  - rewrite next_is_cons, expect_cons. cbn [pbind]. apply comma_list_reads;
      [now apply exprs_read | easy | now apply (rank_item 4); [lia|] | now apply (rank_no_comma 4); [lia|] | now apply fits_cons, fits_cons in Hf].
Qed.

Lemma order_by_reads es tail : forallb (fun ed => printable ed.1) es = true -> from_rank 6 tail = true ->
  fits (print_list [TkKeyword KwOrder; TkKeyword KwBy] (print_order_items_slice es) (nonempty es) ++ tail) ->
  parse_order_by_at (print_list [TkKeyword KwOrder; TkKeyword KwBy] (print_order_items_slice es) (nonempty es) ++ tail) = Parsed es tail.
Proof.
  intros Hp Ht Hf. unfold parse_order_by_at. destruct es as [|e es]; cbn [nonempty print_list app] in *.
  - now rewrite (rank_not_keyword 6) by (cbn; lia || exact Ht).
  - rewrite next_is_cons, expect_cons. cbn [pbind]. apply comma_list_reads;
      [| easy | now apply (rank_item 6); [lia|] | now apply (rank_no_comma 6); [lia|] | now apply fits_cons, fits_cons in Hf].
    apply forallb_Forall in Hp. eapply Forall_impl; [exact Hp|]. intros x. apply order_item_reads.
Qed.

Lemma select_list_reads es tail : nonempty es = true -> forallb printable_item es = true -> from_rank 1 tail = true ->
  fits (print_select_items_slice es ++ tail) -> parse_select_list_at (print_select_items_slice es ++ tail) = Parsed es tail.
Proof.
  intros Hne Hp Ht Hf. apply comma_list_reads; [| now destruct es | now apply (rank_item 1); [lia|] | now apply (rank_no_comma 1); [lia|] | exact Hf].
  apply forallb_Forall in Hp. eapply Forall_impl; [exact Hp|]. intros x. apply select_item_reads.
Qed.

Lemma select_reads q tail : printable_select q = true -> from_rank 8 tail = true -> fits (print_min_select_stmt q ++ tail) ->
  parse_control_at (print_min_select_stmt q ++ tail) = Parsed (SSelect q) tail.
Proof.
  intros Hp Ht Hf. destruct q as [select from w g h o off lim]. unfold printable_select, print_min_select_stmt in *. cbn [st_select st_from st_where st_group_by st_having st_order_by st_offset st_limit] in *.
  rewrite !andb_true_iff in Hp. destruct Hp as [[[[[[[[Hne Hs] Hfr] Hw] Hg] Hh] Ho] Hl] Hof]. cbn [app] in *. rewrite <- !app_assoc in *.
  apply fits_cons in Hf. cbn [parse_control_at]. unfold parse_select_at.
  pose proof (optional_rank KwOffset 7 off tail eq_refl Ht) as T7.
  pose proof (optional_rank KwLimit 6 lim _ eq_refl T7) as T6.
  pose proof (list_rank (TkKeyword KwOrder) [TkKeyword KwBy] (print_order_items_slice o) (nonempty o) 5 _ eq_refl T6) as T5.
  pose proof (optional_rank KwHaving 4 h _ eq_refl T5) as T4.
  pose proof (list_rank (TkKeyword KwGroup) [TkKeyword KwBy] (print_exprs_slice g) (nonempty g) 3 _ eq_refl T4) as T3.
  pose proof (optional_rank KwWhere 2 w _ eq_refl T3) as T2.
  pose proof (list_rank (TkKeyword KwFrom) [] (print_from_items_slice from) (nonempty from) 1 _ eq_refl T2) as T1.
  rewrite select_list_reads by assumption. cbn [pbind]. apply fits_app in Hf.
  rewrite from_clause_reads by assumption. cbn [pbind]. apply fits_app in Hf.
  rewrite (optional_reads KwWhere 2) by (assumption || reflexivity || lia). cbn [pbind]. apply fits_app in Hf.
  rewrite group_by_reads by assumption. cbn [pbind]. apply fits_app in Hf.
  rewrite (optional_reads KwHaving 4) by (assumption || reflexivity || lia). cbn [pbind]. apply fits_app in Hf.
  rewrite order_by_reads by assumption. cbn [pbind]. apply fits_app in Hf.
  rewrite (optional_reads KwLimit 6) by (assumption || reflexivity || lia). cbn [pbind]. apply fits_app in Hf.
  rewrite (optional_reads KwOffset 7) by (assumption || reflexivity || lia). reflexivity.
Qed.

(** ** CREATE TABLE

    The loop over constraints, without its bound. *)
Definition parse_constraints (c : AstColumn) (toks : list Token) : presult AstColumn := parse_constraints_n (length toks) c toks.

Lemma constraint_keeps k c toks : keeps (parse_constraint_at k c toks) toks.
Proof.
  destruct k; try exact I; cbn [parse_constraint_at]; try apply keeps_ret.
  - apply consumes_keeps, consumes_bind; auto with consume.
  - apply consumes_keeps, consumes_bind; [auto with consume|]. intros. unfold set_nullable. case_match; [exact I | apply keeps_ret].
  - unfold set_nullable. case_match; [exact I | apply keeps_ret].
  - apply consumes_keeps, consumes_bind; auto with consume.
  - apply consumes_keeps, consumes_bind; auto with consume.
Qed.

Lemma constraints_enough n : forall n' c toks, (length toks <= n)%nat -> (length toks <= n')%nat ->
  parse_constraints_n n c toks = parse_constraints_n n' c toks.
Proof.
  induction n as [|n IH]; intros [|n'] c toks Hn Hn'.
  1: reflexivity.
  1,2: destruct toks; [reflexivity | cbn in *; lia].
  destruct toks as [|t toks]; [reflexivity|]. destruct t; try reflexivity. cbn [parse_constraints_n length] in *.
  pose proof (constraint_keeps k c toks) as Hk. destruct (parse_constraint_at k c toks) as [c' rest|]; [|reflexivity]. cbn in *. apply IH; lia.
Qed.

Lemma constraints_step k c c' toks rest : parse_constraint_at k c toks = Parsed c' rest ->
  parse_constraints c (TkKeyword k :: toks) = parse_constraints c' rest.
Proof.
  intros E. unfold parse_constraints. cbn [length parse_constraints_n]. rewrite E. cbn [pbind].
  pose proof (constraint_keeps k c toks) as Hk. rewrite E in Hk. cbn in Hk. apply constraints_enough; lia.
Qed.

Definition list_tail (tail : list Token) : bool := match tail with TkComma :: _ | TkCloseParen :: _ => true | _ => false end.

Lemma column_reads c : printable_column c = true -> reads_before list_tail parse_create_column_at print_column_toks c.
Proof.
  intros Hp tail Ht Hf. destruct c as [name ty pk nl df un ix rf]. unfold printable_column, print_column_toks in *. cbn in Hp.
  cbn [ac_name ac_datatype ac_primary_key ac_nullable ac_default ac_unique ac_index ac_references] in *.
  rewrite <- !app_assoc in *. cbn [app] in *. unfold parse_create_column_at. cbn [expect_ident pbind].
  assert (parse_datatype (datatype_token ty) = Some ty) as -> by now destruct ty.
  match goal with |- parse_constraints_n (length ?t) ?c ?t = _ => change (parse_constraints c t = Parsed (mkAstColumn name ty pk nl df un ix rf) tail) end.
  assert (parse_constraints (mkAstColumn name ty pk nl None un ix rf) (print_optional KwDefault df ++ tail)
          = Parsed (mkAstColumn name ty pk nl df un ix rf) tail) as Hd.
  { do 2 apply fits_cons in Hf. do 5 apply fits_app in Hf. destruct df as [e|]; cbn [print_optional app] in *.
    - rewrite (constraints_step _ _ (mkAstColumn name ty pk nl (Some e) un ix rf) _ tail).
      + now destruct tail as [|[] tail].
      + cbn [parse_constraint_at]. apply fits_cons in Hf. rewrite clause_reads; [reflexivity | exact Hp | now destruct tail as [|[] tail] | exact Hf].
    - now destruct tail as [|[] tail]. }
  destruct pk; cbn [app]; [erewrite constraints_step by (cbn; now rewrite decide_True)|].
  all: destruct nl as [[]|]; cbn [app];
    [erewrite constraints_step by reflexivity | erewrite constraints_step by (cbn; now rewrite decide_True) | ].
  all: destruct un; cbn [app]; [erewrite constraints_step by reflexivity|].
  all: destruct ix; cbn [app]; [erewrite constraints_step by reflexivity|].
  all: destruct rf; cbn [app]; [erewrite constraints_step by reflexivity|].
  all: exact Hd.
Qed.

(** ** UPDATE *)
Lemma keys_sorted_wf {A} (l : list (bytes * A)) : keys_sorted l = true -> btree_wf l.
Proof.
  intros Hs. apply Sorted_StronglySorted; [intros a b c; unfold key_lt; apply lex_lt_trans|].
  induction l as [|a [|b l] IH]; [constructor | repeat constructor|]. cbn in Hs. apply andb_true_iff in Hs as [Hab Hs].
  constructor; [now apply IH | now constructor].
Qed.

(** Inserting a key above the others appends it. *)
Lemma insert_last {A} (k : bytes) (v : A) l : Forall (fun kv => lex_lt kv.1 k = true) l ->
  btree_get l k = None /\ btree_insert k v l = l ++ [(k, v)].
Proof.
  induction 1 as [|[k' v'] l Hk _ [IH1 IH2]]; [easy|]. cbn [fst] in Hk. cbn [btree_get btree_insert app].
  rewrite bool_decide_eq_false_2 by (intros ->; rewrite lex_lt_irrefl in Hk; discriminate Hk). split; [exact IH1|].
  apply lex_lt_cmp in Hk. rewrite lex_cmp_antisym, Hk. cbn. now rewrite IH2.
Qed.

Lemma assignment_reads ce : printable_option ce.2 = true -> reads_back parse_assignment_at print_assignment ce.
Proof.
  intros Hp tail Ht Hf. destruct ce as [c e]. unfold print_assignment in *. cbn [fst snd app] in *. unfold parse_assignment_at.
  cbn [expect_ident pbind]. rewrite expect_cons. cbn [pbind]. destruct e as [e|]; [|cbn [app]; now rewrite next_is_cons].
  do 2 apply fits_cons in Hf. destruct (next_is (TkKeyword KwDefault) (print_min_expr e ++ tail)) as [rest|] eqn:En.
  - exfalso. apply next_is_length in En. rewrite En in Hf. pose proof (clause_reads e tail Hp (item_tail_ends _ Ht)) as Hc.
    rewrite En in Hc. unfold parse_clause_expr_at in Hc. specialize (Hc Hf). rewrite (proj2 (Z.ltb_ge _ _)) in Hc by exact Hf.
    revert Hc. generalize (2 * length (TkKeyword KwDefault :: rest) + 3)%nat. intros [|[|f]]; discriminate.
  - now rewrite clause_reads by auto using item_tail_ends.
Qed.

Lemma assignments_read set tail : Forall (reads_back parse_assignment_at print_assignment) set -> set <> [] ->
  item_tail tail = true -> next_is TkComma tail = None ->
  forall done n, btree_wf (done ++ set) -> fits (print_slice print_assignment set ++ tail) ->
  (length (print_slice print_assignment set ++ tail) < n)%nat ->
  parse_assignments_n n done (print_slice print_assignment set ++ tail) = Parsed (done ++ set) tail.
Proof.
  intros Hset Hne Ht Hc. induction Hset as [|[k v] set Hx Hset IH]; intros done n Hw Hf Hn; [easy|]. destruct n as [|n]; [lia|].
  assert (Forall (fun kv => lex_lt kv.1 k = true) done) as Hlt.
  { apply Forall_forall. intros [k' v'] Hin. clear -Hw Hin. induction done as [|d done IH]; [now apply elem_of_nil in Hin|].
    cbn in Hw. inversion Hw as [|? ? Hw' Hall]; subst. apply elem_of_cons in Hin as [->|Hin]; [|auto].
    rewrite Forall_app, Forall_cons in Hall. apply Hall. }
  destruct (insert_last k v done Hlt) as [Eg Ei]. destruct set as [|y set].
  - cbn [print_slice parse_assignments_n] in *. rewrite Hx by assumption. cbn [pbind fst snd]. now rewrite Eg, Ei, Hc.
  - change (print_slice print_assignment ((k, v) :: y :: set)) with (print_assignment (k, v) ++ TkComma :: print_slice print_assignment (y :: set)) in *.
    rewrite <- app_assoc in *. cbn [app parse_assignments_n] in *. rewrite Hx by easy. cbn [pbind fst snd].
    rewrite Eg, Ei, next_is_cons. apply fits_app, fits_cons in Hf. rewrite length_app in Hn. cbn [length] in Hn.
    rewrite IH; [now rewrite <- app_assoc | easy | now rewrite <- app_assoc | exact Hf | lia].
Qed.

Lemma update_reads table set w tail : printable_stmt (SUpdate table set w) = true -> from_rank 8 tail = true ->
  fits (print_min_update_stmt table set w ++ tail) -> parse_control_at (print_min_update_stmt table set w ++ tail) = Parsed (SUpdate table set w) tail.
Proof.
  cbn [printable_stmt]. rewrite !andb_true_iff. intros [[[Hne Hk] Hp] Hw] Ht Hf. unfold print_min_update_stmt in *. rewrite <- !app_assoc in *. cbn [app] in *.
  do 3 apply fits_cons in Hf. cbn [parse_control_at]. unfold parse_update_at. cbn [expect_ident pbind]. rewrite expect_cons. cbn [pbind].
  pose proof (optional_rank KwWhere 2 w tail eq_refl (from_rank_le 8 3 _ ltac:(lia) Ht)) as T2.
  rewrite (assignments_read set _) with (done := []); [| | now destruct set | now apply (rank_item 2); [lia|] | now apply (rank_no_comma 2); [lia|]
    | now apply keys_sorted_wf | exact Hf | lia].
  - cbn [pbind app]. rewrite (optional_reads KwWhere 2); [reflexivity | reflexivity | lia | exact Hw | now apply (from_rank_le 8); [lia|] | now apply fits_app in Hf].
  - apply forallb_Forall in Hp. eapply Forall_impl; [exact Hp|]. intros ce. apply assignment_reads.
Qed.

(** ** INSERT *)
Lemma idents_read cols : Forall (reads_back expect_ident (fun s => [TkIdent s])) cols.
Proof. apply Forall_forall. intros c _ tail _ _. reflexivity. Qed.

Lemma row_reads row : nonempty row && forallb printable row = true ->
  reads_back parse_row_at (fun row => wrap_parens (print_exprs_slice row)) row.
Proof.
  rewrite andb_true_iff. intros [Hne Hp] tail Ht Hf. unfold parse_row_at, wrap_parens in *. cbn [app] in *. rewrite <- app_assoc in *. cbn [app] in *.
  rewrite expect_cons. cbn [pbind]. unfold print_exprs_slice in *. rewrite comma_list_reads; [| now apply exprs_read | now destruct row | reflexivity | reflexivity | now apply fits_cons in Hf].
  cbn [pbind]. now rewrite expect_cons.
Qed.

Lemma insert_reads table columns values tail : printable_stmt (SInsert table columns values) = true -> from_rank 8 tail = true ->
  fits (print_min_stmt (SInsert table columns values) ++ tail) ->
  parse_control_at (print_min_stmt (SInsert table columns values) ++ tail) = Parsed (SInsert table columns values) tail.
Proof.
  cbn [printable_stmt]. rewrite !andb_true_iff. intros [[Hc Hv] Hp] Ht Hf. cbn [print_min_stmt app] in *. rewrite <- app_assoc in *. cbn [app] in *.
  do 3 apply fits_cons in Hf. cbn [parse_control_at]. unfold parse_insert_at. rewrite expect_cons. cbn [pbind expect_ident].
  assert (forall rest, fits (match columns with Some cols => wrap_parens (print_idents_slice cols) | None => [] end ++ TkKeyword KwValues :: rest) ->
    parse_columns_at (match columns with Some cols => wrap_parens (print_idents_slice cols) | None => [] end ++ TkKeyword KwValues :: rest)
    = Parsed columns (TkKeyword KwValues :: rest)) as Ecols.
  { intros rest Hr. unfold parse_columns_at. destruct columns as [cols|]; [|reflexivity]. unfold wrap_parens in *. cbn [app] in *. rewrite <- app_assoc in *. cbn [app] in *.
    rewrite next_is_cons. unfold print_idents_slice in *. rewrite comma_list_reads; [| apply idents_read | now destruct cols | reflexivity | reflexivity | now apply fits_cons in Hr].
    cbn [pbind]. now rewrite expect_cons. }
  rewrite Ecols by exact Hf. cbn [pbind]. rewrite expect_cons. cbn [pbind]. apply fits_app, fits_cons in Hf.
  unfold print_rows_slice in *. rewrite comma_list_reads; [reflexivity | | now destruct values | now apply (rank_item 8); [lia|] | now apply (rank_no_comma 8); [lia|] | exact Hf].
  apply forallb_Forall in Hp. eapply Forall_impl; [exact Hp|]. intros row. apply row_reads.
Qed.

(** ** The other statements *)
Lemma create_reads name columns tail : printable_stmt (SCreateTable name columns) = true ->
  fits (print_min_stmt (SCreateTable name columns) ++ tail) ->
  parse_control_at (print_min_stmt (SCreateTable name columns) ++ tail) = Parsed (SCreateTable name columns) tail.
Proof.
  cbn [printable_stmt]. rewrite andb_true_iff. intros [Hne Hp] Hf. cbn [print_min_stmt] in *. unfold wrap_parens in *. cbn [app] in *. rewrite <- app_assoc in *. cbn [app] in *.
  do 4 apply fits_cons in Hf. cbn [parse_control_at]. unfold parse_create_at. rewrite expect_cons. cbn [pbind expect_ident]. rewrite expect_cons. cbn [pbind].
  unfold print_columns_slice in *. rewrite (comma_list_before list_tail); [| easy | | now destruct columns | reflexivity | reflexivity | exact Hf].
  - cbn [pbind]. now rewrite expect_cons.
  - apply forallb_Forall in Hp. eapply Forall_impl; [exact Hp|]. intros c. apply column_reads.
Qed.

Lemma delete_reads table w tail : printable_option w = true -> from_rank 8 tail = true ->
  fits (print_min_stmt (SDelete table w) ++ tail) ->
  parse_control_at (print_min_stmt (SDelete table w) ++ tail) = Parsed (SDelete table w) tail.
Proof.
  intros Hp Ht Hf. cbn [print_min_stmt app] in *. do 3 apply fits_cons in Hf. cbn [parse_control_at]. unfold parse_delete_at. rewrite expect_cons. cbn [pbind expect_ident].
  rewrite (optional_reads KwWhere 2); [reflexivity | reflexivity | lia | exact Hp | now apply (from_rank_le 8); [lia|] | exact Hf].
Qed.

Lemma begin_reads ro v tail : printable_stmt (SBegin ro v) = true -> from_rank 8 tail = true ->
  parse_control_at (print_min_stmt (SBegin ro v) ++ tail) = Parsed (SBegin ro v) tail.
Proof.
  intros Hp Ht. cbn [print_min_stmt app parse_control_at]. rewrite <- app_assoc. unfold parse_begin_at.
  assert (parse_as_of_at (match v with Some v => [TkKeyword KwAs; TkKeyword KwOf; TkKeyword KwSystem; TkKeyword KwTime; TkNumber (print_u64 v)] | None => [] end ++ tail)
          = Parsed v tail) as Hv.
  { destruct v as [v|]; cbn [app]; unfold parse_as_of_at.
    - rewrite next_is_cons, !expect_cons. cbn [pbind]. rewrite expect_cons. cbn [pbind]. rewrite expect_cons. cbn [pbind].
      cbn in Hp. apply andb_true_iff in Hp as [? ?]. now rewrite parse_print_u64 by (unfold is_u64; lia).
    - now rewrite (rank_not_keyword 8) by (cbn; lia || exact Ht). }
  destruct ro; cbn [app].
  - cbn [next_is]. rewrite decide_False by easy. unfold parse_read_at. rewrite next_is_cons. cbn [pbind]. now rewrite Hv.
  - assert (forall k, k = KwTransaction \/ k = KwRead -> next_is (TkKeyword k) (match v with Some v => [TkKeyword KwAs; TkKeyword KwOf; TkKeyword KwSystem; TkKeyword KwTime; TkNumber (print_u64 v)] | None => [] end ++ tail) = None) as Hk.
    { intros k Hk. destruct v as [v|]; [destruct Hk; subst; reflexivity|]. apply (rank_not_keyword 8); [destruct Hk; subst; cbn; lia | exact Ht]. }
    rewrite Hk by auto. unfold parse_read_at. rewrite Hk by auto. cbn [pbind]. now rewrite Hv.
Qed.

(** What is printed of a statement is read back, up to the end of the statement. *)
Lemma stmt_reads s tail : printable_stmt s = true -> from_rank 8 tail = true -> fits (print_min_stmt s ++ tail) ->
  parse_control_at (print_min_stmt s ++ tail) = Parsed s tail.
Proof.
  intros Hp Ht. induction s as [ro v| | |s IH|name cols|name ie|table w|table cols vals|table set w|q]; intros Hf.
  - now apply begin_reads.
  - reflexivity.
  - reflexivity.
  - cbn [print_min_stmt app parse_control_at] in *. apply fits_cons in Hf. unfold parse_explain_at.
    assert (printable_stmt s = true) as Hs by now destruct s. rewrite (IH Hs Hf).
    destruct (print_min_stmt s ++ tail) as [|t toks] eqn:E; [destruct s; discriminate E|].
    destruct t; try reflexivity. destruct k; try reflexivity. now destruct s.
  - now apply create_reads.
  - cbn [print_min_stmt]. destruct ie; reflexivity.
  - now apply delete_reads.
  - now apply insert_reads.
  - now apply update_reads.
  - now apply select_reads.
Qed.
End Roundtrip.
