(* ===== verification/SqlLexTheory.v ===== *)
(** * Reading tokens from text

    UTF-8 strings are sequences of characters; quoting an identifier or a string
    and writing the other tokens as [Display] does gives a text whose tokens are
    the ones that were written. *)
From S2P Require Import Prelude Bytes Keycode SqlAst SqlLexer.

(** ** UTF-8 *)
Lemma land_low z n : 0 <= n -> Z.land z (2 ^ n - 1) = z mod 2 ^ n.
Proof. intros Hn. rewrite <- Z.land_ones by exact Hn. now rewrite Z.ones_equiv, <- Z.sub_1_r. Qed.

Lemma decode_encode c r : is_scalar c = true -> decode_char (encode_char c ++ r) = Some (c, r).
Proof.
  unfold is_scalar. rewrite orb_true_iff, !andb_true_iff, !Z.leb_le, !Z.ltb_lt. intros Hc. assert (0 <= c < 1114112) as Hr by lia.
  assert (forall z, Z.land (byte_to_Z (byte_of_Z (128 + z mod 64))) 63 = z mod 64) as Hlow.
  { intros z. change 63 with (2 ^ 6 - 1). rewrite land_low by lia. rewrite byte_to_of_Z. change (2 ^ 6) with 64.
    pose proof (Z.mod_pos_bound z 64). rewrite (Z.mod_small (128 + _)) by lia. replace (128 + z mod 64) with (z mod 64 + 2 * 64) by lia. now rewrite Z.mod_add, Z.mod_mod. }
  unfold encode_char. destruct (c <? 128) eqn:E1; zify_bools.
  { cbn [app decode_char]. rewrite byte_to_of_Z, Z.mod_small by lia. now rewrite (proj2 (Z.ltb_lt _ _)). }
  pose proof (Z.div_mod c 64). pose proof (Z.mod_pos_bound c 64). pose proof (Z.div_mod (c / 64) 64). pose proof (Z.mod_pos_bound (c / 64) 64).
  pose proof (Z.div_mod (c / 4096) 64). pose proof (Z.mod_pos_bound (c / 4096) 64).
  assert (c / 64 / 64 = c / 4096) as D1 by (rewrite Z.div_div by lia; reflexivity).
  assert (c / 4096 / 64 = c / 262144) as D2 by (rewrite Z.div_div by lia; reflexivity).
  destruct (c <? 2048) eqn:E2; zify_bools.
  - cbn [app decode_char]. rewrite byte_to_of_Z, (Z.mod_small (192 + _)) by lia.
    rewrite (proj2 (Z.ltb_ge _ 128)), (proj2 (Z.ltb_lt _ 224)) by lia. rewrite Hlow.
    change 31 with (2 ^ 5 - 1). rewrite land_low by lia. change (2 ^ 5) with 32.
    replace ((192 + c / 64) mod 32) with (c / 64) by (symmetry; rewrite <- Z.add_mod_idemp_l by lia; cbn; apply Z.mod_small; lia).
    f_equal. f_equal. lia.
  - destruct (c <? 65536) eqn:E3; zify_bools.
    + cbn [app decode_char]. rewrite byte_to_of_Z, (Z.mod_small (224 + _)) by lia.
      rewrite (proj2 (Z.ltb_ge _ 128)), (proj2 (Z.ltb_ge _ 224)), (proj2 (Z.ltb_lt _ 240)) by lia. rewrite !Hlow.
      change 15 with (2 ^ 4 - 1). rewrite land_low by lia. change (2 ^ 4) with 16.
      replace ((224 + c / 4096) mod 16) with (c / 4096) by (symmetry; rewrite <- Z.add_mod_idemp_l by lia; cbn; apply Z.mod_small; lia).
      f_equal. f_equal. lia.
    + cbn [app decode_char]. rewrite byte_to_of_Z, (Z.mod_small (240 + _)) by lia.
      rewrite (proj2 (Z.ltb_ge _ 128)), (proj2 (Z.ltb_ge _ 224)), (proj2 (Z.ltb_ge _ 240)) by lia. rewrite !Hlow.
      change 7 with (2 ^ 3 - 1). rewrite land_low by lia. change (2 ^ 3) with 8.
      replace ((240 + c / 262144) mod 8) with (c / 262144) by (symmetry; rewrite <- Z.add_mod_idemp_l by lia; cbn; apply Z.mod_small; lia).
      f_equal. f_equal. lia.
Qed.

Lemma byte_in_spec lo hi b : byte_in lo hi b = true <-> lo <= byte_to_Z b <= hi.
Proof. unfold byte_in. rewrite andb_true_iff. lia. Qed.
Lemma utf8_cont_spec b : utf8_cont b = true <-> 128 <= byte_to_Z b <= 191.
Proof. unfold utf8_cont. rewrite andb_true_iff. lia. Qed.

(** [c] has the given quotient and remainder. *)
Lemma div_unique_mod c d q r : c = q * d + r -> 0 <= r < d -> c / d = q /\ c mod d = r.
Proof. intros -> Hr. split; [rewrite Z.div_add_l by lia; rewrite Z.div_small by lia; lia | rewrite Z.add_comm, Z.mod_add by lia; now apply Z.mod_small]. Qed.

Lemma byte_sum b k : byte_of_Z (k + (byte_to_Z b - k)) = b.
Proof. replace (k + (byte_to_Z b - k)) with (byte_to_Z b) by lia. apply byte_of_to_Z. Qed.

(** A valid string starts with a character. *)
Lemma utf8_first b s : utf8_valid (b :: s) = true ->
  exists c r, is_scalar c = true /\ b :: s = encode_char c ++ r /\ utf8_valid r = true.
Proof.
  unfold is_scalar. cbn [utf8_valid]. destruct (byte_in 0 127 b) eqn:E0.
  { apply byte_in_spec in E0. intros Hv. exists (byte_to_Z b), s. split; [lia|]. split; [|exact Hv].
    unfold encode_char. rewrite (proj2 (Z.ltb_lt _ _)) by lia. now rewrite byte_of_to_Z. }
  destruct s as [|b1 s]; [discriminate|]. destruct (byte_in 194 223 b) eqn:E1.
  { apply byte_in_spec in E1. rewrite andb_true_iff, utf8_cont_spec. intros [H1 Hv].
    exists ((byte_to_Z b - 192) * 64 + (byte_to_Z b1 - 128)), s. split; [lia|]. split; [|exact Hv]. unfold encode_char.
    rewrite (proj2 (Z.ltb_ge _ 128)), (proj2 (Z.ltb_lt _ 2048)) by lia.
    destruct (div_unique_mod ((byte_to_Z b - 192) * 64 + (byte_to_Z b1 - 128)) 64 (byte_to_Z b - 192) (byte_to_Z b1 - 128)) as [-> ->]; [lia..|]. now rewrite !byte_sum. }
  destruct s as [|b2 s]; [discriminate|]. destruct (byte_in 224 239 b) eqn:E2.
  { apply byte_in_spec in E2. rewrite !andb_true_iff, utf8_cont_spec. intros [[H1 H2] Hv].
    assert (128 <= byte_to_Z b1 <= 191 /\ (byte_to_Z b = 224 -> 160 <= byte_to_Z b1) /\ (byte_to_Z b = 237 -> byte_to_Z b1 <= 159)) as H1'.
    { destruct (byte_in 224 224 b) eqn:Ea; [apply byte_in_spec in Ea, H1; lia|]. destruct (byte_in 237 237 b) eqn:Eb; [apply byte_in_spec in Eb, H1; lia|].
      apply utf8_cont_spec in H1. assert (~ 224 <= byte_to_Z b <= 224) by (rewrite <- byte_in_spec; congruence).
      assert (~ 237 <= byte_to_Z b <= 237) by (rewrite <- byte_in_spec; congruence). lia. }
    exists ((byte_to_Z b - 224) * 4096 + (byte_to_Z b1 - 128) * 64 + (byte_to_Z b2 - 128)), s. split; [lia|]. split; [|exact Hv]. unfold encode_char.
    rewrite (proj2 (Z.ltb_ge _ 128)), (proj2 (Z.ltb_ge _ 2048)), (proj2 (Z.ltb_lt _ 65536)) by lia.
    destruct (div_unique_mod ((byte_to_Z b - 224) * 4096 + (byte_to_Z b1 - 128) * 64 + (byte_to_Z b2 - 128)) 64
      ((byte_to_Z b - 224) * 64 + (byte_to_Z b1 - 128)) (byte_to_Z b2 - 128)) as [-> ->]; [lia..|].
    destruct (div_unique_mod ((byte_to_Z b - 224) * 64 + (byte_to_Z b1 - 128)) 64 (byte_to_Z b - 224) (byte_to_Z b1 - 128)) as [_ ->]; [lia..|].
    destruct (div_unique_mod ((byte_to_Z b - 224) * 4096 + (byte_to_Z b1 - 128) * 64 + (byte_to_Z b2 - 128)) 4096
      (byte_to_Z b - 224) ((byte_to_Z b1 - 128) * 64 + (byte_to_Z b2 - 128))) as [-> _]; [lia..|]. now rewrite !byte_sum. }
  destruct s as [|b3 s]; [discriminate|]. rewrite !andb_true_iff, !utf8_cont_spec, byte_in_spec. intros [[[[H0 H1] H2] H3] Hv].
  assert (128 <= byte_to_Z b1 <= 191 /\ (byte_to_Z b = 240 -> 144 <= byte_to_Z b1) /\ (byte_to_Z b = 244 -> byte_to_Z b1 <= 143)) as H1'.
  { destruct (byte_in 240 240 b) eqn:Ea; [apply byte_in_spec in Ea, H1; lia|]. destruct (byte_in 244 244 b) eqn:Eb; [apply byte_in_spec in Eb, H1; lia|].
    apply utf8_cont_spec in H1. assert (~ 240 <= byte_to_Z b <= 240) by (rewrite <- byte_in_spec; congruence).
    assert (~ 244 <= byte_to_Z b <= 244) by (rewrite <- byte_in_spec; congruence). lia. }
  set (c := (byte_to_Z b - 240) * 262144 + (byte_to_Z b1 - 128) * 4096 + (byte_to_Z b2 - 128) * 64 + (byte_to_Z b3 - 128)).
  exists c, s. split; [subst c; lia|]. split; [|exact Hv]. unfold encode_char.
  rewrite (proj2 (Z.ltb_ge _ 128)), (proj2 (Z.ltb_ge _ 2048)), (proj2 (Z.ltb_ge _ 65536)) by (subst c; lia).
  destruct (div_unique_mod c 64 ((byte_to_Z b - 240) * 4096 + (byte_to_Z b1 - 128) * 64 + (byte_to_Z b2 - 128)) (byte_to_Z b3 - 128)) as [-> ->]; [subst c; lia..|].
  destruct (div_unique_mod c 4096 ((byte_to_Z b - 240) * 64 + (byte_to_Z b1 - 128)) ((byte_to_Z b2 - 128) * 64 + (byte_to_Z b3 - 128))) as [-> _]; [subst c; lia..|].
  destruct (div_unique_mod c 262144 (byte_to_Z b - 240) ((byte_to_Z b1 - 128) * 4096 + (byte_to_Z b2 - 128) * 64 + (byte_to_Z b3 - 128))) as [-> _]; [subst c; lia..|].
  destruct (div_unique_mod ((byte_to_Z b - 240) * 4096 + (byte_to_Z b1 - 128) * 64 + (byte_to_Z b2 - 128)) 64
    ((byte_to_Z b - 240) * 64 + (byte_to_Z b1 - 128)) (byte_to_Z b2 - 128)) as [_ ->]; [lia..|].
  destruct (div_unique_mod ((byte_to_Z b - 240) * 64 + (byte_to_Z b1 - 128)) 64 (byte_to_Z b - 240) (byte_to_Z b1 - 128)) as [_ ->]; [lia..|].
  now rewrite !byte_sum.
Qed.

(** Appending a character keeps a string valid. *)
Lemma utf8_lead1 b0 s : byte_to_Z b0 <= 127 -> utf8_valid (b0 :: s) = utf8_valid s.
Proof. intros H0. cbn [utf8_valid]. rewrite (proj2 (byte_in_spec 0 127 b0)); [reflexivity|]. pose proof (byte_to_Z_range b0). lia. Qed.
Lemma byte_in_false lo hi b : byte_to_Z b < lo \/ hi < byte_to_Z b -> byte_in lo hi b = false.
Proof. intros Hb. apply not_true_iff_false. rewrite byte_in_spec. lia. Qed.
Lemma utf8_lead2 b0 b1 s : 194 <= byte_to_Z b0 <= 223 -> utf8_cont b1 = true -> utf8_valid (b0 :: b1 :: s) = utf8_valid s.
Proof. intros H0 H1. cbn [utf8_valid]. rewrite byte_in_false by lia. rewrite (proj2 (byte_in_spec 194 223 b0)) by lia. now rewrite H1. Qed.
Lemma utf8_lead3 b0 b1 b2 s : 224 <= byte_to_Z b0 <= 239 -> utf8_cont b1 = true -> utf8_cont b2 = true ->
  (byte_to_Z b0 = 224 -> 160 <= byte_to_Z b1) -> (byte_to_Z b0 = 237 -> byte_to_Z b1 <= 159) ->
  utf8_valid (b0 :: b1 :: b2 :: s) = utf8_valid s.
Proof.
  intros H0 H1 H2 H3 H4. pose proof (proj1 (utf8_cont_spec b1) H1) as H1'. cbn [utf8_valid]. rewrite (byte_in_false 0), (byte_in_false 194) by lia.
  rewrite (proj2 (byte_in_spec 224 239 b0)) by lia. rewrite H2. destruct (byte_in 224 224 b0) eqn:Ea.
  { apply byte_in_spec in Ea. now rewrite (proj2 (byte_in_spec 160 191 b1)) by lia. }
  destruct (byte_in 237 237 b0) eqn:Eb; [|now rewrite H1]. apply byte_in_spec in Eb. now rewrite (proj2 (byte_in_spec 128 159 b1)) by lia.
Qed.
Lemma utf8_lead4 b0 b1 b2 b3 s : 240 <= byte_to_Z b0 <= 244 -> utf8_cont b1 = true -> utf8_cont b2 = true -> utf8_cont b3 = true ->
  (byte_to_Z b0 = 240 -> 144 <= byte_to_Z b1) -> (byte_to_Z b0 = 244 -> byte_to_Z b1 <= 143) ->
  utf8_valid (b0 :: b1 :: b2 :: b3 :: s) = utf8_valid s.
Proof.
  intros H0 H1 H2 H3 H4 H5. pose proof (proj1 (utf8_cont_spec b1) H1) as H1'. cbn [utf8_valid]. rewrite (byte_in_false 0), (byte_in_false 194), (byte_in_false 224 239) by lia.
  rewrite (proj2 (byte_in_spec 240 244 b0)) by lia. rewrite H2, H3. destruct (byte_in 240 240 b0) eqn:Ea.
  { apply byte_in_spec in Ea. now rewrite (proj2 (byte_in_spec 144 191 b1)) by lia. }
  destruct (byte_in 244 244 b0) eqn:Eb; [|now rewrite H1]. apply byte_in_spec in Eb. now rewrite (proj2 (byte_in_spec 128 143 b1)) by lia.
Qed.

Lemma utf8_encode c r : is_scalar c = true -> utf8_valid (encode_char c ++ r) = utf8_valid r.
Proof.
  unfold is_scalar. rewrite orb_true_iff, !andb_true_iff, !Z.leb_le, !Z.ltb_lt. intros Hc.
  assert (forall k z, 0 <= k + z < 256 -> byte_to_Z (byte_of_Z (k + z)) = k + z) as Hb by (intros; rewrite byte_to_of_Z; now apply Z.mod_small).
  assert (forall z, utf8_cont (byte_of_Z (128 + z mod 64)) = true) as Hcont.
  { intros z. pose proof (Z.mod_pos_bound z 64). apply utf8_cont_spec. rewrite Hb by lia. lia. }
  unfold encode_char. destruct (c <? 128) eqn:E1; zify_bools.
  { apply utf8_lead1. rewrite byte_to_of_Z, Z.mod_small by lia. lia. }
  pose proof (Z.div_mod c 64). pose proof (Z.mod_pos_bound c 64). pose proof (Z.div_mod (c / 64) 64). pose proof (Z.mod_pos_bound (c / 64) 64).
  pose proof (Z.div_mod (c / 4096) 64). pose proof (Z.mod_pos_bound (c / 4096) 64).
  assert (c / 64 / 64 = c / 4096) as D1 by (rewrite Z.div_div by lia; reflexivity).
  assert (c / 4096 / 64 = c / 262144) as D2 by (rewrite Z.div_div by lia; reflexivity).
  destruct (c <? 2048) eqn:E2; zify_bools; [|destruct (c <? 65536) eqn:E3; zify_bools].
  - apply utf8_lead2; rewrite ?Hb by lia; [lia | apply Hcont].
  - apply utf8_lead3; rewrite ?Hb by lia; try apply Hcont; lia.
  - apply utf8_lead4; rewrite ?Hb by lia; try apply Hcont; lia.
Qed.

Lemma utf8_chars s : utf8_valid s = true -> exists cs, Forall (fun c => is_scalar c = true) cs /\ s = collect_chars cs.
Proof.
  induction s as [s IH] using (induction_ltof1 _ (@length byte)). unfold ltof in IH. destruct s as [|b s]; intros Hv; [exists []; split; [constructor | reflexivity]|].
  destruct (utf8_first b s Hv) as (c & r & Hc & E & Hr). destruct (IH r) as (cs & Hcs & ->); [|exact Hr|].
  - rewrite E, length_app. unfold encode_char. repeat case_match; cbn; lia.
  - exists (c :: cs). split; [now constructor | exact E].
Qed.
Lemma chars_utf8 cs : Forall (fun c => is_scalar c = true) cs -> utf8_valid (collect_chars cs) = true.
Proof. induction 1 as [|c cs Hc _ IH]; [reflexivity|]. cbn. fold (collect_chars cs). now rewrite utf8_encode. Qed.
Lemma collect_app cs ds : collect_chars (cs ++ ds) = collect_chars cs ++ collect_chars ds.
Proof. unfold collect_chars. apply bind_app. Qed.
Lemma utf8_app s t : utf8_valid s = true -> utf8_valid t = true -> utf8_valid (s ++ t) = true.
Proof.
  intros (cs & Hcs & ->)%utf8_chars (ds & Hds & ->)%utf8_chars. rewrite <- collect_app. apply chars_utf8. now apply Forall_app.
Qed.

(** The first character of a valid string. *)
Lemma decode_utf8 s c r : utf8_valid s = true -> decode_char s = Some (c, r) ->
  is_scalar c = true /\ s = encode_char c ++ r /\ utf8_valid r = true.
Proof.
  destruct s as [|b s]; [discriminate|]. intros Hv. destruct (utf8_first b s Hv) as (c' & r' & Hc & -> & Hr).
  rewrite decode_encode by exact Hc. injection 1 as <- <-. auto.
Qed.
Lemma decode_none s : utf8_valid s = true -> decode_char s = None -> s = [].
Proof.
  destruct s as [|b s]; [easy|]. intros Hv. destruct (utf8_first b s Hv) as (c' & r' & Hc & -> & Hr). now rewrite decode_encode.
Qed.

(** ** The loops of the lexer *)
Lemma decode_shorter s c r : decode_char s = Some (c, r) -> (length r < length s)%nat.
Proof. unfold decode_char. intros E. repeat (case_match; try discriminate E); simplify_eq; cbn; lia. Qed.
Lemma next_if_shorter p s c r : next_if p s = Some (c, r) -> (length r < length s)%nat.
Proof. unfold next_if. destruct (decode_char s) as [[c' r']|] eqn:E; [|discriminate]. case_match; [|discriminate]. injection 1 as <- <-. now apply decode_shorter in E. Qed.

Lemma next_while_enough p n : forall n' s, (length s <= n)%nat -> (length s <= n')%nat -> next_while_n n p s = next_while_n n' p s.
Proof.
  induction n as [|n IH]; intros [|n'] s Hn Hn'; [reflexivity | destruct s; [reflexivity | cbn in *; lia].. |].
  cbn [next_while_n]. destruct (next_if p s) as [[c r]|] eqn:E; [|reflexivity]. apply next_if_shorter in E. now rewrite (IH n') by lia.
Qed.
Lemma next_while_eq p s :
  next_while p s = match next_if p s with Some (c, r) => let (cs, r) := next_while p r in (c :: cs, r) | None => ([], s) end.
Proof.
  unfold next_while. destruct (next_if p s) as [[c r]|] eqn:E.
  - pose proof (next_if_shorter _ _ _ _ E). destruct (length s) as [|n] eqn:Es; [lia|]. cbn [next_while_n]. rewrite E. now rewrite (next_while_enough p n (length r)) by lia.
  - destruct s; [reflexivity|]. cbn [length next_while_n]. now rewrite E.
Qed.

Lemma scan_quoted_enough q n : forall n' s, (length s < n)%nat -> (length s < n')%nat -> scan_quoted_n n q s = scan_quoted_n n' q s.
Proof.
  induction n as [|n IH]; intros [|n'] s Hn Hn'; [lia..|]. cbn [scan_quoted_n]. destruct (decode_char s) as [[c r]|] eqn:E; [|reflexivity].
  apply decode_shorter in E. destruct (c =? q); [|now rewrite (IH n') by lia].
  destruct (next_if (Z.eqb q) r) as [[c' r']|] eqn:E'; [|reflexivity]. apply next_if_shorter in E'. now rewrite (IH n') by lia.
Qed.
Definition push (c : Z) (o : option (bytes * bytes)) : option (bytes * bytes) := prod_map (app (encode_char c)) id <$> o.
Lemma scan_quoted_eq q s :
  scan_quoted q s =
  match decode_char s with
  | Some (c, r) =>
      if c =? q then match next_if (Z.eqb q) r with Some (_, r) => push q (scan_quoted q r) | None => Some ([], r) end
      else push c (scan_quoted q r)
  | None => None
  end.
Proof.
  unfold scan_quoted at 1. cbn [scan_quoted_n]. destruct (decode_char s) as [[c r]|] eqn:E; [|reflexivity]. apply decode_shorter in E.
  unfold scan_quoted, push. destruct (c =? q); [|now rewrite (scan_quoted_enough q _ (S (length r))) by lia].
  destruct (next_if (Z.eqb q) r) as [[c' r']|] eqn:E'; [|reflexivity]. apply next_if_shorter in E'. now rewrite (scan_quoted_enough q _ (S (length r'))) by lia.
Qed.

(** ** Quoting *)
Definition quote (q : byte) (s : bytes) : bytes := q :: (s ≫= (fun b => if decide (b = q) then [q; q] else [b])) ++ [q].

Lemma escape_encode q c : 0 <= byte_to_Z q < 128 -> is_scalar c = true -> c <> byte_to_Z q ->
  (encode_char c ≫= (fun b => if decide (b = q) then [q; q] else [b])) = encode_char c.
Proof.
  intros Hq Hs Hne. unfold is_scalar in Hs. rewrite orb_true_iff, !andb_true_iff, !Z.leb_le, !Z.ltb_lt in Hs.
  assert (Forall (fun b => b <> q) (encode_char c)) as Hall.
  { assert (forall z, byte_of_Z (128 + z mod 64) <> q) as Hc.
    { intros z E. pose proof (byte_to_of_Z (128 + z mod 64)) as E'. pose proof (Z.mod_pos_bound z 64). rewrite E, Z.mod_small in E'; lia. }
    assert (forall k z, 128 <= k + z < 256 -> byte_of_Z (k + z) <> q) as Hl.
    { intros k z Hk E. pose proof (byte_to_of_Z (k + z)) as E'. rewrite E, Z.mod_small in E'; lia. }
    pose proof (Z.div_pos c 64). pose proof (Z.div_pos c 4096). pose proof (Z.div_pos c 262144).
    unfold encode_char. destruct (c <? 128) eqn:E1; zify_bools.
    - repeat constructor. intros E. pose proof (byte_to_of_Z c) as E'. rewrite E, Z.mod_small in E'; lia.
    - destruct (c <? 2048) eqn:E2; zify_bools; [|destruct (c <? 65536) eqn:E3; zify_bools]; repeat constructor; try apply Hc; apply Hl.
      + pose proof (Z.div_lt_upper_bound c 64 32). lia.
      + pose proof (Z.div_lt_upper_bound c 4096 16). lia.
      + pose proof (Z.div_lt_upper_bound c 262144 5). lia. }
  induction Hall as [|b l Hb _ IH]; [reflexivity|]. cbn. rewrite decide_False by exact Hb. cbn. f_equal. exact IH.
Qed.

Lemma ascii_encode q : byte_to_Z q < 128 -> encode_char (byte_to_Z q) = [q].
Proof. intros Hq. unfold encode_char. rewrite (proj2 (Z.ltb_lt _ _)) by exact Hq. now rewrite byte_of_to_Z. Qed.
Lemma decode_ascii b s : byte_to_Z b < 128 -> decode_char (b :: s) = Some (byte_to_Z b, s).
Proof. intros Hb. cbn [decode_char]. now rewrite (proj2 (Z.ltb_lt _ _)). Qed.
Lemma next_if_ascii p b s : byte_to_Z b < 128 -> next_if p (b :: s) = if p (byte_to_Z b) then Some (byte_to_Z b, s) else None.
Proof. intros Hb. unfold next_if. now rewrite decode_ascii. Qed.

Lemma scan_quoted_quote q s r : 0 <= byte_to_Z q < 128 -> utf8_valid s = true -> next_if (Z.eqb (byte_to_Z q)) r = None ->
  scan_quoted (byte_to_Z q) (((s ≫= (fun b => if decide (b = q) then [q; q] else [b])) ++ [q]) ++ r) = Some (s, r).
Proof.
  intros Hq (cs & Hcs & ->)%utf8_chars Hr. induction Hcs as [|c cs Hc _ IH].
  - cbn [collect_chars mbind list_bind app]. rewrite scan_quoted_eq, decode_ascii by lia. now rewrite Z.eqb_refl, Hr.
  - change (collect_chars (c :: cs)) with (encode_char c ++ collect_chars cs). rewrite bind_app, <- !app_assoc in *.
    match type of IH with scan_quoted _ ?X = _ => remember X as T end. destruct (decide (c = byte_to_Z q)) as [->|Hne].
    + rewrite ascii_encode by lia. cbn [mbind list_bind app]. rewrite decide_True by reflexivity. cbn [app].
      rewrite scan_quoted_eq, decode_ascii by lia. rewrite Z.eqb_refl, next_if_ascii by lia. rewrite Z.eqb_refl, IH. unfold push. cbn.
      now rewrite ascii_encode by lia.
    + rewrite escape_encode by assumption. rewrite scan_quoted_eq, decode_encode by exact Hc.
      rewrite (proj2 (Z.eqb_neq _ _)) by exact Hne. now rewrite IH.
Qed.

(** ** Numbers *)
Definition lexable_number (n : bytes) : bool :=
  match n with b :: _ => is_digit b && bool_decide (scan_number_bytes n = (n, [])) | [] => false end.

(** What follows does not go on with a number. *)
Definition number_ends (r : bytes) : bool :=
  match r with b :: _ => negb (is_digit b || (byte_to_Z b =? 46) || (byte_to_Z b =? 101) || (byte_to_Z b =? 69) || (byte_to_Z b =? 43) || (byte_to_Z b =? 45)) | [] => true end.

Lemma scan_digits_app s d r t : scan_digits s = (d, r) -> (r = [] -> number_ends t = true) -> scan_digits (s ++ t) = (d, r ++ t).
Proof.
  revert d r. induction s as [|b s IH]; intros d r E Ht.
  - cbn in E. injection E as <- <-. cbn [app]. specialize (Ht eq_refl). destruct t as [|b t]; [reflexivity|]. cbn in Ht |- *. now destruct (is_digit b).
  - cbn [scan_digits app] in *. destruct (is_digit b); [|now injection E as <- <-]. destruct (scan_digits s) as [d' r'] eqn:Es. injection E as <- <-.
    now rewrite (IH d' r' eq_refl Ht).
Qed.

Lemma scan_number_app s t : scan_number_bytes s = (s, []) -> number_ends t = true -> scan_number_bytes (s ++ t) = (s, t).
Proof.
  intros E Ht. assert (forall r : bytes, r = [] -> number_ends t = true) as Ht' by auto. unfold scan_number_bytes in *.
  destruct (scan_digits s) as [d r] eqn:Ed. rewrite (scan_digits_app s d r t Ed (Ht' r)).
  destruct (scan_fraction r) as [f r2] eqn:Ef.
  assert (scan_fraction (r ++ t) = (f, r2 ++ t)) as ->.
  { unfold scan_fraction in *. destruct r as [|b r]; cbn [app].
    - injection Ef as <- <-. destruct t as [|b t]; [reflexivity|]. cbn in Ht |- *. destruct (byte_to_Z b =? 46); [|reflexivity].
      rewrite orb_true_r in Ht. discriminate Ht.
    - destruct (byte_to_Z b =? 46); [|now injection Ef as <- <-]. destruct (scan_digits r) as [d' r'] eqn:E'. injection Ef as <- <-.
      now rewrite (scan_digits_app r d' r' t E' (Ht' r')). }
  destruct (scan_exponent r2) as [e r3] eqn:Ee.
  assert (scan_exponent (r2 ++ t) = (e, r3 ++ t)) as ->.
  { unfold scan_exponent in *. destruct r2 as [|b r2]; cbn [app].
    - injection Ee as <- <-. destruct t as [|b t]; [reflexivity|]. cbn in Ht |- *.
      destruct (byte_to_Z b =? 101), (byte_to_Z b =? 69); try reflexivity; rewrite ?orb_true_r in Ht; discriminate Ht.
    - destruct ((byte_to_Z b =? 101) || (byte_to_Z b =? 69)); [|now injection Ee as <- <-].
      assert (scan_sign (r2 ++ t) = ((scan_sign r2).1, (scan_sign r2).2 ++ t)) as ->.
      { unfold scan_sign. destruct r2 as [|b' r2]; cbn [app]; [|destruct ((byte_to_Z b' =? 43) || _); reflexivity].
        destruct t as [|b' t]; [reflexivity|]. cbn in Ht |- *. destruct (byte_to_Z b' =? 43), (byte_to_Z b' =? 45); try reflexivity; rewrite ?orb_true_r in Ht; discriminate Ht. }
      destruct (scan_sign r2) as [g r2'] eqn:Eg. cbn [fst snd]. destruct (scan_digits r2') as [d' r'] eqn:E'. injection Ee as <- <-.
      now rewrite (scan_digits_app r2' d' r' t E' (Ht' r')). }
  injection E as -> ->. reflexivity.
Qed.

(** ** Tokens in text *)
Definition quote_ident (s : bytes) : bytes := quote x22 s.

(** A token as the lexer reads it: identifiers and strings are quoted, the
    others are written as [Display] writes them. *)
Definition token_text (t : Token) : bytes :=
  match t with
  | TkIdent s => quote_ident s
  | TkString s => quote x27 s
  | _ => token_display t
  end.
Definition lexable (t : Token) : bool :=
  match t with
  | TkNumber n => lexable_number n
  | TkString s | TkIdent s => utf8_valid s
  | _ => true
  end.
(** A text for a list of tokens: each with its quotes, followed by a space.  The
    source's printer stops at tokens; this rendering is the development's own. *)
Definition text (toks : list Token) : bytes := toks ≫= (fun t => token_text t ++ [x20]).

Section Tokens.
Context `{UnicodeSpec}.

Lemma skip_stop s : next_if is_whitespace s = None -> skip_whitespace s = s.
Proof. intros E. unfold skip_whitespace. now rewrite next_while_eq, E. Qed.
Lemma skip_space s : skip_whitespace (x20 :: s) = skip_whitespace s.
Proof.
  unfold skip_whitespace. rewrite next_while_eq, next_if_ascii by (cbn; lia). rewrite whitespace_ascii by (cbn; lia). cbn.
  now destruct (next_while is_whitespace s).
Qed.
Lemma ascii_no_space b s : 33 <= byte_to_Z b < 128 -> skip_whitespace (b :: s) = b :: s.
Proof.
  intros Hb. apply skip_stop. rewrite next_if_ascii by lia. rewrite whitespace_ascii by lia.
  rewrite (proj2 (Z.leb_gt _ 13)), (proj2 (Z.eqb_neq _ 32)) by lia. now rewrite andb_false_r.
Qed.
Lemma lexer_next_space s : lexer_next (x20 :: s) = lexer_next s.
Proof. unfold lexer_next, scan. now rewrite skip_space. Qed.

Lemma next_string s r : utf8_valid s = true -> next_if (Z.eqb 39) r = None -> lexer_next (quote x27 s ++ r) = Some (Ok (TkString s, r)).
Proof.
  intros Hs Hr. unfold lexer_next, scan, quote. rewrite <- app_comm_cons, ascii_no_space by (cbn; lia). rewrite decode_ascii by (cbn; lia).
  cbn [Z.eqb]. change (byte_to_Z x27 =? 39) with true. cbn match. unfold scan_string. rewrite next_if_ascii by (cbn; lia). change (39 =? byte_to_Z x27) with true. cbn match.
  change 39 with (byte_to_Z x27) in Hr |- *. now rewrite scan_quoted_quote by (assumption || cbn; lia).
Qed.
Lemma next_ident s r : utf8_valid s = true -> next_if (Z.eqb 34) r = None -> lexer_next (quote_ident s ++ r) = Some (Ok (TkIdent s, r)).
Proof.
  intros Hs Hr. unfold lexer_next, scan, quote_ident, quote. rewrite <- app_comm_cons, ascii_no_space by (cbn; lia). rewrite decode_ascii by (cbn; lia).
  change (byte_to_Z x22 =? 39) with false. change (byte_to_Z x22 =? 34) with true. cbn match. unfold scan_ident_quoted. rewrite next_if_ascii by (cbn; lia).
  change (34 =? byte_to_Z x22) with true. cbn match. change 34 with (byte_to_Z x22) in Hr |- *. now rewrite scan_quoted_quote by (assumption || cbn; lia).
Qed.

Lemma next_number n r : lexable_number n = true -> number_ends r = true -> lexer_next (n ++ r) = Some (Ok (TkNumber n, r)).
Proof.
  destruct n as [|b n]; [discriminate|]. cbn [lexable_number]. rewrite andb_true_iff, bool_decide_eq_true. intros [Hb E] Hr.
  pose proof Hb as Hd. unfold is_digit in Hb. rewrite andb_true_iff, !Z.leb_le in Hb.
  unfold lexer_next, scan. cbn [app]. rewrite ascii_no_space by lia. rewrite decode_ascii by lia.
  rewrite (proj2 (Z.eqb_neq _ 39)), (proj2 (Z.eqb_neq _ 34)) by lia. unfold ascii_digit. rewrite !(proj2 (Z.leb_le _ _)) by lia. cbn [andb].
  unfold scan_number. rewrite Hd. cbn [negb]. change (b :: n ++ r) with ((b :: n) ++ r). now rewrite scan_number_app.
Qed.

(** A word of ASCII letters. *)
Lemma ident_letters w r : Forall (fun b => ascii_letter (byte_to_Z b) = true) w -> next_if ident_char r = None ->
  next_while ident_char (w ++ r) = (map byte_to_Z w, r).
Proof.
  intros Hw Hr. induction Hw as [|b w Hb _ IH]; [now rewrite next_while_eq, app_nil_l, Hr|]. cbn [app map].
  pose proof (byte_to_Z_range b). pose proof Hb as Hb'. unfold ascii_letter in Hb'. rewrite orb_true_iff, !andb_true_iff, !Z.leb_le in Hb'.
  rewrite next_while_eq, next_if_ascii by lia. unfold ident_char at 1. rewrite alphanumeric_ascii by lia. rewrite Hb. cbn [orb]. now rewrite IH.
Qed.

Lemma lowercase_letters w : Forall (fun b => ascii_letter (byte_to_Z b) = true) w ->
  collect_chars (map byte_to_Z w ≫= lowercase) = collect_chars (map (fun b => ascii_lower (byte_to_Z b)) w).
Proof.
  induction 1 as [|b w Hb _ IH]; [reflexivity|]. cbn [map]. rewrite bind_cons, collect_app, IH.
  pose proof (byte_to_Z_range b). unfold ascii_letter in Hb. rewrite orb_true_iff, !andb_true_iff, !Z.leb_le in Hb.
  rewrite lowercase_ascii by lia. now rewrite <- collect_app.
Qed.

Lemma next_word b w r k : Forall (fun b => ascii_letter (byte_to_Z b) = true) (b :: w) -> next_if ident_char r = None ->
  keyword_try_from (collect_chars (map (fun b => ascii_lower (byte_to_Z b)) (b :: w))) = Some k ->
  lexer_next (b :: w ++ r) = Some (Ok (TkKeyword k, r)).
Proof.
  intros Hw Hr Hk. pose proof (lowercase_letters _ Hw) as El. inversion Hw as [|? ? Hb Hw']; subst. pose proof (byte_to_Z_range b).
  pose proof Hb as Hb'. unfold ascii_letter in Hb'. rewrite orb_true_iff, !andb_true_iff, !Z.leb_le in Hb'.
  unfold lexer_next, scan. rewrite ascii_no_space by lia. rewrite decode_ascii by lia.
  rewrite (proj2 (Z.eqb_neq _ 39)), (proj2 (Z.eqb_neq _ 34)) by lia. unfold ascii_digit. rewrite (proj2 (Z.leb_gt _ 57)) by lia. rewrite andb_false_r.
  rewrite alphabetic_ascii, Hb by lia. unfold scan_ident_or_keyword. rewrite next_if_ascii by lia. rewrite alphabetic_ascii, Hb by lia.
  rewrite ident_letters by assumption. change (map byte_to_Z (b :: w)) with (byte_to_Z b :: map byte_to_Z w) in El. rewrite bind_cons, collect_app in El. rewrite El, Hk. reflexivity.
Qed.

Lemma next_keyword k r : next_if ident_char r = None -> lexer_next (name_of (keyword_display k) ++ r) = Some (Ok (TkKeyword k, r)).
Proof.
  intros Hr. destruct k; (apply next_word; [repeat constructor; reflexivity | exact Hr | vm_compute; reflexivity]).
Qed.

Lemma space_ends r : next_if ident_char (x20 :: r) = None /\ next_if (Z.eqb 39) (x20 :: r) = None /\ next_if (Z.eqb 34) (x20 :: r) = None.
Proof.
  rewrite !next_if_ascii by (cbn; lia). unfold ident_char. rewrite alphanumeric_ascii by (cbn; lia). now cbn.
Qed.

Lemma next_symbol b s t r : 33 <= byte_to_Z b < 128 -> byte_to_Z b <> 39 -> byte_to_Z b <> 34 ->
  ascii_digit (byte_to_Z b) = false -> ascii_letter (byte_to_Z b) = false ->
  scan_symbol_bytes (b :: s) = (Some t, r) -> lexer_next (b :: s) = Some (Ok (t, r)).
Proof.
  intros Hb H39 H34 Hd Hl E. unfold lexer_next, scan. rewrite ascii_no_space by exact Hb. rewrite decode_ascii by lia.
  rewrite (proj2 (Z.eqb_neq _ 39)), (proj2 (Z.eqb_neq _ 34)), Hd by assumption. now rewrite alphabetic_ascii, Hl, E by lia.
Qed.

(** A token is read from its text, when a space follows. *)
Lemma next_token t r : lexable t = true -> lexer_next (token_text t ++ x20 :: r) = Some (Ok (t, x20 :: r)).
Proof.
  destruct (space_ends r) as (Hi & Hs & Hq). destruct t; cbn [lexable token_text token_display]; intros Hl;
    [now apply next_number | now apply next_string | now apply next_ident | now apply next_keyword | ..].
  all: apply next_symbol; try reflexivity; cbn; lia.
Qed.


Lemma lex_text_n toks : forallb lexable toks = true -> forall n, (length toks < n)%nat ->
  lex_n n (text toks) = Ok toks /\ lex_n n (x20 :: text toks) = Ok toks.
Proof.
  induction toks as [|t toks IH]; cbn [forallb length]; intros Hl n Hn; (destruct n as [|n]; [lia|]); cbn [lex_n]; rewrite lexer_next_space.
  - split; reflexivity.
  - apply andb_true_iff in Hl as [Ht Hl]. change (text (t :: toks)) with ((token_text t ++ [x20]) ++ text toks). rewrite <- app_assoc. cbn [app].
    rewrite next_token by exact Ht. cbn. destruct (IH Hl n ltac:(lia)) as [_ ->]. auto.
Qed.

Lemma text_length toks : (length toks <= length (text toks))%nat.
Proof. induction toks as [|t toks IH]; [cbn; lia|]. change (text (t :: toks)) with ((token_text t ++ [x20]) ++ text toks). rewrite !length_app. cbn. lia. Qed.

(** The lexer reads back the tokens of a text. *)
Lemma lex_text toks : forallb lexable toks = true -> lex (text toks) = Ok toks.
Proof. intros Hl. apply lex_text_n; [exact Hl|]. pose proof (text_length toks). lia. Qed.

(** ** What the lexer reads

    The lexer makes progress, its errors are input errors, and of a valid string
    it makes valid names and strings. *)
Definition token_utf8 (t : Token) : bool := match t with TkString s | TkIdent s | TkNumber s => utf8_valid s | _ => true end.

Lemma next_while_utf8 p s : utf8_valid s = true ->
  Forall (fun c => is_scalar c = true) (next_while p s).1 /\ utf8_valid (next_while p s).2 = true /\ (length (next_while p s).2 <= length s)%nat.
Proof.
  induction s as [s IH] using (induction_ltof1 _ (@length byte)). unfold ltof in IH. intros Hv. rewrite next_while_eq.
  unfold next_if. destruct (decode_char s) as [[c r]|] eqn:E; [|cbn; auto]. destruct (p c); [|cbn; auto].
  destruct (decode_utf8 s c r Hv E) as (Hc & _ & Hr). apply decode_shorter in E. destruct (IH r E Hr) as (H1 & H2 & H3).
  destruct (next_while p r); cbn in *. split; [now constructor|]. split; [assumption | lia].
Qed.

Lemma scan_quoted_utf8 q s v r : is_scalar q = true -> utf8_valid s = true -> scan_quoted q s = Some (v, r) ->
  utf8_valid v = true /\ utf8_valid r = true /\ (length r <= length s)%nat.
Proof.
  intros Hq. revert v r. induction s as [s IH] using (induction_ltof1 _ (@length byte)). unfold ltof in IH. intros v r Hv. rewrite scan_quoted_eq.
  destruct (decode_char s) as [[c r1]|] eqn:E; [|discriminate]. destruct (decode_utf8 s c r1 Hv E) as (Hc & _ & Hr1). apply decode_shorter in E.
  assert (forall d r2, is_scalar d = true -> (length r2 < length s)%nat -> utf8_valid r2 = true -> push d (scan_quoted q r2) = Some (v, r) ->
    utf8_valid v = true /\ utf8_valid r = true /\ (length r <= length s)%nat) as Hpush.
  { intros d r2 Hd Hlt Hr2 Ep. unfold push in Ep. apply fmap_Some in Ep as ([v' r'] & Es & Ep). cbn in Ep. injection Ep as -> ->.
    destruct (IH r2 Hlt v' r' Hr2 Es) as (H1 & H2 & H3). cbn. rewrite utf8_encode by exact Hd. split; [exact H1|]. split; [exact H2 | lia]. }
  destruct (c =? q); [|eapply Hpush; eassumption]. unfold next_if. destruct (decode_char r1) as [[c2 r2]|] eqn:E2.
  - destruct (q =? c2); [|injection 1 as <- <-; cbn; split; [reflexivity | split; [assumption | lia]]].
    destruct (decode_utf8 r1 c2 r2 Hr1 E2) as (_ & _ & Hr2). apply decode_shorter in E2. apply Hpush; [exact Hq | lia | exact Hr2].
  - injection 1 as <- <-. cbn. split; [reflexivity|]. split; [assumption | lia].
Qed.

Lemma ascii_utf8 s : Forall (fun b => byte_to_Z b < 128) s -> forall t, utf8_valid (s ++ t) = utf8_valid t.
Proof. induction 1 as [|b s Hb _ IH]; intros t; [reflexivity|]. cbn [app]. rewrite utf8_lead1 by lia. apply IH. Qed.

Definition ascii_split (s v r : bytes) : Prop := s = v ++ r /\ Forall (fun b => byte_to_Z b < 128) v.
Lemma ascii_split_cons b s v r : byte_to_Z b < 128 -> ascii_split s v r -> ascii_split (b :: s) (b :: v) r.
Proof. intros Hb [-> Hv]. split; [reflexivity | now constructor]. Qed.
Lemma ascii_split_nil s : ascii_split s [] s.
Proof. split; [reflexivity | constructor]. Qed.
Lemma ascii_split_app s v r v' r' : ascii_split s v r -> ascii_split r v' r' -> ascii_split s (v ++ v') r'.
Proof. intros [-> Hv] [-> Hv']. split; [now rewrite app_assoc | now apply Forall_app]. Qed.

Lemma scan_digits_split s : ascii_split s (scan_digits s).1 (scan_digits s).2.
Proof.
  induction s as [|b s IH]; [apply ascii_split_nil|]. cbn [scan_digits]. destruct (is_digit b) eqn:E; [|apply ascii_split_nil].
  unfold is_digit in E. rewrite andb_true_iff, !Z.leb_le in E. destruct (scan_digits s). apply ascii_split_cons; [lia | exact IH].
Qed.
Lemma scan_number_split s : ascii_split s (scan_number_bytes s).1 (scan_number_bytes s).2.
Proof.
  unfold scan_number_bytes. pose proof (scan_digits_split s) as H1. destruct (scan_digits s) as [d r1]. cbn in H1.
  assert (ascii_split r1 (scan_fraction r1).1 (scan_fraction r1).2) as H2.
  { unfold scan_fraction. destruct r1 as [|b r]; [apply ascii_split_nil|]. destruct (Z.eqb_spec (byte_to_Z b) 46); [|apply ascii_split_nil].
    pose proof (scan_digits_split r). destruct (scan_digits r). apply ascii_split_cons; [lia | assumption]. }
  destruct (scan_fraction r1) as [f r2]. cbn in H2.
  assert (ascii_split r2 (scan_exponent r2).1 (scan_exponent r2).2) as H3.
  { unfold scan_exponent. destruct r2 as [|b r]; [apply ascii_split_nil|].
    destruct (Z.eqb_spec (byte_to_Z b) 101); [|destruct (Z.eqb_spec (byte_to_Z b) 69); [|apply ascii_split_nil]]; cbn [orb].
    all: assert (ascii_split r (scan_sign r).1 (scan_sign r).2) as Hs by
      (unfold scan_sign; destruct r as [|b' r]; [apply ascii_split_nil|]; destruct (Z.eqb_spec (byte_to_Z b') 43), (Z.eqb_spec (byte_to_Z b') 45);
       cbn [orb]; try apply ascii_split_nil; apply ascii_split_cons; (lia || apply ascii_split_nil)).
    all: destruct (scan_sign r) as [g r']; pose proof (scan_digits_split r') as Hd; destruct (scan_digits r'); cbn in *;
      apply ascii_split_cons; [lia | eapply ascii_split_app; eassumption]. }
  destruct (scan_exponent r2) as [e r3]. cbn in *. eapply ascii_split_app; [exact H1|]. eapply ascii_split_app; eassumption.
Qed.

Lemma scan_symbol_split s t r : scan_symbol_bytes s = (Some t, r) ->
  token_utf8 t = true /\ (length r < length s)%nat /\ exists v, ascii_split s v r.
Proof.
  unfold scan_symbol_bytes. destruct s as [|b s]; [discriminate|]. cbn zeta.
  assert (forall k, byte_to_Z b = k -> k < 128 -> exists v, ascii_split (b :: s) v s) as H1.
  { intros k Hk Hlt. exists [b]. apply ascii_split_cons; [lia | apply ascii_split_nil]. }
  assert (forall k k2, byte_to_Z b = k -> k < 128 -> match s with b1 :: _ => byte_to_Z b1 | [] => -1 end = k2 -> 0 <= k2 < 128 ->
    (length (drop 1 s) < length (b :: s))%nat /\ exists v, ascii_split (b :: s) v (drop 1 s)) as H2.
  { intros k k2 Hk Hlt Hk2 Hr. destruct s as [|b1 s]; [lia|]. cbn [drop]. rewrite drop_0. split; [cbn; lia|]. exists [b; b1].
    apply ascii_split_cons; [lia|]. apply ascii_split_cons; [lia | apply ascii_split_nil]. }
  repeat match goal with |- context [Z.eqb ?x ?k] => destruct (Z.eqb_spec x k) end;
    intros E; injection E as <- <- || discriminate E; (split; [reflexivity|]);
    first [eapply H2; [eassumption | lia | eassumption | lia] | split; [cbn; lia | eapply H1; [eassumption | lia]]].
Qed.

Lemma split_utf8 s v r : ascii_split s v r -> utf8_valid s = true -> utf8_valid v = true /\ utf8_valid r = true /\ (length r <= length s)%nat.
Proof.
  intros [-> Hv] Hs. rewrite ascii_utf8 in Hs by exact Hv. split; [|split; [exact Hs | rewrite length_app; lia]].
  rewrite <- (app_nil_r v). now rewrite ascii_utf8.
Qed.

Definition good_scan (s : bytes) (o : outcome (option Token * bytes)) : Prop :=
  match o with
  | Ok (Some t, r) => token_utf8 t = true /\ utf8_valid r = true /\ (length r < length s)%nat
  | Ok (None, r) => utf8_valid r = true
  | Err (InvalidInput _) => True
  | Err _ | Panic _ => False
  end.

Lemma scan_ident_good s : utf8_valid s = true -> good_scan s (Ok (scan_ident_or_keyword s)).
Proof.
  intros Hv. unfold scan_ident_or_keyword, next_if. destruct (decode_char s) as [[c r]|] eqn:E; [|exact Hv]. destruct (is_alphabetic c); [|exact Hv].
  destruct (decode_utf8 s c r Hv E) as (Hc & _ & Hr). apply decode_shorter in E. destruct (next_while_utf8 ident_char r Hr) as (H1 & H2 & H3).
  destruct (next_while ident_char r) as [rest s2]. cbn [fst snd] in *.
  assert (utf8_valid (collect_chars (lowercase c) ++ collect_chars (rest ≫= lowercase)) = true) as Hn.
  { apply utf8_app; apply chars_utf8; [now apply lowercase_scalar|]. apply Forall_bind. eapply Forall_impl; [exact H1|]. intros d. apply lowercase_scalar. }
  destruct (keyword_try_from _); cbn; (split; [assumption || reflexivity|]; split; [assumption | lia]).
Qed.

Lemma scan_good s : utf8_valid s = true -> good_scan s (scan s).
Proof.
  intros Hv. unfold scan, skip_whitespace. destruct (next_while_utf8 is_whitespace s Hv) as (_ & Hv' & Hle).
  set (s' := (next_while is_whitespace s).2) in *. clearbody s'.
  assert (forall o, good_scan s' o -> good_scan s o) as Hmono.
  { intros [[[t|] r]|e|p]; cbn; try easy. intros (? & ? & ?). split; [assumption|]. split; [assumption | lia]. }
  destruct (decode_char s') as [[c r]|] eqn:E; [|exact Hv']. apply Hmono. clear Hmono Hv Hle.
  assert (forall q t msg, is_scalar q = true -> (forall v, utf8_valid v = true -> token_utf8 (t v) = true) ->
    good_scan s' (match next_if (Z.eqb q) s' with
                  | None => Ok (None, s')
                  | Some (_, r) => match scan_quoted q r with Some (v, r) => Ok (Some (t v), r) | None => errinput msg end
                  end)) as Hquoted.
  { intros q t msg Hq Ht. destruct (next_if (Z.eqb q) s') as [[c' r']|] eqn:En; [|exact Hv'].
    unfold next_if in En. rewrite E in En. case_match; [|discriminate]. injection En as <- <-. destruct (decode_utf8 _ _ _ Hv' E) as (_ & _ & Hr).
    apply decode_shorter in E. destruct (scan_quoted q r) as [[v r2]|] eqn:Eq; [|exact I]. destruct (scan_quoted_utf8 q r v r2 Hq Hr Eq) as (Hw1 & Hw2 & Hw3).
    cbn. split; [auto|]. split; [assumption | lia]. }
  destruct (c =? 39); [now apply (Hquoted 39 TkString)|]. destruct (c =? 34); [now apply (Hquoted 34 TkIdent)|]. clear Hquoted.
  destruct (ascii_digit c) eqn:Ed.
  - unfold scan_number. destruct s' as [|b s']; [exact Hv'|]. destruct (is_digit b) eqn:Eb; [|exact Hv']. cbn [negb].
    pose proof (scan_number_split (b :: s')) as Hsp. destruct (scan_number_bytes (b :: s')) as [n r'] eqn:En. cbn in Hsp.
    destruct (split_utf8 _ _ _ Hsp Hv') as (H1 & H2 & H3). cbn. split; [exact H1|]. split; [exact H2|].
    unfold scan_number_bytes in En. cbn [scan_digits] in En. rewrite Eb in En. destruct (scan_digits s') as [d r1].
    destruct (scan_fraction r1) as [f r2]. destruct (scan_exponent r2) as [e r3]. injection En as <- <-. destruct Hsp as [Hsp _].
    apply (f_equal length) in Hsp. cbn [length app] in Hsp. rewrite length_app in Hsp. lia.
  - destruct (is_alphabetic c); [now apply scan_ident_good|]. destruct (scan_symbol_bytes s') as [[t|] r'] eqn:Es.
    + destruct (scan_symbol_split _ _ _ Es) as (Ht & Hlt & v & Hsp). destruct (split_utf8 _ _ _ Hsp Hv') as (_ & H2 & _). cbn. auto.
    + assert (r' = s') as ->; [|exact Hv']. unfold scan_symbol_bytes in Es. destruct s'; [now injection Es|]. cbn zeta in Es.
      repeat match type of Es with context [if ?b then _ else _] => destruct b end; now injection Es.
Qed.

(** [collect]: the tokens one after the other. *)
Lemma lex_n_good n : forall s, utf8_valid s = true ->
  match lex_n n s with
  | Ok toks => Forall (fun t => token_utf8 t = true) toks
  | Err (InvalidInput _) => True
  | Err _ | Panic _ => False
  end.
Proof.
  induction n as [|n IH]; intros s Hv; [constructor|]. cbn [lex_n]. unfold lexer_next. pose proof (scan_good s Hv) as Hg.
  destruct (scan s) as [[[t|] r]|e|p]; cbn in Hg |- *; [| | exact Hg | easy].
  - destruct Hg as (Ht & Hr & _). specialize (IH r Hr). destruct (lex_n n r) as [toks|e|p]; cbn; [now constructor | exact IH | exact IH].
  - destruct (decode_char r); cbn; constructor.
Qed.

Lemma lex_good s : utf8_valid s = true ->
  match lex s with
  | Ok toks => Forall (fun t => token_utf8 t = true) toks
  | Err (InvalidInput _) => True
  | Err _ | Panic _ => False
  end.
Proof. apply lex_n_good. Qed.

(** The bound on the number of tokens is never reached. *)
Lemma lex_enough n : forall n' s, utf8_valid s = true -> (length s < n)%nat -> (length s < n')%nat -> lex_n n s = lex_n n' s.
Proof.
  induction n as [|n IH]; intros [|n'] s Hv Hn Hn'; [lia..|]. cbn [lex_n]. unfold lexer_next. pose proof (scan_good s Hv) as Hg.
  destruct (scan s) as [[[t|] r]|e|p]; cbn in Hg |- *; try reflexivity; [|now destruct (decode_char r)]. destruct Hg as (_ & Hr & Hlt). now rewrite (IH n') by (assumption || lia).
Qed.
Lemma lex_eq s : utf8_valid s = true ->
  lex s = match lexer_next s with
          | None => Ok []
          | Some r => let? '(t, s) := r in outcome_map (cons t) (lex s)
          end.
Proof.
  intros Hv. unfold lex at 1. cbn [lex_n]. unfold lexer_next. pose proof (scan_good s Hv) as Hg.
  destruct (scan s) as [[[t|] r]|e|p]; cbn in Hg |- *; try reflexivity; [|now destruct (decode_char r)]. destruct Hg as (_ & Hr & Hlt). unfold lex.
  now rewrite (lex_enough _ (S (length r))) by (assumption || lia).
Qed.
End Tokens.
