(* ===== verification/SqlParserSafety.v ===== *)
(** * What the parser accepts

    Every statement the parser returns is one the planner can handle; the guard
    against deep nesting never fails by itself. *)
From S2P Require Import Prelude Bytes Keycode Btree Float64 SqlValue SqlPlan SqlAst SqlPlannerTheory SqlLexer SqlLexTheory SqlParser SqlParserTheory SqlStmtParser.

(** ** Results of parsers on tokens with valid names *)
Definition tokens_utf8 (toks : list Token) : Prop := Forall (fun t => token_utf8 t = true) toks.

Definition yields {A} (P : A -> Prop) (m : presult A) (toks : list Token) : Prop :=
  tokens_utf8 toks -> match m with Parsed a rest => P a /\ tokens_utf8 rest | Rejected _ => True end.

Lemma yields_ret {A} (P : A -> Prop) a toks : P a -> yields P (Parsed a toks) toks.
Proof. now split. Qed.
Lemma yields_err {A} (P : A -> Prop) e toks : yields P (Rejected e) toks.
Proof. easy. Qed.
Lemma yields_cons {A} (P : A -> Prop) m t toks : yields P m toks -> yields P m (t :: toks).
Proof. intros Hm Ht. inversion Ht; subst. now apply Hm. Qed.
Lemma yields_bind {A B} (P : A -> Prop) (Q : B -> Prop) m k toks :
  yields P m toks -> (forall a rest, P a -> yields Q (k a rest) rest) -> yields Q (pbind m k) toks.
Proof. intros Hm Hk Ht. specialize (Hm Ht). destruct m as [a rest|e]; [|exact I]. destruct Hm as [Ha Hr]. now apply Hk. Qed.
Lemma yields_map {A B} (P : A -> Prop) (Q : B -> Prop) f m toks : yields P m toks -> (forall a, P a -> Q (f a)) -> yields Q (pmap f m) toks.
Proof. intros Hm Hf. apply (yields_bind P); [exact Hm|]. intros. now apply yields_ret, Hf. Qed.
Lemma yields_mono {A} (P Q : A -> Prop) m toks : yields P m toks -> (forall a, P a -> Q a) -> yields Q m toks.
Proof. intros Hm Hpq Ht. specialize (Hm Ht). destruct m; [|exact I]. split; [apply Hpq, Hm | apply Hm]. Qed.
Lemma yields_expect tok toks : yields (fun _ => True) (expect tok toks) toks.
Proof. destruct toks as [|t toks]; [easy|]. cbn. case_decide; [|easy]. now apply yields_cons, yields_ret. Qed.
Lemma yields_ident toks : yields (fun n => utf8_valid n = true) (expect_ident toks) toks.
Proof. destruct toks as [|t toks]; [easy|]. destruct t; try easy. intros Ht. inversion Ht; subst. now split. Qed.
Lemma yields_next {A} (P : A -> Prop) tok toks k other :
  (forall rest, yields P (k rest) rest) -> yields P other toks ->
  yields P (match next_is tok toks with Some rest => k rest | None => other end) toks.
Proof. intros Hk Ho. destruct (next_is tok toks) as [rest|] eqn:E; [|exact Ho]. apply next_is_length in E as ->. apply yields_cons, Hk. Qed.

Create HintDb yields.
#[export] Hint Resolve yields_ret yields_err yields_cons yields_expect yields_ident : yields.

(** ** Expressions *)
Definition ok_expr (e : AstExpression) : Prop := ast_ok e = true.

Lemma build_unary_ok tag e : ok_expr e -> ok_expr (build_unary tag e).
Proof. now destruct tag. Qed.
Lemma build_binary_ok tag l r : ok_expr l -> ok_expr r -> ok_expr (build_binary tag l r).
Proof. unfold ok_expr. intros Hl Hr. destruct tag; cbn; now rewrite Hl, Hr. Qed.
Lemma build_postfix_ok op e : ok_expr e -> ok_expr (build_postfix op e).
Proof.
  unfold ok_expr. assert (f64_is_nan f64_nan = true) as En by (vm_compute; reflexivity).
  intros He. destruct op as [|[] []]; cbn; rewrite ?He, ?En; reflexivity.
Qed.

Lemma postfix_loop_yields n m : forall lhs toks, ok_expr lhs -> tokens_utf8 toks ->
  ok_expr (postfix_loop n m lhs toks).1 /\ tokens_utf8 (postfix_loop n m lhs toks).2.
Proof.
  induction n as [|n IH]; intros lhs toks Hl Ht; [now split|]. cbn [postfix_loop]. destruct (parse_postfix_at toks m) as [[op rest]|] eqn:E; [|now split].
  apply parse_postfix_inv in E as [-> _]. apply IH; [now apply build_postfix_ok|]. now apply Forall_app in Ht as [_ ?].
Qed.

Lemma infix_loop_yields p m n : (forall toks k, yields ok_expr (p toks k) toks) ->
  forall lhs toks, ok_expr lhs -> yields ok_expr (infix_loop p m n lhs toks) toks.
Proof.
  intros Hp. induction n as [|n IH]; intros lhs toks Hl; [now apply yields_ret|]. destruct toks as [|t toks]; [now apply yields_ret|]. cbn [infix_loop].
  destruct (binary_tag_exec t); [|now apply yields_ret]. case_match; [|now apply yields_ret].
  apply yields_cons, (yields_bind ok_expr); [apply Hp|]. intros r rest Hr. apply IH. now apply build_binary_ok.
Qed.

Lemma fn_args_ne_yields parse fuel : (forall f toks, (f < fuel)%nat -> yields ok_expr (parse f toks) toks) ->
  forall toks, yields (Forall ok_expr) (parse_fn_args_ne_exec parse fuel toks) toks.
Proof.
  induction fuel as [|fuel IH]; intros Hp toks; [easy|]. destruct toks as [|t toks]; [easy|]. cbn [parse_fn_args_ne_exec].
  apply (yields_bind ok_expr); [apply Hp; lia|]. intros e rest He. destruct rest as [|u rest]; [easy|].
  assert (yields (Forall ok_expr) (pmap (cons e) (parse_fn_args_ne_exec parse fuel rest)) (u :: rest)) as Hmore.
  { apply yields_cons. apply (yields_map (Forall ok_expr)); [apply IH; auto|]. intros es Hes. now constructor. }
  destruct u; try easy. apply yields_ret. now repeat constructor.
Qed.

Section Yields.
Context `{FloatText}.

Lemma function_call_yields parse fuel name toks : (forall f toks, (f < fuel)%nat -> yields ok_expr (parse f toks) toks) ->
  yields ok_expr (parse_function_call parse fuel name toks) toks.
Proof.
  intros Hp. unfold parse_function_call. apply (yields_bind (Forall ok_expr)).
  - unfold parse_fn_args_exec. destruct toks as [|t toks]; [easy|]. pose proof (fn_args_ne_yields parse fuel Hp (t :: toks)).
    destruct t; try assumption. now apply yields_ret.
  - intros args rest Ha. apply (yields_bind (fun _ => True)); [apply yields_expect|]. intros _ rest' _. apply yields_ret.
    unfold ok_expr. cbn. now apply forallb_Forall.
Qed.

Lemma parse_atom_yields fuel toks :
  (forall g toks p, (g < fuel)%nat -> yields ok_expr (parse_expression_at g toks p) toks) -> yields ok_expr (parse_atom fuel toks) toks.
Proof.
  intros Hp. destruct fuel as [|fuel]; [easy|]. destruct toks as [|t toks]; [easy|]. cbn [parse_atom].
  destruct t; try easy; try (now apply yields_cons, yields_ret); try (repeat case_match; try easy; now apply yields_cons, yields_ret).
  - destruct toks as [|u toks]; [now apply yields_cons, yields_ret|]. destruct u; try (now apply yields_cons, yields_ret).
    + do 2 apply yields_cons. apply (yields_bind (fun n => utf8_valid n = true)); [apply yields_ident|]. intros. now apply yields_ret.
    + do 2 apply yields_cons. apply function_call_yields. auto.
  - apply yields_cons, (yields_bind ok_expr); [apply Hp; lia|]. intros e rest He.
    apply (yields_bind (fun _ => True)); [apply yields_expect|]. intros. now apply yields_ret.
Qed.

Lemma parse_expression_yields fuel : forall toks m, yields ok_expr (parse_expression_at fuel toks m) toks.
Proof.
  induction fuel as [[|fuel] IH] using lt_wf_ind; intros toks m; [easy|]. rewrite parse_expression_at_S. apply (yields_bind ok_expr).
  - destruct toks as [|t toks]; [easy|]. cbn [first_operand].
    assert (yields ok_expr (parse_atom fuel (t :: toks)) (t :: toks)) by (apply parse_atom_yields; auto with lia).
    destruct (prefix_op_exec t) as [tag|]; [|assumption]. case_match; [|assumption].
    apply yields_cons, (yields_map ok_expr); [apply IH; lia | intros; now apply build_unary_ok].
  - intros e rest He Ht. pose proof (postfix_loop_yields (length rest) m e rest He Ht) as [He1 Ht1]. destruct (postfix_loop _ _ e rest) as [e1 r1]. cbn in *.
    pose proof (infix_loop_yields (parse_expression_at fuel) m (length r1) ltac:(auto) e1 r1 He1 Ht1) as Hi. unfold finish.
    destruct (infix_loop _ _ _ e1 r1) as [e2 r2|]; [|exact I]. destruct Hi as [He2 Ht2]. cbn.
    pose proof (postfix_loop_yields (length r2) m e2 r2 He2 Ht2) as [He3 Ht3]. now destruct (postfix_loop _ _ e2 r2).
Qed.

(** ** Clauses *)
Lemma clause_yields toks : yields ok_expr (parse_clause_expr_at toks) toks.
Proof. unfold parse_clause_expr_at. case_match; [easy | apply parse_expression_yields]. Qed.
Definition ok_option (o : option AstExpression) : Prop := from_option ast_ok true o = true.
Lemma optional_yields k toks : yields ok_option (parse_optional_at k toks) toks.
Proof. apply yields_next; [|now apply yields_ret]. intros rest. apply (yields_map ok_expr); [apply clause_yields | easy]. Qed.
Lemma alias_yields toks : yields (fun _ => True) (parse_alias_at toks) toks.
Proof.
  unfold parse_alias_at. destruct toks as [|t toks]; [now apply yields_ret|]. destruct t; try (now apply yields_ret); [now apply yields_cons, yields_ret|].
  destruct k; try (now apply yields_ret). apply yields_cons. now apply (yields_map (fun n => utf8_valid n = true)); [apply yields_ident|].
Qed.

Lemma comma_list_n_yields {A} (P : A -> Prop) item n : (forall toks, yields P (item toks) toks) ->
  forall toks, yields (Forall P) (comma_list_n item n toks) toks.
Proof.
  intros Hi. induction n as [|n IH]; intros toks; [easy|]. cbn [comma_list_n]. apply (yields_bind P); [apply Hi|]. intros a rest Ha.
  apply yields_next; [|apply yields_ret; now repeat constructor]. intros rest'. apply (yields_map (Forall P)); [apply IH|]. intros. now constructor.
Qed.
Lemma comma_list_yields {A} (P : A -> Prop) item toks : (forall toks, yields P (item toks) toks) -> yields (Forall P) (comma_list item toks) toks.
Proof. intros Hi. now apply comma_list_n_yields. Qed.

Lemma from_table_yields toks : yields (fun f => from_ok f = true) (parse_from_table_at toks) toks.
Proof.
  apply (yields_bind (fun n => utf8_valid n = true)); [apply yields_ident|]. intros n rest Hn.
  apply (yields_map (fun _ => True)); [apply alias_yields|]. now intros a _.
Qed.

Lemma joins_yields n : forall f toks, from_ok f = true -> yields (fun f => from_ok f = true) (parse_joins_n n f toks) toks.
Proof.
  induction n as [|n IH]; intros f toks Hf; [now apply yields_ret|]. cbn [parse_joins_n]. destruct (parse_join_at toks) as [r|] eqn:E; [|now apply yields_ret].
  apply (yields_bind (fun _ => True)).
  - unfold parse_join_at in E. destruct toks as [|t toks]; [easy|]. destruct t; try easy. apply yields_cons.
    assert (forall (j : JoinType) rest, yields (fun _ => True) (pmap (fun _ => j) (expect (TkKeyword KwJoin) rest)) rest) as Hj
      by (intros; now apply (yields_map (fun _ => True)); [apply yields_expect|]).
    assert (forall (j : JoinType), yields (fun _ => True) (pmap (fun _ => j) (expect (TkKeyword KwJoin) match next_is (TkKeyword KwOuter) toks with Some rest => rest | None => toks end)) toks) as Ho.
    { intros j. destruct (next_is (TkKeyword KwOuter) toks) as [rest|] eqn:En; [apply next_is_length in En as ->; apply yields_cons|]; apply Hj. }
    destruct k; try easy; injection E as <-; auto. now apply yields_ret.
  - intros j rest _. apply (yields_bind (fun f => from_ok f = true)); [apply from_table_yields|]. intros f' rest' Hf'.
    apply (yields_bind ok_option).
    + assert (yields ok_option (let* _, rest := expect (TkKeyword KwOn) rest' in pmap Some (parse_clause_expr_at rest)) rest') as Hon.
      { apply (yields_bind (fun _ => True)); [apply yields_expect|]. intros. apply (yields_map ok_expr); [apply clause_yields | easy]. }
      destruct j; try exact Hon. now apply yields_ret.
    + intros p rest2 Hp. apply IH. cbn. now rewrite Hf, Hf', Hp.
Qed.

Lemma from_clause_yields toks : yields (fun fs => forallb from_ok fs = true) (parse_from_clause_at toks) toks.
Proof.
  apply yields_next; [|now apply yields_ret]. intros rest. eapply yields_mono; [|intros fs Hfs; apply forallb_Forall, Hfs].
  apply comma_list_yields. intros toks'. apply (yields_bind (fun f => from_ok f = true)); [apply from_table_yields|]. intros. now apply joins_yields.
Qed.

Lemma exprs_yields toks : yields (fun es => forallb ast_ok es = true) (comma_list parse_clause_expr_at toks) toks.
Proof. eapply yields_mono; [|intros es Hes; apply forallb_Forall, Hes]. apply comma_list_yields, clause_yields. Qed.

Lemma group_by_yields toks : yields (fun es => forallb ast_ok es = true) (parse_group_by_at toks) toks.
Proof.
  apply yields_next; [|now apply yields_ret]. intros rest. apply (yields_bind (fun _ => True)); [apply yields_expect|]. intros. apply exprs_yields.
Qed.

Lemma order_by_yields toks : yields (fun es => forallb (fun ed => ast_ok ed.1) es = true) (parse_order_by_at toks) toks.
Proof.
  apply yields_next; [|now apply yields_ret]. intros rest. apply (yields_bind (fun _ => True)); [apply yields_expect|]. intros _ rest' _.
  eapply yields_mono; [|intros es Hes; apply forallb_Forall, Hes]. apply comma_list_yields. intros toks'.
  apply (yields_bind ok_expr); [apply clause_yields|]. intros e r He. destruct r as [|t r]; [now apply yields_ret|].
  destruct t; try (now apply yields_ret). destruct k; try (now apply yields_ret); now apply yields_cons, yields_ret.
Qed.

Lemma select_list_yields toks : yields (fun es => forallb (fun ea => ast_ok ea.1) es = true) (parse_select_list_at toks) toks.
Proof.
  eapply yields_mono; [|intros es Hes; apply forallb_Forall, Hes]. apply comma_list_yields. intros toks'.
  apply (yields_bind ok_expr); [apply clause_yields|]. intros e r He. case_match; [easy|].
  apply (yields_map (fun _ => True)); [apply alias_yields|]. intros a _. exact He.
Qed.

(** Transaction control, which the session executes itself. *)
Definition control (st : Statement) : bool := match st with SBegin _ _ | SCommit | SRollback => true | _ => false end.

(** What the parser produces: transaction control, statements the planner
    accepts, and EXPLAIN of either. *)
Definition explained (st : Statement) : Statement := match st with SExplain st => st | st => st end.
Definition good_statement (st : Statement) : Prop := control (explained st) = true \/ statement_ok (explained st) = true.

Lemma select_yields toks : yields (fun st => statement_ok st = true) (parse_select_at toks) toks.
Proof.
  apply (yields_bind (fun es => forallb (fun ea => ast_ok ea.1) es = true)); [apply select_list_yields|]. intros select c1 H1.
  apply (yields_bind (fun fs => forallb from_ok fs = true)); [apply from_clause_yields|]. intros from c2 H2.
  apply (yields_bind ok_option); [apply optional_yields|]. intros w c3 H3.
  apply (yields_bind (fun es => forallb ast_ok es = true)); [apply group_by_yields|]. intros g c4 H4.
  apply (yields_bind ok_option); [apply optional_yields|]. intros h c5 H5.
  apply (yields_bind (fun es => forallb (fun ed => ast_ok ed.1) es = true)); [apply order_by_yields|]. intros o c6 H6.
  apply (yields_bind ok_option); [apply optional_yields|]. intros lim c7 H7.
  apply (yields_bind ok_option); [apply optional_yields|]. intros off c8 H8. apply yields_ret. cbn. unfold select_ok. cbn.
  unfold ok_option in *. now rewrite H1, H2, H3, H4, H5, H6, H7, H8.
Qed.

Lemma constraint_yields k c toks : column_ok c = true -> yields (fun c => column_ok c = true) (parse_constraint_at k c toks) toks.
Proof.
  intros Hc. assert (forall b rest, yields (fun c => column_ok c = true) (set_nullable b c rest) rest) as Hn.
  { intros. unfold set_nullable. case_match; [easy | now apply yields_ret]. }
  destruct k; try easy; cbn [parse_constraint_at]; try (now apply yields_ret); try apply Hn.
  - apply (yields_bind ok_expr); [apply clause_yields|]. intros. now apply yields_ret.
  - apply (yields_bind (fun _ => True)); [apply yields_expect|]. intros. apply Hn.
  - apply (yields_bind (fun _ => True)); [apply yields_expect|]. intros. now apply yields_ret.
  - apply (yields_bind (fun n => utf8_valid n = true)); [apply yields_ident|]. intros. now apply yields_ret.
Qed.
Lemma constraints_yields n : forall c toks, column_ok c = true -> yields (fun c => column_ok c = true) (parse_constraints_n n c toks) toks.
Proof.
  induction n as [|n IH]; intros c toks Hc; [now apply yields_ret|]. destruct toks as [|t toks]; [now apply yields_ret|]. destruct t; try (now apply yields_ret).
  cbn [parse_constraints_n]. apply yields_cons, (yields_bind (fun c => column_ok c = true)); [now apply constraint_yields|]. auto.
Qed.
Lemma create_yields toks : yields (fun st => statement_ok st = true) (parse_create_at toks) toks.
Proof.
  apply (yields_bind (fun _ => True)); [apply yields_expect|]. intros _ c1 _. apply (yields_bind (fun n => utf8_valid n = true)); [apply yields_ident|]. intros n c2 _.
  apply (yields_bind (fun _ => True)); [apply yields_expect|]. intros _ c3 _.
  apply (yields_bind (Forall (fun c => column_ok c = true))).
  - apply comma_list_yields. intros toks'. apply (yields_bind (fun n => utf8_valid n = true)); [apply yields_ident|]. intros m r _.
    destruct r as [|t r]; [easy|]. destruct (parse_datatype t); [|easy]. apply yields_cons. now apply constraints_yields.
  - intros cols c4 Hc. apply (yields_bind (fun _ => True)); [apply yields_expect|]. intros _ c5 _. apply yields_ret.
    cbn. apply forallb_Forall in Hc. now rewrite Hc.
Qed.

Lemma btree_insert_forall {A} (P : A -> Prop) k v l : P v -> Forall (fun kv => P kv.2) l -> Forall (fun kv => P kv.2) (btree_insert k v l).
Proof. intros Hv. induction 1 as [|[k' v'] l Hx Hl IH]; cbn; [now repeat constructor|]. case_match; repeat constructor; auto. Qed.
Lemma assignments_yields n : forall set toks, Forall (fun ce => ok_option ce.2) set ->
  yields (Forall (fun ce => ok_option ce.2)) (parse_assignments_n n set toks) toks.
Proof.
  induction n as [|n IH]; intros set toks Hs; [easy|]. cbn [parse_assignments_n]. apply (yields_bind (fun ce => ok_option ce.2)).
  - apply (yields_bind (fun n => utf8_valid n = true)); [apply yields_ident|]. intros c r _. apply (yields_bind (fun _ => True)); [apply yields_expect|]. intros _ r' _.
    apply yields_next; [intros; now apply yields_ret|]. apply (yields_map ok_expr); [apply clause_yields | easy].
  - intros a r Ha. case_match; [easy|]. apply yields_next; [intros rest; apply IH | apply yields_ret]; now apply (btree_insert_forall ok_option).
Qed.
Lemma update_yields toks : yields (fun st => statement_ok st = true) (parse_update_at toks) toks.
Proof.
  apply (yields_bind (fun n => utf8_valid n = true)); [apply yields_ident|]. intros t c1 Ht. apply (yields_bind (fun _ => True)); [apply yields_expect|]. intros _ c2 _.
  apply (yields_bind (Forall (fun ce => ok_option ce.2))); [now apply assignments_yields|]. intros set c3 Hs.
  apply (yields_bind ok_option); [apply optional_yields|]. intros w c4 Hw. apply yields_ret. cbn. unfold ok_option in *.
  apply forallb_Forall in Hs. now rewrite Ht, Hs, Hw.
Qed.

Lemma insert_yields toks : yields (fun st => statement_ok st = true) (parse_insert_at toks) toks.
Proof.
  apply (yields_bind (fun _ => True)); [apply yields_expect|]. intros _ c1 _. apply (yields_bind (fun n => utf8_valid n = true)); [apply yields_ident|]. intros t c2 Ht.
  apply (yields_bind (fun _ => True)).
  { apply yields_next; [|now apply yields_ret]. intros rest. apply (yields_bind (Forall (fun n => utf8_valid n = true))); [apply comma_list_yields, yields_ident|].
    intros cols r _. apply (yields_bind (fun _ => True)); [apply yields_expect|]. intros. now apply yields_ret. }
  intros cols c3 _. apply (yields_bind (fun _ => True)); [apply yields_expect|]. intros _ c4 _.
  apply (yields_bind (Forall (fun row => forallb ast_ok row = true))).
  - apply comma_list_yields. intros toks'. apply (yields_bind (fun _ => True)); [apply yields_expect|]. intros _ r _.
    apply (yields_bind (fun es => forallb ast_ok es = true)); [apply exprs_yields|]. intros row r' Hrow.
    apply (yields_bind (fun _ => True)); [apply yields_expect|]. intros. now apply yields_ret.
  - intros vals c5 Hv. apply yields_ret. cbn. apply forallb_Forall in Hv. now rewrite Ht, Hv.
Qed.

Lemma delete_yields toks : yields (fun st => statement_ok st = true) (parse_delete_at toks) toks.
Proof.
  apply (yields_bind (fun _ => True)); [apply yields_expect|]. intros _ c1 _. apply (yields_bind (fun n => utf8_valid n = true)); [apply yields_ident|]. intros t c2 Ht.
  apply (yields_bind ok_option); [apply optional_yields|]. intros w c3 Hw. apply yields_ret. unfold ok_option in *. cbn. now rewrite Ht, Hw.
Qed.

Lemma drop_yields toks : yields (fun st => statement_ok st = true) (parse_drop_at toks) toks.
Proof.
  apply (yields_bind (fun _ => True)); [apply yields_expect|]. intros _ c1 _. apply (yields_bind (fun _ => True)).
  { apply yields_next; [|now apply yields_ret]. intros rest. now apply (yields_map (fun _ => True)); [apply yields_expect|]. }
  intros b c2 _. apply (yields_bind (fun n => utf8_valid n = true)); [apply yields_ident|]. intros n c3 Hn. apply yields_ret. cbn. now rewrite Hn.
Qed.

Lemma begin_yields toks : yields (fun st => control st = true) (parse_begin_at toks) toks.
Proof.
  unfold parse_begin_at. set (cur := match next_is (TkKeyword KwTransaction) toks with Some rest => rest | None => toks end).
  intros Ht. assert (tokens_utf8 cur) as Hc.
  { subst cur. destruct (next_is (TkKeyword KwTransaction) toks) as [rest|] eqn:En; [|exact Ht]. apply next_is_length in En as ->. now inversion Ht. }
  revert Hc. clearbody cur. apply (yields_bind (fun _ => True)).
  - apply yields_next; [|now apply yields_ret]. intros rest. destruct rest as [|t rest]; [easy|]. destruct t; try easy. destruct k; try easy; now apply yields_cons, yields_ret.
  - intros ro r _. apply (yields_bind (fun _ => True)); [|intros; now apply yields_ret]. apply yields_next; [|now apply yields_ret]. intros rest.
    apply (yields_bind (fun _ => True)); [apply yields_expect|]. intros _ r1 _. apply (yields_bind (fun _ => True)); [apply yields_expect|]. intros _ r2 _.
    apply (yields_bind (fun _ => True)); [apply yields_expect|]. intros _ r3 _. destruct r3 as [|t r3]; [easy|]. destruct t; try easy.
    case_match; [now apply yields_cons, yields_ret | easy].
Qed.

Lemma control_good st : control st = true \/ statement_ok st = true -> good_statement st /\ good_statement (SExplain st).
Proof. unfold good_statement. destruct st; cbn; intros [E|E]; try discriminate E; auto. Qed.

Lemma parse_control_yields toks : yields good_statement (parse_control_at toks) toks.
Proof.
  assert (forall toks, (forall r, toks <> TkKeyword KwExplain :: r) ->
    yields (fun st => control st = true \/ statement_ok st = true) (parse_control_at toks) toks) as Hplain.
  { intros [|t rest] Hne; [easy|]. destruct t; try easy. destruct k; try easy; cbn [parse_control_at]; apply yields_cons.
    - eapply yields_mono; [apply begin_yields | auto].
    - apply yields_ret. auto.
    - eapply yields_mono; [apply create_yields | auto].
    - eapply yields_mono; [apply delete_yields | auto].
    - eapply yields_mono; [apply drop_yields | auto].
    - now specialize (Hne rest).
    - eapply yields_mono; [apply insert_yields | auto].
    - apply yields_ret. auto.
    - eapply yields_mono; [apply select_yields | auto].
    - eapply yields_mono; [apply update_yields | auto]. }
  destruct toks as [|t rest]; [easy|]. destruct (decide (t = TkKeyword KwExplain)) as [->|Hne].
  - cbn [parse_control_at]. apply yields_cons. unfold parse_explain_at.
    assert ((forall r, rest <> TkKeyword KwExplain :: r) -> yields good_statement (pmap SExplain (parse_control_at rest)) rest) as He.
    { intros Hr. apply (yields_map (fun st => control st = true \/ statement_ok st = true)); [now apply Hplain|]. intros st. apply control_good. }
    destruct rest as [|t rest]; [now apply He|]. destruct t; try (now apply He). destruct k; try (now apply He). easy.
  - eapply yields_mono; [apply Hplain; congruence|]. intros st. apply control_good.
Qed.
End Yields.

(** ** The nesting guard

    The frames held are those of the open levels, so that the subtractions
    never overflow and there is always a level. *)
Definition level_ok (l : NestLevel) : Prop := 0 <= prefix_held l /\ 0 <= nl_args l /\ 0 <= carets l.
Fixpoint total_frames (ls : list NestLevel) : Z := match ls with [] => 0 | l :: ls => frames l + total_frames ls end.
Definition nest_ok (ls : list NestLevel) (held : Z) : Prop := ls <> [] /\ Forall level_ok ls /\ held = total_frames ls.

Lemma total_frames_nonneg ls : Forall level_ok ls -> 0 <= total_frames ls.
Proof. induction 1 as [|l ls [? [? ?]] _ IH]; cbn; unfold frames; lia. Qed.

Lemma clear_carets_ok ls held : nest_ok ls held -> exists ls' held', clear_carets ls held = Ok (ls', held') /\ nest_ok ls' held'.
Proof.
  intros (Hne & Hf & ->). destruct ls as [|l ls]; [easy|]. inversion Hf as [|? ? Hl Hf']; subst. pose proof (total_frames_nonneg ls Hf').
  destruct Hl as (? & ? & ?). unfold clear_carets, usize_sub. cbn. unfold frames. rewrite (proj2 (Z.ltb_ge _ _)) by lia. cbn. eexists _, _. split; [reflexivity|].
  split; [easy|]. split; [now repeat constructor|]. cbn. unfold frames. cbn. lia.
Qed.

Lemma nest_token_ok t call_head after expect ls held run : nest_ok ls held -> 0 <= run ->
  exists ls' held' run' e p, nest_token t call_head after expect ls held run = Ok (ls', held', run', e, p) /\ nest_ok ls' held' /\ 0 <= run'.
Proof.
  intros Hn Hr. pose proof Hn as (Hne & Hf & Hh). destruct ls as [|l ls]; [easy|]. inversion Hf as [|? ? Hl Hf']; subst. destruct Hl as (? & ? & ?).
  pose proof (total_frames_nonneg ls Hf') as Ht.
  assert (forall run e p, 0 <= run -> exists ls' held' run' e' p', @Ok (list NestLevel * Z * Z * bool * bool) (l :: ls, total_frames (l :: ls), run, e, p) = Ok (ls', held', run', e', p') /\ nest_ok ls' held' /\ 0 <= run') as Hsame
    by (intros run' e p Hrun'; eexists _, _, _, _, _; split; [reflexivity | now split]).
  assert (0 <= run + 1) by lia. assert (0 <= 0) by lia.
  destruct t; cbn [nest_token]; try (repeat case_match; now apply Hsame).
  - eexists _, _, _, _, _. split; [reflexivity|]. split; [|exact Hr]. split; [easy|]. split; [constructor; [unfold level_ok; cbn; lia | exact Hf']|]. cbn. unfold frames. cbn. lia.
  - destruct (clear_carets_ok _ _ Hn) as (ls' & held' & -> & Hn'). cbn. pose proof Hn' as (Hne' & Hf2 & Hh'). destruct ls' as [|l' ls']; [easy|]. cbn.
    inversion Hf2 as [|? ? Hl' Hf2']; subst. destruct Hl' as (? & ? & ?).
    destruct (is_call l'); eexists _, _, _, _, _; (split; [reflexivity|]; split; [|lia]); [|assumption].
    split; [easy|]. split; [constructor; [unfold level_ok; cbn; lia | exact Hf2']|]. cbn. unfold frames. cbn. lia.
  - eexists _, _, _, _, _. split; [reflexivity|]. split; [|lia]. split; [easy|]. split; [constructor; [unfold level_ok; cbn; lia | exact Hf]|]. cbn. unfold frames. cbn. lia.
  - destruct ls as [|l2 ls]; cbn.
    + eexists _, _, _, _, _. split; [reflexivity|]. split; [assumption | lia].
    + unfold usize_sub. rewrite (proj2 (Z.ltb_ge _ _)) by (cbn in *; unfold frames in *; lia). cbn. eexists _, _, _, _, _. split; [reflexivity|]. split; [|lia].
      split; [easy|]. split; [exact Hf'|]. cbn in *. lia.
Qed.

Lemma check_nesting_depth_ok tokens : check_nesting_depth tokens = Ok tt \/ check_nesting_depth tokens = errinput "expression nesting too deep".
Proof.
  assert (forall s, nest_ok (levels s) (held_total s) -> 0 <= prefix_run s ->
    (exists s', nest_scan s tokens = Ok s') \/ nest_scan s tokens = errinput "expression nesting too deep") as Hscan.
  { induction tokens as [|t tokens IH]; intros s Hn Hr; [eauto|]. cbn [nest_scan].
    assert (exists s', nest_step s t = errinput "expression nesting too deep" \/ (nest_step s t = Ok s' /\ nest_ok (levels s') (held_total s') /\ 0 <= prefix_run s')) as (s' & [->|(-> & Hn' & Hr')]).
    { unfold nest_step. set (run := if _ && _ then _ else _). assert (0 <= run) as Hrun by (subst run; case_match; lia).
      assert (exists ls held, (if closes_caret_chain t (expect_operand s) then clear_carets (levels s) (held_total s) else Ok (levels s, held_total s)) = Ok (ls, held) /\ nest_ok ls held) as (ls & held & -> & Hn1).
      { case_match; [now apply clear_carets_ok | eauto]. }
      cbn [outcome_bind]. destruct (nest_token_ok t (ident_pending s) (after_name_kw s) (expect_operand s) ls held run Hn1 Hrun) as (ls' & held' & run' & e & p & -> & Hn2 & Hr2).
      cbn [outcome_bind]. eexists. case_match; [now left | right]. split; [reflexivity|]. now cbn. }
    - now right.
    - cbn. now apply IH. }
  unfold check_nesting_depth. destruct (Hscan nest_init) as [[s' ->]| ->]; [| cbn; lia | now left | now right].
  split; [easy|]. split; [now repeat constructor | reflexivity].
Qed.

(** ** The whole parser *)
Lemma parse_good `{UnicodeSpec, FloatText} s : utf8_valid s = true ->
  match parse s with
  | Ok st => good_statement st
  | Err (InvalidInput _) => True
  | Err _ | Panic _ => False
  end.
Proof.
  intros Hv. unfold parse. pose proof (lex_good s Hv) as Hl. destruct (lex s) as [toks|e|p]; [|exact Hl..]. cbn [outcome_bind]. unfold parse_tokens.
  destruct (check_nesting_depth_ok toks) as [->| ->]; [|exact I]. cbn [outcome_bind].
  pose proof (parse_control_yields toks Hl) as Hy. destruct (parse_control_at toks) as [st rest|e]; [|exact I]. destruct Hy as [Hst _].
  destruct (match next_is TkSemicolon rest with Some _ => _ | None => _ end); [exact Hst | exact I].
Qed.
