(* ===== verification/SqlNesting.v ===== *)
(** * The nesting guard bounds the recursion of the parser

    [check_nesting_depth] scans the tokens before the recursive parser runs.  It
    is related here to the parser token by token: whenever the parser is about to
    read an operand, the guard's counters account for the calls that are open, so
    that a fixed amount of fuel, that is, a fixed depth of recursion, is enough
    for statements of any length. *)
From S2P Require Import Prelude Bytes Float64 SqlValue SqlPlan SqlAst SqlLexer SqlParser SqlParserTheory SqlStmtParser SqlParserSafety.

(** The guard takes the product in [a! * b] for an operand. *)
Fixpoint no_factorial_product (toks : list Token) : bool :=
  match toks with
  | [] => true
  | t :: rest => negb (bool_decide (t = TkExclamation) && bool_decide (head rest = Some TkAsterisk)) && no_factorial_product rest
  end.

(** ** What the guard has counted *)
Definition depth (s : NestState) : Z := Z.of_nat (length (levels s)) - 1 + held_total s + prefix_run s.
Record state_ok (s : NestState) : Prop := {
  ok_levels : nest_ok (levels s) (held_total s);
  ok_run : 0 <= prefix_run s;
  ok_depth : depth s <= MAX_NESTING_DEPTH;
  ok_name : after_name_kw s = false;
}.

(** Where an operand starts. *)
Record ready (s : NestState) : Prop := {
  ready_ok : state_ok s;
  ready_expect : expect_operand s = true;
  ready_ident : ident_pending s = false;
}.

(** Where an operand has ended; after a factorial the guard expects another. *)
Record finished (s : NestState) (rest : list Token) : Prop := {
  finished_ok : state_ok s;
  finished_run : prefix_run s = 0 \/ ident_pending s = true;
  finished_expect : expect_operand s = true -> ident_pending s = false /\ head rest <> Some TkAsterisk;
}.

(** The level is the same one, and at the precedence of [^] no operator has
    ended the chain of [^]. *)
Definition framed_level (m : Z) (s s' : NestState) : Prop :=
  exists l l' ls, levels s = l :: ls /\ levels s' = l' :: ls /\
    prefix_held l' = prefix_held l /\ nl_args l' = nl_args l /\ is_call l' = is_call l /\ (8 <= m -> carets l <= carets l').

Definition top_carets (s : NestState) : Z := match levels s with l :: _ => carets l | [] => 0 end.
Definition load (m : Z) (s : NestState) : Z :=
  Z.of_nat (length (levels s)) - 1 + held_total s - (if m <? 8 then top_carets s else 0).

(** The fuel that is enough to read an operand. *)
Definition need (m : Z) (s : NestState) : Z := 716 * (64 - load m s) + 65 * (10 - m) + (64 - prefix_run s).

(** ** Steps of the guard *)
Lemma nest_step_inv s t s' : nest_ok (levels s) (held_total s) -> 0 <= prefix_run s -> nest_step s t = Ok s' ->
  nest_ok (levels s') (held_total s') /\ 0 <= prefix_run s' /\ depth s' <= MAX_NESTING_DEPTH /\ after_name_kw s' = introduces_name t.
Proof.
  intros Hn Hr. unfold nest_step. set (run := if _ && _ then _ else _). assert (0 <= run) as Hrun by (subst run; case_match; lia).
  assert (exists ls held, (if closes_caret_chain t (expect_operand s) then clear_carets (levels s) (held_total s) else Ok (levels s, held_total s)) = Ok (ls, held) /\ nest_ok ls held) as (ls & held & -> & Hn1).
  { case_match; [now apply clear_carets_ok | eauto]. }
  cbn [outcome_bind]. destruct (nest_token_ok t (ident_pending s) (after_name_kw s) (expect_operand s) ls held run Hn1 Hrun) as (ls' & held' & run' & e & p & -> & Hn2 & Hr2).
  cbn [outcome_bind]. destruct (_ <? _) eqn:E; [discriminate|]. intros [= <-]. apply Z.ltb_ge in E. auto.
Qed.
Lemma nest_step_ok s t s' : nest_ok (levels s) (held_total s) -> 0 <= prefix_run s -> introduces_name t = false ->
  nest_step s t = Ok s' -> state_ok s'.
Proof. intros Hn Hr Ht E. destruct (nest_step_inv s t s' Hn Hr E) as (? & ? & ? & Ha). rewrite Ht in Ha. now split. Qed.

(** Cases on a token, for the few that satisfy a hypothesis. *)
Ltac token t :=
  destruct t; try discriminate; try match goal with k : Keyword |- _ => destruct k; try discriminate end.
Ltac guard_step E :=
  unfold nest_step in E; cbn in E; destruct (_ <? _) in E; [discriminate E|]; injection E as <-.

Lemma prefix_step s t tag s' : ready s -> prefix_op_exec t = Some tag -> nest_step s t = Ok s' ->
  ready s' /\ levels s' = levels s /\ held_total s' = held_total s /\ prefix_run s' = prefix_run s + 1.
Proof.
  intros [Ho He Hi] Ht E. assert (state_ok s') as Ho' by (apply (nest_step_ok s t); [apply Ho | apply Ho | now token t | exact E]).
  destruct s as [ls held run ex pe af]. cbn in He, Hi. subst. token t; guard_step E; (split; [now split | auto]).
Qed.

(** The tokens that are operands by themselves. *)
Definition is_leaf (t : Token) : bool :=
  match t with
  | TkNumber _ | TkString _ | TkAsterisk | TkKeyword (KwTrue | KwFalse | KwNull | KwInfinity | KwNaN) => true
  | _ => false
  end.
Lemma leaf_step s t rest s' : ready s -> is_leaf t = true -> nest_step s t = Ok s' ->
  finished s' rest /\ levels s' = levels s.
Proof.
  intros [Ho He Hi] Ht E. assert (state_ok s') as Ho' by (apply (nest_step_ok s t); [apply Ho | apply Ho | now token t | exact E]).
  destruct s as [ls held run ex pe af]. cbn in He, Hi. subst. token t; guard_step E; (split; [split; [exact Ho' | now left | discriminate] | reflexivity]).
Qed.

Lemma ident_step s n rest s' : ready s -> nest_step s (TkIdent n) = Ok s' ->
  finished s' rest /\ levels s' = levels s /\ held_total s' = held_total s /\ prefix_run s' = prefix_run s /\ ident_pending s' = true.
Proof.
  intros [Ho He Hi] E. assert (state_ok s') as Ho' by (now apply (nest_step_ok s (TkIdent n)); [apply Ho | apply Ho | | exact E]).
  pose proof (ok_name s Ho) as Ha. destruct s as [ls held run ex pe af]. cbn in He, Hi, Ha. subst. guard_step E.
  split; [split; [exact Ho' | now right | discriminate] | auto].
Qed.

Lemma open_step s s' : state_ok s -> nest_step s TkOpenParen = Ok s' ->
  ready s' /\ levels s' = mkLevel (prefix_run s) 0 0 (ident_pending s) :: levels s /\ held_total s' = held_total s + prefix_run s /\ prefix_run s' = 0.
Proof.
  intros Ho E. assert (state_ok s') as Ho' by (now apply (nest_step_ok s TkOpenParen); [apply Ho | apply Ho | | exact E]).
  destruct s as [ls held run ex pe af]. unfold nest_step in E. cbn in E. rewrite andb_false_r in E. cbn in E. unfold closes_caret_chain in E. rewrite andb_false_r in E.
  cbn in E. destruct (_ <? _) in E; [discriminate E|]. injection E as <-. split; [now split | auto].
Qed.

Lemma close_step s l l2 ls rest s' : state_ok s -> levels s = l :: l2 :: ls -> nest_step s TkCloseParen = Ok s' ->
  finished s' rest /\ levels s' = l2 :: ls.
Proof.
  intros Ho El E. assert (state_ok s') as Ho' by (now apply (nest_step_ok s TkCloseParen); [apply Ho | apply Ho | | exact E]).
  destruct s as [ls' held run ex pe af]. cbn in El. subst ls'. unfold nest_step in E. cbn in E. unfold closes_caret_chain in E. rewrite andb_false_r in E. cbn in E.
  destruct (usize_sub held (frames l)) as [held'|e|p]; [|discriminate..]. cbn in E. destruct (_ <? _) in E; [discriminate E|]. injection E as <-.
  split; [split; [exact Ho' | now left | discriminate] | reflexivity].
Qed.

Lemma comma_step s l ls s' : state_ok s -> levels s = l :: ls -> nest_step s TkComma = Ok s' ->
  ready s' /\ levels s' = mkLevel (prefix_held l) (nl_args l + (if is_call l then 1 else 0)) 0 (is_call l) :: ls /\ prefix_run s' = 0.
Proof.
  intros Ho El E. assert (state_ok s') as Ho' by (now apply (nest_step_ok s TkComma); [apply Ho | apply Ho | | exact E]).
  destruct s as [ls' held run ex pe af]. cbn in El. subst ls'. unfold nest_step in E. cbn in E. unfold closes_caret_chain in E. rewrite andb_false_r in E.
  unfold clear_carets in E. cbn in E. destruct (usize_sub held (carets l)) as [held'|e|p]; [|discriminate..]. cbn in E.
  destruct (is_call l) eqn:Ec; cbn in E; (destruct (_ <? _) in E; [discriminate E|]; injection E as <-; split; [now split|]); [auto|].
  cbn. rewrite Z.add_0_r. auto.
Qed.

(** An operator after an operand: an operand may follow at the same level. *)
Definition is_operator (t : Token) : bool := bool_decide (t = TkKeyword KwIs) || bool_decide (is_Some (binary_tag_exec t)).
Definition operator_carets (t : Token) (before after : Z) : Prop :=
  match t with TkCaret => after = before + 1 | _ => after = 0 \/ after = before end.
Lemma operator_step s t rest s' : finished s (t :: rest) -> is_operator t = true -> nest_step s t = Ok s' ->
  ready s' /\ 0 <= prefix_run s' <= 1 /\
  exists l l' ls, levels s = l :: ls /\ levels s' = l' :: ls /\ prefix_held l' = prefix_held l /\ nl_args l' = nl_args l /\
    is_call l' = is_call l /\ operator_carets t (carets l) (carets l').
Proof.
  intros [Ho Hr He] Ht E. assert (state_ok s') as Ho' by (apply (nest_step_ok s t); [apply Ho | apply Ho | now token t | exact E]).
  destruct (ok_levels s Ho) as (Hne & Hf & Hh). destruct s as [[|l ls] held run ex pe af]; [now destruct Hne|]. cbn in *.
  assert ((if pe && negb (bool_decide (t = TkOpenParen)) then 0 else run) = 0) as Erun.
  { rewrite bool_decide_false by (intros ->; discriminate Ht). destruct pe; [reflexivity|]. cbn. now destruct Hr. }
  unfold nest_step in E. cbn [ident_pending prefix_run expect_operand levels held_total after_name_kw] in E. rewrite Erun in E.
  assert (forall l', s' = mkNest (l' :: ls) (held_total s') (prefix_run s') true false false -> 0 <= prefix_run s' <= 1 ->
    prefix_held l' = prefix_held l -> nl_args l' = nl_args l -> is_call l' = is_call l -> operator_carets t (carets l) (carets l') ->
    ready s' /\ 0 <= prefix_run s' <= 1 /\ exists l0 l' ls', l :: ls = l0 :: ls' /\ levels s' = l' :: ls' /\ prefix_held l' = prefix_held l0 /\
      nl_args l' = nl_args l0 /\ is_call l' = is_call l0 /\ operator_carets t (carets l0) (carets l')) as Hend.
  { intros l' Es Hrun Hp Hn Hc Hk. split; [split; [exact Ho' | now rewrite Es..]|]. split; [exact Hrun|]. exists l, l', ls.
    rewrite Es. auto 7. }
  destruct ex.
  - destruct (He eq_refl) as [-> Hstar]. unfold closes_caret_chain in E. cbn [negb andb outcome_bind] in E.
    token t; try (now destruct Hstar); cbn in E; (destruct (_ <? _) in E; [discriminate E|]; injection E as E; rewrite <- E in *;
      eapply Hend; [reflexivity | cbn; lia | reflexivity..| unfold operator_carets; cbn; auto]).
  - unfold closes_caret_chain, clear_carets in E. cbn in E.
    token t; cbn in E; try (destruct (usize_sub held (carets l)) as [held'|e|p]; [|discriminate E..]; cbn in E);
      (destruct (_ <? _) in E; [discriminate E|]; injection E as E; rewrite <- E in *;
      eapply Hend; [reflexivity | cbn; lia | reflexivity..| unfold operator_carets; cbn; auto]).
Qed.

(** ** Loads *)
Lemma load_eq m s l ls : state_ok s -> levels s = l :: ls ->
  load m s = Z.of_nat (length ls) + prefix_held l + nl_args l + total_frames ls + (if m <? 8 then 0 else carets l).
Proof.
  intros Ho E. destruct (ok_levels s Ho) as (_ & _ & Hh). unfold load, top_carets. rewrite E in *. rewrite Hh. cbn [length total_frames]. unfold frames.
  destruct (m <? 8); lia.
Qed.
Lemma level_bounds s l ls : state_ok s -> levels s = l :: ls ->
  0 <= prefix_held l /\ 0 <= nl_args l /\ 0 <= carets l /\ 0 <= total_frames ls.
Proof.
  intros Ho E. destruct (ok_levels s Ho) as (_ & Hf & _). rewrite E in Hf. inversion Hf as [|? ? (? & ? & ?) Hf']; subst.
  pose proof (total_frames_nonneg ls Hf'). auto.
Qed.
Lemma load_bounds m s : state_ok s -> 0 <= load m s /\ load m s + prefix_run s <= 64.
Proof.
  intros Ho. pose proof (ok_depth s Ho) as Hd. destruct (ok_levels s Ho) as (Hne & _ & _). destruct (levels s) as [|l ls] eqn:E; [now destruct Hne|].
  pose proof (level_bounds s l ls Ho E). rewrite (load_eq m s l ls Ho E). unfold depth, MAX_NESTING_DEPTH in Hd.
  pose proof (load_eq 8 s l ls Ho E) as H8. unfold load in H8. cbn in H8. destruct (m <? 8); lia.
Qed.
Lemma need_bounds m s : 0 <= m <= 10 -> state_ok s -> 0 <= need m s <= 46538.
Proof. intros Hm Ho. pose proof (load_bounds m s Ho). pose proof (ok_run s Ho). unfold need. lia. Qed.

Lemma framed_refl m s s' : state_ok s -> levels s' = levels s -> framed_level m s s'.
Proof.
  intros Ho E. destruct (ok_levels s Ho) as (Hne & _ & _). destruct (levels s) as [|l ls] eqn:El; [now destruct Hne|].
  exists l, l, ls. rewrite E. repeat split; auto. lia.
Qed.
Lemma framed_trans m m' s s1 s2 : framed_level m s s1 -> framed_level m' s1 s2 -> (8 <= m -> 8 <= m') -> framed_level m s s2.
Proof.
  intros (l & l1 & ls & E & E1 & Hp & Hn & Hc & Hk) (l1' & l2 & ls' & E1' & E2 & Hp' & Hn' & Hc' & Hk') Hm. rewrite E1 in E1'.
  injection E1' as <- <-. exists l, l2, ls. repeat split; [exact E | exact E2 | congruence..|]. intros H8. specialize (Hk H8). specialize (Hk' (Hm H8)). lia.
Qed.

(** The operand after an operator needs less. *)
Lemma operator_need m s0 s t tag rest s' : state_ok s0 -> framed_level m s0 s -> finished s (t :: rest) -> 0 <= m ->
  binary_tag_exec t = Some tag -> m <= binary_prec tag -> nest_step s t = Ok s' ->
  ready s' /\ framed_level m s0 s' /\ need (binary_prec tag + binary_assoc tag) s' < need m s0.
Proof.
  intros Ho0 Hf Hs Hm Ht Hp E.
  destruct (operator_step s t rest s' Hs) as (Hr & Hrun & l & l' & ls & El & El' & E1 & E2 & E3 & Hk); [unfold is_operator; rewrite Ht; now rewrite orb_true_r | exact E|].
  assert (framed_level m s s') as Hf'.
  { exists l, l', ls. repeat split; auto. intros H8. destruct tag; cbn in Hp; try lia. token t. cbn in Hk. lia. }
  pose proof (framed_trans m m s0 s s' Hf Hf' (fun h => h)) as Hf0. split; [exact Hr|]. split; [exact Hf0|].
  destruct Hf as (l0 & l1 & ls0 & Es0 & Es1 & F1 & F2 & _ & F4). rewrite El in Es1. injection Es1 as <- <-.
  pose proof (level_bounds s l ls (finished_ok _ _ Hs) El) as Hb. pose proof (load_bounds m s0 Ho0) as Hl. pose proof (ok_run s0 Ho0) as Hr0.
  pose proof (load_eq m s0 l0 ls Ho0 Es0) as L0. pose proof (load_eq (binary_prec tag + binary_assoc tag) s' l' ls (ready_ok s' Hr) El') as L1.
  pose proof (level_bounds s' l' ls (ready_ok s' Hr) El') as Hb'.
  unfold need. destruct (Z.ltb_spec m 8), (Z.ltb_spec (binary_prec tag + binary_assoc tag) 8);
    destruct tag; cbn [binary_prec binary_assoc] in *; try lia; token t; cbn in Hk; lia.
Qed.

Lemma prefix_need m s t tag s' : 0 <= m -> ready s -> prefix_op_exec t = Some tag -> m <= prefix_prec tag -> nest_step s t = Ok s' ->
  ready s' /\ levels s' = levels s /\ need (prefix_prec tag) s' < need m s.
Proof.
  intros Hm Hr Ht Hp E. destruct (prefix_step s t tag s' Hr Ht E) as (Hr' & El & Eh & Er). split; [exact Hr'|]. split; [exact El|].
  destruct (ok_levels s (ready_ok s Hr)) as (Hne & _ & _). destruct (levels s) as [|l ls] eqn:Els; [now destruct Hne|].
  pose proof (level_bounds s l ls (ready_ok s Hr) Els). pose proof (load_eq m s l ls (ready_ok s Hr) Els) as L0.
  pose proof (load_eq (prefix_prec tag) s' l ls (ready_ok s' Hr') El) as L1. unfold need.
  destruct (Z.ltb_spec m 8), (Z.ltb_spec (prefix_prec tag) 8); destruct tag; cbn [prefix_prec] in *; lia.
Qed.

Lemma open_need m s s' : 0 <= m <= 10 -> state_ok s -> nest_step s TkOpenParen = Ok s' ->
  ready s' /\ need 0 s' + 1 < need m s.
Proof.
  intros Hm Ho E. destruct (open_step s s' Ho E) as (Hr & El & Eh & Er). split; [exact Hr|].
  destruct (ok_levels s Ho) as (Hne & _ & Hh). destruct (levels s) as [|l ls] eqn:Els; [now destruct Hne|].
  pose proof (level_bounds s l ls Ho Els). pose proof (load_eq m s l ls Ho Els) as L0. pose proof (load_eq 0 s' _ _ (ready_ok s' Hr) El) as L1.
  pose proof (ok_run s Ho). pose proof (load_bounds m s Ho). unfold need. rewrite Er. cbn in L1. unfold frames in L1. destruct (m <? 8); lia.
Qed.

(** ** The parser and the guard, side by side *)
Lemma scan_cons s t toks z : nest_scan s (t :: toks) = Ok z -> exists s', nest_step s t = Ok s' /\ nest_scan s' toks = Ok z.
Proof. cbn [nest_scan]. destruct (nest_step s t) as [s'|e|p]; [|discriminate..]. eauto. Qed.
Lemma product_cons t toks : no_factorial_product (t :: toks) = true -> no_factorial_product toks = true.
Proof. cbn. intros [_ ?]%andb_true_iff. assumption. Qed.

Lemma factorial_step s rest s' : finished s (TkExclamation :: rest) -> no_factorial_product (TkExclamation :: rest) = true ->
  nest_step s TkExclamation = Ok s' -> finished s' rest /\ levels s' = levels s.
Proof.
  intros [Ho Hr He] Hn E. assert (state_ok s') as Ho' by (now apply (nest_step_ok s TkExclamation); [apply Ho | apply Ho | | exact E]).
  cbn in Hn. apply andb_true_iff in Hn as [Hstar%negb_true_iff _]. apply bool_decide_eq_false in Hstar.
  destruct s as [ls held run ex pe af]. unfold nest_step in E. cbn in E. unfold closes_caret_chain in E. rewrite andb_false_r in E. cbn in E.
  destruct (_ <? _) in E; [discriminate E|]. injection E as <-. split; [split; [exact Ho' | now left | auto] | reflexivity].
Qed.

Lemma period_step s s' : state_ok s -> nest_step s TkPeriod = Ok s' -> ready s' /\ levels s' = levels s.
Proof.
  intros Ho E. assert (state_ok s') as Ho' by (now apply (nest_step_ok s TkPeriod); [apply Ho | apply Ho | | exact E]).
  destruct s as [ls held run ex pe af]. unfold nest_step in E. cbn in E. unfold closes_caret_chain in E. rewrite andb_false_r in E. cbn in E.
  destruct (_ <? _) in E; [discriminate E|]. injection E as <-. now split.
Qed.

(** After an operand that was read at precedence [m] from the state [s0]. *)
Definition after_operand (z : NestState) (m : Z) (s0 : NestState) (rest : list Token) : Prop :=
  exists s, nest_scan s rest = Ok z /\ no_factorial_product rest = true /\ finished s rest /\ framed_level m s0 s.

Lemma leaf_after z m s0 s t rest : state_ok s0 -> ready s -> framed_level m s0 s -> is_leaf t = true -> nest_scan s (t :: rest) = Ok z ->
  no_factorial_product (t :: rest) = true -> after_operand z m s0 rest.
Proof.
  intros Ho Hr Hf Ht (s' & E & Hz)%scan_cons Hn%product_cons. destruct (leaf_step s t rest s' Hr Ht E) as [Hs El]. exists s'.
  split; [exact Hz|]. split; [exact Hn|]. split; [exact Hs|]. apply (framed_trans m m s0 s); [exact Hf | apply framed_refl; [apply Hr | exact El] | auto].
Qed.

Lemma postfix_after z m s0 n : state_ok s0 -> forall lhs toks, after_operand z m s0 toks -> after_operand z m s0 (postfix_loop n m lhs toks).2.
Proof.
  intros Ho. induction n as [|n IH]; intros lhs toks Ha; [exact Ha|]. cbn [postfix_loop].
  destruct (parse_postfix_at toks m) as [[op rest]|] eqn:Ep; [|exact Ha]. apply IH. clear IH. apply parse_postfix_inv in Ep as [-> Hm].
  destruct Ha as (s & Hz & Hn & Hs & Hf). destruct op as [|negated nan]; cbn [postfix_tokens app postfix_prec] in *.
  - apply scan_cons in Hz as (s' & E & Hz). destruct (factorial_step s rest s' Hs Hn E) as [Hs' El]. exists s'. split; [exact Hz|].
    split; [now apply product_cons in Hn|]. split; [exact Hs'|]. apply (framed_trans m m s0 s); [exact Hf | apply framed_refl; [apply Hs | exact El] | auto].
  - apply scan_cons in Hz as (s' & E & Hz). apply product_cons in Hn.
    destruct (operator_step s _ _ s' Hs eq_refl E) as (Hr & _ & l & l' & ls & El & El' & E1 & E2 & E3 & _).
    assert (framed_level m s0 s') as Hf' by (apply (framed_trans m m s0 s); [exact Hf | exists l, l', ls; repeat split; auto; lia | auto]).
    assert (is_leaf (TkKeyword (if nan then KwNaN else KwNull)) = true) as Hl by now destruct nan.
    destruct negated; cbn [app] in *.
    + apply scan_cons in Hz as (s2 & E4 & Hz). apply product_cons in Hn. destruct (prefix_step s' (TkKeyword KwNot) UtNot s2 Hr eq_refl E4) as (Hr2 & El2 & _).
      eapply (leaf_after z m s0 s2); [exact Ho | exact Hr2 | | exact Hl | exact Hz | exact Hn].
      apply (framed_trans m m s0 s'); [exact Hf' | apply framed_refl; [apply Hr | exact El2] | auto].
    + apply (leaf_after z m s0 s' _ rest Ho Hr Hf' Hl Hz Hn).
Qed.

Definition agree {A} (Q : list Token -> Prop) (r1 r2 : presult A) : Prop :=
  r1 = r2 /\ match r1 with Parsed _ rest => Q rest | Rejected _ => True end.
Lemma agree_ret {A} (Q : list Token -> Prop) (a : A) rest : Q rest -> agree Q (Parsed a rest) (Parsed a rest).
Proof. now split. Qed.
Lemma agree_rejected {A} (Q : list Token -> Prop) e : agree Q (Rejected e : presult A) (Rejected e).
Proof. now split. Qed.
Lemma agree_map {A B} Q (f : A -> B) r1 r2 : agree Q r1 r2 -> agree Q (pmap f r1) (pmap f r2).
Proof. intros [-> Hq]. now destruct r2. Qed.
Lemma agree_bind {A B} (Q Q' : list Token -> Prop) (r1 r2 : presult A) (k1 k2 : A -> list Token -> presult B) :
  agree Q r1 r2 -> (forall a rest, Q rest -> agree Q' (k1 a rest) (k2 a rest)) -> agree Q' (pbind r1 k1) (pbind r2 k2).
Proof. intros [-> Hq] Hk. destruct r2; [now apply Hk | apply agree_rejected]. Qed.
Lemma agree_mono {A} (Q Q' : list Token -> Prop) (r1 r2 : presult A) : agree Q r1 r2 -> (forall rest, Q rest -> Q' rest) -> agree Q' r1 r2.
Proof. intros [-> Hq] Hqq. split; [reflexivity|]. destruct r2; auto. Qed.

Section Bound.
Context `{FloatText}.

(** The parser with fuel [f] and [g], on any operand that needs less than both. *)
Definition fuels_agree (f g : nat) : Prop := forall z m s toks,
  0 <= m <= 10 -> ready s -> nest_scan s toks = Ok z -> no_factorial_product toks = true ->
  need m s < Z.of_nat f -> need m s < Z.of_nat g -> agree (after_operand z m s) (parse_expression_at f toks m) (parse_expression_at g toks m).

Lemma infix_agree f g z m s0 : fuels_agree f g -> 0 <= m <= 10 -> state_ok s0 -> need m s0 <= Z.of_nat f -> need m s0 <= Z.of_nat g ->
  forall n lhs toks, after_operand z m s0 toks ->
  agree (after_operand z m s0) (infix_loop (parse_expression_at f) m n lhs toks) (infix_loop (parse_expression_at g) m n lhs toks).
Proof.
  intros Hp Hm Ho Hf Hg. induction n as [|n IH]; intros lhs toks Ha; [now apply agree_ret|]. destruct toks as [|t toks]; [now apply agree_ret|].
  cbn [infix_loop]. destruct (binary_tag_exec t) as [tag|] eqn:Et; [|now apply agree_ret]. destruct (Z.leb_spec m (binary_prec tag)) as [Hle|]; [|now apply agree_ret].
  destruct Ha as (s & Hz & Hn & Hs & Hfr). apply scan_cons in Hz as (s' & E & Hz). apply product_cons in Hn.
  destruct (operator_need m s0 s t tag toks s' Ho Hfr Hs ltac:(lia) Et Hle E) as (Hr & Hfr' & Hneed).
  eapply agree_bind; [apply (Hp z); [destruct tag; cbn; lia | exact Hr | exact Hz | exact Hn | lia | lia]|].
  intros rhs rest (s2 & Hz2 & Hn2 & Hs2 & Hfr2). apply IH. exists s2. split; [exact Hz2|]. split; [exact Hn2|]. split; [exact Hs2|].
  apply (framed_trans m _ s0 s' s2 Hfr' Hfr2). destruct tag; cbn in *; lia.
Qed.

(** Inside the parentheses of a call. *)
Definition inside (z : NestState) (outer : list NestLevel) (rest : list Token) : Prop :=
  exists s l, nest_scan s rest = Ok z /\ no_factorial_product rest = true /\ state_ok s /\ levels s = l :: outer.

Lemma after_inside z m s l outer rest : levels s = l :: outer -> after_operand z m s rest -> inside z outer rest.
Proof.
  intros E (s' & Hz & Hn & Hs & l0 & l' & ls & E0 & E' & _). rewrite E in E0. injection E0 as <- <-. exists s', l'. eauto using finished_ok.
Qed.

Lemma args_agree f : forall g z l outer s toks, (forall f' g', (f' < f)%nat -> (g' < g)%nat -> fuels_agree f' g') ->
  ready s -> levels s = l :: outer -> is_call l = true -> nest_scan s toks = Ok z -> no_factorial_product toks = true ->
  need 0 s + 1 < Z.of_nat f -> need 0 s + 1 < Z.of_nat g ->
  let parse := fun g toks => parse_expression_at g toks 0 in
  agree (inside z outer) (parse_fn_args_ne_exec parse f toks) (parse_fn_args_ne_exec parse g toks).
Proof.
  induction f as [|f IH]; intros [|g] z l outer s toks Hp Hr El Hc Hz Hn Hf Hg parse; try (pose proof (need_bounds 0 s ltac:(lia) (ready_ok s Hr)); lia).
  destruct toks as [|t toks]; [apply agree_rejected|]. cbn [parse_fn_args_ne_exec].
  eapply agree_bind; [apply (Hp f g ltac:(lia) ltac:(lia) z 0 s (t :: toks)); auto; lia|].
  intros e rest (s' & Hz' & Hn' & Hs & l0 & l' & ls & E0 & E' & H1 & H2 & H3 & _). rewrite El in E0. injection E0 as <- <-.
  destruct rest as [|u rest]; [apply agree_rejected|]. destruct u; try apply agree_rejected.
  - apply scan_cons in Hz' as (s2 & E2 & Hz2). apply product_cons in Hn'.
    destruct (comma_step s' l' outer s2 (finished_ok _ _ Hs) E' E2) as (Hr2 & El2 & Er2). rewrite H1, H2, H3, Hc in El2.
    pose proof (load_eq 0 s _ _ (ready_ok s Hr) El) as L. pose proof (load_eq 0 s2 _ _ (ready_ok s2 Hr2) El2) as L2. cbn in L, L2.
    assert (need 0 s2 + 1 < need 0 s) by (unfold need; pose proof (load_bounds 0 s (ready_ok s Hr)); pose proof (ok_run s (ready_ok s Hr)); lia).
    apply agree_map. apply (IH g z (mkLevel (prefix_held l) (nl_args l + 1) 0 true) outer s2 rest); auto; lia.
  - apply agree_ret. exists s', l'. eauto using finished_ok.
Qed.

Lemma close_agree {A} z m s0 outer (a : A) rest : state_ok s0 -> levels s0 = outer -> inside z outer rest ->
  agree (after_operand z m s0) (let* _, rest := expect TkCloseParen rest in Parsed a rest) (let* _, rest := expect TkCloseParen rest in Parsed a rest).
Proof.
  intros Ho El (s & l & Hz & Hn & Hs & Els). destruct rest as [|t rest]; [apply agree_rejected|]. cbn [expect]. case_decide as Et; [|apply agree_rejected].
  subst t. apply agree_ret. apply scan_cons in Hz as (s' & E & Hz). apply product_cons in Hn.
  destruct (ok_levels s0 Ho) as (Hne & _ & _). destruct outer as [|l2 ls]; [congruence|].
  destruct (close_step s l l2 ls rest s' Hs Els E) as [Hs' El']. exists s'. split; [exact Hz|]. split; [exact Hn|]. split; [exact Hs'|].
  apply framed_refl; congruence.
Qed.

Lemma call_agree f g z m s0 s toks name : (forall f' g', (f' < f)%nat -> (g' < g)%nat -> fuels_agree f' g') -> 0 <= m <= 10 ->
  state_ok s0 -> state_ok s -> levels s = levels s0 -> ident_pending s = true -> nest_scan s (TkOpenParen :: toks) = Ok z -> no_factorial_product toks = true ->
  need m s <= Z.of_nat f -> need m s <= Z.of_nat g ->
  agree (after_operand z m s0) (parse_function_call (fun g toks => parse_expression_at g toks 0) f name toks)
    (parse_function_call (fun g toks => parse_expression_at g toks 0) g name toks).
Proof.
  intros Hp Hm Ho0 Ho El Hi (s1 & E & Hz)%scan_cons Hn Hf Hg. destruct (open_need m s s1 Hm Ho E) as [Hr Hneed].
  destruct (open_step s s1 Ho E) as (_ & El1 & _ & _). rewrite Hi, El in El1. unfold parse_function_call.
  eapply (agree_bind (inside z (levels s0))).
  - unfold parse_fn_args_exec. destruct toks as [|t toks]; [apply agree_rejected|].
    pose proof (args_agree f g z _ (levels s0) s1 (t :: toks) Hp Hr El1 eq_refl Hz Hn ltac:(lia) ltac:(lia)) as Ha.
    destruct t; try exact Ha. apply agree_ret. eexists _, _. eauto using ready_ok.
  - intros args rest Hin. now apply (close_agree z m s0 (levels s0)).
Qed.

Lemma atom_agree f g z m s toks : (forall f' g', (f' < f)%nat -> (g' < g)%nat -> fuels_agree f' g') -> 0 <= m <= 10 ->
  ready s -> nest_scan s toks = Ok z -> no_factorial_product toks = true -> need m s <= Z.of_nat f -> need m s <= Z.of_nat g ->
  agree (after_operand z m s) (parse_atom f toks) (parse_atom g toks).
Proof.
  intros Hp Hm Hr Hz Hn Hf Hg. pose proof (ready_ok s Hr) as Ho.
  assert (64 <= need m s) by (pose proof (load_bounds m s Ho); pose proof (ok_run s Ho); unfold need; lia).
  destruct f as [|f], g as [|g]; [lia..|]. destruct toks as [|t toks]; [apply agree_rejected|].
  assert (is_leaf t = true -> after_operand z m s toks) as Hleaf by (intros Hl; now apply (leaf_after z m s s t toks Ho Hr (framed_refl m s s Ho eq_refl) Hl)).
  cbn [parse_atom]. destruct t; try apply agree_rejected; try (now apply agree_ret, Hleaf).
  - destruct (parse_literal_exec (TkNumber n)); [now apply agree_ret, Hleaf | destruct (all_digits n); apply agree_rejected].
  - apply scan_cons in Hz as (s1 & E & Hz). apply product_cons in Hn.
    destruct (ident_step s s0 toks s1 Hr E) as (Hs1 & El1 & Eh1 & Er1 & Hi1).
    assert (agree (after_operand z m s) (Parsed (EColumn None s0) toks) (Parsed (EColumn None s0) toks)) as Hcol.
    { apply agree_ret. exists s1. split; [exact Hz|]. split; [exact Hn|]. split; [exact Hs1 | now apply framed_refl]. }
    destruct toks as [|u toks]; [exact Hcol|]. destruct u; try exact Hcol.
    + apply scan_cons in Hz as (s2 & E2 & Hz). apply product_cons in Hn. destruct (period_step s1 s2 (finished_ok _ _ Hs1) E2) as [Hr2 El2].
      destruct toks as [|u toks]; [apply agree_rejected|]. destruct u as [| |c| | | | | | | | | | | | | | | | | | | | |]; try apply agree_rejected. cbn [expect_ident pbind].
      apply scan_cons in Hz as (s3 & E3 & Hz). apply product_cons in Hn. destruct (ident_step s2 c toks s3 Hr2 E3) as (Hs3 & El3 & _).
      apply agree_ret. exists s3. split; [exact Hz|]. split; [exact Hn|]. split; [exact Hs3 | apply framed_refl; congruence].
    + assert (need m s1 = need m s) as En by (unfold need, load, top_carets; now rewrite El1, Eh1, Er1).
      apply product_cons in Hn. apply (call_agree (S f) (S g) z m s s1 toks s0 Hp Hm Ho (finished_ok _ _ Hs1) El1 Hi1 Hz Hn); lia.
  - destruct k; try apply agree_rejected; now apply agree_ret, Hleaf.
  - apply scan_cons in Hz as (s1 & E & Hz). apply product_cons in Hn. destruct (open_need m s s1 Hm Ho E) as [Hr1 Hneed].
    destruct (open_step s s1 Ho E) as (_ & El1 & _ & _).
    eapply (agree_bind (inside z (levels s))); [|intros e rest Hin; now apply (close_agree z m s (levels s))].
    eapply agree_mono; [apply (Hp f g ltac:(lia) ltac:(lia) z 0 s1 toks); auto; lia|]. intros rest. apply (after_inside z 0 s1 _ (levels s) rest El1).
Qed.

Lemma expression_agree f : forall g, fuels_agree f g.
Proof.
  induction f as [f IHf] using lt_wf_ind. intros g z m s toks Hm Hr Hz Hn Hf Hg. pose proof (ready_ok s Hr) as Ho.
  pose proof (need_bounds m s Hm Ho). destruct f as [|f], g as [|g]; [lia..|]. rewrite !parse_expression_at_S.
  assert (agree (after_operand z m s) (first_operand f toks m) (first_operand g toks m)) as Hfirst.
  { assert (agree (after_operand z m s) (parse_atom f toks) (parse_atom g toks)) as Hatom by (apply atom_agree; auto; lia).
    destruct toks as [|t toks]; [apply agree_rejected|]. cbn [first_operand]. destruct (prefix_op_exec t) as [tag|] eqn:Et; [|exact Hatom].
    destruct (Z.leb_spec m (prefix_prec tag)) as [Hle|]; [|exact Hatom]. apply agree_map. apply scan_cons in Hz as (s1 & E & Hz). apply product_cons in Hn.
    destruct (prefix_need m s t tag s1 ltac:(lia) Hr Et Hle E) as (Hr1 & El & Hneed).
    eapply agree_mono; [apply (IHf f ltac:(lia) g z (prefix_prec tag) s1 toks); auto; try lia; destruct tag; cbn; lia|].
    intros rest (s2 & Hz2 & Hn2 & Hs2 & Hfr). exists s2. split; [exact Hz2|]. split; [exact Hn2|]. split; [exact Hs2|].
    apply (framed_trans m (prefix_prec tag) s s1); [now apply framed_refl | exact Hfr | lia]. }
  eapply agree_bind; [exact Hfirst|]. intros lhs cur Hcur. pose proof (postfix_after z m s (length cur) Ho lhs cur Hcur) as Hpost.
  destruct (postfix_loop (length cur) m lhs cur) as [lhs1 cur1]. cbn [snd] in Hpost. unfold finish.
  eapply agree_bind; [apply (infix_agree f g z m s); auto; lia|]. intros lhs2 cur2 Hcur2.
  pose proof (postfix_after z m s (length cur2) Ho lhs2 cur2 Hcur2) as Hpost2. destruct (postfix_loop (length cur2) m lhs2 cur2) as [lhs3 cur3]. now apply agree_ret.
Qed.
End Bound.

(** ** Clauses of a statement *)
Definition recursion_limit : Z := 46539.

(** The tokens after which the statement parser reads an expression. *)
Definition opens_expression (t : Token) : bool :=
  match t with
  | TkComma | TkOpenParen | TkEqual
  | TkKeyword (KwSelect | KwWhere | KwBy | KwHaving | KwLimit | KwOffset | KwOn | KwDefault) => true
  | _ => false
  end.

Lemma nest_scan_app s toks1 toks2 : nest_scan s (toks1 ++ toks2) = let? s := nest_scan s toks1 in nest_scan s toks2.
Proof.
  revert s. induction toks1 as [|t toks1 IH]; intros s; [reflexivity|]. cbn [nest_scan app]. destruct (nest_step s t); [apply IH | reflexivity..].
Qed.
Lemma nest_scan_inv toks : forall s s', nest_ok (levels s) (held_total s) -> 0 <= prefix_run s -> nest_scan s toks = Ok s' ->
  nest_ok (levels s') (held_total s') /\ 0 <= prefix_run s'.
Proof.
  induction toks as [|t toks IH]; intros s s' Hn Hr E; [now injection E as <-|]. apply scan_cons in E as (s1 & E1 & E).
  destruct (nest_step_inv s t s1 Hn Hr E1) as (? & ? & _). now apply (IH s1).
Qed.

Lemma opens_step s t s' : nest_ok (levels s) (held_total s) -> 0 <= prefix_run s -> opens_expression t = true -> nest_step s t = Ok s' -> ready s'.
Proof.
  intros Hn Hr Ht E. assert (state_ok s') as Ho by (apply (nest_step_ok s t); auto; now token t).
  cut (expect_operand s' = true /\ ident_pending s' = false); [intros []; now split|].
  destruct Hn as (Hne & _ & _). destruct s as [[|l ls] held run ex pe af]; [now destruct Hne|]. unfold nest_step, closes_caret_chain, clear_carets in E.
  destruct (usize_sub held (carets l)) as [held'|?|?] eqn:Eu; token t; cbn in E; rewrite ?andb_true_r, ?andb_false_r in E; cbn in E; rewrite ?Eu in E; cbn in E;
    repeat (match type of E with context [if ?b then _ else _] => destruct b end; cbn in E; rewrite ?Eu in E; cbn in E; try discriminate E);
    try discriminate E; injection E as <-; auto.
Qed.

Lemma clause_agree `{FloatText} pre t toks f g : check_nesting_depth (pre ++ t :: toks) = Ok tt -> opens_expression t = true ->
  no_factorial_product toks = true -> recursion_limit <= Z.of_nat f -> recursion_limit <= Z.of_nat g ->
  parse_expression_at f toks 0 = parse_expression_at g toks 0.
Proof.
  unfold check_nesting_depth. rewrite nest_scan_app. intros Hc Ht Hn Hf Hg. destruct (nest_scan nest_init pre) as [s|e|p] eqn:Es; [|discriminate..].
  cbn [outcome_bind] in Hc. destruct (nest_scan s (t :: toks)) as [z|e|p] eqn:Ez; [|discriminate..]. apply scan_cons in Ez as (s1 & E1 & Ez).
  destruct (nest_scan_inv pre nest_init s) as [Hok Hr]; [split; [easy | split; [now repeat constructor | reflexivity]] | cbn; lia | exact Es|].
  pose proof (opens_step s t s1 Hok Hr Ht E1) as Hready. pose proof (need_bounds 0 s1 ltac:(lia) (ready_ok s1 Hready)). unfold recursion_limit in *.
  apply (expression_agree f g z 0 s1 toks); auto; lia.
Qed.
