(* ===== verification/SqlExecute.v ===== *)
(** * Executing the text of a statement ([src/sql/execution/session.rs])

    [Session::execute] on the local engine: parse, plan, optimize and execute in
    the session's transaction, or in one of its own. *)
From S2P Require Import Prelude Bytes Keycode KeycodeTheory Btree Bincode Engine Mvcc MvccKeys MvccAbs MvccScan MvccSpec Float64 SqlValue SqlValueTheory SqlExpr SqlPlan SqlExec SqlOptimizer SqlSchema SqlLocal SqlLocalRep SqlLocalTheory SqlStatements SqlMvcc SqlSession SqlAst SqlPlanner SqlWf SqlPlannerTheory SqlPlanSafety SqlLexer SqlLexTheory SqlParser SqlParserTheory SqlStmtParser SqlParserSafety.

Section Execute.
Context {E : Type} `{Engine E}.
Context `{F64Pow, Regex, Unicode, FloatText}.
Context {BV : Bincode is_u64} {BS : Bincode all_u64} {BO : Bincode (@any (option bytes))}.
Context {BT : Bincode stored_table} {BR : Bincode stored_row} {BI : Bincode stored_ids}.
Context (test : bool).

(** [TryFrom<ExecutionResult> for StatementResult]: the rows are collected. *)
Definition statement_result (result : ExecutionResult) : outcome StatementResult :=
  match result with
  | RCreateTable name => Ok (ResultCreateTable name)
  | RDropTable name existed => Ok (ResultDropTable name existed)
  | RDelete count => Ok (ResultDelete count)
  | RInsert count => Ok (ResultInsert count)
  | RUpdate count => Ok (ResultUpdate count)
  | RSelect columns rows => let? rows := try_collect rows in Ok (ResultSelect columns rows)
  end.

(** The conversions of a result: its rows, its first row, and the first value. *)
Definition result_rows (result : StatementResult) : outcome Rows :=
  match result with
  | ResultSelect _ rows => Ok (map Ok rows)
  | _ => errdata "expected select result"
  end.
Definition result_row (result : StatementResult) : outcome Row :=
  let? rows := result_rows result in
  match rows with
  | [] => errdata "no rows returned"
  | row :: _ => row
  end.
Definition result_value (result : StatementResult) : outcome Value :=
  let? row := result_row result in
  match row with
  | [] => errdata "no columns returned"
  | value :: _ => Ok value
  end.
Definition value_bool (value : Value) : outcome bool := match value with Boolean b => Ok b | _ => errdata "not a boolean" end.
Definition value_f64 (value : Value) : outcome f64 := match value with Float f => Ok f | _ => errdata "not a float" end.
Definition value_i64 (value : Value) : outcome Z := match value with Integer i => Ok i | _ => errdata "not an integer" end.
Definition value_string (value : Value) : outcome bytes := match value with String s => Ok s | _ => errdata "not a string" end.

(** The SQL transaction over an MVCC transaction. *)
Definition sql_txn (txn : TransactionState) : Transaction E := local_transaction (H1 := mvcc_kv test txn).

(** [Plan::build(statement, txn)?.optimize()?] *)
Definition plan_statement (statement : Statement) (txn : TransactionState) (e : E) : outcome Plan :=
  let? plan := build (H1 := sql_txn txn) e statement in
  optimize plan.
Definition explain_statement (statement : Statement) (txn : TransactionState) : stM E StatementResult :=
  let! plan := st_read (plan_statement statement txn) in
  st_ret (ResultExplain plan).
Definition run_statement (statement : Statement) (txn : TransactionState) : stM E StatementResult :=
  let! plan := st_read (plan_statement statement txn) in
  let! result := execute (H1 := sql_txn txn) plan in
  st_lift (statement_result result).

Definition is_select (statement : Statement) : bool := match statement with SSelect _ => true | _ => false end.

Definition session_execute (statement : bytes) : stM Session StatementResult :=
  let! statement := st_lift (parse statement) in
  match statement with
  | SBegin read_only as_of => session_begin read_only as_of
  | SCommit => session_commit
  | SRollback => session_rollback
  | SExplain statement => with_txn true (explain_statement statement)
  | statement => with_txn (is_select statement) (run_statement statement)
  end.
End Execute.

(** ** Plans write through the transaction only *)
Section ExecuteRespects.
Context {T : Type} `{F64Pow, Regex, KvTransaction T}.
Context {BT : Bincode stored_table} {BR : Bincode stored_row} {BI : Bincode stored_ids}.
Context (Rel : T -> T -> Prop) `{!PreOrder Rel}.
Context (Hset : forall k v, respects Rel (kv_set k v)) (Hdelete : forall k, respects Rel (kv_delete k)).

Lemma execute_respects plan : respects Rel (execute plan).
Proof.
  assert (forall op, respects Rel (run_sql_op op)) as Hop.
  { intros op t. pose proof (run_sql_ops_respects Rel Hset Hdelete [op] t) as Hr. unfold run_sql_ops in Hr. cbn in Hr. unfold st_bind in Hr.
    now destruct (run_sql_op op t) as [[] ?]. }
  assert (forall n b, respects Rel (local_drop_table n b)) as Hdrop.
  { intros n b t. pose proof (Hop (OpDrop n b) t) as Hd. cbn in Hd. unfold st_bind in Hd. now destruct (local_drop_table n b t) as [[] ?]. }
  pose proof (fun tb => Hop (OpCreate tb)) as Hcreate. pose proof (fun n r => Hop (OpInsert n r)) as Hinsert.
  pose proof (fun n r => Hop (OpUpdate n r)) as Hupdate. pose proof (fun n r => Hop (OpDelete n r)) as Hdel. cbn [run_sql_op] in *.
  destruct plan as [tb|n ie|tb pk src|tb cm src|tb pk src es|root]; cbn [execute];
    unfold exec_delete, exec_insert, exec_update; cbn [create_table drop_table txn_delete txn_insert txn_update local_transaction]; solve_respects.
Qed.
End ExecuteRespects.

(** A query is planned as a query. *)
Definition is_query (p : Plan) : Prop := exists root, p = PSelect root.

Lemma build_select_query {T} `{F64Pow, Regex, Transaction T} (t : T) q : returns is_query (build t (SSelect q)).
Proof.
  cbn [build]. unfold build_select. apply returns_bind. intros [node scope]. apply returns_bind. intros select. apply returns_bind. intros filter.
  apply returns_bind. intros ns. apply returns_bind. intros [node' scope']. do 4 (apply returns_bind; intros ?). cbn. eexists. reflexivity.
Qed.
Lemma optimize_query `{F64Pow, Regex} p : is_query p -> returns is_query (optimize p).
Proof. intros [root ->]. cbn. apply returns_bind. intros r. cbn. now eexists. Qed.

(** ** A statement in a transaction of its own *)
Section Atomic.
Context {E : Type} `{EngineReads E} {EW : EngineWrites E}.
Context `{F64Pow, RegexSpec, Unicode, FloatText}.
Context {BV : Bincode is_u64} {BS : Bincode all_u64} {BO : Bincode (@any (option bytes))}.
Context {BT : Bincode stored_table} {BR : Bincode stored_row} {BI : Bincode stored_ids}.
Context (test : bool).

#[local] Instance keeps_preorder {X} (P : X -> Prop) : PreOrder (fun e e' => P e -> P e').
Proof. split; [intros e; auto | intros e1 e2 e3; auto]. Qed.

Lemma run_statement_framed n A0 st e : framed n A0 e -> framed n A0 (run_statement test st (mkTxn n false ∅) e).2.
Proof.
  pose proof (keeps_preorder (framed n A0)) as Hpre. apply (respects_bind (fun e e' => framed n A0 e -> framed n A0 e')); [now apply respects_read|].
  intros plan. apply respects_bind; [exact Hpre | | intros; now apply respects_lift].
  apply (execute_respects (H1 := mvcc_kv test (mkTxn n false ∅)) (fun e e' => framed n A0 e -> framed n A0 e')).
  - intros k v. exact (write_framed n A0 k (Some v)).
  - intros k. exact (write_framed n A0 k None).
Qed.

(** No transaction is open, and the next version is [n]. *)
Definition settled (n : Z) (e : E) : Prop := exists A, MvccAbs.db_rep e A /\ db_inv A /\ db_next A = n /\ db_active A = ∅.

(** A statement that succeeds is committed, one that fails is rolled back. *)
Lemma implicit_ends {A} n e D (f : TransactionState -> stM E A) :
  idle n e D -> n < u64_max -> (forall A0 e, framed n A0 e -> framed n A0 (f (mkTxn n false ∅) e).2) ->
  match implicit_txn false f e with
  | (Ok _, e') => settled (n + 1) e'
  | (Err _, e') => idle (n + 1) e' D
  | (Panic _, _) => True
  end.
Proof.
  intros (A0 & M & Hr & Hid & HM) Hn Hf. unfold implicit_txn. unfold st_bind at 1.
  destruct (begin_spec e A0 Hr (idle_inv n A0 M Hid)) as (e1 & -> & Hr1); [now rewrite (idle_next n A0 M Hid)|].
  rewrite (idle_next n A0 M Hid), (idle_active n A0 M Hid).
  pose proof (Hf A0 e1 (begin_framed n A0 M e1 Hid Hn Hr1)) as Hfr.
  destruct (f (mkTxn n false ∅) e1) as [[a|err|p] e2]; cbn [snd] in Hfr; [| |exact I].
  - destruct Hfr as (A1 & HrA & HiA & Hok & HnA & Ha & _). unfold st_bind.
    destruct (commit_spec e2 A1 (mkTxn n false ∅) HrA) as (e3 & -> & Hrc); [|reflexivity |].
    { pose proof (inv_next A1 HiA). unfold is_u64. cbn. lia. }
    exists (db_commit n A1). split; [exact Hrc|]. split; [now apply db_inv_commit|]. split; [exact HnA|]. cbn. rewrite Ha. set_solver.
  - unfold st_bind. destruct (rollback_idle n A0 e2 M D Hfr Hid Hn HM) as (e3 & -> & Hidle). exact Hidle.
Qed.

(** A read-only transaction leaves the engine alone. *)
Lemma implicit_read_only {A} n e D (f : TransactionState -> stM E A) :
  idle n e D -> (forall txn e, (f txn e).2 = e) -> (implicit_txn true f e).2 = e.
Proof.
  intros (A0 & M & Hr & Hid & _) Hf. unfold implicit_txn. unfold st_bind at 1.
  rewrite (begin_read_only_spec e A0 None Hr (idle_inv n A0 M Hid)) by discriminate.
  specialize (Hf (mkTxn (db_next A0) true (db_active A0)) e).
  destruct (f _ e) as [[a|err|p] e2]; cbn [snd] in Hf; subst e2; reflexivity.
Qed.

Lemma explain_reads st txn (e : E) : (explain_statement test st txn e).2 = e.
Proof. unfold explain_statement, st_bind, st_read. now destruct (plan_statement test st txn e). Qed.
Lemma plan_select_query txn (e : E) q : returns is_query (plan_statement test (SSelect q) txn e).
Proof. eapply returns_seq; [apply (build_select_query (H1 := sql_txn test txn) e q) | exact optimize_query]. Qed.
Lemma select_reads_only q txn (e : E) : (run_statement test (SSelect q) txn e).2 = e.
Proof.
  pose proof (plan_select_query txn e q) as Hs. unfold run_statement, st_bind, st_read.
  destruct (plan_statement test (SSelect q) txn e) as [p|err|s]; [|reflexivity..]. destruct Hs as [root ->].
  cbn [execute]. unfold st_lift, st_read, st_bind. destruct (try_collect _); [|reflexivity..]. now destruct (execute_node root e).
Qed.

(** One statement in a session without a transaction: the session is left without
    one, a read-only statement leaves the engine alone, a failed one leaves the
    contents, and no transaction of a successful one is left open. *)
Definition atomic {A} n (e : E) D (ro : bool) (r : outcome A * Session) : Prop :=
  ses_txn r.2 = None /\ (ro = true -> ses_engine r.2 = e) /\
  (forall err, r.1 = Err err -> idle n (ses_engine r.2) D \/ idle (n + 1) (ses_engine r.2) D) /\
  (ro = false -> forall a, r.1 = Ok a -> settled (n + 1) (ses_engine r.2)).

Lemma with_txn_atomic {A} n e D ro (f : TransactionState -> stM E A) :
  idle n e D -> n < u64_max ->
  (forall A0 e, framed n A0 e -> framed n A0 (f (mkTxn n false ∅) e).2) -> (ro = true -> forall txn e, (f txn e).2 = e) ->
  atomic n e D ro (with_txn ro f (mkSession e None)).
Proof.
  intros Hi Hn Hf Hro. unfold atomic, with_txn, st_bind, st_read. cbn [ses_txn]. unfold on_storage. cbn [ses_engine ses_txn].
  pose proof (implicit_ends n e D f Hi Hn Hf) as Hend. pose proof (fun E0 => implicit_read_only n e D f Hi (Hro E0)) as Hread.
  destruct ro.
  - specialize (Hread eq_refl). destruct (implicit_txn true f e) as [r e']. cbn in *. subst e'. repeat split; auto. discriminate.
  - destruct (implicit_txn false f e) as [r e']. cbn in *. split; [reflexivity|]. split; [easy|].
    split; [intros err ->; now right | intros _ a ->; exact Hend].
Qed.

Lemma run_statement_atomic n e D st :
  idle n e D -> n < u64_max -> atomic n e D (is_select st) (with_txn (is_select st) (run_statement test st) (mkSession e None)).
Proof.
  intros Hi Hn. apply with_txn_atomic; [assumption..| |].
  - intros A0 e0. apply run_statement_framed.
  - destruct st; try discriminate. intros _. apply select_reads_only.
Qed.
Lemma explain_statement_atomic n e D st :
  idle n e D -> n < u64_max -> atomic n e D true (with_txn true (explain_statement test st) (mkSession e None)).
Proof. intros Hi Hn. apply with_txn_atomic; [assumption.. | intros; now rewrite explain_reads | intros; apply explain_reads]. Qed.

(** ** The effect of a statement *)

(** The write of a statement: that of its plan, in the transaction that begins. *)
Definition statement_write (st : Statement) (e : E) : outcome (option sql_op) :=
  match begin e with
  | (Ok txn, e1) =>
      let? plan := plan_statement test st txn e1 in
      plan_write (H2 := mvcc_kv test txn) e1 plan
  | _ => Ok None
  end.

Lemma write_result (T1 : Transaction E) p (e e' : E) r :
  (forall root, p <> PSelect root) -> execute p e = (Ok r, e') -> exists a, statement_result r = Ok a.
Proof.
  intros Hp. destruct p as [tb|n ie|n pk src|tb cm src|tb pk src es|root]; [| | | | |now destruct (Hp root)].
  all: cbn [execute]; unfold exec_delete, exec_insert, exec_update, st_bind, st_read, st_lift, st_ret.
  all: repeat (case_match; try discriminate); intros [= <- <-]; now eexists.
Qed.

Section InTxn.
Context (txn : TransactionState) (D : sql_db) (e : E).
Context (Hrep : SqlLocalRep.db_rep (H1 := mvcc_kv test txn) (H2 := mvcc_kv_spec test txn) D e) (Hok : db_ok D).

Lemma run_write_soundly st :
  statement_ok st = true -> (forall q, st <> SSelect q) ->
  let write := (let? plan := plan_statement test st txn e in plan_write (H2 := mvcc_kv test txn) e plan) in
  (forall op, write = Ok (Some op) -> op_normal op) ->
  tame (run_statement test st txn e).1 (fun _ => exists op D', write = Ok (Some op) /\ op_effect D op D' /\ db_ok D' /\
    SqlLocalRep.db_rep (H1 := mvcc_kv test txn) (H2 := mvcc_kv_spec test txn) D' (run_statement test st txn e).2).
Proof.
  intros Hst Hs write Hn. pose proof (plan_of_wf D e Hrep Hok st Hst ltac:(intros q Hq; now destruct (Hs q))) as Hwf.
  pose proof (plan_of_write (H2 := mvcc_kv test txn) e st Hst Hs) as Hns. change (plan_of e st) with (plan_statement test st txn e) in Hwf, Hns.
  subst write. unfold run_statement, st_bind, st_read, st_lift.
  destruct (plan_statement test st txn e) as [p|err|msg]; [|exact Hwf..]. cbn [outcome_bind tame returns] in *.
  pose proof (plan_runs_soundly D e Hrep Hok p Hwf) as Hr. pose proof (write_result (sql_txn test txn) p e) as Hres.
  unfold runs_soundly in Hr. destruct (plan_write e p) as [[op|]|err|msg] eqn:Ew.
  - destruct Hr as (_ & _ & Hw). destruct (Hw (Hn op eq_refl)) as [_ Hs']. unfold writes_soundly in Hs'.
    change (execute p e) with (execute (H1 := sql_txn test txn) p e) in Hs'.
    destruct (execute p e) as [[r|err|m] e'] eqn:Ee; [|exact I|destruct Hs'].
    destruct (Hres e' r Hns eq_refl) as [a ->]. destruct Hs' as (D' & Hs'). exists op, D'. auto.
  - exfalso. destruct p as [| | | | |root]; cbn [plan_write] in Ew; try discriminate Ew; try (now apply (Hns root)).
    all: apply outcome_bind_ok in Ew as (? & _ & Ew); apply outcome_bind_ok in Ew as (? & _ & Ew); discriminate Ew.
  - change (execute p e) with (execute (H1 := sql_txn test txn) p e) in Hr. rewrite Hr. exact I.
  - change (execute p e) with (execute (H1 := sql_txn test txn) p e) in Hr. destruct Hr as [-> Hp]. exact Hp.
Qed.

(** The rows of a query have the columns of its header. *)
Definition table_result (r : StatementResult) : Prop :=
  exists cols rows, r = ResultSelect cols rows /\ Forall (fun row : Row => length row = length cols) rows.

Lemma run_select_soundly q :
  select_ok q = true -> right_join_last (st_from q) = true -> tame (run_statement test (SSelect q) txn e).1 table_result.
Proof.
  intros Hq Hj. pose proof (plan_of_wf D e Hrep Hok (SSelect q) Hq ltac:(intros ? [= <-]; exact Hj)) as Hwf.
  change (plan_of e (SSelect q)) with (plan_statement test (SSelect q) txn e) in Hwf.
  pose proof (plan_select_query txn e q) as Hs. unfold run_statement, st_bind, st_read, st_lift.
  destruct (plan_statement test (SSelect q) txn e) as [p|err|msg]; [|exact Hwf..]. destruct Hs as [root ->].
  pose proof (plan_runs_soundly D e Hrep Hok _ Hwf) as [_ Hr]. cbn [execute] in *. unfold st_bind, st_lift, st_read in *.
  destruct (try_collect _) as [cols|err|msg]; [|exact Hr..]. change (execute_node root e) with (execute_node (H1 := sql_txn test txn) root e) in Hr.
  destruct (execute_node root e) as [rows|err|msg]; [|exact Hr..]. cbn in Hr |- *.
  eapply tame_bind; [exact (tame_collect _ rows Hr)|]. intros rs [Hrs _]. now exists cols, rs.
Qed.
End InTxn.

(** A write outside a transaction takes effect, and is committed. *)
Lemma implicit_write n e D st :
  idle n e D -> n < u64_max -> db_ok D -> statement_ok st = true -> is_select st = false ->
  (forall op, statement_write st e = Ok (Some op) -> op_normal op) ->
  match implicit_txn false (run_statement test st) e with
  | (Ok _, e') => exists op D', statement_write st e = Ok (Some op) /\ op_effect D op D' /\ db_ok D' /\ idle (n + 1) e' D'
  | (Err _, _) => True
  | (Panic p, _) => tame (@Panic unit p) (fun _ => True)
  end.
Proof.
  intros (A0 & M & Hr & Hid & HM) Hn Ho Hst Hsel Hop. unfold statement_write in *. unfold implicit_txn. unfold st_bind at 1.
  destruct (begin_spec e A0 Hr (idle_inv n A0 M Hid)) as (e1 & E1 & Hr1); [now rewrite (idle_next n A0 M Hid)|]. rewrite E1 in *.
  rewrite (idle_next n A0 M Hid), (idle_active n A0 M Hid) in *. set (txn := mkTxn n false ∅) in *.
  assert (SqlLocalRep.db_rep (H1 := mvcc_kv test txn) (H2 := mvcc_kv_spec test txn) D e1) as Hrep.
  { exists M. split; [exists (db_begin A0); split; [exact Hr1 | now apply begin_idle] | exact HM]. }
  pose proof (run_write_soundly txn D e1 Hrep Ho st Hst ltac:(intros q ->; discriminate) Hop) as Hrun.
  pose proof (run_statement_framed n A0 st e1 (begin_framed n A0 M e1 Hid Hn Hr1)) as Hfr. fold txn in Hfr.
  destruct (run_statement test st txn e1) as [[a|err|p] e2]; cbn [fst snd tame] in *; [| |exact Hrun]; unfold st_bind; subst txn.
  - destruct Hrun as (op & D' & Hw & He & Ho' & M' & Hv' & HM').
    destruct (commit_idle n A0 e2 M' D' Hfr Hn Hv' HM') as (e3 & -> & Hidle). cbn. eauto 7.
  - now destruct (rollback_idle n A0 e2 M D Hfr Hid Hn HM) as (e3 & -> & _).
Qed.

(** A query outside a transaction reads the latest version. *)
Lemma read_only_view n e D : idle n e D ->
  SqlLocalRep.db_rep (H1 := mvcc_kv test (mkTxn n true ∅)) (H2 := mvcc_kv_spec test (mkTxn n true ∅)) D e.
Proof.
  intros (A & M & Hr & [Hi Hn Ha Hreads] & HM). exists M. split; [|exact HM]. exists A. split; [exact Hr|]. split.
  - exact Hi.
  - pose proof (inv_next A Hi). unfold is_u64. cbn. lia.
  - discriminate.
  - exact Hreads.
Qed.

Lemma implicit_select n e D q :
  idle n e D -> db_ok D -> select_ok q = true -> right_join_last (st_from q) = true ->
  tame (implicit_txn true (run_statement test (SSelect q)) e).1 table_result.
Proof.
  intros Hi Ho Hq Hj. pose proof (run_select_soundly (mkTxn n true ∅) D e (read_only_view n e D Hi) Ho q Hq Hj) as Hrun.
  destruct Hi as (A & M & Hr & [Hi <- Ha _] & _). unfold implicit_txn. unfold st_bind at 1.
  rewrite (begin_read_only_spec e A None Hr Hi) by discriminate. rewrite Ha.
  destruct (run_statement test (SSelect q) _ e) as [[a|err|p] e2]; exact Hrun.
Qed.

Definition reads_only (st : Statement) : bool := match st with SSelect _ | SExplain _ => true | _ => false end.

Lemma execute_parsed text st s : parse text = Ok st -> control st = false ->
  session_execute test text s = match st with
                                | SExplain st => with_txn true (explain_statement test st)
                                | st => with_txn (is_select st) (run_statement test st)
                                end s.
Proof. intros Ep Hc. unfold session_execute. unfold st_bind at 1, st_lift. rewrite Ep. now destruct st. Qed.

(** What the text of a statement does to the session and the storage, if it is
    no transaction control. *)
Lemma execute_atomic text n e D st :
  idle n e D -> n < u64_max -> parse text = Ok st -> control st = false ->
  atomic n e D (reads_only st) (session_execute test text (mkSession e None)).
Proof.
  intros Hi Hn Ep Hc. rewrite (execute_parsed text st) by assumption.
  destruct st; try discriminate Hc; first [now apply explain_statement_atomic | now apply (run_statement_atomic n e D)].
Qed.

Lemma execute_write text n e D st :
  idle n e D -> n < u64_max -> db_ok D -> parse text = Ok st -> statement_ok st = true -> reads_only st = false ->
  (forall op, statement_write st e = Ok (Some op) -> op_normal op) ->
  let r := session_execute test text (mkSession e None) in
  tame r.1 (fun _ => exists op D', statement_write st e = Ok (Some op) /\ op_effect D op D' /\ db_ok D' /\ idle (n + 1) (ses_engine r.2) D').
Proof.
  intros Hi Hn Ho Ep Hst Hro Hop. assert (is_select st = false) as Hsel by (destruct st; easy).
  rewrite (execute_parsed text st) by (try assumption; destruct st; easy).
  pose proof (implicit_write n e D st Hi Hn Ho Hst Hsel Hop) as Hw.
  assert (with_txn false (run_statement test st) (mkSession e None) =
    let (r, e') := implicit_txn false (run_statement test st) e in (r, mkSession e' None)) as Er by reflexivity.
  destruct (implicit_txn false (run_statement test st) e) as [[a|err|p] e']; destruct st; try discriminate; cbn [is_select] in *; rewrite Er; exact Hw.
Qed.

Lemma execute_select text n e D q :
  idle n e D -> n < u64_max -> db_ok D -> parse text = Ok (SSelect q) -> select_ok q = true -> right_join_last (st_from q) = true ->
  let r := session_execute test text (mkSession e None) in r.2 = mkSession e None /\ tame r.1 table_result.
Proof.
  intros Hi Hn Ho Ep Hq Hj r. pose proof (execute_atomic text n e D _ Hi Hn Ep eq_refl) as (Ht & He & _). fold r in Ht, He. split.
  - destruct r as [o [e' txn]]. cbn in *. now rewrite Ht, (He eq_refl).
  - subst r. rewrite (execute_parsed text (SSelect q)) by (assumption || reflexivity). pose proof (implicit_select n e D q Hi Ho Hq Hj) as Hs.
    unfold with_txn, st_bind, st_read. cbn [ses_txn is_select]. unfold on_storage. cbn [ses_engine].
    now destruct (implicit_txn true (run_statement test (SSelect q)) e).
Qed.
End Atomic.
