(* ===== verification/SqlRaft.v ===== *)
(** * The Raft SQL engine ([src/sql/engine/raft.rs])

    The engine sends its reads and writes as commands through Raft; a state
    machine on every node executes them on a local SQL engine, resuming the MVCC
    transaction that the command names.  [SqlState] is that state machine, an
    instance of the [State] that the Raft node drives; the client side sends
    requests to a Raft service. *)
From S2P Require Import Prelude Bytes Keycode Btree Bincode Engine Mvcc RaftLog RaftNode Float64 SqlValue SqlExpr SqlPlan SqlExec SqlSchema SqlLocal SqlMvcc SqlAst.

(** ** Commands *)
Inductive Read : Type :=
  | ReadBeginReadOnly (as_of : option Z)
  | ReadStatus
  | ReadGet (txn : TransactionState) (table : bytes) (ids : list Value)
  | ReadLookupIndex (txn : TransactionState) (table column : bytes) (values : list Value)
  | ReadScan (txn : TransactionState) (table : bytes) (filter : option Expression)
  | ReadGetTable (txn : TransactionState) (table : bytes)
  | ReadListTables (txn : TransactionState).

Inductive Write : Type :=
  | WriteBegin
  | WriteCommit (txn : TransactionState)
  | WriteRollback (txn : TransactionState)
  | WriteDelete (txn : TransactionState) (table : bytes) (ids : list Value)
  | WriteInsert (txn : TransactionState) (table : bytes) (rows : list Row)
  | WriteUpdate (txn : TransactionState) (table : bytes) (rows : list (Value * Row))
  | WriteCreateTable (txn : TransactionState) (schema : Table)
  | WriteDropTable (txn : TransactionState) (table : bytes) (if_exists : bool).

(** Values are normalized when they are serialized. *)
Fixpoint normalize_expr (e : Expression) : Expression :=
  match e with
  | Constant v => Constant (normalize v)
  | Column i => Column i
  | And l r => And (normalize_expr l) (normalize_expr r)
  | Or l r => Or (normalize_expr l) (normalize_expr r)
  | Not e => Not (normalize_expr e)
  | Equal l r => Equal (normalize_expr l) (normalize_expr r)
  | GreaterThan l r => GreaterThan (normalize_expr l) (normalize_expr r)
  | LessThan l r => LessThan (normalize_expr l) (normalize_expr r)
  | Is e v => Is (normalize_expr e) (normalize v)
  | Add l r => Add (normalize_expr l) (normalize_expr r)
  | Divide l r => Divide (normalize_expr l) (normalize_expr r)
  | Exponentiate l r => Exponentiate (normalize_expr l) (normalize_expr r)
  | Factorial e => Factorial (normalize_expr e)
  | Identity e => Identity (normalize_expr e)
  | Multiply l r => Multiply (normalize_expr l) (normalize_expr r)
  | Negate e => Negate (normalize_expr e)
  | Remainder l r => Remainder (normalize_expr l) (normalize_expr r)
  | SquareRoot e => SquareRoot (normalize_expr e)
  | Subtract l r => Subtract (normalize_expr l) (normalize_expr r)
  | Like l r => Like (normalize_expr l) (normalize_expr r)
  end.
Definition normalize_read (command : Read) : Read :=
  match command with
  | ReadGet txn table ids => ReadGet txn table (map normalize ids)
  | ReadLookupIndex txn table column values => ReadLookupIndex txn table column (map normalize values)
  | ReadScan txn table filter => ReadScan txn table (normalize_expr <$> filter)
  | command => command
  end.
Definition normalize_write (command : Write) : Write :=
  match command with
  | WriteDelete txn table ids => WriteDelete txn table (map normalize ids)
  | WriteInsert txn table rows => WriteInsert txn table (map (map normalize) rows)
  | WriteUpdate txn table rows => WriteUpdate txn table (map (prod_map normalize (map normalize)) rows)
  | WriteCreateTable txn schema => WriteCreateTable txn (normalize_table schema)
  | command => command
  end.

(** ** What is encoded: values of the Rust types, in normalized form *)
Definition txn_ok (t : TransactionState) : Prop := is_u64 (version t) /\ all_u64 (active t).
Fixpoint stored_expr (e : Expression) : Prop :=
  match e with
  | Constant v => stored v
  | Column _ => True
  | Is e v => stored_expr e /\ stored v
  | Not e | Factorial e | Identity e | Negate e | SquareRoot e => stored_expr e
  | And l r | Or l r | Equal l r | GreaterThan l r | LessThan l r | Add l r | Divide l r | Exponentiate l r
  | Multiply l r | Remainder l r | Subtract l r | Like l r => stored_expr l /\ stored_expr r
  end.
Definition read_ok (command : Read) : Prop :=
  match command with
  | ReadBeginReadOnly as_of => forall v, as_of = Some v -> is_u64 v
  | ReadStatus => True
  | ReadGet txn table ids => txn_ok txn /\ utf8_valid table = true /\ Forall stored ids
  | ReadLookupIndex txn table column values =>
      txn_ok txn /\ utf8_valid table = true /\ utf8_valid column = true /\ Forall stored values
  | ReadScan txn table filter => txn_ok txn /\ utf8_valid table = true /\ forall e, filter = Some e -> stored_expr e
  | ReadGetTable txn table => txn_ok txn /\ utf8_valid table = true
  | ReadListTables txn => txn_ok txn
  end.
Definition stored_updates (rows : list (Value * Row)) : Prop :=
  Forall (fun ir => stored ir.1 /\ stored_row ir.2) rows /\ StronglySorted value_lt rows.*1.
Definition write_ok (command : Write) : Prop :=
  match command with
  | WriteBegin => True
  | WriteCommit txn | WriteRollback txn => txn_ok txn
  | WriteDelete txn table ids => txn_ok txn /\ utf8_valid table = true /\ Forall stored ids
  | WriteInsert txn table rows => txn_ok txn /\ utf8_valid table = true /\ Forall stored_row rows
  | WriteUpdate txn table rows => txn_ok txn /\ utf8_valid table = true /\ stored_updates rows
  | WriteCreateTable txn schema => txn_ok txn /\ stored_table schema
  | WriteDropTable txn table _ => txn_ok txn /\ utf8_valid table = true
  end.
Definition status_ok (s : MvccStatus) : Prop :=
  is_u64 (status_versions s) /\ is_u64 (status_active_txns s).

(** [bincode] for the commands and their results. *)
Class RaftCodec : Type := {
  write_codec :: Bincode write_ok;
  read_codec :: Bincode read_ok;
  txn_codec :: Bincode txn_ok;
  unit_codec :: Bincode (@any unit);
  bool_codec :: Bincode (@any bool);
  rows_codec :: Bincode (Forall stored_row);
  opt_table_codec :: Bincode (fun o => forall tb, o = Some tb -> stored_table tb);
  tables_codec :: Bincode (Forall stored_table);
  status_codec :: Bincode status_ok;
}.
Definition encode_write `{RaftCodec} (w : Write) : bytes := bincode_serialize (normalize_write w).
Definition encode_read `{RaftCodec} (r : Read) : bytes := bincode_serialize (normalize_read r).
Definition decode_write `{RaftCodec} : bytes -> outcome Write := bincode_deserialize.
Definition decode_read `{RaftCodec} : bytes -> outcome Read := bincode_deserialize.
Definition encode_rows `{RaftCodec} (rows : list Row) : bytes := bincode_serialize (valid := Forall stored_row) (map (map normalize) rows).
Definition encode_opt_table `{RaftCodec} (o : option Table) : bytes :=
  bincode_serialize (valid := fun o => forall tb, o = Some tb -> stored_table tb) (normalize_table <$> o).
Definition encode_tables `{RaftCodec} (tables : list Table) : bytes :=
  bincode_serialize (valid := Forall stored_table) (map normalize_table tables).

Definition APPLIED_INDEX_KEY : bytes := name_of "applied_index".

(** ** The state machine *)
Record SqlState (E : Type) : Type := mkSqlState {
  local : E;
  applied_index : Index;
}.
Arguments mkSqlState {E}.
Arguments local {E}.
Arguments applied_index {E}.

Section StateMachine.
Context {E : Type} `{Engine E} `{F64Pow, Regex}.
Context {BV : Bincode is_u64} {BS : Bincode all_u64} {BO : Bincode (@any (option bytes))}.
Context {BT : Bincode stored_table} {BR : Bincode stored_row} {BI : Bincode stored_ids} `{RaftCodec}.
Context (test : bool).

Definition state_new (engine : E) : outcome (SqlState E) :=
  let (r, engine) := get_unversioned APPLIED_INDEX_KEY engine in
  let? o := r in
  let? applied_index := match o with Some b => bincode_deserialize (valid := is_u64) b | None => Ok 0 end in
  Ok (mkSqlState engine applied_index).

(** [self.local.resume(txn)?], and an operation of the resumed transaction. *)
Definition local_txn (txn : TransactionState) : Transaction E := local_transaction (H1 := mvcc_kv test txn).
Definition resumed {A} (txn : TransactionState) (f : Transaction E -> stM E A) : stM E A :=
  let! txn := resume txn in f (local_txn txn).

Definition state_write (command : Write) : stM E bytes :=
  match command with
  | WriteBegin => let! txn := begin in st_ret (bincode_serialize (valid := txn_ok) txn)
  | WriteCommit txn =>
      let! txn := resume txn in let! r := Mvcc.commit txn in st_ret (bincode_serialize (valid := any) r)
  | WriteRollback txn =>
      let! txn := resume txn in let! r := Mvcc.rollback txn in st_ret (bincode_serialize (valid := any) r)
  | WriteDelete txn table ids =>
      let! r := resumed txn (fun K => @SqlExec.txn_delete E K table ids) in st_ret (bincode_serialize (valid := any) r)
  | WriteInsert txn table rows =>
      let! r := resumed txn (fun K => @SqlExec.txn_insert E K table rows) in st_ret (bincode_serialize (valid := any) r)
  | WriteUpdate txn table rows =>
      let! r := resumed txn (fun K => @SqlExec.txn_update E K table rows) in st_ret (bincode_serialize (valid := any) r)
  | WriteCreateTable txn schema =>
      let! r := resumed txn (fun K => @SqlExec.create_table E K schema) in st_ret (bincode_serialize (valid := any) r)
  | WriteDropTable txn table if_exists =>
      let! r := resumed txn (fun K => @SqlExec.drop_table E K table if_exists) in st_ret (bincode_serialize (valid := any) r)
  end.

(** [apply]; an undecodable command returns early. *)
Definition record_applied (entry : Entry) (result : outcome bytes) (engine : E) : outcome bytes * SqlState E :=
  let (r, engine) := set_unversioned APPLIED_INDEX_KEY (bincode_serialize (valid := is_u64) (index entry)) engine in
  (let? _ := r in result, mkSqlState engine (index entry)).
Definition apply (entry : Entry) : stM (SqlState E) bytes := fun s =>
  if negb (index entry =? u64_add (applied_index s) 1) then (Panic "entry index not after applied index", s)
  else
    match command entry with
    | None => record_applied entry (Ok []) (local s)
    | Some command =>
        match decode_write command with
        | Err e => (Err e, s)
        | Panic p => (Panic p, s)
        | Ok command =>
            match state_write command (local s) with
            | (Panic p, engine) => (Panic p, mkSqlState engine (applied_index s))
            | (Err e, engine) =>
                if negb (is_deterministic e) then (Panic "non-deterministic apply failure", mkSqlState engine (applied_index s))
                else record_applied entry (Err e) engine
            | (Ok result, engine) => record_applied entry (Ok result) engine
            end
        end
    end.

(** [read]; the engine is not changed. *)
Definition on_engine {A} (m : stM E A) (e : E) : outcome A := (m e).1.
Definition resumed_read {A} (txn : TransactionState) (f : Transaction E -> E -> outcome A) (e : E) : outcome A :=
  let? txn := on_engine (resume txn) e in f (local_txn txn) e.
Definition run_read (command : Read) (e : E) : outcome bytes :=
  match command with
  | ReadBeginReadOnly as_of => outcome_map (bincode_serialize (valid := txn_ok)) (on_engine (begin_read_only as_of) e)
  | ReadStatus => outcome_map (bincode_serialize (valid := status_ok)) (on_engine mvcc_status e)
  | ReadGet txn table ids => outcome_map encode_rows (resumed_read txn (fun K => @SqlExec.txn_get E K table ids) e)
  | ReadLookupIndex txn table column values =>
      outcome_map encode_ids (resumed_read txn (fun K => @SqlExec.txn_lookup_index E K table column values) e)
  | ReadScan txn table filter =>
      let? rows := resumed_read txn (fun K => @SqlExec.txn_scan E K table filter) e in
      outcome_map encode_rows (try_collect rows)
  | ReadGetTable txn table =>
      outcome_map encode_opt_table (resumed_read txn (fun K => @SqlExec.get_table E K table) e)
  | ReadListTables txn => outcome_map encode_tables (resumed_read txn (fun K => @SqlExec.list_tables E K) e)
  end.
Definition read (command : bytes) (s : SqlState E) : outcome bytes :=
  let? command := decode_read command in run_read command (local s).

#[export] Instance sql_state : State (SqlState E) := {
  get_applied_index := applied_index;
  state_apply := apply;
  state_read := read;
}.
End StateMachine.

(** ** The client side

    [Raft::request] sends a request to the Raft cluster and waits for the
    response; the cluster is a parameter. *)
Class RaftService (C : Type) : Type := {
  raft_request : Request -> stM C Response;
}.

Section Client.
Context {C : Type} `{RaftService C} `{RaftCodec} {BI : Bincode stored_ids}.

Definition raft_write {V} (valid : V -> Prop) `{!Bincode valid} (w : Write) : stM C V :=
  let! response := raft_request (ReqWrite (encode_write w)) in
  match response with
  | RespWrite response => st_lift (bincode_deserialize (valid := valid) response)
  | _ => st_err (InvalidData "unexpected Raft write response")
  end.
Definition raft_read {V} (valid : V -> Prop) `{!Bincode valid} (r : Read) : stM C V :=
  let! response := raft_request (ReqRead (encode_read r)) in
  match response with
  | RespRead response => st_lift (bincode_deserialize (valid := valid) response)
  | _ => st_err (InvalidData "unexpected Raft read response")
  end.
Definition raft_status : stM C (RaftStatus * MvccStatus) :=
  let! response := raft_request ReqStatus in
  match response with
  | RespStatus raft => let! mvcc := raft_read status_ok ReadStatus in st_ret (raft, mvcc)
  | _ => st_err (InvalidData "unexpected Raft status response")
  end.

(** [Transaction::begin], and the three ways the engine calls it. *)
Definition raft_transaction_begin (read_only : bool) (as_of : option Z) : stM C TransactionState :=
  match as_of, read_only with
  | Some _, false => st_panic "can't use as_of without read_only"
  | _, _ =>
      if read_only || bool_decide (is_Some as_of) then raft_read txn_ok (ReadBeginReadOnly as_of)
      else raft_write txn_ok WriteBegin
  end.
Definition raft_begin : stM C TransactionState := raft_transaction_begin false None.
Definition raft_begin_read_only : stM C TransactionState := raft_transaction_begin true None.
Definition raft_begin_as_of (version : Z) : stM C TransactionState := raft_transaction_begin true (Some version).

Section Txn.
Context (txn : TransactionState).

Definition raft_commit : stM C unit := if read_only txn then st_ret tt else raft_write any (WriteCommit txn).
Definition raft_rollback : stM C unit := if read_only txn then st_ret tt else raft_write any (WriteRollback txn).
Definition raft_delete (table : bytes) (ids : list Value) : stM C unit := raft_write any (WriteDelete txn table ids).
Definition raft_get (table : bytes) (ids : list Value) : stM C (list Row) := raft_read (Forall stored_row) (ReadGet txn table ids).
Definition raft_insert (table : bytes) (rows : list Row) : stM C unit := raft_write any (WriteInsert txn table rows).
Definition raft_lookup_index (table column : bytes) (values : list Value) : stM C (list Value) :=
  raft_read stored_ids (ReadLookupIndex txn table column values).
Definition raft_scan (table : bytes) (filter : option Expression) : stM C Rows :=
  let! scan := raft_read (Forall stored_row) (ReadScan txn table filter) in st_ret (map Ok scan).
Definition raft_update (table : bytes) (rows : list (Value * Row)) : stM C unit := raft_write any (WriteUpdate txn table rows).
Definition raft_create_table (schema : Table) : stM C unit := raft_write any (WriteCreateTable txn schema).
Definition raft_drop_table (table : bytes) (if_exists : bool) : stM C bool := raft_write any (WriteDropTable txn table if_exists).
Definition raft_get_table (table : bytes) : stM C (option Table) :=
  raft_read (fun o => forall tb, o = Some tb -> stored_table tb) (ReadGetTable txn table).
Definition raft_list_tables : stM C (list Table) := raft_read (Forall stored_table) (ReadListTables txn).
End Txn.

(** [Session::with_txn] on this engine, outside of an open transaction. *)
Definition raft_implicit_txn {A} (read_only : bool) (f : TransactionState -> stM C A) : stM C A :=
  let! txn := (if read_only then raft_begin_read_only else raft_begin) in
  fun c =>
    match f txn c with
    | (Ok a, c) => (raft_commit txn ;;; st_ret a) c
    | (Err err, c) => (raft_rollback txn ;;; st_err err) c
    | (Panic p, c) => (Panic p, c)
    end.
End Client.

(** ** What the engine relies on of the cluster

    The log is applied to the state machine entry by entry.  A command whose
    client got no answer is outstanding: it may still be applied, at any later
    point, or never.  [RaftServiceSpec] is an interface: what the SQL engine
    assumes of the Raft cluster behind [Raft::request], a whole cluster of nodes
    with its channels.  It is not derived from the model of a node; the safety
    theorems of that model are the reason to expect it. *)
Section Service.
Context {E : Type} `{Engine E} `{F64Pow, Regex}.
Context {BV : Bincode is_u64} {BS : Bincode all_u64} {BO : Bincode (@any (option bytes))}.
Context {BT : Bincode stored_table} {BR : Bincode stored_row} {BI : Bincode stored_ids} `{RaftCodec}.
Context (test : bool).

Definition next_entry (s : SqlState E) (term : Term) (command : option bytes) : Entry :=
  mkEntry (u64_add (applied_index s) 1) term command.

(** The cluster as its clients see it: the outstanding commands and the state
    machine.  An election appends an empty entry. *)
Definition cluster : Type := list bytes * SqlState E.
Inductive advance : cluster -> outcome bytes -> cluster -> Prop :=
  | advance_noop l s term r s' : apply test (next_entry s term None) s = (r, s') -> advance (l, s) r (l, s')
  | advance_pending l1 command l2 s term r s' :
      apply test (next_entry s term (Some command)) s = (r, s') -> advance (l1 ++ command :: l2, s) r (l1 ++ l2, s').
Definition reaches : cluster -> cluster -> Prop := rtc (fun x y => exists r, advance x r y).

(** No node panics, whatever is applied next. *)
Definition never_panics (x : cluster) : Prop :=
  forall y r z, reaches x y -> advance y r z -> forall p, r <> Panic p.

(** A request without an answer: the node aborted it, or its channel has failed
    when sending or receiving, [Error::IO].  (A command that could not be sent
    counts as outstanding, and is never applied.) *)
Definition no_answer (er : Error) : Prop := match er with Abort | IO _ => True | _ => False end.

Class RaftServiceSpec (C : Type) `{RaftService C} : Type := {
  service : C -> cluster;
  service_write command c r c' :
    raft_request (ReqWrite command) c = (r, c') -> never_panics (command :: (service c).1, (service c).2) ->
    exists l s, reaches (service c) (l, s) /\
      ((exists er, r = Err er /\ no_answer er /\ service c' = (command :: l, s)) \/
       exists term result s', apply test (next_entry s term (Some command)) s = (result, s') /\
         r = outcome_map RespWrite result /\ service c' = (l, s'));
  service_read command c r c' :
    raft_request (ReqRead command) c = (r, c') -> never_panics (service c) ->
    reaches (service c) (service c') /\
    ((exists er, r = Err er /\ no_answer er) \/ r = outcome_map RespRead (read test command (service c').2));
}.
End Service.
