(* ===== verification/SqlRaftTheory.v ===== *)
(** * The Raft SQL engine executes transactions on the replicated database

    Commands survive their encoding, the applied index does not touch the
    versioned data, and a request is related to what it does on the state
    machine, whether it is answered or left outstanding. *)
From S2P Require Import Prelude Bytes Keycode KeycodeTheory Btree Bincode Engine RaftLog RaftNode Float64 SqlValue SqlValueTheory SqlExpr SqlPlan SqlExec SqlSchema SqlLocal SqlLocalRep SqlLocalTheory SqlStatements Mvcc MvccKeys MvccAbs MvccScan MvccSpec SqlMvcc SqlSession SqlRaft.

(** ** Encoded commands are in normal form *)
Lemma normalize_stored_value v : stored v -> normalize v = v.
Proof. intros Hv. pose proof (normalize_stored [v] ltac:(now apply Forall_singleton)) as E1. cbn in E1. congruence. Qed.
Lemma normalize_stored_rows rows : Forall stored_row rows -> map (map normalize) rows = rows.
Proof. induction 1 as [|row rows Hr _ IH]; cbn; [reflexivity|]. now rewrite IH, normalize_stored. Qed.
Lemma normalize_stored_tables tables : Forall stored_table tables -> map normalize_table tables = tables.
Proof. induction 1 as [|tb tables Ht _ IH]; cbn; [reflexivity|]. now rewrite IH, normalize_stored_table. Qed.
Lemma normalize_stored_expr e : stored_expr e -> normalize_expr e = e.
Proof.
  induction e; cbn; intros Hs; try reflexivity; repeat match goal with H : _ /\ _ |- _ => destruct H end;
    f_equal; auto using normalize_stored_value.
Qed.
Lemma normalize_read_ok r : read_ok r -> normalize_read r = r.
Proof.
  destruct r as [a| |t n ids|t n c vs|t n [f|]|t n|t]; cbn; try reflexivity.
  - intros (_ & _ & Hi). now rewrite normalize_stored.
  - intros (_ & _ & _ & Hi). now rewrite normalize_stored.
  - intros (_ & _ & Hf). now rewrite normalize_stored_expr by auto.
Qed.
Lemma normalize_write_ok w : write_ok w -> normalize_write w = w.
Proof.
  destruct w as [|t|t|t n ids|t n rows|t n rows|t tb|t n b]; cbn; try reflexivity.
  - intros (_ & _ & Hi). now rewrite normalize_stored.
  - intros (_ & _ & Hi). now rewrite normalize_stored_rows.
  - intros (_ & _ & Hi & _). f_equal. induction Hi as [|[id row] rows [Hid Hr] _ IH]; cbn; [reflexivity|].
    cbn in Hid, Hr. now rewrite IH, normalize_stored_value, normalize_stored.
  - intros (_ & Ht). now rewrite normalize_stored_table.
Qed.

Lemma write_roundtrip `{RaftCodec} w : write_ok w -> decode_write (encode_write w) = Ok w.
Proof. intros Hw. unfold decode_write, encode_write. rewrite normalize_write_ok by exact Hw. now apply bincode_roundtrip. Qed.
Lemma read_roundtrip `{RaftCodec} r : read_ok r -> decode_read (encode_read r) = Ok r.
Proof. intros Hr. unfold decode_read, encode_read. rewrite normalize_read_ok by exact Hr. now apply bincode_roundtrip. Qed.

(** ** Unversioned keys and the versioned data *)
Lemma db_inv_unversioned A k v : db_inv A -> db_inv (db_set_unversioned k v A).
Proof. now intros []. Qed.
Lemma view_unversioned txn A M k v : view_ok txn A M -> view_ok txn (db_set_unversioned k v A) M.
Proof. intros [Hi Hu Hrw Hr]. split; [now apply db_inv_unversioned | exact Hu | exact Hrw | exact Hr]. Qed.
Lemma idle_at_unversioned n A M k v : idle_at n A M -> idle_at n (db_set_unversioned k v A) M.
Proof. intros [Hi Hn Ha Hr]. split; [now apply db_inv_unversioned | exact Hn | exact Ha | exact Hr]. Qed.

Section Theory.
Context {E : Type} `{EngineReads E} {EW : EngineWrites E} `{F64Pow, Regex}.
Context {BV : Bincode is_u64} {BS : Bincode all_u64} {BO : Bincode (@any (option bytes))}.
Context {BT : Bincode stored_table} {BR : Bincode stored_row} {BI : Bincode stored_ids} `{RaftCodec}.
Context (test : bool).

Lemma set_unversioned_spec e A k v :
  db_rep e A -> exists e', set_unversioned k v e = (Ok tt, e') /\ db_rep e' (db_set_unversioned k v A).
Proof.
  intros Hr. apply (set_key_spec e A _ (Unversioned k) v Hr I). intros K' _.
  destruct K' as [| | | | |k']; try reflexivity. cbn. destruct (decide (k' = k)) as [->|Hne].
  - rewrite decide_True by reflexivity. now rewrite lookup_insert_eq.
  - rewrite decide_False by congruence. now rewrite lookup_insert_ne.
Qed.

(** What does not depend on unversioned keys. *)
Definition stable (P : E -> Prop) : Prop :=
  forall e k v, P e -> exists e', set_unversioned k v e = (Ok tt, e') /\ P e'.

Lemma stable_rep (Phi : mvcc_db -> Prop) :
  (forall A k v, Phi A -> Phi (db_set_unversioned k v A)) -> stable (fun e => exists A, db_rep e A /\ Phi A).
Proof.
  intros Hs e k v (A & Hr & Hp). destruct (set_unversioned_spec e A k v Hr) as (e' & -> & Hr'). eauto 6.
Qed.
Lemma stable_iff P Q : (forall e, P e <-> Q e) -> stable P -> stable Q.
Proof. intros Hi Hs e k v Hq. apply Hi in Hq. destruct (Hs e k v Hq) as (e' & Es & Hp). exists e'. split; [exact Es | now apply Hi]. Qed.
Lemma stable_and P Q : stable P -> stable Q -> stable (fun e => P e /\ Q e).
Proof.
  intros Hp Hq e k v [H5 H6]. destruct (Hp e k v H5) as (e' & E1 & H7). destruct (Hq e k v H6) as (e'' & E2 & H8).
  rewrite E1 in E2. injection E2 as <-. eauto.
Qed.
Lemma stable_or P Q : stable P -> stable Q -> stable (fun e => P e \/ Q e).
Proof.
  intros Hp Hq e k v [H5|H6]; [destruct (Hp e k v H5) as (e' & E1 & H7) | destruct (Hq e k v H6) as (e' & E1 & H7)]; eauto.
Qed.
Lemma stable_ex {X} (P : X -> E -> Prop) : (forall x, stable (P x)) -> stable (fun e => exists x, P x e).
Proof. intros Hs e k v [x Hp]. destruct (Hs x e k v Hp) as (e' & E1 & H7). eauto. Qed.
Lemma stable_pure (X : Prop) P : stable P -> stable (fun e => X /\ P e).
Proof. intros Hs e k v [Hx Hp]. destruct (Hs e k v Hp) as (e' & E1 & H7). eauto. Qed.
Lemma stable_imp (X : Prop) P Q : stable Q -> stable P -> stable (fun e => Q e /\ (X -> P e)).
Proof.
  intros Hq Hs e k v [HQ HP]. destruct (Hq e k v HQ) as (e' & E1 & H7). exists e'. split; [exact E1|]. split; [exact H7|].
  intros x. destruct (Hs e k v (HP x)) as (e'' & E2 & H8). congruence.
Qed.

(** ** Applying an entry *)
Lemma record_applied_spec P entry result e :
  stable P -> P e -> exists s', record_applied entry result e = (result, s') /\ P (local s').
Proof.
  intros Hs Hp. unfold record_applied.
  destruct (Hs e APPLIED_INDEX_KEY (bincode_serialize (valid := is_u64) (index entry)) Hp) as (e' & -> & Hp'). eauto.
Qed.

Lemma apply_noop P s term :
  stable P -> P (local s) -> exists s', apply test (next_entry s term None) s = (Ok [], s') /\ P (local s').
Proof. intros Hs Hp. unfold apply. cbn [next_entry index command]. rewrite Z.eqb_refl. cbn [negb]. now apply record_applied_spec. Qed.

(** A result that all replicas share. *)
Definition shared {A} (r : outcome A) : Prop :=
  match r with Ok _ => True | Err e => is_deterministic e = true | Panic _ => False end.

Lemma apply_write P w s term r e :
  write_ok w -> state_write test w (local s) = (r, e) -> shared r -> stable P -> P e ->
  exists s', apply test (next_entry s term (Some (encode_write w))) s = (r, s') /\ P (local s').
Proof.
  intros Hw Ew Hr Hs Hp. unfold apply. cbn [next_entry index command]. rewrite Z.eqb_refl, write_roundtrip by exact Hw. cbn [negb].
  rewrite Ew. destruct r as [b|er|p]; cbn in Hr; [|rewrite Hr; cbn [negb]|destruct Hr]; now apply record_applied_spec.
Qed.

(** ** Invariants of the cluster

    A property of the outstanding commands and the engine, kept by whatever the
    cluster may apply next. *)
Definition holds (J : list Write -> E -> Prop) (x : cluster) : Prop :=
  exists ws, x.1 = map encode_write ws /\ Forall write_ok ws /\ J ws (local x.2).

Record kept (J : list Write -> E -> Prop) : Prop := {
  kept_stable ws : stable (J ws);
  kept_pending ws1 w ws2 e r e' :
    J (ws1 ++ w :: ws2) e -> state_write test w e = (r, e') -> shared r /\ J (ws1 ++ ws2) e';
}.

Lemma kept_advance J x r y : kept J -> holds J x -> advance test x r y -> shared r /\ holds J y.
Proof.
  intros [Hs Hk] (ws & El & Hws & HJ) Ha. destruct Ha as [l s term r s' Ea|l1 command l2 s term r s' Ea]; cbn in El, HJ.
  - destruct (apply_noop (J ws) s term (Hs ws) HJ) as (s1 & E1 & HJ'). rewrite Ea in E1. injection E1 as -> ->.
    split; [exact I|]. exists ws. auto.
  - symmetry in El. apply map_eq_app in El as (ws1 & ws' & -> & E1 & E2). destruct ws' as [|w ws2]; [discriminate|].
    cbn in E2. injection E2 as E2 E3. subst l1 l2 command. apply Forall_app in Hws as [Hw1 [Hw Hw2]%Forall_cons].
    destruct (state_write test w (local s)) as [r0 e0] eqn:Ew. destruct (Hk ws1 w ws2 _ _ _ HJ Ew) as [Hr HJ'].
    destruct (apply_write (J (ws1 ++ ws2)) w s term r0 e0 Hw Ew Hr (Hs _) HJ') as (s1 & E1 & HJ1). rewrite Ea in E1. injection E1 as -> ->.
    split; [exact Hr|]. exists (ws1 ++ ws2). cbn. rewrite map_app. split; [reflexivity|]. split; [now apply Forall_app | exact HJ1].
Qed.

Lemma kept_reaches J x y : kept J -> reaches test x y -> holds J x -> holds J y.
Proof. intros Hk. induction 1 as [x|x y z [r Ha] _ IH]; [auto|]. intros HJ. apply IH. now apply (kept_advance J x r y). Qed.

Lemma kept_never_panics J x : kept J -> holds J x -> never_panics test x.
Proof.
  intros Hk HJ y r z Hr Ha p ->. destruct (kept_advance J y (Panic p) z Hk) as [[] _]; [|exact Ha]. now apply (kept_reaches J x).
Qed.

(** A write request, from [J]: its answer is that of the command on the state
    machine, or it is left outstanding, in [JA]. *)
Section Requests.
Context {C : Type} `{RaftService C} `{!RaftServiceSpec test C}.

Lemma raft_write_holds {V} (valid : V -> Prop) `{!Bincode valid} w J JA (Q : V -> list Write -> E -> Prop) (QE : list Write -> E -> Prop) c :
  write_ok w -> kept J -> kept JA -> (forall ws e, J ws e -> JA (w :: ws) e) ->
  (forall v ws, stable (Q v ws)) -> (forall ws, stable (QE ws)) ->
  (forall ws e r e', J ws e -> state_write test w e = (r, e') ->
     match r with
     | Ok b => exists v, b = bincode_serialize v /\ valid v /\ Q v ws e'
     | Err er => is_deterministic er = true /\ QE ws e'
     | Panic _ => False
     end) ->
  holds J (service test c) ->
  match raft_write valid w c with
  | (Ok v, c') => holds (Q v) (service test c')
  | (Err er, c') => (no_answer er /\ holds JA (service test c')) \/ holds QE (service test c')
  | (Panic _, _) => False
  end.
Proof.
  intros Hw HkJ HkA Hcons HsQ HsE Hrun HJ. unfold raft_write, st_bind.
  destruct (raft_request (ReqWrite (encode_write w)) c) as [r c'] eqn:Er.
  destruct (service_write test (encode_write w) c r c' Er) as (l & s & Hreach & Hcase).
  { apply (kept_never_panics JA); [exact HkA|]. destruct HJ as (ws & El & Hws & HJ). exists (w :: ws). cbn.
    rewrite El. split; [reflexivity|]. split; [now constructor | now apply Hcons]. }
  destruct (kept_reaches J _ _ HkJ Hreach HJ) as (ws & El & Hws & HJ'). cbn in El, HJ'.
  destruct Hcase as [(er & -> & Her & Es)|(term & result & s' & Ea & -> & Es)].
  { left. split; [exact Her|]. rewrite Es. exists (w :: ws). cbn. rewrite El. split; [reflexivity|].
    split; [now constructor | now apply Hcons]. }
  destruct (state_write test w (local s)) as [r0 e0] eqn:Ew. pose proof (Hrun ws _ _ _ HJ' Ew) as Hr.
  destruct r0 as [b|er|p]; [|destruct Hr as [Hdet HQ]|destruct Hr].
  - destruct Hr as (v & -> & Hv & HQ).
    destruct (apply_write (Q v ws) w s term _ e0 Hw Ew I (HsQ v ws) HQ) as (s1 & E1 & HQ'). rewrite Ea in E1. injection E1 as -> ->.
    cbn. unfold st_lift. rewrite bincode_roundtrip by exact Hv. rewrite Es. exists ws. auto.
  - destruct (apply_write (QE ws) w s term _ e0 Hw Ew Hdet (HsE ws) HQ) as (s1 & E1 & HQ'). rewrite Ea in E1. injection E1 as -> ->.
    cbn. right. rewrite Es. exists ws. auto.
Qed.

(** A read request leaves [J], and returns what the state machine reads. *)
Lemma raft_read_holds {V} (valid : V -> Prop) `{!Bincode valid} r J (R : V -> Prop) c :
  read_ok r -> kept J ->
  (forall ws e, J ws e -> exists v, run_read test r e = Ok (bincode_serialize v) /\ valid v /\ R v) ->
  holds J (service test c) ->
  match raft_read valid r c with
  | (Ok v, c') => R v /\ holds J (service test c')
  | (Err er, c') => no_answer er /\ holds J (service test c')
  | (Panic _, _) => False
  end.
Proof.
  intros Hok HkJ Hrun HJ. unfold raft_read, st_bind.
  destruct (raft_request (ReqRead (encode_read r)) c) as [res c'] eqn:Er.
  destruct (service_read test (encode_read r) c res c' Er (kept_never_panics J _ HkJ HJ)) as [Hreach Hres].
  pose proof (kept_reaches J _ _ HkJ Hreach HJ) as HJ'. destruct Hres as [(er & -> & Her)| ->]; [now split|].
  unfold read. rewrite read_roundtrip by exact Hok. cbn [outcome_bind]. destruct HJ' as (ws & El & Hws & HJ').
  destruct (Hrun ws _ HJ') as (v & -> & Hv & HR). cbn. unfold st_lift. rewrite bincode_roundtrip by exact Hv.
  split; [exact HR|]. exists ws. auto.
Qed.
End Requests.
End Theory.
