(* ===== verification/SqlRaftTxn.v ===== *)
(** * Transactions through the Raft SQL engine

    The states of one transaction on the replicated engine: not begun, open,
    committed or rolled back; what each command does in them, also one that is
    applied after its client gave up. *)
From S2P Require Import Prelude Bytes Keycode KeycodeTheory Btree Bincode Engine RaftLog RaftNode Float64 SqlValue SqlValueTheory SqlExpr SqlPlan SqlExec SqlSchema SqlLocal SqlLocalRep SqlLocalTheory SqlLocalOps SqlStatements Mvcc MvccKeys MvccAbs MvccScan MvccSpec SqlMvcc SqlSession SqlRaft SqlRaftTheory.

(** The command of a write operation. *)
Definition write_of (txn : TransactionState) (op : sql_op) : Write :=
  match op with
  | OpCreate tb => WriteCreateTable txn tb
  | OpDrop n if_exists => WriteDropTable txn n if_exists
  | OpInsert n rows => WriteInsert txn n rows
  | OpUpdate n rows => WriteUpdate txn n rows
  | OpDelete n ids => WriteDelete txn n ids
  end.
Definition raft_op {C} `{RaftService C, RaftCodec} (txn : TransactionState) (op : sql_op) : stM C unit :=
  match op with
  | OpCreate tb => raft_create_table txn tb
  | OpDrop n if_exists => raft_drop_table txn n if_exists ;;; st_ret tt
  | OpInsert n rows => raft_insert txn n rows
  | OpUpdate n rows => raft_update txn n rows
  | OpDelete n ids => raft_delete txn n ids
  end.
Definition raft_ops {C} `{RaftService C, RaftCodec} (ops : list sql_op) (txn : TransactionState) : stM C unit :=
  st_iter (raft_op txn) ops.

Section Txn.
Context {E : Type} `{EngineReads E} {EW : EngineWrites E} `{F64Pow, Regex}.
Context {BV : Bincode is_u64} {BS : Bincode all_u64} {BO : Bincode (@any (option bytes))}.
Context {BT : Bincode stored_table} {BR : Bincode stored_row} {BI : Bincode stored_ids} `{RaftCodec}.
Context (test : bool).

(** What a transaction that begins now reads. *)
Definition committed (D : sql_db) (e : E) : Prop :=
  exists A M, db_rep e A /\ db_inv A /\ (forall k, reads A (mkTxn (db_next A) true (db_active A)) k (M !! k)) /\ SqlLocalRep.rep M D.

Context (n : Z) (D : sql_db).
#[local] Abbreviation txn := (mkTxn n false ∅).

(** The transaction has begun, on [D]; and what it sees. *)
Definition begun (e : E) : Prop := exists A0 M0, idle_at n A0 M0 /\ SqlLocalRep.rep M0 D /\ framed n A0 e.
Definition sees (D1 : sql_db) (e : E) : Prop :=
  SqlLocalRep.db_rep (H1 := mvcc_kv test txn) (H2 := mvcc_kv_spec test txn) D1 e.

Lemma stable_idle m D1 : stable (fun e => idle m e D1).
Proof.
  eapply stable_iff; [|apply (stable_rep (fun A => exists M, idle_at m A M /\ SqlLocalRep.rep M D1))].
  - intros e. split; [intros (A & Hr & M & Hp); exists A, M; auto | intros (A & M & Hr & Hp); exists A; eauto].
  - intros A k v (M & Hi & HM). exists M. split; [now apply idle_at_unversioned | exact HM].
Qed.
Lemma stable_framed A0 : stable (framed n A0).
Proof.
  apply (stable_rep (fun A => db_inv A /\ rw_ok A txn /\ db_next A = n + 1 /\ db_active A = {[n]} /\
    forall k v, v <> n -> db_vers A !! (k, v) = db_vers A0 !! (k, v))).
  intros A k v (Hi & Hrest). split; [now apply db_inv_unversioned | exact Hrest].
Qed.
Lemma stable_begun : stable begun.
Proof. apply stable_ex. intros A0. apply stable_ex. intros M0. apply stable_pure, stable_pure, stable_framed. Qed.
Lemma stable_sees D1 : stable (sees D1).
Proof.
  eapply stable_iff; [|apply (stable_rep (fun A => exists M, view_ok txn A M /\ SqlLocalRep.rep M D1))].
  - intros e. split.
    + intros (A & Hr & M & Hv & HM). exists M. split; [exists A; auto | exact HM].
    + intros (M & (A & Hr & Hv) & HM). exists A. eauto.
  - intros A k v (M & Hv & HM). exists M. split; [now apply view_unversioned | exact HM].
Qed.

(** ** The committed database *)
Lemma idle_committed m D1 e : idle m e D1 -> committed D1 e.
Proof.
  intros (A & M & Hr & [Hi <- Ha Hreads] & HM). exists A, M. rewrite Ha. auto.
Qed.

Lemma begun_committed e : begun e -> committed D e.
Proof.
  intros (A0 & M0 & [Hi0 Hn0 Ha0 Hreads] & HM & A & Hr & Hi & _ & Hnx & Hact & Hv). exists A, M0.
  split; [exact Hr|]. split; [exact Hi|]. split; [|exact HM]. intros k. rewrite Hnx, Hact. eapply reads_ext; [|apply Hreads].
  intros v o. unfold is_visible. cbn [active read_only version]. rewrite bool_decide_false by apply not_elem_of_empty. cbn [negb].
  destruct (decide (v = n)) as [->|Hne].
  - rewrite bool_decide_true by set_solver. cbn [negb]. split; intros [Ho Hvis]; [|discriminate].
    pose proof (inv_vers A0 Hi0 k n (ex_intro _ _ Ho)). lia.
  - rewrite bool_decide_false by set_solver. cbn [negb]. rewrite Hv by exact Hne. split; intros [Ho _]; (split; [exact Ho|]);
      pose proof (inv_vers A0 Hi0 k v (ex_intro _ _ Ho)); lia.
Qed.

(** ** The commands of the transaction *)
Lemma begun_resume e : begun e -> resume txn e = (Ok txn, e).
Proof.
  intros (A0 & M0 & _ & _ & A & Hr & Hi & (_ & Hact & _) & _). cbn in Hact. pose proof (inv_active A Hi n Hact). pose proof (inv_next A Hi).
  rewrite (resume_spec e A txn Hr) by (unfold is_u64; cbn; lia). cbn [read_only version orb]. now rewrite bool_decide_true.
Qed.
Lemma finished_resume m D1 e : is_u64 n -> idle m e D1 -> resume txn e = (Err (InvalidInput "no active transaction at version"), e).
Proof.
  intros Hu (A & M & Hr & Hid & _). rewrite (resume_spec e A txn Hr Hu). cbn [read_only version orb].
  rewrite (idle_active m A M Hid), bool_decide_false by apply not_elem_of_empty. reflexivity.
Qed.

Lemma write_begin e r e' :
  idle n e D -> n < u64_max -> state_write test WriteBegin e = (r, e') ->
  r = Ok (bincode_serialize (valid := txn_ok) txn) /\ begun e' /\ sees D e'.
Proof.
  intros (A & M & Hr & Hid & HM) Hn. cbn [state_write]. unfold st_bind.
  destruct (begin_spec e A Hr (idle_inv n A M Hid)) as (e1 & -> & Hr1); [now rewrite (idle_next n A M Hid)|].
  rewrite (idle_next n A M Hid), (idle_active n A M Hid). intros [= <- <-]. split; [reflexivity|]. split.
  - exists A, M. split; [exact Hid|]. split; [exact HM | now apply (begin_framed n A M)].
  - exists M. split; [|exact HM]. exists (db_begin A). split; [exact Hr1 | now apply begin_idle].
Qed.

Lemma write_commit D1 e r e' :
  begun e -> sees D1 e -> n < u64_max -> state_write test (WriteCommit txn) e = (r, e') ->
  r = Ok (bincode_serialize (valid := any) tt) /\ idle (n + 1) e' D1.
Proof.
  intros Hb (M & Hv & HM) Hn. cbn [state_write]. unfold st_bind. rewrite (begun_resume e Hb). destruct Hb as (A0 & M0 & _ & _ & Hf).
  destruct (commit_idle n A0 e M D1 Hf Hn Hv HM) as (e1 & -> & Hidle). now intros [= <- <-].
Qed.

Lemma write_rollback e r e' :
  begun e -> n < u64_max -> state_write test (WriteRollback txn) e = (r, e') ->
  r = Ok (bincode_serialize (valid := any) tt) /\ idle (n + 1) e' D.
Proof.
  intros Hb Hn. cbn [state_write]. unfold st_bind. rewrite (begun_resume e Hb). destruct Hb as (A0 & M0 & Hid & HM & Hf).
  destruct (rollback_idle n A0 e M0 D Hf Hid Hn HM) as (e1 & -> & Hidle). now intros [= <- <-].
Qed.

(** The encoded result of an operation. *)
Definition op_result (op : sql_op) (b : bytes) : Prop :=
  match op with
  | OpDrop _ _ => exists dropped, b = bincode_serialize (valid := @any bool) dropped
  | _ => b = bincode_serialize (valid := @any unit) tt
  end.

Lemma write_op_run op e r e' :
  begun e -> state_write test (write_of txn op) e = (r, e') ->
  exists r0, run_sql_op (H1 := mvcc_kv test txn) op e = (r0, e') /\
    match r with
    | Ok b => r0 = Ok tt /\ op_result op b
    | Err er => r0 = Err er
    | Panic p => r0 = Panic p
    end.
Proof.
  intros Hb. destruct op as [tb|m b|m rows|m rows|m ids]; cbn [write_of state_write run_sql_op op_result]; unfold resumed, st_bind;
    rewrite (begun_resume e Hb); cbn [SqlExec.create_table SqlExec.drop_table SqlExec.txn_insert SqlExec.txn_update SqlExec.txn_delete local_txn local_transaction];
    match goal with |- context [match ?m e with _ => _ end] => destruct (m e) as [[x|er|p] e1] end; intros [= <- <-]; cbn; eauto; try destruct x; eauto.
Qed.

Lemma begun_op op e : begun e -> begun (run_sql_op (H1 := mvcc_kv test txn) op e).2.
Proof.
  intros (A0 & M0 & Hid & HM & Hf). exists A0, M0. split; [exact Hid|]. split; [exact HM|].
  pose proof (ops_framed test n A0 [op] e Hf) as Hf'. unfold txn_ops, run_sql_ops in Hf'. cbn [st_iter] in Hf'. unfold st_bind in Hf'.
  destruct (run_sql_op op e) as [[[]|er|p] e1]; exact Hf'.
Qed.

Lemma write_op D1 op e r e' :
  begun e -> sees D1 e -> db_ok D1 -> op_ok D1 op -> state_write test (write_of txn op) e = (r, e') ->
  begun e' /\
  match r with
  | Ok b => op_result op b /\ exists D2, op_effect D1 op D2 /\ db_ok D2 /\ sees D2 e'
  | Err er => is_deterministic er = true
  | Panic _ => False
  end.
Proof.
  intros Hb Hs Ho Hop Ew. destruct (write_op_run op e r e' Hb Ew) as (r0 & Er & Hr0).
  pose proof (begun_op op e Hb) as Hb'. rewrite Er in Hb'. split; [exact Hb'|].
  pose proof (sql_op_triple (H1 := mvcc_kv test txn) (H2 := mvcc_kv_spec test txn) D1 op Ho Hop e Hs) as Ht. rewrite Er in Ht.
  destruct r as [b|er|p]; [destruct Hr0 as [-> Hres] | subst r0..]; auto.
Qed.

Lemma write_finished m D1 w e r e' :
  is_u64 n -> idle m e D1 -> (w = WriteCommit txn \/ w = WriteRollback txn \/ exists op, w = write_of txn op) ->
  state_write test w e = (r, e') -> shared r /\ e' = e.
Proof.
  intros Hu Hid Hw. assert (state_write test w e = (Err (InvalidInput "no active transaction at version"), e)) as ->.
  { destruct Hw as [->|[->|[op ->]]]; [| |destruct op]; cbn [state_write write_of]; unfold resumed, st_bind;
      now rewrite (finished_resume m D1 e Hu Hid). }
  intros [= <- <-]. split; reflexivity.
Qed.

(** ** The phases of the transaction, with what may be outstanding *)
Definition starting (ws : list Write) (e : E) : Prop := ws = [] /\ idle n e D.
Definition beginning (ws : list Write) (e : E) : Prop := (ws = [WriteBegin] /\ idle n e D) \/ (ws = [] /\ begun e).
Definition opened (D1 : sql_db) (ws : list Write) (e : E) : Prop := ws = [] /\ begun e /\ sees D1 e.
Definition committing (D1 : sql_db) (ws : list Write) (e : E) : Prop :=
  (ws = [] \/ ws = [WriteCommit txn]) /\ ((begun e /\ sees D1 e) \/ idle (n + 1) e D1).
(** A command has failed, or, if [lost], may still be applied. *)
Definition failing (lost : bool) (D1 : sql_db) (w : Write) (ws : list Write) (e : E) : Prop :=
  begun e /\ (ws = [] \/ (lost = true /\ ws = [w]) /\ sees D1 e).
Definition finished (lost : bool) (w : Write) (ws : list Write) (e : E) : Prop :=
  (ws = [] \/ (lost = true /\ ws = [w])) /\ idle (n + 1) e D.
Definition aborting (D1 : sql_db) (w : Write) (ws : list Write) (e : E) : Prop :=
  (NoDup ws /\ forall w', w' ∈ ws -> w' = w \/ w' = WriteRollback txn) /\
  ((begun e /\ (w ∈ ws -> sees D1 e)) \/ idle (n + 1) e D).

Ltac solve_stable := intros ws; repeat first [apply stable_idle | apply stable_begun | apply stable_sees | apply stable_imp | apply stable_pure | apply stable_or | apply stable_and].

Lemma stable_starting ws : stable (starting ws).
Proof. revert ws. solve_stable. Qed.
Lemma stable_beginning ws : stable (beginning ws).
Proof. revert ws. solve_stable. Qed.
Lemma stable_opened D1 ws : stable (opened D1 ws).
Proof. revert ws. solve_stable. Qed.
Lemma stable_committing D1 ws : stable (committing D1 ws).
Proof. revert ws. solve_stable. Qed.
Lemma stable_failing lost D1 w ws : stable (failing lost D1 w ws).
Proof.
  eapply stable_iff; [|apply (stable_or (fun e => ws = [] /\ begun e) (fun e => (lost = true /\ ws = [w]) /\ begun e /\ sees D1 e))]; [|revert ws; solve_stable..].
  intros e. unfold failing. tauto.
Qed.
Lemma stable_finished lost w ws : stable (finished lost w ws).
Proof. revert ws. solve_stable. Qed.
Lemma stable_aborting D1 w ws : stable (aborting D1 w ws).
Proof. revert ws. solve_stable. Qed.

(** ** Whatever the cluster applies next keeps the phase *)
Context (Hn : 1 <= n < u64_max).

Lemma raft_txn_u64 : is_u64 n.
Proof. unfold is_u64. lia. Qed.

Lemma one_pending {X} (ws1 ws2 : list X) w x : ws1 ++ w :: ws2 = [x] -> w = x /\ ws1 ++ ws2 = [].
Proof. destruct ws1 as [|y [|]]; cbn; [now intros [= -> ->] | discriminate | discriminate]. Qed.
Lemma none_pending {X} (ws1 ws2 : list X) w : ws1 ++ w :: ws2 <> [].
Proof. now destruct ws1. Qed.

Lemma kept_starting : kept test starting.
Proof. split; [apply stable_starting|]. intros ws1 w ws2 e r e' [F _]. now apply none_pending in F. Qed.
Lemma kept_opened D1 : kept test (opened D1).
Proof. split; [apply stable_opened|]. intros ws1 w ws2 e r e' [F _]. now apply none_pending in F. Qed.

Lemma kept_beginning : kept test beginning.
Proof.
  split; [apply stable_beginning|]. intros ws1 w ws2 e r e' [[E1 Hid]|[F _]]; [|now apply none_pending in F].
  apply one_pending in E1 as [-> E1]. intros Ew. destruct (write_begin e r e' Hid ltac:(lia) Ew) as (-> & Hb & _).
  split; [exact I|]. right. auto.
Qed.

Lemma kept_committing D1 : kept test (committing D1).
Proof.
  split; [apply stable_committing|]. intros ws1 w ws2 e r e' [[F|E1] Hc]; [now apply none_pending in F|].
  apply one_pending in E1 as [-> E1]. intros Ew. rewrite E1. destruct Hc as [[Hb Hs]|Hid].
  - destruct (write_commit D1 e r e' Hb Hs ltac:(lia) Ew) as [-> Hid]. split; [exact I|]. split; auto.
  - destruct (write_finished (n + 1) D1 (WriteCommit txn) e r e' raft_txn_u64 Hid ltac:(auto) Ew) as [Hr ->]. split; [exact Hr|]. split; auto.
Qed.

Section Op.
Context (D1 : sql_db) (op : sql_op) (Hok : db_ok D1) (Hop : op_ok D1 op).

Lemma rollback_not_op : write_of txn op <> WriteRollback txn.
Proof. clear Hok Hop. now destruct op. Qed.

Lemma kept_failing lost : kept test (failing lost D1 (write_of txn op)).
Proof.
  split; [apply stable_failing|]. intros ws1 w ws2 e r e' [Hb [F|[[_ E1] Hs]]]; [now apply none_pending in F|].
  apply one_pending in E1 as [-> E1]. intros Ew. destruct (write_op D1 op e r e' Hb Hs Hok Hop Ew) as [Hb' Hr].
  split; [destruct r; cbn; auto|]. split; [exact Hb' | auto].
Qed.

Lemma kept_aborting : kept test (aborting D1 (write_of txn op)).
Proof.
  split; [apply stable_aborting|]. intros ws1 w ws2 e r e' [[Hd Hin] Hc] Ew.
  assert (NoDup (ws1 ++ ws2) /\ w ∉ ws1 ++ ws2 /\ forall w', w' ∈ ws1 ++ ws2 -> w' ∈ ws1 ++ w :: ws2) as (Hd' & Hw & Hsub).
  { rewrite <- Permutation_middle in Hd. apply NoDup_cons in Hd as [Hw Hd]. split; [exact Hd|]. split; [exact Hw|]. set_solver. }
  assert (forall w', w' ∈ ws1 ++ ws2 -> w' = write_of txn op \/ w' = WriteRollback txn) as Hin' by auto.
  assert (w = write_of txn op \/ w = WriteRollback txn) as Hcase by (apply Hin; set_solver).
  unfold aborting. destruct Hc as [[Hb Hs]|Hid].
  - destruct Hcase as [->| ->].
    + destruct (write_op D1 op e r e' Hb ltac:(apply Hs; set_solver) Hok Hop Ew) as [Hb' Hr]. split; [destruct r; cbn; auto|].
      split; [auto|]. left. split; [exact Hb' | intros F; contradiction].
    + destruct (write_rollback e r e' Hb ltac:(lia) Ew) as [-> Hid]. split; [exact I|]. auto.
  - destruct (write_finished (n + 1) D w e r e' raft_txn_u64 Hid ltac:(destruct Hcase; eauto) Ew) as [Hr ->]. auto.
Qed.

Lemma kept_finished lost : kept test (finished lost (write_of txn op)).
Proof.
  split; [apply stable_finished|]. intros ws1 w ws2 e r e' [[F|[_ E1]] Hid] Ew; [now apply none_pending in F|].
  apply one_pending in E1 as [-> E1].
  destruct (write_finished (n + 1) D _ e r e' raft_txn_u64 Hid ltac:(eauto) Ew) as [Hr ->]. split; [exact Hr|]. split; auto.
Qed.

Lemma failing_aborting lost ws e : failing lost D1 (write_of txn op) ws e -> aborting D1 (write_of txn op) (WriteRollback txn :: ws) e.
Proof.
  clear Hok Hop. pose proof rollback_not_op as Hne. intros [Hb [->|[[_ ->] Hs]]]; (split; [|left]).
  - split; [apply NoDup_singleton | set_solver].
  - split; [exact Hb | set_solver].
  - split; [|set_solver]. repeat (apply NoDup_cons; split; [set_solver|]). apply NoDup_nil_2.
  - auto.
Qed.
End Op.

(** ** The requests of the client *)
Section Requests.
Context {C : Type} `{RaftService C} `{!RaftServiceSpec test C}.

Lemma stable_false : stable (fun _ : E => False).
Proof. now intros e k v []. Qed.

Lemma holds_impl (J J' : list Write -> E -> Prop) x : (forall ws e, J ws e -> J' ws e) -> holds J x -> holds J' x.
Proof. intros Hi (ws & El & Hws & HJ). exists ws. auto. Qed.
Lemma holds_false (x : cluster) : ~ holds (fun _ (_ : E) => False) x.
Proof. now intros (ws & _ & _ & []). Qed.
Lemma holds_ex {X} (J : X -> list Write -> E -> Prop) x : holds (fun ws e => exists a, J a ws e) x -> exists a, holds (J a) x.
Proof. intros (ws & El & Hws & a & HJ). exists a, ws. auto. Qed.
Lemma holds_pure (X : Prop) (J : list Write -> E -> Prop) x : holds (fun ws e => X /\ J ws e) x -> X /\ holds J x.
Proof. intros (ws & El & Hws & Hx & HJ). split; [exact Hx|]. exists ws. auto. Qed.

Lemma raft_begin_holds c :
  holds starting (service test c) ->
  match raft_begin c with
  | (Ok t, c') => t = txn /\ holds (opened D) (service test c')
  | (Err er, c') => no_answer er /\ holds beginning (service test c')
  | (Panic _, _) => False
  end.
Proof.
  intros HJ. pose proof (raft_write_holds test txn_ok WriteBegin starting beginning (fun t ws e => t = txn /\ opened D ws e)
    (fun _ _ => False) c I kept_starting kept_beginning) as Hw.
  specialize (Hw ltac:(intros ws e [-> Hid]; left; auto) ltac:(intros t ws; apply stable_pure, stable_opened) (fun _ => stable_false)).
  specialize (Hw ltac:(intros ws e r e' [-> Hid] Ew; destruct (write_begin e r e' Hid ltac:(lia) Ew) as (-> & Hb & Hs);
    exists txn; split; [reflexivity|]; split; [split; [exact raft_txn_u64 | intros v F; set_solver]|]; split; [reflexivity|]; split; auto) HJ).
  cbn in Hw. unfold raft_begin, raft_transaction_begin. cbn [orb]. rewrite bool_decide_false by (intros [? F]; discriminate).
  destruct (raft_write txn_ok WriteBegin c) as [[t|er|p] c']; auto.
  - now apply holds_pure in Hw.
  - destruct Hw as [Hw|F]; [exact Hw | now apply holds_false in F].
Qed.

Lemma raft_commit_holds D1 c :
  holds (opened D1) (service test c) ->
  match raft_commit txn c with
  | (Ok _, c') => holds (fun ws e => ws = [] /\ idle (n + 1) e D1) (service test c')
  | (Err er, c') => no_answer er /\ holds (committing D1) (service test c')
  | (Panic _, _) => False
  end.
Proof.
  intros HJ. pose proof (raft_write_holds test (@any unit) (WriteCommit txn) (opened D1) (committing D1)
    (fun _ ws e => ws = [] /\ idle (n + 1) e D1) (fun _ _ => False) c) as Hw.
  specialize (Hw ltac:(split; [exact raft_txn_u64 | intros v F; set_solver]) (kept_opened D1) (kept_committing D1)).
  specialize (Hw ltac:(intros ws e (-> & Hb & Hs); split; auto) ltac:(intros t ws; apply stable_pure, stable_idle) (fun _ => stable_false)).
  specialize (Hw ltac:(intros ws e r e' (-> & Hb & Hs) Ew; destruct (write_commit D1 e r e' Hb Hs ltac:(lia) Ew) as (-> & Hid);
    exists tt; repeat split; auto) HJ).
  unfold raft_commit. cbn [read_only]. destruct (raft_write any (WriteCommit txn) c) as [[t|er|p] c']; auto.
  destruct Hw as [Hw|F]; [exact Hw | now apply holds_false in F].
Qed.

Section Failed.
Context (D1 : sql_db) (op : sql_op) (Hok : db_ok D1) (Hop : op_ok D1 op).

Lemma raft_rollback_holds lost c :
  holds (failing lost D1 (write_of txn op)) (service test c) ->
  match raft_rollback txn c with
  | (Ok _, c') => holds (finished lost (write_of txn op)) (service test c')
  | (Err er, c') => no_answer er /\ holds (aborting D1 (write_of txn op)) (service test c')
  | (Panic _, _) => False
  end.
Proof.
  intros HJ. pose proof (raft_write_holds test (@any unit) (WriteRollback txn) (failing lost D1 (write_of txn op)) (aborting D1 (write_of txn op))
    (fun _ => finished lost (write_of txn op)) (fun _ _ => False) c) as Hw.
  specialize (Hw ltac:(split; [exact raft_txn_u64 | intros v F; set_solver]) (kept_failing D1 op Hok Hop lost) (kept_aborting D1 op Hok Hop)
    (failing_aborting D1 op lost) (fun _ => stable_finished lost _) (fun _ => stable_false)).
  specialize (Hw ltac:(intros ws e r e' (Hb & Hws) Ew; destruct (write_rollback e r e' Hb ltac:(lia) Ew) as (-> & Hid);
    exists tt; split; [reflexivity|]; split; [exact I|]; split; [tauto | exact Hid]) HJ).
  unfold raft_rollback. cbn [read_only]. destruct (raft_write any (WriteRollback txn) c) as [[t|er|p] c']; auto.
  destruct Hw as [Hw|F]; [exact Hw | now apply holds_false in F].
Qed.

(** Any operation: its effect, and what is left if it fails. *)
Lemma op_request {V} `{!Bincode (@any V)} c :
  write_ok (write_of txn op) -> (forall b, op_result op b -> exists v : V, b = bincode_serialize (valid := any) v) ->
  holds (opened D1) (service test c) ->
  match raft_write (@any V) (write_of txn op) c with
  | (Ok _, c') => exists D2, (op_effect D1 op D2 /\ db_ok D2) /\ holds (opened D2) (service test c')
  | (Err er, c') => exists lost, (lost = true -> no_answer er) /\ holds (failing lost D1 (write_of txn op)) (service test c')
  | (Panic _, _) => False
  end.
Proof.
  intros Hw Hres HJ. pose proof (raft_write_holds test (@any V) (write_of txn op) (opened D1) (failing true D1 (write_of txn op))
    (fun _ ws e => exists D2, (op_effect D1 op D2 /\ db_ok D2) /\ opened D2 ws e) (failing false D1 (write_of txn op)) c
    Hw (kept_opened D1) (kept_failing D1 op Hok Hop true)) as Hr.
  specialize (Hr ltac:(intros ws e (-> & Hb & Hs); split; auto) ltac:(intros v ws; apply stable_ex; intros D2; apply stable_pure, stable_opened)
    (stable_failing false D1 _)).
  match type of Hr with ?X -> _ => assert X as Hrun end.
  { intros ws e r e' (-> & Hb & Hs) Ew. destruct (write_op D1 op e r e' Hb Hs Hok Hop Ew) as [Hb' Hr'].
    destruct r as [b|er|p]; [|split; [exact Hr'|]; split; auto | exact Hr'].
    destruct Hr' as [Hb2 (D2 & He & Ho2 & Hs2)]. destruct (Hres b Hb2) as [v ->]. exists v. split; [reflexivity|]. split; [exact I|].
    exists D2. split; [auto|]. split; auto. }
  specialize (Hr Hrun HJ). destruct (raft_write any (write_of txn op) c) as [[v|er|p] c']; auto.
  - apply holds_ex in Hr as [D2 Hr]. exists D2. now apply holds_pure in Hr.
  - destruct Hr as [[Her Hr]|Hr]; [now exists true|]. exists false. split; [discriminate | exact Hr].
Qed.

Lemma raft_op_holds c :
  write_ok (write_of txn op) -> holds (opened D1) (service test c) ->
  match raft_op txn op c with
  | (Ok _, c') => exists D2, (op_effect D1 op D2 /\ db_ok D2) /\ holds (opened D2) (service test c')
  | (Err er, c') => exists lost, (lost = true -> no_answer er) /\ holds (failing lost D1 (write_of txn op)) (service test c')
  | (Panic _, _) => False
  end.
Proof.
  intros Hw HJ. assert (forall V (B : Bincode (@any V)), (forall b, op_result op b -> exists v : V, b = bincode_serialize (valid := any) v) -> _) as Hr
    by (intros V B Hres; exact (op_request (V := V) c Hw Hres HJ)).
  destruct op as [tb|m b|m rows|m rows|m ids]; cbn [raft_op]; [|specialize (Hr bool bool_codec ltac:(intros b0 Hb0; exact Hb0)) | | |];
    [apply (Hr unit); cbn; eauto | | apply (Hr unit); cbn; eauto..].
  unfold raft_drop_table, st_bind. cbn [write_of] in Hr. destruct (raft_write any (WriteDropTable txn m b) c) as [[v|er|p] c']; exact Hr.
Qed.
End Failed.

Lemma raft_ops_holds ops : forall D1 c,
  db_ok D1 -> ops_ok D1 ops -> Forall (fun op => write_ok (write_of txn op)) ops -> holds (opened D1) (service test c) ->
  match raft_ops ops txn c with
  | (Ok _, c') => exists D2, (ops_effect D1 ops D2 /\ db_ok D2) /\ holds (opened D2) (service test c')
  | (Err er, c') => exists lost D2 op, (db_ok D2 /\ op_ok D2 op) /\ (lost = true -> no_answer er) /\
      holds (failing lost D2 (write_of txn op)) (service test c')
  | (Panic _, _) => False
  end.
Proof.
  unfold raft_ops. induction ops as [|op ops IH]; intros D1 c Ho Hops Hws HJ; cbn [st_iter ops_ok] in *.
  { cbn. exists D1. split; [split; [constructor | exact Ho] | exact HJ]. }
  destruct Hops as [Hop Hops]. apply Forall_cons in Hws as [Hw Hws]. unfold st_bind.
  pose proof (raft_op_holds D1 op Ho Hop c Hw HJ) as Hr. destruct (raft_op txn op c) as [[[]|er|p] c1]; [| |exact Hr].
  - destruct Hr as (D2 & [He Ho2] & HJ2). specialize (IH D2 c1 Ho2 (Hops D2 He) Hws HJ2).
    destruct (st_iter (raft_op txn) ops c1) as [[[]|er|p] c2]; auto. destruct IH as (D3 & [He3 Ho3] & HJ3).
    exists D3. split; [split; [econstructor; eauto | exact Ho3] | exact HJ3].
  - destruct Hr as (lost & Hl & HJ'). exists lost, D1, op. auto.
Qed.

(** ** The committed database in each phase, now and later *)
Definition settles (P : E -> Prop) (x : cluster) : Prop :=
  never_panics test x /\ forall y, reaches test x y -> P (local y.2).

Lemma settles_kept J (P : E -> Prop) x : kept test J -> (forall ws e, J ws e -> P e) -> holds J x -> settles P x.
Proof.
  intros Hk Hp HJ. split; [now apply (kept_never_panics test J)|]. intros y Hy.
  destruct (kept_reaches test J x y Hk Hy HJ) as (ws & _ & _ & HJ'). eauto.
Qed.

Lemma beginning_settles x : holds beginning x -> settles (committed D) x.
Proof.
  apply settles_kept; [apply kept_beginning|]. intros ws e [[_ Hid]|[_ Hb]]; [now apply (idle_committed n) | now apply begun_committed].
Qed.
Lemma committing_settles D1 x : holds (committing D1) x -> settles (fun e => committed D e \/ committed D1 e) x.
Proof.
  apply settles_kept; [apply kept_committing|]. intros ws e [_ [[Hb _]|Hid]]; [left; now apply begun_committed | right; now apply (idle_committed (n + 1))].
Qed.
Lemma aborting_settles D1 op x : db_ok D1 -> op_ok D1 op -> holds (aborting D1 (write_of txn op)) x -> settles (committed D) x.
Proof.
  intros Ho Hop. apply settles_kept; [now apply kept_aborting|].
  intros ws e [_ [[Hb _]|Hid]]; [now apply begun_committed | now apply (idle_committed (n + 1))].
Qed.
Lemma finished_settles lost op x : holds (finished lost (write_of txn op)) x -> settles (committed D) x.
Proof. apply settles_kept; [apply kept_finished|]. intros ws e [_ Hid]. now apply (idle_committed (n + 1)). Qed.
Lemma finished_idle w x : holds (finished false w) x -> x.1 = [] /\ idle (n + 1) (local x.2) D.
Proof. intros (ws & El & _ & [->|[F _]] & Hid); [auto | discriminate]. Qed.

(** ** A transaction as a whole *)
Lemma raft_implicit_spec ops c :
  service test c = ([], (service test c).2) -> idle n (local (service test c).2) D -> db_ok D -> ops_ok D ops ->
  Forall (fun op => write_ok (write_of txn op)) ops ->
  match raft_implicit_txn false (raft_ops ops) c with
  | (Ok _, c') => exists D', ops_effect D ops D' /\ db_ok D' /\ (service test c').1 = [] /\ idle (n + 1) (local (service test c').2) D'
  | (Err er, c') =>
      ((service test c').1 = [] /\ idle (n + 1) (local (service test c').2) D) \/
      no_answer er /\ exists D', (D' = D \/ ops_effect D ops D' /\ db_ok D') /\
        settles (fun e => committed D e \/ committed D' e) (service test c')
  | (Panic _, _) => False
  end.
Proof.
  intros Hc Hid Ho Hops Hws. unfold raft_implicit_txn. unfold st_bind at 1.
  assert (forall x, settles (committed D) x -> settles (fun e => committed D e \/ committed D e) x) as Hor
    by (intros x [S1 S2]; split; auto).
  assert (holds starting (service test c)) as HJ by (exists []; rewrite Hc; repeat split; auto).
  pose proof (raft_begin_holds c HJ) as Hb. destruct (raft_begin c) as [[t|er|p] c1]; [| |exact Hb].
  2: { destruct Hb as [Her Hb]. right. split; [exact Her|]. exists D. split; [auto|]. apply Hor. now apply beginning_settles. }
  destruct Hb as [-> HJ1]. pose proof (raft_ops_holds ops D c1 Ho Hops Hws HJ1) as Hr.
  destruct (raft_ops ops txn c1) as [[[]|er|p] c2]; [| |exact Hr].
  - destruct Hr as (D' & [He Ho'] & HJ2). unfold st_bind. pose proof (raft_commit_holds D' c2 HJ2) as Hm.
    destruct (raft_commit txn c2) as [[[]|er|p] c3]; [| |exact Hm].
    + destruct Hm as (ws & El & _ & -> & Hid'). cbn. eauto 6.
    + destruct Hm as [Her Hm]. right. split; [exact Her|]. exists D'. split; [auto|]. now apply committing_settles.
  - destruct Hr as (lost & D2 & op & [Ho2 Hop2] & Hl & HJ2). unfold st_bind.
    pose proof (raft_rollback_holds D2 op Ho2 Hop2 lost c2 HJ2) as Hm. destruct (raft_rollback txn c2) as [[[]|er'|p] c3]; [| |exact Hm].
    + destruct lost; [right|left; now apply (finished_idle (write_of txn op))].
      split; [now apply Hl|]. exists D. split; [auto|]. apply Hor. now apply (finished_settles true op).
    + destruct Hm as [Her Hm]. right. split; [exact Her|]. exists D. split; [auto|]. apply Hor. now apply (aborting_settles D2 op).
Qed.
End Requests.
End Txn.

Section Reads.
Context {E : Type} `{EngineReads E} {EW : EngineWrites E} `{F64Pow, Regex}.
Context {BV : Bincode is_u64} {BS : Bincode all_u64} {BO : Bincode (@any (option bytes))}.
Context {BT : Bincode stored_table} {BR : Bincode stored_row} {BI : Bincode stored_ids} `{RaftCodec}.
Context {C : Type} `{RaftService C} (test : bool) `{!RaftServiceSpec test C}.
Context (n : Z) (D0 D : sql_db) (Ho : db_ok D).
#[local] Abbreviation txn := (mkTxn n false ∅).

(** A read request in an open transaction that sees [D]. *)
Definition answered {V} (m : stM C V) (c : C) (R : V -> Prop) : Prop :=
  match m c with
  | (Ok v, c') => R v /\ holds (opened test n D0 D) (service test c')
  | (Err er, c') => no_answer er /\ holds (opened test n D0 D) (service test c')
  | (Panic _, _) => False
  end.

Lemma opened_bounds c : holds (opened test n D0 D) (service test c) -> 1 <= n < u64_max.
Proof.
  intros (ws & _ & _ & _ & (A0 & M0 & _ & _ & A & _ & Hi & (_ & Hact & _) & _) & _). cbn in Hact.
  pose proof (inv_active A Hi n Hact). pose proof (inv_next A Hi). lia.
Qed.
Lemma opened_txn_ok c : holds (opened test n D0 D) (service test c) -> txn_ok txn.
Proof. intros Hb%opened_bounds. split; [unfold is_u64; cbn; lia | intros v F; set_solver]. Qed.

Lemma read_answered {V} (valid : V -> Prop) `{!Bincode valid} r (R : V -> Prop) c :
  (txn_ok txn -> read_ok r) ->
  (forall e, resume txn e = (Ok txn, e) -> sees test n D e -> exists v, run_read test r e = Ok (bincode_serialize v) /\ valid v /\ R v) ->
  holds (opened test n D0 D) (service test c) -> answered (raft_read valid r) c R.
Proof.
  intros Hr Hrun HJ. apply raft_read_holds; [apply Hr; now apply (opened_txn_ok c) | apply kept_opened; now apply (opened_bounds c) | | exact HJ].
  intros ws e (_ & Hb & Hs). apply Hrun; [now apply (begun_resume n D0) | exact Hs].
Qed.

Lemma resumed_read_eq {A} (f : SqlExec.Transaction E -> E -> outcome A) e :
  resume txn e = (Ok txn, e) -> resumed_read test txn f e = f (local_txn test txn) e.
Proof. intros Er. unfold resumed_read, on_engine. now rewrite Er. Qed.

Lemma rows_stored m ids : Forall stored_row (omap (d_row D m) ids).
Proof.
  apply Forall_forall. intros row (id & _ & Hrow)%list_elem_of_omap. now apply (wf_row D (core_wf D (proj1 Ho)) m id row).
Qed.

Lemma get_table_answered m c :
  utf8_valid m = true -> holds (opened test n D0 D) (service test c) -> answered (raft_get_table txn m) c (fun o => o = d_table D m).
Proof.
  intros Hm. apply read_answered; [intros; split; assumption|]. intros e Er Hs. cbn [run_read]. rewrite resumed_read_eq by exact Er.
  cbn [SqlExec.get_table local_txn local_transaction].
  rewrite (get_table_spec (H1 := mvcc_kv test txn) (H2 := mvcc_kv_spec test txn) D) by (exact Hs || apply Ho || exact Hm).
  exists (d_table D m). split; [|split; [|reflexivity]].
  - cbn. unfold encode_opt_table. do 2 f_equal. destruct (d_table D m) as [tb|] eqn:Et; [|reflexivity]. cbn. f_equal.
    apply normalize_stored_table, (wf_table D (core_wf D (proj1 Ho)) m tb Et).
  - intros tb Et. apply (wf_table D (core_wf D (proj1 Ho)) m tb Et).
Qed.

Lemma list_tables_answered c :
  holds (opened test n D0 D) (service test c) ->
  answered (raft_list_tables txn) c (fun tbs => forall tb, In tb tbs <-> exists m, d_table D m = Some tb).
Proof.
  apply read_answered; [auto|]. intros e Er Hs. cbn [run_read]. rewrite resumed_read_eq by exact Er.
  cbn [SqlExec.list_tables local_txn local_transaction].
  destruct (list_tables_spec (H1 := mvcc_kv test txn) (H2 := mvcc_kv_spec test txn) D e Hs (core_wf D (proj1 Ho))) as (tbs & -> & Hin).
  assert (Forall stored_table tbs) as Hst.
  { apply List.Forall_forall. intros tb [m Et]%Hin. apply (wf_table D (core_wf D (proj1 Ho)) m tb Et). }
  exists tbs. split; [|auto]. cbn. unfold encode_tables. now rewrite normalize_stored_tables.
Qed.

Lemma get_answered m ids c :
  utf8_valid m = true -> Forall stored ids -> holds (opened test n D0 D) (service test c) ->
  answered (raft_get txn m ids) c (fun rows => rows = omap (d_row D m) ids).
Proof.
  intros Hm Hids. apply read_answered; [intros Ht; split; [exact Ht | auto]|]. intros e Er Hs. cbn [run_read].
  rewrite resumed_read_eq by exact Er. cbn [SqlExec.txn_get local_txn local_transaction].
  rewrite (local_get_spec (H1 := mvcc_kv test txn) (H2 := mvcc_kv_spec test txn) D) by (assumption || apply Ho).
  exists (omap (d_row D m) ids). split; [|split; [apply rows_stored | reflexivity]]. cbn. unfold encode_rows.
  now rewrite normalize_stored_rows by apply rows_stored.
Qed.

Lemma scan_answered m c :
  utf8_valid m = true -> holds (opened test n D0 D) (service test c) ->
  answered (raft_scan txn m None) c (fun rows => exists ids, rows = map Ok (omap (d_row D m) ids) /\
    StronglySorted (fun a b => lex_lt (senc (KeyRow m a)) (senc (KeyRow m b)) = true) ids /\
    forall id, In id ids <-> is_Some (d_row D m id)).
Proof.
  intros Hm HJ. unfold answered, raft_scan, st_bind.
  pose proof (read_answered (Forall stored_row) (ReadScan txn m None) (fun rows => exists ids, map Ok rows = map Ok (omap (d_row D m) ids) /\
    StronglySorted (fun a b => lex_lt (senc (KeyRow m a)) (senc (KeyRow m b)) = true) ids /\
    forall id, In id ids <-> is_Some (d_row D m id)) c) as Hr.
  specialize (Hr ltac:(intros Ht; split; [exact Ht|]; split; [exact Hm | discriminate])).
  unfold answered in Hr. destruct (raft_read _ _ c) as [[rows|er|p] c']; cbn; apply Hr; auto; intros e Er Hs; cbn [run_read];
    rewrite resumed_read_eq by exact Er; cbn [SqlExec.txn_scan local_txn local_transaction];
    destruct (local_scan_spec (H1 := mvcc_kv test txn) (H2 := mvcc_kv_spec test txn) D e m Hs (core_wf D (proj1 Ho)) Hm) as (ids & -> & Hrest);
    cbn [outcome_bind]; rewrite try_collect_map_ok; exists (omap (d_row D m) ids); (split; [|split; [apply rows_stored | eauto]]);
    cbn; unfold encode_rows; now rewrite normalize_stored_rows by apply rows_stored.
Qed.

Lemma lookup_answered tb i cl vs c :
  d_table D (table_name tb) = Some tb -> In (i, cl) (indexed_columns tb) -> Forall stored vs ->
  holds (opened test n D0 D) (service test c) ->
  answered (raft_lookup_index txn (table_name tb) (col_name cl) vs) c (fun ids => StronglySorted value_lt ids /\
    forall id, In id ids <-> exists row v, d_row D (table_name tb) id = Some row /\ row !! i = Some v /\ In v vs).
Proof.
  intros Ht Hi Hvs. pose proof (core_wf D (proj1 Ho)) as W. destruct (wf_table D W _ _ Ht) as [_ Hst].
  apply read_answered.
  - intros Htx. split; [exact Htx|]. split; [apply Hst|]. split; [|exact Hvs].
    apply indexed_columns_In in Hi as [Hcl _]. apply (stored_column tb i cl Hst Hcl).
  - intros e Er Hs. cbn [run_read]. rewrite resumed_read_eq by exact Er. cbn [SqlExec.txn_lookup_index local_txn local_transaction].
    destruct (lookup_index_hits (H1 := mvcc_kv test txn) (H2 := mvcc_kv_spec test txn) D e tb i cl vs Hs (proj1 Ho) Ht Hi Hvs) as (ids & -> & Hso & Hin).
    assert (Forall stored ids) as Hids.
    { apply List.Forall_forall. intros id (row & v & Hrow & _)%Hin. apply (wf_row D W _ _ _ Hrow). }
    exists ids. split; [|split; [split; assumption | auto]]. cbn. unfold encode_ids. now rewrite normalize_stored.
Qed.
End Reads.
