(* ===== verification/SqlReplicas.v ===== *)
(** * Replicas agree

    The nodes of a cluster may use different storage engines.  Two engines with
    the same content are indistinguishable to MVCC, to the SQL engine and to the
    state machine: the same commands give the same results and keep the contents
    the same. *)
From S2P Require Import Prelude Bytes Keycode KeycodeTheory Btree Bincode Engine RaftLog RaftNode Float64 SqlValue SqlValueTheory SqlExpr SqlPlan SqlExec SqlSchema SqlLocal SqlLocalRep SqlLocalTheory Mvcc MvccKeys MvccAbs MvccScan SqlMvcc SqlRaft SqlRaftTheory.

(** ** Computations on related states with the same outcome *)
Section Agrees.
Context {S1 S2 : Type} (R : S1 -> S2 -> Prop).

Definition agrees {A} (m1 : stM S1 A) (m2 : stM S2 A) : Prop :=
  forall s1 s2, R s1 s2 -> (m1 s1).1 = (m2 s2).1 /\ R (m1 s1).2 (m2 s2).2.

Lemma agrees_same {A} (m1 : stM S1 A) (m2 : stM S2 A) :
  (forall s1 s2, R s1 s2 -> exists r, m1 s1 = (r, s1) /\ m2 s2 = (r, s2)) -> agrees m1 m2.
Proof. intros Hm s1 s2 HR. destruct (Hm s1 s2 HR) as (r & -> & ->). auto. Qed.
Lemma agrees_ret {A} (a : A) : agrees (st_ret a) (st_ret a).
Proof. apply agrees_same. cbn. eauto. Qed.
Lemma agrees_err {A} e : agrees (st_err (A := A) e) (st_err e).
Proof. apply agrees_same. cbn. eauto. Qed.
Lemma agrees_panic {A} p : agrees (st_panic (A := A) p) (st_panic p).
Proof. apply agrees_same. cbn. eauto. Qed.
Lemma agrees_lift {A} (o : outcome A) : agrees (st_lift o) (st_lift o).
Proof. apply agrees_same. cbn. eauto. Qed.
Lemma agrees_read {A} (f1 : S1 -> outcome A) (f2 : S2 -> outcome A) :
  (forall s1 s2, R s1 s2 -> f1 s1 = f2 s2) -> agrees (st_read f1) (st_read f2).
Proof. intros Hf. apply agrees_same. intros s1 s2 HR. unfold st_read. rewrite (Hf s1 s2 HR). eauto. Qed.
Lemma agrees_bind {A B} (m1 : stM S1 A) m2 (k1 : A -> stM S1 B) k2 :
  agrees m1 m2 -> (forall a, agrees (k1 a) (k2 a)) -> agrees (st_bind m1 k1) (st_bind m2 k2).
Proof.
  intros Hm Hk s1 s2 HR. destruct (Hm s1 s2 HR) as [Ho HR']. unfold st_bind.
  destruct (m1 s1) as [o1 s1'], (m2 s2) as [o2 s2']. cbn [fst snd] in *. subst o2.
  destruct o1 as [a|e|p]; [now apply Hk | auto | auto].
Qed.
Lemma agrees_lift_bind {A B} (a : A) (k1 : A -> stM S1 B) k2 :
  agrees (k1 a) (k2 a) -> agrees (st_bind (st_lift (Ok a)) k1) (st_bind (st_lift (Ok a)) k2).
Proof. auto. Qed.
Lemma agrees_iter {A} (f1 : A -> stM S1 unit) f2 l : (forall x, agrees (f1 x) (f2 x)) -> agrees (st_iter f1 l) (st_iter f2 l).
Proof. intros Hf. induction l as [|x l IH]; cbn [st_iter]; [apply agrees_ret | now apply agrees_bind]. Qed.
End Agrees.

Create HintDb agrees.
#[export] Hint Resolve agrees_ret agrees_err agrees_panic agrees_lift : agrees.

(** Both sides have the same shape: follow it. *)
Ltac solve_agrees :=
  repeat match goal with
  | |- agrees _ (st_bind _ _) _ => apply agrees_bind; [|intros ?]
  | |- agrees _ (st_iter _ _) _ => apply agrees_iter; intros ?
  | |- agrees _ (if ?b then _ else _) _ => destruct b
  | |- agrees _ (match ?x with _ => _ end) _ => destruct x
  | |- agrees _ (st_read _) _ => apply agrees_read; solve [auto with agrees]
  | |- agrees _ _ _ => solve [auto with agrees]
  end.

Lemma try_each_ext {A} (f g : A -> outcome unit) l : (forall x, f x = g x) -> try_each f l = try_each g l.
Proof. intros Hf. induction l as [|x l IH]; cbn; [reflexivity|]. now rewrite Hf, IH. Qed.
Lemma try_enumerate_ext {A} (f g : nat -> A -> outcome unit) l : (forall i x, f i x = g i x) -> forall i, try_enumerate f i l = try_enumerate g i l.
Proof. intros Hf. induction l as [|x l IH]; intros i; cbn; [reflexivity|]. now rewrite Hf, IH. Qed.

(** ** The SQL engine on two key/value transactions *)
Class KvBisim (T1 T2 : Type) `{K1 : KvTransaction T1, K2 : KvTransaction T2} : Type := {
  kv_same : T1 -> T2 -> Prop;
  iter_same : kv_iter (T := T1) -> kv_iter (T := T2) -> Prop;
  same_get k t1 t2 : kv_same t1 t2 -> kv_get k t1 = kv_get k t2;
  same_set k v : agrees kv_same (kv_set k v) (kv_set k v);
  same_delete k : agrees kv_same (kv_delete k) (kv_delete k);
  same_items p t1 t2 : kv_same t1 t2 -> kv_scan_items p t1 = kv_scan_items p t2;
  same_scan p :
    match kv_scan_prefix (T := T1) p, kv_scan_prefix (T := T2) p with
    | Ok i1, Ok i2 => iter_same i1 i2
    | Err e1, Err e2 => e1 = e2
    | Panic p1, Panic p2 => p1 = p2
    | _, _ => False
    end;
  same_next t1 t2 i1 i2 : kv_same t1 t2 -> iter_same i1 i2 ->
    (kv_next t1 i1).1 = (kv_next t2 i2).1 /\ iter_same (kv_next t1 i1).2 (kv_next t2 i2).2;
}.

Section Sql.
Context {T1 T2 : Type} `{KvBisim T1 T2} `{F64Pow, Regex}.
Context {BT : Bincode stored_table} {BR : Bincode stored_row} {BI : Bincode stored_ids}.
#[local] Abbreviation same := (kv_same (T1 := T1) (T2 := T2)).

Lemma get_key_same k t1 t2 : same t1 t2 -> kv_get_key k t1 = kv_get_key k t2.
Proof. intros Hs. unfold kv_get_key. destruct (encode_key k); cbn; [now apply same_get | reflexivity..]. Qed.
Lemma get_index_same n c v t1 t2 : same t1 t2 -> get_index n c v t1 = get_index n c v t2.
Proof. intros Hs. unfold get_index. now rewrite (get_key_same _ t1 t2 Hs). Qed.
Lemma get_row_same n id t1 t2 : same t1 t2 -> get_row n id t1 = get_row n id t2.
Proof. intros Hs. unfold get_row. now rewrite (get_key_same _ t1 t2 Hs). Qed.
Lemma get_table_same n t1 t2 : same t1 t2 -> local_get_table n t1 = local_get_table n t2.
Proof. intros Hs. unfold local_get_table. now rewrite (get_key_same _ t1 t2 Hs). Qed.
Lemma must_get_table_same n t1 t2 : same t1 t2 -> local_must_get_table n t1 = local_must_get_table n t2.
Proof. intros Hs. unfold local_must_get_table. now rewrite (get_table_same _ t1 t2 Hs). Qed.
Lemma scan_values_same {V} (decode : bytes -> outcome V) p t1 t2 : same t1 t2 -> scan_values decode p t1 = scan_values decode p t2.
Proof. intros Hs. unfold scan_values. destruct (SqlLocal.encode_prefix p) as [raw| |]; cbn; [|reflexivity..]. now rewrite (same_items raw t1 t2 Hs). Qed.
Lemma list_tables_same t1 t2 : same t1 t2 -> local_list_tables t1 = local_list_tables t2.
Proof. intros Hs. unfold local_list_tables. now rewrite (scan_values_same _ _ t1 t2 Hs). Qed.
Lemma table_references_same n t1 t2 : same t1 t2 -> table_references n t1 = table_references n t2.
Proof. intros Hs. unfold table_references. now rewrite (list_tables_same t1 t2 Hs). Qed.
Lemma local_get_same n ids t1 t2 : same t1 t2 -> local_get n ids t1 = local_get n ids t2.
Proof. intros Hs. induction ids as [|id ids IH]; cbn; [reflexivity|]. now rewrite (get_row_same _ _ t1 t2 Hs), IH. Qed.
Lemma lookup_index_same n c vs t1 t2 : same t1 t2 -> local_lookup_index n c vs t1 = local_lookup_index n c vs t2.
Proof.
  intros Hs. unfold local_lookup_index. do 2 f_equal. apply map_ext. intros v. now apply get_index_same.
Qed.
Lemma local_scan_same n f t1 t2 : same t1 t2 -> local_scan n f t1 = local_scan n f t2.
Proof. intros Hs. unfold local_scan. now rewrite (scan_values_same _ _ t1 t2 Hs). Qed.

Lemma check_references_same tb ids t1 t2 : same t1 t2 -> check_references tb ids t1 = check_references tb ids t2.
Proof.
  intros Hs. unfold check_references. rewrite (table_references_same _ t1 t2 Hs).
  destruct (table_references (table_name tb) t2) as [refs| |]; cbn; [|reflexivity..]. apply try_each_ext. intros sr.
  apply try_each_ext. intros i. unfold check_reference, referencing_ids.
  destruct (table_column sr.1 i); cbn [outcome_bind]; [|reflexivity..].
  now rewrite (local_get_same _ _ t1 t2 Hs), (lookup_index_same _ _ _ t1 t2 Hs).
Qed.
Lemma validate_row_same tb row update t1 t2 : same t1 t2 -> local_validate_row tb row update t1 = local_validate_row tb row update t2.
Proof.
  intros Hs. unfold local_validate_row, validate_row. destruct (reject _ _); cbn [outcome_bind]; [|reflexivity..].
  destruct (row_index row (primary_key tb)) as [id| |]; cbn [outcome_bind]; [|reflexivity..]. rewrite (local_get_same _ _ t1 t2 Hs).
  destruct (reject _ _); cbn [outcome_bind]; [|reflexivity..].
  assert (forall i cv, validate_value local_get local_lookup_index tb id update t1 i cv = validate_value local_get local_lookup_index tb id update t2 i cv) as Hv.
  { intros i [c value]. unfold validate_value. rewrite (lookup_index_same _ _ _ t1 t2 Hs). destruct (references c); [|reflexivity].
    now rewrite (local_get_same _ _ t1 t2 Hs). }
  now rewrite (try_enumerate_ext _ _ _ Hv).
Qed.
Lemma validate_same tb t1 t2 : same t1 t2 -> validate local_get_table tb t1 = validate local_get_table tb t2.
Proof.
  intros Hs. unfold validate. do 3 (destruct (reject _ _); cbn [outcome_bind]; [|reflexivity..]). apply try_enumerate_ext. intros i c.
  unfold validate_column, reference_type. destruct (references c); [|reflexivity]. now rewrite (get_table_same _ t1 t2 Hs).
Qed.
#[local] Hint Resolve get_key_same get_index_same get_row_same get_table_same must_get_table_same scan_values_same list_tables_same
  table_references_same local_get_same lookup_index_same local_scan_same check_references_same validate_row_same validate_same : agrees.

Lemma set_key_agrees k v : agrees same (kv_set_key k v) (kv_set_key k v).
Proof. unfold kv_set_key. solve_agrees. apply same_set. Qed.
Lemma delete_key_agrees k : agrees same (kv_delete_key k) (kv_delete_key k).
Proof. unfold kv_delete_key. solve_agrees. apply same_delete. Qed.
#[local] Hint Resolve set_key_agrees delete_key_agrees : agrees.

Lemma update_index_agrees tb change row ic : agrees same (update_index tb change row ic) (update_index tb change row ic).
Proof. unfold update_index, set_index. solve_agrees. Qed.
#[local] Hint Resolve update_index_agrees : agrees.

Lemma local_delete_agrees n ids : agrees same (local_delete n ids) (local_delete n ids).
Proof. unfold local_delete, delete_row. solve_agrees. Qed.
Lemma local_insert_agrees n rows : agrees same (local_insert n rows) (local_insert n rows).
Proof. unfold local_insert, insert_one. solve_agrees. Qed.
#[local] Hint Resolve local_delete_agrees local_insert_agrees : agrees.

Lemma local_update_agrees n rows : agrees same (local_update n rows) (local_update n rows).
Proof. unfold local_update, update_one, move_index. solve_agrees. Qed.
Lemma create_table_agrees tb : agrees same (local_create_table tb) (local_create_table tb).
Proof. unfold local_create_table. solve_agrees. Qed.

Lemma delete_keys_agrees fuel : forall i1 i2, iter_same i1 i2 -> agrees same (delete_keys fuel i1) (delete_keys fuel i2).
Proof.
  induction fuel as [|fuel IH]; intros i1 i2 Hi; cbn [delete_keys]; [auto with agrees|]. intros t1 t2 Hs.
  destruct (same_next t1 t2 i1 i2 Hs Hi) as [Eo Hi']. destruct (kv_next t1 i1) as [o1 i1'], (kv_next t2 i2) as [o2 i2']. cbn [fst snd] in *.
  subst o2. destruct o1 as [item|]; [|auto]. revert t1 t2 Hs. change (agrees same (let! kv := st_lift item in kv_delete kv.1 ;;; delete_keys fuel i1')
    (let! kv := st_lift item in kv_delete kv.1 ;;; delete_keys fuel i2')).
  solve_agrees. apply same_delete.
Qed.
Lemma delete_prefix_agrees p : agrees same (delete_prefix p) (delete_prefix p).
Proof.
  intros t1 t2 Hs. unfold delete_prefix, st_bind, st_lift. destruct (SqlLocal.encode_prefix p) as [raw| |]; [|auto..].
  pose proof (same_scan raw) as Hsc. destruct (kv_scan_prefix raw) as [i1| |], (kv_scan_prefix raw) as [i2| |]; try easy; [|now subst..].
  rewrite (same_items raw t1 t2 Hs). now apply delete_keys_agrees.
Qed.
#[local] Hint Resolve delete_prefix_agrees : agrees.
Lemma drop_table_agrees n b : agrees same (local_drop_table n b) (local_drop_table n b).
Proof. unfold local_drop_table. solve_agrees. Qed.
End Sql.

(** ** MVCC on two engines with the same content *)
Section Engines.
Context {E1 E2 : Type} `{EngineReads E1} {EW1 : EngineWrites E1} `{EngineReads E2} {EW2 : EngineWrites E2}.
Context {BV : Bincode is_u64} {BS : Bincode all_u64} {BO : Bincode (@any (option bytes))}.

Definition same_content (e1 : E1) (e2 : E2) : Prop :=
  engine_inv e1 /\ engine_inv e2 /\ engine_abs e1 = engine_abs e2.

Lemma engine_get_same k e1 e2 : same_content e1 e2 -> engine_get k e1 = engine_get k e2.
Proof. intros (Hi1 & Hi2 & Ha). now rewrite !engine_get_spec, Ha. Qed.
Lemma engine_scan_same r e1 e2 :
  range_ok r = true -> same_content e1 e2 ->
  engine_scan r e1 = engine_scan r e2 /\ exists l, engine_scan r e2 = Ok (map Ok l) /\ scan_of r (engine_abs e2) l.
Proof.
  intros Hr (Hi1 & Hi2 & Ha). destruct (engine_scan_spec e1 r Hi1 Hr) as (l1 & -> & S1).
  destruct (engine_scan_spec e2 r Hi2 Hr) as (l2 & E2' & S2). rewrite Ha in S1. rewrite E2', (scan_of_unique _ _ _ _ S1 S2). eauto.
Qed.
Lemma engine_set_agrees k v : agrees same_content (engine_set k v) (engine_set k v).
Proof.
  intros e1 e2 (Hi1 & Hi2 & Ha). destruct (engine_set_spec e1 k v Hi1) as (e1' & -> & Hi1' & Ha1).
  destruct (engine_set_spec e2 k v Hi2) as (e2' & -> & Hi2' & Ha2). cbn. repeat split; auto. congruence.
Qed.
Lemma engine_delete_agrees k : agrees same_content (engine_delete k) (engine_delete k).
Proof.
  intros e1 e2 (Hi1 & Hi2 & Ha). destruct (engine_delete_spec e1 k Hi1) as (e1' & -> & Hi1' & Ha1).
  destruct (engine_delete_spec e2 k Hi2) as (e2' & -> & Hi2' & Ha2). cbn. repeat split; auto. congruence.
Qed.
#[local] Hint Resolve engine_get_same engine_set_agrees engine_delete_agrees : agrees.
Lemma engine_scan_agrees r : range_ok r = true -> agrees same_content (st_read (engine_scan r)) (st_read (engine_scan r)).
Proof. intros Hr. apply agrees_read. intros e1 e2 Hs. now apply engine_scan_same. Qed.

Lemma mvcc_get_key_agrees k : agrees same_content (get_key k) (get_key k).
Proof. unfold get_key. solve_agrees. Qed.
Lemma mvcc_set_key_agrees k v : agrees same_content (set_key k v) (set_key k v).
Proof. unfold set_key. solve_agrees. Qed.
Lemma mvcc_delete_key_agrees k : agrees same_content (delete_key k) (delete_key k).
Proof. unfold delete_key. solve_agrees. Qed.
Lemma scan_key_prefix_agrees p : agrees same_content (scan_key_prefix p) (scan_key_prefix p).
Proof. unfold scan_key_prefix, engine_scan_prefix. apply agrees_bind; [auto with agrees|]. intros raw. apply engine_scan_agrees, range_ok_prefix. Qed.
#[local] Hint Resolve mvcc_get_key_agrees mvcc_set_key_agrees mvcc_delete_key_agrees scan_key_prefix_agrees : agrees.

Lemma begin_agrees : agrees same_content begin begin.
Proof. unfold begin, next_version, scan_active. solve_agrees. Qed.
Lemma begin_read_only_agrees as_of : agrees same_content (begin_read_only as_of) (begin_read_only as_of).
Proof. unfold begin_read_only, next_version, scan_active. solve_agrees. Qed.
Lemma resume_agrees t : agrees same_content (resume t) (resume t).
Proof. unfold resume. solve_agrees. Qed.
Lemma commit_agrees t : agrees same_content (Mvcc.commit t) (Mvcc.commit t).
Proof. unfold Mvcc.commit. solve_agrees. Qed.
Lemma rollback_agrees t : agrees same_content (Mvcc.rollback t) (Mvcc.rollback t).
Proof. unfold Mvcc.rollback. solve_agrees. Qed.

(** *** Versions of a key *)
Lemma version_range_ok k a b : is_u64 a -> is_u64 b -> a <= b ->
  range_ok (Included (kenc (Version k a)), Included (kenc (Version k b))) = true.
Proof. intros Ha Hb Hab. cbn [range_ok]. rewrite kenc_Version_le by assumption. right. auto. Qed.

Section Txn.
Context (test : bool) (t : TransactionState) (Ht : txn_ok t).

Lemma first_version_u64 : is_u64 (match set_first (active t) with Some v => v | None => u64_add (version t) 1 end).
Proof.
  pose proof (set_first_spec (active t)) as Hf. destruct (set_first (active t)) as [v|]; [|apply u64_range]. now apply Ht.
Qed.

Lemma write_version_agrees k o : agrees same_content (write_version t k o) (write_version t k o).
Proof.
  unfold write_version. destruct (read_only t); [auto with agrees|]. rewrite !encode_kenc. pose proof first_version_u64 as Hf.
  do 2 apply agrees_lift_bind. apply agrees_bind; [|intros items; solve_agrees].
  apply engine_scan_agrees, version_range_ok; [exact Hf | unfold is_u64, u64_max; lia | apply Hf].
Qed.

Lemma get_agrees k : agrees same_content (Mvcc.get t k) (Mvcc.get t k).
Proof.
  unfold Mvcc.get. rewrite !encode_kenc. do 2 apply agrees_lift_bind. apply agrees_bind; [|intros items; solve_agrees].
  destruct Ht as [Hv _]. apply engine_scan_agrees, version_range_ok; unfold is_u64 in *; lia.
Qed.

(** *** Iterators *)
Definition iter_ok (s : ScanIterator) : Prop := forall r, remainder s = Some r -> range_ok r = true.
Definition item_below (hi : Bound bytes) (item : outcome (bytes * Z * bytes)) : Prop :=
  match item with Ok (k, v, _) => below_end hi (kenc (Version k v)) = true | _ => True end.

Lemma version_iterator_below r M l : scan_of r M l -> Forall (item_below r.2) (version_iterator t (map Ok l)).
Proof.
  intros [_ Hin]. assert (forall k v, In (k, v) l -> below_end r.2 k = true) as Hb.
  { intros k v Hk. apply Hin in Hk as [_ Hk]. now apply andb_true_iff in Hk as [_ Hk]. }
  clear Hin. induction l as [|[k v] l IH]; cbn [map version_iterator]; [constructor|].
  assert (Forall (item_below r.2) (version_iterator t (map Ok l))) as Hl by (apply IH; intros k' v' F; apply (Hb k' v'); now right).
  destruct (decode k) as [[| | | |key ver|]| |] eqn:Ek; try (constructor; [exact I | exact Hl]).
  destruct (is_visible t ver); [|exact Hl]. constructor; [|exact Hl]. apply decode_ok_inv in Ek as [-> _]. cbn. apply (Hb _ v). now left.
Qed.

Lemma fill_loop_ok hi items : forall s, Forall (item_below hi) items -> iter_ok s -> iter_ok (fill_loop test hi items s).2.
Proof.
  induction items as [|item rest IH]; intros s Hf Hs; cbn [fill_loop]; [exact Hs|]. apply Forall_cons in Hf as [Hi Hrest].
  unfold st_bind at 1, st_lift at 1. destruct item as [[[key ver] value]|e|p]; [|exact Hs..].
  set (emit := st_bind _ _). assert (forall s, iter_ok s -> iter_ok (emit s).2) as He.
  { clear s Hs. intros s Hs. subst emit. unfold st_bind, st_lift. destruct (bincode_deserialize value) as [[v|]|e|p]; [|now apply IH | exact Hs..].
    cbn [st_modify]. unfold st_read. set (s' := mkScan _ _ _). assert (iter_ok s') as Hs' by exact Hs. destruct (_ =? _)%nat; [|now apply IH].
    destruct rest as [|[[[nk nv] nval]|e|p] rest]; [exact Hs'| |exact Hs'..]. rewrite encode_kenc. cbn. intros r [= <-].
    apply range_ok_from. apply Forall_cons in Hrest as [Hn _]. exact Hn. }
  destruct rest as [|[[[nk nv] nval]|e|p] rest]; [now apply He | |exact Hs..]. case_bool_decide; [now apply IH | now apply He].
Qed.

Lemma fill_buffer_same e1 e2 s :
  same_content e1 e2 -> scan_txn s = t -> iter_ok s ->
  fill_buffer test e1 s = fill_buffer test e2 s /\ iter_ok (fill_buffer test e2 s).2.
Proof.
  intros Hs Hst Hi. unfold fill_buffer. destruct (_ <=? _)%nat; [auto|]. destruct (remainder s) as [r|] eqn:Er; [|auto].
  destruct (engine_scan_same r e1 e2 (Hi r Er) Hs) as [Es (l & El & Hl)]. unfold st_bind, st_lift. rewrite Es, El. split; [reflexivity|].
  rewrite Hst. apply fill_loop_ok; [now apply (version_iterator_below r (engine_abs e2)) | intros r' F; discriminate].
Qed.

Lemma fill_buffer_txn e s : scan_txn (fill_buffer test e s).2 = scan_txn s.
Proof.
  assert (forall hi items s, scan_txn (fill_loop test hi items s).2 = scan_txn s) as Hl.
  { clear s. intros hi. induction items as [|item rest IH]; intros s; cbn [fill_loop]; [reflexivity|].
    unfold st_bind at 1, st_lift at 1. destruct item as [[[key ver] value]|er|p]; [|reflexivity..].
    set (emit := st_bind _ _). assert (forall s, scan_txn (emit s).2 = scan_txn s) as He.
    { clear s. intros s. subst emit. unfold st_bind, st_lift. destruct (bincode_deserialize value) as [[v|]|er|p]; [|apply IH | reflexivity..].
      cbn [st_modify]. unfold st_read. destruct (_ =? _)%nat; [|now rewrite IH].
      destruct rest as [|[[[nk nv] nval]|er|p] rest]; reflexivity. }
    destruct rest as [|[[[nk nv] nval]|er|p] rest]; [apply He | |reflexivity..]. case_bool_decide; [apply IH | apply He]. }
  unfold fill_buffer. destruct (_ <=? _)%nat; [reflexivity|]. destruct (remainder s) as [r|]; [|reflexivity].
  unfold st_bind, st_lift. destruct (engine_scan r e) as [items| |]; [|reflexivity..]. now rewrite Hl.
Qed.

Definition scan_ok (s : ScanIterator) : Prop := scan_txn s = t /\ iter_ok s.

Lemma scan_next_same e1 e2 s :
  same_content e1 e2 -> scan_ok s -> scan_next test e1 s = scan_next test e2 s /\ scan_ok (scan_next test e2 s).2.
Proof.
  intros Hs [Hst Hi]. unfold scan_next. destruct (buffer s) as [|kv buf]; [|split; [reflexivity|]; split; assumption].
  destruct (fill_buffer_same e1 e2 s Hs Hst Hi) as [-> Hok]. pose proof (fill_buffer_txn e2 s) as Htx. rewrite Hst in Htx. split; [reflexivity|].
  destruct (fill_buffer test e2 s) as [[[]|er|p] s']; cbn [snd] in *; [|split; assumption..].
  destruct (buffer s') as [|kv buf]; split; assumption.
Qed.

Lemma scan_prefix_ok p s : scan_prefix t p = Ok s -> scan_ok s.
Proof. rewrite scan_prefix_eq. intros [= <-]. split; [reflexivity|]. intros r [= <-]. apply range_ok_prefix. Qed.

Lemma drain_items_same e1 e2 fuel : forall s, same_content e1 e2 -> scan_ok s -> drain_items test fuel e1 s = drain_items test fuel e2 s.
Proof.
  induction fuel as [|fuel IH]; intros s Hs Hok; cbn [drain_items]; [reflexivity|].
  destruct (scan_next_same e1 e2 s Hs Hok) as [-> Hok']. destruct (scan_next test e2 s) as [[item|] s']; [|reflexivity]. f_equal. now apply IH.
Qed.

Lemma prefix_items_same p e1 e2 : same_content e1 e2 -> prefix_items test t p e1 = prefix_items test t p e2.
Proof.
  intros Hs. unfold prefix_items. destruct (scan_prefix t p) as [s| |] eqn:Es; [|reflexivity..]. pose proof (scan_prefix_ok p s Es) as Hok.
  assert (drain_fuel e1 s = drain_fuel e2 s) as ->.
  { unfold drain_fuel. destruct (remainder s) as [r|] eqn:Er; [|reflexivity].
    now rewrite (proj1 (engine_scan_same r e1 e2 (proj2 Hok r Er) Hs)). }
  now apply drain_items_same.
Qed.

Definition mvcc_bisim : KvBisim (K1 := mvcc_kv (E := E1) test t) (K2 := mvcc_kv (E := E2) test t) E1 E2.
Proof.
  refine (@Build_KvBisim E1 E2 (mvcc_kv test t) (mvcc_kv test t) same_content (fun s1 s2 : ScanIterator => s1 = s2 /\ scan_ok s1) _ _ _ _ _ _).
  - intros k e1 e2 Hs. apply (get_agrees k e1 e2 Hs).
  - intros k v. exact (write_version_agrees k (Some v)).
  - intros k. exact (write_version_agrees k None).
  - intros p e1 e2. apply prefix_items_same.
  - intros p. cbn. destruct (scan_prefix t p) as [s| |] eqn:Es; auto. split; [reflexivity | now apply (scan_prefix_ok p)].
  - intros e1 e2 s1 s2 Hs [<- Hok]. cbn. destruct (scan_next_same e1 e2 s1 Hs Hok) as [-> Hok']. auto.
Defined.
End Txn.
End Engines.

(** ** The state machine on two engines *)
Section Machines.
Context {E1 E2 : Type} `{EngineReads E1} {EW1 : EngineWrites E1} `{EngineReads E2} {EW2 : EngineWrites E2} `{F64Pow, Regex}.
Context {BV : Bincode is_u64} {BS : Bincode all_u64} {BO : Bincode (@any (option bytes))}.
Context {BT : Bincode stored_table} {BR : Bincode stored_row} {BI : Bincode stored_ids} `{RaftCodec}.
Context (test : bool).
#[local] Abbreviation same := (same_content (E1 := E1) (E2 := E2)).

Lemma resume_result {E} `{Engine E} t (e : E) : match (resume t e).1 with Ok t' => t' = t | _ => True end.
Proof.
  unfold resume. destruct (read_only t); [reflexivity|]. unfold st_bind.
  destruct (get_key (TxnActive (version t)) e) as [[[x|]| |] e']; cbn; auto.
Qed.

Lemma resumed_agrees {A} t (f1 : SqlExec.Transaction E1 -> stM E1 A) (f2 : SqlExec.Transaction E2 -> stM E2 A) :
  txn_ok t -> agrees same (f1 (local_txn test t)) (f2 (local_txn test t)) -> agrees same (resumed test t f1) (resumed test t f2).
Proof.
  intros Ht Hf. unfold resumed. intros e1 e2 Hs. destruct (resume_agrees t e1 e2 Hs) as [Eo Hs'].
  unfold st_bind. pose proof (resume_result t e1) as H1t. destruct (resume t e1) as [o1 e1'], (resume t e2) as [o2 e2']. cbn [fst snd] in *.
  subst o2. destruct o1 as [t'| |]; [subst t'; now apply Hf | auto..].
Qed.

#[local] Hint Resolve begin_agrees resume_agrees commit_agrees rollback_agrees : agrees.
Lemma state_write_agrees w : write_ok w -> agrees same (state_write test w) (state_write test w).
Proof.
  intros Hw. destruct w as [|t|t|t n ids|t n rows|t n rows|t tb|t n b]; cbn [state_write]; [solve_agrees..| | | | |];
    (apply agrees_bind; [|intros r; auto with agrees]); (apply resumed_agrees; [apply Hw|]).
  - exact (local_delete_agrees (H := mvcc_bisim test t (proj1 Hw)) n ids).
  - exact (local_insert_agrees (H := mvcc_bisim test t (proj1 Hw)) n rows).
  - exact (local_update_agrees (H := mvcc_bisim test t (proj1 Hw)) n rows).
  - exact (create_table_agrees (H := mvcc_bisim test t (proj1 Hw)) tb).
  - exact (drop_table_agrees (H := mvcc_bisim test t (proj1 Hw)) n b).
Qed.

(** Replicas: the same content and applied index. *)
Definition replica (s1 : SqlState E1) (s2 : SqlState E2) : Prop :=
  same (local s1) (local s2) /\ applied_index s1 = applied_index s2.

Lemma record_applied_agrees entry result e1 e2 :
  same e1 e2 ->
  (record_applied entry result e1).1 = (record_applied entry result e2).1 /\
  replica (record_applied entry result e1).2 (record_applied entry result e2).2.
Proof.
  intros Hs. unfold record_applied, set_unversioned.
  destruct (mvcc_set_key_agrees (Unversioned APPLIED_INDEX_KEY) (bincode_serialize (valid := is_u64) (RaftLog.index entry)) e1 e2 Hs) as [Eo Hs'].
  destruct (set_key _ _ e1) as [o1 e1'], (set_key _ _ e2) as [o2 e2']. cbn [fst snd] in *. subst o2. split; [reflexivity|]. split; [exact Hs' | reflexivity].
Qed.

(** An entry of the log: a noop, or a command that a client encoded. *)
Definition entry_ok (entry : Entry) : Prop :=
  forall b, RaftLog.command entry = Some b -> exists w, b = encode_write w /\ write_ok w.

Lemma apply_agrees entry : entry_ok entry -> agrees replica (apply test entry) (apply test entry).
Proof.
  intros Hok s1 s2 [Hs Ha]. unfold apply. rewrite Ha. destruct (negb _); [split; [reflexivity | split; [assumption | easy]]|].
  destruct (RaftLog.command entry) as [b|] eqn:Ec; [|now apply record_applied_agrees].
  destruct (Hok b Ec) as (w & -> & Hw). rewrite (write_roundtrip w Hw).
  destruct (state_write_agrees w Hw (local s1) (local s2) Hs) as [Eo Hs'].
  destruct (state_write test w (local s1)) as [o1 e1], (state_write test w (local s2)) as [o2 e2]. cbn [fst snd] in *. subst o2.
  destruct o1 as [v|er|p]; [now apply record_applied_agrees | | split; [reflexivity | split; [assumption | easy]]].
  destruct (negb (is_deterministic er)); [split; [reflexivity | split; [assumption | easy]] | now apply record_applied_agrees].
Qed.

(** Reads, with the exception of the status, which shows the storage engine. *)
Lemma resumed_read_same {A} t (f1 : SqlExec.Transaction E1 -> E1 -> outcome A) (f2 : SqlExec.Transaction E2 -> E2 -> outcome A) e1 e2 :
  same e1 e2 -> f1 (local_txn test t) e1 = f2 (local_txn test t) e2 -> resumed_read test t f1 e1 = resumed_read test t f2 e2.
Proof.
  intros Hs Hf. unfold resumed_read, on_engine. rewrite (proj1 (resume_agrees t e1 e2 Hs)).
  pose proof (resume_result t e2) as Hr. destruct (resume t e2).1 as [t'| |]; cbn [outcome_bind]; [now subst t' | reflexivity..].
Qed.

Lemma run_read_same r e1 e2 :
  read_ok r -> r <> ReadStatus -> same e1 e2 -> run_read test r e1 = run_read test r e2.
Proof.
  intros Hr Hne Hs. destruct r as [as_of| |t n ids|t n c vs|t n f|t n|t]; [|congruence|..]; cbn [run_read].
  - unfold on_engine. now rewrite (proj1 (begin_read_only_agrees as_of e1 e2 Hs)).
  - f_equal. apply resumed_read_same; [exact Hs|]. exact (local_get_same (H := mvcc_bisim test t (proj1 Hr)) n ids e1 e2 Hs).
  - f_equal. apply resumed_read_same; [exact Hs|]. exact (lookup_index_same (H := mvcc_bisim test t (proj1 Hr)) n c vs e1 e2 Hs).
  - f_equal. apply resumed_read_same; [exact Hs|]. exact (local_scan_same (H := mvcc_bisim test t (proj1 Hr)) n f e1 e2 Hs).
  - f_equal. apply resumed_read_same; [exact Hs|]. exact (get_table_same (H := mvcc_bisim test t (proj1 Hr)) n e1 e2 Hs).
  - f_equal. apply resumed_read_same; [exact Hs|]. exact (list_tables_same (H := mvcc_bisim test t Hr) e1 e2 Hs).
Qed.

Lemma read_same r s1 s2 :
  read_ok r -> r <> ReadStatus -> replica s1 s2 -> read test (encode_read r) s1 = read test (encode_read r) s2.
Proof. intros Hr Hne [Hs _]. unfold read. rewrite (read_roundtrip r Hr). cbn [outcome_bind]. now apply run_read_same. Qed.

(** Restarting on the same content. *)
Lemma state_new_same e1 e2 :
  same e1 e2 ->
  match state_new e1, state_new e2 with
  | Ok s1, Ok s2 => replica s1 s2
  | Err er1, Err er2 => er1 = er2
  | Panic p1, Panic p2 => p1 = p2
  | _, _ => False
  end.
Proof.
  intros Hs. unfold state_new, get_unversioned. destruct (mvcc_get_key_agrees (Unversioned APPLIED_INDEX_KEY) e1 e2 Hs) as [Eo Hs'].
  destruct (get_key _ e1) as [o1 e1'], (get_key _ e2) as [o2 e2']. cbn [fst snd] in *. subst o2.
  destruct o1 as [[b|]| |]; cbn [outcome_bind]; [destruct (bincode_deserialize b); cbn [outcome_bind]| | |]; auto; split; auto.
Qed.

(** The results of a log, up to a panic. *)
Fixpoint apply_log {E} `{Engine E} (entries : list Entry) : stM (SqlState E) (list (outcome bytes)) :=
  match entries with
  | [] => st_ret []
  | entry :: entries => fun s =>
      match apply test entry s with
      | (Panic p, s) => (Panic p, s)
      | (r, s) => (let! rs := apply_log entries in st_ret (r :: rs)) s
      end
  end.

Lemma apply_log_agrees entries : Forall entry_ok entries -> agrees replica (apply_log entries) (apply_log entries).
Proof.
  induction 1 as [|entry entries Hok _ IH]; cbn [apply_log]; [apply agrees_ret|]. intros s1 s2 Hs.
  destruct (apply_agrees entry Hok s1 s2 Hs) as [Eo Hs']. destruct (apply test entry s1) as [o1 s1'], (apply test entry s2) as [o2 s2'].
  cbn [fst snd] in *. subst o2. destruct o1 as [v|er|p]; [| |auto]; (apply (agrees_bind replica); [exact IH | intros rs; apply agrees_ret | exact Hs']).
Qed.
End Machines.
