(* ===== verification/SqlRaftClaims.v ===== *)
(** * The guarantees of the Raft SQL engine

    A transaction through Raft takes effect on the replicated database as a whole
    or not at all, also when requests are left unanswered; reads return the
    database; with a concrete run on a cluster that drops requests, and what the
    state machine does with commands that it cannot decode or that it applies
    again after a crash. *)
From S2P Require Import Prelude Bytes Keycode KeycodeTheory Btree Bincode Engine Memory Bitcask BitcaskTheory RaftLog RaftNode Float64 SqlValue SqlValueTheory SqlExpr SqlPlan SqlExec SqlExprTheory SqlOptTheory SqlSchema SqlLocal SqlLocalRep SqlLocalTheory SqlLocalOps SqlStatements Mvcc MvccKeys MvccAbs MvccScan MvccSpec SqlMvcc SqlSession SqlLocalClaims SqlRaft SqlRaftTheory SqlRaftTxn SqlReplicas.

Section Claims.
Context {E : Type} `{EngineReads E} {EW : EngineWrites E} `{F64Pow, Regex}.
Context {BV : Bincode is_u64} {BS : Bincode all_u64} {BO : Bincode (@any (option bytes))}.
Context {BT : Bincode stored_table} {BR : Bincode stored_row} {BI : Bincode stored_ids} `{RaftCodec}.
Context {C : Type} `{RaftService C} (test : bool) `{!RaftServiceSpec test C}.

(** C14: an implicit transaction of write operations through the Raft SQL
    engine, on a cluster with no transaction open and no outstanding command:
    if it succeeds, the replicated database is the one the operations say, and
    consistent; if it fails with an error that is an answer of the cluster, the
    database is the one before; if a request gets no answer (it is aborted, or its
    channel fails), so that its command may be applied at any later point or
    never, then whatever the cluster applies from then on, a new transaction reads
    the database before or, if all operations were executed, the one after, and
    nothing in between.  In all cases no replica panics.  The cluster is one that
    provides [RaftServiceSpec]; as for the local engine, [ops_ok] asks for schemas
    with distinct column names, normalized floats and updates of existing rows. *)
Theorem sql_raft_transaction n D ops c :
  (service test c).1 = [] -> idle n (local (service test c).2) D -> 1 <= n < u64_max -> db_ok D -> ops_ok D ops ->
  Forall (fun op => write_ok (write_of (mkTxn n false ∅) op)) ops ->
  match raft_implicit_txn false (raft_ops ops) c with
  | (Ok _, c') => exists D', ops_effect D ops D' /\ db_ok D' /\ (service test c').1 = [] /\ idle (n + 1) (local (service test c').2) D'
  | (Err er, c') =>
      ((service test c').1 = [] /\ idle (n + 1) (local (service test c').2) D) \/
      no_answer er /\ exists D', (D' = D \/ ops_effect D ops D' /\ db_ok D') /\
        settles test (fun e => committed D e \/ committed D' e) (service test c')
  | (Panic _, _) => False
  end.
Proof.
  intros Hc Hid Hn Ho Hops Hws. apply raft_implicit_spec; auto. destruct (service test c) as [l s]. cbn in Hc. now subst l.
Qed.

(** C16: the reads of an open transaction of the Raft SQL engine return the
    database that the transaction sees, after their arguments and results have
    been encoded, sent through Raft and decoded, and leave it as it is; they fail
    only if the request gets no answer (it is aborted, or its channel fails).  The
    cluster is one that provides the interface [RaftServiceSpec]. *)
Theorem sql_raft_reads n D0 D m c :
  holds (opened test n D0 D) (service test c) -> db_ok D -> utf8_valid m = true ->
  let txn := mkTxn n false ∅ in
  answered test n D0 D (raft_get_table txn m) c (fun o => o = d_table D m) /\
  answered test n D0 D (raft_list_tables txn) c (fun tbs => forall tb, In tb tbs <-> exists m, d_table D m = Some tb) /\
  (forall ids, Forall stored ids -> answered test n D0 D (raft_get txn m ids) c (fun rows => rows = omap (d_row D m) ids)) /\
  (forall tb i cl vs, d_table D m = Some tb -> In (i, cl) (indexed_columns tb) -> Forall stored vs ->
     answered test n D0 D (raft_lookup_index txn m (col_name cl) vs) c (fun ids => StronglySorted value_lt ids /\
       forall id, In id ids <-> exists row v, d_row D m id = Some row /\ row !! i = Some v /\ In v vs)) /\
  answered test n D0 D (raft_scan txn m None) c (fun rows => exists ids, rows = map Ok (omap (d_row D m) ids) /\
    StronglySorted (fun a b => lex_lt (senc (KeyRow m a)) (senc (KeyRow m b)) = true) ids /\
    forall id, In id ids <-> is_Some (d_row D m id)).
Proof.
  intros HJ Ho Hm txn. repeat split.
  - now apply get_table_answered.
  - now apply list_tables_answered.
  - intros ids Hids. now apply get_answered.
  - intros tb i cl vs Ht Hi Hvs. destruct (wf_table D (core_wf D (proj1 Ho)) _ _ Ht) as [<- _]. now apply lookup_answered.
  - now apply scan_answered.
Qed.

(** A command that cannot be decoded is an error that does not count as applied:
    the next entry of the log then stops the node. *)
Lemma undecodable_command s term b er term' command :
  0 <= applied_index s < u64_max - 1 -> decode_write b = Err er ->
  apply test (next_entry s term (Some b)) s = (Err er, s) /\
  (apply test (mkEntry (u64_add (u64_add (applied_index s) 1) 1) term' command) s).1 = Panic "entry index not after applied index".
Proof.
  intros Hs Hb. unfold apply. cbn [next_entry RaftLog.index RaftLog.command]. rewrite Z.eqb_refl, Hb. cbn [negb]. split; [reflexivity|].
  rewrite (u64_add_small (applied_index s)), u64_add_small by (unfold is_u64; lia). now destruct (Z.eqb_spec (applied_index s + 1 + 1) (applied_index s + 1)); [lia|].
Qed.
End Claims.

(** C15: state machines on any two storage engines (memory or BitCask, say)
    that start with the same content and applied index, and apply the same log
    of empty entries and client commands: they return the same results, entry by
    entry, errors and panics included, and end with the same content and applied
    index; and then every read command other than the status returns the same on
    both. *)
Theorem sql_replicas_agree {E1 E2} `{EngineReads E1} {EW1 : EngineWrites E1} `{EngineReads E2} {EW2 : EngineWrites E2} `{F64Pow, Regex}
    {BV : Bincode is_u64} {BS : Bincode all_u64} {BO : Bincode (@any (option bytes))}
    {BT : Bincode stored_table} {BR : Bincode stored_row} {BI : Bincode stored_ids} `{RaftCodec}
    test (s1 : SqlState E1) (s2 : SqlState E2) entries r :
  replica s1 s2 -> Forall entry_ok entries -> read_ok r -> r <> ReadStatus ->
  let '(results1, s1') := apply_log test entries s1 in
  let '(results2, s2') := apply_log test entries s2 in
  results1 = results2 /\ replica s1' s2' /\ read test (encode_read r) s1' = read test (encode_read r) s2'.
Proof.
  intros Hs Hl Hr Hne. destruct (apply_log_agrees test entries Hl s1 s2 Hs) as [Eo Hs'].
  destruct (apply_log test entries s1) as [o1 s1'], (apply_log test entries s2) as [o2 s2']. cbn [fst snd] in *.
  split; [exact Eo|]. split; [exact Hs' | now apply read_same].
Qed.

(** ** Sample codecs *)
Module RaftSqlCodec.
Import SqlCodec.

Definition txn_tuple (t : TransactionState) : Z * bool * gset Z := (version t, read_only t, active t).
Definition tuple_txn (x : Z * bool * gset Z) : TransactionState := mkTxn x.1.1 x.1.2 x.2.
#[export] Instance TransactionState_eq_dec : EqDecision TransactionState.
Proof. solve_decision. Defined.
#[export] Instance TransactionState_countable : Countable TransactionState.
Proof. refine (inj_countable' txn_tuple tuple_txn _). now intros []. Defined.

(** Expressions as trees over their constants and column numbers. *)
Definition etree : Type := gen_tree (Value + nat).
Fixpoint expr_tree (e : Expression) : etree :=
  match e with
  | Constant v => GenLeaf (inl v)
  | Column i => GenLeaf (inr i)
  | Is e v => GenNode 0 [expr_tree e; GenLeaf (inl v)]
  | Not e => GenNode 1 [expr_tree e]
  | Factorial e => GenNode 2 [expr_tree e]
  | Identity e => GenNode 3 [expr_tree e]
  | Negate e => GenNode 4 [expr_tree e]
  | SquareRoot e => GenNode 5 [expr_tree e]
  | And l r => GenNode 6 [expr_tree l; expr_tree r]
  | Or l r => GenNode 7 [expr_tree l; expr_tree r]
  | Equal l r => GenNode 8 [expr_tree l; expr_tree r]
  | GreaterThan l r => GenNode 9 [expr_tree l; expr_tree r]
  | LessThan l r => GenNode 10 [expr_tree l; expr_tree r]
  | Add l r => GenNode 11 [expr_tree l; expr_tree r]
  | Divide l r => GenNode 12 [expr_tree l; expr_tree r]
  | Exponentiate l r => GenNode 13 [expr_tree l; expr_tree r]
  | Multiply l r => GenNode 14 [expr_tree l; expr_tree r]
  | Remainder l r => GenNode 15 [expr_tree l; expr_tree r]
  | Subtract l r => GenNode 16 [expr_tree l; expr_tree r]
  | Like l r => GenNode 17 [expr_tree l; expr_tree r]
  end.
Fixpoint tree_expr (t : etree) : Expression :=
  match t with
  | GenLeaf (inl v) => Constant v
  | GenLeaf (inr i) => Column i
  | GenNode 0 [e; GenLeaf (inl v)] => Is (tree_expr e) v
  | GenNode 1 [e] => Not (tree_expr e)
  | GenNode 2 [e] => Factorial (tree_expr e)
  | GenNode 3 [e] => Identity (tree_expr e)
  | GenNode 4 [e] => Negate (tree_expr e)
  | GenNode 5 [e] => SquareRoot (tree_expr e)
  | GenNode 6 [l; r] => And (tree_expr l) (tree_expr r)
  | GenNode 7 [l; r] => Or (tree_expr l) (tree_expr r)
  | GenNode 8 [l; r] => Equal (tree_expr l) (tree_expr r)
  | GenNode 9 [l; r] => GreaterThan (tree_expr l) (tree_expr r)
  | GenNode 10 [l; r] => LessThan (tree_expr l) (tree_expr r)
  | GenNode 11 [l; r] => Add (tree_expr l) (tree_expr r)
  | GenNode 12 [l; r] => Divide (tree_expr l) (tree_expr r)
  | GenNode 13 [l; r] => Exponentiate (tree_expr l) (tree_expr r)
  | GenNode 14 [l; r] => Multiply (tree_expr l) (tree_expr r)
  | GenNode 15 [l; r] => Remainder (tree_expr l) (tree_expr r)
  | GenNode 16 [l; r] => Subtract (tree_expr l) (tree_expr r)
  | GenNode 17 [l; r] => Like (tree_expr l) (tree_expr r)
  | _ => Constant Null
  end.
Lemma tree_expr_tree e : tree_expr (expr_tree e) = e.
Proof. induction e; cbn; congruence. Qed.
#[export] Instance Expression_eq_dec : EqDecision Expression.
Proof. solve_decision. Defined.
#[export] Instance Expression_countable : Countable Expression := inj_countable' expr_tree tree_expr tree_expr_tree.

Definition write_tuple : Type :=
  option (TransactionState * (bool + (Table + (bytes * (list Value + (list (list Value) + (list (Value * list Value) + bool))))))).
Definition write_code (w : Write) : write_tuple :=
  match w with
  | WriteBegin => None
  | WriteCommit t => Some (t, inl true)
  | WriteRollback t => Some (t, inl false)
  | WriteCreateTable t tb => Some (t, inr (inl tb))
  | WriteDelete t n ids => Some (t, inr (inr (n, inl ids)))
  | WriteInsert t n rows => Some (t, inr (inr (n, inr (inl rows))))
  | WriteUpdate t n rows => Some (t, inr (inr (n, inr (inr (inl rows)))))
  | WriteDropTable t n b => Some (t, inr (inr (n, inr (inr (inr b)))))
  end.
Definition code_write (x : write_tuple) : Write :=
  match x with
  | None => WriteBegin
  | Some (t, inl true) => WriteCommit t
  | Some (t, inl false) => WriteRollback t
  | Some (t, inr (inl tb)) => WriteCreateTable t tb
  | Some (t, inr (inr (n, inl ids))) => WriteDelete t n ids
  | Some (t, inr (inr (n, inr (inl rows)))) => WriteInsert t n rows
  | Some (t, inr (inr (n, inr (inr (inl rows))))) => WriteUpdate t n rows
  | Some (t, inr (inr (n, inr (inr (inr b))))) => WriteDropTable t n b
  end.
#[export] Instance Write_eq_dec : EqDecision Write.
Proof. solve_decision. Defined.
#[export] Instance Write_countable : Countable Write.
Proof. refine (inj_countable' write_code code_write _). now intros []. Defined.

Definition read_tuple : Type :=
  option (option Z) + (TransactionState * option (bytes * (option (option Expression) + (option bytes * list Value)))).
Definition read_code (r : Read) : read_tuple :=
  match r with
  | ReadStatus => inl None
  | ReadBeginReadOnly v => inl (Some v)
  | ReadListTables t => inr (t, None)
  | ReadGetTable t n => inr (t, Some (n, inl None))
  | ReadScan t n f => inr (t, Some (n, inl (Some f)))
  | ReadGet t n ids => inr (t, Some (n, inr (None, ids)))
  | ReadLookupIndex t n c vs => inr (t, Some (n, inr (Some c, vs)))
  end.
Definition code_read (x : read_tuple) : Read :=
  match x with
  | inl None => ReadStatus
  | inl (Some v) => ReadBeginReadOnly v
  | inr (t, None) => ReadListTables t
  | inr (t, Some (n, inl None)) => ReadGetTable t n
  | inr (t, Some (n, inl (Some f))) => ReadScan t n f
  | inr (t, Some (n, inr (None, ids))) => ReadGet t n ids
  | inr (t, Some (n, inr (Some c, vs))) => ReadLookupIndex t n c vs
  end.
#[export] Instance Read_eq_dec : EqDecision Read.
Proof. solve_decision. Defined.
#[export] Instance Read_countable : Countable Read.
Proof. refine (inj_countable' read_code code_read _). now intros []. Defined.

Definition status_tuple : Type := Z * Z * (string * Z * Z * Z * Z).
Definition status_code (s : MvccStatus) : status_tuple :=
  let st := status_storage s in
  (status_versions s, status_active_txns s, (status_name st, status_keys st, status_size st, status_disk_size st, status_live_disk_size st)).
Definition code_status (x : status_tuple) : MvccStatus :=
  let '(v, a, (nm, k, sz, d, l)) := x in mkMvccStatus v a (mkStatus nm k sz d l).
#[export] Instance MvccStatus_eq_dec : EqDecision MvccStatus.
Proof. intros [v a [nm k sz d l]] [v' a' [nm' k' sz' d' l']]. unfold Decision. repeat decide equality. Defined.
#[export] Instance MvccStatus_countable : Countable MvccStatus.
Proof. refine (inj_countable' status_code code_status _). now intros [v a []]. Defined.

#[export] Instance raft_sql_codec : RaftCodec := {|
  write_codec := countable_bincode _;
  read_codec := countable_bincode _;
  txn_codec := countable_bincode _;
  unit_codec := countable_bincode _;
  bool_codec := countable_bincode _;
  rows_codec := countable_bincode (A := list (list Value)) _;
  opt_table_codec := countable_bincode _;
  tables_codec := countable_bincode _;
  status_codec := countable_bincode _;
|}.
End RaftSqlCodec.

(** ** A concrete cluster

    It applies a command at once, or, as its script says, leaves it outstanding. *)
Module RaftSqlSample.
Import Sample SqlSample SqlCodec LocalSample RaftSqlCodec.

Record Flaky : Type := mkFlaky {
  script : list bool;
  flaky_cluster : cluster (E := Memory);
}.
#[export] Instance flaky_service : RaftService Flaky := {
  raft_request request c :=
    let (l, s) := flaky_cluster c in
    match request, script c with
    | ReqWrite command, true :: script => (Err Abort, mkFlaky script (command :: l, s))
    | ReqWrite command, script =>
        let (r, s') := apply false (next_entry s 1 (Some command)) s in (outcome_map RespWrite r, mkFlaky (tl script) (l, s'))
    | ReqRead command, true :: script => (Err Abort, mkFlaky script (l, s))
    | ReqRead command, script => (outcome_map RespRead (read false command s), mkFlaky (tl script) (l, s))
    | ReqStatus, _ => (Err Abort, c)
    end;
}.
#[export] Instance flaky_spec : RaftServiceSpec (E := Memory) false Flaky.
Proof.
  refine {| service := flaky_cluster |}.
  - intros command [sc [l s]] r c' Er _. exists l, s. split; [apply rtc_refl|]. cbn in Er.
    destruct sc as [|[] sc]; [|injection Er as <- <-; left; now exists Abort|];
      (destruct (apply false (next_entry s 1 (Some command)) s) as [r0 s'] eqn:Ea; injection Er as <- <-; right; eauto 6).
  - intros command [sc [l s]] r c' Er _. cbn in Er. destruct sc as [|[] sc]; injection Er as <- <-; (split; [apply rtc_refl|]); [now right | left; now exists Abort | now right].
Defined.

Definition start (sc : list bool) : Flaky := mkFlaky sc ([], mkSqlState memory_new 0).
Definition raft_run (sc : list bool) : outcome unit * Flaky := raft_implicit_txn false (raft_ops sample_ops) (start sc).

Lemma sample_writes_ok : Forall (fun op => write_ok (write_of txn1 op)) sample_ops.
Proof.
  assert (txn_ok txn1) as Ht by (split; [cbn; unfold is_u64, u64_max; cbn; lia | intros v F; set_solver]).
  assert (forall i x, -100 <= i <= 100 -> -100 <= x <= 100 -> stored_row (int_row i x)) as Hrow by exact int_row_stored.
  repeat (apply (Forall_cons_2 (fun op => write_ok (write_of txn1 op)))); [..|apply Forall_nil_2]; (split; [exact Ht|]).
  1, 2: apply sample_table_stored; auto.
  all: split; [reflexivity|]; repeat (apply (Forall_cons_2 stored_row); [apply Hrow; lia|]); apply Forall_nil_2.
Qed.

(** All requests are answered; and the commit is left outstanding. *)
Lemma sql_raft_transaction_witness :
  (exists D', ops_effect sql_empty sample_ops D' /\ db_ok D' /\ idle 2 (local (service false (raft_run []).2).2) D') /\
  let lost := raft_run [false; false; false; false; false; true] in
  lost.1 = Err Abort /\
  exists D', (D' = sql_empty \/ ops_effect sql_empty sample_ops D' /\ db_ok D') /\
    settles false (fun e => committed sql_empty e \/ committed D' e) (service false lost.2).
Proof.
  pose proof (fun sc => sql_raft_transaction false 1 sql_empty sample_ops (start sc) eq_refl idle_empty
    ltac:(unfold u64_max; lia) sql_empty_ok (sample_ops_ok _) sample_writes_ok) as Hs. split.
  - specialize (Hs []). fold (raft_run []) in Hs. assert ((raft_run []).1 = Ok tt) as Hok by (vm_compute; reflexivity).
    destruct (raft_run []) as [r c']. cbn [fst snd] in *. rewrite Hok in Hs. destruct Hs as (D' & He & Ho & _ & Hid). eauto.
  - intros lost. specialize (Hs [false; false; false; false; false; true]). fold (raft_run [false; false; false; false; false; true]) in Hs.
    fold lost in Hs. assert (lost.1 = Err Abort) as Hab by (vm_compute; reflexivity).
    assert ((service false lost.2).1 <> []) as Hne by (vm_compute; discriminate).
    destruct lost as [r c']. cbn [fst snd] in *. split; [exact Hab|]. rewrite Hab in Hs. destruct Hs as [[F _]|[_ Hs]]; [contradiction | exact Hs].
Defined.

(** The transaction before its commit. *)
Definition open_run : outcome unit * Flaky := raft_ops sample_ops txn1 (raft_begin (start [])).2.

Lemma open_run_holds : exists D, db_ok D /\ holds (opened false 1 sql_empty D) (service false open_run.2).
Proof.
  assert (1 <= 1 < u64_max) as Hn by (unfold u64_max; lia).
  assert (holds (starting 1 sql_empty) (service false (start []))) as H0 by (exists []; repeat split; [constructor | exact idle_empty]).
  pose proof (raft_begin_holds false 1 sql_empty Hn (start []) H0) as Hb. assert ((raft_begin (start [])).1 = Ok txn1) as E1 by (vm_compute; reflexivity).
  assert (open_run.1 = Ok tt) as E2 by (vm_compute; reflexivity). unfold open_run in *.
  destruct (raft_begin (start [])) as [r c1]. cbn [fst snd] in *. subst r. destruct Hb as [_ Hb].
  pose proof (raft_ops_holds false 1 sql_empty Hn sample_ops sql_empty c1 sql_empty_ok (sample_ops_ok _) sample_writes_ok Hb) as Hr.
  fold txn1 in Hr. destruct (raft_ops sample_ops txn1 c1) as [r c2]. cbn [fst snd] in *. subst r. destruct Hr as (D & [_ Ho] & HJ). eauto.
Qed.

Lemma sql_raft_reads_witness :
  exists D, db_ok D /\
    answered false 1 sql_empty D (raft_get txn1 [x61] [Integer 2]) open_run.2 (fun rows => rows = omap (d_row D [x61]) [Integer 2]) /\
    (raft_get txn1 [x61] [Integer 2] open_run.2).1 = Ok [int_row 2 7].
Proof.
  destruct open_run_holds as (D & Ho & HJ). exists D. split; [exact Ho|]. split; [|vm_compute; reflexivity].
  destruct (sql_raft_reads false 1 sql_empty D [x61] open_run.2 HJ Ho eq_refl) as (_ & _ & Hget & _).
  exact (Hget [Integer 2] ltac:(apply Forall_singleton; repeat split; discriminate)).
Defined.

(** ** Two replicas, in memory and in a BitCask file *)
Definition sample_log : list Entry :=
  let entry i w := mkEntry i 1 (Some (encode_write w)) in
  [mkEntry 1 1 None; entry 2 WriteBegin; entry 3 (WriteCreateTable txn1 table_a);
   entry 4 (WriteInsert txn1 [x61] [int_row 1 7; int_row 2 7]); entry 5 (WriteInsert txn1 [x61] [int_row 1 8]); entry 6 (WriteCommit txn1)].
Definition sample_read : Read := ReadGet (mkTxn 2 true ∅) [x61] [Integer 2].
Definition empty_bitcask : BitCask := mkBitCask (Bitcask.mkLog []) [].

Lemma sample_log_ok : Forall entry_ok sample_log.
Proof.
  assert (txn_ok txn1) as Ht by (split; [cbn; unfold is_u64, u64_max; cbn; lia | intros v F; set_solver]).
  assert (forall i w, write_ok w -> entry_ok (mkEntry i 1 (Some (encode_write w)))) as Hw by (intros i w Hw b [= <-]; eauto).
  assert (forall i x, -100 <= i <= 100 -> -100 <= x <= 100 -> stored_row (int_row i x)) as Hrow by exact int_row_stored.
  unfold sample_log. repeat (apply (Forall_cons_2 entry_ok)); [|apply Hw..|apply Forall_nil_2]; [discriminate | exact I | | | | exact Ht].
  - split; [exact Ht | apply sample_table_stored; auto].
  - split; [exact Ht|]. split; [reflexivity|]. repeat (apply (Forall_cons_2 stored_row); [apply Hrow; lia|]); apply Forall_nil_2.
  - split; [exact Ht|]. split; [reflexivity|]. repeat (apply (Forall_cons_2 stored_row); [apply Hrow; lia|]); apply Forall_nil_2.
Qed.

Lemma sql_replicas_agree_witness :
  let run1 := apply_log false sample_log (mkSqlState memory_new 0) in
  let run2 := apply_log false sample_log (mkSqlState empty_bitcask 0) in
  bitcask_new [] = Ok empty_bitcask /\ run1.1 = run2.1 /\ replica run1.2 run2.2 /\
  read false (encode_read sample_read) run2.2 = Ok (encode_rows [int_row 2 7]).
Proof.
  intros run1 run2. split; [reflexivity|].
  assert (replica (mkSqlState memory_new 0) (mkSqlState empty_bitcask 0)) as Hs.
  { split; [|reflexivity]. split; [exact memory_new_inv|]. split; [|reflexivity]. split; [constructor | intros k l []]. }
  assert (read_ok sample_read) as Hr.
  { split; [split; [cbn; unfold is_u64, u64_max; cbn; lia | intros v F; set_solver]|]. split; [reflexivity|].
    apply Forall_singleton. repeat split; discriminate. }
  pose proof (sql_replicas_agree false (mkSqlState memory_new 0) (mkSqlState empty_bitcask 0) sample_log sample_read Hs sample_log_ok Hr
    ltac:(discriminate)) as Ha. fold run1 run2 in Ha.
  assert (read false (encode_read sample_read) run1.2 = Ok (encode_rows [int_row 2 7])) as Em by (vm_compute; reflexivity).
  destruct run1 as [o1 s1], run2 as [o2 s2]. cbn [fst snd] in *. destruct Ha as (Eo & Hrep & Er). rewrite <- Er. auto.
Defined.

(** ** Commands applied again after a crash

    The node stops after the writes of a command and before the applied index is
    written; on restart it applies the entry again. *)
Definition begin_entry : Entry := mkEntry 1 1 (Some (encode_write WriteBegin)).
Definition crashed_engine : Memory := (state_write false WriteBegin memory_new).2.
Lemma begin_reapplied :
  state_new memory_new = Ok (mkSqlState memory_new 0) /\
  state_new crashed_engine = Ok (mkSqlState crashed_engine 0) /\
  (apply false begin_entry (mkSqlState memory_new 0)).1 = Ok (bincode_serialize (valid := txn_ok) (mkTxn 1 false ∅)) /\
  (apply false begin_entry (mkSqlState crashed_engine 0)).1 = Ok (bincode_serialize (valid := txn_ok) (mkTxn 2 false {[1]})).
Proof. repeat split; vm_compute; reflexivity. Qed.
End RaftSqlSample.
